(* ===== verification/_CoqProject ===== *)
-Q . S2P
Prelude.v
Utf8.v
Identity.v
Replay.v
Process.v
Terminal.v
Checkpoint.v
Projection.v
Policy.v
Transfer.v
Session.v
Atomic.v
Quota.v
Journal.v
Bytes.v
StatusReport.v
StatusScanner.v
StatusStore.v
LittleEndian.v
EventCodec.v
GuardianProtocol.v
View.v
Wire.v
Ticket.v
Diagnostics.v
Budgets.v
Queue.v
Admission.v
Context.v
Ports.v
Threads.v
Executor.v
Scheduler.v
Lifecycle.v
Registry.v
Cancellation.v
Shutdown.v
Jobs.v
Coordinator.v
Output.v
Native.v
Io.v
Worker.v
Stepping.v
Commits.v
Authority.v
Waits.v
Life.v
ObjectNames.v
Directory.v
FileStore.v
Protector.v
Cleanup.v
OsErrors.v
Guardian.v
Inputs.v
Reader.v
Supervision.v
Backend.v
Publisher.v
