(* ===== verification/Prelude.v ===== *)
(** * A verification of pty-runtime

    pty-runtime runs programs on pseudo-terminals on behalf of clients that come
    and go: it keeps a bounded replay window of each program's output, a live
    model of its terminal that can be parked to a protected checkpoint and
    restored, the status the program reports, and the process itself.  This
    library models the crates [domain], [application] and [infrastructure] and
    the encoder of the demonstration server, from the source, as executable
    definitions, and proves what makes them correct.

    ** How the parts interact

    - A client calls the [Runtime] (Lifecycle.v), which registers a session
      context (Context.v), has a projection created when the session asks for one
      (Worker.v) and has the backend spawn the process (Backend.v).
    - The reader thread of the process (Reader.v) hands its output to the context,
      which appends it to the replay buffer (Replay.v) and to the projection's
      queue (Queue.v), and tells both when it is done.
    - A worker of the pool (Scheduler.v) runs the projection's coordinator
      (Coordinator.v, Worker.v): it feeds the output to the terminal engine and to
      the status scanner (Output.v), answers views, checkpoints, transfers and
      resizes (Native.v), parks and restores the model with jobs (Jobs.v, Io.v) of
      the blocking pool (Executor.v), which protect a checkpoint (Protector.v) and
      keep it in the store (FileStore.v).
    - The supervisor thread owns each process (Supervision.v): it writes the
      input its clients queued (Inputs.v) and serves the guardian of the process
      (Guardian.v) over two channels of records (GuardianProtocol.v).

    ** Files

    Shared: Prelude.v (machine integers as bounded [Z], durations in nanoseconds,
    [result], the tactics [to_props], [len_lia] and the lemmas on lists and
    lengths), Bytes.v, Utf8.v and LittleEndian.v (what the source uses of the Rust
    standard library), Threads.v (workers around a monitor).

    crates/domain: Identity.v (identity.rs), Replay.v (replay.rs), Process.v
    (process/), Session.v (session/mod.rs), Terminal.v and View.v (terminal/),
    StatusReport.v, StatusScanner.v and StatusStore.v (terminal/program_status/),
    Checkpoint.v (checkpoint/), Projection.v (projection/mod.rs, options.rs),
    Policy.v (projection/policy.rs), Transfer.v (projection/transfer.rs).

    crates/application: Ports.v (the traits of terminal/, checkpoint/, scheduling/
    and process/, as a class of operations over one environment, and as a second
    class what a correct engine and checkpoint provider promise), Atomic.v (crates/
    atomic_update.rs, projection/coordinator.rs), Quota.v (runtime/quota.rs,
    projection/budgets.rs), Budgets.v, Diagnostics.v (diagnostics/), Ticket.v
    (projection/observation.rs), Queue.v and Admission.v (projection/admission.rs,
    queue.rs), Journal.v (projection/journal.rs, transfer.rs), Jobs.v
    (projection/blocking.rs, inflight.rs, reaper.rs), Coordinator.v
    (projection/coordinator.rs, wiring.rs, state.rs), Output.v
    (projection/program_status.rs, output.rs), Native.v (projection/native.rs,
    snapshot.rs), Io.v (projection/io.rs), Worker.v (projection/worker.rs,
    teardown.rs), Context.v (runtime/context.rs, attachment.rs, session.rs),
    Lifecycle.v (runtime/owner.rs, lifecycle.rs, projected.rs, repository.rs).

    crates/infrastructure: EventCodec.v (event_stream/codec.rs, status.rs,
    errors.rs), Publisher.v (event_stream/publisher.rs), Executor.v and Scheduler.v
    (scheduling/), ObjectNames.v, Directory.v, FileStore.v, Protector.v and Cleanup.v
    (checkpoint/), OsErrors.v, Inputs.v, Reader.v, Guardian.v, Supervision.v and
    Backend.v (process/), GuardianProtocol.v (scripts/guardian/protocol.rs).
    client/server: Wire.v (wire.rs).

    Proofs about the coordinator, which no file of the source corresponds to:
    Stepping.v (a step respects a preorder on states), Commits.v (what becomes of
    a park's commit), Authority.v, Waits.v and Life.v; about the runtime: Registry.v, Cancellation.v and Shutdown.v.

    ** How state, errors and threads are modelled

    State is a record with the fields of the source.  A fallible function answers
    [option] or [result] with the error type of the source.  A critical section is
    one definition, and what several threads do is a list of events, one per
    critical section or atomic operation, in any order; the theorems quantify over
    that list.  In the coordinator a caller's call is a list of sections, each of
    them one access to what the threads share, that yields the sections that
    follow it: [begin_call] starts a call, [Call_resume] runs the next section of
    one in progress, and calls in progress interleave with each other and with the
    worker's runs in any order.  The worker runs a long function; it is
    interrupted whenever it is about to take the admission lock, where a script
    says what the callers do next.  A ticket ends [Answered] with a result,
    [Abandoned] because its wait was gone, or [Dropped] although somebody waits,
    which is shown not to happen.
    What the code does not decide is an argument: answers of system calls, of the
    terminal engine, of ciphers and allocators, the clock, which thread a condition
    variable wakes.  Where the code relies on such a thing its documented behaviour
    is a class of laws ([EngineLaws], [StoreLaws], [AllocatorLaws] and the like),
    with an instance beside it that shows the laws can hold.

    ** What is shown

    - Projection (Life.v): a live model, or the committed checkpoint that stands for
      it, is of exactly the output fed; answers are of exact prefixes; output is fed
      once and in order; every wait is answered exactly once and none is dropped,
      also while a closing thread and the worker interleave.  No commit is
      forgotten with its disk reservation (Commits.v), and no committed source is
      lost or tried without end (Jobs.v).  Admission.v and Journal.v: staged
      work is charged exactly, and a continuation reads the accepted log or is told
      of a loss.
    - Runtime: a cancellation is never lost to the spawn it races with, shutdown
      leaves nothing running, the registry keeps what it registered (Cancellation.v,
      Shutdown.v, Registry.v); an attachment hears the stream and every charge is
      exact (Context.v).
    - Process: output reaches the events in order and its end is told once
      (Reader.v); input reaches the terminal in order and every call is settled
      (Inputs.v); controls only escalate and facts are heard once (Guardian.v);
      events are told the truth and signals have a reason (Supervision.v); the
      admission of processes is exact and shutdown strands nobody (Backend.v).
    - Pools: registrations are serialized, no wake is lost, both pools drain
      (Scheduler.v, Executor.v).
    - Event stream: with an idempotent sink the published records decode to exactly
      the events of the attachment, whatever the sink refuses (Publisher.v).
    - Storage: the store refines a map of checkpoints within its quota whatever
      system calls fail (FileStore.v), a checkpoint that was protected and stored
      opens to the state parked (Protector.v), reclamation spares live files
      (Cleanup.v).
    - Bytes: the replay window is the suffix of the stream (Replay.v); codecs round
      trip or accept only canonical records (StatusReport.v, EventCodec.v,
      GuardianProtocol.v); scanning does not depend on how the stream was cut
      (StatusScanner.v, StatusStore.v); a client of the wire protocol draws the last
      view as long as no view has more than 512 distinct styles, past which the
      encoder never returns (Wire.v); a history page that restarts the style table
      leaves stale colours on the screen ([history_reset_leaves_stale_rows]).

    ** Bounds

    [usize] has 64 bits.  Recursion that is not structural has fuel that is proved
    enough: [scan_loop] the length of its input ([scan_loop_spec]), [resolve] the
    length of the identifier ([resolve_spec]), [hex_digits] eight digits for a code
    point, [chunks_loop] the number of cells.  [flush_loop] makes at most [QUEUE_RECORDS] writes because the
    code does.  [diff_loop] and [history_loop] of Wire.v do not always end: their
    fuel is a parameter, and [style_overflow_diverges] shows that none is enough.
    The reader's turns after a stop and the spawner's steps after its message have
    bounds of their own ([reader_stops], [shutdown_completes]).

    ** Not modelled, and why

    - System calls on terminals, descriptors, signals and child processes
      (process/endpoints.rs, spawn.rs, signals.rs, watch.rs, the helper image, the
      raw directory stream of checkpoint/inventory.rs) and the helper program
      (src/helpers, scripts/guardian): their answers are arguments, their records
      are modelled.
    - The native terminal library (terminal/), the AEAD cipher and the external event
      stream: classes with laws, and only the fields the code reads.
    - In the coordinator: latency timings, a panic in the middle of a run (panics of
      the ports and between runs are modelled), [wait_for_capacity]; in the runtime:
      resource snapshots and builders; in the backend: a panic of the two threads, the
      poll set and the wake socket; everywhere: poisoned locks, joining of threads,
      zeroing of buffers, and memory orderings weaker than an interleaving.
    - projection/tier.rs (counts sessions for diagnostics), the facade crate, the
      demonstration server's socket loop, experiments and examples. *)

From stdpp Require Export base list list_numbers gmap strings numbers tactics option relations.
From Stdlib Require Export ZArith Lia.
From Stdlib Require Import Ascii.
#[export] Set Warnings "-clear-no-such-hyp".
Global Open Scope Z_scope.
Global Generalizable All Variables.

(** ** Machine integers

    A Rust unsigned integer of width [w] is a [Z] between [0] and its maximum.
    [usize] is 64 bits wide: every platform the repository names is 64-bit. *)

Definition u8_max : Z := 255.
Definition u16_max : Z := 65535.
Definition u32_max : Z := 4294967295.
Definition u64_max : Z := 18446744073709551615.
Definition usize_max : Z := u64_max.
Definition isize_max : Z := 9223372036854775807.

(** [checked_add], [checked_sub] and [checked_mul]: [None] instead of an
    overflow.  [max] is the maximum of the type. *)
Definition checked_add (max a b : Z) : option Z :=
  if a + b <=? max then Some (a + b) else None.
Definition checked_sub (a b : Z) : option Z :=
  if b <=? a then Some (a - b) else None.
Definition checked_mul (max a b : Z) : option Z :=
  if a * b <=? max then Some (a * b) else None.

Definition saturating_add (max a b : Z) : Z := Z.min (a + b) max.
Definition saturating_sub (a b : Z) : Z := Z.max (a - b) 0.
Definition saturating_mul (max a b : Z) : Z := Z.min (a * b) max.

(** [std::time::Duration] as its number of nanoseconds. *)
Definition nanos_per_sec : Z := 1000000000.
Definition duration_max : Z := (u64_max + 1) * nanos_per_sec - 1.
Definition from_secs (s : Z) : Z := s * nanos_per_sec.
Definition from_millis (ms : Z) : Z := ms * 1000000.

Definition is_byte (b : Z) : Prop := 0 <= b <= 255.

(** The length of a slice, as the [usize] Rust reports. *)
Definition len {A} (l : list A) : Z := Z.of_nat (length l).

(** A byte-string literal [b"..."]. *)
Fixpoint bs (s : string) : list Z :=
  match s with
  | EmptyString => []
  | String.String a s' => Z.of_nat (nat_of_ascii a) :: bs s'
  end.

Arguments bs _ : simpl never.

(** ** Results

    [result E A] is Rust's [Result<A, E>]; the error comes first so that
    [result E] is a monad. *)
Inductive result (E A : Type) : Type :=
  | Ok (a : A)
  | Err (e : E).
Arguments Ok {E A} a.
Arguments Err {E A} e.

#[export] Instance result_eq_dec `{EqDecision E, EqDecision A} :
  EqDecision (result E A).
Proof. solve_decision. Defined.

#[export] Instance result_ret E : MRet (result E) := λ A a, Ok a.
#[export] Instance result_bind E : MBind (result E) := λ A B k m,
  match m with Ok a => k a | Err e => Err e end.
#[export] Instance result_fmap E : FMap (result E) := λ A B f m,
  match m with Ok a => Ok (f a) | Err e => Err e end.

Definition map_err {E F A} (f : E → F) (m : result E A) : result F A :=
  match m with Ok a => Ok a | Err e => Err (f e) end.
Definition ok_or {E A} (o : option A) (e : E) : result E A :=
  match o with Some a => Ok a | None => Err e end.
Definition is_ok {E A} (m : result E A) : bool :=
  match m with Ok _ => true | Err _ => false end.
Definition is_err {E A} (m : result E A) : bool := negb (is_ok m).
Definition is_some {A} (o : option A) : bool :=
  match o with Some _ => true | None => false end.
Definition is_none {A} (o : option A) : bool := negb (is_some o).

(** ** Stateful operations

    A method [fn op(&mut self, ..) -> Result<A, E>] becomes an
    [action S E A]: the state after the call and the result.  An error keeps
    the changes made before it, as [?] does in the source. *)
Definition action (S E A : Type) : Type := S → S * result E A.

#[export] Instance action_ret S E : MRet (action S E) := λ A a s, (s, Ok a).
#[export] Instance action_bind S E : MBind (action S E) := λ A B k m s,
  match m s with
  | (s', Ok a) => k a s'
  | (s', Err e) => (s', Err e)
  end.

Definition throw {S E A} (e : E) : action S E A := λ s, (s, Err e).
Definition get {S E} : action S E S := λ s, (s, Ok s).
Definition modify {S E} (f : S → S) : action S E () := λ s, (f s, Ok tt).
Definition lift {S E A} (m : result E A) : action S E A := λ s, (s, m).
(** [if test { return Err(e) }] *)
Definition reject_if {S E} (test : S → bool) (e : E) : action S E () := λ s,
  if test s then (s, Err e) else (s, Ok tt).

(** ** Shared automation *)

(** Reduce an operation written in the monad, and split on what it tests. *)
Ltac run_action :=
  unfold mbind, mret, fmap, action_bind, action_ret, result_bind, result_ret,
    result_fmap, throw, get, modify, lift, reject_if, ok_or, map_err in *; simpl in *.

Ltac split_tests := repeat (case_match; simplify_eq/=; try done).

Lemma bool_decide_neq_false {A} `{EqDecision A} (x y : A) :
  bool_decide (x ≠ y) = false → x = y.
Proof. intros H. apply bool_decide_eq_false in H. by apply dec_stable. Qed.

Lemma is_some_true {A} (o : option A) : is_some o = true → is_Some o.
Proof. by destruct o. Qed.
Lemma is_some_false {A} (o : option A) : is_some o = false → o = None.
Proof. by destruct o. Qed.
Lemma is_none_true {A} (o : option A) : is_none o = true → o = None.
Proof. by destruct o. Qed.
Lemma is_none_false {A} (o : option A) : is_none o = false → is_Some o.
Proof. by destruct o. Qed.

(** Boolean tests of integers, in hypotheses and goal, as propositions. *)
Ltac to_props :=
  repeat match goal with
  | H : (_ <=? _) = true |- _ => apply Z.leb_le in H
  | H : (_ <=? _) = false |- _ => apply Z.leb_gt in H
  | H : (_ <? _) = true |- _ => apply Z.ltb_lt in H
  | H : (_ <? _) = false |- _ => apply Z.ltb_ge in H
  | H : (_ =? _) = true |- _ => apply Z.eqb_eq in H
  | H : (_ =? _) = false |- _ => apply Z.eqb_neq in H
  | H : (_ || _) = false |- _ => apply orb_false_iff in H as [??]
  | H : (_ && _) = true |- _ => apply andb_true_iff in H as [??]
  | H : negb _ = true |- _ => apply negb_true_iff in H
  | H : negb _ = false |- _ => apply negb_false_iff in H
  | H : is_some _ = true |- _ => apply is_some_true in H
  | H : is_some _ = false |- _ => apply is_some_false in H
  | H : is_none _ = true |- _ => apply is_none_true in H
  | H : is_none _ = false |- _ => apply is_none_false in H
  | H : bool_decide (_ ≠ _) = false |- _ => apply bool_decide_neq_false in H
  | H : bool_decide _ = true |- _ => apply bool_decide_eq_true in H
  | H : bool_decide _ = false |- _ => apply bool_decide_eq_false in H
  end.

Create HintDb runtime discriminated.

(** ** Lemmas on integers and lists *)

Lemma checked_add_Some max a b c :
  checked_add max a b = Some c ↔ c = a + b ∧ a + b <= max.
Proof. unfold checked_add. case_match; to_props; naive_solver lia. Qed.

Lemma checked_add_None max a b : checked_add max a b = None ↔ max < a + b.
Proof. unfold checked_add. case_match; to_props; naive_solver lia. Qed.

Lemma checked_sub_Some a b c : checked_sub a b = Some c ↔ c = a - b ∧ b <= a.
Proof. unfold checked_sub. case_match; to_props; naive_solver lia. Qed.

Lemma checked_sub_None a b : checked_sub a b = None ↔ a < b.
Proof. unfold checked_sub. case_match; to_props; naive_solver lia. Qed.

Lemma len_nonneg {A} (l : list A) : 0 <= len l.
Proof. unfold len. lia. Qed.

Lemma len_nil {A} : len (@nil A) = 0.
Proof. done. Qed.

Lemma len_cons {A} (x : A) l : len (x :: l) = 1 + len l.
Proof. unfold len. simpl. lia. Qed.

Lemma len_app {A} (l k : list A) : len (l ++ k) = len l + len k.
Proof. unfold len. rewrite length_app. lia. Qed.

Lemma len_zero {A} (l : list A) : len l = 0 ↔ l = [].
Proof. unfold len. destruct l; simpl; split; (done || lia). Qed.

Lemma len_take {A} n (l : list A) : 0 <= n → len (take (Z.to_nat n) l) = Z.min n (len l).
Proof. unfold len. rewrite length_take. lia. Qed.

Lemma len_drop {A} n (l : list A) : 0 <= n → len (drop (Z.to_nat n) l) = Z.max 0 (len l - n).
Proof. unfold len. rewrite length_drop. lia. Qed.

(** A test checked by computation on every integer of a range. *)
Lemma forallb_seqZ (f : Z → bool) lo n x :
  forallb f (seqZ lo n) = true → lo <= x < lo + n → f x = true.
Proof.
  rewrite forallb_forall. intros H Hx. apply H, list_elem_of_In, elem_of_seqZ. lia.
Qed.

#[export] Hint Resolve len_nonneg : runtime.

Ltac len_facts :=
  repeat match goal with
  | |- context [len ?l] =>
      lazymatch goal with
      | _ : 0 <= len l |- _ => fail
      | _ => pose proof (len_nonneg l)
      end
  | _ : context [len ?l] |- _ =>
      lazymatch goal with
      | _ : 0 <= len l |- _ => fail
      | _ => pose proof (len_nonneg l)
      end
  end.

(** [lia] for goals about the lengths of lists. *)
Ltac len_lia :=
  repeat progress (rewrite ?len_app, ?len_cons, ?len_nil in * ); len_facts; lia.

(** ** Lemmas on stateful operations *)

(** The rest of an operation once its first step has succeeded. *)
Lemma action_bind_Ok {S E A B} (m : action S E A) (k : A → action S E B) s s' a :
  m s = (s', Ok a) → (m ≫= k) s = k a s'.
Proof. intros H. unfold mbind, action_bind. by rewrite H. Qed.

(** A successful operation went through a success of its first step. *)
Lemma action_bind_inv {S E A B} (m : action S E A) (k : A → action S E B) s s'' b :
  (m ≫= k) s = (s'', Ok b) → ∃ s' a, m s = (s', Ok a) ∧ k a s' = (s'', Ok b).
Proof. unfold mbind, action_bind. destruct (m s) as [s' [a|]]; [eauto | done]. Qed.

Lemma action_bind_lift {S E A B} (r : result E A) (k : A → action S E B) s a :
  r = Ok a → (lift r ≫= k) s = k a s.
Proof. by intros ->. Qed.

Lemma lift_inv {S E A} (r : result E A) (s s' : S) a :
  lift r s = (s', Ok a) → s' = s ∧ r = Ok a.
Proof. unfold lift. intros H. by simplify_eq. Qed.

Lemma reject_if_inv {S E} (test : S → bool) (e : E) (s s' : S) a :
  reject_if test e s = (s', Ok a) → s' = s ∧ test s = false.
Proof. unfold reject_if. case_match; intros; by simplify_eq. Qed.
