(* ===== verification/Utf8.v ===== *)
(** * UTF-8 text

    Rust's [str] and [String] hold UTF-8: a string is modelled as its bytes,
    and [utf8_decode] is what [std::str::from_utf8] accepts together with the
    characters [str::chars] then yields. *)

From S2P Require Import Prelude.

Definition in_range (lo hi b : Z) : bool := (lo <=? b) && (b <=? hi).
Definition continuation (b : Z) : bool := in_range 128 191 b.

(** The second byte of a three- or four-byte sequence, after first byte [b0]:
    overlong forms, surrogates and values past U+10FFFF are excluded. *)
Definition second3 (b0 b1 : Z) : bool :=
  if b0 =? 224 then in_range 160 191 b1
  else if b0 =? 237 then in_range 128 159 b1
  else continuation b1.
Definition second4 (b0 b1 : Z) : bool :=
  if b0 =? 240 then in_range 144 191 b1
  else if b0 =? 244 then in_range 128 143 b1
  else continuation b1.

Fixpoint utf8_decode (bytes : list Z) : option (list Z) :=
  match bytes with
  | [] => Some []
  | b0 :: rest =>
    if in_range 0 127 b0 then cs ← utf8_decode rest; Some (b0 :: cs)
    else if in_range 194 223 b0 then
      match rest with
      | b1 :: rest' =>
        if continuation b1 then
          cs ← utf8_decode rest'; Some ((b0 - 192) * 64 + (b1 - 128) :: cs)
        else None
      | _ => None
      end
    else if in_range 224 239 b0 then
      match rest with
      | b1 :: b2 :: rest' =>
        if second3 b0 b1 && continuation b2 then
          cs ← utf8_decode rest';
          Some ((b0 - 224) * 4096 + (b1 - 128) * 64 + (b2 - 128) :: cs)
        else None
      | _ => None
      end
    else if in_range 240 244 b0 then
      match rest with
      | b1 :: b2 :: b3 :: rest' =>
        if second4 b0 b1 && continuation b2 && continuation b3 then
          cs ← utf8_decode rest';
          Some ((b0 - 240) * 262144 + (b1 - 128) * 4096 + (b2 - 128) * 64
                + (b3 - 128) :: cs)
        else None
      | _ => None
      end
    else None
  end.

(** [std::str::from_utf8] and [String::from_utf8]: the same bytes, checked. *)
Definition from_utf8 (bytes : list Z) : option (list Z) :=
  if is_some (utf8_decode bytes) then Some bytes else None.

(** [str::chars] of a valid string. *)
Definition chars (s : list Z) : list Z := default [] (utf8_decode s).

(** [char::is_control]: the general category Cc. *)
Definition is_control (c : Z) : bool := in_range 0 31 c || in_range 127 159 c.

(** A Unicode scalar value, the values of Rust's [char]. *)
Definition scalar_value (c : Z) : Prop :=
  0 <= c < 55296 ∨ 57344 <= c <= 1114111.

(** [char::encode_utf8]. *)
Definition utf8_char (c : Z) : list Z :=
  if c <? 128 then [c]
  else if c <? 2048 then [192 + c / 64; 128 + c mod 64]
  else if c <? 65536 then [224 + c / 4096; 128 + c / 64 mod 64; 128 + c mod 64]
  else [240 + c / 262144; 128 + c / 4096 mod 64; 128 + c / 64 mod 64; 128 + c mod 64].

Definition utf8_encode (cs : list Z) : list Z := foldr (λ c, app (utf8_char c)) [] cs.

Lemma in_range_spec lo hi b : in_range lo hi b = true ↔ lo <= b <= hi.
Proof. unfold in_range. rewrite andb_true_iff, !Z.leb_le. lia. Qed.

Lemma in_range_false lo hi b : in_range lo hi b = false ↔ b < lo ∨ hi < b.
Proof. rewrite <-not_true_iff_false, in_range_spec. lia. Qed.

Ltac solve_range :=
  repeat first
    [ rewrite in_range_spec | rewrite in_range_false
    | rewrite Z.eqb_eq | rewrite Z.eqb_neq ];
  Z.div_mod_to_equations; lia.

(** Decoding the bytes of one character puts that character in front. *)
Lemma utf8_decode_char c rest :
  scalar_value c →
  utf8_decode (utf8_char c ++ rest) = (cs ← utf8_decode rest; Some (c :: cs)).
Proof.
  intros Hc. unfold scalar_value in Hc.
  unfold utf8_char.
  destruct (Z.ltb_spec c 128).
  { simpl. replace (in_range 0 127 c) with true by (symmetry; solve_range). done. }
  destruct (Z.ltb_spec c 2048).
  { simpl.
    replace (in_range 0 127 _) with false by (symmetry; solve_range).
    replace (in_range 194 223 _) with true by (symmetry; solve_range).
    unfold continuation.
    replace (in_range 128 191 _) with true by (symmetry; solve_range).
    destruct (utf8_decode rest); simpl; [|done]. do 2 f_equal. solve_range. }
  destruct (Z.ltb_spec c 65536).
  { simpl.
    replace (in_range 0 127 _) with false by (symmetry; solve_range).
    replace (in_range 194 223 _) with false by (symmetry; solve_range).
    replace (in_range 224 239 _) with true by (symmetry; solve_range).
    assert (second3 (224 + c / 4096) (128 + c / 64 mod 64) = true) as ->.
    { unfold second3, continuation.
      destruct (_ =? 224) eqn:?; [to_props; solve_range|].
      destruct (_ =? 237) eqn:?; to_props; solve_range. }
    assert (continuation (128 + c mod 64) = true) as ->
      by (unfold continuation; solve_range).
    destruct (utf8_decode rest); simpl; [|done]. do 2 f_equal. solve_range. }
  simpl.
  replace (in_range 0 127 _) with false by (symmetry; solve_range).
  replace (in_range 194 223 _) with false by (symmetry; solve_range).
  replace (in_range 224 239 _) with false by (symmetry; solve_range).
  replace (in_range 240 244 _) with true by (symmetry; solve_range).
  assert (second4 (240 + c / 262144) (128 + c / 4096 mod 64) = true) as ->.
  { unfold second4, continuation.
    destruct (_ =? 240) eqn:?; [to_props; solve_range|].
    destruct (_ =? 244) eqn:?; to_props; solve_range. }
  assert (continuation (128 + c / 64 mod 64) = true) as ->
    by (unfold continuation; solve_range).
  assert (continuation (128 + c mod 64) = true) as ->
    by (unfold continuation; solve_range).
  destruct (utf8_decode rest); simpl; [|done]. do 2 f_equal. solve_range.
Qed.

Lemma utf8_decode_encode cs :
  Forall scalar_value cs → utf8_decode (utf8_encode cs) = Some cs.
Proof.
  induction 1 as [|c cs Hc _ IH]; [done|].
  simpl. by rewrite utf8_decode_char, IH.
Qed.

Lemma utf8_encode_bytes cs : Forall scalar_value cs → Forall is_byte (utf8_encode cs).
Proof.
  induction 1 as [|c cs Hc _ IH]; [constructor|]. simpl.
  apply Forall_app; split; [|done]. unfold utf8_char, scalar_value in *.
  repeat case_match; to_props; repeat constructor; unfold is_byte;
    Z.div_mod_to_equations; lia.
Qed.

Lemma from_utf8_Some b s : from_utf8 b = Some s → s = b ∧ is_Some (utf8_decode b).
Proof. unfold from_utf8. destruct (utf8_decode b); naive_solver. Qed.
