(* ===== verification/Identity.v ===== *)
(** * Session identities and lifetime-bound replay positions
    (crates/domain/src/identity.rs) *)

From S2P Require Import Prelude Utf8.

(** A caller-selected registry key, as the UTF-8 bytes of its [Box<str>]. *)
Inductive SessionId := mk_SessionId (value : list Z).

Inductive InvalidSessionId := mk_InvalidSessionId.

(** [SessionId::new] on a [String] (its UTF-8 bytes). *)
Definition SessionId_new (value : list Z) : result InvalidSessionId SessionId :=
  if (len value =? 0) || (128 <? len value) || existsb is_control (chars value)
  then Err mk_InvalidSessionId
  else Ok (mk_SessionId value).

(** A runtime-issued lifetime: the owner identity and its session sequence. *)
Record SessionLifetime := { lt_owner : Z; lt_sequence : Z }.

Definition SessionLifetime_new (owner sequence : Z) : SessionLifetime :=
  {| lt_owner := owner; lt_sequence := sequence |}.

(** An absolute byte position scoped to exactly one session lifetime. *)
Record ReplayCursor := { rc_lifetime : SessionLifetime; rc_offset : Z }.

#[export] Instance SessionId_eq_dec : EqDecision SessionId.
Proof. solve_decision. Defined.
#[export] Instance SessionId_countable : Countable SessionId.
Proof.
  refine (inj_countable' (λ i, match i with mk_SessionId v => v end) mk_SessionId _).
  by intros [].
Defined.
#[export] Instance SessionLifetime_eq_dec : EqDecision SessionLifetime.
Proof. solve_decision. Defined.
#[export] Instance SessionLifetime_countable : Countable SessionLifetime.
Proof.
  refine (inj_countable' (λ t, (lt_owner t, lt_sequence t))
            (λ p, SessionLifetime_new p.1 p.2) _).
  by intros [].
Defined.
#[export] Instance ReplayCursor_eq_dec : EqDecision ReplayCursor.
Proof. solve_decision. Defined.

(** A [SessionLifetime] whose fields are [u64]s. *)
Definition lifetime_wf (t : SessionLifetime) : Prop :=
  0 <= lt_owner t <= u64_max ∧ 0 <= lt_sequence t <= u64_max.
Definition cursor_wf (c : ReplayCursor) : Prop :=
  lifetime_wf (rc_lifetime c) ∧ 0 <= rc_offset c <= u64_max.
