(* ===== verification/Replay.v ===== *)
(** * Bounded replay retention (crates/domain/src/replay.rs)

    [ReplayBuffer] keeps a suffix of everything a session ever produced and
    the absolute position of its end.  The contract is stated against the
    whole produced stream, which the buffer does not store: [represents]. *)

From S2P Require Import Prelude Identity.

(** ** The growable ring buffer

    [VecDeque<u8>]: contents and allocator-visible capacity.  How much an
    allocation yields, and whether it fails, is decided by the allocator. *)
Record VecDeque := { vd_items : list Z; vd_capacity : Z }.

Class Allocator := {
  (** [try_reserve_exact] up to a wanted capacity: the new capacity, or failure. *)
  alloc_exact : Z → Z → option Z;
  (** The capacity after amortised growth to at least a wanted length. *)
  alloc_grow : Z → Z → Z
}.

(** What [std] documents of the two: a successful reservation holds what was
    asked for. *)
Class AllocatorLaws (A : Allocator) : Prop := {
  alloc_exact_enough cap want got : alloc_exact cap want = Some got → want <= got;
  alloc_grow_enough cap want : want <= alloc_grow cap want
}.

Definition VecDeque_new : VecDeque := {| vd_items := []; vd_capacity := 0 |}.

(** [drain(..n)] removes the first [n] items and keeps the allocation. *)
Definition vd_drain_front (n : Z) (v : VecDeque) : VecDeque :=
  {| vd_items := drop (Z.to_nat n) (vd_items v); vd_capacity := vd_capacity v |}.

(** ** Data *)

Inductive ReplayError :=
  | ReplayError_ForeignLifetime | ReplayError_FutureCursor
  | ReplayError_OffsetExhausted | ReplayError_EmptyPageLimit
  | ReplayError_AllocationFailed.

(** One bounded read result. *)
Inductive ReplayPage :=
  | Page_Gap (from to : ReplayCursor)
  | Page_Bytes (from next : ReplayCursor) (bytes : list Z)
  | Page_Pending.

Record ReplayBuffer := {
  rb_lifetime : SessionLifetime;
  rb_limit : Z;
  rb_end : Z;
  rb_bytes : VecDeque
}.

(** ** Operations *)

Section with_allocator.
Context `{A : Allocator}.

(** [extend] from a slice, growing only when the items no longer fit. *)
Definition vd_extend (more : list Z) (v : VecDeque) : VecDeque :=
  let items := vd_items v ++ more in
  {| vd_items := items;
     vd_capacity := if len items <=? vd_capacity v then vd_capacity v
                    else alloc_grow (vd_capacity v) (len items) |}.

Definition ReplayBuffer_new (lifetime : SessionLifetime) (limit : Z) : ReplayBuffer :=
  {| rb_lifetime := lifetime; rb_limit := limit; rb_end := 0; rb_bytes := VecDeque_new |}.

Definition with_bytes (v : VecDeque) (b : ReplayBuffer) : ReplayBuffer :=
  {| rb_lifetime := rb_lifetime b; rb_limit := rb_limit b; rb_end := rb_end b;
     rb_bytes := v |}.

Definition rb_len (b : ReplayBuffer) : Z := len (vd_items (rb_bytes b)).

(** Oldest available byte position. *)
Definition rb_floor (b : ReplayBuffer) : ReplayCursor :=
  {| rc_lifetime := rb_lifetime b; rc_offset := rb_end b - rb_len b |}.

(** Position immediately after all produced output. *)
Definition rb_end_cursor (b : ReplayBuffer) : ReplayCursor :=
  {| rc_lifetime := rb_lifetime b; rc_offset := rb_end b |}.

Definition reserve_capacity (capacity : Z) : action ReplayBuffer ReplayError Z := λ b,
  let target := Z.min capacity (rb_limit b) in
  if vd_capacity (rb_bytes b) <? target then
    (* [try_reserve_exact(target - len)] asks for room for [target] items *)
    match alloc_exact (vd_capacity (rb_bytes b)) target with
    | Some got =>
      (with_bytes {| vd_items := vd_items (rb_bytes b); vd_capacity := got |} b, Ok got)
    | None => (b, Err ReplayError_AllocationFailed)
    end
  else (b, Ok (vd_capacity (rb_bytes b))).

(** Release all retention storage, preserving the absolute stream position. *)
Definition release_storage (b : ReplayBuffer) : ReplayBuffer := with_bytes VecDeque_new b.

Definition allocated_bytes (b : ReplayBuffer) : Z := vd_capacity (rb_bytes b).

Definition append_with_limit (bytes : list Z) (retention : Z)
    : action ReplayBuffer ReplayError () := λ b,
  let limit := Z.min (rb_limit b) retention in
  match checked_add u64_max (rb_end b) (len bytes) with
  | None => (b, Err ReplayError_OffsetExhausted)
  | Some end' =>
    let suffix := drop (Z.to_nat (saturating_sub (len bytes) limit)) bytes in
    let keep_old := limit - len suffix in
    let discard := saturating_sub (rb_len b) keep_old in
    ({| rb_lifetime := rb_lifetime b; rb_limit := rb_limit b; rb_end := end';
        rb_bytes := vd_extend suffix (vd_drain_front discard (rb_bytes b)) |}, Ok tt)
  end.

Definition append (bytes : list Z) : action ReplayBuffer ReplayError () := λ b,
  append_with_limit bytes (rb_limit b) b.

(** Evict oldest bytes to satisfy external pressure. *)
Definition retain_at_most (bytes : Z) (b : ReplayBuffer) : ReplayBuffer :=
  with_bytes (vd_drain_front (saturating_sub (rb_len b) bytes) (rb_bytes b)) b.

Definition read (b : ReplayBuffer) (cursor : ReplayCursor) (max_bytes : Z)
    : result ReplayError ReplayPage :=
  if bool_decide (rc_lifetime cursor ≠ rb_lifetime b) then Err ReplayError_ForeignLifetime
  else if rb_end b <? rc_offset cursor then Err ReplayError_FutureCursor
  else if max_bytes =? 0 then Err ReplayError_EmptyPageLimit
  else
    let floor := rb_floor b in
    if rc_offset cursor <? rc_offset floor then Ok (Page_Gap cursor floor)
    else if rc_offset cursor =? rb_end b then Ok Page_Pending
    else
      let start := rc_offset cursor - rc_offset floor in
      let bytes := take (Z.to_nat max_bytes) (drop (Z.to_nat start) (vd_items (rb_bytes b))) in
      let next := {| rc_lifetime := rb_lifetime b;
                     rc_offset := rc_offset cursor + len bytes |} in
      Ok (Page_Bytes cursor next bytes).

(** ** The contract *)

(** The buffer [b] stands for the produced stream [s]: it knows where the
    stream ends and holds a suffix of it. *)
Record represents (b : ReplayBuffer) (s : list Z) : Prop := {
  rep_end : rb_end b = len s;
  rep_suffix : vd_items (rb_bytes b) `suffix_of` s
}.

(** Machine-width and allocation invariant. *)
Record replay_wf (b : ReplayBuffer) : Prop := {
  wf_limit : 0 <= rb_limit b <= usize_max;
  wf_end : rb_end b <= u64_max;
  wf_capacity : rb_len b <= vd_capacity (rb_bytes b)
}.

(** The bytes of the stream from absolute position [p] on. *)
Definition stream_from (s : list Z) (p : Z) : list Z := drop (Z.to_nat p) s.

End with_allocator.

#[export] Instance ReplayPage_eq_dec : EqDecision ReplayPage.
Proof. solve_decision. Defined.
#[export] Instance ReplayError_eq_dec : EqDecision ReplayError.
Proof. solve_decision. Defined.

(** ** Lemmas *)

Section laws.
Context `{A : Allocator} `{!AllocatorLaws A}.

Lemma suffix_drop_length (l s : list Z) :
  l `suffix_of` s → l = drop (length s - length l) s.
Proof. intros [k ->]. rewrite length_app, Nat.add_sub. by rewrite drop_app_length. Qed.

Lemma drop_suffix (n : nat) (l s : list Z) : l `suffix_of` s → drop n l `suffix_of` s.
Proof. intros [k ->]. exists (k ++ take n l). by rewrite <-app_assoc, take_drop. Qed.

Lemma replay_len_le_end b s : represents b s → 0 <= rb_len b <= rb_end b.
Proof.
  intros [-> Hs]. unfold rb_len, len. apply suffix_length in Hs. lia.
Qed.

(** The floor is where the retained suffix starts in the stream. *)
Lemma replay_items_from b s :
  represents b s → vd_items (rb_bytes b) = stream_from s (rc_offset (rb_floor b)).
Proof.
  intros Hrep. pose proof (replay_len_le_end _ _ Hrep) as Hl. destruct Hrep as [He Hs].
  unfold stream_from, rb_floor; simpl. rewrite He. unfold rb_len, len in *.
  rewrite (suffix_drop_length _ _ Hs) at 1. f_equal. lia.
Qed.

Lemma represents_new lifetime limit : represents (ReplayBuffer_new lifetime limit) [].
Proof. split; [done|]. apply suffix_nil. Qed.

Lemma represents_retain n b s : represents b s → represents (retain_at_most n b) s.
Proof. intros [He Hs]. split; [done|]. simpl. by apply drop_suffix. Qed.

Lemma represents_release b s : represents b s → represents (release_storage b) s.
Proof. intros [He Hs]. split; [done|]. apply suffix_nil. Qed.

Lemma represents_reserve n b s : represents b s → represents (reserve_capacity n b).1 s.
Proof.
  intros [He Hs]. unfold reserve_capacity. repeat case_match; by split.
Qed.

(** What the surviving part of an append is, as a list. *)
Lemma append_items_suffix (old bytes s : list Z) (d k : nat) :
  old `suffix_of` s →
  (d = 0%nat ∨ drop k old = []) →
  drop k old ++ drop d bytes `suffix_of` s ++ bytes.
Proof.
  intros Hs [->|Hk].
  - rewrite drop_0. destruct (drop_suffix k _ _ Hs) as [p Hp].
    exists p. by rewrite Hp, <-app_assoc at 1.
  - rewrite Hk. simpl. exists (s ++ take d bytes). by rewrite <-app_assoc, take_drop.
Qed.

(** The length the code leaves behind: the largest suffix within the ceiling. *)
Lemma append_len bytes retention b b' :
  0 <= rb_limit b → 0 <= retention →
  append_with_limit bytes retention b = (b', Ok tt) →
  rb_len b' = Z.min (Z.min (rb_limit b) retention) (rb_len b + len bytes).
Proof.
  intros Hl Hr. unfold append_with_limit, rb_len, saturating_sub.
  case_match; intros [= <-]; simpl.
  rewrite len_app, !len_drop by lia. len_lia.
Qed.

Lemma append_exact b s bytes retention :
  represents b s → replay_wf b → 0 <= retention →
  match append_with_limit bytes retention b with
  | (b', Ok _) =>
      represents b' (s ++ bytes) ∧ replay_wf b'
      ∧ rb_limit b' = rb_limit b ∧ rb_lifetime b' = rb_lifetime b
      ∧ vd_items (rb_bytes b') =
          stream_from (s ++ bytes)
            (len (s ++ bytes) - Z.min (Z.min (rb_limit b) retention) (rb_len b + len bytes))
  | (b', Err e) =>
      e = ReplayError_OffsetExhausted ∧ b' = b ∧ u64_max < len (s ++ bytes)
  end.
Proof.
  intros Hrep Hwf Hr. destruct (append_with_limit bytes retention b) as [b' [[]|e]] eqn:Ha.
  - pose proof (append_len _ _ _ _ (proj1 (wf_limit _ Hwf)) Hr Ha) as Hlen.
    assert (represents b' (s ++ bytes)) as Hrep'.
    { unfold append_with_limit in Ha. case_match eqn:E; simplify_eq.
      apply checked_add_Some in E as [-> _]. split; simpl.
      - rewrite (rep_end _ _ Hrep). by rewrite len_app.
      - apply append_items_suffix; [apply Hrep|].
        unfold saturating_sub, rb_len in *.
        destruct (Z_le_gt_dec (len bytes) (Z.min (rb_limit b) retention)); [left; lia|].
        right. apply nil_length_inv. rewrite length_drop.
        rewrite len_drop by lia. destruct Hwf as [[??] ? ?]. unfold len in *. lia. }
    split; [done|].
    assert (rb_limit b' = rb_limit b ∧ rb_lifetime b' = rb_lifetime b ∧ replay_wf b')
      as (-> & -> & Hwf').
    { unfold append_with_limit in Ha. case_match eqn:E; simplify_eq.
      apply checked_add_Some in E as [-> E]. do 2 (split; [done|]). destruct Hwf.
      split; simpl; [done|done|]. unfold rb_len; simpl.
      case_match; to_props; [done|]. apply alloc_grow_enough. }
    do 3 (split; [done|]). rewrite (replay_items_from _ _ Hrep').
    unfold rb_floor; simpl. by rewrite (rep_end _ _ Hrep'), Hlen.
  - unfold append_with_limit in Ha. case_match eqn:E; simplify_eq.
    apply checked_add_None in E. rewrite (rep_end _ _ Hrep) in E. rewrite len_app. done.
Qed.

Lemma read_exact b s c max :
  represents b s → rc_lifetime c = rb_lifetime b →
  0 <= rc_offset c <= len s → 0 < max →
  read b c max =
    if rc_offset c <? rc_offset (rb_floor b) then Ok (Page_Gap c (rb_floor b))
    else if rc_offset c =? len s then Ok Page_Pending
    else
      let page := take (Z.to_nat max) (stream_from s (rc_offset c)) in
      Ok (Page_Bytes c {| rc_lifetime := rb_lifetime b;
                          rc_offset := rc_offset c + len page |} page).
Proof.
  intros Hrep Hlt Ho Hm. pose proof (replay_len_le_end _ _ Hrep) as Hl.
  unfold read. rewrite bool_decide_eq_false_2 by naive_solver.
  rewrite (rep_end _ _ Hrep) in *.
  destruct (Z.ltb_spec (len s) (rc_offset c)); [lia|].
  destruct (Z.eqb_spec max 0); [lia|].
  destruct (Z.ltb_spec (rc_offset c) (rc_offset (rb_floor b))) as [|Hf]; [done|].
  destruct (Z.eqb_spec (rc_offset c) (len s)); [done|].
  rewrite (replay_items_from _ _ Hrep). unfold stream_from.
  assert (0 <= rc_offset (rb_floor b)).
  { simpl. rewrite (rep_end _ _ Hrep). lia. }
  rewrite drop_drop.
  replace (_ + _)%nat with (Z.to_nat (rc_offset c)) by lia. done.
Qed.

(** A read is pending exactly at the end of the stream. *)
Lemma read_pending b c max :
  read b c max = Ok Page_Pending ↔ rc_lifetime c = rb_lifetime b ∧ rc_offset c = rb_end b ∧ max ≠ 0.
Proof.
  unfold read, rb_floor, rb_len. simpl. pose proof (len_nonneg (vd_items (rb_bytes b))).
  case_bool_decide; [naive_solver|]. repeat (case_match; to_props); try naive_solver lia.
Qed.

End laws.

(** ** Properties *)

Section properties.
Context `{A : Allocator} `{!AllocatorLaws A}.

(** C26: appending implements the stream contract.  If the buffer stands for
    the produced stream [s], a successful append makes it stand for
    [s ++ bytes] and it retains exactly the longest suffix the configured limit
    and the admitted ceiling allow; the only failure is an exhausted 64-bit
    stream offset, and it leaves the buffer unchanged. *)
Theorem append_refines_stream b s bytes retention :
  represents b s → replay_wf b → 0 <= retention →
  match append_with_limit bytes retention b with
  | (b', Ok _) =>
      represents b' (s ++ bytes) ∧ replay_wf b'
      ∧ rb_limit b' = rb_limit b ∧ rb_lifetime b' = rb_lifetime b
      ∧ vd_items (rb_bytes b') =
          stream_from (s ++ bytes)
            (len (s ++ bytes) - Z.min (Z.min (rb_limit b) retention) (rb_len b + len bytes))
  | (b', Err e) =>
      e = ReplayError_OffsetExhausted ∧ b' = b ∧ u64_max < len (s ++ bytes)
  end.
Proof. apply append_exact. Qed.

(** a read observes exactly the produced stream.  With a cursor of this
    lifetime inside the stream and a positive page limit, the answer is: a gap
    ending at the oldest retained byte if the cursor is below it; [Pending]
    exactly at the end of the stream; otherwise a non-empty page that is a
    prefix of the stream from the cursor, of at most the limit, with the next
    cursor right after it. *)
Theorem read_observes_stream b s c max :
  represents b s → rc_lifetime c = rb_lifetime b →
  0 <= rc_offset c <= len s → 0 < max →
  read b c max =
    if rc_offset c <? rc_offset (rb_floor b) then Ok (Page_Gap c (rb_floor b))
    else if rc_offset c =? len s then Ok Page_Pending
    else
      let page := take (Z.to_nat max) (stream_from s (rc_offset c)) in
      Ok (Page_Bytes c {| rc_lifetime := rb_lifetime b;
                          rc_offset := rc_offset c + len page |} page).
Proof. apply read_exact. Qed.

End properties.

(** *** Witnesses *)

(** An allocator that grants exactly what is asked for. *)
#[export] Instance exact_allocator : Allocator :=
  {| alloc_exact _ want := Some want; alloc_grow _ want := want |}.
#[export] Instance exact_allocator_laws : AllocatorLaws exact_allocator.
Proof. split; simpl; [naive_solver lia | lia]. Qed.

Definition demo_lifetime : SessionLifetime := SessionLifetime_new 7 1.
(** A buffer of limit 4 that has seen the stream 1, 2, 3. *)
Definition demo_buffer : ReplayBuffer :=
  (append [1; 2; 3] (ReplayBuffer_new demo_lifetime 4)).1.

Lemma append_refines_stream_witness :
  represents (append_with_limit [4; 5; 6] 9 demo_buffer).1 [1; 2; 3; 4; 5; 6]
  ∧ vd_items (rb_bytes (append_with_limit [4; 5; 6] 9 demo_buffer).1) = [3; 4; 5; 6].
Proof.
  destruct (append_refines_stream demo_buffer [1; 2; 3] [4; 5; 6] 9) as (H & _ & _ & _ & Hi).
  - split; [reflexivity | exists []; reflexivity].
  - split; vm_compute; intuition discriminate.
  - lia.
  - split; [exact H | exact Hi].
Defined.

Lemma read_observes_stream_witness :
  read demo_buffer {| rc_lifetime := demo_lifetime; rc_offset := 1 |} 1
  = Ok (Page_Bytes {| rc_lifetime := demo_lifetime; rc_offset := 1 |}
                   {| rc_lifetime := demo_lifetime; rc_offset := 2 |} [2]).
Proof.
  rewrite (read_observes_stream demo_buffer [1; 2; 3]); [reflexivity|..].
  - split; [reflexivity | exists []; reflexivity].
  - reflexivity.
  - vm_compute; intuition discriminate.
  - lia.
Defined.
