(* ===== verification/Process.v ===== *)
(** * Process contracts (crates/domain/src/process/)

    Errors, exit and drain facts and per-process budgets of outcome.rs, and
    the validated command of command.rs. *)

From S2P Require Import Prelude.

(** ** Outcomes and limits (outcome.rs) *)

Inductive ProcessError :=
  | ProcessError_InvalidCommand | ProcessError_OutsideRoots | ProcessError_Capacity
  | ProcessError_Closed | ProcessError_PermissionDenied | ProcessError_NotFound
  | ProcessError_Timeout | ProcessError_Unsupported | ProcessError_Io
  | ProcessError_Internal.

(** Actual status collected from the owned child. *)
Inductive ExitStatus :=
  | ExitStatus_Code (code : Z)
  | ExitStatus_Signal (signal : Z).

(** How the reader completed, independently of actual child exit. *)
Inductive DrainOutcome :=
  | DrainOutcome_Eof
  | DrainOutcome_Truncated
  | DrainOutcome_Failed (error : ProcessError).

Record WriteOutcome := { wo_written : Z; wo_error : option ProcessError }.

#[export] Instance ProcessError_eq_dec : EqDecision ProcessError.
Proof. solve_decision. Defined.
#[export] Instance ExitStatus_eq_dec : EqDecision ExitStatus.
Proof. solve_decision. Defined.
#[export] Instance DrainOutcome_eq_dec : EqDecision DrainOutcome.
Proof. solve_decision. Defined.

(** Per-process budgets; durations are in nanoseconds. *)
Record ProcessLimits := {
  pl_input_slots : Z;
  pl_input_bytes : Z;
  pl_input_chunk : Z;
  pl_read_chunk : Z;
  pl_reader_stack_bytes : Z;
  pl_terminate_grace : Z;
  pl_drain_timeout : Z;
  pl_write_timeout : Z
}.

Definition ProcessLimits_default : ProcessLimits := {|
  pl_input_slots := 16;
  pl_input_bytes := 65536;
  pl_input_chunk := 4096;
  pl_read_chunk := 4096;
  pl_reader_stack_bytes := 128 * 1024;
  pl_terminate_grace := from_millis 250;
  pl_drain_timeout := from_millis 250;
  pl_write_timeout := from_secs 5
|}.

(** Deadline the guardian uses for its own escalation. *)
Definition guardian_grace (l : ProcessLimits) : Z :=
  let CEILING := from_secs 86400 in
  let FLOOR := from_millis 250 in
  let CAP := from_secs 5 in
  let margin := Z.min (Z.max (pl_terminate_grace l / 2) FLOOR) CAP in
  Z.min (saturating_add duration_max (pl_terminate_grace l) margin) CEILING.

Definition ProcessLimits_validate (l : ProcessLimits) : result ProcessError () :=
  if (pl_input_slots l =? 0)
     || (pl_input_chunk l =? 0)
     || (pl_input_bytes l <? pl_input_chunk l)
     || (pl_read_chunk l =? 0)
     || (65536 <? pl_read_chunk l)
     || (pl_reader_stack_bytes l <? 65536)
     || (pl_write_timeout l =? 0)
     || (pl_drain_timeout l =? 0)
     || (from_secs 86400 <? pl_terminate_grace l)
     || (from_secs 86400 <? pl_drain_timeout l)
     || (from_secs 86400 <? pl_write_timeout l)
     || (8 * 1024 * 1024 <? pl_reader_stack_bytes l)
  then Err ProcessError_Capacity
  else Ok tt.

(** ** Validated commands (command.rs)

    [OsStr] and [Path] are their encoded bytes. *)

Inductive EnvironmentPolicy := EnvironmentPolicy_Empty | EnvironmentPolicy_Inherit.

Record CommandSpec := {
  cs_executable : list Z;
  cs_cwd : list Z;
  cs_arguments : list (list Z);
  cs_environment : EnvironmentPolicy;
  cs_overrides : list (list Z * list Z);
  cs_removals : list (list Z)
}.

(** [Path::is_absolute] on Unix. *)
Definition is_absolute (path : list Z) : bool :=
  match path with b :: _ => b =? 47 | [] => false end.

Definition contains (b : Z) (bytes : list Z) : bool := existsb (Z.eqb b) bytes.

(** [validate_field]: [total] is the running sum the caller threads. *)
Definition validate_field (value : list Z) : action Z ProcessError () := λ total,
  match checked_add usize_max total (len value) with
  | None => (total, Err ProcessError_InvalidCommand)
  | Some total' =>
    if (8192 <? len value) || (65536 <? total') || contains 0 value
    then (total', Err ProcessError_InvalidCommand)
    else (total', Ok tt)
  end.

Definition validate_name (value : list Z) : action Z ProcessError () :=
  validate_field value;;
  (if (len value =? 0) || contains 61 value
   then throw ProcessError_InvalidCommand
   else mret tt).

(** [for value in values { check(value, &mut total)?; }] *)
Fixpoint validate_each {V} (check : V → action Z ProcessError ()) (values : list V)
    : action Z ProcessError () :=
  match values with
  | [] => mret tt
  | value :: rest => check value;; validate_each check rest
  end.

Definition CommandSpec_new (executable cwd : list Z) (arguments : list (list Z))
    : result ProcessError CommandSpec :=
  if negb (is_absolute executable) || negb (is_absolute cwd) || (128 <? len arguments)
  then Err ProcessError_InvalidCommand
  else
    match validate_each validate_field (executable :: cwd :: arguments) 0 with
    | (_, Err e) => Err e
    | (_, Ok _) => Ok {|
        cs_executable := executable;
        cs_cwd := cwd;
        cs_arguments := arguments;
        cs_environment := EnvironmentPolicy_Empty;
        cs_overrides := [];
        cs_removals := []
      |}
    end.

Definition sum_len (fields : list (list Z)) : Z := foldr (λ f, Z.add (len f)) 0 fields.

Definition with_environment (policy : EnvironmentPolicy) (removals : list (list Z))
    (overrides : list (list Z * list Z)) (self : CommandSpec)
    : result ProcessError CommandSpec :=
  if (128 <? len removals) || (128 <? len overrides) then Err ProcessError_InvalidCommand
  else
    let total := len (cs_executable self) + len (cs_cwd self)
                 + sum_len (cs_arguments self) in
    match (validate_each validate_name removals;;
           validate_each (λ '(name, value), validate_name name;; validate_field value)
             overrides) total with
    | (_, Err e) => Err e
    | (_, Ok _) => Ok {|
        cs_executable := cs_executable self;
        cs_cwd := cs_cwd self;
        cs_arguments := cs_arguments self;
        cs_environment := policy;
        cs_overrides := overrides;
        cs_removals := removals
      |}
    end.

(** ** The bounds the source promises *)

(** A literal field: at most 8 KiB, no NUL. *)
Definition field_ok (f : list Z) : Prop := len f <= 8192 ∧ contains 0 f = false.
(** An environment name is also non-empty and holds no [=]. *)
Definition name_ok (f : list Z) : Prop := field_ok f ∧ f ≠ [] ∧ contains 61 f = false.

(** All explicit data of a command, in the order it is charged. *)
Definition command_fields (c : CommandSpec) : list (list Z) :=
  cs_executable c :: cs_cwd c :: cs_arguments c ++ cs_removals c
  ++ foldr (λ '(k, v) acc, k :: v :: acc) [] (cs_overrides c).

Record command_ok (c : CommandSpec) : Prop := {
  cmd_exec : is_absolute (cs_executable c) = true;
  cmd_cwd : is_absolute (cs_cwd c) = true;
  cmd_arguments : len (cs_arguments c) <= 128;
  cmd_removals : len (cs_removals c) <= 128 ∧ Forall name_ok (cs_removals c);
  cmd_overrides : len (cs_overrides c) <= 128
    ∧ Forall (λ p, name_ok p.1 ∧ field_ok p.2) (cs_overrides c);
  cmd_fields : Forall field_ok (command_fields c);
  cmd_total : sum_len (command_fields c) <= 65536
}.

(** ** Lemmas *)

Lemma sum_len_nonneg fs : 0 <= sum_len fs.
Proof. induction fs as [|f fs IH]; simpl; [lia|]. len_lia. Qed.

Lemma sum_len_app fs gs : sum_len (fs ++ gs) = sum_len fs + sum_len gs.
Proof. induction fs as [|f fs IH]; simpl; [done|]. rewrite IH. lia. Qed.

(** One field passes exactly when it is well-formed and still fits. *)
Lemma validate_field_spec f total :
  0 <= total <= 65536 →
  match validate_field f total with
  | (total', Ok _) => field_ok f ∧ total' = total + len f ∧ total' <= 65536
  | (_, Err e) => e = ProcessError_InvalidCommand ∧ ¬ (field_ok f ∧ total + len f <= 65536)
  end.
Proof.
  intros Ht. unfold validate_field, field_ok, checked_add, usize_max, u64_max.
  destruct (Z.leb_spec (total + len f) 18446744073709551615).
  - destruct (_ || _) eqn:E; to_props; [|split_and!; (done || lia)].
    split; [done|]. intros [[? Hc] ?]. rewrite Hc in E.
    apply orb_true_iff in E as [[E|E]%orb_true_iff|E]; to_props; (done || lia).
  - split; [done|]. intros [_ ?]. lia.
Qed.

Lemma validate_name_spec f total :
  0 <= total <= 65536 →
  match validate_name f total with
  | (total', Ok _) => name_ok f ∧ total' = total + len f ∧ total' <= 65536
  | (_, Err e) => e = ProcessError_InvalidCommand ∧ ¬ (name_ok f ∧ total + len f <= 65536)
  end.
Proof.
  intros Ht. unfold validate_name, name_ok. run_action.
  pose proof (validate_field_spec f total Ht) as Hf.
  destruct (validate_field f total) as [total' [[]|e]]; [|naive_solver].
  destruct Hf as (Hf & -> & Hle).
  destruct ((len f =? 0) || contains 61 f) eqn:E; simpl.
  - split; [done|]. intros [(_ & Hne & Hc) _]. rewrite Hc, orb_false_r in E.
    to_props. by apply len_zero in E.
  - to_props. split_and!; try done. intros ->. done.
Qed.

(** A checker that consumes one item's bytes, run over a list. *)
Lemma validate_each_spec {V} (check : V → action Z ProcessError ())
    (ok : V → Prop) (size : V → Z) vs total :
  (∀ v, 0 <= size v) →
  (∀ v t, 0 <= t <= 65536 →
    match check v t with
    | (t', Ok _) => ok v ∧ t' = t + size v ∧ t' <= 65536
    | (_, Err e) => e = ProcessError_InvalidCommand ∧ ¬ (ok v ∧ t + size v <= 65536)
    end) →
  0 <= total <= 65536 →
  match validate_each check vs total with
  | (t', Ok _) => Forall ok vs ∧ t' = total + foldr (λ v, Z.add (size v)) 0 vs ∧ t' <= 65536
  | (_, Err e) => e = ProcessError_InvalidCommand
      ∧ ¬ (Forall ok vs ∧ total + foldr (λ v, Z.add (size v)) 0 vs <= 65536)
  end.
Proof.
  intros Hsize Hcheck. revert total. induction vs as [|v vs IH]; intros total Ht.
  - simpl. split_and!; [constructor | lia | lia].
  - assert (0 <= foldr (λ v, Z.add (size v)) 0 vs) as Hpos.
    { clear IH. induction vs as [|w vs IHv]; simpl; [lia|]. specialize (Hsize w). lia. }
    simpl. run_action. specialize (Hcheck v total Ht). specialize (Hsize v).
    destruct (check v total) as [t' [[]|e]].
    + destruct Hcheck as (Hok & -> & Hle). specialize (IH (total + size v) ltac:(lia)).
      destruct (validate_each check vs (total + size v)) as [t'' [[]|e]].
      * destruct IH as (? & -> & ?). split_and!; [by constructor | lia | lia].
      * destruct IH as [-> Hn]. split; [done|]. intros [[??]%Forall_cons ?].
        apply Hn. split; [done | lia].
    + destruct Hcheck as [-> Hn]. split; [done|]. intros [[??]%Forall_cons ?].
      apply Hn. split; [done | lia].
Qed.

Lemma sum_len_fold fs : foldr (λ v, Z.add (len v)) 0 fs = sum_len fs.
Proof. done. Qed.

Lemma sum_len_overrides (os : list (list Z * list Z)) :
  foldr (λ p, Z.add (len p.1 + len p.2)) 0 os
  = sum_len (foldr (λ '(k, v) acc, k :: v :: acc) [] os).
Proof. induction os as [|[k v] os IH]; simpl; [done|]. rewrite IH. lia. Qed.

Lemma overrides_fields_ok (os : list (list Z * list Z)) :
  Forall (λ p, name_ok p.1 ∧ field_ok p.2) os →
  Forall field_ok (foldr (λ '(k, v) acc, k :: v :: acc) [] os).
Proof.
  induction 1 as [|[k v] os [[? _] ?] _ IH]; simpl; [constructor|].
  by do 2 (apply Forall_cons; split; [done|]).
Qed.

Lemma names_fields_ok fs : Forall name_ok fs → Forall field_ok fs.
Proof. intros H. by eapply Forall_impl; [done|intros ? []]. Qed.

Lemma override_check_spec (p : list Z * list Z) t :
  0 <= t <= 65536 →
  match (λ '(name, value), validate_name name;; validate_field value) p t with
  | (t', Ok _) => (name_ok p.1 ∧ field_ok p.2) ∧ t' = t + (len p.1 + len p.2) ∧ t' <= 65536
  | (_, Err e) => e = ProcessError_InvalidCommand
      ∧ ¬ ((name_ok p.1 ∧ field_ok p.2) ∧ t + (len p.1 + len p.2) <= 65536)
  end.
Proof.
  destruct p as [k v]. intros Ht. run_action. pose proof (validate_name_spec k t Ht) as Hk.
  len_facts.
  destruct (validate_name k t) as [t' [[]|e]].
  - destruct Hk as (? & -> & ?).
    pose proof (validate_field_spec v (t + len k) ltac:(lia)) as Hv.
    destruct (validate_field v (t + len k)) as [t'' [[]|e]].
    + destruct Hv as (? & -> & ?). split_and!; (done || lia).
    + destruct Hv as [-> Hn]. split; [done|]. intros [[_ ?] ?]. apply Hn. split; [done|lia].
  - destruct Hk as [-> Hn]. split; [done|]. intros [[? _] ?]. apply Hn. split; [done|lia].
Qed.

Lemma CommandSpec_new_spec e c args :
  match CommandSpec_new e c args with
  | Ok spec => command_ok spec ∧ cs_executable spec = e ∧ cs_cwd spec = c
      ∧ cs_arguments spec = args ∧ cs_removals spec = [] ∧ cs_overrides spec = []
  | Err err => err = ProcessError_InvalidCommand
      ∧ ¬ (is_absolute e = true ∧ is_absolute c = true ∧ len args <= 128
           ∧ Forall field_ok (e :: c :: args) ∧ sum_len (e :: c :: args) <= 65536)
  end.
Proof.
  unfold CommandSpec_new. destruct (_ || _ || _) eqn:E.
  { split; [done|]. intros (He & Hc & Ha & _). rewrite He, Hc in E. simpl in E.
    to_props. lia. }
  to_props.
  pose proof (validate_each_spec validate_field field_ok len (e :: c :: args) 0
    len_nonneg validate_field_spec ltac:(lia)) as Hv.
  destruct (validate_each _ _ 0) as [t [[]|err]].
  - destruct Hv as (Hf & Ht & Hle). rewrite sum_len_fold in Ht.
    split_and!; try done. split; simpl; try done; unfold command_fields; simpl.
    + by rewrite app_nil_r.
    + rewrite app_nil_r. simpl in *. lia.
  - destruct Hv as [-> Hn]. split; [done|]. intros (_ & _ & _ & ? & ?). apply Hn.
    rewrite sum_len_fold. split; [done | lia].
Qed.

(** The environment step, for a command that passed [CommandSpec_new]. *)
Lemma with_environment_spec e c args env policy removals overrides :
  let self := {| cs_executable := e; cs_cwd := c; cs_arguments := args;
                 cs_environment := env; cs_overrides := []; cs_removals := [] |} in
  let spec := {| cs_executable := e; cs_cwd := c; cs_arguments := args;
                 cs_environment := policy; cs_overrides := overrides;
                 cs_removals := removals |} in
  command_ok self →
  match with_environment policy removals overrides self with
  | Ok spec' => command_ok spec ∧ spec' = spec
  | Err err => err = ProcessError_InvalidCommand ∧ ¬ command_ok spec
  end.
Proof.
  intros self spec [He Hc Ha _ _ Hf Ht]. subst self spec.
  unfold command_fields, with_environment in *; simpl in *. rewrite app_nil_r in *.
  destruct ((128 <? len removals) || (128 <? len overrides)) eqn:E.
  { split; [done|]. intros [_ _ _ [Hr _] [Ho _] _ _]. simpl in *.
    apply orb_true_iff in E as [E|E]; to_props; lia. }
  to_props. set (total := len e + len c + sum_len args).
  pose proof (len_nonneg e). pose proof (len_nonneg c). pose proof (sum_len_nonneg args).
  pose proof (sum_len_nonneg removals).
  pose proof (sum_len_nonneg (foldr (λ '(k, v) acc, k :: v :: acc) [] overrides)).
  pose proof (validate_each_spec validate_name name_ok len removals total len_nonneg
    validate_name_spec ltac:(lia)) as Hr. rewrite sum_len_fold in Hr.
  run_action. destruct (validate_each validate_name removals total) as [t [[]|err]].
  2: { destruct Hr as [-> Hn]. split; [done|]. intros [_ _ _ [_ Hr] _ _ Ht']. apply Hn.
       split; [done|]. unfold command_fields in Ht'; simpl in *.
       rewrite !sum_len_app in Ht'. lia. }
  destruct Hr as (Hr & -> & Hle).
  pose proof (validate_each_spec _ (λ p, name_ok p.1 ∧ field_ok p.2)
    (λ p, len p.1 + len p.2) overrides (total + sum_len removals)
    ltac:(intros p; simpl; len_lia) override_check_spec ltac:(lia)) as Ho.
  rewrite sum_len_overrides in Ho.
  destruct (validate_each _ overrides _) as [t [[]|err]].
  - destruct Ho as (Ho & -> & Hle'). split; [|done].
    split; simpl; try done; unfold command_fields; simpl; [|rewrite !sum_len_app; lia].
    do 2 apply Forall_cons in Hf as [? Hf]. do 2 (apply Forall_cons; split; [done|]).
    apply Forall_app; split; [done|].
    apply Forall_app; auto using names_fields_ok, overrides_fields_ok.
  - destruct Ho as [-> Hn]. split; [done|]. intros [_ _ _ _ [_ Ho] _ Ht']. apply Hn.
    split; [done|]. unfold command_fields in Ht'; simpl in *. rewrite !sum_len_app in Ht'. lia.
Qed.

(** ** Properties *)

(** command validation is exact.  A command the two constructors accept
    satisfies every bound they promise (absolute paths, at most 128 entries per
    collection, fields of at most 8 KiB without NUL, non-empty names without
    [=], 64 KiB in total); and a command they reject violates one of them, with
    [InvalidCommand] as the only error. *)
Theorem command_validation_exact e c args policy removals overrides :
  let spec := {| cs_executable := e; cs_cwd := c; cs_arguments := args;
                 cs_environment := policy; cs_overrides := overrides;
                 cs_removals := removals |} in
  match CommandSpec_new e c args ≫= with_environment policy removals overrides with
  | Ok spec' => command_ok spec ∧ spec' = spec
  | Err err => err = ProcessError_InvalidCommand ∧ ¬ command_ok spec
  end.
Proof.
  intros spec. pose proof (CommandSpec_new_spec e c args) as Hnew.
  destruct (CommandSpec_new e c args) as [[e' c' args' env os rs]|err]; simpl in *.
  - destruct Hnew as (Hok & -> & -> & -> & -> & ->). by apply with_environment_spec.
  - destruct Hnew as [-> Hn]. split; [done|].
    intros [He Hc Ha _ _ Hf Ht]. apply Hn. unfold command_fields in *; simpl in *.
    rewrite !sum_len_app in Ht.
    pose proof (sum_len_nonneg removals).
    pose proof (sum_len_nonneg (foldr (λ '(k, v) acc, k :: v :: acc) [] overrides)).
    do 2 apply Forall_cons in Hf as [? Hf]. apply Forall_app in Hf as [? _].
    split_and!; try done; [|lia]. by do 2 (apply Forall_cons; split; [done|]).
Qed.

(** staging of the two kill triggers.  For every grace period that
    [validate] admits, the guardian's own deadline is never earlier than the
    owner's, at most five seconds later and never past the 24-hour ceiling; and
    it is later by at least 250 ms except within the margin of the ceiling. *)
Theorem guardian_grace_staged l :
  ProcessLimits_validate l = Ok tt → 0 <= pl_terminate_grace l →
  pl_terminate_grace l <= guardian_grace l
  ∧ guardian_grace l <= pl_terminate_grace l + from_secs 5
  ∧ guardian_grace l <= from_secs 86400
  ∧ (pl_terminate_grace l + from_secs 5 <= from_secs 86400 →
     pl_terminate_grace l + from_millis 250 <= guardian_grace l).
Proof.
  unfold ProcessLimits_validate. case_match; [done|]. intros _ Hpos. to_props.
  unfold guardian_grace, saturating_add, duration_max, from_secs, from_millis,
    nanos_per_sec, u64_max in *.
  Z.div_mod_to_equations. lia.
Qed.

(** *** Witnesses *)

Lemma guardian_grace_staged_witness :
  guardian_grace ProcessLimits_default = from_millis 500
  ∧ pl_terminate_grace ProcessLimits_default + from_millis 250
    <= guardian_grace ProcessLimits_default.
Proof.
  split; [reflexivity|].
  apply (guardian_grace_staged ProcessLimits_default); vm_compute;
    first [reflexivity | discriminate].
Defined.
