(* ===== verification/Terminal.v ===== *)
(** * Terminal contracts (crates/domain/src/terminal/)

    Ordered control generations, dimensions, allocation limits, capabilities
    and errors of mod.rs, and the checkpoint metadata of checkpoint.rs. *)

From S2P Require Import Prelude Identity.

(** ** Control generations and dimensions (mod.rs) *)

(** How many ordered resizes the OS PTY and the model have both applied. *)
Inductive ControlGeneration := mk_ControlGeneration (value : Z).

Definition ControlGeneration_INITIAL : ControlGeneration := mk_ControlGeneration 0.
Definition cg_get (g : ControlGeneration) : Z :=
  match g with mk_ControlGeneration v => v end.
(** The only legal successor, or [None] once the counter is exhausted. *)
Definition cg_next (g : ControlGeneration) : option ControlGeneration :=
  mk_ControlGeneration <$> checked_add u64_max (cg_get g) 1.

Inductive TerminalError :=
  | TerminalError_InvalidConfiguration | TerminalError_BudgetExceeded
  | TerminalError_EngineFailure | TerminalError_CorruptCheckpoint
  | TerminalError_IncompatibleCheckpoint | TerminalError_StaleControl
  | TerminalError_HistoryIncomplete | TerminalError_Unsupported.

(** Validated character-cell dimensions. *)
Record TerminalSize := { ts_cols : Z; ts_rows : Z }.

(** [u32::from(cols) * u32::from(rows)]: both factors are [u16], so the
    product cannot overflow a [u32]. *)
Definition TerminalSize_new (cols rows : Z) : result TerminalError TerminalSize :=
  if (cols =? 0) || (rows =? 0) || (1048576 <? cols * rows)
  then Err TerminalError_InvalidConfiguration
  else Ok {| ts_cols := cols; ts_rows := rows |}.

Record TerminalConfig := {
  tc_size : TerminalSize;
  tc_history_bytes : Z;
  tc_continuation_bytes : Z;
  tc_reply_bytes : Z;
  tc_checkpoint_bytes : Z;
  tc_native_bytes : Z;
  tc_view_bytes : Z;
  tc_feed_bytes : Z
}.

Definition TerminalConfig_new (size : TerminalSize) : TerminalConfig := {|
  tc_size := size;
  tc_history_bytes := 1024 * 1024;
  tc_continuation_bytes := 65536;
  tc_reply_bytes := 4096;
  tc_checkpoint_bytes := 8 * 1024 * 1024;
  tc_native_bytes := 8 * 1024 * 1024;
  tc_view_bytes := 1024 * 1024;
  tc_feed_bytes := 4096
|}.

Definition TerminalConfig_validate (c : TerminalConfig)
    : result TerminalError TerminalConfig :=
  if (tc_native_bytes c =? 0)
     || (1024 * 1024 * 1024 <? tc_native_bytes c)
     || (tc_view_bytes c =? 0)
     || (64 * 1024 * 1024 <? tc_view_bytes c)
     || (256 * 1024 * 1024 <? tc_history_bytes c)
     || (tc_continuation_bytes c =? 0)
     || (1024 * 1024 <? tc_continuation_bytes c)
     || (tc_reply_bytes c =? 0)
     || (1024 * 1024 <? tc_reply_bytes c)
     || (tc_checkpoint_bytes c =? 0)
     || (512 * 1024 * 1024 <? tc_checkpoint_bytes c)
     || (tc_feed_bytes c =? 0)
     || (1024 * 1024 <? tc_feed_bytes c)
  then Err TerminalError_InvalidConfiguration
  else Ok c.

Record TerminalCapabilities := {
  cap_checkpoints : bool;
  cap_incremental_restore : bool;
  cap_mutation_during_restore : bool;
  cap_history_compression : bool
}.

(** ** Checkpoint metadata (checkpoint.rs) *)

Inductive RestorationProgress :=
  | Progress_Usable
  | Progress_Complete
  | Progress_UsableWithSkippedHistory (skipped_pages : Z)
  | Progress_FinishedWithSkippedHistory (skipped_pages : Z).

(** Whether the source has been fully consumed and validated. *)
Definition is_finished (p : RestorationProgress) : bool :=
  match p with
  | Progress_Complete | Progress_FinishedWithSkippedHistory _ => true
  | _ => false
  end.
Definition skipped_pages (p : RestorationProgress) : Z :=
  match p with
  | Progress_Usable | Progress_Complete => 0
  | Progress_UsableWithSkippedHistory n | Progress_FinishedWithSkippedHistory n => n
  end.

(** Opaque engine and binary-format identity, as UTF-8 bytes. *)
Inductive CompatibilityId := mk_CompatibilityId (value : list Z).

Definition CompatibilityId_MAX_BYTES : Z := 4096.
Definition CompatibilityId_new (value : list Z) : result TerminalError CompatibilityId :=
  if (len value =? 0) || (CompatibilityId_MAX_BYTES <? len value)
  then Err TerminalError_InvalidConfiguration
  else Ok (mk_CompatibilityId value).

Record CheckpointDescriptor := {
  cd_compatibility : CompatibilityId;
  cd_processed : ReplayCursor;
  cd_control_generation : ControlGeneration
}.

(** Owned opaque terminal state; [tk_capacity] is the capacity of the [Vec]
    that holds [tk_bytes], which the application charges. *)
Record TerminalCheckpoint := {
  tk_descriptor : CheckpointDescriptor;
  tk_bytes : list Z;
  tk_capacity : Z
}.

(** ** Type layout

    [size_of::<T>()] of the structs whose allocation the code accounts for.
    Rust leaves the layout to the compiler, so the sizes are parameters. *)
Class Layout := {
  size_of_TerminalCell : Z;
  size_of_ProgramStatusRecord : Z;
  size_of_Mutation : Z
}.
Class LayoutLaws (L : Layout) : Prop := {
  size_of_TerminalCell_nonneg : 0 <= size_of_TerminalCell;
  size_of_ProgramStatusRecord_nonneg : 0 <= size_of_ProgramStatusRecord;
  size_of_Mutation_nonneg : 0 <= size_of_Mutation
}.
Definition size_of_usize : Z := 8.

(** One possible layout, for concrete examples. *)
Definition demo_layout : Layout :=
  {| size_of_TerminalCell := 24; size_of_ProgramStatusRecord := 96; size_of_Mutation := 104 |}.

#[export] Instance ControlGeneration_eq_dec : EqDecision ControlGeneration.
Proof. solve_decision. Defined.
#[export] Instance TerminalError_eq_dec : EqDecision TerminalError.
Proof. solve_decision. Defined.
#[export] Instance TerminalSize_eq_dec : EqDecision TerminalSize.
Proof. solve_decision. Defined.
#[export] Instance RestorationProgress_eq_dec : EqDecision RestorationProgress.
Proof. solve_decision. Defined.
#[export] Instance CompatibilityId_eq_dec : EqDecision CompatibilityId.
Proof. solve_decision. Defined.
#[export] Instance CheckpointDescriptor_eq_dec : EqDecision CheckpointDescriptor.
Proof. solve_decision. Defined.

(** ** Lemmas *)

Lemma cg_next_Some g g' :
  cg_next g = Some g' ↔ cg_get g' = cg_get g + 1 ∧ cg_get g + 1 <= u64_max.
Proof.
  unfold cg_next. destruct g as [v], g' as [v']; simpl. rewrite fmap_Some. split.
  - intros (x & Hx & [= <-]). apply checked_add_Some in Hx. naive_solver.
  - intros [-> ?]. exists (v + 1). split; [|done]. by apply checked_add_Some.
Qed.

Lemma TerminalSize_new_Ok c r s :
  TerminalSize_new c r = Ok s →
  ts_cols s = c ∧ ts_rows s = r ∧ c ≠ 0 ∧ r ≠ 0 ∧ c * r <= 1048576.
Proof. unfold TerminalSize_new. case_match; [done|]. intros [= <-]. to_props. done. Qed.
