(* ===== verification/Checkpoint.v ===== *)
(** * Protected checkpoint values (crates/domain/src/checkpoint/)

    Identities, references, occupancy and errors of mod.rs and the maintenance
    limits and report of cleanup.rs. *)

From S2P Require Import Prelude Identity Terminal.

(** Immutable logical checkpoint identity. *)
Record CheckpointKey := { ck_lifetime : SessionLifetime; ck_generation : Z }.

(** Authenticated encrypted payload. *)
Record ProtectedCheckpoint := {
  pc_key : CheckpointKey;
  pc_descriptor : CheckpointDescriptor;
  pc_ciphertext : list Z
}.

(** Immutable committed identity; the object identity is 16 bytes. *)
Record CheckpointRef := {
  cr_object_id : list Z;
  cr_key : CheckpointKey;
  cr_bytes : Z
}.

Record CheckpointCapacity := {
  cc_limit_bytes : Z;
  cc_committed_bytes : Z;
  cc_abandoned_bytes : Z;
  cc_inflight_bytes : Z
}.

Inductive CheckpointError :=
  | CheckpointError_InvalidConfiguration | CheckpointError_CapacityExceeded
  | CheckpointError_AlreadyExists | CheckpointError_NotFound
  | CheckpointError_Unavailable | CheckpointError_AuthenticationFailed
  | CheckpointError_EntropyUnavailable | CheckpointError_Cancelled.

Record CheckpointCleanupLimits := {
  cl_namespaces : Z;
  cl_entries : Z;
  cl_bytes : Z
}.

Definition CheckpointCleanupLimits_default : CheckpointCleanupLimits :=
  {| cl_namespaces := 256; cl_entries := 4096; cl_bytes := 1024 * 1024 * 1024 |}.

Definition CheckpointCleanupLimits_validate (l : CheckpointCleanupLimits)
    : result CheckpointError () :=
  if (cl_namespaces l =? 0)
     || (65536 <? cl_namespaces l)
     || (cl_entries l =? 0)
     || (1000000 <? cl_entries l)
     || (cl_bytes l =? 0)
     || (Z.shiftl 1 50 <? cl_bytes l)
  then Err CheckpointError_InvalidConfiguration
  else Ok tt.

#[export] Instance CheckpointKey_eq_dec : EqDecision CheckpointKey.
Proof. solve_decision. Defined.
#[export] Instance CheckpointKey_countable : Countable CheckpointKey.
Proof.
  refine (inj_countable' (λ k, (ck_lifetime k, ck_generation k))
            (λ p, {| ck_lifetime := p.1; ck_generation := p.2 |}) _).
  by intros [].
Defined.
#[export] Instance CheckpointRef_eq_dec : EqDecision CheckpointRef.
Proof. solve_decision. Defined.
#[export] Instance CheckpointError_eq_dec : EqDecision CheckpointError.
Proof. solve_decision. Defined.
