(* ===== verification/Projection.v ===== *)
(** * Projection contracts (crates/domain/src/projection/mod.rs, options.rs)

    Residency, redacted failures, the status snapshot, and the global and
    per-session admission bounds. *)

From S2P Require Import Prelude Identity Process Terminal Checkpoint.

(** ** Residency and failures (mod.rs) *)

Inductive Residency :=
  | Resident | Parking | Parked | Restoring | Usable | Failed | Closing | Closed.

Inductive ProjectionError :=
  | ProjectionError_Capacity
  | ProjectionError_InvalidConfiguration
  | ProjectionError_Closed
  | ProjectionError_Terminal (e : TerminalError)
  | ProjectionError_Storage (e : CheckpointError)
  | ProjectionError_Process (e : ProcessError)
  | ProjectionError_Worker.

(** One consistent snapshot of authoritative positions and residency. *)
Record ProjectionStatus := {
  ps_published : ReplayCursor;
  ps_processed : ReplayCursor;
  ps_control_generation : ControlGeneration;
  ps_residency : Residency;
  ps_history : RestorationProgress;
  ps_skipped_history_pages : Z;
  ps_failure : option ProjectionError;
  ps_parking_failure : option ProjectionError
}.

(** Both sides of an ordered resize. *)
Record ResizeOutcome := {
  ro_generation : ControlGeneration;
  ro_os : result ProcessError ();
  ro_model : result ProjectionError ()
}.

#[export] Instance Residency_eq_dec : EqDecision Residency.
Proof. solve_decision. Defined.
#[export] Instance ProjectionError_eq_dec : EqDecision ProjectionError.
Proof. solve_decision. Defined.
#[export] Instance ProjectionStatus_eq_dec : EqDecision ProjectionStatus.
Proof. solve_decision. Defined.

(** [matches!(residency, Residency::Closing | Residency::Closed)] *)
Definition closing_or_closed (r : Residency) : bool :=
  match r with Closing | Closed => true | _ => false end.

(** ** Admission bounds (options.rs) *)

Record ProjectionLimits := {
  lim_journal_bytes : Z;
  lim_journal_slots : Z;
  lim_transfer_observers : Z;
  lim_staging_bytes : Z;
  lim_staging_slots : Z;
  lim_resident_bytes : Z;
  lim_checkpoint_bytes : Z;
  lim_stored_bytes : Z;
  lim_stored_slots : Z;
  lim_view_bytes : Z;
  lim_request_slots : Z
}.

Definition ProjectionLimits_default : ProjectionLimits := {|
  lim_journal_bytes := 16 * 1024 * 1024;
  lim_journal_slots := 4096;
  lim_transfer_observers := 2048;
  lim_staging_bytes := 64 * 1024 * 1024;
  lim_staging_slots := 16384;
  lim_resident_bytes := 1024 * 1024 * 1024;
  lim_checkpoint_bytes := 512 * 1024 * 1024;
  lim_stored_bytes := 1024 * 1024 * 1024;
  lim_stored_slots := 4096;
  lim_view_bytes := 128 * 1024 * 1024;
  lim_request_slots := 4096
|}.

Definition ProjectionLimits_validate (l : ProjectionLimits)
    : result ProjectionError ProjectionLimits :=
  let limits := [lim_journal_bytes l; lim_journal_slots l; lim_transfer_observers l;
                 lim_staging_bytes l; lim_staging_slots l; lim_resident_bytes l;
                 lim_checkpoint_bytes l; lim_stored_bytes l; lim_stored_slots l;
                 lim_view_bytes l; lim_request_slots l] in
  if (65536 <? lim_stored_slots l)
     || existsb (λ v, (v =? 0) || (isize_max <? v)) limits
  then Err ProjectionError_InvalidConfiguration
  else Ok l.

Record ProjectionOptions := {
  po_journal_bytes : Z;
  po_journal_slots : Z;
  po_transfer_observers : Z;
  po_terminal : TerminalConfig;
  po_program_status_records : Z;
  po_staging_bytes : Z;
  po_staging_slots : Z;
  po_request_slots : Z;
  po_park_after : Z;
  po_retry_after : Z;
  po_max_park_attempts : Z;
  po_max_delete_attempts : Z
}.

Definition ProjectionOptions_new (terminal : TerminalConfig) : ProjectionOptions := {|
  po_terminal := terminal;
  po_program_status_records := 256;
  po_journal_bytes := 1024 * 1024;
  po_journal_slots := 256;
  po_transfer_observers := 32;
  po_staging_bytes := 2 * 1024 * 1024;
  po_staging_slots := 256;
  po_request_slots := 32;
  po_park_after := from_secs 60;
  po_retry_after := from_secs 5;
  po_max_park_attempts := 3;
  po_max_delete_attempts := 3
|}.

Section layout.
Context `{L : Layout}.

(** Native view text cap plus all admitted cell structs. *)
Definition view_reservation (o : ProjectionOptions) : result ProjectionError Z :=
  let size := tc_size (po_terminal o) in
  match checked_mul usize_max (ts_cols size * ts_rows size) size_of_TerminalCell with
  | None => Err ProjectionError_InvalidConfiguration
  | Some v => ok_or (checked_add usize_max v (tc_view_bytes (po_terminal o)))
                ProjectionError_InvalidConfiguration
  end.

Definition ProjectionOptions_validate (o : ProjectionOptions)
    : result ProjectionError ProjectionOptions :=
  match TerminalConfig_validate (po_terminal o) with
  | Err e => Err (ProjectionError_Terminal e)
  | Ok _ =>
    if negb ((64 <=? po_program_status_records o) && (po_program_status_records o <=? 256))
       || (po_journal_bytes o =? 0)
       || (isize_max <? po_journal_bytes o)
       || (po_journal_slots o =? 0)
       || (1048576 <? po_journal_slots o)
       || (po_transfer_observers o =? 0)
       || (1048576 <? po_transfer_observers o)
       || (po_staging_bytes o <? tc_feed_bytes (po_terminal o))
       || (isize_max <? po_staging_bytes o)
       || (po_staging_slots o =? 0)
       || (1048576 <? po_staging_slots o)
       || (po_request_slots o =? 0)
       || (1048576 <? po_request_slots o)
       || (po_park_after o =? 0)
       || (po_retry_after o =? 0)
       || (from_secs (86400 * 365) <? po_park_after o)
       || (from_secs (86400 * 365) <? po_retry_after o)
       || (po_max_park_attempts o =? 0)
       || (100 <? po_max_park_attempts o)
       || (po_max_delete_attempts o =? 0)
       || (100 <? po_max_delete_attempts o)
    then Err ProjectionError_InvalidConfiguration
    else view_reservation o ≫= λ _, Ok o
  end.

Lemma ProjectionOptions_validate_Ok o o' :
  ProjectionOptions_validate o = Ok o' →
  o' = o ∧ po_max_park_attempts o ≠ 0 ∧ po_max_park_attempts o <= 100
  ∧ po_max_delete_attempts o ≠ 0
  ∧ po_park_after o ≠ 0 ∧ po_retry_after o ≠ 0
  ∧ tc_feed_bytes (po_terminal o) <= po_staging_bytes o
  ∧ 64 <= po_program_status_records o <= 256.
Proof.
  unfold ProjectionOptions_validate. destruct (TerminalConfig_validate _); [|done].
  match goal with |- context [if ?b then _ else _] => destruct b eqn:E end; [done|].
  destruct (view_reservation o); [|done]. intros [= <-]. to_props. tauto.
Qed.

End layout.
