(* ===== verification/Policy.v ===== *)
(** * Residency and parking policy (crates/domain/src/projection/policy.rs)

    [ProjectionPolicy] is the pure state machine of one projection: published
    and processed positions, residency, and the versioned parking attempts.
    Every method is an operation below; [policy_op] collects them so that a
    history of calls is a list of operations. *)

From S2P Require Import Prelude Identity Process Terminal Checkpoint Projection.

(** ** Data *)

(** Immutable parking identity. *)
Record ParkAttempt := {
  pa_generation : Z;
  pa_activity : Z;
  pa_processed : ReplayCursor;
  pa_control_generation : ControlGeneration
}.

Record ProjectionPolicy := {
  pp_status : ProjectionStatus;
  pp_options : ProjectionOptions;
  pp_activity : Z;
  pp_operation : Z;
  pp_last_activity : Z;
  pp_retry_at : Z;
  pp_attempts : Z
}.

Definition pp_residency (p : ProjectionPolicy) : Residency := ps_residency (pp_status p).

(** Field assignments [self.status.f = v] and [self.f = v]. *)
Definition set_status (s : ProjectionStatus) (p : ProjectionPolicy) : ProjectionPolicy := {|
  pp_status := s; pp_options := pp_options p; pp_activity := pp_activity p;
  pp_operation := pp_operation p; pp_last_activity := pp_last_activity p;
  pp_retry_at := pp_retry_at p; pp_attempts := pp_attempts p |}.
Definition status_residency (r : Residency) (s : ProjectionStatus) : ProjectionStatus := {|
  ps_published := ps_published s; ps_processed := ps_processed s;
  ps_control_generation := ps_control_generation s; ps_residency := r;
  ps_history := ps_history s; ps_skipped_history_pages := ps_skipped_history_pages s;
  ps_failure := ps_failure s; ps_parking_failure := ps_parking_failure s |}.
Definition status_published (c : ReplayCursor) (s : ProjectionStatus) : ProjectionStatus := {|
  ps_published := c; ps_processed := ps_processed s;
  ps_control_generation := ps_control_generation s; ps_residency := ps_residency s;
  ps_history := ps_history s; ps_skipped_history_pages := ps_skipped_history_pages s;
  ps_failure := ps_failure s; ps_parking_failure := ps_parking_failure s |}.
Definition status_processed (c : ReplayCursor) (s : ProjectionStatus) : ProjectionStatus := {|
  ps_published := ps_published s; ps_processed := c;
  ps_control_generation := ps_control_generation s; ps_residency := ps_residency s;
  ps_history := ps_history s; ps_skipped_history_pages := ps_skipped_history_pages s;
  ps_failure := ps_failure s; ps_parking_failure := ps_parking_failure s |}.
Definition status_control (g : ControlGeneration) (s : ProjectionStatus) : ProjectionStatus := {|
  ps_published := ps_published s; ps_processed := ps_processed s;
  ps_control_generation := g; ps_residency := ps_residency s;
  ps_history := ps_history s; ps_skipped_history_pages := ps_skipped_history_pages s;
  ps_failure := ps_failure s; ps_parking_failure := ps_parking_failure s |}.
Definition status_history (h : RestorationProgress) (n : Z) (s : ProjectionStatus)
    : ProjectionStatus := {|
  ps_published := ps_published s; ps_processed := ps_processed s;
  ps_control_generation := ps_control_generation s; ps_residency := ps_residency s;
  ps_history := h; ps_skipped_history_pages := n;
  ps_failure := ps_failure s; ps_parking_failure := ps_parking_failure s |}.
Definition status_failure (e : option ProjectionError) (s : ProjectionStatus)
    : ProjectionStatus := {|
  ps_published := ps_published s; ps_processed := ps_processed s;
  ps_control_generation := ps_control_generation s; ps_residency := ps_residency s;
  ps_history := ps_history s; ps_skipped_history_pages := ps_skipped_history_pages s;
  ps_failure := e; ps_parking_failure := ps_parking_failure s |}.
Definition status_parking_failure (e : option ProjectionError) (s : ProjectionStatus)
    : ProjectionStatus := {|
  ps_published := ps_published s; ps_processed := ps_processed s;
  ps_control_generation := ps_control_generation s; ps_residency := ps_residency s;
  ps_history := ps_history s; ps_skipped_history_pages := ps_skipped_history_pages s;
  ps_failure := ps_failure s; ps_parking_failure := e |}.
Definition on_status (f : ProjectionStatus → ProjectionStatus) (p : ProjectionPolicy) :=
  set_status (f (pp_status p)) p.

Definition at_offset (c : ReplayCursor) (o : Z) : ReplayCursor :=
  {| rc_lifetime := rc_lifetime c; rc_offset := o |}.

(** ** Operations *)

Section layout.
Context `{L : Layout}.

Definition ProjectionPolicy_new (lifetime : SessionLifetime) (options : ProjectionOptions)
    (now : Z) : result ProjectionError ProjectionPolicy :=
  options ← ProjectionOptions_validate options;
  let cursor := {| rc_lifetime := lifetime; rc_offset := 0 |} in
  Ok {|
    pp_status := {|
      ps_published := cursor; ps_processed := cursor;
      ps_control_generation := ControlGeneration_INITIAL;
      ps_residency := Resident; ps_history := Progress_Complete;
      ps_skipped_history_pages := 0; ps_failure := None; ps_parking_failure := None |};
    pp_options := options; pp_activity := 0; pp_operation := 0;
    pp_last_activity := now; pp_retry_at := now; pp_attempts := 0 |}.

End layout.

(** Mutations invalidate a parking commit. *)
Definition record_activity (now : Z) : action ProjectionPolicy ProjectionError () := λ p,
  if closing_or_closed (pp_residency p) then (p, Err ProjectionError_Closed)
  else match checked_add u64_max (pp_activity p) 1 with
  | None => (p, Err ProjectionError_Capacity)
  | Some activity =>
    ({| pp_status := pp_status p; pp_options := pp_options p; pp_activity := activity;
        pp_operation := pp_operation p; pp_last_activity := now; pp_retry_at := now;
        pp_attempts := 0 |}, Ok tt)
  end.

(** All-or-none parser admission. *)
Definition admit_output (bytes now : Z) : action ProjectionPolicy ProjectionError () := λ p,
  if closing_or_closed (pp_residency p) then (p, Err ProjectionError_Closed)
  else match checked_add u64_max (rc_offset (ps_published (pp_status p))) bytes with
  | None => (p, Err ProjectionError_Capacity)
  | Some next =>
    (record_activity now ≫= λ _,
     modify (λ p, on_status (status_published (at_offset (ps_published (pp_status p)) next)) p)) p
  end.

(** Advance only after a native feed succeeded. *)
Definition record_processed (bytes : Z) : action ProjectionPolicy ProjectionError () := λ p,
  match checked_add u64_max (rc_offset (ps_processed (pp_status p))) bytes with
  | None => (p, Err ProjectionError_Capacity)
  | Some next =>
    if rc_offset (ps_published (pp_status p)) <? next
    then (p, Err ProjectionError_InvalidConfiguration)
    else (on_status (status_processed (at_offset (ps_processed (pp_status p)) next)) p, Ok tt)
  end.

Definition record_control_applied (generation : ControlGeneration)
    : action ProjectionPolicy ProjectionError () := λ p,
  if bool_decide (cg_next (ps_control_generation (pp_status p)) ≠ Some generation)
  then (p, Err ProjectionError_InvalidConfiguration)
  else (on_status (status_control generation) p, Ok tt).

(** Time remaining before parking eligibility, or [None]. *)
Definition park_delay (p : ProjectionPolicy) (now : Z) : option Z :=
  if bool_decide (pp_residency p ≠ Resident)
     || (po_max_park_attempts (pp_options p) <=? pp_attempts p)
  then None
  else Some (saturating_sub
               (Z.max (saturating_add duration_max (pp_last_activity p)
                         (po_park_after (pp_options p)))
                      (pp_retry_at p))
               now).

Definition begin_park (now : Z) : action ProjectionPolicy ProjectionError ParkAttempt := λ p,
  if bool_decide (park_delay p now ≠ Some 0)
     || bool_decide (ps_published (pp_status p) ≠ ps_processed (pp_status p))
  then (p, Err ProjectionError_InvalidConfiguration)
  else match checked_add u64_max (pp_operation p) 1 with
  | None => (p, Err ProjectionError_Capacity)
  | Some operation =>
    ({| pp_status := status_residency Parking (pp_status p); pp_options := pp_options p;
        pp_activity := pp_activity p; pp_operation := operation;
        pp_last_activity := pp_last_activity p; pp_retry_at := pp_retry_at p;
        pp_attempts := pp_attempts p + 1 |},
     Ok {| pa_generation := operation; pa_activity := pp_activity p;
           pa_processed := ps_processed (pp_status p);
           pa_control_generation := ps_control_generation (pp_status p) |})
  end.

(** Atomic logical release decision after successful provider publication. *)
Definition commit_park (attempt : ParkAttempt) (no_pending_work : bool) (p : ProjectionPolicy)
    : ProjectionPolicy * bool :=
  let valid :=
    bool_decide (pp_residency p = Parking)
    && (pp_operation p =? pa_generation attempt)
    && (pp_activity p =? pa_activity attempt)
    && bool_decide (ps_processed (pp_status p) = pa_processed attempt)
    && bool_decide (ps_control_generation (pp_status p) = pa_control_generation attempt)
    && no_pending_work in
  if valid then
    ({| pp_status := status_parking_failure None (status_residency Parked (pp_status p));
        pp_options := pp_options p; pp_activity := pp_activity p;
        pp_operation := pp_operation p; pp_last_activity := pp_last_activity p;
        pp_retry_at := pp_retry_at p; pp_attempts := 0 |}, true)
  else if bool_decide (pp_residency p = Parking)
  then (on_status (status_residency Resident) p, false)
  else (p, false).

Definition park_failed (error : ProjectionError) (now : Z) (p : ProjectionPolicy)
    : ProjectionPolicy :=
  let s := if bool_decide (pp_residency p = Parking)
           then status_residency Resident (pp_status p) else pp_status p in
  {| pp_status := status_parking_failure (Some error) s; pp_options := pp_options p;
     pp_activity := pp_activity p; pp_operation := pp_operation p;
     pp_last_activity := pp_last_activity p;
     pp_retry_at := saturating_add duration_max now (po_retry_after (pp_options p));
     pp_attempts := pp_attempts p |}.

Definition require_restoration_source (allowed : list Residency) (p : ProjectionPolicy)
    : result ProjectionError () :=
  if closing_or_closed (pp_residency p) then Err ProjectionError_Closed
  else match ps_failure (pp_status p) with
  | Some error => Err error
  | None =>
    if bool_decide (pp_residency p ∈ allowed) then Ok tt
    else Err ProjectionError_InvalidConfiguration
  end.

(** Begin restoration only from an immutable parked source. *)
Definition begin_restore : action ProjectionPolicy ProjectionError () := λ p,
  match require_restoration_source [Parked] p with
  | Err e => (p, Err e)
  | Ok _ =>
    (on_status (λ s, status_history Progress_Usable (ps_skipped_history_pages s)
                       (status_residency Restoring s)) p, Ok tt)
  end.

(** Record a native restoration milestone. *)
Definition restoration_progress (progress : RestorationProgress)
    : action ProjectionPolicy ProjectionError () := λ p,
  match require_restoration_source [Restoring; Usable] p with
  | Err e => (p, Err e)
  | Ok _ =>
    match checked_sub (skipped_pages progress) (skipped_pages (ps_history (pp_status p))) with
    | None => (p, Err ProjectionError_InvalidConfiguration)
    | Some additional =>
      match checked_add u64_max (ps_skipped_history_pages (pp_status p)) additional with
      | None => (p, Err ProjectionError_Capacity)
      | Some total =>
        (on_status (λ s, status_residency (if is_finished progress then Resident else Usable)
                           (status_history progress total s)) p, Ok tt)
      end
    end
  end.

(** Fail only the projection. *)
Definition fail (error : ProjectionError) (p : ProjectionPolicy) : ProjectionPolicy :=
  if closing_or_closed (pp_residency p) then p
  else on_status (λ s, status_residency Failed (status_failure (Some error) s)) p.

Definition close (p : ProjectionPolicy) : ProjectionPolicy :=
  if bool_decide (pp_residency p ≠ Closed) then on_status (status_residency Closing) p else p.

Definition maintenance_failed (error : ProjectionError) : ProjectionPolicy → ProjectionPolicy :=
  on_status (status_parking_failure (Some error)).
Definition cleanup_failed (error : ProjectionError) : ProjectionPolicy → ProjectionPolicy :=
  on_status (status_failure (Some error)).
Definition mark_closed : ProjectionPolicy → ProjectionPolicy :=
  on_status (status_residency Closed).

(** ** Histories of calls *)

Inductive policy_op :=
  | Op_admit_output (bytes now : Z)
  | Op_record_activity (now : Z)
  | Op_record_processed (bytes : Z)
  | Op_record_control_applied (generation : ControlGeneration)
  | Op_begin_park (now : Z)
  | Op_commit_park (attempt : ParkAttempt) (no_pending_work : bool)
  | Op_park_failed (error : ProjectionError) (now : Z)
  | Op_begin_restore
  | Op_restoration_progress (progress : RestorationProgress)
  | Op_fail (error : ProjectionError)
  | Op_close
  | Op_maintenance_failed (error : ProjectionError)
  | Op_cleanup_failed (error : ProjectionError)
  | Op_mark_closed.

Definition apply_op (op : policy_op) (p : ProjectionPolicy) : ProjectionPolicy :=
  match op with
  | Op_admit_output n now => (admit_output n now p).1
  | Op_record_activity now => (record_activity now p).1
  | Op_record_processed n => (record_processed n p).1
  | Op_record_control_applied g => (record_control_applied g p).1
  | Op_begin_park now => (begin_park now p).1
  | Op_commit_park a b => (commit_park a b p).1
  | Op_park_failed e now => park_failed e now p
  | Op_begin_restore => (begin_restore p).1
  | Op_restoration_progress pr => (restoration_progress pr p).1
  | Op_fail e => fail e p
  | Op_close => close p
  | Op_maintenance_failed e => maintenance_failed e p
  | Op_cleanup_failed e => cleanup_failed e p
  | Op_mark_closed => mark_closed p
  end.

Definition run_ops (ops : list policy_op) (p : ProjectionPolicy) : ProjectionPolicy :=
  foldl (flip apply_op) p ops.

(** The arguments a caller can pass: byte counts and times are unsigned. *)
Definition op_ok (op : policy_op) : Prop :=
  match op with
  | Op_admit_output n now => 0 <= n ∧ 0 <= now
  | Op_record_activity now | Op_begin_park now | Op_park_failed _ now => 0 <= now
  | Op_record_processed n => 0 <= n
  | Op_restoration_progress pr => 0 <= skipped_pages pr
  | _ => True
  end.

(** The chart of mod.rs: which call may move residency, and how. *)
Inductive residency_edge : policy_op → Residency → Residency → Prop :=
  | edge_begin_park now : residency_edge (Op_begin_park now) Resident Parking
  | edge_park_failed e now : residency_edge (Op_park_failed e now) Parking Resident
  | edge_commit_refused a b : residency_edge (Op_commit_park a b) Parking Resident
  | edge_commit a : residency_edge (Op_commit_park a true) Parking Parked
  | edge_begin_restore : residency_edge Op_begin_restore Parked Restoring
  | edge_finished r pr :
      r = Restoring ∨ r = Usable → is_finished pr = true →
      residency_edge (Op_restoration_progress pr) r Resident
  | edge_partial pr :
      is_finished pr = false → residency_edge (Op_restoration_progress pr) Restoring Usable
  | edge_fail e r :
      r ≠ Closing → r ≠ Closed → residency_edge (Op_fail e) r Failed
  | edge_close r : r ≠ Closed → residency_edge Op_close r Closing
  | edge_mark_closed r : residency_edge Op_mark_closed r Closed.

(** The invariant of a policy: positions of one lifetime, nothing processed
    that was not published, bounded attempts, 64-bit counters, and a recorded
    failure whenever residency is [Failed]. *)
Record policy_wf (p : ProjectionPolicy) : Prop := {
  pw_lifetime : rc_lifetime (ps_published (pp_status p)) = rc_lifetime (ps_processed (pp_status p));
  pw_processed : 0 <= rc_offset (ps_processed (pp_status p))
                  <= rc_offset (ps_published (pp_status p));
  pw_published : rc_offset (ps_published (pp_status p)) <= u64_max;
  pw_attempts : 0 <= pp_attempts p <= po_max_park_attempts (pp_options p);
  pw_max : po_max_park_attempts (pp_options p) <= 100;
  pw_activity : 0 <= pp_activity p <= u64_max;
  pw_operation : 0 <= pp_operation p <= u64_max;
  pw_control : 0 <= cg_get (ps_control_generation (pp_status p)) <= u64_max;
  pw_skipped : 0 <= ps_skipped_history_pages (pp_status p) <= u64_max;
  pw_failed : pp_residency p = Failed → is_Some (ps_failure (pp_status p))
}.

(** ** Lemmas *)

(** Unfold an operation of the policy and decide what it tests. *)
Ltac policy_cases :=
  unfold apply_op, admit_output, record_activity, record_processed,
    record_control_applied, begin_park, commit_park, park_failed, begin_restore,
    restoration_progress, require_restoration_source, fail, close,
    maintenance_failed, cleanup_failed, mark_closed, on_status, set_status,
    mbind, action_bind, modify, pp_residency in *;
  repeat (case_match; simplify_eq/=); simplify_eq/=; to_props;
  rewrite ?checked_add_Some, ?checked_sub_Some, ?checked_add_None, ?checked_sub_None in *.

Lemma park_delay_Some p now d :
  park_delay p now = Some d →
  pp_residency p = Resident ∧ pp_attempts p < po_max_park_attempts (pp_options p)
  ∧ d = saturating_sub (Z.max (saturating_add duration_max (pp_last_activity p)
                                 (po_park_after (pp_options p))) (pp_retry_at p)) now.
Proof.
  unfold park_delay. case_match; [done|]. intros [= <-]. to_props.
  done.
Qed.

Lemma begin_park_Ok now p p' a :
  begin_park now p = (p', Ok a) →
  park_delay p now = Some 0 ∧ ps_published (pp_status p) = ps_processed (pp_status p)
  ∧ pp_operation p + 1 <= u64_max ∧ pp_residency p' = Parking
  ∧ pp_attempts p' = pp_attempts p + 1 ∧ pp_operation p' = pp_operation p + 1
  ∧ pp_options p' = pp_options p ∧ pp_activity p' = pp_activity p
  ∧ pp_status p' = status_residency Parking (pp_status p)
  ∧ a = {| pa_generation := pp_operation p'; pa_activity := pp_activity p';
           pa_processed := ps_processed (pp_status p');
           pa_control_generation := ps_control_generation (pp_status p') |}.
Proof.
  unfold begin_park. case_match; [done|]. to_props.
  case_match eqn:E; intros [= <- <-]. apply checked_add_Some in E as [-> ?].
  repeat split; done.
Qed.

Lemma begin_park_Err now p p' e : begin_park now p = (p', Err e) → p' = p.
Proof. unfold begin_park. repeat case_match; naive_solver. Qed.

Lemma apply_op_options op p : pp_options (apply_op op p) = pp_options p.
Proof. destruct op; policy_cases; done. Qed.

Lemma apply_op_wf op p : op_ok op → policy_wf p → policy_wf (apply_op op p).
Proof.
  intros Hop [].
  destruct op; policy_cases; try (split; simpl; (done || lia || naive_solver lia)).
  - match goal with H : cg_next _ = Some _ |- _ => apply cg_next_Some in H as [??] end.
    split; simpl; (done || lia).
  - match goal with H : park_delay _ _ = _ |- _ => apply park_delay_Some in H as (?&?&?) end.
    split; simpl; (done || lia).
Qed.

Lemma run_ops_wf ops p : Forall op_ok ops → policy_wf p → policy_wf (run_ops ops p).
Proof.
  intros Hops. revert p. induction Hops as [|op ops Hop _ IH]; intros p Hp; [done|].
  apply IH. by apply apply_op_wf.
Qed.

Lemma ProjectionPolicy_new_wf `{L : Layout} lifetime options now p :
  0 <= po_max_park_attempts options →
  ProjectionPolicy_new lifetime options now = Ok p → policy_wf p.
Proof.
  intros Hm. unfold ProjectionPolicy_new, mbind, result_bind.
  case_match eqn:E; [|done]. apply ProjectionOptions_validate_Ok in E as (-> & ? & ? & _).
  intros [= <-]. split; simpl; (done || unfold u64_max; lia).
Qed.

(** Versions never go back, and publication always moves the activity version. *)
Lemma apply_op_versions op p :
  let p' := apply_op op p in
  pp_operation p <= pp_operation p' ∧ pp_activity p <= pp_activity p'
  ∧ (pp_activity p' = pp_activity p → ps_published (pp_status p') = ps_published (pp_status p)).
Proof. destruct op; policy_cases; repeat split; simpl; (done || lia). Qed.

Lemma run_ops_versions ops p :
  let p' := run_ops ops p in
  pp_operation p <= pp_operation p' ∧ pp_activity p <= pp_activity p'
  ∧ (pp_activity p' = pp_activity p → ps_published (pp_status p') = ps_published (pp_status p)).
Proof.
  revert p. induction ops as [|op ops IH]; intros p; simpl; [repeat split; lia|].
  destruct (apply_op_versions op p) as (H1 & H2 & H3).
  destruct (IH (apply_op op p)) as (H4 & H5 & H6). unfold flip in *.
  repeat split; [lia|lia|]. intros He. rewrite H6 by lia. apply H3. lia.
Qed.

Lemma commit_park_valid a b p p' :
  commit_park a b p = (p', true) →
  b = true ∧ pp_residency p = Parking ∧ pp_residency p' = Parked
  ∧ pp_operation p = pa_generation a ∧ pp_activity p = pa_activity a
  ∧ ps_processed (pp_status p) = pa_processed a
  ∧ ps_control_generation (pp_status p) = pa_control_generation a
  ∧ ps_published (pp_status p') = ps_published (pp_status p)
  ∧ ps_processed (pp_status p') = ps_processed (pp_status p)
  ∧ ps_control_generation (pp_status p') = ps_control_generation (pp_status p).
Proof.
  unfold commit_park. case_match eqn:E; [|case_match; done].
  intros [= <-]. to_props. done.
Qed.

(** Calls that grant a fresh retry budget: activity, and a successful commit. *)
Definition resets_attempts (op : policy_op) (p : ProjectionPolicy) : bool :=
  match op with
  | Op_admit_output _ _ | Op_record_activity _ => true
  | Op_commit_park a b => (commit_park a b p).2
  | _ => false
  end.
Fixpoint quiet (ops : list policy_op) (p : ProjectionPolicy) : bool :=
  match ops with
  | [] => true
  | op :: ops => negb (resets_attempts op p) && quiet ops (apply_op op p)
  end.

(** How many parking attempts a history starts. *)
Definition begins (op : policy_op) (p : ProjectionPolicy) : Z :=
  match op with
  | Op_begin_park now => if is_ok (begin_park now p).2 then 1 else 0
  | _ => 0
  end.
Fixpoint count_begins (ops : list policy_op) (p : ProjectionPolicy) : Z :=
  match ops with
  | [] => 0
  | op :: ops => begins op p + count_begins ops (apply_op op p)
  end.

Lemma apply_op_attempts op p :
  resets_attempts op p = false → pp_attempts (apply_op op p) = pp_attempts p + begins op p.
Proof. unfold resets_attempts, begins. destruct op; try done; intros ?; policy_cases; lia. Qed.

(** ** Properties *)

(** every call of the policy, on success and on error, keeps the policy
    invariant: published and processed positions stay in one lifetime,
    processing never overtakes publication, counters stay inside 64 bits,
    attempts stay within the configured maximum and a failed projection names
    its failure.  It starts from every policy [new] accepts. *)
Theorem policy_invariant `{L : Layout} lifetime options now p ops :
  0 <= po_max_park_attempts options →
  ProjectionPolicy_new lifetime options now = Ok p →
  Forall op_ok ops →
  policy_wf (run_ops ops p) ∧ pp_options (run_ops ops p) = pp_options p.
Proof.
  intros Hm Hnew Hops. apply ProjectionPolicy_new_wf in Hnew as Hwf; [|done].
  split; [by apply run_ops_wf|]. clear. revert p.
  induction ops as [|op ops IH]; intros p; [done|].
  etrans; [apply IH|]. apply apply_op_options.
Qed.

(** residency moves only along the documented chart, by the call that
    labels the edge; every other call, and every refused call, leaves it.  In
    particular a closing projection can only be closed, and a closed one stays
    closed. *)
Theorem residency_follows_chart op p :
  pp_residency (apply_op op p) = pp_residency p
  ∨ residency_edge op (pp_residency p) (pp_residency (apply_op op p)).
Proof.
  destruct op; policy_cases; simpl in *; try (by left).
  all: repeat match goal with
       | H : park_delay _ _ = Some _ |- _ => apply park_delay_Some in H as (?&?&?)
       end; unfold pp_residency in *.
  all: destruct (ps_residency (pp_status p)) eqn:?; simplify_eq/=; try (by left);
       try (right; econstructor; naive_solver); exfalso; set_solver.
Qed.

(** a parking commit releases the live model only when the checkpoint is
    exact.  Whatever calls happen between [begin_park] and a successful
    [commit_park] of that attempt, at the commit all published output has been
    processed and is inside the checkpoint, under the control generation the
    checkpoint records; and the attempt commits if nothing happened at all. *)
Theorem commit_park_exact p0 p1 a now ops b p2 :
  begin_park now p0 = (p1, Ok a) →
  commit_park a b (run_ops ops p1) = (p2, true) →
  b = true ∧ pp_residency p2 = Parked
  ∧ ps_published (pp_status p2) = pa_processed a
  ∧ ps_processed (pp_status p2) = pa_processed a
  ∧ ps_control_generation (pp_status p2) = pa_control_generation a
  ∧ (commit_park a true p1).2 = true.
Proof.
  intros Hb Hc. apply commit_park_valid in Hc as (-> & _ & Hr & Ho & Ha & Hp & Hg & E1 & E2 & E3).
  apply begin_park_Ok in Hb as (_ & Hpub & _ & Hres & _ & _ & _ & _ & Hst & ->); simpl in *.
  rewrite E1, E2, E3. destruct (run_ops_versions ops p1) as (_ & _ & Hsame).
  split; [done|]. split; [done|]. split; [rewrite Hsame by done; by rewrite Hst|].
  do 2 (split; [done|]).
  unfold commit_park; simpl. rewrite Hres, !Z.eqb_refl, !bool_decide_eq_true_2 by done. done.
Qed.

(** retries are bounded.  In any history without new activity and without
    a successful commit, at most the remaining configured attempts are
    started; once they are used up no further parking is scheduled. *)
Theorem park_retries_bounded p ops now :
  policy_wf p → Forall op_ok ops → quiet ops p = true →
  pp_attempts p + count_begins ops p <= po_max_park_attempts (pp_options p)
  ∧ (pp_attempts p + count_begins ops p = po_max_park_attempts (pp_options p) →
     park_delay (run_ops ops p) now = None).
Proof.
  intros Hwf Hops Hq.
  assert (pp_attempts (run_ops ops p) = pp_attempts p + count_begins ops p
          ∧ pp_options (run_ops ops p) = pp_options p) as [Ha Ho].
  { revert p Hwf Hq. induction Hops as [|op ops Hop _ IH]; intros p Hwf Hq; simpl in *; [split; [lia|done]|].
    to_props. destruct (IH (apply_op op p)) as [IH1 IH2]; [by apply apply_op_wf|done|].
    unfold flip. rewrite IH1, IH2, apply_op_options, apply_op_attempts by done. split; [lia|done]. }
  pose proof (pw_attempts _ (run_ops_wf _ _ Hops Hwf)) as Hb. rewrite Ha, Ho in Hb.
  split; [lia|]. intros He. unfold park_delay. rewrite Ha, Ho, He, Z.leb_refl, orb_true_r. done.
Qed.

(** *** Witnesses *)

Definition demo_config : TerminalConfig :=
  TerminalConfig_new {| ts_cols := 80; ts_rows := 24 |}.
Definition demo_cursor (n : Z) : ReplayCursor :=
  {| rc_lifetime := SessionLifetime_new 7 1; rc_offset := n |}.
Definition demo_policy : ProjectionPolicy := {|
  pp_status := {|
    ps_published := demo_cursor 0; ps_processed := demo_cursor 0;
    ps_control_generation := ControlGeneration_INITIAL; ps_residency := Resident;
    ps_history := Progress_Complete; ps_skipped_history_pages := 0;
    ps_failure := None; ps_parking_failure := None |};
  pp_options := ProjectionOptions_new demo_config; pp_activity := 0; pp_operation := 0;
  pp_last_activity := 0; pp_retry_at := 0; pp_attempts := 0 |}.

(** Output arrives and is processed; 61 seconds later the session parks. *)
Definition demo_ops : list policy_op :=
  [Op_admit_output 5 0; Op_record_processed 5; Op_begin_park (from_secs 61)].

Lemma policy_invariant_witness :
  policy_wf (run_ops demo_ops demo_policy)
  ∧ ps_processed (pp_status (run_ops demo_ops demo_policy)) = demo_cursor 5.
Proof.
  split; [|reflexivity].
  apply (policy_invariant (L := demo_layout) (SessionLifetime_new 7 1) (ProjectionOptions_new demo_config) 0).
  - vm_compute. discriminate.
  - vm_compute. reflexivity.
  - repeat constructor; vm_compute; discriminate.
Defined.

Lemma commit_park_exact_witness :
  let p1 := run_ops demo_ops demo_policy in
  let a := {| pa_generation := 1; pa_activity := 1; pa_processed := demo_cursor 5;
              pa_control_generation := ControlGeneration_INITIAL |} in
  ps_published (pp_status (commit_park a true p1).1) = demo_cursor 5.
Proof.
  apply (commit_park_exact
           (run_ops [Op_admit_output 5 0; Op_record_processed 5] demo_policy)
           (run_ops demo_ops demo_policy)
           {| pa_generation := 1; pa_activity := 1; pa_processed := demo_cursor 5;
              pa_control_generation := ControlGeneration_INITIAL |}
           (from_secs 61) [] true); vm_compute; reflexivity.
Defined.

(** Three failing attempts exhaust the default maximum. *)
Definition demo_retries : list policy_op :=
  concat (repeat [Op_begin_park (from_secs 100);
                  Op_park_failed ProjectionError_Worker (from_secs 61)] 3).

Lemma park_retries_bounded_witness :
  count_begins demo_retries demo_policy = 3
  ∧ park_delay (run_ops demo_retries demo_policy) (from_secs 900) = None.
Proof.
  assert (count_begins demo_retries demo_policy = 3) as Hc by (vm_compute; reflexivity).
  split; [exact Hc|].
  refine (proj2 (park_retries_bounded demo_policy demo_retries (from_secs 900) _ _ _) _).
  - split; vm_compute; intuition discriminate.
  - repeat constructor; vm_compute; discriminate.
  - vm_compute; reflexivity.
  - rewrite Hc. reflexivity.
Defined.
