(* ===== verification/Transfer.v ===== *)
(** * Continuation order (crates/domain/src/projection/transfer.rs)

    [TransferOrder] numbers the successful mutations of one model and decides
    which continuation cursors can still be served.  The contract is stated
    against the log of accepted mutations, which the order does not store. *)

From S2P Require Import Prelude Identity Process Terminal Checkpoint Projection.

(** ** Data *)

(** Next-event cursor: a resize advances it without consuming bytes. *)
Record TransferCursor := { tcu_lifetime : SessionLifetime; tcu_sequence : Z }.

Record TransferBoundary := {
  tb_cursor : TransferCursor;
  tb_processed : ReplayCursor;
  tb_control_generation : ControlGeneration
}.

Inductive TransferError :=
  | TransferError_ForeignLifetime | TransferError_FutureCursor
  | TransferError_ResyncRequired (oldest : TransferCursor)
  | TransferError_Closed | TransferError_Unavailable.

(** Immutable end of the applied prefix. *)
Record TransferEnd := {
  te_boundary : TransferBoundary;
  te_drain : option DrainOutcome;
  te_projection_failure : option ProjectionError
}.

Record TransferOrder := {
  to_boundary : TransferBoundary;
  to_oldest : Z;
  to_end : option TransferEnd;
  to_closed : bool;
  to_unavailable : bool
}.

#[export] Instance TransferCursor_eq_dec : EqDecision TransferCursor.
Proof. solve_decision. Defined.
#[export] Instance TransferBoundary_eq_dec : EqDecision TransferBoundary.
Proof. solve_decision. Defined.
#[export] Instance TransferError_eq_dec : EqDecision TransferError.
Proof. solve_decision. Defined.
#[export] Instance TransferEnd_eq_dec : EqDecision TransferEnd.
Proof. solve_decision. Defined.

Definition to_sequence (o : TransferOrder) : Z := tcu_sequence (tb_cursor (to_boundary o)).
Definition to_lifetime (o : TransferOrder) : SessionLifetime :=
  tcu_lifetime (tb_cursor (to_boundary o)).

Definition with_boundary (b : TransferBoundary) (o : TransferOrder) : TransferOrder :=
  {| to_boundary := b; to_oldest := to_oldest o; to_end := to_end o;
     to_closed := to_closed o; to_unavailable := to_unavailable o |}.

(** ** Operations *)

Definition TransferOrder_new (lifetime : SessionLifetime) : TransferOrder := {|
  to_boundary := {|
    tb_cursor := {| tcu_lifetime := lifetime; tcu_sequence := 0 |};
    tb_processed := {| rc_lifetime := lifetime; rc_offset := 0 |};
    tb_control_generation := ControlGeneration_INITIAL |};
  to_oldest := 0; to_end := None; to_closed := false; to_unavailable := false |}.

Definition require_readable (o : TransferOrder) : result TransferError () :=
  if to_closed o then Err TransferError_Closed
  else if to_unavailable o then Err TransferError_Unavailable
  else Ok tt.

Definition require_append (o : TransferOrder) : result TransferError () :=
  require_readable o ≫= λ _,
  if is_some (to_end o) then Err TransferError_Closed else Ok tt.

Definition validate_identity (o : TransferOrder) (cursor : TransferCursor)
    : result TransferError () :=
  if bool_decide (tcu_lifetime cursor ≠ to_lifetime o) then Err TransferError_ForeignLifetime
  else if to_sequence o <? tcu_sequence cursor then Err TransferError_FutureCursor
  else Ok tt.

Definition advance : action TransferOrder TransferError () := λ o,
  match checked_add u64_max (to_sequence o) 1 with
  | None => (o, Err TransferError_Unavailable)
  | Some n =>
    (with_boundary {|
       tb_cursor := {| tcu_lifetime := to_lifetime o; tcu_sequence := n |};
       tb_processed := tb_processed (to_boundary o);
       tb_control_generation := tb_control_generation (to_boundary o) |} o, Ok tt)
  end.

(** Assign fields of [self.boundary] and return it. *)
Definition set_boundary (f : TransferBoundary → TransferBoundary)
    : action TransferOrder TransferError TransferBoundary := λ o,
  (with_boundary (f (to_boundary o)) o, Ok (f (to_boundary o))).

(** Advance exactly once after one successful native feed. *)
Definition to_output (processed : ReplayCursor)
    : action TransferOrder TransferError TransferBoundary := λ o,
  match require_append o with
  | Err e => (o, Err e)
  | Ok _ =>
    let at_processed := tb_processed (to_boundary o) in
    if bool_decide (rc_lifetime processed ≠ rc_lifetime at_processed)
       || (rc_offset processed <=? rc_offset at_processed)
    then (o, Err TransferError_Unavailable)
    else
      (advance ≫= λ _, set_boundary (λ b,
        {| tb_cursor := tb_cursor b; tb_processed := processed;
           tb_control_generation := tb_control_generation b |})) o
  end.

(** Advance exactly once after a successful ordered resize. *)
Definition to_resized (generation : ControlGeneration)
    : action TransferOrder TransferError TransferBoundary := λ o,
  match require_append o with
  | Err e => (o, Err e)
  | Ok _ =>
    if bool_decide (cg_next (tb_control_generation (to_boundary o)) ≠ Some generation)
    then (o, Err TransferError_Unavailable)
    else
      (advance ≫= λ _, set_boundary (λ b,
        {| tb_cursor := tb_cursor b; tb_processed := tb_processed b;
           tb_control_generation := generation |})) o
  end.

(** Discard a prefix; holes invalidate all earlier cursors. *)
Definition discard_before (cursor : TransferCursor) : action TransferOrder TransferError () := λ o,
  match validate_identity o cursor with
  | Err e => (o, Err e)
  | Ok _ =>
    ({| to_boundary := to_boundary o; to_oldest := Z.max (to_oldest o) (tcu_sequence cursor);
        to_end := to_end o; to_closed := to_closed o; to_unavailable := to_unavailable o |},
     Ok tt)
  end.

Definition oldest_cursor (o : TransferOrder) : TransferCursor :=
  {| tcu_lifetime := to_lifetime o; tcu_sequence := to_oldest o |}.

(** Validate identity, future position, and retained range in that order. *)
Definition to_validate (o : TransferOrder) (cursor : TransferCursor) : result TransferError () :=
  require_readable o ≫= λ _,
  validate_identity o cursor ≫= λ _,
  if tcu_sequence cursor <? to_oldest o
  then Err (TransferError_ResyncRequired (oldest_cursor o))
  else Ok tt.

(** Capture a valid terminal prefix once. *)
Definition seal (drain : option DrainOutcome) (failure : option ProjectionError)
    : action TransferOrder TransferError () := λ o,
  match require_readable o with
  | Err e => (o, Err e)
  | Ok _ =>
    match to_end o with
    | Some _ => (o, Ok tt)
    | None =>
      if is_none drain && is_none failure then (o, Err TransferError_Unavailable)
      else
        ({| to_boundary := to_boundary o; to_oldest := to_oldest o;
            to_end := Some {| te_boundary := to_boundary o; te_drain := drain;
                              te_projection_failure := failure |};
            to_closed := to_closed o; to_unavailable := to_unavailable o |}, Ok tt)
    end
  end.

Definition accepts_events (o : TransferOrder) : bool :=
  negb (to_closed o) && negb (to_unavailable o) && is_none (to_end o).

Definition open_boundary (o : TransferOrder) : result TransferError TransferBoundary :=
  require_readable o ≫= λ _, Ok (to_boundary o).

Definition to_close (o : TransferOrder) : TransferOrder :=
  {| to_boundary := to_boundary o; to_oldest := to_oldest o; to_end := to_end o;
     to_closed := true; to_unavailable := to_unavailable o |}.

Definition invalidate (o : TransferOrder) : TransferOrder :=
  {| to_boundary := to_boundary o; to_oldest := to_oldest o; to_end := to_end o;
     to_closed := to_closed o; to_unavailable := true |}.

(** ** Histories of calls *)

Inductive transfer_op :=
  | Op_output (processed : ReplayCursor)
  | Op_resized (generation : ControlGeneration)
  | Op_discard_before (cursor : TransferCursor)
  | Op_seal (drain : option DrainOutcome) (failure : option ProjectionError)
  | Op_close
  | Op_invalidate.

Definition apply_transfer_op (op : transfer_op) (o : TransferOrder) : TransferOrder :=
  match op with
  | Op_output c => (to_output c o).1
  | Op_resized g => (to_resized g o).1
  | Op_discard_before c => (discard_before c o).1
  | Op_seal d f => (seal d f o).1
  | Op_close => to_close o
  | Op_invalidate => invalidate o
  end.
Definition run_transfer_ops (ops : list transfer_op) (o : TransferOrder) : TransferOrder :=
  foldl (flip apply_transfer_op) o ops.

(** A successful mutation of the model. *)
Inductive mutation :=
  | Mutation_output (processed : ReplayCursor)
  | Mutation_resized (generation : ControlGeneration).

(** The mutation a call adds to the log, if it is accepted. *)
Definition accepted (op : transfer_op) (o : TransferOrder) : list mutation :=
  match op with
  | Op_output c => if is_ok (to_output c o).2 then [Mutation_output c] else []
  | Op_resized g => if is_ok (to_resized g o).2 then [Mutation_resized g] else []
  | _ => []
  end.
Fixpoint transfer_log (ops : list transfer_op) (o : TransferOrder) : list mutation :=
  match ops with
  | [] => []
  | op :: ops => accepted op o ++ transfer_log ops (apply_transfer_op op o)
  end.

(** The boundary a log leads to: its length, its last output position, its
    last control generation. *)
Definition boundary_step (b : TransferBoundary) (m : mutation) : TransferBoundary :=
  {| tb_cursor := {| tcu_lifetime := tcu_lifetime (tb_cursor b);
                     tcu_sequence := tcu_sequence (tb_cursor b) + 1 |};
     tb_processed := match m with Mutation_output c => c | _ => tb_processed b end;
     tb_control_generation :=
       match m with Mutation_resized g => g | _ => tb_control_generation b end |}.
Definition log_boundary (b : TransferBoundary) (log : list mutation) : TransferBoundary :=
  foldl boundary_step b log.

(** The retained range is a range, and an end is where the order stands. *)
Record order_wf (o : TransferOrder) : Prop := {
  ow_range : 0 <= to_oldest o <= to_sequence o;
  ow_sequence : to_sequence o <= u64_max;
  ow_lifetime : rc_lifetime (tb_processed (to_boundary o)) = to_lifetime o;
  ow_end e : to_end o = Some e →
    te_boundary e = to_boundary o ∧ (is_Some (te_drain e) ∨ is_Some (te_projection_failure e))
}.

(** ** Lemmas *)

Ltac transfer_cases :=
  unfold apply_transfer_op, accepted, to_output, to_resized, set_boundary, advance, discard_before, seal,
    to_close, invalidate, with_boundary, validate_identity, require_append, require_readable,
    mbind, action_bind, result_bind, to_sequence, to_lifetime in *;
  repeat (case_match; simplify_eq/=); simplify_eq/=; to_props;
  rewrite ?checked_add_Some, ?checked_add_None in *.

Lemma apply_transfer_boundary op o :
  to_boundary (apply_transfer_op op o) = log_boundary (to_boundary o) (accepted op o).
Proof.
  destruct op; transfer_cases; try done; unfold boundary_step, log_boundary; simpl;
    repeat f_equal; naive_solver.
Qed.

Lemma run_transfer_boundary ops o :
  to_boundary (run_transfer_ops ops o) = log_boundary (to_boundary o) (transfer_log ops o).
Proof.
  revert o. induction ops as [|op ops IH]; intros o; simpl; [done|].
  unfold log_boundary in *. rewrite foldl_app, IH. f_equal. apply apply_transfer_boundary.
Qed.

Lemma apply_transfer_wf op o : order_wf o → order_wf (apply_transfer_op op o).
Proof.
  intros []. destruct op as [| |c|[d|] [f|]| |]; transfer_cases; split; unfold to_sequence, to_lifetime in *; simpl;
    try (done || lia || naive_solver lia).
  all: intros; simplify_eq/=; eauto; congruence.
Qed.

Lemma run_transfer_wf ops o : order_wf o → order_wf (run_transfer_ops ops o).
Proof.
  revert o. induction ops as [|op ops IH]; intros o Ho; [done|]. apply IH. by apply apply_transfer_wf.
Qed.

(** Once sealed, closed or unavailable, the order records nothing more. *)
Lemma apply_transfer_frozen op o :
  accepts_events o = false →
  accepts_events (apply_transfer_op op o) = false ∧ accepted op o = [].
Proof.
  destruct o as [b old [e|] [] []]; try done; intros _; destruct op; transfer_cases; done.
Qed.

Lemma run_transfer_frozen ops o :
  accepts_events o = false →
  accepts_events (run_transfer_ops ops o) = false ∧ transfer_log ops o = [].
Proof.
  revert o. induction ops as [|op ops IH]; intros o Ho; simpl; [done|].
  destruct (apply_transfer_frozen op o Ho) as [Ha ->].
  destruct (IH (apply_transfer_op op o) Ha). done.
Qed.

Lemma apply_transfer_end op o e : to_end o = Some e → to_end (apply_transfer_op op o) = Some e.
Proof. intros He. destruct op; transfer_cases; congruence. Qed.

Lemma run_transfer_end ops o e : to_end o = Some e → to_end (run_transfer_ops ops o) = Some e.
Proof.
  revert o. induction ops as [|op ops IH]; intros o Ho; [done|]. apply IH. by apply apply_transfer_end.
Qed.

Lemma order_wf_new lifetime : order_wf (TransferOrder_new lifetime).
Proof. by split. Qed.

Lemma log_boundary_sequence b log :
  tcu_sequence (tb_cursor (log_boundary b log)) = tcu_sequence (tb_cursor b) + len log.
Proof.
  revert b. induction log as [|m log IH]; intros b; simpl; [rewrite len_nil; lia|].
  rewrite IH. simpl. len_lia.
Qed.

(** [validate] by cases: readability, lifetime, then the retained range. *)
Lemma validate_exact o c :
  to_validate o c =
    if to_closed o then Err TransferError_Closed
    else if to_unavailable o then Err TransferError_Unavailable
    else if decide (tcu_lifetime c = to_lifetime o) then
      if decide (to_oldest o <= tcu_sequence c <= to_sequence o) then Ok tt
      else if decide (to_sequence o < tcu_sequence c) then Err TransferError_FutureCursor
      else Err (TransferError_ResyncRequired (oldest_cursor o))
    else Err TransferError_ForeignLifetime.
Proof.
  unfold to_validate, require_readable, validate_identity, mbind, result_bind.
  destruct (to_closed o), (to_unavailable o); try done.
  repeat (case_match || case_decide); to_props; simplify_eq; (done || lia).
Qed.

(** Calls keep the lifetime and never move the range back. *)
Lemma run_transfer_monotone ops o :
  let o' := run_transfer_ops ops o in
  to_lifetime o' = to_lifetime o ∧ to_sequence o <= to_sequence o' ∧ to_oldest o <= to_oldest o'.
Proof.
  revert o. induction ops as [|op ops IH]; intros o; simpl; [repeat split; lia|].
  destruct (IH (apply_transfer_op op o)) as (H1 & H2 & H3).
  assert (to_lifetime (apply_transfer_op op o) = to_lifetime o
    ∧ to_sequence o <= to_sequence (apply_transfer_op op o)
    ∧ to_oldest o <= to_oldest (apply_transfer_op op o)) as (H4 & H5 & H6)
    by (destruct op; transfer_cases; repeat split; simpl; lia).
  unfold flip. rewrite H1, H4. repeat split; lia.
Qed.

(** ** Properties *)

(** the order is the log.  After any history of calls, accepted or
    refused, the boundary is the one the accepted mutations lead to - the
    sequence counts them, outputs and resizes alike, the processed position is
    that of the last output and the generation that of the last resize - and
    the retained range [oldest ..= sequence] is well formed. *)
Theorem order_counts_mutations lifetime ops :
  let o := run_transfer_ops ops (TransferOrder_new lifetime) in
  let log := transfer_log ops (TransferOrder_new lifetime) in
  to_boundary o = log_boundary (to_boundary (TransferOrder_new lifetime)) log
  ∧ to_sequence o = len log
  ∧ order_wf o.
Proof.
  intros o log. assert (to_boundary o = log_boundary (to_boundary (TransferOrder_new lifetime)) log)
    as Hb by apply run_transfer_boundary.
  split; [done|]. split; [|apply run_transfer_wf, order_wf_new].
  unfold to_sequence. rewrite Hb, log_boundary_sequence. simpl. lia.
Qed.

(** a cursor once issued stays meaningful.  If a cursor was at or before
    the boundary at some point of a history, then after any further calls it is
    never answered as foreign or future: it is served exactly while the order is
    readable and still retains it, and otherwise gets an explicit resynchronisation
    point beyond it, or the closed or unavailable refusal. *)
Theorem issued_cursor_meaningful o c ops :
  order_wf o → tcu_lifetime c = to_lifetime o → tcu_sequence c <= to_sequence o →
  let o' := run_transfer_ops ops o in
  to_validate o' c =
    (if to_closed o' then Err TransferError_Closed
     else if to_unavailable o' then Err TransferError_Unavailable
     else if to_oldest o' <=? tcu_sequence c then Ok tt
     else Err (TransferError_ResyncRequired (oldest_cursor o')))
  ∧ to_oldest o <= to_oldest o' <= to_sequence o'.
Proof.
  intros Ho Hl Hs o'. destruct (run_transfer_monotone ops o) as (Hl' & Hs' & Hold).
  split.
  - rewrite validate_exact. rewrite decide_True by (unfold o'; congruence).
    repeat case_match; to_props; unfold o' in *; (done || lia).
  - pose proof (ow_range _ (run_transfer_wf ops o Ho)). unfold o'. lia.
Qed.

(** an end is final.  Once a terminal prefix has been sealed, no further
    call changes it or the boundary it recorded, no mutation is accepted after
    it, and it carries a drain fact or a failure. *)
Theorem sealed_end_final lifetime ops1 ops2 e :
  let o := run_transfer_ops ops1 (TransferOrder_new lifetime) in
  to_end o = Some e →
  let o' := run_transfer_ops ops2 o in
  to_end o' = Some e ∧ to_boundary o' = te_boundary e ∧ transfer_log ops2 o = []
  ∧ (is_Some (te_drain e) ∨ is_Some (te_projection_failure e)).
Proof.
  intros o He o'. assert (order_wf o) as Ho by apply run_transfer_wf, order_wf_new.
  assert (to_end o' = Some e) as He' by by apply run_transfer_end.
  destruct (ow_end _ Ho e He) as [_ Hd].
  destruct (ow_end _ (run_transfer_wf ops2 o Ho) e He') as [-> _].
  repeat split; try done. apply run_transfer_frozen.
  unfold accepts_events. rewrite He. by rewrite andb_false_r.
Qed.

(** *** Witnesses *)

(** Two outputs; the first is then evicted. *)
Lemma issued_cursor_meaningful_witness :
  let t := SessionLifetime_new 7 1 in
  let c n := {| tcu_lifetime := t; tcu_sequence := n |} in
  let out n := Op_output {| rc_lifetime := t; rc_offset := n |} in
  to_validate (run_transfer_ops [out 10; out 12; Op_discard_before (c 1)] (TransferOrder_new t)) (c 0)
  = Err (TransferError_ResyncRequired (c 1)).
Proof.
  intros t c out.
  destruct (issued_cursor_meaningful (TransferOrder_new t) (c 0)
              [out 10; out 12; Op_discard_before (c 1)]) as [H _].
  - split; vm_compute; intuition discriminate.
  - reflexivity.
  - vm_compute; discriminate.
  - rewrite H. vm_compute. reflexivity.
Defined.

Lemma sealed_end_final_witness :
  let t := SessionLifetime_new 7 1 in
  let out n := Op_output {| rc_lifetime := t; rc_offset := n |} in
  let e := {| te_boundary := {|
                tb_cursor := {| tcu_lifetime := t; tcu_sequence := 1 |};
                tb_processed := {| rc_lifetime := t; rc_offset := 10 |};
                tb_control_generation := ControlGeneration_INITIAL |};
              te_drain := Some DrainOutcome_Eof; te_projection_failure := None |} in
  let o := run_transfer_ops [out 10; Op_seal (Some DrainOutcome_Eof) None] (TransferOrder_new t) in
  transfer_log [out 15; Op_seal None (Some ProjectionError_Worker)] o = []
  ∧ to_end (run_transfer_ops [out 15; Op_seal None (Some ProjectionError_Worker)] o) = Some e.
Proof.
  intros t out e o.
  destruct (sealed_end_final t [out 10; Op_seal (Some DrainOutcome_Eof) None]
              [out 15; Op_seal None (Some ProjectionError_Worker)] e) as (H1 & _ & H2 & _);
    [vm_compute; reflexivity|].
  split; [exact H2 | exact H1].
Defined.
