(* ===== verification/Session.v ===== *)
(** * Sessions (crates/domain/src/session/mod.rs)

    Runtime and session admission bounds, and the separate exit, drain,
    supervision and admission facts a session collects. *)

From S2P Require Import Prelude Identity Replay Process Terminal Checkpoint Projection.

(** ** Errors and options *)

Inductive RuntimeError :=
  | RuntimeError_ExistingSession | RuntimeError_MissingSession | RuntimeError_Capacity
  | RuntimeError_Closed | RuntimeError_NotFinished | RuntimeError_InvalidCursor
  | RuntimeError_Process (e : ProcessError)
  | RuntimeError_Projection (e : ProjectionError)
  | RuntimeError_Internal.

#[export] Instance RuntimeError_eq_dec : EqDecision RuntimeError.
Proof. solve_decision. Defined.

Record RuntimeOptions := {
  rt_max_sessions : Z;
  rt_max_observers : Z;
  rt_replay_bytes : Z;
  rt_output_page_bytes : Z;
  rt_input_bytes : Z;
  rt_input_slots : Z;
  rt_projection : ProjectionLimits
}.

Definition RuntimeOptions_default : RuntimeOptions := {|
  rt_max_sessions := 512;
  rt_max_observers := 2048;
  rt_replay_bytes := 16 * 1024 * 1024;
  rt_output_page_bytes := 16384;
  rt_input_bytes := 4 * 1024 * 1024;
  rt_input_slots := 512;
  rt_projection := ProjectionLimits_default
|}.

Definition RuntimeOptions_validate (o : RuntimeOptions) : result RuntimeError () :=
  if (rt_max_sessions o =? 0)
     || (rt_max_observers o =? 0)
     || (rt_output_page_bytes o =? 0)
     || (65536 <? rt_output_page_bytes o)
     || (rt_input_slots o =? 0)
     || (rt_input_bytes o =? 0)
  then Err RuntimeError_Capacity
  else
    map_err RuntimeError_Projection (ProjectionLimits_validate (rt_projection o)) ≫= λ _, Ok tt.

Record SessionOptions := {
  so_size : TerminalSize;
  so_replay_bytes : Z;
  so_max_observers : Z;
  so_process : ProcessLimits;
  so_projection : option ProjectionOptions
}.

Section layout.
Context `{L : Layout}.

Definition SessionOptions_validate (o : SessionOptions) (runtime : RuntimeOptions)
    : result RuntimeError () :=
  map_err RuntimeError_Process (ProcessLimits_validate (so_process o)) ≫= λ _,
  if so_max_observers o =? 0 then Err RuntimeError_Capacity
  else match so_projection o with
  | None => Ok tt
  | Some projection =>
    map_err RuntimeError_Projection (ProjectionOptions_validate projection) ≫= λ _,
    let terminal := po_terminal projection in
    let read_chunk := pl_read_chunk (so_process o) in
    if bool_decide (tc_size terminal ≠ so_size o)
       || (tc_feed_bytes terminal <? read_chunk)
       || (po_staging_bytes projection <? read_chunk)
       || (lim_staging_bytes (rt_projection runtime) <? read_chunk)
       || (lim_view_bytes (rt_projection runtime) <? tc_reply_bytes terminal)
       || (rt_input_bytes runtime <? tc_reply_bytes terminal)
       || (pl_input_chunk (so_process o) <? tc_reply_bytes terminal)
    then Err (RuntimeError_Projection ProjectionError_InvalidConfiguration)
    else Ok tt
  end.

End layout.

(** A raw byte session with bounded default retention and work. *)
Definition SessionOptions_raw (size : TerminalSize) : SessionOptions := {|
  so_size := size;
  so_replay_bytes := 65536;
  so_max_observers := 16;
  so_process := ProcessLimits_default;
  so_projection := None
|}.

(** An authoritative terminal; parking is enabled by default. *)
Definition SessionOptions_projected (terminal : TerminalConfig) : SessionOptions :=
  let options := SessionOptions_raw (tc_size terminal) in
  {| so_size := so_size options; so_replay_bytes := so_replay_bytes options;
     so_max_observers := so_max_observers options; so_process := so_process options;
     so_projection := Some (ProjectionOptions_new terminal) |}.

(** ** Observation *)

Inductive AttachPosition :=
  | Attach_Oldest | Attach_Tail | Attach_Cursor (c : ReplayCursor).

(** Separate process, drain and cancellation facts. *)
Record SessionStatus := {
  ss_exit : option ExitStatus;
  ss_drain : option DrainOutcome;
  ss_supervision_error : option ProcessError;
  ss_admission_error : option RuntimeError;
  ss_cancellation_requested : bool
}.

Definition SessionStatus_default : SessionStatus :=
  {| ss_exit := None; ss_drain := None; ss_supervision_error := None;
     ss_admission_error := None; ss_cancellation_requested := false |}.

Inductive Completion := mk_Completion (status : SessionStatus).

Inductive OutputEvent :=
  | Event_Replay (page : ReplayPage)
  | Event_Complete (c : Completion).

#[export] Instance SessionStatus_eq_dec : EqDecision SessionStatus.
Proof. solve_decision. Defined.
#[export] Instance Completion_eq_dec : EqDecision Completion.
Proof. solve_decision. Defined.
#[export] Instance OutputEvent_eq_dec : EqDecision OutputEvent.
Proof. solve_decision. Defined.

(** [o.is_some_and(|existing| existing != v)] *)
Definition conflicts `{EqDecision A} (o : option A) (v : A) : bool :=
  match o with Some existing => bool_decide (existing ≠ v) | None => false end.
(** [Option::get_or_insert] *)
Definition get_or_insert {A} (o : option A) (v : A) : option A :=
  match o with Some x => Some x | None => Some v end.

(** Preserve the first actual exit; contradictory reports are rejected. *)
Definition record_exit (status : ExitStatus) : action SessionStatus RuntimeError () := λ s,
  if conflicts (ss_exit s) status then (s, Err RuntimeError_Internal)
  else ({| ss_exit := Some status; ss_drain := ss_drain s;
           ss_supervision_error := ss_supervision_error s;
           ss_admission_error := ss_admission_error s;
           ss_cancellation_requested := ss_cancellation_requested s |}, Ok tt).

Definition record_drain (outcome : DrainOutcome) : action SessionStatus RuntimeError () := λ s,
  if conflicts (ss_drain s) outcome then (s, Err RuntimeError_Internal)
  else ({| ss_exit := ss_exit s; ss_drain := Some outcome;
           ss_supervision_error := ss_supervision_error s;
           ss_admission_error := ss_admission_error s;
           ss_cancellation_requested := ss_cancellation_requested s |}, Ok tt).

Definition record_failure (error : ProcessError) (s : SessionStatus) : SessionStatus :=
  {| ss_exit := ss_exit s; ss_drain := ss_drain s;
     ss_supervision_error := get_or_insert (ss_supervision_error s) error;
     ss_admission_error := ss_admission_error s;
     ss_cancellation_requested := ss_cancellation_requested s |}.

Definition record_admission_failure (error : RuntimeError) (s : SessionStatus) : SessionStatus :=
  {| ss_exit := ss_exit s; ss_drain := ss_drain s;
     ss_supervision_error := ss_supervision_error s;
     ss_admission_error := get_or_insert (ss_admission_error s) error;
     ss_cancellation_requested := ss_cancellation_requested s |}.

(** Whether supervision and output draining have both finished. *)
Definition completion (s : SessionStatus) : option Completion :=
  if (is_some (ss_exit s) || is_some (ss_supervision_error s) || is_some (ss_admission_error s))
     && is_some (ss_drain s)
  then Some (mk_Completion s) else None.

Definition admit_cancel : action SessionStatus RuntimeError () := λ s,
  if is_some (completion s) then (s, Err RuntimeError_Closed)
  else ({| ss_exit := ss_exit s; ss_drain := ss_drain s;
           ss_supervision_error := ss_supervision_error s;
           ss_admission_error := ss_admission_error s;
           ss_cancellation_requested := true |}, Ok tt).

(** ** Histories of reports *)

Inductive status_op :=
  | Report_exit (status : ExitStatus)
  | Report_drain (outcome : DrainOutcome)
  | Report_failure (error : ProcessError)
  | Report_admission_failure (error : RuntimeError)
  | Request_cancel.

Definition apply_status_op (op : status_op) (s : SessionStatus) : SessionStatus :=
  match op with
  | Report_exit x => (record_exit x s).1
  | Report_drain x => (record_drain x s).1
  | Report_failure e => record_failure e s
  | Report_admission_failure e => record_admission_failure e s
  | Request_cancel => (admit_cancel s).1
  end.
Definition run_status_ops (ops : list status_op) (s : SessionStatus) : SessionStatus :=
  foldl (flip apply_status_op) s ops.

(** The first report of each kind, as a list function of the history. *)
Definition report_exit (op : status_op) : option ExitStatus :=
  match op with Report_exit x => Some x | _ => None end.
Definition report_drain (op : status_op) : option DrainOutcome :=
  match op with Report_drain x => Some x | _ => None end.
Definition report_failure (op : status_op) : option ProcessError :=
  match op with Report_failure e => Some e | _ => None end.
Definition report_admission (op : status_op) : option RuntimeError :=
  match op with Report_admission_failure e => Some e | _ => None end.
Definition first_report {A} (f : status_op → option A) (ops : list status_op) : option A :=
  head (omap f ops).

(** ** Lemmas *)

(** [o] if present, else the first report: what a history leaves in a fact. *)
Definition or_first {A} (o first : option A) : option A :=
  match o with Some x => Some x | None => first end.

Lemma or_first_step {A} (o : option A) (f : status_op → option A) op ops :
  or_first o (first_report f (op :: ops)) =
  or_first (or_first o (f op)) (first_report f ops).
Proof. unfold first_report. simpl. by destruct o, (f op). Qed.

Lemma conflicts_false `{EqDecision A} (o : option A) v :
  conflicts o v = false → Some v = or_first o (Some v).
Proof. destruct o; simpl; [|done]. intros H. to_props. by subst. Qed.
Lemma conflicts_true `{EqDecision A} (o : option A) v :
  conflicts o v = true → o = or_first o (Some v).
Proof. by destruct o. Qed.

Lemma apply_status_op_facts op s :
  let s' := apply_status_op op s in
  ss_exit s' = or_first (ss_exit s) (report_exit op)
  ∧ ss_drain s' = or_first (ss_drain s) (report_drain op)
  ∧ ss_supervision_error s' = or_first (ss_supervision_error s) (report_failure op)
  ∧ ss_admission_error s' = or_first (ss_admission_error s) (report_admission op).
Proof.
  assert (∀ A (o : option A), o = or_first o None) as Hn by by intros ? [].
  destruct op; simpl; unfold record_exit, record_drain, admit_cancel;
    try case_match; simpl; repeat split; 
    first [reflexivity | apply Hn | by apply conflicts_true | by apply conflicts_false].
Qed.

Lemma run_status_facts ops s :
  let s' := run_status_ops ops s in
  ss_exit s' = or_first (ss_exit s) (first_report report_exit ops)
  ∧ ss_drain s' = or_first (ss_drain s) (first_report report_drain ops)
  ∧ ss_supervision_error s' = or_first (ss_supervision_error s) (first_report report_failure ops)
  ∧ ss_admission_error s' = or_first (ss_admission_error s) (first_report report_admission ops).
Proof.
  revert s. induction ops as [|op ops IH]; intros s; simpl.
  { repeat split; by destruct (ss_exit s), (ss_drain s), (ss_supervision_error s),
      (ss_admission_error s). }
  rewrite !or_first_step. destruct (apply_status_op_facts op s) as (<- & <- & <- & <-). apply IH.
Qed.

Lemma completion_is_some s :
  is_some (completion s) =
  (is_some (ss_exit s) || is_some (ss_supervision_error s) || is_some (ss_admission_error s))
  && is_some (ss_drain s).
Proof. unfold completion. by case_match. Qed.

(** ** Properties *)

(** the facts of a session are the first reports.  After any history of
    reports and cancellations each of exit, drain, supervision failure and
    admission failure holds exactly the first report of its kind, and the
    session is complete exactly when some supervision outcome and a drain
    outcome have both been reported; contradicting or repeated reports change
    nothing. *)
Theorem facts_are_first_reports ops :
  let s := run_status_ops ops SessionStatus_default in
  ss_exit s = first_report report_exit ops
  ∧ ss_drain s = first_report report_drain ops
  ∧ ss_supervision_error s = first_report report_failure ops
  ∧ ss_admission_error s = first_report report_admission ops
  ∧ (is_Some (completion s) ↔
     (is_Some (ss_exit s) ∨ is_Some (ss_supervision_error s) ∨ is_Some (ss_admission_error s))
     ∧ is_Some (ss_drain s)).
Proof.
  intros s. destruct (run_status_facts ops SessionStatus_default) as (H1 & H2 & H3 & H4).
  do 4 (split; [done|]). unfold completion. fold s in H1, H2, H3, H4.
  destruct (ss_exit s), (ss_drain s), (ss_supervision_error s), (ss_admission_error s); simpl;
    rewrite ?is_Some_alt; naive_solver.
Qed.

(** the defaults are consistent.  For every terminal size [TerminalSize::new]
    accepts, the default raw session and the default projected session pass
    validation under the default runtime options, which pass their own; a cell
    size of up to 1 MiB leaves the view reservation representable. *)
Theorem defaults_validate `{L : Layout} cols rows size :
  0 <= cols <= u16_max → 0 <= rows <= u16_max →
  0 <= size_of_TerminalCell <= 1048576 →
  TerminalSize_new cols rows = Ok size →
  RuntimeOptions_validate RuntimeOptions_default = Ok tt
  ∧ SessionOptions_validate (SessionOptions_raw size) RuntimeOptions_default = Ok tt
  ∧ SessionOptions_validate (SessionOptions_projected (TerminalConfig_new size))
      RuntimeOptions_default = Ok tt.
Proof.
  intros Hc Hr Hcell Hs. apply TerminalSize_new_Ok in Hs as (Ec & Er & _ & _ & Hs).
  assert (view_reservation (ProjectionOptions_new (TerminalConfig_new size))
          = Ok (cols * rows * size_of_TerminalCell + 1048576)) as Hv.
  { unfold view_reservation, checked_mul, checked_add, usize_max, u64_max. simpl. rewrite Ec, Er.
    assert (0 <= cols * rows * size_of_TerminalCell <= 1048576 * 1048576)
      by (split; [apply Z.mul_nonneg_nonneg | apply Z.mul_le_mono_nonneg]; nia).
    rewrite Zle_imp_le_bool by lia. by rewrite Zle_imp_le_bool by lia. }
  split; [vm_compute; done|]. split; [vm_compute; done|].
  unfold SessionOptions_validate, ProjectionOptions_validate, SessionOptions_projected.
  simpl so_projection. cbv iota. rewrite Hv.
  change (TerminalConfig_validate _) with (Ok (E := TerminalError) (TerminalConfig_new size)).
  rewrite bool_decide_eq_false_2 by (simpl; naive_solver). done.
Qed.

(** *** Witnesses *)

Lemma defaults_validate_witness :
  SessionOptions_validate (L := demo_layout)
    (SessionOptions_projected (TerminalConfig_new {| ts_cols := 80; ts_rows := 24 |}))
    RuntimeOptions_default = Ok tt.
Proof.
  refine (proj2 (proj2 (defaults_validate (L := demo_layout) 80 24
    {| ts_cols := 80; ts_rows := 24 |} _ _ _ _))); vm_compute; intuition discriminate.
Defined.
