(* ===== verification/Atomic.v ===== *)
(** * Conditional atomic update (crates/atomic_update.rs)

    [try_update_u64] and [try_update_usize] are the same loop: a load, then
    weak compare-exchanges until the closure refuses or a store succeeds.  The
    loop is modelled twice: as the sequential function a thread runs alone, and
    as the steps of many threads that interleave on one atomic.  Every access
    is to one location, so its modification order is the order of the steps. *)

From S2P Require Import Prelude Process.

(** ** Alone *)

(** Without interference the first strong compare-exchange succeeds. *)
Definition try_update (update : Z → option Z) : action Z Z Z := λ previous,
  match update previous with
  | Some next => (next, Ok previous)
  | None => (previous, Err previous)
  end.

(** ** Interleaved *)

Inductive phase :=
  | Phase_load
  | Phase_try (previous : Z)
  | Phase_ok (seen : Z)
  | Phase_err (seen : Z)
  | Phase_released.

(** A call in flight: what it asks for and where its loop stands. *)
Record thread := { t_amount : Z; t_phase : phase }.
Record pool := { p_shared : Z; p_threads : list thread }.

Section pool.
(** What the closure stores, from the amount the call asks for and the value
    it observed. *)
Variable update : Z → Z → option Z.
(** Whether a caller that succeeded gives its amount back later. *)
Variable returns : bool.

Definition set_thread (i : nat) (t : thread) (ph : phase) (shared : Z) (p : pool) : pool :=
  {| p_shared := shared;
     p_threads := <[i := {| t_amount := t_amount t; t_phase := ph |}]> (p_threads p) |}.

(** One step of thread [i]; [spurious] is a weak compare-exchange that fails
    although the values are equal.  A caller that returns its amount does so
    with [fetch_sub]. *)
Definition pool_next (i : nat) (spurious : bool) (p : pool) : option pool :=
  match p_threads p !! i with
  | None => None
  | Some t =>
    match t_phase t with
    | Phase_load => Some (set_thread i t (Phase_try (p_shared p)) (p_shared p) p)
    | Phase_try previous =>
      match update (t_amount t) previous with
      | None => Some (set_thread i t (Phase_err previous) (p_shared p) p)
      | Some next =>
        if (p_shared p =? previous) && negb spurious
        then Some (set_thread i t (Phase_ok previous) next p)
        else Some (set_thread i t (Phase_try (p_shared p)) (p_shared p) p)
      end
    | Phase_ok _ =>
      if returns then Some (set_thread i t Phase_released (p_shared p - t_amount t) p) else None
    | Phase_err _ | Phase_released => None
    end
  end.

(** A schedule: which thread steps next, and whether its exchange is spurious. *)
Fixpoint run_schedule (schedule : list (nat * bool)) (p : pool) : option pool :=
  match schedule with
  | [] => Some p
  | (i, b) :: rest => pool_next i b p ≫= run_schedule rest
  end.

(** Calls of the given amounts, none started. *)
Definition pool_start (shared : Z) (amounts : list Z) : pool :=
  {| p_shared := shared;
     p_threads := (λ n, {| t_amount := n; t_phase := Phase_load |}) <$> amounts |}.

(** [P] holds at the start and along every schedule. *)
Lemma run_schedule_invariant (P : pool → Prop) schedule p p' :
  (∀ i b q q', P q → pool_next i b q = Some q' → P q') →
  P p → run_schedule schedule p = Some p' → P p'.
Proof.
  intros Hstep. revert p. induction schedule as [|[i b] rest IH]; intros p Hp; simpl.
  - by intros [= <-].
  - intros Hb. apply bind_Some in Hb as (q & Hq & Hr). eauto.
Qed.

End pool.

(** ** Sums over threads *)

Fixpoint zsum (l : list Z) : Z := match l with [] => 0 | x :: l => x + zsum l end.

Lemma zsum_app l k : zsum (l ++ k) = zsum l + zsum k.
Proof. induction l; simpl; lia. Qed.

(** A change of one element moves the sum by the difference. *)
Lemma zsum_insert {A} (f : A → Z) (l : list A) i x y :
  l !! i = Some x → zsum (f <$> <[i := y]> l) = zsum (f <$> l) - f x + f y.
Proof.
  revert i. induction l as [|z l IH]; intros [|i] Hi; simplify_eq/=; csimpl; [lia|].
  specialize (IH i Hi). csimpl in IH. lia.
Qed.

Lemma zsum_nonneg {A} (f : A → Z) (l : list A) :
  (∀ x, x ∈ l → 0 <= f x) → 0 <= zsum (f <$> l).
Proof.
  induction l as [|x l IH]; csimpl; intros H; [lia|].
  pose proof (H x ltac:(set_solver)). pose proof (IH ltac:(set_solver)). lia.
Qed.

Lemma zsum_zero {A} (f : A → Z) (l : list A) :
  (∀ x, x ∈ l → f x = 0) → zsum (f <$> l) = 0.
Proof.
  induction l as [|x l IH]; csimpl; intros H; [done|].
  rewrite (H x) by set_solver. rewrite IH; [done|set_solver].
Qed.

(** A call that has not started has no outcome. *)
Lemma pool_start_phase shared amounts t :
  t ∈ p_threads (pool_start shared amounts) → t_phase t = Phase_load.
Proof. simpl. intros (? & -> & _)%list_elem_of_fmap. done. Qed.

(** ** Identities (crates/infrastructure/src/identity.rs)

    [next_owner_identity] hands out the value before the increment. *)

Definition next_owner_identity : action Z ProcessError Z := λ counter,
  let (counter', r) := try_update (λ old, checked_add u64_max old 1) counter in
  (counter', map_err (λ _, ProcessError_Capacity) r).

Definition issue (_ old : Z) : option Z := checked_add u64_max old 1.

Definition issued (t : thread) : option Z :=
  match t_phase t with Phase_ok v => Some v | _ => None end.

(** Every issued value lies between the start and the counter, and no two
    calls hold the same one. *)
Record issue_wf (start : Z) (p : pool) : Prop := {
  iw_range i t v : p_threads p !! i = Some t → issued t = Some v → start <= v < p_shared p;
  iw_unique i j t u v : p_threads p !! i = Some t → p_threads p !! j = Some u →
    issued t = Some v → issued u = Some v → i = j;
  iw_start : start <= p_shared p
}.

Definition is_issued (t : thread) : Z := if is_some (issued t) then 1 else 0.

(** A thread that is not given a value leaves the invariant. *)
Lemma issue_wf_quiet start p i t ph :
  issue_wf start p → p_threads p !! i = Some t → issued {| t_amount := t_amount t; t_phase := ph |} = None →
  issue_wf start (set_thread i t ph (p_shared p) p).
Proof.
  intros [Hr Hu Hs] Hi Hn. split; simpl; [| |done].
  - intros j u v Hj Hv. apply list_lookup_insert_Some in Hj as [(<- & <- & _)|[_ Hj]]; [congruence|eauto].
  - intros j k u w v Hj Hk Hv Hw.
    apply list_lookup_insert_Some in Hj as [(<- & <- & _)|[_ Hj]]; [congruence|].
    apply list_lookup_insert_Some in Hk as [(<- & <- & _)|[_ Hk]]; [congruence|eauto].
Qed.

Lemma issue_wf_step start i b p p' :
  issue_wf start p → pool_next issue false i b p = Some p' → issue_wf start p'.
Proof.
  intros Hwf Hn. unfold pool_next in Hn.
  destruct (p_threads p !! i) as [t|] eqn:Hi; [|done].
  destruct (t_phase t) as [|prev| | |] eqn:Hph; try done.
  { simplify_eq. by apply issue_wf_quiet. }
  destruct (issue (t_amount t) prev) as [next|] eqn:Hnext; [|simplify_eq; by apply issue_wf_quiet].
  case_match; simplify_eq; [|by apply issue_wf_quiet].
  to_props. apply checked_add_Some in Hnext as [-> _]. subst prev. destruct Hwf as [Hr Hu Hs].
  split; simpl; [| |lia].
  - intros j u v Hj Hv. apply list_lookup_insert_Some in Hj as [(<- & <- & _)|[_ Hj]].
    + unfold issued in Hv; simplify_eq/=. lia.
    + specialize (Hr _ _ _ Hj Hv). lia.
  - intros j k u w v Hj Hk Hv Hw.
    apply list_lookup_insert_Some in Hj as [(<- & <- & _)|[? Hj]];
    apply list_lookup_insert_Some in Hk as [(<- & <- & _)|[? Hk]]; [done|..|eauto].
    + unfold issued in Hv; simplify_eq/=. specialize (Hr _ _ _ Hk Hw). lia.
    + unfold issued in Hw; simplify_eq/=. specialize (Hr _ _ _ Hj Hv). lia.
Qed.

Lemma issue_count_step i b p p' :
  pool_next issue false i b p = Some p' →
  p_shared p' - zsum (is_issued <$> p_threads p') = p_shared p - zsum (is_issued <$> p_threads p).
Proof.
  unfold pool_next. destruct (p_threads p !! i) as [t|] eqn:Hi; [|done].
  destruct (t_phase t) as [|prev| | |] eqn:Hph; try done;
    [|destruct (issue (t_amount t) prev) as [next|] eqn:Hnext; [case_match|]];
    intros [= <-]; unfold set_thread; simpl; rewrite (zsum_insert _ _ _ _ _ Hi);
    unfold is_issued, issued; rewrite Hph; simpl; [lia| |lia|lia].
  to_props. apply checked_add_Some in Hnext as [-> _]. lia.
Qed.

(** ** Properties *)

(** identities are never reused.  Whatever way any number of concurrent
    calls of [next_owner_identity] interleave, with any spurious failures, no
    two of them are handed the same identity, every identity is one the counter
    has passed, and the counter has advanced by exactly the number issued. *)
Theorem identities_unique start calls schedule p :
  run_schedule issue false schedule (pool_start start (repeat 1 calls)) = Some p →
  issue_wf start p ∧ p_shared p = start + zsum (is_issued <$> p_threads p).
Proof.
  intros Hrun.
  assert (∀ t, t ∈ p_threads (pool_start start (repeat 1 calls)) → issued t = None) as Hn.
  { intros t Ht. unfold issued. by rewrite (pool_start_phase _ _ _ Ht). }
  refine (run_schedule_invariant issue false
    (λ p, issue_wf start p ∧ p_shared p = start + zsum (is_issued <$> p_threads p))
    schedule _ _ _ _ Hrun).
  - intros i b q q' [Hwf Hc] Hq. split; [by eapply issue_wf_step|].
    apply issue_count_step in Hq. lia.
  - rewrite zsum_zero by (intros t Ht; unfold is_issued; by rewrite Hn).
    split; [|simpl; lia]. split; [| |simpl; lia].
    + intros i t v Hi%list_elem_of_lookup_2 Hv. by rewrite Hn in Hv.
    + intros i j t u v Hi%list_elem_of_lookup_2 _ Hv. by rewrite Hn in Hv.
Qed.

(** *** Witnesses *)

(** Two calls load the same value; the second loses the race and retries. *)
Lemma identities_unique_witness :
  let schedule := [(0, false); (1, false); (0, false); (1, false); (1, true); (1, false)]%nat in
  let p := {| p_shared := 7; p_threads := [{| t_amount := 1; t_phase := Phase_ok 5 |};
                                           {| t_amount := 1; t_phase := Phase_ok 6 |}] |} in
  run_schedule issue false schedule (pool_start 5 (repeat 1 2%nat)) = Some p
  ∧ p_shared p = 5 + zsum (is_issued <$> p_threads p).
Proof.
  intros schedule p. split; [vm_compute; reflexivity|].
  apply (identities_unique 5 2 schedule p). vm_compute. reflexivity.
Defined.
