(* ===== verification/Quota.v ===== *)
(** * Reservations (crates/application/src/runtime/quota.rs,
      crates/application/src/projection/budgets.rs)

    A [Quota] is one atomic counter with a limit; leases charge one or two of
    them and give the charge back when they are dropped.  Quotas are shared
    through [Arc], so leases name them by reference and act on the store of
    all quotas. *)

From S2P Require Import Prelude Process Terminal Checkpoint Projection Session Atomic.

(** ** One quota *)

Record Quota := { q_limit : Z; q_used : Z }.

Definition Quota_new (limit : Z) : Quota := {| q_limit := limit; q_used := 0 |}.

(** The closure of [Quota::acquire]. *)
Definition quota_update (limit bytes used : Z) : option Z :=
  next ← checked_add usize_max used bytes;
  if next <=? limit then Some next else None.

Definition quota_acquire (bytes : Z) (q : Quota) : Quota * bool :=
  let (used, r) := try_update (quota_update (q_limit q) bytes) (q_used q) in
  ({| q_limit := q_limit q; q_used := used |}, is_ok r).

(** [fetch_sub] wraps. *)
Definition quota_release (bytes : Z) (q : Quota) : Quota :=
  {| q_limit := q_limit q; q_used := (q_used q - bytes) mod (usize_max + 1) |}.

(** ** The store of quotas *)

(** An [Arc<Quota>]. *)
Abbreviation quota_ref := nat.
Abbreviation quotas := (gmap quota_ref Quota).

Definition acquire (r : quota_ref) (n : Z) (qs : quotas) : quotas * bool :=
  match qs !! r with
  | None => (qs, false)
  | Some q => let (q', b) := quota_acquire n q in (<[r := q']> qs, b)
  end.
Definition release (r : quota_ref) (n : Z) (qs : quotas) : quotas :=
  alter (quota_release n) r qs.

(** ** Leases *)

(** quota.rs: one input operation and its bytes. *)
Record InputLease := { il_bytes : quota_ref; il_slots : quota_ref; il_count : Z }.

Definition InputLease_acquire (bytes slots : quota_ref) (count : Z)
    : action quotas RuntimeError InputLease := λ qs,
  let (qs1, slot) := acquire slots 1 qs in
  if negb slot then (qs1, Err RuntimeError_Capacity)
  else
    let (qs2, admitted) := acquire bytes count qs1 in
    if negb admitted then (release slots 1 qs2, Err RuntimeError_Capacity)
    else (qs2, Ok {| il_bytes := bytes; il_slots := slots; il_count := count |}).

Definition InputLease_drop (l : InputLease) (qs : quotas) : quotas :=
  release (il_slots l) 1 (release (il_bytes l) (il_count l) qs).

(** budgets.rs: one amount against one or two quotas. *)
Record Lease := { le_first : quota_ref; le_second : option quota_ref; le_count : Z }.

Definition Lease_drop (l : Lease) (qs : quotas) : quotas :=
  let qs := release (le_first l) (le_count l) qs in
  match le_second l with Some second => release second (le_count l) qs | None => qs end.

Definition Lease_shared (first : quota_ref) (count : Z)
    : action quotas ProjectionError Lease := λ qs,
  let (qs, admitted) := acquire first count qs in
  if negb admitted then (qs, Err ProjectionError_Capacity)
  else (qs, Ok {| le_first := first; le_second := None; le_count := count |}).

(** The early return drops the lease on the first quota. *)
Definition Lease_shared_and_local (first second : quota_ref) (count : Z)
    : action quotas ProjectionError Lease := λ qs,
  match Lease_shared first count qs with
  | (qs, Err e) => (qs, Err e)
  | (qs, Ok lease) =>
    let (qs, admitted) := acquire second count qs in
    if negb admitted then (Lease_drop lease qs, Err ProjectionError_Capacity)
    else (qs, Ok {| le_first := first; le_second := Some second; le_count := count |})
  end.

(** Two leases in a row; when the second is refused the first is dropped. *)
Definition both_leases {E} (first second : action quotas E Lease)
    : action quotas E (Lease * Lease) := λ qs,
  match first qs with
  | (qs, Err e) => (qs, Err e)
  | (qs, Ok a) =>
    match second qs with
    | (qs, Err e) => (Lease_drop a qs, Err e)
    | (qs, Ok b) => (qs, Ok (a, b))
    end
  end.

(** [IoMemory::acquire]: plain and protected buffers of one checkpoint budget. *)
Definition IoMemory_acquire (checkpoints : quota_ref) (plain protected : Z)
    : action quotas ProjectionError (Lease * Lease) :=
  both_leases (Lease_shared checkpoints plain) (Lease_shared checkpoints protected).

(** [DiskLease::acquire]: one stored slot, then its bytes. *)
Definition DiskLease_acquire (stored_slots stored : quota_ref) (bytes : Z)
    : action quotas ProjectionError (Lease * Lease) :=
  both_leases (Lease_shared stored_slots 1) (Lease_shared stored bytes).

(** ** Accounting *)

(** What is charged where: one entry per quota a live lease charges. *)
Abbreviation charges := (list (quota_ref * Z)).

Definition charge_on (r : quota_ref) (c : quota_ref * Z) : Z :=
  if decide (c.1 = r) then c.2 else 0.
Definition charged (r : quota_ref) (cs : charges) : Z := zsum (charge_on r <$> cs).

Definition Lease_charges (l : Lease) : charges :=
  (le_first l, le_count l) ::
  match le_second l with Some second => [(second, le_count l)] | None => [] end.
Definition InputLease_charges (l : InputLease) : charges :=
  [(il_bytes l, il_count l); (il_slots l, 1)].

(** Every quota has used exactly what live leases charge, within its limit. *)
Record accounts (cs : charges) (qs : quotas) : Prop := {
  ac_used r q : qs !! r = Some q → q_used q = charged r cs;
  ac_limit r q : qs !! r = Some q → q_used q <= q_limit q <= usize_max;
  ac_nonneg : Forall (λ c, 0 <= c.2) cs
}.

(** ** Lemmas *)

Lemma charged_cons r c cs : charged r (c :: cs) = charge_on r c + charged r cs.
Proof. done. Qed.

#[export] Instance charged_Permutation r : Proper ((≡ₚ) ==> (=)) (charged r).
Proof. intros cs cs' H. unfold charged. induction H; csimpl; lia. Qed.

#[export] Instance accounts_Permutation : Proper ((≡ₚ) ==> (=) ==> iff) accounts.
Proof.
  assert (∀ cs cs' qs, cs ≡ₚ cs' → accounts cs qs → accounts cs' qs) as Hhalf.
  { intros cs cs' qs Hp [Hu Hl Hn]. split; [|done|by rewrite <-Hp].
    intros r q Hq. rewrite <-Hp. eauto. }
  intros cs cs' Hp qs ? <-. split; by apply Hhalf.
Qed.

Lemma charged_nonneg r cs : Forall (λ c, 0 <= c.2) cs → 0 <= charged r cs.
Proof.
  rewrite Forall_forall. intros H. apply zsum_nonneg. intros c Hc. specialize (H c Hc).
  unfold charge_on. case_decide; lia.
Qed.

Lemma quota_update_Some limit n used next :
  quota_update limit n used = Some next ↔
  next = used + n ∧ used + n <= usize_max ∧ used + n <= limit.
Proof.
  unfold quota_update. rewrite bind_Some. setoid_rewrite checked_add_Some. split.
  - intros (x & [-> ?] & Hx). case_match; [|done]. to_props. naive_solver.
  - intros (-> & ? & ?). exists (used + n). split; [done|]. by rewrite Zle_imp_le_bool.
Qed.

Lemma quota_update_None limit n used :
  quota_update limit n used = None ↔ usize_max < used + n ∨ limit < used + n.
Proof.
  destruct (quota_update limit n used) as [next|] eqn:E.
  - apply quota_update_Some in E as (? & ? & ?). split; [done|lia].
  - split; [|done]. intros _. destruct (decide (used + n <= usize_max ∧ used + n <= limit)).
    + by rewrite (proj2 (quota_update_Some limit n used (used + n))) in E.
    + lia.
Qed.

(** A refused acquisition changes nothing. *)
Lemma acquire_refused r n qs qs' : acquire r n qs = (qs', false) → qs' = qs.
Proof.
  unfold acquire, quota_acquire, try_update. destruct (qs !! r) as [[limit used]|] eqn:E; [|naive_solver].
  simpl. destruct (quota_update limit n used); intros [= <-]. by apply insert_id.
Qed.

(** It is refused exactly when the limit would be exceeded. *)
Lemma acquire_refused_full r n qs qs' q :
  acquire r n qs = (qs', false) → qs !! r = Some q → q_limit q <= usize_max →
  q_limit q < q_used q + n.
Proof.
  unfold acquire, quota_acquire, try_update. intros H E Hl. rewrite E in H.
  destruct (quota_update _ _ _) eqn:Hu; [done|]. apply quota_update_None in Hu. lia.
Qed.

Lemma accounts_acquire r n cs qs qs' :
  0 <= n → accounts cs qs → acquire r n qs = (qs', true) → accounts ((r, n) :: cs) qs'.
Proof.
  intros Hn [Hu Hl Hc]. unfold acquire, quota_acquire, try_update.
  destruct (qs !! r) as [q|] eqn:E; [|done].
  destruct (quota_update _ _ _) eqn:Hup; [|done]. intros [= <-]. apply quota_update_Some in Hup as (-> & ? & ?).
  assert (∀ r' q', <[r := {| q_limit := q_limit q; q_used := q_used q + n |}]> qs !! r' = Some q' →
    (r' = r ∧ q' = {| q_limit := q_limit q; q_used := q_used q + n |})
    ∨ (r' ≠ r ∧ qs !! r' = Some q')) as Hlook
    by (intros ?? Hx; rewrite lookup_insert_Some in Hx; naive_solver).
  split; [| |by constructor].
  - intros r' q' Hq. rewrite charged_cons. unfold charge_on; simpl.
    destruct (Hlook _ _ Hq) as [[-> ->]|[? Hq']].
    + rewrite decide_True by done. simpl. rewrite (Hu _ _ E). lia.
    + rewrite decide_False by done. rewrite (Hu _ _ Hq'). lia.
  - intros r' q' Hq. destruct (Hlook _ _ Hq) as [[-> ->]|[? Hq']]; [|eauto].
    simpl. specialize (Hl _ _ E). lia.
Qed.

Lemma accounts_release r n cs qs : accounts ((r, n) :: cs) qs → accounts cs (release r n qs).
Proof.
  intros [Hu Hl Hc]. apply Forall_cons in Hc as [Hn Hc]; simpl in Hn.
  assert (∀ r' q', release r n qs !! r' = Some q' →
    ∃ q, qs !! r' = Some q ∧ q_limit q' = q_limit q ∧ q_used q' = charged r' cs) as Hlook.
  { intros r' q' Hq. unfold release in Hq. destruct (decide (r' = r)) as [->|Hne].
    - rewrite lookup_alter_eq in Hq. apply fmap_Some in Hq as (q & Hq & ->).
      exists q. split; [done|]. split; [done|]. simpl.
      pose proof (Hu _ _ Hq) as Huq. rewrite charged_cons in Huq. unfold charge_on in Huq.
      rewrite decide_True in Huq by done. simpl in Huq.
      pose proof (charged_nonneg r cs Hc). specialize (Hl _ _ Hq).
      rewrite Z.mod_small by lia. lia.
    - rewrite lookup_alter_ne in Hq by done. exists q'. do 2 (split; [done|]).
      rewrite (Hu _ _ Hq), charged_cons. unfold charge_on.
      rewrite decide_False by done. lia. }
  split; [| |done].
  - intros r' q' Hq. by destruct (Hlook _ _ Hq) as (q & _ & _ & ?).
  - intros r' q' Hq. destruct (Hlook _ _ Hq) as (q & Hq0 & -> & ->).
    specialize (Hl _ _ Hq0). specialize (Hu _ _ Hq0). rewrite charged_cons in Hu.
    unfold charge_on in Hu. simpl in Hu. case_decide; lia.
Qed.

Lemma accounts_release_first r n cs ds qs :
  accounts (cs ++ (r, n) :: ds) qs → accounts (cs ++ ds) (release r n qs).
Proof. rewrite <-Permutation_middle. apply accounts_release. Qed.

Lemma accounts_drop l cs qs :
  accounts (Lease_charges l ++ cs) qs → accounts cs (Lease_drop l qs).
Proof.
  unfold Lease_drop, Lease_charges. destruct (le_second l); simpl; intros H;
    repeat apply accounts_release; done.
Qed.

Lemma accounts_input_drop l cs qs :
  accounts (InputLease_charges l ++ cs) qs → accounts cs (InputLease_drop l qs).
Proof. intros H. by repeat apply accounts_release. Qed.

(** Releasing what was just acquired restores the store. *)
Lemma release_acquire r n cs qs qs' :
  0 <= n → accounts cs qs → acquire r n qs = (qs', true) → release r n qs' = qs.
Proof.
  intros Hn [Hu Hl Hc]. unfold acquire, release, quota_acquire, try_update.
  destruct (qs !! r) as [q|] eqn:E; [|done].
  destruct (quota_update _ _ _) eqn:Hup; [|done]. intros [= <-].
  apply quota_update_Some in Hup as (-> & ? & ?).
  rewrite alter_insert_eq. unfold quota_release; simpl.
  specialize (Hl _ _ E). pose proof (charged_nonneg r cs Hc) as Hz. rewrite <-(Hu _ _ E) in Hz.
  rewrite Z.mod_small by lia. replace (q_used q + n - n) with (q_used q) by lia.
  destruct q. by apply insert_id.
Qed.

(** ** Histories of leases *)

Inductive held := Held_lease (l : Lease) | Held_input (l : InputLease).

Definition held_charges (h : held) : charges :=
  match h with Held_lease l => Lease_charges l | Held_input l => InputLease_charges l end.
Definition held_drop (h : held) : quotas → quotas :=
  match h with Held_lease l => Lease_drop l | Held_input l => InputLease_drop l end.

Inductive lease_op :=
  | Take_shared (first : quota_ref) (count : Z)
  | Take_shared_and_local (first second : quota_ref) (count : Z)
  | Take_input (bytes slots : quota_ref) (count : Z)
  | Give (n : nat).

(** The amounts a taking operation asks for, with the quotas it names. *)
Definition asks (op : lease_op) : charges :=
  match op with
  | Take_shared first count => [(first, count)]
  | Take_shared_and_local first second count => [(first, count); (second, count)]
  | Take_input bytes slots count => [(slots, 1); (bytes, count)]
  | Give _ => []
  end.

Definition taken {E A} (wrap : A → held) (m : quotas * result E A) (hs : list held)
    : quotas * list held * bool :=
  match m with
  | (qs, Ok a) => (qs, wrap a :: hs, true)
  | (qs, Err _) => (qs, hs, false)
  end.

(** The store, the leases that are alive, and whether the operation succeeded. *)
Definition apply_lease_op (op : lease_op) (s : quotas * list held)
    : quotas * list held * bool :=
  let (qs, hs) := s in
  match op with
  | Take_shared r n => taken Held_lease (Lease_shared r n qs) hs
  | Take_shared_and_local r1 r2 n => taken Held_lease (Lease_shared_and_local r1 r2 n qs) hs
  | Take_input b s n => taken Held_input (InputLease_acquire b s n qs) hs
  | Give n =>
    match hs !! n with
    | Some h => (held_drop h qs, delete n hs, true)
    | None => (qs, hs, false)
    end
  end.
Definition run_lease_ops (ops : list lease_op) (s : quotas * list held) : quotas * list held :=
  foldl (λ s op, (apply_lease_op op s).1) s ops.

Definition live_charges (hs : list held) : charges := hs ≫= held_charges.

Lemma live_charges_cons h hs : live_charges (h :: hs) = held_charges h ++ live_charges hs.
Proof. done. Qed.

Lemma acquire_two r1 n1 r2 n2 cs qs qs1 qs2 b :
  0 <= n1 → 0 <= n2 → accounts cs qs →
  acquire r1 n1 qs = (qs1, true) → acquire r2 n2 qs1 = (qs2, b) →
  if b then accounts ((r2, n2) :: (r1, n1) :: cs) qs2
  else release r1 n1 qs2 = qs.
Proof.
  intros H1 H2 Ha Hq1 Hq2. pose proof (accounts_acquire _ _ _ _ _ H1 Ha Hq1) as Ha1.
  destruct b; [by eapply accounts_acquire|].
  apply acquire_refused in Hq2 as ->. by eapply release_acquire.
Qed.

(** One operation keeps the accounts, and a refusal changes nothing. *)
Lemma apply_lease_op_accounts op qs hs qs' hs' b :
  Forall (λ c, 0 <= c.2) (asks op) → accounts (live_charges hs) qs →
  apply_lease_op op (qs, hs) = (qs', hs', b) →
  accounts (live_charges hs') qs' ∧ (b = false → qs' = qs ∧ hs' = hs).
Proof.
  intros Hn Ha. destruct op as [r n|r1 r2 n|rb rs n|n]; simpl; unfold taken.
  - unfold Lease_shared. destruct (acquire r n qs) as [q1 [|]] eqn:E1; intros [= <- <- <-].
    + apply Forall_cons in Hn as [Hn _]. split; [|done].
      rewrite live_charges_cons; simpl in *. by eapply accounts_acquire.
    + apply acquire_refused in E1 as ->. done.
  - apply Forall_cons in Hn as [Hn _]; simpl in Hn. unfold Lease_shared_and_local, Lease_shared.
    destruct (acquire r1 n qs) as [q1 [|]] eqn:E1; [|apply acquire_refused in E1 as ->;
      by intros [= <- <- <-]]. simpl.
    destruct (acquire r2 n q1) as [q2 b2] eqn:E2.
    pose proof (acquire_two _ _ _ _ _ _ _ _ _ Hn Hn Ha E1 E2) as H.
    unfold Lease_drop; simpl.
    destruct b2; simpl; [|rewrite H; by intros [= <- <- <-]]. intros [= <- <- <-]. split; [|done].
    rewrite live_charges_cons. simpl. by rewrite (Permutation_swap (r2, n)).
  - apply Forall_cons in Hn as [_ Hn]. apply Forall_cons in Hn as [Hn _]; simpl in Hn.
    unfold InputLease_acquire.
    destruct (acquire rs 1 qs) as [q1 [|]] eqn:E1; [|apply acquire_refused in E1 as ->;
      by intros [= <- <- <-]]. simpl.
    destruct (acquire rb n q1) as [q2 b2] eqn:E2.
    pose proof (acquire_two _ _ _ _ _ _ _ _ _ Z.le_0_1 Hn Ha E1 E2) as H.
    destruct b2; simpl; [|rewrite H; by intros [= <- <- <-]]. intros [= <- <- <-]. split; [|done].
    by rewrite live_charges_cons.
  - destruct (hs !! n) as [h|] eqn:Hh; intros [= <- <- <-]; [|done]. split; [|done].
    assert (live_charges hs ≡ₚ live_charges (h :: delete n hs)) as Hp
      by (unfold live_charges; by rewrite <-(delete_Permutation hs n h Hh)).
    rewrite Hp, live_charges_cons in Ha. destruct h; [by apply accounts_drop | by apply accounts_input_drop].
Qed.

(** An acquisition charges what its lease says, or nothing. *)
Definition leases_soundly {E A} (spent : A → charges) (m : action quotas E A) : Prop :=
  ∀ cs qs qs' r, accounts cs qs → m qs = (qs', r) →
    match r with Ok a => accounts (spent a ++ cs) qs' | Err _ => accounts cs qs' end.

Lemma Lease_shared_and_local_sound r1 r2 n :
  0 <= n → leases_soundly Lease_charges (Lease_shared_and_local r1 r2 n).
Proof.
  intros Hn cs qs qs' r Ha. unfold Lease_shared_and_local, Lease_shared.
  destruct (acquire r1 n qs) as [q1 [|]] eqn:E1; [|apply acquire_refused in E1 as ->;
    by intros [= <- <-]]. simpl.
  destruct (acquire r2 n q1) as [q2 b2] eqn:E2.
  pose proof (acquire_two _ _ _ _ _ _ _ _ _ Hn Hn Ha E1 E2) as H.
  unfold Lease_drop; simpl. destruct b2; simpl; [|rewrite H; by intros [= <- <-]].
  intros [= <- <-]. unfold Lease_charges; simpl. by rewrite (Permutation_swap (r2, n)).
Qed.

Lemma both_leases_sound {E} (a b : action quotas E Lease) :
  leases_soundly Lease_charges a → leases_soundly Lease_charges b →
  leases_soundly (λ p, Lease_charges p.2 ++ Lease_charges p.1) (both_leases a b).
Proof.
  intros Ha Hb cs qs qs' r H0. unfold both_leases.
  destruct (a qs) as [q1 [l1|e]] eqn:E1; specialize (Ha _ _ _ _ H0 E1); [|by intros [= <- <-]].
  destruct (b q1) as [q2 [l2|e]] eqn:E2; specialize (Hb _ _ _ _ Ha E2); intros [= <- <-]; simpl.
  - by rewrite <-app_assoc.
  - by apply accounts_drop.
Qed.

(** ** Properties *)

(** a quota is exact under concurrency.  However any number of acquiring
    and releasing calls on one quota interleave, with spurious failures, the
    counter is at every moment the sum of the amounts currently held, it never
    exceeds the limit, and no release underflows it. *)
Theorem quota_exact_interleaved limit amounts schedule p :
  0 <= limit → Forall (λ n, 0 <= n) amounts →
  run_schedule (quota_update limit) true schedule (pool_start 0 amounts) = Some p →
  let holds t := match t_phase t with Phase_ok _ => t_amount t | _ => 0 end in
  p_shared p = zsum (holds <$> p_threads p) ∧ 0 <= p_shared p <= limit
  ∧ (∀ i t v, p_threads p !! i = Some t → t_phase t = Phase_ok v → t_amount t <= p_shared p).
Proof.
  intros Hlimit Ham Hrun holds.
  set (good := λ p, Forall (λ t, 0 <= t_amount t) (p_threads p)
                    ∧ p_shared p = zsum (holds <$> p_threads p) ∧ p_shared p <= limit).
  assert (good p) as (Hpos & Hsum & Hle).
  { refine (run_schedule_invariant _ _ good schedule _ _ _ _ Hrun).
    - intros i b q q' (Hpos & Hsum & Hle) Hq. unfold pool_next in Hq.
      destruct (p_threads q !! i) as [t|] eqn:Hi; [|done].
      pose proof (Forall_lookup_1 _ _ _ _ Hpos Hi) as Ht; simpl in Ht.
      destruct (t_phase t) as [|prev|v| |] eqn:Hph; try done;
        [|destruct (quota_update limit _ prev) as [next|] eqn:Hnext; [case_match|]|];
        simplify_eq; unfold good, set_thread; simpl; rewrite (zsum_insert holds _ _ _ _ Hi);
        unfold holds at 2 3; rewrite Hph; simpl;
        (split; [by apply Forall_insert | try lia]).
      to_props. apply quota_update_Some in Hnext. lia.
    - unfold good. split; [|split; [|done]].
      + simpl. rewrite Forall_fmap. apply Ham.
      + rewrite zsum_zero; [done|]. intros t Ht. unfold holds. by rewrite (pool_start_phase _ _ _ Ht). }
  assert (∀ t, t ∈ p_threads p → 0 <= holds t) as Hh.
  { intros t Ht. rewrite Forall_forall in Hpos. specialize (Hpos t Ht).
    unfold holds. case_match; lia. }
  split; [done|]. split; [split; [|done]; rewrite Hsum; by apply zsum_nonneg|].
  intros i t v Hi Hv. pose proof (zsum_insert holds _ _ _ {| t_amount := 0; t_phase := Phase_load |} Hi) as Hins.
  assert (0 <= zsum (holds <$> <[i:={| t_amount := 0; t_phase := Phase_load |}]> (p_threads p))).
  { apply zsum_nonneg. intros u [j Hj]%list_elem_of_lookup.
    apply list_lookup_insert_Some in Hj as [(<- & <- & _)|[_ Hj]]; [done|].
    apply Hh. by eapply list_elem_of_lookup_2. }
  unfold holds in Hins at 3 4. rewrite Hv in Hins. simpl in Hins. lia.
Qed.

(** leases are all or nothing.  Over any history of taking and dropping
    single, paired and input leases on any shared quotas, each quota's counter
    is exactly what the living leases charge to it and within its limit; a
    refused acquisition, also one refused by its second quota, leaves every
    quota as it was. *)
Theorem leases_exact qs ops op :
  (∀ r q, qs !! r = Some q → q_used q = 0 ∧ 0 <= q_limit q <= usize_max) →
  Forall (λ o, Forall (λ c, 0 <= c.2) (asks o)) ops → Forall (λ c, 0 <= c.2) (asks op) →
  let s := run_lease_ops ops (qs, []) in
  accounts (live_charges s.2) s.1
  ∧ ((apply_lease_op op s).2 = false → (apply_lease_op op s).1 = s).
Proof.
  intros Hnew Hops Hop s.
  assert (accounts (live_charges s.2) s.1) as Ha.
  { assert (accounts (live_charges []) qs) as H0.
    { split; [..|apply Forall_nil_2]; intros r q Hq; destruct (Hnew _ _ Hq); [done|lia]. }
    unfold s. clear Hnew s. generalize (@nil held) as hs, qs, H0. clear H0 qs.
    induction Hops as [|o ops Ho _ IH]; intros hs qs Ha; [done|].
    change (run_lease_ops (o :: ops) (qs, hs)) with
      (run_lease_ops ops (apply_lease_op o (qs, hs)).1).
    destruct (apply_lease_op o (qs, hs)) as [[qs' hs'] b] eqn:E.
    destruct (apply_lease_op_accounts _ _ _ _ _ _ Ho Ha E) as [Ha' _]. by apply IH. }
  split; [done|]. destruct s as [qs' hs'].
  destruct (apply_lease_op op (qs', hs')) as [[qs2 hs2] b] eqn:E. simpl. intros ->.
  destruct (apply_lease_op_accounts _ _ _ _ _ _ Hop Ha E) as [_ H].
  destruct (H eq_refl) as [-> ->]. done.
Qed.

(** *** Witnesses *)

(** Calls for 3 and 2 against a limit of 4: the second is refused. *)
Lemma quota_exact_interleaved_witness :
  let schedule := [(0, false); (1, false); (0, false); (1, false); (1, false); (0, false)]%nat in
  let p := {| p_shared := 0; p_threads := [{| t_amount := 3; t_phase := Phase_released |};
                                           {| t_amount := 2; t_phase := Phase_err 3 |}] |} in
  run_schedule (quota_update 4) true schedule (pool_start 0 [3; 2]) = Some p
  ∧ 0 <= p_shared p <= 4.
Proof.
  intros schedule p. split; [vm_compute; reflexivity|].
  refine (proj1 (proj2 (quota_exact_interleaved 4 [3; 2] schedule p _ _ _))).
  - lia.
  - repeat constructor; lia.
  - vm_compute. reflexivity.
Defined.

(** A global quota of 10 and a session quota of 4: a pair of 6 is refused by
    the session and gives the global charge back. *)
Definition demo_quotas : quotas := <[0%nat := Quota_new 10]> {[1%nat := Quota_new 4]}.

Lemma leases_exact_witness :
  let s := run_lease_ops [Take_shared_and_local 0 1 3] (demo_quotas, []) in
  (apply_lease_op (Take_shared_and_local 0 1 6) s).2 = false
  ∧ (apply_lease_op (Take_shared_and_local 0 1 6) s).1 = s
  ∧ s.1 !! 0%nat = Some {| q_limit := 10; q_used := 3 |}.
Proof.
  intros s. split; [vm_compute; reflexivity|]. split; [|vm_compute; reflexivity].
  apply (leases_exact demo_quotas [Take_shared_and_local 0 1 3] (Take_shared_and_local 0 1 6)).
  - intros r q Hq. unfold demo_quotas in Hq. apply lookup_insert_Some in Hq as [[<- <-]|[_ Hq]];
      [|apply lookup_singleton_Some in Hq as [<- <-]]; split; vm_compute; intuition discriminate.
  - repeat constructor; vm_compute; discriminate.
  - repeat constructor; vm_compute; discriminate.
  - vm_compute. reflexivity.
Defined.
