(* ===== verification/Journal.v ===== *)
(** * The continuation journal (crates/application/src/projection/journal.rs,
      transfer.rs)

    The journal retains the successful mutations of one model for its
    observers, in the order of [TransferOrder], charged to a session and a
    global budget.  Records are shared: the journal and every event handed to
    an observer hold the same [Arc], and the charge ends with the last of them.
    The state below is what the journal mutex protects, the quotas it charges
    and the events that are still held outside. *)

From S2P Require Import Prelude Identity Process Terminal Checkpoint Projection Session.
From S2P Require Import Transfer Atomic Quota.

(** ** Data *)

(** [Output(Vec<u8>)] with the capacity of its vector. *)
Inductive RecordKind :=
  | RecordKind_Output (bytes : list Z) (capacity : Z)
  | RecordKind_Resize (size : TerminalSize) (generation : ControlGeneration).

Record JournalRecord := {
  jr_after : TransferBoundary;
  jr_kind : RecordKind;
  jr_bytes : Lease;
  jr_slot : Lease
}.

(** What one mutation is to a reader. *)
Abbreviation entry := (RecordKind * TransferBoundary)%type.
Definition jr_entry (r : JournalRecord) : entry := (jr_kind r, jr_after r).

Inductive TransferRead :=
  | Read_Event (event : Z)
  | Read_Pending
  | Read_End (e : TransferEnd).

(** The budgets a journal charges: its own and the runtime-wide ones. *)
Record JournalQuotas := {
  jq_bytes : quota_ref; jq_slots : quota_ref; jq_observers : quota_ref;
  jq_global_bytes : quota_ref; jq_global_slots : quota_ref; jq_global_observers : quota_ref
}.

Section waker.
(** A task waker, opaque to the journal. *)
Context {W : Type}.

(** [records] is a [BTreeMap] from sequence to [Arc<Record>]: the keys, in
    order.  A sequence is recorded once, so it also names the [Arc]; the record
    it points to is in [heap] while any [Arc] to it lives, in the map or in
    [events], one entry per outstanding event. *)
Record Journal := {
  jn_order : TransferOrder;
  jn_records : list Z;
  jn_observers : list (Z * option W);
  jn_next_observer : Z;
  jn_heap : gmap Z JournalRecord;
  jn_events : list Z;
  jn_quotas : quotas
}.

Definition set_order (o : TransferOrder) (j : Journal) : Journal := {|
  jn_order := o; jn_records := jn_records j; jn_observers := jn_observers j;
  jn_next_observer := jn_next_observer j; jn_heap := jn_heap j; jn_events := jn_events j;
  jn_quotas := jn_quotas j |}.
Definition set_records (ks : list Z) (j : Journal) : Journal := {|
  jn_order := jn_order j; jn_records := ks; jn_observers := jn_observers j;
  jn_next_observer := jn_next_observer j; jn_heap := jn_heap j; jn_events := jn_events j;
  jn_quotas := jn_quotas j |}.
Definition set_observers (obs : list (Z * option W)) (next : Z) (j : Journal) : Journal := {|
  jn_order := jn_order j; jn_records := jn_records j; jn_observers := obs;
  jn_next_observer := next; jn_heap := jn_heap j; jn_events := jn_events j;
  jn_quotas := jn_quotas j |}.
Definition set_heap (h : gmap Z JournalRecord) (qs : quotas) (j : Journal) : Journal := {|
  jn_order := jn_order j; jn_records := jn_records j; jn_observers := jn_observers j;
  jn_next_observer := jn_next_observer j; jn_heap := h; jn_events := jn_events j;
  jn_quotas := qs |}.
Definition set_events (es : list Z) (j : Journal) : Journal := {|
  jn_order := jn_order j; jn_records := jn_records j; jn_observers := jn_observers j;
  jn_next_observer := jn_next_observer j; jn_heap := jn_heap j; jn_events := es;
  jn_quotas := jn_quotas j |}.

(** ** Reference counting *)

(** Dropping an [Arc] that was just removed from the map or the events: the
    last one drops the record, which drops its two leases. *)
Definition drop_arc (k : Z) (j : Journal) : Journal :=
  if bool_decide (k ∈ jn_records j) || bool_decide (k ∈ jn_events j) then j
  else match jn_heap j !! k with
  | None => j
  | Some r =>
    set_heap (delete k (jn_heap j))
      (Lease_drop (jr_slot r) (Lease_drop (jr_bytes r) (jn_quotas j))) j
  end.

(** [BTreeMap::clear] *)
Definition clear_records (j : Journal) : Journal :=
  foldl (flip drop_arc) (set_records [] j) (jn_records j).

(** [let _ = order.discard_before(cursor)] *)
Definition discard (c : TransferCursor) (j : Journal) : Journal :=
  set_order (discard_before c (jn_order j)).1 j.

(** ** Operations *)

Definition Journal_new (lifetime : SessionLifetime) (qs : quotas) : Journal := {|
  jn_order := TransferOrder_new lifetime; jn_records := []; jn_observers := [];
  jn_next_observer := 0; jn_heap := ∅; jn_events := []; jn_quotas := qs |}.

Definition reserve_observer (q : JournalQuotas) : action quotas ProjectionError Lease :=
  Lease_shared_and_local (jq_global_observers q) (jq_observers q) 1.

(** Register an observer at the current boundary: its id and its start. *)
Definition open : action Journal ProjectionError (Z * TransferBoundary) := λ j,
  match open_boundary (jn_order j) with
  | Err TransferError_Closed => (j, Err ProjectionError_Closed)
  | Err _ => (j, Err ProjectionError_Capacity)
  | Ok start =>
    let id := jn_next_observer j in
    match checked_add u64_max id 1 with
    | None => (j, Err ProjectionError_Capacity)
    | Some next => (set_observers (jn_observers j ++ [(id, None)]) next j, Ok (id, start))
    end
  end.

Definition observer_ids (j : Journal) : list Z := fst <$> jn_observers j.
Definition put_waker (id : Z) (w : option W) (obs : list (Z * option W)) : list (Z * option W) :=
  (λ o, if o.1 =? id then (o.1, w) else o) <$> obs.

(** [observers.get_mut(&id).and_then(Option::take)] *)
Definition cancel_wait (id : Z) (j : Journal) : Journal :=
  set_observers (put_waker id None (jn_observers j)) (jn_next_observer j) j.

Definition journal_read (id : Z) (start cursor : TransferCursor) (waker : option W)
    : action Journal TransferError TransferRead := λ j,
  let j := cancel_wait id j in
  if bool_decide (id ∉ observer_ids j) then (j, Err TransferError_Closed)
  else match to_validate (jn_order j) cursor with
  | Err e => (j, Err e)
  | Ok _ =>
    if tcu_sequence cursor <? tcu_sequence start
    then (j, Err (TransferError_ResyncRequired start))
    else if bool_decide (tcu_sequence cursor ∈ jn_records j) then
      let k := tcu_sequence cursor in
      (set_events (k :: jn_events j) j, Ok (Read_Event k))
    else if bool_decide (cursor = tb_cursor (to_boundary (jn_order j))) then
      match to_end (jn_order j) with
      | Some e => (j, Ok (Read_End e))
      | None =>
        (set_observers (put_waker id waker (jn_observers j)) (jn_next_observer j) j,
         Ok Read_Pending)
      end
    else (j, Err (TransferError_ResyncRequired (tb_cursor (to_boundary (jn_order j)))))
  end.

(** Dropping the last observer releases everything retained. *)
Definition remove (id : Z) (j : Journal) : Journal :=
  let obs := filter (λ o, o.1 ≠ id) (jn_observers j) in
  let j := set_observers obs (jn_next_observer j) j in
  match obs with
  | [] =>
    let j := clear_records j in
    discard (tb_cursor (to_boundary (jn_order j))) j
  | _ => j
  end.

(** An event handed to an observer is dropped. *)
Definition drop_event (k : Z) (j : Journal) : Journal :=
  match list_find (k =.) (jn_events j) with
  | None => j
  | Some (i, _) => drop_arc k (set_events (delete i (jn_events j)) j)
  end.

(** The slot lease, then the byte lease. *)
Definition record_leases (q : JournalQuotas) (count : Z)
    : action quotas ProjectionError (Lease * Lease) :=
  both_leases (Lease_shared_and_local (jq_global_slots q) (jq_slots q) 1)
              (Lease_shared_and_local (jq_global_bytes q) (jq_bytes q) count).

Definition set_quotas (qs : quotas) (j : Journal) : Journal := set_heap (jn_heap j) qs j.

(** The loop of [append]: evict the oldest record until the leases are granted
    or nothing is left.  It recurses on the records it pops. *)
Fixpoint evict_until (q : JournalQuotas) (count : Z) (records : list Z) (j : Journal)
    : Journal * result ProjectionError (Lease * Lease) :=
  let (qs, leases) := record_leases q count (jn_quotas j) in
  let j := set_quotas qs j in
  match leases with
  | Ok l => (j, Ok l)
  | Err e =>
    match records with
    | [] => (j, Err e)
    | k :: rest =>
      let j := set_records rest j in
      let j := match jn_heap j !! k with
               | Some evicted => discard (tb_cursor (jr_after evicted)) j
               | None => j
               end in
      evict_until q count rest (drop_arc k j)
    end
  end.

Definition kind_count (kind : RecordKind) : Z :=
  match kind with RecordKind_Output _ capacity => capacity | _ => 0 end.

(** [take_wakers]: every registered waker, in observer order. *)
Definition take_wakers (j : Journal) : Journal * list W :=
  (set_observers ((λ o, (o.1, None)) <$> jn_observers j) (jn_next_observer j) j,
   omap snd (jn_observers j)).

(** What [append] does once the order has accepted the mutation. *)
Definition retain (q : JournalQuotas) (kind : RecordKind) (after : TransferBoundary)
    (j : Journal) : Journal :=
  match jn_observers j with
  | [] => discard (tb_cursor after) j
  | _ =>
    match evict_until q (kind_count kind) (jn_records j) j with
    | (j, Ok (slot, bytes)) =>
      let k := tcu_sequence (tb_cursor after) - 1 in
      let r := {| jr_after := after; jr_kind := kind; jr_bytes := bytes; jr_slot := slot |} in
      set_heap (<[k := r]> (jn_heap j)) (jn_quotas j) (set_records (jn_records j ++ [k]) j)
    | (j, Err _) => discard (tb_cursor after) (clear_records j)
    end
  end.

(** The order's decision on a mutation. *)
Definition append_order (kind : RecordKind) (processed : option ReplayCursor)
    (o : TransferOrder) : TransferOrder * result TransferError TransferBoundary :=
  match kind with
  | RecordKind_Output _ _ =>
    match processed with
    | Some cursor => to_output cursor o
    | None => (o, Err TransferError_Unavailable)
    end
  | RecordKind_Resize _ generation => to_resized generation o
  end.

(** [append], with the wakers it wakes. *)
Definition journal_append (q : JournalQuotas) (kind : RecordKind)
    (processed : option ReplayCursor) (j : Journal) : Journal * list W :=
  if negb (accepts_events (jn_order j)) then (j, [])
  else
    let (o, after) := append_order kind processed (jn_order j) in
    let j := set_order o j in
    take_wakers
      match after with
      | Err _ => clear_records (set_order (invalidate (jn_order j)) j)
      | Ok after => retain q kind after j
      end.

Definition journal_output (q : JournalQuotas) (bytes : list Z) (capacity : Z)
    (processed : ReplayCursor) : Journal → Journal * list W :=
  journal_append q (RecordKind_Output bytes capacity) (Some processed).
Definition journal_resized (q : JournalQuotas) (size : TerminalSize)
    (generation : ControlGeneration) : Journal → Journal * list W :=
  journal_append q (RecordKind_Resize size generation) None.

Definition journal_end (drain : option DrainOutcome) (failure : option ProjectionError)
    (j : Journal) : Journal * list W :=
  take_wakers (set_order (seal drain failure (jn_order j)).1 j).

Definition journal_close (j : Journal) : Journal * list W :=
  take_wakers (clear_records (set_order (to_close (jn_order j)) j)).

End waker.
Arguments Journal W : clear implicits.

(** ** The contract

    A history of accepted mutations, [log], stands for everything the model
    ever applied.  The journal retains a suffix of it. *)

(** Every [Arc] that exists points into the heap, and every record is the log
    entry its key names.  [extra] are [Arc]s about to be dropped. *)
Record heap_ok {W} (lt : SessionLifetime) (log : list entry) (extra : list Z) (j : Journal W)
    : Prop := {
  ho_dom k : is_Some (jn_heap j !! k) ↔ k ∈ jn_records j ∨ k ∈ jn_events j ∨ k ∈ extra;
  ho_log k r : jn_heap j !! k = Some r →
    0 <= k ∧ log !! Z.to_nat k = Some (jr_entry r)
    ∧ tb_cursor (jr_after r) = {| tcu_lifetime := lt; tcu_sequence := k + 1 |}
}.

(** The records are the mutations from the oldest retained one up to [m]. *)
Definition range_ok {W} (m : Z) (j : Journal W) : Prop :=
  to_oldest (jn_order j) <= m
  ∧ jn_records j = seqZ (to_oldest (jn_order j)) (m - to_oldest (jn_order j)).

Definition readable {W} (j : Journal W) : Prop := require_readable (jn_order j) = Ok tt.

Record journal_wf {W} (lt : SessionLifetime) (log : list entry) (j : Journal W) : Prop := {
  jw_order : order_wf (jn_order j);
  jw_lifetime : to_lifetime (jn_order j) = lt;
  jw_sequence : to_sequence (jn_order j) = len log;
  jw_after i e : log !! i = Some e →
    tb_cursor e.2 = {| tcu_lifetime := lt; tcu_sequence := Z.of_nat i + 1 |};
  jw_heap : heap_ok lt log [] j;
  jw_range : readable j → range_ok (len log) j;
  jw_unreadable : ¬ readable j → jn_records j = [];
  jw_unobserved : readable j → jn_observers j = [] → to_oldest (jn_order j) = len log
}.

(** What the living records charge. *)
Definition record_charges (r : JournalRecord) : charges :=
  Lease_charges (jr_bytes r) ++ Lease_charges (jr_slot r).
Definition heap_charges (h : gmap Z JournalRecord) : charges :=
  map_to_list h ≫= λ p, record_charges p.2.
(** All the journal's quotas account for the living records and [others]. *)
Definition journal_accounts {W} (others : charges) (j : Journal W) : Prop :=
  accounts (heap_charges (jn_heap j) ++ others) (jn_quotas j).

(** ** Lemmas *)

Lemma heap_charges_insert h k r :
  h !! k = None → heap_charges (<[k := r]> h) ≡ₚ record_charges r ++ heap_charges h.
Proof. intros Hk. unfold heap_charges. by rewrite map_to_list_insert. Qed.

Lemma heap_charges_delete h k r :
  h !! k = Some r → heap_charges h ≡ₚ record_charges r ++ heap_charges (delete k h).
Proof.
  intros Hk. rewrite <-(insert_delete_id h k r Hk) at 1.
  apply heap_charges_insert, lookup_delete_eq.
Qed.

Section journal_lemmas.
Context {W : Type}.
Implicit Types j : Journal W.

(** Dropping an [Arc] touches only the heap and the quotas. *)
Lemma drop_arc_frame k j :
  jn_order (drop_arc k j) = jn_order j ∧ jn_records (drop_arc k j) = jn_records j
  ∧ jn_observers (drop_arc k j) = jn_observers j
  ∧ jn_next_observer (drop_arc k j) = jn_next_observer j
  ∧ jn_events (drop_arc k j) = jn_events j.
Proof. unfold drop_arc. by repeat case_match. Qed.

Lemma drop_arc_heap_ok lt log k extra j :
  k ∉ extra → heap_ok lt log (k :: extra) j → heap_ok lt log extra (drop_arc k j).
Proof.
  intros Hk [Hd Hl]. unfold drop_arc. case_match eqn:E.
  { apply orb_true_iff in E as [E|E]; to_props; split; [|done| |done];
      intros k'; rewrite Hd; set_solver. }
  to_props. pose proof (proj2 (Hd k) ltac:(set_solver)) as [r Hr]. rewrite Hr.
  split; simpl.
  - intros k'. destruct (decide (k' = k)) as [->|Hne].
    + rewrite lookup_delete_eq. split; [by intros []|]. set_solver.
    + rewrite lookup_delete_ne by done. rewrite Hd. set_solver.
  - intros k' r' Hk'. apply lookup_delete_Some in Hk' as [_ Hk']. eauto.
Qed.

Lemma drop_arc_accounts k j others :
  journal_accounts others j → journal_accounts others (drop_arc k j).
Proof.
  unfold journal_accounts, drop_arc. case_match; [done|]. case_match eqn:E; [|done].
  simpl. rewrite (heap_charges_delete _ _ _ E). unfold record_charges.
  rewrite <-!app_assoc. intros Ha. by apply accounts_drop, accounts_drop.
Qed.

Lemma clear_records_frame j :
  jn_order (clear_records j) = jn_order j ∧ jn_records (clear_records j) = []
  ∧ jn_observers (clear_records j) = jn_observers j
  ∧ jn_next_observer (clear_records j) = jn_next_observer j
  ∧ jn_events (clear_records j) = jn_events j.
Proof.
  unfold clear_records.
  assert (∀ ks j0, jn_order (foldl (flip drop_arc) j0 ks) = jn_order j0
    ∧ jn_records (foldl (flip drop_arc) j0 ks) = jn_records j0
    ∧ jn_observers (foldl (flip drop_arc) j0 ks) = jn_observers j0
    ∧ jn_next_observer (foldl (flip drop_arc) j0 ks) = jn_next_observer j0
    ∧ jn_events (foldl (flip drop_arc) j0 ks) = jn_events j0) as H.
  { induction ks as [|k ks IH]; intros j0; [done|].
    change (foldl (flip drop_arc) j0 (k :: ks)) with (foldl (flip drop_arc) (drop_arc k j0) ks).
    destruct (IH (drop_arc k j0)) as (-> & -> & -> & -> & ->). apply drop_arc_frame. }
  by destruct (H (jn_records j) (set_records [] j)) as (-> & -> & -> & -> & ->).
Qed.

Lemma clear_records_accounts j others :
  journal_accounts others j → journal_accounts others (clear_records j).
Proof.
  unfold clear_records. intros H.
  assert (journal_accounts others (set_records [] j)) as H0 by done.
  revert H0. clear H. generalize (set_records [] j). induction (jn_records j) as [|k ks IH];
    intros j0 H0; simpl; [done|]. apply IH. by apply drop_arc_accounts.
Qed.

Lemma clear_records_heap_ok lt log j :
  NoDup (jn_records j) → heap_ok lt log [] j → heap_ok lt log [] (clear_records j).
Proof.
  unfold clear_records. intros Hnd [Hd Hl].
  assert (heap_ok lt log (jn_records j) (set_records [] j)) as H0.
  { split; simpl; [|done]. intros k. rewrite Hd. set_solver. }
  revert Hnd H0. clear Hd Hl. generalize (set_records [] j).
  induction (jn_records j) as [|k ks IH]; intros j0 Hnd H0; simpl; [done|].
  apply NoDup_cons in Hnd as [Hk Hnd]. apply IH; [done|]. by apply drop_arc_heap_ok.
Qed.

Lemma set_quotas_frame qs j :
  jn_order (set_quotas qs j) = jn_order j ∧ jn_records (set_quotas qs j) = jn_records j
  ∧ jn_observers (set_quotas qs j) = jn_observers j
  ∧ jn_next_observer (set_quotas qs j) = jn_next_observer j
  ∧ jn_events (set_quotas qs j) = jn_events j ∧ jn_heap (set_quotas qs j) = jn_heap j.
Proof. done. Qed.

Lemma heap_ok_frame lt log extra j j' :
  jn_records j' = jn_records j → jn_events j' = jn_events j → jn_heap j' = jn_heap j →
  heap_ok lt log extra j → heap_ok lt log extra j'.
Proof. intros Hr He Hh [Hd Hl]. split; rewrite Hh; [intros k; by rewrite Hr, He|done]. Qed.

(** Discarding through a known cursor raises the oldest position to it. *)
Lemma discard_known c j :
  tcu_lifetime c = to_lifetime (jn_order j) → tcu_sequence c <= to_sequence (jn_order j) →
  jn_order (discard c j) =
    {| to_boundary := to_boundary (jn_order j);
       to_oldest := Z.max (to_oldest (jn_order j)) (tcu_sequence c);
       to_end := to_end (jn_order j); to_closed := to_closed (jn_order j);
       to_unavailable := to_unavailable (jn_order j) |}.
Proof.
  intros Hl Hs. unfold discard, set_order; simpl. unfold discard_before, validate_identity.
  rewrite bool_decide_eq_false_2 by naive_solver.
  by rewrite (proj2 (Z.ltb_ge _ _)) by done.
Qed.

(** Popping the oldest record of a range. *)
Lemma range_pop m k rest j :
  range_ok m j → jn_records j = k :: rest →
  k = to_oldest (jn_order j) ∧ k < m
  ∧ rest = seqZ (k + 1) (m - (k + 1)) ∧ k ∉ rest.
Proof.
  intros [Ho Hr] Hrec. rewrite Hrec in Hr.
  destruct (decide (0 < m - to_oldest (jn_order j))); [|rewrite seqZ_nil in Hr by lia; done].
  rewrite seqZ_cons in Hr by done. injection Hr as -> ->.
  repeat split; [lia|f_equal; lia|]. rewrite elem_of_seqZ. lia.
Qed.

(** What eviction keeps: the position, the observers, the outstanding events. *)
Record same_position (j j' : Journal W) : Prop := {
  sp_boundary : to_boundary (jn_order j') = to_boundary (jn_order j);
  sp_end : to_end (jn_order j') = to_end (jn_order j);
  sp_closed : to_closed (jn_order j') = to_closed (jn_order j);
  sp_unavailable : to_unavailable (jn_order j') = to_unavailable (jn_order j);
  sp_oldest : to_oldest (jn_order j) <= to_oldest (jn_order j');
  sp_observers : jn_observers j' = jn_observers j;
  sp_next : jn_next_observer j' = jn_next_observer j;
  sp_events : jn_events j' = jn_events j
}.

(** One round of the loop: the oldest record goes. *)
Definition evict_one (k : Z) (rest : list Z) (j : Journal W) : Journal W :=
  let j := set_records rest j in
  drop_arc k match jn_heap j !! k with
             | Some evicted => discard (tb_cursor (jr_after evicted)) j
             | None => j
             end.

Lemma evict_one_spec lt log m k rest j :
  to_lifetime (jn_order j) = lt → m <= to_sequence (jn_order j) →
  heap_ok lt log [] j → range_ok m j → jn_records j = k :: rest →
  heap_ok lt log [] (evict_one k rest j) ∧ range_ok m (evict_one k rest j)
  ∧ same_position j (evict_one k rest j) ∧ jn_records (evict_one k rest j) = rest.
Proof.
  intros Hlt Hm [Hd Hl] Hrange Hrec.
  destruct (range_pop _ _ _ _ Hrange Hrec) as (Hk & Hkm & Hrest & Hfresh).
  destruct (proj2 (Hd k) ltac:(rewrite Hrec; set_solver)) as [r Hr].
  destruct (Hl _ _ Hr) as (Hk0 & _ & Hafter). unfold evict_one; simpl. rewrite Hr.
  set (j1 := discard (tb_cursor (jr_after r)) (set_records rest j)).
  assert (jn_order j1 = {| to_boundary := to_boundary (jn_order j); to_oldest := k + 1;
     to_end := to_end (jn_order j); to_closed := to_closed (jn_order j);
     to_unavailable := to_unavailable (jn_order j) |}) as Ho1.
  { unfold j1. rewrite discard_known; rewrite ?Hafter; simpl; [|done|lia].
    f_equal. lia. }
  destruct (drop_arc_frame k j1) as (E1 & E2 & E3 & E4 & E5).
  split_and!.
  - apply drop_arc_heap_ok; [set_solver|]. split; [|done]. intros k'. simpl. rewrite Hd, Hrec. set_solver.
  - unfold range_ok. rewrite E1, E2, Ho1. simpl. split; [lia|]. unfold j1; simpl. by rewrite Hrest.
  - split; rewrite ?E1, ?E3, ?E4, ?E5, ?Ho1; simpl; (done || lia).
  - by rewrite E2.
Qed.

Lemma evict_one_accounts k rest j others :
  journal_accounts others j → journal_accounts others (evict_one k rest j).
Proof. intros H. apply drop_arc_accounts. simpl. case_match; done. Qed.

Lemma same_position_trans j1 j2 j3 :
  same_position j1 j2 → same_position j2 j3 → same_position j1 j3.
Proof. intros [] []. split; (congruence || lia). Qed.

Lemma same_position_lifetime j j' :
  same_position j j' → to_lifetime (jn_order j') = to_lifetime (jn_order j)
  ∧ to_sequence (jn_order j') = to_sequence (jn_order j).
Proof. intros []. unfold to_lifetime, to_sequence. split; congruence. Qed.

Lemma evict_until_spec q count lt log m records j j' r :
  to_lifetime (jn_order j) = lt → m <= to_sequence (jn_order j) →
  heap_ok lt log [] j → range_ok m j → jn_records j = records →
  evict_until q count records j = (j', r) →
  heap_ok lt log [] j' ∧ range_ok m j' ∧ same_position j j'
  ∧ (is_err r = true → jn_records j' = []).
Proof.
  revert j. induction records as [|k rest IH]; intros j Hlt Hm Hh Hr Hrec; simpl;
    destruct (record_leases q count (jn_quotas j)) as [qs [l|e]].
  1, 2, 3: intros [= <- <-]; split_and!; try done; by apply (heap_ok_frame lt log [] j).
  intros He.
  destruct (evict_one_spec lt log m k rest (set_quotas qs j)) as (H1 & H2 & H3 & H4); try done.
  { by apply (heap_ok_frame lt log [] j). }
  destruct (same_position_lifetime _ _ H3) as [Hlt' Hs'].
  destruct (IH (evict_one k rest (set_quotas qs j))) as (H5 & H6 & H7 & H8); try done.
  - by rewrite Hlt'.
  - by rewrite Hs'.
  - split_and!; try done. eapply same_position_trans; [|done]. by destruct H3.
Qed.

(** ** Histories of calls *)

Inductive journal_op :=
  | J_open
  | J_read (id : Z) (start cursor : TransferCursor) (waker : option W)
  | J_cancel_wait (id : Z)
  | J_remove (id : Z)
  | J_drop_event (k : Z)
  | J_append (kind : RecordKind) (processed : option ReplayCursor)
  | J_end (drain : option DrainOutcome) (failure : option ProjectionError)
  | J_close.

Definition apply_journal_op (q : JournalQuotas) (op : journal_op) (j : Journal W) : Journal W :=
  match op with
  | J_open => (open j).1
  | J_read id start cursor waker => (journal_read id start cursor waker j).1
  | J_cancel_wait id => cancel_wait id j
  | J_remove id => remove id j
  | J_drop_event k => drop_event k j
  | J_append kind processed => (journal_append q kind processed j).1
  | J_end drain failure => (journal_end drain failure j).1
  | J_close => (journal_close j).1
  end.

(** The mutation a call adds to the log. *)
Definition journal_logged (op : journal_op) (j : Journal W) : list entry :=
  match op with
  | J_append kind processed =>
    if accepts_events (jn_order j) then
      match (append_order kind processed (jn_order j)).2 with
      | Ok after => [(kind, after)]
      | Err _ => []
      end
    else []
  | _ => []
  end.

Fixpoint run_journal (q : JournalQuotas) (ops : list journal_op) (j : Journal W)
    : Journal W * list entry :=
  match ops with
  | [] => (j, [])
  | op :: ops =>
    let (j', log) := run_journal q ops (apply_journal_op q op j) in
    (j', journal_logged op j ++ log)
  end.

Lemma append_order_Ok kind processed o o' after :
  append_order kind processed o = (o', Ok after) →
  to_boundary o' = after
  ∧ tb_cursor after = {| tcu_lifetime := to_lifetime o; tcu_sequence := to_sequence o + 1 |}
  ∧ to_oldest o' = to_oldest o ∧ to_end o' = to_end o
  ∧ to_closed o' = to_closed o ∧ to_unavailable o' = to_unavailable o.
Proof.
  unfold append_order. destruct kind; [destruct processed|]; [..|]; try done;
    transfer_cases; intros; simplify_eq/=; destruct_and?; subst; done.
Qed.

Lemma append_order_wf kind processed o : order_wf o → order_wf (append_order kind processed o).1.
Proof.
  intros Ho. unfold append_order. destruct kind; [destruct processed; [|done]|].
  - by apply (apply_transfer_wf (Op_output _)).
  - by apply (apply_transfer_wf (Op_resized _)).
Qed.

Lemma append_order_Err kind processed o o' e :
  append_order kind processed o = (o', Err e) → o' = o.
Proof.
  unfold append_order. destruct kind; [destruct processed|];
    transfer_cases; intros; by simplify_eq/=.
Qed.

(** The invariant reads only the order, the records, the observers' presence
    and the heap. *)
Lemma journal_wf_frame lt log j j' :
  jn_order j' = jn_order j → jn_records j' = jn_records j → jn_events j' = jn_events j →
  jn_heap j' = jn_heap j → (jn_observers j' = [] → jn_observers j = []) →
  journal_wf lt log j → journal_wf lt log j'.
Proof.
  intros Ho Hr He Hh Hobs []. unfold readable, range_ok in *.
  split; unfold readable, range_ok; rewrite ?Ho, ?Hr; try done; [|naive_solver].
  by apply (heap_ok_frame _ _ _ j).
Qed.

Lemma journal_wf_nodup lt log j : journal_wf lt log j → NoDup (jn_records j).
Proof.
  intros []. destruct (decide (require_readable (jn_order j) = Ok tt)) as [H|H].
  - destruct (jw_range0 H) as [_ ->]. apply NoDup_seqZ.
  - rewrite jw_unreadable0 by done. constructor.
Qed.

Lemma put_waker_nil id (w : option W) obs : put_waker id w obs = [] → obs = [].
Proof. by destruct obs. Qed.
Lemma put_waker_ids id (w : option W) obs : fst <$> put_waker id w obs = fst <$> obs.
Proof.
  unfold put_waker. rewrite <-list_fmap_compose. apply list_fmap_ext. intros _ [i v] _. simpl.
  by case_match.
Qed.

Lemma cancel_wait_wf lt log id j : journal_wf lt log j → journal_wf lt log (cancel_wait id j).
Proof. apply journal_wf_frame; try done. simpl. apply put_waker_nil. Qed.

Lemma open_wf lt log j : journal_wf lt log j → journal_wf lt log (open j).1.
Proof.
  intros Hwf. unfold open. case_match; [case_match|by case_match]; [|done].
  apply (journal_wf_frame _ _ j); try done. simpl. by destruct (jn_observers j).
Qed.

Lemma read_wf lt log id start c w j :
  journal_wf lt log j → journal_wf lt log (journal_read id start c w j).1.
Proof.
  intros Hwf. apply (cancel_wait_wf _ _ id) in Hwf. unfold journal_read.
  revert Hwf. generalize (cancel_wait id j) as j0. intros j0 Hwf.
  case_match; [done|]. case_match; [|done]. case_match; [done|]. case_match eqn:E; to_props.
  - destruct Hwf. split; try done. simpl. destruct jw_heap0 as [Hd Hl]. split; [|done].
    intros k. simpl. rewrite Hd. set_solver.
  - case_match; [|done]. case_match; [done|]. simpl. eapply journal_wf_frame, Hwf; try done.
    simpl. apply put_waker_nil.
Qed.

Lemma drop_event_wf lt log k j : journal_wf lt log j → journal_wf lt log (drop_event k j).
Proof.
  intros Hwf. unfold drop_event. destruct (list_find _ _) as [[i x]|] eqn:E; [|done].
  apply list_find_Some in E as (Hi & <- & _).
  set (j1 := set_events (delete i (jn_events j)) j).
  destruct (drop_arc_frame k j1) as (E1 & E2 & E3 & E4 & E5).
  destruct Hwf. split; unfold readable, range_ok; rewrite ?E1, ?E2, ?E3; try done.
  destruct jw_heap0 as [Hd Hl]. apply drop_arc_heap_ok; [set_solver|]. split; [|done].
  assert (∀ k', k' ∈ jn_events j ↔ k' = k ∨ k' ∈ delete i (jn_events j)) as Hev.
  { intros k'. rewrite (delete_Permutation _ _ _ Hi) at 1. set_solver. }
  intros k'. simpl. rewrite Hd, Hev. set_solver.
Qed.

Lemma remove_wf lt log id j : journal_wf lt log j → journal_wf lt log (remove id j).
Proof.
  intros Hwf. unfold remove. pose proof (journal_wf_nodup _ _ _ Hwf) as Hnd.
  set (j1 := set_observers (filter _ _) _ j).
  destruct (filter _ _) as [|o obs] eqn:Hobs; [|by apply (journal_wf_frame _ _ j)].
  destruct Hwf. destruct (clear_records_frame j1) as (E1 & E2 & E3 & E4 & E5).
  assert (heap_ok lt log [] (clear_records j1)) as Hheap.
  { apply clear_records_heap_ok; [done|]. by apply (heap_ok_frame _ _ _ j). }
  assert (jn_order j1 = jn_order j) as E0 by done. rewrite E0 in E1.
  assert (jn_order (discard (tb_cursor (to_boundary (jn_order (clear_records j1)))) (clear_records j1))
    = {| to_boundary := to_boundary (jn_order j); to_oldest := len log;
         to_end := to_end (jn_order j); to_closed := to_closed (jn_order j);
         to_unavailable := to_unavailable (jn_order j) |}) as Ho.
  { rewrite discard_known; rewrite E1; [|done|done]. f_equal.
    pose proof (ow_range _ jw_order0). unfold to_sequence in *. lia. }
  assert (to_sequence (jn_order j) = len log) as Hs by done.
  split; unfold readable, range_ok; rewrite ?Ho; simpl; try done.
  - destruct jw_order0. split; unfold to_sequence, to_lifetime in *; simpl; try done. len_lia.
  - by apply (heap_ok_frame _ _ _ (clear_records j1)).
  - rewrite E2. split; [lia|]. by rewrite seqZ_nil by lia.
Qed.

(** A new end, or the loss of readability. *)
Lemma set_order_wf lt log op j :
  op = Op_close ∨ op = Op_invalidate ∨ (∃ d f, op = Op_seal d f) →
  journal_wf lt log j →
  let o := apply_transfer_op op (jn_order j) in
  (require_readable o = Ok tt → readable j)
  ∧ order_wf o ∧ to_lifetime o = lt ∧ to_sequence o = len log
  ∧ to_oldest o = to_oldest (jn_order j).
Proof.
  intros Hop Hwf o. split_and!.
  - unfold o, readable. destruct Hop as [->|[->|(d & f & ->)]]; transfer_cases; done.
  - apply apply_transfer_wf, Hwf.
  - rewrite <-(jw_lifetime _ _ _ Hwf). unfold o.
    destruct Hop as [->|[->|(d & f & ->)]]; transfer_cases; done.
  - rewrite <-(jw_sequence _ _ _ Hwf). unfold o.
    destruct Hop as [->|[->|(d & f & ->)]]; transfer_cases; done.
  - unfold o. destruct Hop as [->|[->|(d & f & ->)]]; transfer_cases; done.
Qed.

Lemma take_wakers_wf lt log j : journal_wf lt log j → journal_wf lt log (take_wakers j).1.
Proof. apply journal_wf_frame; try done. simpl. by destruct (jn_observers j). Qed.

Lemma seal_readable d f o : require_readable (seal d f o).1 = require_readable o.
Proof. unfold seal. by repeat case_match. Qed.

Lemma end_wf lt log d f j : journal_wf lt log j → journal_wf lt log (journal_end d f j).1.
Proof.
  intros Hwf. apply take_wakers_wf.
  destruct (set_order_wf lt log (Op_seal d f) j) as (Hr & H1 & H2 & H3 & H4); [eauto|done|].
  destruct Hwf. split; unfold readable, range_ok; simpl in *; try done.
  - by apply (heap_ok_frame _ _ _ j).
  - intros H. rewrite H4. by apply jw_range0, Hr.
  - rewrite seal_readable. done.
  - intros H. rewrite H4. by apply jw_unobserved0, Hr.
Qed.

(** Losing readability drops every record. *)
Lemma unreadable_wf lt log op j :
  op = Op_close ∨ op = Op_invalidate →
  journal_wf lt log j →
  journal_wf lt log (clear_records (set_order (apply_transfer_op op (jn_order j)) j)).
Proof.
  intros Hop Hwf. pose proof (journal_wf_nodup _ _ _ Hwf) as Hnd.
  destruct (set_order_wf lt log op j) as (_ & H1 & H2 & H3 & H4); [naive_solver|done|].
  set (j1 := set_order _ j). destruct (clear_records_frame j1) as (E1 & E2 & E3 & E4 & E5).
  assert (¬ readable (clear_records j1)) as Hun.
  { unfold readable. rewrite E1. unfold j1; simpl. destruct Hop as [->| ->]; transfer_cases; done. }
  destruct Hwf. split; try done; rewrite ?E1; try done.
  apply clear_records_heap_ok; [done|]. by apply (heap_ok_frame _ _ _ j).
Qed.

Lemma close_wf lt log j : journal_wf lt log j → journal_wf lt log (journal_close j).1.
Proof. intros Hwf. apply take_wakers_wf. apply (unreadable_wf _ _ Op_close); auto. Qed.

(** What an accepted mutation leaves before it is retained. *)
Record accepted_mutation (lt : SessionLifetime) (log : list entry) (after : TransferBoundary)
    (j : Journal W) : Prop := {
  am_order : order_wf (jn_order j);
  am_lifetime : to_lifetime (jn_order j) = lt;
  am_sequence : to_sequence (jn_order j) = len log + 1;
  am_readable : readable j;
  am_cursor : tb_cursor after = {| tcu_lifetime := lt; tcu_sequence := len log + 1 |};
  am_after i e : log !! i = Some e →
    tb_cursor e.2 = {| tcu_lifetime := lt; tcu_sequence := Z.of_nat i + 1 |}
}.

Lemma heap_ok_extend lt log extra j e :
  heap_ok lt log extra j → heap_ok lt (log ++ [e]) extra j.
Proof.
  intros [Hd Hl]. split; [done|]. intros k r Hk. destruct (Hl k r Hk) as (? & Hlog & ?).
  split_and!; [done| |done]. by apply lookup_app_l_Some.
Qed.

Lemma heap_ok_fresh lt log extra j : heap_ok lt log extra j → jn_heap j !! len log = None.
Proof.
  intros [_ Hl]. destruct (jn_heap j !! len log) as [r|] eqn:E; [|done].
  destruct (Hl _ _ E) as (_ & Hlog & _). apply lookup_lt_Some in Hlog. unfold len in Hlog. lia.
Qed.

Lemma after_extend lt log kind after :
  tb_cursor after = {| tcu_lifetime := lt; tcu_sequence := len log + 1 |} →
  (∀ i e, log !! i = Some e →
    tb_cursor e.2 = {| tcu_lifetime := lt; tcu_sequence := Z.of_nat i + 1 |}) →
  ∀ i (e : entry), (log ++ [(kind, after)]) !! i = Some e →
    tb_cursor e.2 = {| tcu_lifetime := lt; tcu_sequence := Z.of_nat i + 1 |}.
Proof.
  intros Hc Hlog i e [Hi|[Hi He]]%lookup_app_Some; [eauto|].
  apply list_lookup_singleton_Some in He as [Hi0 <-]. simpl. rewrite Hc. f_equal. unfold len. lia.
Qed.

(** Retention is given up: everything before the new boundary is discarded. *)
Lemma gap_wf lt log kind after j :
  accepted_mutation lt log after j → heap_ok lt log [] j → jn_records j = [] →
  journal_wf lt (log ++ [(kind, after)]) (discard (tb_cursor after) j).
Proof.
  intros [] Hh Hr.
  assert (jn_order (discard (tb_cursor after) j)
    = {| to_boundary := to_boundary (jn_order j); to_oldest := len log + 1;
         to_end := to_end (jn_order j); to_closed := to_closed (jn_order j);
         to_unavailable := to_unavailable (jn_order j) |}) as Ho.
  { rewrite discard_known; rewrite am_cursor0; simpl; [|done|lia]. f_equal.
    pose proof (ow_range _ am_order0). lia. }
  assert (len (log ++ [(kind, after)]) = len log + 1) as Hlen by len_lia.
  split; unfold readable, range_ok; rewrite ?Ho, ?Hlen; simpl; try done.
  - destruct am_order0. split; unfold to_sequence, to_lifetime in *; simpl; try done. len_lia.
  - by apply after_extend.
  - apply heap_ok_extend. by apply (heap_ok_frame _ _ _ j).
  - intros _. rewrite Hr. split; [lia|]. by rewrite seqZ_nil by lia.
Qed.

(** The record is stored at the end of the range. *)
Lemma stored_wf lt log kind after bytes slot j :
  accepted_mutation lt log after j → heap_ok lt log [] j → range_ok (len log) j →
  jn_observers j ≠ [] →
  let k := tcu_sequence (tb_cursor after) - 1 in
  let r := {| jr_after := after; jr_kind := kind; jr_bytes := bytes; jr_slot := slot |} in
  journal_wf lt (log ++ [(kind, after)])
    (set_heap (<[k := r]> (jn_heap j)) (jn_quotas j) (set_records (jn_records j ++ [k]) j)).
Proof.
  intros [] Hh [Hold Hrec] Hobs k r. assert (k = len log) as -> by (unfold k; rewrite am_cursor0; simpl; lia).
  assert (len (log ++ [(kind, after)]) = len log + 1) as Hlen by len_lia.
  split; unfold readable, range_ok; rewrite ?Hlen; simpl; try done.
  - by apply after_extend.
  - destruct (heap_ok_extend _ _ _ _ (kind, after) Hh) as [Hd Hl]. split; simpl.
    + intros k'. destruct (decide (k' = len log)) as [->|].
      * rewrite lookup_insert_eq. split; [set_solver|done].
      * rewrite lookup_insert_ne by done. rewrite Hd. set_solver.
    + intros k' r' [[<- <-]|[_ Hk']]%lookup_insert_Some; [|eauto].
      split; [len_lia|]. split; [|done]. unfold len. rewrite Nat2Z.id.
      rewrite lookup_app_r by done. by rewrite Nat.sub_diag.
  - intros _. split; [lia|]. rewrite Hrec.
    replace (len log + 1 - _) with ((len log - to_oldest (jn_order j)) + 1) by lia.
    rewrite seqZ_app by lia. f_equal. rewrite seqZ_cons by lia. rewrite seqZ_nil by lia. f_equal. lia.
Qed.

Lemma same_position_mutation lt log after j j' :
  order_wf (jn_order j') → same_position j j' → accepted_mutation lt log after j →
  accepted_mutation lt log after j'.
Proof.
  intros Hwf Hs []. destruct (same_position_lifetime _ _ Hs) as [H1 H2]. destruct Hs.
  split; try done; try congruence.
  unfold readable, require_readable in *. by rewrite sp_closed0, sp_unavailable0.
Qed.

Lemma same_position_wf j j' :
  same_position j j' → to_oldest (jn_order j') <= to_sequence (jn_order j') →
  order_wf (jn_order j) → order_wf (jn_order j').
Proof.
  intros Hs Hle [Hr Hsq Hl He]. destruct (same_position_lifetime _ _ Hs) as [H1 H2]. destruct Hs.
  split; [lia|lia|congruence|]. intros e. rewrite sp_end0, sp_boundary0. apply He.
Qed.

Lemma retain_wf q kind lt log after j :
  accepted_mutation lt log after j → heap_ok lt log [] j → range_ok (len log) j →
  (jn_observers j = [] → jn_records j = []) →
  journal_wf lt (log ++ [(kind, after)]) (retain q kind after j).
Proof.
  intros Ham Hh Hr Hobs. unfold retain.
  destruct (jn_observers j) as [|o obs] eqn:Eo; [apply gap_wf; auto|].
  destruct (evict_until q (kind_count kind) (jn_records j) j) as [j' r] eqn:Ev.
  destruct (evict_until_spec q _ lt log (len log) _ _ _ _ (am_lifetime _ _ _ _ Ham)
    ltac:(rewrite (am_sequence _ _ _ _ Ham); lia) Hh Hr eq_refl Ev) as (H1 & H2 & H3 & H4).
  assert (accepted_mutation lt log after j') as Ham'.
  { refine (same_position_mutation _ _ _ _ _ _ H3 Ham). apply (same_position_wf _ _ H3); [|apply Ham].
    destruct (same_position_lifetime _ _ H3) as [_ ->]. rewrite (am_sequence _ _ _ _ Ham).
    destruct H2. lia. }
  destruct r as [[slot bytes]|e].
  - apply stored_wf; try done. rewrite (sp_observers _ _ H3), Eo. done.
  - specialize (H4 eq_refl). destruct (clear_records_frame j') as (E1 & E2 & E3 & E4 & E5).
    apply gap_wf; [|apply clear_records_heap_ok; [rewrite H4; constructor|done]|done].
    destruct Ham'. split; unfold readable; rewrite ?E1; done.
Qed.

Lemma append_wf q kind processed lt log j :
  journal_wf lt log j →
  journal_wf lt (log ++ journal_logged (J_append kind processed) j)
    (journal_append q kind processed j).1.
Proof.
  intros Hwf. unfold journal_append, journal_logged.
  destruct (accepts_events (jn_order j)) eqn:Ha; simpl; [|by rewrite app_nil_r].
  destruct (append_order kind processed (jn_order j)) as [o' [after|e]] eqn:Eo.
  - apply take_wakers_wf. apply append_order_Ok in Eo as Hok. destruct Hok as (Hb & Hc & Hold & Hend & Hcl & Hun).
    pose proof (append_order_wf kind processed _ (jw_order _ _ _ Hwf)) as Howf. rewrite Eo in Howf.
    assert (readable j) as Hread.
    { unfold accepts_events in Ha. to_props. unfold readable, require_readable.
      destruct (to_closed _), (to_unavailable _); done. }
    destruct (jw_range _ _ _ Hwf Hread) as [Hr1 Hr2].
    apply retain_wf.
    + destruct Hwf. split; simpl; try done.
      * unfold to_lifetime. rewrite Hb, Hc. done.
      * unfold to_sequence at 1. rewrite Hb, Hc. simpl. by rewrite <-jw_sequence0.
      * unfold readable, require_readable in *; simpl. by rewrite Hcl, Hun.
      * rewrite Hc, jw_lifetime0, jw_sequence0. done.
    + by apply (heap_ok_frame _ _ _ j), Hwf.
    + unfold range_ok; simpl. by rewrite Hold.
    + simpl. intros Hobs. pose proof (jw_unobserved _ _ _ Hwf Hread Hobs).
      rewrite Hr2, seqZ_nil; [done|lia].
  - apply append_order_Err in Eo as ->. rewrite app_nil_r. apply take_wakers_wf.
    apply (unreadable_wf _ _ Op_invalidate (set_order (jn_order j) j)); [auto|].
    by apply (journal_wf_frame _ _ j).
Qed.

Lemma apply_journal_wf q op lt log j :
  journal_wf lt log j → journal_wf lt (log ++ journal_logged op j) (apply_journal_op q op j).
Proof.
  intros Hwf. destruct op; try (apply append_wf; done); simpl; rewrite app_nil_r.
  - by apply open_wf.
  - by apply read_wf.
  - by apply cancel_wait_wf.
  - by apply remove_wf.
  - by apply drop_event_wf.
  - by apply end_wf.
  - by apply close_wf.
Qed.

Lemma run_journal_wf q ops lt log j :
  journal_wf lt log j →
  journal_wf lt (log ++ (run_journal q ops j).2) (run_journal q ops j).1.
Proof.
  revert log j. induction ops as [|op ops IH]; intros log j Hwf; simpl; [by rewrite app_nil_r|].
  specialize (IH _ _ (apply_journal_wf q op lt log j Hwf)).
  destruct (run_journal q ops (apply_journal_op q op j)) as [j' log']; simpl in *.
  by rewrite app_assoc.
Qed.

Lemma journal_new_wf lt qs : journal_wf lt [] (Journal_new (W := W) lt qs).
Proof.
  split; try done.
  split; simpl; intros k; rewrite lookup_empty; [split; [by intros []|set_solver]|done].
Qed.

(** ** What a reader sees *)

Lemma read_event_retained lt log c j :
  journal_wf lt log j → readable j →
  (tcu_sequence c ∈ jn_records j ↔
   to_oldest (jn_order j) <= tcu_sequence c < to_sequence (jn_order j)).
Proof.
  intros Hwf Hr. destruct (jw_range _ _ _ Hwf Hr) as [Ho ->].
  rewrite (jw_sequence _ _ _ Hwf). rewrite elem_of_seqZ. lia.
Qed.

(** The answer to a registered observer, by the position of its cursor. *)
Lemma journal_read_spec lt log id start c w j :
  journal_wf lt log j → id ∈ observer_ids j →
  (journal_read id start c w j).2 =
    match to_validate (jn_order j) c with
    | Err e => Err e
    | Ok _ =>
      if tcu_sequence c <? tcu_sequence start then Err (TransferError_ResyncRequired start)
      else if tcu_sequence c <? len log then Ok (Read_Event (tcu_sequence c))
      else match to_end (jn_order j) with
           | Some e => Ok (Read_End e)
           | None => Ok Read_Pending
           end
    end.
Proof.
  intros Hwf Hid. unfold journal_read.
  rewrite bool_decide_eq_false_2
    by (unfold observer_ids, cancel_wait; simpl; rewrite put_waker_ids; tauto).
  change (jn_order (cancel_wait id j)) with (jn_order j).
  change (jn_records (cancel_wait id j)) with (jn_records j).
  destruct (to_validate (jn_order j) c) as [[]|e] eqn:Ev; [|done].
  case_match; [done|]. rewrite validate_exact in Ev.
  destruct (to_closed (jn_order j)) eqn:Ec; [done|].
  destruct (to_unavailable (jn_order j)) eqn:Eu; [done|].
  destruct (decide (tcu_lifetime c = to_lifetime (jn_order j))) as [Hl|]; [|discriminate].
  destruct (decide (to_oldest (jn_order j) <= tcu_sequence c <= to_sequence (jn_order j))) as [Hrg|];
    [|by case_decide].
  assert (readable j) as Hr by (unfold readable, require_readable; by rewrite Ec, Eu).
  pose proof (read_event_retained lt log c j Hwf Hr) as Hin.
  rewrite (jw_sequence _ _ _ Hwf) in *.
  destruct (Z.ltb_spec (tcu_sequence c) (len log)).
  - rewrite bool_decide_eq_true_2 by (apply Hin; lia). done.
  - rewrite bool_decide_eq_false_2 by (rewrite Hin; lia). rewrite bool_decide_eq_true_2; [by case_match|].
    destruct c as [clt cseq]. pose proof (jw_sequence _ _ _ Hwf) as Hs.
    unfold to_lifetime, to_sequence in *. simpl in *.
    destruct (tb_cursor (to_boundary (jn_order j))); simpl in *. f_equal; [done|lia].
Qed.

(** ** Accounting *)

Lemma record_leases_sound q n :
  0 <= n → leases_soundly (λ p, Lease_charges p.2 ++ Lease_charges p.1) (record_leases q n).
Proof. intros Hn. by apply both_leases_sound; apply Lease_shared_and_local_sound. Qed.

Lemma evict_until_accounts q n records others j j' r :
  0 <= n → journal_accounts others j →
  evict_until q n records j = (j', r) →
  match r with
  | Ok (slot, bytes) =>
      accounts (Lease_charges bytes ++ Lease_charges slot ++ heap_charges (jn_heap j') ++ others)
        (jn_quotas j')
  | Err _ => journal_accounts others j'
  end.
Proof.
  intros Hn. revert j. induction records as [|k rest IH]; intros j Ha; simpl;
    destruct (record_leases q n (jn_quotas j)) as [qs l] eqn:El;
    pose proof (record_leases_sound q n Hn _ _ _ _ Ha El) as Hs;
    destruct l as [[slot bytes]|e]; simpl in Hs; rewrite <-?app_assoc in Hs; try (by intros [= <- <-]).
  intros He. eapply (IH (evict_one k rest (set_quotas qs j))); [|done].
  by apply evict_one_accounts.
Qed.

(** Eviction only shrinks the heap. *)
Lemma drop_arc_heap k0 k r j : jn_heap (drop_arc k0 j) !! k = Some r → jn_heap j !! k = Some r.
Proof.
  unfold drop_arc. case_match; [done|]. case_match; [|done]. simpl.
  by intros [_ ?]%lookup_delete_Some.
Qed.

Lemma evict_until_heap q n records j j' res k r :
  evict_until q n records j = (j', res) → jn_heap j' !! k = Some r → jn_heap j !! k = Some r.
Proof.
  revert j. induction records as [|k0 rest IH]; intros j; simpl;
    destruct (record_leases q n (jn_quotas j)) as [qs [l|e]]; try (by intros [= <- <-]).
  intros He Hk. specialize (IH _ He Hk). apply drop_arc_heap in IH. by case_match.
Qed.

Lemma retain_accounts q kind after others j :
  0 <= kind_count kind → jn_heap j !! (tcu_sequence (tb_cursor after) - 1) = None →
  journal_accounts others j → journal_accounts others (retain q kind after j).
Proof.
  intros Hn Hfresh Ha. unfold retain. destruct (jn_observers j); [done|].
  destruct (evict_until q (kind_count kind) (jn_records j) j) as [j' r] eqn:Ev.
  pose proof (evict_until_accounts _ _ _ _ _ _ _ Hn Ha Ev) as Hj'.
  destruct r as [[slot bytes]|e]; [|by apply clear_records_accounts in Hj'].
  assert (jn_heap j' !! (tcu_sequence (tb_cursor after) - 1) = None) as Hf.
  { destruct (jn_heap j' !! _) as [r|] eqn:E; [|done].
    eapply evict_until_heap in E; [|exact Ev]. congruence. }
  unfold journal_accounts; simpl. rewrite (heap_charges_insert _ _ _ Hf). unfold record_charges; simpl.
  by rewrite <-!app_assoc.
Qed.

Definition op_counts (op : journal_op) : Prop :=
  match op with J_append kind _ => 0 <= kind_count kind | _ => True end.

Lemma apply_journal_accounts q op lt log others j :
  op_counts op → journal_wf lt log j → journal_accounts others j →
  journal_accounts others (apply_journal_op q op j).
Proof.
  intros Hop Hwf Ha. destruct op as [|id start c w|id|id|k|kind processed|d f|]; simpl.
  - unfold open. by repeat case_match.
  - unfold journal_read. by repeat case_match.
  - done.
  - unfold remove. case_match; [|done]. by apply clear_records_accounts.
  - unfold drop_event. destruct (list_find _ _) as [[i x]|]; [|done]. by apply drop_arc_accounts.
  - unfold journal_append. destruct (accepts_events (jn_order j)); simpl; [|done].
    destruct (append_order kind processed (jn_order j)) as [o' [after|e]] eqn:Eo; simpl.
    + apply append_order_Ok in Eo as (_ & Hc & _).
      apply (retain_accounts q kind after others (set_order o' j) Hop); [|done]. simpl.
      rewrite Hc; simpl. rewrite (jw_sequence _ _ _ Hwf).
      replace (len log + 1 - 1) with (len log) by lia. eapply heap_ok_fresh, Hwf.
    + by apply clear_records_accounts.
  - done.
  - by apply clear_records_accounts.
Qed.

Lemma run_journal_accounts q ops lt log others j :
  Forall op_counts ops → journal_wf lt log j → journal_accounts others j →
  journal_accounts others (run_journal q ops j).1.
Proof.
  intros Hops. revert log j. induction Hops as [|op ops Hop _ IH]; intros log j Hwf Ha; simpl; [done|].
  specialize (IH _ _ (apply_journal_wf q op lt log j Hwf) (apply_journal_accounts q op _ _ _ _ Hop Hwf Ha)).
  by destruct (run_journal q ops (apply_journal_op q op j)).
Qed.

(** ** An observer among other calls *)

(** The log entry an event points to. *)
Definition event_entry (j : Journal W) (k : Z) : list entry :=
  match jn_heap j !! k with Some r => [jr_entry r] | None => [] end.

(** [Some op] is anybody's call; [None] is a read of the observer [id] at its
    cursor, which moves to [after().cursor] on an event. *)
Fixpoint observe (q : JournalQuotas) (id : Z) (start : TransferCursor) (steps : list (option journal_op))
    (c : TransferCursor) (j : Journal W) : TransferCursor * list entry :=
  match steps with
  | [] => (c, [])
  | Some op :: steps => observe q id start steps c (apply_journal_op q op j)
  | None :: steps =>
    let (j', r) := journal_read id start c None j in
    match r with
    | Ok (Read_Event k) =>
      match event_entry j' k with
      | [e] => let (c', seen) := observe q id start steps (tb_cursor e.2) j' in (c', e :: seen)
      | _ => (c, [])
      end
    | _ => observe q id start steps c j'
    end
  end.
(** Everything the journal's model applied during those steps. *)
Fixpoint observed_log (q : JournalQuotas) (id : Z) (start : TransferCursor)
    (steps : list (option journal_op)) (c : TransferCursor) (j : Journal W) : list entry :=
  match steps with
  | [] => []
  | Some op :: steps =>
    journal_logged op j ++ observed_log q id start steps c (apply_journal_op q op j)
  | None :: steps =>
    let (j', r) := journal_read id start c None j in
    match r with
    | Ok (Read_Event k) =>
      match event_entry j' k with
      | [e] => observed_log q id start steps (tb_cursor e.2) j'
      | _ => []
      end
    | _ => observed_log q id start steps c j'
    end
  end.

(** An event is the log entry at the cursor it was read with. *)
Lemma read_event_entry lt log id start c w j j' k :
  journal_wf lt log j → journal_read id start c w j = (j', Ok (Read_Event k)) →
  k = tcu_sequence c ∧ 0 <= k ∧ ∃ e, event_entry j' k = [e] ∧ log !! Z.to_nat k = Some e.
Proof.
  intros Hwf Hr. pose proof (read_wf lt log id start c w j Hwf) as Hwf'. rewrite Hr in Hwf'.
  unfold journal_read in Hr. repeat case_match; simplify_eq/=. to_props.
  destruct (ho_dom _ _ _ _ (jw_heap _ _ _ Hwf') (tcu_sequence c)) as [_ [r Hheap]]; [simpl; set_solver|].
  destruct (ho_log _ _ _ _ (jw_heap _ _ _ Hwf') _ _ Hheap) as (? & ? & ?).
  split; [done|]. split; [done|]. exists (jr_entry r). unfold event_entry. by rewrite Hheap.
Qed.

Lemma observe_spec lt q id start steps log c j c' seen :
  journal_wf lt log j → 0 <= tcu_sequence c → tcu_lifetime c = lt →
  observe q id start steps c j = (c', seen) →
  tcu_lifetime c' = lt ∧ tcu_sequence c' = tcu_sequence c + len seen
  ∧ seen `prefix_of` drop (Z.to_nat (tcu_sequence c)) (log ++ observed_log q id start steps c j).
Proof.
  revert log c j c' seen. induction steps as [|[op|] steps IH]; intros log c j c' seen Hwf Hc Hl; simpl.
  - intros [= <- <-]. split_and!; [done|len_lia|apply prefix_nil].
  - intros Ho. rewrite app_assoc. eapply IH; eauto. by apply apply_journal_wf.
  - destruct (journal_read id start c None j) as [j' r] eqn:Er.
    pose proof (read_wf lt log id start c None j Hwf) as Hwf'. rewrite Er in Hwf'; simpl in Hwf'.
    destruct r as [[k| |e]|e]; [|intros Ho; eapply IH; eauto..].
    destruct (read_event_entry _ _ _ _ _ _ _ _ _ Hwf Er) as (-> & _ & e & He & Hlog). rewrite He.
    destruct (observe q id start steps (tb_cursor e.2) j') as [c1 seen1] eqn:Eo. intros [= <- <-].
    pose proof (jw_after _ _ _ Hwf _ _ Hlog) as Hafter. rewrite Z2Nat.id in Hafter by done.
    destruct (IH log (tb_cursor e.2) j' c1 seen1) as (H1 & H2 & H3); try done.
    { rewrite Hafter. simpl. lia. } { by rewrite Hafter. }
    assert (tcu_sequence (tb_cursor e.2) = tcu_sequence c + 1) as Hn by by rewrite Hafter.
    rewrite Hn in H2, H3. split_and!; [done|len_lia|].
    rewrite (drop_S _ e (Z.to_nat (tcu_sequence c))) by (by apply lookup_app_l_Some).
    apply prefix_cons.
    replace (S (Z.to_nat (tcu_sequence c))) with (Z.to_nat (tcu_sequence c + 1)) by lia. done.
Qed.

End journal_lemmas.
Arguments journal_op W : clear implicits.

(** ** Properties *)

(** C30: the journal serves the log.  After any history of calls, a registered
    observer that asks at any cursor is answered by the position of the cursor
    alone: the event at a retained position is exactly the mutation the model
    applied there, payload and boundary; a position below the retained range or
    before the observer's own start gets the explicit resynchronisation point;
    the position after the last mutation is pending or the sealed end; nothing
    else is ever answered. *)
Theorem journal_serves_log {W} q lt qs (ops : list (journal_op W)) id start c w :
  let (j, log) := run_journal q ops (Journal_new lt qs) in
  id ∈ observer_ids j → readable j → tcu_lifetime c = lt → tcu_lifetime start = lt →
  let oldest := {| tcu_lifetime := lt; tcu_sequence := to_oldest (jn_order j) |} in
  let (j', answer) := journal_read id start c w j in
  answer =
    (if len log <? tcu_sequence c then Err TransferError_FutureCursor
     else if tcu_sequence c <? tcu_sequence oldest then Err (TransferError_ResyncRequired oldest)
     else if tcu_sequence c <? tcu_sequence start then Err (TransferError_ResyncRequired start)
     else if tcu_sequence c =? len log then
       match to_end (jn_order j) with Some e => Ok (Read_End e) | None => Ok Read_Pending end
     else Ok (Read_Event (tcu_sequence c)))
  ∧ (∀ k, answer = Ok (Read_Event k) →
      ∃ e, event_entry j' k = [e] ∧ log !! Z.to_nat k = Some e
           ∧ tb_cursor e.2 = {| tcu_lifetime := lt; tcu_sequence := k + 1 |}).
Proof.
  pose proof (run_journal_wf q ops lt [] _ (journal_new_wf (W := W) lt qs)) as Hwf.
  destruct (run_journal q ops (Journal_new lt qs)) as [j log]; simpl in Hwf.
  intros Hid Hread Hc Hstart oldest. pose proof (journal_read_spec lt log id start c w j Hwf Hid) as Hspec.
  destruct (journal_read id start c w j) as [j' answer] eqn:Er; simpl in Hspec. subst answer. split.
  - rewrite validate_exact. unfold readable, require_readable in Hread.
    destruct (to_closed (jn_order j)), (to_unavailable (jn_order j)); try done.
    rewrite (jw_lifetime _ _ _ Hwf), (jw_sequence _ _ _ Hwf), decide_True by done.
    unfold oldest_cursor. rewrite (jw_lifetime _ _ _ Hwf). fold oldest.
    repeat case_decide; repeat case_match; simpl in *; to_props; try done; lia.
  - intros k Hk. rewrite Hk in Er.
    destruct (read_event_entry _ _ _ _ _ _ _ _ _ Hwf Er) as (-> & Hk0 & e & He & Hlog).
    exists e. split_and!; [done|done|]. rewrite (jw_after _ _ _ Hwf _ _ Hlog). by rewrite Z2Nat.id.
Qed.

(** continuation is lossless.  An observer that reads at its cursor and
    moves it to the boundary each event names, interleaved with any other calls
    - more output and resizes, eviction, other observers, a seal or a close -
    has seen exactly the mutations the model applied from its start on, each
    once and in order: a prefix of that log, as long as the cursor advanced. *)
Theorem observer_sees_log_in_order {W} q lt qs (ops : list (journal_op W)) id start steps :
  let (j, log) := run_journal q ops (Journal_new lt qs) in
  tcu_lifetime start = lt → 0 <= tcu_sequence start →
  let (c, seen) := observe q id start steps start j in
  tcu_sequence c = tcu_sequence start + len seen
  ∧ seen `prefix_of`
      drop (Z.to_nat (tcu_sequence start)) (log ++ observed_log q id start steps start j).
Proof.
  pose proof (run_journal_wf q ops lt [] _ (journal_new_wf (W := W) lt qs)) as Hwf.
  destruct (run_journal q ops (Journal_new lt qs)) as [j log]; simpl in Hwf.
  intros Hl Hs. destruct (observe q id start steps start j) as [c seen] eqn:Eo.
  by destruct (observe_spec lt q id start steps log start j c seen Hwf Hs Hl Eo) as (_ & ? & ?).
Qed.

(** retention is charged exactly.  After any history, the four journal
    quotas are charged precisely what the records that are still alive - in the
    journal or in an event somebody holds - lease, on top of the [others] that
    were charged before; when no observer is left and every event has been
    dropped, nothing of it remains. *)
Theorem journal_charges_exact {W} q lt qs others (ops : list (journal_op W)) :
  accounts others qs → Forall op_counts ops →
  let j := (run_journal q ops (Journal_new lt qs)).1 in
  accounts (heap_charges (jn_heap j) ++ others) (jn_quotas j)
  ∧ (jn_observers j = [] → jn_events j = [] → accounts others (jn_quotas j)).
Proof.
  intros Ha Hops j.
  assert (journal_accounts others j) as Hj.
  { eapply run_journal_accounts; [done|apply journal_new_wf|]. done. }
  split; [done|]. intros Hobs Hev.
  pose proof (run_journal_wf q ops lt [] _ (journal_new_wf (W := W) lt qs)) as Hwf. fold j in Hwf.
  assert (jn_records j = []) as Hrec.
  { destruct (decide (require_readable (jn_order j) = Ok tt)) as [Hr|Hr]; [|by eapply jw_unreadable].
    destruct (jw_range _ _ _ Hwf Hr) as [_ ->]. rewrite (jw_unobserved _ _ _ Hwf Hr Hobs).
    by rewrite seqZ_nil by (simpl; lia). }
  assert (jn_heap j = ∅) as Hheap.
  { apply map_empty. intros k. destruct (jn_heap j !! k) as [r|] eqn:E; [|done].
    apply mk_is_Some, (ho_dom _ _ _ _ (jw_heap _ _ _ Hwf)) in E. rewrite Hrec, Hev in E. set_solver. }
  unfold journal_accounts in Hj. by rewrite Hheap in Hj.
Qed.

(** *** Witnesses *)

Definition demo_journal_quotas : JournalQuotas :=
  {| jq_bytes := 0; jq_slots := 1; jq_observers := 2;
     jq_global_bytes := 3; jq_global_slots := 4; jq_global_observers := 5 |}.
(** A session that may retain two records. *)
Definition demo_journal_store : quotas :=
  list_to_map [(0, Quota_new 64); (1, Quota_new 2); (2, Quota_new 4);
               (3, Quota_new 1024); (4, Quota_new 128); (5, Quota_new 64)]%nat.
Definition demo_session : SessionLifetime := SessionLifetime_new 7 1.
Definition demo_output (n : Z) : journal_op () :=
  J_append (RecordKind_Output [n] 16) (Some {| rc_lifetime := demo_session; rc_offset := n |}).
Definition demo_at (n : Z) : TransferCursor :=
  {| tcu_lifetime := demo_session; tcu_sequence := n |}.
(** An observer registers, then three outputs: the first is evicted. *)
Definition demo_journal_ops : list (journal_op ()) :=
  [J_open; demo_output 1; demo_output 2; demo_output 3].

Lemma journal_serves_log_witness :
  let (j, log) := run_journal demo_journal_quotas demo_journal_ops
                    (Journal_new demo_session demo_journal_store) in
  (journal_read 0 (demo_at 0) (demo_at 0) None j).2 = Err (TransferError_ResyncRequired (demo_at 1))
  ∧ (journal_read 0 (demo_at 0) (demo_at 2) None j).2 = Ok (Read_Event 2)
  ∧ event_entry (journal_read 0 (demo_at 0) (demo_at 2) None j).1 2 ≠ [].
Proof.
  pose proof (journal_serves_log demo_journal_quotas demo_session demo_journal_store
                demo_journal_ops 0 (demo_at 0) (demo_at 0) None) as H0.
  pose proof (journal_serves_log demo_journal_quotas demo_session demo_journal_store
                demo_journal_ops 0 (demo_at 0) (demo_at 2) None) as H2.
  destruct (run_journal _ _ _) as [j log] eqn:Ej. vm_compute in Ej. injection Ej as <- <-.
  specialize (H0 ltac:(vm_compute; by left) eq_refl eq_refl eq_refl).
  specialize (H2 ltac:(vm_compute; by left) eq_refl eq_refl eq_refl).
  split_and!.
  - exact (proj1 H0).
  - exact (proj1 H2).
  - destruct (proj2 H2 2 eq_refl) as (e & He & _). vm_compute. discriminate.
Defined.

(** The observer reads while outputs go on; it sees both of them, in order. *)
Lemma observer_sees_log_in_order_witness :
  let (j, log) := run_journal demo_journal_quotas [J_open] (Journal_new demo_session demo_journal_store) in
  let steps := [Some (demo_output 1); None; Some (demo_output 2); None; None] in
  let (c, seen) := observe demo_journal_quotas 0 (demo_at 0) steps (demo_at 0) j in
  tcu_sequence c = 2
  ∧ seen `prefix_of` log ++ observed_log demo_journal_quotas 0 (demo_at 0) steps (demo_at 0) j.
Proof.
  pose proof (observer_sees_log_in_order demo_journal_quotas demo_session demo_journal_store
    [J_open] 0 (demo_at 0) [Some (demo_output 1); None; Some (demo_output 2); None; None]) as H.
  destruct (run_journal _ _ _) as [j log] eqn:Ej. vm_compute in Ej. injection Ej as <- <-.
  specialize (H eq_refl ltac:(vm_compute; discriminate)).
  cbv zeta. destruct (observe _ _ _ _ _ _) as [c seen] eqn:Eo.
  destruct H as [Hc Hp]. split; [|exact Hp].
  vm_compute in Eo. injection Eo as <- <-. exact Hc.
Defined.

Lemma journal_charges_exact_witness :
  accounts [] (jn_quotas (run_journal demo_journal_quotas (demo_journal_ops ++ [J_remove 0])
                            (Journal_new demo_session demo_journal_store)).1).
Proof.
  refine (proj2 (journal_charges_exact demo_journal_quotas demo_session demo_journal_store []
                   (demo_journal_ops ++ [J_remove 0]) _ _) _ _).
  - split; [..|constructor]; intros r q Hq; apply elem_of_list_to_map_2 in Hq;
      repeat (apply elem_of_cons in Hq as [Hq|Hq]; [injection Hq as -> ->; vm_compute; intuition discriminate|]);
      by apply elem_of_nil in Hq.
  - repeat constructor; vm_compute; discriminate.
  - vm_compute. reflexivity.
  - vm_compute. reflexivity.
Defined.
