(* ===== verification/Bytes.v ===== *)
(** * Byte-string operations of the standard library

    The slice and [str] methods the scanners and codecs use, on [list Z]. *)

From S2P Require Import Prelude Utf8.

(** ** Classes of ASCII bytes *)

Definition is_ascii_lowercase (b : Z) : bool := in_range 97 122 b.
Definition is_ascii_digit (b : Z) : bool := in_range 48 57 b.
Definition is_ascii_alphanumeric (b : Z) : bool :=
  in_range 48 57 b || in_range 65 90 b || in_range 97 122 b.
Definition is_ascii_whitespace (b : Z) : bool :=
  (b =? 32) || (b =? 9) || (b =? 10) || (b =? 12) || (b =? 13).

(** ** Searching and splitting *)

(** [iter().position(|b| *b == x)] *)
Fixpoint position (x : Z) (l : list Z) : option nat :=
  match l with
  | [] => None
  | b :: l => if b =? x then Some 0%nat else S <$> position x l
  end.

(** [split(|b| *b == x)]: always at least one piece. *)
Fixpoint split (x : Z) (l : list Z) : list (list Z) :=
  match l with
  | [] => [[]]
  | b :: l =>
    if b =? x then [] :: split x l
    else match split x l with
         | piece :: rest => (b :: piece) :: rest
         | [] => [[b]]
         end
  end.

Fixpoint strip_prefix (prefix l : list Z) : option (list Z) :=
  match prefix, l with
  | [], l => Some l
  | p :: prefix, b :: l => if p =? b then strip_prefix prefix l else None
  | _ :: _, [] => None
  end.

Fixpoint trim_start (p : Z → bool) (l : list Z) : list Z :=
  match l with
  | b :: l' => if p b then trim_start p l' else l
  | [] => []
  end.
Definition trim_end (p : Z → bool) (l : list Z) : list Z := rev (trim_start p (rev l)).
Definition trim_ascii (l : list Z) : list Z :=
  trim_end is_ascii_whitespace (trim_start is_ascii_whitespace l).

(** [str::rsplit_once]: around the last occurrence. *)
Fixpoint rsplit_once (x : Z) (l : list Z) : option (list Z * list Z) :=
  match l with
  | [] => None
  | b :: l =>
    match rsplit_once x l with
    | Some (before, after) => Some (b :: before, after)
    | None => if b =? x then Some ([], l) else None
    end
  end.

(** ** Lemmas *)

Lemma position_None x l : position x l = None ↔ x ∉ l.
Proof.
  induction l as [|b l IH]; simpl; [set_solver|].
  destruct (Z.eqb_spec b x); [set_solver|]. rewrite fmap_None, IH. set_solver.
Qed.

Lemma position_Some x l n :
  position x l = Some n → l = take n l ++ x :: drop (S n) l ∧ x ∉ take n l.
Proof.
  revert n. induction l as [|b l IH]; intros n; simpl; [done|].
  destruct (Z.eqb_spec b x) as [->|Hne]; [intros [= <-]; set_solver|].
  intros (m & Hm & ->)%fmap_Some. destruct (IH m Hm) as [Hl Hx]. simpl.
  split; [by f_equal|set_solver].
Qed.

Lemma position_lt x l n : position x l = Some n → (n < length l)%nat.
Proof.
  revert n. induction l as [|b l IH]; intros n; simpl; [done|].
  case_match; [intros [= <-]; lia|]. intros (m & Hm & ->)%fmap_Some. specialize (IH m Hm). lia.
Qed.

(** Splitting a joined list of pieces free of the separator gives it back. *)
Fixpoint join (x : Z) (pieces : list (list Z)) : list Z :=
  match pieces with
  | [] => []
  | [p] => p
  | p :: rest => p ++ x :: join x rest
  end.

Lemma split_no_sep x p : x ∉ p → split x p = [p].
Proof.
  induction p as [|b p IH]; simpl; intros Hx; [done|].
  destruct (Z.eqb_spec b x); [set_solver|]. by rewrite IH by set_solver.
Qed.

Lemma split_app_sep x p l : x ∉ p → split x (p ++ x :: l) = p :: split x l.
Proof.
  induction p as [|b p IH]; simpl; intros Hx; [by rewrite Z.eqb_refl|].
  destruct (Z.eqb_spec b x); [set_solver|]. by rewrite IH by set_solver.
Qed.

Lemma split_join x pieces :
  pieces ≠ [] → Forall (λ p, x ∉ p) pieces → split x (join x pieces) = pieces.
Proof.
  intros Hne H. induction H as [|p pieces Hp Hps IH]; [done|]. destruct pieces as [|p' pieces].
  - by apply split_no_sep.
  - change (join x (p :: p' :: pieces)) with (p ++ x :: join x (p' :: pieces)).
    rewrite split_app_sep by done. by rewrite IH.
Qed.

Lemma split_pieces x l p b : p ∈ split x l → b ∈ p → b ∈ l ∧ b ≠ x.
Proof.
  revert p. induction l as [|c l IH]; intros p Hp Hb; simpl in Hp.
  { apply list_elem_of_singleton in Hp as ->. by apply elem_of_nil in Hb. }
  assert (∀ q, q ∈ split x l → b ∈ q → b ∈ c :: l ∧ b ≠ x) as IH'
    by (intros q Hq Hbq; destruct (IH q Hq Hbq); split; [by right|done]).
  destruct (Z.eqb_spec c x) as [->|Hne].
  { apply elem_of_cons in Hp as [->|Hp]; [by apply elem_of_nil in Hb|eauto]. }
  destruct (split x l) as [|p0 ps] eqn:E.
  { apply list_elem_of_singleton in Hp as ->. apply list_elem_of_singleton in Hb as ->.
    split; [by left|done]. }
  apply elem_of_cons in Hp as [->|Hp]; [|by apply (IH' p); [right|]].
  apply elem_of_cons in Hb as [->|Hb]; [split; [by left|done]|]. by apply (IH' p0); [left|].
Qed.

(** Every byte is a separator or in a piece. *)
Lemma split_cover x l b : b ∈ l → b = x ∨ ∃ p, p ∈ split x l ∧ b ∈ p.
Proof.
  induction l as [|c l IH]; intros Hb; simpl; [by apply elem_of_nil in Hb|].
  destruct (Z.eqb_spec c x) as [->|Hne]; apply elem_of_cons in Hb as [->|Hb]; [by left| | |].
  - destruct (IH Hb) as [->|(p & Hp & Hbp)]; [by left|right]. exists p. split; [by right|done].
  - right. destruct (split x l); eexists; split; by left.
  - destruct (IH Hb) as [->|(p & Hp & Hbp)]; [by left|right].
    destruct (split x l) as [|p0 ps]; [by apply elem_of_nil in Hp|].
    apply elem_of_cons in Hp as [->|Hp]; eexists; (split; [by left|by right]) || (split; [by right|done]).
Qed.

Lemma strip_prefix_Some p l r : strip_prefix p l = Some r ↔ l = p ++ r.
Proof.
  revert l. induction p as [|x p IH]; intros l; simpl; [naive_solver|].
  destruct l as [|b l]; [naive_solver|]. destruct (Z.eqb_spec x b) as [->|]; [|naive_solver].
  rewrite IH. naive_solver.
Qed.

Lemma trim_start_id p b l : p b = false → trim_start p (b :: l) = b :: l.
Proof. intros H. simpl. by rewrite H. Qed.

Lemma trim_start_suffix p l : trim_start p l `suffix_of` l.
Proof.
  induction l as [|b l IH]; simpl; [done|]. destruct (p b); [|done]. by apply suffix_cons_r.
Qed.

(** Nothing to trim: no byte satisfies the test. *)
Lemma trim_start_none p l : Forall (λ b, p b = false) l → trim_start p l = l.
Proof. destruct 1 as [|b l Hb]; [done|]. by apply trim_start_id. Qed.
Lemma trim_end_none p l : Forall (λ b, p b = false) l → trim_end p l = l.
Proof.
  intros H. unfold trim_end. rewrite trim_start_none by by apply Forall_rev. apply rev_involutive.
Qed.
Lemma trim_ascii_none l : Forall (λ b, is_ascii_whitespace b = false) l → trim_ascii l = l.
Proof.
  intros H. unfold trim_ascii. rewrite trim_start_none by done. by apply trim_end_none.
Qed.

(** [trim_end] removes a run of the trimmed byte after a byte that stays. *)
Lemma trim_end_app p l k : Forall (λ b, p b = true) k → trim_end p (l ++ k) = trim_end p l.
Proof.
  intros H. unfold trim_end. rewrite rev_app_distr. f_equal.
  apply Forall_rev in H. induction H as [|b k' Hb _ IH]; simpl; [done|]. by rewrite Hb.
Qed.

Lemma rsplit_once_None x l : rsplit_once x l = None ↔ x ∉ l.
Proof.
  induction l as [|b l IH]; simpl; [set_solver|].
  destruct (rsplit_once x l) as [[]|]; [|destruct (Z.eqb_spec b x); set_solver].
  split; [done|]. intros Hx. exfalso. assert (x ∉ l) by set_solver. by apply IH in H.
Qed.

Lemma rsplit_once_Some x l before after :
  rsplit_once x l = Some (before, after) → l = before ++ x :: after ∧ x ∉ after.
Proof.
  revert before. induction l as [|b l IH]; intros before; simpl; [done|].
  destruct (rsplit_once x l) as [[bf af]|] eqn:E.
  - intros [= <- <-]. destruct (IH bf eq_refl) as [-> ?]. done.
  - apply rsplit_once_None in E. destruct (Z.eqb_spec b x) as [->|]; [|done].
    by intros [= <- <-].
Qed.
