(* ===== verification/StatusReport.v ===== *)
(** * Program-status reports (crates/domain/src/terminal/program_status/
      value.rs, report.rs)

    The records of OSC 7501, the parser of a report body, its base64 text
    decoder, and the display form of untrusted text.  Strings are their UTF-8
    bytes. *)

From S2P Require Import Prelude Utf8 Bytes.

(** ** Values (value.rs) *)

Inductive ProgramState := Idle | Working | Done | Blocked | Error.
Inductive ProgramStatusKind := Permission | Question | Auth.

Record ProgramStatusRecord := {
  sr_id : list Z;
  sr_state : ProgramState;
  sr_app : option (list Z);
  sr_resolved_app : option (list Z);
  sr_kind : option ProgramStatusKind;
  sr_progress : option Z;
  sr_msg : option (list Z);
  sr_title : option (list Z)
}.

#[export] Instance ProgramState_eq_dec : EqDecision ProgramState.
Proof. solve_decision. Defined.
#[export] Instance ProgramStatusKind_eq_dec : EqDecision ProgramStatusKind.
Proof. solve_decision. Defined.
#[export] Instance ProgramStatusRecord_eq_dec : EqDecision ProgramStatusRecord.
Proof. solve_decision. Defined.

(** The invisible format characters [display_text] escapes. *)
Definition invisible_ranges : list (Z * Z) :=
  [(0x600, 0x605); (0x6dd, 0x6dd); (0x70f, 0x70f); (0x890, 0x891); (0x8e2, 0x8e2);
   (0x110bd, 0x110bd); (0x110cd, 0x110cd); (0x13430, 0x1343f); (0xad, 0xad); (0x34f, 0x34f);
   (0x61c, 0x61c); (0x115f, 0x115f); (0x1160, 0x1160); (0x17b4, 0x17b4); (0x17b5, 0x17b5);
   (0x180b, 0x180f); (0x200b, 0x200f); (0x202a, 0x202e); (0x2060, 0x206f); (0x3164, 0x3164);
   (0xfe00, 0xfe0f); (0xfeff, 0xfeff); (0xffa0, 0xffa0); (0xfff9, 0xfffb);
   (0x1bca0, 0x1bca3); (0x1d173, 0x1d17a); (0xe0000, 0xe0fff)].
Definition invisible (c : Z) : bool := existsb (λ r, in_range r.1 r.2 c) invisible_ranges.

(** [{:x}]: lowercase hexadecimal without leading zeros; [fuel] digits are
    enough for a value below 16^fuel. *)
Definition hex_digit (d : Z) : Z := if d <? 10 then 48 + d else 87 + d.
Fixpoint hex_digits (fuel : nat) (n : Z) : list Z :=
  match fuel with
  | O => []
  | S fuel => if n <? 16 then [hex_digit n] else hex_digits fuel (n / 16) ++ [hex_digit (n mod 16)]
  end.

Definition display_char (c : Z) : list Z :=
  if invisible c then bs "\u{" ++ hex_digits 8 c ++ bs "}" else utf8_char c.
Definition display_text (text : list Z) : list Z := chars text ≫= display_char.

Definition display_msg (r : ProgramStatusRecord) : option (list Z) := display_text <$> sr_msg r.
Definition display_title (r : ProgramStatusRecord) : option (list Z) := display_text <$> sr_title r.

(** ** Reports (report.rs) *)

Inductive Mutation :=
  | Mutation_Report (r : ProgramStatusRecord)
  | Mutation_Clear (id : list Z)
  | Mutation_Exit
  | Mutation_Reset.

Definition one_of (s : list Z) (b : Z) : bool := existsb (Z.eqb b) s.

Definition id_byte (b : Z) : bool := is_ascii_alphanumeric b || one_of (bs "_.+-") b.

Definition valid_id (id : list Z) : bool :=
  negb (len id =? 0)
  && (len (split 47 id) <=? 8)
  && forallb (λ s, negb (len s =? 0) && (len s <=? 32) && forallb id_byte s) (split 47 id).

(** The six bits of one base64 digit. *)
Definition base64_value (b : Z) : option Z :=
  if in_range 65 90 b then Some (b - 65)
  else if in_range 97 122 b then Some (b - 97 + 26)
  else if in_range 48 57 b then Some (b - 48 + 52)
  else if b =? 43 then Some 62
  else if b =? 47 then Some 63
  else None.

(** The loop of [decode]: [bits] holds [count] pending bits of a [u32]. *)
Fixpoint decode_loop (data : list Z) (bits count : Z) (out : list Z) : option (Z * list Z) :=
  match data with
  | [] => Some (bits, out)
  | b :: data =>
    match base64_value b with
    | None => None
    | Some n =>
      let bits := Z.lor (Z.land (Z.shiftl bits 6) u32_max) n in
      let count := count + 6 in
      if 8 <=? count then
        let count := count - 8 in
        decode_loop data (Z.land bits (Z.shiftl 1 count - 1)) count
          (out ++ [Z.land (Z.shiftr bits count) 255])
      else decode_loop data bits count out
    end
  end.

Definition decode (value : list Z) (limit : Z) : option (list Z) :=
  let data := trim_end (Z.eqb 61) value in
  let padding := len value - len data in
  if (2 <? padding) || (len data mod 4 =? 1)
     || ((0 <? padding) && (negb (len value mod 4 =? 0)
                            || negb (padding =? (4 - len data mod 4) mod 4)))
  then None
  else
    match decode_loop data 0 0 [] with
    | None => None
    | Some (bits, out) =>
      if negb (bits =? 0) || (limit <? len out) then None
      else
        text ← from_utf8 out;
        if existsb is_control (chars text) then None else Some text
    end.

(** [str::parse::<u8>] on a non-empty string of digits. *)
Fixpoint parse_u8_from (n : Z) (digits : list Z) : option Z :=
  match digits with
  | [] => Some n
  | d :: digits =>
    let n := n * 10 + (d - 48) in
    if u8_max <? n then None else parse_u8_from n digits
  end.

(** The last accepted value of each key. *)
Record fields := {
  f_state : option (list Z); f_id : option (list Z); f_app : option (list Z);
  f_kind : option (list Z); f_progress : option (list Z);
  f_msg : option (list Z); f_title : option (list Z)
}.
Definition no_fields : fields :=
  {| f_state := None; f_id := None; f_app := None; f_kind := None; f_progress := None;
     f_msg := None; f_title := None |}.

Definition value_byte (b : Z) : bool := is_ascii_alphanumeric b || one_of (bs "_.,+/=-") b.

Definition named (key : list Z) (name : list Z) : bool := bool_decide (key = name).

(** The last [match] of the loop body: record one accepted value. *)
Definition store_field (key value : list Z) (f : fields) : option fields :=
  if named key (bs "state") then
    Some {| f_state := Some value; f_id := f_id f; f_app := f_app f; f_kind := f_kind f;
            f_progress := f_progress f; f_msg := f_msg f; f_title := f_title f |}
  else if named key (bs "app") then
    Some {| f_state := f_state f; f_id := f_id f; f_app := Some value; f_kind := f_kind f;
            f_progress := f_progress f; f_msg := f_msg f; f_title := f_title f |}
  else if named key (bs "id") then
    Some {| f_state := f_state f; f_id := Some value; f_app := f_app f; f_kind := f_kind f;
            f_progress := f_progress f; f_msg := f_msg f; f_title := f_title f |}
  else if named key (bs "kind") then
    Some {| f_state := f_state f; f_id := f_id f; f_app := f_app f; f_kind := Some value;
            f_progress := f_progress f; f_msg := f_msg f; f_title := f_title f |}
  else if named key (bs "progress") then
    Some {| f_state := f_state f; f_id := f_id f; f_app := f_app f; f_kind := f_kind f;
            f_progress := Some value; f_msg := f_msg f; f_title := f_title f |}
  else if named key (bs "msg") then
    text ← decode value 2048;
    Some {| f_state := f_state f; f_id := f_id f; f_app := f_app f; f_kind := f_kind f;
            f_progress := f_progress f; f_msg := Some text; f_title := f_title f |}
  else if named key (bs "title") then
    text ← decode value 192;
    Some {| f_state := f_state f; f_id := f_id f; f_app := f_app f; f_kind := f_kind f;
            f_progress := f_progress f; f_msg := f_msg f; f_title := Some text |}
  else Some f.

(** The byte limits a malformed occurrence must not evade. *)
Definition over_limit (key value : list Z) : bool :=
  (named key (bs "msg") && (2732 <? len value))
  || (named key (bs "title") && (256 <? len value))
  || (named key (bs "app") && (32 <? len value))
  || (named key (bs "id") && (128 <? len value)).

(** One [key=value] pair: [None] rejects the report, [Some f] goes on. *)
Definition parse_pair (pair : list Z) (f : fields) : option fields :=
  match position 61 pair with
  | None => Some f
  | Some separator =>
    let key := trim_ascii (take separator pair) in
    let value := trim_ascii (drop (S separator) pair) in
    if 16 <? len key then None
    else match from_utf8 key with
    | None => Some f
    | Some key =>
      if (len key =? 0) || negb (forallb is_ascii_lowercase key) then Some f
      else if over_limit key value then None
      else match from_utf8 value with
      | None => if named key (bs "id") then None else Some f
      | Some value =>
        if named key (bs "id") && negb (valid_id value) then None
        else if negb (forallb value_byte value) then Some f
        else store_field key value f
      end
    end
  end.

Fixpoint parse_pairs (pairs : list (list Z)) (f : fields) : option fields :=
  match pairs with
  | [] => Some f
  | p :: pairs => f ← parse_pair p f; parse_pairs pairs f
  end.

Definition parse_kind (value : option (list Z)) : option ProgramStatusKind :=
  match value with
  | Some v =>
    if named v (bs "permission") then Some Permission
    else if named v (bs "question") then Some Question
    else if named v (bs "auth") then Some Auth
    else None
  | None => None
  end.

Definition parse_progress (value : option (list Z)) : option Z :=
  s ← value;
  if negb (len s =? 0) && forallb is_ascii_digit s then
    n ← parse_u8_from 0 s;
    if n <=? 100 then Some n else None
  else None.

Definition parse_app (value : option (list Z)) : option (list Z) :=
  v ← value;
  if negb (len v =? 0) && forallb id_byte v then Some v else None.

(** What the collected fields mean, after the loop. *)
Definition report_of_fields (f : fields) : option Mutation :=
  let id := default [] (f_id f) in
  s ← f_state f;
  if named s (bs "clear") then Some (Mutation_Clear id)
  else
    state ← (if named s (bs "idle") then Some Idle
             else if named s (bs "working") then Some Working
             else if named s (bs "done") then Some Done
             else if named s (bs "blocked") then Some Blocked
             else if named s (bs "error") then Some Error
             else None);
    Some (Mutation_Report {|
      sr_id := id;
      sr_state := state;
      sr_app := parse_app (f_app f);
      sr_resolved_app := None;
      sr_kind := if decide (state = Blocked) then parse_kind (f_kind f) else None;
      sr_progress := if decide (state = Working ∨ state = Blocked)
                     then parse_progress (f_progress f) else None;
      sr_msg := f_msg f;
      sr_title := f_title f |}).

Definition parse (body : list Z) : option Mutation :=
  f ← parse_pairs (split 58 body) no_fields;
  report_of_fields f.

(** ** Tests on concrete reports *)

Example parse_demo :
  parse (bs "state=blocked:id=a/b:kind=auth:progress=007:msg=aGk:app=vim")
  = Some (Mutation_Report {| sr_id := bs "a/b"; sr_state := Blocked; sr_app := Some (bs "vim");
      sr_resolved_app := None; sr_kind := Some Auth; sr_progress := Some 7;
      sr_msg := Some (bs "hi"); sr_title := None |}).
Proof. vm_compute. reflexivity. Qed.
Example parse_bad_msg : parse (bs "state=idle:msg=aGk===") = None.
Proof. vm_compute. reflexivity. Qed.

(** ** Lemmas on the decoder *)

(** What a decoded text satisfies. *)
Definition text_ok (limit : Z) (t : list Z) : Prop :=
  is_Some (utf8_decode t) ∧ existsb is_control (chars t) = false ∧ len t <= limit.

Lemma decode_text_ok value limit t : decode value limit = Some t → text_ok limit t.
Proof.
  unfold decode. case_match; [done|]. case_match; [|done]. case_match. case_match eqn:E; [done|].
  intros (t' & [-> ?]%from_utf8_Some & Ht)%bind_Some. case_match; [done|]. injection Ht as <-.
  to_props. done.
Qed.

(** The reference encoder: RFC 4648 base64, with or without padding. *)
Definition base64_digit (n : Z) : Z :=
  if n <? 26 then 65 + n
  else if n <? 52 then 71 + n
  else if n <? 62 then n - 4
  else if n =? 62 then 43
  else 47.
Fixpoint base64_encode (pad : bool) (bytes : list Z) : list Z :=
  match bytes with
  | a :: b :: c :: rest =>
    base64_digit (a / 4) :: base64_digit (a mod 4 * 16 + b / 16)
      :: base64_digit (b mod 16 * 4 + c / 64) :: base64_digit (c mod 64) :: base64_encode pad rest
  | [a; b] =>
    [base64_digit (a / 4); base64_digit (a mod 4 * 16 + b / 16); base64_digit (b mod 16 * 4)]
      ++ (if pad then [61] else [])
  | [a] =>
    [base64_digit (a / 4); base64_digit (a mod 4 * 16)] ++ (if pad then [61; 61] else [])
  | [] => []
  end.

(** Induction in groups of three bytes. *)
Lemma list_three_ind {A} (P : list A → Prop) :
  P [] → (∀ a, P [a]) → (∀ a b, P [a; b]) →
  (∀ a b c l, P l → P (a :: b :: c :: l)) → ∀ l, P l.
Proof.
  intros H0 H1 H2 H3. fix IH 1. intros [|a [|b [|c l]]]; [done..|]. apply H3, IH.
Qed.

Lemma base64_value_digit n : 0 <= n < 64 → base64_value (base64_digit n) = Some n.
Proof.
  intros Hn. pose proof (forallb_seqZ
    (λ n, bool_decide (base64_value (base64_digit n) = Some n)) 0 64 n eq_refl) as H.
  specialize (H ltac:(lia)). cbv beta in H. by to_props.
Qed.

(** The accumulator: six more bits below the pending ones. *)
Lemma push_six bits n :
  0 <= bits < 64 → 0 <= n < 64 → Z.lor (Z.land (Z.shiftl bits 6) u32_max) n = bits * 64 + n.
Proof.
  intros Hb Hn. apply Z.eqb_eq.
  apply (forallb_seqZ (λ n, Z.lor (Z.land (Z.shiftl bits 6) u32_max) n =? bits * 64 + n) 0 64); [|lia].
  apply (forallb_seqZ (λ bits, forallb
    (λ n, Z.lor (Z.land (Z.shiftl bits 6) u32_max) n =? bits * 64 + n) (seqZ 0 64)) 0 64);
    [vm_compute; done|lia].
Qed.

Lemma low_bits bits k : 0 <= k → Z.land bits (Z.shiftl 1 k - 1) = bits mod 2 ^ k.
Proof. intros Hk. rewrite <-Z.land_ones by done. by rewrite Z.ones_equiv, Z.shiftl_1_l. Qed.

(** One digit of [decode_loop], in arithmetic. *)
Lemma decode_loop_digit n data bits count out :
  0 <= n < 64 → 0 <= bits < 64 → 0 <= count < 8 →
  decode_loop (base64_digit n :: data) bits count out =
    if 2 <=? count then
      decode_loop data ((bits * 64 + n) mod 2 ^ (count - 2)) (count - 2)
        (out ++ [((bits * 64 + n) / 2 ^ (count - 2)) mod 256])
    else decode_loop data (bits * 64 + n) (count + 6) out.
Proof.
  intros Hn Hb Hc. simpl. rewrite base64_value_digit, push_six by done.
  destruct (Z.leb_spec 2 count).
  - rewrite (proj2 (Z.leb_le 8 (count + 6))) by lia.
    replace (count + 6 - 8) with (count - 2) by lia. rewrite low_bits by lia.
    rewrite Z.shiftr_div_pow2 by lia. by rewrite (Z.land_ones _ 8) by lia.
  - by rewrite (proj2 (Z.leb_gt 8 (count + 6))) by lia.
Qed.

#[local] Arguments decode_loop : simpl never.

(** A whole group of three bytes leaves no pending bits. *)
Lemma decode_loop_group a b c data out :
  is_byte a → is_byte b → is_byte c →
  decode_loop (base64_digit (a / 4) :: base64_digit (a mod 4 * 16 + b / 16)
      :: base64_digit (b mod 16 * 4 + c / 64) :: base64_digit (c mod 64) :: data) 0 0 out
  = decode_loop data 0 0 (out ++ [a; b; c]).
Proof.
  unfold is_byte. intros Ha Hb Hc.
  rewrite decode_loop_digit by (Z.div_mod_to_equations; lia). simpl.
  rewrite decode_loop_digit by (Z.div_mod_to_equations; lia). simpl.
  rewrite decode_loop_digit by (change (2 ^ 4) with 16; Z.div_mod_to_equations; lia). simpl.
  rewrite decode_loop_digit
    by (change (2 ^ 4) with 16; change (2 ^ 2) with 4; Z.div_mod_to_equations; lia). simpl.
  change (2 ^ 4) with 16. change (2 ^ 2) with 4. change (2 ^ 0) with 1.
  rewrite Z.mod_1_r, <-!app_assoc. simpl. f_equal. f_equal. f_equal; [|f_equal; [|f_equal]].
  all: Z.div_mod_to_equations; lia.
Qed.

(** A short last group leaves zero bits pending. *)
Lemma decode_loop_encode bytes out :
  Forall is_byte bytes → decode_loop (base64_encode false bytes) 0 0 out = Some (0, out ++ bytes).
Proof.
  revert out. induction bytes as [|a|a b|a b c bytes IH] using list_three_ind; intros out Hb.
  - by rewrite app_nil_r.
  - apply Forall_cons in Hb as [Ha _]. unfold is_byte in Ha.
    cbn [base64_encode app]. rewrite decode_loop_digit by (Z.div_mod_to_equations; lia). simpl.
    rewrite decode_loop_digit by (Z.div_mod_to_equations; lia). simpl.
    change (2 ^ 4) with 16. unfold decode_loop. f_equal. f_equal; [Z.div_mod_to_equations; lia|].
    do 2 f_equal. Z.div_mod_to_equations; lia.
  - apply Forall_cons in Hb as [Ha Hb]. apply Forall_cons in Hb as [Hb _]. unfold is_byte in *.
    cbn [base64_encode app]. rewrite decode_loop_digit by (Z.div_mod_to_equations; lia). simpl.
    rewrite decode_loop_digit by (Z.div_mod_to_equations; lia). simpl.
    rewrite decode_loop_digit by (change (2 ^ 4) with 16; Z.div_mod_to_equations; lia). simpl.
    change (2 ^ 4) with 16. change (2 ^ 2) with 4. unfold decode_loop. rewrite <-app_assoc. simpl.
    f_equal. f_equal; [Z.div_mod_to_equations; lia|].
    f_equal. f_equal; [|f_equal]; Z.div_mod_to_equations; lia.
  - repeat (apply Forall_cons in Hb as [? Hb]). cbn [base64_encode].
    rewrite decode_loop_group by done. rewrite IH by done. by rewrite <-app_assoc.
Qed.

Lemma base64_digit_not_pad n : 0 <= n < 64 → base64_digit n ≠ 61.
Proof.
  intros Hn He. pose proof (base64_value_digit n Hn) as H. by rewrite He in H.
Qed.

Definition base64_byte (b : Z) : Prop := ∃ n, 0 <= n < 64 ∧ b = base64_digit n.

Lemma base64_encode_digits bytes :
  Forall is_byte bytes → Forall base64_byte (base64_encode false bytes).
Proof.
  unfold base64_byte.
  induction bytes as [|a|a b|a b c bytes IH] using list_three_ind; intros Hb; simpl;
    repeat (apply Forall_cons in Hb as [? Hb]); unfold is_byte in *; repeat constructor; auto;
    eexists; (split; [|reflexivity]); Z.div_mod_to_equations; lia.
Qed.

(** How many pads the last group takes. *)
Definition pad_count (n : Z) : Z := (3 - n mod 3) mod 3.

Lemma base64_encode_pad bytes :
  base64_encode true bytes =
  base64_encode false bytes ++ repeat 61 (Z.to_nat (pad_count (len bytes))).
Proof.
  induction bytes as [|a|a b|a b c bytes IH] using list_three_ind; [done..|].
  cbn [base64_encode app]. do 4 f_equal. rewrite IH. do 3 f_equal. unfold pad_count.
  rewrite !len_cons. replace (1 + (1 + (1 + len bytes))) with (len bytes + 1 * 3) by lia.
  by rewrite Z_mod_plus_full.
Qed.

Lemma base64_encode_len bytes : len (base64_encode false bytes) = (4 * len bytes + 2) / 3.
Proof.
  induction bytes as [|a|a b|a b c bytes IH] using list_three_ind; [done..|].
  cbn [base64_encode]. rewrite !len_cons, IH. Z.div_mod_to_equations; lia.
Qed.

Lemma trim_pads bytes k :
  Forall is_byte bytes →
  trim_end (Z.eqb 61) (base64_encode false bytes ++ repeat 61 k) = base64_encode false bytes.
Proof.
  intros Hb. rewrite trim_end_app by (apply Forall_forall; intros x Hx%list_elem_of_In%repeat_spec; by subst).
  apply trim_end_none. eapply Forall_impl; [by apply base64_encode_digits|].
  intros x (n & Hn & ->). apply Z.eqb_neq. intros He. by apply (base64_digit_not_pad n).
Qed.

(** Encoded text decodes to itself, padded or not. *)
Lemma decode_encode pad limit t :
  Forall is_byte t → text_ok limit t → decode (base64_encode pad t) limit = Some t.
Proof.
  intros Hb (Hu & Hc & Hl).
  assert (∃ k, base64_encode pad t = base64_encode false t ++ repeat 61 (Z.to_nat k)
               ∧ 0 <= k <= 2 ∧ (k = 0 ∨ k = pad_count (len t))) as (k & -> & Hk & Hpad).
  { destruct pad; [exists (pad_count (len t))|exists 0]; (split; [|split; [|auto]]).
    - apply base64_encode_pad.
    - unfold pad_count. Z.div_mod_to_equations; lia.
    - by rewrite app_nil_r.
    - lia. }
  unfold decode. rewrite trim_pads by done. rewrite len_app, base64_encode_len.
  replace (len (repeat 61 (Z.to_nat k))) with k by (unfold len; rewrite repeat_length; lia).
  len_facts. unfold pad_count in Hpad. pose proof (len_nonneg t).
  match goal with |- context [if ?b then None else _] => replace b with false end.
  2: { symmetry. rewrite !orb_false_iff, andb_false_iff, orb_false_iff, !negb_false_iff,
         Z.ltb_ge, Z.ltb_ge, Z.eqb_neq, !Z.eqb_eq. Z.div_mod_to_equations; lia. }
  rewrite decode_loop_encode by done. simpl.
  rewrite (proj2 (Z.ltb_ge _ _)) by done. unfold from_utf8. destruct Hu as [cs Hcs].
  rewrite Hcs. simpl. by rewrite Hc.
Qed.

(** ** Bounded records *)

(** What every accepted record satisfies, whatever the terminal wrote. *)
Record record_ok (r : ProgramStatusRecord) : Prop := {
  ro_id : sr_id r = [] ∨ (valid_id (sr_id r) = true ∧ len (sr_id r) <= 128);
  ro_app a : sr_app r = Some a → 0 < len a <= 32 ∧ forallb id_byte a = true;
  ro_kind : is_Some (sr_kind r) → sr_state r = Blocked;
  ro_progress n : sr_progress r = Some n →
    0 <= n <= 100 ∧ (sr_state r = Working ∨ sr_state r = Blocked);
  ro_msg t : sr_msg r = Some t → text_ok 2048 t;
  ro_title t : sr_title r = Some t → text_ok 192 t
}.

Record fields_ok (f : fields) : Prop := {
  fo_id v : f_id f = Some v → valid_id v = true ∧ len v <= 128;
  fo_app v : f_app f = Some v → len v <= 32;
  fo_msg t : f_msg f = Some t → text_ok 2048 t;
  fo_title t : f_title f = Some t → text_ok 192 t
}.

Lemma named_true key name : named key name = true → key = name.
Proof. unfold named. intros H. by to_props. Qed.

Lemma over_limit_false key value :
  over_limit key value = false →
  (key = bs "msg" → len value <= 2732) ∧ (key = bs "title" → len value <= 256)
  ∧ (key = bs "app" → len value <= 32) ∧ (key = bs "id" → len value <= 128).
Proof.
  unfold over_limit, named. rewrite !orb_false_iff, !andb_false_iff, !bool_decide_eq_false, !Z.ltb_ge.
  naive_solver.
Qed.

Lemma store_field_ok key value f f' :
  over_limit key value = false → (key = bs "id" → valid_id value = true) →
  fields_ok f → store_field key value f = Some f' → fields_ok f'.
Proof.
  intros (Hmsg & Htitle & Happ & Hid)%over_limit_false Hvalid [] Hs. unfold store_field in Hs.
  repeat match type of Hs with
  | (if named key ?n then _ else _) = _ => destruct (named key n) eqn:En; [apply named_true in En|clear En]
  end;
  try (apply bind_Some in Hs as (t & Ht & Hs); apply decode_text_ok in Ht);
  injection Hs as <-; try done;
  split; cbn [f_id f_app f_msg f_title]; first [done | intros ? [= <-]; auto].
Qed.

Lemma parse_pair_ok p f f' : fields_ok f → parse_pair p f = Some f' → fields_ok f'.
Proof.
  intros Hf. unfold parse_pair. destruct (position 61 p); [|naive_solver].
  case_match; [done|]. destruct (from_utf8 _) as [key|]; [|naive_solver].
  case_match; [naive_solver|]. case_match eqn:Hover; [done|].
  destruct (from_utf8 (trim_ascii (drop _ _))) as [value|] eqn:Hv; [|case_match; naive_solver].
  apply from_utf8_Some in Hv as [-> _].
  case_match eqn:Hid; [done|]. case_match; [naive_solver|]. apply store_field_ok; [done| |done].
  intros ->. apply andb_false_iff in Hid as [Hid|Hid]; [by vm_compute in Hid|]. by to_props.
Qed.

Lemma parse_pairs_ok ps f f' : fields_ok f → parse_pairs ps f = Some f' → fields_ok f'.
Proof.
  revert f. induction ps as [|p ps IH]; intros f Hf; simpl; [naive_solver|].
  intros (f1 & H1 & H2)%bind_Some. eapply IH; [|done]. by eapply parse_pair_ok.
Qed.

Lemma parse_u8_nonneg n ds m :
  0 <= n → forallb is_ascii_digit ds = true → parse_u8_from n ds = Some m → 0 <= m.
Proof.
  revert n. induction ds as [|d ds IH]; intros n Hn; simpl; [naive_solver|].
  intros [Hd Hds]%andb_true_iff. case_match; [done|]. apply IH; [|done].
  apply in_range_spec in Hd. lia.
Qed.

Lemma report_of_fields_ok f r :
  fields_ok f → report_of_fields f = Some (Mutation_Report r) →
  record_ok r ∧ sr_resolved_app r = None.
Proof.
  intros []. unfold report_of_fields. intros (s & _ & H)%bind_Some. case_match; [done|].
  apply bind_Some in H as (st & _ & [= <-]). split; [|done]. split; simpl.
  - destruct (f_id f); simpl; [right|left]; eauto.
  - intros a (v & Hv & Ha)%bind_Some. case_match eqn:E; [|done]. injection Ha as <-.
    apply andb_true_iff in E as [E1 E2]. to_props. specialize (fo_app0 _ Hv). len_facts.
    split; [lia|done].
  - case_decide; [done|]. by intros [].
  - intros n. case_decide as Hst; [|done]. intros (v & Hv & H)%bind_Some.
    case_match eqn:E; [|done]. apply andb_true_iff in E as [_ E].
    apply bind_Some in H as (m & Hm & H). case_match; [|done]. injection H as <-. to_props.
    apply parse_u8_nonneg in Hm; [|lia|done]. done.
  - done.
  - done.
Qed.

(** ** Rendering a record *)

Definition state_name (s : ProgramState) : list Z :=
  match s with
  | Idle => bs "idle" | Working => bs "working" | Done => bs "done"
  | Blocked => bs "blocked" | Error => bs "error"
  end.
Definition kind_name (k : ProgramStatusKind) : list Z :=
  match k with
  | Permission => bs "permission" | Question => bs "question" | Auth => bs "auth"
  end.
(** A number below 1000 in decimal. *)
Definition decimal (n : Z) : list Z :=
  if n <? 10 then [48 + n]
  else if n <? 100 then [48 + n / 10; 48 + n mod 10]
  else [48 + n / 100; 48 + n / 10 mod 10; 48 + n mod 10].

Definition pair_bytes (kv : list Z * list Z) : list Z := kv.1 ++ 61 :: kv.2.
Definition opt_pair {A} (key : list Z) (show : A → list Z) (o : option A)
    : list (list Z * list Z) :=
  match o with Some a => [(key, show a)] | None => [] end.

(** The pairs a well-behaved program writes for a record. *)
Definition record_pairs (pad : bool) (r : ProgramStatusRecord) : list (list Z * list Z) :=
  [(bs "state", state_name (sr_state r))]
  ++ (if decide (sr_id r = []) then [] else [(bs "id", sr_id r)])
  ++ opt_pair (bs "app") (λ a, a) (sr_app r)
  ++ opt_pair (bs "kind") kind_name (sr_kind r)
  ++ opt_pair (bs "progress") decimal (sr_progress r)
  ++ opt_pair (bs "msg") (base64_encode pad) (sr_msg r)
  ++ opt_pair (bs "title") (base64_encode pad) (sr_title r).
Definition render (pad : bool) (r : ProgramStatusRecord) : list Z :=
  join 58 (pair_bytes <$> record_pairs pad r).

(** ** Parsing what was rendered *)

Definition ascii (b : Z) : Prop := 0 <= b <= 127.

Lemma ascii_utf8 l : Forall ascii l → utf8_decode l = Some l.
Proof.
  induction 1 as [|b l Hb _ IH]; [done|]. simpl. unfold ascii in Hb.
  rewrite (proj2 (in_range_spec 0 127 b)) by lia. by rewrite IH.
Qed.

Lemma from_utf8_ascii l : Forall ascii l → from_utf8 l = Some l.
Proof. intros H. unfold from_utf8. by rewrite ascii_utf8. Qed.

(** Bytes of keys and values are ASCII and neither space nor separator. *)
Definition plain (b : Z) : Prop := ascii b ∧ is_ascii_whitespace b = false ∧ b ≠ 58.

Lemma byte_class_plain (p : Z → bool) b :
  (∀ b, p b = true → 0 <= b <= 127) →
  forallb (λ b, implb (p b) (negb (is_ascii_whitespace b) && negb (b =? 58))) (seqZ 0 128) = true →
  p b = true → plain b.
Proof.
  intros Hr Hall Hp. pose proof (forallb_seqZ _ _ _ b Hall ltac:(specialize (Hr b Hp); lia)) as H.
  cbv beta in H. rewrite Hp in H. simpl in H. apply andb_true_iff in H as [H1 H2].
  split_and!; [by apply Hr| |]; by to_props.
Qed.

Lemma one_of_range s b : one_of s b = true → b ∈ s.
Proof.
  unfold one_of. rewrite existsb_exists. intros (x & Hx & He). to_props. subst.
  by apply list_elem_of_In.
Qed.

Lemma value_byte_plain b : value_byte b = true → plain b.
Proof.
  apply byte_class_plain; [|vm_compute; done]. intros x. unfold value_byte, is_ascii_alphanumeric.
  rewrite !orb_true_iff, !in_range_spec. intros [[[?|?]|?]|Hx%one_of_range]; [lia..|].
  change (bs "_.,+/=-") with [95; 46; 44; 43; 47; 61; 45] in Hx.
  repeat (apply elem_of_cons in Hx as [->|Hx]; [lia|]). by apply elem_of_nil in Hx.
Qed.

Lemma lowercase_plain b : is_ascii_lowercase b = true → plain b ∧ b ≠ 61.
Proof.
  intros H. apply in_range_spec in H. unfold plain, ascii, is_ascii_whitespace.
  split; [split_and!; [lia|lia| |lia]|lia]. rewrite !orb_false_iff, !Z.eqb_neq. lia.
Qed.

Lemma forallb_Forall {A} (p : A → bool) l : forallb p l = true → Forall (λ b, p b = true) l.
Proof. rewrite forallb_forall, Forall_forall. intros H x Hx. apply H. by apply list_elem_of_In. Qed.

Lemma position_app x l r : x ∉ l → position x (l ++ x :: r) = Some (length l).
Proof.
  induction l as [|b l IH]; simpl; intros Hx; [by rewrite Z.eqb_refl|].
  destruct (Z.eqb_spec b x); [set_solver|]. by rewrite IH by set_solver.
Qed.

Lemma plain_trim l : Forall plain l → trim_ascii l = l.
Proof. intros H. apply trim_ascii_none. eapply Forall_impl; [done|]. by intros b (_ & ? & _). Qed.

(** A key and a value a program may write. *)
Record pair_ok (kv : list Z * list Z) : Prop := {
  pk_key : 0 < len kv.1 <= 16 ∧ forallb is_ascii_lowercase kv.1 = true;
  pk_value : forallb value_byte kv.2 = true;
  pk_limit : over_limit kv.1 kv.2 = false;
  pk_id : kv.1 = bs "id" → valid_id kv.2 = true
}.

Lemma pair_ok_plain kv : pair_ok kv → Forall plain kv.1 ∧ Forall plain kv.2 ∧ 61 ∉ kv.1.
Proof.
  intros [[_ Hk] Hv _ _]. apply forallb_Forall in Hk, Hv. split_and!.
  - eapply Forall_impl; [done|]. intros b Hb. by apply lowercase_plain.
  - eapply Forall_impl; [done|]. apply value_byte_plain.
  - rewrite Forall_forall in Hk. intros Hx. specialize (Hk _ Hx). by apply lowercase_plain in Hk as [].
Qed.

Lemma parse_pair_render kv f :
  pair_ok kv → parse_pair (pair_bytes kv) f = store_field kv.1 kv.2 f.
Proof.
  intros Hok. destruct (pair_ok_plain kv Hok) as (Hk & Hv & Heq). destruct Hok as [[Hl Hlow] Hval Hlim Hid].
  destruct kv as [key value]; simpl in *. unfold parse_pair, pair_bytes. simpl.
  rewrite position_app, take_app_length by done.
  replace (key ++ 61 :: value) with ((key ++ [61]) ++ value) by by rewrite <-app_assoc.
  replace (S (length key)) with (length (key ++ [61])) by (rewrite length_app; simpl; lia).
  rewrite drop_app_length, !plain_trim by done.
  rewrite (proj2 (Z.ltb_ge _ _)) by lia.
  rewrite !from_utf8_ascii by (eapply Forall_impl; [done|]; by intros b []).
  rewrite (proj2 (Z.eqb_neq _ _)) by lia. rewrite Hlow, Hlim, Hval. simpl.
  destruct (named key (bs "id")) eqn:E; [|done]. apply named_true in E. by rewrite Hid.
Qed.

Lemma parse_pairs_app ps qs f : parse_pairs (ps ++ qs) f = parse_pairs ps f ≫= parse_pairs qs.
Proof.
  revert f. induction ps as [|p ps IH]; intros f; simpl; [done|].
  destruct (parse_pair p f); simpl; [apply IH|done].
Qed.

Lemma state_name_ok s : pair_ok (bs "state", state_name s).
Proof. destruct s; split; vm_compute; intuition discriminate. Qed.
Lemma kind_name_ok k : pair_ok (bs "kind", kind_name k).
Proof. destruct k; split; vm_compute; intuition discriminate. Qed.

(** The decimal form of a percentage, checked on all of them. *)
Lemma decimal_ok n :
  0 <= n <= 100 → pair_ok (bs "progress", decimal n) ∧ parse_progress (Some (decimal n)) = Some n.
Proof.
  intros Hn. pose proof (forallb_seqZ (λ n, forallb value_byte (decimal n)
    && bool_decide (parse_progress (Some (decimal n)) = Some n)) 0 101 n eq_refl ltac:(lia)) as H.
  cbv beta in H. apply andb_true_iff in H as [H1 H2]. to_props. split; [|done].
  split; simpl; [vm_compute; intuition discriminate|done|done|done].
Qed.

Lemma id_byte_value b : id_byte b = true → value_byte b = true.
Proof.
  unfold id_byte, value_byte. rewrite !orb_true_iff. intros [?|H%one_of_range]; [by left|right].
  change (bs "_.+-") with [95; 46; 43; 45] in H.
  repeat (apply elem_of_cons in H as [->|H]; [done|]). by apply elem_of_nil in H.
Qed.

Lemma valid_id_bytes id : valid_id id = true → forallb value_byte id = true.
Proof.
  unfold valid_id. intros [_ H]%andb_true_iff. rewrite forallb_forall in H |- *.
  intros b Hb%list_elem_of_In. destruct (split_cover 47 id b Hb) as [->|(p & Hp & Hbp)]; [done|].
  apply list_elem_of_In in Hp. specialize (H p Hp). apply andb_true_iff in H as [_ H].
  rewrite forallb_forall in H. apply id_byte_value, H. by apply list_elem_of_In.
Qed.

Lemma id_pair_ok id : valid_id id = true → len id <= 128 → pair_ok (bs "id", id).
Proof.
  intros Hv Hl. split; simpl; [vm_compute; intuition discriminate|by apply valid_id_bytes| |done].
  unfold over_limit. change (named (bs "id") (bs "id")) with true.
  change (named (bs "id") (bs "msg")) with false. change (named (bs "id") (bs "title")) with false.
  change (named (bs "id") (bs "app")) with false. simpl. by apply Z.ltb_ge.
Qed.

Lemma app_pair_ok a : len a <= 32 → forallb id_byte a = true → pair_ok (bs "app", a).
Proof.
  intros Hl Ha. split; simpl; [vm_compute; intuition discriminate| | |done].
  - rewrite forallb_forall in Ha |- *. intros b Hb. by apply id_byte_value, Ha.
  - unfold over_limit. change (named (bs "app") (bs "id")) with false.
    change (named (bs "app") (bs "msg")) with false. change (named (bs "app") (bs "title")) with false.
    change (named (bs "app") (bs "app")) with true. simpl. rewrite orb_false_r. by apply Z.ltb_ge.
Qed.

Lemma base64_value_byte pad t : Forall is_byte t → forallb value_byte (base64_encode pad t) = true.
Proof.
  intros Ht.
  assert (∃ k, base64_encode pad t = base64_encode false t ++ repeat 61 k) as [k ->].
  { destruct pad; [eexists; apply base64_encode_pad|exists 0%nat; by rewrite app_nil_r]. }
  rewrite forallb_app, andb_true_iff. split; rewrite forallb_forall; intros b Hb.
  - apply list_elem_of_In in Hb. pose proof (base64_encode_digits t Ht) as Hd.
    rewrite Forall_forall in Hd. destruct (Hd b Hb) as (n & Hn & ->).
    by apply (forallb_seqZ (λ n, value_byte (base64_digit n)) 0 64 n).
  - apply repeat_spec in Hb as ->. done.
Qed.

Lemma base64_len_bound pad t m : len t <= 3 * m → len (base64_encode pad t) <= 4 * m.
Proof.
  intros Ht. pose proof (len_nonneg t).
  destruct pad; rewrite ?base64_encode_pad, ?len_app, base64_encode_len; [|Z.div_mod_to_equations; lia].
  replace (len (repeat 61 _)) with (pad_count (len t))
    by (unfold len, pad_count; rewrite repeat_length; Z.div_mod_to_equations; lia).
  unfold pad_count. Z.div_mod_to_equations; lia.
Qed.

Lemma text_pair_ok pad key limit t :
  (key = bs "msg" ∧ limit = 2048) ∨ (key = bs "title" ∧ limit = 192) →
  Forall is_byte t → len t <= limit → pair_ok (key, base64_encode pad t).
Proof.
  intros Hk Hb Hl. split; simpl; [|by apply base64_value_byte| |].
  - destruct Hk as [[-> _]|[-> _]]; vm_compute; intuition discriminate.
  - unfold over_limit. destruct Hk as [[-> ->]|[-> ->]].
    + pose proof (base64_len_bound pad t 683 ltac:(lia)).
      change (named (bs "msg") (bs "msg")) with true. change (named (bs "msg") (bs "title")) with false.
      change (named (bs "msg") (bs "app")) with false. change (named (bs "msg") (bs "id")) with false.
      simpl. rewrite !orb_false_r. apply Z.ltb_ge. lia.
    + pose proof (base64_len_bound pad t 64 ltac:(lia)).
      change (named (bs "title") (bs "msg")) with false. change (named (bs "title") (bs "title")) with true.
      change (named (bs "title") (bs "app")) with false. change (named (bs "title") (bs "id")) with false.
      simpl. rewrite !orb_false_r. apply Z.ltb_ge. lia.
  - by destruct Hk as [[-> _]|[-> _]].
Qed.

(** The pieces of a rendered record hold no separator. *)
Lemma record_pairs_ok pad r :
  record_ok r → Forall is_byte (default [] (sr_msg r)) → Forall is_byte (default [] (sr_title r)) →
  Forall pair_ok (record_pairs pad r).
Proof.
  intros [] Hmb Htb. unfold record_pairs. rewrite !Forall_app. split_and!.
  - apply Forall_singleton, state_name_ok.
  - case_decide; [constructor|]. apply Forall_singleton. destruct ro_id0 as [?|[??]]; [done|].
    by apply id_pair_ok.
  - destruct (sr_app r) as [a|]; [apply Forall_singleton|constructor].
    destruct (ro_app0 a eq_refl) as [??]. by apply app_pair_ok; [lia|].
  - destruct (sr_kind r); [apply Forall_singleton|constructor]. apply kind_name_ok.
  - destruct (sr_progress r) as [n|]; [apply Forall_singleton|constructor].
    destruct (ro_progress0 n eq_refl) as [??]. by apply decimal_ok.
  - destruct (sr_msg r) as [t|]; [apply Forall_singleton|constructor].
    destruct (ro_msg0 t eq_refl) as (_ & _ & ?). apply (text_pair_ok pad _ 2048); auto.
  - destruct (sr_title r) as [t|]; [apply Forall_singleton|constructor].
    destruct (ro_title0 t eq_refl) as (_ & _ & ?). apply (text_pair_ok pad _ 192); auto.
Qed.

(** Storing the pairs in turn. *)
Fixpoint store_pairs (kvs : list (list Z * list Z)) (f : fields) : option fields :=
  match kvs with
  | [] => Some f
  | kv :: kvs => f ← store_field kv.1 kv.2 f; store_pairs kvs f
  end.

Lemma parse_pairs_store kvs f :
  Forall pair_ok kvs → parse_pairs (pair_bytes <$> kvs) f = store_pairs kvs f.
Proof.
  intros H. revert f. induction H as [|kv kvs Hkv _ IH]; intros f; [done|]. csimpl.
  rewrite parse_pair_render by done. destruct (store_field kv.1 kv.2 f); [apply IH|done].
Qed.

Lemma store_pairs_app ks ls f : store_pairs (ks ++ ls) f = store_pairs ks f ≫= store_pairs ls.
Proof.
  revert f. induction ks as [|k ks IH]; intros f; simpl; [done|].
  destruct (store_field k.1 k.2 f); simpl; [apply IH|done].
Qed.

Lemma pair_bytes_no_sep kv : pair_ok kv → 58 ∉ pair_bytes kv.
Proof.
  intros Hkv Hx. destruct (pair_ok_plain kv Hkv) as (Hk & Hv & _). unfold pair_bytes in Hx.
  rewrite Forall_forall in Hk, Hv.
  apply elem_of_app in Hx as [Hx|[Hx|Hx]%elem_of_cons]; [|done|];
    [destruct (Hk _ Hx) as (_ & _ & ?)|destruct (Hv _ Hx) as (_ & _ & ?)]; done.
Qed.

(** The fields a record leaves behind. *)
Definition record_fields (r : ProgramStatusRecord) : fields := {|
  f_state := Some (state_name (sr_state r));
  f_id := if decide (sr_id r = []) then None else Some (sr_id r);
  f_app := sr_app r; f_kind := kind_name <$> sr_kind r;
  f_progress := decimal <$> sr_progress r; f_msg := sr_msg r; f_title := sr_title r |}.

Lemma store_opt_pair {A} key (show : A → list Z) o f g :
  (∀ a, o = Some a → store_field key (show a) f = Some g) → (o = None → f = g) →
  store_pairs (opt_pair key show o) f = Some g.
Proof.
  destruct o as [a|]; simpl; intros Hs Hn; [by rewrite (Hs a eq_refl)|by rewrite Hn].
Qed.

Lemma store_record_pairs pad r :
  record_ok r → Forall is_byte (default [] (sr_msg r)) → Forall is_byte (default [] (sr_title r)) →
  store_pairs (record_pairs pad r) no_fields = Some (record_fields r).
Proof.
  intros Hok Hm Ht. destruct Hok as [_ _ _ _ Hmsg Htitle].
  unfold record_pairs, record_fields. rewrite store_pairs_app.
  destruct r as [id st app rapp kind progress msg title]; simpl in *.
  change (store_field (bs "state") (state_name st) no_fields) with
    (Some {| f_state := Some (state_name st); f_id := None; f_app := None; f_kind := None;
             f_progress := None; f_msg := None; f_title := None |}).
  assert (∀ t f, msg = Some t → store_field (bs "msg") (base64_encode pad t) f =
    Some {| f_state := f_state f; f_id := f_id f; f_app := f_app f; f_kind := f_kind f;
            f_progress := f_progress f; f_msg := Some t; f_title := f_title f |}) as Hsm.
  { intros t f ->. change (store_field (bs "msg") (base64_encode pad t) f) with
      (text ← decode (base64_encode pad t) 2048; Some {| f_state := f_state f; f_id := f_id f;
         f_app := f_app f; f_kind := f_kind f; f_progress := f_progress f; f_msg := Some text;
         f_title := f_title f |}). by rewrite decode_encode by auto. }
  assert (∀ t f, title = Some t → store_field (bs "title") (base64_encode pad t) f =
    Some {| f_state := f_state f; f_id := f_id f; f_app := f_app f; f_kind := f_kind f;
            f_progress := f_progress f; f_msg := f_msg f; f_title := Some t |}) as Hst.
  { intros t f ->. change (store_field (bs "title") (base64_encode pad t) f) with
      (text ← decode (base64_encode pad t) 192; Some {| f_state := f_state f; f_id := f_id f;
         f_app := f_app f; f_kind := f_kind f; f_progress := f_progress f; f_msg := f_msg f;
         f_title := Some text |}). by rewrite decode_encode by auto. }
  set (i := if decide (id = []) then None else Some id).
  assert (store_pairs (if decide (id = []) then [] else [(bs "id", id)])
            (Build_fields (Some (state_name st)) None None None None None None)
          = Some (Build_fields (Some (state_name st)) i None None None None None)) as Hi
    by (unfold i; by case_decide).
  cbn [mbind option_bind]. rewrite store_pairs_app, Hi. cbn [mbind option_bind].
  rewrite store_pairs_app, (store_opt_pair _ _ app _ (Build_fields (Some (state_name st)) i app None None None None))
    by (by intros; subst).
  cbn [mbind option_bind]. rewrite store_pairs_app, (store_opt_pair _ _ kind _
    (Build_fields (Some (state_name st)) i app (kind_name <$> kind) None None None)) by (by intros; subst).
  cbn [mbind option_bind]. rewrite store_pairs_app, (store_opt_pair _ _ progress _
    (Build_fields (Some (state_name st)) i app (kind_name <$> kind) (decimal <$> progress) None None))
    by (by intros; subst).
  cbn [mbind option_bind]. rewrite store_pairs_app, (store_opt_pair _ _ msg _
    (Build_fields (Some (state_name st)) i app (kind_name <$> kind) (decimal <$> progress) msg None))
    by (by intros; subst; rewrite ?(Hsm _ _ eq_refl)).
  cbn [mbind option_bind]. apply store_opt_pair; [|by intros ->].
  intros t ->. by rewrite (Hst _ _ eq_refl).
Qed.

Lemma report_of_record r :
  record_ok r → sr_resolved_app r = None →
  report_of_fields (record_fields r) = Some (Mutation_Report r).
Proof.
  intros [Hid Happ Hkind Hprog _ _] Hres. unfold report_of_fields, record_fields; simpl.
  assert (parse_app (sr_app r) = sr_app r) as Ea.
  { destruct (sr_app r) as [a|]; [|done]. destruct (Happ a eq_refl) as [Hl Hb]. simpl.
    rewrite Hb. by rewrite (proj2 (Z.eqb_neq _ _)) by lia. }
  assert ((if decide (sr_state r = Blocked) then parse_kind (kind_name <$> sr_kind r) else None)
          = sr_kind r) as Ek.
  { destruct (sr_kind r) as [k|]; [|by case_decide]. rewrite decide_True by eauto. by destruct k. }
  assert ((if decide (sr_state r = Working ∨ sr_state r = Blocked)
           then parse_progress (decimal <$> sr_progress r) else None) = sr_progress r) as Ep.
  { destruct (sr_progress r) as [n|]; [|by destruct (decide (sr_state r = Working ∨ sr_state r = Blocked))]. destruct (Hprog n eq_refl) as [Hn Hs].
    rewrite decide_True by done. by apply decimal_ok. }
  assert (default [] (if decide (sr_id r = []) then None else Some (sr_id r)) = sr_id r) as Ei
    by by destruct (decide (sr_id r = [])).
  assert (named (state_name (sr_state r)) (bs "clear") = false) as -> by by destruct (sr_state r).
  match goal with |- context [mbind _ ?o] => assert (o = Some (sr_state r)) as -> end.
  { by destruct (sr_state r). }
  simpl. rewrite Ea, Ei, Ek, Ep, <-Hres. by destruct r.
Qed.

Lemma parse_record_ok body r :
  parse body = Some (Mutation_Report r) → record_ok r ∧ sr_resolved_app r = None.
Proof.
  unfold parse. intros (f & Hf & Hr)%bind_Some. apply (report_of_fields_ok f); [|done].
  eapply parse_pairs_ok; [|done]. by split.
Qed.

(** Joining, splitting and parsing the pairs gives the record back. *)
Lemma parse_rendered pad r :
  record_ok r → sr_resolved_app r = None →
  Forall is_byte (default [] (sr_msg r)) → Forall is_byte (default [] (sr_title r)) →
  parse (render pad r) = Some (Mutation_Report r).
Proof.
  intros Hok Hres Hm Ht. pose proof (record_pairs_ok pad r Hok Hm Ht) as Hpairs.
  unfold parse, render. rewrite split_join.
  - rewrite parse_pairs_store, store_record_pairs by done. by apply report_of_record.
  - done.
  - rewrite Forall_fmap. eapply Forall_impl; [done|]. apply pair_bytes_no_sep.
Qed.

(** ** Properties *)

(** what the parser accepts is bounded.  Whatever bytes a program writes
    as a report, an accepted record has an empty or valid identifier of at most
    128 bytes, an application name of 1 to 32 identifier bytes, a kind only when
    blocked, a percentage of 0 to 100 only when working or blocked, and message
    and title of valid control-free UTF-8 of at most 2048 and 192 bytes. *)
Theorem parsed_record_bounded body r :
  parse body = Some (Mutation_Report r) → record_ok r ∧ sr_resolved_app r = None.
Proof. apply parse_record_ok. Qed.

(** C31: every legal record can be reported.  A record within those bounds,
    written as the protocol says with base64 texts, padded or not, parses back
    to itself: the limits the parser enforces on encoded fields lose nothing. *)
Theorem parse_render pad r :
  record_ok r → sr_resolved_app r = None →
  Forall is_byte (default [] (sr_msg r)) → Forall is_byte (default [] (sr_title r)) →
  parse (render pad r) = Some (Mutation_Report r).
Proof. apply parse_rendered. Qed.

(** *** Witnesses *)

Definition demo_record : ProgramStatusRecord := {|
  sr_id := bs "a/b"; sr_state := Blocked; sr_app := Some (bs "vim"); sr_resolved_app := None;
  sr_kind := Some Auth; sr_progress := Some 7; sr_msg := Some (bs "hi"); sr_title := None |}.

Lemma parsed_record_bounded_witness :
  record_ok demo_record ∧ sr_resolved_app demo_record = None.
Proof.
  apply (parsed_record_bounded (bs "state=blocked:id=a/b:kind=auth:progress=007:msg=aGk:app=vim")).
  vm_compute. reflexivity.
Defined.

Lemma parse_render_witness : parse (render true demo_record) = Some (Mutation_Report demo_record).
Proof.
  apply (parse_render true demo_record).
  - split; simpl.
    + right. vm_compute. split; [reflexivity|discriminate].
    + intros a [= <-]. vm_compute. intuition discriminate.
    + intros _. reflexivity.
    + intros n [= <-]. split; [lia|]. right. reflexivity.
    + intros t [= <-]. split_and!; [eexists; reflexivity|reflexivity|vm_compute; discriminate].
    + discriminate.
  - reflexivity.
  - repeat constructor; vm_compute; discriminate.
  - constructor.
Defined.
