(* ===== verification/StatusScanner.v ===== *)
(** * The escape-sequence scanner (crates/domain/src/terminal/program_status/
      scanner.rs)

    [Scanner] finds complete OSC sequences and resets in the output stream,
    across arbitrary chunk boundaries and in bounded memory. *)

From S2P Require Import Prelude Utf8 Bytes StatusReport.

(** ** State *)

Inductive Mode := Ground | Escape | Osc | String.
#[export] Instance Mode_eq_dec : EqDecision Mode.
Proof. solve_decision. Defined.

Record Scanner := {
  sc_mode : Mode;
  sc_body : list Z;
  sc_length : Z;
  sc_escaped : bool
}.
Definition Scanner_default : Scanner :=
  {| sc_mode := Ground; sc_body := []; sc_length := 0; sc_escaped := false |}.

Definition ESC : Z := 27.

Definition in_ground (s : Scanner) : bool :=
  match sc_mode s with Ground => true | _ => false end.
Definition plain_chunk (s : Scanner) (input : list Z) : bool :=
  in_ground s && negb (one_of input ESC).

(** What a scan appends to its two output vectors. *)
Definition emitted : Type := list Mutation * list Z.
Definition nothing : emitted := ([], []).
Definition emit (a b : emitted) : emitted := (a.1 ++ b.1, a.2 ++ b.2).

(** ** One byte *)

Definition set_mode (m : Mode) (s : Scanner) : Scanner :=
  {| sc_mode := m; sc_body := sc_body s; sc_length := sc_length s; sc_escaped := sc_escaped s |}.

(** [body.pop()] *)
Definition pop (body : list Z) : list Z := take (length body - 1) body.

(** A complete OSC body, at the end of its sequence. *)
Definition complete (body : list Z) (offset : Z) : emitted :=
  match strip_prefix (bs "7501;") body with
  | Some report =>
    if bool_decide (report = bs "?") then ([], [offset])
    else match parse report with Some m => ([m], []) | None => nothing end
  | None =>
    match strip_prefix (bs "133;") body with
    | Some mark => if bool_decide (head (split 59 mark) = Some (bs "A")) then ([Mutation_Exit], [])
                   else nothing
    | None => nothing
    end
  end.

(** The [match self.mode] of the loop; [offset] is the position after [byte]. *)
Definition scan_byte (s : Scanner) (byte offset : Z) : Scanner * emitted :=
  match sc_mode s with
  | Ground => (set_mode Escape s, nothing)
  | Escape =>
    if byte =? 93 (* ] *) then
      ({| sc_mode := Osc; sc_body := []; sc_length := 2; sc_escaped := false |}, nothing)
    else if (byte =? 80) || (byte =? 88) || (byte =? 94) || (byte =? 95) (* P X ^ _ *) then
      ({| sc_mode := String; sc_body := sc_body s; sc_length := sc_length s;
          sc_escaped := false |}, nothing)
    else if byte =? 99 (* c *) then (set_mode Ground s, ([Mutation_Reset], []))
    else if byte =? ESC then (s, nothing)
    else (set_mode Ground s, nothing)
  | Osc | String =>
    if (byte =? 24) || (byte =? 26) then
      ({| sc_mode := Ground; sc_body := []; sc_length := sc_length s;
          sc_escaped := sc_escaped s |}, nothing)
    else
      let osc := bool_decide (sc_mode s = Osc) in
      let length := saturating_add usize_max (sc_length s) 1 in
      if (sc_escaped s && (byte =? 92)) || (osc && (byte =? 7)) then
        let body := if osc && (length <=? 4096) && (sc_escaped s && (byte =? 92))
                    then pop (sc_body s) else sc_body s in
        ({| sc_mode := Ground; sc_body := []; sc_length := length; sc_escaped := false |},
         if osc && (length <=? 4096) then complete body offset else nothing)
      else
        ({| sc_mode := sc_mode s;
            sc_body := if osc && (length <=? 4096) then sc_body s ++ [byte] else sc_body s;
            sc_length := length; sc_escaped := byte =? ESC |}, nothing)
  end.

(** ** The loop

    In ground state the loop jumps to the next escape byte; [fuel] bounds the
    iterations, each of which consumes a byte ([scan_loop_fuel]). *)
Fixpoint scan_loop (fuel : nat) (s : Scanner) (rest : list Z) (offset : Z) : Scanner * emitted :=
  match fuel with
  | O => (s, nothing)
  | S fuel =>
    match (if in_ground s then (λ n, (drop n rest, offset + Z.of_nat n)) <$> position ESC rest
           else Some (rest, offset)) with
    | Some (byte :: rest, offset) =>
      let (s, out) := scan_byte s byte (offset + 1) in
      let (s, more) := scan_loop fuel s rest (offset + 1) in
      (s, emit out more)
    | _ => (s, nothing)
    end
  end.

Definition scan (s : Scanner) (input : list Z) : Scanner * emitted :=
  if plain_chunk s input then (s, nothing)
  else scan_loop (length input) s input 0.

(** ** The specification: one byte at a time, nothing skipped *)

Definition spec_byte (s : Scanner) (byte offset : Z) : Scanner * emitted :=
  if in_ground s && negb (byte =? ESC) then (s, nothing) else scan_byte s byte offset.

Fixpoint spec_scan (s : Scanner) (input : list Z) (offset : Z) : Scanner * emitted :=
  match input with
  | [] => (s, nothing)
  | byte :: input =>
    let (s, out) := spec_byte s byte (offset + 1) in
    let (s, more) := spec_scan s input (offset + 1) in
    (s, emit out more)
  end.

(** ** Invariant *)

(** While a sequence is within the limit, all of it is in the body; the body
    never holds more. *)
Record scanner_wf (s : Scanner) : Prop := {
  sw_body : len (sc_body s) <= 4094;
  sw_length : 0 <= sc_length s <= usize_max;
  sw_osc : sc_mode s = Osc → 2 <= sc_length s
           ∧ (sc_length s <= 4096 → len (sc_body s) = sc_length s - 2)
           ∧ (sc_escaped s = true → sc_length s <= 4096 → last (sc_body s) = Some ESC);
  sw_idle : sc_mode s ≠ Osc → sc_body s = []
}.

(** ** Lemmas *)

Lemma emit_nothing_l e : emit nothing e = e.
Proof. by destruct e. Qed.
Lemma emit_nothing_r e : emit e nothing = e.
Proof. destruct e. unfold emit; simpl. by rewrite !app_nil_r. Qed.
Lemma emit_assoc a b c : emit a (emit b c) = emit (emit a b) c.
Proof. unfold emit; simpl. by rewrite !app_assoc. Qed.

(** Bytes before the first escape change nothing in ground state. *)
Lemma spec_scan_skip s pre rest offset :
  in_ground s = true → ESC ∉ pre →
  spec_scan s (pre ++ rest) offset = spec_scan s rest (offset + len pre).
Proof.
  intros Hs. revert offset. induction pre as [|b pre IH]; intros offset Hpre; simpl.
  - f_equal. rewrite len_nil. lia.
  - unfold spec_byte. rewrite Hs. destruct (Z.eqb_spec b ESC); [set_solver|]. simpl.
    rewrite IH by set_solver. replace (offset + 1 + len pre) with (offset + len (b :: pre))
      by len_lia. destruct (spec_scan s rest _). by rewrite emit_nothing_l.
Qed.

Lemma scan_loop_spec fuel s rest offset :
  (length rest <= fuel)%nat → scan_loop fuel s rest offset = spec_scan s rest offset.
Proof.
  revert s rest offset. induction fuel as [|fuel IH]; intros s rest offset Hf.
  { by destruct rest; simpl in Hf; [|lia]. }
  simpl. destruct (in_ground s) eqn:Hg.
  - destruct (position ESC rest) as [n|] eqn:Hp; simpl.
    + pose proof (position_lt _ _ _ Hp) as Hlt. apply position_Some in Hp as [Hr Hpre].
      rewrite Hr at 2. rewrite spec_scan_skip by done.
      assert (drop n rest = ESC :: drop (S n) rest) as ->.
      { rewrite Hr at 1. rewrite drop_app_ge by (rewrite length_take; lia).
        rewrite length_take. by replace (n - n `min` length rest)%nat with 0%nat by lia. }
      simpl. unfold spec_byte. rewrite Hg. simpl.
      replace (len (take n rest)) with (Z.of_nat n) by (unfold len; rewrite length_take; lia).
      destruct (scan_byte s ESC _). rewrite IH by (rewrite length_drop; lia). done.
    + apply position_None in Hp. rewrite <-(app_nil_r rest), spec_scan_skip by done. done.
  - destruct rest as [|b rest]; simpl; [done|]. simpl in Hf. unfold spec_byte. rewrite Hg. simpl.
    destruct (scan_byte s b _). rewrite IH by lia. done.
Qed.

(** The scan is the byte-at-a-time automaton: the early return, the jumps and
    the loop bound are invisible. *)
Lemma scan_spec s input : scan s input = spec_scan s input 0.
Proof.
  unfold scan. destruct (plain_chunk s input) eqn:E; [|by apply scan_loop_spec].
  apply andb_true_iff in E as [Hg He]. apply negb_true_iff in He.
  assert (ESC ∉ input) as Hn.
  { intros Hin. assert (one_of input ESC = true); [|congruence].
    apply existsb_exists. exists ESC. split; [by apply list_elem_of_In|done]. }
  rewrite <-(app_nil_r input), spec_scan_skip by done. done.
Qed.

Lemma spec_scan_app s a b offset :
  spec_scan s (a ++ b) offset =
  let (s1, e1) := spec_scan s a offset in
  let (s2, e2) := spec_scan s1 b (offset + len a) in
  (s2, emit e1 e2).
Proof.
  revert s offset. induction a as [|x a IH]; intros s offset; simpl.
  - rewrite len_nil, Z.add_0_r. destruct (spec_scan s b offset). by rewrite emit_nothing_l.
  - destruct (spec_byte s x (offset + 1)) as [s1 e1]. rewrite IH.
    destruct (spec_scan s1 a (offset + 1)) as [s2 e2].
    replace (offset + len (x :: a)) with (offset + 1 + len a) by len_lia.
    destruct (spec_scan s2 b _). by rewrite emit_assoc.
Qed.

(** Where the chunk starts only moves the query offsets. *)
Definition shift (k : Z) (e : emitted) : emitted := (e.1, (λ q, q + k) <$> e.2).

Lemma complete_shift body k offset : complete body (offset + k) = shift k (complete body offset).
Proof. unfold complete. by repeat case_match. Qed.

Lemma spec_byte_shift s b k offset :
  spec_byte s b (offset + k) =
  ((spec_byte s b offset).1, shift k (spec_byte s b offset).2).
Proof.
  unfold spec_byte, scan_byte. case_match; [done|].
  destruct (sc_mode s); [done| | |].
  { by repeat case_match. }
  all: case_match; [done|]; case_match; simpl; [|done]; try done;
    (case_match; [by rewrite complete_shift|done]).
Qed.

Lemma spec_scan_shift s l k offset :
  spec_scan s l (offset + k) = ((spec_scan s l offset).1, shift k (spec_scan s l offset).2).
Proof.
  revert s offset. induction l as [|b l IH]; intros s offset; simpl; [done|].
  replace (offset + k + 1) with (offset + 1 + k) by lia. rewrite spec_byte_shift.
  destruct (spec_byte s b (offset + 1)) as [s1 e1]; simpl. rewrite IH.
  destruct (spec_scan s1 l (offset + 1)) as [s2 e2]; simpl.
  unfold emit, shift; simpl. by rewrite fmap_app.
Qed.

(** ** The invariant is kept *)

Lemma pop_len body : len (pop body) <= len body.
Proof. unfold pop, len. rewrite length_take. lia. Qed.

Lemma scanner_wf_default : scanner_wf Scanner_default.
Proof. split; simpl; try done; rewrite ?len_nil; unfold usize_max, u64_max; lia. Qed.

Lemma spec_byte_wf s b offset : scanner_wf s → scanner_wf (spec_byte s b offset).1.
Proof.
  intros [Hb Hl Ho Hi]. unfold spec_byte. case_match eqn:Hskip; [by split|].
  unfold scan_byte. destruct (sc_mode s) eqn:Em.
  - split; simpl; try done. by intros _; apply Hi.
  - rewrite Hi in * by done.
    repeat case_match; split; simpl; rewrite ?Em, ?Hi by done; try done;
      rewrite ?len_nil; unfold usize_max, u64_max in *; try lia; naive_solver lia.
  - destruct (Ho eq_refl) as (Ho1 & Ho2 & Ho3). rewrite bool_decide_eq_true_2 by done.
    unfold saturating_add. simpl.
    case_match; [split; simpl; try done; rewrite ?len_nil; lia|].
    case_match; [split; simpl; try done; rewrite ?len_nil; unfold usize_max, u64_max in *; lia|].
    split; simpl; try done; [|unfold usize_max, u64_max in *; lia|].
    + case_match; to_props; [|done]. rewrite len_app, len_cons, len_nil.
      rewrite Ho2 by (unfold usize_max, u64_max in *; lia). unfold usize_max, u64_max in *. lia.
    + intros _. split; [unfold usize_max, u64_max in *; lia|]. split.
      * intros Hle. rewrite (proj2 (Z.leb_le _ _)) by done. rewrite len_app, len_cons, len_nil.
        rewrite Ho2; unfold usize_max, u64_max in *; lia.
      * intros He Hle. rewrite (proj2 (Z.leb_le _ _)) by done. to_props. subst. by rewrite last_snoc.
  - rewrite bool_decide_eq_false_2 by done. simpl.
    repeat case_match; split; simpl; rewrite ?Em; try done; rewrite ?Hi by done;
      unfold saturating_add, usize_max, u64_max in *; rewrite ?len_nil; try lia; done.
Qed.

Definition emitted_count (e : emitted) : Z := len e.1 + len e.2.

Lemma spec_byte_count s b offset :
  emitted_count (spec_byte s b offset).2 <= 1
  ∧ Forall (λ q, q = offset) (spec_byte s b offset).2.2.
Proof.
  assert (∀ body, emitted_count (complete body offset) <= 1
                  ∧ Forall (λ q, q = offset) (complete body offset).2) as Hc.
  { intros body. unfold complete, nothing, emitted_count.
    repeat case_match; simpl; (split; [vm_compute; discriminate|repeat constructor]). }
  assert (∀ ms, len ms <= 1 → emitted_count (ms, []) <= 1 ∧ Forall (λ q, q = offset) (ms, @nil Z).2)
    as Hm by (intros ms Hms; unfold emitted_count; simpl; rewrite len_nil; split; [lia|constructor]).
  unfold spec_byte, scan_byte.
  case_match; [by apply Hm|]. destruct (sc_mode s); [by apply Hm| | |].
  { repeat case_match; by apply Hm. }
  all: case_match; [by apply Hm|]; case_match; simpl; [|by apply Hm]; try by apply Hm.
  case_match; [apply Hc|by apply Hm].
Qed.

Lemma spec_scan_bounds s l offset :
  let r := spec_scan s l offset in
  (scanner_wf s → scanner_wf r.1)
  ∧ emitted_count r.2 <= len l
  ∧ Forall (λ q, offset < q <= offset + len l) r.2.2.
Proof.
  revert s offset. induction l as [|b l IH]; intros s offset; simpl.
  { split_and!; [done|vm_compute; discriminate|constructor]. }
  destruct (spec_byte_count s b (offset + 1)) as [Hc Hq].
  pose proof (spec_byte_wf s b (offset + 1)) as Hw.
  destruct (spec_byte s b (offset + 1)) as [s1 e1]; simpl in *.
  destruct (IH s1 (offset + 1)) as (IHw & IHc & IHq).
  destruct (spec_scan s1 l (offset + 1)) as [s2 e2]; simpl in *.
  unfold emitted_count, emit in *; simpl. rewrite !len_app, !len_cons.
  split_and!; [auto|lia|]. rewrite Forall_app. len_facts. split.
  - eapply Forall_impl; [done|]. simpl. lia.
  - eapply Forall_impl; [done|]. simpl. lia.
Qed.

(** Offsets of one chunk: in order, and inside it. *)
Fixpoint ordered_offsets (start : Z) (qs : list Z) (stop : Z) : Prop :=
  match qs with
  | [] => start <= stop
  | q :: qs => start <= q ∧ ordered_offsets q qs stop
  end.
Lemma ordered_offsets_weaken start start' qs stop :
  start' <= start → ordered_offsets start qs stop → ordered_offsets start' qs stop.
Proof. intros Hs. destruct qs; simpl; [lia|]. intros [H1 H2]. split; [lia|done]. Qed.
Lemma ordered_offsets_stop start qs stop : ordered_offsets start qs stop → start <= stop.
Proof. revert start. induction qs as [|q qs IH]; intros start; simpl; [done|]. intros [H1 H2%IH]. lia. Qed.

Lemma spec_scan_ordered s l offset :
  ordered_offsets offset (spec_scan s l offset).2.2 (offset + len l).
Proof.
  revert s offset. induction l as [|b l IH]; intros s offset; simpl; [len_lia|].
  destruct (spec_byte_count s b (offset + 1)) as [Hc Hq].
  destruct (spec_byte s b (offset + 1)) as [s1 e1]; simpl in *.
  specialize (IH s1 (offset + 1)). destruct (spec_scan s1 l (offset + 1)) as [s2 e2]; simpl in *.
  unfold emitted_count in Hc. rewrite len_cons. replace (offset + (1 + len l)) with (offset + 1 + len l) by lia.
  destruct e1.2 as [|q [|q' qs]]; simpl.
  - by apply (ordered_offsets_weaken (offset + 1)); [lia|].
  - apply Forall_cons in Hq as [-> _]. split; [lia|done].
  - rewrite !len_cons in Hc. pose proof (len_nonneg e1.1). pose proof (len_nonneg qs). lia.
Qed.
Lemma scan_ordered s l : ordered_offsets 0 (scan s l).2.2 (len l).
Proof. rewrite scan_spec. apply (spec_scan_ordered s l 0). Qed.

(** ** A complete sequence *)

(** Bytes that an OSC body holds verbatim. *)
Definition body_byte (b : Z) : Prop := b ≠ 7 ∧ b ≠ 24 ∧ b ≠ 26 ∧ b ≠ 27.

Lemma spec_scan_body body l n offset :
  Forall body_byte l → 0 <= n → n + len l <= 4096 →
  spec_scan {| sc_mode := Osc; sc_body := body; sc_length := n; sc_escaped := false |} l offset
  = ({| sc_mode := Osc; sc_body := body ++ l; sc_length := n + len l; sc_escaped := false |}, nothing).
Proof.
  intros Hl. revert body n offset. induction Hl as [|b l (H7 & H24 & H26 & H27) _ IH];
    intros body n offset Hn Hlen; simpl.
  { by rewrite app_nil_r, len_nil, Z.add_0_r. }
  rewrite len_cons in *. pose proof (len_nonneg l).
  unfold spec_byte, scan_byte; simpl.
  rewrite (proj2 (Z.eqb_neq b 24)), (proj2 (Z.eqb_neq b 26)), (proj2 (Z.eqb_neq b 7)),
    (proj2 (Z.eqb_neq b ESC)) by done. simpl.
  unfold saturating_add. rewrite Z.min_l by (unfold usize_max, u64_max; lia).
  rewrite (proj2 (Z.leb_le _ _)) by lia. rewrite IH by lia. simpl. rewrite <-app_assoc. simpl.
  by replace (n + 1 + len l) with (n + (1 + len l)) by lia.
Qed.

(** The two ways to end an OSC sequence. *)
Inductive terminator := BEL | ST.
Definition terminator_bytes (t : terminator) : list Z :=
  match t with BEL => [7] | ST => [27; 92] end.
Definition osc_sequence (body : list Z) (t : terminator) : list Z :=
  [27; 93] ++ body ++ terminator_bytes t.

Lemma scan_osc s body t :
  in_ground s = true → Forall body_byte body → len body <= 4092 →
  scan s (osc_sequence body t) =
  ({| sc_mode := Ground; sc_body := []; sc_length := 2 + len body + len (terminator_bytes t);
      sc_escaped := false |},
   complete body (len (osc_sequence body t))).
Proof.
  intros Hg Hb Hl. pose proof (len_nonneg body) as H0. rewrite scan_spec. unfold osc_sequence.
  destruct s as [m b0 l0 e0]. destruct m; try done. clear Hg.
  simpl. rewrite spec_scan_app, spec_scan_body by (done || lia). simpl.
  assert (∀ n, 0 <= n <= 4096 → saturating_add usize_max n 1 = n + 1) as Hs
    by (intros n Hn; unfold saturating_add, usize_max, u64_max; lia).
  destruct t; cbn [terminator_bytes spec_scan]; unfold spec_byte, scan_byte; simpl;
    rewrite (Hs (2 + len body)), ?(Hs (2 + len body + 1)) by lia.
  - rewrite (proj2 (Z.leb_le _ _)) by lia. rewrite !emit_nothing_l, emit_nothing_r.
    assert (len (27 :: 93 :: body ++ [7]) = 0 + 1 + 1 + len body + 1) as -> by len_lia. done.
  - rewrite !(proj2 (Z.leb_le _ _)) by lia. rewrite !emit_nothing_l, emit_nothing_r.
    unfold pop. rewrite length_app, Nat.add_sub, take_app_length.
    assert (len (27 :: 93 :: body ++ [27; 92]) = 0 + 1 + 1 + len body + 1 + 1) as -> by len_lia.
    by replace (2 + len body + len [27; 92]) with (2 + len body + 1 + 1) by (change (len [27; 92]) with 2; lia).
Qed.

Lemma value_byte_body b : value_byte b = true → body_byte b.
Proof.
  intros Hv. destruct (value_byte_plain b Hv) as [Hr _].
  pose proof (forallb_seqZ (λ b, implb (value_byte b) (bool_decide (body_byte b))) 0 128 b) as H.
  cbv beta in H. rewrite Hv in H. simpl in H. unfold ascii in Hr.
  eapply bool_decide_eq_true_1, H; [vm_compute; done|lia].
Qed.

(** ** Rendered records fit one sequence *)

Lemma join_elem x l b : b ∈ join x l → b = x ∨ ∃ p, p ∈ l ∧ b ∈ p.
Proof.
  induction l as [|p [|p' l] IH]; intros Hb; [by apply elem_of_nil in Hb| |].
  - right. exists p. split; [by left|done].
  - change (join x (p :: p' :: l)) with (p ++ x :: join x (p' :: l)) in Hb.
    apply elem_of_app in Hb as [Hb|[Hb|Hb]%elem_of_cons].
    + right. exists p. split; [by left|done].
    + by left.
    + destruct (IH Hb) as [?|(q & Hq & ?)]; [by left|right]. exists q. split; [by right|done].
Qed.

(** Every piece costs its length and a separator. *)
Fixpoint joined_len (l : list (list Z)) : Z :=
  match l with [] => 0 | p :: l => len p + 1 + joined_len l end.

Lemma joined_len_app l k : joined_len (l ++ k) = joined_len l + joined_len k.
Proof. induction l; simpl; lia. Qed.

Lemma join_len x l : len (join x l) <= joined_len l.
Proof.
  induction l as [|p [|p' l] IH]; [done|simpl; lia|].
  change (join x (p :: p' :: l)) with (p ++ x :: join x (p' :: l)).
  rewrite len_app, len_cons. simpl in *. lia.
Qed.

Lemma opt_pair_len {A} key (show : A → list Z) o n :
  (∀ a, o = Some a → len (show a) <= n) → 0 <= n →
  joined_len (pair_bytes <$> opt_pair key show o) <= len key + n + 2.
Proof.
  intros Ho Hn. pose proof (len_nonneg key). destruct o as [a|]; simpl; [|lia].
  specialize (Ho a eq_refl). unfold pair_bytes; simpl. rewrite len_app, len_cons. lia.
Qed.

(** The longest legal report is well inside the 4096 bytes of a sequence. *)
Lemma render_len pad r : record_ok r → len (render pad r) <= 3300.
Proof.
  intros [Hrid Hrapp _ _ Hrmsg Hrtitle]. unfold render. etrans; [apply join_len|]. unfold record_pairs.
  rewrite !fmap_app, !joined_len_app.
  assert (∀ key v n, len v <= n → joined_len (pair_bytes <$> [(key, v)]) <= len key + n + 2) as H1
    by (intros; simpl; unfold pair_bytes; simpl; rewrite len_app, len_cons; lia).
  pose proof (H1 (bs "state") (state_name (sr_state r)) 7
    ltac:(destruct (sr_state r); vm_compute; discriminate)) as Hst.
  assert (joined_len (pair_bytes <$> (if decide (sr_id r = []) then [] else [(bs "id", sr_id r)])) <= 132)
    as Hid.
  { case_decide; [done|]. destruct Hrid as [?|[_ Hl]]; [done|]. apply (H1 (bs "id") _ 128 Hl). }
  pose proof (opt_pair_len (bs "app") (λ a, a) (sr_app r) 32
    ltac:(intros a Ha; destruct (Hrapp a Ha); lia) ltac:(lia)) as Happ.
  pose proof (opt_pair_len (bs "kind") kind_name (sr_kind r) 10
    ltac:(intros k _; destruct k; vm_compute; discriminate) ltac:(lia)) as Hk.
  pose proof (opt_pair_len (bs "progress") decimal (sr_progress r) 3
    ltac:(intros n _; unfold decimal; repeat case_match; vm_compute; discriminate) ltac:(lia)) as Hp.
  pose proof (opt_pair_len (bs "msg") (base64_encode pad) (sr_msg r) 2732
    ltac:(intros t Ht; apply (base64_len_bound pad t 683); destruct (Hrmsg t Ht) as (_ & _ & ?); lia)
    ltac:(lia)) as Hm.
  pose proof (opt_pair_len (bs "title") (base64_encode pad) (sr_title r) 256
    ltac:(intros t Ht; apply (base64_len_bound pad t 64); destruct (Hrtitle t Ht) as (_ & _ & ?); lia)
    ltac:(lia)) as Ht.
  change (len (bs "state")) with 5 in Hst. change (len (bs "app")) with 3 in Happ.
  change (len (bs "kind")) with 4 in Hk. change (len (bs "progress")) with 8 in Hp.
  change (len (bs "msg")) with 3 in Hm. change (len (bs "title")) with 5 in Ht. lia.
Qed.

Lemma render_bytes pad r :
  record_ok r → Forall is_byte (default [] (sr_msg r)) → Forall is_byte (default [] (sr_title r)) →
  Forall body_byte (render pad r).
Proof.
  intros Hok Hm Ht. pose proof (record_pairs_ok pad r Hok Hm Ht) as Hp.
  rewrite Forall_forall in Hp. apply Forall_forall. intros b Hb.
  apply join_elem in Hb as [->|(p & Hpi & Hb)]; [by vm_compute; intuition discriminate|].
  apply list_elem_of_fmap in Hpi as (kv & -> & Hkv). destruct (Hp _ Hkv) as [[_ Hk] Hv _ _].
  apply forallb_Forall in Hk, Hv. rewrite Forall_forall in Hk, Hv.
  apply elem_of_app in Hb as [Hb|[->|Hb]%elem_of_cons].
  - apply value_byte_body. specialize (Hk b Hb). unfold value_byte, is_ascii_alphanumeric.
    unfold is_ascii_lowercase in Hk. by rewrite Hk, !orb_true_r.
  - by vm_compute; intuition discriminate.
  - by apply value_byte_body, Hv.
Qed.

(** ** Properties *)

(** chunk boundaries are invisible.  Scanning a stream in one piece or cut
    at any point finds the same mutations and queries in the same order, with
    the query offsets of the second chunk relative to it, and leaves the same
    scanner. *)
Theorem scan_chunks s a b :
  scan s (a ++ b) =
  let (s1, e1) := scan s a in
  let (s2, e2) := scan s1 b in
  (s2, emit e1 (shift (len a) e2)).
Proof.
  rewrite !scan_spec, spec_scan_app. destruct (spec_scan s a 0) as [s1 e1].
  rewrite scan_spec. rewrite (spec_scan_shift s1 b (len a) 0).
  by destruct (spec_scan s1 b 0).
Qed.

(** scanning is bounded.  From the initial scanner, after any chunks, the
    body holds at most 4094 bytes; a chunk adds at most one mutation or query
    for each of its bytes, and every query offset is a position of the chunk. *)
Theorem scan_bounded chunks chunk :
  let s := foldl (λ s c, (scan s c).1) Scanner_default chunks in
  scanner_wf s ∧ len (sc_body s) <= 4094
  ∧ emitted_count (scan s chunk).2 <= len chunk
  ∧ Forall (λ q, 0 < q <= len chunk) (scan s chunk).2.2.
Proof.
  assert (∀ s, scanner_wf s → scanner_wf (foldl (λ s c, (scan s c).1) s chunks)) as Hwf.
  { induction chunks as [|c chunks IH]; intros s Hs; simpl; [done|]. apply IH.
    rewrite scan_spec. by apply spec_scan_bounds. }
  intros s. specialize (Hwf _ scanner_wf_default). fold s in Hwf. rewrite scan_spec.
  destruct (spec_scan_bounds s chunk 0) as (_ & Hc & Hq).
  split_and!; [done|apply Hwf|done|done].
Qed.

(** every legal report is recognised.  In ground state, an OSC 7501
    sequence that carries any record within the parser's bounds, ended either
    way, yields exactly that record and returns to ground: it always fits the
    4096 bytes a sequence may have. *)
Theorem report_recognised s pad r t :
  in_ground s = true → record_ok r → sr_resolved_app r = None →
  Forall is_byte (default [] (sr_msg r)) → Forall is_byte (default [] (sr_title r)) →
  let (s', e) := scan s (osc_sequence (bs "7501;" ++ render pad r) t) in
  e = ([Mutation_Report r], []) ∧ in_ground s' = true ∧ sc_body s' = [].
Proof.
  intros Hg Hok Hres Hm Ht. pose proof (render_len pad r Hok) as Hlen.
  rewrite scan_osc; [|done| |].
  - split; [|done]. unfold complete.
    rewrite (proj2 (strip_prefix_Some (bs "7501;") _ (render pad r))) by done.
    pose proof (parse_rendered pad r Hok Hres Hm Ht) as Hp.
    rewrite bool_decide_eq_false_2; [by rewrite Hp|]. intros Hq. rewrite Hq in Hp. by vm_compute in Hp.
  - apply Forall_app. split; [|by apply render_bytes].
    repeat constructor; vm_compute; discriminate.
  - rewrite len_app. change (len (bs "7501;")) with 5. lia.
Qed.

(** *** Witnesses *)

Lemma report_recognised_witness :
  (scan Scanner_default (osc_sequence (bs "7501;" ++ render false demo_record) ST)).2
  = ([Mutation_Report demo_record], []).
Proof.
  assert (record_ok demo_record) as Hok.
  { split; simpl.
    - right. vm_compute. split; [reflexivity|discriminate].
    - intros a [= <-]. vm_compute. intuition discriminate.
    - intros _. reflexivity.
    - intros n [= <-]. split; [lia|]. right. reflexivity.
    - intros t [= <-]. split_and!; [eexists; reflexivity|reflexivity|vm_compute; discriminate].
    - discriminate. }
  pose proof (report_recognised Scanner_default false demo_record ST eq_refl Hok eq_refl
    ltac:(repeat constructor; vm_compute; discriminate) ltac:(constructor)) as H.
  destruct (scan _ _) as [s e]. exact (proj1 H).
Defined.
