(* ===== verification/StatusStore.v ===== *)
(** * The program-status store (crates/domain/src/terminal/program_status/
      mod.rs, store.rs)

    A session's records and its scanner.  A chunk is scanned into a plan
    without touching the store, and the plan is committed once the terminal
    has accepted the bytes; a plan is good for one generation only. *)

From S2P Require Import Prelude Utf8 Bytes Terminal StatusReport StatusScanner.

(** ** Constants and errors (mod.rs) *)

Definition PROGRAM_STATUS_REPLY : list Z := [27] ++ bs "]7501;?" ++ [27; 92].
Definition MAX_SCAN_BYTES : Z := 1024 * 1024.

Inductive ProgramStatusError :=
  | ProgramStatusError_InvalidRecordLimit
  | ProgramStatusError_ChunkTooLarge
  | ProgramStatusError_StalePlan
  | ProgramStatusError_RevisionExhausted.
#[export] Instance ProgramStatusError_eq_dec : EqDecision ProgramStatusError.
Proof. solve_decision. Defined.

(** ** State (store.rs) *)

Record ProgramStatusSnapshot := { sn_revision : Z; sn_records : list ProgramStatusRecord }.

(** [identity] is the address of the store's [Arc]. *)
Record ProgramStatusPlan := {
  pn_identity : Z;
  pn_generation : Z;
  pn_scanner : Scanner;
  pn_mutations : list Mutation;
  pn_queries : list Z
}.

Record ProgramStatusStore := {
  st_identity : Z;
  st_generation : Z;
  st_scanner : Scanner;
  st_records : list ProgramStatusRecord;
  st_revision : Z;
  st_limit : Z
}.

(** ** Operations *)

Definition ProgramStatusStore_default (identity : Z) : ProgramStatusStore :=
  {| st_identity := identity; st_generation := 0; st_scanner := Scanner_default;
     st_records := []; st_revision := 0; st_limit := 256 |}.

Definition ProgramStatusStore_new (identity record_limit : Z)
    : result ProgramStatusError ProgramStatusStore :=
  if negb (in_range 64 256 record_limit) then Err ProgramStatusError_InvalidRecordLimit
  else Ok {| st_identity := identity; st_generation := 0; st_scanner := Scanner_default;
             st_records := []; st_revision := 0; st_limit := record_limit |}.

Section layout.
Context `{L : Layout}.

(** Conservative heap reservation for the records at this cap. *)
Definition record_reservation (s : ProgramStatusStore) : Z :=
  8192 + st_limit s * (2 * size_of_ProgramStatusRecord + 128 + 32 + 32 + 2048 + 192).

(** Bound to admit before scanning. *)
Definition scan_reservation (chunk_len : Z) : result ProgramStatusError Z :=
  if MAX_SCAN_BYTES <? chunk_len then Err ProgramStatusError_ChunkTooLarge
  else Ok (32768 + chunk_len * (2 * size_of_Mutation + 2 * size_of_usize + 4)).

(** No allocation for ordinary text in ground state. *)
Definition scan_reservation_for (s : ProgramStatusStore) (chunk : list Z)
    : result ProgramStatusError Z :=
  if MAX_SCAN_BYTES <? len chunk then Err ProgramStatusError_ChunkTooLarge
  else if plain_chunk (st_scanner s) chunk then Ok 0
  else scan_reservation (len chunk).

(** Scan without moving committed state. *)
Definition store_scan (s : ProgramStatusStore) (chunk : list Z)
    : result ProgramStatusError ProgramStatusPlan :=
  scan_reservation (len chunk) ≫= λ _,
  if (st_generation s =? u64_max) || (u64_max - (len chunk + 1) <? st_revision s)
  then Err ProgramStatusError_RevisionExhausted
  else
    let (scanner, e) := scan (st_scanner s) chunk in
    Ok {| pn_identity := st_identity s; pn_generation := st_generation s;
          pn_scanner := scanner; pn_mutations := e.1; pn_queries := e.2 |}.

End layout.

Definition query_offsets (p : ProgramStatusPlan) : list Z := pn_queries p.

Definition has_id (id : list Z) (r : ProgramStatusRecord) : bool := bool_decide (sr_id r = id).

(** [iter().position(|r| r.id == id)] *)
Fixpoint index_of (id : list Z) (l : list ProgramStatusRecord) : option nat :=
  match l with
  | [] => None
  | r :: l => if has_id id r then Some 0%nat else S <$> index_of id l
  end.

Definition set_records (records : list ProgramStatusRecord) (revision : Z)
    (s : ProgramStatusStore) : ProgramStatusStore :=
  {| st_identity := st_identity s; st_generation := st_generation s;
     st_scanner := st_scanner s; st_records := records; st_revision := revision;
     st_limit := st_limit s |}.

(** The closures of [retain]. *)
Definition keep_on_clear (id : list Z) (r : ProgramStatusRecord) : bool :=
  negb (len id =? 0) && negb (has_id id r)
  && negb (match strip_prefix id (sr_id r) with
           | Some suffix => bool_decide (head suffix = Some 47)
           | None => false
           end).
Definition keep_on_exit (r : ProgramStatusRecord) : bool :=
  match sr_state r with Working | Blocked => false | _ => true end.

Definition apply (s : ProgramStatusStore) (m : Mutation) : ProgramStatusStore :=
  match m with
  | Mutation_Report record =>
    let records :=
      match index_of (sr_id record) (st_records s) with
      | Some index => delete index (st_records s)
      | None => if len (st_records s) =? st_limit s then delete 0%nat (st_records s)
                else st_records s
      end in
    set_records (records ++ [record]) (st_revision s + 1) s
  | _ =>
    let records := match m with
                   | Mutation_Clear id => List.filter (keep_on_clear id) (st_records s)
                   | Mutation_Exit => List.filter keep_on_exit (st_records s)
                   | _ => []
                   end in
    set_records records
      (if len records =? len (st_records s) then st_revision s else st_revision s + 1) s
  end.

(** Apply an accepted chunk atomically. *)
Definition commit (p : ProgramStatusPlan) : action ProgramStatusStore ProgramStatusError () := λ s,
  if negb (st_identity s =? pn_identity p) || negb (st_generation s =? pn_generation p)
  then (s, Err ProgramStatusError_StalePlan)
  else
    let s := foldl apply s (pn_mutations p) in
    ({| st_identity := st_identity s; st_generation := st_generation s + 1;
        st_scanner := pn_scanner p; st_records := st_records s;
        st_revision := st_revision s; st_limit := st_limit s |}, Ok tt).

Definition process_exited : action ProgramStatusStore ProgramStatusError () := λ s,
  if (st_generation s =? u64_max) || (st_revision s =? u64_max)
  then (s, Err ProgramStatusError_RevisionExhausted)
  else
    let s := apply s Mutation_Exit in
    ({| st_identity := st_identity s; st_generation := st_generation s + 1;
        st_scanner := st_scanner s; st_records := st_records s;
        st_revision := st_revision s; st_limit := st_limit s |}, Ok tt).

(** The loop of [records]: the nearest ancestor that names an application.
    Each round shortens the identifier; [resolve_fuel] bounds the rounds. *)
Definition app_of (records : list ProgramStatusRecord) (id : list Z) : option (list Z) :=
  r ← List.find (has_id id) records; sr_app r.
Definition parent (id : list Z) : list Z :=
  match rsplit_once 47 id with Some (parent, _) => parent | None => [] end.
Fixpoint resolve (fuel : nat) (records : list ProgramStatusRecord) (ancestor : list Z)
    : option (list Z) :=
  match fuel with
  | O => None
  | S fuel =>
    match app_of records ancestor with
    | Some app => Some app
    | None => if len ancestor =? 0 then None else resolve fuel records (parent ancestor)
    end
  end.
Definition resolve_fuel (id : list Z) : nat := S (length id).

Definition with_resolved (app : option (list Z)) (r : ProgramStatusRecord) : ProgramStatusRecord :=
  {| sr_id := sr_id r; sr_state := sr_state r; sr_app := sr_app r; sr_resolved_app := app;
     sr_kind := sr_kind r; sr_progress := sr_progress r; sr_msg := sr_msg r;
     sr_title := sr_title r |}.

Definition records (s : ProgramStatusStore) : ProgramStatusSnapshot :=
  {| sn_revision := st_revision s;
     sn_records := (λ r, with_resolved (resolve (resolve_fuel (sr_id r)) (st_records s) (sr_id r)) r)
                     <$> st_records s |}.

(** ** Invariants *)

Record store_wf (s : ProgramStatusStore) : Prop := {
  sk_limit : 64 <= st_limit s <= 256;
  sk_count : len (st_records s) <= st_limit s;
  sk_ids : NoDup (sr_id <$> st_records s);
  sk_records : Forall (λ r, record_ok r ∧ sr_resolved_app r = None) (st_records s);
  sk_scanner : scanner_wf (st_scanner s);
  sk_generation : 0 <= st_generation s <= u64_max;
  sk_revision : 0 <= st_revision s <= u64_max
}.

(** A report that came out of the parser. *)
Definition mutation_ok (m : Mutation) : Prop :=
  match m with Mutation_Report r => record_ok r ∧ sr_resolved_app r = None | _ => True end.

(** What a plan promises as long as its generation is current. *)
Record plan_wf (s : ProgramStatusStore) (p : ProgramStatusPlan) : Prop := {
  pk_mutations : Forall mutation_ok (pn_mutations p);
  pk_scanner : scanner_wf (pn_scanner p);
  pk_generation : pn_identity p = st_identity s → pn_generation p <= st_generation s;
  pk_room : pn_identity p = st_identity s → pn_generation p = st_generation s →
    st_generation s < u64_max ∧ st_revision s + len (pn_mutations p) <= u64_max
}.

(** ** Lemmas *)

Lemma complete_ok body offset : Forall mutation_ok (complete body offset).1.
Proof.
  unfold complete. case_match.
  - case_match; [constructor|]. case_match eqn:E; [|constructor]. repeat constructor.
    destruct m; try done. by eapply parse_record_ok.
  - case_match; [|constructor]. case_match; repeat constructor.
Qed.

Lemma spec_scan_ok s l offset : Forall mutation_ok (spec_scan s l offset).2.1.
Proof.
  revert s offset. induction l as [|b l IH]; intros s offset; simpl; [constructor|].
  assert (Forall mutation_ok (spec_byte s b (offset + 1)).2.1) as Hb.
  { unfold spec_byte, scan_byte. case_match; [constructor|].
    destruct (sc_mode s); [constructor| | |]; repeat case_match; simpl;
      first [apply complete_ok | repeat constructor]. }
  destruct (spec_byte s b (offset + 1)) as [s1 e1]. specialize (IH s1 (offset + 1)).
  destruct (spec_scan s1 l (offset + 1)) as [s2 e2]. simpl in *. by apply Forall_app.
Qed.

Lemma index_of_Some id l i :
  index_of id l = Some i → ∃ r, l !! i = Some r ∧ sr_id r = id.
Proof.
  revert i. induction l as [|r l IH]; intros i; simpl; [done|]. case_match eqn:E.
  - intros [= <-]. exists r. unfold has_id in E. to_props. done.
  - intros (j & Hj & ->)%fmap_Some. simpl. by apply IH.
Qed.

Lemma index_of_None id l : index_of id l = None → id ∉ (sr_id <$> l).
Proof.
  induction l as [|r l IH]; simpl; [set_solver|]. case_match eqn:E; [done|].
  rewrite fmap_None. intros Hl. unfold has_id in E. to_props. specialize (IH Hl). set_solver.
Qed.

Lemma fmap_delete {A B} (f : A → B) (i : nat) (l : list A) : f <$> delete i l = delete i (f <$> l).
Proof. revert i. induction l as [|x l IH]; intros [|i]; csimpl; [done..|]. by rewrite IH. Qed.

Lemma delete_none {A} (i : nat) (l : list A) : l !! i = None → delete i l = l.
Proof.
  revert i. induction l as [|x l IH]; intros [|i] Hi; simplify_eq/=; [done..|]. f_equal. by apply IH.
Qed.

Lemma NoDup_delete {A} (i : nat) (l : list A) : NoDup l → NoDup (delete i l).
Proof.
  destruct (l !! i) as [x|] eqn:E.
  - rewrite (delete_Permutation _ _ _ E) at 1. by intros [_ ?]%NoDup_cons.
  - by rewrite delete_none.
Qed.

Lemma delete_lookup_fresh {A} (i : nat) (x : A) (l : list A) : NoDup l → l !! i = Some x → x ∉ delete i l.
Proof.
  intros Hn Hi. rewrite (delete_Permutation _ _ _ Hi) in Hn. by apply NoDup_cons in Hn as [? _].
Qed.

Lemma elem_of_delete {A} (i : nat) (x : A) (l : list A) : x ∈ delete i l → x ∈ l.
Proof.
  destruct (l !! i) as [y|] eqn:E.
  - intros Hx. rewrite (delete_Permutation _ _ _ E). by right.
  - by rewrite delete_none.
Qed.

Lemma len_delete {A} (i : nat) (l : list A) :
  (i < length l)%nat → len (delete i l) = len l - 1.
Proof.
  intros Hi. unfold len. apply lookup_lt_is_Some in Hi as [x Hx].
  rewrite (length_delete l i) by eauto. apply lookup_lt_Some in Hx. lia.
Qed.

Lemma list_filter_sub {A} (f : A → bool) l x : x ∈ List.filter f l → x ∈ l.
Proof. rewrite !list_elem_of_In. by intros [? _]%filter_In. Qed.

Lemma list_filter_len {A} (f : A → bool) l : len (List.filter f l) <= len l.
Proof. induction l as [|x l IH]; simpl; [done|]. case_match; rewrite ?len_cons; lia. Qed.

Lemma list_filter_ids (f : ProgramStatusRecord → bool) l :
  NoDup (sr_id <$> l) → NoDup (sr_id <$> List.filter f l).
Proof.
  induction l as [|x l IH]; csimpl; [done|]. intros [Hx Hl]%NoDup_cons. specialize (IH Hl).
  case_match; [|done]. csimpl. apply NoDup_cons. split; [|done].
  intros (y & Hy & Hin)%list_elem_of_fmap. apply Hx. rewrite Hy.
  apply list_elem_of_fmap. exists y. split; [done|]. by eapply list_filter_sub.
Qed.

(** What is left of the records before a report is pushed. *)
Definition make_room (id : list Z) (s : ProgramStatusStore) : list ProgramStatusRecord :=
  match index_of id (st_records s) with
  | Some index => delete index (st_records s)
  | None => if len (st_records s) =? st_limit s then delete 0%nat (st_records s) else st_records s
  end.

Lemma make_room_spec id s :
  store_wf s →
  len (make_room id s) < st_limit s ∧ NoDup (sr_id <$> make_room id s)
  ∧ (id ∉ (sr_id <$> make_room id s)) ∧ (∀ r, r ∈ make_room id s → r ∈ st_records s).
Proof.
  intros [Hl Hc Hi _ _ _ _]. unfold make_room. destruct (index_of id (st_records s)) as [i|] eqn:E.
  - apply index_of_Some in E as (r & Hr & <-). rewrite len_delete by by eapply lookup_lt_Some.
    rewrite fmap_delete. split_and!; [lia|by apply NoDup_delete| |intros ?; apply elem_of_delete].
    apply delete_lookup_fresh; [done|]. by rewrite list_lookup_fmap, Hr.
  - apply index_of_None in E. destruct (Z.eqb_spec (len (st_records s)) (st_limit s)) as [He|].
    + rewrite len_delete by (unfold len in *; lia). rewrite fmap_delete.
      split_and!; [lia|by apply NoDup_delete| |intros ?; apply elem_of_delete].
      intros Hin. apply E. by eapply elem_of_delete.
    + split_and!; [lia|done|done|done].
Qed.

Lemma apply_wf s m :
  store_wf s → mutation_ok m → st_revision s < u64_max →
  store_wf (apply s m) ∧ st_revision s <= st_revision (apply s m) <= st_revision s + 1.
Proof.
  intros Hwf Hm Hr. pose proof Hwf as [Hl Hc Hi Hrec Hs Hg Hrev].
  assert (∀ f, store_wf (set_records (List.filter f (st_records s))
    (if len (List.filter f (st_records s)) =? len (st_records s) then st_revision s else st_revision s + 1) s))
    as Hfilter.
  { intros f. split; simpl; try done.
    - pose proof (list_filter_len f (st_records s)). lia.
    - by apply list_filter_ids.
    - rewrite Forall_forall in Hrec |- *. intros r Hx. apply Hrec. by eapply list_filter_sub.
    - case_match; lia. }
  destruct m as [r|id| |]; simpl.
  - change (match index_of _ _ with Some _ => _ | None => _ end) with (make_room (sr_id r) s).
    destruct (make_room_spec (sr_id r) s Hwf) as (H1 & H2 & H3 & H4). split; [|lia].
    split; simpl; try done; [| | |lia].
    + rewrite len_app, len_cons, len_nil. lia.
    + rewrite fmap_app. apply NoDup_app. split_and!; [done|set_solver|apply NoDup_singleton].
    + apply Forall_app. split; [|by apply Forall_singleton].
      rewrite Forall_forall in Hrec |- *. auto.
  - split; [apply Hfilter|]. case_match; lia.
  - split; [apply Hfilter|]. case_match; lia.
  - split; [|case_match; lia]. pose proof (Hfilter (λ _, false)) as Hf.
    assert (∀ l : list ProgramStatusRecord, List.filter (λ _, false) l = []) as He
      by (intros l; by induction l). rewrite He in Hf. exact Hf.
Qed.

Lemma apply_frame s m :
  st_identity (apply s m) = st_identity s ∧ st_generation (apply s m) = st_generation s
  ∧ st_limit (apply s m) = st_limit s ∧ st_scanner (apply s m) = st_scanner s.
Proof. by destruct m. Qed.

Lemma apply_all_wf ms s :
  store_wf s → Forall mutation_ok ms → st_revision s + len ms <= u64_max →
  let s' := foldl apply s ms in
  store_wf s' ∧ st_revision s' <= st_revision s + len ms
  ∧ st_identity s' = st_identity s ∧ st_generation s' = st_generation s ∧ st_limit s' = st_limit s.
Proof.
  intros Hs Hms. revert s Hs. induction Hms as [|m ms Hm _ IH]; intros s Hs; simpl.
  - rewrite len_nil. intros _. split_and!; (done || lia).
  - rewrite len_cons. intros Hr. pose proof (len_nonneg ms).
    destruct (apply_wf s m Hs Hm ltac:(lia)) as [H1 H2].
    destruct (apply_frame s m) as (E1 & E2 & E3 & _).
    destruct (IH (apply s m) H1 ltac:(lia)) as (H3 & H4 & H5 & H6 & H7).
    split_and!; [done|lia|congruence..].
Qed.

(** ** Histories of calls *)

Section histories.
Context `{L : Layout}.

Inductive store_op :=
  | S_scan (chunk : list Z)
  | S_commit (n : nat)
  | S_process_exited.

(** The store and the plans that are outstanding; [commit] consumes its plan. *)
Definition apply_store_op (op : store_op) (x : ProgramStatusStore * list ProgramStatusPlan)
    : ProgramStatusStore * list ProgramStatusPlan :=
  let (s, plans) := x in
  match op with
  | S_scan chunk =>
    match store_scan s chunk with Ok p => (s, plans ++ [p]) | Err _ => (s, plans) end
  | S_commit n =>
    match plans !! n with
    | Some p => ((commit p s).1, delete n plans)
    | None => (s, plans)
    end
  | S_process_exited => ((process_exited s).1, plans)
  end.
Definition run_store (ops : list store_op) (x : ProgramStatusStore * list ProgramStatusPlan) :=
  foldl (flip apply_store_op) x ops.

Lemma store_scan_Ok s chunk p :
  store_scan s chunk = Ok p →
  st_generation s ≠ u64_max ∧ st_revision s + len chunk + 1 <= u64_max
  ∧ p = {| pn_identity := st_identity s; pn_generation := st_generation s;
           pn_scanner := (scan (st_scanner s) chunk).1;
           pn_mutations := (scan (st_scanner s) chunk).2.1;
           pn_queries := (scan (st_scanner s) chunk).2.2 |}.
Proof.
  unfold store_scan, scan_reservation. destruct (MAX_SCAN_BYTES <? len chunk); [done|].
  unfold mbind, result_bind. destruct (_ || _) eqn:E; [done|].
  apply orb_false_iff in E as [E1 E2]. to_props. destruct (scan (st_scanner s) chunk).
  intros [= <-]. split_and!; (done || lia).
Qed.

Lemma store_scan_wf s chunk p : store_wf s → store_scan s chunk = Ok p → plan_wf s p.
Proof.
  intros Hwf Hp. apply store_scan_Ok in Hp as (Hg & Hr & ->).
  rewrite scan_spec. destruct (spec_scan_bounds (st_scanner s) chunk 0) as (Hs & Hc & _).
  pose proof (spec_scan_ok (st_scanner s) chunk 0) as Hok. destruct Hwf.
  split; simpl; [done|auto|lia|]. intros _ _. unfold emitted_count in Hc.
  pose proof (len_nonneg (spec_scan (st_scanner s) chunk 0).2.2). lia.
Qed.

(** A plan outlives any later generation as a stale one. *)
Lemma plan_wf_later s s' p :
  st_identity s' = st_identity s → st_generation s' = st_generation s + 1 →
  plan_wf s p → plan_wf s' p.
Proof.
  intros Hi Hg []. split; [done|done| |]; rewrite Hi, Hg; intros Hp; specialize (pk_generation0 Hp); lia.
Qed.

Lemma commit_wf p s :
  store_wf s → plan_wf s p →
  store_wf (commit p s).1
  ∧ ((commit p s).1 = s ∨ (st_identity (commit p s).1 = st_identity s
                            ∧ st_generation (commit p s).1 = st_generation s + 1)).
Proof.
  intros Hs []. unfold commit. case_match eqn:E; simpl; [auto|].
  apply orb_false_iff in E as [E1 E2]. to_props.
  destruct pk_room0 as [Hg Hr]; [congruence..|].
  destruct (apply_all_wf (pn_mutations p) s Hs pk_mutations0 Hr) as (H1 & H2 & H3 & H4 & H5).
  split; [|right; split; [done|by rewrite H4]].
  destruct H1. split; simpl; try done. rewrite H4 in *. destruct Hs. lia.
Qed.

Lemma process_exited_wf s :
  store_wf s →
  store_wf (process_exited s).1
  ∧ ((process_exited s).1 = s ∨ (st_identity (process_exited s).1 = st_identity s
                                  ∧ st_generation (process_exited s).1 = st_generation s + 1)).
Proof.
  intros Hs. unfold process_exited. case_match eqn:E; [auto|].
  apply orb_false_iff in E as [E1 E2]. to_props. pose proof Hs as [_ _ _ _ _ Hg Hr].
  destruct (apply_wf s Mutation_Exit Hs I ltac:(lia)) as [H1 H2].
  split; [|by right]. destruct H1. split; try done. simpl. lia.
Qed.

Lemma apply_store_wf op s plans :
  store_wf s → Forall (plan_wf s) plans →
  let x := apply_store_op op (s, plans) in store_wf x.1 ∧ Forall (plan_wf x.1) x.2.
Proof.
  intros Hs Hp. assert (∀ s' ps, (s' = s ∨ st_identity s' = st_identity s
    ∧ st_generation s' = st_generation s + 1) → Forall (plan_wf s) ps → Forall (plan_wf s') ps) as Hlater.
  { intros s' ps [->|[Hi Hg]] Hps; [done|]. eapply Forall_impl; [done|]. intros q. by apply plan_wf_later. }
  destruct op as [chunk|n|]; simpl.
  - destruct (store_scan s chunk) as [p|e] eqn:E; simpl; [|done]. split; [done|].
    apply Forall_app. split; [done|]. apply Forall_singleton. by eapply store_scan_wf.
  - destruct (plans !! n) as [p|] eqn:E; simpl; [|done].
    destruct (commit_wf p s Hs (Forall_lookup_1 _ _ _ _ Hp E)) as [H1 H2]. split; [done|].
    apply Hlater; [done|]. by apply Forall_delete.
  - destruct (process_exited_wf s Hs) as [H1 H2]. auto.
Qed.

Lemma run_store_wf ops s plans :
  store_wf s → Forall (plan_wf s) plans →
  let x := run_store ops (s, plans) in store_wf x.1 ∧ Forall (plan_wf x.1) x.2.
Proof.
  revert s plans. induction ops as [|op ops IH]; intros s plans Hs Hp; [done|].
  pose proof (apply_store_wf op s plans Hs Hp) as [H1 H2].
  change (run_store (op :: ops) (s, plans)) with (run_store ops (apply_store_op op (s, plans))).
  destruct (apply_store_op op (s, plans)) as [s' plans']. by apply IH.
Qed.

Lemma store_new_wf identity limit s : ProgramStatusStore_new identity limit = Ok s → store_wf s.
Proof.
  unfold ProgramStatusStore_new. case_match eqn:E; [done|]. intros [= <-]. apply negb_false_iff in E.
  apply in_range_spec in E. split; simpl; [lia|rewrite len_nil; lia|apply NoDup_nil_2|apply Forall_nil_2|
    apply scanner_wf_default|done|done].
Qed.

(** Scan and commit, as the projection worker does with each fed chunk. *)
Definition feed (chunk : list Z) : action ProgramStatusStore ProgramStatusError () := λ s,
  match store_scan s chunk with
  | Ok p => commit p s
  | Err e => (s, Err e)
  end.
Fixpoint feed_all (chunks : list (list Z)) : action ProgramStatusStore ProgramStatusError () :=
  match chunks with
  | [] => mret tt
  | chunk :: chunks => feed chunk;; feed_all chunks
  end.

Lemma feed_Ok chunk s s' :
  feed chunk s = (s', Ok tt) →
  let (scanner, e) := scan (st_scanner s) chunk in
  let t := foldl apply s e.1 in
  st_scanner s' = scanner ∧ st_records s' = st_records t ∧ st_revision s' = st_revision t
  ∧ st_limit s' = st_limit t.
Proof.
  unfold feed. destruct (store_scan s chunk) as [p|] eqn:E; [|done].
  apply store_scan_Ok in E as (_ & _ & ->). unfold commit; simpl. rewrite !Z.eqb_refl. simpl.
  destruct (scan (st_scanner s) chunk) as [sc e]. by intros [= <-].
Qed.

(** [apply] reads the records, the revision and the limit only. *)
Definition same_records (s t : ProgramStatusStore) : Prop :=
  st_records s = st_records t ∧ st_revision s = st_revision t ∧ st_limit s = st_limit t.

Lemma apply_same s t m : same_records s t → same_records (apply s m) (apply t m).
Proof. intros (H1 & H2 & H3). destruct m; unfold same_records; simpl; by rewrite H1, H2, ?H3. Qed.
Lemma apply_all_same ms s t : same_records s t → same_records (foldl apply s ms) (foldl apply t ms).
Proof. revert s t. induction ms as [|m ms IH]; intros s t H; simpl; [done|]. by apply IH, apply_same. Qed.

End histories.

(** ** Ancestors *)

(** The identifiers whose application [id] inherits: itself, each prefix that
    ends before a separator, and the root. *)
Definition is_ancestor (a id : list Z) : Prop :=
  a = id ∨ a = [] ∨ ∃ t, id = a ++ 47 :: t.

Lemma is_ancestor_parent a id :
  id ≠ [] → (is_ancestor a id ↔ a = id ∨ is_ancestor a (parent id)).
Proof.
  intros Hne. unfold parent. destruct (rsplit_once 47 id) as [[p t]|] eqn:E.
  - apply rsplit_once_Some in E as [-> Ht]. split.
    + intros [->|[->|[u Hu]]]; [by left|right; by right; left|right].
      destruct (decide (length a < length p)%nat) as [Hl|Hl].
      * right; right. exists (drop (S (length a)) p).
        apply (f_equal (take (length p))) in Hu as Hp. rewrite take_app_length in Hp.
        rewrite Hp at 1. rewrite take_app_ge by lia.
        replace (length p - length a)%nat with (S (length p - S (length a))) by lia. simpl. f_equal. f_equal.
        apply (f_equal (drop (S (length a)))) in Hp as Hd. rewrite take_app_ge in Hd by lia.
        replace (length p - length a)%nat with (S (length p - S (length a))) in Hd by lia.
        simpl in Hd. rewrite drop_app_ge in Hd by lia.
        replace (S (length a) - length a)%nat with 1%nat in Hd by lia. done.
      * apply app_eq_inv in Hu as [(k & -> & Hk)|(k & -> & Hk)].
        { rewrite length_app in Hl. destruct k as [|x k]; [|simpl in Hl; lia].
          rewrite app_nil_r. by left. }
        destruct k as [|x k]; simpl in Hk; [rewrite app_nil_r; by left|].
        injection Hk as <- ->. exfalso. apply Ht. apply elem_of_app. right. by left.
    + intros [->|[->|[->|[u ->]]]]; [by left|right; right; by eexists|by right; left|].
      right; right. exists (u ++ 47 :: t). by rewrite <-app_assoc.
  - apply rsplit_once_None in E. split.
    + intros [->|[->|[u ->]]]; [by left|right; by left|]. exfalso. apply E. apply elem_of_app. right. by left.
    + intros [->|[->|[->|[u Hu]]]]; [by left|by right; left|by right; left|].
      by destruct a.
Qed.

Lemma parent_shorter id : id ≠ [] → (length (parent id) < length id)%nat.
Proof.
  intros Hne. unfold parent. destruct (rsplit_once 47 id) as [[p t]|] eqn:E.
  - apply rsplit_once_Some in E as [-> _]. rewrite length_app. simpl. lia.
  - destruct id; [done|simpl; lia].
Qed.

Lemma is_ancestor_length a id : is_ancestor a id → (length a <= length id)%nat.
Proof. intros [->|[->|[t ->]]]; [done|simpl; lia|rewrite length_app; lia]. Qed.

(** [resolve] finds the application of the longest ancestor that has one. *)
Lemma resolve_spec fuel rs id :
  (length id < fuel)%nat →
  match resolve fuel rs id with
  | Some app => ∃ a, is_ancestor a id ∧ app_of rs a = Some app
      ∧ ∀ b, is_ancestor b id → (length a < length b)%nat → app_of rs b = None
  | None => ∀ a, is_ancestor a id → app_of rs a = None
  end.
Proof.
  revert id. induction fuel as [|fuel IH]; intros id Hf; [lia|]. simpl.
  destruct (app_of rs id) as [app|] eqn:E.
  { exists id. split_and!; [by left|done|]. intros b Hb%is_ancestor_length. lia. }
  destruct (Z.eqb_spec (len id) 0) as [Hz|Hz].
  { apply len_zero in Hz as ->. intros a [->|[->|[t Ht]]]; [done|done|by destruct a]. }
  assert (id ≠ []) as Hne by (intros ->; by rewrite len_nil in Hz).
  pose proof (parent_shorter id Hne). specialize (IH (parent id) ltac:(lia)).
  destruct (resolve fuel rs (parent id)) as [app|].
  - destruct IH as (a & Ha & Happ & Hlong). exists a.
    split_and!; [by apply is_ancestor_parent; [|right]|done|].
    intros b Hb Hlt. apply is_ancestor_parent in Hb as [->|Hb]; [done| |done]. by apply Hlong.
  - intros a Ha. apply is_ancestor_parent in Ha as [->|Ha]; [done| |done]. by apply IH.
Qed.

Lemma app_of_Some rs id app :
  NoDup (sr_id <$> rs) →
  (app_of rs id = Some app ↔ ∃ r, r ∈ rs ∧ sr_id r = id ∧ sr_app r = Some app).
Proof.
  intros Hn. unfold app_of. split.
  - intros (r & Hr & Ha)%bind_Some. apply find_some in Hr as [Hin Hid]. unfold has_id in Hid.
    to_props. exists r. by rewrite list_elem_of_In.
  - intros (r & Hin & <- & Ha). destruct (List.find (has_id (sr_id r)) rs) as [q|] eqn:E; simpl.
    + apply find_some in E as [Hq Hid]. unfold has_id in Hid. to_props.
      apply list_elem_of_In in Hq. apply list_elem_of_lookup in Hin as [i Hi], Hq as [k Hk].
      assert (i = k) as ->.
      { eapply (NoDup_lookup _ _ _ (sr_id r) Hn); rewrite list_lookup_fmap;
          [by rewrite Hi|by rewrite Hk; simpl; rewrite Hid]. }
      congruence.
    + apply list_elem_of_In in Hin. eapply find_none in E; [|done]. unfold has_id in E.
      by rewrite bool_decide_eq_true_2 in E.
Qed.

(** ** Properties *)

(** the store stays well formed.  After any history of scans, commits of
    outstanding plans in any order, and process exits, there are at most the
    configured number of records, no two share an identifier, each is within
    the parser's bounds, and neither counter overflows; and once a commit or an
    exit has moved the generation, every plan that was outstanding is refused
    as stale and changes nothing. *)
Theorem store_history_wf `{L : Layout} identity limit s0 ops op :
  ProgramStatusStore_new identity limit = Ok s0 →
  let x := run_store ops (s0, []) in
  let y := apply_store_op op x in
  store_wf x.1
  ∧ (st_generation y.1 ≠ st_generation x.1 →
     ∀ p, p ∈ y.2 → pn_identity p = st_identity y.1 →
       commit p y.1 = (y.1, Err ProgramStatusError_StalePlan)).
Proof.
  intros Hnew x y. apply store_new_wf in Hnew.
  assert (store_wf x.1 ∧ Forall (plan_wf x.1) x.2) as [Hs Hp]
    by (by apply run_store_wf; [|apply Forall_nil_2]).
  split; [done|]. unfold y. destruct x as [s plans]. cbn [fst snd] in *. intros Hg p Hin Hid.
  assert (st_identity (apply_store_op op (s, plans)).1 = st_identity s
    ∧ st_generation s < st_generation (apply_store_op op (s, plans)).1 ∧ p ∈ plans) as (Ei & Egt & Hpl).
  { destruct op as [chunk|n|]; simpl in *.
    - destruct (store_scan s chunk); done.
    - destruct (plans !! n) as [q|] eqn:E; [|done]. simpl in *.
      destruct (commit_wf q s Hs (Forall_lookup_1 _ _ _ _ Hp E)) as [_ [He|[? ?]]]; [by rewrite He in Hg|].
      split_and!; [done|lia|]. by eapply elem_of_delete.
    - destruct (process_exited_wf s Hs) as [_ [He|[? ?]]]; [by rewrite He in Hg|].
      split_and!; [done|lia|done]. }
  rewrite Forall_forall in Hp. destruct (Hp p Hpl). unfold commit.
  rewrite Ei in Hid. specialize (pk_generation0 Hid).
  rewrite (proj2 (Z.eqb_neq (st_generation _) _)) by lia. by rewrite orb_true_r.
Qed.

(** C32: the store depends on the stream, not on its chunks.  When a stream is
    fed chunk by chunk and every commit succeeds, the records, their order and
    the revision are those of applying the mutations of one scan of the whole
    stream, and the scanner is where that scan ends. *)
Theorem store_follows_stream `{L : Layout} s chunks s' :
  feed_all chunks s = (s', Ok tt) →
  let (scanner, e) := scan (st_scanner s) (concat chunks) in
  let t := foldl apply s e.1 in
  st_scanner s' = scanner ∧ st_records s' = st_records t ∧ st_revision s' = st_revision t.
Proof.
  revert s. induction chunks as [|c chunks IH]; intros s; simpl.
  - intros [= <-]. rewrite scan_spec. done.
  - intros Hf. unfold mbind, action_bind in Hf.
    destruct (feed c s) as [s1 [[]|e]] eqn:E1; [|done]. specialize (IH s1 Hf). apply feed_Ok in E1.
    rewrite scan_spec, spec_scan_app, <-scan_spec.
    destruct (scan (st_scanner s) c) as [sc1 e1]. destruct E1 as (E1 & E2 & E3 & E4).
    rewrite scan_spec, E1 in IH. rewrite (spec_scan_shift sc1 (concat chunks) (len c) 0).
    destruct (spec_scan sc1 (concat chunks) 0) as [sc2 e2]. simpl in *.
    destruct IH as (H1 & H2 & H3). rewrite foldl_app.
    destruct (apply_all_same e2.1 s1 (foldl apply s e1.1)) as (H4 & H5 & H6); [done|].
    split_and!; congruence.
Qed.

(** a snapshot inherits applications from the nearest ancestor.  Every
    record of the store appears in order; its resolved application is the one
    named by the longest ancestor identifier, itself included, whose record
    names one, and there is none exactly when no ancestor names any. *)
Theorem snapshot_resolves_nearest s r :
  store_wf s → r ∈ st_records s →
  let names a app := ∃ q, q ∈ st_records s ∧ sr_id q = a ∧ sr_app q = Some app in
  ∃ resolved, with_resolved resolved r ∈ sn_records (records s)
  ∧ length (sn_records (records s)) = length (st_records s)
  ∧ match resolved with
    | Some app => ∃ a, is_ancestor a (sr_id r) ∧ names a app
        ∧ ∀ b app', is_ancestor b (sr_id r) → names b app' → (length b <= length a)%nat
    | None => ∀ a app, is_ancestor a (sr_id r) → ¬ names a app
    end.
Proof.
  intros Hwf Hr names. pose proof (sk_ids _ Hwf) as Hn.
  exists (resolve (resolve_fuel (sr_id r)) (st_records s) (sr_id r)). split_and!.
  - simpl. apply list_elem_of_fmap. by exists r.
  - simpl. by rewrite length_fmap.
  - pose proof (resolve_spec (resolve_fuel (sr_id r)) (st_records s) (sr_id r)
      ltac:(unfold resolve_fuel; lia)) as H.
    assert (∀ a app, names a app ↔ app_of (st_records s) a = Some app) as Hnames
      by (intros; by rewrite app_of_Some).
    destruct (resolve _ _ _) as [app|].
    + destruct H as (a & Ha & Happ & Hlong). exists a. rewrite Hnames. split_and!; [done|done|].
      intros b app' Hb Happ'. apply Hnames in Happ'.
      destruct (decide (length a < length b)%nat); [|lia]. by rewrite Hlong in Happ'.
    + intros a app Ha Happ. apply Hnames in Happ. by rewrite H in Happ.
Qed.

(** *** Witnesses *)

Definition demo_store : ProgramStatusStore := ProgramStatusStore_default 1.
(** Two reports; the second chunk starts in the middle of the first sequence. *)
Definition demo_chunks : list (list Z) :=
  [[27; 93] ++ bs "7501;state=idle:app=vim"; [7; 27; 93] ++ bs "7501;state=working:id=a" ++ [7]].
Definition demo_store_after : ProgramStatusStore :=
  (feed_all (L := demo_layout) demo_chunks demo_store).1.

(** Two plans of one generation: the first commits, the second is stale. *)
Lemma store_history_wf_witness :
  let s0 := {| st_identity := 1; st_generation := 0; st_scanner := Scanner_default;
               st_records := []; st_revision := 0; st_limit := 64 |} in
  let x := run_store (L := demo_layout) [S_scan [120]; S_scan [121]] (s0, []) in
  let y := apply_store_op (L := demo_layout) (S_commit 0) x in
  Forall (λ p, commit p y.1 = (y.1, Err ProgramStatusError_StalePlan)) y.2.
Proof.
  intros s0 x y. apply Forall_forall. intros p Hp.
  refine (proj2 (store_history_wf (L := demo_layout) 1 64 s0 [S_scan [120]; S_scan [121]] (S_commit 0) _)
            _ p Hp _).
  - reflexivity.
  - vm_compute. discriminate.
  - vm_compute in Hp. apply elem_of_cons in Hp as [->|Hp]; [reflexivity|by apply elem_of_nil in Hp].
Defined.

Lemma store_follows_stream_witness :
  st_revision demo_store_after = 2
  ∧ st_records demo_store_after
    = st_records (foldl apply demo_store (scan Scanner_default (concat demo_chunks)).2.1).
Proof.
  assert (feed_all (L := demo_layout) demo_chunks demo_store = (demo_store_after, Ok tt)) as Hf
    by (vm_compute; reflexivity).
  pose proof (store_follows_stream (L := demo_layout) demo_store demo_chunks demo_store_after Hf) as H.
  change (st_scanner demo_store) with Scanner_default in H.
  destruct (scan Scanner_default (concat demo_chunks)) as [sc e]. destruct H as (_ & H & _).
  split; [vm_compute; reflexivity|exact H].
Defined.

(** The record [a] inherits the root's application. *)
Definition demo_child : ProgramStatusRecord := {|
  sr_id := bs "a"; sr_state := Working; sr_app := None; sr_resolved_app := None;
  sr_kind := None; sr_progress := None; sr_msg := None; sr_title := None |}.

Lemma snapshot_resolves_nearest_witness :
  let s := (run_store (L := demo_layout) [S_scan (concat demo_chunks); S_commit 0] (demo_store, [])).1 in
  demo_child ∈ st_records s
  ∧ ∃ resolved, with_resolved resolved demo_child ∈ sn_records (records s).
Proof.
  intros s. assert (st_records s !! 1%nat = Some demo_child) as Hs by (vm_compute; reflexivity).
  apply list_elem_of_lookup_2 in Hs. split; [exact Hs|].
  destruct (snapshot_resolves_nearest s demo_child) as (resolved & H & _); [|exact Hs|].
  - apply (run_store_wf (L := demo_layout)); [|constructor].
    apply (store_new_wf 1 256). unfold ProgramStatusStore_new. reflexivity.
  - exists resolved. exact H.
Defined.
