(* ===== verification/LittleEndian.v ===== *)
(** * Little-endian integers

    [to_le_bytes] and [from_le_bytes] of the unsigned and signed integers the
    wire formats use. *)

From S2P Require Import Prelude.

(** The [n] low bytes of [v], least significant first. *)
Fixpoint le_bytes (n : nat) (v : Z) : list Z :=
  match n with O => [] | S n => v mod 256 :: le_bytes n (v / 256) end.
Fixpoint le_value (bytes : list Z) : Z :=
  match bytes with [] => 0 | b :: bytes => b + 256 * le_value bytes end.

(** An [i32] and its two's complement. *)
Definition i32_wf (v : Z) : Prop := -2147483648 <= v <= 2147483647.
Definition i32_bytes (v : Z) : list Z := le_bytes 4 (v mod 4294967296).
Definition i32_value (bytes : list Z) : Z :=
  let u := le_value bytes in if u <? 2147483648 then u else u - 4294967296.

Lemma length_le_bytes n v : length (le_bytes n v) = n.
Proof. revert v. induction n; intros v; simpl; [done|]. by f_equal. Qed.

Lemma len_le_bytes n v : len (le_bytes n v) = Z.of_nat n.
Proof. unfold len. by rewrite length_le_bytes. Qed.

Lemma le_bytes_wf n v : Forall is_byte (le_bytes n v).
Proof.
  revert v. induction n as [|n IH]; intros v; simpl; constructor; [|done].
  unfold is_byte. pose proof (Z.mod_pos_bound v 256). lia.
Qed.

Lemma le_value_bytes n v : 0 <= v < 256 ^ Z.of_nat n → le_value (le_bytes n v) = v.
Proof.
  revert v. induction n as [|n IH]; intros v Hv; simpl; [change (256 ^ Z.of_nat 0) with 1 in Hv; lia|].
  rewrite IH; [Z.div_mod_to_equations; lia|].
  rewrite Nat2Z.inj_succ, Z.pow_succ_r in Hv by lia.
  split; [apply Z.div_pos; lia|]. apply Z.div_lt_upper_bound; lia.
Qed.

Lemma le_value_range bytes :
  Forall is_byte bytes → 0 <= le_value bytes < 256 ^ len bytes.
Proof.
  induction 1 as [|b bytes Hb _ IH]; [done|]. cbn [le_value]. rewrite len_cons.
  rewrite Z.add_comm, Z.pow_add_r by (pose proof (len_nonneg bytes); lia).
  unfold is_byte in Hb. change (256 ^ 1) with 256. nia.
Qed.

Lemma le_bytes_value bytes : Forall is_byte bytes → le_bytes (length bytes) (le_value bytes) = bytes.
Proof.
  induction 1 as [|b bytes Hb _ IH]; [done|]. cbn [le_value length le_bytes]. unfold is_byte in Hb.
  replace (b + 256 * le_value bytes) with (b + le_value bytes * 256) by lia.
  rewrite Z.mod_add, Z.div_add, Z.mod_small, Z.div_small, Z.add_0_l by lia. by rewrite IH.
Qed.

Lemma i32_value_bytes v : i32_wf v → i32_value (i32_bytes v) = v.
Proof.
  unfold i32_wf, i32_value, i32_bytes. intros Hv.
  rewrite le_value_bytes by (apply Z.mod_pos_bound; done).
  destruct (Z_lt_le_dec v 0).
  - replace (v mod 4294967296) with (v + 4294967296) by (Z.div_mod_to_equations; lia).
    rewrite (proj2 (Z.ltb_ge _ _)) by lia. lia.
  - rewrite Z.mod_small by lia. by rewrite (proj2 (Z.ltb_lt _ _)) by lia.
Qed.

Lemma i32_bytes_value bytes : Forall is_byte bytes → len bytes = 4 → i32_bytes (i32_value bytes) = bytes.
Proof.
  intros Hb Hl. pose proof (le_value_range bytes Hb) as Hr. rewrite Hl in Hr.
  change (256 ^ 4) with 4294967296 in Hr. unfold i32_bytes, i32_value.
  assert (length bytes = 4%nat) as Hn by (unfold len in Hl; lia).
  set (u := le_value bytes) in *.
  assert ((if u <? 2147483648 then u else u - 4294967296) mod 4294967296 = u) as ->.
  { case_match; to_props; [by rewrite Z.mod_small by lia|]. Z.div_mod_to_equations. lia. }
  rewrite <-Hn. by apply le_bytes_value.
Qed.

Lemma i32_value_wf bytes : Forall is_byte bytes → len bytes = 4 → i32_wf (i32_value bytes).
Proof.
  intros Hb Hl. pose proof (le_value_range bytes Hb) as Hr. rewrite Hl in Hr.
  change (256 ^ 4) with 4294967296 in Hr. unfold i32_wf, i32_value. case_match; to_props; lia.
Qed.
