(* ===== verification/EventCodec.v ===== *)
(** * The event-stream codec (crates/infrastructure/src/event_stream/
      codec.rs, status.rs, errors.rs)

    Versioned binary records of output pages, gaps and completions.  The
    enclosing event record belongs to the external [event_stream] crate: the
    parts of it the decoder looks at are the fields of [EventRecord]. *)

From S2P Require Import Prelude Identity Replay Process Terminal Checkpoint Projection Session.
From S2P Require Import LittleEndian.

(** ** Errors (errors.rs) *)

Inductive SinkFailure :=
  | SinkFailure_Capacity | SinkFailure_CommitUnknown | SinkFailure_IdempotencyConflict
  | SinkFailure_Unavailable | SinkFailure_Other.

Inductive PublicationError :=
  | PublicationError_Source (e : RuntimeError)
  | PublicationError_Capacity
  | PublicationError_InvalidRecord
  | PublicationError_Sink (f : SinkFailure).

(** ** Stable codes (status.rs) *)

Definition process_code (e : ProcessError) : Z :=
  match e with
  | ProcessError_InvalidCommand => 1 | ProcessError_OutsideRoots => 2
  | ProcessError_Capacity => 3 | ProcessError_Closed => 4
  | ProcessError_PermissionDenied => 5 | ProcessError_NotFound => 6
  | ProcessError_Timeout => 7 | ProcessError_Unsupported => 8
  | ProcessError_Io => 9 | ProcessError_Internal => 10
  end.
Definition process_from (code : Z) : result PublicationError ProcessError :=
  match code with
  | 1 => Ok ProcessError_InvalidCommand | 2 => Ok ProcessError_OutsideRoots
  | 3 => Ok ProcessError_Capacity | 4 => Ok ProcessError_Closed
  | 5 => Ok ProcessError_PermissionDenied | 6 => Ok ProcessError_NotFound
  | 7 => Ok ProcessError_Timeout | 8 => Ok ProcessError_Unsupported
  | 9 => Ok ProcessError_Io | 10 => Ok ProcessError_Internal
  | _ => Err PublicationError_InvalidRecord
  end.
Definition terminal_code (e : TerminalError) : Z :=
  match e with
  | TerminalError_InvalidConfiguration => 1 | TerminalError_BudgetExceeded => 2
  | TerminalError_EngineFailure => 3 | TerminalError_CorruptCheckpoint => 4
  | TerminalError_IncompatibleCheckpoint => 5 | TerminalError_StaleControl => 6
  | TerminalError_HistoryIncomplete => 7 | TerminalError_Unsupported => 8
  end.
Definition terminal_from (code : Z) : result PublicationError TerminalError :=
  match code with
  | 1 => Ok TerminalError_InvalidConfiguration | 2 => Ok TerminalError_BudgetExceeded
  | 3 => Ok TerminalError_EngineFailure | 4 => Ok TerminalError_CorruptCheckpoint
  | 5 => Ok TerminalError_IncompatibleCheckpoint | 6 => Ok TerminalError_StaleControl
  | 7 => Ok TerminalError_HistoryIncomplete | 8 => Ok TerminalError_Unsupported
  | _ => Err PublicationError_InvalidRecord
  end.
Definition checkpoint_code (e : CheckpointError) : Z :=
  match e with
  | CheckpointError_InvalidConfiguration => 1 | CheckpointError_CapacityExceeded => 2
  | CheckpointError_AlreadyExists => 3 | CheckpointError_NotFound => 4
  | CheckpointError_Unavailable => 5 | CheckpointError_AuthenticationFailed => 6
  | CheckpointError_EntropyUnavailable => 7 | CheckpointError_Cancelled => 8
  end.
Definition checkpoint_from (code : Z) : result PublicationError CheckpointError :=
  match code with
  | 1 => Ok CheckpointError_InvalidConfiguration | 2 => Ok CheckpointError_CapacityExceeded
  | 3 => Ok CheckpointError_AlreadyExists | 4 => Ok CheckpointError_NotFound
  | 5 => Ok CheckpointError_Unavailable | 6 => Ok CheckpointError_AuthenticationFailed
  | 7 => Ok CheckpointError_EntropyUnavailable | 8 => Ok CheckpointError_Cancelled
  | _ => Err PublicationError_InvalidRecord
  end.
Definition runtime_code (e : RuntimeError) : Z :=
  match e with
  | RuntimeError_ExistingSession => 1 | RuntimeError_MissingSession => 2
  | RuntimeError_Capacity => 3 | RuntimeError_Closed => 4
  | RuntimeError_NotFinished => 5 | RuntimeError_InvalidCursor => 6
  | RuntimeError_Internal => 7
  | RuntimeError_Process error => 100 + process_code error
  | RuntimeError_Projection error =>
    match error with
    | ProjectionError_Capacity => 201 | ProjectionError_InvalidConfiguration => 202
    | ProjectionError_Closed => 203 | ProjectionError_Worker => 204
    | ProjectionError_Terminal error => 300 + terminal_code error
    | ProjectionError_Storage error => 400 + checkpoint_code error
    | ProjectionError_Process error => 500 + process_code error
    end
  end.
Definition in_codes (lo hi code : Z) : bool := (lo <=? code) && (code <=? hi).
Definition runtime_from (code : Z) : result PublicationError RuntimeError :=
  if code =? 1 then Ok RuntimeError_ExistingSession
  else if code =? 2 then Ok RuntimeError_MissingSession
  else if code =? 3 then Ok RuntimeError_Capacity
  else if code =? 4 then Ok RuntimeError_Closed
  else if code =? 5 then Ok RuntimeError_NotFinished
  else if code =? 6 then Ok RuntimeError_InvalidCursor
  else if code =? 7 then Ok RuntimeError_Internal
  else if in_codes 101 110 code then RuntimeError_Process <$> process_from (code - 100)
  else if code =? 201 then Ok (RuntimeError_Projection ProjectionError_Capacity)
  else if code =? 202 then Ok (RuntimeError_Projection ProjectionError_InvalidConfiguration)
  else if code =? 203 then Ok (RuntimeError_Projection ProjectionError_Closed)
  else if code =? 204 then Ok (RuntimeError_Projection ProjectionError_Worker)
  else if in_codes 301 308 code then
    (λ e, RuntimeError_Projection (ProjectionError_Terminal e)) <$> terminal_from (code - 300)
  else if in_codes 401 408 code then
    (λ e, RuntimeError_Projection (ProjectionError_Storage e)) <$> checkpoint_from (code - 400)
  else if in_codes 501 510 code then
    (λ e, RuntimeError_Projection (ProjectionError_Process e)) <$> process_from (code - 500)
  else Err PublicationError_InvalidRecord.

(** ** The cursor over the payload (codec.rs) *)

Definition input_take (count : Z) : action (list Z) PublicationError (list Z) := λ input,
  if len input <? count then (input, Err PublicationError_InvalidRecord)
  else (drop (Z.to_nat count) input, Ok (take (Z.to_nat count) input)).
Definition input_byte : action (list Z) PublicationError Z :=
  b ← input_take 1; mret (hd 0 b).
Definition input_u16 : action (list Z) PublicationError Z :=
  b ← input_take 2; mret (le_value b).
Definition input_u64 : action (list Z) PublicationError Z :=
  b ← input_take 8; mret (le_value b).

(** ** Records *)

Definition SCHEMA : list Z := bs "nessalabs.pty-runtime.output".
Definition VERSION : Z := 1.
Definition MAGIC : list Z := bs "PTYR".
Definition MAX_PAGE : Z := 65536.
Definition MAX_ENCODED : Z := MAX_PAGE + 64.

Record DecodedOutput := { do_byte_cursor : ReplayCursor; do_output : OutputEvent }.

(** What [decode_record] reads of an [event_stream::Record]. *)
Record EventRecord := {
  er_schema_id : list Z;
  er_schema_version : Z;
  er_cursor_version : Z;
  er_cursor_offset : Z;
  er_payload : list Z
}.

Definition decode_completion : action (list Z) PublicationError Completion :=
  exit_tag ← input_byte;
  exit_bytes ← input_take 4;
  let exit_code := i32_value exit_bytes in
  exit ← lift (match exit_tag with
               | 0 => if exit_code =? 0 then Ok None else Err PublicationError_InvalidRecord
               | 1 => Ok (Some (ExitStatus_Code exit_code))
               | 2 => Ok (Some (ExitStatus_Signal exit_code))
               | _ => Err PublicationError_InvalidRecord
               end);
  drain_tag ← input_byte;
  drain_code ← input_u16;
  drain ← lift (match drain_tag with
                | 0 => if drain_code =? 0 then Ok None else Err PublicationError_InvalidRecord
                | 1 => if drain_code =? 0 then Ok (Some DrainOutcome_Eof)
                       else Err PublicationError_InvalidRecord
                | 2 => if drain_code =? 0 then Ok (Some DrainOutcome_Truncated)
                       else Err PublicationError_InvalidRecord
                | 3 => (λ e, Some (DrainOutcome_Failed e)) <$> process_from drain_code
                | _ => Err PublicationError_InvalidRecord
                end);
  supervision ← input_u16;
  admission ← input_u16;
  cancellation ← input_byte;
  cancellation_requested ← lift (match cancellation with
                                 | 0 => Ok false
                                 | 1 => Ok true
                                 | _ => Err PublicationError_InvalidRecord
                                 end);
  supervision_error ← lift (if supervision =? 0 then Ok None else Some <$> process_from supervision);
  admission_error ← lift (if admission =? 0 then Ok None else Some <$> runtime_from admission);
  lift (ok_or (completion {|
    ss_exit := exit; ss_drain := drain; ss_supervision_error := supervision_error;
    ss_admission_error := admission_error;
    ss_cancellation_requested := cancellation_requested |}) PublicationError_InvalidRecord).

(** The [match tag] of [decode_record]. *)
Definition decode_body (tag : Z) (from next : ReplayCursor)
    : action (list Z) PublicationError OutputEvent := λ input,
  match tag with
  | 1 =>
    if (len input =? 0) || (MAX_PAGE <? len input)
       || bool_decide (checked_sub (rc_offset next) (rc_offset from) ≠ Some (len input))
    then (input, Err PublicationError_InvalidRecord)
    else (bytes ← input_take (len input); mret (Event_Replay (Page_Bytes from next bytes))) input
  | 2 => if rc_offset from <? rc_offset next then (input, Ok (Event_Replay (Page_Gap from next)))
         else (input, Err PublicationError_InvalidRecord)
  | 3 => if bool_decide (next = from) then (c ← decode_completion; mret (Event_Complete c)) input
         else (input, Err PublicationError_InvalidRecord)
  | _ => (input, Err PublicationError_InvalidRecord)
  end.

Definition decode_payload : action (list Z) PublicationError DecodedOutput :=
  magic ← input_take 4;
  reject_if (λ _, bool_decide (magic ≠ MAGIC)) PublicationError_InvalidRecord;;
  tag ← input_byte;
  owner ← input_u64;
  sequence ← input_u64;
  let lifetime := SessionLifetime_new owner sequence in
  from_offset ← input_u64;
  next_offset ← input_u64;
  let from := {| rc_lifetime := lifetime; rc_offset := from_offset |} in
  let next := {| rc_lifetime := lifetime; rc_offset := next_offset |} in
  output ← decode_body tag from next;
  reject_if (λ input, negb (len input =? 0)) PublicationError_InvalidRecord;;
  mret {| do_byte_cursor := next; do_output := output |}.

Section external.
(** [event_stream::CURSOR_VERSION]. *)
Variable CURSOR_VERSION : Z.

Definition decode_record (r : EventRecord) : result PublicationError DecodedOutput :=
  if bool_decide (er_schema_id r ≠ SCHEMA) || negb (er_schema_version r =? VERSION)
     || negb (er_cursor_version r =? CURSOR_VERSION) || (er_cursor_offset r =? 0)
  then Err PublicationError_InvalidRecord
  else if MAX_ENCODED <? len (er_payload r) then Err PublicationError_InvalidRecord
  else (decode_payload (er_payload r)).2.

End external.

(** ** Encoding *)

Definition encode_completion (c : Completion) : list Z :=
  let '(mk_Completion status) := c in
  let (tag, code) := match ss_exit status with
                     | None => (0, 0)
                     | Some (ExitStatus_Code code) => (1, code)
                     | Some (ExitStatus_Signal code) => (2, code)
                     end in
  let (dtag, dcode) := match ss_drain status with
                       | None => (0, 0)
                       | Some DrainOutcome_Eof => (1, 0)
                       | Some DrainOutcome_Truncated => (2, 0)
                       | Some (DrainOutcome_Failed error) => (3, process_code error)
                       end in
  [tag] ++ i32_bytes code ++ [dtag] ++ le_bytes 2 dcode
  ++ le_bytes 2 (match ss_supervision_error status with Some e => process_code e | None => 0 end)
  ++ le_bytes 2 (match ss_admission_error status with Some e => runtime_code e | None => 0 end)
  ++ [if ss_cancellation_requested status then 1 else 0].

(** The tag, the next cursor and the size of the body, for a valid event. *)
Definition event_header (from : ReplayCursor) (event : OutputEvent)
    : result PublicationError (Z * ReplayCursor * Z) :=
  match event with
  | Event_Replay (Page_Bytes start next bytes) =>
    if bool_decide (start = from) && bool_decide (rc_lifetime next = rc_lifetime from)
       && negb (len bytes =? 0) && (len bytes <=? MAX_PAGE)
       && bool_decide (checked_sub (rc_offset next) (rc_offset from) = Some (len bytes))
    then Ok (1, next, len bytes) else Err PublicationError_InvalidRecord
  | Event_Replay (Page_Gap start to) =>
    if bool_decide (start = from) && bool_decide (rc_lifetime to = rc_lifetime from)
       && (rc_offset from <? rc_offset to)
    then Ok (2, to, 0) else Err PublicationError_InvalidRecord
  | Event_Complete (mk_Completion status) =>
    if is_some (completion status) then Ok (3, from, 16) else Err PublicationError_InvalidRecord
  | Event_Replay Page_Pending => Err PublicationError_InvalidRecord
  end.

Section allocation.
(** Whether the allocation of that many bytes succeeds. *)
Variable reserve : Z → bool.

Definition encode (from : ReplayCursor) (event : OutputEvent)
    : result PublicationError (list Z * ReplayCursor * bool) :=
  match event_header from event with
  | Err e => Err e
  | Ok (tag, next, body) =>
    if negb (reserve (37 + body)) then Err PublicationError_Capacity
    else
      let encoded :=
        MAGIC ++ [tag]
        ++ le_bytes 8 (lt_owner (rc_lifetime from)) ++ le_bytes 8 (lt_sequence (rc_lifetime from))
        ++ le_bytes 8 (rc_offset from) ++ le_bytes 8 (rc_offset next)
        ++ match event with
           | Event_Replay (Page_Bytes _ _ bytes) => bytes
           | Event_Complete completion => encode_completion completion
           | _ => []
           end in
      Ok (encoded, next, tag =? 3)
  end.

End allocation.

(** ** Codes round trip *)

Lemma process_from_code e : process_from (process_code e) = Ok e.
Proof. by destruct e. Qed.
Lemma terminal_from_code e : terminal_from (terminal_code e) = Ok e.
Proof. by destruct e. Qed.
Lemma checkpoint_from_code e : checkpoint_from (checkpoint_code e) = Ok e.
Proof. by destruct e. Qed.
(** Every error, down to the constants. *)
Ltac enumerate_error :=
  repeat match goal with
  | e : ProcessError |- _ => destruct e
  | e : TerminalError |- _ => destruct e
  | e : CheckpointError |- _ => destruct e
  | e : ProjectionError |- _ => destruct e
  | e : RuntimeError |- _ => destruct e
  end.

Lemma runtime_from_code e : runtime_from (runtime_code e) = Ok e.
Proof. enumerate_error; reflexivity. Qed.

Ltac invert_code := intros H; split_tests.

Lemma process_code_from code e : process_from code = Ok e → process_code e = code.
Proof. unfold process_from. invert_code. Qed.
Lemma terminal_code_from code e : terminal_from code = Ok e → terminal_code e = code.
Proof. unfold terminal_from. invert_code. Qed.
Lemma checkpoint_code_from code e : checkpoint_from code = Ok e → checkpoint_code e = code.
Proof. unfold checkpoint_from. invert_code. Qed.
Lemma runtime_code_from code e : runtime_from code = Ok e → runtime_code e = code.
Proof.
  unfold runtime_from, fmap, result_fmap. intros H.
  repeat (case_match; simplify_eq; to_props; try done);
  match goal with
  | H : process_from _ = Ok _ |- _ => apply process_code_from in H
  | H : terminal_from _ = Ok _ |- _ => apply terminal_code_from in H
  | H : checkpoint_from _ = Ok _ |- _ => apply checkpoint_code_from in H
  end; cbn [runtime_code]; lia.
Qed.

Lemma process_code_range e : 1 <= process_code e <= 10.
Proof. destruct e; simpl; lia. Qed.
Lemma runtime_code_range e : 1 <= runtime_code e <= 510.
Proof. enumerate_error; simpl; lia. Qed.

(** ** Reading what was written, and what a read says of the input *)

Lemma input_take_app n a b : len a = n → input_take n (a ++ b) = (b, Ok a).
Proof.
  intros <-. unfold input_take. rewrite (proj2 (Z.ltb_ge _ _)) by len_lia.
  unfold len. rewrite Nat2Z.id. by rewrite drop_app_length, take_app_length.
Qed.

Lemma input_byte_cons b rest : input_byte (b :: rest) = (rest, Ok b).
Proof.
  unfold input_byte, mbind, action_bind. by rewrite (input_take_app 1 [b] rest eq_refl : input_take 1 (b :: rest) = _).
Qed.

Lemma input_u16_app v rest : 0 <= v < 65536 → input_u16 (le_bytes 2 v ++ rest) = (rest, Ok v).
Proof.
  intros Hv. unfold input_u16, mbind, mret, action_bind, action_ret.
  by rewrite (input_take_app 2), le_value_bytes by first [apply len_le_bytes | done].
Qed.

Lemma input_u64_app v rest :
  0 <= v <= u64_max → input_u64 (le_bytes 8 v ++ rest) = (rest, Ok v).
Proof.
  intros Hv. unfold input_u64, mbind, mret, action_bind, action_ret.
  rewrite (input_take_app 8), le_value_bytes; first [apply len_le_bytes | done | idtac].
  change (256 ^ Z.of_nat 8) with (u64_max + 1). lia.
Qed.

Lemma input_take_Ok n i i' a :
  0 <= n → input_take n i = (i', Ok a) → i = a ++ i' ∧ len a = n.
Proof.
  unfold input_take. intros Hn. case_match; to_props; [done|]. intros [= <- <-].
  split; [by rewrite take_drop|]. rewrite len_take by lia. lia.
Qed.

Lemma input_byte_Ok i i' b : input_byte i = (i', Ok b) → i = b :: i'.
Proof.
  unfold input_byte, mbind, mret, action_bind, action_ret.
  destruct (input_take 1 i) as [i1 [a|]] eqn:E; [|done]. intros H. simplify_eq.
  apply input_take_Ok in E as [-> Hl]; [|done]. destruct a as [|x [|y a]]; [done| done|].
  exfalso. rewrite !len_cons in Hl. pose proof (len_nonneg a). lia.
Qed.

Lemma input_le_Ok n i i' v :
  Forall is_byte i →
  (b ← input_take (Z.of_nat n); mret (le_value b)) i = (i', Ok v) →
  i = le_bytes n v ++ i' ∧ 0 <= v < 256 ^ Z.of_nat n.
Proof.
  intros Hi. unfold mbind, mret, action_bind, action_ret.
  destruct (input_take _ i) as [i1 [a|]] eqn:E; [|done]. intros H. simplify_eq.
  apply input_take_Ok in E as [-> Hl]; [|lia]. apply Forall_app in Hi as [Ha _].
  assert (length a = n) as <- by (unfold len in Hl; lia).
  rewrite le_bytes_value by done. split; [done|]. by apply le_value_range.
Qed.

(** ** Encoding, then decoding *)

(** The values of an event are of their types' widths. *)
Definition exit_wf (e : ExitStatus) : Prop :=
  match e with ExitStatus_Code c | ExitStatus_Signal c => i32_wf c end.
Definition completion_wf (c : Completion) : Prop :=
  let '(mk_Completion s) := c in
  match ss_exit s with Some e => exit_wf e | None => True end.
Definition event_wf (e : OutputEvent) : Prop :=
  match e with
  | Event_Replay (Page_Bytes from next bytes) =>
    cursor_wf from ∧ cursor_wf next ∧ Forall is_byte bytes
  | Event_Replay (Page_Gap from to) => cursor_wf from ∧ cursor_wf to
  | Event_Replay Page_Pending => True
  | Event_Complete c => completion_wf c
  end.

(** The next read of a decoder returns what lemma [H] says. *)
Tactic Notation "reads" uconstr(H) :=
  erewrite action_bind_Ok by (apply H; first [done | by apply len_le_bytes | lia]); cbv beta.

Lemma decode_completion_encoded c rest :
  completion_wf c → completion (let '(mk_Completion s) := c in s) = Some c →
  decode_completion (encode_completion c ++ rest) = (rest, Ok c).
Proof.
  destruct c as [[ex dr su ad ca]]; unfold completion_wf; cbn [ss_exit]. intros Hw Hc.
  unfold decode_completion, encode_completion. cbn [ss_exit ss_drain ss_supervision_error
    ss_admission_error ss_cancellation_requested].
  set (xt := match ex with Some (ExitStatus_Code c) => (1, c)
             | Some (ExitStatus_Signal c) => (2, c) | None => (0, 0) end).
  set (dt := match dr with Some DrainOutcome_Eof => (1, 0) | Some DrainOutcome_Truncated => (2, 0)
             | Some (DrainOutcome_Failed e) => (3, process_code e) | None => (0, 0) end).
  assert (i32_wf xt.2) as Hx by (subst xt; by destruct ex as [[]|]).
  assert (0 <= dt.2 < 65536) as Hd.
  { subst dt. destruct dr as [[| |e]|]; simpl; try done. pose proof (process_code_range e). lia. }
  set (sc := match su with Some e => process_code e | None => 0 end).
  assert (0 <= sc < 65536) as Hs.
  { subst sc. destruct su as [e|]; [pose proof (process_code_range e)|]; lia. }
  set (ac := match ad with Some e => runtime_code e | None => 0 end).
  assert (0 <= ac < 65536) as Ha.
  { subst ac. destruct ad as [e|]; [pose proof (runtime_code_range e)|]; lia. }
  rewrite (surjective_pairing xt), (surjective_pairing dt). rewrite <-!app_assoc.
  reads input_byte_cons. unfold i32_bytes. reads input_take_app.
  fold (i32_bytes xt.2). rewrite i32_value_bytes by done. cbn zeta.
  rewrite (action_bind_lift _ _ _ ex) by (subst xt; by destruct ex as [[]|]).
  cbn [app]. reads input_byte_cons. reads input_u16_app.
  rewrite (action_bind_lift _ _ _ dr)
    by (subst dt; destruct dr as [[| |e]|]; simpl; by rewrite ?process_from_code).
  reads input_u16_app. reads input_u16_app. reads input_byte_cons.
  rewrite (action_bind_lift _ _ _ ca) by (by destruct ca).
  rewrite (action_bind_lift _ _ _ su).
  2: { subst sc. destruct su as [e|]; [|done]. rewrite process_from_code.
       pose proof (process_code_range e). by rewrite (proj2 (Z.eqb_neq _ _)) by lia. }
  rewrite (action_bind_lift _ _ _ ad).
  2: { subst ac. destruct ad as [e|]; [|done]. rewrite runtime_from_code.
       pose proof (runtime_code_range e). by rewrite (proj2 (Z.eqb_neq _ _)) by lia. }
  unfold lift. by rewrite Hc.
Qed.

Lemma event_header_Ok from event tag next body :
  event_header from event = Ok (tag, next, body) →
  rc_lifetime next = rc_lifetime from ∧
  match event with
  | Event_Replay (Page_Bytes start to bytes) =>
    tag = 1 ∧ start = from ∧ to = next ∧ 0 < len bytes <= MAX_PAGE ∧ body = len bytes
    ∧ checked_sub (rc_offset next) (rc_offset from) = Some (len bytes)
  | Event_Replay (Page_Gap start to) =>
    tag = 2 ∧ start = from ∧ to = next ∧ rc_offset from < rc_offset next ∧ body = 0
  | Event_Complete c =>
    tag = 3 ∧ next = from ∧ body = 16
    ∧ completion (let '(mk_Completion s) := c in s) = Some c
  | Event_Replay Page_Pending => False
  end.
Proof.
  unfold event_header. intros H.
  destruct event as [[start to|start to bytes|]|[s]]; [| |done|].
  - case_match; [|done]. simplify_eq. by to_props.
  - case_match; [|done]. simplify_eq. to_props. len_facts. naive_solver lia.
  - case_match eqn:Hc; [|done]. simplify_eq. do 4 (split; [done|]).
    unfold completion in *. by case_match.
Qed.

Lemma len_encode_completion c : len (encode_completion c) = 13.
Proof.
  destruct c as [[ex dr su ad ca]]. cbn.
  by destruct ex as [[]|], dr as [[]|]; rewrite ?len_app, ?len_cons, ?len_app, ?len_le_bytes.
Qed.

Lemma decode_body_encoded from next event tag body :
  event_header from event = Ok (tag, next, body) → event_wf event →
  decode_body tag from next
    (match event with
     | Event_Replay (Page_Bytes _ _ bytes) => bytes
     | Event_Complete completion => encode_completion completion
     | _ => []
     end) = ([], Ok event).
Proof.
  intros Hh Hw. apply event_header_Ok in Hh as [_ Hh].
  destruct event as [[start to|start to bytes|]|c]; [| |done|].
  - destruct Hh as (-> & -> & -> & Hlt & _). unfold decode_body.
    by rewrite (proj2 (Z.ltb_lt _ _)).
  - destruct Hh as (-> & -> & -> & Hl & _ & Hs). unfold decode_body.
    rewrite (proj2 (Z.eqb_neq _ _)), (proj2 (Z.ltb_ge _ _)), Hs by lia.
    rewrite bool_decide_eq_false_2 by auto. cbn [orb].
    pose proof (input_take_app (len bytes) bytes [] eq_refl) as Ht. rewrite app_nil_r in Ht.
    by erewrite action_bind_Ok by exact Ht.
  - destruct Hh as (-> & -> & _ & Hc). unfold decode_body.
    rewrite bool_decide_eq_true_2 by done. rewrite <-(app_nil_r (encode_completion c)).
    by erewrite action_bind_Ok by (by apply decode_completion_encoded).
Qed.

(** The shape of a successful encoding. *)
Lemma encode_Ok reserve from event payload next done :
  encode reserve from event = Ok (payload, next, done) →
  ∃ tag body content,
    event_header from event = Ok (tag, next, body) ∧ done = (tag =? 3)
    ∧ content = match event with
                | Event_Replay (Page_Bytes _ _ bytes) => bytes
                | Event_Complete completion => encode_completion completion
                | _ => []
                end
    ∧ payload = MAGIC ++ [tag]
        ++ le_bytes 8 (lt_owner (rc_lifetime from)) ++ le_bytes 8 (lt_sequence (rc_lifetime from))
        ++ le_bytes 8 (rc_offset from) ++ le_bytes 8 (rc_offset next) ++ content.
Proof.
  unfold encode. destruct (event_header from event) as [[[tag next'] body]|]; [|done].
  case_match; [done|]. intros H'. simplify_eq. naive_solver.
Qed.

Lemma event_next_wf from event tag next body :
  event_header from event = Ok (tag, next, body) → cursor_wf from → event_wf event →
  cursor_wf next.
Proof.
  intros Hh. apply event_header_Ok in Hh as [_ Hh].
  destruct event as [[]|]; naive_solver.
Qed.

Lemma decode_payload_encoded reserve from event payload next done :
  cursor_wf from → event_wf event →
  encode reserve from event = Ok (payload, next, done) →
  decode_payload payload = ([], Ok {| do_byte_cursor := next; do_output := event |}).
Proof.
  intros Hf Hw (tag & body & content & Hh & _ & -> & ->)%encode_Ok.
  pose proof (event_next_wf _ _ _ _ _ Hh Hf Hw) as Hn.
  pose proof (event_header_Ok _ _ _ _ _ Hh) as [Hlt _].
  pose proof (decode_body_encoded _ _ _ _ _ Hh Hw) as Hb.
  destruct Hf as [[Ho Hs] Hoff], Hn as [_ Hnoff].
  destruct from as [[owner sequence] offset], next as [life noff]. cbn in *. subst life.
  unfold decode_payload. reads input_take_app.
  erewrite action_bind_Ok by (unfold reject_if; by rewrite bool_decide_eq_false_2 by auto).
  cbn [app]. reads input_byte_cons. do 4 (reads input_u64_app). cbn zeta.
  unfold SessionLifetime_new. by erewrite action_bind_Ok by exact Hb.
Qed.

Lemma encoded_length reserve from event payload next done :
  encode reserve from event = Ok (payload, next, done) →
  37 <= len payload <= MAX_ENCODED.
Proof.
  intros (tag & body & content & Hh & _ & -> & ->)%encode_Ok.
  apply event_header_Ok in Hh as [_ Hh]. unfold MAGIC.
  rewrite !len_app, !len_le_bytes. change (len (bs "PTYR")) with 4. change (len [tag]) with 1.
  unfold MAX_ENCODED, MAX_PAGE in *.
  destruct event as [[]|]; [| |done|]; rewrite ?len_encode_completion;
    first [rewrite len_nil | idtac]; len_facts; lia.
Qed.

(** what [encode] writes, [decode_record] reads back: the same event, the
    cursor after it, for every record of this schema that carries the payload
    at a committed position.  The encoder never outgrows the decoder's bound,
    and it reports completion exactly for completion events. *)
Theorem event_roundtrip CURSOR_VERSION reserve from event payload next done offset :
  cursor_wf from → event_wf event → offset ≠ 0 →
  encode reserve from event = Ok (payload, next, done) →
  decode_record CURSOR_VERSION
    {| er_schema_id := SCHEMA; er_schema_version := VERSION;
       er_cursor_version := CURSOR_VERSION; er_cursor_offset := offset;
       er_payload := payload |} = Ok {| do_byte_cursor := next; do_output := event |}
  ∧ done = (match event with Event_Complete _ => true | _ => false end)
  ∧ (done = false → rc_offset from < rc_offset next).
Proof.
  intros Hf Hw Ho He. split_and!.
  - unfold decode_record. cbn. rewrite bool_decide_eq_false_2 by auto.
    rewrite Z.eqb_refl, (proj2 (Z.eqb_neq _ _) Ho), (proj2 (Z.ltb_ge _ _))
      by (by apply encoded_length in He as []). cbn.
    by rewrite (decode_payload_encoded _ _ _ _ _ _ Hf Hw He).
  - apply encode_Ok in He as (tag & body & content & Hh & -> & _).
    apply event_header_Ok in Hh as [_ Hh]. destruct event as [[]|]; by destruct_and?; subst.
  - apply encode_Ok in He as (tag & body & content & Hh & -> & _). intros Ht.
    apply event_header_Ok in Hh as [_ Hh].
    destruct event as [[]|]; destruct_and?; subst; try done.
    match goal with H : checked_sub _ _ = _ |- _ => apply checked_sub_Some in H end. lia.
Qed.

(** ** Decoding, then encoding *)

(** Take a successful decoder apart, one read at a time. *)
Tactic Notation "step" hyp(H) ident(s) ident(a) ident(E) :=
  apply action_bind_inv in H as (s & a & E & H); cbv beta zeta in H.

Lemma input_u16_Ok i i' v :
  Forall is_byte i → input_u16 i = (i', Ok v) → i = le_bytes 2 v ++ i' ∧ 0 <= v < 65536.
Proof. intros Hi H. by apply (input_le_Ok 2). Qed.
Lemma input_u64_Ok i i' v :
  Forall is_byte i → input_u64 i = (i', Ok v) → i = le_bytes 8 v ++ i' ∧ 0 <= v <= u64_max.
Proof.
  intros Hi H. apply (input_le_Ok 8) in H as [-> Hv]; [|done]. split; [done|].
  change (256 ^ Z.of_nat 8) with (u64_max + 1) in Hv. lia.
Qed.

(** The four parts a completion record is made of. *)
Lemma decoded_exit tag code ex :
  match tag with
  | 0 => if code =? 0 then Ok None else Err PublicationError_InvalidRecord
  | 1 => Ok (Some (ExitStatus_Code code))
  | 2 => Ok (Some (ExitStatus_Signal code))
  | _ => Err PublicationError_InvalidRecord
  end = Ok ex →
  (tag, code) = match ex with
                | None => (0, 0)
                | Some (ExitStatus_Code code) => (1, code)
                | Some (ExitStatus_Signal code) => (2, code)
                end.
Proof. intros H. split_tests. by to_props; subst. Qed.

Lemma decoded_drain tag code dr :
  match tag with
  | 0 => if code =? 0 then Ok None else Err PublicationError_InvalidRecord
  | 1 => if code =? 0 then Ok (Some DrainOutcome_Eof) else Err PublicationError_InvalidRecord
  | 2 => if code =? 0 then Ok (Some DrainOutcome_Truncated)
         else Err PublicationError_InvalidRecord
  | 3 => (λ e, Some (DrainOutcome_Failed e)) <$> process_from code
  | _ => Err PublicationError_InvalidRecord
  end = Ok dr →
  (tag, code) = match dr with
                | None => (0, 0)
                | Some DrainOutcome_Eof => (1, 0)
                | Some DrainOutcome_Truncated => (2, 0)
                | Some (DrainOutcome_Failed error) => (3, process_code error)
                end.
Proof.
  unfold fmap, result_fmap. intros H.
  split_tests; to_props; subst; try done.
  match goal with H : process_from _ = _ |- _ => by apply process_code_from in H as -> end.
Qed.

(** An optional error code: zero is none. *)
Lemma decoded_error {A} (from : Z → result PublicationError A) (to : A → Z) code o :
  (∀ e, from code = Ok e → to e = code) →
  (if code =? 0 then Ok None else Some <$> from code) = Ok o →
  code = match o with Some e => to e | None => 0 end.
Proof.
  intros Hf H. unfold fmap, result_fmap in H. split_tests; to_props; [done|]. symmetry. by apply Hf.
Qed.

Lemma decode_completion_Ok i i' c :
  Forall is_byte i → decode_completion i = (i', Ok c) →
  i = encode_completion c ++ i' ∧ completion_wf c
  ∧ completion (let '(mk_Completion s) := c in s) = Some c.
Proof.
  intros Hi H. unfold decode_completion in H.
  step H i1 xtag E1. apply input_byte_Ok in E1 as ->. apply Forall_cons in Hi as [_ Hi].
  step H i2 xb E2. apply input_take_Ok in E2 as [-> Hxl]; [|done].
  apply Forall_app in Hi as [Hxb Hi].
  step H i2' ex E3. apply lift_inv in E3 as [-> Ex]. apply decoded_exit in Ex.
  step H i3 dtag E4. apply input_byte_Ok in E4 as ->. apply Forall_cons in Hi as [_ Hi].
  step H i4 dcode E5. apply input_u16_Ok in E5 as [-> _]; [|done].
  apply Forall_app in Hi as [_ Hi].
  step H i4' dr E6. apply lift_inv in E6 as [-> Ed]. apply decoded_drain in Ed.
  step H i5 su E7. apply input_u16_Ok in E7 as [-> _]; [|done]. apply Forall_app in Hi as [_ Hi].
  step H i6 ad E8. apply input_u16_Ok in E8 as [-> _]; [|done]. apply Forall_app in Hi as [_ Hi].
  step H i7 cb E9. apply input_byte_Ok in E9 as ->.
  step H i7' ca E10. apply lift_inv in E10 as [-> Ec].
  step H i8 suo E11. apply lift_inv in E11 as [-> Es].
  apply (decoded_error _ process_code) in Es; [|apply process_code_from].
  step H i9 ado E12. apply lift_inv in E12 as [-> Ea].
  apply (decoded_error _ runtime_code) in Ea; [|apply runtime_code_from].
  apply lift_inv in H as [-> Hc]. unfold ok_or in Hc. case_match eqn:Hcc; [|done].
  simplify_eq Hc. intros <-.
  assert (c0 = mk_Completion {| ss_exit := ex; ss_drain := dr; ss_supervision_error := suo;
    ss_admission_error := ado; ss_cancellation_requested := ca |}) as -> by
    (unfold completion in Hcc; by case_match; simplify_eq).
  split_and!; [|by simpl; destruct ex as [[]|]; simplify_eq; try apply i32_value_wf|done].
  unfold encode_completion. cbn [ss_exit ss_drain ss_supervision_error
    ss_admission_error ss_cancellation_requested].
  rewrite <-Ex, <-Ed, <-Es, <-Ea, i32_bytes_value by done.
  rewrite <-!app_assoc. cbn [app]. do 2 f_equal. do 2 f_equal. do 3 f_equal.
  by split_tests.
Qed.

Lemma tag_match {A} (tag : Z) (a b c d e : A) :
  match tag with 1 => a | 2 => b | 3 => c | _ => d end = e → d ≠ e →
  (tag = 1 ∧ a = e) ∨ (tag = 2 ∧ b = e) ∨ (tag = 3 ∧ c = e).
Proof. intros H Hd. repeat case_match; auto; by destruct (Hd H). Qed.

Lemma decode_body_Ok tag from next i i' event :
  Forall is_byte i → cursor_wf from → cursor_wf next →
  rc_lifetime next = rc_lifetime from →
  decode_body tag from next i = (i', Ok event) →
  event_wf event ∧ (∃ body, event_header from event = Ok (tag, next, body))
  ∧ i = match event with
        | Event_Replay (Page_Bytes _ _ bytes) => bytes
        | Event_Complete completion => encode_completion completion
        | _ => []
        end ++ i'.
Proof.
  intros Hi Hf Hn Hlt H. unfold decode_body in H.
  apply tag_match in H as [[-> H]|[[-> H]|[-> H]]]; [| | |done].
  - case_match; [done|]. to_props. step H i1 bytes E. apply input_take_Ok in E as [-> Hl]; [|len_lia].
    unfold mret, action_ret in H. simplify_eq. rewrite len_app in *.
    assert (i' = []) as -> by (apply len_zero; len_lia). rewrite len_nil, Z.add_0_r in *.
    split; [by apply Forall_app in Hi as [Hi _]|]. split; [|done].
    exists (len bytes). unfold event_header. rewrite !bool_decide_eq_true_2 by done.
    by rewrite (proj2 (Z.eqb_neq _ _)), (proj2 (Z.leb_le _ _)) by lia.
  - case_match eqn:Hlo; [|done]. simplify_eq. split; [done|]. split; [|done].
    exists 0. unfold event_header. rewrite !bool_decide_eq_true_2 by done. by rewrite Hlo.
  - case_match; [|done]. to_props; subst. step H i1 c E. unfold mret, action_ret in H. simplify_eq.
    apply decode_completion_Ok in E as (-> & Hw & Hc); [|done]. split; [done|]. split; [|done].
    exists 16. unfold event_header. destruct c as [s]. by rewrite Hc.
Qed.

(** Where a decoded event starts. *)
Definition event_start (out : DecodedOutput) : ReplayCursor :=
  match do_output out with
  | Event_Replay (Page_Bytes from _ _) | Event_Replay (Page_Gap from _) => from
  | _ => do_byte_cursor out
  end.

Lemma event_header_start from event tag next body :
  event_header from event = Ok (tag, next, body) →
  event_start {| do_byte_cursor := next; do_output := event |} = from.
Proof.
  intros Hh. apply event_header_Ok in Hh as [_ Hh]. destruct event as [[]|]; naive_solver.
Qed.

Lemma decode_payload_Ok payload i' out :
  Forall is_byte payload → decode_payload payload = (i', Ok out) →
  event_wf (do_output out) ∧ cursor_wf (event_start out)
  ∧ ∃ done, encode (λ _, true) (event_start out) (do_output out)
              = Ok (payload, do_byte_cursor out, done).
Proof.
  intros Hi H. unfold decode_payload in H.
  step H i1 magic E1. apply input_take_Ok in E1 as [-> _]; [|done]. apply Forall_app in Hi as [_ Hi].
  step H i1' u E2. apply reject_if_inv in E2 as [-> Em]. to_props. subst magic.
  step H i2 tag E3. apply input_byte_Ok in E3 as ->. apply Forall_cons in Hi as [_ Hi].
  step H i3 owner E4. apply input_u64_Ok in E4 as [-> Ho]; [|done]. apply Forall_app in Hi as [_ Hi].
  step H i4 sequence E5. apply input_u64_Ok in E5 as [-> Hs]; [|done].
  apply Forall_app in Hi as [_ Hi].
  step H i5 from E6. apply input_u64_Ok in E6 as [-> Hf]; [|done]. apply Forall_app in Hi as [_ Hi].
  step H i6 next E7. apply input_u64_Ok in E7 as [-> Hn]; [|done]. apply Forall_app in Hi as [_ Hi].
  step H i7 event E8. step H i7' u' E9. apply reject_if_inv in E9 as [-> He]. to_props.
  apply len_zero in He as ->. unfold mret, action_ret in H. simplify_eq.
  apply decode_body_Ok in E8 as (Hw & [body Hh] & ->); [|done..].
  cbn [do_output do_byte_cursor]. rewrite (event_header_start _ _ _ _ _ Hh).
  split; [done|]. split; [done|]. exists (tag =? 3). unfold encode. rewrite Hh. cbn.
  by rewrite app_nil_r.
Qed.

(** the decoder accepts nothing but encodings: a payload of bytes it
    accepts is, byte for byte, what [encode] writes for the event it returns,
    so two different payloads never decode to the same observation, and
    truncated, trailing, oversized or contradictory payloads are refused. *)
Theorem decode_canonical CURSOR_VERSION r out :
  Forall is_byte (er_payload r) → decode_record CURSOR_VERSION r = Ok out →
  er_schema_id r = SCHEMA ∧ er_schema_version r = VERSION
  ∧ er_cursor_version r = CURSOR_VERSION ∧ er_cursor_offset r ≠ 0
  ∧ event_wf (do_output out)
  ∧ ∃ done, encode (λ _, true) (event_start out) (do_output out)
              = Ok (er_payload r, do_byte_cursor out, done).
Proof.
  intros Hi H. unfold decode_record in H. case_match; [done|]. case_match; [done|]. to_props.
  destruct (decode_payload (er_payload r)) as [i' res] eqn:E. simpl in H. subst res.
  apply decode_payload_Ok in E as (? & _ & ?); done.
Qed.

Definition sample_start : ReplayCursor :=
  {| rc_lifetime := SessionLifetime_new 7 300; rc_offset := 70000 |}.
Definition sample_completion : OutputEvent :=
  Event_Complete (mk_Completion
    {| ss_exit := Some (ExitStatus_Signal (-9)); ss_drain := Some (DrainOutcome_Failed ProcessError_Io);
       ss_supervision_error := None;
       ss_admission_error := Some (RuntimeError_Projection (ProjectionError_Process ProcessError_Timeout));
       ss_cancellation_requested := true |}).

Lemma sample_start_wf : cursor_wf sample_start.
Proof. unfold cursor_wf, lifetime_wf, sample_start, u64_max; cbn. lia. Qed.

Lemma event_roundtrip_witness :
  ∃ payload, encode (λ _, true) sample_start sample_completion = Ok (payload, sample_start, true)
  ∧ decode_record 1
    {| er_schema_id := SCHEMA; er_schema_version := VERSION;
       er_cursor_version := 1; er_cursor_offset := 12; er_payload := payload |}
    = Ok {| do_byte_cursor := sample_start; do_output := sample_completion |}.
Proof.
  eexists. split; [vm_compute; reflexivity|].
  apply (event_roundtrip 1 (λ _, true) sample_start sample_completion _ sample_start true 12);
    [apply sample_start_wf | cbn; unfold i32_wf; lia | lia | vm_compute; reflexivity].
Defined.

Definition sample_record : EventRecord :=
  {| er_schema_id := SCHEMA; er_schema_version := VERSION;
     er_cursor_version := 1; er_cursor_offset := 12;
     er_payload := MAGIC ++ [1] ++ le_bytes 8 7 ++ le_bytes 8 300 ++ le_bytes 8 70000
                     ++ le_bytes 8 70002 ++ [104; 105] |}.

Lemma decode_canonical_witness :
  ∃ out done, decode_record 1 sample_record = Ok out
    ∧ encode (λ _, true) (event_start out) (do_output out)
      = Ok (er_payload sample_record, do_byte_cursor out, done).
Proof.
  eexists. assert (decode_record 1 sample_record = Ok _) as H by (vm_compute; reflexivity).
  assert (Forall is_byte (er_payload sample_record)) as Hb
    by (vm_compute; repeat constructor; discriminate).
  destruct (decode_canonical 1 sample_record _ Hb H) as (_ & _ & _ & _ & _ & done & He).
  exists done. split; [exact H | exact He].
Defined.
