(* ===== verification/GuardianProtocol.v ===== *)
(** * Guardian records (scripts/guardian/protocol.rs)

    The fixed records the owner and the guardian helper exchange, and the
    [Channel] each side keeps over its end of a socket pair.  The socket is
    the operating system's: what a [read] or [write] call answers is an
    argument of the operation that makes the call. *)

From S2P Require Import Prelude LittleEndian.

Definition FRAME_BYTES : Z := 32.
Definition QUEUE_RECORDS : Z := 8.
Definition VERSION : Z := 1.
Definition MAGIC : list Z := bs "PTGR".

(** The [io::ErrorKind]s the channel tells apart or raises. *)
Inductive ErrorKind :=
  | InvalidData | Interrupted | WouldBlock | WriteZero | ConnectionReset | OtherKind (raw : Z).

(** ** Records *)

Inductive Kind :=
  | Kind_Hello | Kind_Started | Kind_Admitted | Kind_WorkloadExit | Kind_StartFailed
  | Kind_Fault | Kind_Retiring | Kind_Terminate | Kind_Kill | Kind_Release | Kind_Finish
  | Kind_Abort | Kind_Successor | Kind_Execute | Kind_SignalApplied | Kind_Escalated.

(** [self.kind as u16] *)
Definition kind_code (k : Kind) : Z :=
  match k with
  | Kind_Hello => 1 | Kind_Started => 2 | Kind_Admitted => 3 | Kind_WorkloadExit => 4
  | Kind_StartFailed => 5 | Kind_Fault => 6 | Kind_Retiring => 7 | Kind_Terminate => 10
  | Kind_Kill => 11 | Kind_Release => 12 | Kind_Finish => 13 | Kind_Abort => 14
  | Kind_Successor => 15 | Kind_Execute => 16 | Kind_SignalApplied => 17
  | Kind_Escalated => 18
  end.
Definition kind_decode (value : Z) : result ErrorKind Kind :=
  match value with
  | 1 => Ok Kind_Hello | 2 => Ok Kind_Started | 3 => Ok Kind_Admitted
  | 4 => Ok Kind_WorkloadExit | 5 => Ok Kind_StartFailed | 6 => Ok Kind_Fault
  | 7 => Ok Kind_Retiring | 10 => Ok Kind_Terminate | 11 => Ok Kind_Kill
  | 12 => Ok Kind_Release | 13 => Ok Kind_Finish | 14 => Ok Kind_Abort
  | 15 => Ok Kind_Successor | 16 => Ok Kind_Execute | 17 => Ok Kind_SignalApplied
  | 18 => Ok Kind_Escalated
  | _ => Err InvalidData
  end.

(** [values] is a Rust array: four [i32]s. *)
Record Frame := { fr_kind : Kind; fr_generation : Z; fr_values : list Z }.

#[export] Instance ErrorKind_eq_dec : EqDecision ErrorKind.
Proof. solve_decision. Defined.
#[export] Instance Kind_eq_dec : EqDecision Kind.
Proof. solve_decision. Defined.
#[export] Instance Frame_eq_dec : EqDecision Frame.
Proof. solve_decision. Defined.

Definition frame_encode (f : Frame) : list Z :=
  MAGIC ++ le_bytes 2 VERSION ++ le_bytes 2 (kind_code (fr_kind f))
  ++ le_bytes 8 (fr_generation f) ++ mjoin (i32_bytes <$> fr_values f).

(** [bytes[first..last]] *)
Definition slice (first last : nat) (bytes : list Z) : list Z :=
  take (last - first) (drop first bytes).

Definition frame_decode (bytes : list Z) (generation : Z) : result ErrorKind Frame :=
  if bool_decide (slice 0 4 bytes ≠ MAGIC)
     || bool_decide (slice 4 6 bytes ≠ le_bytes 2 VERSION)
     || bool_decide (slice 8 16 bytes ≠ le_bytes 8 generation)
  then Err InvalidData
  else
    kind ← kind_decode (le_value (slice 6 8 bytes));
    mret {| fr_kind := kind; fr_generation := generation;
            fr_values := (λ index, i32_value (slice (16 + index * 4) (20 + index * 4) bytes))
                           <$> seq 0 4 |}.

(** ** The channel *)

Record Channel := {
  ch_generation : Z;
  ch_incoming : list Z;
  ch_received : Z;
  ch_outgoing : list (list Z);
  ch_sent : Z;
  ch_eof : bool
}.

Definition Channel_new (generation : Z) : Channel :=
  {| ch_generation := generation; ch_incoming := replicate 32 0; ch_received := 0;
     ch_outgoing := []; ch_sent := 0; ch_eof := false |}.

Definition wants_write (c : Channel) : bool := negb (len (ch_outgoing c) =? 0).

Definition set_outgoing (outgoing : list (list Z)) (sent : Z) (c : Channel) : Channel :=
  {| ch_generation := ch_generation c; ch_incoming := ch_incoming c;
     ch_received := ch_received c; ch_outgoing := outgoing; ch_sent := sent;
     ch_eof := ch_eof c |}.
Definition set_incoming (incoming : list Z) (received : Z) (c : Channel) : Channel :=
  {| ch_generation := ch_generation c; ch_incoming := incoming;
     ch_received := received; ch_outgoing := ch_outgoing c; ch_sent := ch_sent c;
     ch_eof := ch_eof c |}.

Definition enqueue (frame : Frame) : action Channel ErrorKind () := λ c,
  if negb (fr_generation frame =? ch_generation c) then (c, Err InvalidData)
  else
    let bytes := frame_encode frame in
    if existsb (λ pending, bool_decide (pending = bytes)) (ch_outgoing c) then (c, Ok tt)
    else if len (ch_outgoing c) =? QUEUE_RECORDS then (c, Err WouldBlock)
    else (set_outgoing (ch_outgoing c ++ [bytes]) (ch_sent c) c, Ok tt).

(** What one [write] of a buffer answers: a count or an error. *)
Abbreviation answer := (result ErrorKind Z).

(** [flush]: at most [fuel] = [QUEUE_RECORDS] writes.  [answers] are the
    socket's, in order; a non-blocking socket with nothing more to say answers
    [WouldBlock].  The bytes that reached the socket are returned as well. *)
Fixpoint flush_loop (fuel : nat) (answers : list answer) (c : Channel)
    : Channel * result ErrorKind () * list Z :=
  match fuel with
  | O => (c, Ok tt, [])
  | S fuel =>
    match ch_outgoing c with
    | [] => (c, Ok tt, [])
    | front :: rest =>
      let buffer := drop (Z.to_nat (ch_sent c)) front in
      match hd (Err WouldBlock) answers with
      | Ok count =>
        if count =? 0 then (c, Err WriteZero, [])
        else
          let sent := ch_sent c + count in
          let c' := if sent =? FRAME_BYTES then set_outgoing rest 0 c
                    else set_outgoing (front :: rest) sent c in
          let '(c'', r, written) := flush_loop fuel (tl answers) c' in
          (c'', r, take (Z.to_nat count) buffer ++ written)
      | Err Interrupted => flush_loop fuel (tl answers) c
      | Err WouldBlock => (c, Ok tt, [])
      | Err error => (c, Err error, [])
      end
    end
  end.
Definition flush (answers : list answer) (c : Channel) : Channel * result ErrorKind () * list Z :=
  flush_loop (Z.to_nat QUEUE_RECORDS) answers c.

Definition finish_receive : action Channel ErrorKind (option Frame) := λ c,
  let c := {| ch_generation := ch_generation c; ch_incoming := ch_incoming c;
              ch_received := ch_received c; ch_outgoing := ch_outgoing c;
              ch_sent := ch_sent c; ch_eof := true |} in
  if ch_received c =? 0 then (c, Ok None) else (c, Err InvalidData).

(** [receive], where [answer] is what the [read] says: the bytes it stored at
    [incoming[received..]], none at end of file, or an error. *)
Definition receive (answer : result ErrorKind (list Z)) : action Channel ErrorKind (option Frame) :=
  λ c,
  if ch_eof c then (c, Ok None)
  else
    match answer with
    | Ok [] => finish_receive c
    | Ok bytes =>
      let incoming := take (Z.to_nat (ch_received c)) (ch_incoming c) ++ bytes
                      ++ drop (Z.to_nat (ch_received c + len bytes)) (ch_incoming c) in
      let received := ch_received c + len bytes in
      if received =? FRAME_BYTES
      then (set_incoming incoming 0 c, Some <$> frame_decode incoming (ch_generation c))
      else (set_incoming incoming received c, Ok None)
    | Err ConnectionReset => finish_receive c
    | Err Interrupted | Err WouldBlock => (c, Ok None)
    | Err error => (c, Err error)
    end.

(** ** Records round trip *)

Definition frame_wf (f : Frame) : Prop :=
  0 <= fr_generation f <= u64_max ∧ length (fr_values f) = 4%nat ∧ Forall i32_wf (fr_values f).

Lemma kind_decode_code k : kind_decode (kind_code k) = Ok k.
Proof. by destruct k. Qed.
Lemma kind_code_decode value k : kind_decode value = Ok k → kind_code k = value.
Proof. unfold kind_decode. intros H. split_tests. Qed.
Lemma kind_code_range k : 1 <= kind_code k <= 18.
Proof. destruct k; simpl; lia. Qed.

Lemma list_of_four {A} (l : list A) : length l = 4%nat → ∃ a b c d, l = [a; b; c; d].
Proof. destruct l as [|a [|b [|c [|d [|]]]]]; naive_solver. Qed.

Lemma frame_decode_encode f :
  frame_wf f → frame_decode (frame_encode f) (fr_generation f) = Ok f.
Proof.
  destruct f as [k g vs]. intros (Hg & Hl & Hv). cbn [fr_kind fr_generation fr_values] in *.
  apply list_of_four in Hl as (v0 & v1 & v2 & v3 & ->).
  apply Forall_cons in Hv as [H0 Hv]. apply Forall_cons in Hv as [H1 Hv].
  apply Forall_cons in Hv as [H2 Hv]. apply Forall_cons in Hv as [H3 _].
  set (bytes := frame_encode _). unfold frame_decode.
  assert (slice 0 4 bytes = MAGIC ∧ slice 4 6 bytes = le_bytes 2 VERSION
    ∧ slice 8 16 bytes = le_bytes 8 g ∧ slice 6 8 bytes = le_bytes 2 (kind_code k)
    ∧ (λ index, slice (16 + index * 4) (20 + index * 4) bytes) <$> seq 0 4
      = i32_bytes <$> [v0; v1; v2; v3]) as (-> & -> & -> & -> & Hs) by (split_and!; reflexivity).
  rewrite !bool_decide_eq_false_2 by auto. cbn [orb].
  rewrite le_value_bytes by (pose proof (kind_code_range k); lia). rewrite kind_decode_code.
  cbn [mbind result_bind mret result_ret]. do 2 f_equal.
  change ((λ index, i32_value (slice (16 + index * 4) (20 + index * 4) bytes)) <$> seq 0 4)
    with (i32_value <$> ((λ index, slice (16 + index * 4) (20 + index * 4) bytes) <$> seq 0 4)).
  rewrite Hs.
  cbn [fmap list_fmap]. by rewrite !i32_value_bytes.
Qed.

Lemma length_frame_encode f : frame_wf f → len (frame_encode f) = FRAME_BYTES.
Proof.
  destruct f as [k g vs]. intros (_ & Hl & _). cbn [fr_values] in Hl.
  by apply list_of_four in Hl as (v0 & v1 & v2 & v3 & ->).
Qed.

Lemma frame_encode_decode bytes g f :
  Forall is_byte bytes → len bytes = FRAME_BYTES → frame_decode bytes g = Ok f →
  frame_encode f = bytes.
Proof.
  intros Hb Hl. unfold frame_decode. case_match eqn:Ht; [done|]. to_props.
  unfold mbind, result_bind, mret, result_ret. case_match eqn:Hk; [|done]. intros Hf. simplify_eq.
  apply kind_code_decode in Hk.
  unfold frame_encode. cbn [fr_kind fr_generation fr_values]. rewrite Hk.
  assert (∀ first last, (first <= last <= 32)%nat →
    le_bytes (last - first) (le_value (slice first last bytes)) = slice first last bytes
    ∧ Forall is_byte (slice first last bytes) ∧ len (slice first last bytes) = Z.of_nat (last - first))
    as Hs.
  { intros first last Hfl. assert (length (slice first last bytes) = (last - first)%nat) as Hn.
    { unfold slice. rewrite length_take, length_drop. unfold len, FRAME_BYTES in Hl. lia. }
    assert (Forall is_byte (slice first last bytes)) as Hw by (by apply Forall_take, Forall_drop).
    split_and!; [|done|unfold len; by rewrite Hn]. rewrite <-Hn at 1. by apply le_bytes_value. }
  rewrite (proj1 (Hs 6%nat 8%nat ltac:(lia)) : le_bytes 2 _ = _).
  assert (MAGIC = slice 0 4 bytes) as -> by done.
  assert (le_bytes 2 VERSION = slice 4 6 bytes) as -> by done.
  assert (le_bytes 8 g = slice 8 16 bytes) as -> by done.
  cbn [seq fmap list_fmap mjoin list_join].
  assert (∀ index, (index < 4)%nat →
    i32_bytes (i32_value (slice (16 + index * 4) (20 + index * 4) bytes))
    = slice (16 + index * 4) (20 + index * 4) bytes) as Hi.
  { intros index Hi. destruct (Hs (16 + index * 4)%nat (20 + index * 4)%nat ltac:(lia)) as (_ & ? & ?).
    apply i32_bytes_value; [done|lia]. }
  pose proof (Hi 0%nat ltac:(lia)) as I0. pose proof (Hi 1%nat ltac:(lia)) as I1.
  pose proof (Hi 2%nat ltac:(lia)) as I2. pose proof (Hi 3%nat ltac:(lia)) as I3.
  cbn [Nat.add Nat.mul] in I0, I1, I2, I3. rewrite I0, I1, I2, I3. clear - Hl. unfold slice.
  unfold len, FRAME_BYTES in Hl.
  do 32 (destruct bytes as [|? bytes]; [done|]). destruct bytes; [done | simpl in Hl; lia].
Qed.

(** ** Receiving *)

(** The bytes of the partial record. *)
Definition partial (c : Channel) : list Z := take (Z.to_nat (ch_received c)) (ch_incoming c).
Definition receiver_wf (c : Channel) : Prop :=
  len (ch_incoming c) = FRAME_BYTES ∧ 0 <= ch_received c < FRAME_BYTES ∧ ch_eof c = false.

Lemma len_partial c : receiver_wf c → len (partial c) = ch_received c.
Proof. intros (Hi & Hr & _). unfold partial. rewrite len_take; lia. Qed.

(** One read that stores [bytes]: the record is complete, and decoded, or the
    bytes join the partial record. *)
Lemma receive_data c bytes c' r :
  receiver_wf c → bytes ≠ [] → len bytes <= FRAME_BYTES - ch_received c →
  receive (Ok bytes) c = (c', r) →
  receiver_wf c' ∧ ch_generation c' = ch_generation c ∧
  ((ch_received c + len bytes = FRAME_BYTES ∧ ch_received c' = 0 ∧ partial c' = []
    ∧ r = Some <$> frame_decode (partial c ++ bytes) (ch_generation c))
   ∨ (ch_received c + len bytes < FRAME_BYTES ∧ ch_received c' = ch_received c + len bytes
      ∧ partial c' = partial c ++ bytes ∧ r = Ok None)).
Proof.
  intros Hw Hne Hl. pose proof (len_partial c Hw) as Hp. destruct Hw as (Hi & Hr & He).
  unfold receive. rewrite He. destruct bytes as [|b bytes']; [done|].
  set (bytes := b :: bytes') in *. assert (0 < len bytes) by (subst bytes; len_lia).
  fold (partial c). set (incoming := partial c ++ bytes ++ _).
  assert (len incoming = FRAME_BYTES) as Hin
    by (subst incoming; rewrite !len_app, len_drop; lia).
  assert (take (Z.to_nat (ch_received c + len bytes)) incoming = partial c ++ bytes) as Ht.
  { subst incoming. rewrite app_assoc. apply take_app_length'. rewrite length_app.
    unfold len in *. lia. }
  case_match eqn:Hfull; to_props; intros Hx; simplify_eq Hx; intros <- <-.
  - split; [by unfold receiver_wf|]. split; [done|]. left. split_and!; [done..|].
    rewrite Hfull in Ht. unfold len, FRAME_BYTES in Hin.
    rewrite take_ge in Ht by (unfold FRAME_BYTES; lia). by rewrite Ht.
  - split; [unfold receiver_wf; cbn; split_and!; [done|lia..|done]|]. split; [done|]. right.
    split_and!; [lia|done| |done]. done.
Qed.

Lemma receive_retry c error :
  error = Interrupted ∨ error = WouldBlock → receive (Err error) c = (c, Ok None).
Proof. intros [-> | ->]; unfold receive; by case_match. Qed.

(** The reads of a connection: data that fits the buffer, and retries. *)
Fixpoint reads_fit (answers : list (result ErrorKind (list Z))) (received : Z) : Prop :=
  match answers with
  | [] => True
  | Ok bytes :: answers =>
    bytes ≠ [] ∧ len bytes <= FRAME_BYTES - received
    ∧ reads_fit answers (if received + len bytes =? FRAME_BYTES then 0 else received + len bytes)
  | Err error :: answers => (error = Interrupted ∨ error = WouldBlock) ∧ reads_fit answers received
  end.
(** The bytes they carry. *)
Definition stream_of (answers : list (result ErrorKind (list Z))) : list Z :=
  mjoin ((λ a, match a with Ok bytes => bytes | Err _ => [] end) <$> answers).

Lemma stream_of_data bytes answers :
  stream_of (Ok bytes :: answers) = bytes ++ stream_of answers.
Proof. done. Qed.

Fixpoint receive_all (answers : list (result ErrorKind (list Z))) (c : Channel)
    : Channel * list (result ErrorKind (option Frame)) :=
  match answers with
  | [] => (c, [])
  | a :: answers =>
    let (c1, r) := receive a c in
    let (c2, rs) := receive_all answers c1 in (c2, r :: rs)
  end.
(** What the caller sees besides [Ok(None)]. *)
Definition deliveries (results : list (result ErrorKind (option Frame)))
    : list (result ErrorKind Frame) :=
  omap (λ r, match r with
             | Ok None => None
             | Ok (Some f) => Some (Ok f)
             | Err e => Some (Err e)
             end) results.

Lemma receive_all_records answers c c' results :
  receiver_wf c → reads_fit answers (ch_received c) → receive_all answers c = (c', results) →
  receiver_wf c' ∧ ch_generation c' = ch_generation c ∧
  ∃ records,
    partial c ++ stream_of answers = mjoin records ++ partial c'
    ∧ Forall (λ r, len r = FRAME_BYTES) records
    ∧ deliveries results = (λ r, frame_decode r (ch_generation c)) <$> records.
Proof.
  revert c results. induction answers as [|a answers IH]; intros c results Hw Hf H; simpl in H.
  { simplify_eq. split_and!; [done..|]. exists []. by rewrite app_nil_r. }
  destruct (receive a c) as [c1 r] eqn:Hr, (receive_all answers c1) as [c2 rs] eqn:Hrs.
  simplify_eq. destruct a as [bytes|error]; simpl in Hf.
  - destruct Hf as (Hne & Hl & Hf).
    destruct (receive_data _ _ _ _ Hw Hne Hl Hr) as (Hw1 & Hg & Hcase).
    destruct Hcase as [(Hfull & Hz & Hp & ->)|(Hlt & Hz & Hp & ->)].
    + rewrite (proj2 (Z.eqb_eq _ _) Hfull), <-Hz in Hf.
      destruct (IH _ _ Hw1 Hf Hrs) as (Hw2 & Hg2 & records & Hs & Hlen & Hd).
      split_and!; [done|congruence|]. exists ((partial c ++ bytes) :: records).
      rewrite Hp in Hs. cbn in Hs. split_and!.
      * rewrite stream_of_data, Hs. cbn. by rewrite !app_assoc.
      * constructor; [|done]. rewrite len_app, len_partial by done. lia.
      * cbn. rewrite Hg in Hd. rewrite <-Hd. by destruct (frame_decode _ _).
    + rewrite (proj2 (Z.eqb_neq _ _)), <-Hz in Hf by lia.
      destruct (IH _ _ Hw1 Hf Hrs) as (Hw2 & Hg2 & records & Hs & Hlen & Hd).
      split_and!; [done|congruence|]. exists records. rewrite Hp in Hs. split_and!; [|done|].
      * by rewrite stream_of_data, app_assoc.
      * by rewrite Hg in Hd.
  - destruct Hf as [He Hf]. rewrite (receive_retry _ _ He) in Hr. simplify_eq.
    destruct (IH _ _ Hw Hf Hrs) as (Hw2 & Hg2 & records & Hs & Hlen & Hd).
    split_and!; [done..|]. by exists records.
Qed.

(** ** Sending *)

Inductive send_op := Send_enqueue (f : Frame) | Send_flush (answers : list answer).

(** A write never reports more than the rest of the front record. *)
Fixpoint writes_fit (answers : list answer) (sent : Z) : Prop :=
  match answers with
  | [] => True
  | Ok count :: answers =>
    0 <= count <= FRAME_BYTES - sent
    ∧ writes_fit answers (if sent + count =? FRAME_BYTES then 0 else sent + count)
  | Err _ :: answers => writes_fit answers sent
  end.

(** The frames the calls queued (not those coalesced or refused), and the
    bytes the socket took. *)
Fixpoint send_all (ops : list send_op) (c : Channel) : Channel * list Frame * list Z :=
  match ops with
  | [] => (c, [], [])
  | Send_enqueue f :: ops =>
    let (c1, _) := enqueue f c in
    let queued := if len (ch_outgoing c) <? len (ch_outgoing c1) then [f] else [] in
    let '(c2, fs, written) := send_all ops c1 in (c2, queued ++ fs, written)
  | Send_flush answers :: ops =>
    let '(c1, _, w) := flush answers c in
    let '(c2, fs, written) := send_all ops c1 in (c2, fs, w ++ written)
  end.
Fixpoint sends_fit (ops : list send_op) (c : Channel) : Prop :=
  match ops with
  | [] => True
  | Send_enqueue f :: ops => frame_wf f ∧ sends_fit ops (enqueue f c).1
  | Send_flush answers :: ops =>
    writes_fit answers (ch_sent c) ∧ sends_fit ops (flush answers c).1.1
  end.

Definition sender_wf (c : Channel) : Prop :=
  Forall (λ r, len r = FRAME_BYTES) (ch_outgoing c) ∧ len (ch_outgoing c) <= QUEUE_RECORDS
  ∧ 0 <= ch_sent c < FRAME_BYTES ∧ (ch_outgoing c = [] → ch_sent c = 0).
Lemma mjoin_app {A} (l k : list (list A)) : mjoin (l ++ k) = mjoin l ++ mjoin k.
Proof. 
  induction l as [|x l IH]; [done|].
  change (x ++ mjoin (l ++ k) = (x ++ mjoin l) ++ mjoin k). by rewrite IH, app_assoc.
Qed.

(** The queued bytes that were not written. *)
Definition unsent (c : Channel) : list Z :=
  drop (Z.to_nat (ch_sent c)) (mjoin (ch_outgoing c)).

Lemma enqueue_spec f c c' r :
  sender_wf c → frame_wf f → enqueue f c = (c', r) →
  sender_wf c' ∧ ch_generation c' = ch_generation c
  ∧ ((c' = c ∧ (r = Ok tt → frame_encode f ∈ ch_outgoing c))
     ∨ (fr_generation f = ch_generation c ∧ r = Ok tt
        ∧ ch_outgoing c' = ch_outgoing c ++ [frame_encode f]
        ∧ unsent c' = unsent c ++ frame_encode f)).
Proof.
  intros Hw Hf. unfold enqueue. case_match; [intros; simplify_eq; naive_solver|].
  case_match eqn:Hin.
  { intros; simplify_eq. split; [done|]. split; [done|]. left. split; [done|]. intros _.
    apply existsb_exists in Hin as (x & Hx & Heq). apply bool_decide_eq_true in Heq as <-.
    by apply list_elem_of_In. }
  case_match; [intros; simplify_eq; naive_solver|]. to_props. intros; simplify_eq.
  destruct Hw as (Hl & Hq & Hs & He). split_and!; [|done|].
  - unfold sender_wf. cbn. split_and!; [|len_lia|lia..|].
    + apply Forall_app. split; [done|]. constructor; [by apply length_frame_encode|done].
    + by intros []%app_eq_nil.
  - right. split_and!; [lia|done|done|]. unfold unsent. cbn. rewrite mjoin_app. cbn.
    rewrite app_nil_r. apply drop_app_le.
    destruct (ch_outgoing c) as [|x l]; [rewrite He by done; cbn; lia|].
    cbn. rewrite length_app. apply Forall_cons in Hl as [Hx _]. unfold len in Hx. lia.
Qed.

Ltac unchanged :=
  simplify_eq; split; [done|]; split; [done|]; split; [done|];
  repeat match goal with H : ch_outgoing _ = _ |- _ => rewrite H end; lia.

Lemma flush_loop_spec fuel answers c c' r w :
  sender_wf c → writes_fit answers (ch_sent c) → flush_loop fuel answers c = (c', r, w) →
  sender_wf c' ∧ ch_generation c' = ch_generation c
  ∧ w ++ unsent c' = unsent c ∧ len (ch_outgoing c') <= len (ch_outgoing c).
Proof.
  revert answers c c' r w. induction fuel as [|fuel IH]; intros answers c c' r w Hw Hf H; simpl in H.
  { unchanged. }
  destruct (ch_outgoing c) as [|front rest] eqn:Hout; [unchanged|].
  destruct answers as [|a answers]; simpl in H; [unchanged|].
  destruct a as [count|[| | | | |]]; simpl in Hf;
    try (unchanged).
  2: { apply IH in H; [|done..]. by rewrite Hout in H. }
  destruct Hf as [Hc Hf]. case_match; to_props; [unchanged|].
  destruct (flush_loop _ _ _) as [[c2 r2] w2] eqn:Hrec. simplify_eq.
  destruct Hw as (Hl & Hq & Hs & He). rewrite Hout in Hl, Hq.
  apply Forall_cons in Hl as [Hx Hl]. rewrite len_cons in Hq.
  assert (length front = 32%nat) as Hn by (unfold len, FRAME_BYTES in Hx; lia).
  unfold FRAME_BYTES in *. case_match eqn:Hfull; to_props.
  - apply IH in Hrec as (Hw2 & Hg2 & Hu & Hle).
    + split_and!; [done|done| |cbn in Hle; len_lia].
      rewrite <-app_assoc, Hu. unfold unsent. cbn. rewrite Hout. cbn.
      rewrite drop_app_le by lia. f_equal. rewrite take_ge; [done|]. rewrite length_drop. lia.
    + unfold sender_wf, FRAME_BYTES. cbn. split_and!; [done|lia..|done].
    + done.
  - apply IH in Hrec as (Hw2 & Hg2 & Hu & Hle).
    + split_and!; [done|done| |cbn in Hle; len_lia].
      rewrite <-app_assoc, Hu. unfold unsent. cbn. rewrite Hout. cbn.
      rewrite !drop_app_le by lia.
      rewrite app_assoc. f_equal. rewrite Z2Nat.inj_add by lia. rewrite <-drop_drop.
      apply take_drop.
    + unfold sender_wf, FRAME_BYTES. cbn. split_and!; [by constructor|len_lia|lia..|done].
    + done.
Qed.

Lemma send_all_spec ops c c' fs w :
  sender_wf c → sends_fit ops c → send_all ops c = (c', fs, w) →
  sender_wf c' ∧ ch_generation c' = ch_generation c
  ∧ Forall (λ f, frame_wf f ∧ fr_generation f = ch_generation c) fs
  ∧ w ++ unsent c' = unsent c ++ mjoin (frame_encode <$> fs).
Proof.
  revert c fs w. induction ops as [|[f|answers] ops IH]; intros c fs w Hw Hf H; simpl in H, Hf.
  - simplify_eq. cbn. rewrite app_nil_r. by split_and!.
  - destruct Hf as [Hfw Hf]. destruct (enqueue f c) as [c1 r] eqn:He.
    destruct (send_all ops c1) as [[c2 fs2] w2] eqn:Hs. simplify_eq.
    destruct (enqueue_spec _ _ _ _ Hw Hfw He) as (Hw1 & Hg1 & Hc).
    destruct (IH _ _ _ Hw1 Hf Hs) as (Hw2 & Hg2 & Hfs & Hu). rewrite Hg1 in *.
    destruct Hc as [[-> _]|(Hg & _ & Hout & Hu1)].
    + rewrite Z.ltb_irrefl. by split_and!.
    + rewrite Hout, len_app, (proj2 (Z.ltb_lt _ _)) by len_lia. split_and!; [done|done| |].
      * by constructor.
      * rewrite Hu, Hu1. cbn. by rewrite app_assoc.
  - destruct Hf as [Hfa Hf]. destruct (flush answers c) as [[c1 r] w1] eqn:He.
    destruct (send_all ops c1) as [[c2 fs2] w2] eqn:Hs. simplify_eq.
    destruct (flush_loop_spec _ _ _ _ _ _ Hw Hfa He) as (Hw1 & Hg1 & Hu1 & _).
    destruct (IH _ _ _ Hw1 Hf Hs) as (Hw2 & Hg2 & Hfs & Hu). rewrite Hg1 in *.
    split_and!; [done|done|done|]. by rewrite <-app_assoc, Hu, app_assoc, Hu1.
Qed.

Lemma Channel_new_receiver g : receiver_wf (Channel_new g).
Proof. done. Qed.
Lemma Channel_new_sender g : sender_wf (Channel_new g).
Proof. unfold sender_wf. cbn. split_and!; [constructor|vm_compute; discriminate|done|done|done]. Qed.

(** Records of one size are read off a stream in one way. *)
Lemma records_prefix (rs es : list (list Z)) (tail : list Z) :
  Forall (λ r, len r = FRAME_BYTES) rs → Forall (λ r, len r = FRAME_BYTES) es →
  (∃ rest, mjoin rs ++ tail ++ rest = mjoin es) → len tail < FRAME_BYTES ∨ tail = [] →
  ∃ later, es = rs ++ later ∧ ∃ rest, tail ++ rest = mjoin later.
Proof.
  intros Hr. revert es. induction Hr as [|r rs Hl _ IH]; intros es He [rest Heq] Ht.
  { exists es. split; [done|]. by exists rest. }
  destruct He as [|e es Hle He].
  { exfalso. apply (f_equal len) in Heq. change (mjoin (r :: rs)) with (r ++ mjoin rs) in Heq.
    rewrite !len_app in Heq. change (len (mjoin [] : list Z)) with 0 in Heq. unfold FRAME_BYTES in Hl.
    len_lia. }
  change (mjoin (r :: rs)) with (r ++ mjoin rs) in Heq.
  change (mjoin (e :: es)) with (e ++ mjoin es) in Heq. rewrite <-app_assoc in Heq.
  apply app_inj_1 in Heq as [-> Heq]; [|unfold len in *; lia].
  destruct (IH es He (ex_intro _ rest Heq) Ht) as (later & -> & Hrest). by exists later.
Qed.

(** the fixed record is a faithful encoding: 32 bytes that decode, under
    the sender's generation, to the frame; and whatever 32 bytes decode are the
    encoding of the frame they decode to, of that very generation. *)
Theorem frame_codec f :
  (frame_wf f → len (frame_encode f) = FRAME_BYTES
                ∧ frame_decode (frame_encode f) (fr_generation f) = Ok f)
  ∧ ∀ bytes g, Forall is_byte bytes → len bytes = FRAME_BYTES →
      frame_decode bytes g = Ok f → frame_encode f = bytes ∧ fr_generation f = g.
Proof.
  split.
  - intros Hw. split; [by apply length_frame_encode|by apply frame_decode_encode].
  - intros bytes g Hb Hl Hd. split; [by apply (frame_encode_decode bytes g)|].
    unfold frame_decode in Hd. case_match; [done|].
    unfold mbind, result_bind, mret, result_ret in Hd. case_match; by simplify_eq.
Qed.

(** however the socket fragments the bytes, [receive] reassembles them:
    the records it hands out are the stream cut every 32 bytes, each decoded
    once and in order, retries change nothing, and when the peer closes (end of
    file or reset) the close is clean exactly when no partial record is left.
    After that the channel answers [None] for ever. *)
Theorem receive_reassembles g answers c results :
  reads_fit answers 0 → receive_all answers (Channel_new g) = (c, results) →
  ∃ records rest,
    stream_of answers = mjoin records ++ rest ∧ len rest < FRAME_BYTES
    ∧ Forall (λ r, len r = FRAME_BYTES) records
    ∧ deliveries results = (λ r, frame_decode r g) <$> records
    ∧ ∀ closing, closing = Ok [] ∨ closing = Err ConnectionReset →
        ∃ c', receive closing c = (c', if len rest =? 0 then Ok None else Err InvalidData)
              ∧ ∀ later, receive later c' = (c', Ok None).
Proof.
  intros Hf H.
  destruct (receive_all_records _ _ _ _ (Channel_new_receiver g) Hf H)
    as (Hw & _ & records & Hs & Hl & Hd).
  exists records, (partial c). pose proof (len_partial c Hw) as Hp. destruct Hw as (Hi & Hr & He).
  split_and!; [done|lia|done|done|]. intros closing Hc.
  assert (receive closing c = finish_receive c) as ->
    by (unfold receive; rewrite He; destruct Hc as [-> | ->]; done).
  rewrite Hp. 
  exists (finish_receive c).1. unfold finish_receive. cbn [ch_received].
  split; by case_match.
Qed.

(** C33: end to end, a channel delivers what its peer queued.  Whatever the
    socket makes of the writes (short, interrupted, refused) and however it
    fragments the reads, the receiver hands out the accepted frames in order,
    without loss, repetition or error; it has all of them once everything
    written has been read and nothing is left to send. *)
Theorem channel_delivers g ops answers sender accepted written receiver results rest :
  sends_fit ops (Channel_new g) → send_all ops (Channel_new g) = (sender, accepted, written) →
  reads_fit answers 0 → receive_all answers (Channel_new g) = (receiver, results) →
  stream_of answers ++ rest = written →
  len (ch_outgoing sender) <= QUEUE_RECORDS
  ∧ ∃ delivered pending,
      accepted = delivered ++ pending ∧ deliveries results = Ok <$> delivered
      ∧ (rest = [] → wants_write sender = false → pending = [] ∧ ch_received receiver = 0).
Proof.
  intros Hsf Hs Hrf Hr Hw.
  destruct (send_all_spec _ _ _ _ _ (Channel_new_sender g) Hsf Hs) as (Hsw & _ & Hfs & Hu).
  destruct (receive_all_records _ _ _ _ (Channel_new_receiver g) Hrf Hr)
    as (Hrw & _ & records & Hst & Hl & Hd).
  split; [apply Hsw|]. change (partial (Channel_new g)) with (@nil Z) in Hst.
  change (unsent (Channel_new g)) with (@nil Z) in Hu. cbn [app] in Hst, Hu.
  pose proof (len_partial _ Hrw) as Hp. destruct Hrw as (_ & Hrr & _).
  assert (mjoin records ++ partial receiver ++ (rest ++ unsent sender)
          = mjoin (frame_encode <$> accepted)) as Heq.
  { rewrite <-Hu, <-Hw, Hst. by rewrite <-!app_assoc. }
  assert (Forall (λ r, len r = FRAME_BYTES) (frame_encode <$> accepted)) as Hel.
  { apply Forall_fmap. eapply Forall_impl; [exact Hfs|]. intros f [Hf _].
    by apply length_frame_encode. }
  destruct (records_prefix records (frame_encode <$> accepted) (partial receiver))
    as (later & Hsplit & Hlast); [done|done|eauto|lia|].
  apply fmap_app_inv in Hsplit as (delivered & pending & -> & -> & ->).
  apply Forall_app in Hfs as [Hdel Hpend].
  exists delivered, pending. split_and!; [done| |].
  - rewrite Hd, <-list_fmap_compose. apply list_fmap_ext. intros i f Hi.
    destruct (proj1 (Forall_lookup _ _) Hdel i f Hi) as [Hfw Hg]. cbn in Hg |- *.
    rewrite <-Hg. by apply frame_decode_encode.
  - intros -> Hq. unfold wants_write in Hq. to_props. apply len_zero in Hq.
    assert (unsent sender = []) as Hun by (unfold unsent; rewrite Hq; by destruct (Z.to_nat _)).
    rewrite Hun, fmap_app, mjoin_app in Heq. cbn in Heq. rewrite app_nil_r in Heq.
    apply app_inv_head in Heq. destruct pending as [|f pending]; [rewrite <-Hp, Heq; done|].
    exfalso. apply (f_equal len) in Heq.
    change (mjoin (frame_encode <$> f :: pending))
      with (frame_encode f ++ mjoin (frame_encode <$> pending)) in Heq.
    apply Forall_cons in Hpend as [[Hfw _] _].
    rewrite len_app, length_frame_encode in Heq by done. len_lia.
Qed.

Definition sample_frame (k : Kind) : Frame :=
  {| fr_kind := k; fr_generation := 77; fr_values := [-1; 9; 2147483647; -2147483648] |}.

Lemma sample_frame_wf k : frame_wf (sample_frame k).
Proof.
  unfold frame_wf, i32_wf, u64_max. cbn. split_and!; [lia|lia|done|]. repeat constructor; lia.
Qed.

Lemma frame_codec_witness :
  len (frame_encode (sample_frame Kind_Kill)) = FRAME_BYTES
  ∧ frame_decode (frame_encode (sample_frame Kind_Kill)) 77 = Ok (sample_frame Kind_Kill).
Proof. apply (frame_codec (sample_frame Kind_Kill)), sample_frame_wf. Defined.

(** Two records in three reads, with an interruption, then seven more bytes. *)
Definition sample_reads : list (result ErrorKind (list Z)) :=
  let bytes := frame_encode (sample_frame Kind_Hello) ++ frame_encode (sample_frame Kind_Kill) in
  [Ok (take 20 bytes); Err Interrupted; Ok (take 12 (drop 20 bytes)); Err WouldBlock;
   Ok (drop 32 bytes); Ok (take 7 bytes)].

Lemma sample_reads_fit : reads_fit sample_reads 0.
Proof. vm_compute. repeat split; auto; discriminate. Qed.

Lemma receive_reassembles_witness :
  ∃ c results, receive_all sample_reads (Channel_new 77) = (c, results)
  ∧ (receive (Ok []) c).2 = Err InvalidData
  ∧ deliveries results = [Ok (sample_frame Kind_Hello); Ok (sample_frame Kind_Kill)]
  ∧ ∃ records rest, stream_of sample_reads = mjoin records ++ rest ∧ len rest < FRAME_BYTES.
Proof.
  destruct (receive_all sample_reads (Channel_new 77)) as [c results] eqn:E.
  pose proof (receive_reassembles 77 sample_reads c results sample_reads_fit E)
    as (records & rest & Hs & Hl & _).
  exists c, results. split; [done|]. vm_compute in E. injection E as <- <-.
  split; [vm_compute; reflexivity|]. split; [vm_compute; reflexivity|]. by exists records, rest.
Defined.

(** A repeated control is coalesced; the socket takes 20 bytes, then the rest. *)
Definition sample_sends : list send_op :=
  [Send_enqueue (sample_frame Kind_Hello); Send_flush [Ok 20; Err WouldBlock];
   Send_enqueue (sample_frame Kind_Kill); Send_enqueue (sample_frame Kind_Kill);
   Send_flush [Ok 12; Err Interrupted; Ok 32]].
Definition sample_arrivals : list (result ErrorKind (list Z)) :=
  removelast sample_reads.

Lemma sample_sends_fit : sends_fit sample_sends (Channel_new 77).
Proof.
  unfold sample_sends. cbn [sends_fit]. repeat split;
    first [apply sample_frame_wf | vm_compute; discriminate].
Qed.

Lemma channel_delivers_witness :
  ∃ sender accepted written,
    send_all sample_sends (Channel_new 77) = (sender, accepted, written)
    ∧ stream_of sample_arrivals = written
    ∧ accepted = [sample_frame Kind_Hello; sample_frame Kind_Kill]
    ∧ len (ch_outgoing sender) <= QUEUE_RECORDS.
Proof.
  destruct (send_all sample_sends (Channel_new 77)) as [[sender accepted] written] eqn:E.
  destruct (receive_all sample_arrivals (Channel_new 77)) as [receiver results] eqn:Er.
  assert (stream_of sample_arrivals ++ [] = written) as Hw
    by (vm_compute in E; injection E as <- <- <-; vm_compute; reflexivity).
  assert (reads_fit sample_arrivals 0) as Hf by (vm_compute; repeat split; auto; discriminate).
  destruct (channel_delivers 77 _ _ _ _ _ _ _ [] sample_sends_fit E Hf Er Hw) as [Hq _].
  exists sender, accepted, written. split; [done|]. rewrite app_nil_r in Hw.
  split; [done|]. split; [|done]. vm_compute in E. injection E as <- <- <-. reflexivity.
Defined.
