(* ===== verification/View.v ===== *)
(** * The portable terminal view (crates/domain/src/terminal/view.rs) *)

From S2P Require Import Prelude Terminal.

Inductive TerminalColor :=
  | Color_Default | Color_Palette (index : Z) | Color_Rgb (r g b : Z).

Inductive Underline :=
  | Underline_None | Underline_Single | Underline_Double | Underline_Curly
  | Underline_Dotted | Underline_Dashed.

Record TerminalStyle := {
  ts_foreground : TerminalColor;
  ts_background : TerminalColor;
  ts_underline_color : TerminalColor;
  ts_underline : Underline;
  ts_bold : bool;
  ts_italic : bool;
  ts_faint : bool;
  ts_blink : bool;
  ts_inverse : bool;
  ts_invisible : bool;
  ts_strikethrough : bool;
  ts_overline : bool
}.

(** [text] is the UTF-8 bytes of the grapheme. *)
Record TerminalCell := {
  cell_text : list Z;
  cell_width : Z;
  cell_style : TerminalStyle
}.

Record TerminalCursor := {
  cur_col : Z;
  cur_row : Z;
  cur_visible : bool;
  cur_pending_wrap : bool
}.

Inductive MouseTracking :=
  | Mouse_None | Mouse_Press | Mouse_PressRelease | Mouse_ButtonMotion | Mouse_AnyMotion.

Inductive MouseEncoding := Encoding_Legacy | Encoding_Sgr.

Record TerminalHistory := {
  th_start : Z;
  th_cols : Z;
  th_cells : list TerminalCell;
  th_total : Z;
  th_scrollback : Z
}.

Record TerminalModes := {
  tm_alternate_screen : bool;
  tm_bracketed_paste : bool;
  tm_application_cursor : bool;
  tm_mouse : MouseTracking;
  tm_mouse_encoding : MouseEncoding
}.

Definition mouse_reporting (m : TerminalModes) : bool :=
  match tm_mouse m with Mouse_None => false | _ => true end.

(** An sRGB value, [[u8; 3]]. *)
Abbreviation rgb := (Z * Z * Z)%type.

(** [indexed] is an array of 256. *)
Record TerminalPalette := {
  tp_foreground : option rgb;
  tp_background : option rgb;
  tp_cursor : option rgb;
  tp_indexed : list rgb
}.

Record TerminalView := {
  tv_size : TerminalSize;
  tv_cursor : TerminalCursor;
  tv_modes : TerminalModes;
  tv_palette : TerminalPalette;
  tv_cells : list TerminalCell
}.

#[export] Instance TerminalColor_eq_dec : EqDecision TerminalColor.
Proof. solve_decision. Defined.
#[export] Instance Underline_eq_dec : EqDecision Underline.
Proof. solve_decision. Defined.
#[export] Instance TerminalStyle_eq_dec : EqDecision TerminalStyle.
Proof. solve_decision. Defined.
#[export] Instance TerminalCell_eq_dec : EqDecision TerminalCell.
Proof. solve_decision. Defined.
#[export] Instance TerminalCursor_eq_dec : EqDecision TerminalCursor.
Proof. solve_decision. Defined.
#[export] Instance MouseTracking_eq_dec : EqDecision MouseTracking.
Proof. solve_decision. Defined.
#[export] Instance MouseEncoding_eq_dec : EqDecision MouseEncoding.
Proof. solve_decision. Defined.
#[export] Instance TerminalModes_eq_dec : EqDecision TerminalModes.
Proof. solve_decision. Defined.

(** Exactly columns times rows cells, as the type's documentation promises. *)
Definition view_wf (v : TerminalView) : Prop :=
  1 <= ts_cols (tv_size v) ∧ 1 <= ts_rows (tv_size v)
  ∧ len (tv_cells v) = ts_cols (tv_size v) * ts_rows (tv_size v).
