(* ===== verification/Wire.v ===== *)
(** * The demonstration server's wire messages (client/server/src/wire.rs)

    The server renders: [diff] turns a [TerminalView] into the messages that
    bring a browser up to date, interning styles in a finite [StyleTable]. *)

From S2P Require Import Prelude Terminal View.

Definition VERSION : Z := 1.

(** ** Messages *)

Inductive ClientMessage :=
  | Client_Hello (v cols rows : Z)
  | Client_Input (v : Z) (data : list Z)
  | Client_Resize (v cols rows : Z)
  | Client_History (v start count : Z).

Definition version (m : ClientMessage) : Z :=
  match m with
  | Client_Hello v _ _ | Client_Input v _ | Client_Resize v _ _ | Client_History v _ _ => v
  end.

Record Cursor := { wc_col : Z; wc_row : Z; wc_visible : bool }.

(** [[text, width, style_id]] per cell. *)
Abbreviation wire_cell := (list Z * Z * Z)%type.
Record Row := { row_y : Z; row_cells : list wire_cell }.

(** Style identity without the allocated id. *)
Record StyleKey := {
  sk_fg : option rgb;
  sk_bg : option rgb;
  sk_bold : bool;
  sk_italic : bool;
  sk_faint : bool;
  sk_inverse : bool;
  sk_invisible : bool;
  sk_strikethrough : bool;
  sk_overline : bool;
  sk_underline : list Z
}.

Definition StyleKey_default : StyleKey :=
  {| sk_fg := None; sk_bg := None; sk_bold := false; sk_italic := false; sk_faint := false;
     sk_inverse := false; sk_invisible := false; sk_strikethrough := false;
     sk_overline := false; sk_underline := [] |}.

(** A [WireStyle] is the id and, field for field, its [StyleKey]. *)
Record WireStyle := { ws_id : Z; ws_key : StyleKey }.

Record WirePalette := {
  wp_foreground : option rgb;
  wp_background : option rgb;
  wp_cursor : option rgb;
  wp_indexed : list rgb
}.

Inductive ServerMessage :=
  | Server_Ready (v cols rows : Z) (palette : WirePalette)
  | Server_Styles (v : Z) (styles : list WireStyle)
  | Server_Modes (v : Z) (alternate_screen bracketed_paste application_cursor : bool)
      (mouse mouse_encoding : list Z)
  | Server_Frame (v seq : Z) (cursor : Cursor) (rows : list Row) (total scrollback : Z)
  | Server_History (v start : Z) (rows : list Row) (total scrollback : Z)
  | Server_Exit (v : Z) (status : option Z)
  | Server_Error (v : Z) (message : list Z).

#[export] Instance StyleKey_eq_dec : EqDecision StyleKey.
Proof. solve_decision. Defined.
(** A key as lists of integers, which the maps encode compactly. *)
Definition rgb_list (c : option rgb) : list Z :=
  match c with Some (r, g, b) => [r; g; b] | None => [] end.
Definition list_rgb (l : list Z) : option rgb :=
  match l with [r; g; b] => Some (r, g, b) | _ => None end.
Definition key_list (k : StyleKey) : list (list Z) :=
  [rgb_list (sk_fg k); rgb_list (sk_bg k);
   Z.b2z <$> [sk_bold k; sk_italic k; sk_faint k; sk_inverse k; sk_invisible k;
              sk_strikethrough k; sk_overline k];
   sk_underline k].
Definition list_key (l : list (list Z)) : StyleKey :=
  match l with
  | [fg; bg; [b1; b2; b3; b4; b5; b6; b7]; underline] =>
    {| sk_fg := list_rgb fg; sk_bg := list_rgb bg; sk_bold := b1 =? 1; sk_italic := b2 =? 1;
       sk_faint := b3 =? 1; sk_inverse := b4 =? 1; sk_invisible := b5 =? 1;
       sk_strikethrough := b6 =? 1; sk_overline := b7 =? 1; sk_underline := underline |}
  | _ => StyleKey_default
  end.
#[export] Instance StyleKey_countable : Countable StyleKey.
Proof.
  refine (inj_countable' key_list list_key _).
  by intros [[[[]]|] [[[]]|] [] [] [] [] [] [] [] ?].
Defined.
#[export] Instance WireStyle_eq_dec : EqDecision WireStyle.
Proof. solve_decision. Defined.
#[export] Instance WirePalette_eq_dec : EqDecision WirePalette.
Proof. solve_decision. Defined.

Definition WirePalette_from (p : TerminalPalette) : WirePalette :=
  {| wp_foreground := tp_foreground p; wp_background := tp_background p;
     wp_cursor := tp_cursor p; wp_indexed := tp_indexed p |}.

(** ** Rendering a style *)

(** [palette.indexed[index as usize]]: the array has 256 entries and the
    index is a [u8]. *)
Definition color (value : TerminalColor) (palette : TerminalPalette) : option rgb :=
  match value with
  | Color_Default => None
  | Color_Palette index => Some (nth (Z.to_nat index) (tp_indexed palette) (0, 0, 0))
  | Color_Rgb r g b => Some (r, g, b)
  end.

Definition underline (value : Underline) : list Z :=
  match value with
  | Underline_None => bs ""
  | Underline_Single => bs "single"
  | Underline_Double => bs "double"
  | Underline_Curly => bs "curly"
  | Underline_Dotted => bs "dotted"
  | Underline_Dashed => bs "dashed"
  end.

(** The [WireStyle] [intern] builds, less its id. *)
Definition style_key (style : TerminalStyle) (palette : TerminalPalette) : StyleKey :=
  {| sk_fg := color (ts_foreground style) palette;
     sk_bg := color (ts_background style) palette;
     sk_bold := ts_bold style; sk_italic := ts_italic style; sk_faint := ts_faint style;
     sk_inverse := ts_inverse style; sk_invisible := ts_invisible style;
     sk_strikethrough := ts_strikethrough style; sk_overline := ts_overline style;
     sk_underline := underline (ts_underline style) |}.

(** ** The style table *)

Definition STYLE_CAP : Z := 512.

Record StyleTable := {
  st_ids : gmap StyleKey Z;
  st_pending : list WireStyle;
  st_restarted : bool;
  st_capped : bool
}.

Definition StyleTable_default : StyleTable :=
  {| st_ids := ∅; st_pending := []; st_restarted := false; st_capped := false |}.

Definition begin_encode (t : StyleTable) : StyleTable :=
  {| st_ids := st_ids t; st_pending := st_pending t; st_restarted := false; st_capped := false |}.

(** [self.ids.len()] *)
Definition ids_len (ids : gmap StyleKey Z) : Z := Z.of_nat (size ids).

Definition intern (style : TerminalStyle) (palette : TerminalPalette) (t : StyleTable)
    : StyleTable * Z :=
  let key := style_key style palette in
  if decide (key = StyleKey_default) then (t, 0)
  else
    match st_ids t !! key with
    | Some id => (t, id)
    | None =>
      if (STYLE_CAP <=? ids_len (st_ids t)) && st_capped t then (t, 0)
      else
        let t := if STYLE_CAP <=? ids_len (st_ids t)
                 then {| st_ids := ∅; st_pending := []; st_restarted := true; st_capped := true |}
                 else t in
        let id := ids_len (st_ids t) + 1 in
        ({| st_ids := <[key := id]> (st_ids t);
            st_pending := st_pending t ++ [{| ws_id := id; ws_key := key |}];
            st_restarted := st_restarted t; st_capped := st_capped t |}, id)
    end.

Definition take_pending (t : StyleTable) : StyleTable * list WireStyle :=
  ({| st_ids := st_ids t; st_pending := []; st_restarted := st_restarted t;
      st_capped := st_capped t |}, st_pending t).
Definition take_restarted (t : StyleTable) : StyleTable * bool :=
  ({| st_ids := st_ids t; st_pending := st_pending t; st_restarted := false;
      st_capped := st_capped t |}, st_restarted t).

Definition clear (t : StyleTable) : StyleTable :=
  {| st_ids := ∅; st_pending := []; st_restarted := false; st_capped := false |}.

(** ** Encoding rows *)

Fixpoint encode_cells (cells : list TerminalCell) (palette : TerminalPalette) (styles : StyleTable)
    : StyleTable * list wire_cell :=
  match cells with
  | [] => (styles, [])
  | cell :: cells =>
    let (styles, id) := intern (cell_style cell) palette styles in
    let (styles, rest) := encode_cells cells palette styles in
    (styles, (cell_text cell, cell_width cell, id) :: rest)
  end.
Definition encode_row (cells : list TerminalCell) (styles : StyleTable) (palette : TerminalPalette)
    : StyleTable * Row :=
  let (styles, wire) := encode_cells cells palette styles in
  (styles, {| row_y := 0; row_cells := wire |}).
Definition set_y (y : Z) (r : Row) : Row := {| row_y := y; row_cells := row_cells r |}.

(** [cells.chunks(cols)]: [fuel] is the number of cells. *)
Fixpoint chunks_loop (fuel cols : nat) (cells : list TerminalCell) : list (list TerminalCell) :=
  match fuel, cells with
  | O, _ | _, [] => []
  | S fuel, cells => take cols cells :: chunks_loop fuel cols (drop cols cells)
  end.
Definition chunks (cols : nat) (cells : list TerminalCell) : list (list TerminalCell) :=
  chunks_loop (length cells) cols cells.

(** [u16::try_from(n).unwrap_or(u16::MAX)] *)
Definition to_u16 (n : Z) : Z := if n <=? u16_max then n else u16_max.

Fixpoint history_rows (start index : Z) (rows : list (list TerminalCell))
    (palette : TerminalPalette) (styles : StyleTable) : StyleTable * list Row :=
  match rows with
  | [] => (styles, [])
  | chunk :: rows =>
    let (styles, row) := encode_row chunk styles palette in
    let (styles, rest) := history_rows start (index + 1) rows palette styles in
    (styles, set_y (to_u16 (start + index)) row :: rest)
  end.

(** The [loop] of [encode_history]: [None] when [fuel] passes do not end it. *)
Fixpoint history_loop (fuel : nat) (history : TerminalHistory) (palette : TerminalPalette)
    (reset : bool) (styles : StyleTable)
    : option (StyleTable * (list Row * list WireStyle * bool)) :=
  match fuel with
  | O => None
  | S fuel =>
    let styles := begin_encode styles in
    let (styles, rows) :=
      if 0 <? th_cols history
      then history_rows (th_start history) 0
             (chunks (Z.to_nat (th_cols history)) (th_cells history)) palette styles
      else (styles, []) in
    let (styles, restarted) := take_restarted styles in
    if negb restarted then
      let (styles, pending) := take_pending styles in Some (styles, (rows, pending, reset))
    else history_loop fuel history palette true (clear styles)
  end.
Definition encode_history (fuel : nat) (history : TerminalHistory) (styles : StyleTable)
    (palette : TerminalPalette) : option (StyleTable * (list Row * list WireStyle * bool)) :=
  history_loop fuel history palette false styles.

(** ** What the client has been shown *)

Record Sent := {
  sent_rows : list (list TerminalCell);
  sent_size : option (Z * Z);
  sent_palette : option WirePalette;
  sent_modes : option TerminalModes;
  sent_cursor : option TerminalCursor;
  sent_totals : option (Z * Z);
  sent_seq : Z
}.

Definition Sent_default : Sent :=
  {| sent_rows := []; sent_size := None; sent_palette := None; sent_modes := None;
     sent_cursor := None; sent_totals := None; sent_seq := 0 |}.

(** [view.cells.get(start..start + cols)] of row [y]. *)
Definition view_row (view : TerminalView) (y : nat) : option (list TerminalCell) :=
  let cols := Z.to_nat (ts_cols (tv_size view)) in
  if (y * cols + cols <=? length (tv_cells view))%nat
  then Some (take cols (drop (y * cols) (tv_cells view))) else None.

(** The [for y in 0..rows] of [diff], from row [y] on, [n] rows to go. *)
Fixpoint diff_rows (n y : nat) (view : TerminalView) (shown : list (list TerminalCell))
    (styles : StyleTable) : list (list TerminalCell) * StyleTable * list Row :=
  match n with
  | O => (shown, styles, [])
  | S n =>
    match view_row view y with
    | None => (shown, styles, [])
    | Some row =>
      if decide (shown !! y = Some row) then diff_rows n (S y) view shown styles
      else
        let (styles, encoded) := encode_row row styles (tv_palette view) in
        let '(shown, styles, rest) := diff_rows n (S y) view (<[y := row]> shown) styles in
        (shown, styles, set_y (Z.of_nat y) encoded :: rest)
    end
  end.

(** The [loop] of [diff]. *)
Fixpoint diff_loop (fuel : nat) (rows : nat) (view : TerminalView) (style_reset : bool)
    (shown : list (list TerminalCell)) (styles : StyleTable)
    : option (list (list TerminalCell) * StyleTable * list Row * bool) :=
  match fuel with
  | O => None
  | S fuel =>
    let '(shown, styles, changed) := diff_rows rows 0 view shown (begin_encode styles) in
    let (styles, restarted) := take_restarted styles in
    if negb restarted then Some (shown, styles, changed, style_reset)
    else diff_loop fuel rows view true (replicate rows []) (clear styles)
  end.

Definition mouse_name (m : MouseTracking) : list Z :=
  match m with
  | Mouse_None => bs "none" | Mouse_Press => bs "press"
  | Mouse_PressRelease => bs "press_release" | Mouse_ButtonMotion => bs "button_motion"
  | Mouse_AnyMotion => bs "any_motion"
  end.
Definition encoding_name (e : MouseEncoding) : list Z :=
  match e with Encoding_Legacy => bs "legacy" | Encoding_Sgr => bs "sgr" end.

Definition ready_message (view : TerminalView) : ServerMessage :=
  Server_Ready VERSION (ts_cols (tv_size view)) (ts_rows (tv_size view))
    (WirePalette_from (tv_palette view)).
Definition modes_message (m : TerminalModes) : ServerMessage :=
  Server_Modes VERSION (tm_alternate_screen m) (tm_bracketed_paste m) (tm_application_cursor m)
    (mouse_name (tm_mouse m)) (encoding_name (tm_mouse_encoding m)).

(** The start of [diff]: [ready], [modes], and the rows still known to be shown. *)
Definition diff_ready (s : Sent) (view : TerminalView) (styles : StyleTable)
    : list (list TerminalCell) * StyleTable * list ServerMessage :=
  let size := (ts_cols (tv_size view), ts_rows (tv_size view)) in
  if bool_decide (sent_palette s ≠ Some (WirePalette_from (tv_palette view)))
     || bool_decide (sent_size s ≠ Some size)
  then ([], clear styles, [ready_message view]) else (sent_rows s, styles, []).
Definition diff_modes (s : Sent) (view : TerminalView) : list ServerMessage :=
  if decide (sent_modes s = Some (tv_modes view)) then [] else [modes_message (tv_modes view)].
Definition diff_shown (shown : list (list TerminalCell)) (view : TerminalView)
    : list (list TerminalCell) :=
  let rows := Z.to_nat (ts_rows (tv_size view)) in
  let cols := Z.to_nat (ts_cols (tv_size view)) in
  if negb (length shown =? rows)%nat
     || match head shown with Some r => negb (length r =? cols)%nat | None => false end
  then replicate rows [] else shown.

Definition is_ready (m : ServerMessage) : bool :=
  match m with Server_Ready _ _ _ _ => true | _ => false end.

Definition diff (fuel : nat) (s : Sent) (view : TerminalView) (styles : StyleTable)
    (total scrollback : Z) : option (Sent * StyleTable * list ServerMessage) :=
  let '(shown, styles, ready) := diff_ready s view styles in
  let messages := ready ++ diff_modes s view in
  match diff_loop fuel (Z.to_nat (ts_rows (tv_size view))) view false
          (diff_shown shown view) styles with
  | None => None
  | Some (shown, styles, changed, style_reset) =>
    let messages := messages ++
      (if style_reset && negb (existsb is_ready messages) then [ready_message view] else []) in
    let (styles, pending) := take_pending styles in
    let messages := messages ++
      match pending with [] => [] | _ => [Server_Styles VERSION pending] end in
    let cursor_moved := bool_decide (sent_cursor s ≠ Some (tv_cursor view)) in
    let totals_moved := bool_decide (sent_totals s ≠ Some (total, scrollback)) in
    let send := negb (len changed =? 0) || cursor_moved || totals_moved || (sent_seq s =? 0) in
    let seq := if send then sent_seq s + 1 else sent_seq s in
    let cursor := {| wc_col := cur_col (tv_cursor view); wc_row := cur_row (tv_cursor view);
                     wc_visible := cur_visible (tv_cursor view) |} in
    let messages := messages ++
      (if send then [Server_Frame VERSION seq cursor changed total scrollback] else []) in
    Some ({| sent_rows := shown;
             sent_size := Some (ts_cols (tv_size view), ts_rows (tv_size view));
             sent_palette := Some (WirePalette_from (tv_palette view));
             sent_modes := Some (tv_modes view);
             sent_cursor := Some (tv_cursor view);
             sent_totals := Some (total, scrollback);
             sent_seq := seq |}, styles, messages)
  end.

(** The messages of a history request (client/server/src/session.rs), for a
    session of [size]. *)
Definition history_messages (size : TerminalSize) (palette : TerminalPalette)
    (history : TerminalHistory) (encoded : list Row * list WireStyle * bool)
    : list ServerMessage :=
  let '(rows, pending, reset) := encoded in
  (if reset then [Server_Ready VERSION (ts_cols size) (ts_rows size) (WirePalette_from palette)]
   else [])
  ++ match pending with [] => [] | _ => [Server_Styles VERSION pending] end
  ++ [Server_History VERSION (th_start history) rows (th_total history) (th_scrollback history)].

(** ** The table while a frame is encoded *)

(** The id of a key: zero is the default style's. *)
Definition wire_id (ids : gmap StyleKey Z) (key : StyleKey) (id : Z) : Prop :=
  (key = StyleKey_default ∧ id = 0) ∨ (key ≠ StyleKey_default ∧ ids !! key = Some id).
Definition cell_as (ids : gmap StyleKey Z) (palette : TerminalPalette) (cell : TerminalCell)
    (wire : wire_cell) : Prop :=
  wire.1.1 = cell_text cell ∧ wire.1.2 = cell_width cell
  ∧ wire_id ids (style_key (cell_style cell) palette) wire.2.

Record table_wf (t : StyleTable) : Prop := {
  table_ids : ∀ key id, st_ids t !! key = Some id → 1 <= id <= ids_len (st_ids t);
  table_default : st_ids t !! StyleKey_default = None;
  table_cap : ids_len (st_ids t) <= STYLE_CAP
}.
(** What a client knows of the styles once the pending ones are sent. *)
Definition apply_styles (known : gmap Z WireStyle) (styles : list WireStyle) : gmap Z WireStyle :=
  foldl (λ m s, <[ws_id s := s]> m) known styles.
Definition synced (known : gmap Z WireStyle) (t : StyleTable) : Prop :=
  ∀ key id, st_ids t !! key = Some id →
    apply_styles known (st_pending t) !! id = Some {| ws_id := id; ws_key := key |}.
(** A table inside a pass that has not restarted. *)
Definition live (known : gmap Z WireStyle) (t : StyleTable) : Prop :=
  table_wf t ∧ st_capped t = false ∧ synced known t.

Lemma wire_id_mono ids ids' key id : ids ⊆ ids' → wire_id ids key id → wire_id ids' key id.
Proof. intros Hs [?|[? H]]; [by left|]. right. split; [done|]. by eapply lookup_weaken. Qed.
Lemma cell_as_mono ids ids' p cell wire :
  ids ⊆ ids' → cell_as ids p cell wire → cell_as ids' p cell wire.
Proof. intros Hs (? & ? & ?). split_and!; [done..|]. by eapply wire_id_mono. Qed.

Lemma ids_len_insert ids key id :
  ids !! key = None → ids_len (<[key := id]> ids) = ids_len ids + 1.
Proof. intros H. unfold ids_len. rewrite map_size_insert_None by done. lia. Qed.

Lemma apply_styles_app known l k :
  apply_styles known (l ++ k) = apply_styles (apply_styles known l) k.
Proof. apply foldl_app. Qed.

(** A restart is never forgotten before the end of the pass. *)
Lemma intern_mono style p t t' id :
  intern style p t = (t', id) → st_restarted t' = false → st_restarted t = false.
Proof. unfold intern. intros H ?. repeat case_match; simplify_eq/=; done. Qed.
Lemma encode_cells_mono cells p t t' wire :
  encode_cells cells p t = (t', wire) → st_restarted t' = false → st_restarted t = false.
Proof.
  revert t wire. induction cells as [|c cells IH]; intros t wire H Hr; simpl in H; [by simplify_eq|].
  destruct (intern _ _ _) as [t1 id] eqn:E1, (encode_cells _ _ t1) as [t2 rest] eqn:E2.
  simplify_eq. eauto using intern_mono.
Qed.

(** One style interned without a restart. *)
Lemma intern_live known style p t t' id :
  live known t → intern style p t = (t', id) → st_restarted t' = false →
  live known t' ∧ st_ids t ⊆ st_ids t' ∧ wire_id (st_ids t') (style_key style p) id.
Proof.
  intros (Hw & Hc & Hsync) H Hr. unfold intern in H. set (key := style_key style p) in *.
  destruct (decide (key = StyleKey_default)) as [Hd|Hd].
  { simplify_eq. split; [done|]. split; [done|]. by left. }
  destruct (st_ids t !! key) as [i|] eqn:Hk.
  { simplify_eq. split; [done|]. split; [done|]. by right. }
  rewrite Hc, andb_false_r in H.
  destruct (STYLE_CAP <=? ids_len (st_ids t)) eqn:Hcap; simplify_eq; simpl in Hr.
  to_props. destruct Hw as [Hi Hdef Hle].
  split; [split; [|split; [done|]]|split]; cbn.
  - split; cbn.
    + intros k i. rewrite ids_len_insert by done.
      intros [[_ <-]|[? Hk']]%lookup_insert_Some; [unfold ids_len; lia|].
      apply Hi in Hk'. lia.
    + by rewrite lookup_insert_ne.
    + rewrite ids_len_insert by done. lia.
  - intros k i. cbn. rewrite apply_styles_app. cbn.
    intros [[<- <-]|[? Hk']]%lookup_insert_Some; [by rewrite lookup_insert_eq|].
    pose proof (Hi _ _ Hk'). rewrite lookup_insert_ne by lia. by apply Hsync.
  - by apply insert_subseteq.
  - right. by rewrite lookup_insert_eq.
Qed.

Lemma encode_cells_live known cells p t t' wire :
  live known t → encode_cells cells p t = (t', wire) → st_restarted t' = false →
  live known t' ∧ st_ids t ⊆ st_ids t' ∧ Forall2 (cell_as (st_ids t') p) cells wire.
Proof.
  revert t wire. induction cells as [|c cells IH]; intros t wire Hl H Hr; simpl in H.
  { simplify_eq. by split_and!. }
  destruct (intern _ _ _) as [t1 id] eqn:E1, (encode_cells _ _ t1) as [t2 rest] eqn:E2.
  simplify_eq. pose proof (encode_cells_mono _ _ _ _ _ E2 Hr) as Hr1.
  destruct (intern_live _ _ _ _ _ _ Hl E1 Hr1) as (Hl1 & Hs1 & Hid).
  destruct (IH _ _ Hl1 E2 Hr) as (Hl2 & Hs2 & Hf). split_and!; [done|by etrans|].
  constructor; [|done]. split_and!; [done..|]. by eapply wire_id_mono.
Qed.

(** ** A whole pass *)

Lemma begin_encode_live known t : table_wf t → synced known t → live known (begin_encode t).
Proof. by intros [] ?. Qed.
Lemma clear_live t : live ∅ (begin_encode (clear t)).
Proof. split; [|split; [done|]]; [split; cbn; try done; vm_compute; discriminate|done]. Qed.

Lemma history_rows_mono start index rows p t t' out :
  history_rows start index rows p t = (t', out) → st_restarted t' = false → st_restarted t = false.
Proof.
  revert index t out. induction rows as [|c rows IH]; intros index t out H Hr; simpl in H.
  { by simplify_eq. }
  unfold encode_row in H. destruct (encode_cells _ _ t) as [t1 wire] eqn:E1.
  destruct (history_rows _ _ _ _ t1) as [t2 rest] eqn:E2. simplify_eq.
  eauto using encode_cells_mono.
Qed.

Lemma history_rows_live known start index rows p t t' out :
  live known t → history_rows start index rows p t = (t', out) → st_restarted t' = false →
  live known t' ∧ st_ids t ⊆ st_ids t'
  ∧ Forall2 (λ cells row, Forall2 (cell_as (st_ids t') p) cells (row_cells row)) rows out
  ∧ row_y <$> out = (λ i, to_u16 (start + i)) <$> seqZ index (len rows).
Proof.
  revert index t out. induction rows as [|c rows IH]; intros index t out Hl H Hr; simpl in H.
  { by simplify_eq. }
  unfold encode_row in H. destruct (encode_cells _ _ t) as [t1 wire] eqn:E1.
  destruct (history_rows _ _ _ _ t1) as [t2 rest] eqn:E2. simplify_eq.
  pose proof (history_rows_mono _ _ _ _ _ _ _ E2 Hr) as Hr1.
  destruct (encode_cells_live _ _ _ _ _ _ Hl E1 Hr1) as (Hl1 & Hs1 & Hw).
  destruct (IH _ _ _ Hl1 E2 Hr) as (Hl2 & Hs2 & Hf & Hy). split; [done|]. split; [by etrans|].
  split.
  - constructor; [|done]. cbn. eapply Forall2_impl; [exact Hw|]. intros. by eapply cell_as_mono.
  - rewrite len_cons, seqZ_cons by len_lia. cbn. rewrite Hy.
    by replace (Z.pred (1 + len rows)) with (len rows) by lia.
Qed.

Lemma diff_rows_mono n y view shown t shown' t' changed :
  diff_rows n y view shown t = (shown', t', changed) →
  st_restarted t' = false → st_restarted t = false.
Proof.
  revert y shown t shown' changed. induction n as [|n IH]; intros y shown t shown' changed H Hr;
    simpl in H; [by simplify_eq|].
  destruct (view_row view y) as [row|]; [|by simplify_eq]. destruct (decide _); [eauto|].
  unfold encode_row in H. destruct (encode_cells _ _ t) as [t1 wire] eqn:E1.
  destruct (diff_rows _ _ _ _ t1) as [[s2 t2] rest] eqn:E2. simplify_eq.
  eauto using encode_cells_mono.
Qed.

(** The client's rows, and what a frame makes of them. *)
Definition apply_rows (lines : gmap Z (list wire_cell)) (rows : list Row)
    : gmap Z (list wire_cell) :=
  foldl (λ m r, <[row_y r := row_cells r]> m) lines rows.
(** Every row the server counts as shown is a row of the client, under the
    current ids. *)
Definition lines_ok (ids : gmap StyleKey Z) (p : TerminalPalette)
    (lines : gmap Z (list wire_cell)) (shown : list (list TerminalCell)) : Prop :=
  ∀ y row, shown !! y = Some row → row ≠ [] →
    ∃ wire, lines !! Z.of_nat y = Some wire ∧ Forall2 (cell_as ids p) row wire.

Lemma lines_ok_insert ids ids' p lines shown (y : nat) row wire :
  lines_ok ids p lines shown → ids ⊆ ids' → Forall2 (cell_as ids' p) row wire →
  lines_ok ids' p (<[Z.of_nat y := wire]> lines) (<[y := row]> shown).
Proof.
  intros Hok Hs Hw z row' Hz Hne. destruct (decide (z = y)) as [->|Hzy].
  - apply list_lookup_insert_Some in Hz as [(_ & <- & _)|[]]; [|done].
    exists wire. by rewrite lookup_insert_eq.
  - rewrite list_lookup_insert_ne in Hz by done.
    rewrite lookup_insert_ne by (intros ?%Nat2Z.inj; by subst).
    destruct (Hok _ _ Hz Hne) as (w & Hl & Hf). exists w. split; [done|].
    eapply Forall2_impl; [exact Hf|]. intros. by eapply cell_as_mono.
Qed.

Lemma diff_rows_live known n y view shown t shown' t' changed lines :
  live known t → lines_ok (st_ids t) (tv_palette view) lines shown →
  diff_rows n y view shown t = (shown', t', changed) → st_restarted t' = false →
  live known t' ∧ st_ids t ⊆ st_ids t'
  ∧ lines_ok (st_ids t') (tv_palette view) (apply_rows lines changed) shown'.
Proof.
  revert y shown t shown' changed lines.
  induction n as [|n IH]; intros y shown t shown' changed lines Hl Hok H Hr; simpl in H.
  { by simplify_eq. }
  destruct (view_row view y) as [row|]; [|by simplify_eq]. destruct (decide _); [eauto|].
  unfold encode_row in H. destruct (encode_cells _ _ t) as [t1 wire] eqn:E1.
  destruct (diff_rows _ _ _ _ t1) as [[s2 t2] rest] eqn:E2. simplify_eq.
  pose proof (diff_rows_mono _ _ _ _ _ _ _ _ E2 Hr) as Hr1.
  destruct (encode_cells_live _ _ _ _ _ _ Hl E1 Hr1) as (Hl1 & Hs1 & Hw).
  destruct (IH _ _ _ _ _ (<[Z.of_nat y := wire]> lines) Hl1
              (lines_ok_insert _ _ _ _ _ _ _ _ Hok Hs1 Hw) E2 Hr) as (Hl2 & Hs2 & Hok2).
  split; [done|]. split; [by etrans|done].
Qed.

(** A pass leaves exactly the rows of the view shown. *)
Lemma diff_rows_shown n y view shown t shown' t' changed :
  diff_rows n y view shown t = (shown', t', changed) → (y + n <= length shown)%nat →
  (∀ i, (y <= i < y + n)%nat → is_Some (view_row view i)) →
  length shown' = length shown
  ∧ (∀ i, (y <= i < y + n)%nat → shown' !! i = view_row view i)
  ∧ (∀ i, (i < y)%nat → shown' !! i = shown !! i).
Proof.
  revert y shown t shown' changed. induction n as [|n IH]; intros y shown t shown' changed H Hlen Hv;
    simpl in H; [simplify_eq; split_and!; auto with lia|].
  destruct (Hv y ltac:(lia)) as [row Hrow]. rewrite Hrow in H.
  assert (∀ shown1 t1 rest, diff_rows n (S y) view shown1 t1 = (shown', t', rest) →
    shown1 !! y = Some row → length shown1 = length shown →
    (∀ i, (i < y)%nat → shown1 !! i = shown !! i) →
    length shown' = length shown ∧ (∀ i, (y <= i < y + S n)%nat → shown' !! i = view_row view i)
    ∧ (∀ i, (i < y)%nat → shown' !! i = shown !! i)) as Hstep.
  { intros shown1 t1 rest Hd Hy Hl Hbelow.
    destruct (IH _ _ _ _ _ Hd) as (Hl' & Hin & Hlow); [lia|intros; apply Hv; lia|].
    split; [congruence|]. split.
    - intros i Hi. destruct (decide (i = y)) as [->|]; [|apply Hin; lia].
      rewrite Hlow by lia. congruence.
    - intros i Hi. rewrite Hlow by lia. by apply Hbelow. }
  destruct (decide _); [by eapply Hstep|].
  unfold encode_row in H. destruct (encode_cells _ _ t) as [t1 wire] eqn:E1.
  destruct (diff_rows _ _ _ _ t1) as [[s2 t2] rest] eqn:E2. simplify_eq.
  eapply Hstep; [exact E2| | |].
  - by rewrite list_lookup_insert_eq by lia.
  - apply length_insert.
  - intros i Hi. by rewrite list_lookup_insert_ne by lia.
Qed.

Lemma lines_ok_empty ids p lines n : lines_ok ids p lines (replicate n []).
Proof. intros y row Hy Hne. by apply lookup_replicate_1 in Hy as [-> _]. Qed.

Lemma view_row_some view y :
  view_wf view → (y < Z.to_nat (ts_rows (tv_size view)))%nat →
  ∃ row, view_row view y = Some row ∧ row ≠ [].
Proof.
  intros (Hc & Hr & Hl) Hy. unfold view_row.
  set (cols := Z.to_nat (ts_cols (tv_size view))). set (rows := Z.to_nat (ts_rows (tv_size view))) in *.
  assert (length (tv_cells view) = (cols * rows)%nat) as Hn by (unfold len in Hl; lia).
  assert (0 < cols)%nat by lia. rewrite Hn.
  rewrite (proj2 (Nat.leb_le _ _)) by nia. eexists. split; [done|].
  intros Hnil%(f_equal length). rewrite length_take, length_drop, Hn in Hnil. simpl in Hnil. nia.
Qed.

(** Once the table has been cleared, nothing of the old ids or rows matters. *)
Lemma diff_loop_fresh fuel rows view shown' t' changed reset' t :
  (∀ i, (i < rows)%nat → is_Some (view_row view i)) →
  diff_loop fuel rows view true (replicate rows []) (clear t) = Some (shown', t', changed, reset') →
  (∀ i, (i < rows)%nat → shown' !! i = view_row view i) ∧ length shown' = rows ∧ table_wf t'
  ∧ reset' = true ∧ synced ∅ t'
  ∧ ∀ lines, lines_ok (st_ids t') (tv_palette view) (apply_rows lines changed) shown'.
Proof.
  intros Hv. revert t. induction fuel as [|fuel IH]; intros t H; simpl in H; [done|].
  destruct (diff_rows rows 0 view _ _) as [[shown1 t1] changed1] eqn:Hd.
  destruct (diff_rows_shown _ _ _ _ _ _ _ _ Hd) as (Hl1 & Hin & _);
    [rewrite length_replicate; lia|intros; apply Hv; lia|].
  cbn in H. destruct (st_restarted t1) eqn:Hr; cbn in H; [by eapply IH|].
  simplify_eq. rewrite length_replicate in Hl1.
  assert (∀ lines, live ∅ t1
    ∧ lines_ok (st_ids t1) (tv_palette view) (apply_rows lines changed) shown') as Hl.
  { intros lines.
    destruct (diff_rows_live ∅ _ _ _ _ _ _ _ _ lines (clear_live t) (lines_ok_empty _ _ _ _) Hd Hr)
      as (? & _ & ?). done. }
  destruct (Hl ∅) as [(Hw & _ & Hs) _]. split; [intros; apply Hin; lia|]. split; [done|].
  split; [by destruct Hw|]. split; [done|]. split; [done|]. intros lines. apply Hl.
Qed.

Lemma diff_loop_spec known lines fuel rows view reset shown t shown' t' changed reset' :
  table_wf t → synced known t → lines_ok (st_ids t) (tv_palette view) lines shown →
  length shown = rows → (∀ i, (i < rows)%nat → is_Some (view_row view i)) →
  diff_loop fuel rows view reset shown t = Some (shown', t', changed, reset') →
  (∀ i, (i < rows)%nat → shown' !! i = view_row view i) ∧ length shown' = rows ∧ table_wf t' ∧
  ((reset' = reset ∧ synced known t'
    ∧ lines_ok (st_ids t') (tv_palette view) (apply_rows lines changed) shown')
   ∨ (reset' = true ∧ synced ∅ t'
      ∧ ∀ lines', lines_ok (st_ids t') (tv_palette view) (apply_rows lines' changed) shown')).
Proof.
  intros Hw Hs Hok Hlen Hv. destruct fuel as [|fuel]; [done|]. simpl.
  destruct (diff_rows rows 0 view shown (begin_encode t)) as [[shown1 t1] changed1] eqn:Hd.
  destruct (diff_rows_shown _ _ _ _ _ _ _ _ Hd) as (Hl1 & Hin & _);
    [lia|intros; apply Hv; lia|].
  cbn. destruct (st_restarted t1) eqn:Hr; cbn; intros H.
  - pose proof (diff_loop_fresh fuel rows view _ _ _ _ _ Hv H) as (? & ? & ? & -> & ?).
    split_and!; auto.
  - simplify_eq. destruct (diff_rows_live known _ _ _ _ _ _ _ _ lines
      (begin_encode_live _ _ Hw Hs) Hok Hd Hr) as ((Hw1 & _ & Hs1) & _ & Hok1).
    split; [intros; apply Hin; lia|]. split; [congruence|]. split; [by destruct Hw1|]. by left.
Qed.

(** ** The client

    What the protocol (client/PROTOCOL.md) asks of a client: [ready] clears
    the style map, [styles] extends it, [frame] replaces rows and moves the
    cursor; rows keep style ids, which are looked up when the row is drawn. *)

Section client.
(** How the client adapts its rows to a [ready] of a new size. *)
Variable adapt : Z → Z → gmap Z (list wire_cell) → gmap Z (list wire_cell).

Record Client := {
  cl_styles : gmap Z WireStyle;
  cl_lines : gmap Z (list wire_cell);
  cl_cursor : option Cursor
}.
Definition Client_default : Client := {| cl_styles := ∅; cl_lines := ∅; cl_cursor := None |}.

Definition client_step (c : Client) (m : ServerMessage) : Client :=
  match m with
  | Server_Ready _ cols rows _ =>
    {| cl_styles := ∅; cl_lines := adapt cols rows (cl_lines c); cl_cursor := cl_cursor c |}
  | Server_Styles _ styles =>
    {| cl_styles := apply_styles (cl_styles c) styles; cl_lines := cl_lines c;
       cl_cursor := cl_cursor c |}
  | Server_Frame _ _ cursor rows _ _ =>
    {| cl_styles := cl_styles c; cl_lines := apply_rows (cl_lines c) rows;
       cl_cursor := Some cursor |}
  | _ => c
  end.
Definition client_run (c : Client) (messages : list ServerMessage) : Client :=
  foldl client_step c messages.

(** The style a cell is drawn with. *)
Definition drawn_style (c : Client) (id : Z) : option StyleKey :=
  if id =? 0 then Some StyleKey_default else ws_key <$> cl_styles c !! id.
Definition cell_drawn (c : Client) (p : TerminalPalette) (cell : TerminalCell)
    (wire : wire_cell) : Prop :=
  wire.1.1 = cell_text cell ∧ wire.1.2 = cell_width cell
  ∧ drawn_style c wire.2 = Some (style_key (cell_style cell) p).
Definition wire_cursor (c : TerminalCursor) : Cursor :=
  {| wc_col := cur_col c; wc_row := cur_row c; wc_visible := cur_visible c |}.
(** The client draws the view: every row, cell by cell, and the cursor. *)
Definition shows (c : Client) (view : TerminalView) : Prop :=
  cl_cursor c = Some (wire_cursor (tv_cursor view)) ∧
  ∀ y, (y < Z.to_nat (ts_rows (tv_size view)))%nat →
    ∃ row wire, view_row view y = Some row ∧ cl_lines c !! Z.of_nat y = Some wire
      ∧ Forall2 (cell_drawn c (tv_palette view)) row wire.

(** A session of the server with one client: the views it renders, in order. *)
Fixpoint serve (fuel : nat) (views : list (TerminalView * Z * Z)) (s : Sent) (t : StyleTable)
    (c : Client) : option (Sent * StyleTable * Client) :=
  match views with
  | [] => Some (s, t, c)
  | (view, total, scrollback) :: views =>
    match diff fuel s view t total scrollback with
    | None => None
    | Some (s, t, messages) => serve fuel views s t (client_run c messages)
    end
  end.

(** What server and client agree on between two frames. *)
Record consistent (s : Sent) (t : StyleTable) (c : Client) : Prop := {
  con_table : table_wf t;
  con_pending : st_pending t = [];
  con_synced : synced (cl_styles c) t;
  con_lines : ∀ p, sent_palette s = Some (WirePalette_from p) →
    lines_ok (st_ids t) p (cl_lines c) (sent_rows s);
  con_cursor : ∀ cur, sent_cursor s = Some cur → cl_cursor c = Some (wire_cursor cur)
}.

Lemma consistent_default : consistent Sent_default StyleTable_default Client_default.
Proof. split; [split; cbn; try done; vm_compute; discriminate|done..]. Qed.

Lemma client_run_app c l k : client_run c (l ++ k) = client_run (client_run c l) k.
Proof. apply foldl_app. Qed.

(** The ids of the table resolve to their keys. *)
Lemma cell_as_drawn t c p cell wire :
  table_wf t → (∀ key id, st_ids t !! key = Some id →
    cl_styles c !! id = Some {| ws_id := id; ws_key := key |}) →
  cell_as (st_ids t) p cell wire → cell_drawn c p cell wire.
Proof.
  intros Hw Hs (? & ? & Hid). split; [done|]. split; [done|]. unfold drawn_style.
  destruct Hid as [[-> ->]|[_ Hid]]; [done|].
  pose proof (table_ids _ Hw _ _ Hid). rewrite (proj2 (Z.eqb_neq _ _)) by lia.
  by rewrite (Hs _ _ Hid).
Qed.

Lemma diff_ready_spec s view t c shown t1 ready :
  consistent s t c → diff_ready s view t = (shown, t1, ready) →
  let c1 := client_run c ready in
  table_wf t1 ∧ synced (cl_styles c1) t1
  ∧ lines_ok (st_ids t1) (tv_palette view) (cl_lines c1) (diff_shown shown view)
  ∧ cl_cursor c1 = cl_cursor c
  ∧ (ready = [] ∨ ready = [ready_message view] ∧ cl_styles c1 = ∅).
Proof.
  intros Hc H. unfold diff_ready in H. case_match eqn:Ht; simplify_eq; cbn.
  - split; [apply (clear_live t)|]. split; [done|]. split; [|by auto].
    unfold diff_shown. case_match; [apply lines_ok_empty|]. done.
  - to_props. destruct Hc as [Hw Hp Hs Hl Hcur]. split; [done|]. split; [done|].
    split; [|by auto]. unfold diff_shown. case_match; [apply lines_ok_empty|]. by apply Hl.
Qed.

Lemma diff_shown_length shown view :
  length (diff_shown shown view) = Z.to_nat (ts_rows (tv_size view)).
Proof.
  unfold diff_shown. case_match eqn:E; [apply length_replicate|]. to_props.
  by apply Nat.eqb_eq.
Qed.

Lemma client_run_modes c s view : client_run c (diff_modes s view) = c.
Proof. unfold diff_modes. by case_match. Qed.

Lemma existsb_is_ready ready s view :
  (ready = [] ∨ ready = [ready_message view]) →
  existsb is_ready (ready ++ diff_modes s view) = negb (bool_decide (ready = [])).
Proof. intros [-> | ->]; [unfold diff_modes; by case_match | done]. Qed.

Lemma WirePalette_from_inj p q : WirePalette_from p = WirePalette_from q → p = q.
Proof. destruct p, q. by injection 1 as -> -> -> ->. Qed.

(** The last messages: the pending styles, and the frame if there is one. *)
Lemma client_run_frame c pending send seq cursor changed total scrollback :
  (send = false → changed = []) →
  let c' := client_run c
    (match pending with [] => [] | _ => [Server_Styles VERSION pending] end
     ++ if send : bool then [Server_Frame VERSION seq cursor changed total scrollback] else []) in
  cl_styles c' = apply_styles (cl_styles c) pending
  ∧ cl_lines c' = apply_rows (cl_lines c) changed
  ∧ cl_cursor c' = if send then Some cursor else cl_cursor c.
Proof. intros Hs. destruct send; [|rewrite Hs by done]; by destruct pending. Qed.

(** Client and server agree again after the messages of a [diff], and the
    client draws the view. *)
Lemma diff_consistent fuel s view t total scrollback s' t' messages c :
  consistent s t c → view_wf view →
  diff fuel s view t total scrollback = Some (s', t', messages) →
  consistent s' t' (client_run c messages) ∧ shows (client_run c messages) view.
Proof.
  intros Hcon Hv H. unfold diff in H.
  destruct (diff_ready s view t) as [[shown t1] ready] eqn:Hready.
  destruct (diff_ready_spec _ _ _ _ _ _ _ Hcon Hready) as (Hw1 & Hs1 & Hl1 & Hcur1 & Hrd).
  set (rows := Z.to_nat (ts_rows (tv_size view))) in *.
  destruct (diff_loop fuel rows view false (diff_shown shown view) t1)
    as [[[[shown2 t2] changed] reset]|] eqn:Hloop; [|done].
  assert (∀ i, (i < rows)%nat → is_Some (view_row view i)) as Hvr.
  { intros i Hi. destruct (view_row_some view i Hv Hi) as (row & -> & _). eauto. }
  destruct (diff_loop_spec _ _ _ _ _ _ _ _ _ _ _ _ Hw1 Hs1 Hl1 (diff_shown_length _ _) Hvr Hloop)
    as (Hin & Hlen & Hw2 & Hcase).
  set (resend := if reset && _ then [ready_message view] else []) in H.
  set (c2 := client_run (client_run c ready) resend).
  assert (synced (cl_styles c2) t2
    ∧ lines_ok (st_ids t2) (tv_palette view) (apply_rows (cl_lines c2) changed) shown2
    ∧ cl_cursor c2 = cl_cursor c) as (Hs2 & Hl2 & Hcur2).
  { subst c2. destruct Hcase as [(-> & Hs2 & Hl2)|(-> & Hs2 & Hl2)]; [done|].
    subst resend. destruct Hrd as [-> |[-> Hempty]].
    - rewrite existsb_is_ready by auto. done.
    - rewrite existsb_is_ready by auto. cbn in Hempty |- *. done. }
  clear Hcase Hs1 Hl1. cbn [take_pending] in H.
  set (send := negb (len changed =? 0) || _ || _ || _) in H. injection H as <- <- <-.
  assert (send = false → changed = [] ∧ cl_cursor c2 = Some (wire_cursor (tv_cursor view)))
    as Hsend.
  { subst send. intros ?. to_props. split; [by apply len_zero|].
    rewrite Hcur2. by apply (con_cursor _ _ _ Hcon). }
  rewrite <-!app_assoc, client_run_app, client_run_app, client_run_modes, client_run_app.
  fold c2. clearbody c2 send.
  pose proof (client_run_frame c2 (st_pending t2) send (if send then sent_seq s + 1 else sent_seq s)
    (wire_cursor (tv_cursor view)) changed total scrollback (λ H, proj1 (Hsend H)))
    as (Hst & Hli & Hcu). cbn zeta in Hst, Hli, Hcu.
  set (c4 := client_run c2 _) in Hst, Hli, Hcu |- *. unfold wire_cursor in c4. fold c4.
  clearbody c4.
  assert (cl_cursor c4 = Some (wire_cursor (tv_cursor view))) as Hc4
    by (rewrite Hcu; destruct send; [done|by apply Hsend]).
  assert (∀ key id, st_ids t2 !! key = Some id →
    cl_styles c4 !! id = Some {| ws_id := id; ws_key := key |}) as Hres.
  { intros key id Hk. rewrite Hst. by apply Hs2. }
  rewrite <-Hli in Hl2. split.
  - split; cbn; [by destruct Hw2|done|exact Hres| |intros cur [= <-]; done].
    intros p Hp. apply (inj Some), WirePalette_from_inj in Hp as <-. done.
  - split; [done|]. intros y Hy. destruct (view_row_some view y Hv Hy) as (row & Hrow & Hne).
    destruct (Hl2 y row) as (wire & Hl & Hf); [by rewrite Hin|done|].
    exists row, wire. split; [done|]. split; [done|].
    eapply Forall2_impl; [exact Hf|]. intros cell w. by apply cell_as_drawn.
Qed.

Lemma serve_consistent fuel views s t c s' t' c' :
  consistent s t c → Forall (λ v, view_wf v.1.1) views →
  serve fuel views s t c = Some (s', t', c') →
  consistent s' t' c' ∧ ∀ v, last views = Some v → shows c' v.1.1.
Proof.
  intros Hcon Hv. revert s t c Hcon. induction Hv as [|[[view total] scrollback] views Hw _ IH];
    intros s t c Hcon H; cbn in H; [by simplify_eq|].
  destruct (diff _ _ _ _ _ _) as [[[s1 t1] messages]|] eqn:Hd; [|done].
  destruct (diff_consistent _ _ _ _ _ _ _ _ _ _ Hcon Hw Hd) as [Hcon1 Hsh].
  destruct (IH _ _ _ Hcon1 H) as [Hcon' Hlast]. split; [done|].
  destruct views as [|v views]; [|by rewrite last_cons_cons].
  simpl in H. simplify_eq. intros v [= <-]. done.
Qed.

End client.

(** ** Termination of the encoding loops *)

(** The non-default styles of some cells. *)
Definition style_keys (p : TerminalPalette) (cells : list TerminalCell) : gset StyleKey :=
  list_to_set (filter (λ k, k ≠ StyleKey_default) ((λ c, style_key (cell_style c) p) <$> cells)).

Lemma elem_of_style_keys p cells key :
  key ∈ style_keys p cells ↔
  key ≠ StyleKey_default ∧ ∃ c, c ∈ cells ∧ key = style_key (cell_style c) p.
Proof.
  unfold style_keys. rewrite elem_of_list_to_set, list_elem_of_filter, list_elem_of_fmap.
  naive_solver.
Qed.

(** A table whose keys are among few enough never restarts. *)
Definition within (S : gset StyleKey) (t : StyleTable) : Prop :=
  (∀ key id, st_ids t !! key = Some id → key ∈ S) ∧ st_restarted t = false.

Lemma ids_len_within S t key :
  within S t → key ∈ S → st_ids t !! key = None → ids_len (st_ids t) + 1 <= Z.of_nat (size S).
Proof.
  intros [Hs _] Hk Hn. unfold ids_len. rewrite <-size_dom.
  assert ({[key]} ∪ dom (st_ids t) ⊆ S) as Hsub.
  { intros k [->%elem_of_singleton|[id Hid]%elem_of_dom]%elem_of_union; [done|by eapply Hs]. }
  apply subseteq_size in Hsub. rewrite size_union, size_singleton in Hsub; [lia|].
  intros k ->%elem_of_singleton [? ?]%elem_of_dom. congruence.
Qed.

Lemma intern_within S style p t t' id :
  Z.of_nat (size S) <= STYLE_CAP → within S t →
  (style_key style p ≠ StyleKey_default → style_key style p ∈ S) →
  intern style p t = (t', id) → within S t'.
Proof.
  intros Hcap Ht Hk H. unfold intern in H. destruct (decide _); [by simplify_eq|].
  destruct (st_ids t !! _) eqn:Hl; [by simplify_eq|].
  pose proof (ids_len_within S t _ Ht (Hk ltac:(done)) Hl).
  rewrite (proj2 (Z.leb_gt _ _)) in H by lia. cbn in H. simplify_eq. destruct Ht as [Hs Hr].
  split; [|done]. cbn. intros k i [[<- _]|[_ ?]]%lookup_insert_Some; eauto.
Qed.

Lemma encode_cells_within S cells p t t' wire :
  Z.of_nat (size S) <= STYLE_CAP → within S t → style_keys p cells ⊆ S →
  encode_cells cells p t = (t', wire) → within S t'.
Proof.
  intros Hcap. revert t wire. induction cells as [|c cells IH]; intros t wire Ht Hk H; simpl in H.
  { by simplify_eq. }
  destruct (intern _ _ _) as [t1 id] eqn:E1, (encode_cells _ _ t1) as [t2 rest] eqn:E2.
  simplify_eq. eapply IH; [|intros k Hk'; apply Hk|exact E2].
  - eapply intern_within; [done|exact Ht| |exact E1]. intros Hne. apply Hk.
    apply elem_of_style_keys. split; [done|]. exists c. split; [by left|done].
  - apply elem_of_style_keys in Hk' as (? & c' & ? & ?). apply elem_of_style_keys.
    split; [done|]. exists c'. split; [by right|done].
Qed.

Lemma elem_of_slice {A} (x : A) n m l : x ∈ take n (drop m l) → x ∈ l.
Proof.
  intros H. rewrite <-(take_drop m l). apply elem_of_app. right.
  rewrite <-(take_drop n (drop m l)). apply elem_of_app. by left.
Qed.

Lemma view_row_keys view y row :
  view_row view y = Some row →
  style_keys (tv_palette view) row ⊆ style_keys (tv_palette view) (tv_cells view).
Proof.
  unfold view_row. case_match; [|done]. intros [= <-] k.
  rewrite !elem_of_style_keys. intros (? & c & Hc%elem_of_slice & ?). eauto.
Qed.

Lemma diff_rows_within S n y view shown t shown' t' changed :
  Z.of_nat (size S) <= STYLE_CAP → within S t →
  style_keys (tv_palette view) (tv_cells view) ⊆ S →
  diff_rows n y view shown t = (shown', t', changed) → within S t'.
Proof.
  intros Hcap. revert y shown t shown' changed.
  induction n as [|n IH]; intros y shown t shown' changed Ht Hk H; simpl in H; [by simplify_eq|].
  destruct (view_row view y) as [row|] eqn:Hrow; [|by simplify_eq].
  destruct (decide _); [by eapply IH|].
  unfold encode_row in H. destruct (encode_cells _ _ t) as [t1 wire] eqn:E1.
  destruct (diff_rows _ _ _ _ t1) as [[s2 t2] rest] eqn:E2. simplify_eq.
  eapply IH; [|done|exact E2]. eapply encode_cells_within; [done|exact Ht| |exact E1].
  etrans; [by eapply view_row_keys|done].
Qed.

Lemma within_clear S t : within S (begin_encode (clear t)).
Proof. done. Qed.

Lemma diff_loop_terminates rows view reset shown t :
  Z.of_nat (size (style_keys (tv_palette view) (tv_cells view))) <= STYLE_CAP →
  is_Some (diff_loop 2 rows view reset shown t).
Proof.
  intros Hcap. simpl.
  destruct (diff_rows rows 0 view shown _) as [[shown1 t1] changed1]. cbn.
  destruct (st_restarted t1); [|by eexists]. cbn.
  destruct (diff_rows rows 0 view (replicate rows []) _) as [[shown2 t2] changed2] eqn:Hd. cbn.
  destruct (diff_rows_within _ _ _ _ _ _ _ _ _ Hcap (within_clear _ t1) ltac:(reflexivity) Hd)
    as [_ ->]. by eexists.
Qed.

(** a frame whose cells use at most 512 distinct non-default styles (a
    blank or ordinary screen of any size) is encoded in at most two passes,
    whatever the table held before. *)
Theorem diff_terminates s view t total scrollback :
  Z.of_nat (size (style_keys (tv_palette view) (tv_cells view))) <= STYLE_CAP →
  is_Some (diff 2 s view t total scrollback).
Proof.
  intros Hcap. unfold diff. destruct (diff_ready s view t) as [[shown t1] ready].
  destruct (diff_loop_terminates (Z.to_nat (ts_rows (tv_size view))) view false
    (diff_shown shown view) t1 Hcap) as [[[[? t2] ?] ?] ->]. by eexists.
Qed.

Lemma diff_loop_more fuel more rows view reset shown t r :
  (fuel <= more)%nat → diff_loop fuel rows view reset shown t = Some r →
  diff_loop more rows view reset shown t = Some r.
Proof.
  revert more reset shown t. induction fuel as [|fuel IH]; intros [|more] reset shown t Hle H;
    [done|done|lia|]. simpl in H |- *.
  destruct (diff_rows _ _ _ _ _) as [[shown1 t1] changed1]. cbn in H |- *.
  destruct (st_restarted t1); cbn in H |- *; [|done]. apply IH; [lia|done].
Qed.

Lemma diff_more fuel more s view t total scrollback r :
  (fuel <= more)%nat → diff fuel s view t total scrollback = Some r →
  diff more s view t total scrollback = Some r.
Proof.
  intros Hle. unfold diff. destruct (diff_ready s view t) as [[shown t1] ready].
  destruct (diff_loop fuel _ _ _ _ _) as [r1|] eqn:Hd; [|done].
  by rewrite (diff_loop_more _ _ _ _ _ _ _ _ Hle Hd).
Qed.

(** The budget the wire document gives a picture: at most [STYLE_CAP] styles
    other than the default. *)
Definition within_budget (view : TerminalView) : Prop :=
  Z.of_nat (size (style_keys (tv_palette view) (tv_cells view))) <= STYLE_CAP.

Lemma serve_returns {adapt} fuel views s t c :
  Forall (λ v, within_budget v.1.1) views → (2 <= fuel)%nat →
  ∃ r, serve adapt 2 views s t c = Some r ∧ serve adapt fuel views s t c = Some r.
Proof.
  intros Hv Hf. revert s t c.
  induction Hv as [|[[view total] scrollback] views Hb _ IH]; intros s t c; [by eexists|].
  destruct (diff_terminates s view t total scrollback Hb) as [[[s1 t1] messages] Hd].
  cbn [serve]. rewrite (diff_more _ _ _ _ _ _ _ _ Hf Hd), Hd. apply IH.
Qed.

(** ** More styles than the table holds *)

Lemma keys_overflow known (S : gset StyleKey) p (cells : list TerminalCell) t :
  live known t → STYLE_CAP < Z.of_nat (size S) →
  (∀ key, key ∈ S → key ≠ StyleKey_default ∧ ∃ c, c ∈ cells ∧ key = style_key (cell_style c) p) →
  (∀ c, c ∈ cells → ∃ id, wire_id (st_ids t) (style_key (cell_style c) p) id) → False.
Proof.
  intros ([_ _ Hle] & _) Hcap Hs Hc.
  assert (S ⊆ dom (st_ids t)) as Hsub.
  { intros key Hk. destruct (Hs _ Hk) as (Hne & c & Hin & ->).
    destruct (Hc _ Hin) as [id [[? _]|[_ ?]]]; [done|]. apply elem_of_dom. eauto. }
  apply subseteq_size in Hsub. rewrite size_dom in Hsub. unfold ids_len in Hle. lia.
Qed.

Lemma Forall2_wire_ids ids p (cells : list TerminalCell) wire :
  Forall2 (cell_as ids p) cells wire →
  ∀ c, c ∈ cells → ∃ id, wire_id ids (style_key (cell_style c) p) id.
Proof.
  intros Hf c (i & Hi)%list_elem_of_lookup. destruct (Forall2_lookup_l _ _ _ _ _ Hf Hi)
    as (w & _ & _ & _ & Hid). eauto.
Qed.

Lemma style_keys_spec p cells key :
  key ∈ style_keys p cells →
  key ≠ StyleKey_default ∧ ∃ c, c ∈ cells ∧ key = style_key (cell_style c) p.
Proof. apply elem_of_style_keys. Qed.

(** Every cell of a view is in one of its rows. *)
Lemma view_cell_row view c :
  view_wf view → c ∈ tv_cells view →
  ∃ y row, (y < Z.to_nat (ts_rows (tv_size view)))%nat ∧ view_row view y = Some row ∧ c ∈ row.
Proof.
  intros (Hc & Hr & Hl) (i & Hi)%list_elem_of_lookup. unfold view_row.
  set (cols := Z.to_nat (ts_cols (tv_size view))). set (rows := Z.to_nat (ts_rows (tv_size view))) in *.
  assert (length (tv_cells view) = (rows * cols)%nat) as Hn by (unfold len in Hl; lia).
  assert (0 < cols)%nat as Hpos by lia. pose proof (lookup_lt_Some _ _ _ Hi) as Hlt.
  pose proof (Nat.div_mod i cols ltac:(lia)) as Hdm.
  pose proof (Nat.mod_upper_bound i cols ltac:(lia)) as Hm.
  assert (i / cols < rows)%nat as Hy by (apply Nat.Div0.div_lt_upper_bound; lia).
  exists (i / cols)%nat. eexists. split; [done|]. rewrite (proj2 (Nat.leb_le _ _)) by nia.
  split; [done|]. apply list_elem_of_lookup. exists (i mod cols)%nat.
  rewrite lookup_take_lt, lookup_drop by done. rewrite <-Hi. f_equal. lia.
Qed.

(** A pass over a whole view with too many styles restarts. *)
Lemma fresh_pass_restarts known view t shown' t' changed :
  view_wf view → live known t →
  STYLE_CAP < Z.of_nat (size (style_keys (tv_palette view) (tv_cells view))) →
  diff_rows (Z.to_nat (ts_rows (tv_size view))) 0 view
    (replicate (Z.to_nat (ts_rows (tv_size view))) []) t = (shown', t', changed) →
  st_restarted t' = true.
Proof.
  intros Hv Hl Hcap Hd. destruct (st_restarted t') eqn:Hr; [done|exfalso].
  destruct (diff_rows_shown _ _ _ _ _ _ _ _ Hd) as (_ & Hin & _).
  { rewrite length_replicate. lia. }
  { intros i Hi. destruct (view_row_some view i Hv ltac:(lia)) as (row & -> & _). eauto. }
  destruct (diff_rows_live known _ _ _ _ _ _ _ _ ∅ Hl (lines_ok_empty _ _ _ _) Hd Hr)
    as (Hl' & _ & Hok).
  eapply keys_overflow; [exact Hl'|exact Hcap|apply style_keys_spec|].
  intros c Hc. destruct (view_cell_row _ _ Hv Hc) as (y & row & Hy & Hrow & Hcr).
  destruct (Hok y row) as (wire & _ & Hf).
  - rewrite Hin by lia. done.
  - intros ->. by apply not_elem_of_nil in Hcr.
  - by eapply Forall2_wire_ids.
Qed.

Lemma diff_loop_diverges fuel view reset t :
  view_wf view →
  STYLE_CAP < Z.of_nat (size (style_keys (tv_palette view) (tv_cells view))) →
  diff_loop fuel (Z.to_nat (ts_rows (tv_size view))) view reset
    (replicate (Z.to_nat (ts_rows (tv_size view))) []) (clear t) = None.
Proof.
  intros Hv Hcap. revert reset t. induction fuel as [|fuel IH]; intros reset t; [done|].
  simpl. destruct (diff_rows _ _ _ _ _) as [[shown1 t1] changed1] eqn:Hd. cbn.
  rewrite (fresh_pass_restarts _ _ _ _ _ _ Hv (clear_live t) Hcap Hd). cbn.
  apply (IH true t1).
Qed.

Lemma chunks_join cols cells : (0 < cols)%nat → mjoin (chunks cols cells) = cells.
Proof.
  intros Hc. unfold chunks. generalize (le_n (length cells)).
  generalize (length cells) at 2 3 as fuel. intros fuel. revert cells.
  induction fuel as [|fuel IH]; intros [|c cells] Hl; try done; [simpl in Hl; lia|].
  change (take cols (c :: cells) ++ mjoin (chunks_loop fuel cols (drop cols (c :: cells)))
          = c :: cells).
  rewrite IH; [apply take_drop|]. rewrite length_drop. simpl in *. lia.
Qed.

Lemma history_pass_restarts known history p t t' out :
  0 < th_cols history → live known t →
  STYLE_CAP < Z.of_nat (size (style_keys p (th_cells history))) →
  history_rows (th_start history) 0 (chunks (Z.to_nat (th_cols history)) (th_cells history)) p t
    = (t', out) →
  st_restarted t' = true.
Proof.
  intros Hc Hl Hcap Hd. destruct (st_restarted t') eqn:Hr; [done|exfalso].
  destruct (history_rows_live known _ _ _ _ _ _ _ Hl Hd Hr) as (Hl' & _ & Hf & _).
  eapply keys_overflow; [exact Hl'|exact Hcap|apply style_keys_spec|].
  intros c Hcin. rewrite <-(chunks_join (Z.to_nat (th_cols history)) (th_cells history)) in Hcin
    by lia.
  apply list_elem_of_join in Hcin as (chunk & Hcc & (i & Hi)%list_elem_of_lookup).
  destruct (Forall2_lookup_l _ _ _ _ _ Hf Hi) as (row & _ & Hw).
  by eapply Forall2_wire_ids.
Qed.

Lemma history_loop_diverges fuel history p reset t :
  0 < th_cols history → STYLE_CAP < Z.of_nat (size (style_keys p (th_cells history))) →
  history_loop fuel history p reset (clear t) = None.
Proof.
  intros Hc Hcap. revert reset t. induction fuel as [|fuel IH]; intros reset t; [done|].
  simpl. rewrite (proj2 (Z.ltb_lt _ _) Hc).
  destruct (history_rows _ _ _ _ _) as [t1 out] eqn:Hd. cbn.
  rewrite (history_pass_restarts _ _ _ _ _ _ Hc (clear_live t) Hcap Hd). cbn. apply IH.
Qed.

(** one picture with more than 512 distinct styles hangs the server.  Each
    restart clears [capped] along with the table ([begin_encode], [clear]), so
    the refusal to grow that [intern] promises never applies to the next pass,
    and the loop restarts for ever: a frame that has to be sent whole never
    returns from [diff], and a history page never returns from
    [encode_history]. *)
Theorem style_overflow_diverges s t c :
  consistent s t c →
  (∀ fuel view total scrollback, view_wf view →
     sent_palette s ≠ Some (WirePalette_from (tv_palette view))
       ∨ sent_size s ≠ Some (ts_cols (tv_size view), ts_rows (tv_size view)) →
     STYLE_CAP < Z.of_nat (size (style_keys (tv_palette view) (tv_cells view))) →
     diff fuel s view t total scrollback = None)
  ∧ ∀ fuel history palette, 0 < th_cols history →
     STYLE_CAP < Z.of_nat (size (style_keys palette (th_cells history))) →
     encode_history fuel history t palette = None.
Proof.
  intros [Hw Hp Hs _ _]. split.
  - intros fuel view total scrollback Hv Hchanged Hcap. unfold diff, diff_ready.
    assert (bool_decide (sent_palette s ≠ Some (WirePalette_from (tv_palette view)))
      || bool_decide (sent_size s ≠ Some (ts_cols (tv_size view), ts_rows (tv_size view))) = true)
      as -> by (apply orb_true_iff; rewrite !bool_decide_eq_true; done).
    assert (diff_shown [] view = replicate (Z.to_nat (ts_rows (tv_size view))) []) as ->.
    { destruct Hv as (_ & Hr & _). unfold diff_shown. cbn.
      by destruct (Z.to_nat (ts_rows (tv_size view))) eqn:?; [lia|]. }
    by rewrite diff_loop_diverges.
  - intros fuel history palette Hc Hcap. unfold encode_history. destruct fuel as [|fuel]; [done|].
    simpl. rewrite (proj2 (Z.ltb_lt _ _) Hc).
    destruct (history_rows _ _ _ _ _) as [t1 out] eqn:Hd. cbn.
    rewrite (history_pass_restarts _ _ _ _ _ _ Hc (begin_encode_live _ _ Hw Hs) Hcap Hd). cbn.
    by apply history_loop_diverges.
Qed.

(** A picture that has to be sent whole: its colours or its size are new. *)
Definition redrawn (s : Sent) (view : TerminalView) : Prop :=
  sent_palette s ≠ Some (WirePalette_from (tv_palette view))
  ∨ sent_size s ≠ Some (ts_cols (tv_size view), ts_rows (tv_size view)).

(** C34: after any session of pictures (any sizes, palettes, repeated rows,
    style-table restarts) of at most 512 distinct styles each, the server's
    [diff]s all return, within two passes over the rows each, and a
    client that starts empty and applies every message draws exactly the last
    picture, cell for cell and colour for colour, with its cursor; the style
    table stays within its cap.  The condition is needed: when the next picture
    has more styles and has to be sent whole, no number of passes is enough, and
    [diff] does not return. *)
Theorem client_shows_view adapt views v :
  Forall (λ v, view_wf v.1.1 ∧ within_budget v.1.1) views → last views = Some v →
  ∃ s t c,
    (∀ fuel, (2 <= fuel)%nat →
       serve adapt fuel views Sent_default StyleTable_default Client_default = Some (s, t, c))
    ∧ shows c v.1.1 ∧ ids_len (st_ids t) <= STYLE_CAP
    ∧ (∀ fuel view total scrollback, view_wf view → redrawn s view → ¬ within_budget view →
         diff fuel s view t total scrollback = None).
Proof.
  intros [Hv Hb]%Forall_and Hl.
  destruct (serve_returns (adapt := adapt) 2 views Sent_default StyleTable_default
              Client_default Hb (le_n 2)) as ([[s t] c] & H & _).
  exists s, t, c. split.
  - intros fuel Hf. destruct (serve_returns (adapt := adapt) fuel views Sent_default
      StyleTable_default Client_default Hb Hf) as (r & H' & ->). congruence.
  - destruct (serve_consistent _ _ _ _ _ _ _ _ _ consistent_default Hv H) as [Hc Hs].
    split; [by apply Hs|]. split; [apply table_cap, Hc|].
    intros fuel view total scrollback Hw Hr Hn. destruct (style_overflow_diverges s t c Hc) as [Hd _].
    apply Hd; [done..|]. unfold within_budget in Hn. lia.
Qed.


(** ** History pages *)

Lemma history_rows_within S start index rows p t t' out :
  Z.of_nat (size S) <= STYLE_CAP → within S t →
  Forall (λ cells, style_keys p cells ⊆ S) rows →
  history_rows start index rows p t = (t', out) → within S t'.
Proof.
  intros Hcap Ht Hk. revert index t out Ht.
  induction Hk as [|c rows Hc _ IH]; intros index t out Ht H; simpl in H; [by simplify_eq|].
  unfold encode_row in H. destruct (encode_cells _ _ t) as [t1 wire] eqn:E1.
  destruct (history_rows _ _ _ _ t1) as [t2 rest] eqn:E2. simplify_eq.
  eapply IH; [|exact E2]. by eapply encode_cells_within.
Qed.

(** The rows a page is made of. *)
Definition page_rows (history : TerminalHistory) : list (list TerminalCell) :=
  if 0 <? th_cols history then chunks (Z.to_nat (th_cols history)) (th_cells history) else [].

Lemma page_rows_keys p history :
  Forall (λ cells, style_keys p cells ⊆ style_keys p (th_cells history)) (page_rows history).
Proof.
  unfold page_rows. case_match eqn:Hc; to_props; [|constructor].
  apply Forall_forall. intros chunk Hin key. rewrite !elem_of_style_keys.
  intros (? & c & Hcc & ?). split; [done|]. exists c. split; [|done].
  rewrite <-(chunks_join (Z.to_nat (th_cols history)) (th_cells history)) by lia.
  apply list_elem_of_join. eauto.
Qed.

Lemma history_loop_rows history t p :
  (if 0 <? th_cols history
   then history_rows (th_start history) 0
          (chunks (Z.to_nat (th_cols history)) (th_cells history)) p t
   else (t, [])) = history_rows (th_start history) 0 (page_rows history) p t.
Proof. unfold page_rows. by case_match. Qed.

Lemma history_loop_spec fuel known history p reset t t' rows pending reset' :
  live known (begin_encode t) →
  history_loop fuel history p reset t = Some (t', (rows, pending, reset')) →
  ∃ known' t1, t' = (take_pending (take_restarted t1).1).1 ∧ pending = st_pending t1
  ∧ live known' t1 ∧ (reset' = reset ∧ known' = known ∨ reset' = true ∧ known' = ∅)
  ∧ (reset' = false → st_ids t ⊆ st_ids t1)
  ∧ Forall2 (λ cells row, Forall2 (cell_as (st_ids t1) p) cells (row_cells row))
      (page_rows history) rows
  ∧ row_y <$> rows = (λ i, to_u16 (th_start history + i)) <$> seqZ 0 (len (page_rows history)).
Proof.
  revert known reset t. induction fuel as [|fuel IH]; intros known reset t Hl H; [done|].
  simpl in H. rewrite history_loop_rows in H.
  destruct (history_rows _ _ _ _ _) as [t1 out] eqn:Hd. cbn in H.
  destruct (st_restarted t1) eqn:Hr; cbn in H.
  - destruct (IH ∅ true (clear t1) (clear_live t1) H)
      as (known' & t2 & -> & -> & Hl2 & Hcase & _ & Hrows).
    exists known', t2. split; [done|]. split; [done|]. split; [done|].
    split; [destruct Hcase as [[-> ->]|]; auto|]. split; [|done].
    by destruct Hcase as [[-> _]|[-> _]].
  - simplify_eq. destruct (history_rows_live _ _ _ _ _ _ _ _ Hl Hd Hr) as (Hl1 & Hs1 & Hf & Hy).
    exists known, t1. split_and!; auto.
Qed.

Lemma client_run_history adapt size p history rows pending (reset : bool) c :
  let c' := client_run adapt c (history_messages size p history (rows, pending, reset)) in
  cl_styles c' = apply_styles (if reset then ∅ else cl_styles c) pending
  ∧ (reset = false → cl_lines c' = cl_lines c) ∧ cl_cursor c' = cl_cursor c.
Proof. by destruct reset, pending. Qed.

(** a history page, with at most 512 distinct styles, is encoded in at most
    two passes; the rows are numbered from the page's start, their cells draw
    exactly the page's cells once the messages are applied, and unless the
    table had to be reset the live screen stays consistent as well. *)
Theorem history_page_drawn adapt dims s t c history p fuel :
  consistent s t c →
  Z.of_nat (size (style_keys p (th_cells history))) <= STYLE_CAP → (2 <= fuel)%nat →
  ∃ t' rows pending reset,
    encode_history fuel history t p = Some (t', (rows, pending, reset)) ∧
    let c' := client_run adapt c (history_messages dims p history (rows, pending, reset)) in
    Forall2 (λ cells row, Forall2 (cell_drawn c' p) cells (row_cells row)) (page_rows history) rows
    ∧ row_y <$> rows = (λ i, to_u16 (th_start history + i)) <$> seqZ 0 (len (page_rows history))
    ∧ table_wf t' ∧ (reset = false → consistent s t' c').
Proof.
  intros [Hw Hp Hs Hl Hcur] Hcap Hfuel.
  assert (is_Some (encode_history fuel history t p)) as [[t' [[rows pending] reset]] He].
  { destruct fuel as [|[|fuel]]; [lia|lia|]. unfold encode_history. simpl.
    rewrite history_loop_rows.
    destruct (history_rows _ _ _ _ (begin_encode t)) as [t1 out1]. cbn.
    destruct (st_restarted t1); [|by eexists]. cbn. rewrite history_loop_rows.
    destruct (history_rows _ _ _ _ (begin_encode _)) as [t2 out2] eqn:Hd. cbn.
    destruct (history_rows_within _ _ _ _ _ _ _ _ Hcap (within_clear _ t1)
      (page_rows_keys _ _) Hd) as [_ ->]. by eexists. }
  exists t', rows, pending, reset. split; [done|].
  destruct (history_loop_spec fuel (cl_styles c) history p false t t' rows pending reset
    (begin_encode_live _ _ Hw Hs) He)
    as (known & t1 & -> & -> & (Hw1 & _ & Hs1) & Hcase & Hsub & Hf & Hy).
  destruct (client_run_history adapt dims p history rows (st_pending t1) reset c)
    as (Hst & Hli & Hcu). cbn zeta. set (c' := client_run _ _ _) in *. clearbody c'.
  assert (known = if reset then ∅ else cl_styles c) as ->
    by (destruct Hcase as [[-> ->]|[-> ->]]; done).
  assert (∀ key id, st_ids t1 !! key = Some id →
    cl_styles c' !! id = Some {| ws_id := id; ws_key := key |}) as Hres
    by (intros key id Hk; rewrite Hst; by apply Hs1).
  split; [|split; [done|split; [by destruct Hw1|]]].
  - eapply Forall2_impl; [exact Hf|]. intros cells row Hr. cbn in Hr |- *.
    eapply Forall2_impl; [exact Hr|]. intros cell w. by apply cell_as_drawn.
  - intros ->. split; cbn; [by destruct Hw1|done|exact Hres| |].
    + intros q Hq y row Hy' Hne. rewrite Hli by done.
      destruct (Hl q Hq y row Hy' Hne) as (wire & Hwl & Hwf). exists wire. split; [done|].
      eapply Forall2_impl; [exact Hwf|]. intros. eapply cell_as_mono; [by apply Hsub|done].
    + intros cur Hc. rewrite Hcu. by apply Hcur.
Qed.

(** ** Samples *)

Definition plain_style (fg : TerminalColor) : TerminalStyle :=
  {| ts_foreground := fg; ts_background := Color_Default; ts_underline_color := Color_Default;
     ts_underline := Underline_None; ts_bold := false; ts_italic := false; ts_faint := false;
     ts_blink := false; ts_inverse := false; ts_invisible := false;
     ts_strikethrough := false; ts_overline := false |}.
Definition tinted_cell (red n : Z) : TerminalCell :=
  {| cell_text := bs "x"; cell_width := 1;
     cell_style := plain_style (Color_Rgb red (n / 256) (n mod 256)) |}.
Definition plain_palette : TerminalPalette :=
  {| tp_foreground := None; tp_background := None; tp_cursor := None;
     tp_indexed := replicate 256 (0, 0, 0) |}.
(** One row of [n] cells, each of its own colour. *)
Definition tinted_view (red n : Z) : TerminalView :=
  {| tv_size := {| ts_cols := n; ts_rows := 1 |};
     tv_cursor := {| cur_col := 0; cur_row := 0; cur_visible := true; cur_pending_wrap := false |};
     tv_modes := {| tm_alternate_screen := false; tm_bracketed_paste := false;
                    tm_application_cursor := false; tm_mouse := Mouse_None;
                    tm_mouse_encoding := Encoding_Sgr |};
     tv_palette := plain_palette;
     tv_cells := tinted_cell red <$> seqZ 0 n |}.
Definition tinted_history (red n : Z) : TerminalHistory :=
  {| th_start := 0; th_cols := n; th_cells := tinted_cell red <$> seqZ 0 n;
     th_total := 2; th_scrollback := 1 |}.

Lemma tinted_view_wf red n : 1 <= n → view_wf (tinted_view red n).
Proof.
  intros Hn. unfold view_wf, len. cbn. rewrite length_fmap, length_seqZ. lia.
Qed.

(** Every cell of the sample has a style of its own. *)
Lemma size_tinted red n p :
  size (style_keys p (tinted_cell red <$> seqZ 0 n)) = Z.to_nat n.
Proof.
  unfold style_keys. rewrite <-list_fmap_compose.
  set (f := (λ c, style_key (cell_style c) p) ∘ tinted_cell red).
  assert (∀ l, filter (λ k, k ≠ StyleKey_default) (f <$> l) = f <$> l) as ->.
  { induction l as [|x l IH]; [done|]. cbn [fmap list_fmap].
    rewrite filter_cons_True by (subst f; cbn; unfold style_key, StyleKey_default; by injection 1).
    by rewrite IH. }
  rewrite size_list_to_set; [by rewrite length_fmap, length_seqZ|].
  apply NoDup_fmap_2; [|apply NoDup_seqZ]. intros a b Hab.
  pose proof (f_equal sk_fg Hab) as Hfg. cbn in Hfg. injection Hfg as H1 H2.
  pose proof (Z_div_mod_eq_full a 256). pose proof (Z_div_mod_eq_full b 256). lia.
Qed.

(** A client that keeps its rows on a [ready] of the same size. *)
Definition keep_lines (cols rows : Z) (lines : gmap Z (list wire_cell)) := lines.

(** Render a view, then read a page whose styles make the table reset, then
    render the same view: is the last [diff] silent, and is the first cell of
    the screen drawn with another style than the view's? *)
Definition stale_after_history (view : TerminalView) (history : TerminalHistory) : bool :=
  match serve keep_lines 2 [(view, 2, 1)] Sent_default StyleTable_default Client_default with
  | Some (s, t, c) =>
    match encode_history 2 history t (tv_palette view) with
    | Some (t', (rows, pending, true)) =>
      match diff 2 s view t' 2 1 with
      | Some (_, _, []) =>
        let c' := client_run keep_lines c
          (history_messages (tv_size view) (tv_palette view) history (rows, pending, true)) in
        match view_row view 0, cl_lines c' !! 0 with
        | Some (cell :: _), Some (wire :: _) =>
          bool_decide (drawn_style c' wire.2
                       ≠ Some (style_key (cell_style cell) (tv_palette view)))
        | _, _ => false
        end
      | _ => false
      end
    | _ => false
    end
  | None => false
  end.

Lemma stale_sample : stale_after_history (tinted_view 1 260) (tinted_history 2 260) = true.
Proof. vm_compute. reflexivity. Qed.

(** reading scrollback can leave the screen in the wrong colours.  When a
    page makes the shared table reset, the client is told to drop its styles
    ([ready]) and receives the page's, but the rows counted as shown are kept:
    rendering the same view again sends nothing at all, and a client that drew
    the view correctly before the page no longer does. *)
Theorem history_reset_leaves_stale_rows :
  ∃ view history s t c t' rows pending,
    serve keep_lines 2 [(view, 2, 1)] Sent_default StyleTable_default Client_default
      = Some (s, t, c)
    ∧ shows c view
    ∧ encode_history 2 history t (tv_palette view) = Some (t', (rows, pending, true))
    ∧ (∃ s' t'', diff 2 s view t' 2 1 = Some (s', t'', []))
    ∧ ¬ shows (client_run keep_lines c
                 (history_messages (tv_size view) (tv_palette view) history (rows, pending, true)))
        view.
Proof.
  exists (tinted_view 1 260), (tinted_history 2 260). pose proof stale_sample as H.
  unfold stale_after_history in H. pose proof (tinted_view_wf 1 260 ltac:(lia)) as Hv.
  revert H. generalize (tinted_history 2 260) as history. revert Hv.
  generalize (tinted_view 1 260) as view. intros view Hv history H.
  destruct (serve _ _ _ _ _ _) as [[[s t] c]|] eqn:Hs; [|done].
  destruct (encode_history _ _ _ _) as [[t' [[rows pending] [|]]]|] eqn:He; [|done|done].
  destruct (diff _ _ _ _ _ _) as [[[s' t''] [|]]|] eqn:Hd; [|done|done].
  exists s, t, c, t', rows, pending. split; [done|].
  destruct (serve_consistent _ _ _ _ _ _ _ _ _ consistent_default
    (proj2 (Forall_singleton (λ v, view_wf v.1.1) (view, 2, 1)) Hv) Hs) as [_ Hsh].
  split; [by apply (Hsh (view, 2, 1))|]. split; [done|]. split; [eauto|].
  set (c' := client_run _ _ _) in *. clearbody c'. intros [_ Hrows].
  destruct (Hrows 0%nat) as (row & wire & Hrow & Hline & Hf); [destruct Hv; lia|].
  rewrite Hrow in H. change (Z.of_nat 0) with 0 in Hline. rewrite Hline in H.
  destruct Hf as [|cell w row' wire' (_ & _ & Hdr) _]; [done|].
  apply bool_decide_eq_true in H. done.
Qed.

Definition sample_views : list (TerminalView * Z * Z) :=
  [(tinted_view 1 5, 2, 1); (tinted_view 2 5, 2, 1); (tinted_view 2 3, 2, 1)].

Lemma client_shows_view_witness :
  ∃ s t c, serve keep_lines 2 sample_views Sent_default StyleTable_default Client_default
             = Some (s, t, c)
  ∧ shows c (tinted_view 2 3)
  ∧ ∀ fuel, diff fuel s (tinted_view 1 520) t 2 1 = None.
Proof.
  assert (∀ red n, 1 <= n <= 5 → view_wf (tinted_view red n) ∧ within_budget (tinted_view red n))
    as Hok.
  { intros red n Hn. split; [apply tinted_view_wf; lia|]. unfold within_budget.
    cbn [tinted_view tv_palette tv_cells]. rewrite size_tinted. unfold STYLE_CAP. lia. }
  assert (Forall (λ v, view_wf v.1.1 ∧ within_budget v.1.1) sample_views) as Hv.
  { apply Forall_cons; split; [apply Hok; lia|]. apply Forall_cons; split; [apply Hok; lia|].
    apply Forall_singleton, Hok; lia. }
  destruct (client_shows_view keep_lines sample_views (tinted_view 2 3, 2, 1) Hv eq_refl)
    as (s & t & c & H & Hs & _ & Hd).
  specialize (H 2%nat (le_n 2)). exists s, t, c. split; [exact H|]. split; [exact Hs|].
  intros fuel. apply Hd; [by apply tinted_view_wf| |].
  - right. assert (sent_size s = Some (3, 1)) as ->; [|done].
    assert ((λ r, sent_size r.1.1) <$> serve keep_lines 2 sample_views Sent_default
              StyleTable_default Client_default = Some (Some (3, 1))) as Hsize
      by (vm_compute; reflexivity).
    rewrite H in Hsize. by injection Hsize as ->.
  - unfold within_budget. cbn [tinted_view tv_palette tv_cells]. rewrite size_tinted.
    unfold STYLE_CAP. lia.
Defined.

Lemma diff_terminates_witness :
  is_Some (diff 2 Sent_default (tinted_view 1 5) StyleTable_default 2 1).
Proof. apply diff_terminates. vm_compute. discriminate. Defined.

Lemma style_overflow_diverges_witness :
  (∀ fuel, diff fuel Sent_default (tinted_view 1 520) StyleTable_default 2 1 = None)
  ∧ ∀ fuel, encode_history fuel (tinted_history 1 520) StyleTable_default plain_palette = None.
Proof.
  destruct (style_overflow_diverges Sent_default StyleTable_default Client_default
    consistent_default) as [Hd Hh].
  split; intros fuel.
  - apply Hd; [by apply tinted_view_wf|by left|].
    cbn [tinted_view tv_palette tv_cells]. by rewrite size_tinted.
  - apply Hh; [done|]. cbn [tinted_history th_cells]. by rewrite size_tinted.
Defined.

Lemma history_page_drawn_witness :
  ∃ t' rows pending reset,
    encode_history 2 (tinted_history 1 6) StyleTable_default plain_palette
      = Some (t', (rows, pending, reset)) ∧ table_wf t'.
Proof.
  destruct (history_page_drawn keep_lines {| ts_cols := 6; ts_rows := 1 |} Sent_default
    StyleTable_default Client_default (tinted_history 1 6) plain_palette 2 consistent_default)
    as (t' & rows & pending & reset & He & _ & _ & Hw & _); [vm_compute; discriminate|lia|].
  exists t', rows, pending, reset. exact (conj He Hw).
Defined.
