(* ===== verification/Ticket.v ===== *)
(** * Tickets and waits (crates/application/src/projection/observation.rs)

    A [Ticket] is the coordinator's half of an admitted wait, [Wait] the
    caller's.  Every method takes the ticket's lock once, so a method is one
    step; dropping the wait is two, because [cancelled] is an atomic stored
    before the lock is taken.  The lease a ticket carries is released with its
    memory and is not part of this state. *)

From S2P Require Import Prelude Projection.

Section ticket.
(** What a wait yields, and a task's waker. *)
Context {T W : Type}.

Record Ticket := {
  tk_result : option (result ProjectionError T);
  tk_waker : option W;
  tk_complete : bool;
  tk_cancelled : bool
}.

Definition Ticket_new : Ticket :=
  {| tk_result := None; tk_waker := None; tk_complete := false; tk_cancelled := false |}.

(** [Ticket::complete]: the waker to be woken is returned. *)
Definition complete (r : result ProjectionError T) (t : Ticket) : Ticket * option W :=
  if tk_complete t then (t, None)
  else ({| tk_result := if tk_cancelled t then tk_result t else Some r;
           tk_waker := None; tk_complete := true; tk_cancelled := tk_cancelled t |},
        tk_waker t).

Definition cancelled (t : Ticket) : bool := tk_cancelled t.

(** [Poll<Result<T, ProjectionError>>] *)
Inductive Poll := Poll_Ready (r : result ProjectionError T) | Poll_Pending.

(** [Wait::poll] with the caller's waker. *)
Definition poll (w : W) (t : Ticket) : Ticket * Poll :=
  match tk_result t with
  | Some r => ({| tk_result := None; tk_waker := None; tk_complete := tk_complete t;
                  tk_cancelled := tk_cancelled t |}, Poll_Ready r)
  | None =>
    if tk_complete t
    then ({| tk_result := None; tk_waker := None; tk_complete := tk_complete t;
             tk_cancelled := tk_cancelled t |}, Poll_Ready (Err ProjectionError_Closed))
    else ({| tk_result := None; tk_waker := Some w; tk_complete := tk_complete t;
             tk_cancelled := tk_cancelled t |}, Poll_Pending)
  end.

(** [Drop for Wait]: the atomic store, then the lock. *)
Definition drop_cancel (t : Ticket) : Ticket :=
  {| tk_result := tk_result t; tk_waker := tk_waker t; tk_complete := tk_complete t;
     tk_cancelled := true |}.
Definition drop_clear (t : Ticket) : Ticket :=
  {| tk_result := None; tk_waker := None; tk_complete := tk_complete t;
     tk_cancelled := tk_cancelled t |}.

(** ** Histories *)

Inductive ticket_op :=
  | T_complete (r : result ProjectionError T)
  | T_poll (w : W)
  | T_drop_cancel
  | T_drop_clear.

(** What a step shows: the task it wakes, or what a poll answers. *)
Inductive ticket_obs := Woke (w : option W) | Polled (p : Poll) | Silent.

Definition ticket_step (op : ticket_op) (t : Ticket) : Ticket * ticket_obs :=
  match op with
  | T_complete r => let (t, w) := complete r t in (t, Woke w)
  | T_poll w => let (t, p) := poll w t in (t, Polled p)
  | T_drop_cancel => (drop_cancel t, Silent)
  | T_drop_clear => (drop_clear t, Silent)
  end.
Fixpoint ticket_run (ops : list ticket_op) (t : Ticket) : Ticket * list ticket_obs :=
  match ops with
  | [] => (t, [])
  | op :: ops =>
    let (t, o) := ticket_step op t in
    let (t, os) := ticket_run ops t in (t, o :: os)
  end.

Definition is_complete (op : ticket_op) : bool :=
  match op with T_complete _ => true | _ => false end.
Definition is_drop (op : ticket_op) : bool :=
  match op with T_drop_cancel | T_drop_clear => true | _ => false end.
Definition is_poll (op : ticket_op) : bool :=
  match op with T_poll _ => true | _ => false end.
(** The waker of the last poll. *)
Definition last_poll (ops : list ticket_op) (w : option W) : option W :=
  foldl (λ w op, match op with T_poll w' => Some w' | _ => w end) w ops.
(** What the polls of a history answer. *)
Definition polled (os : list ticket_obs) : list Poll :=
  omap (λ o, match o with Polled p => Some p | _ => None end) os.
Definition woken (os : list ticket_obs) : list W :=
  omap (λ o, match o with Woke w => w | _ => None end) os.
Fixpoint polls (ops : list ticket_op) : nat :=
  match ops with
  | [] => O
  | T_poll _ :: ops => S (polls ops)
  | _ :: ops => polls ops
  end.

Lemma ticket_run_app ops ops' t :
  ticket_run (ops ++ ops') t =
  let (t1, os) := ticket_run ops t in
  let (t2, os') := ticket_run ops' t1 in (t2, os ++ os').
Proof.
  revert t. induction ops as [|op ops IH]; intros t; simpl; [by destruct (ticket_run ops' t)|].
  destruct (ticket_step op t) as [t1 o]. rewrite IH. destruct (ticket_run ops t1) as [t2 os].
  by destruct (ticket_run ops' t2).
Qed.

(** Before the first completion every poll is pending and registers. *)
Lemma ticket_run_waiting ops t :
  tk_complete t = false → tk_cancelled t = false → tk_result t = None →
  existsb is_complete ops = false → existsb is_drop ops = false →
  ∃ os, ticket_run ops t =
    ({| tk_result := None; tk_waker := last_poll ops (tk_waker t); tk_complete := false;
        tk_cancelled := false |}, os)
  ∧ polled os = replicate (polls ops) Poll_Pending ∧ woken os = [].
Proof.
  revert t. induction ops as [|op ops IH]; intros t Hc Hx Hr Hn Hd; simpl in *.
  { exists []. destruct t; simpl in *; by subst. }
  destruct op as [r|w| |]; simpl in *; try done.
  unfold poll. rewrite Hr, Hc.
  destruct (IH {| tk_result := None; tk_waker := Some w; tk_complete := false;
                  tk_cancelled := tk_cancelled t |}) as (os & E & Hp & Hw); [done..|].
  rewrite E. exists (Polled Poll_Pending :: os). split; [done|]. simpl. by rewrite Hp.
Qed.

(** A result that was taken leaves nothing behind. *)
Lemma ticket_run_taken ops t :
  tk_complete t = true → tk_result t = None → existsb is_drop ops = false →
  ∃ t' os, ticket_run ops t = (t', os) ∧ tk_complete t' = true ∧ tk_result t' = None
  ∧ polled os = replicate (polls ops) (Poll_Ready (Err ProjectionError_Closed))
  ∧ woken os = [].
Proof.
  revert t. induction ops as [|op ops IH]; intros t Hc Hr Hd; simpl in *; [eauto 10|].
  destruct op as [r|w| |]; simpl in *; try done.
  - unfold complete. rewrite Hc. destruct (IH t) as (t' & os & -> & ? & ? & ? & ?); [done..|].
    by exists t', (Woke None :: os).
  - unfold poll. rewrite Hr, Hc.
    destruct (IH {| tk_result := None; tk_waker := None; tk_complete := true;
                    tk_cancelled := tk_cancelled t |}) as (t' & os & -> & ? & ? & Hp & ?); [done..|].
    exists t', (Polled (Poll_Ready (Err ProjectionError_Closed)) :: os).
    split_and!; [done..| |done]. simpl. by rewrite Hp.
Qed.

(** A stored result goes to the first poll. *)
Lemma ticket_run_done ops t r :
  tk_complete t = true → tk_result t = Some r → existsb is_drop ops = false →
  ∃ t' os, ticket_run ops t = (t', os) ∧ woken os = []
  ∧ polled os = take (polls ops)
      (Poll_Ready r :: replicate (pred (polls ops)) (Poll_Ready (Err ProjectionError_Closed))).
Proof.
  revert t. induction ops as [|op ops IH]; intros t Hc Hr Hd; simpl in *; [eauto 10|].
  destruct op as [r'|w| |]; simpl in *; try done.
  - unfold complete. rewrite Hc. destruct (IH t) as (t' & os & -> & ? & ?); [done..|].
    by exists t', (Woke None :: os).
  - unfold poll. rewrite Hr, Hc.
    destruct (ticket_run_taken ops {| tk_result := None; tk_waker := None; tk_complete := true;
                tk_cancelled := tk_cancelled t |}) as (t' & os & -> & _ & _ & Hp & ?); [done..|].
    exists t', (Polled (Poll_Ready r) :: os). split_and!; [done|done|]. simpl. rewrite Hp.
    change (polls (T_poll w :: ops)) with (S (polls ops)). simpl.
    by rewrite take_ge by (by rewrite length_replicate).
Qed.

(** A completed ticket whose wait is gone keeps nothing for it. *)
Lemma ticket_run_cancelled ops t :
  tk_cancelled t = true → tk_result t = None → existsb is_poll ops = false →
  tk_result (ticket_run ops t).1 = None ∧ tk_cancelled (ticket_run ops t).1 = true
  ∧ (tk_waker t = None → tk_waker (ticket_run ops t).1 = None).
Proof.
  revert t. induction ops as [|op ops IH]; intros t Hx Hr Hp; simpl in *; [done|].
  apply orb_false_iff in Hp as [Hop Hp].
  destruct (ticket_step op t) as [t1 o] eqn:E.
  assert (tk_cancelled t1 = true ∧ tk_result t1 = None ∧ (tk_waker t = None → tk_waker t1 = None))
    as (Hx1 & Hr1 & Hw1).
  { destruct op as [r|w| |]; simpl in *; try done; simplify_eq/=; try done.
    unfold complete in E. rewrite Hx in E. by destruct (tk_complete t); simplify_eq/=. }
  specialize (IH t1 Hx1 Hr1 Hp). destruct (ticket_run ops t1) as [t2 os]. simpl in *.
  destruct IH as (? & ? & ?). auto.
Qed.
End ticket.

Arguments Ticket : clear implicits.
Arguments Poll : clear implicits.
Arguments ticket_op : clear implicits.
Arguments ticket_obs : clear implicits.

Definition demo_result : result ProjectionError Z := Ok 7.
Definition demo_before : list (ticket_op Z Z) := [T_poll 1; T_poll 2].
Definition demo_after : list (ticket_op Z Z) := [T_complete (Ok 9); T_poll 3; T_poll 4].

(** C29: A wait that is never dropped is woken and answered exactly once: until
    the first completion every poll is pending; that completion wakes the task
    of the last poll and no other call wakes anyone; the first later poll takes
    the first result, whatever completions follow, and polls after it report
    closure. *)
Theorem ticket_delivers_once {T W} (before after : list (ticket_op T W)) r t os :
  existsb is_complete before = false →
  existsb is_drop before = false → existsb is_drop after = false →
  ticket_run (before ++ T_complete r :: after) Ticket_new = (t, os) →
  woken os = match last_poll before None with Some w => [w] | None => [] end
  ∧ polled os = replicate (polls before) Poll_Pending
      ++ take (polls after)
           (Poll_Ready r :: replicate (pred (polls after))
                              (Poll_Ready (Err ProjectionError_Closed))).
Proof.
  intros Hc Hd Hd' E. rewrite ticket_run_app in E.
  destruct (ticket_run_waiting before Ticket_new) as (os1 & E1 & Hp1 & Hw1); [done..|].
  rewrite E1 in E. simpl in E.
  match type of E with context [ticket_run after ?t1] =>
    destruct (ticket_run_done after t1 r) as (t2 & os2 & E2 & Hw2 & Hp2); [done..|] end.
  rewrite E2 in E. simplify_eq. unfold woken, polled in *. rewrite !omap_app. csimpl.
  rewrite Hp1, Hw1, Hp2, Hw2. split; [|done]. by destruct (last_poll before None).
Qed.

Lemma ticket_delivers_once_witness :
  woken (ticket_run (demo_before ++ T_complete demo_result :: demo_after) Ticket_new).2 = [2].
Proof.
  by apply (ticket_delivers_once demo_before demo_after demo_result
              (ticket_run (demo_before ++ T_complete demo_result :: demo_after) Ticket_new).1).
Defined.

(** An abandoned wait keeps nothing: once both steps of its drop have run,
    whatever completions fall before, between and after them, the ticket holds
    neither a result nor a waker, so caller data is released with the wait. *)
Theorem dropped_wait_keeps_nothing {T W} (before between after : list (ticket_op T W)) :
  existsb is_poll (between ++ after) = false →
  let t := (ticket_run (before ++ T_drop_cancel :: between ++ T_drop_clear :: after)
              Ticket_new).1 in
  tk_result t = None ∧ tk_waker t = None ∧ cancelled t = true.
Proof.
  rewrite existsb_app. intros [Hb Ha]%orb_false_iff. rewrite ticket_run_app.
  destruct (ticket_run before Ticket_new) as [t1 os1]. simpl. rewrite ticket_run_app.
  assert (tk_cancelled (ticket_run between (drop_cancel t1)).1 = true) as Hx.
  { generalize (drop_cancel t1), (eq_refl : tk_cancelled (drop_cancel t1) = true).
    induction between as [|op ops IH]; intros t Ht; simpl; [done|].
    simpl in Hb. apply orb_false_iff in Hb as [Hop Hb]. destruct (ticket_step op t) as [t2 o] eqn:E.
    assert (tk_cancelled t2 = true) as H2.
    { destruct op; simpl in *; try done; simplify_eq/=; try done.
      unfold complete in E. by destruct (tk_complete t); simplify_eq/=. }
    specialize (IH Hb t2 H2). by destruct (ticket_run ops t2). }
  destruct (ticket_run between (drop_cancel t1)) as [t2 os2]. simpl in *.
  destruct (ticket_run_cancelled after (drop_clear t2)) as (H1 & H2 & H3); [done..|].
  destruct (ticket_run after (drop_clear t2)) as [t3 os3]. simpl in *. unfold cancelled. auto.
Qed.

Lemma dropped_wait_keeps_nothing_witness :
  tk_result (ticket_run (demo_before ++ T_drop_cancel :: [T_complete demo_result] ++
               T_drop_clear :: []) Ticket_new).1 = None.
Proof. by apply (dropped_wait_keeps_nothing demo_before [T_complete demo_result] []). Defined.
