(* ===== verification/Diagnostics.v ===== *)
(** * Runtime measurements (crates/application/src/diagnostics/)

    Latency histograms with a conservative percentile, cumulative counters and
    gauges, and the timing value an admitted operation carries.  Every counter
    is one atomic updated by [try_update]; a snapshot is taken quiescent. *)

From S2P Require Import Prelude Atomic.

(** ** Histogram (histogram.rs) *)

Definition BUCKETS : Z := 1025.
Definition WIDTH_US : Z := 100.

Record LatencySnapshot := {
  ls_buckets : list Z;
  ls_failures : Z;
  ls_unavailable : Z;
  ls_maximum_us : Z
}.

Definition samples (s : LatencySnapshot) : Z :=
  foldl (saturating_add u64_max) 0 (ls_buckets s).

(** [u128] division of positive numbers, rounded up. *)
Definition div_ceil (a b : Z) : Z := (a + b - 1) / b.

(** The loop of [percentile_upper_us] from bucket [index] on. *)
Fixpoint percentile_loop (maximum rank index total : Z) (counts : list Z) : option Z :=
  match counts with
  | [] => None
  | count :: counts =>
    let total := total + count in
    if rank <=? total
    then Some (if index =? BUCKETS - 1 then maximum
               else Z.min ((index + 1) * WIDTH_US) maximum)
    else percentile_loop maximum rank (index + 1) total counts
  end.
Definition percentile_upper_us (percentile : Z) (s : LatencySnapshot) : option Z :=
  let n := samples s in
  if (n =? 0) || (percentile =? 0) || (100 <? percentile) then None
  else percentile_loop (ls_maximum_us s) (div_ceil (n * percentile) 100) 0 0 (ls_buckets s).

(** The live histogram has the fields of its snapshot, each an atomic. *)
Abbreviation Histogram := LatencySnapshot.

(** An update whose closure never refuses. *)
Definition atomic_add (count value : Z) : Z :=
  (try_update (λ v, Some (saturating_add u64_max v count)) value).1.
Definition atomic_subtract (count value : Z) : Z :=
  (try_update (λ v, Some (saturating_sub v count)) value).1.
Definition increment : Z → Z := atomic_add 1.

Definition Histogram_new : Histogram :=
  {| ls_buckets := replicate (Z.to_nat BUCKETS) 0; ls_failures := 0; ls_unavailable := 0;
     ls_maximum_us := 0 |}.
(** Every bucket is stored zero in turn. *)
Definition histogram_reset (h : Histogram) : Histogram :=
  {| ls_buckets := (λ _, 0) <$> ls_buckets h; ls_failures := 0; ls_unavailable := 0;
     ls_maximum_us := 0 |}.
Definition histogram_unavailable (h : Histogram) : Histogram :=
  {| ls_buckets := ls_buckets h; ls_failures := ls_failures h;
     ls_unavailable := increment (ls_unavailable h); ls_maximum_us := ls_maximum_us h |}.

Definition micros_of (elapsed : Z) : Z := Z.min (div_ceil elapsed 1000) u64_max.
Definition bucket_of (micros : Z) : Z := Z.min (saturating_sub micros 1 / WIDTH_US) (BUCKETS - 1).

(** [record], with the elapsed time in nanoseconds. *)
Definition histogram_record (elapsed : Z) (success : bool) (h : Histogram) : Histogram :=
  if negb success then
    {| ls_buckets := ls_buckets h; ls_failures := increment (ls_failures h);
       ls_unavailable := ls_unavailable h; ls_maximum_us := ls_maximum_us h |}
  else
    let micros := micros_of elapsed in
    {| ls_buckets := alter increment (Z.to_nat (bucket_of micros)) (ls_buckets h);
       ls_failures := ls_failures h; ls_unavailable := ls_unavailable h;
       ls_maximum_us := Z.max (ls_maximum_us h) micros |}.

(** ** Counters and gauges (counters.rs) *)

Inductive CounterKind :=
  | BytesRead | BytesWritten | InputAdmittedBytes | PublishedBytes | ObserverGaps
  | ObserverGapBytes | InputSaturation | OutputBackpressure | FailedOperations
  | CancellationEscalations | CleanupCompleted | CleanupFailed
  | AcknowledgedWorkloadEscalations.

Definition counter_ALL : list CounterKind :=
  [BytesRead; BytesWritten; InputAdmittedBytes; PublishedBytes; ObserverGaps;
   ObserverGapBytes; InputSaturation; OutputBackpressure; FailedOperations;
   CancellationEscalations; CleanupCompleted; CleanupFailed; AcknowledgedWorkloadEscalations].
(** [self as usize] *)
Definition counter_index (k : CounterKind) : nat :=
  match k with
  | BytesRead => 0 | BytesWritten => 1 | InputAdmittedBytes => 2 | PublishedBytes => 3
  | ObserverGaps => 4 | ObserverGapBytes => 5 | InputSaturation => 6 | OutputBackpressure => 7
  | FailedOperations => 8 | CancellationEscalations => 9 | CleanupCompleted => 10
  | CleanupFailed => 11 | AcknowledgedWorkloadEscalations => 12
  end%nat.

Record Counters := {
  co_values : list Z;
  co_active : Z;
  co_retained : Z;
  co_readers : Z;
  co_reader_scratch : Z
}.

Definition Counters_new : Counters :=
  {| co_values := replicate 13 0; co_active := 0; co_retained := 0; co_readers := 0;
     co_reader_scratch := 0 |}.
Definition counters_add (kind : CounterKind) (count : Z) (c : Counters) : Counters :=
  {| co_values := alter (atomic_add count) (counter_index kind) (co_values c);
     co_active := co_active c; co_retained := co_retained c; co_readers := co_readers c;
     co_reader_scratch := co_reader_scratch c |}.
Definition counters_session (active : bool) (c : Counters) : Counters :=
  {| co_values := co_values c;
     co_active := (if active then atomic_add 1 else atomic_subtract 1) (co_active c);
     co_retained := co_retained c; co_readers := co_readers c;
     co_reader_scratch := co_reader_scratch c |}.
Definition counters_replay (before after : Z) (c : Counters) : Counters :=
  {| co_values := co_values c; co_active := co_active c;
     co_retained := (if before <=? after then atomic_add (after - before)
                     else atomic_subtract (before - after)) (co_retained c);
     co_readers := co_readers c; co_reader_scratch := co_reader_scratch c |}.
Definition counters_reader (bytes : Z) (alive : bool) (c : Counters) : Counters :=
  let op := if alive then atomic_add else atomic_subtract in
  {| co_values := co_values c; co_active := co_active c; co_retained := co_retained c;
     co_readers := op 1 (co_readers c); co_reader_scratch := op bytes (co_reader_scratch c) |}.
(** Gauges survive. *)
Definition counters_reset (c : Counters) : Counters :=
  {| co_values := (λ _, 0) <$> co_values c; co_active := co_active c;
     co_retained := co_retained c; co_readers := co_readers c;
     co_reader_scratch := co_reader_scratch c |}.
(** [AggregateSnapshot::count] *)
Definition counters_count (kind : CounterKind) (c : Counters) : option Z :=
  co_values c !! counter_index kind.

(** ** The shared object and timings (mod.rs) *)

Inductive LatencyKind :=
  | InputAdmission | InputDispatch | RawOutput | ProjectedOutput | ResizeAdmission
  | ResizeDispatch | CancelAdmission | CancelDispatch.
Definition latency_ALL : list LatencyKind :=
  [InputAdmission; InputDispatch; RawOutput; ProjectedOutput; ResizeAdmission; ResizeDispatch;
   CancelAdmission; CancelDispatch].
Definition latency_index (k : LatencyKind) : nat :=
  match k with
  | InputAdmission => 0 | InputDispatch => 1 | RawOutput => 2 | ProjectedOutput => 3
  | ResizeAdmission => 4 | ResizeDispatch => 5 | CancelAdmission => 6 | CancelDispatch => 7
  end%nat.

Record RuntimeDiagnostics := { rd_histograms : list Histogram; rd_counters : Counters }.

Definition RuntimeDiagnostics_new : RuntimeDiagnostics :=
  {| rd_histograms := replicate 8 Histogram_new; rd_counters := Counters_new |}.
Definition diagnostics_count (kind : CounterKind) (n : Z) (d : RuntimeDiagnostics) :=
  {| rd_histograms := rd_histograms d; rd_counters := counters_add kind n (rd_counters d) |}.
Definition diagnostics_record (kind : LatencyKind) (elapsed : Z) (success : bool)
    (d : RuntimeDiagnostics) : RuntimeDiagnostics :=
  {| rd_histograms :=
       alter (histogram_record elapsed success) (latency_index kind) (rd_histograms d);
     rd_counters := rd_counters d |}.
Definition diagnostics_snapshot (kind : LatencyKind) (d : RuntimeDiagnostics)
    : option LatencySnapshot := rd_histograms d !! latency_index kind.
Definition reset_quiescent (d : RuntimeDiagnostics) : RuntimeDiagnostics :=
  {| rd_histograms := histogram_reset <$> rd_histograms d;
     rd_counters := counters_reset (rd_counters d) |}.

(** One measured operation: [finish] and [unavailable] consume the value, and
    dropping one that was not finished records a failure. *)
Record Timing := { tg_kind : LatencyKind; tg_started : Z }.
Definition Timing_new (kind : LatencyKind) (started : Z) : Timing :=
  {| tg_kind := kind; tg_started := started |}.
Definition Timing_unavailable (t : Timing) (d : RuntimeDiagnostics) : RuntimeDiagnostics :=
  {| rd_histograms := alter histogram_unavailable (latency_index (tg_kind t)) (rd_histograms d);
     rd_counters := rd_counters d |}.
Definition Timing_finish (now : Z) (success : bool) (t : Timing) : RuntimeDiagnostics → RuntimeDiagnostics :=
  diagnostics_record (tg_kind t) (now - tg_started t) success.
Definition Timing_drop (now : Z) (t : Timing) : RuntimeDiagnostics → RuntimeDiagnostics :=
  diagnostics_record (tg_kind t) (now - tg_started t) false.

(** ** Lemmas *)

Lemma atomic_add_exact n v : v + n <= u64_max → atomic_add n v = v + n.
Proof. unfold atomic_add, try_update, saturating_add. simpl. lia. Qed.

Lemma atomic_add_bounded n v : atomic_add n v <= u64_max.
Proof. unfold atomic_add, try_update, saturating_add. simpl. lia. Qed.

Lemma atomic_subtract_nonneg n v : 0 <= atomic_subtract n v.
Proof. unfold atomic_subtract, try_update, saturating_sub. simpl. lia. Qed.

(** Elapsed times that satisfy a test. *)
Definition count_if (p : Z → bool) (ms : list Z) : Z := len (List.filter p ms).

Lemma count_if_app p ms ms' : count_if p (ms ++ ms') = count_if p ms + count_if p ms'.
Proof. unfold count_if. rewrite List.filter_app. len_lia. Qed.
Lemma count_if_cons p m ms : count_if p (m :: ms) = (if p m then 1 else 0) + count_if p ms.
Proof. unfold count_if. simpl. destruct (p m); len_lia. Qed.
Lemma count_if_ext p q ms : Forall (λ m, p m = q m) ms → count_if p ms = count_if q ms.
Proof. induction 1 as [|m ms E _ IH]; [done|]. by rewrite !count_if_cons, E, IH. Qed.
Lemma count_if_nonneg p ms : 0 <= count_if p ms.
Proof. apply len_nonneg. Qed.
Lemma count_if_true ms : count_if (λ _, true) ms = len ms.
Proof. induction ms as [|m ms IH]; [done|]. rewrite count_if_cons, IH. len_lia. Qed.
Lemma count_if_false ms : count_if (λ _, false) ms = 0.
Proof. induction ms as [|m ms IH]; [done|]. by rewrite count_if_cons, IH. Qed.
Lemma count_if_mono p q ms :
  Forall (λ m, p m = true → q m = true) ms → count_if p ms <= count_if q ms.
Proof.
  induction 1 as [|m ms H _ IH]; [done|]. rewrite !count_if_cons.
  destruct (p m) eqn:E; [rewrite H by done; lia|]. destruct (q m); lia.
Qed.
Lemma count_if_split i ms :
  count_if (λ m, bucket_of m <? i + 1) ms
  = count_if (λ m, bucket_of m <? i) ms + count_if (λ m, bucket_of m =? i) ms.
Proof.
  induction ms as [|m ms IH]; [done|]. rewrite !count_if_cons, IH.
  repeat case_match; to_props; lia.
Qed.

(** Successful samples in microseconds. *)
Definition successes (events : list (Z * bool)) : list Z :=
  (λ e : Z * bool, micros_of e.1) <$> List.filter snd events.
Definition record_all (events : list (Z * bool)) (h : Histogram) : Histogram :=
  foldl (λ h e, histogram_record e.1 e.2 h) h events.

(** Every bucket counts its samples. *)
Record histogram_ok (ms : list Z) (h : Histogram) : Prop := {
  ho_length : length (ls_buckets h) = Z.to_nat BUCKETS;
  ho_bucket i : 0 <= i < BUCKETS →
    ls_buckets h !! Z.to_nat i = Some (count_if (λ m, bucket_of m =? i) ms);
  ho_maximum : ls_maximum_us h = foldr Z.max 0 ms
}.

Lemma bucket_of_range m : 0 <= bucket_of m < BUCKETS.
Proof. unfold bucket_of, saturating_sub, WIDTH_US, BUCKETS. Z.div_mod_to_equations. lia. Qed.

(** A sample is below a bucket exactly when it is within its lower bound. *)
Lemma bucket_of_below m i : 0 < i < BUCKETS → bucket_of m < i ↔ m <= i * WIDTH_US.
Proof. unfold bucket_of, saturating_sub, WIDTH_US, BUCKETS. Z.div_mod_to_equations. lia. Qed.

Lemma foldr_max_app ms ms' :
  foldr Z.max 0 (ms ++ ms') = Z.max (foldr Z.max 0 ms) (foldr Z.max 0 ms').
Proof.
  induction ms as [|m ms IH]; simpl; [|lia].
  assert (0 <= foldr Z.max 0 ms') by (induction ms'; simpl; lia). lia.
Qed.
Lemma foldr_max_le ms m : m ∈ ms → m <= foldr Z.max 0 ms.
Proof. induction 1; simpl; lia. Qed.

Lemma Histogram_new_ok : histogram_ok [] Histogram_new.
Proof.
  split; [done| |done]. intros i Hi. apply lookup_replicate. unfold BUCKETS in *.
  unfold count_if. simpl. split; [done|lia].
Qed.

Lemma record_success_ok ms h elapsed :
  histogram_ok ms h → 0 <= elapsed → len ms < u64_max →
  histogram_ok (ms ++ [micros_of elapsed]) (histogram_record elapsed true h).
Proof.
  intros [Hl Hb Hm] He Hn. unfold histogram_record. simpl. set (m := micros_of elapsed) in *.
  pose proof (bucket_of_range m) as Hr. split; simpl.
  - by rewrite length_alter.
  - intros i Hi. rewrite count_if_app, count_if_cons.
    assert (count_if (λ m, bucket_of m =? i) ms <= len ms) as Hc.
    { rewrite <-(count_if_true ms). apply count_if_mono, Forall_true. done. }
    unfold count_if at 2. simpl. destruct (bucket_of m =? i) eqn:E; to_props.
    + subst i. rewrite list_lookup_alter_eq, Hb by done. simpl. f_equal.
      unfold increment. rewrite atomic_add_exact; rewrite ?(@len_nil Z); lia.
    + rewrite list_lookup_alter_ne by lia. rewrite Hb by done. f_equal. rewrite (@len_nil Z). lia.
  - rewrite foldr_max_app, Hm. simpl. unfold m, micros_of, div_ceil.
    assert (0 <= (elapsed + 1000 - 1) / 1000) by (apply Z.div_pos; lia).
    unfold u64_max. lia.
Qed.

Lemma record_all_ok events ms h :
  histogram_ok ms h → Forall (λ e : Z * bool, 0 <= e.1) events →
  len ms + len (successes events) <= u64_max →
  histogram_ok (ms ++ successes events) (record_all events h).
Proof.
  revert ms h. induction events as [|[e b] events IH]; intros ms h Hok Hf Hn; simpl.
  { by rewrite app_nil_r. }
  apply Forall_cons in Hf as [He Hf]. simpl in He. destruct b; unfold successes in *; csimpl in *.
  - rewrite (cons_middle (micros_of e) ms), app_assoc. apply IH; [|done|len_lia].
    apply record_success_ok; [done..|]. len_lia.
  - apply IH; [|done|done]. destruct Hok. by split.
Qed.

(** The buckets below [i] hold the samples below it. *)
Lemma zsum_buckets ms h i :
  histogram_ok ms h → 0 <= i <= BUCKETS →
  zsum (take (Z.to_nat i) (ls_buckets h)) = count_if (λ m, bucket_of m <? i) ms.
Proof.
  intros [Hl Hb _] Hi.
  enough (∀ n : nat, Z.of_nat n <= BUCKETS →
            zsum (take n (ls_buckets h)) = count_if (λ m, bucket_of m <? Z.of_nat n) ms) as H.
  { rewrite H by lia. by rewrite Z2Nat.id by lia. }
  clear i Hi. induction n as [|n IH]; intros Hn.
  - simpl. rewrite (count_if_ext _ (λ _, false)); [by rewrite count_if_false|].
    apply Forall_true. intros m. pose proof (bucket_of_range m). apply Z.ltb_ge. lia.
  - assert (ls_buckets h !! n = Some (count_if (λ m, bucket_of m =? Z.of_nat n) ms)) as E.
    { rewrite <-Hb by lia. by rewrite Nat2Z.id. }
    rewrite (take_S_r _ _ _ E), zsum_app, IH by lia.
    replace (Z.of_nat (S n)) with (Z.of_nat n + 1) by lia. rewrite count_if_split.
    simpl. lia.
Qed.

Lemma zsum_all_buckets ms h : histogram_ok ms h → zsum (ls_buckets h) = len ms.
Proof.
  intros Hok. pose proof (zsum_buckets ms h BUCKETS Hok) as Hz.
  rewrite take_ge in Hz by (by rewrite (ho_length _ _ Hok)).
  rewrite (count_if_ext _ (λ _, true)), count_if_true in Hz.
  2:{ apply Forall_true. intros m. pose proof (bucket_of_range m). apply Z.ltb_lt. lia. }
  apply Hz. unfold BUCKETS. lia.
Qed.

Lemma samples_exact ms h : histogram_ok ms h → len ms <= u64_max → samples h = len ms.
Proof.
  intros Hok Hn. pose proof (zsum_all_buckets ms h Hok) as Hz. unfold samples.
  assert (Forall (λ c, 0 <= c) (ls_buckets h)) as Hpos.
  { apply Forall_lookup. intros j c E.
    assert (0 <= Z.of_nat j < BUCKETS) as Hj.
    { apply lookup_lt_Some in E. rewrite (ho_length _ _ Hok) in E. unfold BUCKETS in *. lia. }
    pose proof (ho_bucket _ _ Hok _ Hj) as E'. rewrite Nat2Z.id, E in E'. simplify_eq.
    apply count_if_nonneg. }
  enough (∀ l a, Forall (λ c, 0 <= c) l → 0 <= a → a + zsum l <= u64_max →
            foldl (saturating_add u64_max) a l = a + zsum l) as H.
  { rewrite H; [lia|done|done|lia]. }
  clear. induction l as [|c l IH]; intros a Hl Ha Hs; simpl in *; [lia|].
  apply Forall_cons in Hl as [Hc Hl].
  assert (0 <= zsum l) by (clear -Hl; induction Hl; simpl; lia).
  unfold saturating_add at 2. rewrite Z.min_l by lia. rewrite IH; [lia|done|lia|lia].
Qed.

Lemma percentile_below ms h (i : nat) :
  histogram_ok ms h → Z.of_nat i <= BUCKETS →
  0 + zsum (take i (ls_buckets h)) = count_if (λ m, bucket_of m <? Z.of_nat i) ms.
Proof. intros Hok Hi. rewrite <-(zsum_buckets ms h) by (done || lia). by rewrite Nat2Z.id. Qed.

(** The loop stops at the first bucket whose running total reaches the rank. *)
Lemma percentile_loop_spec maximum rank index total counts :
  total < rank → rank <= total + zsum counts →
  ∃ i c, counts !! i = Some c
  ∧ total + zsum (take i counts) < rank <= total + zsum (take (S i) counts)
  ∧ percentile_loop maximum rank index total counts =
      Some (if index + Z.of_nat i =? BUCKETS - 1 then maximum
            else Z.min ((index + Z.of_nat i + 1) * WIDTH_US) maximum).
Proof.
  revert index total. induction counts as [|c counts IH]; intros index total Ht Hr.
  { simpl in Hr. lia. }
  simpl in *. destruct (rank <=? total + c) eqn:E; to_props.
  - exists 0%nat, c. simpl. rewrite !Z.add_0_r. split; [done|]. split; [lia|done].
  - destruct (IH (index + 1) (total + c)) as (i & c' & Hi & Hb & ->); [lia|lia|].
    exists (S i), c'. simpl in *. split; [done|]. split; [lia|].
    by replace (index + 1 + Z.of_nat i) with (index + Z.of_nat (S i)) by lia.
Qed.

(** Gauges of live readers: every guard adds its capacity once and its drop
    subtracts it. *)
Inductive reader_op := Reader_start (bytes : Z) | Reader_drop (i : nat) | Reader_reset.
Definition reader_step (op : reader_op) (s : Counters * list Z) : Counters * list Z :=
  match op with
  | Reader_start n => (counters_reader n true s.1, n :: s.2)
  | Reader_drop i =>
    match s.2 !! i with
    | Some n => (counters_reader n false s.1, delete i s.2)
    | None => s
    end
  | Reader_reset => (counters_reset s.1, s.2)
  end.

Lemma zsum_delete (l : list Z) i n : l !! i = Some n → zsum (delete i l) = zsum l - n.
Proof.
  revert i. induction l as [|m l IH]; intros [|i] E; simplify_eq/=; [lia|].
  rewrite IH by done. lia.
Qed.

Definition demo_events : list (Z * bool) :=
  [(1000, true); (150000, true); (9000, false); (20000000, true); (500000000, true)].

(** The percentile is conservative and tight.  For any history of recorded
    operations, [percentile_upper_us p] answers exactly when there was a
    success and [1 <= p <= 100]; its answer is at most the exact maximum, at
    least [p] percent of the successes took no longer, and below the overflow
    bucket fewer than [p] percent took 100 microseconds less. *)
Theorem percentile_conservative events p v :
  Forall (λ e : Z * bool, 0 <= e.1) events → len (successes events) <= u64_max → 0 <= p →
  let ms := successes events in
  percentile_upper_us p (record_all events Histogram_new) = v →
  match v with
  | None => ms = [] ∨ p = 0 ∨ 100 < p
  | Some v =>
    ms ≠ [] ∧ 1 <= p <= 100 ∧ v <= foldr Z.max 0 ms
    ∧ p * len ms <= 100 * count_if (λ m, m <=? v) ms
    ∧ (WIDTH_US < v <= (BUCKETS - 1) * WIDTH_US →
       100 * count_if (λ m, m <=? v - WIDTH_US) ms < p * len ms)
  end.
Proof.
  intros Hf Hn Hp ms <-. subst ms. set (ms := successes events) in *.
  pose proof (record_all_ok events [] _ Histogram_new_ok Hf Hn) as Hok. simpl in Hok.
  fold ms in Hok. set (h := record_all events Histogram_new) in *.
  pose proof (samples_exact _ _ Hok Hn) as Hs. unfold percentile_upper_us. rewrite Hs.
  destruct ((len ms =? 0) || (p =? 0) || (100 <? p)) eqn:E.
  { apply orb_true_iff in E as [[E|E]%orb_true_iff|E]; to_props; [left; by apply len_zero|lia..]. }
  to_props. set (rank := div_ceil (len ms * p) 100) in *.
  assert (∀ x, x < rank ↔ 100 * x < p * len ms) as Hrank.
  { intros x. unfold rank, div_ceil. Z.div_mod_to_equations. lia. }
  pose proof (len_nonneg ms).
  destruct (percentile_loop_spec (ls_maximum_us h) rank 0 0 (ls_buckets h))
    as (i & c & Hi & [Hlo Hhi] & ->).
  { apply Hrank. nia. }
  { rewrite (zsum_all_buckets ms) by done. apply Z.le_ngt. rewrite Z.add_0_l, Hrank. nia. }
  apply lookup_lt_Some in Hi. rewrite (ho_length _ _ Hok) in Hi.
  assert (Z.of_nat i < BUCKETS) as Hib by (unfold BUCKETS in *; lia).
  rewrite (percentile_below ms h) in Hlo by (done || lia).
  rewrite (percentile_below ms h) in Hhi by (done || lia).
  rewrite Hrank in Hlo. apply Z.le_ngt in Hhi. rewrite Hrank in Hhi.
  rewrite (ho_maximum _ _ Hok). rewrite !Z.add_0_l in *. split; [by intros ->|]. split; [lia|].
  destruct (Z.of_nat i =? BUCKETS - 1) eqn:Ei; to_props.
  - split; [lia|]. split.
    + rewrite (count_if_ext _ (λ _, true)), count_if_true; [nia|].
      apply Forall_forall. intros m Hm. apply Z.leb_le, foldr_max_le. done.
    + intros Hv. exfalso.
      assert (count_if (λ m, bucket_of m <? Z.of_nat i) ms = len ms) as Hall; [|nia].
      rewrite (count_if_ext _ (λ _, true)), count_if_true; [done|].
      apply Forall_forall. intros m Hm%foldr_max_le. apply Z.ltb_lt, bucket_of_below;
        unfold BUCKETS in *; [lia|]. rewrite Ei. lia.
  - split; [lia|]. split.
    + assert (count_if (λ m, bucket_of m <? Z.of_nat (S i)) ms
              <= count_if (λ m, m <=? Z.min ((Z.of_nat i + 1) * WIDTH_US) (foldr Z.max 0 ms)) ms);
        [|nia].
      apply count_if_mono, Forall_forall. intros m Hm%foldr_max_le Hb. apply Z.ltb_lt in Hb.
      apply bucket_of_below in Hb; [|lia]. apply Z.leb_le. lia.
    + intros [Hv _].
      assert (count_if (λ m, m <=? Z.min ((Z.of_nat i + 1) * WIDTH_US) (foldr Z.max 0 ms) - WIDTH_US) ms
              <= count_if (λ m, bucket_of m <? Z.of_nat i) ms); [|lia].
      apply count_if_mono, Forall_forall. intros m _ Hb. apply Z.leb_le in Hb.
      apply Z.ltb_lt, bucket_of_below; [|lia]. unfold WIDTH_US, BUCKETS in *. lia.
Qed.

Lemma percentile_conservative_witness :
  percentile_upper_us 50 (record_all demo_events Histogram_new) = Some 200
  ∧ 50 * len (successes demo_events) <= 100 * count_if (λ m, m <=? 200) (successes demo_events).
Proof.
  split; [reflexivity|].
  assert (Forall (λ e : Z * bool, 0 <= e.1) demo_events) as Hf.
  { unfold demo_events. repeat (apply Forall_cons_2; [simpl; lia|]). apply Forall_nil_2. }
  by apply (percentile_conservative demo_events 50 (Some 200) Hf
              ltac:(vm_compute; discriminate) ltac:(lia) eq_refl).
Defined.

Definition demo_readers : list reader_op :=
  [Reader_start 4096; Reader_start 8192; Reader_reset; Reader_drop 1].

(** The reader gauges are exact: whatever guards are created and dropped,
    and however often the counters are reset between, the gauges show the
    number of live guards and the sum of their capacities, as long as that sum
    is a 64-bit integer. *)
Theorem reader_gauges_exact ops :
  Forall (λ op, match op with Reader_start n => 0 <= n | _ => True end) ops →
  (∀ k, let s := foldl (flip reader_step) (Counters_new, []) (take k ops) in
        len s.2 <= u64_max ∧ zsum s.2 <= u64_max) →
  let s := foldl (flip reader_step) (Counters_new, []) ops in
  co_readers s.1 = len s.2 ∧ co_reader_scratch s.1 = zsum s.2.
Proof.
  intros Hf Hb. simpl.
  enough (∀ n, let s := foldl (flip reader_step) (Counters_new, []) (take n ops) in
            co_readers s.1 = len s.2 ∧ co_reader_scratch s.1 = zsum s.2
            ∧ Forall (λ b, 0 <= b) s.2) as H.
  { specialize (H (length ops)). rewrite firstn_all in H. by destruct H as (? & ? & _). }
  induction n as [|n IH]; [done|].
  destruct (ops !! n) as [op|] eqn:Eop.
  2:{ apply lookup_ge_None in Eop. rewrite take_ge in IH |- * by lia. done. }
  specialize (Hb (S n)). rewrite (take_S_r _ _ _ Eop), foldl_app in *. simpl in *.
  rewrite Forall_lookup in Hf. specialize (Hf _ _ Eop).
  destruct (foldl (flip reader_step) (Counters_new, []) (take n ops)) as [c l]. simpl in *.
  destruct IH as (Hr & Hs & Hl). destruct op as [b|i|]; simpl in *; [| |done].
  - rewrite Hr, Hs, !atomic_add_exact by len_lia. split; [len_lia|]. split; [lia|by constructor].
  - destruct (l !! i) as [b|] eqn:Ei; [|done]. simpl.
    pose proof (zsum_delete _ _ _ Ei) as Hz. pose proof (length_delete l i) as Hlen.
    assert (0 <= zsum (delete i l)) as Hpos.
    { pose proof (Forall_delete _ _ i Hl) as Hd. clear -Hd. induction Hd; simpl; lia. }
    unfold atomic_subtract, try_update, saturating_sub. simpl. rewrite Hr, Hs.
    split; [|split; [lia|by apply Forall_delete]]. unfold len.
    pose proof (lookup_lt_Some _ _ _ Ei). rewrite length_delete; [lia|done].
Qed.

Lemma reader_gauges_exact_witness :
  let s := foldl (flip reader_step) (Counters_new, []) demo_readers in
  co_readers s.1 = 1 ∧ co_reader_scratch s.1 = 8192.
Proof.
  destruct (reader_gauges_exact demo_readers) as [H1 H2].
  - unfold demo_readers. repeat (apply Forall_cons_2; [(exact I || lia)|]). apply Forall_nil_2.
  - intros [|[|[|[|k]]]]; [..|rewrite take_ge by (simpl; lia)]; vm_compute; split; discriminate.
  - split; [by rewrite H1|by rewrite H2].
Defined.
