(* ===== verification/Budgets.v ===== *)
(** * Projection budgets (crates/application/src/projection/budgets.rs)

    One runtime's projection quotas, the halves each session is charged
    against at the same moment, and the leases admitted work carries.  Quotas
    are named by their references into the store of Quota.v. *)

From S2P Require Import Prelude Process Terminal Checkpoint Projection Session Atomic Quota.
From S2P Require Import Diagnostics.

(** ** The runtime's budgets *)

Record ProjectionBudgets := {
  pb_limits : ProjectionLimits;
  pb_journal_bytes : quota_ref;
  pb_journal_slots : quota_ref;
  pb_transfer_observers : quota_ref;
  pb_staging_bytes : quota_ref;
  pb_staging_slots : quota_ref;
  pb_resident : quota_ref;
  pb_checkpoints : quota_ref;
  pb_stored : quota_ref;
  pb_stored_slots : quota_ref;
  pb_views : quota_ref;
  pb_requests : quota_ref
}.

(** Fresh quotas, one per limit, from reference [next] on. *)
Definition allocate (limits : list Z) (next : quota_ref) (qs : quotas) : quotas :=
  foldr (λ rl, <[rl.1 := Quota_new rl.2]>) qs (zip (seq next (length limits)) limits).

(** [ProjectionBudgets::new]; [reserved] is whether the ledger's slots could be
    allocated. *)
Definition ProjectionBudgets_new (limits : ProjectionLimits) (reserved : bool) (next : quota_ref)
    : action quotas ProjectionError ProjectionBudgets := λ qs,
  match ProjectionLimits_validate limits with
  | Err e => (qs, Err e)
  | Ok limits =>
    if negb reserved then (qs, Err ProjectionError_Capacity)
    else
      (allocate [lim_journal_bytes limits; lim_journal_slots limits;
                 lim_transfer_observers limits; lim_staging_bytes limits;
                 lim_staging_slots limits; lim_resident_bytes limits;
                 lim_checkpoint_bytes limits; lim_stored_bytes limits;
                 lim_stored_slots limits; lim_view_bytes limits; lim_request_slots limits]
         next qs,
       Ok {| pb_limits := limits;
             pb_journal_bytes := next; pb_journal_slots := next + 1;
             pb_transfer_observers := next + 2; pb_staging_bytes := next + 3;
             pb_staging_slots := next + 4; pb_resident := next + 5;
             pb_checkpoints := next + 6; pb_stored := next + 7;
             pb_stored_slots := next + 8; pb_views := next + 9; pb_requests := next + 10 |}%nat)
  end.

(** diagnostics/resources.rs: what each budget has in use, and its limit. *)
Record BudgetUsage := { bu_used : Z; bu_limit : Z }.
Definition Quota_usage (q : Quota) : BudgetUsage :=
  {| bu_used := q_used q; bu_limit := q_limit q |}.

(** ** A session's halves *)

Record SessionQuotas := {
  sq_shared : ProjectionBudgets;
  sq_staging_bytes : quota_ref;
  sq_staging_slots : quota_ref;
  sq_requests : quota_ref
}.

Definition SessionQuotas_new (shared : ProjectionBudgets) (options : ProjectionOptions)
    (next : quota_ref) (qs : quotas) : quotas * SessionQuotas :=
  (allocate [po_staging_bytes options; po_staging_slots options; po_request_slots options] next qs,
   {| sq_shared := shared; sq_staging_bytes := next; sq_staging_slots := next + 1;
      sq_requests := next + 2 |}%nat).

Definition staging_slot (q : SessionQuotas) : action quotas ProjectionError Lease :=
  Lease_shared_and_local (pb_staging_slots (sq_shared q)) (sq_staging_slots q) 1.
Definition staging_bytes (q : SessionQuotas) (bytes : Z) : action quotas ProjectionError Lease :=
  Lease_shared_and_local (pb_staging_bytes (sq_shared q)) (sq_staging_bytes q) bytes.
Definition request_slot (q : SessionQuotas) : action quotas ProjectionError Lease :=
  Lease_shared_and_local (pb_requests (sq_shared q)) (sq_requests q) 1.

(** Replies are charged to the runtime's input quotas. *)
Record InputQuotas := { iq_bytes : quota_ref; iq_slots : quota_ref }.
Definition input_reserve (i : InputQuotas) (bytes : Z) : action quotas RuntimeError InputLease :=
  InputLease_acquire (iq_bytes i) (iq_slots i) bytes.

(** ** Leases of admitted work *)

Record StagingLease := {
  sg_timing : option Timing;
  sg_bytes : option Lease;
  sg_slots : option Lease
}.

Definition drop_opt (l : option Lease) (qs : quotas) : quotas :=
  match l with Some l => Lease_drop l qs | None => qs end.
(** [Drop for StagingLease]: bytes, then slots; the capacity signal that
    follows is the coordinator's. *)
Definition StagingLease_drop (l : StagingLease) (qs : quotas) : quotas :=
  drop_opt (sg_slots l) (drop_opt (sg_bytes l) qs).

(** admission.rs [reserve_staging]: nothing for a control, a slot and then the
    bytes for output; a refusal gives the slot back. *)
Definition reserve_staging (q : SessionQuotas) (bytes : Z)
    : action quotas ProjectionError StagingLease := λ qs,
  if bytes =? 0 then (qs, Ok {| sg_timing := None; sg_bytes := None; sg_slots := None |})
  else
    match both_leases (staging_slot q) (staging_bytes q bytes) qs with
    | (qs, Err e) => (qs, Err e)
    | (qs, Ok (slot, b)) =>
      (qs, Ok {| sg_timing := None; sg_bytes := Some b; sg_slots := Some slot |})
    end.

(** ** Lemmas *)

Definition opt_charges (l : option Lease) : charges :=
  match l with Some l => Lease_charges l | None => [] end.
Definition StagingLease_charges (l : StagingLease) : charges :=
  opt_charges (sg_bytes l) ++ opt_charges (sg_slots l).

Lemma accounts_drop_opt l cs qs :
  accounts (opt_charges l ++ cs) qs → accounts cs (drop_opt l qs).
Proof. destruct l; [apply accounts_drop|done]. Qed.

Lemma accounts_staging_drop l cs qs :
  accounts (StagingLease_charges l ++ cs) qs → accounts cs (StagingLease_drop l qs).
Proof.
  unfold StagingLease_charges, StagingLease_drop. rewrite <-app_assoc. intros H.
  by apply accounts_drop_opt, accounts_drop_opt.
Qed.

Lemma reserve_staging_sound q bytes :
  0 <= bytes → leases_soundly StagingLease_charges (reserve_staging q bytes).
Proof.
  intros Hb cs qs qs' r Ha. unfold reserve_staging. destruct (bytes =? 0).
  { by intros [= <- <-]. }
  destruct (both_leases _ _ qs) as [q1 [[slot b]|e]] eqn:E; intros [= <- <-];
    apply (both_leases_sound _ _ (Lease_shared_and_local_sound _ _ 1 ltac:(lia))
             (Lease_shared_and_local_sound _ _ _ Hb) cs) in E; try done.
Qed.

Lemma Lease_shared_sound r n : 0 <= n → leases_soundly Lease_charges (Lease_shared r n).
Proof.
  intros Hn cs qs qs' x Ha. unfold Lease_shared.
  destruct (acquire r n qs) as [q1 [|]] eqn:E; intros [= <- <-]; simpl.
  - by eapply accounts_acquire.
  - by apply acquire_refused in E as ->.
Qed.

Lemma allocate_lookup limits next qs r :
  allocate limits next qs !! r =
  if decide (next <= r < next + length limits)%nat
  then Quota_new <$> limits !! (r - next)%nat else qs !! r.
Proof.
  unfold allocate. revert next. induction limits as [|l limits IH]; intros next; simpl.
  { case_decide; [lia|done]. }
  destruct (decide (r = next)) as [->|Hne].
  - rewrite lookup_insert_eq. rewrite decide_True by lia. by rewrite Nat.sub_diag.
  - rewrite lookup_insert_ne by done. rewrite IH. repeat case_decide; try lia; [|done].
    by replace (r - next)%nat with (S (r - S next)) by lia.
Qed.

(** Fresh quotas charge nothing. *)
Lemma accounts_allocate limits next cs qs :
  accounts cs qs → Forall (λ l, 0 <= l <= usize_max) limits →
  Forall (λ c : quota_ref * Z, ¬ (next <= c.1 < next + length limits)%nat) cs →
  accounts cs (allocate limits next qs).
Proof.
  intros [Hu Hl Hn] Hlim Hfresh. split; [| |done]; intros r q; rewrite allocate_lookup;
    case_decide as Hr; eauto; intros (l & El & ->)%fmap_Some; simpl.
  - unfold charged. symmetry. apply zsum_zero. intros c Hc. unfold charge_on. case_decide; [|done].
    rewrite Forall_forall in Hfresh. exfalso. apply (Hfresh _ Hc). by subst.
  - rewrite Forall_lookup in Hlim. by apply Hlim in El.
Qed.
