(* ===== verification/Queue.v ===== *)
(** * Admitted work (crates/application/src/projection/queue.rs, state.rs,
      snapshot.rs, admission.rs)

    [Admission] is what the admission lock guards: the ordered queue of
    commands, what the policy believes about it, and who waits for cleanup.
    Every method of [AdmissionQueue] takes the lock once, so each is one
    function on that state.  A closure that admits work runs under the lock but
    is handed four operations only: it is a value of [Admitting], whose
    interpreter is the only thing that touches the state.

    Tickets and waits are named by reference; what a completion does to one is
    in Ticket.v. *)

From S2P Require Import Prelude Identity Process Terminal Checkpoint Projection Session.
From S2P Require Import Policy Atomic Quota Diagnostics Budgets.

(** ** Commands *)

(** An [Arc<Ticket<_>>]. *)
Abbreviation ticket_ref := nat.

Inductive SnapshotRequest :=
  | Snapshot_Checkpoint (ticket : ticket_ref)
  | Snapshot_Transfer (ticket : ticket_ref) (permit : Lease).

Inductive Command :=
  | Command_Output (bytes : list Z) (lease : StagingLease)
  | Command_ProcessExited
  | Command_Resize (size : TerminalSize) (ticket : ticket_ref) (lease : StagingLease)
  | Command_View (ticket : ticket_ref) (lease : StagingLease)
  | Command_Checkpoint (request : SnapshotRequest) (lease : StagingLease).

(** A completion: the ticket and the error it is completed with. *)
Abbreviation failures := (list (ticket_ref * ProjectionError)).

Definition request_ticket (r : SnapshotRequest) : ticket_ref :=
  match r with Snapshot_Checkpoint t | Snapshot_Transfer t _ => t end.
(** [SnapshotRequest::fail] *)
Definition request_fail (error : ProjectionError) (r : SnapshotRequest) : failures :=
  [(request_ticket r, error)].
(** [Command::fail] *)
Definition Command_fail (error : ProjectionError) (c : Command) : failures :=
  match c with
  | Command_Resize _ ticket _ => [(ticket, error)]
  | Command_View ticket _ => [(ticket, error)]
  | Command_Checkpoint request _ => request_fail error request
  | Command_Output _ _ | Command_ProcessExited => []
  end.

Definition is_output (c : Command) : bool :=
  match c with Command_Output _ _ => true | _ => false end.
Definition is_checkpoint (c : Command) : bool :=
  match c with Command_Checkpoint _ _ => true | _ => false end.
Definition is_exit (c : Command) : bool :=
  match c with Command_ProcessExited => true | _ => false end.

(** ** The state behind the lock *)

Record Admission := {
  ad_policy : ProjectionPolicy;
  ad_output_drain : option DrainOutcome;
  ad_process_exit_queued : bool;
  ad_queue : list Command;
  ad_close_waiters : list ticket_ref;
  ad_unreclaimed_failure : option ProjectionError;
  ad_cleanup_failure : option ProjectionError;
  ad_retry_cleanup : bool
}.

Definition Admission_new (p : ProjectionPolicy) : Admission := {|
  ad_policy := p; ad_output_drain := None; ad_process_exit_queued := false; ad_queue := [];
  ad_close_waiters := []; ad_unreclaimed_failure := None; ad_cleanup_failure := None;
  ad_retry_cleanup := false |}.

(** Field assignments. *)
Definition set_policy (p : ProjectionPolicy) (s : Admission) : Admission := {|
  ad_policy := p; ad_output_drain := ad_output_drain s;
  ad_process_exit_queued := ad_process_exit_queued s; ad_queue := ad_queue s;
  ad_close_waiters := ad_close_waiters s; ad_unreclaimed_failure := ad_unreclaimed_failure s;
  ad_cleanup_failure := ad_cleanup_failure s; ad_retry_cleanup := ad_retry_cleanup s |}.
Definition set_queue (q : list Command) (s : Admission) : Admission := {|
  ad_policy := ad_policy s; ad_output_drain := ad_output_drain s;
  ad_process_exit_queued := ad_process_exit_queued s; ad_queue := q;
  ad_close_waiters := ad_close_waiters s; ad_unreclaimed_failure := ad_unreclaimed_failure s;
  ad_cleanup_failure := ad_cleanup_failure s; ad_retry_cleanup := ad_retry_cleanup s |}.
Definition set_marks (drain : option DrainOutcome) (exit_queued : bool) (s : Admission)
    : Admission := {|
  ad_policy := ad_policy s; ad_output_drain := drain; ad_process_exit_queued := exit_queued;
  ad_queue := ad_queue s; ad_close_waiters := ad_close_waiters s;
  ad_unreclaimed_failure := ad_unreclaimed_failure s;
  ad_cleanup_failure := ad_cleanup_failure s; ad_retry_cleanup := ad_retry_cleanup s |}.
Definition set_cleanup (waiters : list ticket_ref) (unreclaimed cleanup : option ProjectionError)
    (retry : bool) (s : Admission) : Admission := {|
  ad_policy := ad_policy s; ad_output_drain := ad_output_drain s;
  ad_process_exit_queued := ad_process_exit_queued s; ad_queue := ad_queue s;
  ad_close_waiters := waiters; ad_unreclaimed_failure := unreclaimed;
  ad_cleanup_failure := cleanup; ad_retry_cleanup := retry |}.

Definition ad_status (s : Admission) : ProjectionStatus := pp_status (ad_policy s).
Definition ad_residency (s : Admission) : Residency := pp_residency (ad_policy s).
Definition ad_failure (s : Admission) : option ProjectionError := ps_failure (ad_status s).
Definition queue_is_empty (s : Admission) : bool :=
  match ad_queue s with [] => true | _ => false end.

(** A call of the policy under the lock. *)
Definition on_policy {A} (m : action ProjectionPolicy ProjectionError A)
    : action Admission ProjectionError A := λ s,
  let (p, r) := m (ad_policy s) in (set_policy p s, r).
Definition with_policy (f : ProjectionPolicy → ProjectionPolicy) (s : Admission) : Admission :=
  set_policy (f (ad_policy s)) s.

(** ** Admitting *)

Section admitting.
(** What the closure changes outside the lock: quotas. *)
Context {X : Type}.

(** A closure that admits work; [Ad_outside f k] runs code of its own. *)
Inductive Admitting (A : Type) : Type :=
  | Ad_ret (a : A)
  | Ad_is_draining (k : bool → Admitting A)
  | Ad_residency (k : Residency → Admitting A)
  | Ad_record_activity (now : Z) (k : result ProjectionError () → Admitting A)
  | Ad_admit_output_bytes (bytes now : Z) (k : result ProjectionError () → Admitting A)
  | Ad_outside (f : X → X) (k : X → Admitting A).

Fixpoint admitting_run {A} (m : Admitting A) (x : X) (s : Admission) : X * Admission * A :=
  match m with
  | Ad_ret _ a => (x, s, a)
  | Ad_is_draining _ k => admitting_run (k (is_some (ad_output_drain s))) x s
  | Ad_residency _ k => admitting_run (k (ad_residency s)) x s
  | Ad_record_activity _ now k =>
    let (s', r) := on_policy (record_activity now) s in admitting_run (k r) x s'
  | Ad_admit_output_bytes _ bytes now k =>
    let (s', r) := on_policy (Policy.admit_output bytes now) s in admitting_run (k r) x s'
  | Ad_outside _ f k => admitting_run (k x) (f x) s
  end.

Definition check_accepting (s : Admission) : result ProjectionError () :=
  if closing_or_closed (ad_residency s) then Err ProjectionError_Closed
  else match ad_failure s with Some error => Err error | None => Ok tt end.

Definition queue_admit (build : Admitting (result ProjectionError Command)) (x : X) (s : Admission)
    : X * Admission * result ProjectionError () :=
  match check_accepting s with
  | Err e => (x, s, Err e)
  | Ok _ =>
    match admitting_run build x s with
    | (x, s, Err e) => (x, s, Err e)
    | (x, s, Ok command) => (x, set_queue (ad_queue s ++ [command]) s, Ok tt)
    end
  end.

Inductive OutputAcceptance := Accepted | Backpressure | Acceptance_Closed.
Inductive OutputAdmission :=
  | Admission_Queue (c : Command)
  | Admission_Nothing
  | Admission_Rejected (why : OutputAcceptance).
Inductive OutputOutcome :=
  | Outcome_Queued
  | Outcome_Accepted
  | Outcome_Rejected (why : OutputAcceptance).

Definition queue_admit_output (accept : Admitting OutputAdmission) (x : X) (s : Admission)
    : X * Admission * OutputOutcome :=
  match admitting_run accept x s with
  | (x, s, Admission_Queue command) => (x, set_queue (ad_queue s ++ [command]) s, Outcome_Queued)
  | (x, s, Admission_Nothing) => (x, s, Outcome_Accepted)
  | (x, s, Admission_Rejected why) => (x, s, Outcome_Rejected why)
  end.
End admitting.
Arguments Admitting : clear implicits.
Arguments Ad_ret {X A}.
Arguments Ad_is_draining {X A}.
Arguments Ad_residency {X A}.
Arguments Ad_record_activity {X A}.
Arguments Ad_admit_output_bytes {X A}.
Arguments Ad_outside {X A}.

(** Put a command back at the head; a closing projection hands it back to be
    failed after the lock. *)
Definition requeue (command : Command) (s : Admission) : Admission * option Command :=
  if closing_or_closed (ad_residency s) then (s, Some command)
  else (set_queue (command :: ad_queue s) s, None).

(** ** Draining *)

Definition take_next (s : Admission) : Admission * option Command :=
  match ad_queue s with
  | [] => (s, None)
  | c :: q => (set_queue q s, Some c)
  end.

Definition take_next_if (allowed : Command → bool) (s : Admission) : Admission * option Command :=
  match ad_queue s with
  | c :: _ => if allowed c then take_next s else (s, None)
  | [] => (s, None)
  end.

Definition take_checkpoint_if_any_work (s : Admission) : Admission * option (option Command) :=
  if queue_is_empty s then (s, None)
  else let (s, c) := take_next_if is_checkpoint s in (s, Some c).

Definition take_next_output_while_serving (s : Admission) : Admission * option Command :=
  if is_some (ad_failure s)
     || match ad_residency s with Failed | Closing | Closed => true | _ => false end
  then (s, None)
  else take_next_if is_output s.

(** ** Parking *)

Inductive ParkStart := Park_Busy | Park_NotDue | Park_Ready (attempt : ParkAttempt).

Definition queue_begin_park (now : Z) (s : Admission) : Admission * ParkStart :=
  if negb (queue_is_empty s) then (s, Park_Busy)
  else match on_policy (begin_park now) s with
  | (s, Ok attempt) => (s, Park_Ready attempt)
  | (s, Err _) => (s, Park_NotDue)
  end.

Definition queue_commit_park (attempt : ParkAttempt) (s : Admission) : Admission * bool :=
  let (p, released) := commit_park attempt (queue_is_empty s) (ad_policy s) in
  (set_policy p s, released).

Definition queue_park_failed (error : ProjectionError) (now : Z) : Admission → Admission :=
  with_policy (park_failed error now).

Definition park_outcome_uncertain (error : ProjectionError) (now : Z) (s : Admission) : Admission :=
  queue_park_failed error now
    (set_cleanup (ad_close_waiters s) (Some error) (ad_cleanup_failure s) (ad_retry_cleanup s) s).

Definition queue_maintenance_failed (error : ProjectionError) (s : Admission) : Admission :=
  with_policy (maintenance_failed error)
    (set_cleanup (ad_close_waiters s) (ad_unreclaimed_failure s) (Some error)
       (ad_retry_cleanup s) s).

(** ** Restore and control *)

Definition queue_begin_restore : action Admission ProjectionError () := on_policy begin_restore.
Definition record_restoration_progress (progress : RestorationProgress)
    : action Admission ProjectionError () := on_policy (restoration_progress progress).
Definition queue_record_control_applied (g : ControlGeneration)
    : action Admission ProjectionError () := on_policy (record_control_applied g).
Definition queue_record_processed (bytes : Z) : action Admission ProjectionError () :=
  on_policy (record_processed bytes).

(** ** Stream end *)

Definition record_process_exit (s : Admission) : Admission * bool :=
  if ad_process_exit_queued s || is_err (check_accepting s) then (s, false)
  else (set_queue (ad_queue s ++ [Command_ProcessExited]) (set_marks (ad_output_drain s) true s),
        true).

Definition record_drain (outcome : DrainOutcome) (s : Admission)
    : Admission * option ProjectionError :=
  let s := if is_none (ad_output_drain s)
           then set_marks (Some outcome) (ad_process_exit_queued s) s else s in
  (s, ad_failure s).

(** Commands that can still extend the stream. *)
Definition extends_stream (c : Command) : bool :=
  match c with
  | Command_Output _ _ | Command_Resize _ _ _ | Command_ProcessExited => true
  | _ => false
  end.
Definition settled_drain (engine_idle : bool) (s : Admission) : option DrainOutcome :=
  let ready :=
    is_some (ad_output_drain s) && engine_idle
    && negb (match ad_residency s with Restoring | Usable => true | _ => false end)
    && negb (existsb extends_stream (ad_queue s))
    && bool_decide (ps_processed (ad_status s) = ps_published (ad_status s))
    && is_none (ad_failure s) in
  if ready then ad_output_drain s else None.

(** ** Failure and cleanup *)

(** The projection fails; staged output stays queued, every other command is
    handed back to be failed. *)
Definition queue_fail (error : ProjectionError) (s : Admission)
    : Admission * (list Command * option DrainOutcome) :=
  let s := with_policy (fail error) s in
  (set_queue (List.filter is_output (ad_queue s)) s,
   (List.filter (negb ∘ is_output) (ad_queue s), ad_output_drain s)).

Inductive CloseRequest :=
  | AlreadyClosed (outcome : result ProjectionError ())
  | Close_Started (queued : list Command).

(** [failure.map_or(Ok(()), Err)] *)
Definition map_or_ok (e : option ProjectionError) : result ProjectionError () :=
  match e with Some e => Err e | None => Ok tt end.

Definition request_close (waiter : option ticket_ref) (s : Admission) : Admission * CloseRequest :=
  if bool_decide (ad_residency s = Closed)
  then (s, AlreadyClosed (map_or_ok (ad_cleanup_failure s)))
  else
    let s := with_policy close s in
    let s := set_cleanup (ad_close_waiters s ++ option_list waiter) (ad_unreclaimed_failure s)
               None true s in
    (set_queue [] s, Close_Started (ad_queue s)).

Definition mark_failed (error : ProjectionError) : Admission → Admission :=
  with_policy (fail error).

Definition take_cleanup_retry (s : Admission) : Admission * (option ProjectionError * bool) :=
  (set_cleanup (ad_close_waiters s) (ad_unreclaimed_failure s) (ad_cleanup_failure s) false s,
   (ad_cleanup_failure s, ad_retry_cleanup s)).

(** [a.or(b)] *)
Definition opt_or {A} (a b : option A) : option A := match a with Some _ => a | None => b end.

Definition finish_close (failed : option ProjectionError) (s : Admission)
    : Admission * (list ticket_ref * option ProjectionError) :=
  let failed := opt_or failed (ad_unreclaimed_failure s) in
  let p := match failed with Some e => cleanup_failed e (ad_policy s) | None => ad_policy s end in
  (set_policy (mark_closed p)
     (set_cleanup [] (ad_unreclaimed_failure s) failed (ad_retry_cleanup s) s),
   (ad_close_waiters s, failed)).

Definition abandon_close (s : Admission) : Admission * list Command :=
  let s := with_policy close s in
  let s := set_cleanup (ad_close_waiters s) (ad_unreclaimed_failure s)
             (Some ProjectionError_Worker) (ad_retry_cleanup s) s in
  (set_queue [] s, ad_queue s).

Definition abandon_waiters (s : Admission) : Admission * list ticket_ref :=
  (with_policy (λ p, mark_closed (cleanup_failed ProjectionError_Worker p))
     (set_cleanup [] (ad_unreclaimed_failure s) (ad_cleanup_failure s) (ad_retry_cleanup s) s),
   ad_close_waiters s).

Definition close_outcome (s : Admission) : option (result ProjectionError ()) :=
  if bool_decide (ad_residency s = Closed) then Some (map_or_ok (ad_cleanup_failure s)) else None.

(** ** The closures that admit (admission.rs, snapshot.rs) *)

Section closures.
(** The session's quotas and the bound on one chunk. *)
Context (sq : SessionQuotas) (feed_bytes : Z).

(** [stage_output_observed]: [allocated] is whether the copy of the chunk could
    be allocated.  A lease that is not moved into the command is dropped. *)
Definition stage_output_closure (bytes : list Z) (observed : option Z) (allocated : bool) (now : Z)
    : Admitting quotas OutputAdmission :=
  Ad_residency (λ residency,
  if closing_or_closed residency then Ad_ret (Admission_Rejected Acceptance_Closed) else
  Ad_is_draining (λ draining,
  if draining then Ad_ret (Admission_Rejected Acceptance_Closed)
  else if bool_decide (bytes = []) then Ad_ret Admission_Nothing
  else if feed_bytes <? len bytes then Ad_ret (Admission_Rejected Backpressure)
  else Ad_outside (λ qs, (reserve_staging sq (len bytes) qs).1) (λ qs,
  match (reserve_staging sq (len bytes) qs).2 with
  | Err _ => Ad_ret (Admission_Rejected Backpressure)
  | Ok lease =>
    let abandon why :=
      Ad_outside (StagingLease_drop lease) (λ _, Ad_ret (Admission_Rejected why)) in
    if negb allocated then abandon Backpressure
    else Ad_admit_output_bytes (len bytes) now (λ r,
      if is_err r then abandon Acceptance_Closed
      else Ad_ret (Admission_Queue (Command_Output bytes
             {| sg_timing := Timing_new ProjectedOutput <$> observed; sg_bytes := sg_bytes lease;
                sg_slots := sg_slots lease |})))
  end))).

Definition resize_closure (size : TerminalSize) (ticket : ticket_ref) (timing : option Timing)
    (lease : StagingLease) (now : Z) : Admitting quotas (result ProjectionError Command) :=
  Ad_is_draining (λ draining,
  if draining then Ad_ret (Err ProjectionError_Closed)
  else Ad_record_activity now (λ r,
  match r with
  | Err e => Ad_ret (Err e)
  | Ok _ => Ad_ret (Ok (Command_Resize size ticket
              {| sg_timing := timing; sg_bytes := sg_bytes lease; sg_slots := sg_slots lease |}))
  end)).

(** [view], [checkpoint] and [begin_transfer] *)
Definition view_closure (ticket : ticket_ref) (lease : StagingLease)
    : Admitting quotas (result ProjectionError Command) := Ad_ret (Ok (Command_View ticket lease)).
Definition checkpoint_closure (ticket : ticket_ref) (lease : StagingLease)
    : Admitting quotas (result ProjectionError Command) :=
  Ad_ret (Ok (Command_Checkpoint (Snapshot_Checkpoint ticket) lease)).
Definition transfer_closure (ticket : ticket_ref) (permit : Lease) (lease : StagingLease)
    : Admitting quotas (result ProjectionError Command) :=
  Ad_ret (Ok (Command_Checkpoint (Snapshot_Transfer ticket permit) lease)).
End closures.
