(* ===== verification/Admission.v ===== *)
(** * Callers and worker at the admission lock (crates/application/src/projection/
      admission.rs, queue.rs)

    A [desk] is what the admission lock guards together with the quotas its
    commands are charged to and the command the worker has taken.  A history is
    any interleaving of lock sections, by callers and by the one worker, each a
    [desk_op]; the properties hold for every history.  Fields below the line
    only record what happened: the bytes accepted and fed, the tickets admitted
    and what became of them.  The request slot of a wait is a lease of its ticket
    and not of the command, so it is not the desk's: Coordinator.v keeps those
    leases ([co_reservations]). *)

From S2P Require Import Prelude Identity Process Terminal Checkpoint Projection Session.
From S2P Require Import Policy Atomic Quota Diagnostics Budgets Queue.

(** ** Commands as owners *)

Definition command_tickets (c : Command) : list ticket_ref := fst <$> Command_fail ProjectionError_Closed c.
Definition command_bytes (c : Command) : list Z :=
  match c with Command_Output bytes _ => bytes | _ => [] end.
Definition commands_bytes (cs : list Command) : list Z := cs ≫= command_bytes.
Definition commands_tickets (cs : list Command) : list ticket_ref := cs ≫= command_tickets.

(** Dropping a command drops its leases. *)
Definition request_drop (r : SnapshotRequest) (qs : quotas) : quotas :=
  match r with Snapshot_Checkpoint _ => qs | Snapshot_Transfer _ permit => Lease_drop permit qs end.
Definition Command_drop (c : Command) (qs : quotas) : quotas :=
  match c with
  | Command_Output _ lease | Command_Resize _ _ lease | Command_View _ lease =>
    StagingLease_drop lease qs
  | Command_ProcessExited => qs
  | Command_Checkpoint request lease => StagingLease_drop lease (request_drop request qs)
  end.

Definition request_charges (r : SnapshotRequest) : charges :=
  match r with Snapshot_Checkpoint _ => [] | Snapshot_Transfer _ permit => Lease_charges permit end.
Definition command_charges (c : Command) : charges :=
  match c with
  | Command_Output _ lease | Command_Resize _ _ lease | Command_View _ lease =>
    StagingLease_charges lease
  | Command_ProcessExited => []
  | Command_Checkpoint request lease => request_charges request ++ StagingLease_charges lease
  end.
Definition commands_charges (cs : list Command) : charges := cs ≫= command_charges.

(** ** The desk *)

Record desk := {
  dk_adm : Admission;
  dk_quotas : quotas;
  (** The command the worker has taken, and those it has begun to apply. *)
  dk_held : option Command;
  dk_working : list Command;
  (** ---- *)
  dk_accepted : list Z;
  dk_fed : list Z;
  dk_admitted : list ticket_ref;
  dk_failed : list ticket_ref;
  dk_applied : list ticket_ref;
  dk_asked : list ticket_ref;
  dk_answered : list ticket_ref;
  dk_exits : Z
}.

Definition desk_new (p : ProjectionPolicy) (qs : quotas) : desk := {|
  dk_adm := Admission_new p; dk_quotas := qs; dk_held := None; dk_working := [];
  dk_accepted := []; dk_fed := []; dk_admitted := []; dk_failed := []; dk_applied := [];
  dk_asked := []; dk_answered := []; dk_exits := 0 |}.

Definition put (a : Admission) (qs : quotas) (h : option Command) (w : list Command) (d : desk)
    : desk := {|
  dk_adm := a; dk_quotas := qs; dk_held := h; dk_working := w;
  dk_accepted := dk_accepted d; dk_fed := dk_fed d; dk_admitted := dk_admitted d;
  dk_failed := dk_failed d; dk_applied := dk_applied d; dk_asked := dk_asked d;
  dk_answered := dk_answered d; dk_exits := dk_exits d |}.
Definition put_adm (a : Admission) (d : desk) : desk :=
  put a (dk_quotas d) (dk_held d) (dk_working d) d.
Definition hold (h : option Command) (d : desk) : desk :=
  put (dk_adm d) (dk_quotas d) h (dk_working d) d.
Definition note_stream (accepted fed : list Z) (exits : Z) (d : desk) : desk := {|
  dk_adm := dk_adm d; dk_quotas := dk_quotas d; dk_held := dk_held d; dk_working := dk_working d;
  dk_accepted := dk_accepted d ++ accepted; dk_fed := dk_fed d ++ fed;
  dk_admitted := dk_admitted d; dk_failed := dk_failed d; dk_applied := dk_applied d;
  dk_asked := dk_asked d; dk_answered := dk_answered d; dk_exits := dk_exits d + exits |}.
Definition note_tickets (admitted failed applied : list ticket_ref) (d : desk) : desk := {|
  dk_adm := dk_adm d; dk_quotas := dk_quotas d; dk_held := dk_held d; dk_working := dk_working d;
  dk_accepted := dk_accepted d; dk_fed := dk_fed d; dk_admitted := dk_admitted d ++ admitted;
  dk_failed := dk_failed d ++ failed; dk_applied := dk_applied d ++ applied;
  dk_asked := dk_asked d; dk_answered := dk_answered d; dk_exits := dk_exits d |}.
Definition note_waiters (asked answered : list ticket_ref) (d : desk) : desk := {|
  dk_adm := dk_adm d; dk_quotas := dk_quotas d; dk_held := dk_held d; dk_working := dk_working d;
  dk_accepted := dk_accepted d; dk_fed := dk_fed d; dk_admitted := dk_admitted d;
  dk_failed := dk_failed d; dk_applied := dk_applied d; dk_asked := dk_asked d ++ asked;
  dk_answered := dk_answered d ++ answered; dk_exits := dk_exits d |}.

(** [for event in rejected { event.fail(error) }] *)
Definition fail_commands (cs : list Command) (d : desk) : desk :=
  note_tickets [] (commands_tickets cs) []
    (put (dk_adm d) (foldl (flip Command_drop) (dk_quotas d) cs) (dk_held d) (dk_working d) d).

(** ** Lock sections *)

Inductive desk_op :=
  (** callers *)
  | D_output (bytes : list Z) (observed : option Z) (allocated : bool) (now : Z)
  | D_resize (size : TerminalSize) (ticket : ticket_ref) (timing : option Timing) (now : Z)
  | D_view (ticket : ticket_ref)
  | D_checkpoint (ticket : ticket_ref)
  | D_transfer (ticket : ticket_ref)
  | D_exit
  | D_drain (outcome : DrainOutcome)
  | D_close (waiter : option ticket_ref)
  | D_fail (error : ProjectionError)
  (** the worker *)
  | D_mark_failed (error : ProjectionError)
  | D_take
  | D_take_if (allowed : Command → bool)
  | D_take_output
  | D_take_checkpoint
  | D_processed
  | D_requeue
  | D_apply
  | D_release (i : nat)
  | D_begin_park (now : Z)
  | D_commit_park (attempt : ParkAttempt)
  | D_park_failed (error : ProjectionError) (now : Z)
  | D_uncertain (error : ProjectionError) (now : Z)
  | D_maintenance (error : ProjectionError)
  | D_begin_restore
  | D_progress (progress : RestorationProgress)
  | D_control (generation : ControlGeneration)
  | D_cleanup_retry
  | D_finish_close (failed : option ProjectionError)
  | D_abandon_close
  | D_abandon_waiters.

Section desk.
Context (sq : SessionQuotas) (feed_bytes : Z).
(** The journal's observer quotas, global and the session's own. *)
Context (observers own_observers : quota_ref).

Definition no_staging : StagingLease := {| sg_timing := None; sg_bytes := None; sg_slots := None |}.

(** A control: [admit], with the lease [permit] dropped when it is refused. *)
Definition admit_control (build : Admitting quotas (result ProjectionError Command))
    (ticket : ticket_ref) (permit : option Lease) (d : desk) : desk :=
  match queue_admit build (dk_quotas d) (dk_adm d) with
  | (qs, a, Ok _) => note_tickets [ticket] [] [] (put a qs (dk_held d) (dk_working d) d)
  | (qs, a, Err _) => put a (drop_opt permit qs) (dk_held d) (dk_working d) d
  end.

(** Take with [take] when the worker holds nothing. *)
Definition worker_take (take : Admission → Admission * option Command) (d : desk) : desk :=
  match dk_held d with
  | Some _ => d
  | None => let (a, c) := take (dk_adm d) in put a (dk_quotas d) c (dk_working d) d
  end.
Definition fail_now (error : ProjectionError) (d : desk) : desk :=
  let '(a, (rejected, _)) := queue_fail error (dk_adm d) in fail_commands rejected (put_adm a d).
Definition requeue_held (d : desk) : desk :=
  match dk_held d with
  | None => d
  | Some c =>
    let (a, back) := requeue c (dk_adm d) in
    fail_commands (option_list back) (hold None (put_adm a d))
  end.

Definition desk_step (op : desk_op) (d : desk) : desk :=
  let a := dk_adm d in
  match op with
  | D_output bytes observed allocated now =>
    let '(qs, a, o) := queue_admit_output
      (stage_output_closure sq feed_bytes bytes observed allocated now) (dk_quotas d) a in
    note_stream (match o with Outcome_Queued => bytes | _ => [] end) [] 0
      (put a qs (dk_held d) (dk_working d) d)
  | D_resize size ticket timing now =>
    admit_control (resize_closure size ticket timing no_staging now) ticket None d
  | D_view ticket => admit_control (view_closure ticket no_staging) ticket None d
  | D_checkpoint ticket => admit_control (checkpoint_closure ticket no_staging) ticket None d
  | D_transfer ticket =>
    match Lease_shared_and_local observers own_observers 1 (dk_quotas d) with
    | (qs, Err _) => put a qs (dk_held d) (dk_working d) d
    | (qs, Ok permit) =>
      admit_control (transfer_closure ticket permit no_staging) ticket (Some permit)
        (put a qs (dk_held d) (dk_working d) d)
    end
  | D_exit =>
    let (a, queued) := record_process_exit a in
    note_stream [] [] (if queued then 1 else 0) (put_adm a d)
  | D_drain outcome => put_adm (record_drain outcome a).1 d
  | D_close waiter =>
    match request_close waiter a with
    | (a, AlreadyClosed _) =>
      note_waiters (option_list waiter) (option_list waiter) (put_adm a d)
    | (a, Close_Started queued) =>
      note_waiters (option_list waiter) [] (fail_commands queued (put_adm a d))
    end
  | D_fail error => fail_now error d
  | D_mark_failed error => put_adm (mark_failed error a) d
  | D_take => worker_take take_next d
  | D_take_if allowed => worker_take (take_next_if allowed) d
  | D_take_output => worker_take take_next_output_while_serving d
  | D_take_checkpoint =>
    worker_take (λ a, let (a, c) := take_checkpoint_if_any_work a in (a, c ≫= id)) d
  | D_processed =>
    match dk_held d with
    | Some (Command_Output bytes lease) =>
      match queue_record_processed (len bytes) a with
      | (a, Ok _) =>
        note_stream [] bytes 0
          (put a (Command_drop (Command_Output bytes lease) (dk_quotas d)) None (dk_working d) d)
      | (a, Err error) => fail_now error (requeue_held (put_adm a d))
      end
    | _ => d
    end
  | D_requeue => requeue_held d
  | D_apply =>
    match dk_held d with
    | None | Some (Command_Output _ _) => d
    | Some c =>
      note_tickets [] [] (command_tickets c) (put a (dk_quotas d) None (c :: dk_working d) d)
    end
  | D_release i =>
    match dk_working d !! i with
    | None => d
    | Some c => put a (Command_drop c (dk_quotas d)) (dk_held d) (delete i (dk_working d)) d
    end
  | D_begin_park now => put_adm (queue_begin_park now a).1 d
  | D_commit_park attempt => put_adm (queue_commit_park attempt a).1 d
  | D_park_failed error now => put_adm (queue_park_failed error now a) d
  | D_uncertain error now => put_adm (park_outcome_uncertain error now a) d
  | D_maintenance error => put_adm (queue_maintenance_failed error a) d
  | D_begin_restore => put_adm (queue_begin_restore a).1 d
  | D_progress progress => put_adm (record_restoration_progress progress a).1 d
  | D_control g => put_adm (queue_record_control_applied g a).1 d
  | D_cleanup_retry => put_adm (take_cleanup_retry a).1 d
  | D_finish_close failed =>
    if closing_or_closed (ad_residency a) then
      let '(a, (waiters, _)) := finish_close failed a in note_waiters [] waiters (put_adm a d)
    else d
  | D_abandon_close => let (a, queued) := abandon_close a in fail_commands queued (put_adm a d)
  | D_abandon_waiters =>
    if closing_or_closed (ad_residency a) then
      let (a, waiters) := abandon_waiters a in note_waiters [] waiters (put_adm a d)
    else d
  end.

Definition desk_run (ops : list desk_op) (d : desk) : desk := foldl (flip desk_step) d ops.
End desk.

(** ** What a lock section may do

    The contract of the admission lock, on the desk alone: every section is one
    or two of the moves below ([desk_step_moves]). *)

Definition published_of (a : Admission) : Z := rc_offset (ps_published (ad_status a)).
Definition processed_of (a : Admission) : Z := rc_offset (ps_processed (ad_status a)).
Definition closing_of (a : Admission) : bool := closing_or_closed (ad_residency a).

(** A section that neither publishes, feeds nor closes. *)
Record calm (a a' : Admission) : Prop := {
  calm_published : published_of a' = published_of a;
  calm_processed : processed_of a' = processed_of a;
  calm_closing : closing_of a' = closing_of a
}.
(** The fields that only their own sections change. *)
Record keeps (a a' : Admission) : Prop := {
  keeps_exit : ad_process_exit_queued a' = ad_process_exit_queued a;
  keeps_waiters : ad_close_waiters a' = ad_close_waiters a;
  keeps_drain : ∀ o, ad_output_drain a = Some o → ad_output_drain a' = Some o
}.
(** Quotas after charging [cs]. *)
Definition charging (cs : charges) (qs qs' : quotas) : Prop :=
  ∀ others, accounts others qs → accounts (cs ++ others) qs'.

Definition is_control (c : Command) : bool := negb (is_output c) && negb (is_exit c).

(** The lease of an output command of [n] bytes. *)
Definition staged (sq : SessionQuotas) (n : Z) (lease : StagingLease) : Prop :=
  sg_bytes lease = Some {| le_first := pb_staging_bytes (sq_shared sq);
                           le_second := Some (sq_staging_bytes sq); le_count := n |}
  ∧ sg_slots lease = Some {| le_first := pb_staging_slots (sq_shared sq);
                             le_second := Some (sq_staging_slots sq); le_count := 1 |}.

Section moves.
Context (sq : SessionQuotas) (feed_bytes : Z).

Inductive desk_move (d : desk) : desk → Prop :=
  | move_calm a qs :
      calm (dk_adm d) a → keeps (dk_adm d) a → ad_queue a = ad_queue (dk_adm d) →
      charging [] (dk_quotas d) qs →
      desk_move d (put a qs (dk_held d) (dk_working d) d)
  | move_output a qs bytes lease :
      bytes ≠ [] → len bytes <= feed_bytes → closing_of (dk_adm d) = false →
      ad_output_drain (dk_adm d) = None → staged sq (len bytes) lease →
      published_of a = published_of (dk_adm d) + len bytes →
      processed_of a = processed_of (dk_adm d) → published_of a <= u64_max →
      closing_of a = false →
      keeps (dk_adm d) a → ad_queue a = ad_queue (dk_adm d) ++ [Command_Output bytes lease] →
      charging (StagingLease_charges lease) (dk_quotas d) qs →
      desk_move d (note_stream bytes [] 0 (put a qs (dk_held d) (dk_working d) d))
  | move_control a qs c :
      is_control c = true → check_accepting (dk_adm d) = Ok tt →
      calm (dk_adm d) a → keeps (dk_adm d) a → closing_of a = false →
      ad_queue a = ad_queue (dk_adm d) ++ [c] → charging (command_charges c) (dk_quotas d) qs →
      desk_move d (note_tickets (command_tickets c) [] [] (put a qs (dk_held d) (dk_working d) d))
  | move_exit :
      ad_process_exit_queued (dk_adm d) = false → check_accepting (dk_adm d) = Ok tt →
      desk_move d (note_stream [] [] 1
        (put_adm (set_queue (ad_queue (dk_adm d) ++ [Command_ProcessExited])
                    (set_marks (ad_output_drain (dk_adm d)) true (dk_adm d))) d))
  | move_take c q :
      dk_held d = None → ad_queue (dk_adm d) = c :: q →
      desk_move d (put (set_queue q (dk_adm d)) (dk_quotas d) (Some c) (dk_working d) d)
  | move_requeue c :
      dk_held d = Some c → closing_of (dk_adm d) = false →
      desk_move d (hold None (put_adm (set_queue (c :: ad_queue (dk_adm d)) (dk_adm d)) d))
  | move_abandon c :
      dk_held d = Some c → closing_of (dk_adm d) = true →
      desk_move d (fail_commands [c] (hold None d))
  | move_feed bytes lease a :
      dk_held d = Some (Command_Output bytes lease) →
      published_of a = published_of (dk_adm d) →
      processed_of a = processed_of (dk_adm d) + len bytes →
      closing_of a = closing_of (dk_adm d) →
      keeps (dk_adm d) a → ad_queue a = ad_queue (dk_adm d) →
      desk_move d (note_stream [] bytes 0
        (put a (StagingLease_drop lease (dk_quotas d)) None (dk_working d) d))
  | move_fail a :
      calm (dk_adm d) a → keeps (dk_adm d) a →
      ad_queue a = List.filter is_output (ad_queue (dk_adm d)) →
      desk_move d (fail_commands (List.filter (negb ∘ is_output) (ad_queue (dk_adm d)))
                     (put_adm a d))
  | move_clear a waiter :
      published_of a = published_of (dk_adm d) → processed_of a = processed_of (dk_adm d) →
      closing_of a = true → ad_process_exit_queued a = ad_process_exit_queued (dk_adm d) →
      ad_output_drain a = ad_output_drain (dk_adm d) →
      ad_close_waiters a = ad_close_waiters (dk_adm d) ++ waiter →
      ad_queue a = [] →
      desk_move d (note_waiters waiter [] (fail_commands (ad_queue (dk_adm d)) (put_adm a d)))
  | move_apply c :
      dk_held d = Some c → is_output c = false →
      desk_move d (note_tickets [] [] (command_tickets c)
                     (put (dk_adm d) (dk_quotas d) None (c :: dk_working d) d))
  | move_release i c :
      dk_working d !! i = Some c →
      desk_move d (put (dk_adm d) (Command_drop c (dk_quotas d)) (dk_held d)
                     (delete i (dk_working d)) d)
  | move_answer waiter :
      closing_of (dk_adm d) = true → desk_move d (note_waiters waiter waiter d)
  | move_settle a :
      published_of a = published_of (dk_adm d) → processed_of a = processed_of (dk_adm d) →
      closing_of a = true → closing_of (dk_adm d) = true →
      ad_process_exit_queued a = ad_process_exit_queued (dk_adm d) →
      ad_output_drain a = ad_output_drain (dk_adm d) → ad_queue a = ad_queue (dk_adm d) →
      ad_close_waiters a = [] →
      desk_move d (note_waiters [] (ad_close_waiters (dk_adm d)) (put_adm a d)).
End moves.

(** ** Lemmas *)

(** Calls of the policy that move a position or close. *)
Definition positional (op : policy_op) : bool :=
  match op with
  | Op_admit_output _ _ | Op_record_processed _ | Op_close | Op_mark_closed => true
  | _ => false
  end.

Lemma apply_op_calm op a :
  positional op = false → calm a (set_policy (apply_op op (ad_policy a)) a).
Proof.
  intros Hop. destruct a as [p]. unfold published_of, processed_of, closing_of, ad_residency, ad_status.
  split; unfold published_of, processed_of, closing_of, ad_residency, ad_status; simpl;
    destruct op; try done; policy_cases; try done;
    unfold park_delay, pp_residency in *; repeat case_match; to_props; try done; try congruence;
    match goal with H : ps_residency _ = _ |- _ => rewrite H end; done.
Qed.

Lemma keeps_set_policy p a : keeps a (set_policy p a).
Proof. by split. Qed.
Lemma keeps_refl a : keeps a a.
Proof. by split. Qed.
Lemma calm_refl a : calm a a.
Proof. by split. Qed.
Lemma charging_nil qs : charging [] qs qs.
Proof. intros others H. done. Qed.
#[local] Hint Resolve keeps_set_policy keeps_refl calm_refl charging_nil : runtime.

Lemma on_policy_fst {A} (m : action ProjectionPolicy ProjectionError A) a :
  (on_policy m a).1 = set_policy (m (ad_policy a)).1 a.
Proof. unfold on_policy. by destruct (m (ad_policy a)). Qed.

(** The queue and the policy of a state changed in other fields only. *)
Lemma calm_same a a' : ad_policy a' = ad_policy a → calm a a'.
Proof.
  intros E. split; unfold published_of, processed_of, closing_of, ad_residency, ad_status;
    by rewrite E.
Qed.

Lemma calm_trans a b c : calm a b → calm b c → calm a c.
Proof. intros [] []. split; congruence. Qed.

Lemma calm_of_op op a a' :
  positional op = false → ad_policy a' = apply_op op (ad_policy a) → calm a a'.
Proof.
  intros Hop E. eapply calm_trans; [by apply (apply_op_calm op)|]. by apply calm_same.
Qed.

Lemma admit_output_cases n now p p' r :
  Policy.admit_output n now p = (p', r) →
  match r with
  | Err _ => p' = p
  | Ok _ => closing_or_closed (pp_residency p) = false ∧ pp_residency p' = pp_residency p
            ∧ rc_offset (ps_published (pp_status p')) = rc_offset (ps_published (pp_status p)) + n
            ∧ rc_offset (ps_published (pp_status p')) <= u64_max
            ∧ ps_processed (pp_status p') = ps_processed (pp_status p)
            ∧ ps_failure (pp_status p') = ps_failure (pp_status p)
  end.
Proof. intros E. destruct r; policy_cases; naive_solver lia. Qed.

Lemma record_activity_cases now p p' r :
  record_activity now p = (p', r) →
  match r with Err _ => p' = p | Ok _ => pp_status p' = pp_status p end.
Proof. intros E. destruct r; policy_cases; naive_solver. Qed.

Lemma record_processed_cases n p p' r :
  record_processed n p = (p', r) →
  match r with
  | Err _ => p' = p
             ∧ (u64_max < rc_offset (ps_processed (pp_status p)) + n
                ∨ rc_offset (ps_published (pp_status p)) < rc_offset (ps_processed (pp_status p)) + n)
  | Ok _ => pp_residency p' = pp_residency p ∧ ps_published (pp_status p') = ps_published (pp_status p)
            ∧ rc_offset (ps_processed (pp_status p')) = rc_offset (ps_processed (pp_status p)) + n
  end.
Proof. intros E. destruct r; policy_cases; naive_solver lia. Qed.

Lemma charging_drop cs qs qs' lease :
  charging (StagingLease_charges lease) qs qs' → cs = StagingLease_charges lease →
  charging [] qs (StagingLease_drop lease qs').
Proof. intros H _ others Ha. apply accounts_staging_drop. by apply H. Qed.

Lemma reserve_staging_charging q n qs :
  0 <= n →
  match (reserve_staging q n qs).2 with
  | Ok lease => charging (StagingLease_charges lease) qs (reserve_staging q n qs).1
  | Err _ => charging [] qs (reserve_staging q n qs).1
  end.
Proof.
  intros Hn. destruct (reserve_staging q n qs) as [qs' [lease|e]] eqn:E; simpl; intros others Ha;
    by pose proof (reserve_staging_sound q n Hn _ _ _ _ Ha E).
Qed.

(** What an output lease charges. *)
Lemma reserve_staging_staged q n qs lease :
  n ≠ 0 → (reserve_staging q n qs).2 = Ok lease → staged q n lease.
Proof.
  intros Hn. unfold reserve_staging, both_leases, staging_slot, staging_bytes,
    Lease_shared_and_local, Lease_shared.
  destruct (n =? 0) eqn:E0; to_props; [done|].
  repeat (case_match; simplify_eq/=); intros [= <-]; done.
Qed.

(** The closure of [stage_output] either queues the whole chunk with its lease,
    having published it, or changes nothing but the order of refusals. *)
Lemma stage_output_closure_cases sq feed_bytes bytes observed allocated now qs a qs' a' o :
  admitting_run (stage_output_closure sq feed_bytes bytes observed allocated now) qs a = (qs', a', o) →
  match o with
  | Admission_Queue c =>
    ∃ lease, c = Command_Output bytes lease ∧ staged sq (len bytes) lease
    ∧ bytes ≠ [] ∧ len bytes <= feed_bytes ∧ closing_of a = false ∧ ad_output_drain a = None
    ∧ (∃ p, a' = set_policy p a) ∧ published_of a' = published_of a + len bytes
    ∧ processed_of a' = processed_of a ∧ published_of a' <= u64_max ∧ closing_of a' = false
    ∧ charging (StagingLease_charges lease) qs qs'
  | _ => a' = a ∧ charging [] qs qs'
  end.
Proof.
  unfold stage_output_closure. simpl. fold (closing_of a).
  destruct (closing_of a) eqn:Hc; [intros [= <- <- <-]; auto with runtime|]. simpl.
  destruct (ad_output_drain a) eqn:Hd; simpl; [intros [= <- <- <-]; auto with runtime|].
  case_bool_decide as Hb; simpl; [intros [= <- <- <-]; auto with runtime|].
  destruct (feed_bytes <? len bytes) eqn:Hf; simpl; [intros [= <- <- <-]; auto with runtime|].
  to_props. pose proof (reserve_staging_charging sq (len bytes) qs (len_nonneg _)) as Hr.
  assert (len bytes ≠ 0) as Hn by (by rewrite len_zero).
  destruct ((reserve_staging sq (len bytes) qs).2) as [lease|e] eqn:El; simpl;
    [|intros [= <- <- <-]; auto].
  apply reserve_staging_staged in El; [|done].
  destruct allocated; simpl; [|intros [= <- <- <-]; split; [done|by eapply charging_drop]].
  unfold on_policy. destruct (Policy.admit_output (len bytes) now (ad_policy a)) as [p r] eqn:Ep.
  apply admit_output_cases in Ep. destruct r as [[]|e]; simpl.
  - intros [= <- <- <-]. destruct Ep as (_ & Hres & Hp & Hw & Hq & _).
    eexists. split; [done|]. split; [done|].
    do 4 (split; [done|]). split; [by eexists|]. split; [done|].
    split; [unfold processed_of, ad_status; simpl; by rewrite Hq|]. split; [done|]. split; [|done].
    rewrite <-Hc. unfold closing_of, ad_residency. simpl. by rewrite Hres.
  - intros [= <- <- <-]. subst p. split; [by destruct a|by eapply charging_drop].
Qed.

(** ** Every section is made of moves *)

Section refinement.
Context (sq : SessionQuotas) (feed_bytes : Z) (observers own_observers : quota_ref).
Abbreviation move := (desk_move sq feed_bytes).
Abbreviation moves := (rtc (desk_move sq feed_bytes)).

Lemma put_same d : put (dk_adm d) (dk_quotas d) (dk_held d) (dk_working d) d = d.
Proof. by destruct d. Qed.
Lemma set_queue_same a : set_queue (ad_queue a) a = a.
Proof. by destruct a. Qed.

Lemma fail_commands_nil d : fail_commands [] d = d.
Proof. destruct d. unfold fail_commands, note_tickets, put. simpl. by rewrite !app_nil_r. Qed.

Lemma note_stream_nil d : note_stream [] [] 0 d = d.
Proof. destruct d. unfold note_stream. simpl. by rewrite !app_nil_r, Z.add_0_r. Qed.

Lemma note_waiters_nil d : note_waiters [] [] d = d.
Proof. destruct d. unfold note_waiters. simpl. by rewrite !app_nil_r. Qed.

Lemma moves_calm d a :
  calm (dk_adm d) a → keeps (dk_adm d) a → ad_queue a = ad_queue (dk_adm d) →
  moves d (put_adm a d).
Proof. intros. apply rtc_once, move_calm; auto with runtime. Qed.

(** A policy call under the lock. *)
Lemma moves_policy op d p :
  positional op = false → p = apply_op op (ad_policy (dk_adm d)) →
  moves d (put_adm (set_policy p (dk_adm d)) d).
Proof. intros Hop ->. apply moves_calm; auto with runtime. by eapply calm_of_op. Qed.

Lemma moves_fail error d : moves d (fail_now error d).
Proof.
  unfold fail_now, queue_fail. apply rtc_once. simpl.
  apply (move_fail _ _ d); [|by split|done]. by apply (calm_of_op (Op_fail error)).
Qed.

Lemma moves_requeue d : moves d (requeue_held d).
Proof.
  unfold requeue_held, requeue. destruct (dk_held d) as [c|] eqn:Hh; [|done].
  fold (closing_of (dk_adm d)). destruct (closing_of (dk_adm d)) eqn:Hc; apply rtc_once.
  - unfold put_adm. rewrite put_same. by apply move_abandon.
  - simpl (option_list _). rewrite fail_commands_nil.
    by apply move_requeue.
Qed.

(** A take removes the head of the queue, or nothing. *)
Definition takes (take : Admission → Admission * option Command) : Prop :=
  ∀ a, match take a with
       | (a', Some c) => ∃ q, ad_queue a = c :: q ∧ a' = set_queue q a
       | (a', None) => a' = a
       end.

Lemma take_next_takes : takes take_next.
Proof. intros a. unfold take_next. destruct (ad_queue a); eauto. Qed.
Lemma take_next_if_takes allowed : takes (take_next_if allowed).
Proof.
  intros a. unfold take_next_if, take_next. destruct (ad_queue a) as [|c q]; [done|].
  destruct (allowed c); eauto.
Qed.
Lemma take_output_takes : takes take_next_output_while_serving.
Proof.
  intros a. unfold take_next_output_while_serving.
  destruct (is_some (ad_failure a) || _); [done|]. apply take_next_if_takes.
Qed.
Lemma take_checkpoint_takes :
  takes (λ a, let (a, c) := take_checkpoint_if_any_work a in (a, c ≫= id)).
Proof.
  intros a. unfold take_checkpoint_if_any_work. destruct (queue_is_empty a); [done|].
  pose proof (take_next_if_takes is_checkpoint a) as H.
  by destruct (take_next_if is_checkpoint a) as [a' [c|]].
Qed.

Lemma moves_take take d : takes take → moves d (worker_take take d).
Proof.
  intros Ht. unfold worker_take. destruct (dk_held d) as [c|] eqn:Hh; [done|].
  specialize (Ht (dk_adm d)). destruct (take (dk_adm d)) as [a [c|]].
  - destruct Ht as (q & Hq & ->). by apply rtc_once, move_take.
  - subst a. by rewrite <-Hh, put_same.
Qed.

Lemma admit_control_moves build ticket permit d :
  (∀ qs a qs' a' r, admitting_run build qs a = (qs', a', r) →
     qs' = qs ∧ calm a a' ∧ keeps a a' ∧ ad_queue a' = ad_queue a
     ∧ closing_of a' = closing_of a
     ∧ (∀ c', r = Ok c' → command_tickets c' = [ticket] ∧ is_control c' = true
                          ∧ command_charges c' = opt_charges permit)) →
  ∀ qs0, charging (opt_charges permit) qs0 (dk_quotas d) →
  moves (put (dk_adm d) qs0 (dk_held d) (dk_working d) d) (admit_control build ticket permit d).
Proof.
  intros Hb qs0 Hq. unfold admit_control, queue_admit.
  destruct (check_accepting (dk_adm d)) as [[]|e] eqn:Ec.
  2:{ apply rtc_once. apply (move_calm _ _ (put (dk_adm d) qs0 (dk_held d) (dk_working d) d)); simpl; auto with runtime.
      intros others Ha. apply accounts_drop_opt. by apply Hq. }
  destruct (admitting_run build (dk_quotas d) (dk_adm d)) as [[qs' a'] r] eqn:Er.
  apply Hb in Er as (-> & Hcalm & Hk & Hqueue & Hcl & Hr).
  assert (closing_of (dk_adm d) = false) as Hnc.
  { unfold check_accepting in Ec. fold (closing_of (dk_adm d)) in Ec. by destruct (closing_of (dk_adm d)). }
  destruct r as [c'|e].
  - destruct (Hr c' eq_refl) as (Ht' & Hc' & Hch). rewrite <-Ht'. apply rtc_once.
    apply (move_control _ _ (put (dk_adm d) qs0 (dk_held d) (dk_working d) d)); simpl; try done.
    + eapply calm_trans; [done|]. by apply calm_same.
    + destruct Hk. by split.
    + by rewrite <-Hnc, <-Hcl.
    + by rewrite Hqueue.
    + by rewrite Hch.
  - apply rtc_once, (move_calm _ _ (put (dk_adm d) qs0 (dk_held d) (dk_working d) d)); simpl; try done.
    intros others Ha. apply accounts_drop_opt. by apply Hq.
Qed.

Lemma moves_processed d :
  moves d (desk_step sq feed_bytes observers own_observers D_processed d).
Proof.
  simpl. destruct (dk_held d) as [[bytes lease| | | |]|] eqn:Hh; try done.
  unfold queue_record_processed, on_policy.
  destruct (record_processed (len bytes) (ad_policy (dk_adm d))) as [p r] eqn:Ep.
  apply record_processed_cases in Ep. destruct r as [[]|e].
  - destruct Ep as (Hr & Hp & Hq). apply rtc_once.
    apply (move_feed _ _ d bytes lease (set_policy p (dk_adm d))); auto with runtime.
    + unfold published_of, ad_status. simpl. by rewrite Hp.
    + unfold closing_of, ad_residency. simpl. by rewrite Hr.
  - destruct Ep as [-> _].
    assert (put_adm (set_policy (ad_policy (dk_adm d)) (dk_adm d)) d = d) as -> by (by destruct d, dk_adm0).
    etrans; [apply moves_requeue|apply moves_fail].
Qed.

Lemma moves_output bytes observed allocated now d :
  moves d (desk_step sq feed_bytes observers own_observers
             (D_output bytes observed allocated now) d).
Proof.
  simpl. unfold queue_admit_output.
  destruct (admitting_run _ _ _) as [[qs a] o] eqn:E. apply stage_output_closure_cases in E.
  destruct o as [c| |why].
  - destruct E as (lease & -> & Hs & Hb & Hl & Hc & Hd & [p ->] & Hpub & Hproc & Hw & Hcl & Hq).
    apply rtc_once. by apply (move_output _ _ d _ _ bytes lease).
  - destruct E as [-> Hq]. rewrite note_stream_nil. apply rtc_once, move_calm; auto with runtime.
  - destruct E as [-> Hq]. rewrite note_stream_nil. apply rtc_once, move_calm; auto with runtime.
Qed.

Lemma close_calm a p :
  p = close (ad_policy a) → published_of (set_policy p a) = published_of a
  ∧ processed_of (set_policy p a) = processed_of a ∧ closing_of (set_policy p a) = true.
Proof.
  intros ->. unfold published_of, processed_of, closing_of, ad_residency, ad_status. simpl.
  unfold close, pp_residency. case_bool_decide as Hc; [done|]. simpl.
  by rewrite Hc.
Qed.

Lemma moves_controls op d :
  match op with D_resize _ _ _ _ | D_view _ | D_checkpoint _ | D_transfer _ => True | _ => False end →
  moves d (desk_step sq feed_bytes observers own_observers op d).
Proof.
  intros Hop. destruct op as [|size ticket timing now|ticket|ticket|ticket| | | | | | | | | | | | | | | | | | | | | | | | |];
    try done; clear Hop; simpl.
  - rewrite <-(put_same d) at 1. apply admit_control_moves; [|apply charging_nil]. simpl.
    intros qs a qs' a' r. unfold resize_closure. simpl.
    destruct (ad_output_drain a); simpl; [intros [= <- <- <-]; by split_and!|].
    unfold on_policy. destruct (record_activity now (ad_policy a)) as [p [[]|e]] eqn:Ep;
      pose proof (record_activity_cases _ _ _ _ Ep) as Hp; simpl in Hp; simpl; intros [= <- <- <-].
    + split; [done|]. split; [|split; [done|split; [done|split; [|intros c [= <-]; done]]]].
      * apply (calm_of_op (Op_record_activity now)); [done|]. simpl. by rewrite Ep.
      * unfold closing_of, ad_residency, pp_residency. simpl. by rewrite Hp.
    + subst p. split; [done|]. split; [by apply calm_same|].
      by split; [|split; [|split]].
  - rewrite <-(put_same d) at 1. apply admit_control_moves; [|apply charging_nil]. simpl.
    intros qs a qs' a' r [= <- <- <-]. split_and!; auto with runtime. by intros c [= <-].
  - rewrite <-(put_same d) at 1. apply admit_control_moves; [|apply charging_nil]. simpl.
    intros qs a qs' a' r [= <- <- <-]. split_and!; auto with runtime. by intros c [= <-].
  - destruct (Lease_shared_and_local _ _ _ _) as [qs [permit|e]] eqn:El.
    + rewrite <-(put_same d) at 1.
      refine (admit_control_moves (transfer_closure ticket permit no_staging) ticket (Some permit)
                (put (dk_adm d) qs (dk_held d) (dk_working d) d) _ (dk_quotas d) _).
      * intros qs1 a qs' a' r [= <- <- <-]. split; [done|]. split; [done|]. do 3 (split; [done|]).
        intros c [= <-]. split; [done|]. split; [done|]. simpl. by rewrite app_nil_r.
      * intros others Ha. by apply (Lease_shared_and_local_sound _ _ 1 ltac:(lia) _ _ _ _ Ha El).
    + apply rtc_once, move_calm; auto with runtime.
      intros others Ha. by apply (Lease_shared_and_local_sound _ _ 1 ltac:(lia) _ _ _ _ Ha El).
Qed.

(** Every lock section, by a caller or the worker, is made of moves. *)
Lemma desk_step_moves op d :
  moves d (desk_step sq feed_bytes observers own_observers op d).
Proof.
  destruct op as [bytes observed allocated now|size ticket timing now|ticket|ticket|ticket| |outcome
    |waiter|error|error| |allowed| | | | | |i|now|attempt|error now|error now|error| |progress|g|
    |failed| | ]; try (by apply moves_controls); simpl.
  - apply moves_output.
  - unfold record_process_exit. destruct (ad_process_exit_queued (dk_adm d)) eqn:Ex; simpl.
    { unfold put_adm. by rewrite put_same, note_stream_nil. }
    destruct (check_accepting (dk_adm d)) as [[]|e] eqn:Ec; simpl.
    + by apply rtc_once, move_exit.
    + unfold put_adm. by rewrite put_same, note_stream_nil.
  - unfold record_drain. destruct (ad_output_drain (dk_adm d)) eqn:Ed; simpl.
    + apply moves_calm; auto with runtime.
    + apply moves_calm; [by apply calm_same| |done]. split; simpl; [done..|]. by rewrite Ed.
  - unfold request_close. case_bool_decide as Hc; simpl.
    + unfold put_adm. rewrite put_same. apply rtc_once, move_answer.
      unfold closing_of. by rewrite Hc.
    + destruct (close_calm (dk_adm d) _ eq_refl) as (H1 & H2 & H3).
      apply rtc_once. by apply (move_clear _ _ d).
  - apply moves_fail.
  - by apply (moves_policy (Op_fail error)).
  - apply moves_take, take_next_takes.
  - apply moves_take, take_next_if_takes.
  - apply moves_take, take_output_takes.
  - apply moves_take, take_checkpoint_takes.
  - apply moves_processed.
  - apply moves_requeue.
  - destruct (dk_held d) as [c|] eqn:Hh; [|done].
    destruct c; try done; by apply rtc_once, (move_apply _ _ d).
  - destruct (dk_working d !! i) eqn:Hi; [|done]. by apply rtc_once, (move_release _ _ d).
  - unfold queue_begin_park. destruct (queue_is_empty (dk_adm d)); simpl;
      [|apply moves_calm; auto with runtime].
    destruct (on_policy (begin_park now) (dk_adm d)) as [a r] eqn:Ea.
    assert (a = set_policy (begin_park now (ad_policy (dk_adm d))).1 (dk_adm d)) as ->
      by (by rewrite <-on_policy_fst, Ea).
    destruct r; simpl; by apply (moves_policy (Op_begin_park now)).
  - unfold queue_commit_park. destruct (commit_park _ _ _) as [p b] eqn:Ep. simpl.
    apply (moves_policy (Op_commit_park attempt (queue_is_empty (dk_adm d)))); [done|]. simpl.
    by rewrite Ep.
  - by apply (moves_policy (Op_park_failed error now)).
  - apply moves_calm; [|by split|done]. by apply (calm_of_op (Op_park_failed error now)).
  - apply moves_calm; [|by split|done]. by apply (calm_of_op (Op_maintenance_failed error)).
  - unfold queue_begin_restore. rewrite on_policy_fst. by apply (moves_policy Op_begin_restore).
  - unfold record_restoration_progress. rewrite on_policy_fst.
    by apply (moves_policy (Op_restoration_progress progress)).
  - unfold queue_record_control_applied. rewrite on_policy_fst.
    by apply (moves_policy (Op_record_control_applied g)).
  - apply moves_calm; [by apply calm_same|by split|done].
  - fold (closing_of (dk_adm d)). destruct (closing_of (dk_adm d)) eqn:Hc; [|done].
    unfold finish_close. destruct (opt_or failed (ad_unreclaimed_failure (dk_adm d)));
      apply rtc_once; by apply move_settle.
  - unfold abandon_close. destruct (close_calm (dk_adm d) _ eq_refl) as (H1 & H2 & H3).
    rewrite <-(note_waiters_nil (fail_commands _ _)). apply rtc_once.
    apply (move_clear _ _ d); try done. simpl. by rewrite app_nil_r.
  - fold (closing_of (dk_adm d)). destruct (closing_of (dk_adm d)) eqn:Hc; [|done].
    apply rtc_once. by apply move_settle.
Qed.
End refinement.

(** ** The invariant *)

(** What the coordinator owns on behalf of callers, in order. *)
Definition owned (d : desk) : list Command := option_list (dk_held d) ++ ad_queue (dk_adm d).

Definition staged_command (sq : SessionQuotas) (c : Command) : Prop :=
  match c with
  | Command_Output bytes lease => bytes ≠ [] ∧ staged sq (len bytes) lease
  | _ => True
  end.

Record desk_ok (sq : SessionQuotas) (d : desk) : Prop := {
  do_published : published_of (dk_adm d) = len (dk_accepted d);
  do_processed : processed_of (dk_adm d) = len (dk_fed d);
  do_width : published_of (dk_adm d) <= u64_max;
  do_stream : ∃ rest, dk_accepted d = dk_fed d ++ commands_bytes (owned d) ++ rest
                      ∧ (closing_of (dk_adm d) = false → rest = []);
  do_closed : closing_of (dk_adm d) = true → ad_queue (dk_adm d) = [];
  do_tickets : dk_admitted d ≡ₚ dk_failed d ++ dk_applied d ++ commands_tickets (owned d);
  do_waiters : dk_asked d ≡ₚ dk_answered d ++ ad_close_waiters (dk_adm d);
  do_exit : dk_exits d = if ad_process_exit_queued (dk_adm d) then 1 else 0;
  do_staged : Forall (staged_command sq) (owned d ++ dk_working d)
}.

(** Every quota is charged exactly what queued, held and working commands
    carry, beside [others]. *)
Definition desk_accounts (others : charges) (d : desk) : Prop :=
  accounts (commands_charges (owned d ++ dk_working d) ++ others) (dk_quotas d).

Lemma commands_bytes_app cs ds : commands_bytes (cs ++ ds) = commands_bytes cs ++ commands_bytes ds.
Proof. unfold commands_bytes. apply bind_app. Qed.
Lemma commands_tickets_app cs ds :
  commands_tickets (cs ++ ds) = commands_tickets cs ++ commands_tickets ds.
Proof. unfold commands_tickets. apply bind_app. Qed.
Lemma commands_charges_app cs ds :
  commands_charges (cs ++ ds) = commands_charges cs ++ commands_charges ds.
Proof. unfold commands_charges. apply bind_app. Qed.

#[export] Instance commands_charges_Permutation : Proper ((≡ₚ) ==> (≡ₚ)) commands_charges.
Proof. intros cs ds H. unfold commands_charges. by rewrite H. Qed.

Lemma commands_bytes_outputs q : commands_bytes (List.filter is_output q) = commands_bytes q.
Proof. induction q as [|[] q IH]; simpl; [done|by f_equal|done..]. Qed.
Lemma commands_tickets_outputs q : commands_tickets (List.filter is_output q) = [].
Proof. induction q as [|[] q IH]; simpl; done. Qed.
Lemma commands_tickets_others q :
  commands_tickets (List.filter (negb ∘ is_output) q) = commands_tickets q.
Proof. induction q as [|[] q IH]; simpl; (done || by rewrite IH). Qed.
Lemma outputs_Permutation q :
  q ≡ₚ List.filter is_output q ++ List.filter (negb ∘ is_output) q.
Proof.
  induction q as [|c q IH]; simpl; [done|]. destruct (is_output c); simpl.
  - by rewrite <-IH.
  - by rewrite <-Permutation_middle, <-IH.
Qed.
Lemma control_bytes c : is_output c = false → command_bytes c = [].
Proof. by destruct c. Qed.
Lemma control_staged sq c : is_output c = false → staged_command sq c.
Proof. by destruct c. Qed.

Lemma accounts_command_drop c cs qs :
  accounts (command_charges c ++ cs) qs → accounts cs (Command_drop c qs).
Proof.
  destruct c as [b l| |z t l|t l|[t|t p] l]; simpl; try apply accounts_staging_drop; [done|].
  rewrite <-app_assoc. intros H. by apply accounts_staging_drop, accounts_drop.
Qed.
Lemma accounts_commands_drop ds cs qs :
  accounts (commands_charges ds ++ cs) qs → accounts cs (foldl (flip Command_drop) qs ds).
Proof.
  revert qs. induction ds as [|c ds IH]; intros qs; simpl; [done|].
  rewrite <-app_assoc. intros H. by apply IH, accounts_command_drop.
Qed.

(** Rearrangements of what is owned. *)
Lemma owned_snoc (h q w : list Command) c : (h ++ q ++ [c]) ++ w ≡ₚ c :: (h ++ q) ++ w.
Proof. rewrite (app_assoc h q [c]), (Permutation_app_comm (h ++ q) [c]). done. Qed.
Lemma owned_split (h q w : list Command) :
  (h ++ q) ++ w ≡ₚ List.filter (negb ∘ is_output) q ++ (h ++ List.filter is_output q) ++ w.
Proof.
  rewrite (outputs_Permutation q) at 1.
  rewrite (Permutation_app_comm (List.filter is_output q)), (app_assoc h), (Permutation_app_comm h),
    <-!app_assoc. done.
Qed.
Lemma owned_clear (h q w : list Command) : (h ++ q) ++ w ≡ₚ q ++ (h ++ []) ++ w.
Proof. by rewrite app_nil_r, (Permutation_app_comm h q), <-app_assoc. Qed.

Lemma stream_snoc (h q : list Command) c :
  commands_bytes (h ++ q ++ [c]) = commands_bytes (h ++ q) ++ command_bytes c.
Proof. rewrite app_assoc, commands_bytes_app. simpl. by rewrite app_nil_r. Qed.
Lemma tickets_snoc (h q : list Command) c :
  commands_tickets (h ++ q ++ [c]) = commands_tickets (h ++ q) ++ command_tickets c.
Proof. rewrite app_assoc, commands_tickets_app. simpl. by rewrite app_nil_r. Qed.

Lemma check_accepting_open a : check_accepting a = Ok tt → closing_of a = false.
Proof. unfold check_accepting. fold (closing_of a). by destruct (closing_of a). Qed.

(** Tickets that move past the others. *)
Lemma tickets_move (f a h q : list ticket_ref) : f ++ a ++ h ++ q ≡ₚ (f ++ q) ++ a ++ h.
Proof. by rewrite (app_assoc a h q), (Permutation_app_comm (a ++ h) q), app_assoc. Qed.

Lemma both_ways (b : bool) (P : Prop) : b = true → b = false → P.
Proof. by intros -> ?. Qed.

Section invariant.
Context (sq : SessionQuotas) (feed_bytes : Z).

Lemma desk_move_accounts others d d' :
  desk_move sq feed_bytes d d' → desk_accounts others d → desk_accounts others d'.
Proof.
  unfold desk_accounts, owned. intros H. destruct H as
    [a qs _ _ Hq Hc|a qs bytes lease _ _ _ _ _ _ _ _ _ _ Hq Hc|a qs c _ _ _ _ _ Hq Hc|Hx _
    |c q Hh Hq|c Hh _|c Hh _|bytes lease a Hh _ _ _ _ Hq|a _ _ Hq|a waiter _ _ _ _ _ _ Hq
    |c Hh _|i c Hi|w _|a _ _ _ _ _ _ Hq _]; simpl; intros Ha.
  - rewrite Hq. by apply (Hc _ Ha).
  - rewrite Hq, owned_snoc. simpl. rewrite <-app_assoc. by apply (Hc _ Ha).
  - rewrite Hq, owned_snoc. simpl. rewrite <-app_assoc. by apply (Hc _ Ha).
  - rewrite owned_snoc. done.
  - rewrite Hh, Hq in Ha. done.
  - rewrite Hh in Ha. done.
  - rewrite Hh in Ha. simpl in *. rewrite <-app_assoc in Ha. by apply accounts_command_drop.
  - rewrite Hh in Ha. rewrite Hq. simpl in *. rewrite <-app_assoc in Ha.
    by apply accounts_staging_drop.
  - rewrite Hq. rewrite owned_split, commands_charges_app, <-app_assoc in Ha.
    by apply accounts_commands_drop.
  - rewrite Hq. rewrite owned_clear, commands_charges_app, <-app_assoc in Ha.
    by apply accounts_commands_drop.
  - rewrite Hh in Ha. simpl in *. by rewrite <-Permutation_middle.
  - rewrite (delete_Permutation _ _ _ Hi), <-Permutation_middle in Ha. simpl in Ha.
    rewrite <-app_assoc in Ha. by apply accounts_command_drop.
  - done.
  - by rewrite Hq.
Qed.

(** Commands enter and leave in order. *)
Lemma desk_move_ok d d' : desk_move sq feed_bytes d d' → desk_ok sq d → desk_ok sq d'.
Proof.
  intros H [Hpub Hproc Hw (rest & Hacc & Hrest) Hcl Ht Hwait Hex Hst].
  destruct H as
    [a qs [Cp Cq Cc] [Ke Kw Kd] Hq Hc|a qs bytes lease Hne Hle Hnc Hnd Hsg Hp Hpr Hwd Hnc' [Ke Kw Kd] Hq Hc
    |a qs c Hctl Hok [Cp Cq Cc] [Ke Kw Kd] Hnc Hq Hc|Hx Hok
    |c q Hh Hq|c Hh Hnc|c Hh Hc|bytes lease a Hh Hp Hpr Hc [Ke Kw Kd] Hq
    |a [Cp Cq Cc] [Ke Kw Kd] Hq|a waiter Hp Hpr Hc Ke Kd Kw Hq
    |c Hh Hno|i c Hi|w Hc|a Hp Hpr Hc Hc0 Ke Kd Hq Kw];
    unfold owned in *; simpl in *.
  - split; unfold owned; simpl; rewrite ?Hq; try (congruence || done).
    + exists rest. by rewrite Cc.
    + by rewrite Cc.
    + by rewrite Ke.
  - split; unfold owned; simpl; rewrite ?Hq, ?app_nil_r, ?Z.add_0_r; try (congruence || done).
    + len_lia.
    + exists []. rewrite Hrest in Hacc by done. rewrite Hacc, stream_snoc, !app_nil_r, <-app_assoc.
      done.
    + by rewrite tickets_snoc, app_nil_r.
    + by rewrite Ke.
    + rewrite owned_snoc. by constructor.
  - split; unfold owned; simpl; rewrite ?Hq, ?app_nil_r; try (congruence || done).
    + exists []. apply andb_true_iff in Hctl as [Hno _]. apply negb_true_iff in Hno.
      rewrite stream_snoc, (control_bytes c), app_nil_r by done.
      rewrite Cc in Hnc. by rewrite Hacc, Hrest.
    + by rewrite tickets_snoc, Ht, <-!app_assoc.
    + by rewrite Ke.
    + rewrite owned_snoc. constructor; [|done]. apply control_staged.
      apply andb_true_iff in Hctl as [Hno _]. by apply negb_true_iff in Hno.
  - apply check_accepting_open in Hok.
    split; unfold owned; simpl; rewrite ?app_nil_r; try done.
    + exists []. rewrite stream_snoc, !app_nil_r. by rewrite Hacc, Hrest, app_nil_r.
    + intros Hf. by apply (both_ways (closing_of (dk_adm d))).
    + by rewrite tickets_snoc, app_nil_r.
    + by rewrite Hex, Hx.
    + rewrite owned_snoc. by constructor.
  - rewrite Hh, Hq in *. simpl in *. split; unfold owned; simpl; try done; [by exists rest|].
    intros Hf. by specialize (Hcl Hf).
  - rewrite Hh in *. simpl in *. split; unfold owned; simpl; try done; [by exists rest|].
    intros Hf. by apply (both_ways (closing_of (dk_adm d))).
  - rewrite Hh, (Hcl Hc) in *. simpl in *. rewrite !app_nil_r in *.
    split; unfold owned; simpl; rewrite ?(Hcl Hc), ?app_nil_r; try done.
    + exists (command_bytes c ++ rest). split; [done|]. intros Hf. by apply (both_ways (closing_of (dk_adm d))).
    + rewrite Ht. by rewrite (Permutation_app_comm (dk_applied d)), app_assoc.
    + by inversion Hst.
  - rewrite Hh in *. simpl in *.
    split; unfold owned; simpl; rewrite ?Hq, ?app_nil_r, ?Z.add_0_r; try (congruence || done).
    + rewrite Hpr. len_lia.
    + exists rest. rewrite Hc. by rewrite Hacc, <-!app_assoc.
    + by rewrite Hc.
    + by rewrite Ke.
    + by inversion Hst.
  - split; unfold owned; simpl; rewrite ?Hq, ?app_nil_r; try (congruence || done).
    + exists rest. rewrite commands_bytes_app, commands_bytes_outputs, <-commands_bytes_app.
      by rewrite Cc.
    + rewrite Cc. intros Hf. by rewrite (Hcl Hf).
    + rewrite Ht, !commands_tickets_app, commands_tickets_outputs, commands_tickets_others, app_nil_r.
      apply tickets_move.
    + by rewrite Ke.
    + rewrite owned_split in Hst. by apply Forall_app in Hst as [_ ?].
  - split; unfold owned; simpl; rewrite ?Hq, ?app_nil_r; try (congruence || done).
    + eexists. split; [|intros Hf; congruence]. rewrite Hacc, commands_bytes_app, <-app_assoc. done.
    + rewrite Ht, commands_tickets_app. apply tickets_move.
    + by rewrite Hwait, Kw, app_assoc.
    + by rewrite Ke.
    + rewrite owned_clear, app_nil_r in Hst. by apply Forall_app in Hst as [_ ?].
  - rewrite Hh in *. simpl in *. split; unfold owned; simpl; rewrite ?app_nil_r; try done.
    + exists rest. by rewrite Hacc, control_bytes.
    + by rewrite Ht, <-!app_assoc.
    + by rewrite <-Permutation_middle.
  - split; unfold owned; simpl; try done; [by exists rest|].
    apply Forall_app in Hst as [? ?]. apply Forall_app. split; [done|]. by apply Forall_delete.
  - split; unfold owned; simpl; try done; [by exists rest|].
    rewrite Hwait, <-!app_assoc. by rewrite (Permutation_app_comm (ad_close_waiters _)).
  - split; unfold owned; simpl; rewrite ?Hq, ?app_nil_r; try (congruence || done).
    + exists rest. split; [done|]. intros Hf; congruence.
    + auto.
    + by rewrite Kw, app_nil_r.
    + by rewrite Ke.
Qed.

Context (observers own_observers : quota_ref).
Abbreviation run := (desk_run sq feed_bytes observers own_observers).

Lemma desk_moves_ok d d' : rtc (desk_move sq feed_bytes) d d' → desk_ok sq d → desk_ok sq d'.
Proof. induction 1; eauto using desk_move_ok. Qed.
Lemma desk_moves_accounts others d d' :
  rtc (desk_move sq feed_bytes) d d' → desk_accounts others d → desk_accounts others d'.
Proof. induction 1; eauto using desk_move_accounts. Qed.

Lemma desk_run_moves ops d : rtc (desk_move sq feed_bytes) d (run ops d).
Proof.
  revert d. induction ops as [|op ops IH]; intros d; [done|]. simpl.
  etrans; [apply (desk_step_moves sq feed_bytes observers own_observers op)|apply IH].
Qed.
Lemma desk_run_ok ops d : desk_ok sq d → desk_ok sq (run ops d).
Proof. apply desk_moves_ok, desk_run_moves. Qed.
Lemma desk_run_accounts others ops d : desk_accounts others d → desk_accounts others (run ops d).
Proof. apply desk_moves_accounts, desk_run_moves. Qed.

Lemma desk_new_ok p qs :
  rc_offset (ps_published (pp_status p)) = 0 → rc_offset (ps_processed (pp_status p)) = 0 →
  desk_ok sq (desk_new p qs).
Proof.
  intros Hp Hq. split; simpl; try done.
  - unfold published_of, ad_status. simpl. rewrite Hp. done.
  - by exists [].
Qed.
End invariant.

Lemma ProjectionPolicy_new_offsets `{L : Layout} lifetime options now p :
  ProjectionPolicy_new lifetime options now = Ok p →
  rc_offset (ps_published (pp_status p)) = 0 ∧ rc_offset (ps_processed (pp_status p)) = 0.
Proof.
  unfold ProjectionPolicy_new. unfold mbind, result_bind. case_match; [|done]. by intros [= <-].
Qed.

(** ** The policy behind the lock *)

(** A section that changes the policy by calls of it. *)
Definition by_calls (a a' : Admission) : Prop :=
  ∃ calls, ad_policy a' = run_ops calls (ad_policy a).

Lemma by_calls_refl a a' : ad_policy a' = ad_policy a → by_calls a a'.
Proof. intros E. by exists []. Qed.
Lemma by_calls_one op a a' : ad_policy a' = apply_op op (ad_policy a) → by_calls a a'.
Proof. intros E. by exists [op]. Qed.
Lemma by_calls_trans a b c : by_calls a b → by_calls b c → by_calls a c.
Proof. intros [l1 E1] [l2 E2]. exists (l1 ++ l2). unfold run_ops in *. by rewrite foldl_app, <-E1. Qed.
#[local] Hint Resolve by_calls_refl by_calls_one : runtime.

(** The calls a closure that admits work can make. *)
Definition admitting_call (op : policy_op) : bool :=
  match op with Op_record_activity _ | Op_admit_output _ _ => true | _ => false end.

Lemma admitting_run_calls {X A} (m : Admitting X A) x a x' a' r :
  admitting_run m x a = (x', a', r) →
  ∃ calls p, a' = set_policy p a ∧ p = run_ops calls (ad_policy a)
             ∧ Forall (λ op, admitting_call op = true) calls.
Proof.
  revert x a. induction m as [r0|k IH|k IH|now k IH|n now k IH|f k IH]; simpl; intros x a.
  - intros [= <- <- <-]. exists [], (ad_policy a). by destruct a.
  - apply IH.
  - apply IH.
  - unfold on_policy. destruct (record_activity now (ad_policy a)) as [p q] eqn:E.
    intros (calls & p' & -> & Hp & Hc)%IH. exists (Op_record_activity now :: calls), p'.
    split; [by destruct a|]. split; [|by constructor]. rewrite Hp. simpl. unfold flip. simpl.
    by rewrite E.
  - unfold on_policy. destruct (Policy.admit_output n now (ad_policy a)) as [p q] eqn:E.
    intros (calls & p' & -> & Hp & Hc)%IH. exists (Op_admit_output n now :: calls), p'.
    split; [by destruct a|]. split; [|by constructor]. rewrite Hp. simpl. unfold flip. simpl.
    by rewrite E.
  - apply IH.
Qed.

Lemma admitting_run_by_calls {X A} (m : Admitting X A) x a x' a' r :
  admitting_run m x a = (x', a', r) → by_calls a a'.
Proof. intros (calls & p & -> & Hp & _)%admitting_run_calls. by exists calls. Qed.

Section calls.
Context (sq : SessionQuotas) (feed_bytes : Z) (observers own_observers : quota_ref).

Lemma fail_now_calls e d : by_calls (dk_adm d) (dk_adm (fail_now e d)).
Proof. by apply (by_calls_one (Op_fail e)). Qed.
Lemma requeue_held_calls d : by_calls (dk_adm d) (dk_adm (requeue_held d)).
Proof.
  unfold requeue_held, requeue. destruct (dk_held d); [|by apply by_calls_refl].
  destruct (closing_or_closed _); by apply by_calls_refl.
Qed.
Lemma takes_calls take d :
  takes take → by_calls (dk_adm d) (dk_adm (worker_take take d)).
Proof.
  intros Ht. unfold worker_take. destruct (dk_held d); [by apply by_calls_refl|].
  specialize (Ht (dk_adm d)). destruct (take (dk_adm d)) as [a [c|]].
  - destruct Ht as (q & _ & ->). by apply by_calls_refl.
  - subst a. by apply by_calls_refl.
Qed.
Lemma admit_control_calls build ticket permit d :
  by_calls (dk_adm d) (dk_adm (admit_control build ticket permit d)).
Proof.
  unfold admit_control, queue_admit. destruct (check_accepting (dk_adm d)); [|by apply by_calls_refl].
  destruct (admitting_run build (dk_quotas d) (dk_adm d)) as [[qs a'] [c|e]] eqn:E; simpl;
    apply admitting_run_by_calls in E; (eapply by_calls_trans; [exact E|by apply by_calls_refl]).
Qed.

Lemma desk_step_calls op d :
  by_calls (dk_adm d) (dk_adm (desk_step sq feed_bytes observers own_observers op d)).
Proof.
  destruct op as [bytes observed allocated now|size ticket timing now|ticket|ticket|ticket| |outcome
    |waiter|error|error| |allowed| | | | | |i|now|attempt|error now|error now|error| |progress|g|
    |failed| | ]; simpl; try (by apply admit_control_calls).
  - unfold queue_admit_output. destruct (admitting_run _ _ _) as [[qs a] o] eqn:E.
    apply admitting_run_by_calls in E. destruct o; simpl; [|done..].
    eapply by_calls_trans; [exact E|by apply by_calls_refl].
  - destruct (Lease_shared_and_local _ _ _ _) as [qs [permit|e]]; [|by apply by_calls_refl].
    apply (admit_control_calls _ _ _ (put (dk_adm d) qs (dk_held d) (dk_working d) d)).
  - unfold record_process_exit. destruct (_ || _); simpl; by apply by_calls_refl.
  - unfold record_drain. destruct (is_none _); simpl; by apply by_calls_refl.
  - unfold request_close. case_bool_decide; simpl; [by apply by_calls_refl|].
    by apply (by_calls_one Op_close).
  - apply fail_now_calls.
  - by apply (by_calls_one (Op_fail error)).
  - apply takes_calls, take_next_takes.
  - apply takes_calls, take_next_if_takes.
  - apply takes_calls, take_output_takes.
  - apply takes_calls, take_checkpoint_takes.
  - destruct (dk_held d) as [[bytes lease| | | |]|]; try by apply by_calls_refl.
    unfold queue_record_processed, on_policy.
    destruct (record_processed (len bytes) (ad_policy (dk_adm d))) as [p [[]|e]] eqn:E.
    + apply (by_calls_one (Op_record_processed (len bytes))). simpl. by rewrite E.
    + eapply by_calls_trans; [|apply fail_now_calls].
      eapply by_calls_trans; [|apply requeue_held_calls].
      apply (by_calls_one (Op_record_processed (len bytes))). simpl. by rewrite E.
  - apply requeue_held_calls.
  - destruct (dk_held d) as [[]|]; by apply by_calls_refl.
  - destruct (dk_working d !! i); by apply by_calls_refl.
  - unfold queue_begin_park. destruct (queue_is_empty _); [|by apply by_calls_refl]. simpl.
    unfold on_policy. destruct (begin_park now (ad_policy (dk_adm d))) as [p r] eqn:E.
    destruct r; simpl; apply (by_calls_one (Op_begin_park now)); simpl; by rewrite E.
  - apply (by_calls_one (Op_commit_park attempt (queue_is_empty (dk_adm d)))). simpl.
    unfold queue_commit_park. by destruct (commit_park _ _ _).
  - by apply (by_calls_one (Op_park_failed error now)).
  - by apply (by_calls_one (Op_park_failed error now)).
  - by apply (by_calls_one (Op_maintenance_failed error)).
  - apply (by_calls_one Op_begin_restore). unfold queue_begin_restore. by rewrite on_policy_fst.
  - apply (by_calls_one (Op_restoration_progress progress)).
    unfold record_restoration_progress. by rewrite on_policy_fst.
  - apply (by_calls_one (Op_record_control_applied g)).
    unfold queue_record_control_applied. by rewrite on_policy_fst.
  - by apply by_calls_refl.
  - destruct (closing_or_closed _); [|by apply by_calls_refl]. unfold finish_close.
    destruct (opt_or failed (ad_unreclaimed_failure (dk_adm d))) as [e|]; simpl.
    + by exists [Op_cleanup_failed e; Op_mark_closed].
    + by apply (by_calls_one Op_mark_closed).
  - by apply (by_calls_one Op_close).
  - destruct (closing_or_closed _); [|by apply by_calls_refl].
    by exists [Op_cleanup_failed ProjectionError_Worker; Op_mark_closed].
Qed.

Lemma desk_run_calls ops d :
  by_calls (dk_adm d) (dk_adm (desk_run sq feed_bytes observers own_observers ops d)).
Proof.
  revert d. induction ops as [|op ops IH]; intros d; [by apply by_calls_refl|]. simpl.
  eapply by_calls_trans; [apply (desk_step_calls op)|apply IH].
Qed.
End calls.

(** ** Drained streams, bounds *)

(** Once the reader has drained, nothing more is accepted. *)
Lemma desk_move_drained sq feed_bytes d d' o :
  desk_move sq feed_bytes d d' → ad_output_drain (dk_adm d) = Some o →
  ad_output_drain (dk_adm d') = Some o ∧ dk_accepted d' = dk_accepted d.
Proof.
  intros H Ho. destruct H as
    [a qs _ [_ _ Kd] _ _|a qs bytes lease _ _ _ Hnd|a qs c _ _ _ [_ _ Kd]| | | | |bytes lease a _ _ _ _ [_ _ Kd]
    |a _ [_ _ Kd]|a waiter _ _ _ _ Kd| | | |a _ _ _ _ _ Kd]; simpl; rewrite ?app_nil_r; auto.
  - congruence.
  - by rewrite Kd.
  - by rewrite Kd.
Qed.

Lemma desk_run_drained sq feed_bytes obs own ops d o :
  ad_output_drain (dk_adm d) = Some o →
  ad_output_drain (dk_adm (desk_run sq feed_bytes obs own ops d)) = Some o
  ∧ dk_accepted (desk_run sq feed_bytes obs own ops d) = dk_accepted d.
Proof.
  intros Ho. pose proof (desk_run_moves sq feed_bytes obs own ops d) as Hm.
  induction Hm as [d|d d1 d' Hm _ IH]; [done|].
  destruct (desk_move_drained _ _ _ _ _ Hm Ho) as [H1 H2]. destruct (IH H1) as [? ->]. done.
Qed.

(** What has been fed stays fed. *)
Lemma desk_run_fed sq feed_bytes obs own ops d :
  dk_fed d `prefix_of` dk_fed (desk_run sq feed_bytes obs own ops d).
Proof.
  induction (desk_run_moves sq feed_bytes obs own ops d) as [d|d d1 d' Hm _ IH]; [done|].
  etrans; [|exact IH]. destruct Hm; simpl; rewrite ?app_nil_r; try done. by apply prefix_app_r.
Qed.

Lemma app_nil_eq (l k m : list Z) : l = l ++ k ++ m → k = [] ∧ m = [].
Proof.
  intros E. rewrite <-(app_nil_r l) in E at 1. apply app_inv_head in E.
  symmetry in E. by apply app_eq_nil in E.
Qed.

(** What the output commands of a list charge to one quota of the session. *)
Definition outputs_count (cs : list Command) : Z := len (List.filter is_output cs).

Lemma charged_app r cs ds : charged r (cs ++ ds) = charged r cs + charged r ds.
Proof. unfold charged. by rewrite fmap_app, zsum_app. Qed.

Lemma charge_on_self r n : charge_on r (r, n) = n.
Proof. unfold charge_on. simpl. by rewrite decide_True. Qed.
Lemma charge_on_nonneg r c : 0 <= c.2 → 0 <= charge_on r c.
Proof. unfold charge_on. case_decide; lia. Qed.

Lemma staged_charges sq cs :
  Forall (staged_command sq) cs → Forall (λ c, 0 <= c.2) (commands_charges cs) →
  outputs_count cs <= charged (sq_staging_slots sq) (commands_charges cs)
  ∧ len (commands_bytes cs) <= charged (sq_staging_bytes sq) (commands_charges cs).
Proof.
  induction 1 as [|c cs Hc _ IH]; intros Hn; [done|].
  change (commands_charges (c :: cs)) with (command_charges c ++ commands_charges cs) in *.
  apply Forall_app in Hn as [Hn1 Hn2]. destruct (IH Hn2) as [IH1 IH2].
  rewrite !charged_app. change (commands_bytes (c :: cs)) with (command_bytes c ++ commands_bytes cs).
  pose proof (charged_nonneg (sq_staging_slots sq) _ Hn1).
  pose proof (charged_nonneg (sq_staging_bytes sq) _ Hn1).
  unfold outputs_count in *. destruct c as [bytes lease| | | |]; simpl in *; try (rewrite ?len_nil; lia).
  destruct Hc as (_ & Eb & Es). unfold StagingLease_charges in *. rewrite Eb, Es in *.
  unfold opt_charges, Lease_charges in *. simpl in *.
  pose proof (len_nonneg bytes). rewrite len_cons, len_app.
  assert (charged (sq_staging_slots sq) [] = 0) as Hz by done.
  assert (charged (sq_staging_bytes sq) [] = 0) as Hz' by done.
  rewrite !charged_cons, !charge_on_self, Hz, Hz'.
  pose proof (λ r s, charge_on_nonneg r (s, len bytes) (len_nonneg bytes)) as Hn1'.
  pose proof (λ r s, charge_on_nonneg r (s, 1) ltac:(simpl; lia)) as Hn2'.
  split.
  - pose proof (Hn1' (sq_staging_slots sq) (pb_staging_bytes (sq_shared sq))).
    pose proof (Hn1' (sq_staging_slots sq) (sq_staging_bytes sq)).
    pose proof (Hn2' (sq_staging_slots sq) (pb_staging_slots (sq_shared sq))). lia.
  - pose proof (Hn1' (sq_staging_bytes sq) (pb_staging_bytes (sq_shared sq))).
    pose proof (Hn2' (sq_staging_bytes sq) (sq_staging_slots sq)).
    pose proof (Hn2' (sq_staging_bytes sq) (pb_staging_slots (sq_shared sq))). lia.
Qed.

(** ** Properties *)

Section demo.
(** One session of the default budgets: references 0 to 10 are the runtime's,
    11 to 13 the session's, 14 its observers'. *)
Definition demo_budgets : quotas * result ProjectionError ProjectionBudgets :=
  ProjectionBudgets_new ProjectionLimits_default true 0%nat ∅.
Definition demo_shared : ProjectionBudgets :=
  {| pb_limits := ProjectionLimits_default;
     pb_journal_bytes := 0; pb_journal_slots := 1; pb_transfer_observers := 2;
     pb_staging_bytes := 3; pb_staging_slots := 4; pb_resident := 5; pb_checkpoints := 6;
     pb_stored := 7; pb_stored_slots := 8; pb_views := 9; pb_requests := 10 |}%nat.
Definition demo_session_quotas : SessionQuotas :=
  {| sq_shared := demo_shared; sq_staging_bytes := 11; sq_staging_slots := 12;
     sq_requests := 13 |}%nat.
Definition demo_store : quotas :=
  allocate [32] 14 (SessionQuotas_new demo_shared (ProjectionOptions_new demo_config) 11
    demo_budgets.1).1.
Definition demo_run (ops : list desk_op) : desk :=
  desk_run demo_session_quotas 4096 2 14 ops (desk_new demo_policy demo_store).
(** Output, a view, more output; the worker feeds the first chunk and holds
    the view while the projection fails. *)
Definition demo_admissions : list desk_op :=
  [D_output [104; 105] None true 0; D_view 7%nat; D_output [33] (Some 5) true 1; D_transfer 8%nat;
   D_take; D_processed; D_take; D_apply; D_exit; D_fail ProjectionError_Worker;
   D_close (Some 9%nat)].
End demo.

Lemma demo_store_accounts : accounts [] demo_store.
Proof.
  assert (accounts [] ∅) as H0.
  { by split; [intros r q|intros r q|constructor]; rewrite ?lookup_empty. }
  unfold demo_store, demo_budgets, SessionQuotas_new, ProjectionBudgets_new. simpl.
  repeat (apply accounts_allocate; [|repeat constructor; vm_compute; discriminate|constructor]).
  done.
Qed.

(** Output is neither lost nor reordered before it is fed.  For every
    interleaving of admissions, failures, closes and worker steps: the bytes
    fed to the model are a prefix of the bytes accepted from the reader; the
    published and processed positions are exactly the lengths of the two; as
    long as nobody closes, what is between them is held or queued, in order;
    feeding a held chunk can never be refused by the positions; and at most one
    exit marker is ever queued. *)
Theorem output_in_order `{L : Layout} sq feed_bytes obs own lifetime options now p qs ops :
  ProjectionPolicy_new lifetime options now = Ok p →
  let d := desk_run sq feed_bytes obs own ops (desk_new p qs) in
  dk_fed d `prefix_of` dk_accepted d
  ∧ published_of (dk_adm d) = len (dk_accepted d) ∧ processed_of (dk_adm d) = len (dk_fed d)
  ∧ (closing_of (dk_adm d) = false → dk_accepted d = dk_fed d ++ commands_bytes (owned d))
  ∧ (∀ bytes lease, dk_held d = Some (Command_Output bytes lease) →
       (queue_record_processed (len bytes) (dk_adm d)).2 = Ok tt)
  ∧ 0 <= dk_exits d <= 1.
Proof.
  intros [Hp Hq]%ProjectionPolicy_new_offsets d.
  destruct (desk_run_ok sq feed_bytes obs own ops _ (desk_new_ok sq p qs Hp Hq))
    as [Hpub Hproc Hw (rest & Hacc & Hrest) _ _ _ Hex _]. fold d in Hpub, Hproc, Hw, Hacc, Hrest, Hex.
  split; [by rewrite Hacc; exists (commands_bytes (owned d) ++ rest)|]. split; [done|]. split; [done|].
  split; [intros Hc; by rewrite Hacc, Hrest, app_nil_r|]. split.
  - intros bytes lease Hh. unfold queue_record_processed, on_policy.
    destruct (record_processed (len bytes) (ad_policy (dk_adm d))) as [p' [[]|e]] eqn:E; [done|].
    apply record_processed_cases in E as [_ E]. exfalso.
    unfold published_of, processed_of, ad_status in *. rewrite Hacc in Hpub.
    unfold owned in Hpub. rewrite Hh in Hpub. simpl in Hpub. len_lia.
  - rewrite Hex. case_match; lia.
Qed.

Lemma output_in_order_witness :
  dk_accepted (demo_run demo_admissions) = [104; 105; 33]
  ∧ dk_fed (demo_run demo_admissions) `prefix_of` dk_accepted (demo_run demo_admissions).
Proof.
  split; [vm_compute; reflexivity|].
  apply (output_in_order (L := demo_layout) demo_session_quotas 4096 2 14
           (SessionLifetime_new 7 1) (ProjectionOptions_new demo_config) 0 demo_policy demo_store
           demo_admissions).
  vm_compute. reflexivity.
Defined.

(** C27: Quotas are charged exactly for the work that is queued, held or being
    applied, whatever is admitted, refused, failed, requeued or closed; so the
    session never stages more chunks or bytes than its two limits. *)
Theorem staging_exact sq feed_bytes obs own p qs ops others r q :
  rc_offset (ps_published (pp_status p)) = 0 → rc_offset (ps_processed (pp_status p)) = 0 →
  accounts others qs →
  let d := desk_run sq feed_bytes obs own ops (desk_new p qs) in
  dk_quotas d !! r = Some q →
  q_used q = charged r (commands_charges (owned d ++ dk_working d)) + charged r others
  ∧ q_used q <= q_limit q
  ∧ (r = sq_staging_slots sq → outputs_count (owned d) <= q_limit q)
  ∧ (r = sq_staging_bytes sq → len (commands_bytes (owned d)) <= q_limit q).
Proof.
  intros Hp Hq Ha d Hr.
  pose proof (do_staged _ _ (desk_run_ok sq feed_bytes obs own ops _ (desk_new_ok sq p qs Hp Hq))) as Hst.
  assert (desk_accounts others d) as [Hu Hl Hn] by (by apply desk_run_accounts).
  specialize (Hu _ _ Hr). specialize (Hl _ _ Hr). rewrite charged_app in Hu. fold d in Hst.
  apply Forall_app in Hn as [Hn Hno]. pose proof (charged_nonneg r _ Hno).
  split; [done|]. split; [lia|].
  rewrite commands_charges_app, charged_app in Hu. rewrite commands_charges_app in Hn.
  apply Forall_app in Hn as [Hn Hnw]. apply Forall_app in Hst as [Hst _].
  pose proof (charged_nonneg r _ Hnw). destruct (staged_charges sq _ Hst Hn) as [H1 H2].
  split; intros ->; lia.
Qed.

Lemma staging_exact_witness :
  let d := demo_run (take 3 demo_admissions) in
  q_used {| q_limit := 2097152; q_used := 3 |} <= 2097152
  ∧ len (commands_bytes (owned d)) <= 2097152.
Proof.
  split; [vm_compute; discriminate|].
  refine (proj2 (proj2 (proj2 (staging_exact demo_session_quotas 4096 2 14 demo_policy demo_store
           (take 3 demo_admissions) [] 11 {| q_limit := 2097152; q_used := 3 |} _ _ _ _))) _).
  - reflexivity.
  - reflexivity.
  - apply demo_store_accounts.
  - vm_compute. reflexivity.
  - reflexivity.
Defined.

(** No wait is lost.  Every ticket admitted is, exactly once, failed, handed
    to the worker or still owned by the coordinator; every close waiter is
    answered or still registered; and once closing is requested and the worker
    holds nothing, no admitted ticket is left behind. *)
Theorem waits_accounted sq feed_bytes obs own p qs ops :
  rc_offset (ps_published (pp_status p)) = 0 → rc_offset (ps_processed (pp_status p)) = 0 →
  let d := desk_run sq feed_bytes obs own ops (desk_new p qs) in
  dk_admitted d ≡ₚ dk_failed d ++ dk_applied d ++ commands_tickets (owned d)
  ∧ dk_asked d ≡ₚ dk_answered d ++ ad_close_waiters (dk_adm d)
  ∧ (closing_of (dk_adm d) = true → dk_held d = None →
     dk_admitted d ≡ₚ dk_failed d ++ dk_applied d).
Proof.
  intros Hp Hq d.
  destruct (desk_run_ok sq feed_bytes obs own ops _ (desk_new_ok sq p qs Hp Hq))
    as [_ _ _ _ Hcl Ht Hw _ _]. fold d in Hcl, Ht, Hw. split; [done|]. split; [done|].
  intros Hc Hh. rewrite Ht. unfold owned. rewrite Hh, (Hcl Hc). simpl. by rewrite app_nil_r.
Qed.

Lemma waits_accounted_witness :
  let d := demo_run demo_admissions in
  dk_admitted d = [7; 8]%nat ∧ dk_failed d = [8]%nat ∧ dk_admitted d ≡ₚ dk_failed d ++ dk_applied d.
Proof.
  split; [vm_compute; reflexivity|]. split; [vm_compute; reflexivity|].
  apply (waits_accounted demo_session_quotas 4096 2 14 demo_policy demo_store demo_admissions);
    vm_compute; reflexivity.
Defined.

(** The drain is reported settled only at the true end of the stream: every
    accepted byte has been fed, and in no continuation is another byte
    accepted or fed, or another drain outcome recorded. *)
Theorem settled_drain_final sq feed_bytes obs own p qs ops idle o later :
  rc_offset (ps_published (pp_status p)) = 0 → rc_offset (ps_processed (pp_status p)) = 0 →
  let d := desk_run sq feed_bytes obs own ops (desk_new p qs) in
  let d' := desk_run sq feed_bytes obs own later d in
  settled_drain idle (dk_adm d) = Some o →
  dk_fed d = dk_accepted d ∧ dk_fed d' = dk_fed d ∧ dk_accepted d' = dk_accepted d
  ∧ ad_output_drain (dk_adm d') = Some o ∧ ad_failure (dk_adm d) = None
  ∧ Forall (λ c, extends_stream c = false) (ad_queue (dk_adm d)).
Proof.
  intros Hp Hq d d'. unfold settled_drain. case_match eqn:E; [|done]. to_props. intros Ho.
  pose proof (desk_run_ok sq feed_bytes obs own ops _ (desk_new_ok sq p qs Hp Hq)) as Hok. fold d in Hok.
  assert (dk_fed d = dk_accepted d) as Hfed.
  { destruct Hok as [Hpub Hproc _ (rest & Hacc & _) _ _ _ _ _].
    unfold published_of, processed_of in *.
    match goal with H : ps_processed _ = ps_published _ |- _ => rewrite H in Hproc end.
    rewrite Hpub in Hproc. rewrite Hacc in Hproc. rewrite len_app in Hproc.
    assert (commands_bytes (owned d) ++ rest = []) as Hnil by (apply len_zero; lia).
    by rewrite Hacc, Hnil, app_nil_r. }
  destruct (desk_run_drained sq feed_bytes obs own later d o Ho) as [Hd Ha]. fold d' in Hd, Ha.
  destruct (desk_run_ok sq feed_bytes obs own later _ Hok) as [Hpub' Hproc' _ (rest' & Hacc' & _) _ _ _ _ _].
  fold d' in Hpub', Hproc', Hacc'.
  split; [done|]. split; [|split; [done|split; [done|split; [done|]]]].
  - destruct (desk_run_fed sq feed_bytes obs own later d) as [k Hk]. fold d' in Hk.
    rewrite Ha, <-Hfed, Hk, <-!app_assoc in Hacc'. apply app_nil_eq in Hacc' as [-> _].
    by rewrite Hk, app_nil_r.
  - apply Forall_forall. intros c Hc. apply not_true_is_false. intros Hx.
    match goal with H : existsb _ _ = false |- _ => apply not_true_iff_false in H; apply H end.
    apply existsb_exists. exists c. by rewrite <-list_elem_of_In.
Qed.

(** Everything is fed, the exit applied, and the reader drains. *)
Definition demo_drained : list desk_op :=
  [D_output [104; 105] None true 0; D_take; D_processed; D_drain (DrainOutcome_Eof)].

Lemma settled_drain_final_witness :
  let d := demo_run demo_drained in
  settled_drain true (dk_adm d) = Some DrainOutcome_Eof
  ∧ dk_accepted (desk_run demo_session_quotas 4096 2 14 [D_output [1] None true 3] d) = [104; 105].
Proof.
  split; [vm_compute; reflexivity|].
  etrans; [apply (settled_drain_final demo_session_quotas 4096 2 14 demo_policy demo_store
                    demo_drained true DrainOutcome_Eof); vm_compute; reflexivity|].
  vm_compute. reflexivity.
Defined.

(** C28: A model is released only when it has parsed every accepted byte and
    nothing waits: if a parking attempt begun under the lock is committed after
    any interleaving, then the queue is empty, the worker holds no output, and
    the fed bytes are the accepted bytes, up to the attempt's own boundary. *)
Theorem park_releases_parsed `{L : Layout} sq feed_bytes obs own lifetime options now p qs
    before later now' attempt :
  0 <= po_max_park_attempts options →
  ProjectionPolicy_new lifetime options now = Ok p →
  let d0 := desk_run sq feed_bytes obs own before (desk_new p qs) in
  (queue_begin_park now' (dk_adm d0)).2 = Park_Ready attempt →
  let d := desk_run sq feed_bytes obs own (D_begin_park now' :: later) d0 in
  (queue_commit_park attempt (dk_adm d)).2 = true →
  ad_queue (dk_adm d) = [] ∧ commands_bytes (owned d) = []
  ∧ dk_fed d = dk_accepted d ∧ len (dk_fed d) = rc_offset (pa_processed attempt)
  ∧ ad_residency (queue_commit_park attempt (dk_adm d)).1 = Parked.
Proof.
  intros Hm Hnew d0 Hbegin d Hcommit.
  destruct (ProjectionPolicy_new_offsets _ _ _ _ Hnew) as [Hp Hq].
  pose proof (desk_run_ok sq feed_bytes obs own before _ (desk_new_ok sq p qs Hp Hq)) as Hok0.
  fold d0 in Hok0.
  pose proof (desk_run_ok sq feed_bytes obs own (D_begin_park now' :: later) _ Hok0) as Hok.
  fold d in Hok.
  unfold queue_begin_park in Hbegin. destruct (queue_is_empty (dk_adm d0)) eqn:Hemp; [|done].
  simpl in Hbegin. unfold on_policy in Hbegin.
  destruct (begin_park now' (ad_policy (dk_adm d0))) as [p1 [a|e]] eqn:Eb; [|done]. simplify_eq/=.
  assert (ad_policy (dk_adm (desk_step sq feed_bytes obs own (D_begin_park now') d0)) = p1) as Hp1.
  { simpl. unfold queue_begin_park. rewrite Hemp. simpl. unfold on_policy. by rewrite Eb. }
  destruct (desk_run_calls sq feed_bytes obs own later
              (desk_step sq feed_bytes obs own (D_begin_park now') d0)) as [calls Hcalls].
  rewrite Hp1 in Hcalls. change (desk_run _ _ _ _ later _) with d in Hcalls.
  unfold queue_commit_park in *.
  destruct (commit_park attempt (queue_is_empty (dk_adm d)) (ad_policy (dk_adm d))) as [p2 b] eqn:Ec.
  simpl in *. subst b. apply commit_park_valid in Ec as (Hqe & _ & Hparked & Hgen & Hact & Hproc & _).
  apply begin_park_Ok in Eb as (_ & Hpub1 & _ & _ & _ & _ & _ & _ & Hst1 & ->).
  destruct (run_ops_versions calls p1) as (_ & _ & Hv). rewrite <-Hcalls in Hv. simpl in *.
  specialize (Hv ltac:(lia)).
  assert (ad_queue (dk_adm d) = []) as Hqueue.
  { unfold queue_is_empty in Hqe. by destruct (ad_queue (dk_adm d)). }
  assert (published_of (dk_adm d) = processed_of (dk_adm d)) as Heq.
  { unfold published_of, processed_of, ad_status. rewrite Hv, Hproc, Hst1. simpl. by rewrite Hpub1. }
  destruct Hok as [Hpub Hpr _ (rest & Hacc & _) _ _ _ _ _].
  assert (commands_bytes (owned d) = [] ∧ rest = []) as [Hnil ->].
  { rewrite Heq, Hpr, Hacc in Hpub. rewrite !len_app in Hpub.
    pose proof (len_nonneg (commands_bytes (owned d))). pose proof (len_nonneg rest).
    split; apply len_zero; lia. }
  split; [done|]. split; [done|]. split; [by rewrite Hacc, Hnil, app_nil_r|].
  split; [|done]. rewrite <-Hpr. unfold processed_of, ad_status. by rewrite Hproc.
Qed.

Definition demo_parking : list desk_op := [D_output [104; 105] None true 0; D_take; D_processed].
Definition demo_attempt : ParkAttempt :=
  {| pa_generation := 1; pa_activity := 1; pa_processed := demo_cursor 2;
     pa_control_generation := ControlGeneration_INITIAL |}.

Lemma park_releases_parsed_witness :
  dk_fed (desk_run demo_session_quotas 4096 2 14 [D_begin_park (from_secs 61); D_view 3%nat; D_take; D_apply]
            (demo_run demo_parking)) = [104; 105].
Proof.
  etrans; [|apply (eq_refl : dk_accepted (demo_run demo_parking) = [104; 105])].
  apply (park_releases_parsed (L := demo_layout) demo_session_quotas 4096 2 14
           (SessionLifetime_new 7 1) (ProjectionOptions_new demo_config) 0 demo_policy demo_store
           demo_parking [D_view 3%nat; D_take; D_apply] (from_secs 61) demo_attempt);
    vm_compute; first [reflexivity | discriminate].
Defined.
