(* ===== verification/Context.v ===== *)
(** * The context of one session (crates/application/src/runtime/context.rs,
      attachment.rs, session.rs)

    [SessionContext] holds the replay window, the first-reported facts and the
    watchers of one session behind one mutex, and charges what it keeps to the
    quotas of the runtime.  Attachments and completion waits are handles on it.
    An event is one lock section, or one operation on a quota: what other
    sessions do to the quotas is an event too, or an argument where it falls
    inside a section. *)

From stdpp Require Import sorting.
From S2P Require Import Prelude Identity Replay Process Terminal Checkpoint Projection Session Atomic Quota Policy Ticket Budgets Queue.

(** ** Data *)

Abbreviation waker := nat.

Record State := {
  st_replay : ReplayBuffer;
  st_status : SessionStatus;
  st_watchers : gmap Z (option waker);
  st_next_watcher : Z;
  st_metric_active : bool
}.
Record SessionContext := {
  cx_diagnostics : bool;
  cx_lifetime : SessionLifetime;
  cx_options : SessionOptions;
  cx_observers : quota_ref;
  cx_replay_quota : quota_ref;
  cx_page_bytes : Z
}.

Definition with_replay (b : ReplayBuffer) (s : State) : State := {|
  st_replay := b; st_status := st_status s; st_watchers := st_watchers s;
  st_next_watcher := st_next_watcher s; st_metric_active := st_metric_active s |}.
Definition with_status (x : SessionStatus) (s : State) : State := {|
  st_replay := st_replay s; st_status := x; st_watchers := st_watchers s;
  st_next_watcher := st_next_watcher s; st_metric_active := st_metric_active s |}.
Definition with_watchers (ws : gmap Z (option waker)) (s : State) : State := {|
  st_replay := st_replay s; st_status := st_status s; st_watchers := ws;
  st_next_watcher := st_next_watcher s; st_metric_active := st_metric_active s |}.
Definition with_next (next : Z) (s : State) : State := {|
  st_replay := st_replay s; st_status := st_status s; st_watchers := st_watchers s;
  st_next_watcher := next; st_metric_active := st_metric_active s |}.
Definition with_metric (active : bool) (s : State) : State := {|
  st_replay := st_replay s; st_status := st_status s; st_watchers := st_watchers s;
  st_next_watcher := st_next_watcher s; st_metric_active := active |}.

(** [new], then [with_diagnostics]. *)
Definition State_new (c : SessionContext) : State := {|
  st_replay := ReplayBuffer_new (cx_lifetime c) (so_replay_bytes (cx_options c));
  st_status := SessionStatus_default;
  st_watchers := ∅;
  st_next_watcher := 0;
  st_metric_active := cx_diagnostics c |}.

(** ** Watchers *)

Definition register_section (c : SessionContext) : action State RuntimeError Z := λ s,
  if so_max_observers (cx_options c) <=? Z.of_nat (size (st_watchers s)) then (s, Err RuntimeError_Capacity)
  else
    let id := st_next_watcher s in
    match checked_add u64_max id 1 with
    | None => (s, Err RuntimeError_Capacity)
    | Some next => (with_watchers (<[id := None]> (st_watchers s)) (with_next next s), Ok id)
    end.
(** What [remove_watcher] and [clear_waker] do under the lock. *)
Definition remove_section (id : Z) (s : State) : State :=
  with_watchers (delete id (st_watchers s)) s.
Definition clear_section (id : Z) (s : State) : State :=
  with_watchers (alter (λ _, None) id (st_watchers s)) s.

Definition by_id (a b : Z * option waker) : Prop := a.1 <= b.1.
#[export] Instance by_id_dec : RelDecision by_id.
Proof. intros a b. unfold by_id. apply _. Defined.
(** [values_mut().filter_map(Option::take)], in the order of the ids. *)
Definition take_wakers (s : State) : State * list waker :=
  (with_watchers ((λ _, None) <$> st_watchers s) s,
   omap snd (merge_sort by_id (map_to_list (st_watchers s)))).

Definition context_read (s : State) (cursor : ReplayCursor) (page_bytes : Z)
    : result RuntimeError (option OutputEvent) :=
  match read (st_replay s) cursor page_bytes with
  | Err _ => Err RuntimeError_InvalidCursor
  | Ok Page_Pending => Ok (Event_Complete <$> completion (st_status s))
  | Ok page => Ok (Some (Event_Replay page))
  end.

(** [update_and_notify]: the state, the wakers to wake, and whether the session
    has left the diagnostics. *)
Definition update_and_notify (change : SessionStatus → SessionStatus) (s : State)
    : State * list waker * bool :=
  let s := with_status (change (st_status s)) s in
  let leaves := st_metric_active s && is_some (completion (st_status s)) in
  let s := if leaves then with_metric false s else s in
  (take_wakers s, leaves).

(** ** Reports of the process *)

Definition or_failure (r : SessionStatus * result RuntimeError ()) : SessionStatus :=
  match r with (s, Ok _) => s | (s, Err _) => record_failure ProcessError_Internal s end.
Definition exited (status : ExitStatus) (s : SessionStatus) : SessionStatus := or_failure (Session.record_exit status s).
Definition drained (outcome : DrainOutcome) (s : SessionStatus) : SessionStatus := or_failure (Session.record_drain outcome s).
Definition supervision_failed (error : ProcessError) (s : SessionStatus) : SessionStatus := record_failure error s.

(** ** The quotas and their other holders *)

Inductive other_op := Other_acquire (r : quota_ref) (n : Z) | Other_release (k : nat).
Record Shared := { sh_quotas : quotas; sh_others : charges }.
Definition act (op : other_op) (sh : Shared) : Shared :=
  match op with
  | Other_acquire r n =>
    if 0 <=? n then
      match acquire r n (sh_quotas sh) with
      | (qs, true) => {| sh_quotas := qs; sh_others := (r, n) :: sh_others sh |}
      | (_, false) => sh
      end
    else sh
  | Other_release k =>
    match sh_others sh !! k with
    | Some (r, n) => {| sh_quotas := release r n (sh_quotas sh);
                        sh_others := delete k (sh_others sh) |}
    | None => sh
    end
  end.
Definition acts (ops : list other_op) (sh : Shared) : Shared := foldl (flip act) sh ops.
Definition sh_acquire (r : quota_ref) (n : Z) (sh : Shared) : Shared * bool :=
  let (qs, granted) := acquire r n (sh_quotas sh) in
  ({| sh_quotas := qs; sh_others := sh_others sh |}, granted).
Definition sh_release (r : quota_ref) (n : Z) (sh : Shared) : Shared :=
  {| sh_quotas := release r n (sh_quotas sh); sh_others := sh_others sh |}.

(** ** Output *)

Section with_allocator.
Context `{A : Allocator}.

(** The growth of the replay storage before an append of [n] bytes. *)
Definition grow_target (limit n : Z) (b : ReplayBuffer) : Z :=
  let needed := Z.min (saturating_add usize_max (rb_len b) n) limit in
  Z.min (saturating_mul usize_max (saturating_add usize_max needed 4095 / 4096) 4096) limit.
(** [others] is what happens to the quotas between this session's operations. *)
Definition grow_replay (r : quota_ref) (limit n : Z) (others others' : list other_op)
    (b : ReplayBuffer) (sh : Shared) : ReplayBuffer * Shared :=
  let capacity := allocated_bytes b in
  let target := grow_target limit n b in
  if target <=? capacity then (b, sh)
  else
    let (sh, granted) := sh_acquire r (target - capacity) sh in
    if negb granted then (b, sh)
    else
      let sh := acts others sh in
      match reserve_capacity target b with
      | (b, Ok actual) =>
        if actual =? target then (b, sh)
        else if target <? actual then
          let (sh, granted) := sh_acquire r (actual - target) sh in
          if granted then (b, sh) else (release_storage b, sh_release r target (acts others' sh))
        else (b, sh_release r (target - actual) sh)
      | (b, Err _) => (b, sh_release r (target - capacity) sh)
      end.

(** [output_observed] under the lock, once the bytes are staged for the
    projection; [staged] is the projection's answer, [None] without one. *)
Definition output_section (c : SessionContext) (bytes : list Z) (staged : option OutputAcceptance)
    (others others' : list other_op) (s : State) (sh : Shared)
    : State * Shared * list waker * OutputAcceptance :=
  match staged with
  | Some Backpressure => (s, sh, [], Backpressure)
  | Some Acceptance_Closed => (s, sh, [], Acceptance_Closed)
  | Some Accepted | None =>
    let '(b, sh) := grow_replay (cx_replay_quota c) (so_replay_bytes (cx_options c)) (len bytes)
                      others others' (st_replay s) sh in
    match append_with_limit bytes (allocated_bytes b) b with
    | (b, Err _) => (with_replay b s, sh, [], Acceptance_Closed)
    | (b, Ok _) =>
      let (s, wakers) := take_wakers (with_replay b s) in (s, sh, wakers, Accepted)
    end
  end.
End with_allocator.

(** ** Attachments and waits *)

(** [Attachment::new]'s second section: where to start reading. *)
Definition start_at (position : AttachPosition) (s : State) : ReplayCursor :=
  match position with
  | Attach_Oldest => rb_floor (st_replay s)
  | Attach_Tail => rb_end_cursor (st_replay s)
  | Attach_Cursor cursor => cursor
  end.
Definition open_at (c : SessionContext) (position : AttachPosition) (s : State)
    : result RuntimeError ReplayCursor :=
  let cursor := start_at position s in
  match read (st_replay s) cursor (cx_page_bytes c) with
  | Err _ => Err RuntimeError_InvalidCursor
  | Ok _ => Ok cursor
  end.
Definition advance (event : OutputEvent) (cursor : ReplayCursor) : ReplayCursor :=
  match event with
  | Event_Replay (Page_Gap _ to) => to
  | Event_Replay (Page_Bytes _ next _) => next
  | _ => cursor
  end.
Definition is_pending {E} (r : result E (option OutputEvent)) : bool :=
  match r with Ok None => true | _ => false end.
(** [NextOutput::poll] under the lock. *)
Definition poll_next (c : SessionContext) (id : Z) (cursor : ReplayCursor) (w : waker) (s : State)
    : State * result RuntimeError (option OutputEvent) :=
  let r := context_read s cursor (cx_page_bytes c) in
  let slot := if is_pending r then Some w else None in
  (with_watchers (alter (λ _, slot) id (st_watchers s)) s, r).
(** [CompletionWait::poll] under the lock. *)
Definition poll_wait (id : Z) (w : waker) (s : State) : State * option Completion :=
  let done := completion (st_status s) in
  let slot := if is_none done then Some w else None in
  (with_watchers (alter (λ _, slot) id (st_watchers s)) s, done).

(** ** The world of one session *)

Inductive handle :=
  (** registered, and not yet positioned; a completion wait; an attachment *)
  | Opening
  | Completion_wait
  | Attached (cursor : ReplayCursor).

Record World := {
  w_state : State;
  w_shared : Shared;
  (** observer slots acquired before, and not yet released after, a lock section *)
  w_admitted : nat;
  w_departing : nat;
  w_handles : gmap Z handle;
  (** ---- the wakers woken, the bytes accepted, this session's part of the gauge *)
  w_woken : list waker;
  w_stream : list Z;
  w_active : Z
}.
Definition set_state (s : State) (w : World) : World := {|
  w_state := s; w_shared := w_shared w; w_admitted := w_admitted w; w_departing := w_departing w;
  w_handles := w_handles w; w_woken := w_woken w; w_stream := w_stream w; w_active := w_active w |}.
Definition set_shared (sh : Shared) (admitted departing : nat) (w : World) : World := {|
  w_state := w_state w; w_shared := sh; w_admitted := admitted; w_departing := departing;
  w_handles := w_handles w; w_woken := w_woken w; w_stream := w_stream w; w_active := w_active w |}.
Definition set_handles (hs : gmap Z handle) (w : World) : World := {|
  w_state := w_state w; w_shared := w_shared w; w_admitted := w_admitted w;
  w_departing := w_departing w; w_handles := hs; w_woken := w_woken w; w_stream := w_stream w;
  w_active := w_active w |}.
Definition woken (wakers : list waker) (w : World) : World := {|
  w_state := w_state w; w_shared := w_shared w; w_admitted := w_admitted w;
  w_departing := w_departing w; w_handles := w_handles w; w_woken := w_woken w ++ wakers;
  w_stream := w_stream w; w_active := w_active w |}.
Definition set_stream (bytes : list Z) (w : World) : World := {|
  w_state := w_state w; w_shared := w_shared w; w_admitted := w_admitted w;
  w_departing := w_departing w; w_handles := w_handles w; w_woken := w_woken w;
  w_stream := bytes; w_active := w_active w |}.
Definition set_active (n : Z) (w : World) : World := {|
  w_state := w_state w; w_shared := w_shared w; w_admitted := w_admitted w;
  w_departing := w_departing w; w_handles := w_handles w; w_woken := w_woken w;
  w_stream := w_stream w; w_active := n |}.

Definition World_new (c : SessionContext) (sh : Shared) : World := {|
  w_state := State_new c; w_shared := sh; w_admitted := 0; w_departing := 0; w_handles := ∅;
  w_woken := []; w_stream := []; w_active := if cx_diagnostics c then 1 else 0 |}.

Inductive event :=
  (** [register_watcher]: the quota, then the section; [remove_watcher]: the
      section, then the quota *)
  | C_acquire
  | C_register (wait : bool)
  | C_open (id : Z) (position : AttachPosition)
  | C_remove (id : Z)
  | C_release
  | C_poll (id : Z) (w : waker)
  | C_try (id : Z)
  | C_stop_reading (id : Z)
  | C_poll_wait (id : Z) (w : waker)
  | C_output (bytes : list Z) (staged : option OutputAcceptance) (others others' : list other_op)
  | C_exited (status : ExitStatus)
  | C_drained (outcome : DrainOutcome)
  | C_failed (error : ProcessError)
  | C_cancel
  | C_other (op : other_op).

Section run.
Context `{A : Allocator} (c : SessionContext).

Definition acquire_observer (w : World) : World :=
  match sh_acquire (cx_observers c) 1 (w_shared w) with
  | (sh, true) => set_shared sh (S (w_admitted w)) (w_departing w) w
  | (_, false) => w
  end.
Definition register_watcher (wait : bool) (w : World) : World :=
  match w_admitted w with
  | O => w
  | S admitted =>
    match register_section c (w_state w) with
    | (s, Ok id) =>
      set_handles (<[id := if wait then Completion_wait else Opening]> (w_handles w))
        (set_shared (w_shared w) admitted (w_departing w) (set_state s w))
    | (s, Err _) => set_shared (w_shared w) admitted (S (w_departing w)) (set_state s w)
    end
  end.
(** A failure leaves the handle to [remove_watcher]. *)
Definition open_attachment (id : Z) (position : AttachPosition) (w : World) : World :=
  match w_handles w !! id, open_at c position (w_state w) with
  | Some Opening, Ok cursor => set_handles (<[id := Attached cursor]> (w_handles w)) w
  | _, _ => w
  end.
Definition remove_watcher (id : Z) (w : World) : World :=
  match w_handles w !! id with
  | Some _ =>
    set_handles (delete id (w_handles w))
      (set_shared (w_shared w) (w_admitted w)
         (if is_some (st_watchers (w_state w) !! id) then S (w_departing w) else w_departing w)
         (set_state (remove_section id (w_state w)) w))
  | None => w
  end.
Definition release_observer (w : World) : World :=
  match w_departing w with
  | O => w
  | S departing => set_shared (sh_release (cx_observers c) 1 (w_shared w)) (w_admitted w) departing w
  end.

(** The attachment moves when a read returns an event. *)
Definition advance_handle (id : Z) (cursor : ReplayCursor) (r : result RuntimeError (option OutputEvent))
    (w : World) : World :=
  match r with
  | Ok (Some event) => set_handles (<[id := Attached (advance event cursor)]> (w_handles w)) w
  | _ => w
  end.
Definition poll_attachment (id : Z) (wk : waker) (w : World)
    : World * option (result RuntimeError (option OutputEvent)) :=
  match w_handles w !! id with
  | Some (Attached cursor) =>
    let (s, r) := poll_next c id cursor wk (w_state w) in
    (advance_handle id cursor r (set_state s w), Some r)
  | _ => (w, None)
  end.
Definition try_next (id : Z) (w : World) : World * option (result RuntimeError (option OutputEvent)) :=
  match w_handles w !! id with
  | Some (Attached cursor) =>
    let r := context_read (w_state w) cursor (cx_page_bytes c) in (advance_handle id cursor r w, Some r)
  | _ => (w, None)
  end.

Definition report (change : SessionStatus → SessionStatus) (w : World) : World :=
  let '(s, wakers, leaves) := update_and_notify change (w_state w) in
  woken wakers (set_active (if leaves then w_active w - 1 else w_active w) (set_state s w)).
Definition output (bytes : list Z) (staged : option OutputAcceptance) (others others' : list other_op)
    (w : World) : World * OutputAcceptance :=
  let '(s, sh, wakers, answer) :=
    output_section c bytes staged others others' (w_state w) (w_shared w) in
  let w := woken wakers (set_shared sh (w_admitted w) (w_departing w) (set_state s w)) in
  (match answer with Accepted => set_stream (w_stream w ++ bytes) w | _ => w end, answer).

Definition step (e : event) (w : World) : World :=
  match e with
  | C_acquire => acquire_observer w
  | C_register wait => register_watcher wait w
  | C_open id position => open_attachment id position w
  | C_remove id => remove_watcher id w
  | C_release => release_observer w
  | C_poll id wk => (poll_attachment id wk w).1
  | C_try id => (try_next id w).1
  | C_stop_reading id => set_state (clear_section id (w_state w)) w
  | C_poll_wait id wk =>
    match w_handles w !! id with
    | Some Completion_wait => set_state (poll_wait id wk (w_state w)).1 w
    | _ => w
    end
  | C_output bytes staged others others' => (output bytes staged others others' w).1
  | C_exited status => report (exited status) w
  | C_drained outcome => report (drained outcome) w
  | C_failed error => report (supervision_failed error) w
  | C_cancel => set_state (with_status (admit_cancel (st_status (w_state w))).1 (w_state w)) w
  | C_other op => set_shared (act op (w_shared w)) (w_admitted w) (w_departing w) w
  end.
Definition steps (es : list event) (w : World) : World := foldl (flip step) w es.

(** [Drop for SessionContext]: what it gives back. *)
Definition context_drop (w : World) : Shared :=
  sh_release (cx_observers c) (Z.of_nat (size (st_watchers (w_state w))))
    (sh_release (cx_replay_quota c) (allocated_bytes (st_replay (w_state w))) (w_shared w)).
Definition context_drop_active (w : World) : Z :=
  if st_metric_active (w_state w) then w_active w - 1 else w_active w.

(** ** The invariant *)

(** What this session holds of the quotas. *)
Definition mine (w : World) : charges :=
  [(cx_replay_quota c, allocated_bytes (st_replay (w_state w)));
   (cx_observers c, Z.of_nat (size (st_watchers (w_state w)) + w_admitted w + w_departing w))].

(** Whether a handle has nothing to be told. *)
Definition nothing_new (h : handle) (s : State) : Prop :=
  match h with
  | Opening => False
  | Completion_wait => completion (st_status s) = None
  | Attached cursor => context_read s cursor (cx_page_bytes c) = Ok None
  end.

Record context_ok (w : World) : Prop := {
  co_stream : represents (st_replay (w_state w)) (w_stream w);
  co_replay : replay_wf (st_replay (w_state w));
  co_limit : rb_limit (st_replay (w_state w)) = so_replay_bytes (cx_options c);
  co_lifetime : rb_lifetime (st_replay (w_state w)) = cx_lifetime c;
  co_charges : accounts (mine w ++ sh_others (w_shared w)) (sh_quotas (w_shared w));
  co_watchers : dom (st_watchers (w_state w)) = dom (w_handles w);
  co_ids id : is_Some (w_handles w !! id) → 0 <= id < st_next_watcher (w_state w);
  co_max : Z.of_nat (size (st_watchers (w_state w))) <= Z.max 0 (so_max_observers (cx_options c));
  co_cursor id cursor : w_handles w !! id = Some (Attached cursor) →
    rc_lifetime cursor = cx_lifetime c ∧ 0 <= rc_offset cursor <= len (w_stream w);
  co_quiet id h wk : w_handles w !! id = Some h → st_watchers (w_state w) !! id = Some (Some wk) →
    nothing_new h (w_state w);
  co_metric : st_metric_active (w_state w)
              = cx_diagnostics c && is_none (completion (st_status (w_state w)));
  co_active : w_active w = if st_metric_active (w_state w) then 1 else 0;
  co_next : 0 <= st_next_watcher (w_state w)
}.
End run.

(** ** Lemmas *)

(** *** Accounts *)

Lemma accounts_same cs cs' qs :
  (∀ r, charged r cs = charged r cs') → Forall (λ c, 0 <= c.2) cs' → accounts cs qs → accounts cs' qs.
Proof.
  intros Hc Hn [Hu Hl _]. split; [|done|done]. intros r q Hq. rewrite <-Hc. eauto.
Qed.
Lemma accounts_rest cs qs : accounts cs qs → Forall (λ c, 0 <= c.2) cs.
Proof. apply ac_nonneg. Qed.
Lemma charge_on_add r q a b : charge_on r (q, a + b) = charge_on r (q, a) + charge_on r (q, b).
Proof. unfold charge_on. simpl. case_decide; lia. Qed.
(** Two charges on one quota are one, and the reverse. *)
Lemma accounts_join r a b cs qs :
  accounts ((r, a) :: (r, b) :: cs) qs → accounts ((r, a + b) :: cs) qs.
Proof.
  intros H. pose proof (accounts_rest _ _ H) as Hn. inversion Hn as [|?? Ha Hn']; subst.
  inversion Hn' as [|?? Hb Hr]; subst. simpl in *. eapply accounts_same, H.
  - intros q. rewrite !charged_cons, charge_on_add. lia.
  - constructor; [simpl; lia|done].
Qed.
Lemma accounts_split r a b cs qs :
  0 <= a → 0 <= b → accounts ((r, a + b) :: cs) qs → accounts ((r, a) :: (r, b) :: cs) qs.
Proof.
  intros Ha Hb H. pose proof (accounts_rest _ _ H) as Hn. inversion Hn as [|?? _ Hr]; subst.
  eapply accounts_same, H.
  - intros q. rewrite !charged_cons, charge_on_add. lia.
  - by repeat constructor.
Qed.

Lemma act_accounts op m sh :
  accounts (m ++ sh_others sh) (sh_quotas sh) → accounts (m ++ sh_others (act op sh)) (sh_quotas (act op sh)).
Proof.
  intros H. destruct op as [r n|k]; simpl.
  - destruct (0 <=? n) eqn:Hn; to_props; [|done].
    destruct (acquire r n (sh_quotas sh)) as [qs [|]] eqn:Ha; [|done]. simpl.
    rewrite <-Permutation_middle. by eapply accounts_acquire.
  - destruct (sh_others sh !! k) as [[r n]|] eqn:Hk; [|done]. simpl. apply accounts_release.
    rewrite Permutation_middle. by rewrite <-delete_Permutation.
Qed.
Lemma acts_accounts ops m sh :
  accounts (m ++ sh_others sh) (sh_quotas sh) → accounts (m ++ sh_others (acts ops sh)) (sh_quotas (acts ops sh)).
Proof.
  revert sh. induction ops as [|op ops IH]; intros sh H; [done|]. by apply (IH (act op sh)), act_accounts.
Qed.
Lemma sh_acquire_accounts r n m sh sh' :
  0 <= n → accounts (m ++ sh_others sh) (sh_quotas sh) → sh_acquire r n sh = (sh', true) →
  accounts (((r, n) :: m) ++ sh_others sh') (sh_quotas sh').
Proof.
  intros Hn H. unfold sh_acquire. destruct (acquire r n (sh_quotas sh)) as [qs g] eqn:Ha.
  intros [= <- ->]. simpl. by eapply accounts_acquire.
Qed.
Lemma sh_acquire_refused r n sh sh' : sh_acquire r n sh = (sh', false) → sh' = sh.
Proof.
  unfold sh_acquire. destruct (acquire r n (sh_quotas sh)) as [qs g] eqn:Ha. intros [= <- ->].
  apply acquire_refused in Ha as ->. by destruct sh.
Qed.
Lemma sh_release_accounts r n m sh :
  accounts (((r, n) :: m) ++ sh_others sh) (sh_quotas sh) →
  accounts (m ++ sh_others (sh_release r n sh)) (sh_quotas (sh_release r n sh)).
Proof. apply accounts_release. Qed.

(** *** Growth *)

Section laws.
Context `{A : Allocator} `{!AllocatorLaws A}.

(** What growing leaves alone. *)
Record regrown (b b' : ReplayBuffer) : Prop := {
  rg_limit : rb_limit b' = rb_limit b;
  rg_lifetime : rb_lifetime b' = rb_lifetime b;
  rg_end : rb_end b' = rb_end b;
  rg_stream s : represents b s → represents b' s;
  rg_wf : replay_wf b → replay_wf b'
}.
#[local] Instance regrown_refl : Reflexive regrown.
Proof. by split. Qed.
Lemma regrown_release b b' : regrown b b' → regrown b (release_storage b').
Proof.
  intros [H1 H2 H3 H4 H5]. split; try done.
  - intros s Hs. by apply represents_release, H4.
  - intros Hw. destruct (H5 Hw) as [? ? ?]. split; simpl; try done; lia.
Qed.
Lemma reserve_regrown n b : 0 <= rb_len b → regrown b (reserve_capacity n b).1.
Proof.
  intros Hl. split; try (unfold reserve_capacity; by repeat case_match).
  - intros s. apply represents_reserve.
  - intros [H1 H2 H3]. unfold reserve_capacity. destruct (_ <? _) eqn:E; to_props; [|by split].
    destruct (alloc_exact _ _) as [got|] eqn:Eg; [|by split]. split; simpl; try done.
    apply alloc_exact_enough in Eg. change (rb_len _) with (rb_len b). lia.
Qed.
Lemma reserve_capacity_Ok n b b' got :
  reserve_capacity n b = (b', Ok got) → allocated_bytes b' = got.
Proof. unfold reserve_capacity. repeat case_match; intros [= <- <-]; done. Qed.
Lemma reserve_capacity_Err n b b' e :
  reserve_capacity n b = (b', Err e) → b' = b.
Proof. unfold reserve_capacity. repeat case_match; intros [= <-]; done. Qed.

(** Growing keeps the charge equal to the allocation. *)
Lemma grow_replay_exact r limit n others others' m b sh :
  replay_wf b → 
  accounts (((r, allocated_bytes b) :: m) ++ sh_others sh) (sh_quotas sh) →
  let res := grow_replay r limit n others others' b sh in
  regrown b res.1
  ∧ accounts (((r, allocated_bytes res.1) :: m) ++ sh_others res.2) (sh_quotas res.2).
Proof.
  intros Hwf Hac. unfold grow_replay. set (target := grow_target limit n b).
  pose proof (len_nonneg (vd_items (rb_bytes b))) as Hlen. fold (rb_len b) in Hlen.
  destruct (target <=? allocated_bytes b) eqn:Et; to_props; [done|].
  destruct (sh_acquire r (target - allocated_bytes b) sh) as [sh1 [|]] eqn:Ea; simpl.
  2: { by apply sh_acquire_refused in Ea as ->. }
  pose proof (sh_acquire_accounts r (target - allocated_bytes b) ((r, allocated_bytes b) :: m) sh sh1 ltac:(lia) Hac Ea) as Hac1.
  clear Ea. rename Hac1 into Ea. simpl in Ea.
  apply accounts_join in Ea. replace (target - allocated_bytes b + allocated_bytes b) with target in Ea by lia.
  apply (acts_accounts others (((r, target) :: m)) sh1) in Ea. set (sh2 := acts others sh1) in *. clearbody sh2.
  pose proof (reserve_regrown target b Hlen) as Hg.
  assert (0 <= allocated_bytes b) as Hcap by (pose proof (wf_capacity _ Hwf); unfold allocated_bytes; lia).
  destruct (reserve_capacity target b) as [b1 [actual|e]] eqn:Er; simpl in Hg.
  - apply reserve_capacity_Ok in Er as <-.
    destruct (allocated_bytes b1 =? target) eqn:E1; to_props; [simpl; by rewrite E1|].
    destruct (target <? allocated_bytes b1) eqn:E2; to_props.
    + destruct (sh_acquire r (allocated_bytes b1 - target) sh2) as [sh3 [|]] eqn:Ea2.
      * apply (sh_acquire_accounts r (allocated_bytes b1 - target) ((r, target) :: m) sh2 sh3 ltac:(lia) Ea) in Ea2. simpl in Ea2.
        apply accounts_join in Ea2. by replace (_ - target + target) with (allocated_bytes b1) in Ea2 by lia.
      * apply sh_acquire_refused in Ea2 as ->. split; [by apply regrown_release|]. simpl.
        apply (acts_accounts others' (((r, target) :: m)) sh2) in Ea.
        apply (sh_release_accounts r target m) in Ea. simpl in Ea.
        eapply accounts_same, Ea.
        -- intros q. rewrite charged_cons. unfold charge_on, allocated_bytes. simpl. by case_decide.
        -- constructor; [done|]. by apply accounts_rest in Ea.
    + split; [done|]. simpl. 
      assert (0 <= allocated_bytes b1).
      { pose proof (wf_capacity _ (rg_wf _ _ Hg Hwf)). unfold allocated_bytes.
        pose proof (len_nonneg (vd_items (rb_bytes b1))). unfold rb_len in *. lia. }
      replace target with ((target - allocated_bytes b1) + allocated_bytes b1) in Ea by lia. simpl in Ea.
      apply accounts_split in Ea; [|lia..]. by apply accounts_release in Ea.
  - apply reserve_capacity_Err in Er as ->. split; [done|]. simpl in *.
    replace target with ((target - allocated_bytes b) + allocated_bytes b) in Ea by lia.
    apply accounts_split in Ea; [|lia..]. by apply accounts_release in Ea.
Qed.

(** An append within what is allocated does not allocate. *)
Lemma append_allocated bytes b b' :
  0 <= rb_limit b → 0 <= allocated_bytes b →
  append_with_limit bytes (allocated_bytes b) b = (b', Ok tt) → allocated_bytes b' = allocated_bytes b.
Proof.
  intros Hl Hc Ha. pose proof (append_len _ _ _ _ Hl Hc Ha) as Hlen.
  unfold append_with_limit in Ha. destruct (checked_add _ _ _); [|done]. injection Ha as <-.
  unfold rb_len in Hlen. simpl in Hlen. unfold allocated_bytes. simpl.
  destruct (_ <=? _) eqn:E; to_props; [done|].
  unfold allocated_bytes, rb_len in *. simpl in *. lia.
Qed.
End laws.

(** *** Wakers, reads and facts *)

Lemma take_wakers_spec s :
  st_watchers (take_wakers s).1 = (λ _, None) <$> st_watchers s
  ∧ ∀ wk, wk ∈ (take_wakers s).2 ↔ ∃ id, st_watchers s !! id = Some (Some wk).
Proof.
  split; [done|]. intros wk. simpl. rewrite list_elem_of_omap. split.
  - intros ([id o] & Hin & Ho). simpl in Ho. subst o. rewrite merge_sort_Permutation in Hin.
    apply elem_of_map_to_list in Hin. by exists id.
  - intros [id Hid]. exists (id, Some wk). split; [|done]. rewrite merge_sort_Permutation.
    by apply elem_of_map_to_list.
Qed.
Lemma context_read_pending s cursor page :
  context_read s cursor page = Ok None ↔
  rc_lifetime cursor = rb_lifetime (st_replay s) ∧ rc_offset cursor = rb_end (st_replay s) ∧ page ≠ 0
  ∧ completion (st_status s) = None.
Proof.
  unfold context_read. pose proof (read_pending (st_replay s) cursor page) as Hp.
  destruct (read (st_replay s) cursor page) as [[| |]|].
  - split; [done|]. intros (H1 & H2 & H3 & _). naive_solver.
  - split; [done|]. intros (H1 & H2 & H3 & _). naive_solver.
  - destruct (completion (st_status s)); simpl; naive_solver.
  - split; [done|]. intros (H1 & H2 & H3 & _). naive_solver.
Qed.
Lemma is_none_iff {X} (o : option X) : is_none o = true ↔ o = None.
Proof. by destruct o. Qed.

Definition complete (s : SessionStatus) : bool := is_some (completion s).
Lemma complete_facts s :
  complete s = (is_some (ss_exit s) || is_some (ss_supervision_error s) || is_some (ss_admission_error s))
               && is_some (ss_drain s).
Proof. unfold complete, completion. by case_match. Qed.
Lemma admit_cancel_completion s : completion (admit_cancel s).1 = completion s.
Proof.
  unfold admit_cancel. destruct (is_some (completion s)) eqn:E; [done|].
  assert (completion s = None) as Hn by (by destruct (completion s)). rewrite Hn.
  unfold completion in *. simpl. by destruct (_ && _).
Qed.
(** A report keeps what was known. *)
Record keeps_facts (change : SessionStatus → SessionStatus) : Prop := {
  kf_complete s : complete s = true → complete (change s) = true
}.
Lemma get_or_insert_some {X} (o : option X) v : is_some (get_or_insert o v) = true.
Proof. by destruct o. Qed.
Lemma record_failure_keeps e : keeps_facts (record_failure e).
Proof.
  split. intros s. rewrite !complete_facts. simpl. rewrite get_or_insert_some, orb_true_r. simpl.
  intros H. by apply andb_true_iff in H as [_ ?].
Qed.
Lemma exited_keeps status : keeps_facts (exited status).
Proof.
  split. intros s Hs. unfold exited, Session.record_exit. destruct (conflicts _ _); simpl.
  - by apply record_failure_keeps.
  - rewrite complete_facts in *. simpl. apply andb_true_iff in Hs as [_ Hs]. by rewrite Hs.
Qed.
Lemma drained_keeps outcome : keeps_facts (drained outcome).
Proof.
  split. intros s Hs. unfold drained, Session.record_drain. destruct (conflicts _ _); simpl.
  - by apply record_failure_keeps.
  - rewrite complete_facts in *. simpl. apply andb_true_iff in Hs as [Hs _]. by rewrite Hs.
Qed.

(** ** Every event keeps the invariant *)

(** Cursors are unsigned. *)
Definition valid_event (e : event) : Prop :=
  match e with C_open _ (Attach_Cursor cursor) => 0 <= rc_offset cursor | _ => True end.

(** The charges of a world, from those of another. *)
Ltac recharge H :=
  let Hr := fresh in
  pose proof (accounts_rest _ _ H) as Hr; simpl in H, Hr |- *; rewrite ?Forall_cons in Hr; simpl in Hr;
  eapply accounts_same, H;
  [intros ?; simpl; rewrite ?charged_cons; unfold charge_on; simpl; repeat case_decide; lia
  |rewrite ?Forall_cons; simpl;
   decompose [and] Hr; repeat match goal with |- _ ∧ _ => apply conj end; first [lia | assumption]].

Section invariant.
Context `{A : Allocator} `{!AllocatorLaws A} (c : SessionContext).
Hypothesis (Hbytes : 0 <= so_replay_bytes (cx_options c) <= usize_max) (Hpage : 0 < cx_page_bytes c).

Lemma context_ok_new sh :
  accounts (sh_others sh) (sh_quotas sh) → context_ok c (World_new c sh).
Proof.
  intros Hac. split; simpl; try done; try lia.
  - unfold mine, allocated_bytes. simpl. rewrite map_size_empty. simpl.
    eapply accounts_same, Hac.
    + intros r. rewrite !charged_cons. unfold charge_on. simpl. repeat case_decide; lia.
    + repeat constructor; simpl; try lia. by apply accounts_rest in Hac.
  - intros id H. rewrite lookup_empty in H. by destruct H.
  - rewrite map_size_empty. lia.
  - symmetry. apply andb_true_r.
Qed.

Lemma ok_acquire w : context_ok c w → context_ok c (acquire_observer c w).
Proof.
  intros Hw. unfold acquire_observer. destruct (sh_acquire _ _ _) as [sh [|]] eqn:Ea; [|done].
  pose proof Hw as [H1 H2 H3 H4 H5 H6 H7 H8 H9 H10 H11 H12 H13]. split; try done.
  apply (sh_acquire_accounts _ 1 (mine c w)) in Ea; [|lia|done].
  unfold mine in *. simpl in *. recharge Ea.
Qed.
Lemma ok_release w : context_ok c w → context_ok c (release_observer c w).
Proof.
  intros Hw. unfold release_observer. destruct (w_departing w) as [|departing] eqn:Ed; [done|].
  pose proof Hw as [H1 H2 H3 H4 H5 H6 H7 H8 H9 H10 H11 H12 H13]. split; try done.
  unfold mine in *. simpl in *. apply accounts_release. rewrite Ed in H5. recharge H5.
Qed.
Lemma ok_other op w :
  context_ok c w → context_ok c (set_shared (act op (w_shared w)) (w_admitted w) (w_departing w) w).
Proof.
  intros Hw. pose proof Hw as [H1 H2 H3 H4 H5 H6 H7 H8 H9 H10 H11 H12 H13]. split; try done.
  apply (act_accounts op (mine c w)). done.
Qed.
Lemma ok_register wait w : context_ok c w → context_ok c (register_watcher c wait w).
Proof.
  intros Hw. unfold register_watcher. destruct (w_admitted w) as [|admitted] eqn:Ead; [done|].
  pose proof Hw as [H1 H2 H3 H4 H5 H6 H7 H8 H9 H10 H11 H12 H13].
  assert (context_ok c (set_shared (w_shared w) admitted (S (w_departing w)) (set_state (w_state w) w))) as Herr.
  { split; try done. unfold mine in *. simpl in *. rewrite Ead in H5. recharge H5. }
  unfold register_section. destruct (_ <=? _) eqn:Em; [done|]. to_props.
  destruct (checked_add u64_max _ 1) as [next|] eqn:En; [|done]. apply checked_add_Some in En as [-> _].
  clear Herr. set (id := st_next_watcher (w_state w)) in *.
  assert (w_handles w !! id = None) as Hh.
  { destruct (w_handles w !! id) eqn:E; [|done]. destruct (H7 id); [by rewrite E|lia]. }
  assert (st_watchers (w_state w) !! id = None) as Hwt.
  { apply not_elem_of_dom. rewrite H6. by apply not_elem_of_dom. }
  split; simpl; try done.
  - unfold mine in *. simpl in *. rewrite map_size_insert_None, Nat2Z.inj_add, Nat2Z.inj_add, Nat2Z.inj_succ by done.
    rewrite Ead in H5. recharge H5.
  - by rewrite !dom_insert_L, H6.
  - intros i Hi. destruct (decide (i = id)) as [->|Hne]; [lia|].
    rewrite lookup_insert_ne in Hi by done. specialize (H7 i Hi). lia.
  - rewrite map_size_insert_None by done. lia.
  - intros i cursor. rewrite lookup_insert_Some. intros [[<- Hc]|[_ Hc]]; [by destruct wait|by apply (H9 i)].
  - intros i h wk Hi. rewrite lookup_insert_Some. intros [[_ ?]|[Hne Hk]]; [done|].
    rewrite lookup_insert_ne in Hi by done. by apply (H10 i h wk).
  - lia.
Qed.
Lemma ok_open id position w :
  match position with Attach_Cursor cursor => 0 <= rc_offset cursor | _ => True end →
  context_ok c w → context_ok c (open_attachment c id position w).
Proof.
  intros Hpos Hw. unfold open_attachment. destruct (w_handles w !! id) as [[| |]|] eqn:Hh; try done.
  destruct (open_at c position (w_state w)) as [cursor|] eqn:Ho; [|done].
  pose proof Hw as [H1 H2 H3 H4 H5 H6 H7 H8 H9 H10 H11 H12 H13].
  assert (rc_lifetime cursor = cx_lifetime c ∧ 0 <= rc_offset cursor <= len (w_stream w)) as Hcur.
  { pose proof (replay_len_le_end _ _ H1) as Hl. pose proof (rep_end _ _ H1) as He.
    unfold open_at in Ho. set (cur := start_at position (w_state w)) in Ho.
    assert (0 <= rc_offset cur) as Hnn by (subst cur; destruct position; simpl; lia).
    destruct (read _ cur _) as [page|] eqn:Hr; [|done]. injection Ho as <-.
    unfold read in Hr. destruct (bool_decide _) eqn:Eb; [done|]. to_props.
    destruct (rb_end _ <? _) eqn:Ee; [done|]. to_props. split; [congruence|]. lia. }
  split; simpl; try done.
  - rewrite dom_insert_L, H6. apply mk_is_Some, elem_of_dom in Hh. set_solver.
  - intros i Hi. apply H7. destruct (decide (i = id)) as [->|]; [by rewrite Hh|].
    by rewrite lookup_insert_ne in Hi.
  - intros i cur. rewrite lookup_insert_Some. intros [[_ [= <-]]|[_ Hc]]; [done|by apply (H9 i)].
  - intros i h wk. rewrite lookup_insert_Some. intros [[<- <-]|[_ Hi]] Hk; [|by apply (H10 i h wk)].
    by destruct (H10 id Opening wk Hh Hk).
Qed.
Lemma ok_remove id w : context_ok c w → context_ok c (remove_watcher id w).
Proof.
  intros Hw. unfold remove_watcher. destruct (w_handles w !! id) as [h|] eqn:Hh; [|done].
  pose proof Hw as [H1 H2 H3 H4 H5 H6 H7 H8 H9 H10 H11 H12 H13].
  assert (is_Some (st_watchers (w_state w) !! id)) as [o Ho].
  { apply elem_of_dom. rewrite H6. apply elem_of_dom. by rewrite Hh. }
  rewrite Ho. simpl.
  assert (size (st_watchers (w_state w)) = S (size (delete id (st_watchers (w_state w))))) as Hsz.
  { rewrite map_size_delete_Some by (by rewrite Ho). 
    assert (size (st_watchers (w_state w)) ≠ 0%nat); [|lia].
    intros Hz. apply map_size_empty_inv in Hz. by rewrite Hz in Ho. }
  split; simpl; try done.
  - unfold mine in *. simpl in *. rewrite Hsz in H5. recharge H5.
  - by rewrite !dom_delete_L, H6.
  - intros i Hi. apply H7. by apply lookup_delete_is_Some in Hi as [_ ?].
  - lia.
  - intros i cur. rewrite lookup_delete_Some. intros [_ ?]. by apply (H9 i).
  - intros i h' wk. rewrite !lookup_delete_Some. intros [_ ?] [_ ?]. by apply (H10 i h' wk).
Qed.

(** What an attachment reads, against the stream. *)
Lemma context_read_exact w cursor :
  context_ok c w → rc_lifetime cursor = cx_lifetime c → 0 <= rc_offset cursor <= len (w_stream w) →
  context_read (w_state w) cursor (cx_page_bytes c)
  = let floor := rb_floor (st_replay (w_state w)) in
    if rc_offset cursor <? rc_offset floor then Ok (Some (Event_Replay (Page_Gap cursor floor)))
    else if rc_offset cursor =? len (w_stream w) then Ok (Event_Complete <$> completion (st_status (w_state w)))
    else
      let page := take (Z.to_nat (cx_page_bytes c)) (stream_from (w_stream w) (rc_offset cursor)) in
      Ok (Some (Event_Replay (Page_Bytes cursor
        {| rc_lifetime := cx_lifetime c; rc_offset := rc_offset cursor + len page |} page))).
Proof.
  intros Hw Hl Ho. unfold context_read.
  rewrite (read_exact _ (w_stream w)); rewrite ?(co_lifetime c w Hw); try done; [|apply (co_stream c w Hw)].
  simpl. destruct (_ <? _); [done|]. by destruct (_ =? _).
Qed.
Lemma advance_valid w cursor event :
  context_ok c w → rc_lifetime cursor = cx_lifetime c → 0 <= rc_offset cursor <= len (w_stream w) →
  context_read (w_state w) cursor (cx_page_bytes c) = Ok (Some event) →
  rc_lifetime (advance event cursor) = cx_lifetime c ∧ 0 <= rc_offset (advance event cursor) <= len (w_stream w).
Proof.
  intros Hw Hl Ho Hr. rewrite context_read_exact in Hr by done. simpl in Hr.
  pose proof (replay_len_le_end _ _ (co_stream c w Hw)) as Hle.
  pose proof (rep_end _ _ (co_stream c w Hw)) as He.
  destruct (_ <? _) eqn:E1; to_props.
  { injection Hr as <-. simpl. split; [apply Hw|lia]. }
  destruct (_ =? _) eqn:E2; to_props.
  { destruct (completion _); [|done]. by injection Hr as <-. }
  injection Hr as <-. simpl. split; [done|]. unfold stream_from.
  rewrite len_take, len_drop by lia. pose proof (len_nonneg (w_stream w)). lia.
Qed.

(** Changing the wakers only. *)
Lemma ok_watchers ws w :
  context_ok c w → dom ws = dom (st_watchers (w_state w)) →
  (∀ id h wk, w_handles w !! id = Some h → ws !! id = Some (Some wk) → nothing_new c h (w_state w)) →
  context_ok c (set_state (with_watchers ws (w_state w)) w).
Proof.
  intros Hw Hd Hq. pose proof Hw as [H1 H2 H3 H4 H5 H6 H7 H8 H9 H10 H11 H12 H13].
  assert (size ws = size (st_watchers (w_state w))) as Hs by (by rewrite <-!size_dom, Hd).
  split; simpl; try done.
  - unfold mine in *. simpl in *. by rewrite Hs.
  - by rewrite Hd.
  - by rewrite Hs.
Qed.
Lemma ok_slot id h slot w :
  context_ok c w → w_handles w !! id = Some h → (is_Some slot → nothing_new c h (w_state w)) →
  context_ok c (set_state (with_watchers (alter (λ _, slot) id (st_watchers (w_state w))) (w_state w)) w).
Proof.
  intros Hw Hh Hq. apply ok_watchers; [done|by rewrite dom_alter_L|].
  intros i h' wk Hi Hk. destruct (decide (i = id)) as [->|Hne].
  - rewrite lookup_alter_eq in Hk. rewrite Hh in Hi. injection Hi as <-.
    destruct (st_watchers (w_state w) !! id); [|done]. injection Hk as ->. by apply Hq.
  - rewrite lookup_alter_ne in Hk by done. by apply (co_quiet c w Hw i h' wk).
Qed.
Lemma ok_stop id w : context_ok c w → context_ok c (set_state (clear_section id (w_state w)) w).
Proof.
  intros Hw. apply ok_watchers; [done|by rewrite dom_alter_L|].
  intros i h' wk Hi Hk. destruct (decide (i = id)) as [->|Hne].
  - rewrite lookup_alter_eq in Hk. by destruct (st_watchers (w_state w) !! id).
  - rewrite lookup_alter_ne in Hk by done. by apply (co_quiet c w Hw i h' wk).
Qed.
Lemma ok_advance id cursor w :
  context_ok c w → w_handles w !! id = Some (Attached cursor) →
  let r := context_read (w_state w) cursor (cx_page_bytes c) in
  context_ok c (advance_handle id cursor r w).
Proof.
  intros Hw Hh r. unfold advance_handle. destruct r as [[event|]|] eqn:Hr; try done.
  pose proof Hw as [H1 H2 H3 H4 H5 H6 H7 H8 H9 H10 H11 H12 H13].
  destruct (H9 id cursor Hh) as [Hl Ho]. pose proof (advance_valid w cursor event Hw Hl Ho Hr) as Hv.
  split; simpl; try done.
  - rewrite dom_insert_L, H6. apply mk_is_Some, elem_of_dom in Hh. set_solver.
  - intros i Hi. apply H7. destruct (decide (i = id)) as [->|]; [by rewrite Hh|].
    by rewrite lookup_insert_ne in Hi.
  - intros i cur. rewrite lookup_insert_Some. intros [[_ [= <-]]|[_ Hc]]; [done|by apply (H9 i)].
  - intros i h wk. rewrite lookup_insert_Some. intros [[<- <-]|[_ Hi]] Hk; [|by apply (H10 i h wk)].
    pose proof (H10 id _ wk Hh Hk) as Hq. unfold r in Hr. simpl in Hq. congruence.
Qed.
Lemma ok_poll id wk w : context_ok c w → context_ok c (poll_attachment c id wk w).1.
Proof.
  intros Hw. unfold poll_attachment. destruct (w_handles w !! id) as [[| |cursor]|] eqn:Hh; try done.
  simpl. set (r := context_read _ _ _).
  match goal with |- context_ok c (advance_handle _ _ _ ?w') => set (w1 := w') end.
  assert (context_ok c w1) as Hw1.
  { apply (ok_slot id (Attached cursor)); [done|done|]. destruct r as [[?|]|] eqn:Hr; simpl; [by intros []| |by intros []].
    intros _. exact Hr. }
  by apply (ok_advance id cursor w1).
Qed.
Lemma ok_try id w : context_ok c w → context_ok c (try_next c id w).1.
Proof.
  intros Hw. unfold try_next. destruct (w_handles w !! id) as [[| |cursor]|] eqn:Hh; try done.
  by apply ok_advance.
Qed.
Lemma ok_poll_wait id wk w :
  context_ok c w → context_ok c (step c (C_poll_wait id wk) w).
Proof.
  intros Hw. simpl. destruct (w_handles w !! id) as [[| |cursor]|] eqn:Hh; try done.
  apply (ok_slot id Completion_wait); [done|done|]. simpl.
  destruct (completion _) eqn:E; simpl; [by intros []|done].
Qed.

Lemma take_wakers_size s : size (st_watchers (take_wakers s).1) = size (st_watchers s).
Proof. simpl. apply map_size_fmap. Qed.
(** A change of the status after which every waker is taken. *)
Lemma ok_report change w : keeps_facts change → context_ok c w → context_ok c (report change w).
Proof.
  intros [Hk] Hw. pose proof Hw as [H1 H2 H3 H4 H5 H6 H7 H8 H9 H10 H11 H12 H13].
  unfold report, update_and_notify. specialize (Hk (st_status (w_state w))).
  set (x := change (st_status (w_state w))) in *. unfold complete in Hk.
  set (leaves := st_metric_active _ && _).
  set (s := if leaves then with_metric false (with_status x (w_state w)) else with_status x (w_state w)).
  assert (st_replay s = st_replay (w_state w) ∧ st_status s = x ∧ st_watchers s = st_watchers (w_state w)
          ∧ st_next_watcher s = st_next_watcher (w_state w)) as (Hs1 & Hs2 & Hs3 & Hs4).
  { unfold s. by destruct leaves. }
  assert (st_metric_active s = cx_diagnostics c && is_none (completion x)) as Hs5.
  { unfold s, leaves. simpl. rewrite H11. destruct (cx_diagnostics c), (completion (st_status (w_state w))),
      (completion x); simpl in *; try done; by specialize (Hk eq_refl). }
  assert (leaves = st_metric_active (w_state w) && is_some (completion x)) as Hlv by done.
  clearbody leaves s. split; simpl; rewrite ?Hs1, ?Hs2, ?Hs3, ?Hs4, ?map_size_fmap, ?dom_fmap_L; try done.
  - intros id h wk _. rewrite lookup_fmap. by destruct (st_watchers (w_state w) !! id).
  - rewrite Hlv, Hs5, H12, H11. destruct (cx_diagnostics c), (completion (st_status (w_state w))),
      (completion x); simpl in *; try done; by specialize (Hk eq_refl).
Qed.
Lemma ok_cancel w : context_ok c w → context_ok c (step c C_cancel w).
Proof.
  intros Hw. pose proof Hw as [H1 H2 H3 H4 H5 H6 H7 H8 H9 H10 H11 H12 H13].
  split; simpl; rewrite ?admit_cancel_completion; try done.
  intros id h wk Hh Hk. specialize (H10 id h wk Hh Hk). destruct h as [| |cursor]; simpl in *; try done.
  - by rewrite admit_cancel_completion.
  - rewrite context_read_pending in *. simpl. by rewrite admit_cancel_completion.
Qed.

Lemma allocated_nonneg b : replay_wf b → 0 <= allocated_bytes b.
Proof.
  intros [_ _ H]. pose proof (len_nonneg (vd_items (rb_bytes b))). unfold rb_len, allocated_bytes in *. lia.
Qed.
(** The storage changed and nothing else. *)
Lemma ok_regrown b sh w :
  context_ok c w → regrown (st_replay (w_state w)) b →
  accounts (((cx_replay_quota c, allocated_bytes b) :: tail (mine c w)) ++ sh_others sh) (sh_quotas sh) →
  context_ok c (set_shared sh (w_admitted w) (w_departing w) (set_state (with_replay b (w_state w)) w)).
Proof.
  intros Hw [G1 G2 G3 G4 G5] Hac. pose proof Hw as [H1 H2 H3 H4 H5 H6 H7 H8 H9 H10 H11 H12 H13].
  split; simpl; try done; try congruence; auto.
  intros id h wk Hh Hk. specialize (H10 id h wk Hh Hk). destruct h as [| |cursor]; simpl in *; try done.
  rewrite context_read_pending in *. simpl. by rewrite G2, G3.
Qed.
Lemma ok_output bytes staged others others' w :
  context_ok c w → context_ok c (output c bytes staged others others' w).1.
Proof.
  intros Hw. unfold output, output_section.
  assert (context_ok c (woken [] (set_shared (w_shared w) (w_admitted w) (w_departing w)
            (set_state (w_state w) w)))) as Hsame.
  { pose proof Hw as [H1 H2 H3 H4 H5 H6 H7 H8 H9 H10 H11 H12 H13]. by split. }
  assert (context_ok c
    (let '(b, sh) := grow_replay (cx_replay_quota c) (so_replay_bytes (cx_options c)) (len bytes)
                      others others' (st_replay (w_state w)) (w_shared w) in
     let '(s, sh, wakers, answer) := match append_with_limit bytes (allocated_bytes b) b with
       | (b, Err _) => (with_replay b (w_state w), sh, [], Acceptance_Closed)
       | (b, Ok _) =>
         let (s, wakers) := take_wakers (with_replay b (w_state w)) in (s, sh, wakers, Accepted)
       end in
     let w := woken wakers (set_shared sh (w_admitted w) (w_departing w) (set_state s w)) in
     match answer with Accepted => set_stream (w_stream w ++ bytes) w | _ => w end)) as Hacc.
  2: { destruct staged as [[| |]|]; simpl; try done;
       destruct (grow_replay _ _ _ _ _ _ _) as [b sh]; destruct (append_with_limit _ _ _) as [b' [u|e]]; done. }
  pose proof (grow_replay_exact (cx_replay_quota c) (so_replay_bytes (cx_options c)) (len bytes) others others'
                (tail (mine c w)) (st_replay (w_state w)) (w_shared w) (co_replay c w Hw) (co_charges c w Hw)) as [Hg Hac].
  destruct (grow_replay _ _ _ _ _ _ _) as [b sh]. simpl in Hg, Hac.
  pose proof (ok_regrown b sh w Hw Hg Hac) as Hr.
  pose proof (co_replay _ _ Hr) as Hwf. simpl in Hwf. pose proof (allocated_nonneg b Hwf) as Hnn.
  pose proof (append_exact b (w_stream w) bytes (allocated_bytes b) (co_stream _ _ Hr) Hwf Hnn) as Happ.
  pose proof (append_allocated bytes b) as Hal.
  destruct (append_with_limit bytes (allocated_bytes b) b) as [b' [[]|e]].
  - destruct Happ as (G1 & G2 & G3 & G4 & _). specialize (Hal b' (proj1 (wf_limit _ Hwf)) Hnn eq_refl).
    pose proof Hr as [H1 H2 H3 H4 H5 H6 H7 H8 H9 H10 H11 H12 H13]. simpl in *.
    split; simpl; rewrite ?map_size_fmap, ?dom_fmap_L; try done; try congruence.
    + intros id cursor Hh. destruct (H9 id cursor Hh). split; [done|]. len_lia.
    + intros id h wk _. rewrite lookup_fmap. by destruct (st_watchers (w_state w) !! id).
  - destruct Happ as (_ & -> & _). simpl.
    pose proof Hr as [H1 H2 H3 H4 H5 H6 H7 H8 H9 H10 H11 H12 H13]. by split.
Qed.
Lemma ok_step e w : valid_event e → context_ok c w → context_ok c (step c e w).
Proof.
  intros He Hw. destruct e; simpl.
  - by apply ok_acquire.
  - by apply ok_register.
  - by apply ok_open.
  - by apply ok_remove.
  - by apply ok_release.
  - by apply ok_poll.
  - by apply ok_try.
  - by apply ok_stop.
  - by apply (ok_poll_wait id w0).
  - by apply ok_output.
  - apply ok_report; [apply exited_keeps|done].
  - apply ok_report; [apply drained_keeps|done].
  - apply ok_report; [apply record_failure_keeps|done].
  - by apply ok_cancel.
  - by apply ok_other.
Qed.
Lemma ok_steps es w : Forall valid_event es → context_ok c w → context_ok c (steps c es w).
Proof.
  revert w. induction es as [|e es IH]; intros w He Hw; [done|]. inversion He; subst.
  apply IH; [done|]. by apply ok_step.
Qed.
End invariant.

(** ** What an attachment is told *)

Section reads.
Context `{A : Allocator} `{!AllocatorLaws A} (c : SessionContext).
Hypothesis (Hbytes : 0 <= so_replay_bytes (cx_options c) <= usize_max) (Hpage : 0 < cx_page_bytes c).

Definition delivered (r : option (result RuntimeError (option OutputEvent))) : list OutputEvent :=
  match r with Some (Ok (Some event)) => [event] | _ => [] end.
(** The events one attachment returns to its owner. *)
Definition heard (id : Z) (e : event) (w : World) : list OutputEvent :=
  match e with
  | C_poll i wk => if decide (i = id) then delivered (poll_attachment c i wk w).2 else []
  | C_try i => if decide (i = id) then delivered (try_next c i w).2 else []
  | _ => []
  end.
Fixpoint transcript (id : Z) (es : list event) (w : World) : list OutputEvent :=
  match es with
  | [] => []
  | e :: es => heard id e w ++ transcript id es (step c e w)
  end.

(** The events cover the stream from [p] to [q]: bytes are the stream's, in
    order, and nothing is skipped but what a gap names. *)
Fixpoint covers (stream : list Z) (p : Z) (told : list OutputEvent) (q : Z) : Prop :=
  match told with
  | [] => p = q
  | Event_Replay (Page_Gap from to) :: told =>
    rc_offset from = p ∧ p < rc_offset to ∧ covers stream (rc_offset to) told q
  | Event_Replay (Page_Bytes from next bytes) :: told =>
    rc_offset from = p ∧ bytes ≠ [] ∧ bytes = take (length bytes) (drop (Z.to_nat p) stream)
    ∧ rc_offset next = p + len bytes ∧ covers stream (rc_offset next) told q
  | Event_Replay Page_Pending :: _ => False
  | Event_Complete _ :: told => covers stream p told q
  end.
Lemma covers_app stream p told q told' r :
  covers stream p told q → covers stream q told' r → covers stream p (told ++ told') r.
Proof.
  revert p. induction told as [|[[from to|from next bytes|]|x] told IH]; intros p; simpl.
  - by intros ->.
  - intros (? & ? & ?) ?. auto.
  - intros (? & ? & ? & ? & ?) ?. auto 10.
  - done.
  - intros ? ?. auto.
Qed.
Lemma covers_grow stream more p told q :
  0 <= p → covers stream p told q → covers (stream ++ more) p told q.
Proof.
  revert p. induction told as [|[[from to|from next bytes|]|x] told IH]; intros p Hp; simpl; try done.
  - intros (? & ? & ?). split; [done|]. split; [done|]. apply IH; [lia|done].
  - intros (? & ? & Hb & Hn & ?). split; [done|]. split; [done|]. split.
    + rewrite Hb at 1. symmetry. rewrite skipn_app, take_app_le; [done|].
      apply (f_equal length) in Hb. rewrite length_take in Hb. lia.
    + split; [done|]. apply IH; [rewrite Hn; len_lia|done].
  - intros ?. by apply IH.
Qed.

Lemma covers_event w id cursor event :
  context_ok c w → w_handles w !! id = Some (Attached cursor) →
  context_read (w_state w) cursor (cx_page_bytes c) = Ok (Some event) →
  covers (w_stream w) (rc_offset cursor) [event] (rc_offset (advance event cursor)).
Proof.
  intros Hw Hh Hr. destruct (co_cursor c w Hw id cursor Hh) as [Hl Ho].
  rewrite (context_read_exact c Hpage) in Hr by done. simpl in Hr.
  destruct (_ <? _) eqn:E1; to_props; [by injection Hr as <-|].
  destruct (_ =? _) eqn:E2; to_props.
  { destruct (completion _); [|done]. by injection Hr as <-. }
  injection Hr as <-. simpl. unfold stream_from.
  pose proof (len_nonneg (w_stream w)) as Hnn.
  assert (len (take (Z.to_nat (cx_page_bytes c)) (drop (Z.to_nat (rc_offset cursor)) (w_stream w)))
          = Z.min (cx_page_bytes c) (len (w_stream w) - rc_offset cursor)) as Hlen
    by (rewrite len_take, len_drop by lia; lia).
  split; [done|]. split; [intros Hn; rewrite Hn in Hlen; unfold len in Hlen at 1; simpl in Hlen; lia|].
  split; [|done]. by rewrite length_take, <-take_take, firstn_all.
Qed.
Lemma advance_other i id cur r w :
  i ≠ id → w_handles (advance_handle i cur r w) !! id = w_handles w !! id.
Proof. intros Hne. destruct r as [[event|]|]; simpl; [by rewrite lookup_insert_ne|done..]. Qed.
(** The cursor of a handle after one event, and what it was told. *)
Lemma covers_step e w id cursor :
  context_ok c w → valid_event e → w_handles w !! id = Some (Attached cursor) → e ≠ C_remove id →
  ∃ cursor', w_handles (step c e w) !! id = Some (Attached cursor')
    ∧ covers (w_stream (step c e w)) (rc_offset cursor) (heard id e w) (rc_offset cursor').
Proof.
  intros Hw He Hh Hne. destruct (co_cursor c w Hw id cursor Hh) as [Hl Ho].
  assert (∀ w', w_handles w' = w_handles w → w_handles w' !! id = Some (Attached cursor)) as Hkeep by (by intros ? ->).
  assert (∀ w' r i, r = context_read (w_state w) cursor (cx_page_bytes c) → w_handles w' = w_handles w →
            w_stream w' = w_stream w → i = id →
            ∃ cursor', w_handles (advance_handle i cursor r w') !! id = Some (Attached cursor')
              ∧ covers (w_stream (advance_handle i cursor r w')) (rc_offset cursor) (delivered (Some r))
                  (rc_offset cursor')) as Hread.
  { intros w' r i Hr Hhs Hst ->. destruct r as [[event|]|]; simpl; [|by exists cursor; rewrite Hhs..].
    exists (advance event cursor). rewrite lookup_insert_eq. split; [done|]. rewrite Hst.
    by apply (covers_event w id). }
  destruct e as [|wait|i position|i| |i wk|i|i|i wk|bytes staged others others'|status|outcome|error| |op]; simpl.
  - exists cursor. unfold acquire_observer. by destruct (sh_acquire _ _ _) as [? [|]].
  - exists cursor. unfold register_watcher. destruct (w_admitted w); [done|].
    unfold register_section. destruct (_ <=? _); [done|]. destruct (checked_add _ _ _); [|done]. simpl.
    rewrite lookup_insert_ne; [done|]. intros <-.
    assert (is_Some (w_handles w !! st_next_watcher (w_state w))) as Hs by (by rewrite Hh).
    apply (co_ids c w Hw) in Hs. lia.
  - exists cursor. unfold open_attachment. destruct (w_handles w !! i) as [[| |]|] eqn:Hi; try done.
    destruct (open_at _ _ _); [|done]. simpl. rewrite lookup_insert_ne; [done|]. congruence.
  - exists cursor. unfold remove_watcher. destruct (w_handles w !! i); [|done]. simpl.
    rewrite lookup_delete_ne; [done|]. congruence.
  - exists cursor. unfold release_observer. by destruct (w_departing w).
  - unfold poll_attachment. case_decide as Hi.
    + subst i. rewrite Hh. simpl. by apply Hread.
    + exists cursor. destruct (w_handles w !! i) as [[| |cur]|]; try done.
      split; [|done]. simpl. by rewrite advance_other.
  - unfold try_next. case_decide as Hi.
    + subst i. rewrite Hh. simpl. by apply Hread.
    + exists cursor. destruct (w_handles w !! i) as [[| |cur]|]; try done.
      split; [|done]. simpl. by rewrite advance_other.
  - by exists cursor.
  - exists cursor. by destruct (w_handles w !! i) as [[| |cur]|].
  - exists cursor. unfold output. destruct (output_section _ _ _ _ _ _ _) as [[[s sh] wakers] answer].
    by destruct answer.
  - by exists cursor.
  - by exists cursor.
  - by exists cursor.
  - by exists cursor.
  - by exists cursor.
Qed.
(** The stream only grows. *)
Lemma stream_grows e w : ∃ more, w_stream (step c e w) = w_stream w ++ more.
Proof.
  assert (∀ w', w_stream w' = w_stream w → ∃ more, w_stream w' = w_stream w ++ more) as Hsame
    by (intros w' ->; exists []; by rewrite app_nil_r).
  assert (∀ id cur r w', w_stream (advance_handle id cur r w') = w_stream w') as Hadv
    by (intros id cur [[?|]|] w'; done).
  destruct e as [|wait|i position|i| |i wk|i|i|i wk|bytes staged others others'|status|outcome|error| |op];
    simpl; try (apply Hsame; done).
  - apply Hsame. unfold acquire_observer. by destruct (sh_acquire _ _ _) as [? [|]].
  - apply Hsame. unfold register_watcher. destruct (w_admitted w); [done|].
    by destruct (register_section _ _) as [s [?|]].
  - apply Hsame. unfold open_attachment. destruct (w_handles w !! i) as [[| |]|]; try done.
    by destruct (open_at _ _ _).
  - apply Hsame. unfold remove_watcher. by destruct (w_handles w !! i).
  - apply Hsame. unfold release_observer. by destruct (w_departing w).
  - apply Hsame. unfold poll_attachment. destruct (w_handles w !! i) as [[| |cur]|]; try done. simpl. by rewrite Hadv.
  - apply Hsame. unfold try_next. destruct (w_handles w !! i) as [[| |cur]|]; try done. simpl. by rewrite Hadv.
  - apply Hsame. by destruct (w_handles w !! i) as [[| |cur]|].
  - unfold output. destruct (output_section _ _ _ _ _ _ _) as [[[s sh] wakers] answer].
    destruct answer; [by exists bytes|by apply Hsame|by apply Hsame].
Qed.
Lemma streams_grow es w : ∃ more, w_stream (steps c es w) = w_stream w ++ more.
Proof.
  revert w. induction es as [|e es IH]; intros w; [exists []; by rewrite app_nil_r|].
  destruct (IH (step c e w)) as [m1 H1], (stream_grows e w) as [m2 H2].
  exists (m2 ++ m1). change (steps c (e :: es) w) with (steps c es (step c e w)). by rewrite H1, H2, app_assoc.
Qed.
Lemma covers_steps es w id cursor :
  context_ok c w → Forall valid_event es → w_handles w !! id = Some (Attached cursor) → C_remove id ∉ es →
  ∃ cursor', w_handles (steps c es w) !! id = Some (Attached cursor')
    ∧ covers (w_stream (steps c es w)) (rc_offset cursor) (transcript id es w) (rc_offset cursor').
Proof.
  revert w cursor. induction es as [|e es IH]; intros w cursor Hw Hes Hh Hne; [by exists cursor|].
  inversion Hes; subst. apply not_elem_of_cons in Hne as [Hne1 Hne2].
  destruct (covers_step e w id cursor Hw) as (cur1 & Hh1 & Hc1); [done|done|congruence|].
  destruct (IH (step c e w) cur1) as (cur2 & Hh2 & Hc2); try done; [by apply ok_step|].
  exists cur2. split; [done|]. simpl. eapply covers_app; [|exact Hc2].
  destruct (streams_grow es (step c e w)) as [more Hm].
  change (steps c (e :: es) w) with (steps c es (step c e w)). rewrite Hm. apply covers_grow; [|done].
  apply (co_cursor c w Hw id cursor Hh).
Qed.
End reads.

(** ** Wakes *)

Section wakes.
Context `{A : Allocator} `{!AllocatorLaws A} (c : SessionContext).
Hypothesis (Hbytes : 0 <= so_replay_bytes (cx_options c) <= usize_max) (Hpage : 0 < cx_page_bytes c).

(** Whether an event replaces or removes a registered waker. *)
Definition replaces (id : Z) (e : event) : bool :=
  match e with
  | C_remove i | C_poll i _ | C_stop_reading i | C_poll_wait i _ => bool_decide (i = id)
  | _ => false
  end.
Lemma report_wakes change id wk w :
  st_watchers (w_state w) !! id = Some (Some wk) →
  ∃ new, w_woken (report change w) = w_woken w ++ new ∧ wk ∈ new.
Proof.
  intros Hk. unfold report, update_and_notify.
  set (s := if _ : bool then with_metric false _ else _).
  assert (st_watchers s = st_watchers (w_state w)) as Hs by (unfold s; by case_match).
  pose proof (take_wakers_spec s) as [_ Ht]. destruct (take_wakers s) as [s' wakers].
  exists wakers. split; [done|]. apply (Ht wk). exists id. by rewrite Hs.
Qed.
Lemma registered_step e id wk w :
  context_ok c w → st_watchers (w_state w) !! id = Some (Some wk) → replaces id e = false →
  ∃ new, w_woken (step c e w) = w_woken w ++ new
    ∧ (wk ∈ new ∨ st_watchers (w_state (step c e w)) !! id = Some (Some wk)).
Proof.
  intros Hw Hk Hr.
  assert (∀ w', w_woken w' = w_woken w → st_watchers (w_state w') !! id = Some (Some wk) →
            ∃ new, w_woken w' = w_woken w ++ new ∧ (wk ∈ new ∨ st_watchers (w_state w') !! id = Some (Some wk)))
    as Hsame by (intros w' Hwk Hs; exists []; rewrite app_nil_r; auto).
  assert (∀ i cur r w', w_woken (advance_handle i cur r w') = w_woken w'
                        ∧ w_state (advance_handle i cur r w') = w_state w') as Hadv
    by (intros i cur [[?|]|] w'; done).
  destruct e as [|wait|i position|i| |i wk'|i|i|i wk'|bytes staged others others'|status|outcome|error| |op];
    simpl in *; try (by apply Hsame).
  - apply Hsame; unfold acquire_observer; by destruct (sh_acquire _ _ _) as [? [|]].
  - unfold register_watcher. destruct (w_admitted w); [by apply Hsame|].
    unfold register_section. destruct (_ <=? _); [by apply Hsame|]. destruct (checked_add _ _ _); [|by apply Hsame].
    apply Hsame; [done|]. simpl. rewrite lookup_insert_ne; [done|]. intros <-.
    assert (st_next_watcher (w_state w) ∈ dom (w_handles w)) as Hd
      by (rewrite <-(co_watchers c w Hw); apply elem_of_dom; by rewrite Hk).
    apply elem_of_dom, (co_ids c w Hw) in Hd. lia.
  - unfold open_attachment. destruct (w_handles w !! i) as [[| |]|]; try (by apply Hsame).
    destruct (open_at _ _ _); by apply Hsame.
  - unfold remove_watcher. destruct (w_handles w !! i); [|by apply Hsame]. apply Hsame; [done|].
    simpl. to_props. by rewrite lookup_delete_ne.
  - unfold release_observer. destruct (w_departing w); by apply Hsame.
  - unfold poll_attachment. destruct (w_handles w !! i) as [[| |cur]|]; try (by apply Hsame). simpl.
    set (w1 := set_state _ _). destruct (Hadv i cur (context_read (w_state w) cur (cx_page_bytes c)) w1) as [H1 H2].
    apply Hsame; [by rewrite H1|]. rewrite H2. simpl. to_props. by rewrite lookup_alter_ne.
  - unfold try_next. destruct (w_handles w !! i) as [[| |cur]|]; try (by apply Hsame). simpl.
    destruct (Hadv i cur (context_read (w_state w) cur (cx_page_bytes c)) w) as [H1 H2].
    apply Hsame; [by rewrite H1|]. by rewrite H2.
  - apply (Hsame (set_state (clear_section i (w_state w)) w)); [done|].
    simpl. to_props. by rewrite lookup_alter_ne.
  - destruct (w_handles w !! i) as [[| |cur]|]; try (by apply Hsame).
    apply (Hsame (set_state (poll_wait i wk' (w_state w)).1 w)); [done|].
    simpl. to_props. by rewrite lookup_alter_ne.
  - unfold output, output_section.
    assert (∃ new, w_woken w ++ [] = w_woken w ++ new ∧ (wk ∈ new ∨ st_watchers (w_state w) !! id = Some (Some wk)))
      as Hnil by (exists []; auto).
    destruct staged as [[| |]|]; simpl; try exact Hnil;
      destruct (grow_replay _ _ _ _ _ _ _) as [b sh]; destruct (append_with_limit _ _ _) as [b' [u|e]];
      simpl; try exact Hnil; eexists; (split; [done|]); left;
      apply (proj2 (take_wakers_spec (with_replay b' (w_state w)))); by exists id.
  - destruct (report_wakes (exited status) id wk w Hk) as (new & H1 & H2). exists new. auto.
  - destruct (report_wakes (drained outcome) id wk w Hk) as (new & H1 & H2). exists new. auto.
  - destruct (report_wakes (supervision_failed error) id wk w Hk) as (new & H1 & H2). exists new. auto.
Qed.
Lemma woken_grows e w : ∃ new, w_woken (step c e w) = w_woken w ++ new.
Proof.
  assert (∀ w', w_woken w' = w_woken w → ∃ m, w_woken w' = w_woken w ++ m) as Hsame
    by (intros w' ->; exists []; by rewrite app_nil_r).
  assert (∀ i cur r w', w_woken (advance_handle i cur r w') = w_woken w') as Hadv
    by (intros i cur [[?|]|] w'; done).
  destruct e as [|wait|i position|i| |i wk'|i|i|i wk'|bytes staged others others'|status|outcome|error| |op];
    simpl in *; try (by apply Hsame); try (by eexists).
  - apply Hsame. unfold acquire_observer. by destruct (sh_acquire _ _ _) as [? [|]].
  - apply Hsame. unfold register_watcher. destruct (w_admitted w); [done|].
    by destruct (register_section _ _) as [s [?|]].
  - apply Hsame. unfold open_attachment. destruct (w_handles w !! i) as [[| |]|]; try done.
    by destruct (open_at _ _ _).
  - apply Hsame. unfold remove_watcher. by destruct (w_handles w !! i).
  - apply Hsame. unfold release_observer. by destruct (w_departing w).
  - apply Hsame. unfold poll_attachment. destruct (w_handles w !! i) as [[| |cur]|]; try done.
    simpl. by rewrite Hadv.
  - apply Hsame. unfold try_next. destruct (w_handles w !! i) as [[| |cur]|]; try done.
    simpl. by rewrite Hadv.
  - apply Hsame. by destruct (w_handles w !! i) as [[| |cur]|].
  - unfold output. destruct (output_section _ _ _ _ _ _ _) as [[[s sh] wakers] answer].
    exists wakers. by destruct answer.
Qed.
Lemma woken_grow es w : ∃ new, w_woken (steps c es w) = w_woken w ++ new.
Proof.
  revert w. induction es as [|e es IH]; intros w; [exists []; by rewrite app_nil_r|].
  destruct (IH (step c e w)) as [m1 H1], (woken_grows e w) as [m2 H2].
  exists (m2 ++ m1). change (steps c (e :: es) w) with (steps c es (step c e w)). by rewrite H1, H2, app_assoc.
Qed.
Lemma registered_steps es id wk w :
  context_ok c w → Forall valid_event es → st_watchers (w_state w) !! id = Some (Some wk) →
  forallb (λ e, negb (replaces id e)) es = true →
  wk ∈ drop (length (w_woken w)) (w_woken (steps c es w))
  ∨ st_watchers (w_state (steps c es w)) !! id = Some (Some wk).
Proof.
  revert w. induction es as [|e es IH]; intros w Hw Hes Hk Hr; [by right|].
  inversion Hes; subst. simpl in Hr. apply andb_true_iff in Hr as [Hr1 Hr2]. apply negb_true_iff in Hr1.
  change (steps c (e :: es) w) with (steps c es (step c e w)).
  destruct (woken_grow es (step c e w)) as [more Hmore].
  destruct (registered_step e id wk w Hw Hk Hr1) as (new & Hn & [Hin|Hreg]).
  - left. rewrite Hmore, Hn, <-app_assoc, drop_app_length. apply elem_of_app. by left.
  - destruct (IH (step c e w)) as [Hin|]; [by apply ok_step|done|done|done| |by right].
    left. rewrite Hmore, Hn in *. rewrite <-app_assoc, drop_app_length in *. apply elem_of_app. right.
    rewrite app_assoc, drop_app_length in Hin. done.
Qed.

End wakes.

(** ** Properties *)

Section properties.
Context `{A : Allocator} `{!AllocatorLaws A}.

(** C11: A session's memory and observers are always charged.  Whatever the events
    and whatever other sessions do to the quotas meanwhile, the two quotas of the
    runtime are charged exactly the allocation of the replay window and one slot
    per watcher (registered, or between its quota and its section); the window
    holds no more than its allocation and no more watchers register than allowed;
    and once its handles are gone, dropping the context gives everything back and
    leaves the diagnostics. *)
Theorem context_charges_exact c sh es :
  0 <= so_replay_bytes (cx_options c) <= usize_max → 0 < cx_page_bytes c →
  accounts (sh_others sh) (sh_quotas sh) → Forall valid_event es →
  let w := steps c es (World_new c sh) in
  let watchers := size (st_watchers (w_state w)) in
  accounts ([(cx_replay_quota c, allocated_bytes (st_replay (w_state w)));
             (cx_observers c, Z.of_nat (watchers + w_admitted w + w_departing w))]
            ++ sh_others (w_shared w)) (sh_quotas (w_shared w))
  ∧ rb_len (st_replay (w_state w)) <= allocated_bytes (st_replay (w_state w))
  ∧ watchers = size (w_handles w) ∧ Z.of_nat watchers <= Z.max 0 (so_max_observers (cx_options c))
  ∧ (w_admitted w = O → w_departing w = O →
       accounts (sh_others (w_shared w)) (sh_quotas (context_drop c w)) ∧ context_drop_active w = 0).
Proof.
  intros Hb Hp Hac He w watchers. assert (context_ok c w) as Hw by by apply ok_steps, context_ok_new.
  split; [apply (co_charges c w Hw)|]. split; [apply (wf_capacity _ (co_replay c w Hw))|].
  split; [by unfold watchers; rewrite <-!size_dom, (co_watchers c w Hw)|].
  split; [apply (co_max c w Hw)|]. intros Ha Hd. split.
  - pose proof (co_charges c w Hw) as H. unfold mine in H. rewrite Ha, Hd, !Nat.add_0_r in H.
    unfold context_drop. apply accounts_release, accounts_release. exact H.
  - unfold context_drop_active. rewrite (co_active c w Hw). by destruct (st_metric_active _).
Qed.

(** C10: An attachment misses nothing silently.  From wherever it stands, and
    whatever happens meanwhile, the events it returns cover the produced stream
    from its cursor to its new one: each page is the stream's bytes at the
    cursor, in order and never empty, and bytes are skipped only by a gap that
    names them.  A read has nothing to say exactly when the cursor is at the end
    of the stream and the session is not complete. *)
Theorem attachment_hears_stream c sh before id cursor es :
  0 <= so_replay_bytes (cx_options c) <= usize_max → 0 < cx_page_bytes c →
  accounts (sh_others sh) (sh_quotas sh) → Forall valid_event before → Forall valid_event es →
  let w := steps c before (World_new c sh) in
  w_handles w !! id = Some (Attached cursor) → C_remove id ∉ es →
  let w' := steps c es w in
  ∃ cursor', w_handles w' !! id = Some (Attached cursor')
    ∧ covers (w_stream w') (rc_offset cursor) (transcript c id es w) (rc_offset cursor')
    ∧ rc_offset cursor' <= len (w_stream w')
    ∧ ((try_next c id w').2 = Some (Ok None) ↔
         rc_offset cursor' = len (w_stream w') ∧ completion (st_status (w_state w')) = None).
Proof.
  intros Hb Hp Hac Hbe He w Hh Hne w'.
  assert (context_ok c w) as Hw by by apply ok_steps, context_ok_new.
  assert (context_ok c w') as Hw' by by apply ok_steps.
  destruct (covers_steps c Hb Hp es w id cursor Hw He Hh Hne) as (cursor' & Hh' & Hc). fold w' in Hh', Hc.
  exists cursor'. split; [done|]. split; [done|].
  destruct (co_cursor c w' Hw' id cursor' Hh') as [Hl Ho]. split; [lia|].
  unfold try_next. rewrite Hh'. simpl. rewrite <-(rep_end _ _ (co_stream c w' Hw')).
  split.
  - intros [= H]. apply context_read_pending in H. tauto.
  - intros [H1 H2]. f_equal. apply context_read_pending. rewrite (co_lifetime c w' Hw').
    split; [done|]. split; [done|]. split; [lia|done].
Qed.

(** No wake is lost.  A poll that answers pending leaves its waker registered;
    until it is polled again, stopped or removed, either that waker has been
    woken, or there is still nothing to tell: the attachment is at the end of an
    incomplete stream, the wait is for an incomplete session. *)
Theorem pending_wake_kept c sh before id wk e es :
  0 <= so_replay_bytes (cx_options c) <= usize_max → 0 < cx_page_bytes c →
  accounts (sh_others sh) (sh_quotas sh) → Forall valid_event before → Forall valid_event es →
  let w := steps c before (World_new c sh) in
  e = C_poll id wk ∧ (poll_attachment c id wk w).2 = Some (Ok None)
  ∨ e = C_poll_wait id wk ∧ w_handles w !! id = Some Completion_wait ∧ (poll_wait id wk (w_state w)).2 = None →
  forallb (λ e, negb (replaces id e)) es = true →
  let w1 := step c e w in
  let w2 := steps c es w1 in
  wk ∈ drop (length (w_woken w1)) (w_woken w2)
  ∨ ∃ h, w_handles w2 !! id = Some h ∧ nothing_new c h (w_state w2).
Proof.
  intros Hb Hp Hac Hbe He w Hask Hes w1 w2.
  assert (context_ok c w) as Hw by by apply ok_steps, context_ok_new.
  assert (valid_event e) as Hve by (by destruct Hask as [[-> _]|[-> _]]).
  assert (context_ok c w1) as Hw1 by by apply ok_step.
  assert (context_ok c w2) as Hw2 by by apply ok_steps.
  assert (∀ h slot, w_handles w !! id = Some h →
            alter (λ _ : option waker, slot) id (st_watchers (w_state w)) !! id = Some slot) as Halter.
  { intros h slot Hh. rewrite lookup_alter_eq.
    assert (id ∈ dom (st_watchers (w_state w))) as Hd
      by (rewrite (co_watchers c w Hw); apply elem_of_dom; by rewrite Hh).
    apply elem_of_dom in Hd as [o ->]. done. }
  assert (st_watchers (w_state w1) !! id = Some (Some wk)) as Hreg.
  { unfold w1. destruct Hask as [[-> Hr]|(-> & Hh & Hr)]; simpl.
    - unfold poll_attachment in *. destruct (w_handles w !! id) as [[| |cursor]|] eqn:Hh; try done.
      simpl in *. injection Hr as Hr. rewrite Hr. simpl. by apply (Halter (Attached cursor)).
    - rewrite Hh. simpl in *. rewrite Hr. by apply (Halter Completion_wait). }
  destruct (registered_steps c Hb Hp es id wk w1 Hw1 He Hreg Hes) as [?|Hreg2]; [by left|right].
  assert (id ∈ dom (w_handles w2)) as Hd by (rewrite <-(co_watchers c w2 Hw2); apply elem_of_dom; by eexists).
  apply elem_of_dom in Hd as [h Hh]. exists h. split; [done|]. by apply (co_quiet c w2 Hw2 id h wk).
Qed.
End properties.

(** *** Witnesses *)

Definition demo_context : SessionContext := {|
  cx_diagnostics := true; cx_lifetime := demo_lifetime;
  cx_options := {| so_size := {| ts_cols := 80; ts_rows := 24 |};
                   so_replay_bytes := 4; so_max_observers := 2; so_process := ProcessLimits_default;
                   so_projection := None |};
  cx_observers := 0%nat; cx_replay_quota := 1%nat; cx_page_bytes := 3 |}.
(** Quotas of three observers and six bytes, of which another session has two. *)
Definition demo_shared : Shared := {|
  sh_quotas := {[ 0%nat := {| q_limit := 3; q_used := 0 |}; 1%nat := {| q_limit := 6; q_used := 2 |} ]};
  sh_others := [(1%nat, 2)] |}.
Lemma demo_accounts : accounts (sh_others demo_shared) (sh_quotas demo_shared).
Proof.
  split; simpl.
  - intros r q [[<- <-]|[_ [<- <-]%lookup_singleton_Some]]%lookup_insert_Some; reflexivity.
  - intros r q [[<- <-]|[_ [<- <-]%lookup_singleton_Some]]%lookup_insert_Some; vm_compute; split; discriminate.
  - repeat constructor. simpl. lia.
Qed.
(** One attachment and one wait; six bytes, of which four are kept. *)
Definition demo_events : list event :=
  [C_acquire; C_register false; C_open 0 Attach_Oldest; C_acquire; C_register true;
   C_output [1; 2] None [Other_release 0] []; C_poll 0 5; C_poll 0 5; C_poll_wait 1 6].
Definition demo_more : list event :=
  [C_output [3; 4; 5; 6] (Some Accepted) [] []; C_output [7] (Some Backpressure) [] [];
   C_try 0; C_try 0; C_drained DrainOutcome_Eof; C_exited (ExitStatus_Code 0)].

Lemma context_charges_exact_witness :
  let w := steps demo_context (demo_events ++ demo_more ++ [C_remove 0; C_release; C_remove 1; C_release])
             (World_new demo_context demo_shared) in
  allocated_bytes (st_replay (w_state w)) = 4
  ∧ accounts (sh_others (w_shared w)) (sh_quotas (context_drop demo_context w)).
Proof.
  split; [vm_compute; reflexivity|].
  apply (context_charges_exact demo_context demo_shared
           (demo_events ++ demo_more ++ [C_remove 0; C_release; C_remove 1; C_release])).
  - vm_compute. split; discriminate.
  - reflexivity.
  - apply demo_accounts.
  - repeat constructor.
  - vm_compute. reflexivity.
  - vm_compute. reflexivity.
Defined.
(** The attachment reads two bytes, then four of the later stream. *)
Lemma attachment_hears_stream_witness :
  let w := steps demo_context (take 6 demo_events) (World_new demo_context demo_shared) in
  let es := drop 6 demo_events ++ demo_more ++ [C_try 0] in
  transcript demo_context 0 es w
  = [Event_Replay (Page_Bytes {| rc_lifetime := demo_lifetime; rc_offset := 0 |}
                              {| rc_lifetime := demo_lifetime; rc_offset := 2 |} [1; 2]);
     Event_Replay (Page_Bytes {| rc_lifetime := demo_lifetime; rc_offset := 2 |}
                              {| rc_lifetime := demo_lifetime; rc_offset := 5 |} [3; 4; 5]);
     Event_Replay (Page_Bytes {| rc_lifetime := demo_lifetime; rc_offset := 5 |}
                              {| rc_lifetime := demo_lifetime; rc_offset := 6 |} [6]);
     Event_Complete (mk_Completion (st_status (w_state (steps demo_context es w))))]
  ∧ ∃ cursor', covers (w_stream (steps demo_context es w)) 0 (transcript demo_context 0 es w) (rc_offset cursor').
Proof.
  intros w es. split; [vm_compute; reflexivity|].
  destruct (attachment_hears_stream demo_context demo_shared (take 6 demo_events) 0
              {| rc_lifetime := demo_lifetime; rc_offset := 0 |} es) as (cursor' & _ & Hc & _).
  - vm_compute. split; discriminate.
  - reflexivity.
  - apply demo_accounts.
  - repeat constructor.
  - repeat constructor.
  - vm_compute. reflexivity.
  - intros Hin. unfold es in Hin. simpl in Hin.
    repeat (apply elem_of_cons in Hin as [Hin|Hin]; [discriminate|]). by apply elem_of_nil in Hin.
  - exists cursor'. exact Hc.
Defined.
Lemma pending_wake_kept_witness :
  let w := steps demo_context (take 8 demo_events) (World_new demo_context demo_shared) in
  let w1 := step demo_context (C_poll_wait 1 6) w in
  let w2 := steps demo_context [C_output [3; 4; 5; 6] (Some Accepted) [] []] w1 in
  6%nat ∈ drop (length (w_woken w1)) (w_woken w2) ∨ ∃ h, w_handles w2 !! 1 = Some h ∧ nothing_new demo_context h (w_state w2).
Proof.
  intros w w1 w2.
  assert ((C_poll_wait 1 6 = C_poll 1 6 ∧ (poll_attachment demo_context 1 6 w).2 = Some (Ok None))
          ∨ C_poll_wait 1 6 = C_poll_wait 1 6 ∧ w_handles w !! 1 = Some Completion_wait
            ∧ (poll_wait 1 6 (w_state w)).2 = None) as Hask.
  { right. split; [reflexivity|]. split; vm_compute; reflexivity. }
  exact (pending_wake_kept demo_context demo_shared (take 8 demo_events) 1 6 (C_poll_wait 1 6)
           [C_output [3; 4; 5; 6] (Some Accepted) [] []] ltac:(vm_compute; split; discriminate) eq_refl
           demo_accounts ltac:(repeat constructor) ltac:(repeat constructor) Hask eq_refl).
Defined.
