(* ===== verification/Ports.v ===== *)
(** * Ports of the application (crates/application/src/terminal/mod.rs,
      checkpoint/mod.rs, scheduling/mod.rs, process/mod.rs)

    The traits the projection is written against.  An implementation is a
    [Ports]: one state [Env] for everything outside the coordinator and one
    operation per trait method the coordinator calls.  [None] is a panic of a
    method whose panics the coordinator catches.  What a correct engine and a
    correct checkpoint provider promise is the class [EngineLaws]. *)

From S2P Require Import Prelude Identity Process Terminal Checkpoint Projection View.

(** [IBlockingExecutor], [IWorkHandle]: the worker's next schedule. *)
Inductive WorkSchedule := Dormant | After (delay : Z) | Finished.
Definition immediately : WorkSchedule := After 0.
(** [matches!(schedule, WorkSchedule::After(delay) if delay.is_zero())] *)
Definition is_immediate (s : WorkSchedule) : bool :=
  match s with After d => d =? 0 | _ => false end.

Class Ports := {
  Env : Type;
  (** A [Box<dyn ITerminal>], and an admitted process operation. *)
  Term : Type;
  Operation : Type;

  (** IClock, IWorkScheduler, IWorkHandle, IBlockingExecutor, ICapacitySignal *)
  clock_now : Env → Z;
  scheduler_register : Env → Env * bool;
  handle_wake : Env → Env * bool;
  executor_submit : Env → Env * bool;
  capacity_notify : Env → Env;

  (** ITerminalFactory, ITerminal *)
  capabilities : TerminalCapabilities;
  factory_compatibility : result TerminalError CompatibilityId;
  factory_create : TerminalConfig → Env → Env * option (result TerminalError Term);
  factory_restore : TerminalCheckpoint → TerminalConfig → Env
                    → Env * option (result TerminalError Term);
  term_feed : list Z → Term → Env → Env * Term * option (result TerminalError (list Z));
  term_resize : TerminalSize → ControlGeneration → Term → Env
                → Env * Term * option (result TerminalError ());
  term_view : Term → Env → Env * Term * option (result TerminalError TerminalView);
  term_checkpoint : CheckpointDescriptor → Term → Env
                    → Env * Term * option (result TerminalError TerminalCheckpoint);
  term_progress : Term → Env → Env * Term * option (result TerminalError RestorationProgress);
  term_history_step : Term → Env → Env * Term * option (result TerminalError RestorationProgress);

  (** ICheckpointProtector, ICheckpointStore *)
  protected_size_limit : Z → option (result CheckpointError Z);
  protector_protect : CheckpointKey → TerminalCheckpoint → Env
                      → Env * option (result CheckpointError ProtectedCheckpoint);
  protector_open : CheckpointKey → CheckpointDescriptor → ProtectedCheckpoint → Env
                   → Env * option (result CheckpointError TerminalCheckpoint);
  store_commit : ProtectedCheckpoint → Env → Env * option (result CheckpointError CheckpointRef);
  store_read : CheckpointRef → Z → Env → Env * option (result CheckpointError ProtectedCheckpoint);
  store_delete : CheckpointRef → Env → Env * option (result CheckpointError ());

  (** IProcessSession: an operation is polled until it is ready *)
  process_write : list Z → Env → Env * result ProcessError Operation;
  poll_write : Operation → Env → Env * option WriteOutcome;
  process_resize : TerminalSize → Env → Env * result ProcessError Operation;
  poll_resize : Operation → Env → Env * option (result ProcessError ());

  (** [Ticket::cancelled]: whether the caller of a wait has dropped it *)
  ticket_cancelled : nat → Env → bool
}.

(** ** Laws of a correct engine and provider

    [seen t] is the byte stream a model is the state of (nothing when it is created), [shows v s] that a
    view is one of the model after [s], [held_stream c] the stream a checkpoint
    was taken at, [plain p] the one under a ciphertext and
    [stored r] the one behind a committed reference.  A successful feed appends,
    nothing else changes what a model has seen; a checkpoint and a restored
    model carry it; and what authenticates is what was protected: a reference
    is immutable, and a ciphertext opens to the checkpoint it was made from. *)
Class EngineLaws (P : Ports) := {
  seen : Term → list Z;
  held_stream : TerminalCheckpoint → list Z;
  shows : TerminalView → list Z → Prop;
  plain : ProtectedCheckpoint → list Z;
  stored : CheckpointRef → list Z;

  create_seen config e e' t : factory_create config e = (e', Some (Ok t)) → seen t = [];
  feed_seen bytes t e e' t' r :
    term_feed bytes t e = (e', t', Some (Ok r)) → seen t' = seen t ++ bytes;
  resize_seen size g t e e' t' r : term_resize size g t e = (e', t', r) → seen t' = seen t;
  view_seen t e e' t' r : term_view t e = (e', t', r) → seen t' = seen t;
  view_shows t e e' t' v : term_view t e = (e', t', Some (Ok v)) → shows v (seen t);
  progress_seen t e e' t' r : term_progress t e = (e', t', r) → seen t' = seen t;
  history_seen t e e' t' r : term_history_step t e = (e', t', r) → seen t' = seen t;
  checkpoint_seen d t e e' t' r :
    term_checkpoint d t e = (e', t', r) →
    seen t' = seen t ∧ ∀ c, r = Some (Ok c) → held_stream c = seen t;
  restore_seen c config e e' t :
    factory_restore c config e = (e', Some (Ok t)) → seen t = held_stream c;

  protect_plain k c e e' p :
    protector_protect k c e = (e', Some (Ok p)) → plain p = held_stream c;
  open_plain k d p e e' c :
    protector_open k d p e = (e', Some (Ok c)) → held_stream c = plain p;
  commit_stored p e e' r : store_commit p e = (e', Some (Ok r)) → stored r = plain p;
  read_stored r n e e' p : store_read r n e = (e', Some (Ok p)) → plain p = stored r
}.

(** ** A correct implementation, for concrete runs

    A model is the stream it has seen, a checkpoint carries it in the clear,
    and the store, which has room for a number of objects, names an object by
    its content. *)
Definition demo_style : TerminalStyle := {|
  ts_foreground := Color_Default; ts_background := Color_Default;
  ts_underline_color := Color_Default; ts_underline := Underline_None;
  ts_bold := false; ts_faint := false; ts_italic := false; ts_blink := false; ts_inverse := false;
  ts_invisible := false; ts_strikethrough := false; ts_overline := false |}.
Definition demo_screen (s : list Z) : TerminalView := {|
  tv_size := {| ts_cols := len s; ts_rows := 1 |};
  tv_cursor := {| cur_col := len s; cur_row := 0; cur_visible := true; cur_pending_wrap := false |};
  tv_modes := {| tm_alternate_screen := false; tm_bracketed_paste := false;
                 tm_application_cursor := false; tm_mouse := Mouse_None;
                 tm_mouse_encoding := Encoding_Legacy |};
  tv_palette := {| tp_foreground := None; tp_background := None; tp_cursor := None;
                   tp_indexed := [] |};
  tv_cells := (λ b, {| cell_text := [b]; cell_width := 1; cell_style := demo_style |}) <$> s |}.

Record demo_env := {
  de_now : Z;
  de_pool : bool;
  de_room : Z;
  de_store : list ProtectedCheckpoint
}.
Definition demo_put (l : list ProtectedCheckpoint) (e : demo_env) : demo_env :=
  {| de_now := de_now e; de_pool := de_pool e; de_room := de_room e; de_store := l |}.
Definition demo_named (r : CheckpointRef) (p : ProtectedCheckpoint) : bool :=
  bool_decide (pc_ciphertext p = cr_object_id r ∧ pc_key p = cr_key r).
#[export] Instance demo_ports : Ports := {|
  Env := demo_env; Term := list Z; Operation := Z;
  clock_now e := de_now e;
  scheduler_register e := (e, true);
  handle_wake e := (e, true);
  executor_submit e := (e, de_pool e);
  capacity_notify e := e;
  capabilities := {| cap_checkpoints := true; cap_incremental_restore := true;
                     cap_mutation_during_restore := true; cap_history_compression := false |};
  factory_compatibility := Ok (mk_CompatibilityId [1]);
  factory_create _ e := (e, Some (Ok []));
  factory_restore c _ e := (e, Some (Ok (tk_bytes c)));
  term_feed bytes t e := (e, t ++ bytes, Some (Ok []));
  term_resize _ _ t e := (e, t, Some (Ok tt));
  term_view t e := (e, t, Some (Ok (demo_screen t)));
  term_checkpoint d t e :=
    (e, t, Some (Ok {| tk_descriptor := d; tk_bytes := t; tk_capacity := len t |}));
  term_progress t e := (e, t, Some (Ok Progress_Usable));
  term_history_step t e := (e, t, Some (Ok Progress_Complete));
  protected_size_limit n := Some (Ok (n + 1));
  protector_protect k c e :=
    (e, Some (Ok {| pc_key := k; pc_descriptor := tk_descriptor c;
                    pc_ciphertext := 0 :: tk_bytes c |}));
  protector_open k d p e :=
    (e, Some (Ok {| tk_descriptor := d; tk_bytes := tail (pc_ciphertext p);
                    tk_capacity := len (tail (pc_ciphertext p)) |}));
  store_commit p e :=
    if de_room e <=? len (de_store e) then (e, Some (Err CheckpointError_CapacityExceeded))
    else (demo_put (p :: de_store e) e,
          Some (Ok {| cr_object_id := pc_ciphertext p; cr_key := pc_key p;
                      cr_bytes := len (pc_ciphertext p) |}));
  store_read r n e :=
    (e, Some match List.find (demo_named r) (de_store e) with
             | None => Err CheckpointError_NotFound
             | Some p => if n <? len (pc_ciphertext p) then Err CheckpointError_CapacityExceeded
                         else Ok p
             end);
  store_delete r e := (demo_put (List.filter (λ p, negb (demo_named r p)) (de_store e)) e, Some (Ok tt));
  process_write bytes e := (e, Ok (len bytes));
  poll_write n e := (e, Some {| wo_written := n; wo_error := None |});
  process_resize _ e := (e, Ok 0);
  poll_resize _ e := (e, Some (Ok tt));
  ticket_cancelled _ _ := false
|}.

#[export] Instance demo_laws : EngineLaws demo_ports.
Proof.
  refine (Build_EngineLaws demo_ports (λ t, t) tk_bytes
            (λ v s, (tv_cells v ≫= cell_text) = s) (λ p, tail (pc_ciphertext p))
            (λ r, tail (cr_object_id r)) _ _ _ _ _ _ _ _ _ _ _ _ _);
    simpl; intros; simplify_eq/=; try done.
  - match goal with |- _ = ?t => induction t as [|b s IH] end; [done|]. csimpl. by rewrite IH.
  - split; [done|]. by intros c [= <-].
  - match goal with H : (if ?b then _ else _) = _ |- _ => destruct b end; by simplify_eq/=.
  - match goal with H : context [List.find ?f ?l] |- _ => destruct (List.find f l) as [q|] eqn:E end;
      [|done]. apply List.find_some in E as [_ E]. unfold demo_named in E. apply bool_decide_eq_true in E.
    match goal with H : (if ?b then _ else _) = _ |- _ => destruct b end; [done|]. simplify_eq/=.
    by destruct E as [-> _].
Defined.
