(* ===== verification/Threads.v ===== *)
(** * Threads around one monitor

    The worker threads of a pool share one mutex and one condition variable.  A
    thread is about to take the lock, waits on the condition variable, runs
    something outside the lock, or has returned.  [notify_one] wakes some waiter
    if there is one; which one is the system's choice. *)

From S2P Require Import Prelude.

(** How many elements pass a test. *)
Definition count {A} (f : A → bool) (l : list A) : nat := length (List.filter f l).
Lemma count_insert {A} (f : A → bool) (l : list A) i x y :
  l !! i = Some x →
  (count f (<[i := y]> l) + (if f x then 1 else 0) = count f l + (if f y then 1 else 0))%nat.
Proof.
  intros Hi. rewrite (insert_take_drop _ _ _ (lookup_lt_Some _ _ _ Hi)).
  rewrite <-(take_drop_middle l i x Hi) at 3.
  unfold count. rewrite !List.filter_app, !length_app. simpl.
  destruct (f x), (f y); simpl; lia.
Qed.
Lemma count_pos {A} (f : A → bool) l i x : l !! i = Some x → f x = true → (0 < count f l)%nat.
Proof.
  intros Hi Hf. apply list_elem_of_lookup_2 in Hi. unfold count.
  induction Hi as [|? y l Hi IH]; simpl; [rewrite Hf; simpl; lia|].
  destruct (f y); simpl; [lia|auto].
Qed.
Lemma count_pos_inv {A} (f : A → bool) l :
  (0 < count f l)%nat → ∃ i x, l !! i = Some x ∧ f x = true.
Proof.
  unfold count. induction l as [|x l IH]; simpl; [lia|]. destruct (f x) eqn:E.
  - intros _. by exists 0%nat, x.
  - intros H. destruct (IH H) as (i & y & Hi & Hy). by exists (S i), y.
Qed.
Lemma count_zero {A} (f : A → bool) l : (∀ i x, l !! i = Some x → f x = false) → count f l = 0%nat.
Proof.
  intros H. destruct (count f l) as [|n] eqn:E; [done|].
  destruct (count_pos_inv f l) as (i & x & Hi & Hx); [lia|]. by rewrite (H i x Hi) in Hx.
Qed.

Lemma count_snoc {A} (f : A → bool) l x : count f (l ++ [x]) = (count f l + if f x then 1 else 0)%nat.
Proof. unfold count. rewrite List.filter_app, length_app. simpl. by destruct (f x). Qed.
Lemma count_unique {A} (f : A → bool) l i j x y :
  (count f l <= 1)%nat → l !! i = Some x → l !! j = Some y → f x = true → f y = true → i = j.
Proof.
  revert i j. induction l as [|z l IH]; intros i j Hc Hi Hj Hx Hy; [done|].
  unfold count in *. simpl in Hc.
  destruct i as [|i], j as [|j]; simpl in *; simplify_eq; try done.
  - rewrite Hx in Hc. simpl in Hc. pose proof (count_pos f l j y Hj Hy). unfold count in *. lia.
  - rewrite Hy in Hc. simpl in Hc. pose proof (count_pos f l i x Hi Hx). unfold count in *. lia.
  - f_equal. apply IH; try done. destruct (f z); simpl in Hc; lia.
Qed.
Lemma count_le {A} (f g : A → bool) l l' :
  (∀ i y, l' !! i = Some y → f y = true → ∃ x, l !! i = Some x ∧ g x = true) →
  (count f l' <= count g l)%nat.
Proof.
  revert l. induction l' as [|y l' IH]; intros l H; [unfold count; simpl; lia|].
  destruct l as [|x l].
  - rewrite (count_zero f (y :: l')); [lia|]. intros i z Hi. destruct (f z) eqn:E; [|done].
    by destruct (H i z Hi E) as (? & ? & _).
  - specialize (IH l (λ i, H (S i))). unfold count in *. simpl.
    destruct (f y) eqn:Ey; simpl.
    + destruct (H 0%nat y eq_refl Ey) as (? & [= <-] & ->). simpl. lia.
    + destruct (g x); simpl; lia.
Qed.

Section threads.
Context {R : Type}.

Inductive thread :=
  | Ready
  | Waiting (deadline : option Z)
  | Busy (r : R)
  | Exited.

Definition is_waiting (t : thread) : bool := match t with Waiting _ => true | _ => false end.
Definition is_ready (t : thread) : bool := match t with Ready => true | _ => false end.
Definition is_busy (t : thread) : bool := match t with Busy _ => true | _ => false end.
Definition is_exited (t : thread) : bool := match t with Exited => true | _ => false end.
Definition busy_with (t : thread) : list R := match t with Busy r => [r] | _ => [] end.

(** What the busy threads run. *)
Definition running (ts : list thread) : list R := ts ≫= busy_with.

(** The first waiter. *)
Fixpoint wake_first (ts : list thread) : list thread :=
  match ts with
  | [] => []
  | Waiting _ :: ts => Ready :: ts
  | t :: ts => t :: wake_first ts
  end.
(** Wake thread [choice] when it waits, any other waiter otherwise. *)
Definition notify_one (choice : nat) (ts : list thread) : list thread :=
  match ts !! choice with
  | Some (Waiting _) => <[choice := Ready]> ts
  | _ => wake_first ts
  end.
Definition notify_all (ts : list thread) : list thread :=
  (λ t, if is_waiting t then Ready else t) <$> ts.

(** ** Counting *)

Lemma running_insert ts i t t' :
  ts !! i = Some t → running (<[i := t']> ts) ++ busy_with t ≡ₚ running ts ++ busy_with t'.
Proof.
  intros Hi. rewrite (insert_take_drop _ _ _ (lookup_lt_Some _ _ _ Hi)).
  rewrite <-(take_drop_middle ts i t Hi) at 3.
  unfold running. rewrite !bind_app. simpl. solve_Permutation.
Qed.
Lemma running_count ts : length (running ts) = count is_busy ts.
Proof. unfold running, count. induction ts as [|[] ts IH]; simpl; auto. Qed.

Lemma wake_first_none ts : count is_waiting ts = 0%nat → wake_first ts = ts.
Proof.
  unfold count. induction ts as [|[] ts IH]; simpl; intros H; try done; by rewrite IH.
Qed.
Lemma wake_first_some ts :
  (0 < count is_waiting ts)%nat → ∃ i d, ts !! i = Some (Waiting d) ∧ wake_first ts = <[i := Ready]> ts.
Proof.
  unfold count. induction ts as [|t ts IH]; simpl; [lia|].
  destruct t; simpl; intros H; try (destruct (IH H) as (i & d & Hi & ->); by exists (S i), d).
  by exists 0%nat, deadline.
Qed.
Lemma notify_one_cases choice ts :
  notify_one choice ts = ts ∧ count is_waiting ts = 0%nat
  ∨ ∃ i d, ts !! i = Some (Waiting d) ∧ notify_one choice ts = <[i := Ready]> ts.
Proof.
  unfold notify_one.
  assert (wake_first ts = ts ∧ count is_waiting ts = 0%nat
          ∨ ∃ i d, ts !! i = Some (Waiting d) ∧ wake_first ts = <[i := Ready]> ts) as H.
  { destruct (decide (count is_waiting ts = 0%nat)) as [Hw|Hw].
    - left. split; [by apply wake_first_none|done].
    - right. apply wake_first_some. lia. }
  destruct (ts !! choice) as [[]|] eqn:E; try done. right. by exists choice, deadline.
Qed.

Lemma notify_all_waiting ts : count is_waiting (notify_all ts) = 0%nat.
Proof. unfold count, notify_all. induction ts as [|[] ts IH]; simpl; auto. Qed.
Lemma notify_all_running ts : running (notify_all ts) = running ts.
Proof. unfold running, notify_all. induction ts as [|[] ts IH]; csimpl; congruence. Qed.
Lemma notify_all_count f ts :
  f Ready = false → (∀ d, f (Waiting d) = false) → count f (notify_all ts) = count f ts.
Proof.
  intros Hr Hw. unfold count, notify_all. induction ts as [|t ts IH]; [done|].
  destruct t; csimpl; rewrite ?Hr, ?Hw; try case_match; simpl; auto.
Qed.
Lemma notify_all_ready ts :
  count is_ready (notify_all ts) = (count is_ready ts + count is_waiting ts)%nat.
Proof. unfold count, notify_all. induction ts as [|[] ts IH]; csimpl; lia. Qed.
Lemma notify_all_length ts : length (notify_all ts) = length ts.
Proof. apply length_fmap. Qed.
Lemma notify_all_none ts : count is_waiting ts = 0%nat → notify_all ts = ts.
Proof.
  unfold count, notify_all. induction ts as [|[] ts IH]; csimpl; intros H; try done; f_equal; auto.
Qed.
Lemma notify_one_length choice ts : length (notify_one choice ts) = length ts.
Proof.
  destruct (notify_one_cases choice ts) as [[-> _]|(i & d & _ & ->)]; [done|]. apply length_insert.
Qed.
Lemma notify_one_running choice ts : running (notify_one choice ts) ≡ₚ running ts.
Proof.
  destruct (notify_one_cases choice ts) as [[-> _]|(i & d & Hi & ->)]; [done|].
  pose proof (running_insert ts i _ Ready Hi) as H. simpl in H. by rewrite !app_nil_r in H.
Qed.
(** A thread is in one of the four states. *)
Lemma count_all ts :
  (count is_ready ts + count is_waiting ts + count is_busy ts + count is_exited ts)%nat = length ts.
Proof. unfold count. induction ts as [|[] ts IH]; simpl; lia. Qed.
End threads.
Arguments thread : clear implicits.
