(* ===== verification/Executor.v ===== *)
(** * The pool of blocking workers (crates/infrastructure/src/scheduling/blocking.rs)

    [BoundedBlockingExecutor]: a bounded queue of jobs shared by a fixed number
    of threads.  The state is what the mutex protects, the threads around it, and
    the log of what was accepted and run.  Every event is one lock section of
    one thread; any interleaving is a list of events. *)

From S2P Require Import Prelude Threads.

(** ** Data *)

Inductive SchedulingError := Scheduling_Capacity | Scheduling_Closed | Scheduling_Failed.

(** A job, by the number of its submission. *)
Abbreviation job := nat.

Record Executor := {
  ex_jobs : list job;
  ex_active : Z;
  ex_closed : bool;
  ex_max_jobs : Z;
  ex_threads : list (thread job);
  (** ---- *)
  ex_accepted : list job;
  ex_started : list job;
  ex_finished : list job
}.

Definition ex_state (jobs : list job) (active : Z) (closed : bool) (x : Executor) : Executor := {|
  ex_jobs := jobs; ex_active := active; ex_closed := closed; ex_max_jobs := ex_max_jobs x;
  ex_threads := ex_threads x; ex_accepted := ex_accepted x; ex_started := ex_started x;
  ex_finished := ex_finished x |}.
Definition with_threads (ts : list (thread job)) (x : Executor) : Executor := {|
  ex_jobs := ex_jobs x; ex_active := ex_active x; ex_closed := ex_closed x;
  ex_max_jobs := ex_max_jobs x; ex_threads := ts; ex_accepted := ex_accepted x;
  ex_started := ex_started x; ex_finished := ex_finished x |}.
Definition log (accepted started finished : list job) (x : Executor) : Executor := {|
  ex_jobs := ex_jobs x; ex_active := ex_active x; ex_closed := ex_closed x;
  ex_max_jobs := ex_max_jobs x; ex_threads := ex_threads x;
  ex_accepted := ex_accepted x ++ accepted; ex_started := ex_started x ++ started;
  ex_finished := ex_finished x ++ finished |}.

(** ** Operations *)

(** [new]: [allocated] is whether the queue could be allocated and [spawned]
    whether the i-th thread could be created; a failure joins the others. *)
Definition Executor_new (max_jobs workers : Z) (allocated : bool) (spawned : nat → bool)
    : result SchedulingError Executor :=
  if (max_jobs =? 0) || (workers =? 0) || (64 <? workers) then Err Scheduling_Capacity
  else if negb allocated then Err Scheduling_Capacity
  else if forallb spawned (seq 0 (Z.to_nat workers))
  then Ok {| ex_jobs := []; ex_active := 0; ex_closed := false; ex_max_jobs := max_jobs;
             ex_threads := replicate (Z.to_nat workers) Ready;
             ex_accepted := []; ex_started := []; ex_finished := [] |}
  else Err Scheduling_Failed.

(** [IBlockingExecutor::submit]; [choice] is the waiter the notification wakes. *)
Definition submit (work : job) (choice : nat) (x : Executor)
    : Executor * result SchedulingError () :=
  if ex_closed x then (x, Err Scheduling_Closed)
  else if ex_max_jobs x <=? len (ex_jobs x) + ex_active x then (x, Err Scheduling_Capacity)
  else (with_threads (notify_one choice (ex_threads x))
          (log [work] [] [] (ex_state (ex_jobs x ++ [work]) (ex_active x) (ex_closed x) x)), Ok tt).

(** [shutdown], up to the join. *)
Definition shutdown (x : Executor) : Executor :=
  with_threads (notify_all (ex_threads x)) (ex_state (ex_jobs x) (ex_active x) true x).

(** One turn of [run]'s inner loop by thread [i], which has the lock. *)
Definition run_take (i : nat) (x : Executor) : Executor :=
  match ex_jobs x with
  | work :: jobs =>
    with_threads (<[i := Busy work]> (ex_threads x))
      (log [] [work] [] (ex_state jobs (ex_active x + 1) (ex_closed x) x))
  | [] =>
    with_threads (<[i := if ex_closed x then Exited else Waiting None]> (ex_threads x)) x
  end.
(** The job has returned, or panicked. *)
Definition run_finish (i : nat) (work : job) (x : Executor) : Executor :=
  with_threads (notify_all (<[i := Ready]> (ex_threads x)))
    (log [] [] [work] (ex_state (ex_jobs x) (ex_active x - 1) (ex_closed x) x)).

Definition run_step (i : nat) (x : Executor) : Executor :=
  match ex_threads x !! i with
  | Some Ready => run_take i x
  | Some (Busy work) => run_finish i work x
  | _ => x
  end.

(** ** Histories *)

Inductive event :=
  | X_submit (work : job) (choice : nat)
  | X_shutdown
  | X_run (i : nat)
  (** a wait may end without a notification *)
  | X_spurious (i : nat).

Definition execute (e : event) (x : Executor) : Executor :=
  match e with
  | X_submit work choice => (submit work choice x).1
  | X_shutdown => shutdown x
  | X_run i => run_step i x
  | X_spurious i =>
    match ex_threads x !! i with
    | Some (Waiting _) => with_threads (<[i := Ready]> (ex_threads x)) x
    | _ => x
    end
  end.
Definition execute_all (es : list event) (x : Executor) : Executor := foldl (flip execute) x es.

(** ** The invariant *)

(** The threads that will look at the queue again without being notified. *)
Definition awake (ts : list (thread job)) : nat := (count is_ready ts + count is_busy ts)%nat.

Record executor_ok (x : Executor) : Prop := {
  xo_fifo : ex_accepted x = ex_started x ++ ex_jobs x;
  xo_once : ex_started x ≡ₚ ex_finished x ++ running (ex_threads x);
  xo_active : ex_active x = Z.of_nat (count is_busy (ex_threads x));
  xo_bound : len (ex_jobs x) + ex_active x <= ex_max_jobs x;
  xo_some : (0 < length (ex_threads x))%nat;
  (** no wakeup is lost *)
  xo_awake : (0 < count is_waiting (ex_threads x))%nat →
             ex_closed x = false ∧ (length (ex_jobs x) <= awake (ex_threads x))%nat;
  xo_exited : (0 < count is_exited (ex_threads x))%nat → ex_closed x = true ∧ ex_jobs x = []
}.

(** Thread [i] goes from [t] to [t']: the four counts. *)
Ltac count_at H t' :=
  pose proof (count_insert is_ready _ _ _ t' H);
  pose proof (count_insert is_waiting _ _ _ t' H);
  pose proof (count_insert is_busy _ _ _ t' H);
  pose proof (count_insert is_exited _ _ _ t' H);
  pose proof (running_insert _ _ _ t' H); simpl in *.

Lemma submit_keeps_ok work choice x : executor_ok x → executor_ok (submit work choice x).1.
Proof.
  intros Hx. pose proof Hx as [Hfifo Honce Hact Hbound Hsome Hawake Hexit]. unfold awake in *.
  unfold submit. destruct (ex_closed x) eqn:Hc; [exact Hx|].
  destruct (_ <=? _) eqn:Hfull; to_props; [exact Hx|].
  pose proof (notify_one_length choice (ex_threads x)) as Hlen.
  pose proof (notify_one_running choice (ex_threads x)) as Hrun.
  split; simpl; rewrite ?app_nil_r, ?Hlen; try done.
  + by rewrite Hfifo, app_assoc.
  + by rewrite Hrun.
  + by rewrite <-!running_count, Hrun, running_count.
  + rewrite len_app, len_cons, len_nil. lia.
  + unfold awake. rewrite length_app. simpl.
    destruct (notify_one_cases choice (ex_threads x)) as [[-> Hw]|(i & d & Hi & ->)]; [lia|].
    count_at Hi (@Ready job). intros _. split; [done|].
    pose proof (count_pos is_waiting _ _ _ Hi eq_refl). lia.
  + intros He. exfalso. destruct (notify_one_cases choice (ex_threads x)) as [[E _]|(i & d & Hi & E)];
      rewrite E in He; [by destruct (Hexit He)|].
    count_at Hi (@Ready job). by destruct Hexit; [lia|].
Qed.
Lemma shutdown_ok x : executor_ok x → executor_ok (shutdown x).
Proof.
  intros Hx. pose proof Hx as [Hfifo Honce Hact Hbound Hsome Hawake Hexit]. unfold awake in *.
  pose proof (notify_all_count is_busy (ex_threads x) eq_refl ltac:(done)) as Hb.
  pose proof (notify_all_count is_exited (ex_threads x) eq_refl ltac:(done)) as He.
  split; simpl; rewrite ?notify_all_running, ?notify_all_length, ?notify_all_waiting, ?Hb, ?He; try done.
  + lia.
  + intros H. by destruct (Hexit H).
Qed.
Lemma run_take_ok i x :
  ex_threads x !! i = Some Ready → executor_ok x → executor_ok (run_take i x).
Proof.
  intros Hi Hx. pose proof Hx as [Hfifo Honce Hact Hbound Hsome Hawake Hexit]. unfold awake in *.
  unfold run_take. destruct (ex_jobs x) as [|work jobs] eqn:Hj.
  * destruct (ex_closed x) eqn:Hc.
    -- count_at Hi (@Exited job). rewrite !app_nil_r in *.
       split; simpl; rewrite ?length_insert, ?Hc, ?Hj, ?app_nil_r; unfold awake; auto; try lia.
       by rewrite H3.
    -- count_at Hi (@Waiting job None). rewrite !app_nil_r in *.
       split; simpl; rewrite ?length_insert, ?Hc, ?Hj, ?app_nil_r; unfold awake; auto; try lia.
       ++ by rewrite H3.
       ++ intros _. split; [done|]. simpl. lia.
  * count_at Hi (Busy work). rewrite !app_nil_r in *.
    split; simpl; rewrite ?length_insert, ?app_nil_r; unfold awake; auto; try lia.
    ++ by rewrite Hfifo, <-app_assoc.
    ++ rewrite H3, Honce. solve_Permutation.
    ++ rewrite len_cons in Hbound. lia.
    ++ intros Hw. destruct Hawake; [lia|]. split; [done|]. simpl in *. lia.
    ++ intros Hy. destruct Hexit; [lia|done].
Qed.
Lemma run_finish_ok i work x :
  ex_threads x !! i = Some (Busy work) → executor_ok x → executor_ok (run_finish i work x).
Proof.
  intros Hi Hx. pose proof Hx as [Hfifo Honce Hact Hbound Hsome Hawake Hexit]. unfold awake in *.
  unfold run_finish. count_at Hi (@Ready job). rewrite !app_nil_r in *.
  pose proof (notify_all_count is_busy (<[i:=Ready]> (ex_threads x)) eq_refl ltac:(done)) as Hb.
  pose proof (notify_all_count is_exited (<[i:=Ready]> (ex_threads x)) eq_refl ltac:(done)) as He.
  split; simpl; rewrite ?notify_all_running, ?notify_all_length, ?notify_all_waiting, ?length_insert,
    ?Hb, ?He, ?app_nil_r; auto; try lia.
  * rewrite Honce, <-app_assoc. f_equiv. rewrite <-H3. solve_Permutation.
  * intros Hy. apply Hexit. lia.
Qed.
Lemma spurious_ok i x : executor_ok x → executor_ok (execute (X_spurious i) x).
Proof.
  intros Hx. pose proof Hx as [Hfifo Honce Hact Hbound Hsome Hawake Hexit]. unfold awake in *. simpl.
  destruct (ex_threads x !! i) as [[|d|work|]|] eqn:Hi; try exact Hx.
  count_at Hi (@Ready job). rewrite !app_nil_r in *.
  split; simpl; rewrite ?length_insert; unfold awake; auto; try lia.
  + by rewrite H3.
  + intros Hw. destruct Hawake; [lia|]. split; [done|lia].
  + intros Hy. apply Hexit. lia.
Qed.
Lemma run_step_ok i x : executor_ok x → executor_ok (run_step i x).
Proof.
  intros Hx. unfold run_step. destruct (ex_threads x !! i) as [[| |work|]|] eqn:Hi; try exact Hx.
  - by apply run_take_ok.
  - by apply run_finish_ok.
Qed.
Lemma execute_ok e x : executor_ok x → executor_ok (execute e x).
Proof.
  intros Hx. destruct e; [by apply submit_keeps_ok|by apply shutdown_ok|by apply run_step_ok|by apply spurious_ok].
Qed.
Lemma execute_all_ok es x : executor_ok x → executor_ok (execute_all es x).
Proof.
  revert x. induction es as [|e es IH]; intros x Hx; [done|]. simpl. by apply IH, execute_ok.
Qed.
Lemma Executor_new_ok max_jobs workers allocated spawned x :
  0 <= max_jobs → 0 <= workers → Executor_new max_jobs workers allocated spawned = Ok x → executor_ok x.
Proof.
  intros Hm Hw. unfold Executor_new.
  destruct (_ || _) eqn:E; [done|]. destruct allocated; simpl; [|done].
  destruct (forallb _ _); [|done]. intros [= <-]. to_props.
  assert (∀ f : thread job → bool, f Ready = false → count f (replicate (Z.to_nat workers) Ready) = 0%nat)
    as Hc.
  { intros f Hf. unfold count. induction (Z.to_nat workers) as [|n IH]; simpl; [done|]. by rewrite Hf. }
  assert (running (replicate (Z.to_nat workers) (@Ready job)) = []) as Hr.
  { clear. by induction (Z.to_nat workers). }
  split; simpl; rewrite ?Hr, ?length_replicate, ?Hc by done; simpl; try done; try lia.
Qed.

(** ** Draining *)

(** Turns of threads that can take one. *)
Definition can_run (t : thread job) : bool := is_ready t || is_busy t.
Fixpoint effective (turns : list nat) (x : Executor) : Prop :=
  match turns with
  | [] => True
  | i :: turns => (∃ t, ex_threads x !! i = Some t ∧ can_run t = true) ∧ effective turns (run_step i x)
  end.
Definition runs (turns : list nat) (x : Executor) : Executor := foldl (flip run_step) x turns.

(** A bound on the turns left once the pool is closed. *)
Definition left_over (x : Executor) : nat :=
  (3 * length (ex_jobs x) + 2 * count is_busy (ex_threads x) + count is_ready (ex_threads x))%nat.

Lemma run_step_closed i x :
  ex_closed (run_step i x) = ex_closed x ∧ ex_accepted (run_step i x) = ex_accepted x.
Proof.
  unfold run_step, run_take, run_finish.
  destruct (ex_threads x !! i) as [[| |work|]|]; try done; [|by simpl; rewrite app_nil_r].
  destruct (ex_jobs x); simpl; by rewrite ?app_nil_r.
Qed.
Lemma run_step_left i t x :
  executor_ok x → ex_closed x = true → ex_threads x !! i = Some t → can_run t = true →
  (left_over (run_step i x) < left_over x)%nat.
Proof.
  intros [_ _ _ _ _ Hawake _] Hc Hi Ht.
  assert (count is_waiting (ex_threads x) = 0%nat) as Hw.
  { destruct (count is_waiting (ex_threads x)); [done|]. destruct Hawake; [lia|congruence]. }
  unfold left_over, run_step. rewrite Hi. destruct t as [| |work|]; try done.
  - unfold run_take. destruct (ex_jobs x) as [|work jobs] eqn:Hj; simpl; rewrite ?Hc, ?Hj.
    + count_at Hi (@Exited job). lia.
    + count_at Hi (Busy work). lia.
  - unfold run_finish. simpl. count_at Hi (@Ready job). rewrite notify_all_none by lia. lia.
Qed.
Lemma runs_bounded turns x :
  executor_ok x → ex_closed x = true → effective turns x →
  executor_ok (runs turns x) ∧ ex_closed (runs turns x) = true ∧ ex_accepted (runs turns x) = ex_accepted x
  ∧ (length turns + left_over (runs turns x) <= left_over x)%nat.
Proof.
  revert x. induction turns as [|i turns IH]; intros x Hx Hc; [simpl; by auto with lia|].
  change (runs (i :: turns) x) with (runs turns (run_step i x)).
  intros [(t & Hi & Ht) He]. destruct (run_step_closed i x) as [Hc' Ha'].
  pose proof (run_step_left i t x Hx Hc Hi Ht) as Hl.
  destruct (IH (run_step i x)) as (H1 & H2 & H3 & H4); [by apply run_step_ok|by rewrite Hc'|done|].
  split; [done|]. split; [done|]. split; [by rewrite H3|]. simpl. lia.
Qed.

(** ** Properties *)

(** C35: Jobs are run exactly once, in the order they were accepted, and never
    more at a time than admitted.  Under every interleaving of submissions,
    threads, spurious wakeups and a shutdown: the jobs accepted are those
    started followed by those queued; every job started is either running on
    exactly one thread or has finished; a submission is refused exactly when the
    pool is closed or full; and while a job is queued some thread is awake to
    take it. *)
Theorem executor_exact max_jobs workers allocated spawned x es :
  0 <= max_jobs → 0 <= workers → Executor_new max_jobs workers allocated spawned = Ok x →
  let x' := execute_all es x in
  let busy := running (ex_threads x') in
  ex_accepted x' = ex_started x' ++ ex_jobs x' ∧ ex_started x' ≡ₚ ex_finished x' ++ busy
  ∧ len (ex_jobs x') + len busy <= ex_max_jobs x'
  ∧ (∀ work choice, (submit work choice x').2 = Ok tt ↔
       ex_closed x' = false ∧ len (ex_jobs x') + len busy < ex_max_jobs x')
  ∧ (ex_jobs x' ≠ [] → (0 < awake (ex_threads x'))%nat).
Proof.
  intros Hm Hw Hn x' busy. apply Executor_new_ok in Hn; [|done..].
  destruct (execute_all_ok es x Hn) as [Hf Ho Ha Hb Hs Haw He]. fold x' in Hf, Ho, Ha, Hb, Hs, Haw, He.
  assert (ex_active x' = len busy) as Hbusy by (rewrite Ha; unfold len, busy; by rewrite running_count).
  rewrite <-Hbusy. do 3 (split; [done|]). split.
  - intros work choice. unfold submit. destruct (ex_closed x'); [naive_solver|].
    destruct (_ <=? _) eqn:E; to_props; simpl; split; try done; try lia.
  - intros Hj. pose proof (count_all (ex_threads x')) as Hall. unfold awake in *.
    destruct (count is_exited (ex_threads x')) eqn:Hx; [|by destruct He; [lia|]].
    destruct (count is_waiting (ex_threads x')) eqn:Hwt; [lia|].
    destruct Haw as [_ Hl]; [lia|]. destruct (ex_jobs x'); [done|]. simpl in Hl. lia.
Qed.

(** A shutdown drains.  Once the pool is closed, however the threads are
    scheduled, they take at most [left_over] turns; and when none can take
    another, every thread has returned and every accepted job has finished. *)
Theorem executor_drains max_jobs workers allocated spawned x es turns :
  0 <= max_jobs → 0 <= workers → Executor_new max_jobs workers allocated spawned = Ok x →
  let x1 := execute_all es x in
  ex_closed x1 = true → effective turns x1 →
  let x2 := runs turns x1 in
  (length turns <= left_over x1)%nat
  ∧ (Forall (λ t, can_run t = false) (ex_threads x2) →
     Forall (λ t, t = Exited) (ex_threads x2) ∧ ex_finished x2 ≡ₚ ex_accepted x1).
Proof.
  intros Hm Hw Hn x1 Hc He x2. apply Executor_new_ok in Hn; [|done..].
  destruct (runs_bounded turns x1) as ([Hf Ho Ha Hb Hs Haw Hex] & Hc2 & Hacc & Hl);
    [by apply execute_all_ok|done|done|]. fold x2 in Hf, Ho, Ha, Hb, Hs, Haw, Hex, Hc2, Hacc, Hl.
  split; [lia|]. intros Hstuck.
  assert (count is_waiting (ex_threads x2) = 0%nat) as Hwt.
  { destruct (count is_waiting (ex_threads x2)); [done|]. destruct Haw; [lia|congruence]. }
  assert (Forall (λ t, t = Exited) (ex_threads x2)) as Hall.
  { apply Forall_lookup. intros i t Hi. rewrite Forall_lookup in Hstuck. specialize (Hstuck i t Hi).
    destruct t; try done. pose proof (count_pos is_waiting _ _ _ Hi eq_refl). lia. }
  split; [done|].
  assert (running (ex_threads x2) = []) as Hr.
  { clear -Hall. unfold running. induction Hall as [|t ts -> _ IH]; [done|]. exact IH. }
  assert (0 < count is_exited (ex_threads x2))%nat as Hpos.
  { destruct (ex_threads x2) as [|t ts]; [simpl in Hs; lia|]. inversion Hall; subst.
    unfold count. simpl. lia. }
  destruct (Hex Hpos) as [_ Hj]. rewrite Hr, app_nil_r in Ho. by rewrite <-Hacc, Hf, Hj, app_nil_r, Ho.
Qed.

(** *** Witnesses *)

(** Two threads, room for three jobs. *)
Definition demo_executor : result SchedulingError Executor := Executor_new 3 2 true (λ _, true).
Definition demo_pool : Executor :=
  {| ex_jobs := []; ex_active := 0; ex_closed := false; ex_max_jobs := 3;
     ex_threads := [Ready; Ready]; ex_accepted := []; ex_started := []; ex_finished := [] |}.
Definition demo_events : list event :=
  [X_run 0; X_run 1; X_submit 7 0; X_submit 8 1; X_submit 9 0; X_submit 10 0; X_run 0; X_shutdown]%nat.

Lemma executor_exact_witness :
  let x := execute_all demo_events demo_pool in
  ex_accepted x = [7; 8; 9]%nat ∧ ex_started x = [7]%nat ∧ ex_jobs x = [8; 9]%nat
  ∧ (0 < awake (ex_threads x))%nat.
Proof.
  destruct (executor_exact 3 2 true (λ _, true) demo_pool demo_events ltac:(lia) ltac:(lia) eq_refl)
    as (_ & _ & _ & _ & H).
  split; [reflexivity|]. split; [reflexivity|]. split; [reflexivity|]. apply H. vm_compute. discriminate.
Defined.
Lemma executor_drains_witness :
  let x := runs [0; 1; 0; 1; 0; 1; 0]%nat (execute_all demo_events demo_pool) in
  Forall (λ t, t = Exited) (ex_threads x) ∧ ex_finished x ≡ₚ [7; 8; 9]%nat.
Proof.
  assert (effective [0; 1; 0; 1; 0; 1; 0]%nat (execute_all demo_events demo_pool)) as He.
  { vm_compute. repeat (split; [eexists; split; reflexivity|]). exact I. }
  apply (executor_drains 3 2 true (λ _, true) demo_pool demo_events _ ltac:(lia) ltac:(lia) eq_refl
           eq_refl He).
  vm_compute. repeat constructor.
Defined.
