(* ===== verification/Scheduler.v ===== *)
(** * The pool of projection workers (crates/infrastructure/src/scheduling/pool.rs)

    [StdWorkScheduler]: a fixed number of slots, one per registration, shared by
    a fixed number of threads.  A registration is woken or timed; some thread
    then runs its work once.  The state is what the mutex protects and the
    threads around it; every event is one lock section. *)

From S2P Require Import Prelude Process Terminal Checkpoint Projection View Ports Threads Executor.

(** ** Data *)

Record Entry := {
  en_id : Z;
  (** a [Weak] reference to the work *)
  en_work : nat;
  en_running : bool;
  en_pending : bool;
  en_closed : bool;
  en_due : option Z
}.
(** What a thread runs: the slot and the work it upgraded. *)
Record run_ref := { rn_index : nat; rn_work : nat }.

Record Scheduler := {
  sc_slots : list (option Entry);
  sc_next : Z;
  sc_cursor : nat;
  sc_closed : bool;
  sc_threads : list (thread run_ref);
  (** ---- the last instant a thread has read *)
  sc_clock : Z
}.

Definition Entry_new (id : Z) (work : nat) : Entry := {|
  en_id := id; en_work := work; en_running := false; en_pending := false; en_closed := false;
  en_due := None |}.
(** Woken, started, returned, and closed while it runs. *)
Definition en_wake (e : Entry) : Entry := {|
  en_id := en_id e; en_work := en_work e; en_running := en_running e; en_pending := true;
  en_closed := en_closed e; en_due := en_due e |}.
Definition en_start (e : Entry) : Entry := {|
  en_id := en_id e; en_work := en_work e; en_running := true; en_pending := false;
  en_closed := en_closed e; en_due := None |}.
Definition en_return (due : option Z) (e : Entry) : Entry := {|
  en_id := en_id e; en_work := en_work e; en_running := false; en_pending := en_pending e;
  en_closed := en_closed e; en_due := due |}.
Definition en_close (e : Entry) : Entry := {|
  en_id := en_id e; en_work := en_work e; en_running := en_running e; en_pending := en_pending e;
  en_closed := true; en_due := en_due e |}.

Definition with_slots (slots : list (option Entry)) (s : Scheduler) : Scheduler := {|
  sc_slots := slots; sc_next := sc_next s; sc_cursor := sc_cursor s; sc_closed := sc_closed s;
  sc_threads := sc_threads s; sc_clock := sc_clock s |}.
Definition with_threads (ts : list (thread run_ref)) (s : Scheduler) : Scheduler := {|
  sc_slots := sc_slots s; sc_next := sc_next s; sc_cursor := sc_cursor s; sc_closed := sc_closed s;
  sc_threads := ts; sc_clock := sc_clock s |}.
Definition with_next (next : Z) (s : Scheduler) : Scheduler := {|
  sc_slots := sc_slots s; sc_next := next; sc_cursor := sc_cursor s; sc_closed := sc_closed s;
  sc_threads := sc_threads s; sc_clock := sc_clock s |}.
Definition with_cursor (cursor : nat) (s : Scheduler) : Scheduler := {|
  sc_slots := sc_slots s; sc_next := sc_next s; sc_cursor := cursor; sc_closed := sc_closed s;
  sc_threads := sc_threads s; sc_clock := sc_clock s |}.

(** Instants are monotonic: a later reading is some time after the last one. *)
Definition with_clock (elapsed : N) (s : Scheduler) : Scheduler := {|
  sc_slots := sc_slots s; sc_next := sc_next s; sc_cursor := sc_cursor s; sc_closed := sc_closed s;
  sc_threads := sc_threads s; sc_clock := sc_clock s + Z.of_N elapsed |}.

Definition entry_at (i : nat) (s : Scheduler) : option Entry := sc_slots s !! i ≫= id.

(** ** Registration *)

(** [with_workers]: [allocated] is whether the slots could be allocated,
    [spawned] whether the i-th thread could be created. *)
Definition Scheduler_new (max_sessions workers : Z) (allocated : bool) (spawned : nat → bool)
    : result SchedulingError Scheduler :=
  if (max_sessions =? 0) || (workers =? 0) || (64 <? workers) then Err Scheduling_Capacity
  else if negb allocated then Err Scheduling_Capacity
  else if forallb spawned (seq 0 (Z.to_nat workers))
  then Ok {| sc_slots := replicate (Z.to_nat max_sessions) None; sc_next := 0; sc_cursor := 0;
             sc_closed := false; sc_threads := replicate (Z.to_nat workers) Ready; sc_clock := 0 |}
  else Err Scheduling_Failed.

(** A registration nobody can wake any more: idle, and its work is gone.
    [alive] is whether a work's strong count is not zero. *)
Definition stale (alive : nat → bool) (e : Entry) : bool :=
  negb (en_running e) && negb (alive (en_work e)).
Definition sweep (alive : nat → bool) (slots : list (option Entry)) : list (option Entry) :=
  (λ slot, match slot with Some e => if stale alive e then None else Some e | None => None end)
    <$> slots.
(** [slots.iter().position(Option::is_none)] *)
Fixpoint position_free (slots : list (option Entry)) : option nat :=
  match slots with
  | [] => None
  | None :: _ => Some O
  | Some _ :: slots => S <$> position_free slots
  end.
Definition register (work : nat) (alive : nat → bool) (s : Scheduler)
    : Scheduler * result SchedulingError (nat * Z) :=
  if sc_closed s then (s, Err Scheduling_Closed)
  else
    let s := with_slots (sweep alive (sc_slots s)) s in
    match position_free (sc_slots s) with
    | None => (s, Err Scheduling_Capacity)
    | Some index =>
      match checked_add u64_max (sc_next s) 1 with
      | None => (s, Err Scheduling_Failed)
      | Some id =>
        (with_slots (<[index := Some (Entry_new id work)]> (sc_slots s)) (with_next id s),
         Ok (index, id))
      end
    end.

(** [Handle::wake] and [Handle::close]; a handle is its slot and its id. *)
Definition wake (index : nat) (id : Z) (choice : nat) (s : Scheduler)
    : Scheduler * result SchedulingError () :=
  if sc_closed s then (s, Err Scheduling_Closed)
  else match entry_at index s with
  | Some e =>
    if (en_id e =? id) && negb (en_closed e)
    then (with_threads (notify_one choice (sc_threads s))
            (with_slots (<[index := Some (en_wake e)]> (sc_slots s)) s), Ok tt)
    else (s, Err Scheduling_Closed)
  | None => (s, Err Scheduling_Closed)
  end.
Definition close (index : nat) (id : Z) (s : Scheduler) : Scheduler :=
  match entry_at index s with
  | Some e =>
    if en_id e =? id
    then with_threads (notify_all (sc_threads s))
           (with_slots (<[index := if en_running e then Some (en_close e) else None]> (sc_slots s)) s)
    else s
  | None => s
  end.

(** [shutdown], up to the join. *)
Definition close_slot (slot : option Entry) : option Entry :=
  match slot with
  | Some e => if en_running e then Some (en_close e) else None
  | None => None
  end.
Definition shutdown (s : Scheduler) : Scheduler := {|
  sc_slots := close_slot <$> sc_slots s; sc_next := sc_next s; sc_cursor := sc_cursor s;
  sc_closed := true; sc_threads := notify_all (sc_threads s); sc_clock := sc_clock s |}.

(** ** Taking work *)

(** What [take]'s loop does with one slot; [upgraded] is whether the weak
    reference could be upgraded, after its count was seen. *)
Inductive verdict :=
  | Skip
  | Forget
  | Start (e : Entry)
  | Later (due : option Z).
Definition due_now (now : Z) (e : Entry) : bool :=
  match en_due e with Some due => due <=? now | None => false end.
Definition examine (now : Z) (alive upgraded : nat → bool) (slot : option Entry) : verdict :=
  match slot with
  | None => Skip
  | Some e =>
    if en_running e || en_closed e then Skip
    else if negb (alive (en_work e)) then Forget
    else if en_pending e || due_now now e
    then if upgraded (en_work e) then Start e else Forget
    else Later (en_due e)
  end.
(** [nearest.map_or(due, |previous| previous.min(due))] *)
Definition earliest (nearest due : option Z) : option Z :=
  match due with
  | Some due => Some (match nearest with Some previous => Z.min previous due | None => due end)
  | None => nearest
  end.

Section take.
Context (now : Z) (alive upgraded : nat → bool) (cursor : nat).

Fixpoint take_loop (n offset : nat) (nearest : option Z) (slots : list (option Entry))
    : list (option Entry) * option run_ref * option Z :=
  match n with
  | O => (slots, None, nearest)
  | S n =>
    let index := (cursor + offset) mod length slots in
    match examine now alive upgraded (slots !! index ≫= id) with
    | Skip => take_loop n (S offset) nearest slots
    | Forget => take_loop n (S offset) nearest (<[index := None]> slots)
    | Start e =>
      (<[index := Some (en_start e)]> slots,
       Some {| rn_index := index; rn_work := en_work e |}, nearest)
    | Later due => take_loop n (S offset) (earliest nearest due) slots
    end
  end%nat.
End take.

(** One turn of [take] by thread [i], which has the lock. *)
Definition take (i : nat) (alive upgraded : nat → bool) (s : Scheduler) : Scheduler :=
  if sc_closed s then with_threads (<[i := Exited]> (sc_threads s)) s
  else
    let count := length (sc_slots s) in
    match take_loop (sc_clock s) alive upgraded (sc_cursor s) count 0 None (sc_slots s) with
    | (slots, Some r, _) =>
      with_threads (<[i := Busy r]> (sc_threads s))
        (with_cursor ((rn_index r + 1) mod count)%nat (with_slots slots s))
    | (slots, None, nearest) =>
      with_threads (<[i := Waiting nearest]> (sc_threads s)) (with_slots slots s)
    end.

(** ** Running *)

(** [run]'s outcome: a panic goes to [failed], and a panic there, or of the
    destructor of the work, retires the registration.  [None] is a panic. *)
Definition outcome (ran failed : option WorkSchedule) (drop_panics : bool) : WorkSchedule :=
  if drop_panics then Finished
  else match ran with Some schedule => schedule | None => default Finished failed end.

(** [Instant]s count from an arbitrary origin in 64-bit seconds. *)
Definition instant_max : Z := (isize_max + 1) * nanos_per_sec - 1.
Definition due_after (schedule : WorkSchedule) (now : Z) : option Z :=
  match schedule with After delay => checked_add instant_max now delay | _ => None end.

Definition is_finished_schedule (s : WorkSchedule) : bool :=
  match s with Finished => true | _ => false end.
(** The lock section after a run. *)
Definition settle (r : run_ref) (schedule : WorkSchedule) (s : Scheduler) : Scheduler :=
  match entry_at (rn_index r) s with
  | Some e =>
    with_slots (<[rn_index r :=
      if en_closed e || is_finished_schedule schedule then None
      else Some (en_return (due_after schedule (sc_clock s)) e)]> (sc_slots s)) s
  | None => s
  end.
Definition finish (i : nat) (r : run_ref) (schedule : WorkSchedule) (s : Scheduler) : Scheduler :=
  let s := settle r schedule s in
  with_threads (notify_all (<[i := Ready]> (sc_threads s))) s.

(** ** Histories *)

Inductive event :=
  | S_register (work : nat) (alive : nat → bool)
  | S_wake (index : nat) (id : Z) (choice : nat)
  | S_close (index : nat) (id : Z)
  | S_shutdown
  | S_take (i : nat) (elapsed : N) (alive upgraded : nat → bool)
  | S_finish (i : nat) (ran failed : option WorkSchedule) (drop_panics : bool) (elapsed : N)
  | S_spurious (i : nat).

Definition step (e : event) (s : Scheduler) : Scheduler :=
  match e with
  | S_register work alive => (register work alive s).1
  | S_wake index id choice => (wake index id choice s).1
  | S_close index id => close index id s
  | S_shutdown => shutdown s
  | S_take i elapsed alive upgraded =>
    match sc_threads s !! i with
    | Some Ready => take i alive upgraded (with_clock elapsed s)
    | _ => s
    end
  | S_finish i ran failed drop_panics elapsed =>
    match sc_threads s !! i with
    | Some (Busy r) => finish i r (outcome ran failed drop_panics) (with_clock elapsed s)
    | _ => s
    end
  | S_spurious i =>
    match sc_threads s !! i with
    | Some (Waiting _) => with_threads (<[i := Ready]> (sc_threads s)) s
    | _ => s
    end
  end.
Definition steps (es : list event) (s : Scheduler) : Scheduler := foldl (flip step) s es.

(** ** Serialization *)

Record serial (s : Scheduler) : Prop := {
  se_nodup : NoDup (rn_index <$> running (sc_threads s));
  se_running r : r ∈ running (sc_threads s) →
    ∃ e, entry_at (rn_index r) s = Some e ∧ en_running e = true ∧ en_work e = rn_work r;
  se_flag i e : entry_at i s = Some e → en_running e = true →
    i ∈ rn_index <$> running (sc_threads s);
  se_ids i e : entry_at i s = Some e → 0 < en_id e <= sc_next s;
  se_unique i j e f :
    entry_at i s = Some e → entry_at j s = Some f → en_id e = en_id f → i = j;
  se_next : 0 <= sc_next s
}.

(** Changes that neither start nor end a run, nor register. *)
Record mild (s s' : Scheduler) : Prop := {
  mi_threads : running (sc_threads s') ≡ₚ running (sc_threads s);
  mi_next : sc_next s <= sc_next s';
  mi_running i e : entry_at i s = Some e → en_running e = true →
    ∃ e', entry_at i s' = Some e' ∧ en_running e' = true ∧ en_work e' = en_work e;
  mi_old i e' : entry_at i s' = Some e' →
    ∃ e, entry_at i s = Some e ∧ en_running e' = en_running e ∧ en_id e' = en_id e
}.
Lemma mild_serial s s' : mild s s' → serial s → serial s'.
Proof.
  intros [Ht Hn Hr Ho] [H1 H2 H3 H4 H5 H6]. split.
  - by rewrite Ht.
  - intros r Hin. rewrite Ht in Hin. destruct (H2 r Hin) as (e & He & Hru & Hw).
    destruct (Hr _ _ He Hru) as (e' & He' & Hru' & Hw'). exists e'. by rewrite Hw'.
  - intros i e' He' Hru'. destruct (Ho i e' He') as (e & He & Hru & _). rewrite Ht.
    apply (H3 i e He). by rewrite <-Hru.
  - intros i e' He'. destruct (Ho i e' He') as (e & He & _ & Hid). rewrite Hid.
    specialize (H4 i e He). lia.
  - intros i j e' f' He' Hf' Hid. destruct (Ho i e' He') as (e & He & _ & Hie).
    destruct (Ho j f' Hf') as (f & Hf & _ & Hif). apply (H5 i j e f He Hf). congruence.
  - lia.
Qed.

Lemma entry_insert i j x s :
  (i < length (sc_slots s))%nat →
  entry_at j (with_slots (<[i := x]> (sc_slots s)) s) = if decide (i = j) then x else entry_at j s.
Proof.
  intros Hi. unfold entry_at. simpl. destruct (decide (i = j)) as [->|Hn].
  - by rewrite list_lookup_insert_eq.
  - by rewrite list_lookup_insert_ne.
Qed.
Lemma entry_bound i s e : entry_at i s = Some e → (i < length (sc_slots s))%nat.
Proof.
  unfold entry_at. destruct (sc_slots s !! i) eqn:E; [|done]. intros _. by eapply lookup_lt_Some.
Qed.

Lemma position_free_spec slots i : position_free slots = Some i → slots !! i = Some None.
Proof.
  revert i. induction slots as [|[e|] slots IH]; intros i; simpl; [done| |by intros [= <-]].
  destruct (position_free slots) as [j|]; [|done]. intros [= <-]. simpl. auto.
Qed.
Lemma entry_sweep alive i s :
  entry_at i (with_slots (sweep alive (sc_slots s)) s)
  = entry_at i s ≫= λ e, if stale alive e then None else Some e.
Proof.
  unfold entry_at, sweep. simpl. rewrite list_lookup_fmap.
  by destruct (sc_slots s !! i) as [[e|]|].
Qed.
Lemma mild_sweep alive s : mild s (with_slots (sweep alive (sc_slots s)) s).
Proof.
  split; try done; intros i e.
  - intros He Hr. rewrite entry_sweep, He. simpl. unfold stale. rewrite Hr. by exists e.
  - rewrite entry_sweep. destruct (entry_at i s) as [e0|]; simpl; [|done].
    destruct (stale alive e0); [done|]. intros [= <-]. by exists e0.
Qed.
Lemma serial_register work alive s : serial s → serial (register work alive s).1.
Proof.
  intros Hs. unfold register. destruct (sc_closed s); [done|].
  pose proof (mild_serial _ _ (mild_sweep alive s) Hs) as Hs'.
  set (s' := with_slots (sweep alive (sc_slots s)) s) in *. clearbody s'. clear Hs.
  destruct (position_free (sc_slots s')) as [index|] eqn:Ei; [|done]. apply position_free_spec in Ei.
  destruct (checked_add u64_max (sc_next s') 1) as [id|] eqn:En; [|done].
  unfold checked_add in En. destruct (_ <=? _) in En; [|done]. injection En as <-. simpl.
  destruct Hs' as [H1 H2 H3 H4 H5 H6].
  assert (entry_at index s' = None) as Hnone by (unfold entry_at; by rewrite Ei).
  set (t := with_slots (<[index:=Some (Entry_new (sc_next s' + 1) work)]> (sc_slots s'))
              (with_next (sc_next s' + 1) s')).
  assert (∀ j, entry_at j t = if decide (index = j) then Some (Entry_new (sc_next s' + 1) work)
                              else entry_at j s') as Ht.
  { intros j. apply (entry_insert index j _ (with_next (sc_next s' + 1) s')).
    by eapply lookup_lt_Some. }
  split; simpl; try done; try lia.
  - intros r Hr. destruct (H2 r Hr) as (e & He & ? & ?). exists e. rewrite Ht, decide_False; [done|].
    intros ->. by rewrite Hnone in He.
  - intros i e. rewrite Ht. case_decide; [by intros [= <-]|]. apply H3.
  - intros i e. rewrite Ht. case_decide; [intros [= <-]; simpl; lia|]. intros He.
    specialize (H4 i e He). lia.
  - intros i j e f. rewrite !Ht. do 2 case_decide; simplify_eq; try done.
    + intros [= <-] Hf Hid. specialize (H4 j f Hf). simpl in Hid. lia.
    + intros He [= <-] Hid. specialize (H4 i e He). simpl in Hid. lia.
    + apply H5.
Qed.

#[export] Instance mild_refl : Reflexive mild.
Proof. intros s. split; naive_solver lia. Qed.
(** A change of one slot, and of the threads but for what they run. *)
Lemma mild_change index e x ts s :
  entry_at index s = Some e →
  (en_running e = true → ∃ e', x = Some e' ∧ en_running e' = true ∧ en_work e' = en_work e) →
  (∀ e', x = Some e' → en_running e' = en_running e ∧ en_id e' = en_id e) →
  running ts ≡ₚ running (sc_threads s) →
  mild s (with_threads ts (with_slots (<[index := x]> (sc_slots s)) s)).
Proof.
  intros He Hr Ho Ht. pose proof (entry_bound _ _ _ He) as Hb.
  set (t := with_threads _ _).
  assert (∀ i, entry_at i t = if decide (index = i) then x else entry_at i s) as Hat
    by (intros i; by apply entry_insert).
  split; [done|done| |]; intros i e0; rewrite Hat; case_decide; subst.
  - rewrite He. intros [= <-]. auto.
  - by exists e0.
  - intros ->. exists e. by destruct (Ho e0 eq_refl).
  - by exists e0.
Qed.
Lemma mild_wake index id choice s : mild s (wake index id choice s).1.
Proof.
  unfold wake. destruct (sc_closed s); [done|]. destruct (entry_at index s) as [e|] eqn:He; [|done].
  destruct (_ && _); [|done]. simpl. apply (mild_change _ e); [done| | |apply notify_one_running].
  - by exists (en_wake e).
  - by intros e' [= <-].
Qed.
Lemma mild_close index id s : mild s (close index id s).
Proof.
  unfold close. destruct (entry_at index s) as [e|] eqn:He; [|done]. destruct (_ =? _); [|done].
  apply (mild_change _ e); [done| | |by rewrite notify_all_running].
  - intros Hr. exists (en_close e). by rewrite Hr.
  - intros e'. destruct (en_running e) eqn:Hr; [|done]. by intros [= <-].
Qed.
Lemma entry_shutdown i s : entry_at i (shutdown s) = close_slot (entry_at i s).
Proof.
  unfold entry_at. simpl. rewrite list_lookup_fmap. by destruct (sc_slots s !! i) as [[e|]|].
Qed.
Lemma mild_shutdown s : mild s (shutdown s).
Proof.
  split; simpl; [by rewrite notify_all_running|done| |]; intros i e; rewrite entry_shutdown.
  - intros -> Hr. simpl. rewrite Hr. by exists (en_close e).
  - destruct (entry_at i s) as [e0|]; simpl; [|done]. destruct (en_running e0) eqn:Hr; [|done].
    intros [= <-]. by exists e0.
Qed.

(** *** The scan *)

Section scan.
Context (now : Z) (alive upgraded : nat → bool) (cursor : nat).
Abbreviation loop := (take_loop now alive upgraded cursor).
Abbreviation look := (examine now alive upgraded).
Definition slot_at (slots : list (option Entry)) (offset : nat) : nat :=
  ((cursor + offset) mod length slots)%nat.

Lemma slot_at_lt slots o : (0 < length slots)%nat → (slot_at slots o < length slots)%nat.
Proof. intros H. unfold slot_at. apply Nat.mod_upper_bound. lia. Qed.
Lemma slot_at_insert slots i x o : slot_at (<[i := x]> slots) o = slot_at slots o.
Proof. unfold slot_at. by rewrite length_insert. Qed.
(** Distinct offsets within one round are distinct slots. *)
Lemma slot_at_inj slots o o' :
  (o < length slots)%nat → (o' < length slots)%nat → slot_at slots o = slot_at slots o' → o = o'.
Proof.
  unfold slot_at. intros Ho Ho' H.
  assert (∀ a b, (a <= b)%nat → (b < length slots)%nat →
            ((cursor + a) mod length slots = (cursor + b) mod length slots)%nat → a = b) as Hle.
  { intros a b Hab Hb E. set (n := length slots) in *.
    pose proof (Nat.div_mod (cursor + a) n ltac:(lia)). pose proof (Nat.div_mod (cursor + b) n ltac:(lia)).
    rewrite E in H0.
    assert (b - a = n * ((cursor + b) / n - (cursor + a) / n))%nat as Hd by nia.
    destruct ((cursor + b) / n - (cursor + a) / n)%nat eqn:Eq; [lia|nia]. }
  destruct (Nat.le_ge_cases o o'); [by apply Hle|]. symmetry. apply Hle; done.
Qed.

(** What a forgotten slot was. *)
Definition forgotten (slot slot' : option Entry) : Prop :=
  slot' = slot ∨ look slot = Forget ∧ slot' = None.

Record scanned (n offset : nat) (nearest : option Z) (slots : list (option Entry))
    (res : list (option Entry) * option run_ref * option Z) : Prop := {
  sd_length : length res.1.1 = length slots;
  sd_others i x : res.1.1 !! i = Some x →
    (∃ y, slots !! i = Some y ∧ forgotten y x)
    ∨ ∃ r, res.1.2 = Some r ∧ rn_index r = i;
  sd_found r : res.1.2 = Some r →
    ∃ o e, (offset <= o < offset + n)%nat ∧ rn_index r = slot_at slots o
      ∧ slots !! rn_index r = Some (Some e) ∧ look (Some e) = Start e ∧ rn_work r = en_work e
      ∧ res.1.1 !! rn_index r = Some (Some (en_start e))
      ∧ ∀ o' e', (offset <= o' < o)%nat → look (slots !! slot_at slots o' ≫= id) ≠ Start e';
  sd_none : res.1.2 = None →
    ∀ o, (offset <= o < offset + n)%nat →
      match look (slots !! slot_at slots o ≫= id) with
      | Skip => True
      | Forget => res.1.1 !! slot_at slots o = Some None
      | Start _ => False
      | Later due => ∀ t, due = Some t → ∃ d, res.2 = Some d ∧ d <= t
      end;
  sd_nearest d : res.1.2 = None → nearest = Some d → ∃ d', res.2 = Some d' ∧ d' <= d
}.

(** One more slot that does not stop the scan. *)
Lemma scanned_step n offset nearest nearest' slots res :
  (∀ e, look (slots !! slot_at slots offset ≫= id) ≠ Start e) →
  (res.1.2 = None → match look (slots !! slot_at slots offset ≫= id) with
   | Skip => True
   | Forget => res.1.1 !! slot_at slots offset = Some None
   | Start _ => False
   | Later due => ∀ t, due = Some t → ∃ d, nearest' = Some d ∧ d <= t
   end) →
  (∀ d, nearest = Some d → ∃ d', nearest' = Some d' ∧ d' <= d) →
  scanned n (S offset) nearest' slots res → scanned (S n) offset nearest slots res.
Proof.
  intros Hs Hlook Hnear [H1 H2 H3 H4 H5]. split; [done|done| | |].
  - intros r Hr. destruct (H3 r Hr) as (o & e & Ho & Hi & He & Hst & Hw & Hnew & Hbefore).
    exists o, e. split; [lia|]. do 5 (split; [done|]). intros o' e' Ho'.
    destruct (decide (o' = offset)) as [->|]; [apply Hs|]. apply Hbefore. lia.
  - intros Hn o Ho. destruct (decide (o = offset)) as [->|]; [|apply H4; [done|lia]].
    specialize (Hlook Hn). destruct (look _); try done.
    intros t Ht. destruct (Hlook t Ht) as (d & Hd & Hle). destruct (H5 d Hn Hd) as (d' & Hd' & Hle').
    exists d'. split; [done|lia].
  - intros d Hn Hd. destruct (Hnear d Hd) as (d1 & Hd1 & Hle).
    destruct (H5 d1 Hn Hd1) as (d2 & Hd2 & Hle2). exists d2. split; [done|lia].
Qed.
(** A scan of slots in which the slot before it was forgotten. *)
Lemma scanned_forget n offset nearest slots res :
  let slots' := <[slot_at slots offset := None]> slots in
  (n + S offset <= length slots)%nat →
  look (slots !! slot_at slots offset ≫= id) = Forget →
  scanned n (S offset) nearest slots' res → scanned n (S offset) nearest slots res.
Proof.
  intros slots' Hn Hforget [H1 H2 H3 H4 H5].
  assert (slot_at slots offset < length slots)%nat as Hlt by (apply slot_at_lt; lia).
  assert (∀ o, slot_at slots' o = slot_at slots o) as Hat by (intros; apply slot_at_insert).
  assert (∀ o, (S offset <= o < S offset + n)%nat →
            slots' !! slot_at slots o = slots !! slot_at slots o) as Hsame.
  { intros o Ho. apply list_lookup_insert_ne. intros E. apply slot_at_inj in E; lia. }
  assert (length slots' = length slots) as Hlen by apply length_insert.
  split.
  - by rewrite H1.
  - intros i x Hx. destruct (H2 i x Hx) as [(y & Hy & Hf)|?]; [|by right]. left.
    destruct (decide (slot_at slots offset = i)) as [<-|Hne].
    + unfold slots' in Hy. rewrite list_lookup_insert_eq in Hy by done. injection Hy as <-.
      destruct (slots !! slot_at slots offset) as [y|] eqn:Ey; [|done]. exists y. split; [done|].
      right. simpl in Hforget. split; [done|]. by destruct Hf as [->|[? _]].
    + exists y. unfold slots' in Hy. rewrite list_lookup_insert_ne in Hy by done. done.
  - intros r Hr. destruct (H3 r Hr) as (o & e & Ho & Hi & He & Hst & Hw & Hnew & Hbefore).
    rewrite Hat in Hi. exists o, e. split; [done|]. split; [done|].
    split; [rewrite Hi in *; by rewrite <-Hsame|]. do 3 (split; [done|]).
    intros o' e' Ho'. rewrite <-Hsame by lia. rewrite <-Hat. by apply Hbefore.
  - intros Hnone o Ho. specialize (H4 Hnone o Ho). rewrite Hat, Hsame in H4 by done. exact H4.
  - exact H5.
Qed.
Lemma take_loop_forgotten n offset nearest slots i :
  slots !! i = Some None →
  (loop n offset nearest slots).1.1 !! i = Some None
  ∨ ∃ r, (loop n offset nearest slots).1.2 = Some r ∧ rn_index r = i.
Proof.
  revert offset nearest slots. induction n as [|n IH]; intros offset nearest slots Hi; [by left|].
  simpl. destruct (look _) as [| |e|due]; try by apply IH.
  - apply IH. destruct (decide (((cursor + offset) mod length slots)%nat = i)) as [<-|].
    + apply list_lookup_insert_eq. by eapply lookup_lt_Some.
    + by rewrite list_lookup_insert_ne.
  - simpl. destruct (decide (((cursor + offset) mod length slots)%nat = i)) as [<-|]; [by right; eexists|].
    left. by rewrite list_lookup_insert_ne.
Qed.

Lemma take_loop_scanned n offset nearest slots :
  (n + offset <= length slots)%nat → scanned n offset nearest slots (loop n offset nearest slots).
Proof.
  revert offset nearest slots. induction n as [|n IH]; intros offset nearest slots Hn.
  { split; simpl; try done; try lia.
    - intros i x Hx. left. exists x. split; [done|by left].
    - intros d _ Hd. exists d. split; [done|lia]. }
  assert (slot_at slots offset < length slots)%nat as Hlt by (apply slot_at_lt; lia).
  simpl. fold (slot_at slots offset). destruct (look _) as [| |e|due] eqn:El.
  - apply (scanned_step _ _ _ nearest); [by rewrite El|by rewrite El| |apply IH; lia].
    intros d Hd. exists d. split; [done|lia].
  - set (slots' := <[slot_at slots offset := None]> slots).
    apply (scanned_step _ _ _ nearest); [by rewrite El| | |].
    + rewrite El. intros Hnone.
      destruct (take_loop_forgotten n (S offset) nearest slots' (slot_at slots offset)) as [H|(r & H & _)];
        [by apply list_lookup_insert_eq|done|by rewrite Hnone in H].
    + intros d Hd. exists d. split; [done|lia].
    + apply (scanned_forget _ _ _ slots); [lia|done|]. apply IH. unfold slots'. rewrite length_insert. lia.
  - destruct (slots !! slot_at slots offset) as [[e0|]|] eqn:Es; simpl in El; try done.
    assert (e0 = e) as ->.
    { revert El. clear. by repeat case_match; intros; simplify_eq. }
    split; simpl; try done.
    + apply length_insert.
    + intros i x Hx. destruct (decide (slot_at slots offset = i)) as [<-|Hne]; [by right; eexists|].
      left. exists x. rewrite list_lookup_insert_ne in Hx by done. split; [done|by left].
    + intros r [= <-]. exists offset, e. simpl. split; [lia|]. split; [done|]. split; [done|].
      split; [done|]. split; [done|]. split; [by apply list_lookup_insert_eq|lia].
  - apply (scanned_step _ _ _ (earliest nearest due)); [by rewrite El| | |apply IH; lia].
    + rewrite El. intros _ t ->. destruct nearest as [d|]; simpl; eexists; (split; [done|lia]).
    + intros d ->. destruct due as [t|]; simpl; eexists; (split; [done|lia]).
Qed.
End scan.

(** Whether the pool would run this slot now, but for the life of its work. *)
Definition idle_open (e : Entry) : bool := negb (en_running e) && negb (en_closed e).
Lemma examine_Start now alive upgraded slot e :
  examine now alive upgraded slot = Start e →
  slot = Some e ∧ idle_open e = true ∧ (en_pending e = true ∨ due_now now e = true).
Proof.
  unfold examine, idle_open. destruct slot as [e0|]; [|done].
  destruct (en_running e0) eqn:Er, (en_closed e0) eqn:Ec; simpl; try done.
  destruct (alive _); simpl; [|done].
  destruct (en_pending e0 || due_now now e0) eqn:Ep; [|done].
  destruct (upgraded _); [|done]. intros [= <-]. apply orb_true_iff in Ep. by rewrite Er, Ec.
Qed.
Lemma examine_Forget now alive upgraded slot :
  examine now alive upgraded slot = Forget → ∃ e, slot = Some e ∧ idle_open e = true.
Proof.
  unfold examine, idle_open. destruct slot as [e0|]; [|done].
  destruct (en_running e0) eqn:Er, (en_closed e0) eqn:Ec; simpl; try done.
  intros _. exists e0. by rewrite Er, Ec.
Qed.

#[local] Arguments examine : simpl never.

(** The slots after a scan. *)
Definition scan_slots alive upgraded s :=
  take_loop (sc_clock s) alive upgraded (sc_cursor s) (length (sc_slots s)) 0 None (sc_slots s).
Lemma look_spec alive upgraded s :
  scanned (sc_clock s) alive upgraded (sc_cursor s) (length (sc_slots s)) 0 None (sc_slots s)
    (scan_slots alive upgraded s).
Proof. apply take_loop_scanned. lia. Qed.

Lemma entry_Some i s e : entry_at i s = Some e ↔ sc_slots s !! i = Some (Some e).
Proof. unfold entry_at. destruct (sc_slots s !! i) as [[e0|]|]; simpl; naive_solver. Qed.

(** Every entry after a scan is the entry before it, or the one started. *)
Lemma scan_entry alive upgraded s i e' :
  (scan_slots alive upgraded s).1.1 !! i = Some (Some e') →
  entry_at i s = Some e'
  ∨ ∃ e r, (scan_slots alive upgraded s).1.2 = Some r ∧ rn_index r = i
           ∧ entry_at i s = Some e ∧ e' = en_start e ∧ rn_work r = en_work e
           ∧ examine (sc_clock s) alive upgraded (Some e) = Start e.
Proof.
  intros Hi. destruct (look_spec alive upgraded s) as [_ Hoth Hfound _ _].
  destruct (Hoth i _ Hi) as [(y & Hy & [<-|[_ ?]])|(r & Hr & <-)]; [by left; apply entry_Some|done|].
  right. destruct (Hfound r Hr) as (o & e & _ & _ & He & Hst & Hw & Hnew & _).
  exists e, r. rewrite Hi in Hnew. injection Hnew as ->. by rewrite entry_Some.
Qed.
(** A running or closed entry is left alone. *)
Lemma scan_keeps alive upgraded s i e :
  entry_at i s = Some e → idle_open e = false →
  (scan_slots alive upgraded s).1.1 !! i = Some (Some e).
Proof.
  intros He Hio. destruct (look_spec alive upgraded s) as [Hlen Hoth Hfound _ _].
  assert (i < length (scan_slots alive upgraded s).1.1)%nat as [x Hx]%lookup_lt_is_Some
    by (rewrite Hlen; by eapply entry_bound).
  apply entry_Some in He.
  destruct (Hoth i x Hx) as [(y & Hy & Hf)|(r & Hr & <-)].
  - rewrite Hy in He. injection He as ->. destruct Hf as [->|[Hf _]]; [done|].
    apply examine_Forget in Hf as (e0 & [= <-] & Hf). congruence.
  - destruct (Hfound r Hr) as (o & e0 & _ & _ & He0 & Hst & _).
    apply examine_Start in Hst as (_ & Hst & _). rewrite He0 in He. injection He as ->. congruence.
Qed.

Lemma running_insert_idle (ts : list (thread run_ref)) i t t' :
  ts !! i = Some t → busy_with t = [] → busy_with t' = [] → running (<[i := t']> ts) ≡ₚ running ts.
Proof.
  intros Hi Ht Ht'. pose proof (running_insert ts i t t' Hi) as H.
  by rewrite Ht, Ht', !app_nil_r in H.
Qed.
Lemma mild_threads ts s : running ts ≡ₚ running (sc_threads s) → mild s (with_threads ts s).
Proof. intros Ht. split; naive_solver lia. Qed.

Lemma serial_take i alive upgraded s :
  sc_threads s !! i = Some Ready → serial s → serial (take i alive upgraded s).
Proof.
  intros Hi Hs. unfold take. destruct (sc_closed s).
  { apply (mild_serial s); [|done]. apply mild_threads. by eapply running_insert_idle. }
  fold (scan_slots alive upgraded s).
  pose proof (scan_entry alive upgraded s) as Hentry.
  pose proof (scan_keeps alive upgraded s) as Hkeep.
  pose proof (sd_found _ _ _ _ _ _ _ _ _ (look_spec alive upgraded s)) as Hfound.
  destruct (scan_slots alive upgraded s) as [[slots [r|]] nearest]; simpl in *.
  - destruct (Hfound r eq_refl) as (o & e & _ & _ & He & Hst & Hw & Hnew & _). clear Hfound.
    apply examine_Start in Hst as (_ & Hio & _). apply entry_Some in He.
    destruct Hs as [H1 H2 H3 H4 H5 H6].
    assert (rn_index r ∉ rn_index <$> running (sc_threads s)) as Hfresh.
    { intros (r' & Hr' & Hin)%list_elem_of_fmap. destruct (H2 r' Hin) as (e' & He' & Hru & _).
      rewrite <-Hr', He in He'. injection He' as <-. unfold idle_open in Hio. by rewrite Hru in Hio. }
    pose proof (running_insert _ i _ (Busy r) Hi) as Hrun. simpl in Hrun. rewrite app_nil_r in Hrun.
    split; simpl; try done.
    + rewrite Hrun, fmap_app. simpl. apply NoDup_app. split; [done|]. split; [|repeat constructor; set_solver].
      intros x Hx. rewrite list_elem_of_singleton. by intros ->.
    + intros r'. rewrite Hrun, elem_of_app, list_elem_of_singleton. intros [Hin| ->].
      * destruct (H2 r' Hin) as (e' & He' & Hru & Hwk). exists e'. split; [|done]. apply entry_Some. simpl.
        apply Hkeep; [done|]. unfold idle_open. by rewrite Hru.
      * exists (en_start e). by rewrite entry_Some.
    + intros j e' He' Hru. apply entry_Some in He'. simpl in He'. rewrite Hrun, fmap_app, elem_of_app. simpl.
      destruct (Hentry j e' He') as [Hj|(e1 & r1 & [= <-] & <- & _)]; [left; by eapply H3|].
      right. by rewrite list_elem_of_singleton.
    + intros j e' He'. apply entry_Some in He'. simpl in He'.
      destruct (Hentry j e' He') as [Hj|(e1 & r1 & _ & _ & Hj & -> & _)]; exact (H4 j _ Hj).
    + intros j k e1 e2 He1 He2 Hid. apply entry_Some in He1, He2. simpl in He1, He2.
      assert (∀ j e1, slots !! j = Some (Some e1) → ∃ f, entry_at j s = Some f ∧ en_id e1 = en_id f) as Hold.
      { intros j0 e0 He0. destruct (Hentry j0 e0 He0) as [Hj|(f & r1 & _ & _ & Hj & -> & _)];
          by eexists. }
      destruct (Hold j e1 He1) as (f1 & Hf1 & Hi1), (Hold k e2 He2) as (f2 & Hf2 & Hi2).
      apply (H5 j k f1 f2); congruence.
  - apply (mild_serial s); [|done]. split; simpl; [by eapply running_insert_idle|done| |].
    + intros j e He Hru. exists e. split; [|done]. apply entry_Some, Hkeep; [done|].
      unfold idle_open. by rewrite Hru.
    + intros j e He. apply entry_Some in He. simpl in He.
      destruct (Hentry j e He) as [Hj|(e1 & r & ? & _)]; [by exists e|done].
Qed.

(** *** The end of a run *)

(** What the slot of a finished run holds. *)
Definition settled (schedule : WorkSchedule) (now : Z) (e : Entry) : option Entry :=
  if en_closed e || is_finished_schedule schedule then None
  else Some (en_return (due_after schedule now) e).
Lemma finish_entry i r schedule e j s :
  entry_at (rn_index r) s = Some e →
  entry_at j (finish i r schedule s)
  = if decide (rn_index r = j) then settled schedule (sc_clock s) e else entry_at j s.
Proof.
  intros He. unfold finish, settle, entry_at at 1. rewrite He. simpl.
  apply (entry_insert (rn_index r) j _ s). by eapply entry_bound.
Qed.
Lemma finish_no_entry i r schedule j s :
  entry_at (rn_index r) s = None → entry_at j (finish i r schedule s) = entry_at j s.
Proof. intros He. unfold finish, settle. by rewrite He. Qed.
Lemma finish_threads i r schedule s :
  sc_threads (finish i r schedule s) = notify_all (<[i := Ready]> (sc_threads s)).
Proof. unfold finish, settle. by destruct (entry_at _ _). Qed.
Lemma finish_closed i r schedule s : sc_closed (finish i r schedule s) = sc_closed s.
Proof. unfold finish, settle. by destruct (entry_at _ _). Qed.
Lemma finish_next i r schedule s : sc_next (finish i r schedule s) = sc_next s.
Proof. unfold finish, settle. by destruct (entry_at _ _). Qed.

Lemma serial_finish i r schedule s :
  sc_threads s !! i = Some (Busy r) → serial s → serial (finish i r schedule s).
Proof.
  intros Hi [H1 H2 H3 H4 H5 H6].
  pose proof (running_insert _ i _ Ready Hi) as Hrun. simpl in Hrun. rewrite app_nil_r in Hrun.
  destruct (H2 r) as (e & He & Hru & Hw); [rewrite <-Hrun; set_solver|].
  pose proof (finish_entry i r schedule e) as Hat.
  rewrite <-Hrun, fmap_app in H1. apply NoDup_app in H1 as (Hnd & Hnin & _).
  assert (rn_index r ∉ rn_index <$> running (<[i := Ready]> (sc_threads s))) as Hfree.
  { intros H. apply (Hnin _ H). by apply list_elem_of_singleton. }
  assert (∀ e', settled schedule (sc_clock s) e = Some e' → en_running e' = false ∧ en_id e' = en_id e) as Hset.
  { unfold settled. intros e'. destruct (_ || _); [done|]. by intros [= <-]. }
  assert (∀ j e', entry_at j (finish i r schedule s) = Some e' →
            ∃ f, entry_at j s = Some f ∧ en_id e' = en_id f) as Hold.
  { intros j e'. rewrite Hat by done. case_decide as Hj; [subst j|by eexists].
    intros (_ & Hid)%Hset. by exists e. }
  split; rewrite ?finish_threads, ?finish_next, ?notify_all_running; try done.
  - intros r' Hin. rewrite Hat by done. rewrite decide_False.
    + apply H2. rewrite <-Hrun. set_solver.
    + intros Hix. apply Hfree. rewrite Hix. apply list_elem_of_fmap. eauto.
  - intros j e'. rewrite Hat by done. case_decide as Hj; [intros (Hf & _)%Hset; congruence|].
    intros He' Hru'. specialize (H3 j e' He' Hru'). rewrite <-Hrun, fmap_app, elem_of_app in H3.
    destruct H3 as [|H3]; [done|]. simpl in H3. apply list_elem_of_singleton in H3. congruence.
  - intros j e' (f & Hf & ->)%Hold. by apply (H4 j).
  - intros j k e1 e2 (f1 & Hf1 & Hi1)%Hold (f2 & Hf2 & Hi2)%Hold Hid.
    apply (H5 j k f1 f2 Hf1 Hf2). congruence.
Qed.

Lemma mild_clock elapsed s : mild s (with_clock elapsed s).
Proof. split; naive_solver lia. Qed.
Lemma serial_step e s : serial s → serial (step e s).
Proof.
  intros Hs. destruct e as [work alive|index id choice|index id| |i elapsed alive upgraded
                           |i ran failed drop_panics elapsed|i]; simpl.
  - by apply serial_register.
  - by eapply mild_serial, Hs; apply mild_wake.
  - by eapply mild_serial, Hs; apply mild_close.
  - by eapply mild_serial, Hs; apply mild_shutdown.
  - destruct (sc_threads s !! i) as [[| | |]|] eqn:Hi; try done.
    apply serial_take; [done|]. by eapply mild_serial, Hs; apply mild_clock.
  - destruct (sc_threads s !! i) as [[| |r|]|] eqn:Hi; try done.
    apply serial_finish; [done|]. by eapply mild_serial, Hs; apply mild_clock.
  - destruct (sc_threads s !! i) as [[|d| |]|] eqn:Hi; try done.
    eapply mild_serial, Hs. apply mild_threads. by eapply running_insert_idle.
Qed.
Lemma serial_steps es s : serial s → serial (steps es s).
Proof. revert s. induction es as [|e es IH]; intros s Hs; [done|]. by apply IH, serial_step. Qed.

(** ** Wakeups *)

(** An idle, open registration with a wake to serve. *)
Definition entry_ready (e : Entry) : bool := idle_open e && en_pending e.
Definition slot_ready (slot : option Entry) : bool :=
  match slot with Some e => entry_ready e | None => false end.
(** A waiter whose timeout has not passed. *)
Definition asleep (clock : Z) (t : thread run_ref) : bool :=
  match t with
  | Waiting (Some due) => clock <? due
  | Waiting None => true
  | _ => false
  end.

Record attentive (s : Scheduler) : Prop := {
  at_awake : (0 < count (asleep (sc_clock s)) (sc_threads s))%nat →
    (count slot_ready (sc_slots s) <= count is_ready (sc_threads s))%nat;
  at_timely j d i e t :
    sc_threads s !! j = Some (Waiting d) → entry_at i s = Some e → idle_open e = true →
    en_due e = Some t → ∃ d', d = Some d' ∧ d' <= t;
  at_open : (0 < count is_waiting (sc_threads s))%nat → sc_closed s = false;
  at_exited : (0 < count is_exited (sc_threads s))%nat → sc_closed s = true;
  (** only a running registration is kept when it is closed *)
  at_closing i e : entry_at i s = Some e → en_closed e = true → en_running e = true;
  at_closed i e : sc_closed s = true → entry_at i s = Some e → en_closed e = true
}.

Lemma asleep_waiting clock t : asleep clock t = true → is_waiting t = true.
Proof. by destruct t. Qed.
Lemma asleep_count clock ts : (count (asleep clock) ts <= count is_waiting ts)%nat.
Proof. apply count_le. intros i y Hi Hy. exists y. split; [done|]. by eapply asleep_waiting. Qed.
Lemma none_asleep clock ts : count is_waiting ts = 0%nat → count (asleep clock) ts = 0%nat.
Proof. pose proof (asleep_count clock ts). lia. Qed.

(** The slots make no more demands than before. *)
Record eased (s s' : Scheduler) : Prop := {
  ea_entry i e' : entry_at i s' = Some e' →
    en_closed e' = true ∧ en_running e' = true
    ∨ sc_closed s = false ∧ en_closed e' = false
      ∧ (entry_ready e' = true → ∃ e, entry_at i s = Some e ∧ entry_ready e = true)
      ∧ (∀ t, idle_open e' = true → en_due e' = Some t →
           ∃ e, entry_at i s = Some e ∧ idle_open e = true ∧ en_due e = Some t);
  ea_clock : sc_clock s <= sc_clock s'
}.
Lemma attentive_split s i e :
  attentive s → entry_at i s = Some e →
  en_closed e = true ∧ en_running e = true ∨ sc_closed s = false ∧ en_closed e = false.
Proof.
  intros Ha He. destruct (en_closed e) eqn:Ec.
  - left. split; [done|]. by apply (at_closing _ Ha i).
  - right. split; [|done]. destruct (sc_closed s) eqn:Hc; [|done].
    by rewrite (at_closed _ Ha i e Hc He) in Ec.
Qed.
Lemma eased_same s s' : attentive s → sc_slots s' = sc_slots s → sc_clock s <= sc_clock s' → eased s s'.
Proof.
  intros Ha Hs Hc. split; [|done]. intros i e. unfold entry_at at 1. rewrite Hs. intros He.
  destruct (attentive_split s i e Ha He) as [?|[? ?]]; [by left|right].
  split; [done|]. split; [done|]. split; intros; by eexists.
Qed.
Lemma eased_ready s s' :
  eased s s' → (count slot_ready (sc_slots s') <= count slot_ready (sc_slots s))%nat.
Proof.
  intros [He _]. apply count_le. intros i [e'|] Hi Hr; [|done].
  apply entry_Some in Hi. simpl in Hr. destruct (He i e' Hi) as [[Hcl Hru]|(_ & _ & Hready & _)].
  - unfold entry_ready, idle_open in Hr. by rewrite Hru in Hr.
  - destruct (Hready Hr) as (e & Hie & Hre). exists (Some e). by rewrite <-entry_Some.
Qed.
(** The threads after a change of the slots: nobody new waits. *)
Lemma attentive_eased s s' :
  attentive s → eased s s' → sc_closed s' = sc_closed s →
  (count is_ready (sc_threads s) <= count is_ready (sc_threads s'))%nat →
  (∀ j d, sc_threads s' !! j = Some (Waiting d) → sc_threads s !! j = Some (Waiting d)) →
  (count is_exited (sc_threads s') <= count is_exited (sc_threads s))%nat →
  attentive s'.
Proof.
  intros Ha He Hc Hr Hw Hx. pose proof (eased_ready _ _ He) as Hready.
  assert (∀ f : thread run_ref → bool, (∀ t, f t = true → is_waiting t = true) →
            (count f (sc_threads s') <= count f (sc_threads s))%nat) as Hle.
  { intros f Hf. apply count_le. intros i y Hi Hy. exists y. split; [|done].
    specialize (Hf y Hy). destruct y; try done. by apply Hw. }
  destruct He as [Hen Hclock].
  assert (count (asleep (sc_clock s')) (sc_threads s') <= count (asleep (sc_clock s)) (sc_threads s))%nat
    as Hsl.
  { etrans; [apply Hle, asleep_waiting|]. apply count_le. intros i y Hi Hy. exists y. split; [done|].
    destruct y as [|[d|]| |]; simpl in *; try done. to_props. lia. }
  split.
  - intros H. pose proof (at_awake s Ha). lia.
  - intros j d i e' t Hj Hi Hio Hd. destruct (Hen i e' Hi) as [[_ Hru]|(_ & _ & _ & Hdue)].
    { unfold idle_open in Hio. by rewrite Hru in Hio. }
    destruct (Hdue t Hio Hd) as (e & He & Hio' & Hd'). eapply (at_timely s Ha); eauto.
  - intros H. rewrite Hc. apply (at_open s Ha). pose proof (Hle is_waiting (λ _ H, H)). lia.
  - intros H. rewrite Hc. apply (at_exited s Ha). lia.
  - intros i e' Hi Hcl. destruct (Hen i e' Hi) as [[_ Hru]|(_ & Hop & _)]; congruence.
  - intros i e' Hcl Hi. destruct (Hen i e' Hi) as [[? _]|(? & _)]; congruence.
Qed.
(** Everybody is notified. *)
Lemma attentive_notify s ts :
  count is_waiting ts = 0%nat → ((0 < count is_exited ts)%nat → sc_closed s = true) →
  (∀ i e, entry_at i s = Some e → en_closed e = true → en_running e = true) →
  (∀ i e, sc_closed s = true → entry_at i s = Some e → en_closed e = true) →
  sc_threads s = ts → attentive s.
Proof.
  intros Hw Hx H1 H2 <-. split; try done.
  - rewrite none_asleep by done. lia.
  - intros j d i e t Hj. pose proof (count_pos is_waiting _ _ _ Hj eq_refl). lia.
  - rewrite Hw. lia.
Qed.

Lemma eased_sweep alive s : attentive s → eased s (with_slots (sweep alive (sc_slots s)) s).
Proof.
  intros Ha. split; [|done]. intros i e'. rewrite entry_sweep.
  destruct (entry_at i s) as [e|] eqn:He; simpl; [|done]. destruct (stale alive e); [done|].
  intros [= <-]. destruct (attentive_split s i e Ha He) as [?|[? ?]]; [by left|right].
  split; [done|]. split; [done|]. split; intros; by eexists.
Qed.
Lemma attentive_register work alive s : attentive s → attentive (register work alive s).1.
Proof.
  intros Ha. unfold register. destruct (sc_closed s) eqn:Hcl; [done|].
  pose proof (eased_sweep alive s Ha) as He.
  set (s' := with_slots (sweep alive (sc_slots s)) s) in *.
  assert (sc_closed s' = false) as Hcl' by done.
  assert (attentive s') as Ha' by by apply (attentive_eased s).
  clearbody s'. clear dependent s.
  destruct (position_free (sc_slots s')) as [index|] eqn:Ei; [|done]. apply position_free_spec in Ei.
  destruct (checked_add u64_max (sc_next s') 1) as [id|] eqn:En; [|done]. simpl.
  apply (attentive_eased s'); try done. split; [|done]. intros i e'.
  rewrite (entry_insert index i _ (with_next id s')) by (simpl; by eapply lookup_lt_Some).
  case_decide as Hi.
  - intros [= <-]. by right.
  - change (entry_at i (with_next id s')) with (entry_at i s'). intros He'.
    destruct (attentive_split s' i e' Ha' He') as [?|[? ?]]; [by left|right].
    split; [done|]. split; [done|]. split; intros; by eexists.
Qed.

(** Changing one slot. *)
Lemma eased_change index e x s :
  attentive s → entry_at index s = Some e →
  (∀ e', x = Some e' →
     en_closed e' = true ∧ en_running e' = true
     ∨ sc_closed s = false ∧ en_closed e' = false
       ∧ (entry_ready e' = true → entry_ready e = true)
       ∧ (idle_open e' = true → idle_open e = true ∧ en_due e' = en_due e)) →
  eased s (with_slots (<[index := x]> (sc_slots s)) s).
Proof.
  intros Ha He Hx. split; [|done]. intros i e'. rewrite entry_insert by (by eapply entry_bound).
  case_decide as Hi.
  - intros ->. subst i. destruct (Hx e' eq_refl) as [?|(Hc & ? & Hr & Hd)]; [by left|right].
    split; [done|]. split; [done|]. split.
    + intros Hready. exists e. auto.
    + intros t Hio Ht. destruct (Hd Hio) as [? Hde]. exists e. by rewrite <-Hde.
  - intros He'. destruct (attentive_split s i e' Ha He') as [?|[? ?]]; [by left|right].
    split; [done|]. split; [done|]. split; intros; by eexists.
Qed.
Lemma count_slot_ready index e e' s :
  entry_at index s = Some e →
  (count slot_ready (<[index := Some e']> (sc_slots s)) + (if entry_ready e then 1 else 0)
   = count slot_ready (sc_slots s) + (if entry_ready e' then 1 else 0))%nat.
Proof. intros He%entry_Some. exact (count_insert slot_ready _ _ _ _ He). Qed.

Lemma attentive_wake index id choice s : attentive s → attentive (wake index id choice s).1.
Proof.
  intros Ha. unfold wake. destruct (sc_closed s) eqn:Hcl; [done|].
  destruct (entry_at index s) as [e|] eqn:He; [|done].
  destruct ((en_id e =? id) && negb (en_closed e)) eqn:Hid; [|done]. simpl.
  apply andb_true_iff in Hid as [_ Hop]. apply negb_true_iff in Hop.
  set (t := with_threads _ _).
  assert (∀ i, entry_at i t = if decide (index = i) then Some (en_wake e) else entry_at i s) as Hat.
  { intros i. apply (entry_insert index i _ s). by eapply entry_bound. }
  assert (∀ i e', entry_at i t = Some e' → ∃ f, entry_at i s = Some f ∧ idle_open e' = idle_open f
            ∧ en_due e' = en_due f ∧ en_closed e' = en_closed f ∧ en_running e' = en_running f) as Hold.
  { intros i e'. rewrite Hat. case_decide as Hi; [subst; intros [= <-]; by exists e|]. intros ?. by exists e'. }
  pose proof (count_slot_ready index e (en_wake e) s He) as Hcount.
  change (<[index:=Some (en_wake e)]> (sc_slots s)) with (sc_slots t) in Hcount.
  assert (count slot_ready (sc_slots t) <= S (count slot_ready (sc_slots s)))%nat as Hup
    by (destruct (entry_ready e), (entry_ready (en_wake e)); lia).
  clear Hcount.
  assert (sc_threads t = notify_one choice (sc_threads s)) as Hts by done.
  assert (∀ j d, sc_threads t !! j = Some (Waiting d) → sc_threads s !! j = Some (Waiting d)) as Hwait.
  { intros j d. rewrite Hts. destruct (notify_one_cases choice (sc_threads s)) as [[-> _]|(k & d0 & _ & ->)]; [done|].
    intros [(_ & ? & _)|[_ ?]]%list_lookup_insert_Some; done. }
  assert (sc_clock t = sc_clock s) as Hck by done. assert (sc_closed t = sc_closed s) as Hcd by done.
  clearbody t. split.
  - rewrite Hck, Hts. intros Hs. pose proof (at_awake s Ha) as Haw.
    destruct (notify_one_cases choice (sc_threads s)) as [[E Hw]|(k & d0 & Hk & E)]; rewrite E in *.
    { rewrite none_asleep in Hs by done. lia. }
    pose proof (count_insert is_ready _ _ _ Ready Hk). simpl in *.
    pose proof (count_insert (asleep (sc_clock s)) _ _ _ Ready Hk).
    assert (0 < count (asleep (sc_clock s)) (sc_threads s))%nat by (simpl in *; lia). lia.
  - intros j d i e' tm Hj (f & Hf & Hio & Hdu & _)%Hold. rewrite Hio, Hdu.
    intros. eapply (at_timely s Ha); eauto.
  - intros _. by rewrite Hcd.
  - rewrite Hcd, Hts. intros Hx. apply (at_exited s Ha).
    destruct (notify_one_cases choice (sc_threads s)) as [[E Hw]|(k & d0 & Hk & E)]; rewrite E in *; [done|].
    pose proof (count_insert is_exited _ _ _ Ready Hk). simpl in *. lia.
  - intros i e' (f & Hf & _ & _ & -> & ->)%Hold. by apply (at_closing s Ha i).
  - rewrite Hcd. intros i e' Hc (f & Hf & _ & _ & -> & _)%Hold. by apply (at_closed s Ha i).
Qed.
Lemma attentive_close index id s : attentive s → attentive (close index id s).
Proof.
  intros Ha. unfold close. destruct (entry_at index s) as [e|] eqn:He; [|done].
  destruct (en_id e =? id); [|done].
  set (t := with_threads _ _).
  assert (∀ i, entry_at i t = if decide (index = i) then if en_running e then Some (en_close e) else None
                              else entry_at i s) as Hat.
  { intros i. apply (entry_insert index i _ s). by eapply entry_bound. }
  apply (attentive_notify t (notify_all (sc_threads s))); [apply notify_all_waiting| | | |done].
  - rewrite notify_all_count by done. apply (at_exited s Ha).
  - intros i e'. rewrite Hat. case_decide; [|by apply (at_closing s Ha i)].
    destruct (en_running e) eqn:Hr; [|done]. by intros [= <-].
  - intros i e' Hc. rewrite Hat. case_decide; [|by apply (at_closed s Ha i)].
    destruct (en_running e) eqn:Hr; [|done]. by intros [= <-].
Qed.
Lemma attentive_shutdown s : attentive s → attentive (shutdown s).
Proof.
  intros Ha. assert (∀ i e', entry_at i (shutdown s) = Some e' → en_closed e' = true ∧ en_running e' = true) as H.
  { intros i e'. rewrite entry_shutdown. destruct (entry_at i s) as [e|]; simpl; [|done].
    destruct (en_running e) eqn:Hr; [|done]. by intros [= <-]. }
  eapply attentive_notify; [apply notify_all_waiting|done| | |done]; intros; naive_solver.
Qed.

(** The offset at which a scan from the cursor meets a slot. *)
Definition distance (s : Scheduler) (i : nat) : nat :=
  let n := length (sc_slots s) in ((i + (n - sc_cursor s mod n)) mod n)%nat.
Lemma distance_lt s i : (i < length (sc_slots s))%nat → (distance s i < length (sc_slots s))%nat.
Proof. intros. apply Nat.mod_upper_bound. lia. Qed.
Lemma slot_at_distance s i :
  (i < length (sc_slots s))%nat → slot_at (sc_cursor s) (sc_slots s) (distance s i) = i.
Proof.
  intros Hi. unfold slot_at, distance. set (n := length (sc_slots s)) in *. set (c := sc_cursor s).
  rewrite Nat.Div0.add_mod_idemp_r. pose proof (Nat.mod_upper_bound c n ltac:(lia)).
  pose proof (Nat.div_mod c n ltac:(lia)).
  replace (c + (i + (n - c mod n)))%nat with (i + (c / n + 1) * n)%nat by lia.
  rewrite Nat.Div0.mod_add. by apply Nat.mod_small.
Qed.

(** After a scan that found nothing, nothing is ready and the next timer is known. *)
Lemma scan_nothing alive upgraded s i e :
  let res := scan_slots alive upgraded s in
  res.1.2 = None → res.1.1 !! i = Some (Some e) → idle_open e = true →
  en_pending e = false ∧ ∀ t, en_due e = Some t → ∃ d, res.2 = Some d ∧ d <= t.
Proof.
  intros res Hnone Hi Hio. pose proof (scan_entry alive upgraded s i e Hi) as Hentry.
  destruct Hentry as [He|(e0 & r & Hr & _)]; [|fold res in Hr; congruence].
  pose proof (entry_bound _ _ _ He) as Hb.
  destruct (look_spec alive upgraded s) as [_ _ _ Hn _]. fold res in Hn.
  specialize (Hn Hnone (distance s i)). rewrite slot_at_distance in Hn by done.
  pose proof (distance_lt s i Hb) as Hlt. specialize (Hn ltac:(lia)).
  apply entry_Some in He. rewrite He in Hn. simpl in Hn. fold res in Hi.
  unfold examine in Hn. unfold idle_open in Hio. apply andb_true_iff in Hio as [Hru Hop].
  apply negb_true_iff in Hru, Hop. rewrite Hru, Hop in Hn. simpl in Hn.
  destruct (alive (en_work e)); simpl in Hn; [|congruence].
  destruct (en_pending e || due_now (sc_clock s) e) eqn:Hp.
  - destruct (upgraded (en_work e)); [done|congruence].
  - apply orb_false_iff in Hp as [Hp _]. auto.
Qed.
Lemma eased_scan alive upgraded s s' :
  attentive s → sc_slots s' = (scan_slots alive upgraded s).1.1 → sc_clock s' = sc_clock s → eased s s'.
Proof.
  intros Ha Hs Hc. split; [|lia]. intros i e' He'. apply entry_Some in He'. rewrite Hs in He'.
  destruct (scan_entry alive upgraded s i e' He') as [He|(e & r & _ & _ & He & -> & _ & Hst)].
  - destruct (attentive_split s i e' Ha He) as [?|[? ?]]; [by left|right].
    split; [done|]. split; [done|]. split; intros; by eexists.
  - destruct (attentive_split s i e Ha He) as [?|[? ?]]; [left; naive_solver|right].
    split; [done|]. split; [done|]. split; done.
Qed.
(** A start makes one slot less ready, unless it was a timer's. *)
Lemma scan_start alive upgraded s r e :
  attentive s → (scan_slots alive upgraded s).1.2 = Some r → entry_at (rn_index r) s = Some e →
  (S (count slot_ready (scan_slots alive upgraded s).1.1) <= count slot_ready (sc_slots s))%nat
  ∨ count (asleep (sc_clock s)) (sc_threads s) = 0%nat.
Proof.
  intros Ha Hr He. destruct (look_spec alive upgraded s) as [_ _ Hfound _ _].
  destruct (Hfound r Hr) as (o & e0 & _ & _ & He0 & Hst & _ & Hnew & _).
  apply entry_Some in He0. rewrite He0 in He. injection He as ->.
  apply examine_Start in Hst as (_ & Hio & Hp). destruct (en_pending e) eqn:Hpe.
  - left. pose proof (count_slot_ready _ _ (en_start e) _ He0) as Hcount.
    assert (entry_ready e = true) as Hre by (unfold entry_ready; by rewrite Hio, Hpe).
    assert (entry_ready (en_start e) = false) as Hrs by done. rewrite Hre, Hrs in Hcount.
    assert (count slot_ready (scan_slots alive upgraded s).1.1
            <= count slot_ready (<[rn_index r:=Some (en_start e)]> (sc_slots s)))%nat; [|lia].
    apply count_le. intros i [e'|] Hi Hready; [|done].
    destruct (decide (rn_index r = i)) as [<-|Hne]; [rewrite Hnew in Hi; by injection Hi as <-|].
    destruct (scan_entry _ _ _ _ _ Hi) as [Hold|(? & r' & Hr' & Hix & _)]; [|congruence].
    exists (Some e'). split; [|done]. rewrite list_lookup_insert_ne by done. by apply entry_Some.
  - right. destruct Hp as [|Hp]; [done|]. unfold due_now in Hp.
    destruct (en_due e) as [due|] eqn:Hd; [|done]. to_props.
    apply count_zero. intros j t Hj. destruct t as [|d| |]; simpl; try done.
    destruct (at_timely s Ha j d _ e due Hj He0 Hio Hd) as (d' & -> & Hle). lia.
Qed.

Lemma attentive_take i alive upgraded s :
  sc_threads s !! i = Some Ready → attentive s → attentive (take i alive upgraded s).
Proof.
  intros Hi Ha. unfold take. destruct (sc_closed s) eqn:Hcl.
  { eapply attentive_notify; [|done|exact (at_closing s Ha)|exact (at_closed s Ha)|done].
    pose proof (count_insert is_waiting _ _ _ Exited Hi). simpl in *.
    pose proof (at_open s Ha). destruct (count is_waiting (sc_threads s)); [lia|].
    rewrite Hcl in *. by discriminate H0; lia. }
  fold (scan_slots alive upgraded s).
  pose proof (eased_scan alive upgraded s) as Heased.
  pose proof (scan_start alive upgraded s) as Hstart.
  pose proof (scan_nothing alive upgraded s) as Hnothing.
  pose proof (sd_found _ _ _ _ _ _ _ _ _ (look_spec alive upgraded s)) as Hfound.
  destruct (scan_slots alive upgraded s) as [[slots [r|]] nearest]; simpl in *.
  - destruct (Hfound r eq_refl) as (o & e & _ & _ & He & _). apply entry_Some in He.
    specialize (Hstart r e Ha eq_refl He).
    set (t := with_threads _ _).
    assert (eased s t) as Het by by apply Heased.
    pose proof (count_insert is_ready _ _ _ (Busy r) Hi). pose proof (count_insert is_exited _ _ _ (Busy r) Hi).
    pose proof (count_insert is_waiting _ _ _ (Busy r) Hi).
    pose proof (count_insert (asleep (sc_clock s)) _ _ _ (Busy r) Hi). simpl in *.
    destruct Het as [Hen _]. split; simpl.
    + intros Hs. destruct Hstart as [Hst|Hst]; [|lia]. pose proof (at_awake s Ha ltac:(lia)). lia.
    + intros j d k e' tm Hj Hk Hio Hd. destruct (Hen k e' Hk) as [[_ Hru]|(_ & _ & _ & Hdue)].
      { unfold idle_open in Hio. by rewrite Hru in Hio. }
      destruct (Hdue tm Hio Hd) as (e1 & He1 & Hio1 & Hd1).
      apply list_lookup_insert_Some in Hj as [(_ & ? & _)|[_ Hj]]; [done|]. eapply (at_timely s Ha); eauto.
    + intros _. done.
    + intros Hx. apply (at_exited s Ha). lia.
    + intros k e' Hk Hc. destruct (Hen k e' Hk) as [[_ ?]|(_ & ? & _)]; congruence.
    + intros k e' Hc. congruence.
  - set (t := with_threads _ _).
    assert (eased s t) as Het by by apply Heased.
    pose proof (count_insert is_exited _ _ _ (Waiting nearest) Hi). simpl in *.
    destruct Het as [Hen _].
    assert (∀ k e', entry_at k t = Some e' → idle_open e' = true →
              en_pending e' = false ∧ ∀ t, en_due e' = Some t → ∃ d, nearest = Some d ∧ d <= t) as Hidle.
    { intros k e' Hk Hio. apply entry_Some in Hk. by apply (Hnothing k). }
    split; simpl.
    + intros _. rewrite count_zero; [lia|]. intros k [e'|] Hk; [|done]. simpl. unfold entry_ready.
      destruct (idle_open e') eqn:Hio; [|done]. destruct (Hidle k e') as [-> _]; [by apply entry_Some|done|done].
    + intros j d k e' tm Hj Hk Hio Hd.
      apply list_lookup_insert_Some in Hj as [(_ & [= <-] & _)|[_ Hj]]; [by eapply Hidle|].
      destruct (Hen k e' Hk) as [[_ Hru]|(_ & _ & _ & Hdue)].
      { unfold idle_open in Hio. by rewrite Hru in Hio. }
      destruct (Hdue tm Hio Hd) as (e1 & He1 & Hio1 & Hd1). eapply (at_timely s Ha); eauto.
    + intros _. done.
    + intros Hx. apply (at_exited s Ha). lia.
    + intros k e' Hk Hc. destruct (Hen k e' Hk) as [[_ ?]|(_ & ? & _)]; congruence.
    + intros k e' Hc. congruence.
Qed.
Lemma attentive_finish i r schedule s :
  sc_threads s !! i = Some (Busy r) → serial s → attentive s → attentive (finish i r schedule s).
Proof.
  intros Hi Hs Ha.
  assert (r ∈ running (sc_threads s)) as Hin.
  { pose proof (running_insert _ i _ Ready Hi) as Hrun. simpl in Hrun. rewrite app_nil_r in Hrun.
    rewrite <-Hrun. set_solver. }
  destruct (se_running s Hs r Hin) as (e & He & Hru & Hw).
  pose proof (finish_entry i r schedule e) as Hat.
  eapply attentive_notify; [apply notify_all_waiting| | | |apply finish_threads].
  - rewrite notify_all_count, finish_closed by done. intros Hx. apply (at_exited s Ha).
    pose proof (count_insert is_exited _ _ _ Ready Hi). simpl in *. lia.
  - intros j e'. rewrite Hat by done. case_decide; [|by apply (at_closing s Ha)].
    unfold settled. destruct (en_closed e) eqn:Hc; [done|]. simpl. destruct (is_finished_schedule _); [done|].
    intros [= <-]. simpl. by rewrite Hc.
  - intros j e' Hcl. rewrite Hat by done. rewrite finish_closed in Hcl.
    case_decide; [|by apply (at_closed s Ha)].
    unfold settled. rewrite (at_closed s Ha _ e Hcl He). done.
Qed.
Lemma attentive_step e s : serial s → attentive s → attentive (step e s).
Proof.
  intros Hs Ha. assert (∀ elapsed, attentive (with_clock elapsed s)) as Hclock.
  { intros elapsed. apply (attentive_eased s); try done. apply eased_same; try done. simpl. lia. }
  destruct e as [work alive|index id choice|index id| |i elapsed alive upgraded
                           |i ran failed drop_panics elapsed|i]; simpl.
  - by apply attentive_register.
  - by apply attentive_wake.
  - by apply attentive_close.
  - by apply attentive_shutdown.
  - destruct (sc_threads s !! i) as [[| | |]|] eqn:Hi; try done. by apply attentive_take.
  - destruct (sc_threads s !! i) as [[| |r|]|] eqn:Hi; try done.
    apply attentive_finish; [done| |done]. by eapply mild_serial, Hs; apply mild_clock.
  - destruct (sc_threads s !! i) as [[|d| |]|] eqn:Hi; try done.
    pose proof (count_insert is_ready _ _ _ Ready Hi). pose proof (count_insert is_exited _ _ _ Ready Hi).
    apply (attentive_eased s); simpl in *; try done; try lia; [by apply eased_same| ].
    by intros j d' [(_ & ? & _)|[_ ?]]%list_lookup_insert_Some.
Qed.
Lemma good_steps es s : serial s → attentive s → serial (steps es s) ∧ attentive (steps es s).
Proof.
  revert s. induction es as [|e es IH]; intros s Hs Ha; [done|].
  apply IH; [by apply serial_step|by apply attentive_step].
Qed.
Lemma good_new max_sessions workers allocated spawned s :
  0 <= max_sessions → 0 <= workers → Scheduler_new max_sessions workers allocated spawned = Ok s →
  serial s ∧ attentive s ∧ length (sc_slots s) = Z.to_nat max_sessions.
Proof.
  intros Hm Hw. unfold Scheduler_new. destruct (_ || _) eqn:E; [done|]. destruct allocated; simpl; [|done].
  destruct (forallb _ _); [|done]. intros [= <-]. to_props.
  assert (∀ f : thread run_ref → bool, f Ready = false → count f (replicate (Z.to_nat workers) Ready) = 0%nat)
    as Hc.
  { intros f Hf. apply count_zero. intros i x [-> _]%lookup_replicate. done. }
  assert (running (replicate (Z.to_nat workers) (@Ready run_ref)) = []) as Hr.
  { clear. by induction (Z.to_nat workers). }
  set (s0 := Build_Scheduler _ _ _ _ _ _).
  assert (∀ i, entry_at i s0 = None) as Hnone.
  { intros i. unfold entry_at. simpl. destruct (_ !! i) as [x|] eqn:Hi; [|done].
    by apply lookup_replicate in Hi as [-> _]. }
  split; [|split; [|simpl; rewrite length_replicate; lia]].
  - split; simpl; rewrite ?Hr; try done; try (intros i e; by rewrite Hnone).
    + constructor.
    + intros r Hin. by apply elem_of_nil in Hin.
  - apply (attentive_notify s0 (sc_threads s0)); [by apply Hc| | | |done].
    + simpl. rewrite Hc by done. lia.
    + intros i e. by rewrite Hnone.
    + intros i e. by rewrite Hnone.
Qed.

(** ** Bypass *)

(** The registration an event starts. *)
Definition starts (e : event) (s : Scheduler) : list nat :=
  match e with
  | S_take i _ _ _ =>
    match sc_threads s !! i, sc_threads (step e s) !! i with
    | Some Ready, Some (Busy r) => [rn_index r]
    | _, _ => []
    end
  | _ => []
  end.
Fixpoint started (es : list event) (s : Scheduler) : list nat :=
  match es with
  | [] => []
  | e :: es => starts e s ++ started es (step e s)
  end.
Definition ready_at (k : nat) (s : Scheduler) : bool := slot_ready (entry_at k s).

Lemma take_loop_reaches now alive upgraded cursor n offset nearest slots k e d :
  let res := take_loop now alive upgraded cursor n offset nearest slots in
  slots !! k = Some (Some e) → entry_ready e = true → slot_at cursor slots d = k →
  (offset <= d < offset + n)%nat → (n + offset <= length slots)%nat →
  res.1.1 !! k = Some None
  ∨ ∃ r o, res.1.2 = Some r ∧ (offset <= o <= d)%nat ∧ rn_index r = slot_at cursor slots o.
Proof.
  revert offset nearest slots. induction n as [|n IH]; intros offset nearest slots res Hk He Hd Ho Hn; [lia|].
  subst res. simpl. fold (slot_at cursor slots offset).
  destruct (decide (offset = d)) as [->|Hne].
  - rewrite Hd, Hk. simpl. unfold entry_ready, idle_open in He.
    apply andb_true_iff in He as [He Hp]. apply andb_true_iff in He as [Hr Hc].
    apply negb_true_iff in Hr, Hc. unfold examine. rewrite Hr, Hc, Hp. simpl.
    assert (<[k := @None Entry]> slots !! k = Some None) as Hnone
      by (apply list_lookup_insert_eq; by eapply lookup_lt_Some).
    assert (∀ near, let res := take_loop now alive upgraded cursor n (S d) near (<[k := None]> slots) in
              res.1.1 !! k = Some None
              ∨ ∃ r o, res.1.2 = Some r ∧ (d <= o <= d)%nat ∧ rn_index r = slot_at cursor slots o) as Hforget.
    { intros near res. destruct (take_loop_forgotten now alive upgraded cursor n (S d) near _ k Hnone)
        as [?|(r & Hr' & Hix)]; [by left|]. right. exists r, d. rewrite Hd. split; [done|]. split; [lia|done]. }
    destruct (alive _); simpl; [|apply Hforget]. destruct (upgraded _); [|apply Hforget].
    right. simpl. eexists _, d. rewrite Hd. split; [done|]. split; [lia|done].
  - assert (∀ near, let res := take_loop now alive upgraded cursor n (S offset) near slots in
              res.1.1 !! k = Some None
              ∨ ∃ r o, res.1.2 = Some r ∧ (offset <= o <= d)%nat ∧ rn_index r = slot_at cursor slots o) as Hgo.
    { intros near res. destruct (IH (S offset) near slots) as [?|(r & o & ? & ? & ?)]; try done; try lia;
        [by left|right]. exists r, o. split; [done|]. split; [lia|done]. }
    destruct (examine _ _ _ _) as [| |e0|due]; try apply Hgo.
    + assert (slot_at cursor slots offset ≠ k) as Hnk.
      { intros E. rewrite <-Hd in E. apply slot_at_inj in E; lia. }
      destruct (IH (S offset) nearest (<[slot_at cursor slots offset := None]> slots)) as [?|(r & o & ? & ? & Hix)];
        rewrite ?list_lookup_insert_ne, ?slot_at_insert, ?length_insert; try done; try lia; [by left|right].
      rewrite slot_at_insert in Hix. exists r, o. split; [done|]. split; [lia|done].
    + right. simpl. eexists _, offset. split; [done|]. split; [lia|done].
Qed.
Lemma distance_unique s o i :
  (o < length (sc_slots s))%nat → slot_at (sc_cursor s) (sc_slots s) o = i → distance s i = o.
Proof.
  intros Ho <-. apply (slot_at_inj (sc_cursor s) (sc_slots s)); [|done|].
  - apply distance_lt, slot_at_lt. lia.
  - apply slot_at_distance, slot_at_lt. lia.
Qed.

Lemma register_cursor work alive s :
  sc_cursor (register work alive s).1 = sc_cursor s
  ∧ length (sc_slots (register work alive s).1) = length (sc_slots s).
Proof.
  unfold register. destruct (sc_closed s); [done|]. unfold sweep.
  destruct (position_free _); [destruct (checked_add _ _ _)|]; simpl;
    by rewrite ?length_insert, length_fmap.
Qed.
Lemma step_cursor e s :
  starts e s = [] → sc_cursor (step e s) = sc_cursor s ∧ length (sc_slots (step e s)) = length (sc_slots s).
Proof.
  destruct e as [work alive|index id choice|index id| |i elapsed alive upgraded
                           |i ran failed drop_panics elapsed|i]; simpl; intros Hst.
  - apply register_cursor.
  - unfold wake. repeat case_match; simpl; by rewrite ?length_insert.
  - unfold close. repeat case_match; simpl; by rewrite ?length_insert.
  - by rewrite length_fmap.
  - destruct (sc_threads s !! i) as [[| | |]|] eqn:Hi; try done.
    unfold take in *. simpl in *. destruct (sc_closed s); [done|].
    pose proof (sd_length _ _ _ _ _ _ _ _ _ (look_spec alive upgraded (with_clock elapsed s))) as Hlen.
    unfold scan_slots in Hlen. simpl in Hlen.
    destruct (take_loop _ _ _ _ _ _ _ _) as [[slots [r|]] nearest]; simpl in *; [|done].
    by rewrite list_lookup_insert_eq in Hst by (by eapply lookup_lt_Some).
  - destruct (sc_threads s !! i) as [[| |r|]|] eqn:Hi; try done. unfold finish, settle.
    destruct (entry_at _ _); simpl; by rewrite ?length_insert.
  - by destruct (sc_threads s !! i) as [[| |r|]|].
Qed.
Lemma step_length e s : length (sc_slots (step e s)) = length (sc_slots s).
Proof.
  destruct (starts e s) as [|j l] eqn:Hst; [by apply step_cursor|].
  destruct e as [| | | |i elapsed alive upgraded| |]; simpl in *; try done.
  destruct (sc_threads s !! i) as [[| | |]|] eqn:Hi; try done. unfold take. simpl.
  destruct (sc_closed s); [done|].
  pose proof (sd_length _ _ _ _ _ _ _ _ _ (look_spec alive upgraded (with_clock elapsed s))) as Hlen.
  unfold scan_slots in Hlen. simpl in Hlen.
  by destruct (take_loop _ _ _ _ _ _ _ _) as [[slots [r|]] nearest].
Qed.
(** A start of another registration brings the cursor nearer. *)
Lemma step_start k j e s :
  starts e s = [j] → ready_at k s = true → ready_at k (step e s) = true →
  length (sc_slots (step e s)) = length (sc_slots s) ∧ (distance (step e s) k < distance s k)%nat.
Proof.
  destruct e as [work alive|index id choice|index id| |i elapsed alive upgraded
                           |i ran failed drop_panics elapsed|i]; simpl; try done.
  destruct (sc_threads s !! i) as [[| | |]|] eqn:Hi; try done. intros Hst Hk Hk'.
  unfold take in *. simpl in *. destruct (sc_closed s).
  { simpl in Hst. by rewrite list_lookup_insert_eq in Hst by (by eapply lookup_lt_Some). }
  set (s1 := with_clock elapsed s) in *.
  change (take_loop _ _ _ _ _ _ _ _) with (scan_slots alive upgraded s1) in *.
  unfold ready_at in Hk. destruct (entry_at k s) as [e|] eqn:He; [|done]. simpl in Hk.
  pose proof (entry_bound _ _ _ He) as Hb. pose proof (distance_lt s k Hb) as Hdl.
  destruct (look_spec alive upgraded s1) as [Hlen _ Hfound _ _].
  pose proof (take_loop_reaches (sc_clock s1) alive upgraded (sc_cursor s1) (length (sc_slots s1)) 0 None
                (sc_slots s1) k e (distance s k)) as Hreach.
  change (take_loop _ _ _ _ _ _ _ _) with (scan_slots alive upgraded s1) in Hreach. simpl in Hreach.
  apply entry_Some in He.
  specialize (Hreach He Hk (slot_at_distance s k Hb) ltac:(lia) ltac:(lia)).
  destruct (scan_slots alive upgraded s1) as [[slots [r|]] nearest]; simpl in *.
  2: { by rewrite list_lookup_insert_eq in Hst by (by eapply lookup_lt_Some). }
  split; [done|]. unfold ready_at in Hk'.
  destruct (entry_at k _) as [e'|] eqn:He' in Hk'; [|done]. apply entry_Some in He'. simpl in He', Hk'.
  destruct Hreach as [Hnone|(r0 & o & [= <-] & Ho & Hix)]; [congruence|].
  destruct (decide (o = distance s k)) as [->|Hne].
  { exfalso. destruct (Hfound r eq_refl) as (? & e0 & _ & _ & _ & _ & _ & Hnew & _).
    rewrite Hix, slot_at_distance, He' in Hnew by done. by injection Hnew as ->. }
  enough (distance (with_threads (<[i:=Busy r]> (sc_threads s))
            (with_cursor ((rn_index r + 1) mod length (sc_slots s)) (with_slots slots s1))) k
          = (distance s k - o - 1)%nat) as -> by lia.
  apply distance_unique; simpl; [lia|]. unfold slot_at. rewrite Hlen. simpl.
  rewrite Hix. unfold slot_at. rewrite Nat.Div0.add_mod_idemp_l.
  rewrite <-(slot_at_distance s k Hb) at 2. unfold slot_at.
  set (n := length (sc_slots s)) in *. set (d := distance s k) in *.
  rewrite <-Nat.add_assoc, Nat.Div0.add_mod_idemp_l. f_equal. lia.
Qed.
Lemma starts_short e s : starts e s = [] ∨ ∃ j, starts e s = [j].
Proof.
  destruct e; simpl; try by left.
  destruct (sc_threads s !! i) as [[]|]; try by left.
  destruct (sc_threads _ !! i) as [[]|]; try by left. right. by eexists.
Qed.
Lemma started_bounded k es s :
  (∀ pre, pre `prefix_of` es → ready_at k (steps pre s) = true) →
  (length (started es s) <= distance s k)%nat.
Proof.
  revert s. induction es as [|e es IH]; intros s Hready; [simpl; lia|].
  assert (ready_at k s = true) as Hk by (apply (Hready []); apply prefix_nil).
  assert (ready_at k (step e s) = true) as Hk'
    by (apply (Hready [e]); apply prefix_cons, prefix_nil).
  specialize (IH (step e s)). simpl. rewrite length_app.
  assert (∀ pre, pre `prefix_of` es → ready_at k (steps pre (step e s)) = true) as Hpre
    by (intros pre Hp; apply (Hready (e :: pre)); by apply prefix_cons).
  specialize (IH Hpre). destruct (starts_short e s) as [Hs|[j Hs]]; rewrite Hs; simpl.
  - destruct (step_cursor e s Hs) as [Hc Hl]. unfold distance in *. rewrite Hc, Hl in IH. lia.
  - destruct (step_start k j e s Hs Hk Hk') as [Hl Hd]. lia.
Qed.

(** ** A wake is kept until it is served *)

Lemma pending_register work alive i x x' s :
  serial s → entry_at i s = Some x → entry_at i (register work alive s).1 = Some x' →
  en_id x' = en_id x → x' = x.
Proof.
  intros Hs Hx. unfold register. destruct (sc_closed s); [simpl; congruence|].
  pose proof (entry_sweep alive i s) as Hsw. rewrite Hx in Hsw. simpl in Hsw.
  set (s' := with_slots (sweep alive (sc_slots s)) s) in *.
  assert (entry_at i s' = Some x' → x' = x) as Hsame
    by (rewrite Hsw; destruct (stale alive x); [done|by intros [= <-]]).
  destruct (position_free (sc_slots s')) as [index|] eqn:Ei; [|auto]. apply position_free_spec in Ei.
  destruct (checked_add u64_max (sc_next s') 1) as [id|] eqn:En; [|auto]. simpl.
  rewrite (entry_insert index i _ (with_next id s')) by (simpl; by eapply lookup_lt_Some).
  case_decide; [|by intros ? ?; apply Hsame]. intros [= <-] Hid. simpl in Hid.
  pose proof (se_ids s Hs i x Hx). unfold checked_add in En. destruct (_ <=? _) in En; [|done].
  injection En as <-. simpl in Hid. lia.
Qed.
Lemma pending_kept e i x x' s :
  serial s → entry_at i s = Some x → en_pending x = true →
  entry_at i (step e s) = Some x' → en_id x' = en_id x → en_pending x' = true ∨ i ∈ starts e s.
Proof.
  intros Hs Hx Hp. destruct e as [work alive|index id choice|index id| |j elapsed alive upgraded
                           |j ran failed drop_panics elapsed|j]; simpl; intros Hx' Hid.
  - left. by rewrite (pending_register work alive i x x' s).
  - left. unfold wake in Hx'. destruct (sc_closed s); [simpl in *; congruence|].
    destruct (entry_at index s) as [e|] eqn:He; [|simpl in *; congruence].
    destruct (_ && _); [|simpl in *; congruence].
    simpl in Hx'. assert (entry_at i (with_slots (<[index:=Some (en_wake e)]> (sc_slots s)) s) = Some x') as Hin
      by done.
    rewrite entry_insert in Hin by (by eapply entry_bound). case_decide; [by injection Hin as <-|congruence].
  - left. unfold close in Hx'. destruct (entry_at index s) as [e|] eqn:He; [|congruence].
    destruct (_ =? _); [|congruence].
    assert (entry_at i (with_slots (<[index:=if en_running e then Some (en_close e) else None]> (sc_slots s)) s)
            = Some x') as Hin by done.
    rewrite entry_insert in Hin by (by eapply entry_bound). case_decide; [|congruence]. subst index.
    destruct (en_running e); [|done]. injection Hin as <-. simpl. congruence.
  - left. rewrite entry_shutdown, Hx in Hx'. simpl in Hx'. destruct (en_running x); [|done].
    by injection Hx' as <-.
  - destruct (sc_threads s !! j) as [[| | |]|] eqn:Hj; try (left; congruence).
    unfold take in *. simpl in *. destruct (sc_closed s).
    { left. unfold entry_at in *. simpl in *. congruence. }
    pose proof (scan_entry alive upgraded (with_clock elapsed s) i x') as Hentry.
    unfold scan_slots in Hentry. simpl in Hentry.
    assert (j < length (sc_threads s))%nat as Hlt by (by eapply lookup_lt_Some).
    destruct (take_loop _ _ _ _ _ _ _ _) as [[slots [r|]] nearest]; simpl in *;
      apply entry_Some in Hx'; simpl in Hx'; destruct (Hentry Hx') as [Hold|(e & r' & Hr' & <- & _)].
    + left. unfold entry_at in Hold, Hx. simpl in Hold. congruence.
    + right. rewrite list_lookup_insert_eq by done. injection Hr' as ->. by apply list_elem_of_singleton.
    + left. unfold entry_at in Hold, Hx. simpl in Hold. congruence.
    + done.
  - left. destruct (sc_threads s !! j) as [[| |r|]|] eqn:Hj; try congruence.
    set (schedule := outcome _ _ _) in *. destruct (entry_at (rn_index r) s) as [e|] eqn:He.
    + pose proof (finish_entry j r schedule e i (with_clock elapsed s) He) as Hin. rewrite Hx' in Hin.
      case_decide as Hi.
      * subst i. unfold settled in Hin. destruct (_ || _); [done|]. injection Hin as ->. simpl. congruence.
      * unfold entry_at in Hin, Hx. simpl in Hin. congruence.
    + pose proof (finish_no_entry j r schedule i (with_clock elapsed s) He) as Hin. rewrite Hx' in Hin.
      unfold entry_at in Hin, Hx. simpl in Hin. congruence.
  - left. destruct (sc_threads s !! j) as [[| | |]|]; try congruence.
    unfold entry_at in *. simpl in *. congruence.
Qed.

(** ** Draining *)

(** Whether an event is the turn of a thread that can take one. *)
Definition a_turn (e : event) (s : Scheduler) : bool :=
  match e with
  | S_take i _ _ _ => match sc_threads s !! i with Some Ready => true | _ => false end
  | S_finish i _ _ _ _ => match sc_threads s !! i with Some (Busy _) => true | _ => false end
  | _ => false
  end.
Fixpoint all_turns (es : list event) (s : Scheduler) : Prop :=
  match es with
  | [] => True
  | e :: es => a_turn e s = true ∧ all_turns es (step e s)
  end.
Definition left_over (s : Scheduler) : nat :=
  (2 * count is_busy (sc_threads s) + count is_ready (sc_threads s))%nat.

Lemma turn_left e s :
  attentive s → sc_closed s = true → a_turn e s = true →
  sc_closed (step e s) = true ∧ (left_over (step e s) < left_over s)%nat.
Proof.
  intros Ha Hc. assert (count is_waiting (sc_threads s) = 0%nat) as Hw.
  { pose proof (at_open s Ha) as Hop. destruct (count is_waiting (sc_threads s)); [done|].
    rewrite Hc in Hop. by discriminate Hop; lia. }
  destruct e as [| | | |i elapsed alive upgraded|i ran failed drop_panics elapsed|]; simpl; try done.
  - destruct (sc_threads s !! i) as [[| | |]|] eqn:Hi; try done. intros _.
    unfold take. simpl. rewrite Hc. split; [done|]. unfold left_over. simpl.
    pose proof (count_insert is_busy _ _ _ Exited Hi). pose proof (count_insert is_ready _ _ _ Exited Hi).
    simpl in *. lia.
  - destruct (sc_threads s !! i) as [[| |r|]|] eqn:Hi; try done. intros _.
    rewrite finish_closed. split; [done|]. unfold left_over. rewrite finish_threads. simpl.
    pose proof (count_insert is_busy _ _ _ Ready Hi). pose proof (count_insert is_ready _ _ _ Ready Hi).
    pose proof (count_insert is_waiting _ _ _ Ready Hi). simpl in *.
    rewrite notify_all_none by lia. lia.
Qed.
Lemma turns_left es s :
  serial s → attentive s → sc_closed s = true → all_turns es s →
  sc_closed (steps es s) = true ∧ (length es + left_over (steps es s) <= left_over s)%nat.
Proof.
  revert s. induction es as [|e es IH]; intros s Hs Ha Hc; [simpl; auto with lia|].
  intros [He Hes]. destruct (turn_left e s Ha Hc He) as [Hc' Hl].
  destruct (IH (step e s)) as [? ?]; [by apply serial_step|by apply attentive_step|done|done|].
  split; [done|]. simpl. change (steps (e :: es) s) with (steps es (step e s)). lia.
Qed.

(** ** Properties *)

(** C23: A registration never runs on two threads.  Under every interleaving of
    registrations, wakes, closes, runs and a shutdown: the running threads run
    distinct registrations, each recorded as running with the work the thread
    upgraded; exactly the registrations recorded as running are on a thread; and a
    new registration's id is greater than every other, so no earlier handle
    names it. *)
Theorem registration_serialized max_sessions workers allocated spawned s0 es :
  0 <= max_sessions → 0 <= workers → Scheduler_new max_sessions workers allocated spawned = Ok s0 →
  let s := steps es s0 in
  let on_threads := running (sc_threads s) in
  NoDup (rn_index <$> on_threads)
  ∧ (∀ r, r ∈ on_threads → ∃ e, entry_at (rn_index r) s = Some e ∧ en_work e = rn_work r)
  ∧ (∀ i e, entry_at i s = Some e → en_running e = true ↔ i ∈ rn_index <$> on_threads)
  ∧ (∀ work alive i id, (register work alive s).2 = Ok (i, id) →
       ∀ j e, entry_at j s = Some e → en_id e < id).
Proof.
  intros Hm Hw Hn s on_threads. destruct (good_new _ _ _ _ _ Hm Hw Hn) as (Hs0 & Ha0 & _).
  destruct (good_steps es s0 Hs0 Ha0) as [Hs _]. fold s in Hs.
  split; [apply Hs|]. split; [|split].
  - intros r Hr. destruct (se_running s Hs r Hr) as (e & He & _ & Hwk). by exists e.
  - intros i e He. split; [by apply (se_flag s Hs)|].
    intros (r & -> & Hr)%list_elem_of_fmap. destruct (se_running s Hs r Hr) as (e' & He' & Hru & _). congruence.
  - intros work alive i id Hreg j e He. pose proof (se_ids s Hs j e He). unfold register in Hreg.
    destruct (sc_closed s); [done|]. destruct (position_free _); [|done]. simpl in Hreg.
    unfold checked_add in Hreg. destruct (_ <=? _); [|done]. injection Hreg as <- <-. lia.
Qed.

(** C24: A wake is never lost.  Once a handle's wake is accepted its registration is
    marked, and it stays marked, whatever happens, until a thread starts it or
    the slot passes to another registration; while a thread sleeps past the
    clock there are at least as many threads about to look as registrations
    ready to run; every sleeper wakes by the earliest timer of an idle
    registration; and nobody sleeps once the pool is closed. *)
Theorem no_wake_lost max_sessions workers allocated spawned s0 es :
  0 <= max_sessions → 0 <= workers → Scheduler_new max_sessions workers allocated spawned = Ok s0 →
  let s := steps es s0 in
  (∀ i id choice, (wake i id choice s).2 = Ok tt →
     ∃ e, entry_at i (wake i id choice s).1 = Some e ∧ en_id e = id ∧ en_pending e = true)
  ∧ (∀ i e x x', entry_at i s = Some x → en_pending x = true →
       entry_at i (step e s) = Some x' → en_id x' = en_id x → en_pending x' = true ∨ i ∈ starts e s)
  ∧ ((0 < count (asleep (sc_clock s)) (sc_threads s))%nat →
       (count slot_ready (sc_slots s) <= count is_ready (sc_threads s))%nat)
  ∧ (∀ j d i e t, sc_threads s !! j = Some (Waiting d) → entry_at i s = Some e →
       idle_open e = true → en_due e = Some t → ∃ d', d = Some d' ∧ d' <= t)
  ∧ (sc_closed s = true → count is_waiting (sc_threads s) = 0%nat).
Proof.
  intros Hm Hw Hn s. destruct (good_new _ _ _ _ _ Hm Hw Hn) as (Hs0 & Ha0 & _).
  destruct (good_steps es s0 Hs0 Ha0) as [Hs Ha]. fold s in Hs, Ha.
  split; [|split; [|split; [|split]]].
  - intros i id choice. unfold wake. destruct (sc_closed s); [done|].
    destruct (entry_at i s) as [e|] eqn:He; [|done]. destruct (_ && _) eqn:Hid; [|done]. intros _.
    apply andb_true_iff in Hid as [Hid _]. to_props. exists (en_wake e). split; [|done].
    change (entry_at i (with_slots (<[i:=Some (en_wake e)]> (sc_slots s)) s) = Some (en_wake e)).
    rewrite entry_insert by (by eapply entry_bound). by rewrite decide_True.
  - intros i e x x' Hx Hp. by apply pending_kept.
  - apply (at_awake s Ha).
  - apply (at_timely s Ha).
  - intros Hc. pose proof (at_open s Ha) as Hop. destruct (count is_waiting (sc_threads s)); [done|].
    rewrite Hc in Hop. by discriminate Hop; lia.
Qed.

(** No registration starves.  While a registration stays ready to run, the
    threads start fewer other registrations than the pool has slots, however
    often those are woken again. *)
Theorem bounded_bypass max_sessions workers allocated spawned s0 before k es :
  0 <= max_sessions → 0 <= workers → Scheduler_new max_sessions workers allocated spawned = Ok s0 →
  (∀ pre, pre `prefix_of` es → ready_at k (steps pre (steps before s0)) = true) →
  Z.of_nat (length (started es (steps before s0))) < max_sessions.
Proof.
  intros Hm Hw Hn Hready. destruct (good_new _ _ _ _ _ Hm Hw Hn) as (_ & _ & Hl).
  assert (length (sc_slots (steps before s0)) = Z.to_nat max_sessions) as Hlen.
  { rewrite <-Hl. clear. revert s0. induction before as [|e before IH]; intros s0; [done|].
    etrans; [apply (IH (step e s0))|]. apply step_length. }
  pose proof (started_bounded k es _ Hready) as Hb.
  pose proof (Hready [] (prefix_nil _)) as Hk. simpl in Hk. unfold ready_at in Hk.
  destruct (entry_at k (steps before s0)) as [e|] eqn:He; [|done].
  pose proof (distance_lt _ k (entry_bound _ _ _ He)). lia.
Qed.

(** C25: A shutdown drains the pool.  Once it is closed the threads take at most
    twice as many turns as there are threads, however they are scheduled; and
    when none can take another, every thread has returned and every slot is
    free. *)
Theorem scheduler_drains max_sessions workers allocated spawned s0 before es :
  0 <= max_sessions → 0 <= workers → Scheduler_new max_sessions workers allocated spawned = Ok s0 →
  let s1 := steps before s0 in
  sc_closed s1 = true → all_turns es s1 →
  let s2 := steps es s1 in
  (length es <= 2 * length (sc_threads s1))%nat
  ∧ (Forall (λ t, is_ready t = false ∧ is_busy t = false) (sc_threads s2) →
     Forall (λ t, t = Exited) (sc_threads s2) ∧ ∀ i, entry_at i s2 = None).
Proof.
  intros Hm Hw Hn s1 Hc Hes s2. destruct (good_new _ _ _ _ _ Hm Hw Hn) as (Hs0 & Ha0 & _).
  destruct (good_steps before s0 Hs0 Ha0) as [Hs1 Ha1]. fold s1 in Hs1, Ha1.
  destruct (good_steps es s1 Hs1 Ha1) as [Hs2 Ha2]. fold s2 in Hs2, Ha2.
  destruct (turns_left es s1 Hs1 Ha1 Hc Hes) as [Hc2 Hl]. fold s2 in Hc2, Hl.
  split.
  { unfold left_over in Hl at 2. pose proof (count_all (sc_threads s1)). lia. }
  intros Hstuck. rewrite Forall_lookup in Hstuck.
  assert (Forall (λ t, t = Exited) (sc_threads s2)) as Hall.
  { apply Forall_lookup. intros i t Hi. destruct (Hstuck i t Hi) as [Hr Hb]. destruct t; try done.
    pose proof (count_pos is_waiting _ _ _ Hi eq_refl) as Hp. pose proof (at_open s2 Ha2 Hp). congruence. }
  split; [done|]. intros i. destruct (entry_at i s2) as [e|] eqn:He; [|done]. exfalso.
  pose proof (at_closing s2 Ha2 i e He (at_closed s2 Ha2 i e Hc2 He)) as Hru.
  pose proof (se_flag s2 Hs2 i e He Hru) as Hin.
  assert (running (sc_threads s2) = []) as Hnil.
  { clear -Hall. unfold running. induction Hall as [|t ts -> _ IH]; [done|]. exact IH. }
  rewrite Hnil in Hin. by apply elem_of_nil in Hin.
Qed.

(** *** Witnesses *)

(** Three slots, two threads. *)
Definition demo_scheduler : Scheduler := {|
  sc_slots := [None; None; None]; sc_next := 0; sc_cursor := 0; sc_closed := false;
  sc_threads := [Ready; Ready]; sc_clock := 0 |}.
Definition all_alive : nat → bool := λ _, true.
(** Two registrations; both threads wait; both are woken, one is started and
    woken again while it runs. *)
Definition demo_events : list event :=
  [S_register 10 all_alive; S_register 20 all_alive; S_take 0 1 all_alive all_alive;
   S_take 1 1 all_alive all_alive; S_wake 0 1 0; S_wake 1 2 1; S_take 0 1 all_alive all_alive;
   S_wake 0 1 0]%nat%N.

Lemma registration_serialized_witness :
  let s := steps demo_events demo_scheduler in
  rn_index <$> running (sc_threads s) = [0%nat] ∧ NoDup (rn_index <$> running (sc_threads s)).
Proof.
  split; [reflexivity|].
  apply (registration_serialized 3 2 true (λ _, true) demo_scheduler demo_events
           ltac:(lia) ltac:(lia) eq_refl).
Defined.
Lemma no_wake_lost_witness :
  let s := steps [S_register 10 all_alive; S_take 0 1 all_alive all_alive; S_take 1 1 all_alive all_alive;
                  S_wake 0 1 0]%nat%N demo_scheduler in
  count (asleep (sc_clock s)) (sc_threads s) = 1%nat ∧ count slot_ready (sc_slots s) = 1%nat
  ∧ (count slot_ready (sc_slots s) <= count is_ready (sc_threads s))%nat.
Proof.
  split; [reflexivity|]. split; [reflexivity|].
  destruct (no_wake_lost 3 2 true (λ _, true) demo_scheduler
    [S_register 10 all_alive; S_take 0 1 all_alive all_alive; S_take 1 1 all_alive all_alive;
     S_wake 0 1 0]%nat%N ltac:(lia) ltac:(lia) eq_refl) as (_ & _ & H & _).
  apply H. vm_compute. lia.
Defined.
(** Registration 0, woken while it ran, lets registration 1 go first. *)
Lemma bounded_bypass_witness :
  let before := demo_events ++ [S_finish 0 (Some Dormant) None false 5%N] in
  let es := [S_take 0 1%N all_alive all_alive] in
  started es (steps before demo_scheduler) = [1%nat]
  ∧ Z.of_nat (length (started es (steps before demo_scheduler))) < 3.
Proof.
  split; [reflexivity|].
  apply (bounded_bypass 3 2 true (λ _, true) demo_scheduler _ 0 _ ltac:(lia) ltac:(lia) eq_refl).
  intros [|a [|b pre]] Hp; [reflexivity| |].
  - apply prefix_cons_inv_1 in Hp as ->. reflexivity.
  - apply prefix_length in Hp. simpl in Hp. lia.
Defined.
Lemma scheduler_drains_witness :
  let s := steps [S_finish 0 None (Some Dormant) false 3; S_take 1 1 all_alive all_alive;
                  S_take 0 1 all_alive all_alive]%nat%N (steps (demo_events ++ [S_shutdown]) demo_scheduler) in
  Forall (λ t, t = Exited) (sc_threads s) ∧ ∀ i, entry_at i s = None.
Proof.
  refine (proj2 (scheduler_drains 3 2 true (λ _, true) demo_scheduler (demo_events ++ [S_shutdown]) _
    ltac:(lia) ltac:(lia) eq_refl eq_refl _) _).
  - vm_compute. repeat split.
  - vm_compute. repeat constructor.
Defined.
