(* ===== verification/Lifecycle.v ===== *)
(** * The owner of sessions (crates/application/src/runtime/owner.rs,
      lifecycle.rs, projected.rs, session.rs, and
      crates/infrastructure/src/registry/mod.rs)

    [Runtime] admits spawns through a gate, registers contexts, owns the
    projections and shuts everything down.  [spawn], [forget], [cancel] and
    [shutdown] are called from any number of threads: a call is a thread with a
    program counter, and one event is one step of one thread, that is one lock
    section or one call of the backend, or a change made by a process or a
    coordinator. *)

From S2P Require Import Prelude Identity Replay Process Terminal Checkpoint Projection Session Threads.

(** ** The gate (lifecycle.rs) *)

Record Gate := { ga_closing : bool; ga_sequence : Z; ga_spawns : Z }.
Definition Gate_new : Gate := {| ga_closing := false; ga_sequence := 0; ga_spawns := 0 |}.
Definition admit_spawn (owner : Z) : action Gate RuntimeError SessionLifetime := λ g,
  if ga_closing g then (g, Err RuntimeError_Closed)
  else match checked_add u64_max (ga_sequence g) 1, checked_add usize_max (ga_spawns g) 1 with
  | Some sequence, Some spawns =>
    ({| ga_closing := ga_closing g; ga_sequence := sequence; ga_spawns := spawns |},
     Ok (SessionLifetime_new owner sequence))
  | _, _ => (g, Err RuntimeError_Capacity)
  end.
Definition begin_shutdown (g : Gate) : Gate := {|
  ga_closing := true; ga_sequence := ga_sequence g; ga_spawns := ga_spawns g |}.
Definition Admission_drop (g : Gate) : Gate := {|
  ga_closing := ga_closing g; ga_sequence := ga_sequence g; ga_spawns := ga_spawns g - 1 |}.
(** Whether [wait_for_spawns] returns. *)
Definition no_spawns (g : Gate) : bool := ga_spawns g =? 0.

(** ** Contexts, coordinators and slots *)

(** An [Arc] of a context, of a coordinator, and a process of the backend. *)
Abbreviation ctx := nat.
Abbreviation coord := nat.
Abbreviation proc := nat.

Record Ctx := {
  x_lifetime : SessionLifetime;
  x_status : SessionStatus;
  x_process : option proc;
  x_projection : option coord
}.
Definition Ctx_new (lifetime : SessionLifetime) : Ctx := {|
  x_lifetime := lifetime; x_status := SessionStatus_default; x_process := None; x_projection := None |}.
Definition ctx_status (f : SessionStatus → SessionStatus) (x : Ctx) : Ctx := {|
  x_lifetime := x_lifetime x; x_status := f (x_status x); x_process := x_process x;
  x_projection := x_projection x |}.
Definition ctx_process (p : proc) (x : Ctx) : Ctx := {|
  x_lifetime := x_lifetime x; x_status := x_status x; x_process := Some p;
  x_projection := x_projection x |}.
Definition ctx_projection (k : coord) (x : Ctx) : Ctx := {|
  x_lifetime := x_lifetime x; x_status := x_status x; x_process := x_process x;
  x_projection := Some k |}.

(** What the owner sees of a coordinator. *)
Record Coord := {
  k_process : option proc;
  k_closing : bool;
  (** [close_outcome], present exactly when the residency is [Closed] *)
  k_outcome : option (result ProjectionError ())
}.
Definition Coord_new : Coord := {| k_process := None; k_closing := false; k_outcome := None |}.
Definition coord_bind (p : proc) (k : Coord) : Coord :=
  {| k_process := Some p; k_closing := k_closing k; k_outcome := k_outcome k |}.
Definition coord_close (k : Coord) : Coord :=
  {| k_process := k_process k; k_closing := true; k_outcome := k_outcome k |}.
Definition coord_closed (outcome : result ProjectionError ()) (k : Coord) : Coord :=
  {| k_process := k_process k; k_closing := true; k_outcome := Some outcome |}.

Inductive Slot := Vacant | Reserved | Owned (k : coord).
#[export] Instance Slot_eq_dec : EqDecision Slot.
Proof. solve_decision. Defined.

(** The calls of the backend, in order. *)
Inductive backend_call :=
  | Backend_spawned (p : proc)
  | Backend_shutdown
  | Backend_cancel (p : proc).
#[export] Instance backend_call_eq_dec : EqDecision backend_call.
Proof. solve_decision. Defined.

Record Rt := {
  rt_gate : Gate;
  rt_entries : gmap SessionId ctx;
  rt_contexts : list Ctx;
  rt_coords : list Coord;
  rt_slots : list Slot;
  rt_services : bool;
  rt_locked : bool;
  (** ---- *)
  rt_log : list backend_call
}.
Definition set_gate (g : Gate) (s : Rt) : Rt := {|
  rt_gate := g; rt_entries := rt_entries s; rt_contexts := rt_contexts s; rt_coords := rt_coords s;
  rt_slots := rt_slots s; rt_services := rt_services s; rt_locked := rt_locked s; rt_log := rt_log s |}.
Definition set_entries (m : gmap SessionId ctx) (s : Rt) : Rt := {|
  rt_gate := rt_gate s; rt_entries := m; rt_contexts := rt_contexts s; rt_coords := rt_coords s;
  rt_slots := rt_slots s; rt_services := rt_services s; rt_locked := rt_locked s; rt_log := rt_log s |}.
Definition set_contexts (l : list Ctx) (s : Rt) : Rt := {|
  rt_gate := rt_gate s; rt_entries := rt_entries s; rt_contexts := l; rt_coords := rt_coords s;
  rt_slots := rt_slots s; rt_services := rt_services s; rt_locked := rt_locked s; rt_log := rt_log s |}.
Definition set_coords (l : list Coord) (s : Rt) : Rt := {|
  rt_gate := rt_gate s; rt_entries := rt_entries s; rt_contexts := rt_contexts s; rt_coords := l;
  rt_slots := rt_slots s; rt_services := rt_services s; rt_locked := rt_locked s; rt_log := rt_log s |}.
Definition set_slots (l : list Slot) (s : Rt) : Rt := {|
  rt_gate := rt_gate s; rt_entries := rt_entries s; rt_contexts := rt_contexts s;
  rt_coords := rt_coords s; rt_slots := l; rt_services := rt_services s; rt_locked := rt_locked s;
  rt_log := rt_log s |}.
Definition set_services (b : bool) (s : Rt) : Rt := {|
  rt_gate := rt_gate s; rt_entries := rt_entries s; rt_contexts := rt_contexts s;
  rt_coords := rt_coords s; rt_slots := rt_slots s; rt_services := b; rt_locked := rt_locked s;
  rt_log := rt_log s |}.
Definition set_locked (b : bool) (s : Rt) : Rt := {|
  rt_gate := rt_gate s; rt_entries := rt_entries s; rt_contexts := rt_contexts s;
  rt_coords := rt_coords s; rt_slots := rt_slots s; rt_services := rt_services s; rt_locked := b;
  rt_log := rt_log s |}.
Definition logged (c : backend_call) (s : Rt) : Rt := {|
  rt_gate := rt_gate s; rt_entries := rt_entries s; rt_contexts := rt_contexts s;
  rt_coords := rt_coords s; rt_slots := rt_slots s; rt_services := rt_services s;
  rt_locked := rt_locked s; rt_log := rt_log s ++ [c] |}.

Definition at_ctx (c : ctx) (f : Ctx → Ctx) (s : Rt) : Rt := set_contexts (alter f c (rt_contexts s)) s.
Definition at_coord (k : coord) (f : Coord → Coord) (s : Rt) : Rt := set_coords (alter f k (rt_coords s)) s.
Definition outcome_of (k : coord) (s : Rt) : option (result ProjectionError ()) :=
  rt_coords s !! k ≫= k_outcome.
Definition is_closed (k : coord) (s : Rt) : bool := is_some (outcome_of k s).
Definition is_complete (c : ctx) (s : Rt) : bool :=
  match rt_contexts s !! c with Some x => is_some (completion (x_status x)) | None => false end.
Definition lifetime_of (c : ctx) (s : Rt) : option SessionLifetime := x_lifetime <$> rt_contexts s !! c.

(** ** The registry (registry/mod.rs) *)

Definition repo_register (id : SessionId) (c : ctx) (capacity : Z)
    : action (gmap SessionId ctx) RuntimeError () := λ m,
  if is_some (m !! id) then (m, Err RuntimeError_ExistingSession)
  else if capacity <=? Z.of_nat (size m) then (m, Err RuntimeError_Capacity)
  else (<[id := c]> m, Ok tt).
Definition repo_lookup (id : SessionId) (m : gmap SessionId ctx) : result RuntimeError ctx :=
  ok_or (m !! id) RuntimeError_MissingSession.
(** The comparison and removal of [remove_finished] and [rollback_spawn]. *)
Definition repo_remove (id : SessionId) (lifetime : option SessionLifetime) (s : Rt) : Rt * bool :=
  match rt_entries s !! id with
  | Some current =>
    if bool_decide (lifetime_of current s = lifetime)
    then (set_entries (delete id (rt_entries s)) s, true) else (s, false)
  | None => (s, false)
  end.
(** [remove_finished] before its comparison, and [rollback_spawn]. *)
Definition remove_check (id : SessionId) (lifetime : option SessionLifetime) (s : Rt) : result RuntimeError () :=
  match repo_lookup id (rt_entries s) with
  | Err e => Err e
  | Ok found =>
    if bool_decide (lifetime_of found s ≠ lifetime) then Err RuntimeError_MissingSession
    else if negb (is_complete found s) then Err RuntimeError_NotFinished
    else Ok tt
  end.
Definition rollback_spawn (id : SessionId) (lifetime : option SessionLifetime) (s : Rt) : Rt :=
  (repo_remove id lifetime s).1.
Arguments rollback_spawn id lifetime s /.

(** ** Slots (projected.rs) *)

Definition vacate (s : Rt) (slot : Slot) : Slot :=
  match slot with Owned k => if is_closed k s then Vacant else slot | _ => slot end.
Fixpoint position_vacant (slots : list Slot) : option nat :=
  match slots with
  | [] => None
  | Vacant :: _ => Some O
  | _ :: slots => S <$> position_vacant slots
  end.
Definition reserve (s : Rt) : Rt * result RuntimeError nat :=
  let slots := vacate s <$> rt_slots s in
  match position_vacant slots with
  | None => (set_slots slots s, Err RuntimeError_Capacity)
  | Some index => (set_slots (<[index := Reserved]> slots) s, Ok index)
  end.

(** ** Calls *)

Inductive failure := Admission_failure (e : RuntimeError) | Process_failure (e : ProcessError).
Definition failure_error (f : failure) : RuntimeError :=
  match f with Admission_failure e => e | Process_failure e => RuntimeError_Process e end.
(** [update_and_notify] on the two error paths of [spawn]. *)
Definition failed_status (f : failure) (s : SessionStatus) : SessionStatus :=
  match f with
  | Admission_failure e => (record_drain DrainOutcome_Eof (record_admission_failure e s)).1
  | Process_failure e => (record_drain (DrainOutcome_Failed e) (record_failure e s)).1
  end.

(** Where [spawn] is: each constructor is about to do what it is named for. *)
Inductive spawning :=
  | Sp_admit
  | Sp_register (c : ctx)
  | Sp_reserve (c : ctx)
  | Sp_create (c : ctx) (index : nat)
  | Sp_publish (c : ctx) (index : nat) (k : coord)
  | Sp_attach (c : ctx) (k : coord)
  | Sp_backend (c : ctx) (k : option coord)
  | Sp_store (c : ctx) (p : proc) (k : option coord)
  | Sp_bind (c : ctx) (p : proc) (k : coord)
  | Sp_closing (c : ctx) (p : proc)
  | Sp_cancelled (c : ctx) (p : proc) (closing : bool)
  | Sp_request (c : ctx) (p : proc)
  | Sp_fail (c : ctx) (f : failure) (k : option coord)
  | Sp_rollback (c : ctx) (f : failure) (k : option coord)
  | Sp_close (f : failure) (k : coord)
  | Sp_wait (f : failure) (k : coord)
  | Sp_return (r : result RuntimeError ctx).
Inductive forgetting :=
  | Fo_lookup
  | Fo_completion (c : ctx)
  | Fo_close (c : ctx) (k : coord)
  | Fo_wait (c : ctx) (k : coord)
  | Fo_check (c : ctx)
  | Fo_remove (c : ctx).
Inductive cancelling :=
  | Ca_status
  | Ca_process
  | Ca_request (p : proc).
Inductive closing_down :=
  | Cl_lock
  | Cl_begin
  | Cl_backend
  | Cl_spawns
  | Cl_take
  | Cl_close (todo all : list coord)
  | Cl_wait (k : coord) (todo all : list coord)
  | Cl_services (all : list coord)
  | Cl_finish (all : list coord)
  | Cl_unlock.
Inductive call :=
  | Spawning (id : SessionId) (projected : bool) (at_ : spawning)
  | Forgetting (id : SessionId) (at_ : forgetting)
  | Cancelling (c : ctx) (at_ : cancelling)
  | Closing_down (at_ : closing_down)
  | Spawned (r : result RuntimeError ctx)
  | Forgot (r : result RuntimeError ())
  | Cancelled (c : ctx) (r : result RuntimeError ())
  | Closed_down.

(** What the code called answers: a coordinator's creation or close, or the
    backend's spawn.  A close that is refused for want of an observation slot is
    [Answer_ok] too: the code treats it so, the closure being durable. *)
Inductive answer := Answer_ok | Answer_runtime (e : RuntimeError) | Answer_process (e : ProcessError).

Section calls.
Context (owner max_sessions : Z) (has_projection : bool).

(** [spawn], after its options are validated. *)
Definition step_spawn (id : SessionId) (projected : bool) (a : answer) (at_ : spawning) (s : Rt)
    : Rt * call :=
  let go at_ := Spawning id projected at_ in
  match at_ with
  | Sp_admit =>
    match admit_spawn owner (rt_gate s) with
    | (g, Ok lifetime) =>
      (set_contexts (rt_contexts s ++ [Ctx_new lifetime]) (set_gate g s),
       go (Sp_register (length (rt_contexts s))))
    | (g, Err e) => (set_gate g s, Spawned (Err e))
    end
  | Sp_register c =>
    match repo_register id c max_sessions (rt_entries s) with
    | (m, Ok _) => (set_entries m s, go (if projected then Sp_reserve c else Sp_backend c None))
    | (m, Err e) => (set_entries m s, go (Sp_return (Err e)))
    end
  | Sp_reserve c =>
    match reserve s with
    | (s, Ok index) => (s, go (Sp_create c index))
    | (s, Err e) => (s, go (Sp_fail c (Admission_failure e) None))
    end
  | Sp_create c index =>
    (* a reservation that is not published is given back *)
    let refuse e := (set_slots (<[index := Vacant]> (rt_slots s)) s,
                     go (Sp_fail c (Admission_failure e) None)) in
    if negb (rt_services s) then refuse RuntimeError_Closed
    else match a with
    | Answer_ok =>
      (set_coords (rt_coords s ++ [Coord_new]) s, go (Sp_publish c index (length (rt_coords s))))
    | Answer_runtime e => refuse e
    | Answer_process e => refuse (RuntimeError_Process e)
    end
  | Sp_publish c index k =>
    (set_slots (<[index := Owned k]> (rt_slots s)) s, go (Sp_attach c k))
  | Sp_attach c k => (at_ctx c (ctx_projection k) s, go (Sp_backend c (Some k)))
  | Sp_backend c k =>
    match a with
    | Answer_process e => (s, go (Sp_fail c (Process_failure e) k))
    | _ => let p := length (rt_log s) in (logged (Backend_spawned p) s, go (Sp_store c p k))
    end
  | Sp_store c p k =>
    (at_ctx c (ctx_process p) s,
     go (match k with Some k => Sp_bind c p k | None => Sp_closing c p end))
  | Sp_bind c p k => (at_coord k (coord_bind p) s, go (Sp_closing c p))
  | Sp_closing c p => (s, go (Sp_cancelled c p (ga_closing (rt_gate s))))
  | Sp_cancelled c p closing =>
    let cancelled := match rt_contexts s !! c with
                     | Some x => ss_cancellation_requested (x_status x) | None => false end in
    (s, go (if closing || cancelled then Sp_request c p else Sp_return (Ok c)))
  | Sp_request c p => (logged (Backend_cancel p) s, go (Sp_return (Ok c)))
  | Sp_fail c f k => (at_ctx c (ctx_status (failed_status f)) s, go (Sp_rollback c f k))
  | Sp_rollback c f k =>
    (rollback_spawn id (lifetime_of c s) s,
     go (match k with Some k => Sp_close f k | None => Sp_return (Err (failure_error f)) end))
  | Sp_close f k =>
    if is_closed k s || negb (rt_services s) then (s, go (Sp_return (Err (failure_error f))))
    else match a with
    | Answer_ok => (at_coord k coord_close s, go (Sp_wait f k))
    | _ => (s, go (Sp_return (Err (failure_error f))))
    end
  | Sp_wait f k =>
    (s, if is_closed k s then go (Sp_return (Err (failure_error f))) else go (Sp_wait f k))
  | Sp_return r => (set_gate (Admission_drop (rt_gate s)) s, Spawned r)
  end.

(** [forget], with [remove_finished]. *)
Definition step_forget (id : SessionId) (a : answer) (at_ : forgetting) (s : Rt) : Rt * call :=
  let go at_ := Forgetting id at_ in
  (* [outcome.map_err(Into::into)?] *)
  let closed c k := match outcome_of k s with
    | Some (Err e) => Forgot (Err (RuntimeError_Projection e))
    | _ => go (Fo_check c)
    end in
  match at_ with
  | Fo_lookup =>
    (s, match repo_lookup id (rt_entries s) with Ok c => go (Fo_completion c) | Err e => Forgot (Err e) end)
  | Fo_completion c =>
    (s, if negb (is_complete c s) then Forgot (Err RuntimeError_NotFinished)
        else match rt_contexts s !! c ≫= x_projection with
        | Some k => if has_projection then go (Fo_close c k) else go (Fo_check c)
        | None => go (Fo_check c)
        end)
  | Fo_close c k =>
    if is_closed k s then (s, closed c k)
    else if negb (rt_services s) then (s, Forgot (Err RuntimeError_Closed))
    else match a with
    | Answer_ok => (at_coord k coord_close s, go (Fo_wait c k))
    | Answer_runtime e => (s, Forgot (Err e))
    | Answer_process e => (s, Forgot (Err (RuntimeError_Process e)))
    end
  | Fo_wait c k => (s, if is_closed k s then closed c k else go (Fo_wait c k))
  | Fo_check c =>
    (s, match remove_check id (lifetime_of c s) s with Ok _ => go (Fo_remove c) | Err e => Forgot (Err e) end)
  | Fo_remove c =>
    let (s', removed) := repo_remove id (lifetime_of c s) s in
    (s', Forgot (if removed then Ok tt else Err RuntimeError_MissingSession))
  end.

(** [Session::cancel]. *)
Definition step_cancel (c : ctx) (a : answer) (at_ : cancelling) (s : Rt) : Rt * call :=
  match at_ with
  | Ca_status =>
    match rt_contexts s !! c with
    | Some x =>
      match admit_cancel (x_status x) with
      | (status, Ok _) => (at_ctx c (ctx_status (λ _, status)) s, Cancelling c Ca_process)
      | (_, Err e) => (s, Cancelled c (Err e))
      end
    | None => (s, Cancelled c (Err RuntimeError_Internal))
    end
  | Ca_process =>
    (s, match rt_contexts s !! c ≫= x_process with
        | Some p => Cancelling c (Ca_request p)
        | None => Cancelled c (Ok tt)
        end)
  | Ca_request p =>
    (logged (Backend_cancel p) s,
     Cancelled c (match a with Answer_process e => Err (RuntimeError_Process e) | _ => Ok tt end))
  end.

Definition owned_coords (slots : list Slot) : list coord :=
  slots ≫= λ slot, match slot with Owned k => [k] | _ => [] end.
(** What [finish_after_shutdown] leaves as the outcome of the close. *)
Definition teardown_outcome (a : answer) : result ProjectionError () :=
  match a with Answer_runtime (RuntimeError_Projection e) => Err e | _ => Ok tt end.
(** [shutdown], with [ProjectionRuntime::shutdown]. *)
Definition step_shutdown (a : answer) (at_ : closing_down) (s : Rt) : Rt * call :=
  let go := Closing_down in
  match at_ with
  | Cl_lock => if rt_locked s then (s, go Cl_lock) else (set_locked true s, go Cl_begin)
  | Cl_begin => (set_gate (begin_shutdown (rt_gate s)) s, go Cl_backend)
  | Cl_backend => (logged Backend_shutdown s, go Cl_spawns)
  | Cl_spawns =>
    (s, if negb (no_spawns (rt_gate s)) then go Cl_spawns
        else if has_projection then go Cl_take else go Cl_unlock)
  | Cl_take =>
    let all := owned_coords (rt_slots s) in (set_slots [] s, go (Cl_close all all))
  | Cl_close [] all => (s, go (Cl_services all))
  | Cl_close (k :: todo) all =>
    if is_closed k s || negb (rt_services s) then (s, go (Cl_close todo all))
    else match a with
    | Answer_ok => (at_coord k coord_close s, go (Cl_wait k todo all))
    | _ => (s, go (Cl_close todo all))
    end
  | Cl_wait k todo all => (s, if is_closed k s then go (Cl_close todo all) else go (Cl_wait k todo all))
  | Cl_services all => if rt_services s then (set_services false s, go (Cl_finish all)) else (s, go Cl_unlock)
  | Cl_finish [] => (s, go Cl_unlock)
  | Cl_finish (k :: all) =>
    (if is_closed k s then s else at_coord k (coord_closed (teardown_outcome a)) s, go (Cl_finish all))
  | Cl_unlock => (set_locked false s, Closed_down)
  end.

Definition step_call (a : answer) (c : call) (s : Rt) : Rt * call :=
  match c with
  | Spawning id projected at_ => step_spawn id projected a at_ s
  | Forgetting id at_ => step_forget id a at_ s
  | Cancelling c at_ => step_cancel c a at_ s
  | Closing_down at_ => step_shutdown a at_ s
  | _ => (s, c)
  end.

(** ** Histories *)

Record World := { v_rt : Rt; v_calls : list call }.
Inductive event :=
  | V_spawn (id : SessionId) (projected : bool)
  | V_forget (id : SessionId)
  | V_cancel (c : ctx)
  | V_shutdown
  | V_step (i : nat) (a : answer)
  (** the process of a context reports *)
  | V_report (c : ctx) (op : status_op)
  (** a coordinator that was asked to close has closed *)
  | V_closed (k : coord) (outcome : result ProjectionError ()).

(** A projected session needs services. *)
Definition start (c : call) (w : World) : World := {| v_rt := v_rt w; v_calls := v_calls w ++ [c] |}.
Definition on_rt (f : Rt → Rt) (w : World) : World := {| v_rt := f (v_rt w); v_calls := v_calls w |}.
Definition is_report (op : status_op) : bool :=
  match op with Request_cancel => false | _ => true end.
Definition happen (e : event) (w : World) : World :=
  match e with
  | V_spawn id projected =>
    start (if projected && negb has_projection
           then Spawned (Err (RuntimeError_Projection (ProjectionError_Terminal TerminalError_Unsupported)))
           else Spawning id projected Sp_admit) w
  | V_forget id => start (Forgetting id Fo_lookup) w
  | V_cancel c => start (Cancelling c Ca_status) w
  | V_shutdown => start (Closing_down Cl_lock) w
  | V_step i a =>
    match v_calls w !! i with
    | Some c => let (s, c) := step_call a c (v_rt w) in
                {| v_rt := s; v_calls := <[i := c]> (v_calls w) |}
    | None => w
    end
  | V_report c op =>
    if is_report op then on_rt (at_ctx c (ctx_status (apply_status_op op))) w else w
  | V_closed k outcome =>
    match rt_coords (v_rt w) !! k with
    | Some x => if k_closing x && is_none (k_outcome x) then on_rt (at_coord k (coord_closed outcome)) w else w
    | None => w
    end
  end.
Definition happens (es : list event) (w : World) : World := foldl (flip happen) w es.

Definition Rt_new : Rt := {|
  rt_gate := Gate_new; rt_entries := ∅; rt_contexts := []; rt_coords := [];
  rt_slots := if has_projection then replicate (Z.to_nat max_sessions) Vacant else [];
  rt_services := has_projection; rt_locked := false; rt_log := [] |}.
Definition World_new : World := {| v_rt := Rt_new; v_calls := [] |}.
End calls.

(** ** What every event respects *)

Definition complete (x : Ctx) : bool := is_some (completion (x_status x)).
Definition requested (x : Ctx) : bool := ss_cancellation_requested (x_status x).

Record evolves (s s' : Rt) : Prop := {
  ev_ctx i x : rt_contexts s !! i = Some x →
    ∃ x', rt_contexts s' !! i = Some x' ∧ x_lifetime x' = x_lifetime x
      ∧ (complete x = true → complete x' = true) ∧ (requested x = true → requested x' = true);
  ev_closed k : is_closed k s = true → is_closed k s' = true;
  ev_coords : (length (rt_coords s) <= length (rt_coords s'))%nat;
  ev_closing : ga_closing (rt_gate s) = true → ga_closing (rt_gate s') = true;
  ev_log : rt_log s `prefix_of` rt_log s'
}.
#[export] Instance evolves_refl : Reflexive evolves.
Proof. intros s. split; try done. intros i x Hx. by exists x. Qed.
#[export] Instance evolves_trans : Transitive evolves.
Proof.
  intros s1 s2 s3 [A1 A2 A3 A4 A5] [B1 B2 B3 B4 B5]. split; auto; try lia; [|by etrans].
  intros i x Hx. destruct (A1 i x Hx) as (x2 & Hx2 & ? & ? & ?).
  destruct (B1 i x2 Hx2) as (x3 & Hx3 & ? & ? & ?). exists x3. split; [done|].
  split; [congruence|]. auto.
Qed.

(** A change of one context, of one coordinator, and of what they do not see. *)
Record keeps_facts (f : Ctx → Ctx) : Prop := {
  kf_lifetime x : x_lifetime (f x) = x_lifetime x;
  kf_complete x : complete x = true → complete (f x) = true;
  kf_requested x : requested x = true → requested (f x) = true
}.
Lemma evolves_ctx c f s : keeps_facts f → evolves s (at_ctx c f s).
Proof.
  intros [H1 H2 H3]. split; try done. intros i x Hx. simpl. destruct (decide (c = i)) as [->|Hne].
  - exists (f x). rewrite list_lookup_alter_eq, Hx. auto.
  - exists x. by rewrite list_lookup_alter_ne.
Qed.
Lemma evolves_coord k f s :
  (∀ x, is_some (k_outcome x) = true → is_some (k_outcome (f x)) = true) → evolves s (at_coord k f s).
Proof.
  intros Hf. split; simpl; try done; [by intros i x Hx; exists x| |by rewrite length_alter].
  intros j. unfold is_closed, outcome_of. simpl. destruct (decide (k = j)) as [->|Hne].
  - rewrite list_lookup_alter_eq. destruct (rt_coords s !! j); simpl; auto.
  - by rewrite list_lookup_alter_ne.
Qed.
Lemma evolves_same s s' :
  rt_contexts s' = rt_contexts s → rt_coords s' = rt_coords s → ga_closing (rt_gate s') = ga_closing (rt_gate s) →
  rt_log s' = rt_log s → evolves s s'.
Proof.
  intros H1 H2 H3 H4. split; unfold is_closed, outcome_of; rewrite ?H1, ?H2, ?H3, ?H4; try done.
  intros i x Hx. by exists x.
Qed.
Lemma evolves_logged b s : evolves s (logged b s).
Proof. split; simpl; try done; [intros i x Hx; by exists x|by eexists]. Qed.
Lemma evolves_new_ctx x s : evolves s (set_contexts (rt_contexts s ++ [x]) s).
Proof.
  split; simpl; try done. intros i y Hy. exists y. split; [by apply lookup_app_l_Some|done].
Qed.
Lemma evolves_new_coord k s : evolves s (set_coords (rt_coords s ++ [k]) s).
Proof.
  split; simpl; try done; [intros i y Hy; by exists y| |rewrite length_app; lia].
  intros j. unfold is_closed, outcome_of. simpl. destruct (rt_coords s !! j) as [x|] eqn:Hx; [|done].
  by rewrite (lookup_app_l_Some _ _ _ _ Hx).
Qed.

Lemma completion_facts s :
  is_some (completion s)
  = (is_some (ss_exit s) || is_some (ss_supervision_error s) || is_some (ss_admission_error s))
    && is_some (ss_drain s).
Proof. unfold completion. by case_match. Qed.
Lemma get_or_insert_is_some {X} (o : option X) v : is_some (get_or_insert o v) = true.
Proof. by destruct o. Qed.
(** A report keeps the completion and the cancellation. *)
Lemma apply_status_op_keeps op s :
  (is_some (completion s) = true → is_some (completion (apply_status_op op s)) = true)
  ∧ (ss_cancellation_requested s = true → ss_cancellation_requested (apply_status_op op s) = true).
Proof.
  rewrite !completion_facts.
  destruct op; simpl; unfold record_exit, record_drain, admit_cancel;
    repeat (case_match; simpl); rewrite ?get_or_insert_is_some, ?orb_true_r;
    split; try done; rewrite ?andb_true_iff; intros [? ?]; by rewrite ?orb_true_r.
Qed.

Lemma keeps_projection k : keeps_facts (ctx_projection k).
Proof. by split. Qed.
Lemma keeps_process p : keeps_facts (ctx_process p).
Proof. by split. Qed.
Lemma keeps_report op : keeps_facts (ctx_status (apply_status_op op)).
Proof.
  split; [done| |]; intros x; unfold complete, requested; simpl; by apply apply_status_op_keeps.
Qed.
Lemma keeps_failed f : keeps_facts (ctx_status (failed_status f)).
Proof.
  split; [done| |]; intros x; unfold complete, requested; simpl; destruct f as [e|e]; intros H.
  - by apply (apply_status_op_keeps (Report_drain DrainOutcome_Eof)),
      (apply_status_op_keeps (Report_admission_failure e)).
  - by apply (apply_status_op_keeps (Report_drain (DrainOutcome_Failed e))),
      (apply_status_op_keeps (Report_failure e)).
  - by apply (apply_status_op_keeps (Report_drain DrainOutcome_Eof)),
      (apply_status_op_keeps (Report_admission_failure e)).
  - by apply (apply_status_op_keeps (Report_drain (DrainOutcome_Failed e))),
      (apply_status_op_keeps (Report_failure e)).
Qed.

Lemma reserve_slots s : ∃ slots r, reserve s = (set_slots slots s, r).
Proof. unfold reserve. case_match; by eexists _, _. Qed.

Section evolution.
Context (owner max_sessions : Z) (has_projection : bool).
Abbreviation step_spawn := (step_spawn owner max_sessions).
Abbreviation step_call := (step_call owner max_sessions has_projection).
Abbreviation happen := (happen owner max_sessions has_projection).

Lemma admit_spawn_closing g g' r : admit_spawn owner g = (g', r) → ga_closing g' = ga_closing g.
Proof. unfold admit_spawn. repeat case_match; by intros [= <- _]. Qed.
Lemma evolves_reserve s s' r : reserve s = (s', r) → evolves s s'.
Proof. unfold reserve. case_match; intros [= <- _]; by apply evolves_same. Qed.
Lemma evolves_remove id l s : evolves s (repo_remove id l s).1.
Proof. unfold repo_remove. repeat case_match; try done; by apply evolves_same. Qed.

Lemma evolves_spawn id projected a at_ s : evolves s (step_spawn id projected a at_ s).1.
Proof.
  assert (∀ i x, evolves s (set_slots (<[i := x]> (rt_slots s)) s)) as Hslot by (intros; by apply evolves_same).
  destruct at_ as [|c|c|c index|c index k|c k|c k|c p k|c p k|c p|c p closing|c p|c f k|c f k|f k|f k|r]; simpl.
  - destruct (admit_spawn owner (rt_gate s)) as [g [l|e]] eqn:Eg; simpl; apply admit_spawn_closing in Eg.
    + etrans; [|apply (evolves_new_ctx (Ctx_new l) (set_gate g s))]. by apply evolves_same.
    + by apply evolves_same.
  - destruct (repo_register _ _ _ _) as [m [u|e]]; by apply evolves_same.
  - destruct (reserve s) as [s' [i|e]] eqn:Er; simpl; by eapply evolves_reserve.
  - destruct (rt_services s); simpl; [|apply Hslot]. destruct a; simpl; try apply Hslot. apply evolves_new_coord.
  - apply Hslot.
  - apply evolves_ctx, keeps_projection.
  - destruct a; simpl; try done; apply evolves_logged.
  - apply evolves_ctx, keeps_process.
  - by apply evolves_coord.
  - done.
  - done.
  - apply evolves_logged.
  - apply evolves_ctx, keeps_failed.
  - apply evolves_remove.
  - destruct (_ || _); [done|]. destruct a; simpl; try done. by apply evolves_coord.
  - done.
  - by apply evolves_same.
Qed.
Lemma evolves_call a c s : evolves s (step_call a c s).1.
Proof.
  destruct c as [id projected at_|id at_|c at_|at_| | | |]; simpl; try done.
  - apply evolves_spawn.
  - destruct at_ as [|c|c k|c k|c|c]; simpl; try done.
    + destruct (is_closed k s); [done|]. destruct (rt_services s); simpl; [|done].
      destruct a; simpl; try done. by apply evolves_coord.
    + pose proof (evolves_remove id (lifetime_of c s) s) as H. by destruct (repo_remove _ _ _).
  - destruct at_; simpl; try done.
    + destruct (rt_contexts s !! c) as [x|] eqn:Hx; [|done].
      destruct (admit_cancel (x_status x)) as [status [u|e]] eqn:Ea; simpl; [|done].
      pose proof (apply_status_op_keeps Request_cancel (x_status x)) as [K1 K2]. simpl in K1, K2.
      rewrite Ea in K1, K2. simpl in K1, K2. split; try done. intros i y Hy. simpl.
      destruct (decide (c = i)) as [->|Hne].
      * rewrite list_lookup_alter_eq, Hy. rewrite Hx in Hy. injection Hy as <-. by eexists.
      * exists y. by rewrite list_lookup_alter_ne.
    + apply evolves_logged.
  - destruct at_ as [| | | | |[|k todo] all|k todo all|all|[|k all]|]; simpl; try done; try by apply evolves_same.
    + by destruct (rt_locked s); [|apply evolves_same].
    + split; simpl; try done. by intros i x Hx; exists x.
    + apply evolves_logged.
    + destruct (_ || _); [done|]. destruct a; simpl; try done. by apply evolves_coord.
    + by destruct (rt_services s); [apply evolves_same|].
    + destruct (is_closed k s); [done|]. by apply evolves_coord.
Qed.
Lemma evolves_happen e w : evolves (v_rt w) (v_rt (happen e w)).
Proof.
  destruct e as [id projected|id|c| |i a|c op|k outcome]; simpl; try done.
  - destruct (v_calls w !! i) as [c|]; [|done]. pose proof (evolves_call a c (v_rt w)) as H.
    by destruct (step_call a c (v_rt w)).
  - destruct (is_report op); [|done]. simpl. apply evolves_ctx, keeps_report.
  - destruct (rt_coords (v_rt w) !! k) as [x|]; [|done]. destruct (_ && _); [|done].
    simpl. by apply evolves_coord.
Qed.
End evolution.
