(* ===== verification/Registry.v ===== *)
(** * What the registry of sessions keeps

    Contexts carry distinct lifetimes, the registry stays within its capacity
    and a registered session keeps its context until it is complete or its spawn
    has failed, whatever the threads of Lifecycle.v do. *)

From S2P Require Import Prelude Identity Replay Process Terminal Checkpoint Projection Session Threads Lifecycle.

(** ** The registry *)

Definition sp_ctx (at_ : spawning) : option ctx :=
  match at_ with
  | Sp_admit => None
  | Sp_register c | Sp_reserve c | Sp_create c _ | Sp_publish c _ _ | Sp_attach c _ | Sp_backend c _
  | Sp_store c _ _ | Sp_bind c _ _ | Sp_closing c _ | Sp_cancelled c _ _ | Sp_request c _
  | Sp_fail c _ _ | Sp_rollback c _ _ => Some c
  | Sp_close _ _ | Sp_wait _ _ => None
  | Sp_return r => match r with Ok c => Some c | Err _ => None end
  end.
Definition fo_ctx (at_ : forgetting) : option ctx :=
  match at_ with
  | Fo_lookup => None
  | Fo_completion c | Fo_close c _ | Fo_wait c _ | Fo_check c | Fo_remove c => Some c
  end.
(** What a call relies on about its context. *)
Definition call_known (s : Rt) (c : call) : Prop :=
  match c with
  | Spawning _ _ at_ => ∀ c, sp_ctx at_ = Some c → is_Some (rt_contexts s !! c)
  | Forgetting _ at_ => ∀ c, fo_ctx at_ = Some c →
      is_Some (rt_contexts s !! c) ∧ (at_ = Fo_completion c ∨ is_complete c s = true)
  | _ => True
  end.
Lemma evolves_is_Some s s' c : evolves s s' → is_Some (rt_contexts s !! c) → is_Some (rt_contexts s' !! c).
Proof. intros He [x Hx]. destruct (ev_ctx _ _ He c x Hx) as (x' & -> & _). by eexists. Qed.
Lemma evolves_complete s s' c : evolves s s' → is_complete c s = true → is_complete c s' = true.
Proof.
  intros He. unfold is_complete. destruct (rt_contexts s !! c) as [x|] eqn:Hx; [|done].
  destruct (ev_ctx _ _ He c x Hx) as (x' & -> & _ & Hc & _). apply Hc.
Qed.
Lemma evolves_lifetime s s' c :
  evolves s s' → is_Some (rt_contexts s !! c) → lifetime_of c s' = lifetime_of c s.
Proof.
  intros He [x Hx]. unfold lifetime_of. destruct (ev_ctx _ _ He c x Hx) as (x' & -> & Hl & _).
  rewrite Hx. simpl. by rewrite Hl.
Qed.
Lemma call_known_evolves s s' c : evolves s s' → call_known s c → call_known s' c.
Proof.
  intros He. destruct c as [id projected at_|id at_|c at_|at_| | | |]; simpl; try done.
  - intros H c Hc. by eapply evolves_is_Some, H.
  - intros H c Hc. destruct (H c Hc) as [H1 H2]. split; [by eapply evolves_is_Some|].
    destruct H2 as [?|?]; [by left|right]. by eapply evolves_complete.
Qed.

Section registry.
Context (owner max_sessions : Z) (has_projection : bool).
Abbreviation step_call := (step_call owner max_sessions has_projection).
Abbreviation happen := (happen owner max_sessions has_projection).
Abbreviation happens := (happens owner max_sessions has_projection).

Record registry_ok (w : World) : Prop := {
  ro_sequence : ga_sequence (rt_gate (v_rt w)) = Z.of_nat (length (rt_contexts (v_rt w)));
  ro_lifetimes i x : rt_contexts (v_rt w) !! i = Some x →
    x_lifetime x = SessionLifetime_new owner (Z.of_nat i + 1);
  ro_entries id c : rt_entries (v_rt w) !! id = Some c → is_Some (rt_contexts (v_rt w) !! c);
  ro_size : Z.of_nat (size (rt_entries (v_rt w))) <= Z.max 0 max_sessions;
  ro_calls i c : v_calls w !! i = Some c → call_known (v_rt w) c
}.

(** What one step may do to the registry. *)
Inductive entries_change (c : call) (s s' : Rt) : Prop :=
  | Entries_same : rt_entries s' = rt_entries s → entries_change c s s'
  | Entries_register id projected x :
    c = Spawning id projected (Sp_register x) → rt_entries s !! id = None →
    Z.of_nat (size (rt_entries s)) < max_sessions →
    rt_entries s' = <[id := x]> (rt_entries s) → entries_change c s s'
  | Entries_remove id current x :
    (∃ projected f k, c = Spawning id projected (Sp_rollback x f k)) ∨ c = Forgetting id (Fo_remove x) →
    rt_entries s !! id = Some current → lifetime_of current s = lifetime_of x s →
    rt_entries s' = delete id (rt_entries s) → entries_change c s s'.
Lemma repo_remove_change c id x s :
  (∃ projected f k, c = Spawning id projected (Sp_rollback x f k)) ∨ c = Forgetting id (Fo_remove x) →
  entries_change c s (repo_remove id (lifetime_of x s) s).1.
Proof.
  intros Hc. unfold repo_remove. destruct (rt_entries s !! id) as [current|] eqn:He; [|by apply Entries_same].
  case_bool_decide as Hl; [|by apply Entries_same]. by eapply Entries_remove.
Qed.
Lemma step_entries a c s : entries_change c s (step_call a c s).1.
Proof.
  destruct c as [id projected at_|id at_|c at_|at_| | | |]; simpl; try by apply Entries_same.
  - destruct at_ as [|c|c|c index|c index k|c k|c k|c p k|c p k|c p|c p closing|c p|c f k|c f k|f k|f k|r]; simpl;
      try by apply Entries_same.
    + by destruct (admit_spawn owner (rt_gate s)) as [g [l|e]]; apply Entries_same.
    + unfold repo_register. destruct (rt_entries s !! id) eqn:Hi; simpl; [by apply Entries_same|].
      destruct (_ <=? _) eqn:Hm; simpl; [by apply Entries_same|]. to_props. by eapply Entries_register.
    + destruct (reserve_slots s) as [slots [r ->]]. by destruct r; apply Entries_same.
    + by destruct (rt_services s), a; apply Entries_same.
    + by destruct a; apply Entries_same.
    + apply repo_remove_change. left. by eexists _, _, _.
    + by destruct (_ || _), a; apply Entries_same.
  - destruct at_ as [|c|c k|c k|c|c]; simpl; try by apply Entries_same.
    + by destruct (is_closed k s), (rt_services s), a; apply Entries_same.
    + pose proof (repo_remove_change (Forgetting id (Fo_remove c)) id c s (or_intror eq_refl)) as H.
      by destruct (repo_remove _ _ _).
  - destruct at_; simpl; try by apply Entries_same.
    destruct (rt_contexts s !! c) as [x|]; [|by apply Entries_same].
    by destruct (admit_cancel (x_status x)) as [status [u|e]]; apply Entries_same.
  - destruct at_ as [| | | | |[|k todo] all|k todo all|all|[|k all]|]; simpl; try by apply Entries_same.
    + by destruct (rt_locked s); apply Entries_same.
    + by destruct (_ || _), a; apply Entries_same.
    + by destruct (rt_services s); apply Entries_same.
    + by destruct (is_closed k s); apply Entries_same.
Qed.
(** Only an admission makes a context. *)
Ltac same := left; simpl; by rewrite ?length_alter.
Lemma step_contexts a c s :
  let s' := (step_call a c s).1 in
  length (rt_contexts s') = length (rt_contexts s) ∧ ga_sequence (rt_gate s') = ga_sequence (rt_gate s)
  ∨ rt_contexts s' = rt_contexts s ++ [Ctx_new (SessionLifetime_new owner (ga_sequence (rt_gate s) + 1))]
    ∧ ga_sequence (rt_gate s') = ga_sequence (rt_gate s) + 1.
Proof.
  destruct c as [id projected at_|id at_|c at_|at_| | | |]; simpl; try same.
  - destruct at_ as [|c|c|c index|c index k|c k|c k|c p k|c p k|c p|c p closing|c p|c f k|c f k|f k|f k|r]; simpl;
      try same.
    + unfold admit_spawn. destruct (ga_closing _); [same|].
      destruct (checked_add u64_max _ 1) as [n|] eqn:En; [|same].
      destruct (checked_add usize_max _ 1) as [m|]; [|same].
      apply checked_add_Some in En as [-> _]. by right.
    + destruct (repo_register _ _ _ _) as [m [u|e]]; same.
    + destruct (reserve_slots s) as [slots [r ->]]. destruct r; same.
    + destruct (rt_services s), a; same.
    + destruct a; same.
    + unfold repo_remove. destruct (rt_entries s !! id); [|same]. destruct (bool_decide _); same.
    + destruct (_ || _), a; same.
  - destruct at_ as [|c|c k|c k|c|c]; simpl; try same.
    + destruct (is_closed k s), (rt_services s), a; same.
    + unfold repo_remove. destruct (rt_entries s !! id); [|same]. destruct (bool_decide _); same.
  - destruct at_; simpl; try same.
    destruct (rt_contexts s !! c) as [x|]; [|same].
    destruct (admit_cancel (x_status x)) as [status [u|e]]; same.
  - destruct at_ as [| | | | |[|k todo] all|k todo all|all|[|k all]|]; simpl; try same.
    + destruct (rt_locked s); same.
    + destruct (_ || _), a; same.
    + destruct (rt_services s); same.
    + destruct (is_closed k s); same.
Qed.

(** The call after a step knows its context too. *)
Lemma step_known a c s :
  (∀ id c, rt_entries s !! id = Some c → is_Some (rt_contexts s !! c)) →
  call_known s c → call_known (step_call a c s).1 (step_call a c s).2.
Proof.
  intros Hen Hk. eapply call_known_evolves in Hk; [|apply (evolves_call owner max_sessions has_projection a c s)].
  pose proof (step_contexts a c s) as Hctx.
  pose proof (evolves_call owner max_sessions has_projection a c s) as Hev.
  destruct c as [id projected at_|id at_|c at_|at_| | | |]; simpl in *; try done.
  - assert (∀ x s', (∀ c, Some x = Some c → is_Some (rt_contexts s' !! c)) → is_Some (rt_contexts s' !! x)) as Hx
      by (intros x s' H; by apply H).
    destruct at_ as [|c|c|c index|c index k|c k|c k|c p k|c p k|c p|c p closing|c p|c f k|c f k|f k|f k|r];
      simpl in *; try done.
    + unfold admit_spawn in *. destruct (ga_closing _); [done|].
      destruct (checked_add u64_max _ 1) as [n|]; [|done].
      destruct (checked_add usize_max _ 1) as [m|]; [|done]. simpl. intros c [= <-].
      rewrite lookup_app_r, Nat.sub_diag by done. by eexists.
    + destruct (repo_register _ _ _ _) as [m [u|e]]; simpl in *; [by destruct projected|done].
    + by destruct (reserve s) as [s' [i|e]].
    + by destruct (rt_services s), a.
    + by destruct a.
    + by destruct k.
    + by destruct (_ || _).
    + by destruct k.
    + by destruct (_ || _), a.
    + by destruct (is_closed k s).
  - destruct at_ as [|c|c k|c k|c|c]; simpl in *; try done.
    + unfold repo_lookup, ok_or. destruct (rt_entries s !! id) as [c|] eqn:He; simpl; [|done].
      intros c' [= <-]. split; [by eapply Hen|by left].
    + destruct (is_complete c s) eqn:Hcomp; simpl; [|done].
      destruct (rt_contexts s !! c ≫= x_projection) as [k|]; [destruct has_projection|]; simpl;
        intros c' [= <-]; (split; [by apply Hk|by right]).
    + destruct (is_closed k s); simpl; [destruct (outcome_of k s) as [[u|e]|]; simpl; try done|
        destruct (rt_services s); simpl; [destruct a; simpl|]; try done];
        intros c' [= <-]; destruct (Hk c eq_refl) as [H1 [?|H2]]; try done; (split; [done|by right]).
    + destruct (is_closed k s); simpl; [destruct (outcome_of k s) as [[u|e]|]; simpl; try done|];
        intros c' [= <-]; destruct (Hk c eq_refl) as [H1 [?|H2]]; try done; (split; [done|by right]).
    + destruct (remove_check _ _ _) as [u|e]; simpl; [|done].
      intros c' [= <-]. destruct (Hk c eq_refl) as [H1 [?|H2]]; [done|]. split; [done|by right].
    + by destruct (repo_remove _ _ _) as [s' b].
  - destruct at_; simpl; try done.
    + destruct (rt_contexts s !! c) as [x|]; simpl; [|done]. by destruct (admit_cancel (x_status x)) as [st [u|e]].
    + by destruct (rt_contexts s !! c ≫= x_process).
  - destruct at_ as [| | | | |[|k todo] all|k todo all|all|[|k all]|]; simpl; try done.
    + by destruct (rt_locked s).
    + destruct (no_spawns _); simpl; [|done]. by destruct has_projection.
    + by destruct (_ || _), a.
    + by destruct (is_closed k s).
    + by destruct (rt_services s).
Qed.

Lemma lifetime_inj w c c' :
  registry_ok w → is_Some (rt_contexts (v_rt w) !! c) → lifetime_of c (v_rt w) = lifetime_of c' (v_rt w) → c = c'.
Proof.
  intros Hw [x Hx]. unfold lifetime_of. rewrite Hx. simpl.
  destruct (rt_contexts (v_rt w) !! c') as [x'|] eqn:Hx'; [|done]. simpl. intros [= Hl].
  rewrite (ro_lifetimes w Hw c x Hx), (ro_lifetimes w Hw c' x' Hx') in Hl. injection Hl as Hl. lia.
Qed.

(** A change of the shared state that keeps the registry. *)
Lemma registry_rt w s' calls' :
  registry_ok w → evolves (v_rt w) s' →
  (length (rt_contexts s') = length (rt_contexts (v_rt w)) ∧ ga_sequence (rt_gate s') = ga_sequence (rt_gate (v_rt w))
   ∨ rt_contexts s' = rt_contexts (v_rt w) ++ [Ctx_new (SessionLifetime_new owner (ga_sequence (rt_gate (v_rt w)) + 1))]
     ∧ ga_sequence (rt_gate s') = ga_sequence (rt_gate (v_rt w)) + 1) →
  (∀ id c, rt_entries s' !! id = Some c → is_Some (rt_contexts (v_rt w) !! c)) →
  Z.of_nat (size (rt_entries s')) <= Z.max 0 max_sessions →
  (∀ i c, calls' !! i = Some c → call_known s' c) →
  registry_ok {| v_rt := s'; v_calls := calls' |}.
Proof.
  intros [H1 H2 H3 H4 H5] He Hc Hen Hs Hk. split; simpl; try done.
  - destruct Hc as [[-> ->]|[-> ->]]; [done|]. rewrite length_app. simpl. lia.
  - intros i x Hx. destruct Hc as [[Hl _]|[Hl _]].
    + assert (is_Some (rt_contexts (v_rt w) !! i)) as [y Hy]
        by (apply lookup_lt_is_Some; rewrite <-Hl; by eapply lookup_lt_Some).
      destruct (ev_ctx _ _ He i y Hy) as (x' & Hx' & Hlt & _).
      rewrite Hx in Hx'. injection Hx' as <-. rewrite Hlt. by apply H2.
    + rewrite Hl in Hx. apply lookup_app_Some in Hx as [Hx|[Hlen Hx]]; [by apply H2|].
      apply list_lookup_singleton_Some in Hx as [Hi <-]. simpl. f_equal. lia.
  - intros id c Hid. eapply evolves_is_Some; [done|]. by eapply Hen.
Qed.

Lemma registry_step a c i w :
  registry_ok w → v_calls w !! i = Some c →
  registry_ok {| v_rt := (step_call a c (v_rt w)).1; v_calls := <[i := (step_call a c (v_rt w)).2]> (v_calls w) |}.
Proof.
  intros Hw Hi. pose proof (ro_calls w Hw i c Hi) as Hk.
  pose proof (evolves_call owner max_sessions has_projection a c (v_rt w)) as He.
  apply (registry_rt w); [done|done|apply step_contexts| | |].
  - intros id x. destruct (step_entries a c (v_rt w)) as [Hs|id' projected y -> _ _ Hs|id' cur y _ _ _ Hs];
      rewrite Hs; [apply (ro_entries w Hw)| |].
    + rewrite lookup_insert_Some. intros [[_ <-]|[_ ?]]; [by apply Hk|by eapply (ro_entries w Hw)].
    + rewrite lookup_delete_Some. intros [_ ?]. by eapply (ro_entries w Hw).
  - pose proof (ro_size w Hw) as Hsz.
    destruct (step_entries a c (v_rt w)) as [Hs|id' projected y _ Hn Hlt Hs|id' cur y _ _ _ Hs]; rewrite Hs; [done| |].
    + rewrite map_size_insert_None by done. lia.
    + pose proof (map_subseteq_size _ _ (delete_subseteq (rt_entries (v_rt w)) id')). lia.
  - intros j c' [(<- & <- & _)|[Hne Hj]]%list_lookup_insert_Some.
    + by apply step_known; [apply (ro_entries w Hw)|].
    + eapply call_known_evolves; [done|]. by apply (ro_calls w Hw j).
Qed.
Lemma registry_start c w : registry_ok w → call_known (v_rt w) c → registry_ok (start c w).
Proof.
  intros Hw Hc. apply (registry_rt w); try done; [by left|apply (ro_entries w Hw)|apply (ro_size w Hw)|].
  intros i c' [Hi|[_ Hi]]%lookup_app_Some; [by apply (ro_calls w Hw i)|].
  by apply list_lookup_singleton_Some in Hi as [_ <-].
Qed.
Lemma registry_happen e w : registry_ok w → registry_ok (happen e w).
Proof.
  intros Hw. pose proof (evolves_happen owner max_sessions has_projection e w) as He.
  destruct e as [id projected|id|c| |i a|c op|k outcome]; simpl in *; try by apply registry_start.
  - apply registry_start; [done|]. by destruct (projected && negb has_projection).
  - destruct (v_calls w !! i) as [c|] eqn:Hi; [|done]. pose proof (registry_step a c i w Hw Hi) as H.
    by destruct (step_call a c (v_rt w)).
  - destruct (is_report op); [|done]. apply (registry_rt w); simpl; try done.
    + left. by rewrite length_alter.
    + apply (ro_entries w Hw).
    + apply (ro_size w Hw).
    + intros i c' Hi. eapply call_known_evolves; [exact He|]. by apply (ro_calls w Hw i).
  - destruct (rt_coords (v_rt w) !! k) as [x|]; [|done]. destruct (_ && _); [|done].
    apply (registry_rt w); simpl; try done; [by left|apply (ro_entries w Hw)|apply (ro_size w Hw)|].
    intros i c' Hi. eapply call_known_evolves; [exact He|]. by apply (ro_calls w Hw i).
Qed.
Lemma registry_new : registry_ok (World_new max_sessions has_projection).
Proof. split; simpl; try done. rewrite map_size_empty. lia. Qed.
Lemma registry_happens es w : registry_ok w → registry_ok (happens es w).
Proof. revert w. induction es as [|e es IH]; intros w Hw; [done|]. by apply IH, registry_happen. Qed.
End registry.

Section registry_theorem.
Context (owner max_sessions : Z) (has_projection : bool).
Abbreviation step_call := (step_call owner max_sessions has_projection).
Abbreviation happen := (happen owner max_sessions has_projection).
Abbreviation happens := (happens owner max_sessions has_projection).
Abbreviation World_new := (World_new max_sessions has_projection).

(** The call an event steps, as it stands before it. *)
Definition stepped (e : event) (w : World) : option call :=
  match e with V_step i _ => v_calls w !! i | _ => None end.

Lemma happen_removes e w id c :
  registry_ok owner max_sessions w → rt_entries (v_rt w) !! id = Some c →
  rt_entries (v_rt (happen e w)) !! id = Some c
  ∨ rt_entries (v_rt (happen e w)) !! id = None
    ∧ (is_complete c (v_rt w) = true ∨ ∃ projected f k, stepped e w = Some (Spawning id projected (Sp_rollback c f k))).
Proof.
  intros Hw Hid. destruct e as [id' projected|id'|x| |i a|x op|k outcome]; simpl; try by left.
  - destruct (v_calls w !! i) as [x|] eqn:Hi; [|by left].
    pose proof (step_entries owner max_sessions has_projection a x (v_rt w)) as H.
    destruct (step_call a x (v_rt w)) as [s' x']. simpl in *.
    destruct H as [->|id' projected y _ Hn _ ->|id' cur y Hx Hc Hl ->]; [by left| |].
    + left. rewrite lookup_insert_ne; [done|]. by intros ->; congruence.
    + destruct (decide (id' = id)) as [->|Hne]; [|left; by rewrite lookup_delete_ne].
      right. split; [by apply lookup_delete_eq|]. rewrite Hid in Hc. injection Hc as <-.
      assert (c = y) as <- by (by eapply (lifetime_inj owner max_sessions); [|eapply ro_entries|]).
      destruct Hx as [(projected & f & k & ->)| ->]; [right; by eexists _, _, _|left].
      destruct (ro_calls _ _ w Hw i _ Hi c eq_refl) as [_ [?|?]]; done.
  - left. by destruct (is_report op).
  - left. destruct (rt_coords (v_rt w) !! k); [|done]. by destruct (_ && _).
Qed.

(** C9: The registry holds at most [max_sessions] sessions, two contexts never have
    the same lifetime, and whatever any thread does next a registered session
    keeps its context: it can only leave the registry, once it is complete or
    when its own spawn failed. *)
Theorem registry_never_replaces (es : list event) (e : event) :
  let w := happens es World_new in
  Z.of_nat (size (rt_entries (v_rt w))) <= Z.max 0 max_sessions
  ∧ (∀ c c' x x', rt_contexts (v_rt w) !! c = Some x → rt_contexts (v_rt w) !! c' = Some x' →
       x_lifetime x = x_lifetime x' → c = c')
  ∧ (∀ id c, rt_entries (v_rt w) !! id = Some c →
       rt_entries (v_rt (happen e w)) !! id = Some c
       ∨ rt_entries (v_rt (happen e w)) !! id = None
         ∧ (is_complete c (v_rt w) = true
            ∨ ∃ projected f k, stepped e w = Some (Spawning id projected (Sp_rollback c f k)))).
Proof.
  intros w. assert (registry_ok owner max_sessions w) as Hw by apply registry_happens, registry_new.
  split; [apply (ro_size _ _ w Hw)|]. split; [|intros id c; by apply happen_removes].
  intros c c' x x' Hx Hx' Hl. eapply (lifetime_inj owner max_sessions w); [done|by eexists|].
  unfold lifetime_of. rewrite Hx, Hx'. simpl. by rewrite Hl.
Qed.
End registry_theorem.

(** Two spawns of one identity: the second is refused and its rollback does not
    touch the first. *)
Lemma registry_never_replaces_witness :
  let es := [V_spawn (mk_SessionId [97]) false; V_spawn (mk_SessionId [97]) false]
    ++ replicate 2 (V_step 0 Answer_ok) ++ replicate 3 (V_step 1 Answer_ok) in
  let w := happens 7 2 false es (World_new 2 false) in
  v_calls w !! 1%nat = Some (Spawned (Err RuntimeError_ExistingSession))
  ∧ rt_entries (v_rt w) !! mk_SessionId [97] = Some 0%nat
  ∧ Z.of_nat (size (rt_entries (v_rt w))) <= 2.
Proof.
  split; [reflexivity|]. split; [reflexivity|].
  apply (registry_never_replaces 7 2 false
    ([V_spawn (mk_SessionId [97]) false; V_spawn (mk_SessionId [97]) false]
     ++ replicate 2 (V_step 0 Answer_ok) ++ replicate 3 (V_step 1 Answer_ok)) V_shutdown).
Defined.
