(* ===== verification/Cancellation.v ===== *)
(** * Cancellation races

    [Session::cancel] and [Runtime::shutdown] may run at any point of a [spawn]
    of Lifecycle.v; the process that the spawn creates is cancelled all the
    same. *)

From S2P Require Import Prelude Identity Replay Process Terminal Checkpoint Projection Session Threads Lifecycle.

(** ** Cancellation *)

(** The calls that are going to cancel the process of a context. *)
Definition will_cancel (c : ctx) (p : proc) (x : call) : Prop :=
  match x with
  | Spawning _ _ (Sp_bind c' p' _) | Spawning _ _ (Sp_closing c' p')
  | Spawning _ _ (Sp_cancelled c' p' _) | Spawning _ _ (Sp_request c' p') => c' = c ∧ p' = p
  | Cancelling c' Ca_process => c' = c
  | Cancelling _ (Ca_request p') => p' = p
  | _ => False
  end.
Definition wants_cancel (s : Rt) (c : ctx) (p : proc) : Prop :=
  ∃ x, rt_contexts s !! c = Some x ∧ x_process x = Some p ∧ requested x = true.

(** The calls that are going to cancel a process created after the shutdown of
    the backend. *)
Definition will_stop (p : proc) (x : call) : Prop :=
  match x with
  | Spawning _ _ (Sp_store _ p' _) | Spawning _ _ (Sp_bind _ p' _) | Spawning _ _ (Sp_closing _ p')
  | Spawning _ _ (Sp_cancelled _ p' true) | Spawning _ _ (Sp_request _ p') => p' = p
  | _ => False
  end.
Definition late (p : proc) (log : list backend_call) : Prop :=
  ∃ l1 l2, log = l1 ++ Backend_spawned p :: l2 ∧ Backend_shutdown ∈ l1.
Definition after_begin (x : call) : bool :=
  match x with Closing_down (Cl_lock | Cl_begin) => false | Closing_down _ | Closed_down => true | _ => false end.

Record cancels_ok (w : World) : Prop := {
  cc_wanted c p : wants_cancel (v_rt w) c p →
    Backend_cancel p ∈ rt_log (v_rt w) ∨ ∃ i x, v_calls w !! i = Some x ∧ will_cancel c p x;
  cc_late p : late p (rt_log (v_rt w)) →
    Backend_cancel p ∈ rt_log (v_rt w) ∨ ∃ i x, v_calls w !! i = Some x ∧ will_stop p x;
  cc_shutdown : Backend_shutdown ∈ rt_log (v_rt w) → ga_closing (rt_gate (v_rt w)) = true;
  cc_closing i x : v_calls w !! i = Some x → after_begin x = true → ga_closing (rt_gate (v_rt w)) = true
}.

Lemma late_app p l b :
  late p (l ++ [b]) → late p l ∨ b = Backend_spawned p ∧ Backend_shutdown ∈ l.
Proof.
  intros (l1 & l2 & Hl & Hin). destruct l2 as [|b' l2 _] using rev_ind.
  - apply app_inj_tail in Hl as [-> ->]. by right.
  - left. rewrite app_comm_cons, app_assoc in Hl. apply app_inj_tail in Hl as [-> _]. by exists l1, l2.
Qed.
Lemma log_cases s s' :
  (rt_log s' = rt_log s ∨ ∃ b, rt_log s' = rt_log s ++ [b]) → ∀ b, b ∈ rt_log s → b ∈ rt_log s'.
Proof. intros [->|[b' ->]] b Hb; [done|]. apply elem_of_app. by left. Qed.

Section cancels.
Context (owner max_sessions : Z) (has_projection : bool).
Abbreviation step_call := (step_call owner max_sessions has_projection).
Abbreviation happen := (happen owner max_sessions has_projection).
Abbreviation happens := (happens owner max_sessions has_projection).

(** What a step adds to the log. *)
Definition log_added (a : answer) (c : call) (s : Rt) : option backend_call :=
  match c with
  | Spawning _ _ (Sp_backend _ _) =>
    match a with Answer_process _ => None | _ => Some (Backend_spawned (length (rt_log s))) end
  | Spawning _ _ (Sp_request _ p) | Cancelling _ (Ca_request p) => Some (Backend_cancel p)
  | Closing_down Cl_backend => Some Backend_shutdown
  | _ => None
  end.
Lemma step_log a c s :
  rt_log (step_call a c s).1 = rt_log s ++ option_list (log_added a c s).
Proof.
  destruct c as [id projected at_|id at_|c at_|at_| | | |]; simpl; rewrite ?app_nil_r; try done.
  - destruct at_ as [|c|c|c index|c index k|c k|c k|c p k|c p k|c p|c p closing|c p|c f k|c f k|f k|f k|r]; simpl;
      rewrite ?app_nil_r; try done.
    + by destruct (admit_spawn owner (rt_gate s)) as [g [l|e]].
    + by destruct (repo_register _ _ _ _) as [m [u|e]].
    + destruct (reserve_slots s) as [slots [r ->]]. by destruct r.
    + by destruct (rt_services s), a.
    + destruct a; simpl; by rewrite ?app_nil_r.
    + unfold repo_remove. destruct (rt_entries s !! id); [|done]. by destruct (bool_decide _).
    + by destruct (_ || _), a.
  - destruct at_ as [|c|c k|c k|c|c]; simpl; rewrite ?app_nil_r; try done.
    + by destruct (is_closed k s), (rt_services s), a.
    + unfold repo_remove. destruct (rt_entries s !! id); [|done]. by destruct (bool_decide _).
  - destruct at_; simpl; rewrite ?app_nil_r; try done.
    destruct (rt_contexts s !! c) as [x|]; [|done].
    by destruct (admit_cancel (x_status x)) as [status [u|e]].
  - destruct at_ as [| | | | |[|k todo] all|k todo all|all|[|k all]|]; simpl; rewrite ?app_nil_r; try done.
    + by destruct (rt_locked s).
    + by destruct (_ || _), a.
    + by destruct (rt_services s).
    + by destruct (is_closed k s).
Qed.

(** Who comes to want a cancellation is going to make it. *)
Lemma wants_alter f c p c0 s :
  (∀ x, x_process (f x) = x_process x) → (∀ x, requested (f x) = requested x) →
  wants_cancel (at_ctx c0 f s) c p → wants_cancel s c p.
Proof.
  intros Hp Hr (x & Hx & Hpx & Hrx). simpl in Hx. destruct (decide (c0 = c)) as [->|Hne].
  - rewrite list_lookup_alter_eq in Hx. destruct (rt_contexts s !! c) as [y|] eqn:Hy; [|done].
    injection Hx as <-. exists y. by rewrite <-Hp, <-Hr.
  - rewrite list_lookup_alter_ne in Hx by done. by exists x.
Qed.
Lemma failed_status_requested f s :
  ss_cancellation_requested (failed_status f s) = ss_cancellation_requested s.
Proof. destruct f; simpl; unfold record_drain; by case_match. Qed.
Lemma report_requested op s :
  is_report op = true → ss_cancellation_requested (apply_status_op op s) = ss_cancellation_requested s.
Proof. destruct op; simpl; try done; intros _; unfold record_exit, record_drain; by case_match. Qed.
Lemma step_wants a x s c p :
  wants_cancel (step_call a x s).1 c p → wants_cancel s c p ∨ will_cancel c p (step_call a x s).2.
Proof.
  assert (∀ s', rt_contexts s' = rt_contexts s → wants_cancel s' c p → wants_cancel s c p) as Hsame.
  { intros s' Hc (y & Hy & ?). exists y. by rewrite <-Hc. }
  destruct x as [id projected at_|id at_|c0 at_|at_| | | |]; simpl; try by left.
  - destruct at_ as [|c0|c0|c0 index|c0 index k|c0 k|c0 k|c0 p0 k|c0 p0 k|c0 p0|c0 p0 closing|c0 p0|c0 f k|c0 f k|f k|f k|r];
      simpl; try by left.
    + destruct (admit_spawn owner (rt_gate s)) as [g [l|e]]; simpl; [|by left].
      intros (y & Hy & Hp & Hr). left. simpl in Hy. apply lookup_app_Some in Hy as [Hy|[_ Hy]]; [by exists y|].
      apply list_lookup_singleton_Some in Hy as [_ <-]. done.
    + destruct (repo_register _ _ _ _) as [m [u|e]]; by left.
    + destruct (reserve_slots s) as [slots [r ->]]. destruct r; by left.
    + destruct (rt_services s), a; by left.
    + intros H. left. by eapply wants_alter, H.
    + destruct a; by left.
    + intros (y & Hy & Hp & Hr). simpl in Hy. destruct (decide (c0 = c)) as [->|Hne].
      * right. rewrite list_lookup_alter_eq in Hy. destruct (rt_contexts s !! c); [|done].
        injection Hy as <-. injection Hp as <-. by destruct k.
      * left. rewrite list_lookup_alter_ne in Hy by done. by exists y.
    + intros H. left. eapply wants_alter, H; [done|]. intros y. apply failed_status_requested.
    + unfold repo_remove. destruct (rt_entries s !! id); [|by left]. destruct (bool_decide _); by left.
    + destruct (_ || _), a; by left.
  - destruct at_ as [|c0|c0 k|c0 k|c0|c0]; simpl; try by left.
    + destruct (is_closed k s), (rt_services s), a; by left.
    + unfold repo_remove. destruct (rt_entries s !! id); [|by left]. destruct (bool_decide _); by left.
  - destruct at_; simpl; try by left.
    destruct (rt_contexts s !! c0) as [y|] eqn:Hy; [|by left].
    destruct (admit_cancel (x_status y)) as [status [u|e]]; simpl; [|by left].
    intros (z & Hz & Hp & Hr). simpl in Hz. destruct (decide (c0 = c)) as [->|Hne]; [by right|].
    left. rewrite list_lookup_alter_ne in Hz by done. by exists z.
  - destruct at_ as [| | | | |[|k todo] all|k todo all|all|[|k all]|]; simpl; try by left.
    + destruct (rt_locked s); by left.
    + destruct (_ || _), a; by left.
    + destruct (rt_services s); by left.
    + destruct (is_closed k s); by left.
Qed.
(** And makes it. *)
Lemma step_will_cancel a x s c p :
  wants_cancel s c p → will_cancel c p x →
  will_cancel c p (step_call a x s).2 ∨ Backend_cancel p ∈ rt_log (step_call a x s).1.
Proof.
  intros (y & Hy & Hp & Hr) Hx. destruct x as [id projected at_|id at_|c0 at_|at_| | | |]; try done.
  - destruct at_; try done; destruct Hx as [-> ->]; simpl.
    + by left.
    + by left.
    + left. rewrite Hy. unfold requested in Hr. rewrite Hr, orb_true_r. done.
    + right. apply elem_of_app. right. by apply list_elem_of_singleton.
  - destruct at_; try done; simpl in Hx; subst; simpl.
    + left. rewrite Hy. simpl. by rewrite Hp.
    + right. apply elem_of_app. right. by apply list_elem_of_singleton.
Qed.
Lemma step_will_stop a x s p :
  ga_closing (rt_gate s) = true → will_stop p x →
  will_stop p (step_call a x s).2 ∨ Backend_cancel p ∈ rt_log (step_call a x s).1.
Proof.
  intros Hc Hx. destruct x as [id projected at_|id at_|c0 at_|at_| | | |]; try done.
  destruct at_ as [| | | | | | |c0 p0 k|c0 p0 k|c0 p0|c0 p0 closing|c0 p0| | | | |]; try done; simpl in *.
  - left. by destruct k.
  - by left.
  - left. by rewrite Hc.
  - left. destruct closing; [|done]. done.
  - right. subst. apply elem_of_app. right. by apply list_elem_of_singleton.
Qed.
Lemma step_after_begin a x s :
  after_begin (step_call a x s).2 = true → after_begin x = true ∨ ga_closing (rt_gate (step_call a x s).1) = true.
Proof.
  destruct x as [id projected at_|id at_|c0 at_|at_| | | |]; simpl; try by left.
  - destruct at_ as [|c|c|c index|c index k|c k|c k|c p k|c p k|c p|c p closing|c p|c f k|c f k|f k|f k|r]; simpl; try done.
    + by destruct (admit_spawn owner (rt_gate s)) as [g [l|e]].
    + by destruct (repo_register _ _ _ _) as [m [u|e]].
    + by destruct (reserve s) as [s' [j|e]].
    + by destruct (rt_services s), a.
    + by destruct a.
    + by destruct (_ || _), a.
    + by destruct (is_closed k s).
  - destruct at_ as [|c|c k|c k|c|c]; simpl; try done.
    + by destruct (repo_lookup id (rt_entries s)).
    + destruct (negb _); [done|]. by destruct (rt_contexts s !! c ≫= x_projection), has_projection.
    + destruct (is_closed k s); [by destruct (outcome_of k s) as [[|]|]|]. by destruct (rt_services s), a.
    + destruct (is_closed k s); [by destruct (outcome_of k s) as [[|]|]|done].
    + by destruct (remove_check _ _ _).
    + by destruct (repo_remove _ _ _).
  - destruct at_; simpl; try done.
    + destruct (rt_contexts s !! c0) as [y|]; [|done]. by destruct (admit_cancel (x_status y)) as [status [u|e]].
    + by destruct (rt_contexts s !! c0 ≫= x_process).
  - destruct at_ as [| | | | |[|k todo] all|k todo all|all|[|k all]|]; simpl; try by left.
    + by destruct (rt_locked s).
    + by right.
Qed.

Lemma late_mono p l b : late p l → late p (l ++ b).
Proof. intros (l1 & l2 & -> & Hin). exists l1, (l2 ++ b). by rewrite <-app_assoc. Qed.
Lemma others_kept (P : call → Prop) (l : list call) i c c' :
  l !! i = Some c → (∃ j x, l !! j = Some x ∧ P x) → (P c → P c') → ∃ j x, <[i := c']> l !! j = Some x ∧ P x.
Proof.
  intros Hi (j & x & Hj & Hx) Hc. destruct (decide (i = j)) as [->|Hne].
  - exists j, c'. rewrite list_lookup_insert_eq by (by eapply lookup_lt_Some). rewrite Hi in Hj.
    injection Hj as ->. auto.
  - exists j, x. by rewrite list_lookup_insert_ne.
Qed.
Lemma cancels_step a c i w :
  cancels_ok w → v_calls w !! i = Some c →
  cancels_ok {| v_rt := (step_call a c (v_rt w)).1; v_calls := <[i := (step_call a c (v_rt w)).2]> (v_calls w) |}.
Proof.
  intros [H1 H2 H3 H4] Hi. set (s := v_rt w) in *. set (s' := (step_call a c s).1). set (c' := (step_call a c s).2).
  pose proof (evolves_call owner max_sessions has_projection a c s) as He. fold s' in He.
  assert (∀ b, b ∈ rt_log s → b ∈ rt_log s') as Hlog.
  { intros b Hb. unfold s'. rewrite step_log. apply elem_of_app. by left. }
  assert (<[i := c']> (v_calls w) !! i = Some c') as Hnew
    by (apply list_lookup_insert_eq; by eapply lookup_lt_Some).
  split; simpl.
  - intros x p Hw. destruct (step_wants a c s x p Hw) as [Hold|Hnow]; [|right; by exists i, c'].
    destruct (H1 x p Hold) as [Hl|Hex]; [left; by apply Hlog|].
    destruct (decide (Backend_cancel p ∈ rt_log s')) as [|Hn]; [by left|right].
    apply (others_kept (will_cancel x p) _ i c c' Hi Hex). intros Hc.
    by destruct (step_will_cancel a c s x p Hold Hc) as [?|?].
  - intros p Hl. fold s' in Hl. unfold s' in Hl. rewrite step_log in Hl.
    assert (late p (rt_log s) ∨ log_added a c s = Some (Backend_spawned p) ∧ Backend_shutdown ∈ rt_log s) as [Hold|[Hb Hd]].
    { destruct (log_added a c s) as [b|]; simpl in Hl.
      - apply late_app in Hl as [?|[-> ?]]; [by left|by right].
      - rewrite app_nil_r in Hl. by left. }
    + assert (Backend_shutdown ∈ rt_log s) as Hsd.
      { destruct Hold as (l1 & l2 & -> & Hin). apply elem_of_app. by left. }
      destruct (H2 p Hold) as [?|Hex]; [left; by apply Hlog|].
      destruct (decide (Backend_cancel p ∈ rt_log s')) as [|Hn]; [by left|right].
      apply (others_kept (will_stop p) _ i c c' Hi Hex). intros Hc.
      by destruct (step_will_stop a c s p (H3 Hsd) Hc) as [?|?].
    + right. exists i, c'. split; [done|]. unfold c'.
      destruct c as [id projected at_|id at_|c0 at_|at_| | | |]; try done; [|by destruct at_|by destruct at_].
      destruct at_; try done. simpl in *. destruct a; by simplify_eq.
  - intros Hin. unfold s' in Hin. rewrite step_log in Hin. apply elem_of_app in Hin as [Hin|Hin].
    + by apply (ev_closing _ _ He), H3.
    + apply (ev_closing _ _ He). apply (H4 i c Hi).
      destruct c as [id projected at_|id at_|c0 at_|at_| | | |]; simpl in Hin.
      * destruct at_; simpl in Hin; try (by apply elem_of_nil in Hin);
          [destruct a; simpl in Hin; try (by apply elem_of_nil in Hin)|];
          apply list_elem_of_singleton in Hin; done.
      * by apply elem_of_nil in Hin.
      * destruct at_; simpl in Hin; try (by apply elem_of_nil in Hin).
        by apply list_elem_of_singleton in Hin.
      * by destruct at_; simpl in Hin; try (by apply elem_of_nil in Hin).
      * by apply elem_of_nil in Hin.
      * by apply elem_of_nil in Hin.
      * by apply elem_of_nil in Hin.
      * by apply elem_of_nil in Hin.
  - intros j x [(<- & <- & _)|[_ Hj]]%list_lookup_insert_Some Hx.
    + destruct (step_after_begin a c s Hx) as [Hb|?]; [|done]. by apply (ev_closing _ _ He), (H4 i c).
    + by apply (ev_closing _ _ He), (H4 j x).
Qed.
Lemma cancels_start c w : cancels_ok w → after_begin c = false → cancels_ok (start c w).
Proof.
  intros [H1 H2 H3 H4] Hc. split; simpl.
  - intros x p Hw. destruct (H1 x p Hw) as [?|(i & y & Hi & Hy)]; [by left|right].
    exists i, y. by rewrite (lookup_app_l_Some _ _ _ _ Hi).
  - intros p Hw. destruct (H2 p Hw) as [?|(i & y & Hi & Hy)]; [by left|right].
    exists i, y. by rewrite (lookup_app_l_Some _ _ _ _ Hi).
  - done.
  - intros i y [Hi|[_ Hi]]%lookup_app_Some Hb; [by apply (H4 i y)|].
    apply list_lookup_singleton_Some in Hi as [_ <-]. congruence.
Qed.
Lemma cancels_happen e w : cancels_ok w → cancels_ok (happen e w).
Proof.
  intros Hw. destruct e as [id projected|id|c| |i a|c op|k outcome]; simpl; try by apply cancels_start.
  - apply cancels_start; [done|]. by destruct (projected && negb has_projection).
  - destruct (v_calls w !! i) as [c|] eqn:Hi; [|done]. pose proof (cancels_step a c i w Hw Hi) as H.
    by destruct (step_call a c (v_rt w)).
  - destruct (is_report op) eqn:Hop; [|done]. destruct Hw as [H1 H2 H3 H4]. split; try done.
    intros x p Hx. apply (H1 x p). eapply wants_alter, Hx; [done|]. intros y. by apply report_requested.
  - destruct (rt_coords (v_rt w) !! k) as [x|]; [|done]. destruct (_ && _); [|done].
    by destruct Hw as [H1 H2 H3 H4].
Qed.
Lemma cancels_happens es w : cancels_ok w → cancels_ok (happens es w).
Proof. revert w. induction es as [|e es IH]; intros w Hw; [done|]. by apply IH, cancels_happen. Qed.
Lemma cancels_new : cancels_ok (World_new max_sessions has_projection).
Proof.
  split; simpl; try done.
  - by intros c p (x & Hx & _).
  - intros p (l1 & l2 & Hl & _). by destruct l1.
  - intros H. by apply elem_of_nil in H.
Qed.
End cancels.

Section cancel_theorem.
Context (owner max_sessions : Z) (has_projection : bool).
Abbreviation step_call := (step_call owner max_sessions has_projection).
Abbreviation happen := (happen owner max_sessions has_projection).
Abbreviation happens := (happens owner max_sessions has_projection).
Abbreviation World_new := (World_new max_sessions has_projection).

(** C7: A cancellation of a session is never lost to the spawn it races with: when
    the session has been asked to cancel and has a process, the backend has been
    told to cancel that process or a call that is running is going to; and a
    process created after the backend was shut down is cancelled too. *)
Theorem cancel_never_lost (es : list event) :
  let w := happens es World_new in
  (∀ c p, wants_cancel (v_rt w) c p →
     Backend_cancel p ∈ rt_log (v_rt w) ∨ ∃ i x, v_calls w !! i = Some x ∧ will_cancel c p x)
  ∧ (∀ p, late p (rt_log (v_rt w)) →
     Backend_cancel p ∈ rt_log (v_rt w) ∨ ∃ i x, v_calls w !! i = Some x ∧ will_stop p x).
Proof.
  intros w. assert (cancels_ok w) as Hw by apply cancels_happens, cancels_new.
  split; [apply (cc_wanted w Hw)|apply (cc_late w Hw)].
Qed.
End cancel_theorem.

(** A cancel while the process is being created: the spawn is about to store the
    process, and then finds the request. *)
Definition racing : list event :=
  [V_spawn (mk_SessionId [97]) true] ++ replicate 7 (V_step 0 Answer_ok) ++ [V_cancel 0]
  ++ [V_step 1 Answer_ok] ++ [V_step 0 Answer_ok].
Lemma cancel_never_lost_witness :
  let w := happens 7 2 true racing (World_new 2 true) in
  wants_cancel (v_rt w) 0%nat 0%nat
  ∧ (Backend_cancel 0 ∈ rt_log (v_rt w) ∨ ∃ i x, v_calls w !! i = Some x ∧ will_cancel 0%nat 0%nat x).
Proof.
  split; [eexists; split; [reflexivity|by split]|].
  apply (proj1 (cancel_never_lost 7 2 true racing)). eexists. split; [reflexivity|by split].
Defined.
