(* ===== verification/Shutdown.v ===== *)
(** * Ownership and shutdown

    Every open coordinator of Lifecycle.v is in a slot, with the spawn that is
    about to publish it, or with the shutdown that took it; a shutdown that
    returns leaves none open. *)

From S2P Require Import Prelude Identity Replay Process Terminal Checkpoint Projection Session Threads Lifecycle Cancellation.

Definition in_flight (c : call) : bool :=
  match c with Spawning _ _ Sp_admit => false | Spawning _ _ _ => true | _ => false end.
Definition holds_slot (c : call) : option nat :=
  match c with
  | Spawning _ _ (Sp_create _ index) | Spawning _ _ (Sp_publish _ index _) => Some index
  | _ => None
  end.
Definition publishes (k : coord) (c : call) : Prop :=
  match c with Spawning _ _ (Sp_publish _ _ k') => k' = k | _ => False end.
Definition locked_phase (c : call) : bool :=
  match c with Closing_down Cl_lock => false | Closing_down _ => true | _ => false end.
Definition held_by (c : call) : list coord :=
  match c with
  | Closing_down (Cl_close _ all) | Closing_down (Cl_wait _ _ all) | Closing_down (Cl_services all)
  | Closing_down (Cl_finish all) => all
  | _ => []
  end.
Definition finishing (c : call) : list coord :=
  match c with Closing_down (Cl_finish all) => all | _ => [] end.
Definition emptied (c : call) : bool :=
  match c with
  | Closing_down (Cl_close _ _ | Cl_wait _ _ _ | Cl_services _ | Cl_finish _) => true
  | _ => false
  end.
Definition past_spawns (c : call) : bool :=
  match c with
  | Closing_down (Cl_lock | Cl_begin | Cl_backend | Cl_spawns) => false
  | Closing_down _ | Closed_down => true
  | _ => false
  end.
Definition past_services (c : call) : bool :=
  match c with Closing_down (Cl_finish _ | Cl_unlock) => true | _ => false end.

(** A coordinator that still has to be closed. *)
Definition unclosed (k : coord) (s : Rt) : Prop := (k < length (rt_coords s))%nat ∧ is_closed k s = false.

Section ownership.
Context (owner max_sessions : Z) (has_projection : bool).
Abbreviation step_call := (step_call owner max_sessions has_projection).
Abbreviation happen := (happen owner max_sessions has_projection).
Abbreviation happens := (happens owner max_sessions has_projection).

Record owned_ok (w : World) : Prop := {
  ow_spawns : ga_spawns (rt_gate (v_rt w)) = Z.of_nat (count in_flight (v_calls w));
  ow_lock : count locked_phase (v_calls w) = (if rt_locked (v_rt w) then 1 else 0)%nat;
  ow_past i c : v_calls w !! i = Some c → past_spawns c = true →
    ga_closing (rt_gate (v_rt w)) = true ∧ ga_spawns (rt_gate (v_rt w)) = 0;
  ow_slot i c index : v_calls w !! i = Some c → holds_slot c = Some index →
    rt_slots (v_rt w) !! index = Some Reserved;
  ow_distinct i j c c' index : v_calls w !! i = Some c → v_calls w !! j = Some c' →
    holds_slot c = Some index → holds_slot c' = Some index → i = j;
  ow_coords k : unclosed k (v_rt w) →
    (∃ index, rt_slots (v_rt w) !! index = Some (Owned k))
    ∨ ∃ i c, v_calls w !! i = Some c ∧ (publishes k c ∨ k ∈ held_by c);
  ow_emptied i c : v_calls w !! i = Some c → emptied c = true → rt_slots (v_rt w) = [];
  ow_services : rt_services (v_rt w) = false →
    has_projection = false ∧ rt_coords (v_rt w) = []
    ∨ rt_slots (v_rt w) = [] ∧ ∀ k, unclosed k (v_rt w) →
        ∃ i c, v_calls w !! i = Some c ∧ k ∈ finishing c;
  ow_unlock i c : v_calls w !! i = Some c → past_services c = true → rt_services (v_rt w) = false;
  ow_plain : has_projection = false → rt_services (v_rt w) = false;
  ow_closed i : v_calls w !! i = Some Closed_down → ∀ k, ¬ unclosed k (v_rt w)
}.

(** What one step does to the slots, with the slot its call holds. *)
Inductive slots_change (c c' : call) (s s' : Rt) : Prop :=
  | Slots_same : rt_slots s' = rt_slots s → holds_slot c' = holds_slot c → slots_change c c' s s'
  | Slots_vacated :
    rt_slots s' = vacate s <$> rt_slots s → holds_slot c = None → holds_slot c' = None → slots_change c c' s s'
  | Slots_reserved index :
    rt_slots s' = <[index := Reserved]> (vacate s <$> rt_slots s) →
    (vacate s <$> rt_slots s) !! index = Some Vacant →
    holds_slot c = None → holds_slot c' = Some index → slots_change c c' s s'
  | Slots_written index new :
    rt_slots s' = <[index := new]> (rt_slots s) →
    holds_slot c = Some index → holds_slot c' = None →
    (∀ k, publishes k c → new = Owned k) → slots_change c c' s s'
  | Slots_taken :
    c = Closing_down Cl_take → c' = Closing_down (Cl_close (owned_coords (rt_slots s)) (owned_coords (rt_slots s))) →
    rt_slots s' = [] → slots_change c c' s s'.
Lemma position_vacant_spec slots i : position_vacant slots = Some i → slots !! i = Some Vacant.
Proof.
  revert i. induction slots as [|[| |k] slots IH]; intros i; simpl; [done|by intros [= <-]| |];
    (destruct (position_vacant slots) as [j|]; [|done]; intros [= <-]; simpl; auto).
Qed.
Lemma step_slots a c s : slots_change c (step_call a c s).2 s (step_call a c s).1.
Proof.
  destruct c as [id projected at_|id at_|c at_|at_| | | |]; simpl; try by apply Slots_same.
  - destruct at_ as [|c|c|c index|c index k|c k|c k|c p k|c p k|c p|c p closing|c p|c f k|c f k|f k|f k|r]; simpl;
      try by apply Slots_same.
    + by destruct (admit_spawn owner (rt_gate s)) as [g [l|e]]; apply Slots_same.
    + destruct (repo_register _ _ _ _) as [m [u|e]]; [destruct projected|]; by apply Slots_same.
    + unfold reserve. destruct (position_vacant (vacate s <$> rt_slots s)) as [index|] eqn:Hp; simpl.
      * eapply Slots_reserved; try done. by apply position_vacant_spec.
      * by apply Slots_vacated.
    + destruct (rt_services s); simpl; [destruct a; simpl|]; try by (eapply Slots_written). by apply Slots_same.
    + eapply Slots_written; try done. simpl. by intros ? ->.
    + by destruct a; apply Slots_same.
    + by destruct k; apply Slots_same.
    + destruct (closing || _); by apply Slots_same.
    + unfold repo_remove. destruct (rt_entries s !! id); [destruct (bool_decide _)|]; destruct k; by apply Slots_same.
    + destruct (_ || _); [by apply Slots_same|]. destruct a; by apply Slots_same.
    + by destruct (is_closed k s); apply Slots_same.
  - destruct at_ as [|c|c k|c k|c|c]; simpl; try by apply Slots_same.
    + destruct (repo_lookup id (rt_entries s)); by apply Slots_same.
    + destruct (negb _); [by apply Slots_same|].
      destruct (rt_contexts s !! c ≫= x_projection); [destruct has_projection|]; by apply Slots_same.
    + destruct (is_closed k s); [destruct (outcome_of k s) as [[|]|]; by apply Slots_same|].
      destruct (rt_services s), a; by apply Slots_same.
    + destruct (is_closed k s); [destruct (outcome_of k s) as [[|]|]|]; by apply Slots_same.
    + destruct (remove_check _ _ _); by apply Slots_same.
    + unfold repo_remove. destruct (rt_entries s !! id); [|by apply Slots_same].
      destruct (bool_decide _); by apply Slots_same.
  - destruct at_; simpl; try by apply Slots_same.
    + destruct (rt_contexts s !! c) as [x|]; [|by apply Slots_same].
      destruct (admit_cancel (x_status x)) as [status [u|e]]; by apply Slots_same.
    + destruct (rt_contexts s !! c ≫= x_process); by apply Slots_same.
  - destruct at_ as [| | | | |[|k todo] all|k todo all|all|[|k all]|]; simpl; try by apply Slots_same.
    + destruct (rt_locked s); by apply Slots_same.
    + destruct (no_spawns _); [destruct has_projection|]; by apply Slots_same.
    + by apply Slots_taken.
    + destruct (_ || _); [by apply Slots_same|]. destruct a; by apply Slots_same.
    + destruct (is_closed k s); by apply Slots_same.
    + destruct (rt_services s); by apply Slots_same.
    + destruct (is_closed k s); by apply Slots_same.
Qed.

Definition b2z (b : bool) : Z := if b then 1 else 0.

Lemma reserve_frame s r x : reserve s = (r, x) → ∃ slots, r = set_slots slots s.
Proof. destruct (reserve_slots s) as (slots & y & ->). intros [= <- _]. by eexists. Qed.
Lemma repo_remove_frame id l s r b : repo_remove id l s = (r, b) → ∃ m, r = set_entries m s.
Proof.
  unfold repo_remove. destruct s. repeat case_match; intros [= <- _]; by eexists.
Qed.
(** Every way a step can go. *)
Ltac walk :=
  match goal with
  | c : call |- _ => destruct c
  | _ => idtac
  end;
  match goal with
  | x : spawning |- _ => destruct x
  | x : forgetting |- _ => destruct x
  | x : cancelling |- _ => destruct x
  | x : closing_down |- _ => destruct x
  | _ => idtac
  end;
  simpl in *;
  try match goal with |- context [repo_remove ?i ?l ?s] => destruct (repo_remove i l s) eqn:? end;
  repeat (case_match; simplify_eq/=; try done);
  try match goal with
  | H : reserve _ = _ |- _ => apply reserve_frame in H as [? ->]
  | H : repo_remove _ _ _ = _ |- _ => apply repo_remove_frame in H as [? ->]
  end; simpl in *; try done.

Lemma step_flight a c s :
  ga_spawns (rt_gate (step_call a c s).1) + b2z (in_flight c)
  = ga_spawns (rt_gate s) + b2z (in_flight (step_call a c s).2).
Proof.
  assert (∀ g r, admit_spawn owner (rt_gate s) = (g, r) →
            ga_spawns g = ga_spawns (rt_gate s) + b2z (is_ok r)) as Hadm.
  { unfold admit_spawn. intros g r. destruct (ga_closing _); [intros [= <- <-]; simpl; lia|].
    destruct (checked_add u64_max _ _); [|intros [= <- <-]; simpl; lia].
    destruct (checked_add usize_max _ _) eqn:E; [|intros [= <- <-]; simpl; lia].
    apply checked_add_Some in E as [-> _]. by intros [= <- <-]. }
  unfold b2z in *. destruct c as [id projected at_|id at_|c at_|at_| | | |]; simpl; try done.
  - destruct at_ as [|c|c|c index|c index k|c k|c k|c p k|c p k|c p|c p closing|c p|c f k|c f k|f k|f k|r]; simpl;
      try done.
    { destruct (admit_spawn owner (rt_gate s)) as [g [l|e]] eqn:Eg; specialize (Hadm _ _ eq_refl); simpl in *; lia. }
    all: walk.
    lia.
  - walk.
  - walk.
  - walk.
Qed.

Lemma step_lock a c s :
  (locked_phase c = true → rt_locked s = true) →
  b2z (rt_locked (step_call a c s).1) + b2z (locked_phase c)
  = b2z (rt_locked s) + b2z (locked_phase (step_call a c s).2).
Proof.
  intros Hl. destruct c as [id projected at_|id at_|c at_|at_| | | |]; simpl; try done.
  - destruct at_; walk.
  - destruct at_; walk.
  - destruct at_; walk.
  - destruct at_ as [| | | | |[|k todo] all|k todo all|all|[|k all]|]; simpl in *; try done;
      [|walk..|].
    + by destruct (rt_locked s) eqn:E; simpl; rewrite ?E.
    + by rewrite (Hl eq_refl).
Qed.
Lemma step_coords a c s :
  (∃ id p x index, c = Spawning id p (Sp_create x index) ∧ rt_services s = true
     ∧ rt_coords (step_call a c s).1 = rt_coords s ++ [Coord_new]
     ∧ (step_call a c s).2 = Spawning id p (Sp_publish x index (length (rt_coords s))))
  ∨ length (rt_coords (step_call a c s).1) = length (rt_coords s).
Proof.
  destruct c as [id projected at_|id at_|c at_|at_| | | |]; simpl; try by right.
  - destruct at_; try (by right); try (right; simpl; by rewrite ?length_alter); try (by right; walk).
    + simpl. destruct (rt_services s) eqn:Es; [|by right]. destruct a; try by right. left. by eexists _, _, _, _.
    + right. simpl. destruct (_ || _); [done|]. destruct a; simpl; by rewrite ?length_alter.
  - right. destruct at_; walk; simpl; by rewrite ?length_alter.
  - right. walk.
  - right. destruct at_ as [| | | | |[|k todo] all|k todo all|all|[|k all]|]; simpl in *; try done; walk;
      simpl; by rewrite ?length_alter.
Qed.
Lemma step_services a c s :
  rt_services (step_call a c s).1 = rt_services s
  ∨ ∃ all, c = Closing_down (Cl_services all) ∧ rt_services s = true
      ∧ rt_services (step_call a c s).1 = false ∧ (step_call a c s).2 = Closing_down (Cl_finish all).
Proof.
  destruct c as [id projected at_|id at_|c at_|at_| | | |]; simpl; try by left.
  - left. walk.
  - left. walk.
  - left. walk.
  - destruct at_ as [| | | | |[|k todo] all|k todo all|all|[|k all]|]; simpl in *; try (by left); try (left; by walk).
    destruct (rt_services s) eqn:Es; [|by left]. right. by exists all.
Qed.
Lemma step_held a c s k :
  k ∈ held_by c → unclosed k (step_call a c s).1 →
  k ∈ held_by (step_call a c s).2 ∨ ∃ all, c = Closing_down (Cl_services all) ∧ rt_services s = false.
Proof.
  destruct c as [id projected at_|id at_|c at_|at_| | | |]; simpl; try by intros ?%elem_of_nil.
  destruct at_ as [| | | | |[|j todo] all|j todo all|all|[|j all]|]; simpl; try (by intros ?%elem_of_nil);
    try (by left); intros Hk Hc.
  - left. destruct (_ || _); [done|]. by destruct a.
  - left. by destruct (is_closed j s).
  - destruct (rt_services s) eqn:Es; [by left|right]. by exists all.
  - left. apply elem_of_cons in Hk as [->|Hk]; [|done]. exfalso. destruct Hc as [Hl Hc].
    destruct (is_closed j s) eqn:Ej; [congruence|].
    unfold is_closed, outcome_of in *. simpl in *. rewrite list_lookup_alter_eq in Hc.
    rewrite length_alter in Hl. apply lookup_lt_is_Some in Hl as [x Hx]. by rewrite Hx in Hc.
Qed.
Lemma step_finishing a c s k :
  k ∈ finishing c → unclosed k (step_call a c s).1 → k ∈ finishing (step_call a c s).2.
Proof.
  intros Hk Hc. assert (k ∈ held_by c) as Hh.
  { destruct c as [| | |at_| | | |]; try (by apply elem_of_nil in Hk).
    destruct at_; try (by apply elem_of_nil in Hk). exact Hk. }
  destruct (step_held a c s k Hh Hc) as [H|(all & -> & _)]; [|by apply elem_of_nil in Hk].
  destruct c as [| | |at_| | | |]; try (by apply elem_of_nil in Hk).
  destruct at_ as [| | | | |todo all|j todo all|all|[|j all]|]; try (by apply elem_of_nil in Hk). done.
Qed.
Lemma step_past a c s :
  past_spawns (step_call a c s).2 = true →
  past_spawns c = true ∨ c = Closing_down Cl_spawns ∧ no_spawns (rt_gate s) = true.
Proof.
  destruct c as [id projected at_|id at_|c at_|at_| | | |]; simpl; try by left.
  - walk.
  - walk.
  - walk.
  - destruct at_; simpl; try (by left); walk; right; to_props; auto.
Qed.
Lemma step_past_services a c s :
  (has_projection = false → rt_services s = false) →
  past_services (step_call a c s).2 = true →
  past_services c = true ∨ rt_services (step_call a c s).1 = false.
Proof.
  intros Hp. destruct c as [id projected at_|id at_|c at_|at_| | | |]; simpl; try by left.
  - walk.
  - walk.
  - walk.
  - destruct at_ as [| | | | |[|k todo] all|k todo all|all|[|k all]|]; simpl; try (by left); try by walk.
    + destruct (no_spawns _); simpl; [|done]. destruct has_projection; [done|]. right. auto.
    + intros _. right. by destruct (rt_services s) eqn:E.
Qed.
Lemma step_closed_down a c s :
  (step_call a c s).2 = Closed_down → c = Closing_down Cl_unlock ∨ c = Closed_down.
Proof.
  destruct c as [id projected at_|id at_|c at_|at_| | | |]; simpl; try done; try walk; by auto.
Qed.
Lemma step_emptied a c s :
  emptied (step_call a c s).2 = true → emptied c = true ∨ c = Closing_down Cl_take.
Proof.
  destruct c as [id projected at_|id at_|c at_|at_| | | |]; simpl; try done; try by walk.
  destruct at_ as [| | | | |[|k todo] all|k todo all|all|[|k all]|]; simpl; try (by left); try (by right); by walk.
Qed.
Lemma step_in_flight a c s :
  in_flight (step_call a c s).2 = true → in_flight c = true ∨ ga_closing (rt_gate s) = false.
Proof.
  destruct c as [id projected at_|id at_|c at_|at_| | | |]; simpl; try done; try by walk.
  destruct at_; simpl; try (by left). unfold admit_spawn. destruct (ga_closing _); [done|]. by right.
Qed.
End ownership.

Section ownership_kept.
Context (owner max_sessions : Z) (has_projection : bool).
Abbreviation step_call := (step_call owner max_sessions has_projection).
Abbreviation happen := (happen owner max_sessions has_projection).
Abbreviation happens := (happens owner max_sessions has_projection).
Abbreviation owned_ok := (owned_ok has_projection).

Lemma vacate_reserved s (slots : list Slot) (i : nat) : slots !! i = Some Reserved → (vacate s <$> slots) !! i = Some Reserved.
Proof. intros Hi. by rewrite list_lookup_fmap, Hi. Qed.
Lemma vacate_owned s (slots : list Slot) (i : nat) k :
  is_closed k s = false → slots !! i = Some (Owned k) → (vacate s <$> slots) !! i = Some (Owned k).
Proof. intros Hc Hi. rewrite list_lookup_fmap, Hi. simpl. by rewrite Hc. Qed.
(** Another call's reservation. *)
Lemma slots_reserved c c' s s' index :
  slots_change c c' s s' → holds_slot c ≠ Some index → c ≠ Closing_down Cl_take →
  rt_slots s !! index = Some Reserved → rt_slots s' !! index = Some Reserved.
Proof.
  intros Hch Hne Htake Hi. destruct Hch as [-> _| -> _ _|i -> Hv _ _|i new -> Hc _ _|? _ _]; [done| | | |done].
  - by apply vacate_reserved.
  - apply (vacate_reserved s) in Hi. rewrite list_lookup_insert_ne; [done|]. congruence.
  - rewrite list_lookup_insert_ne; [done|]. congruence.
Qed.
Lemma slots_owned c c' s s' index k :
  slots_change c c' s s' → is_closed k s = false → c ≠ Closing_down Cl_take →
  (∀ i, holds_slot c = Some i → rt_slots s !! i = Some Reserved) →
  rt_slots s !! index = Some (Owned k) → rt_slots s' !! index = Some (Owned k).
Proof.
  intros Hch Hcl Htake Hres Hi. destruct Hch as [-> _| -> _ _|i -> Hv _ _|i new -> Hc _ _|? _ _]; [done| | | |done].
  - by apply vacate_owned.
  - apply (vacate_owned s) in Hi; [|done]. rewrite list_lookup_insert_ne; [done|]. congruence.
  - specialize (Hres i Hc). rewrite list_lookup_insert_ne; [done|]. congruence.
Qed.
Lemma slots_empty c c' s s' : slots_change c c' s s' → rt_slots s = [] → rt_slots s' = [].
Proof. intros Hch E. by destruct Hch as [-> _| -> _ _|i -> Hv _ _|i new -> Hc _ _|? _ ->]; rewrite ?E. Qed.
Lemma owned_coords_spec (slots : list Slot) k (i : nat) : slots !! i = Some (Owned k) → k ∈ owned_coords slots.
Proof.
  intros Hi. unfold owned_coords. apply list_elem_of_bind. exists (Owned k).
  split; [by apply list_elem_of_singleton|]. by eapply list_elem_of_lookup_2.
Qed.

Lemma taking x : x = Closing_down Cl_take ∨ x ≠ Closing_down Cl_take.
Proof. destruct x as [| | |at_| | | |]; try (by right). destruct at_; by (left + right). Qed.
Lemma holds_in_flight x index : holds_slot x = Some index → in_flight x = true.
Proof. destruct x as [id p at_| | | | | | |]; try done; by destruct at_. Qed.
Lemma publishes_in_flight x k : publishes k x → in_flight x = true.
Proof. destruct x as [id p at_| | | | | | |]; try done; by destruct at_. Qed.
Lemma held_locked x k : k ∈ held_by x → locked_phase x = true.
Proof. destruct x as [| | |at_| | | |]; try (by intros ?%elem_of_nil); destruct at_; by (try intros ?%elem_of_nil). Qed.
Lemma finishing_held x k : k ∈ finishing x → k ∈ held_by x.
Proof. destruct x as [| | |at_| | | |]; try done; destruct at_; by (try intros ?%elem_of_nil). Qed.
Lemma past_services_locked x : past_services x = true → locked_phase x = true.
Proof. destruct x as [| | |at_| | | |]; try done; by destruct at_. Qed.
Lemma emptied_past x : emptied x = true → past_spawns x = true.
Proof. destruct x as [| | |at_| | | |]; try done; by destruct at_. Qed.

Section one_step.
Context (a : answer) (c : call) (i : nat) (w : World).
Context (Hw : owned_ok w) (Hcc : cancels_ok w) (Hi : v_calls w !! i = Some c).
Abbreviation s := (v_rt w).
Abbreviation s' := (step_call a c (v_rt w)).1.
Abbreviation c' := (step_call a c (v_rt w)).2.
Abbreviation calls' := (<[i := (step_call a c (v_rt w)).2]> (v_calls w)).

Lemma next_evolves : evolves s s'.
Proof. apply evolves_call. Qed.
(** The calls after the step: the stepped one and the others. *)
Lemma next_calls j x : calls' !! j = Some x → (j = i ∧ x = c') ∨ (i ≠ j ∧ v_calls w !! j = Some x).
Proof. intros [(<- & <- & _)|[? ?]]%list_lookup_insert_Some; auto. Qed.
Lemma next_stepped : calls' !! i = Some c'.
Proof. apply list_lookup_insert_eq. by eapply lookup_lt_Some. Qed.
Lemma next_other j x : i ≠ j → v_calls w !! j = Some x → calls' !! j = Some x.
Proof. intros Hne Hj. by rewrite list_lookup_insert_ne. Qed.
(** Once the spawns are over nothing is in flight, and nothing will be. *)
Lemma nobody_in_flight j x j' y :
  v_calls w !! j = Some x → past_spawns x = true → v_calls w !! j' = Some y → in_flight y = false.
Proof.
  intros Hj Hx Hj'. destruct (ow_past _ w Hw j x Hj Hx) as [_ Hz]. destruct (in_flight y) eqn:E; [|done].
  pose proof (count_pos in_flight _ _ _ Hj' E). rewrite (ow_spawns _ w Hw) in Hz. lia.
Qed.
Lemma next_quiet :
  ga_closing (rt_gate s) = true → ga_spawns (rt_gate s) = 0 →
  ga_closing (rt_gate s') = true ∧ ga_spawns (rt_gate s') = 0.
Proof.
  intros Hclo Hz. split; [by apply (ev_closing _ _ next_evolves)|].
  assert (in_flight c = false) as Hnf.
  { destruct (in_flight c) eqn:E; [|done]. pose proof (count_pos in_flight _ _ _ Hi E).
    rewrite (ow_spawns _ w Hw) in Hz. lia. }
  pose proof (step_flight owner max_sessions has_projection a c s) as Hfl.
  pose proof (step_in_flight owner max_sessions has_projection a c s) as Hinf.
  rewrite Hnf in Hfl, Hinf. simpl in Hfl.
  destruct (in_flight c'); simpl in Hfl; [|lia]. destruct (Hinf eq_refl); congruence.
Qed.
Lemma lock_owner_unique j x j' y :
  v_calls w !! j = Some x → v_calls w !! j' = Some y → locked_phase x = true → locked_phase y = true → j = j'.
Proof.
  intros Hj Hj' Hx Hy. eapply (count_unique locked_phase); try done. rewrite (ow_lock _ w Hw). destruct (rt_locked s); lia.
Qed.
Lemma taken_none j x : c = Closing_down Cl_take → v_calls w !! j = Some x → in_flight x = false.
Proof. intros Ec Hj. eapply (nobody_in_flight i c); [done|by rewrite Ec|done]. Qed.
Lemma not_taken j x : v_calls w !! j = Some x → in_flight x = true → c ≠ Closing_down Cl_take.
Proof. intros Hj Hx Ec. by rewrite (taken_none j x Ec Hj) in Hx. Qed.
(** A coordinator open after the step is new or was open. *)
Lemma unclosed_before k :
  unclosed k s' → unclosed k s ∨ rt_services s = true ∧ in_flight c = true ∧ publishes k c'.
Proof.
  intros [Hlt Hc].
  assert ((k < length (rt_coords s))%nat → unclosed k s) as Hold.
  { intros H. split; [done|]. destruct (is_closed k s) eqn:E; [|done].
    by rewrite (ev_closed _ _ next_evolves k E) in Hc. }
  destruct (step_coords owner max_sessions has_projection a c s) as [(id & p & x & index & Ec & Es & Hl & E')|Hl].
  - rewrite Hl, length_app in Hlt. simpl in Hlt. destruct (decide (k < length (rt_coords s))%nat); [by left; auto|].
    right. rewrite E'. split; [done|]. split; [by rewrite Ec|]. simpl. lia.
  - left. apply Hold. by rewrite <-Hl.
Qed.

Lemma next_spawns : ga_spawns (rt_gate s') = Z.of_nat (count in_flight calls').
Proof.
  pose proof (step_flight owner max_sessions has_projection a c s) as Hfl.
  pose proof (count_insert in_flight (v_calls w) i c c' Hi) as Hcf.
  rewrite (ow_spawns _ w Hw) in Hfl. destruct (in_flight c), (in_flight c'); simpl in Hfl; lia.
Qed.
Lemma next_lock : count locked_phase calls' = (if rt_locked s' then 1 else 0)%nat.
Proof.
  pose proof (count_insert locked_phase (v_calls w) i c c' Hi) as Hcl. pose proof (ow_lock _ w Hw) as Hlk.
  pose proof (step_lock owner max_sessions has_projection a c s) as Hl.
  assert (locked_phase c = true → rt_locked s = true) as Hpre.
  { intros Hc. pose proof (count_pos locked_phase _ _ _ Hi Hc). destruct (rt_locked s); [done|lia]. }
  specialize (Hl Hpre). unfold b2z in Hl.
  destruct (rt_locked s), (rt_locked s'), (locked_phase c), (locked_phase c'); lia.
Qed.
Lemma next_past j x :
  calls' !! j = Some x → past_spawns x = true → ga_closing (rt_gate s') = true ∧ ga_spawns (rt_gate s') = 0.
Proof.
  intros [[-> ->]|[_ Hj]]%next_calls Hx; [|apply next_quiet; by eapply (ow_past _ w Hw)].
  destruct (step_past owner max_sessions has_projection a c s Hx) as [Hp|[Ec Hz]].
  - apply next_quiet; by eapply (ow_past _ w Hw).
  - apply next_quiet; [apply (cc_closing w Hcc i _ Hi); by rewrite Ec|by apply Z.eqb_eq in Hz].
Qed.
Lemma next_holder j x index : i ≠ j → v_calls w !! j = Some x → holds_slot x = Some index →
  holds_slot c ≠ Some index ∧ holds_slot c' ≠ Some index.
Proof.
  intros Hne Hj Hx. assert (holds_slot c ≠ Some index) as Hc by (intros Hh; apply Hne; by eapply (ow_distinct _ w Hw)).
  split; [done|]. intros Hc'. pose proof (ow_slot _ w Hw j x index Hj Hx) as Hr.
  destruct (step_slots owner max_sessions has_projection a c s) as [_ Hh|_ _ Hh|ix _ Hv _ Hh|ix new _ _ Hh _|_ Hh _].
  - congruence.
  - congruence.
  - rewrite Hh in Hc'. injection Hc' as ->. apply (vacate_reserved s) in Hr. congruence.
  - congruence.
  - by rewrite Hh in Hc'.
Qed.
Lemma next_slot j x index : calls' !! j = Some x → holds_slot x = Some index → rt_slots s' !! index = Some Reserved.
Proof.
  intros [[-> ->]|[Hne Hj]]%next_calls Hx.
  - destruct (step_slots owner max_sessions has_projection a c s) as [Hs Hh|Hs _ Hh|ix Hs Hv _ Hh|ix new Hs _ Hh _|_ Hh _].
    + rewrite Hs. eapply (ow_slot _ w Hw); [done|congruence].
    + congruence.
    + rewrite Hs. rewrite Hh in Hx. injection Hx as <-. apply list_lookup_insert_eq. by eapply lookup_lt_Some.
    + congruence.
    + by rewrite Hh in Hx.
  - eapply (slots_reserved c c' s s'); [apply step_slots|by eapply next_holder|
      eapply not_taken; [done|by eapply holds_in_flight]|by eapply (ow_slot _ w Hw)].
Qed.
Lemma next_distinct j j' x x' index :
  calls' !! j = Some x → calls' !! j' = Some x' → holds_slot x = Some index → holds_slot x' = Some index → j = j'.
Proof.
  intros [[-> ->]|[Hne Hj]]%next_calls [[-> ->]|[Hne' Hj']]%next_calls Hx Hx'; try done.
  - by destruct (next_holder j' x' index).
  - by destruct (next_holder j x index).
  - by eapply (ow_distinct _ w Hw).
Qed.
Lemma next_emptied j x : calls' !! j = Some x → emptied x = true → rt_slots s' = [].
Proof.
  pose proof (step_slots owner max_sessions has_projection a c s) as Hsl.
  intros [[-> ->]|[Hne Hj]]%next_calls Hx; [|eapply slots_empty; [done|by eapply (ow_emptied _ w Hw)]].
  destruct (step_emptied owner max_sessions has_projection a c s Hx) as [He|Ec].
  - eapply slots_empty; [done|by eapply (ow_emptied _ w Hw)].
  - by rewrite Ec.
Qed.
Lemma next_unlock j x : calls' !! j = Some x → past_services x = true → rt_services s' = false.
Proof.
  assert (rt_services s = false → rt_services s' = false) as Hst.
  { intros H. by destruct (step_services owner max_sessions has_projection a c s) as [->|(all & _ & _ & -> & _)]. }
  intros [[-> ->]|[_ Hj]]%next_calls Hx; [|apply Hst; by eapply (ow_unlock _ w Hw)].
  destruct (step_past_services owner max_sessions has_projection a c s (ow_plain _ w Hw) Hx) as [Hp|?]; [|done].
  apply Hst. by eapply (ow_unlock _ w Hw).
Qed.
Lemma next_plain : has_projection = false → rt_services s' = false.
Proof.
  intros H%(ow_plain _ w Hw). by destruct (step_services owner max_sessions has_projection a c s) as [->|(all & _ & _ & -> & _)].
Qed.
(** The coordinators a locked shutdown has taken stay with it, and so do those
    it is finishing. *)
Lemma next_finishing j x k :
  v_calls w !! j = Some x → k ∈ finishing x → unclosed k s' → ∃ j x, calls' !! j = Some x ∧ k ∈ finishing x.
Proof.
  intros Hj Hk Hu. destruct (decide (i = j)) as [<-|Hne]; [|exists j, x; split; [by apply next_other|done]].
  exists i, c'. split; [apply next_stepped|]. assert (c = x) as Ec by congruence. subst x. by apply step_finishing.
Qed.
Lemma next_held j x k :
  v_calls w !! j = Some x → k ∈ held_by x → unclosed k s → unclosed k s' →
  ∃ j x, calls' !! j = Some x ∧ k ∈ held_by x.
Proof.
  intros Hj Hk Hu Hu'. destruct (decide (i = j)) as [<-|Hne]; [|exists j, x; split; [by apply next_other|done]].
  assert (c = x) as Ec by congruence. subst x.
  destruct (step_held owner max_sessions has_projection a c s k Hk Hu') as [H|(all & Ec & Es)];
    [exists i, c'; split; [apply next_stepped|done]|].
  destruct (ow_services _ w Hw Es) as [[_ Hn]|[_ Hf]].
  { destruct Hu as [Hu _]. rewrite Hn in Hu. simpl in Hu. lia. }
  destruct (Hf k Hu) as (j & x & Hj' & Hx). apply finishing_held in Hx as Hx'.
  assert (i = j) as <- by (eapply lock_owner_unique; [exact Hi|eassumption|by rewrite Ec|by eapply held_locked]).
  assert (x = c) as -> by congruence. rewrite Ec in Hx. by apply elem_of_nil in Hx.
Qed.
Lemma next_coords k :
  unclosed k s' →
  (∃ index, rt_slots s' !! index = Some (Owned k)) ∨ ∃ j x, calls' !! j = Some x ∧ (publishes k x ∨ k ∈ held_by x).
Proof.
  intros Hu'. pose proof (step_slots owner max_sessions has_projection a c s) as Hsl.
  destruct (unclosed_before k Hu') as [Hu|(_ & _ & Hp)]; [|right; exists i, c'; split; [apply next_stepped|by left]].
  destruct (ow_coords _ w Hw k Hu) as [[index Hx]|(j & x & Hj & [Hx|Hx])].
  - destruct (taking c) as [Ec|Hnt].
    + right. exists i, c'. split; [apply next_stepped|right]. rewrite Ec. simpl. by eapply owned_coords_spec.
    + left. exists index. eapply slots_owned; [done|by destruct Hu|done| |done]. intros ix. by eapply (ow_slot _ w Hw).
  - destruct (decide (i = j)) as [<-|Hne]; [left|right; exists j, x; split; [by apply next_other|by left]].
    assert (c = x) as Ec by congruence. subst x. destruct c as [id p at_| | | | | | |]; try done. destruct at_ as [| | | |y ix k'| | | | | | | | | | | |]; try done. simpl in Hx. subst k'.
    exists ix. simpl. apply list_lookup_insert_eq. eapply lookup_lt_Some. by eapply (ow_slot _ w Hw).
  - right. destruct (next_held j x k Hj Hx Hu Hu') as (j' & y & ? & ?). exists j', y. auto.
Qed.
Lemma next_services :
  rt_services s' = false →
  has_projection = false ∧ rt_coords s' = []
  ∨ rt_slots s' = [] ∧ ∀ k, unclosed k s' → ∃ j x, calls' !! j = Some x ∧ k ∈ finishing x.
Proof.
  intros Hs'. pose proof (step_slots owner max_sessions has_projection a c s) as Hsl.
  destruct (step_services owner max_sessions has_projection a c s) as [Hs|(all & Ec & Hs & _ & Ec')].
  - rewrite Hs in Hs'. destruct (ow_services _ w Hw Hs') as [[Hp Hn]|[He Hf]].
    + left. split; [done|]. destruct (step_coords owner max_sessions has_projection a c s)
        as [(? & ? & ? & ? & _ & Es & _)|Hl]; [congruence|]. apply nil_length_inv. by rewrite Hl, Hn.
    + right. split; [by eapply slots_empty|]. intros k Hu.
      destruct (unclosed_before k Hu) as [Hu0|(Es & _)]; [|congruence].
      destruct (Hf k Hu0) as (j & x & Hj & Hx). by eapply next_finishing.
  - right. assert (rt_slots s = []) as He by (eapply (ow_emptied _ w Hw i c); [done|by rewrite Ec]).
    split; [by eapply slots_empty|]. intros k Hu. exists i, c'. split; [apply next_stepped|]. rewrite Ec'. simpl.
    destruct (unclosed_before k Hu) as [Hu0|(_ & Hf & _)]; [|by rewrite Ec in Hf].
    destruct (ow_coords _ w Hw k Hu0) as [[index Hx]|(j & x & Hj & [Hx|Hx])].
    + by rewrite He in Hx.
    + apply publishes_in_flight in Hx. rewrite (nobody_in_flight i c j x) in Hx; [done|done|by rewrite Ec|done].
    + assert (i = j) as <- by (eapply lock_owner_unique; [exact Hi|eassumption|by rewrite Ec|by eapply held_locked]).
      assert (x = c) as -> by congruence. by rewrite Ec in Hx.
Qed.
Lemma next_closed j : calls' !! j = Some Closed_down → ∀ k, ¬ unclosed k s'.
Proof.
  intros Hj k Hu.
  assert (past_spawns c = true ∨ ∃ j x, v_calls w !! j = Some x ∧ past_spawns x = true) as Hpast.
  { apply next_calls in Hj as [[-> Ec]|[_ Hj]]; [left|right; by eexists _, _].
    by destruct (step_closed_down owner max_sessions has_projection a c s) as [->| ->]. }
  assert (in_flight c = false) as Hnf by (destruct Hpast as [?|(j' & x & ? & ?)]; by eapply nobody_in_flight).
  destruct (unclosed_before k Hu) as [Hu0|(_ & Hf & _)]; [|congruence].
  apply next_calls in Hj as [[-> Ec]|[_ Hj]]; [|by eapply (ow_closed _ w Hw)].
  destruct (step_closed_down owner max_sessions has_projection a c s (eq_sym Ec)) as [Ec0|Ec0];
    [|eapply (ow_closed _ w Hw i); [by rewrite <-Ec0|done]].
  assert (rt_services s = false) as Es by (eapply (ow_unlock _ w Hw i c); [done|by rewrite Ec0]).
  destruct (ow_services _ w Hw Es) as [[_ Hn]|[_ Hf]].
  { destruct Hu0 as [Hu0 _]. rewrite Hn in Hu0. simpl in Hu0. lia. }
  destruct (Hf k Hu0) as (j' & x & Hj' & Hx). apply finishing_held in Hx as Hx'.
  assert (i = j') as <- by (eapply lock_owner_unique; [exact Hi|eassumption|by rewrite Ec0|by eapply held_locked]).
  assert (x = c) as -> by congruence. rewrite Ec0 in Hx. by apply elem_of_nil in Hx.
Qed.
Lemma owned_step : owned_ok {| v_rt := s'; v_calls := calls' |}.
Proof.
  exact (Build_owned_ok _ {| v_rt := s'; v_calls := calls' |} next_spawns next_lock next_past next_slot
    (λ j j' x x', next_distinct j j' x x') next_coords next_emptied next_services next_unlock next_plain next_closed).
Qed.
End one_step.

(** What is not a step of a call keeps all this as long as it leaves the slots,
    the services and the gate alone and opens no coordinator. *)
Lemma owned_rt w s' :
  owned_ok w → rt_gate s' = rt_gate (v_rt w) → rt_slots s' = rt_slots (v_rt w) →
  rt_services s' = rt_services (v_rt w) → rt_locked s' = rt_locked (v_rt w) →
  length (rt_coords s') = length (rt_coords (v_rt w)) → (∀ k, unclosed k s' → unclosed k (v_rt w)) →
  owned_ok {| v_rt := s'; v_calls := v_calls w |}.
Proof.
  intros [O1 O2 O3 O4 O5 O6 O7 O8 O9 O10 O11] Eg Es Ev El Ec Hu.
  split; simpl; rewrite ?Eg, ?Es, ?Ev, ?El; try done.
  - intros k Hk. by apply O6, Hu.
  - intros H. destruct (O8 H) as [[Hp Hn]|[He Hf]]; [left|right].
    + split; [done|]. apply nil_length_inv. by rewrite Ec, Hn.
    + split; [done|]. intros k Hk. by apply Hf, Hu.
  - intros i Hi k Hk. by apply (O11 i Hi k), Hu.
Qed.
Lemma owned_start c w :
  owned_ok w → in_flight c = false → holds_slot c = None → locked_phase c = false → past_spawns c = false →
  owned_ok (start c w).
Proof.
  intros [O1 O2 O3 O4 O5 O6 O7 O8 O9 O10 O11] Hf Hh Hl Hp.
  assert (∀ i x, (v_calls w ++ [c]) !! i = Some x → v_calls w !! i = Some x ∨ x = c) as Hcase.
  { intros i x [Hi|[_ Hi]]%lookup_app_Some; [by left|right]. by apply list_lookup_singleton_Some in Hi as [_ <-]. }
  assert (past_services c = false ∧ emptied c = false) as [Hps Hem].
  { destruct c as [| | |at_| | | |]; try done. by destruct at_. }
  split; simpl.
  - rewrite count_snoc, Hf. lia.
  - rewrite count_snoc, Hl. lia.
  - intros i x [Hi| ->]%Hcase Hx; [by eapply O3|congruence].
  - intros i x ix [Hi| ->]%Hcase Hx; [by eapply O4|congruence].
  - intros i j x x' ix Hi Hj Hx Hx'.
    apply lookup_app_Some in Hi as [Hi|[_ Hi]]; [|apply list_lookup_singleton_Some in Hi as [_ <-]; congruence].
    apply lookup_app_Some in Hj as [Hj|[_ Hj]]; [|apply list_lookup_singleton_Some in Hj as [_ <-]; congruence].
    by eapply O5.
  - intros k Hk. destruct (O6 k Hk) as [?|(i & x & Hi & Hx)]; [by left|right].
    exists i, x. by rewrite (lookup_app_l_Some _ _ _ _ Hi).
  - intros i x [Hi| ->]%Hcase Hx; [by eapply O7|congruence].
  - intros H. destruct (O8 H) as [?|[He Hf']]; [by left|right]. split; [done|]. intros k Hk.
    destruct (Hf' k Hk) as (i & x & Hi & Hx). exists i, x. by rewrite (lookup_app_l_Some _ _ _ _ Hi).
  - intros i x [Hi| ->]%Hcase Hx; [by eapply O9|congruence].
  - done.
  - intros i [Hi|Hi]%Hcase k; [by eapply O11|]. by subst.
Qed.
Lemma owned_happen e w : owned_ok w → cancels_ok w → owned_ok (happen e w).
Proof.
  intros Hw Hcc. destruct e as [id projected|id|c| |i a|c op|k outcome]; simpl; try by apply owned_start.
  - destruct (projected && negb has_projection); by apply owned_start.
  - destruct (v_calls w !! i) as [c|] eqn:Hi; [|done]. pose proof (owned_step a c i w Hw Hcc Hi) as H.
    by destruct (step_call a c (v_rt w)).
  - destruct (is_report op); [|done]. by apply owned_rt.
  - destruct (rt_coords (v_rt w) !! k) as [x|] eqn:Hx; [|done]. destruct (_ && _); [|done].
    apply owned_rt; try done; simpl; [by rewrite length_alter|]. intros j [Hl Hc]. simpl in Hl. rewrite length_alter in Hl.
    split; [done|]. destruct (is_closed j (v_rt w)) eqn:E; [|done].
    pose proof (evolves_coord k (coord_closed outcome) (v_rt w) (λ _ _, eq_refl)) as He.
    by rewrite (ev_closed _ _ He j E) in Hc.
Qed.
Lemma owned_happens es w : owned_ok w → cancels_ok w → owned_ok (happens es w) ∧ cancels_ok (happens es w).
Proof.
  revert w. induction es as [|e es IH]; intros w Hw Hcc; [done|].
  apply IH; [by apply owned_happen|by apply cancels_happen].
Qed.
Lemma owned_new : owned_ok (World_new max_sessions has_projection).
Proof.
  split; simpl; try done.
  - by intros k [H _]; simpl in H; lia.
  - intros ->. by left.
Qed.
End ownership_kept.

Section shutdown_theorem.
Context (owner max_sessions : Z) (has_projection : bool).
Abbreviation step_call := (step_call owner max_sessions has_projection).
Abbreviation happen := (happen owner max_sessions has_projection).
Abbreviation happens := (happens owner max_sessions has_projection).
Abbreviation World_new := (World_new max_sessions has_projection).

(** The owner cannot panic: a reservation that is published or given back still
    has its slot, which nobody else holds, and a spawn that returns its admission
    was counted. *)
Theorem reservations_valid (es : list event) :
  let w := happens es World_new in
  ga_spawns (rt_gate (v_rt w)) = Z.of_nat (count in_flight (v_calls w))
  ∧ ∀ i c index, v_calls w !! i = Some c → holds_slot c = Some index →
      rt_slots (v_rt w) !! index = Some Reserved
      ∧ 1 <= ga_spawns (rt_gate (v_rt w))
      ∧ ∀ j c', v_calls w !! j = Some c' → holds_slot c' = Some index → i = j.
Proof.
  intros w.
  destruct (owned_happens owner max_sessions has_projection es World_new
    (owned_new _ _) (cancels_new _ _)) as [Hw _]. fold w in Hw.
  split; [apply (ow_spawns _ w Hw)|]. intros i c index Hi Hh.
  split; [by eapply (ow_slot _ w Hw)|]. split.
  - rewrite (ow_spawns _ w Hw). pose proof (count_pos in_flight _ _ _ Hi (holds_in_flight _ _ Hh)). lia.
  - intros j c' Hj Hh'. by eapply (ow_distinct _ w Hw).
Qed.

Lemma closed_down_stays es w i : v_calls w !! i = Some Closed_down → v_calls (happens es w) !! i = Some Closed_down.
Proof.
  revert w. induction es as [|e es IH]; intros w Hi; [done|]. apply IH. clear IH.
  destruct e as [id projected|id|c| |j a|c op|k outcome]; simpl; try by apply lookup_app_l_Some.
  - destruct (v_calls w !! j) as [c|] eqn:Hj; [|done].
    destruct (step_call a c (v_rt w)) as [s' c'] eqn:E. simpl.
    destruct (decide (j = i)) as [->|Hne]; [|by rewrite list_lookup_insert_ne].
    assert (c = Closed_down) as -> by congruence. injection E as <- <-.
    apply list_lookup_insert_eq. by eapply lookup_lt_Some.
  - by destruct (is_report op).
  - destruct (rt_coords (v_rt w) !! k); [|done]. by destruct (_ && _).
Qed.
(** C8: When a [shutdown] has returned no spawn is running, none will be admitted,
    and every coordinator that was ever created is closed; so are, after any
    further history, the coordinators there are then. *)
Theorem shutdown_complete (es es' : list event) (i : nat) :
  v_calls (happens es World_new) !! i = Some Closed_down →
  let w := happens es' (happens es World_new) in
  ga_closing (rt_gate (v_rt w)) = true ∧ ga_spawns (rt_gate (v_rt w)) = 0
  ∧ Forall (λ c, in_flight c = false) (v_calls w)
  ∧ ∀ k, (k < length (rt_coords (v_rt w)))%nat → is_closed k (v_rt w) = true.
Proof.
  intros Hi w.
  destruct (owned_happens owner max_sessions has_projection es World_new
    (owned_new _ _) (cancels_new _ _)) as [H1 H2].
  destruct (owned_happens owner max_sessions has_projection es' _ H1 H2) as [Hw _]. fold w in Hw.
  assert (v_calls w !! i = Some Closed_down) as Hi' by (by apply closed_down_stays).
  destruct (ow_past _ w Hw i _ Hi' eq_refl) as [Hc Hz]. split; [done|]. split; [done|]. split.
  - apply Forall_lookup. intros j x Hj. by eapply (nobody_in_flight has_projection w Hw i).
  - intros k Hk. destruct (is_closed k (v_rt w)) eqn:E; [done|]. by destruct (ow_closed _ w Hw i Hi' k).
Qed.
End shutdown_theorem.

(** A projected session, and a shutdown that closes its coordinator. *)
Definition closing_history : list event :=
  [V_spawn (mk_SessionId [97]) true] ++ replicate 12 (V_step 0 Answer_ok) ++ [V_shutdown]
  ++ replicate 6 (V_step 1 Answer_ok) ++ [V_closed 0 (Ok tt)] ++ replicate 6 (V_step 1 Answer_ok).
Lemma shutdown_complete_witness :
  let w := happens 7 2 true [V_shutdown] (happens 7 2 true closing_history (World_new 2 true)) in
  (∃ x, rt_contexts (v_rt w) = [x] ∧ x_projection x = Some 0%nat ∧ x_process x = Some 0%nat)
  ∧ length (rt_coords (v_rt w)) = 1%nat ∧ v_calls w !! 1%nat = Some Closed_down
  ∧ ∀ k, (k < length (rt_coords (v_rt w)))%nat → is_closed k (v_rt w) = true.
Proof.
  split; [eexists; split; [vm_compute; reflexivity|by split]|].
  split; [vm_compute; reflexivity|]. split; [vm_compute; reflexivity|].
  exact (proj2 (proj2 (proj2 (shutdown_complete 7 2 true closing_history [V_shutdown] 1 eq_refl)))).
Defined.

Lemma reservations_valid_witness :
  let w := happens 7 2 true (take 5 closing_history) (World_new 2 true) in
  v_calls w !! 0%nat = Some (Spawning (mk_SessionId [97]) true (Sp_publish 0 0 0))
  ∧ rt_slots (v_rt w) !! 0%nat = Some Reserved.
Proof.
  split; [vm_compute; reflexivity|].
  refine (proj1 (proj2 (reservations_valid 7 2 true (take 5 closing_history)) 0%nat
    (Spawning (mk_SessionId [97]) true (Sp_publish 0 0 0)) 0%nat _ _)); vm_compute; reflexivity.
Defined.
