(* ===== verification/Jobs.v ===== *)
(** * Blocking jobs (crates/application/src/projection/blocking.rs, inflight.rs,
      reaper.rs, state.rs)

    The three jobs that may block, the single slot that records the one in
    flight, and the reaper that deletes superseded sources, with what any history
    of the reaper conserves.  A mailbox is shared by the slot and by the job that
    fills it, so its content is kept in the slot, beside the job.  What becomes of
    a commit is in Commits.v. *)

From S2P Require Import Prelude Identity Process Terminal Checkpoint Projection Session View.
From S2P Require Import Policy Atomic Quota Diagnostics Budgets Queue Ports.

(** ** Sources (state.rs) *)

(** The slot lease and the byte lease. *)
Record DiskLease := { dl_slots : Lease; dl_bytes : Lease }.
Record IoMemory := { im_plain : Lease; im_protected : Lease }.

Record CommittedSource := {
  cs_reference : CheckpointRef;
  cs_descriptor : CheckpointDescriptor;
  cs_disk : DiskLease
}.
Record UnreclaimedSource := {
  us_reference : option CheckpointRef;
  us_key : CheckpointKey;
  us_descriptor : CheckpointDescriptor;
  us_disk : DiskLease
}.

Definition attempt_key (a : ParkAttempt) : CheckpointKey :=
  {| ck_lifetime := rc_lifetime (pa_processed a); ck_generation := pa_generation a |}.
Definition attempt_descriptor (compatibility : CompatibilityId) (a : ParkAttempt)
    : CheckpointDescriptor :=
  {| cd_compatibility := compatibility; cd_processed := pa_processed a;
     cd_control_generation := pa_control_generation a |}.

Definition from_uncertain_park (compatibility : CompatibilityId) (a : ParkAttempt)
    (disk : DiskLease) : UnreclaimedSource :=
  {| us_reference := None; us_key := attempt_key a;
     us_descriptor := attempt_descriptor compatibility a; us_disk := disk |}.
Definition from_committed (s : CommittedSource) : UnreclaimedSource :=
  {| us_reference := Some (cs_reference s); us_key := cr_key (cs_reference s);
     us_descriptor := cs_descriptor s; us_disk := cs_disk s |}.

Inductive CommitOutcome :=
  | Commit_Published (reference : CheckpointRef)
  | Commit_Rejected (error : ProjectionError)
  | Commit_Uncertain (error : ProjectionError).

(** ** The slot (inflight.rs) *)

(** [source] is a source checked out for deletion, and how often it failed. *)
Record DeleteAttempt := { da_source : CommittedSource; da_attempts : Z }.

Abbreviation mailbox A := (option (result ProjectionError A)).

Inductive PendingIo :=
  | Pending_Commit (attempt : ParkAttempt) (disk : DiskLease) (memory : IoMemory)
      (checkpoint : TerminalCheckpoint) (mail : mailbox CommitOutcome)
  | Pending_Restore (resident : Lease) (memory : IoMemory) (source : CommittedSource)
      (mail : mailbox TerminalCheckpoint)
  | Pending_Transfer (request : SnapshotRequest) (memory : IoMemory) (staging : StagingLease)
      (source : CommittedSource) (mail : mailbox TerminalCheckpoint)
  | Pending_Delete (attempt : DeleteAttempt) (mail : mailbox ()).

Inductive FinishedIo :=
  | Finished_Commit (attempt : ParkAttempt) (disk : DiskLease) (memory : IoMemory)
      (r : result ProjectionError CommitOutcome)
  | Finished_Restore (resident : Lease) (memory : IoMemory)
      (r : result ProjectionError TerminalCheckpoint)
  | Finished_Transfer (request : SnapshotRequest) (memory : IoMemory) (staging : StagingLease)
      (r : result ProjectionError TerminalCheckpoint)
  | Finished_Delete (attempt : DeleteAttempt) (r : result ProjectionError ()).

Abbreviation InFlight := (option PendingIo).

Section jobs.
Context `{P : Ports}.

(** ** The jobs (blocking.rs)

    A job ends with its result, or panics ([None]). *)

Definition read_job (reference : CheckpointRef) (descriptor : CheckpointDescriptor)
    (protected_max plaintext_max : Z) (e : Env) : Env * option (result ProjectionError TerminalCheckpoint) :=
  match store_read reference protected_max e with
  | (e, None) => (e, None)
  | (e, Some (Err err)) => (e, Some (Err (ProjectionError_Storage err)))
  | (e, Some (Ok bytes)) =>
    if negb (len (pc_ciphertext bytes) =? cr_bytes reference)
    then (e, Some (Err (ProjectionError_Storage CheckpointError_Unavailable)))
    else match protector_open (cr_key reference) descriptor bytes e with
    | (e, None) => (e, None)
    | (e, Some (Err err)) => (e, Some (Err (ProjectionError_Storage err)))
    | (e, Some (Ok checkpoint)) =>
      if bool_decide (tk_descriptor checkpoint ≠ descriptor)
         || (plaintext_max <? tk_capacity checkpoint)
      then (e, Some (Err ProjectionError_InvalidConfiguration))
      else (e, Some (Ok checkpoint))
    end
  end.

Definition commit_job (key : CheckpointKey) (checkpoint : TerminalCheckpoint)
    (descriptor : CheckpointDescriptor) (protected_max : Z) (e : Env)
    : Env * option (result ProjectionError CommitOutcome) :=
  match protector_protect key checkpoint e with
  | (e, None) => (e, None)
  | (e, Some (Err err)) => (e, Some (Ok (Commit_Rejected (ProjectionError_Storage err))))
  | (e, Some (Ok protected)) =>
    if bool_decide (pc_key protected ≠ key) || bool_decide (pc_descriptor protected ≠ descriptor)
       || (len (pc_ciphertext protected) =? 0) || (protected_max <? len (pc_ciphertext protected))
    then (e, Some (Ok (Commit_Rejected ProjectionError_InvalidConfiguration)))
    else
      let n := len (pc_ciphertext protected) in
      match store_commit protected e with
      | (e, None) => (e, None)
      | (e, Some (Err err)) => (e, Some (Ok (Commit_Rejected (ProjectionError_Storage err))))
      | (e, Some (Ok reference)) =>
        if bool_decide (cr_key reference ≠ key) || negb (cr_bytes reference =? n)
        then (e, Some (Ok (Commit_Uncertain ProjectionError_InvalidConfiguration)))
        else (e, Some (Ok (Commit_Published reference)))
      end
  end.

Definition delete_job (reference : CheckpointRef) (e : Env) : Env * option (result ProjectionError ()) :=
  match store_delete reference e with
  | (e, None) => (e, None)
  | (e, Some r) => (e, Some (map_err ProjectionError_Storage r))
  end.

(** The closure [submit] builds: a panic publishes a worker failure. *)
Definition job_result {A} (r : option (result ProjectionError A)) : result ProjectionError A :=
  match r with Some r => r | None => Err ProjectionError_Worker end.

Definition io_busy (io : InFlight) : bool := is_some io.

Definition take_finished (io : InFlight) : InFlight * option FinishedIo :=
  match io with
  | Some (Pending_Commit attempt disk memory _ (Some r)) =>
    (None, Some (Finished_Commit attempt disk memory r))
  | Some (Pending_Restore resident memory _ (Some r)) =>
    (None, Some (Finished_Restore resident memory r))
  | Some (Pending_Transfer request memory staging _ (Some r)) =>
    (None, Some (Finished_Transfer request memory staging r))
  | Some (Pending_Delete attempt (Some r)) => (None, Some (Finished_Delete attempt r))
  | _ => (io, None)
  end.

Definition io_abandon (io : InFlight) : InFlight * option PendingIo := (None, io).

(** [submit] with the variant that will own the job: the slot must be free and
    the pool must take the job; otherwise the slot is untouched and the caller
    keeps what it held. *)
Definition io_submit (pending : PendingIo) (io : InFlight) (e : Env)
    : InFlight * Env * result ProjectionError () :=
  if is_some io then (io, e, Err ProjectionError_Worker)
  else match executor_submit e with
  | (e, false) => (io, e, Err ProjectionError_Capacity)
  | (e, true) => (Some pending, e, Ok tt)
  end.

(** The pool runs the job of the slot and fills its mailbox. *)
Definition run_job (compatibility : CompatibilityId) (protected_max plaintext_max : Z)
    (io : InFlight) (e : Env) : InFlight * Env :=
  match io with
  | Some (Pending_Commit attempt disk memory checkpoint None) =>
    let (e, r) := commit_job (attempt_key attempt) checkpoint (tk_descriptor checkpoint)
                    protected_max e in
    (Some (Pending_Commit attempt disk memory checkpoint (Some (job_result r))), e)
  | Some (Pending_Restore resident memory source None) =>
    let (e, r) := read_job (cs_reference source) (cs_descriptor source) protected_max
                    plaintext_max e in
    (Some (Pending_Restore resident memory source (Some (job_result r))), e)
  | Some (Pending_Transfer request memory staging source None) =>
    let (e, r) := read_job (cs_reference source) (cs_descriptor source) protected_max
                    plaintext_max e in
    (Some (Pending_Transfer request memory staging source (Some (job_result r))), e)
  | Some (Pending_Delete attempt None) =>
    let (e, r) := delete_job (cs_reference (da_source attempt)) e in
    (Some (Pending_Delete attempt (Some (job_result r))), e)
  | _ => (io, e)
  end.

(** ** The reaper (reaper.rs) *)

Record SourceReaper := { rp_queue : list DeleteAttempt; rp_max_attempts : Z }.

Definition Reaper_new (max_attempts : Z) : SourceReaper :=
  {| rp_queue := []; rp_max_attempts := max_attempts |}.
Definition rp_set (q : list DeleteAttempt) (r : SourceReaper) : SourceReaper :=
  {| rp_queue := q; rp_max_attempts := rp_max_attempts r |}.

Definition retire (source : CommittedSource) (r : SourceReaper) : SourceReaper :=
  rp_set (rp_queue r ++ [{| da_source := source; da_attempts := 0 |}]) r.
Definition holds_sources (r : SourceReaper) : bool :=
  match rp_queue r with [] => false | _ => true end.

Definition check_out (r : SourceReaper) : SourceReaper * option DeleteAttempt :=
  match rp_queue r with
  | [] => (r, None)
  | a :: q => if rp_max_attempts r <=? da_attempts a then (r, None) else (rp_set q r, Some a)
  end.

Definition RETRY_SOON : Z := from_millis 5.

Definition start_delete (r : SourceReaper) (io : InFlight) (e : Env)
    : SourceReaper * InFlight * Env * WorkSchedule :=
  match check_out r with
  | (r, None) => (r, io, e, Dormant)
  | (r, Some attempt) =>
    match io_submit (Pending_Delete attempt None) io e with
    | (io, e, Ok _) => (r, io, e, Dormant)
    | (io, e, Err _) => (rp_set (attempt :: rp_queue r) r, io, e, After RETRY_SOON)
    end
  end.

Definition give_up_or_retry (attempt : DeleteAttempt) (error : ProjectionError) (r : SourceReaper)
    : SourceReaper * option ProjectionError :=
  let attempts := saturating_add u32_max (da_attempts attempt) 1 in
  let exhausted := rp_max_attempts r <=? attempts in
  (rp_set ({| da_source := da_source attempt; da_attempts := attempts |} :: rp_queue r) r,
   if exhausted then Some error else None).

(** A success drops the attempt, and its disk lease with it. *)
Definition DiskLease_drop (d : DiskLease) (qs : quotas) : quotas :=
  Lease_drop (dl_slots d) (Lease_drop (dl_bytes d) qs).

Definition finish_delete (attempt : DeleteAttempt) (res : result ProjectionError ())
    (r : SourceReaper) (qs : quotas) : SourceReaper * quotas * option ProjectionError :=
  match res with
  | Ok _ => (r, DiskLease_drop (cs_disk (da_source attempt)) qs, None)
  | Err error => let (r, x) := give_up_or_retry attempt error r in (r, qs, x)
  end.

Definition restore_attempts (r : SourceReaper) : SourceReaper :=
  rp_set ((λ a, {| da_source := da_source a; da_attempts := 0 |}) <$> rp_queue r) r.
Definition surrender (r : SourceReaper) : SourceReaper * list UnreclaimedSource :=
  (rp_set [] r, (λ a, from_committed (da_source a)) <$> rp_queue r).
End jobs.

(** ** Lemmas *)

Section job_lemmas.
Context `{P : Ports}.

Lemma read_job_Ok reference descriptor pmax tmax e e' c :
  read_job reference descriptor pmax tmax e = (e', Some (Ok c)) →
  tk_descriptor c = descriptor ∧ tk_capacity c <= tmax
  ∧ ∃ p e1, store_read reference pmax e = (e1, Some (Ok p))
            ∧ protector_open (cr_key reference) descriptor p e1 = (e', Some (Ok c)).
Proof.
  unfold read_job. destruct (store_read reference pmax e) as [e1 [[p|err]|]]; try done.
  destruct (negb _); [done|].
  destruct (protector_open (cr_key reference) descriptor p e1) as [e2 [[c'|err]|]] eqn:E; try done.
  destruct (bool_decide _ || _) eqn:Ed; [done|]. intros [= <- <-]. to_props. naive_solver.
Qed.

Lemma read_job_stored {EL : EngineLaws P} reference descriptor pmax tmax e e' c :
  read_job reference descriptor pmax tmax e = (e', Some (Ok c)) → held_stream c = stored reference.
Proof.
  intros (_ & _ & p & e1 & Hr & Ho)%read_job_Ok.
  by rewrite (open_plain _ _ _ _ _ _ Ho), (read_stored _ _ _ _ _ Hr).
Qed.

Lemma commit_job_Published key c descriptor pmax e e' reference :
  commit_job key c descriptor pmax e = (e', Some (Ok (Commit_Published reference))) →
  cr_key reference = key
  ∧ ∃ p e1, protector_protect key c e = (e1, Some (Ok p)) ∧ pc_key p = key
            ∧ pc_descriptor p = descriptor ∧ 0 < len (pc_ciphertext p) <= pmax
            ∧ cr_bytes reference = len (pc_ciphertext p)
            ∧ store_commit p e1 = (e', Some (Ok reference)).
Proof.
  unfold commit_job. destruct (protector_protect key c e) as [e1 [[p|err]|]] eqn:Ep; try done.
  match goal with |- context [if ?b then _ else _] => destruct b eqn:Eg end; [done|].
  destruct (store_commit p e1) as [e2 [[r|err]|]] eqn:Ec; try done.
  match goal with |- context [if ?b then _ else _] => destruct b eqn:Er end; [done|].
  intros [= <- <-]. to_props. pose proof (len_nonneg (pc_ciphertext p)).
  split; [done|]. exists p, e1. split; [done|]. split; [done|]. split; [done|].
  split; [lia|]. done.
Qed.

Lemma commit_job_stored {EL : EngineLaws P} key c descriptor pmax e e' reference :
  commit_job key c descriptor pmax e = (e', Some (Ok (Commit_Published reference))) →
  stored reference = held_stream c.
Proof.
  intros (_ & p & e1 & Hp & _ & _ & _ & _ & Hc)%commit_job_Published.
  by rewrite (commit_stored _ _ _ _ Hc), (protect_plain _ _ _ _ _ Hp).
Qed.
End job_lemmas.

#[export] Instance Lease_eq_dec : EqDecision Lease.
Proof. solve_decision. Defined.
#[export] Instance DiskLease_eq_dec : EqDecision DiskLease.
Proof. solve_decision. Defined.
#[export] Instance CommittedSource_eq_dec : EqDecision CommittedSource.
Proof. solve_decision. Defined.

(** ** Histories of a reaper

    The reaper with the slot and the pool it shares with the other jobs.  A
    source is retired; a deletion is submitted; another job takes the slot; the
    pool runs the job of the slot; its result is applied; an explicit close
    allows another round; the slot is abandoned, or what is left is surrendered.
    Each operation is given the environment it finds.  The fields below the line
    record the sources retired, the deletions submitted since the last close,
    those the store acknowledged, and where sources went. *)
Section reaper_histories.
Context `{P : Ports} (compatibility : CompatibilityId) (protected_max plaintext_max : Z).

Inductive reaper_op :=
  | R_retire (source : CommittedSource)
  | R_start (e : Env)
  | R_other (pending : PendingIo) (e : Env)
  | R_run (e : Env)
  | R_finish
  | R_restore
  | R_abandon
  | R_surrender.

Record reaper_state := {
  rs_reaper : SourceReaper;
  rs_io : InFlight;
  rs_quotas : quotas;
  (* history *)
  rs_retired : list CommittedSource;
  rs_tried : list CommittedSource;
  rs_acknowledged : list CommittedSource;
  rs_deleted : list CommittedSource;
  rs_surrendered : list UnreclaimedSource
}.
Definition reaper_start (max_attempts : Z) (qs : quotas) : reaper_state :=
  {| rs_reaper := Reaper_new max_attempts; rs_io := None; rs_quotas := qs; rs_retired := [];
     rs_tried := []; rs_acknowledged := []; rs_deleted := []; rs_surrendered := [] |}.

Definition rs_put (reaper : SourceReaper) (io : InFlight) (s : reaper_state) : reaper_state :=
  {| rs_reaper := reaper; rs_io := io; rs_quotas := rs_quotas s; rs_retired := rs_retired s;
     rs_tried := rs_tried s; rs_acknowledged := rs_acknowledged s; rs_deleted := rs_deleted s;
     rs_surrendered := rs_surrendered s |}.
Definition rs_history (retired tried acknowledged deleted : list CommittedSource)
    (surrendered : list UnreclaimedSource) (s : reaper_state) : reaper_state :=
  {| rs_reaper := rs_reaper s; rs_io := rs_io s; rs_quotas := rs_quotas s; rs_retired := retired;
     rs_tried := tried; rs_acknowledged := acknowledged; rs_deleted := deleted;
     rs_surrendered := surrendered |}.
Definition rs_settle (qs : quotas) (s : reaper_state) : reaper_state :=
  {| rs_reaper := rs_reaper s; rs_io := rs_io s; rs_quotas := qs; rs_retired := rs_retired s;
     rs_tried := rs_tried s; rs_acknowledged := rs_acknowledged s; rs_deleted := rs_deleted s;
     rs_surrendered := rs_surrendered s |}.

(** The deletion the slot holds, and the one it holds that was not run yet. *)
Definition flight (io : InFlight) : list DeleteAttempt :=
  match io with Some (Pending_Delete a _) => [a] | _ => [] end.
Definition unrun (io : InFlight) : list CommittedSource :=
  match io with Some (Pending_Delete a None) => [da_source a] | _ => [] end.
(** Whether the store acknowledges the deletion of a source. *)
Definition acknowledges (source : CommittedSource) (e : Env) : bool :=
  match (store_delete (cs_reference source) e).2 with Some (Ok _) => true | _ => false end.

Definition reaper_step (op : reaper_op) (s : reaper_state) : reaper_state :=
  match op with
  | R_retire source =>
    rs_history (rs_retired s ++ [source]) (rs_tried s) (rs_acknowledged s) (rs_deleted s)
      (rs_surrendered s) (rs_put (retire source (rs_reaper s)) (rs_io s) s)
  | R_start e =>
    let '(r, io, _, _) := start_delete (rs_reaper s) (rs_io s) e in
    rs_history (rs_retired s) (rs_tried s ++ (if is_some (rs_io s) then [] else unrun io))
      (rs_acknowledged s) (rs_deleted s) (rs_surrendered s) (rs_put r io s)
  | R_other pending e =>
    match pending with
    | Pending_Delete _ _ => s
    | _ => rs_put (rs_reaper s) (io_submit pending (rs_io s) e).1.1 s
    end
  | R_run e =>
    let run := filter (λ x, acknowledges x e = true) (unrun (rs_io s)) in
    rs_history (rs_retired s) (rs_tried s) (rs_acknowledged s ++ run) (rs_deleted s)
      (rs_surrendered s)
      (rs_put (rs_reaper s) (run_job compatibility protected_max plaintext_max (rs_io s) e).1 s)
  | R_finish =>
    match take_finished (rs_io s) with
    | (io, Some (Finished_Delete a res)) =>
      let '(r, qs, _) := finish_delete a res (rs_reaper s) (rs_quotas s) in
      rs_history (rs_retired s) (rs_tried s) (rs_acknowledged s)
        (rs_deleted s ++ (if is_ok res then [da_source a] else [])) (rs_surrendered s)
        (rs_settle qs (rs_put r io s))
    | (io, _) => rs_put (rs_reaper s) io s
    end
  | R_restore =>
    rs_history (rs_retired s) [] (rs_acknowledged s) (rs_deleted s) (rs_surrendered s)
      (rs_put (restore_attempts (rs_reaper s)) (rs_io s) s)
  | R_abandon =>
    let (io, pending) := io_abandon (rs_io s) in
    rs_history (rs_retired s) (rs_tried s) (rs_acknowledged s) (rs_deleted s)
      (rs_surrendered s ++ (from_committed <$> (da_source <$> flight pending)))
      (rs_put (rs_reaper s) io s)
  | R_surrender =>
    let (r, us) := surrender (rs_reaper s) in
    rs_history (rs_retired s) (rs_tried s) (rs_acknowledged s) (rs_deleted s)
      (rs_surrendered s ++ us) (rs_put r (rs_io s) s)
  end.
Definition reaper_run (ops : list reaper_op) (s : reaper_state) : reaper_state :=
  foldl (flip reaper_step) s ops.

Definition held_sources (s : reaper_state) : list CommittedSource :=
  da_source <$> (flight (rs_io s) ++ rp_queue (rs_reaper s)).

(** How often a source occurs, and the attempts that held ones account for. *)
Definition times (x : CommittedSource) (l : list CommittedSource) : Z := len (filter (x =.) l).
Definition attempts_of (x : CommittedSource) (l : list DeleteAttempt) : Z :=
  foldr (λ a n, (if decide (x = da_source a) then da_attempts a else 0) + n) 0 l.

(** Attempts still counted, plus a full round for each source that is gone. *)
Record reaper_ok (m : Z) (qs : quotas) (s : reaper_state) : Prop := {
  ro_sources : ∃ gone, rs_surrendered s = from_committed <$> gone
    ∧ rs_retired s ≡ₚ rs_deleted s ++ gone ++ held_sources s
    ∧ ∀ x, times x (rs_tried s)
           <= m * times x (rs_deleted s ++ gone)
              + (attempts_of x (flight (rs_io s)) + times x (da_source <$> flight (rs_io s)))
              + attempts_of x (rp_queue (rs_reaper s));
  ro_max : rp_max_attempts (rs_reaper s) = m;
  ro_bound : Forall (λ a, 0 <= da_attempts a <= m) (rp_queue (rs_reaper s));
  ro_flight : Forall (λ a, 0 <= da_attempts a < m) (flight (rs_io s));
  ro_acknowledged : ∀ x,
    times x (rs_deleted s)
    + match rs_io s with
      | Some (Pending_Delete a (Some (Ok _))) => times x [da_source a]
      | _ => 0
      end <= times x (rs_acknowledged s);
  ro_quotas : rs_quotas s = foldl (λ qs x, DiskLease_drop (cs_disk x) qs) qs (rs_deleted s)
}.

Lemma times_nil x : times x [] = 0.
Proof. done. Qed.
Lemma times_cons x y l : times x (y :: l) = (if decide (x = y) then 1 else 0) + times x l.
Proof.
  unfold times. rewrite filter_cons. repeat case_decide; try done. by rewrite len_cons.
Qed.
Lemma times_app x l k : times x (l ++ k) = times x l + times x k.
Proof. unfold times. by rewrite filter_app, len_app. Qed.
Lemma times_nonneg x l : 0 <= times x l.
Proof. apply len_nonneg. Qed.
Lemma times_perm x l k : l ≡ₚ k → times x l = times x k.
Proof. intros H. unfold times, len. by rewrite H. Qed.
Lemma attempts_app x l k : attempts_of x (l ++ k) = attempts_of x l + attempts_of x k.
Proof. unfold attempts_of. induction l as [|a l IH]; [done|]. simpl. rewrite IH. lia. Qed.

Lemma attempts_nil x : attempts_of x [] = 0.
Proof. done. Qed.
Lemma attempts_cons x a l :
  attempts_of x (a :: l) = (if decide (x = da_source a) then da_attempts a else 0) + attempts_of x l.
Proof. done. Qed.
Arguments attempts_of : simpl never.

(** Held attempts never exceed a round for each of their sources. *)
Lemma attempts_bounded x m l :
  0 <= m → Forall (λ a, 0 <= da_attempts a <= m) l →
  0 <= attempts_of x l <= m * times x (da_source <$> l).
Proof.
  intros Hm. induction 1 as [|a l Ha _ IH]; [cbn; rewrite attempts_nil, times_nil; lia|]. cbn [fmap list_fmap].
  rewrite attempts_cons, times_cons. repeat case_decide; try done; lia.
Qed.

Lemma attempts_restored x l :
  attempts_of x ((λ a, {| da_source := da_source a; da_attempts := 0 |}) <$> l) = 0.
Proof. induction l as [|a l IH]; [done|]. cbn. rewrite attempts_cons, IH. by case_decide. Qed.

(** The slot holds at most one deletion, which has an attempt left. *)
Lemma flight_bounded x m io :
  Forall (λ a, 0 <= da_attempts a < m) (flight io) →
  attempts_of x (flight io) + times x (da_source <$> flight io)
    <= m * times x (da_source <$> flight io).
Proof.
  destruct io as [[| | |a mail]|]; cbn; rewrite ?attempts_nil, ?times_nil; try lia.
  intros [Ha _]%Forall_cons. rewrite attempts_cons, attempts_nil, times_cons, times_nil. repeat case_decide; try done; lia.
Qed.

Ltac times := cbn [fmap list_fmap app da_source da_attempts flight unrun] in *;
  rewrite ?fmap_app, ?times_app, ?times_cons, ?times_nil, ?attempts_app, ?attempts_cons, ?attempts_nil in *;
  cbn [da_source da_attempts] in *.

Lemma start_ok m qs e s :
  0 <= m → reaper_ok m qs s → reaper_ok m qs (reaper_step (R_start e) s).
Proof.
  intros Hm [(gone & Hsur & Hret & Hat) Hmax Hb Hf Hack Hqs]. cbn [reaper_step].
  unfold start_delete, check_out. destruct s as [[q m'] io qs' ret tried ack del sur]. cbn in *. subst m'.
  assert (Hsame : reaper_ok m qs
    (Build_reaper_state (Build_SourceReaper q m) io qs' ret
       (tried ++ (if is_some io then [] else unrun io)) ack del sur)).
  { split; cbn; try done. exists gone. split; [done|]. split; [done|].
    intros x. specialize (Hat x). destruct io; cbn [is_some unrun]; by rewrite app_nil_r. }
  destruct q as [|a q]; [exact Hsame|]. destruct (m <=? da_attempts a) eqn:Ea; [exact Hsame|]. to_props.
  unfold io_submit. cbn. destruct io as [pending|]; [exact Hsame|].
  cbn [is_some]. destruct (executor_submit e) as [e' [|]]; [|exact Hsame]. apply Forall_cons in Hb as [Hb1 Hb2].
  split; cbn; try done; [|by constructor; [lia|constructor]].
  - exists gone. split; [done|]. split; [done|]. intros x. specialize (Hat x). times. repeat case_decide; try done; lia.
Qed.

Lemma finish_ok m qs s :
  0 <= m < u32_max → reaper_ok m qs s → reaper_ok m qs (reaper_step R_finish s).
Proof.
  intros Hm [(gone & Hsur & Hret & Hat) Hmax Hb Hf Hack Hqs]. cbn [reaper_step].
  destruct s as [[q m'] io qs' ret tried ack del sur]. cbn in *. subst m'.
  assert (Hdrop : flight io = [] → reaper_ok m qs
    (Build_reaper_state (Build_SourceReaper q m) None qs' ret tried ack del sur)).
  { intros E. unfold held_sources in Hret. cbn in Hret. rewrite E in *. split; cbn; try done; [by exists gone|].
    intros x. specialize (Hack x). destruct io as [[| | |a mail]|]; try done. }
  assert (Hsame : reaper_ok m qs
    (Build_reaper_state (Build_SourceReaper q m) io qs' ret tried ack del sur))
    by (split; cbn; try done; by exists gone).
  destruct io as [[? ? ? ? [r|]|? ? ? [r|]|? ? ? ? [r|]|a [r|]]|];
    cbn [take_finished]; try (by apply Hdrop); try exact Hsame.
  clear Hdrop Hsame. apply Forall_cons in Hf as [Ha _]. unfold held_sources in Hret. cbn in Hret.
  destruct r as [[]|error]; cbn.
  - split; cbn; try done.
    + exists gone. split; [done|]. split.
      { rewrite Hret, <-!app_assoc. f_equiv. cbn. by rewrite <-Permutation_middle. }
      intros x. specialize (Hat x). times. pose proof (times_nonneg x gone). repeat case_decide; try done; lia.
    + intros x. specialize (Hack x). rewrite times_app. lia.
    + by rewrite foldl_snoc, Hqs.
  - split; cbn; try done.
    + exists gone. rewrite app_nil_r. split; [done|]. split; [done|].
      intros x. specialize (Hat x). times. unfold saturating_add. repeat case_decide; try done; lia.
    + constructor; [|done]. cbn. unfold saturating_add. lia.
    + intros x. specialize (Hack x). rewrite app_nil_r. lia.
    + by rewrite app_nil_r.
Qed.

Lemma run_ok m qs e s : reaper_ok m qs s → reaper_ok m qs (reaper_step (R_run e) s).
Proof.
  intros [(gone & Hsur & Hret & Hat) Hmax Hb Hf Hack Hqs]. cbn [reaper_step].
  destruct s as [[q m'] io qs' ret tried ack del sur]. cbn in *. subst m'.
  set (io' := (run_job _ _ _ io e).1).
  assert (Hfl : flight io' = flight io).
  { subst io'. unfold run_job. destruct io as [[? ? ? ? [r|]|? ? ? [r|]|? ? ? ? [r|]|a [r|]]|]; try done;
      by match goal with |- context [let (_, _) := ?x in _] => destruct x end. }
  unfold held_sources in Hret. cbn in Hret. rewrite <-Hfl in Hret, Hf, Hat.
  split; cbn; try done; [by exists gone|]. intros x. specialize (Hack x). rewrite times_app.
  subst io'. unfold run_job.
  destruct io as [[? ? ? ? [r|]|? ? ? [r|]|? ? ? ? [r|]|a [r|]]|]; cbn [unrun]; rewrite ?filter_nil, ?times_nil;
    try (match goal with |- context [let (_, _) := ?x in _] => destruct x eqn:Ej end); cbn in *; try lia.
  unfold acknowledges, delete_job, job_result in *.
  destruct (store_delete (cs_reference (da_source a)) e) as [e' [[[]|err]|]]; simplify_eq/=;
    rewrite ?times_cons, ?times_nil in *; lia.
Qed.

Lemma reaper_step_ok m qs op s :
  0 <= m < u32_max → reaper_ok m qs s → reaper_ok m qs (reaper_step op s).
Proof.
  intros Hm Hok. destruct op as [source|e|pending e|e| | | |];
    [|apply start_ok; [lia|done]| |by apply run_ok|by apply finish_ok| | |];
    destruct Hok as [(gone & Hsur & Hret & Hat) Hmax Hb Hf Hack Hqs];
    destruct s as [[q m'] io qs' ret tried ack del sur]; unfold held_sources in *; cbn in *; subst m'.
  - split; cbn; try done.
    + exists gone. split; [done|]. split.
      { unfold held_sources. cbn. rewrite Hret, !fmap_app, <-!app_assoc. done. }
      intros x. specialize (Hat x). times. repeat case_decide; try done; lia.
    + apply Forall_app. split; [done|]. constructor; [simpl; lia|constructor].
  - assert (Hsame : reaper_ok m qs
      (Build_reaper_state (Build_SourceReaper q m) io qs' ret tried ack del sur))
      by (split; cbn; try done; by exists gone).
    unfold io_submit. destruct io as [p|]; [by destruct pending|].
    destruct (executor_submit e) as [e' [|]]; destruct pending; try exact Hsame;
      (split; cbn; try done; by exists gone).
  - split; cbn; try done.
    + exists gone. split; [done|]. split; [unfold held_sources; cbn; by rewrite Hret, !fmap_app, <-!list_fmap_compose|].
      intros x. rewrite attempts_restored, times_nil. pose proof (times_nonneg x (del ++ gone)).
      pose proof (times_nonneg x (da_source <$> flight io)).
      assert (0 <= attempts_of x (flight io)); [|nia].
      apply (attempts_bounded x m); [lia|]. eapply Forall_impl; [exact Hf|]. cbn. lia.
    + apply Forall_fmap, Forall_true. intros a. simpl. lia.
  - split; cbn; try done.
    + exists (gone ++ (da_source <$> flight io)). rewrite fmap_app, <-list_fmap_compose, Hsur. split; [done|]. split.
      { unfold held_sources. cbn. rewrite Hret, !fmap_app, <-!app_assoc. done. }
      intros x. specialize (Hat x). times.
      pose proof (flight_bounded x m io Hf). lia.
    + intros x. specialize (Hack x). destruct io as [[| | |a [[]|]]|]; try lia.
      pose proof (times_nonneg x [da_source a]). lia.
  - split; cbn; try done.
    + exists (gone ++ (da_source <$> q)). rewrite fmap_app, <-list_fmap_compose, Hsur. split; [done|]. split.
      { unfold held_sources. cbn. rewrite Hret, !fmap_app, app_nil_r, <-!app_assoc. f_equiv. f_equiv.
        apply Permutation_app_comm. }
      intros x. specialize (Hat x). pose proof (attempts_bounded x m q ltac:(lia) Hb). times. lia.
Qed.

Lemma reaper_run_ok m qs ops s :
  0 <= m < u32_max → reaper_ok m qs s → reaper_ok m qs (reaper_run ops s).
Proof.
  intros Hm. revert s. induction ops as [|op ops IH]; intros s Hs; [done|].
  simpl. by apply IH, reaper_step_ok.
Qed.

Lemma reaper_start_ok m qs : reaper_ok m qs (reaper_start m qs).
Proof.
  split; cbn; try done. exists []. split; [done|]. split; [done|]. intros x. cbn. rewrite ?attempts_nil, !times_nil. lia.
Qed.
End reaper_histories.

(** ** Properties *)

Definition demo_now : demo_env := {| de_now := 0; de_pool := true; de_room := 4; de_store := [] |}.
Definition demo_key : CheckpointKey :=
  {| ck_lifetime := SessionLifetime_new 7 1; ck_generation := 1 |}.
Definition demo_descriptor : CheckpointDescriptor :=
  {| cd_compatibility := mk_CompatibilityId [1]; cd_processed := demo_cursor 2;
     cd_control_generation := ControlGeneration_INITIAL |}.
Definition demo_checkpoint : TerminalCheckpoint :=
  {| tk_descriptor := demo_descriptor; tk_bytes := [104; 105]; tk_capacity := 2 |}.
Definition demo_reference : CheckpointRef :=
  {| cr_object_id := [0; 104; 105]; cr_key := demo_key; cr_bytes := 3 |}.

Definition demo_disk : DiskLease :=
  {| dl_slots := {| le_first := 8%nat; le_second := None; le_count := 1 |};
     dl_bytes := {| le_first := 7%nat; le_second := None; le_count := 64 |} |}.
Definition demo_source : CommittedSource :=
  {| cs_reference := demo_reference; cs_descriptor := demo_descriptor; cs_disk := demo_disk |}.

(** C6: No committed source is lost, none is deleted twice, and none is tried
    without end.  After any history of the reaper and of the job slot it shares,
    every source ever retired is, exactly once, deleted, surrendered to the ledger
    of unreclaimed storage, in flight or queued; one counts as deleted, and its
    disk lease is given back, only for a deletion the store acknowledged; and the
    deletions submitted for a source since the last close asked again are at most
    the configured number for each time it was retired. *)
Theorem sources_conserved {P : Ports} compatibility pmax tmax m qs ops :
  0 <= m < u32_max →
  let s := reaper_run compatibility pmax tmax ops (reaper_start m qs) in
  from_committed <$> rs_retired s ≡ₚ
    (from_committed <$> rs_deleted s) ++ rs_surrendered s ++ (from_committed <$> held_sources s)
  ∧ (∀ x, times x (rs_tried s) <= m * times x (rs_retired s))
  ∧ (∀ x, times x (rs_deleted s) <= times x (rs_acknowledged s))
  ∧ rs_quotas s = foldl (λ qs x, DiskLease_drop (cs_disk x) qs) qs (rs_deleted s).
Proof.
  intros Hm s. destruct (reaper_run_ok compatibility pmax tmax m qs ops _ Hm (reaper_start_ok m qs))
    as [(gone & Hsur & Hret & Hat) _ Hb Hf Hack Hqs]. fold s in Hsur, Hret, Hat, Hb, Hf, Hack, Hqs.
  split_and!; [| | |done].
  - by rewrite Hret, Hsur, !fmap_app.
  - intros x. specialize (Hat x). rewrite (times_perm x _ _ Hret). unfold held_sources. rewrite fmap_app.
    pose proof (attempts_bounded x m _ ltac:(lia) Hb) as Hq.
    pose proof (flight_bounded x m _ Hf). rewrite !times_app in *. nia.
  - intros x. specialize (Hack x). pose proof (times_nonneg x).
    destruct (rs_io s) as [[| | |a [[]|]]|]; try lia. specialize (H [da_source a]). lia.
Qed.

(** One source, retired and deleted. *)
Definition demo_reaping : list (reaper_op (P := demo_ports)) :=
  [R_retire demo_source; R_start demo_now; R_run demo_now; R_finish].

Lemma sources_conserved_witness :
  let s := reaper_run (mk_CompatibilityId [1]) 64 64 demo_reaping (reaper_start 3 ∅) in
  rs_deleted s = [demo_source] ∧ rs_tried s = [demo_source]
  ∧ times demo_source (rs_tried s) <= 3 * times demo_source (rs_retired s).
Proof.
  split; [reflexivity|]. split; [reflexivity|].
  apply (sources_conserved (P := demo_ports) (mk_CompatibilityId [1]) 64 64 3 ∅ demo_reaping).
  unfold u32_max. lia.
Defined.
