(* ===== verification/Coordinator.v ===== *)
(** * The projection coordinator: state and primitives
      (crates/application/src/projection/coordinator.rs, wiring.rs, state.rs)

    [coordinator] is one [ProjectionCoordinator] with what it shares: the
    admission desk, the journal, the program-status store, the native workspace
    the worker owns, its wiring, the runtime's ledger of unreclaimed storage and
    the world behind its ports.  A method is a [step]: it threads the state and
    returns a value.

    Callers run while the worker does.  A caller's call is a list of sections,
    each of them one access to what the threads share; a call that has begun is
    kept in [co_calls] and goes on, one section at a time, whenever its thread is
    scheduled ([Call_resume]).  The worker is interrupted where it is about to
    take the admission lock: it first lets the next group of [co_script] act
    ([interfere]), which begins calls and resumes any of those in progress. *)

From S2P Require Import Prelude Identity Process Terminal Checkpoint Projection Session View.
From S2P Require Import Policy Transfer Atomic Quota Journal StatusReport StatusScanner StatusStore.
From S2P Require Import Diagnostics Budgets Queue Admission Ports Jobs.

(** ** Data *)

(** A task waker, by the task it wakes. *)
Abbreviation task := nat.

Record ProgramStatusState := {
  ss_store : option ProgramStatusStore;
  ss_memory : option Lease;
  ss_exited : bool;
  ss_drained : bool
}.

(** What is fixed for the projection's life: wiring.rs [ProjectionConfig], the
    quotas it charges and its journal's. *)
Record ProjectionConfig := {
  pg_options : ProjectionOptions;
  pg_compatibility : CompatibilityId;
  pg_protected_bytes : Z;
  pg_quotas : SessionQuotas;
  pg_journal : JournalQuotas;
  pg_input : InputQuotas
}.

(** ** Results that waits receive *)

Record ProjectedView := {
  pv_view : TerminalView;
  pv_processed : ReplayCursor;
  pv_control_generation : ControlGeneration;
  pv_history : RestorationProgress;
  pv_lease : Lease
}.
Record PinnedCheckpoint := { pk_checkpoint : TerminalCheckpoint; pk_lease : Lease }.
(** A checkpoint with the observer registered at the same boundary. *)
Record StateTransfer := {
  sx_checkpoint : PinnedCheckpoint;
  sx_observer : Z;
  sx_start : TransferBoundary;
  sx_permit : Lease
}.
Inductive answer :=
  | Answer_resize (r : ResizeOutcome)
  | Answer_view (v : ProjectedView)
  | Answer_checkpoint (c : PinnedCheckpoint)
  | Answer_transfer (t : StateTransfer)
  | Answer_closed.

(** What becomes of a ticket: its wait gets a result; the wait had been abandoned,
    so nothing is owed to it; or the ticket is dropped although somebody waits. *)
Inductive completion :=
  | Answered (r : result ProjectionError answer)
  | Abandoned
  | Dropped.

(** ** Calls in progress *)

(** What a call asks for; a transfer has reserved its observer. *)
Inductive control :=
  | Control_resize (size : TerminalSize) (timing : option Timing)
  | Control_view
  | Control_checkpoint
  | Control_transfer (permit : Lease).
Inductive returned :=
  | Returned (r : result ProjectionError ())
  | Returned_output (a : OutputAcceptance).

(** The sections of a caller's thread, with what it holds at each. *)
Inductive section :=
  | Sec_stage_output (bytes : list Z) (observed : option Z) (allocated : bool)
  | Sec_admit_output (bytes : list Z) (observed : option Z) (allocated : bool)
  | Sec_resize (size : TerminalSize) (ticket : ticket_ref) (timing : option Timing)
  | Sec_transfer (ticket : ticket_ref)
  | Sec_slot (c : control) (ticket : ticket_ref)
  | Sec_staging (c : control) (ticket : ticket_ref) (slot : Lease)
  | Sec_admit (c : control) (ticket : ticket_ref) (slot : Lease)
  | Sec_refuse (c : control) (slot : option Lease) (signal : bool)
  | Sec_wake (error : option ProjectionError)
  | Sec_fail (error : ProjectionError)
  | Sec_end_journal (drain : option DrainOutcome) (error : ProjectionError)
  | Sec_reject (error : ProjectionError) (c : Command)
  | Sec_notify
  | Sec_close (ticket : ticket_ref)
  | Sec_request_close (ticket : option ticket_ref) (reserved : result ProjectionError ())
  | Sec_answer (ticket : ticket_ref) (outcome : result ProjectionError ())
  | Sec_close_journal
  | Sec_close_wake (reserved : result ProjectionError ())
  | Sec_close_check (error : ProjectionError) (reserved : result ProjectionError ())
  | Sec_exited
  | Sec_drained (outcome : DrainOutcome)
  | Sec_drained_wake
  | Sec_drained_check
  | Sec_return (r : returned).

(** The waits a thread still has to answer. *)
Definition section_tickets (s : section) : list ticket_ref :=
  match s with
  | Sec_reject _ c => command_tickets c
  | Sec_answer ticket _ => [ticket]
  | _ => []
  end.
Definition sections_tickets (l : list section) : list ticket_ref := l ≫= section_tickets.
Definition calls_tickets (calls : list (list section)) : list ticket_ref :=
  calls ≫= sections_tickets.

Section coordinator.
Context `{L : Layout} `{P : Ports}.

(** ** The workspace (state.rs) *)

Record Reply := { ry_bytes : list Z; ry_memory : Lease; ry_operation : option Operation }.
Record Resizing := {
  rz_size : TerminalSize;
  rz_generation : ControlGeneration;
  rz_ticket : ticket_ref;
  rz_staging : StagingLease;
  rz_operation : Operation
}.
Record NativeWorkspace := {
  nw_config : TerminalConfig;
  nw_history_step_owed : bool;
  nw_terminal : option Term;
  nw_resident : option Lease;
  nw_source : option CommittedSource;
  nw_restore_memory : option Lease;
  nw_io : InFlight;
  nw_reply : option Reply;
  nw_resize : option Resizing;
  nw_reaper : SourceReaper
}.

(** What another thread does: it begins a call, goes on with one, or acts at once. *)
Inductive caller_op :=
  | Call_stage_output (bytes : list Z) (observed : option Z) (allocated : bool)
  | Call_resize (size : TerminalSize) (ticket : ticket_ref) (timing : option Timing)
  | Call_view (ticket : ticket_ref)
  | Call_checkpoint (ticket : ticket_ref)
  | Call_transfer (ticket : ticket_ref)
  | Call_close (ticket : ticket_ref)
  | Call_exited
  | Call_drained (outcome : DrainOutcome)
  | Call_read (id : Z) (start cursor : TransferCursor) (waker : option task)
  | Call_forget_observer (id : Z)
  | Call_resume (i : nat)
  | Call_job
  | Call_release (i : nat)
  | Call_world (e : Env → Env).

Record coordinator := {
  co_desk : desk;
  co_journal : Journal task;
  co_status : ProgramStatusState;
  co_ws : NativeWorkspace;
  (** the slots of [Wiring] *)
  co_services : bool;
  co_handle : bool;
  co_process : bool;
  co_unreclaimed : list UnreclaimedSource;
  (** input reservations the process adapter holds, and the request slots of
      waits: released when the adapter is done, and when wait and ticket are gone *)
  co_reservations : list held;
  co_env : Env;
  (** what became of the tickets, in order *)
  co_done : list (ticket_ref * completion);
  (** the calls in progress, and what those that ended returned *)
  co_calls : list (list section);
  co_returned : list returned;
  (** what other threads are about to do *)
  co_script : list (list caller_op)
}.

(** ** Steps *)

Definition step (A : Type) : Type := coordinator → coordinator * A.
#[export] Instance step_ret : MRet step := λ A a w, (w, a).
#[export] Instance step_bind : MBind step := λ A B k m w, let (w, a) := m w in k a w.
Definition gets {A} (f : coordinator → A) : step A := λ w, (w, f w).
Definition change (f : coordinator → coordinator) : step () := λ w, (f w, tt).

Definition with_desk (d : desk) (w : coordinator) : coordinator := {|
  co_desk := d; co_journal := co_journal w; co_status := co_status w; co_ws := co_ws w;
  co_services := co_services w; co_handle := co_handle w; co_process := co_process w;
  co_unreclaimed := co_unreclaimed w; co_reservations := co_reservations w; co_env := co_env w; co_done := co_done w;
  co_calls := co_calls w; co_returned := co_returned w; co_script := co_script w |}.
Definition with_journal (j : Journal task) (w : coordinator) : coordinator := {|
  co_desk := co_desk w; co_journal := j; co_status := co_status w; co_ws := co_ws w;
  co_services := co_services w; co_handle := co_handle w; co_process := co_process w;
  co_unreclaimed := co_unreclaimed w; co_reservations := co_reservations w; co_env := co_env w; co_done := co_done w;
  co_calls := co_calls w; co_returned := co_returned w; co_script := co_script w |}.
Definition with_status (s : ProgramStatusState) (w : coordinator) : coordinator := {|
  co_desk := co_desk w; co_journal := co_journal w; co_status := s; co_ws := co_ws w;
  co_services := co_services w; co_handle := co_handle w; co_process := co_process w;
  co_unreclaimed := co_unreclaimed w; co_reservations := co_reservations w; co_env := co_env w; co_done := co_done w;
  co_calls := co_calls w; co_returned := co_returned w; co_script := co_script w |}.
Definition with_ws (n : NativeWorkspace) (w : coordinator) : coordinator := {|
  co_desk := co_desk w; co_journal := co_journal w; co_status := co_status w; co_ws := n;
  co_services := co_services w; co_handle := co_handle w; co_process := co_process w;
  co_unreclaimed := co_unreclaimed w; co_reservations := co_reservations w; co_env := co_env w; co_done := co_done w;
  co_calls := co_calls w; co_returned := co_returned w; co_script := co_script w |}.
Definition with_wiring (services handle process : bool) (w : coordinator) : coordinator := {|
  co_desk := co_desk w; co_journal := co_journal w; co_status := co_status w; co_ws := co_ws w;
  co_services := services; co_handle := handle; co_process := process;
  co_unreclaimed := co_unreclaimed w; co_reservations := co_reservations w; co_env := co_env w; co_done := co_done w;
  co_calls := co_calls w; co_returned := co_returned w; co_script := co_script w |}.
Definition with_unreclaimed (us : list UnreclaimedSource) (w : coordinator) : coordinator := {|
  co_desk := co_desk w; co_journal := co_journal w; co_status := co_status w; co_ws := co_ws w;
  co_services := co_services w; co_handle := co_handle w; co_process := co_process w;
  co_unreclaimed := us; co_reservations := co_reservations w; co_env := co_env w; co_done := co_done w;
  co_calls := co_calls w; co_returned := co_returned w; co_script := co_script w |}.
Definition with_reservations (l : list held) (w : coordinator) : coordinator := {|
  co_desk := co_desk w; co_journal := co_journal w; co_status := co_status w; co_ws := co_ws w;
  co_services := co_services w; co_handle := co_handle w; co_process := co_process w;
  co_unreclaimed := co_unreclaimed w; co_reservations := l; co_env := co_env w;
  co_done := co_done w;
  co_calls := co_calls w; co_returned := co_returned w; co_script := co_script w |}.
Definition with_env (e : Env) (w : coordinator) : coordinator := {|
  co_desk := co_desk w; co_journal := co_journal w; co_status := co_status w; co_ws := co_ws w;
  co_services := co_services w; co_handle := co_handle w; co_process := co_process w;
  co_unreclaimed := co_unreclaimed w; co_reservations := co_reservations w; co_env := e; co_done := co_done w;
  co_calls := co_calls w; co_returned := co_returned w; co_script := co_script w |}.
Definition with_done (l : list (ticket_ref * completion))
    (w : coordinator) : coordinator := {|
  co_desk := co_desk w; co_journal := co_journal w; co_status := co_status w; co_ws := co_ws w;
  co_services := co_services w; co_handle := co_handle w; co_process := co_process w;
  co_unreclaimed := co_unreclaimed w; co_reservations := co_reservations w; co_env := co_env w; co_done := l;
  co_calls := co_calls w; co_returned := co_returned w; co_script := co_script w |}.
Definition with_script (s : list (list caller_op)) (w : coordinator) : coordinator := {|
  co_desk := co_desk w; co_journal := co_journal w; co_status := co_status w; co_ws := co_ws w;
  co_services := co_services w; co_handle := co_handle w; co_process := co_process w;
  co_unreclaimed := co_unreclaimed w; co_reservations := co_reservations w; co_env := co_env w; co_done := co_done w;
  co_calls := co_calls w; co_returned := co_returned w; co_script := s |}.

Definition with_calls (calls : list (list section)) (l : list returned) (w : coordinator)
    : coordinator := {|
  co_desk := co_desk w; co_journal := co_journal w; co_status := co_status w; co_ws := co_ws w;
  co_services := co_services w; co_handle := co_handle w; co_process := co_process w;
  co_unreclaimed := co_unreclaimed w; co_reservations := co_reservations w; co_env := co_env w; co_done := co_done w;
  co_calls := calls; co_returned := l; co_script := co_script w |}.

(** Assignments to fields of the workspace. *)
Definition on_ws (f : NativeWorkspace → NativeWorkspace) : step () :=
  change (λ w, with_ws (f (co_ws w)) w).
Definition ws_terminal (t : option Term) (resident : option Lease) (n : NativeWorkspace) := {|
  nw_config := nw_config n; nw_history_step_owed := nw_history_step_owed n; nw_terminal := t;
  nw_resident := resident; nw_source := nw_source n; nw_restore_memory := nw_restore_memory n;
  nw_io := nw_io n; nw_reply := nw_reply n; nw_resize := nw_resize n; nw_reaper := nw_reaper n |}.
Definition ws_config (c : TerminalConfig) (n : NativeWorkspace) := {|
  nw_config := c; nw_history_step_owed := nw_history_step_owed n; nw_terminal := nw_terminal n;
  nw_resident := nw_resident n; nw_source := nw_source n;
  nw_restore_memory := nw_restore_memory n; nw_io := nw_io n; nw_reply := nw_reply n;
  nw_resize := nw_resize n; nw_reaper := nw_reaper n |}.
Definition ws_owed (owed : bool) (n : NativeWorkspace) := {|
  nw_config := nw_config n; nw_history_step_owed := owed; nw_terminal := nw_terminal n;
  nw_resident := nw_resident n; nw_source := nw_source n;
  nw_restore_memory := nw_restore_memory n; nw_io := nw_io n; nw_reply := nw_reply n;
  nw_resize := nw_resize n; nw_reaper := nw_reaper n |}.
Definition ws_source (s : option CommittedSource) (reaper : SourceReaper) (n : NativeWorkspace) := {|
  nw_config := nw_config n; nw_history_step_owed := nw_history_step_owed n;
  nw_terminal := nw_terminal n; nw_resident := nw_resident n; nw_source := s;
  nw_restore_memory := nw_restore_memory n; nw_io := nw_io n; nw_reply := nw_reply n;
  nw_resize := nw_resize n; nw_reaper := reaper |}.
Definition ws_restore_memory (m : option Lease) (n : NativeWorkspace) := {|
  nw_config := nw_config n; nw_history_step_owed := nw_history_step_owed n;
  nw_terminal := nw_terminal n; nw_resident := nw_resident n; nw_source := nw_source n;
  nw_restore_memory := m; nw_io := nw_io n; nw_reply := nw_reply n; nw_resize := nw_resize n;
  nw_reaper := nw_reaper n |}.
Definition ws_io (io : InFlight) (n : NativeWorkspace) := {|
  nw_config := nw_config n; nw_history_step_owed := nw_history_step_owed n;
  nw_terminal := nw_terminal n; nw_resident := nw_resident n; nw_source := nw_source n;
  nw_restore_memory := nw_restore_memory n; nw_io := io; nw_reply := nw_reply n;
  nw_resize := nw_resize n; nw_reaper := nw_reaper n |}.
Definition ws_reply (r : option Reply) (n : NativeWorkspace) := {|
  nw_config := nw_config n; nw_history_step_owed := nw_history_step_owed n;
  nw_terminal := nw_terminal n; nw_resident := nw_resident n; nw_source := nw_source n;
  nw_restore_memory := nw_restore_memory n; nw_io := nw_io n; nw_reply := r;
  nw_resize := nw_resize n; nw_reaper := nw_reaper n |}.
Definition ws_resize (r : option Resizing) (n : NativeWorkspace) := {|
  nw_config := nw_config n; nw_history_step_owed := nw_history_step_owed n;
  nw_terminal := nw_terminal n; nw_resident := nw_resident n; nw_source := nw_source n;
  nw_restore_memory := nw_restore_memory n; nw_io := nw_io n; nw_reply := nw_reply n;
  nw_resize := r; nw_reaper := nw_reaper n |}.

(** ** Shared resources *)

Context (cfg : ProjectionConfig).

Definition on_env {A} (f : Env → Env * A) : step A := λ w,
  let (e, a) := f (co_env w) in (with_env e w, a).
Definition set_desk_quotas (qs : quotas) (d : desk) : desk :=
  put (dk_adm d) qs (dk_held d) (dk_working d) d.
Definition on_quotas {A} (f : quotas → quotas * A) : step A := λ w,
  let (qs, a) := f (dk_quotas (co_desk w)) in (with_desk (set_desk_quotas qs (co_desk w)) w, a).
Definition drop_quotas (f : quotas → quotas) : step () := on_quotas (λ qs, (f qs, tt)).
(** The journal charges the same quotas. *)
Definition on_journal {A} (f : Journal task → Journal task * A) : step A := λ w,
  let (j, a) := f (set_quotas (dk_quotas (co_desk w)) (co_journal w)) in
  (with_journal j (with_desk (set_desk_quotas (jn_quotas j) (co_desk w)) w), a).
Definition now : step Z := gets (λ w, clock_now (co_env w)).
Definition notify : step () := on_env (λ e, (capacity_notify e, tt)).
(** [if let Ok(services) = self.services() { services.capacity.notify() }] *)
Definition notify_if_serving : step () :=
  services ← gets co_services; if (services : bool) then notify else mret tt.

(** [Wiring::wake] *)
Definition wake : step (result ProjectionError ()) := λ w,
  if co_handle w then
    let (e, ok) := handle_wake (co_env w) in
    (with_env e w, if (ok : bool) then Ok tt else Err ProjectionError_Worker)
  else (w, Err ProjectionError_Worker).

(** ** Tickets *)

(** Dropping a result releases what it holds. *)
Definition checkpoint_drop (c : PinnedCheckpoint) : step () := drop_quotas (Lease_drop (pk_lease c)).
Definition transfer_drop (t : StateTransfer) : step () :=
  checkpoint_drop (sx_checkpoint t);;
  on_journal (λ j, (remove (sx_observer t) j, tt));;
  drop_quotas (Lease_drop (sx_permit t)).
Definition answer_drop (r : result ProjectionError answer) : step () :=
  match r with
  | Ok (Answer_view v) => drop_quotas (Lease_drop (pv_lease v))
  | Ok (Answer_checkpoint c) => checkpoint_drop c
  | Ok (Answer_transfer t) => transfer_drop t
  | _ => mret tt
  end.
(** A ticket goes without a result. *)
Definition abandon_ticket (t : ticket_ref) : step () := change (λ w,
  with_done (co_done w ++ [(t, if ticket_cancelled t (co_env w) then Abandoned else Dropped)]) w).
(** [Ticket::complete]: the result of an abandoned wait is dropped. *)
Definition complete_ticket (t : ticket_ref) (r : result ProjectionError answer) : step () :=
  gone ← gets (λ w, ticket_cancelled t (co_env w));
  if (gone : bool) then abandon_ticket t;; answer_drop r
  else change (λ w, with_done (co_done w ++ [(t, Answered r)]) w).
Definition cancelled_ticket (t : ticket_ref) : step bool :=
  gets (λ w, ticket_cancelled t (co_env w)).

Fixpoint for_each {A} (l : list A) (f : A → step ()) : step () :=
  match l with [] => mret tt | x :: l => f x;; for_each l f end.

(** [event.fail(error)]: complete its wait, then drop it with its leases; every
    staging lease notifies the capacity signal. *)
Definition fail_command (error : ProjectionError) (c : Command) : step () :=
  for_each (command_tickets c) (λ t, complete_ticket t (Err error));;
  change (λ w, with_desk (fail_commands [c] (co_desk w)) w);;
  if is_exit c then mret tt else notify.

(** ** Lock sections *)

Section sections.
(** What happens before the admission lock is taken. *)
Context (enter : step ()).

Definition guarded {A} (body : step A) : step A := enter;; body.
Definition locked {A} (f : Admission → Admission * A) : step A := guarded (λ w,
  let (a, r) := f (dk_adm (co_desk w)) in (with_desk (put_adm a (co_desk w)) w, r)).
Definition status : step ProjectionStatus := locked (λ a, (a, ad_status a)).
Definition residency : step Residency := s ← status; mret (ps_residency s).

(** worker.rs [fail] *)
Definition co_fail (error : ProjectionError) : step () :=
  '(rejected, drain) ← locked (queue_fail error);
  on_journal (λ j, ((journal_end drain (Some error) j).1, tt));;
  for_each rejected (fail_command error);;
  notify_if_serving.

(** The worker takes a command: it is the worker's until it is put back,
    applied or failed. *)
Definition take_with (take : Admission → Admission * option Command) : step (option Command) :=
  guarded (λ w,
    match dk_held (co_desk w) with
    | Some _ => (w, None)
    | None => let d := worker_take take (co_desk w) in (with_desk d w, dk_held d)
    end).
(** A control the worker has taken is applied: its ticket is the worker's. *)
Definition consume : step () := change (λ w,
  match dk_held (co_desk w) with
  | Some c => with_desk (note_tickets [] [] (command_tickets c) (hold None (co_desk w))) w
  | None => w
  end).
(** native.rs [requeue] *)
Definition co_requeue (c : Command) : step () :=
  back ← guarded (λ w,
    let (a, back) := requeue c (dk_adm (co_desk w)) in
    (with_desk (hold None (put_adm a (co_desk w))) w, back));
  match back with Some c => fail_command ProjectionError_Closed c | None => mret tt end.

End sections.

(** ** Calls (admission.rs, snapshot.rs, coordinator.rs)

    Each section runs alone and yields the sections that follow it. *)

Definition at_lock {A} (f : Admission → Admission * A) : step A := locked (mret tt) f.
(** Admit under the lock with the session's quotas. *)
Definition admit_with {A} (f : quotas → Admission → quotas * Admission * A) : step A := λ w,
  let d := co_desk w in
  let '(qs, a, r) := f (dk_quotas d) (dk_adm d) in
  (with_desk (put a qs (dk_held d) (dk_working d) d) w, r).

(** [if let Err(error) = self.wake() { self.fail(error) }]; output names the error. *)
Definition call_wake (error : option ProjectionError) : step (list section) :=
  woken ← wake;
  mret match woken with Err e => [Sec_fail (default e error)] | Ok _ => [] end.
(** worker.rs [fail], by a caller *)
Definition call_fail (error : ProjectionError) : step (list section) :=
  '(rejected, drain) ← at_lock (queue_fail error);
  mret (Sec_end_journal drain error :: (Sec_reject error <$> rejected) ++ [Sec_notify]).
Definition end_journal (drain : option DrainOutcome) (error : ProjectionError) : step (list section) :=
  on_journal (λ j, ((journal_end drain (Some error) j).1, tt));; mret [].

(** [stage_output_observed] *)
Definition co_stage_output (bytes : list Z) (observed : option Z) (allocated : bool)
    : step (list section) :=
  services ← gets co_services;
  mret (if (services : bool) then [Sec_admit_output bytes observed allocated]
        else [Sec_return (Returned_output Acceptance_Closed)]).
Definition admit_output (bytes : list Z) (observed : option Z) (allocated : bool)
    : step (list section) :=
  time ← now;
  admitted ← admit_with (queue_admit_output
               (stage_output_closure (pg_quotas cfg) (tc_feed_bytes (po_terminal (pg_options cfg)))
                  bytes observed allocated time));
  match admitted with
  | Outcome_Rejected rejection => mret [Sec_return (Returned_output rejection)]
  | Outcome_Accepted => mret [Sec_return (Returned_output Accepted)]
  | Outcome_Queued =>
    change (λ w, with_desk (note_stream bytes [] 0 (co_desk w)) w);;
    mret [Sec_wake (Some ProjectionError_Worker); Sec_return (Returned_output Accepted)]
  end.

(** A wait and its request slot. *)
Definition reserve_request_slot : step (result ProjectionError Lease) :=
  on_quotas (request_slot (pg_quotas cfg)).
(** The slot is the ticket's, and goes when ticket and wait are gone. *)
Definition keep_slot (slot : Lease) : step () :=
  change (λ w, with_reservations (co_reservations w ++ [Held_lease slot]) w).

(** The closure each control is admitted with. *)
Definition control_closure (c : control) (ticket : ticket_ref) (time : Z)
    : Admitting quotas (result ProjectionError Command) :=
  match c with
  | Control_resize size timing => resize_closure size ticket timing no_staging time
  | Control_view => view_closure ticket no_staging
  | Control_checkpoint => checkpoint_closure ticket no_staging
  | Control_transfer permit => transfer_closure ticket permit no_staging
  end.
Definition control_drop (c : control) (qs : quotas) : quotas :=
  match c with Control_transfer permit => Lease_drop permit qs | _ => qs end.

(** [resize_timed] and [begin_transfer], up to the wait. *)
Definition co_resize (size : TerminalSize) (ticket : ticket_ref) (timing : option Timing)
    : step (list section) :=
  services ← gets co_services;
  mret (if (services : bool) then [Sec_slot (Control_resize size timing) ticket]
        else [Sec_return (Returned (Err ProjectionError_Closed))]).
Definition co_begin_transfer (ticket : ticket_ref) : step (list section) :=
  permit ← on_quotas (reserve_observer (pg_journal cfg));
  mret match permit with
       | Err e => [Sec_return (Returned (Err e))]
       | Ok permit => [Sec_slot (Control_transfer permit) ticket]
       end.
(** [reserve_request_slot], [reserve_staging] of no bytes, [admit] *)
Definition reserve_slot (c : control) (ticket : ticket_ref) : step (list section) :=
  slot ← reserve_request_slot;
  mret match slot with
       | Err e => [Sec_refuse c None false; Sec_return (Returned (Err e))]
       | Ok slot => [Sec_staging c ticket slot]
       end.
Definition stage_control (c : control) (ticket : ticket_ref) (slot : Lease) : step (list section) :=
  services ← gets co_services;
  mret (if (services : bool) then [Sec_admit c ticket slot]
        else [Sec_refuse c (Some slot) false; Sec_return (Returned (Err ProjectionError_Closed))]).
Definition co_admit (c : control) (ticket : ticket_ref) (slot : Lease) : step (list section) :=
  time ← now;
  r ← admit_with (queue_admit (control_closure c ticket time));
  match r with
  | Err e => mret [Sec_refuse c (Some slot) true; Sec_return (Returned (Err e))]
  | Ok _ =>
    change (λ w, with_desk (note_tickets [ticket] [] [] (co_desk w)) w);;
    keep_slot slot;;
    mret [Sec_wake None; Sec_return (Returned (Ok tt))]
  end.
(** A refused call drops its ticket with the slot, its permit and its staging
    lease, which signals capacity. *)
Definition refuse (c : control) (slot : option Lease) (signal : bool) : step (list section) :=
  drop_quotas (λ qs, control_drop c (drop_opt slot qs));;
  (if signal then notify else mret tt);; mret [].

(** [close]: the wait's ticket is registered when a request slot was left. *)
Definition co_close (ticket : ticket_ref) : step (list section) :=
  slot ← reserve_request_slot;
  (match slot with Ok slot => keep_slot slot | Err _ => mret tt end);;
  mret [Sec_request_close (if is_ok slot then Some ticket else None) ((λ _, tt) <$> slot)].
Definition close_request (ticket : option ticket_ref) (reserved : result ProjectionError ())
    : step (list section) :=
  request ← at_lock (request_close ticket);
  change (λ w, with_desk (note_waiters (option_list ticket) [] (co_desk w)) w);;
  mret match request with
       | AlreadyClosed outcome =>
         ((λ t, Sec_answer t outcome) <$> option_list ticket) ++ [Sec_return (Returned reserved)]
       | Close_Started rejected =>
         Sec_close_journal :: (Sec_reject ProjectionError_Closed <$> rejected)
         ++ [Sec_notify; Sec_close_wake reserved]
       end.
Definition answer_close (ticket : ticket_ref) (outcome : result ProjectionError ())
    : step (list section) :=
  complete_ticket ticket ((λ _, Answer_closed) <$> outcome);;
  change (λ w, with_desk (note_waiters [] [ticket] (co_desk w)) w);; mret [].
Definition close_journal : step (list section) :=
  on_journal (λ j, ((journal_close j).1, tt));; mret [].
Definition close_wake (reserved : result ProjectionError ()) : step (list section) :=
  woken ← wake;
  mret match woken with
       | Err error => [Sec_close_check error reserved]
       | Ok _ => [Sec_return (Returned reserved)]
       end.
(** A worker that closed the projection meanwhile has answered. *)
Definition close_check (error : ProjectionError) (reserved : result ProjectionError ())
    : step (list section) :=
  outcome ← at_lock (λ a, (a, close_outcome a));
  mret [Sec_return (Returned (if is_none outcome then Err error else reserved))].

Definition notify_process_exited : step (list section) := λ w,
  let (a, queued) := record_process_exit (dk_adm (co_desk w)) in
  (with_desk (note_stream [] [] (if queued then 1 else 0) (put_adm a (co_desk w))) w,
   if queued then [Sec_wake (Some ProjectionError_Worker)] else []).
Definition notify_output_drained (outcome : DrainOutcome) : step (list section) :=
  failure ← at_lock (record_drain outcome);
  mret (match failure with Some failure => [Sec_end_journal (Some outcome) failure] | None => [] end
        ++ [Sec_drained_wake]).
Definition drained_wake : step (list section) :=
  woken ← wake; mret (if is_err woken then [Sec_drained_check] else []).
Definition drained_check : step (list section) :=
  r ← residency (mret tt);
  mret (if bool_decide (r ≠ Closed) then [Sec_fail ProjectionError_Worker] else []).

Definition run_section (s : section) : step (list section) :=
  match s with
  | Sec_stage_output bytes observed allocated => co_stage_output bytes observed allocated
  | Sec_admit_output bytes observed allocated => admit_output bytes observed allocated
  | Sec_resize size ticket timing => co_resize size ticket timing
  | Sec_transfer ticket => co_begin_transfer ticket
  | Sec_slot c ticket => reserve_slot c ticket
  | Sec_staging c ticket slot => stage_control c ticket slot
  | Sec_admit c ticket slot => co_admit c ticket slot
  | Sec_refuse c slot signal => refuse c slot signal
  | Sec_wake error => call_wake error
  | Sec_fail error => call_fail error
  | Sec_end_journal drain error => end_journal drain error
  | Sec_reject error c => fail_command error c;; mret []
  | Sec_notify => notify_if_serving;; mret []
  | Sec_close ticket => co_close ticket
  | Sec_request_close ticket reserved => close_request ticket reserved
  | Sec_answer ticket outcome => answer_close ticket outcome
  | Sec_close_journal => close_journal
  | Sec_close_wake reserved => close_wake reserved
  | Sec_close_check error reserved => close_check error reserved
  | Sec_exited => notify_process_exited
  | Sec_drained outcome => notify_output_drained outcome
  | Sec_drained_wake => drained_wake
  | Sec_drained_check => drained_check
  | Sec_return r => change (λ w, with_calls (co_calls w) (co_returned w ++ [r]) w);; mret []
  end.

(** A call begins; its thread runs the first section that is left, and the call is
    over when none is. *)
Definition begin_call (s : section) : step () :=
  change (λ w, with_calls (co_calls w ++ [[s]]) (co_returned w) w).
Definition set_call (i : nat) (l : list section) (w : coordinator) : coordinator :=
  with_calls (match l with [] => delete i (co_calls w) | _ => <[i := l]> (co_calls w) end)
    (co_returned w) w.
Definition resume_call (i : nat) : step () :=
  call ← gets (λ w, co_calls w !! i);
  match call with
  | Some (s :: rest) =>
    change (λ w, with_calls (<[i := rest]> (co_calls w)) (co_returned w) w);;
    next ← run_section s;
    change (set_call i (next ++ rest))
  | Some [] => change (set_call i [])
  | None => mret tt
  end.

(** Another thread's turn. *)
Definition run_call (call : caller_op) : step () :=
  match call with
  | Call_stage_output bytes observed allocated =>
    begin_call (Sec_stage_output bytes observed allocated)
  | Call_resize size ticket timing => begin_call (Sec_resize size ticket timing)
  | Call_view ticket => begin_call (Sec_slot Control_view ticket)
  | Call_checkpoint ticket => begin_call (Sec_slot Control_checkpoint ticket)
  | Call_transfer ticket => begin_call (Sec_transfer ticket)
  | Call_close ticket => begin_call (Sec_close ticket)
  | Call_exited => begin_call Sec_exited
  | Call_drained outcome => begin_call (Sec_drained outcome)
  | Call_resume i => resume_call i
  | Call_read id start cursor waker =>
    on_journal (λ j, ((journal_read id start cursor waker j).1, tt))
  | Call_forget_observer id => on_journal (λ j, (remove id j, tt))
  | Call_job => change (λ w,
      let (io, e) := run_job (pg_compatibility cfg) (pg_protected_bytes cfg)
                       (tc_checkpoint_bytes (nw_config (co_ws w))) (nw_io (co_ws w)) (co_env w) in
      with_ws (ws_io io (co_ws w)) (with_env e w))
  | Call_release i =>
    held ← gets (λ w, co_reservations w !! i);
    match held with
    | None => mret tt
    | Some lease =>
      change (λ w, with_reservations (delete i (co_reservations w)) w);;
      drop_quotas (held_drop lease)
    end
  | Call_world f => change (λ w, with_env (f (co_env w)) w)
  end.

(** Before the worker takes the lock, the next group acts. *)
Definition interfere : step () := λ w,
  match co_script w with
  | [] => (w, tt)
  | calls :: rest => for_each calls run_call (with_script rest w)
  end.
End coordinator.
