(* ===== verification/Output.v ===== *)
(** * Feeding output (crates/application/src/projection/program_status.rs,
      output.rs, and the native call of native.rs)

    What the worker does with output: it prepares the program-status reports found in
    a chunk, feeds the chunk to the live model, commits the reports and collects the
    replies; the status snapshot and the end of the program. *)

From S2P Require Import Prelude Identity Process Terminal Checkpoint Projection Session View.
From S2P Require Import Policy Transfer Atomic Quota Journal StatusReport StatusScanner StatusStore.
From S2P Require Import Diagnostics Budgets Queue Admission Ports Jobs Coordinator.

(** Sizes that depend on the capacities the allocator chose. *)
Class Allocation := {
  plan_retained_bytes : ProgramStatusPlan → Z;
  heap_bytes : ProgramStatusRecord → Z
}.

Inductive StatusAdmissionError := Status_Retry | Status_Failed (error : ProjectionError).

Record PreparedStatus := {
  pr_plan : ProgramStatusPlan;
  pr_scan_memory : Lease;
  pr_record_memory : option Lease;
  pr_reply_memory : Lease
}.

Section native.
Context `{L : Layout} `{P : Ports} `{A : Allocation} (cfg : ProjectionConfig).

Abbreviation enter := (interfere cfg).
Abbreviation fail := (co_fail enter).
Abbreviation status := (status enter).
Abbreviation residency := (residency enter).
Abbreviation requeue := (co_requeue enter).

(** The runtime's budgets. *)
Definition budgets : ProjectionBudgets := sq_shared (pg_quotas cfg).

(** ** Program status (program_status.rs) *)

Definition set_store (store : option ProgramStatusStore) (memory : option Lease)
    (s : ProgramStatusState) : ProgramStatusState := {|
  ss_store := store; ss_memory := memory; ss_exited := ss_exited s; ss_drained := ss_drained s |}.
Definition set_ended (exited drained : bool) (s : ProgramStatusState) : ProgramStatusState := {|
  ss_store := ss_store s; ss_memory := ss_memory s; ss_exited := exited; ss_drained := drained |}.

(** [views]: a lease of the runtime's view budget. *)
Definition view_lease (count : Z) : step (result ProjectionError Lease) :=
  on_quotas (Lease_shared (pb_views budgets) count).

Definition snapshot_reservation (s : ProgramStatusStore) : Z :=
  len (st_records s) * (size_of_ProgramStatusRecord + 32) + zsum (heap_bytes <$> st_records s).

(** [program_status]: a copy of the records with the memory charged for it. *)
Definition program_status : step (result ProjectionError (ProgramStatusSnapshot * Lease)) :=
  s ← status;
  if closing_or_closed (ps_residency s) then mret (Err ProjectionError_Closed)
  else match ps_failure s with
  | Some error => mret (Err error)
  | None =>
    store ← gets (λ w, ss_store (co_status w));
    match store with
    | None => mret (Err ProjectionError_Closed)
    | Some store =>
      memory ← view_lease (snapshot_reservation store);
      mret ((λ m, (records store, m)) <$> memory)
    end
  end.

(** The leases [prepare_status] takes, one after the other; what was taken is
    dropped when a later one is refused. *)
Definition prepare_leases (scratch record reply limit owned : Z) (plan : ProgramStatusPlan)
    (scan_memory : Lease) : step (result StatusAdmissionError PreparedStatus) :=
  if limit <? owned + scratch + reply + record
  then drop_quotas (Lease_drop scan_memory);; mret (Err (Status_Failed ProjectionError_Capacity))
  else
    record_memory ← (if 0 <? record then r ← view_lease record; mret (Some <$> r)
                     else mret (Ok None));
    match record_memory with
    | Err _ => drop_quotas (Lease_drop scan_memory);; mret (Err Status_Retry)
    | Ok record_memory =>
      reply_memory ← view_lease reply;
      match reply_memory with
      | Err _ =>
        drop_quotas (drop_opt record_memory);; drop_quotas (Lease_drop scan_memory);;
        mret (Err Status_Retry)
      | Ok reply_memory =>
        mret (Ok {| pr_plan := plan; pr_scan_memory := scan_memory;
                    pr_record_memory := record_memory; pr_reply_memory := reply_memory |})
      end
    end.

Definition prepare_status (bytes : list Z) (reply_limit : Z)
    : step (result StatusAdmissionError PreparedStatus) :=
  state ← gets co_status;
  match ss_store state with
  | None => mret (Err (Status_Failed ProjectionError_Closed))
  | Some store =>
    match scan_reservation_for store bytes with
    | Err _ => mret (Err (Status_Failed ProjectionError_Capacity))
    | Ok scratch =>
      let owned := if is_some (ss_memory state) then record_reservation store else 0 in
      let limit := lim_view_bytes (pb_limits budgets) in
      if limit <? owned + scratch + reply_limit
      then mret (Err (Status_Failed ProjectionError_Capacity))
      else
        scan_memory ← view_lease scratch;
        match scan_memory with
        | Err _ => mret (Err Status_Retry)
        | Ok scan_memory =>
          match store_scan store bytes with
          | Err _ =>
            drop_quotas (Lease_drop scan_memory);;
            mret (Err (Status_Failed ProjectionError_Capacity))
          | Ok plan =>
            let reply := match query_offsets plan with [] => reply_limit | _ => reply_limit * 2 end in
            let record := if is_none (ss_memory state) && (0 <? plan_retained_bytes plan)
                          then record_reservation store else 0 in
            prepare_leases scratch record reply limit owned plan scan_memory
          end
        end
    end
  end.

(** Dropping a prepared status. *)
Definition prepared_drop (p : PreparedStatus) : step () :=
  drop_quotas (Lease_drop (pr_scan_memory p));; drop_quotas (drop_opt (pr_record_memory p));;
  drop_quotas (Lease_drop (pr_reply_memory p)).

Definition commit_status (plan : ProgramStatusPlan) (record_memory : option Lease)
    : step (result ProjectionError ()) :=
  state ← gets co_status;
  match ss_store state with
  | None => drop_quotas (drop_opt record_memory);; mret (Err ProjectionError_Closed)
  | Some store =>
    match StatusStore.commit plan store with
    | (store, Err _) =>
      change (λ w, with_status (set_store (Some store) (ss_memory state) (co_status w)) w);;
      drop_quotas (drop_opt record_memory);; mret (Err ProjectionError_Worker)
    | (store, Ok _) =>
      (if is_some record_memory then drop_quotas (drop_opt (ss_memory state)) else mret tt);;
      change (λ w, with_status
        (set_store (Some store) (opt_or record_memory (ss_memory state)) (co_status w)) w);;
      mret (Ok tt)
    end
  end.

(** The store after one more exit. *)
Definition exit_store (drained : bool) : step (result ProjectionError ()) :=
  state ← gets co_status;
  match ss_store state with
  | None => mret (Err ProjectionError_Closed)
  | Some store =>
    match process_exited store with
    | (store, Err _) => mret (Err ProjectionError_Capacity)
    | (store, Ok _) =>
      change (λ w, with_status (set_ended true drained
                (set_store (Some store) (ss_memory state) (co_status w))) w);;
      mret (Ok tt)
    end
  end.
Definition apply_program_exit : step (result ProjectionError ()) :=
  drained ← gets (λ w, ss_drained (co_status w)); exit_store drained.
Definition finish_program_drain : step (result ProjectionError ()) :=
  state ← gets co_status;
  if ss_exited state && negb (ss_drained state) then exit_store true else mret (Ok tt).

Definition clear_program_status : step () :=
  state ← gets co_status;
  change (λ w, with_status (set_store None None (co_status w)) w);;
  drop_quotas (drop_opt (ss_memory state)).

(** ** The native model (native.rs) *)

(** [native_call] on the live model: a panic fails the projection. *)
Definition native_call {R} (work : Term → Env → Env * Term * option (result TerminalError R))
    : step (result ProjectionError R) :=
  terminal ← gets (λ w, nw_terminal (co_ws w));
  match terminal with
  | None => mret (Err ProjectionError_Closed)
  | Some t =>
    r ← (λ w, let '(e, t, r) := work t (co_env w) in
              (with_ws (ws_terminal (Some t) (nw_resident (co_ws w)) (co_ws w)) (with_env e w), r));
    match r with
    | None => fail ProjectionError_Worker;; mret (Err ProjectionError_Worker)
    | Some r => mret (map_err ProjectionError_Terminal r)
    end
  end.

(** [ReplyBytes::append] *)
Definition reply_append (bytes : list Z) (limit : Z) (aggregate : list Z)
    : result ProjectionError (list Z) :=
  if saturating_sub limit (len aggregate) <? len bytes then Err ProjectionError_Capacity
  else Ok (aggregate ++ bytes).

Definition slice (start stop : Z) (bytes : list Z) : list Z :=
  take (Z.to_nat (stop - start)) (drop (Z.to_nat start) bytes).

Definition feed_status_slice (bytes : list Z) (limit : Z) (aggregate : list Z)
    : step (result ProjectionError (list Z)) :=
  effects ← native_call (term_feed bytes);
  mret (effects ≫= λ effects, reply_append effects limit aggregate).

(** The loop over the query endpoints, and the rest after the last. *)
Fixpoint feed_queries (bytes : list Z) (limit : Z) (queries : list Z) (start : Z)
    (aggregate : list Z) : step (result ProjectionError (list Z)) :=
  match queries with
  | [] =>
    if start <? len bytes
    then feed_status_slice (slice start (len bytes) bytes) limit aggregate
    else mret (Ok aggregate)
  | stop :: queries =>
    r ← feed_status_slice (slice start stop bytes) limit aggregate;
    match r ≫= reply_append PROGRAM_STATUS_REPLY limit with
    | Err e => mret (Err e)
    | Ok aggregate => feed_queries bytes limit queries stop aggregate
    end
  end.
Definition feed_status_slices (bytes queries : list Z) (limit : Z)
    : step (result ProjectionError (list Z)) :=
  match queries with
  | [] =>
    effects ← native_call (term_feed bytes);
    mret (effects ≫= λ effects,
          if limit <? len effects then Err ProjectionError_Capacity else Ok effects)
  | _ => feed_queries bytes limit queries 0 []
  end.

(** ** Output (output.rs) *)

(** [record_processed] for the chunk the worker holds. *)
Definition record_processed_held (bytes : list Z) : step (result ProjectionError ()) :=
  guarded enter (λ w,
    let d := co_desk w in
    match queue_record_processed (len bytes) (dk_adm d) with
    | (a, Ok _) => (with_desk (note_stream [] bytes 0 (hold None (put_adm a d))) w, Ok tt)
    | (a, Err e) => (with_desk (put_adm a d) w, Err e)
    end).

Definition RETRY_SOON : Z := from_millis 5.

Definition apply_output (bytes : list Z) (staging : StagingLease) : step WorkSchedule :=
  config ← gets (λ w, nw_config (co_ws w));
  let limit := tc_reply_bytes config in
  prepared ← prepare_status bytes limit;
  match prepared with
  | Err error =>
    requeue (Command_Output bytes staging);;
    match error with
    | Status_Retry => mret (After RETRY_SOON)
    | Status_Failed error => fail error;; mret Dormant
    end
  | Ok prepared =>
    result ← feed_status_slices bytes (query_offsets (pr_plan prepared)) limit;
    match result with
    | Err error =>
      requeue (Command_Output bytes staging);; fail error;; prepared_drop prepared;; mret Dormant
    | Ok effects =>
      committed ← commit_status (pr_plan prepared) (pr_record_memory prepared);
      committed ← (match committed with
                   | Err e => mret (Err e)
                   | Ok _ => record_processed_held bytes
                   end);
      match committed with
      | Err error =>
        requeue (Command_Output bytes staging);; fail error;;
        drop_quotas (Lease_drop (pr_scan_memory prepared));;
        drop_quotas (Lease_drop (pr_reply_memory prepared));; mret Dormant
      | Ok _ =>
        s ← status;
        on_journal (λ j, ((journal_output (pg_journal cfg) bytes (len bytes) (ps_processed s) j).1, tt));;
        (if bool_decide (effects = [])
         then drop_quotas (Lease_drop (pr_reply_memory prepared))
         else on_ws (ws_reply (Some {| ry_bytes := effects; ry_memory := pr_reply_memory prepared;
                                       ry_operation := None |})));;
        drop_quotas (Lease_drop (pr_scan_memory prepared));;
        drop_quotas (StagingLease_drop staging);; notify;; mret immediately
      end
    end
  end.
End native.
