(* ===== verification/Native.v ===== *)
(** * Controls on the live model (crates/application/src/projection/native.rs,
      snapshot.rs)

    The operations in flight against the process, replies and resizes; and every
    command the worker can take.  A command is the worker's from the moment it
    is taken; [consume] marks the point where its ticket and leases pass to the
    code that applies it. *)

From S2P Require Import Prelude Identity Process Terminal Checkpoint Projection Session View.
From S2P Require Import Policy Transfer Atomic Quota Journal StatusReport StatusScanner StatusStore.
From S2P Require Import Diagnostics Budgets Queue Admission Ports Jobs Coordinator Output.

Section native.
Context `{L : Layout} `{P : Ports} `{A : Allocation} (cfg : ProjectionConfig).

Abbreviation enter := (interfere cfg).
Abbreviation fail := (co_fail enter).
Abbreviation status := (status enter).
Abbreviation residency := (residency enter).
Abbreviation requeue := (co_requeue enter).
Abbreviation native_call := (native_call cfg).

(** [_staging] goes out of scope. *)
Definition staging_drop (staging : StagingLease) : step () :=
  drop_quotas (StagingLease_drop staging);; notify.

(** ** Operations in flight (native.rs) *)

(** The reply's write, once a process is bound and the input budget allows. *)
Definition start_reply (reply : Reply) : step (WorkSchedule + Operation) :=
  process ← gets co_process;
  if negb process then mret (inl Dormant)
  else
    lease ← on_quotas (input_reserve (pg_input cfg) (len (ry_bytes reply)));
    match lease with
    | Err _ => mret (inl (After RETRY_SOON))
    | Ok lease =>
      r ← on_env (process_write (ry_bytes reply));
      match r with
      | Ok operation =>
        change (λ w, with_reservations (co_reservations w ++ [Held_input lease]) w);;
        on_ws (ws_reply (Some {| ry_bytes := ry_bytes reply; ry_memory := ry_memory reply;
                                 ry_operation := Some operation |}));;
        mret (inr operation)
      | Err ProcessError_Capacity =>
        drop_quotas (InputLease_drop lease);; mret (inl (After RETRY_SOON))
      | Err error =>
        drop_quotas (InputLease_drop lease);; fail (ProjectionError_Process error);;
        drop_quotas (Lease_drop (ry_memory reply));; on_ws (ws_reply None);;
        mret (inl Dormant)
      end
    end.

Definition poll_reply : step (option WorkSchedule) :=
  reply ← gets (λ w, nw_reply (co_ws w));
  match reply with
  | None => mret None
  | Some reply =>
    started ← match ry_operation reply with
              | Some operation => mret (inr operation)
              | None => start_reply reply
              end;
    match started with
    | inl schedule => mret (Some schedule)
    | inr operation =>
      outcome ← on_env (poll_write operation);
      match outcome with
      | None => mret (Some Dormant)
      | Some outcome =>
        (if is_some (wo_error outcome) || negb (wo_written outcome =? len (ry_bytes reply))
         then fail (ProjectionError_Process (default ProcessError_Io (wo_error outcome)))
         else mret tt);;
        drop_quotas (Lease_drop (ry_memory reply));; on_ws (ws_reply None);;
        mret None
      end
    end
  end.

(** The process has applied a resize: the model follows, then the policy and
    the journal record it. *)
Definition resize_model (resize : Resizing) (os : result ProcessError ())
    : step (result ProjectionError ()) :=
  match os with
  | Err error => mret (Err (ProjectionError_Process error))
  | Ok _ => native_call (term_resize (rz_size resize) (rz_generation resize))
  end.
Definition resize_config (size : TerminalSize) (c : TerminalConfig) : TerminalConfig := {|
  tc_size := size; tc_history_bytes := tc_history_bytes c;
  tc_continuation_bytes := tc_continuation_bytes c; tc_reply_bytes := tc_reply_bytes c;
  tc_checkpoint_bytes := tc_checkpoint_bytes c; tc_native_bytes := tc_native_bytes c;
  tc_view_bytes := tc_view_bytes c; tc_feed_bytes := tc_feed_bytes c |}.
Definition resize_record (resize : Resizing) (os : result ProcessError ())
    (model : result ProjectionError ()) : step () :=
  match model with
  | Ok _ =>
    on_ws (λ n, ws_config (resize_config (rz_size resize) (nw_config n)) n);;
    controlled ← locked enter (queue_record_control_applied (rz_generation resize));
    match controlled with
    | Err error => fail error
    | Ok _ => on_journal (λ j, ((journal_resized (pg_journal cfg) (rz_size resize)
                                   (rz_generation resize) j).1, tt))
    end
  | Err error => if is_ok os then fail error else mret tt
  end.

Definition poll_resizing : step (option WorkSchedule) :=
  resize ← gets (λ w, nw_resize (co_ws w));
  match resize with
  | None => mret None
  | Some resize =>
    polled ← on_env (poll_resize (rz_operation resize));
    match polled with
    | None => mret (Some Dormant)
    | Some os =>
      model ← resize_model resize os;
      resize_record resize os model;;
      complete_ticket (rz_ticket resize) (Ok (Answer_resize {|
        ro_generation := rz_generation resize; ro_os := os; ro_model := model |}));;
      on_ws (ws_resize None);; staging_drop (rz_staging resize);;
      mret None
    end
  end.

(** A reply first, then a resize; nothing without a scheduler registration. *)
Definition poll_inflight_operations : step (option WorkSchedule) :=
  handle ← gets co_handle;
  if negb handle then mret None
  else
    schedule ← poll_reply;
    match schedule with Some s => mret (Some s) | None => poll_resizing end.

(** The wait of a resize in flight, while closing. *)
Definition closing_resize : step (option WorkSchedule) :=
  resize ← gets (λ w, nw_resize (co_ws w));
  handle ← gets co_handle;
  match resize with
  | None => mret None
  | Some resize =>
    if negb handle then mret None
    else
      polled ← on_env (poll_resize (rz_operation resize));
      match polled with
      | None => mret (Some Dormant)
      | Some os =>
        complete_ticket (rz_ticket resize) (Ok (Answer_resize {|
          ro_generation := rz_generation resize; ro_os := os;
          ro_model := Err ProjectionError_Closed |}));;
        on_ws (ws_resize None);; staging_drop (rz_staging resize);;
        mret None
      end
  end.

Definition descriptor : step CheckpointDescriptor :=
  s ← status;
  mret {| cd_compatibility := pg_compatibility cfg; cd_processed := ps_processed s;
          cd_control_generation := ps_control_generation s |}.

(** ** Snapshots (snapshot.rs) *)

Definition request_cancelled (request : SnapshotRequest) : step bool :=
  cancelled_ticket (request_ticket request).
(** A request that goes without a result drops its observer permit. *)
Definition permit_drop (request : SnapshotRequest) : step () := drop_quotas (request_drop request).
Definition fail_request (request : SnapshotRequest) (error : ProjectionError) : step () :=
  complete_ticket (request_ticket request) (Err error);; permit_drop request.

(** The observer opens at the boundary the checkpoint was taken at. *)
Definition open_transfer (permit : Lease) (checkpoint : PinnedCheckpoint)
    : step (result ProjectionError answer) :=
  opened ← on_journal open;
  match opened with
  | Err error =>
    drop_quotas (Lease_drop permit);; checkpoint_drop checkpoint;; mret (Err error)
  | Ok (observer, boundary) =>
    let d := tk_descriptor (pk_checkpoint checkpoint) in
    let transfer := {| sx_checkpoint := checkpoint; sx_observer := observer;
                       sx_start := boundary; sx_permit := permit |} in
    if bool_decide (tb_processed boundary ≠ cd_processed d)
       || bool_decide (tb_control_generation boundary ≠ cd_control_generation d)
    then transfer_drop transfer;; mret (Err ProjectionError_InvalidConfiguration)
    else mret (Ok (Answer_transfer transfer))
  end.

(** [SnapshotRequest::complete] *)
Definition complete_request (request : SnapshotRequest)
    (r : result ProjectionError PinnedCheckpoint) : step () :=
  match request with
  | Snapshot_Checkpoint ticket => complete_ticket ticket (Answer_checkpoint <$> r)
  | Snapshot_Transfer ticket permit =>
    gone ← cancelled_ticket ticket;
    if (gone : bool)
    then
      abandon_ticket ticket;;
      drop_quotas (Lease_drop permit);; answer_drop (Answer_checkpoint <$> r)
    else
      answer ← match r with
               | Err error => drop_quotas (Lease_drop permit);; mret (Err error)
               | Ok checkpoint => open_transfer permit checkpoint
               end;
      complete_ticket ticket answer
  end.

(** The engine's checkpoint at the current boundary, checked. *)
Definition take_checkpoint : step (result ProjectionError TerminalCheckpoint) :=
  d ← descriptor;
  r ← native_call (term_checkpoint d);
  config ← gets (λ w, nw_config (co_ws w));
  mret (r ≫= λ checkpoint,
        if bool_decide (tk_descriptor checkpoint ≠ d) then Err ProjectionError_InvalidConfiguration
        else if tc_checkpoint_bytes config <? tk_capacity checkpoint
        then Err ProjectionError_Capacity
        else Ok checkpoint).

Definition snapshot_result : step (result ProjectionError PinnedCheckpoint) :=
  config ← gets (λ w, nw_config (co_ws w));
  lease ← on_quotas (Lease_shared (pb_checkpoints (budgets cfg)) (tc_checkpoint_bytes config));
  match lease with
  | Err error => mret (Err error)
  | Ok lease =>
    r ← take_checkpoint;
    match r with
    | Err error => drop_quotas (Lease_drop lease);; mret (Err error)
    | Ok checkpoint => mret (Ok {| pk_checkpoint := checkpoint; pk_lease := lease |})
    end
  end.

Definition snapshot (request : SnapshotRequest) : step () :=
  gone ← request_cancelled request;
  if (gone : bool) then abandon_ticket (request_ticket request);; permit_drop request
  else
    r ← snapshot_result;
    now ← residency;
    if closing_or_closed now
    then fail_request request ProjectionError_Closed;; answer_drop (Answer_checkpoint <$> r)
    else complete_request request r.

(** ** Commands (native.rs) *)

(** The view and what identifies it. *)
Definition view_result : step (result ProjectionError ProjectedView) :=
  config ← gets (λ w, nw_config (co_ws w));
  let options := pg_options cfg in
  let options := {|
    po_journal_bytes := po_journal_bytes options; po_journal_slots := po_journal_slots options;
    po_transfer_observers := po_transfer_observers options; po_terminal := config;
    po_program_status_records := po_program_status_records options;
    po_staging_bytes := po_staging_bytes options; po_staging_slots := po_staging_slots options;
    po_request_slots := po_request_slots options; po_park_after := po_park_after options;
    po_retry_after := po_retry_after options;
    po_max_park_attempts := po_max_park_attempts options;
    po_max_delete_attempts := po_max_delete_attempts options |} in
  lease ← match view_reservation options with
          | Err error => mret (Err error)
          | Ok count => on_quotas (Lease_shared (pb_views (budgets cfg)) count)
          end;
  match lease with
  | Err error => mret (Err error)
  | Ok lease =>
    view ← native_call term_view;
    match view with
    | Err error => drop_quotas (Lease_drop lease);; mret (Err error)
    | Ok view =>
      history ← native_call term_progress;
      match history with
      | Err error => drop_quotas (Lease_drop lease);; mret (Err error)
      | Ok history =>
        s ← status;
        mret (Ok {| pv_view := view; pv_processed := ps_processed s;
                    pv_control_generation := ps_control_generation s; pv_history := history;
                    pv_lease := lease |})
      end
    end
  end.

Definition apply_view (ticket : ticket_ref) : step () :=
  gone ← cancelled_ticket ticket;
  if (gone : bool) then abandon_ticket ticket
  else
    r ← view_result;
    now ← residency;
    if closing_or_closed now
    then complete_ticket ticket (Err ProjectionError_Closed);; answer_drop (Answer_view <$> r)
    else complete_ticket ticket (Answer_view <$> r).

(** A resize is given to the process, which answers later. *)
Definition apply_resize (size : TerminalSize) (ticket : ticket_ref) (staging : StagingLease)
    : step WorkSchedule :=
  process ← gets co_process;
  if negb process
  then requeue (Command_Resize size ticket staging);; mret Dormant
  else
    s ← status;
    match cg_next (ps_control_generation s) with
    | None =>
      consume;;
      complete_ticket ticket (Err ProjectionError_Capacity);; fail ProjectionError_Capacity;;
      staging_drop staging;; mret Dormant
    | Some generation =>
      r ← on_env (process_resize size);
      consume;;
      match r with
      | Ok operation =>
        on_ws (ws_resize (Some {|
          rz_size := size; rz_generation := generation; rz_ticket := ticket;
          rz_staging := {| sg_timing := None; sg_bytes := sg_bytes staging;
                           sg_slots := sg_slots staging |};
          rz_operation := operation |}));;
        mret immediately
      | Err error =>
        complete_ticket ticket (Ok (Answer_resize {|
          ro_generation := generation; ro_os := Err error;
          ro_model := Err (ProjectionError_Process error) |}));;
        staging_drop staging;; mret immediately
      end
    end.

Definition program_exit : step () :=
  r ← apply_program_exit;
  match r with Err error => fail error | Ok _ => mret tt end.

Definition apply_command (event : Command) : step WorkSchedule :=
  match event with
  | Command_Output bytes staging => apply_output cfg bytes staging
  | Command_ProcessExited => consume;; program_exit;; mret immediately
  | Command_Resize size ticket staging => apply_resize size ticket staging
  | Command_View ticket staging =>
    consume;; apply_view ticket;; staging_drop staging;; mret immediately
  | Command_Checkpoint request staging =>
    consume;; snapshot request;; staging_drop staging;; mret immediately
  end.
End native.
