(* ===== verification/Io.v ===== *)
(** * Blocking I/O (crates/application/src/projection/io.rs)

    Starting a read or a park, and applying whatever comes back: every step
    can be refused, and each refusal puts back what the steps before it took. *)

From S2P Require Import Prelude Identity Process Terminal Checkpoint Projection Session View.
From S2P Require Import Policy Transfer Atomic Quota Journal StatusReport StatusScanner StatusStore.
From S2P Require Import Diagnostics Budgets Queue Admission Ports Jobs Coordinator Output Native.

Section io.
Context `{L : Layout} `{P : Ports} `{A : Allocation} (cfg : ProjectionConfig).

Abbreviation enter := (interfere cfg).
Abbreviation fail := (co_fail enter).
Abbreviation residency := (residency enter).
Abbreviation native_call := (native_call cfg).

(** A lock section that answers nothing. *)
Definition told (f : Admission → Admission) : step () := locked enter (λ a, (f a, tt)).

(** The command the worker has taken fails, or goes without a result. *)
Definition fail_taken (error : ProjectionError) (event : Command) : step () :=
  consume;;
  for_each (command_tickets event) (λ t, complete_ticket t (Err error));;
  drop_quotas (Command_drop event);; if is_exit event then mret tt else notify.
Definition discard_taken (event : Command) : step () :=
  consume;;
  for_each (command_tickets event) abandon_ticket;;
  drop_quotas (Command_drop event);; if is_exit event then mret tt else notify.
Definition discard_transfer (transfer : option Command) : step () :=
  match transfer with Some event => discard_taken event | None => mret tt end.

Definition IoMemory_drop (m : IoMemory) (qs : quotas) : quotas :=
  Lease_drop (im_protected m) (Lease_drop (im_plain m) qs).
Definition acquire_memory : step (result ProjectionError IoMemory) :=
  config ← gets (λ w, nw_config (co_ws w));
  r ← on_quotas (IoMemory_acquire (pb_checkpoints (budgets cfg)) (tc_checkpoint_bytes config)
                   (pg_protected_bytes cfg));
  mret ((λ m, {| im_plain := m.1; im_protected := m.2 |}) <$> r).
Definition acquire_disk : step (result ProjectionError DiskLease) :=
  r ← on_quotas (DiskLease_acquire (pb_stored_slots (budgets cfg)) (pb_stored (budgets cfg))
                   (pg_protected_bytes cfg));
  mret ((λ d, {| dl_slots := d.1; dl_bytes := d.2 |}) <$> r).

Definition submit (pending : PendingIo) : step (result ProjectionError ()) := λ w,
  let '(io, e, r) := io_submit pending (nw_io (co_ws w)) (co_env w) in
  (with_ws (ws_io io (co_ws w)) (with_env e w), r).

(** Assignments that drop what was there. *)
Definition set_terminal (terminal : option Term) (resident : option Lease) : step () :=
  old ← gets (λ w, nw_resident (co_ws w));
  on_ws (ws_terminal terminal resident);; drop_quotas (drop_opt old).
Definition set_restore_memory (memory : option Lease) : step () :=
  old ← gets (λ w, nw_restore_memory (co_ws w));
  on_ws (ws_restore_memory memory);; drop_quotas (drop_opt old).
Definition set_source (source : CommittedSource) : step () :=
  old ← gets (λ w, nw_source (co_ws w));
  on_ws (λ n, ws_source (Some source) (nw_reaper n) n);;
  drop_quotas (λ qs, match old with Some old => DiskLease_drop (cs_disk old) qs | None => qs end).
(** [workspace.reaper.retire(source)] *)
Definition retire_source (source : CommittedSource) : step () :=
  on_ws (λ n, ws_source (nw_source n) (retire source (nw_reaper n)) n).
(** [if let Some(source) = workspace.source.take() { workspace.reaper.retire(source) }] *)
Definition retire_current : step () :=
  on_ws (λ n, match nw_source n with
              | Some source => ws_source None (retire source (nw_reaper n)) n
              | None => n
              end).
Definition record_unreclaimed (source : UnreclaimedSource) : step () :=
  change (λ w, with_unreclaimed (co_unreclaimed w ++ [source]) w).
Definition absorb_unreclaimed (sources : list UnreclaimedSource) : step () :=
  change (λ w, with_unreclaimed (co_unreclaimed w ++ sources) w).

(** ** Reading the source back *)

Definition submit_transfer (request : SnapshotRequest) (staging : StagingLease)
    (memory : IoMemory) (source : CommittedSource) : step WorkSchedule :=
  submitted ← submit (Pending_Transfer request memory staging source None);
  consume;;
  match submitted with
  | Ok _ => mret Dormant
  | Err error =>
    fail_request request error;; drop_quotas (IoMemory_drop memory);; staging_drop staging;;
    mret (After RETRY_SOON)
  end.

Definition submit_restore (memory : IoMemory) (source : CommittedSource) : step WorkSchedule :=
  config ← gets (λ w, nw_config (co_ws w));
  resident ← on_quotas (Lease_shared (pb_resident (budgets cfg)) (tc_native_bytes config));
  match resident with
  | Err _ => drop_quotas (IoMemory_drop memory);; mret (After RETRY_SOON)
  | Ok resident =>
    submitted ← submit (Pending_Restore resident memory source None);
    match submitted with
    | Ok _ =>
      begun ← locked enter queue_begin_restore;
      (match begun with Err error => fail error | Ok _ => mret tt end);; mret Dormant
    | Err _ =>
      drop_quotas (Lease_drop resident);; drop_quotas (IoMemory_drop memory);;
      mret (After RETRY_SOON)
    end
  end.

Definition start_read (transfer : option Command) : step WorkSchedule :=
  services ← gets co_services;
  if negb services then discard_transfer transfer;; mret Finished
  else
    source ← gets (λ w, nw_source (co_ws w));
    match source with
    | None => fail ProjectionError_Worker;; discard_transfer transfer;; mret Dormant
    | Some source =>
      memory ← acquire_memory;
      match memory with
      | Err error =>
        (match transfer with Some event => fail_taken error event | None => mret tt end);;
        mret (After RETRY_SOON)
      | Ok memory =>
        match transfer with
        | Some (Command_Checkpoint request staging) =>
          submit_transfer request staging memory source
        | _ => s ← submit_restore memory source; discard_transfer transfer;; mret s
        end
      end
    end.

(** ** Parking *)

(** What a park needs before its job can be submitted. *)
Definition prepare_park : step (result ProjectionError (TerminalCheckpoint * IoMemory * DiskLease)) :=
  memory ← acquire_memory;
  match memory with
  | Err error => mret (Err error)
  | Ok memory =>
    disk ← acquire_disk;
    match disk with
    | Err error => drop_quotas (IoMemory_drop memory);; mret (Err error)
    | Ok disk =>
      r ← take_checkpoint cfg;
      match r with
      | Err error =>
        drop_quotas (DiskLease_drop disk);; drop_quotas (IoMemory_drop memory);;
        mret (Err error)
      | Ok checkpoint => mret (Ok (checkpoint, memory, disk))
      end
    end
  end.

Definition park_failed_now (error : ProjectionError) : step () :=
  time ← now; told (queue_park_failed error time).

Definition start_park : step WorkSchedule :=
  services ← gets co_services;
  if negb services then mret Finished
  else
    time ← now;
    attempt ← locked enter (queue_begin_park time);
    match attempt with
    | Park_Busy => mret immediately
    | Park_NotDue => mret Dormant
    | Park_Ready attempt =>
      prepared ← prepare_park;
      match prepared with
      | Err error =>
        park_failed_now error;; mret (After (po_retry_after (pg_options cfg)))
      | Ok (checkpoint, memory, disk) =>
        submitted ← submit (Pending_Commit attempt disk memory checkpoint None);
        match submitted with
        | Ok _ => mret Dormant
        | Err error =>
          park_failed_now error;;
          drop_quotas (DiskLease_drop disk);; drop_quotas (IoMemory_drop memory);;
          mret (After (po_retry_after (pg_options cfg)))
        end
      end
    end.

(** ** Applying results *)

Definition history_progress (progress : RestorationProgress) : step () :=
  r ← locked enter (record_restoration_progress progress);
  match r with
  | Err error => fail error
  | Ok _ =>
    if is_finished progress then set_restore_memory None;; retire_current else mret tt
  end.

Definition finish_commit (attempt : ParkAttempt) (disk : DiskLease)
    (r : result ProjectionError CommitOutcome) : step () :=
  match match r with Ok outcome => outcome | Err error => Commit_Uncertain error end with
  | Commit_Published reference =>
    let source := {| cs_reference := reference;
                     cs_descriptor := attempt_descriptor (pg_compatibility cfg) attempt;
                     cs_disk := disk |} in
    release ← locked enter (queue_commit_park attempt);
    if (release : bool) then set_terminal None None;; set_source source else retire_source source
  | Commit_Uncertain error =>
    record_unreclaimed (from_uncertain_park (pg_compatibility cfg) attempt disk);;
    time ← now; told (park_outcome_uncertain error time)
  | Commit_Rejected error => park_failed_now error;; drop_quotas (DiskLease_drop disk)
  end.

(** [native_call] around the factory. *)
Definition restore_terminal (r : result ProjectionError TerminalCheckpoint)
    : step (result ProjectionError Term) :=
  match r with
  | Err error => mret (Err error)
  | Ok checkpoint =>
    config ← gets (λ w, nw_config (co_ws w));
    restored ← on_env (factory_restore checkpoint config);
    match restored with
    | None => fail ProjectionError_Worker;; mret (Err ProjectionError_Worker)
    | Some r => mret (map_err ProjectionError_Terminal r)
    end
  end.
(** [native_call] on a model that is not the workspace's yet. *)
Definition restored_progress (t : Term)
    : step (Term * result ProjectionError RestorationProgress) :=
  r ← (λ w, let '(e, t, r) := term_progress t (co_env w) in (with_env e w, (t, r)));
  match r with
  | (t, None) => fail ProjectionError_Worker;; mret (t, Err ProjectionError_Worker)
  | (t, Some r) => mret (t, map_err ProjectionError_Terminal r)
  end.

Definition finish_restore (resident : Lease) (memory : IoMemory)
    (r : result ProjectionError TerminalCheckpoint) : step () :=
  restored ← restore_terminal r;
  match restored with
  | Err error =>
    fail error;; drop_quotas (Lease_drop resident);; drop_quotas (IoMemory_drop memory)
  | Ok terminal =>
    '(terminal, progress) ← restored_progress terminal;
    match progress with
    | Err _ => drop_quotas (Lease_drop resident);; drop_quotas (IoMemory_drop memory)
    | Ok progress =>
      set_terminal (Some terminal) (Some resident);;
      set_restore_memory (Some (im_plain memory));;
      on_ws (ws_owed false);;
      history_progress progress;;
      drop_quotas (Lease_drop (im_protected memory))
    end
  end.

Definition finish_transfer (closing : bool) (request : SnapshotRequest) (memory : IoMemory)
    (staging : StagingLease) (r : result ProjectionError TerminalCheckpoint) : step () :=
  (match (if closing then Err ProjectionError_Closed else r) with
   | Ok checkpoint =>
     complete_request request (Ok {| pk_checkpoint := checkpoint; pk_lease := im_plain memory |})
   | Err error => complete_request request (Err error);; drop_quotas (Lease_drop (im_plain memory))
   end);;
  drop_quotas (Lease_drop (im_protected memory));; staging_drop staging.

Definition finish_deletion (attempt : DeleteAttempt) (r : result ProjectionError ()) : step () :=
  exhausted ← (λ w,
    let '(reaper, qs, x) := finish_delete attempt r (nw_reaper (co_ws w))
                              (dk_quotas (co_desk w)) in
    (with_ws (ws_source (nw_source (co_ws w)) reaper (co_ws w))
       (with_desk (set_desk_quotas qs (co_desk w)) w), x));
  match exhausted with
  | Some error => told (queue_maintenance_failed error)
  | None => mret tt
  end.

Definition finish_io : step () :=
  services ← gets co_services;
  if negb services then mret tt
  else
    finished ← (λ w, let (io, f) := take_finished (nw_io (co_ws w)) in
                     (with_ws (ws_io io (co_ws w)) w, f));
    match finished with
    | None => mret tt
    | Some finished =>
      now ← residency;
      let closing := closing_or_closed now in
      match finished with
      | Finished_Commit attempt disk memory r =>
        finish_commit attempt disk r;; drop_quotas (IoMemory_drop memory)
      | Finished_Restore resident memory r =>
        if closing
        then drop_quotas (Lease_drop resident);; drop_quotas (IoMemory_drop memory)
        else finish_restore resident memory r
      | Finished_Transfer request memory staging r =>
        finish_transfer closing request memory staging r
      | Finished_Delete attempt r => finish_deletion attempt r
      end
    end.
End io.
