(* ===== verification/Worker.v ===== *)
(** * The worker (crates/application/src/projection/worker.rs, teardown.rs, and
      the rest of coordinator.rs)

    One run of the worker over the workspace, what it does when it panicked,
    teardown after shutdown, and the creation of a projection. *)

From S2P Require Import Prelude Identity Process Terminal Checkpoint Projection Session View.
From S2P Require Import Policy Transfer Atomic Quota Journal StatusReport StatusScanner StatusStore.
From S2P Require Import Diagnostics Budgets Queue Admission Ports Jobs Coordinator Output Native Io.

Definition OUTPUT_BATCH : Z := 32.
Definition OUTPUT_BATCH_BYTES : Z := 256 * 1024.

Inductive Phase := Detached | Phase_Restoring | Serving.

Section worker.
Context `{L : Layout} `{P : Ports} `{A : Allocation} (cfg : ProjectionConfig).

Abbreviation enter := (interfere cfg).
Abbreviation fail := (co_fail enter).
Abbreviation status := (status enter).
Abbreviation residency := (residency enter).
Abbreviation native_call := (native_call cfg).
Abbreviation apply_command := (apply_command cfg).
Abbreviation history_progress := (history_progress cfg).

Definition Phase_of (r : Residency) (n : NativeWorkspace) : Phase :=
  if is_none (nw_terminal n) then Detached
  else if bool_decide (r = Usable) then Phase_Restoring else Serving.

Definition workspace_start_delete : step WorkSchedule := λ w,
  let '(reaper, io, e, schedule) :=
    start_delete (nw_reaper (co_ws w)) (nw_io (co_ws w)) (co_env w) in
  (with_ws (ws_io io (ws_source (nw_source (co_ws w)) reaper (co_ws w))) (with_env e w), schedule).
(** [!workspace.io.busy() && workspace.reaper.holds_sources()] *)
Definition reapable (n : NativeWorkspace) : bool :=
  negb (io_busy (nw_io n)) && holds_sources (nw_reaper n).

(** Seal the continuation stream once nothing can still extend it. *)
Definition seal_journal_if_drained : step () :=
  n ← gets co_ws;
  let engine_idle := is_none (nw_resize n) && is_none (nw_reply n) in
  drain ← locked enter (λ a, (a, settled_drain engine_idle a));
  match drain with
  | None => mret tt
  | Some drain =>
    finished ← finish_program_drain;
    match finished with
    | Err error => fail error
    | Ok _ => on_journal (λ j, ((journal_end (Some drain) None j).1, tt))
    end
  end.

(** No live model: the committed source is read back, for the head of the
    queue alone when that is a checkpoint. *)
Definition take_checkpoint_work : step (option (option Command)) :=
  guarded enter (λ w,
    let d := co_desk w in
    let (a, work) := take_checkpoint_if_any_work (dk_adm d) in
    (with_desk (match work with
                | Some (Some c) => hold (Some c) (put_adm a d)
                | _ => put_adm a d
                end) w, work)).
Definition read_back_source : step WorkSchedule :=
  n ← gets co_ws;
  if io_busy (nw_io n) then mret Dormant
  else
    work ← take_checkpoint_work;
    match work with
    | None => mret Dormant
    | Some transfer => start_read cfg transfer
    end.

(** One admitted command, then one history unit. *)
Definition during_restore (command : Command) : bool :=
  match command with
  | Command_View _ _ => true
  | Command_Output _ _ | Command_Resize _ _ _ => cap_mutation_during_restore capabilities
  | _ => false
  end.
Definition history_step : step WorkSchedule :=
  terminal ← gets (λ w, nw_terminal (co_ws w));
  match terminal with
  | None => mret Dormant
  | Some _ =>
    r ← native_call term_history_step;
    on_ws (ws_owed false);;
    (match r with Ok progress => history_progress progress | Err error => fail error end);;
    mret immediately
  end.
Definition restore_step : step WorkSchedule :=
  n ← gets co_ws;
  command ← (if nw_history_step_owed n then mret None
             else take_with enter (take_next_if during_restore));
  match command with
  | Some command => on_ws (ws_owed true);; apply_command command
  | None => history_step
  end.

(** Queued output within one run: at most [n] more chunks, none once
    [batched] bytes reach the bound. *)
Definition output_bytes (c : Command) : option Z :=
  match c with Command_Output bytes _ => Some (len bytes) | _ => None end.
Fixpoint batch_output (n : nat) (batched : Z) (schedule : WorkSchedule) : step WorkSchedule :=
  match n with
  | O => mret schedule
  | S n =>
    workspace ← gets co_ws;
    if (batched <? OUTPUT_BATCH_BYTES) && is_immediate schedule
       && is_none (nw_reply workspace) && is_none (nw_resize workspace)
    then
      next ← take_with enter take_next_output_while_serving;
      match next with
      | None => mret schedule
      | Some next =>
        schedule ← apply_command next;
        batch_output n (batched + default 0 (output_bytes next)) schedule
      end
    else mret schedule
  end.

Definition idle : step WorkSchedule :=
  n ← gets co_ws;
  if io_busy (nw_io n) then mret Dormant
  else if holds_sources (nw_reaper n) then workspace_start_delete
  else
    time ← now;
    delay ← locked enter (λ a, (a, park_delay (ad_policy a) time));
    match delay with
    | Some delay => if delay =? 0 then start_park cfg else mret (After delay)
    | None => mret Dormant
    end.

Definition serve : step WorkSchedule :=
  n ← gets co_ws;
  maintenance ← (if reapable n then s ← workspace_start_delete; mret (Some s) else mret None);
  command ← take_with enter take_next;
  match command with
  | Some command =>
    schedule ← apply_command command;
    match output_bytes command with
    | Some first_bytes => batch_output (Z.to_nat (OUTPUT_BATCH - 1)) first_bytes schedule
    | None => mret schedule
    end
  | None =>
    match maintenance with
    | Some schedule => mret schedule
    | None => idle
    end
  end.

Definition work_while_failed : step WorkSchedule :=
  n ← gets co_ws;
  if reapable n then workspace_start_delete else mret Dormant.

(** ** Closing *)

Definition surrender_sources : step () :=
  n ← gets co_ws;
  let (reaper, sources) := surrender (nw_reaper n) in
  on_ws (λ n, ws_source (nw_source n) reaper n);; absorb_unreclaimed sources.

Definition drop_reply : step () :=
  reply ← gets (λ w, nw_reply (co_ws w));
  match reply with
  | None => mret tt
  | Some reply => on_ws (ws_reply None);; drop_quotas (Lease_drop (ry_memory reply))
  end.

(** The close waits, and the collaborators. *)
Definition complete_close (waiters : list ticket_ref) (failed : option ProjectionError) : step () :=
  for_each waiters (λ t, complete_ticket t ((λ _, Answer_closed) <$> map_or_ok failed)).
Definition release_wiring : step () := change (with_wiring false false false).

Definition finish_cleanup (failed : option ProjectionError) : step WorkSchedule :=
  '(waiters, failed) ← guarded enter (λ w,
    let '(a, (waiters, failed)) := finish_close failed (dk_adm (co_desk w)) in
    (with_desk (note_waiters [] waiters (put_adm a (co_desk w))) w, (waiters, failed)));
  change (λ w, with_wiring (co_services w) (co_handle w) false w);;
  complete_close waiters failed;;
  notify_if_serving;;
  release_wiring;;
  mret Finished.

Definition cleanup : step WorkSchedule :=
  clear_program_status;;
  set_terminal None None;;
  set_restore_memory None;;
  drop_reply;;
  resizing ← closing_resize;
  match resizing with
  | Some schedule => mret schedule
  | None =>
    n ← gets co_ws;
    if io_busy (nw_io n) then mret Dormant
    else
      retire_current;;
      '(failed, retry) ← locked enter take_cleanup_retry;
      (if (retry : bool) then on_ws (λ n, ws_source (nw_source n) (restore_attempts (nw_reaper n)) n)
       else mret tt);;
      n ← gets co_ws;
      if negb (holds_sources (nw_reaper n)) then finish_cleanup failed
      else if is_some failed then surrender_sources;; finish_cleanup failed
      else workspace_start_delete
  end.

(** ** A run *)

Definition work : step WorkSchedule :=
  r ← residency;
  if closing_or_closed r then cleanup
  else if bool_decide (r = Failed) then work_while_failed
  else
    polled ← poll_inflight_operations cfg;
    match polled with
    | Some schedule => mret schedule
    | None =>
      s ← status;
      if is_some (ps_failure s) then work_while_failed
      else
        exit ← take_with enter (take_next_if is_exit);
        (match exit with Some _ => consume;; program_exit cfg | None => mret tt end);;
        seal_journal_if_drained;;
        n ← gets co_ws;
        match Phase_of r n with
        | Detached => read_back_source
        | Phase_Restoring => restore_step
        | Serving => serve
        end
    end.

Definition run : step WorkSchedule :=
  services ← gets co_services;
  if negb services then mret Finished else finish_io cfg;; work.

(** ** Teardown (teardown.rs) *)

Definition discard_operations : step () :=
  drop_reply;;
  resize ← gets (λ w, nw_resize (co_ws w));
  match resize with
  | None => mret tt
  | Some resize =>
    on_ws (ws_resize None);;
    complete_ticket (rz_ticket resize) (Err ProjectionError_Worker);;
    staging_drop (rz_staging resize)
  end.

(** The worker panicked. *)
Definition failed : step WorkSchedule :=
  fail ProjectionError_Worker;;
  discard_operations;;
  r ← residency;
  mret match r with Closing => immediately | Closed => Finished | _ => Dormant end.

Definition close_outcome_now : step (option (result ProjectionError ())) :=
  locked enter (λ a, (a, close_outcome a)).

(** What an abandoned job was holding. *)
Definition abandon_pending (pending : PendingIo) : step () :=
  match pending with
  | Pending_Commit attempt disk memory _ _ =>
    record_unreclaimed (from_uncertain_park (pg_compatibility cfg) attempt disk);;
    drop_quotas (IoMemory_drop memory)
  | Pending_Delete attempt _ => record_unreclaimed (from_committed (da_source attempt))
  | Pending_Transfer request memory staging _ _ =>
    fail_request request ProjectionError_Worker;; drop_quotas (IoMemory_drop memory);;
    staging_drop staging
  | Pending_Restore resident memory _ _ =>
    drop_quotas (Lease_drop resident);; drop_quotas (IoMemory_drop memory)
  end.

Definition finish_after_shutdown : step () :=
  r ← residency;
  if bool_decide (r = Closed) then mret tt
  else
    clear_program_status;;
    on_journal (λ j, ((journal_close j).1, tt));;
    rejected ← locked enter abandon_close;
    for_each rejected (fail_command ProjectionError_Worker);;
    finish_io cfg;;
    pending ← (λ w, let (io, pending) := io_abandon (nw_io (co_ws w)) in
                    (with_ws (ws_io io (co_ws w)) w, pending));
    (match pending with Some pending => abandon_pending pending | None => mret tt end);;
    retire_current;;
    surrender_sources;;
    discard_operations;;
    set_terminal None None;;
    set_restore_memory None;;
    waiters ← guarded enter (λ w,
      let (a, waiters) := abandon_waiters (dk_adm (co_desk w)) in
      (with_desk (note_waiters [] waiters (put_adm a (co_desk w))) w, waiters));
    for_each waiters (λ t, complete_ticket t (Err ProjectionError_Worker));;
    change (λ w, with_wiring (co_services w) (co_handle w) false w);;
    notify_if_serving;;
    release_wiring.

(** ** Binding the process (coordinator.rs) *)

Definition bind_process : step (result ProjectionError ()) :=
  r ← residency;
  if closing_or_closed r then mret (Err ProjectionError_Closed)
  else
    bound ← gets co_process;
    if (bound : bool) then mret (Err ProjectionError_InvalidConfiguration)
    else
      change (λ w, with_wiring (co_services w) (co_handle w) true w);;
      r ← residency;
      if closing_or_closed r
      then change (λ w, with_wiring (co_services w) (co_handle w) false w);;
           mret (Err ProjectionError_Closed)
      else
        woken ← wake;
        (match woken with Err error => fail error | Ok _ => mret tt end);; mret woken.
(** ** Creation (coordinator.rs) *)

(** The options and the ciphertext bound, checked against the runtime's limits. *)
Definition create_checks (options : ProjectionOptions) (limits : ProjectionLimits)
    : result ProjectionError (ProjectionOptions * Z) :=
  options ← ProjectionOptions_validate options;
  queue_slots ← ok_or (checked_add usize_max (po_staging_slots options) (po_request_slots options)
                       ≫= λ n, checked_add usize_max n 1) ProjectionError_InvalidConfiguration;
  let terminal := po_terminal options in
  protected_bytes ← match protected_size_limit (tc_checkpoint_bytes terminal) with
                    | None => Err ProjectionError_Worker
                    | Some r => map_err ProjectionError_Storage r
                    end;
  peak ← ok_or (checked_add usize_max protected_bytes (tc_checkpoint_bytes terminal))
           ProjectionError_InvalidConfiguration;
  view ← view_reservation options;
  if (protected_bytes =? 0) || (isize_max <? protected_bytes)
     || (lim_checkpoint_bytes limits <? peak)
     || (lim_stored_bytes limits <? protected_bytes)
     || (lim_staging_bytes limits <? tc_feed_bytes terminal)
     || (lim_view_bytes limits <? Z.max view (tc_reply_bytes terminal))
     || negb (cap_checkpoints capabilities)
  then Err ProjectionError_InvalidConfiguration
  else Ok (options, protected_bytes).

(** The journal's quotas: the session's own beside the runtime's. *)
Definition JournalQuotas_new (shared : ProjectionBudgets) (options : ProjectionOptions)
    (next : quota_ref) (qs : quotas) : quotas * JournalQuotas :=
  (allocate [po_journal_bytes options; po_journal_slots options; po_transfer_observers options]
     next qs,
   {| jq_bytes := next; jq_slots := next + 1; jq_observers := next + 2;
      jq_global_bytes := pb_journal_bytes shared; jq_global_slots := pb_journal_slots shared;
      jq_global_observers := pb_transfer_observers shared |}%nat).

Definition NativeWorkspace_new (terminal : Term) (resident : Lease) (options : ProjectionOptions)
    : NativeWorkspace := {|
  nw_config := po_terminal options; nw_history_step_owed := false; nw_terminal := Some terminal;
  nw_resident := Some resident; nw_source := None; nw_restore_memory := None; nw_io := None;
  nw_reply := None; nw_resize := None;
  nw_reaper := Reaper_new (po_max_delete_attempts options) |}.

(** The owner, once its model exists; [next] names the first fresh quota,
    [identity] the program-status store and [script] is what callers will do. *)
Definition create_owner (lifetime : SessionLifetime) (options : ProjectionOptions)
    (protected_bytes : Z) (budgets : ProjectionBudgets) (input : InputQuotas)
    (compatibility : CompatibilityId) (terminal : Term) (resident : Lease)
    (next : quota_ref) (identity : Z) (script : list (list caller_op))
    (qs : quotas) (e : Env)
    : result ProjectionError (ProjectionConfig * coordinator) :=
  let (qs, sq) := SessionQuotas_new budgets options next qs in
  let (qs, jq) := JournalQuotas_new budgets options (next + 3)%nat qs in
  policy ← ProjectionPolicy_new lifetime options (clock_now e);
  store ← map_err (λ _, ProjectionError_InvalidConfiguration)
            (ProgramStatusStore_new identity (po_program_status_records options));
  Ok ({| pg_options := options; pg_compatibility := compatibility;
         pg_protected_bytes := protected_bytes; pg_quotas := sq; pg_journal := jq;
         pg_input := input |},
      {| co_desk := desk_new policy qs; co_journal := Journal_new lifetime qs;
         co_status := {| ss_store := Some store; ss_memory := None; ss_exited := false;
                         ss_drained := false |};
         co_ws := NativeWorkspace_new terminal resident options;
         co_services := true; co_handle := false; co_process := false; co_unreclaimed := [];
         co_reservations := []; co_env := e; co_done := []; co_calls := [];
         co_returned := []; co_script := script |}).

(** Register with the scheduler, and wake the first run. *)
Definition register : step (result ProjectionError ()) :=
  registered ← on_env scheduler_register;
  if negb registered then mret (Err ProjectionError_Worker)
  else change (λ w, with_wiring (co_services w) true (co_process w) w);; wake.

(** [create]: a refusal drops the model and the resident lease. [reserved] is
    whether the queue's slots could be allocated. *)
Definition create (lifetime : SessionLifetime) (options : ProjectionOptions)
    (budgets : ProjectionBudgets) (input : InputQuotas) (reserved : bool) (next : quota_ref)
    (identity : Z) (script : list (list caller_op)) (qs : quotas) (e : Env)
    : quotas * Env * result ProjectionError (ProjectionConfig * coordinator) :=
  match create_checks options (pb_limits budgets) with
  | Err error => (qs, e, Err error)
  | Ok (options, protected_bytes) =>
    match Lease_shared (pb_resident budgets) (tc_native_bytes (po_terminal options)) qs with
    | (qs, Err error) => (qs, e, Err error)
    | (qs, Ok resident) =>
      match factory_compatibility with
      | Err error => (Lease_drop resident qs, e, Err (ProjectionError_Terminal error))
      | Ok compatibility =>
        match factory_create (po_terminal options) e with
        | (e, None) => (Lease_drop resident qs, e, Err ProjectionError_Worker)
        | (e, Some (Err error)) =>
          (Lease_drop resident qs, e, Err (ProjectionError_Terminal error))
        | (e, Some (Ok terminal)) =>
          if negb reserved then (Lease_drop resident qs, e, Err ProjectionError_Capacity)
          else
            match create_owner lifetime options protected_bytes budgets input compatibility
                    terminal resident next identity script qs e with
            | Err error => (Lease_drop resident qs, e, Err error)
            | Ok (config, w) =>
              match register w with
              | (w, Err error) => (Lease_drop resident qs, co_env w, Err error)
              | (w, Ok _) => (dk_quotas (co_desk w), co_env w, Ok (config, w))
              end
            end
        end
      end
    end
  end.
End worker.

(** ** A projection of the demonstration engine *)

#[export] Instance demo_allocation : Allocation :=
  {| plan_retained_bytes _ := 0; heap_bytes _ := 0 |}.
Definition demo_input : InputQuotas := {| iq_bytes := 11; iq_slots := 12 |}%nat.
Definition demo_quotas : quotas := allocate [32; 32] 11%nat demo_budgets.1.
Definition demo_create (script : list (list (caller_op (P := demo_ports)))) :=
  create (L := demo_layout) (P := demo_ports) Replay.demo_lifetime (ProjectionOptions_new demo_config)
    demo_shared demo_input true 20%nat 1 script demo_quotas demo_now.
Definition demo_created (script : list (list caller_op))
    : option (ProjectionConfig * coordinator (P := demo_ports)) :=
  match (demo_create script).2 with Ok x => Some x | Err _ => None end.
