(* ===== verification/Stepping.v ===== *)
(** * Reasoning about steps of the coordinator

    A step [respects] a preorder when it takes every state to a related one;
    the lemmas follow the structure of a step.  [quiet] is the preorder of
    everything that neither feeds the model nor replaces it by one of another stream: what callers do
    while the worker runs, and most of what the worker does itself. *)

From S2P Require Import Prelude Identity Process Terminal Checkpoint Projection Session View.
From S2P Require Import Policy Transfer Atomic Quota Journal StatusReport StatusScanner StatusStore.
From S2P Require Import Diagnostics Budgets Queue Admission Ports Jobs Coordinator Output Native Io Worker.

(** ** Policy calls that keep the processed position *)

Definition keeps_position (op : policy_op) : bool :=
  match op with Op_record_processed _ => false | _ => true end.
Definition live_residency (r : Residency) : bool :=
  match r with Failed | Closing | Closed => false | _ => true end.

Lemma apply_op_position op p :
  keeps_position op = true →
  ps_processed (pp_status (apply_op op p)) = ps_processed (pp_status p).
Proof. destruct op; try done; intros _; policy_cases; done. Qed.

(** Failed, closing and closed are for good. *)
Lemma apply_op_live op p :
  live_residency (pp_residency (apply_op op p)) = true → live_residency (pp_residency p) = true.
Proof.
  destruct op; policy_cases; simpl in *; try done;
    repeat match goal with
    | H : park_delay _ _ = Some _ |- _ => apply park_delay_Some in H as (?&?&?)
    end; unfold pp_residency in *;
    destruct (ps_residency (pp_status p)) eqn:?; simplify_eq/=; try done; set_solver.
Qed.

(** From [a] to [a'] by such calls. *)
Definition beside (a a' : Admission) : Prop :=
  ∃ ops, Forall (λ op, keeps_position op = true) ops ∧ ad_policy a' = run_ops ops (ad_policy a).
Definition live_admission (a : Admission) : bool := live_residency (ad_residency a).

#[export] Instance beside_PreOrder : PreOrder beside.
Proof.
  split; [intros a; by exists []|].
  intros a b c (o1 & H1 & E1) (o2 & H2 & E2). exists (o1 ++ o2).
  split; [by apply Forall_app|]. unfold run_ops in *. by rewrite foldl_app, <-E1.
Qed.

Lemma beside_same a a' : ad_policy a' = ad_policy a → beside a a'.
Proof. intros E. exists []. by rewrite E. Qed.
Lemma beside_one op a a' :
  keeps_position op = true → ad_policy a' = apply_op op (ad_policy a) → beside a a'.
Proof. intros Hop E. exists [op]. by split; [constructor|]. Qed.

Lemma run_ops_position ops p :
  Forall (λ op, keeps_position op = true) ops →
  ps_processed (pp_status (run_ops ops p)) = ps_processed (pp_status p).
Proof.
  intros Hops. revert p. induction Hops as [|op ops Hop _ IH]; intros p; [done|].
  unfold run_ops in *. simpl. rewrite IH. by apply apply_op_position.
Qed.
Lemma run_ops_live ops p :
  live_residency (pp_residency (run_ops ops p)) = true → live_residency (pp_residency p) = true.
Proof.
  revert p. induction ops as [|op ops IH]; intros p; [done|].
  unfold run_ops in *. simpl. intros H. by apply (apply_op_live op), IH.
Qed.

Lemma beside_processed a a' : beside a a' → processed_of a' = processed_of a.
Proof.
  intros (ops & Hops & E). unfold processed_of, ad_status. by rewrite E, run_ops_position.
Qed.
Lemma beside_live a a' : beside a a' → live_admission a' = true → live_admission a = true.
Proof.
  intros (ops & _ & E). unfold live_admission, ad_residency. rewrite E. apply run_ops_live.
Qed.

(** ** Lock sections that are beside the processed position *)

Definition tame {X} (f : Admission → Admission * X) : Prop := ∀ a, beside a (f a).1.

Lemma tame_read {X} (g : Admission → X) : tame (λ a, (a, g a)).
Proof. intros a. by apply beside_same. Qed.
Lemma tame_policy {X} (m : action ProjectionPolicy ProjectionError X) op :
  keeps_position op = true → (∀ p, (m p).1 = apply_op op p) → tame (on_policy m).
Proof. intros Hop Hm a. rewrite on_policy_fst. apply (beside_one op); [done|]. apply Hm. Qed.
Lemma tame_takes take : takes take → tame take.
Proof.
  intros Ht a. specialize (Ht a). destruct (take a) as [a' [c|]]; [|by subst].
  destruct Ht as (q & _ & ->). by apply beside_same.
Qed.

Lemma tame_fail e : tame (queue_fail e).
Proof. intros a. by apply (beside_one (Op_fail e)). Qed.
Lemma tame_record_drain o : tame (record_drain o).
Proof. intros a. unfold record_drain. destruct (is_none _); by apply beside_same. Qed.
Lemma tame_process_exit : tame record_process_exit.
Proof. intros a. unfold record_process_exit. destruct (_ || _); by apply beside_same. Qed.
Lemma tame_request_close t : tame (request_close t).
Proof.
  intros a. unfold request_close. case_bool_decide; [by apply beside_same|].
  by apply (beside_one Policy.Op_close).
Qed.
Lemma tame_requeue c : tame (requeue c).
Proof. intros a. unfold requeue. destruct (closing_or_closed _); by apply beside_same. Qed.
Lemma tame_begin_park t : tame (queue_begin_park t).
Proof.
  intros a. unfold queue_begin_park. destruct (queue_is_empty _); [|by apply beside_same]. simpl.
  pose proof (tame_policy (begin_park t) (Op_begin_park t) eq_refl (λ p, eq_refl) a) as H.
  destruct (on_policy (begin_park t) a) as [a' []]; done.
Qed.
Lemma tame_commit_park x : tame (queue_commit_park x).
Proof.
  intros a. apply (beside_one (Op_commit_park x (queue_is_empty a))); [done|].
  unfold queue_commit_park. simpl. by destruct (commit_park _ _ _).
Qed.
Lemma tame_park_failed e t : tame (λ a, (queue_park_failed e t a, tt)).
Proof. intros a. by apply (beside_one (Op_park_failed e t)). Qed.
Lemma tame_uncertain e t : tame (λ a, (park_outcome_uncertain e t a, tt)).
Proof. intros a. by apply (beside_one (Op_park_failed e t)). Qed.
Lemma tame_maintenance e : tame (λ a, (queue_maintenance_failed e a, tt)).
Proof. intros a. by apply (beside_one (Op_maintenance_failed e)). Qed.
Lemma tame_begin_restore : tame queue_begin_restore.
Proof. by apply (tame_policy _ Op_begin_restore). Qed.
Lemma tame_progress pr : tame (record_restoration_progress pr).
Proof. by apply (tame_policy _ (Op_restoration_progress pr)). Qed.
Lemma tame_control g : tame (queue_record_control_applied g).
Proof. by apply (tame_policy _ (Op_record_control_applied g)). Qed.
Lemma tame_cleanup_retry : tame take_cleanup_retry.
Proof. intros a. by apply beside_same. Qed.
Lemma tame_finish_close e : tame (finish_close e).
Proof.
  intros a. unfold finish_close. destruct (opt_or e (ad_unreclaimed_failure a)) as [x|]; simpl.
  - exists [Op_cleanup_failed x; Op_mark_closed]. split; [by repeat constructor|done].
  - by apply (beside_one Op_mark_closed).
Qed.
Lemma tame_abandon_close : tame abandon_close.
Proof. intros a. by apply (beside_one Policy.Op_close). Qed.
Lemma tame_abandon_waiters : tame abandon_waiters.
Proof.
  intros a. exists [Op_cleanup_failed ProjectionError_Worker; Op_mark_closed].
  split; [by repeat constructor|done].
Qed.
Lemma tame_checkpoint_work : tame take_checkpoint_if_any_work.
Proof.
  intros a. unfold take_checkpoint_if_any_work. destruct (queue_is_empty a); [by apply beside_same|].
  pose proof (tame_takes _ (take_next_if_takes is_checkpoint) a) as H.
  by destruct (take_next_if is_checkpoint a).
Qed.

Lemma admitting_run_beside {X Y} (m : Admitting X Y) x a x' a' r :
  admitting_run m x a = (x', a', r) → beside a a'.
Proof.
  intros (calls & p & -> & Hp & Hc)%admitting_run_calls. exists calls. split; [|done].
  eapply Forall_impl; [exact Hc|]. by intros [].
Qed.

Create HintDb steps discriminated.
#[export] Hint Resolve tame_read tame_fail tame_record_drain tame_process_exit tame_request_close
  tame_requeue tame_begin_park tame_commit_park tame_park_failed tame_uncertain tame_maintenance
  tame_begin_restore tame_progress tame_control tame_cleanup_retry tame_finish_close
  tame_abandon_close tame_abandon_waiters tame_checkpoint_work
  take_next_takes take_next_if_takes take_output_takes : steps.

(** ** Steps that respect a preorder *)

Section stepping.
Context `{L : Layout} `{P : Ports}.

Definition respects (R : coordinator → coordinator → Prop) {X} (m : step X) : Prop :=
  ∀ w, R w (m w).1.

Section preorder.
Context (R : coordinator → coordinator → Prop) `{!PreOrder R}.

Lemma respects_ret {X} (x : X) : respects R (mret x).
Proof. intros w. simpl. reflexivity. Qed.
Lemma respects_gets {X} (f : coordinator → X) : respects R (gets f).
Proof. intros w. simpl. reflexivity. Qed.
Lemma respects_bind {X Y} (m : step X) (k : X → step Y) :
  respects R m → (∀ x, respects R (k x)) → respects R (m ≫= k).
Proof.
  intros Hm Hk w. unfold mbind, step_bind. specialize (Hm w).
  destruct (m w) as [w1 x]. etrans; [exact Hm|apply Hk].
Qed.
Lemma respects_for_each {X} (l : list X) (f : X → step ()) :
  (∀ x, respects R (f x)) → respects R (for_each l f).
Proof.
  intros Hf. induction l as [|x l IH]; simpl; [apply respects_ret|].
  apply respects_bind; [done|]. by intros _.
Qed.
Lemma respects_change f : (∀ w, R w (f w)) → respects R (change f).
Proof. intros Hf w. apply Hf. Qed.
Lemma respects_guarded {X} (enter : step ()) (body : step X) :
  respects R enter → respects R body → respects R (guarded enter body).
Proof. intros He Hb. apply respects_bind; [done|]. by intros _. Qed.
End preorder.

(** Sequencing is associative. *)
Lemma guarded_bind {X Y} (enter : step ()) (body : step X) (k : X → step Y) w :
  (guarded enter body ≫= k) w = guarded enter (body ≫= k) w.
Proof.
  unfold guarded, mbind, step_bind. destruct (enter w) as [w1 []]. by destruct (body w1).
Qed.

(** *** Triples *)

Definition triple {X} (I : coordinator → Prop) (m : step X) (Q : X → coordinator → Prop) : Prop :=
  ∀ w, I w → Q (m w).2 (m w).1.

Lemma triple_bind {X Y} I (m : step X) (k : X → step Y) R Q :
  triple I m R → (∀ x, triple (R x) (k x) Q) → triple I (m ≫= k) Q.
Proof.
  intros Hm Hk w Hw. unfold mbind, step_bind. specialize (Hm w Hw).
  destruct (m w) as [w1 x]. by apply Hk.
Qed.
Lemma triple_ret {X} (I : coordinator → Prop) (x : X) (Q : X → coordinator → Prop) :
  (∀ w, I w → Q x w) → triple I (mret x) Q.
Proof. intros H w Hw. by apply H. Qed.
Lemma triple_weaken {X} (I I' : coordinator → Prop) (m : step X) (Q Q' : X → coordinator → Prop) :
  triple I' m Q' → (∀ w, I w → I' w) → (∀ x w, Q' x w → Q x w) → triple I m Q.
Proof. intros H HI HQ w Hw. apply HQ, H, HI, Hw. Qed.
Lemma triple_gets {X} (I : coordinator → Prop) (f : coordinator → X) :
  triple I (gets f) (λ x w, I w ∧ x = f w).
Proof. intros w Hw. by split. Qed.
Lemma triple_read {X Y} (I : coordinator → Prop) (f : coordinator → X) (k : X → step Y) Q :
  (∀ x, triple I (k x) Q) → triple I (gets f ≫= k) Q.
Proof. intros H w Hw. by apply H. Qed.
Lemma triple_then {X Y} I J (m : step X) (k : step Y) Q :
  triple I m (λ _, J) → triple J k Q → triple I (m;; k) Q.
Proof. intros Hm Hk. eapply triple_bind; [exact Hm|]. intros x. exact Hk. Qed.
Lemma triple_pure {X} (φ : Prop) (I : coordinator → Prop) (m : step X) Q :
  (φ → triple I m Q) → triple (λ w, I w ∧ φ) m Q.
Proof. intros H w [Hw Hφ]. by apply H. Qed.
Lemma triple_respects {X} (R : coordinator → coordinator → Prop) I (m : step X) :
  (∀ w w', R w w' → I w → I w') → respects R m → triple I m (λ _, I).
Proof. intros HI Hm w. apply HI, Hm. Qed.
End stepping.

(** Follow the structure of a step. *)
Ltac respect_step :=
  match goal with
  | |- respects _ (mret _) => apply respects_ret; apply _
  | |- respects _ (gets _) => apply respects_gets; apply _
  | |- respects _ now => apply respects_gets; apply _
  | |- respects _ (_ ≫= _) => apply respects_bind; [apply _| |intros ?]
  | |- respects _ (for_each _ _) => apply respects_for_each; [apply _|intros ?]
  | |- respects _ (match ?x with _ => _ end) => destruct x
  end.
Ltac respecting := repeat (respect_step || solve [eauto with steps]).

(** ** Quiet steps *)

Section quiet.
Context `{L : Layout} `{P : Ports} {EL : EngineLaws P} (cfg : ProjectionConfig).

(** Jobs of the slot that have run meanwhile. *)
Definition job_ran : relation InFlight :=
  rtc (λ io io', ∃ tmax e, io' = (run_job (pg_compatibility cfg) (pg_protected_bytes cfg) tmax io e).1).

(** A completion that shows nothing of the model; nobody is left waiting. *)
Definition plain_answer (x : ticket_ref * completion) : Prop :=
  match x.2 with
  | Answered (Ok (Answer_view _ | Answer_checkpoint _ | Answer_transfer _)) | Dropped => False
  | _ => True
  end.

Definition live (w : coordinator) : Prop := live_admission (dk_adm (co_desk w)) = true.
Definition fed (w : coordinator) : list Z := dk_fed (co_desk w).

Record quiet (w w' : coordinator) : Prop := {
  q_desk : beside (dk_adm (co_desk w)) (dk_adm (co_desk w'));
  q_fed : fed w' = fed w;
  q_terminal : option_Forall2 (λ t t', seen t' = seen t)
                 (nw_terminal (co_ws w)) (nw_terminal (co_ws w'));
  q_source : nw_source (co_ws w') = nw_source (co_ws w);
  q_io : job_ran (nw_io (co_ws w)) (nw_io (co_ws w'));
  q_done : ∃ l, co_done w' = co_done w ++ l ∧ Forall plain_answer l;
  q_services : co_services w = true → co_services w' = true
}.

Lemma seen_refl (o : option Term) : option_Forall2 (λ t t', seen t' = seen t) o o.
Proof. destruct o; by constructor. Qed.
#[local] Hint Resolve seen_refl : core.

#[export] Instance quiet_PreOrder : PreOrder quiet.
Proof.
  split.
  - intros w. split; try done. exists []. by rewrite app_nil_r.
  - intros a b c [H1 H2 H3 H4 H5 (l1 & H6 & H7) H8] [K1 K2 K3 K4 K5 (l2 & K6 & K7) K8].
    split; [by etrans|congruence| |congruence|by etrans| |auto].
    { destruct H3 as [t t' H|]; inversion K3; subst; constructor. congruence. }
    exists (l1 ++ l2). rewrite K6, H6, app_assoc. split; [done|by apply Forall_app].
Qed.

(** Fields that quiet steps may change freely. *)
Lemma quiet_framed w w' :
  beside (dk_adm (co_desk w)) (dk_adm (co_desk w')) → fed w' = fed w →
  co_ws w' = co_ws w → co_done w' = co_done w → co_services w' = co_services w → quiet w w'.
Proof.
  intros Hd Hf Hw Hn Hs. split; rewrite ?Hw, ?Hs; try done.
  exists []. by rewrite Hn, app_nil_r.
Qed.
Lemma quiet_live w w' : quiet w w' → live w' → live w.
Proof. intros []. by apply beside_live. Qed.
Lemma quiet_processed w w' :
  quiet w w' → processed_of (dk_adm (co_desk w')) = processed_of (dk_adm (co_desk w)).
Proof. intros []. by apply beside_processed. Qed.

Abbreviation quietly := (respects quiet).

Lemma quiet_on_env {X} (f : Env → Env * X) : quietly (on_env f).
Proof. intros w. unfold on_env. destruct (f (co_env w)). by apply quiet_framed. Qed.
Lemma quiet_on_quotas {X} (f : quotas → quotas * X) : quietly (on_quotas f).
Proof. intros w. unfold on_quotas. destruct (f _). by apply quiet_framed. Qed.
Lemma quiet_drop_quotas f : quietly (drop_quotas f).
Proof. apply quiet_on_quotas. Qed.
Lemma quiet_on_journal {X} (f : Journal task → Journal task * X) : quietly (on_journal f).
Proof. intros w. unfold on_journal. destruct (f _). by apply quiet_framed. Qed.
Lemma quiet_notify : quietly notify.
Proof. apply quiet_on_env. Qed.
Lemma quiet_wake : quietly wake.
Proof.
  intros w. unfold wake. destruct (co_handle w); [|reflexivity].
  destruct (handle_wake (co_env w)). by apply quiet_framed.
Qed.
Lemma quiet_desk f :
  (∀ d, beside (dk_adm d) (dk_adm (f d)) ∧ dk_fed (f d) = dk_fed d) →
  quietly (change (λ w, with_desk (f (co_desk w)) w)).
Proof. intros Hf w. destruct (Hf (co_desk w)). by apply quiet_framed. Qed.
Lemma quiet_note a b c x y : quietly (change (λ w,
  with_desk (note_waiters x y (note_tickets a b c (co_desk w))) w)).
Proof. intros w. by apply quiet_framed. Qed.
Lemma quiet_note_tickets a b c : quietly (change (λ w, with_desk (note_tickets a b c (co_desk w)) w)).
Proof. intros w. by apply quiet_framed. Qed.
Lemma quiet_note_waiters a b : quietly (change (λ w, with_desk (note_waiters a b (co_desk w)) w)).
Proof. intros w. by apply quiet_framed. Qed.
Lemma quiet_note_accepted b : quietly (change (λ w, with_desk (note_stream b [] 0 (co_desk w)) w)).
Proof. intros w. apply quiet_framed; try done. unfold fed. simpl. by rewrite app_nil_r. Qed.
Lemma quiet_fail_commands cs : quietly (change (λ w, with_desk (fail_commands cs (co_desk w)) w)).
Proof. intros w. by apply quiet_framed. Qed.
Lemma quiet_reservations f :
  quietly (change (λ w, with_reservations (f w) w)).
Proof. intros w. by apply quiet_framed. Qed.
Lemma quiet_unreclaimed f : quietly (change (λ w, with_unreclaimed (f w) w)).
Proof. intros w. by apply quiet_framed. Qed.
Lemma quiet_status f : quietly (change (λ w, with_status (f w) w)).
Proof. intros w. by apply quiet_framed. Qed.
Lemma quiet_wiring b c : quietly (change (λ w, with_wiring (co_services w) (b w) (c w) w)).
Proof. intros w. by apply quiet_framed. Qed.
Lemma quiet_with_env f : quietly (change (λ w, with_env (f w) w)).
Proof. intros w. by apply quiet_framed. Qed.

Lemma quiet_calls f g : quietly (change (λ w, with_calls (f w) (g w) w)).
Proof. intros w. by apply quiet_framed. Qed.

Lemma quiet_done x :
  plain_answer x → quietly (change (λ w, with_done (co_done w ++ [x]) w)).
Proof.
  intros Hx w. split; try done. exists [x]. split; [done|by constructor].
Qed.

(** The worker's own fields. *)
Lemma quiet_ws f :
  (∀ n, nw_terminal (f n) = nw_terminal n ∧ nw_source (f n) = nw_source n ∧ nw_io (f n) = nw_io n) →
  quietly (on_ws f).
Proof.
  intros Hf w. destruct (Hf (co_ws w)) as (H1 & H2 & H3).
  split; simpl; try done; [by rewrite H1|by rewrite H3|]. exists []. by rewrite app_nil_r.
Qed.

Lemma quiet_answer_drop r : quietly (answer_drop r).
Proof.
  unfold answer_drop, transfer_drop, checkpoint_drop.
  repeat (respect_step || apply quiet_drop_quotas || apply quiet_on_journal).
Qed.
(** A ticket whose wait has been abandoned goes. *)
Lemma quiet_abandoned t w :
  ticket_cancelled t (co_env w) = true → quiet w (abandon_ticket t w).1.
Proof. intros Ht. unfold abandon_ticket, change. simpl. rewrite Ht. by apply quiet_done. Qed.
Lemma quiet_gone {X} t (m k : step X) :
  quietly m → quietly k →
  quietly (gone ← gets (λ w, ticket_cancelled t (co_env w));
           if (gone : bool) then abandon_ticket t;; m else k).
Proof.
  intros Hm Hk w. unfold mbind at 1, step_bind at 1, gets.
  destruct (ticket_cancelled t (co_env w)) eqn:Ht; [|apply Hk].
  etrans; [by apply (quiet_abandoned t)|apply Hm].
Qed.
Lemma quiet_complete t r : plain_answer (t, Answered r) → quietly (complete_ticket t r).
Proof. intros Hr. apply quiet_gone; [apply quiet_answer_drop|by apply quiet_done]. Qed.
Lemma quiet_complete_err t e : quietly (complete_ticket t (Err e)).
Proof. by apply quiet_complete. Qed.
Lemma quiet_fail_command e c : quietly (fail_command e c).
Proof.
  unfold fail_command. respecting; [apply quiet_complete_err|apply quiet_fail_commands|].
  apply quiet_notify.
Qed.
Lemma quiet_notify_if : quietly notify_if_serving.
Proof. unfold notify_if_serving. respecting. apply quiet_notify. Qed.

(** *** Lock sections and calls *)

Section entered.
Context (enter : step ()) (Henter : quietly enter).

Lemma quiet_locked {X} (f : Admission → Admission * X) : tame f → quietly (locked enter f).
Proof.
  intros Hf. apply respects_guarded; [apply _|done|]. intros w. specialize (Hf (dk_adm (co_desk w))).
  destruct (f (dk_adm (co_desk w))) as [a x]. by apply quiet_framed.
Qed.
Lemma quiet_guarded {X} (body : step X) : quietly body → quietly (guarded enter body).
Proof. by apply respects_guarded; [apply _|]. Qed.
Lemma quiet_read_status : quietly (status enter).
Proof. apply quiet_locked, tame_read. Qed.
Lemma quiet_residency : quietly (residency enter).
Proof. unfold residency. respecting. apply quiet_read_status. Qed.
Lemma quiet_fail e : quietly (co_fail enter e).
Proof.
  unfold co_fail. respecting; [apply quiet_locked, tame_fail|apply quiet_on_journal
    |apply quiet_fail_command|apply quiet_notify_if].
Qed.
Lemma quiet_take take : takes take → quietly (take_with enter take).
Proof.
  intros Ht. apply quiet_guarded. intros w. destruct (dk_held (co_desk w)) eqn:Hh; [reflexivity|].
  apply quiet_framed; try done; simpl; unfold worker_take; rewrite Hh;
    pose proof (tame_takes _ Ht (dk_adm (co_desk w))) as H; by destruct (take _).
Qed.
Lemma quiet_requeue c : quietly (co_requeue enter c).
Proof.
  unfold co_requeue. respecting; [|apply quiet_fail_command]. apply quiet_guarded. intros w.
  pose proof (tame_requeue c (dk_adm (co_desk w))) as H. destruct (requeue c _) as [a b].
  by apply quiet_framed.
Qed.

End entered.

(** *** Calls, section by section *)

Lemma quiet_admit_with {X} (f : quotas → Admission → quotas * Admission * X) :
  (∀ qs a, beside a (f qs a).1.2) → quietly (admit_with f).
Proof.
  intros Hf w. unfold admit_with. cbv zeta.
  specialize (Hf (dk_quotas (co_desk w)) (dk_adm (co_desk w))).
  destruct (f _ _) as [[qs a] x]. by apply quiet_framed.
Qed.
Lemma queue_admit_beside {X} build (x : X) a : beside a (queue_admit build x a).1.2.
Proof.
  unfold queue_admit. destruct (check_accepting a); [|done].
  destruct (admitting_run build x a) as [[x' a'] [c|e]] eqn:E; apply admitting_run_beside in E; done.
Qed.
Lemma admit_output_beside {X} accept (x : X) a : beside a (queue_admit_output accept x a).1.2.
Proof.
  unfold queue_admit_output.
  destruct (admitting_run accept x a) as [[x' a'] []] eqn:E; apply admitting_run_beside in E; done.
Qed.
Lemma quiet_at_lock {X} (f : Admission → Admission * X) : tame f → quietly (at_lock f).
Proof. apply quiet_locked. apply respects_ret. apply _. Qed.
Lemma quiet_exited : quietly notify_process_exited.
Proof.
  intros w. unfold notify_process_exited.
  pose proof (tame_process_exit (dk_adm (co_desk w))) as H.
  destruct (record_process_exit _) as [a q]. apply quiet_framed; try done.
  unfold fed. simpl. by rewrite app_nil_r.
Qed.
Lemma quiet_answer_close t o : quietly (answer_close t o).
Proof.
  unfold answer_close. respecting; [apply quiet_complete; by destruct o|apply quiet_note_waiters].
Qed.
#[local] Hint Resolve quiet_on_env quiet_on_quotas quiet_drop_quotas quiet_on_journal quiet_notify
  quiet_wake quiet_fail_command quiet_notify_if quiet_at_lock quiet_note_tickets quiet_note_waiters
  quiet_note_accepted quiet_reservations quiet_calls quiet_exited quiet_answer_close
  quiet_with_env : steps.
Lemma quiet_section s : quietly (run_section cfg s).
Proof.
  destruct s; simpl;
    unfold co_stage_output, admit_output, co_resize, co_begin_transfer, reserve_slot, stage_control,
      co_admit, refuse, call_wake, call_fail, end_journal, co_close, reserve_request_slot, keep_slot,
      close_request, close_journal, close_wake, close_check, notify_output_drained, drained_wake,
      drained_check; respecting.
  - apply quiet_admit_with. intros. apply admit_output_beside.
  - apply quiet_admit_with. intros. apply queue_admit_beside.
  - apply quiet_residency, respects_ret. apply _.
Qed.
Lemma quiet_resume i : quietly (resume_call cfg i).
Proof. unfold resume_call, set_call. respecting. apply quiet_section. Qed.

(** A section leaves the other calls in progress alone, the workspace, the
    collaborators and the ledger of unreclaimed storage. *)
Record steady (w w' : coordinator) : Prop := {
  st_calls : co_calls w' = co_calls w;
  st_ws : co_ws w' = co_ws w;
  st_unreclaimed : co_unreclaimed w' = co_unreclaimed w;
  st_services : co_services w' = co_services w
}.
#[export] Instance steady_PreOrder : PreOrder steady.
Proof. split; [by intros w|]. intros a b c [] []. split; congruence. Qed.
Lemma steady_change f : (∀ w, steady w (f w)) → respects steady (change f).
Proof. intros Hf w. apply Hf. Qed.
Lemma steady_env {X} (f : Env → Env * X) : respects steady (on_env f).
Proof. intros w. unfold on_env. by destruct (f _). Qed.
Lemma steady_quotas {X} (f : quotas → quotas * X) : respects steady (on_quotas f).
Proof. intros w. unfold on_quotas. by destruct (f _). Qed.
Lemma steady_journal {X} (f : Journal task → Journal task * X) : respects steady (on_journal f).
Proof. intros w. unfold on_journal. by destruct (f _). Qed.
Lemma steady_wake : respects steady wake.
Proof. intros w. unfold wake. destruct (co_handle w); [|done]. by destruct (handle_wake _). Qed.
Lemma steady_at_lock {X} (f : Admission → Admission * X) : respects steady (at_lock f).
Proof.
  intros w. unfold at_lock, locked, guarded, mbind, step_bind. simpl.
  by destruct (f (dk_adm (co_desk w))).
Qed.
Lemma steady_admit {X} (f : quotas → Admission → quotas * Admission * X) :
  respects steady (admit_with f).
Proof. intros w. unfold admit_with. by destruct (f _ _) as [[qs a] x]. Qed.
Lemma steady_complete t r : respects steady (complete_ticket t r).
Proof.
  unfold complete_ticket, abandon_ticket, answer_drop, transfer_drop, checkpoint_drop, drop_quotas.
  respecting; solve [by apply steady_change|apply steady_quotas|apply steady_journal].
Qed.
#[local] Hint Extern 1 (respects steady (change _)) => by apply steady_change : steps.
#[local] Hint Extern 1 (respects steady notify) => apply steady_env : steps.
#[local] Hint Extern 1 (respects steady (drop_quotas _)) => apply steady_quotas : steps.
#[local] Hint Resolve steady_env steady_quotas steady_journal steady_wake steady_at_lock
  steady_admit steady_complete : steps.
Lemma steady_section s : respects steady (run_section cfg s).
Proof.
  destruct s; simpl;
    unfold co_stage_output, admit_output, co_resize, co_begin_transfer, reserve_slot, stage_control,
      co_admit, refuse, call_wake, call_fail, end_journal, co_close, reserve_request_slot, keep_slot,
      close_request, answer_close, close_journal, close_wake, close_check, notify_output_drained,
      drained_wake, drained_check, fail_command, notify_if_serving; respecting.
  - intros w. unfold notify_process_exited. by destruct (record_process_exit _) as [a [|]].
  - apply (steady_at_lock (λ a, (a, ad_residency a))).
Qed.

Lemma quiet_job : quietly (change (λ w,
  let (io, e) := run_job (pg_compatibility cfg) (pg_protected_bytes cfg)
                   (tc_checkpoint_bytes (nw_config (co_ws w))) (nw_io (co_ws w)) (co_env w) in
  with_ws (ws_io io (co_ws w)) (with_env e w))).
Proof.
  intros w. unfold change. simpl.
  destruct (run_job _ _ _ _ _) as [io e] eqn:E. split; simpl; try done.
  - apply rtc_once. exists (tc_checkpoint_bytes (nw_config (co_ws w))), (co_env w). by rewrite E.
  - exists []. by rewrite app_nil_r.
Qed.

Lemma quiet_call call : quietly (run_call cfg call).
Proof.
  destruct call; unfold run_call, begin_call; respecting; [apply quiet_resume|apply quiet_job].
Qed.

(** Whatever callers do before the worker takes the lock. *)
Lemma quiet_interfere : quietly (interfere cfg).
Proof.
  intros w. unfold interfere. destruct (co_script w) as [|calls rest]; [reflexivity|].
  trans (with_script rest w); [by apply quiet_framed|].
  apply respects_for_each; [apply _|]. apply quiet_call.
Qed.
End quiet.

#[export] Hint Resolve quiet_on_env quiet_on_quotas quiet_drop_quotas quiet_on_journal quiet_notify
  quiet_wake quiet_answer_drop quiet_complete_err quiet_fail_command quiet_notify_if
  quiet_interfere quiet_locked quiet_guarded quiet_read_status quiet_residency quiet_fail
  quiet_take quiet_requeue quiet_reservations quiet_unreclaimed quiet_status quiet_wiring
  quiet_with_env quiet_fail_commands quiet_note_tickets quiet_note_waiters : steps.

(** ** Quiet work of the worker *)

Section quiet_work.
Context `{L : Layout} `{P : Ports} {EL : EngineLaws P} `{A : Allocation} (cfg : ProjectionConfig).
Abbreviation quietly := (respects (quiet cfg)).

Lemma quiet_entered {X} (body : step X) : quietly body → quietly (guarded (interfere cfg) body).
Proof. apply quiet_guarded, quiet_interfere. Qed.
Lemma quiet_lock {X} (f : Admission → Admission * X) : tame f → quietly (locked (interfere cfg) f).
Proof. apply quiet_locked, quiet_interfere. Qed.
Lemma quiet_taking take : takes take → quietly (take_with (interfere cfg) take).
Proof. apply quiet_take, quiet_interfere. Qed.
#[local] Hint Resolve quiet_lock quiet_taking : steps.

Lemma quiet_on_ws f :
  (∀ n, nw_terminal (f n) = nw_terminal n ∧ nw_source (f n) = nw_source n ∧ nw_io (f n) = nw_io n) →
  quietly (on_ws f).
Proof. apply quiet_ws. Qed.
Ltac ws_frame := apply quiet_on_ws; by intros.
Ltac working :=
  repeat (respect_step || solve [eauto with steps] || ws_frame).

Lemma quiet_consume : quietly consume.
Proof.
  intros w. unfold consume, change. destruct (dk_held (co_desk w)); [|reflexivity].
  by apply quiet_framed; [| unfold fed; simpl; rewrite ?app_nil_r | | |].
Qed.
Lemma quiet_complete_plain t r : plain_answer (t, Answered r) → quietly (complete_ticket t r).
Proof. apply quiet_complete. Qed.
Lemma quiet_staging_drop s : quietly (staging_drop s).
Proof. unfold staging_drop. working. Qed.
Lemma quiet_permit_drop r : quietly (permit_drop r).
Proof. unfold permit_drop. working. Qed.
Lemma quiet_fail_request r e : quietly (fail_request r e).
Proof. unfold fail_request, permit_drop. working. Qed.
Lemma quiet_cancelled t : quietly (cancelled_ticket t).
Proof. unfold cancelled_ticket. working. Qed.
Lemma quiet_request_cancelled r : quietly (request_cancelled r).
Proof. apply quiet_cancelled. Qed.
#[local] Hint Resolve quiet_consume quiet_staging_drop quiet_permit_drop
  quiet_fail_request quiet_cancelled quiet_request_cancelled : steps.

(** A call of the engine that the model's stream survives. *)
Lemma quiet_native_call {X} (work : Term → Env → Env * Term * option (result TerminalError X)) :
  (∀ t e, seen (work t e).1.2 = seen t) → quietly (native_call cfg work).
Proof.
  intros Hw w. unfold native_call. unfold mbind at 1, step_bind at 1, gets.
  destruct (nw_terminal (co_ws w)) as [t|] eqn:Et; [|reflexivity].
  unfold mbind at 1, step_bind at 1. specialize (Hw t (co_env w)).
  destruct (work t (co_env w)) as [[e t'] r]. simpl in Hw.
  match goal with |- quiet _ _ (?m ?w1).1 => trans w1; [|enough (quietly m) as Hm by apply Hm] end.
  - split; simpl; try done; [rewrite Et; by constructor|]. exists []. by rewrite app_nil_r.
  - working.
Qed.
Lemma quiet_term_resize s g : quietly (native_call cfg (term_resize s g)).
Proof.
  apply quiet_native_call. intros t e. destruct (term_resize s g t e) as [[e' t'] r] eqn:E.
  exact (resize_seen _ _ _ _ _ _ _ E).
Qed.
Lemma quiet_term_view : quietly (native_call cfg term_view).
Proof.
  apply quiet_native_call. intros t e. destruct (term_view t e) as [[e' t'] r] eqn:E.
  exact (view_seen _ _ _ _ _ E).
Qed.
Lemma quiet_term_progress : quietly (native_call cfg term_progress).
Proof.
  apply quiet_native_call. intros t e. destruct (term_progress t e) as [[e' t'] r] eqn:E.
  exact (progress_seen _ _ _ _ _ E).
Qed.
Lemma quiet_term_history : quietly (native_call cfg term_history_step).
Proof.
  apply quiet_native_call. intros t e. destruct (term_history_step t e) as [[e' t'] r] eqn:E.
  exact (history_seen _ _ _ _ _ E).
Qed.
Lemma quiet_term_checkpoint d : quietly (native_call cfg (term_checkpoint d)).
Proof.
  apply quiet_native_call. intros t e. destruct (term_checkpoint d t e) as [[e' t'] r] eqn:E.
  exact (proj1 (checkpoint_seen _ _ _ _ _ _ E)).
Qed.
#[local] Hint Resolve quiet_term_resize quiet_term_view quiet_term_progress quiet_term_history
  quiet_term_checkpoint : steps.

(** *** Program status and replies *)

Lemma quiet_prepare_leases a b c d e p m : quietly (prepare_leases cfg a b c d e p m).
Proof. unfold prepare_leases, view_lease. working. Qed.
Lemma quiet_prepare_status b n : quietly (prepare_status cfg b n).
Proof. unfold prepare_status, view_lease. working; apply quiet_prepare_leases. Qed.
Lemma quiet_prepared_drop p : quietly (prepared_drop p).
Proof. unfold prepared_drop. working. Qed.
Lemma quiet_commit_status p m : quietly (commit_status p m).
Proof. unfold commit_status. working. Qed.
Lemma quiet_exit_store d : quietly (exit_store d).
Proof. unfold exit_store. working. Qed.
#[local] Hint Resolve quiet_exit_store : steps.
Lemma quiet_program_exit : quietly (program_exit cfg).
Proof. unfold program_exit, apply_program_exit. working. Qed.
Lemma quiet_finish_drain : quietly finish_program_drain.
Proof. unfold finish_program_drain. working. Qed.
Lemma quiet_clear_status : quietly clear_program_status.
Proof. unfold clear_program_status. working. Qed.
#[local] Hint Resolve quiet_prepare_status quiet_prepared_drop quiet_commit_status
  quiet_program_exit quiet_finish_drain quiet_clear_status : steps.

Lemma quiet_start_reply r : quietly (start_reply cfg r).
Proof. unfold start_reply. working. Qed.
Lemma quiet_poll_reply : quietly (poll_reply cfg).
Proof. unfold poll_reply. working; apply quiet_start_reply. Qed.
Lemma quiet_resize_model r os : quietly (resize_model cfg r os).
Proof. unfold resize_model. working. Qed.
Lemma quiet_resize_record r os m : quietly (resize_record cfg r os m).
Proof. unfold resize_record. working. Qed.
Lemma quiet_poll_resizing : quietly (poll_resizing cfg).
Proof.
  unfold poll_resizing. working; [apply quiet_resize_model|apply quiet_resize_record|].
  by apply quiet_complete_plain.
Qed.
Lemma quiet_poll : quietly (poll_inflight_operations cfg).
Proof. unfold poll_inflight_operations. working; [apply quiet_poll_reply|apply quiet_poll_resizing]. Qed.
Lemma quiet_closing_resize : quietly closing_resize.
Proof. unfold closing_resize. working. by apply quiet_complete_plain. Qed.
Lemma quiet_descriptor : quietly (descriptor cfg).
Proof. unfold descriptor. working. Qed.
#[local] Hint Resolve quiet_poll quiet_closing_resize quiet_descriptor : steps.

Lemma quiet_take_checkpoint : quietly (take_checkpoint cfg).
Proof. unfold take_checkpoint. working. Qed.
#[local] Hint Resolve quiet_take_checkpoint : steps.
Lemma quiet_snapshot_result : quietly (snapshot_result cfg).
Proof. unfold snapshot_result. working. Qed.
Lemma quiet_view_result : quietly (view_result cfg).
Proof. unfold view_result. working. Qed.
Lemma quiet_apply_resize s t st : quietly (apply_resize cfg s t st).
Proof. unfold apply_resize. working. by apply quiet_complete_plain. Qed.
Lemma quiet_open_transfer p c : quietly (open_transfer p c).
Proof. unfold open_transfer, checkpoint_drop, transfer_drop, checkpoint_drop. working. Qed.

(** *** Blocking I/O *)

Lemma quiet_told f : tame (λ a, (f a, tt)) → quietly (told cfg f).
Proof. apply quiet_lock. Qed.
#[local] Hint Resolve quiet_told : steps.
Lemma quiet_fail_taken e c : quietly (fail_taken e c).
Proof. unfold fail_taken. working. Qed.
Lemma quiet_acquire_memory : quietly (acquire_memory cfg).
Proof. unfold acquire_memory. working. Qed.
Lemma quiet_acquire_disk : quietly (acquire_disk cfg).
Proof. unfold acquire_disk. working. Qed.
Lemma quiet_retire_source s : quietly (retire_source s).
Proof. unfold retire_source. working. Qed.
Lemma quiet_restore_memory m : quietly (set_restore_memory m).
Proof. unfold set_restore_memory. working. Qed.
Lemma quiet_record_unreclaimed s : quietly (record_unreclaimed s).
Proof. unfold record_unreclaimed. working. Qed.
Lemma quiet_absorb s : quietly (absorb_unreclaimed s).
Proof. unfold absorb_unreclaimed. working. Qed.
Lemma quiet_park_failed e : quietly (park_failed_now cfg e).
Proof. unfold park_failed_now. working. Qed.
#[local] Hint Resolve quiet_fail_taken quiet_acquire_memory
  quiet_acquire_disk quiet_retire_source quiet_restore_memory quiet_record_unreclaimed
  quiet_absorb quiet_park_failed : steps.
Lemma quiet_prepare_park : quietly (prepare_park cfg).
Proof. unfold prepare_park. working. Qed.
Lemma quiet_restore_terminal r : quietly (restore_terminal cfg r).
Proof. unfold restore_terminal. working. Qed.
Lemma quiet_restored_progress t : quietly (restored_progress cfg t).
Proof.
  unfold restored_progress. apply respects_bind; [apply _| |intros []; working].
  intros w. destruct (term_progress t (co_env w)) as [[e t'] r]. by apply quiet_framed.
Qed.
Lemma quiet_finish_deletion a r : quietly (finish_deletion cfg a r).
Proof.
  unfold finish_deletion. apply respects_bind; [apply _| |intros; working].
  intros w. destruct (finish_delete _ _ _ _) as [[rp qs] x]. split; simpl; try (done || apply seen_refl).
  exists []. by rewrite app_nil_r.
Qed.

(** *** The worker *)

Lemma quiet_take_work : quietly (take_checkpoint_work cfg).
Proof.
  unfold take_checkpoint_work. apply quiet_entered. intros w. cbv zeta.
  pose proof (tame_checkpoint_work (dk_adm (co_desk w))) as H.
  destruct (take_checkpoint_if_any_work _) as [a [[c|]|]]; by apply quiet_framed.
Qed.
Lemma quiet_seal : quietly (seal_journal_if_drained cfg).
Proof. unfold seal_journal_if_drained. working. Qed.
Lemma quiet_drop_reply : quietly drop_reply.
Proof. unfold drop_reply. working. Qed.
Lemma quiet_complete_close ws e : quietly (complete_close ws e).
Proof. unfold complete_close. working. apply quiet_complete_plain. by destruct e. Qed.
(** The projection is closed, before the close waits are answered. *)
Lemma quiet_finish_close e : quietly (guarded (interfere cfg) (λ w,
    let '(a, (waiters, failed)) := finish_close e (dk_adm (co_desk w)) in
    (with_desk (note_waiters [] waiters (put_adm a (co_desk w))) w, (waiters, failed)))).
Proof.
  apply quiet_entered. intros w. pose proof (tame_finish_close e (dk_adm (co_desk w))) as H.
  destruct (finish_close e _) as [a [ws er]]. by apply quiet_framed.
Qed.
Lemma quiet_surrender : quietly surrender_sources.
Proof.
  unfold surrender_sources. apply respects_bind; [apply _|working|]. intros n.
  destruct (surrender _) as [r s]. working.
Qed.
Lemma quiet_discard_operations : quietly discard_operations.
Proof. unfold discard_operations. working; apply quiet_drop_reply. Qed.
Lemma quiet_bind_process : quietly (bind_process cfg).
Proof. unfold bind_process. working. Qed.
End quiet_work.

#[export] Hint Resolve quiet_lock quiet_taking quiet_consume quiet_staging_drop
  quiet_permit_drop quiet_fail_request quiet_cancelled quiet_request_cancelled
  quiet_term_resize quiet_term_view quiet_term_progress quiet_term_history quiet_term_checkpoint
  quiet_prepare_status quiet_prepared_drop quiet_commit_status quiet_exit_store
  quiet_program_exit quiet_finish_drain quiet_clear_status quiet_poll quiet_closing_resize
  quiet_descriptor quiet_take_checkpoint quiet_snapshot_result quiet_view_result quiet_apply_resize
  quiet_open_transfer quiet_told quiet_fail_taken
  quiet_acquire_memory quiet_acquire_disk quiet_retire_source quiet_restore_memory
  quiet_record_unreclaimed quiet_absorb quiet_park_failed quiet_prepare_park
  quiet_restore_terminal quiet_restored_progress quiet_finish_deletion quiet_take_work quiet_seal
  quiet_drop_reply quiet_complete_close quiet_finish_close
  quiet_surrender quiet_discard_operations quiet_bind_process : steps.
