(* ===== verification/Commits.v ===== *)
(** * What becomes of a commit

    A park hands a checkpoint to the store on a worker thread
    (crates/application/src/projection/blocking.rs) and applies the outcome in a
    later run (io.rs).  What the store documents is the class [StoreLaws]; the
    property follows one commit from the job to the source, the reaper, the
    ledger of unreclaimed storage and the quotas. *)

From S2P Require Import Prelude Identity Process Terminal Checkpoint Projection Session View.
From S2P Require Import Policy Transfer Atomic Quota Journal StatusReport StatusScanner StatusStore.
From S2P Require Import Diagnostics Budgets Queue Admission Ports Jobs Coordinator Output Native Io.
From S2P Require Import Worker Stepping.

(** ** What the store promises (checkpoint/mod.rs, [ICheckpointStore])

    An object can be read when the store gives it out under some bound.
    Protecting a checkpoint does not touch the store, and a commit that fails
    leaves nothing readable behind. *)
Definition readable `{P : Ports} (r : CheckpointRef) (e : Env) : Prop :=
  ∃ n p, (store_read r n e).2 = Some (Ok p).
Class StoreLaws (P : Ports) := {
  protect_aside k c e e' x r :
    protector_protect k c e = (e', x) → readable r e' → readable r e;
  failed_commit_clean p e e' err r :
    store_commit p e = (e', Some (Err err)) → readable r e' → readable r e
}.
#[export] Instance demo_store_laws : StoreLaws demo_ports.
Proof.
  split; simpl.
  - by intros k c e e' x r [= <- _].
  - intros p e e' err r. destruct (_ <=? _); [|done]. by intros [= <- _].
Defined.

(** ** The job *)

Section job.
Context `{P : Ports} {EL : EngineLaws P} {SL : StoreLaws P}.

(** The store took exactly the ciphertext of the checkpoint, under its key. *)
Definition committed (key : CheckpointKey) (c : TerminalCheckpoint) (pmax : Z) (e : Env)
    (reference : CheckpointRef) : Prop :=
  cr_key reference = key
  ∧ ∃ p e1, protector_protect key c e = (e1, Some (Ok p)) ∧ pc_key p = key
            ∧ cr_bytes reference = len (pc_ciphertext p) ∧ 0 < len (pc_ciphertext p) <= pmax
            ∧ (store_commit p e1).2 = Some (Ok reference).
(** The store acknowledged something else. *)
Definition disputed (key : CheckpointKey) (c : TerminalCheckpoint) (e e' : Env) : Prop :=
  ∃ e1 p reference, protector_protect key c e = (e1, Some (Ok p))
    ∧ store_commit p e1 = (e', Some (Ok reference))
    ∧ (cr_key reference ≠ key ∨ cr_bytes reference ≠ len (pc_ciphertext p)).

Lemma commit_job_committed key c d pmax e e' reference :
  commit_job key c d pmax e = (e', Some (Ok (Commit_Published reference))) →
  committed key c pmax e reference.
Proof.
  intros (Hk & p & e1 & Hp & Hpk & _ & Hl & Hb & Hc)%commit_job_Published.
  split; [done|]. exists p, e1. by rewrite Hc.
Qed.
Lemma commit_job_rejected key c d pmax e e' err reference :
  commit_job key c d pmax e = (e', Some (Ok (Commit_Rejected err))) →
  readable reference e' → readable reference e.
Proof.
  unfold commit_job. destruct (protector_protect key c e) as [e1 [[p|err']|]] eqn:Ep; [| |done].
  - match goal with |- context [if ?b then _ else _] => destruct b end.
    { intros [= <- _]. by apply (protect_aside _ _ _ _ _ _ Ep). }
    destruct (store_commit p e1) as [e2 [[r|err']|]] eqn:Ec; [| |done].
    { by match goal with |- context [if ?b then _ else _] => destruct b end. }
    intros [= <- _] Hr. apply (protect_aside _ _ _ _ _ _ Ep).
    by apply (failed_commit_clean _ _ _ _ _ Ec).
  - intros [= <- _]. by apply (protect_aside _ _ _ _ _ _ Ep).
Qed.
Lemma commit_job_disputed key c d pmax e e' err :
  commit_job key c d pmax e = (e', Some (Ok (Commit_Uncertain err))) → disputed key c e e'.
Proof.
  unfold commit_job. destruct (protector_protect key c e) as [e1 [[p|err']|]] eqn:Ep; try done.
  match goal with |- context [if ?b then _ else _] => destruct b end; [done|].
  destruct (store_commit p e1) as [e2 [[r|err']|]] eqn:Ec; try done.
  match goal with |- context [if ?b then _ else _] => destruct b eqn:Eb end; [|done].
  intros [= <- _]. exists e1, p, r. split; [done|]. split; [done|].
  apply orb_true_iff in Eb as [Eb|Eb]; to_props; auto.
Qed.
(** A commit never ends as an error but by a panic. *)
Lemma commit_job_panics key c d pmax e e' r err :
  commit_job key c d pmax e = (e', r) → job_result r = Err err →
  r = None ∧ err = ProjectionError_Worker.
Proof. unfold commit_job. intros E. repeat case_match; simplify_eq/=; by try intros [= <-]. Qed.
End job.

(** ** Applying the outcome *)

Section applying.
Context `{L : Layout} `{P : Ports} `{A : Allocation} (cfg : ProjectionConfig).

(** What callers leave alone: the workspace but for the slot, and the ledger. *)
Record aside (w w' : coordinator) : Prop := {
  as_ws : ws_io None (co_ws w') = ws_io None (co_ws w);
  as_unreclaimed : co_unreclaimed w' = co_unreclaimed w
}.
#[export] Instance aside_PreOrder : PreOrder aside.
Proof. split; [by intros w|]. intros a b c [] []. split; congruence. Qed.
Lemma aside_steady w w' : steady w w' → aside w w'.
Proof. intros []. split; congruence. Qed.
Lemma aside_change f : (∀ w, aside w (f w)) → respects aside (change f).
Proof. intros Hf w. apply Hf. Qed.
Lemma aside_journal {X} (f : Journal task → Journal task * X) : respects aside (on_journal f).
Proof. intros w. unfold on_journal. by destruct (f _). Qed.
Lemma aside_quotas {X} (f : quotas → quotas * X) : respects aside (on_quotas f).
Proof. intros w. unfold on_quotas. by destruct (f _). Qed.
Lemma aside_section s : respects aside (run_section cfg s).
Proof. intros w. apply aside_steady, steady_section. Qed.
Lemma aside_job : respects aside (change (λ w,
  let (io, e) := run_job (pg_compatibility cfg) (pg_protected_bytes cfg)
                   (tc_checkpoint_bytes (nw_config (co_ws w))) (nw_io (co_ws w)) (co_env w) in
  with_ws (ws_io io (co_ws w)) (with_env e w))).
Proof. intros w. unfold change. simpl. by destruct (run_job _ _ _ _ _). Qed.
Lemma aside_call call : respects aside (run_call cfg call).
Proof.
  destruct call; unfold run_call, begin_call, resume_call, drop_quotas; respecting;
    solve [apply aside_section|apply aside_journal|apply aside_quotas|apply aside_job
          |by apply aside_change].
Qed.
Lemma aside_interfere : respects aside (interfere cfg).
Proof.
  intros w. unfold interfere. destruct (co_script w) as [|calls rest]; [reflexivity|].
  trans (with_script rest w); [done|]. apply respects_for_each; [apply _|]. apply aside_call.
Qed.

(** The books of storage while the outcome is applied: the workspace but for the
    slot, the ledger and, when no caller acts meanwhile, the quotas. *)
Section tracking.
Context (alone : Prop).
Record tracks (n : NativeWorkspace) (us : list UnreclaimedSource) (qs : quotas) (w : coordinator)
    : Prop := {
  tr_ws : ws_io None (co_ws w) = ws_io None n;
  tr_unreclaimed : co_unreclaimed w = us;
  tr_quotas : alone → co_script w = [] ∧ dk_quotas (co_desk w) = qs
}.

Lemma track_interfere n us qs : triple (tracks n us qs) (interfere cfg) (λ _, tracks n us qs).
Proof.
  intros w [Hn Hu Hq]. destruct (aside_interfere w) as [Hw Hl].
  split; [congruence..|]. intros Ha. destruct (Hq Ha) as [Hs Hqs]. unfold interfere. by rewrite Hs.
Qed.
Lemma track_locked n us qs {X} (f : Admission → Admission * X) :
  triple (tracks n us qs) (locked (interfere cfg) f) (λ _, tracks n us qs).
Proof.
  apply (triple_then _ (tracks n us qs)); [apply track_interfere|]. intros w [Hn Hu Hq].
  by destruct (f (dk_adm (co_desk w))).
Qed.
Lemma track_drop n us qs f :
  triple (tracks n us qs) (drop_quotas f) (λ _, tracks n us (f qs)).
Proof.
  intros w [Hn Hu Hq]. split; [done..|]. intros Ha. destruct (Hq Ha) as [Hs Hqs].
  unfold drop_quotas, on_quotas. simpl. by rewrite Hqs.
Qed.
Lemma track_ws n us qs f :
  (∀ n, ws_io None (f n) = f (ws_io None n)) →
  triple (tracks n us qs) (on_ws f) (λ _, tracks (f n) us qs).
Proof. intros Hf w [Hn Hu Hq]. split; [|done..]. simpl. by rewrite Hf, Hn, Hf. Qed.
Lemma track_park_failed n us qs error :
  triple (tracks n us qs) (park_failed_now cfg error) (λ _, tracks n us qs).
Proof. unfold park_failed_now, told. apply triple_read. intros time. apply track_locked. Qed.
(** Fields of the workspace that the slot is not part of. *)
Lemma track_read {X Y} n us qs (f : NativeWorkspace → X) (k : X → step Y) Q :
  (∀ n, f (ws_io None n) = f n) → triple (tracks n us qs) (k (f n)) Q →
  triple (tracks n us qs) (gets (λ w, f (co_ws w)) ≫= k) Q.
Proof.
  intros Hf Hk w Hw. unfold gets, mbind, step_bind.
  rewrite <-(Hf (co_ws w)), (tr_ws _ _ _ _ Hw), Hf. by apply Hk.
Qed.

Definition source_drop (s : option CommittedSource) (qs : quotas) : quotas :=
  match s with Some s => DiskLease_drop (cs_disk s) qs | None => qs end.
Definition committed_source (attempt : ParkAttempt) (disk : DiskLease) (reference : CheckpointRef)
    : CommittedSource :=
  {| cs_reference := reference; cs_descriptor := attempt_descriptor (pg_compatibility cfg) attempt;
     cs_disk := disk |}.

Lemma track_terminal n us qs t l :
  triple (tracks n us qs) (set_terminal t l)
    (λ _, tracks (ws_terminal t l n) us (drop_opt (nw_resident n) qs)).
Proof.
  unfold set_terminal. apply (track_read n us qs nw_resident); [done|].
  eapply triple_then; [by apply track_ws|apply track_drop].
Qed.
Lemma track_source n us qs s :
  triple (tracks n us qs) (set_source s)
    (λ _, tracks (ws_source (Some s) (nw_reaper n) n) us (source_drop (nw_source n) qs)).
Proof.
  unfold set_source. apply (track_read n us qs nw_source); [done|].
  eapply triple_then; [by apply track_ws|apply track_drop].
Qed.

(** The outcome, where it is kept, and what it gives back. *)
Lemma track_published n us qs attempt disk reference :
  let s := committed_source attempt disk reference in
  triple (tracks n us qs) (finish_commit cfg attempt disk (Ok (Commit_Published reference)))
    (λ _ w, tracks (ws_source (Some s) (nw_reaper n) (ws_terminal None None n)) us
              (source_drop (nw_source n) (drop_opt (nw_resident n) qs)) w
            ∨ tracks (ws_source (nw_source n) (retire s (nw_reaper n)) n) us qs w).
Proof.
  intros s. unfold finish_commit. eapply triple_bind; [apply track_locked|]. intros [|].
  - eapply triple_weaken; [eapply triple_then; [apply track_terminal|apply track_source]|done|].
    intros x w Hw. by left.
  - eapply triple_weaken; [by apply track_ws|done|]. intros x w Hw. by right.
Qed.
Lemma track_rejected n us qs attempt disk error :
  triple (tracks n us qs) (finish_commit cfg attempt disk (Ok (Commit_Rejected error)))
    (λ _, tracks n us (DiskLease_drop disk qs)).
Proof. eapply triple_then; [apply track_park_failed|apply track_drop]. Qed.
Lemma track_uncertain n us qs attempt disk r error :
  r = Ok (Commit_Uncertain error) ∨ r = Err error →
  triple (tracks n us qs) (finish_commit cfg attempt disk r)
    (λ _, tracks n (us ++ [from_uncertain_park (pg_compatibility cfg) attempt disk]) qs).
Proof.
  intros Hr. unfold finish_commit, told.
  assert (triple (tracks n us qs)
    (record_unreclaimed (from_uncertain_park (pg_compatibility cfg) attempt disk);;
     time ← now; locked (interfere cfg) (λ a, (park_outcome_uncertain error time a, tt)))
    (λ _, tracks n (us ++ [from_uncertain_park (pg_compatibility cfg) attempt disk]) qs)) as H;
    [|by destruct Hr as [-> | ->]].
  apply (triple_then _ (tracks n (us ++ [from_uncertain_park (pg_compatibility cfg) attempt disk]) qs)).
  - intros w [Hn Hu Hq]. split; [done| |done]. simpl. by rewrite Hu.
  - apply triple_read. intros time. apply track_locked.
Qed.

(** A finished commit is applied, then its memory is given back. *)
Lemma track_commit (Q : coordinator → Prop) w attempt disk memory c r :
  co_services w = true →
  nw_io (co_ws w) = Some (Pending_Commit attempt disk memory c (Some r)) →
  (alone → co_script w = []) →
  triple (tracks (co_ws w) (co_unreclaimed w) (dk_quotas (co_desk w)))
    (finish_commit cfg attempt disk r;; drop_quotas (IoMemory_drop memory)) (λ _, Q) →
  Q (finish_io cfg w).1.
Proof.
  intros Hs Hio Ha Hf. unfold finish_io, gets. unfold mbind at 1, step_bind at 1. rewrite Hs. simpl.
  unfold mbind at 1, step_bind at 1. rewrite Hio. simpl. set (w1 := with_ws _ w).
  assert (tracks (co_ws w) (co_unreclaimed w) (dk_quotas (co_desk w)) w1) as H1 by (split; auto).
  clearbody w1. match goal with |- Q (?m w1).1 =>
    enough (triple (tracks (co_ws w) (co_unreclaimed w) (dk_quotas (co_desk w))) m (λ _, Q)) as Hm
      by exact (Hm w1 H1) end.
  unfold residency, status.
  apply (triple_bind _ _ _ (λ _, tracks (co_ws w) (co_unreclaimed w) (dk_quotas (co_desk w)))).
  { eapply triple_bind; [apply track_locked|]. intros s. by apply triple_ret. }
  intros now. exact Hf.
Qed.
Lemma tracks_books n us qs w :
  tracks n us qs w →
  nw_source (co_ws w) = nw_source n ∧ nw_reaper (co_ws w) = nw_reaper n
  ∧ co_unreclaimed w = us ∧ (alone → dk_quotas (co_desk w) = qs).
Proof.
  intros [Hn Hu Hq]. split; [exact (f_equal nw_source Hn)|]. split; [exact (f_equal nw_reaper Hn)|].
  split; [done|]. intros Ha. by destruct (Hq Ha).
Qed.
End tracking.
End applying.

(** ** Properties *)

(** C5: A commit is never forgotten.  A park's commit ran, and its result is
    applied by the next run, whatever callers do meanwhile.  [Published] means
    that the store took exactly the ciphertext of the checkpoint, under the
    attempt's key, of the length the reference says and within the bound
    reserved for it, and reading it back yields the stream the checkpoint was
    taken at: with its disk reservation it becomes the source, or it goes to the
    reaper.  [Rejected] means that nothing can be read that could not be read
    before: nothing is kept, and the disk reservation is given back.  When the
    store acknowledged something else, or the job panicked, the reservation is
    not given back: the ledger of unreclaimed storage keeps it. *)
Theorem commit_never_forgotten `{L : Layout} `{P : Ports} {EL : EngineLaws P} {SL : StoreLaws P}
    `{A : Allocation} cfg attempt disk memory c e e' r (w : coordinator) :
  let key := attempt_key attempt in
  let pmax := pg_protected_bytes cfg in
  commit_job key c (tk_descriptor c) pmax e = (e', r) →
  co_services w = true →
  nw_io (co_ws w) = Some (Pending_Commit attempt disk memory c (Some (job_result r))) →
  let w' := (finish_io cfg w).1 in
  let '(n, n') := (co_ws w, co_ws w') in
  let '(qs, qs') := (dk_quotas (co_desk w), dk_quotas (co_desk w')) in
  let same_sources := nw_source n' = nw_source n ∧ nw_reaper n' = nw_reaper n in
  let alone := co_script w = [] in
  let charged :=
    co_unreclaimed w' = co_unreclaimed w ++ [from_uncertain_park (pg_compatibility cfg) attempt disk]
    ∧ same_sources ∧ (alone → qs' = IoMemory_drop memory qs) in
  match job_result r with
  | Ok (Commit_Published reference) =>
    committed key c pmax e reference
    ∧ (∀ d k m e1 e2 c', read_job reference d k m e1 = (e2, Some (Ok c')) →
         held_stream c' = held_stream c)
    ∧ co_unreclaimed w' = co_unreclaimed w
    ∧ let s := committed_source cfg attempt disk reference in
      ((nw_source n' = Some s ∧ nw_reaper n' = nw_reaper n
        ∧ (alone → qs' = IoMemory_drop memory
                           (source_drop (nw_source n) (drop_opt (nw_resident n) qs))))
       ∨ (nw_source n' = nw_source n ∧ nw_reaper n' = retire s (nw_reaper n)
          ∧ (alone → qs' = IoMemory_drop memory qs)))
  | Ok (Commit_Rejected _) =>
    (∀ reference, readable reference e' → readable reference e)
    ∧ co_unreclaimed w' = co_unreclaimed w ∧ same_sources
    ∧ (alone → qs' = IoMemory_drop memory (DiskLease_drop disk qs))
  | Ok (Commit_Uncertain _) => disputed key c e e' ∧ charged
  | Err error => r = None ∧ error = ProjectionError_Worker ∧ charged
  end.
Proof.
  intros key pmax E Hs Hio w'. cbv zeta.
  pose proof (λ Q, track_commit cfg (co_script w = []) Q w attempt disk memory c _ Hs Hio id) as H.
  fold w' in H. clearbody w'. destruct r as [[[reference|err|err]|err]|]; simpl in *.
  - pose proof (commit_job_stored _ _ _ _ _ _ _ E) as Hst.
    split; [by eapply commit_job_committed|]. split.
    { intros d k m e1 e2 c' Hr. by rewrite (read_job_stored _ _ _ _ _ _ _ Hr), Hst. }
    pattern w'. apply H. eapply triple_then; [apply track_published|].
    intros w1 [Hw1|Hw1]; apply (track_drop _ _ _ _ (IoMemory_drop memory)), tracks_books in Hw1;
      destruct Hw1 as (H1 & H2 & H3 & H4); split; [done| |done|]; [left|right]; done.
  - split; [by intros reference; apply (commit_job_rejected _ _ _ _ _ _ _ reference E)|].
    pattern w'. apply H. eapply triple_then; [apply track_rejected|].
    intros w1 Hw1. apply (track_drop _ _ _ _ (IoMemory_drop memory)), tracks_books in Hw1. tauto.
  - split; [by eapply commit_job_disputed|].
    pattern w'. apply H. eapply triple_then; [eapply track_uncertain; by left|].
    intros w1 Hw1. apply (track_drop _ _ _ _ (IoMemory_drop memory)), tracks_books in Hw1. tauto.
  - destruct (commit_job_panics _ _ _ _ _ _ _ err E eq_refl) as [? _]. done.
  - split; [done|]. split; [done|].
    pattern w'. apply H. eapply triple_then; [eapply track_uncertain; by right|].
    intros w1 Hw1. apply (track_drop _ _ _ _ (IoMemory_drop memory)), tracks_books in Hw1. tauto.
Qed.

(** A commit that the store takes, and one it has no room for. *)
Definition demo_memory : IoMemory :=
  {| im_plain := {| le_first := 9%nat; le_second := None; le_count := 64 |};
     im_protected := {| le_first := 9%nat; le_second := None; le_count := 65 |} |}.
Definition demo_in_flight (r : result ProjectionError CommitOutcome)
    (w : coordinator (P := demo_ports)) : coordinator :=
  with_ws (ws_io (Some (Pending_Commit demo_attempt demo_disk demo_memory demo_checkpoint (Some r)))
             (co_ws w)) w.
Definition demo_ciphertext : ProtectedCheckpoint :=
  {| pc_key := demo_key; pc_descriptor := demo_descriptor; pc_ciphertext := [0; 104; 105] |}.
Definition demo_full : demo_env :=
  {| de_now := 0; de_pool := true; de_room := 0; de_store := [] |}.

Lemma commit_never_forgotten_witness :
  match demo_created [] with
  | Some (cfg, w) =>
    let published := (finish_io cfg (demo_in_flight (Ok (Commit_Published demo_reference)) w)).1 in
    let rejected := (finish_io cfg (demo_in_flight (Ok (Commit_Rejected
      (ProjectionError_Storage CheckpointError_CapacityExceeded))) w)).1 in
    committed (attempt_key demo_attempt) demo_checkpoint (pg_protected_bytes cfg) demo_now demo_reference
    ∧ co_unreclaimed published = co_unreclaimed w
    ∧ nw_reaper (co_ws rejected) = nw_reaper (co_ws w)
    ∧ dk_quotas (co_desk rejected)
      = IoMemory_drop demo_memory (DiskLease_drop demo_disk (dk_quotas (co_desk w)))
  | None => False
  end.
Proof.
  destruct (demo_created []) as [[cfg w]|] eqn:Ew; [|by vm_compute in Ew].
  assert (pg_protected_bytes cfg = 8388609 ∧ co_services w = true ∧ co_script w = []) as (Hb & Hs & Ha)
    by (vm_compute in Ew; by injection Ew as <- <-).
  clear Ew. cbv zeta.
  pose proof (commit_never_forgotten (P := demo_ports) (L := demo_layout) cfg demo_attempt demo_disk
    demo_memory demo_checkpoint demo_now (demo_put [demo_ciphertext] demo_now)
    (Some (Ok (Commit_Published demo_reference)))
    (demo_in_flight (Ok (Commit_Published demo_reference)) w)
    ltac:(cbv zeta; rewrite Hb; vm_compute; reflexivity) Hs eq_refl) as (Hp & _ & Hu & _).
  pose proof (commit_never_forgotten (P := demo_ports) (L := demo_layout) cfg demo_attempt demo_disk
    demo_memory demo_checkpoint demo_full demo_full
    (Some (Ok (Commit_Rejected (ProjectionError_Storage CheckpointError_CapacityExceeded))))
    (demo_in_flight (Ok (Commit_Rejected (ProjectionError_Storage CheckpointError_CapacityExceeded))) w)
    ltac:(cbv zeta; rewrite Hb; vm_compute; reflexivity) Hs eq_refl) as (_ & _ & [_ Hr] & Hq).
  split; [exact Hp|]. split; [exact Hu|]. split; [exact Hr|exact (Hq Ha)].
Defined.
