(* ===== verification/Authority.v ===== *)
(** * The authoritative model

    What a projection is for: whatever callers do and however often the model is
    parked and read back, a live projection owns either a model that has seen
    exactly the output fed so far or a committed source that restores to it, and
    every view, checkpoint and transfer it hands out is of an exact prefix of
    the output, at the cursor it names.

    The worker's steps are taken one by one; between any two lock sections the
    next callers of the script may act. *)

From S2P Require Import Prelude Identity Process Terminal Checkpoint Projection Session View.
From S2P Require Import Policy Transfer Atomic Quota Journal StatusReport StatusScanner StatusStore.
From S2P Require Import Diagnostics Budgets Queue Admission Ports Jobs Coordinator Output Native Io Worker Stepping.

(** ** The invariant *)

Section authority.
Context `{L : Layout} `{P : Ports} {EL : EngineLaws P} `{A : Allocation} (cfg : ProjectionConfig).

(** [s] is what had been fed when the processed cursor was [c]. *)
Definition exact (f s : list Z) (c : ReplayCursor) : Prop := s `prefix_of` f ∧ len s = rc_offset c.

Definition checkpoint_exact (f : list Z) (c : TerminalCheckpoint) : Prop :=
  exact f (held_stream c) (cd_processed (tk_descriptor c)).
Definition answer_exact (f : list Z) (a : answer) : Prop :=
  match a with
  | Answer_view v => ∃ s, exact f s (pv_processed v) ∧ shows (pv_view v) s
  | Answer_checkpoint c => checkpoint_exact f (pk_checkpoint c)
  | Answer_transfer t =>
    let c := pk_checkpoint (sx_checkpoint t) in
    checkpoint_exact f c
    ∧ tb_processed (sx_start t) = cd_processed (tk_descriptor c)
    ∧ tb_control_generation (sx_start t) = cd_control_generation (tk_descriptor c)
  | _ => True
  end.
(** An answer is exact; and no ticket is dropped while somebody waits for it. *)
Definition completion_exact (f : list Z) (x : ticket_ref * completion) : Prop :=
  match x.2 with Answered (Ok a) => answer_exact f a | Dropped => False | _ => True end.

(** A committed source that restores to everything fed. *)
Definition source_ok (w : coordinator) (s : CommittedSource) : Prop :=
  stored (cs_reference s) = fed w ∧ rc_offset (cd_processed (cs_descriptor s)) = len (fed w).
Definition parked (w : coordinator) (s : CommittedSource) : Prop :=
  nw_terminal (co_ws w) = None ∧ nw_source (co_ws w) = Some s ∧ source_ok w s.

(** The job in flight works on what it was started with. *)
Definition io_ok (w : coordinator) : Prop :=
  match nw_io (co_ws w) with
  | None | Some (Pending_Delete _ _) => True
  | Some (Pending_Commit attempt _ _ c mail) =>
    exact (fed w) (held_stream c) (pa_processed attempt)
    ∧ (∀ r, mail = Some (Ok (Commit_Published r)) → stored r = held_stream c)
  | Some (Pending_Restore _ _ s mail) =>
    parked w s ∧ (∀ c, mail = Some (Ok c) → held_stream c = fed w)
  | Some (Pending_Transfer _ _ _ s mail) =>
    parked w s ∧ (∀ c, mail = Some (Ok c) →
                    held_stream c = fed w ∧ tk_descriptor c = cs_descriptor s)
  end.

(** The model, or the source in its place. *)
Definition term_ok (w : coordinator) : Prop :=
  match nw_terminal (co_ws w) with
  | Some t => seen t = fed w
  | None => ∃ s, nw_source (co_ws w) = Some s ∧ source_ok w s
  end.

Record base (w : coordinator) : Prop := {
  ba_position : processed_of (dk_adm (co_desk w)) = len (fed w);
  ba_io : io_ok w;
  ba_done : Forall (completion_exact (fed w)) (co_done w)
}.
Definition sound (w : coordinator) : Prop := base w ∧ term_ok w.
(** Between runs. *)
Definition authoritative (w : coordinator) : Prop := base w ∧ (live w → term_ok w).

(** ** Stability *)

Lemma exact_mono f f' s c : f `prefix_of` f' → exact f s c → exact f' s c.
Proof. intros Hf [Hs Hl]. split; [by etrans|done]. Qed.
Lemma exact_whole f s c : exact f s c → rc_offset c = len f → s = f.
Proof.
  intros [[k ->] Hl] Hc. rewrite len_app in Hc. assert (len k = 0) as Hk by lia.
  apply len_zero in Hk as ->. by rewrite app_nil_r.
Qed.
Lemma exact_all f c : rc_offset c = len f → exact f f c.
Proof. intros Hc. by split. Qed.
Lemma completion_mono f f' x : f `prefix_of` f' → completion_exact f x → completion_exact f' x.
Proof.
  intros Hf. destruct x as [t [[[r|v|c|tr|]|e]| |]]; try done; unfold completion_exact; simpl.
  - intros (s & Hs & Hv). exists s. split; [by eapply exact_mono|done].
  - by apply exact_mono.
  - intros (Hc & H1 & H2). split; [by eapply exact_mono|done].
Qed.
Lemma plain_exact f x : plain_answer x → completion_exact f x.
Proof. by destruct x as [t [[[]|]| |]]. Qed.

Lemma job_ran_None io : job_ran cfg None io → io = None.
Proof.
  intros H. apply rtc_inv_r in H as [?|(io1 & H & tmax & e & ->)]; [done|].
  revert tmax e. remember None as io0 eqn:E0. induction H as [io0|io0 io1' io2 (t1 & e1 & ->) H IH].
  { by subst. }
  subst. intros tmax e. by apply IH.
Qed.

(** A job that runs fills its mailbox with the stream it was given. *)
Lemma run_job_ok w io tmax e :
  let w' := with_ws (ws_io (run_job (pg_compatibility cfg) (pg_protected_bytes cfg) tmax io e).1
                       (co_ws w)) w in
  io_ok (with_ws (ws_io io (co_ws w)) w) → io_ok w'.
Proof.
  destruct io as [[attempt disk mem c [m|]|res mem s [m|]|req mem st s [m|]|att [m|]]|];
    simpl; try done; unfold io_ok; simpl.
  - intros [Hx _]. destruct (commit_job _ _ _ _ _) as [e' r] eqn:E. simpl. split; [done|].
    intros reference [= Hr]. destruct r as [r|]; simpl in Hr; [|done]. subst r.
    by apply commit_job_stored in E.
  - intros [Hp _]. destruct (read_job _ _ _ _ _) as [e' r] eqn:E. simpl. split; [done|].
    intros c [= Hr]. destruct r as [r|]; simpl in Hr; [|done]. subst r.
    rewrite (read_job_stored _ _ _ _ _ _ _ E). apply Hp.
  - intros [Hp _]. destruct (read_job _ _ _ _ _) as [e' r] eqn:E. simpl. split; [done|].
    intros c [= Hr]. destruct r as [r|]; simpl in Hr; [|done]. subst r. split.
    + rewrite (read_job_stored _ _ _ _ _ _ _ E). apply Hp.
    + by apply read_job_Ok in E as [Hd _].
  - by destruct (delete_job _ _).
Qed.

Lemma io_ok_ran w io' :
  job_ran cfg (nw_io (co_ws w)) io' → io_ok w → io_ok (with_ws (ws_io io' (co_ws w)) w).
Proof.
  intros H Hok. assert (io_ok (with_ws (ws_io (nw_io (co_ws w)) (co_ws w)) w)) as H0 by done.
  clear Hok. induction H as [|io0 io1 io2 (tmax & e & ->) _ IH]; [done|].
  apply IH. by apply run_job_ok.
Qed.

Lemma io_ok_proper w w' :
  nw_io (co_ws w') = nw_io (co_ws w) → fed w' = fed w →
  (nw_terminal (co_ws w) = None → nw_terminal (co_ws w') = None) →
  nw_source (co_ws w') = nw_source (co_ws w) → io_ok w → io_ok w'.
Proof.
  intros Hio Hf Ht Hs. unfold io_ok, parked, source_ok. rewrite Hio, Hf, Hs.
  destruct (nw_io (co_ws w)) as [[]|]; naive_solver.
Qed.

Lemma quiet_base w w' : quiet cfg w w' → base w → base w'.
Proof.
  intros Hq [Hp Hio Hd]. pose proof (quiet_processed cfg _ _ Hq) as Hpr.
  destruct Hq as [_ Hf Ht Hs Hj (l & Hl & Hpl) _]. split.
  - by rewrite Hpr, Hf.
  - apply (io_ok_ran _ _ Hj) in Hio. revert Hio. apply io_ok_proper; simpl; try done.
    intros Hn. rewrite Hn in Ht. by inversion Ht.
  - rewrite Hl, Hf. apply Forall_app. split; [done|].
    eapply Forall_impl; [exact Hpl|]. apply plain_exact.
Qed.
Lemma quiet_term w w' : quiet cfg w w' → term_ok w → term_ok w'.
Proof.
  intros [_ Hf Ht Hs _ _ _]. unfold term_ok, source_ok. rewrite Hf, Hs.
  destruct Ht as [t t' Hseen|]; [by rewrite Hseen|done].
Qed.
Lemma quiet_sound w w' : quiet cfg w w' → sound w → sound w'.
Proof. intros Hq [Hb Ht]. split; [by eapply quiet_base|by eapply quiet_term]. Qed.
Lemma quiet_authoritative w w' : quiet cfg w w' → authoritative w → authoritative w'.
Proof.
  intros Hq [Hb Ht]. split; [by eapply quiet_base|]. intros Hl.
  eapply quiet_term; [done|]. apply Ht. by eapply quiet_live.
Qed.
Lemma sound_authoritative w : sound w → authoritative w.
Proof. by intros [? ?]. Qed.
Lemma quiet_dead w w' : quiet cfg w w' → ¬ live w → ¬ live w'.
Proof. intros Hq Hl Hl'. apply Hl. by eapply quiet_live. Qed.

(** The collaborators are there: nobody but the worker lets go of them. *)
Definition attended (w : coordinator) : Prop := co_services w = true.

(** The invariants of a run, as what a quiet step keeps. *)
Class Stable (I : coordinator → Prop) := stable w w' : quiet cfg w w' → I w → I w'.
#[export] Instance base_Stable : Stable base.
Proof. intros w w'. apply quiet_base. Qed.
#[export] Instance sound_Stable : Stable sound.
Proof. intros w w'. apply quiet_sound. Qed.
#[export] Instance authoritative_Stable : Stable authoritative.
Proof. intros w w'. apply quiet_authoritative. Qed.
#[export] Instance dead_Stable : Stable (λ w, ¬ live w).
Proof. intros w w'. apply quiet_dead. Qed.
#[export] Instance attended_Stable : Stable attended.
Proof. intros w w' Hq. exact (q_services _ _ _ Hq). Qed.
#[export] Instance and_Stable I J `{!Stable I, !Stable J} : Stable (λ w, I w ∧ J w).
Proof. intros w w' Hq [HI HJ]. split; by eapply stable. Qed.

(** ** Triples *)

Lemma triple_quiet {X} I `{!Stable I} (m : step X) :
  respects (quiet cfg) m → triple I m (λ _, I).
Proof. intros Hm w. apply stable, Hm. Qed.
Lemma triple_after {X Y} I `{!Stable I} (m : step X) (k : X → step Y) Q :
  respects (quiet cfg) m → (∀ x, triple I (k x) Q) → triple I (m ≫= k) Q.
Proof. intros Hm Hk. eapply triple_bind; [by apply triple_quiet|]. done. Qed.

(** A ticket nobody waits for goes, and nothing is lost with it. *)
Lemma triple_gone {X} I `{!Stable I} t (m k : step X) Q :
  triple I m Q → triple I k Q →
  triple I (gone ← gets (λ w, ticket_cancelled t (co_env w));
            if (gone : bool) then abandon_ticket t;; m else k) Q.
Proof.
  intros Hm Hk. eapply triple_bind; [apply triple_gets|]. intros [|].
  - apply (triple_then _ I); [|exact Hm]. intros w [Hw Ht].
    exact (stable _ _ (quiet_abandoned cfg t w (eq_sym Ht)) Hw).
  - eapply triple_weaken; [exact Hk|by intros w []|done].
Qed.
Lemma triple_gone_now I `{!Stable I} t (k : step ()) :
  triple I k (λ _, I) →
  triple I (gone ← gets (λ w, ticket_cancelled t (co_env w));
            if (gone : bool) then abandon_ticket t else k) (λ _, I).
Proof.
  intros Hk. eapply triple_bind; [apply triple_gets|]. intros [|].
  - intros w [Hw Ht]. exact (stable _ _ (quiet_abandoned cfg t w (eq_sym Ht)) Hw).
  - eapply triple_weaken; [exact Hk|by intros w []|done].
Qed.

(** ** What a step answers *)

(** The result is a fact beside a stable invariant. *)
Definition answers {X} (I : coordinator → Prop) (m : step X) (φ : X → Prop) : Prop :=
  triple I m (λ x w, I w ∧ φ x).

Lemma answers_bind {X Y} I (m : step X) (k : X → step Y) φ ψ :
  answers I m φ → (∀ x, φ x → answers I (k x) ψ) → answers I (m ≫= k) ψ.
Proof. intros Hm Hk. eapply triple_bind; [exact Hm|]. intros x w [Hw Hx]. by apply Hk. Qed.
Lemma answers_ret {X} I (x : X) (φ : X → Prop) : φ x → answers I (mret x) φ.
Proof. intros Hx w Hw. by split. Qed.
Lemma answers_any {X} I `{!Stable I} (m : step X) :
  respects (quiet cfg) m → answers I m (λ _, True).
Proof. intros Hm w Hw. split; [exact (stable _ _ (Hm w) Hw)|done]. Qed.
Lemma answers_quiet {X Y} I `{!Stable I} (m : step X) (k : X → step Y) ψ :
  respects (quiet cfg) m → (∀ x, answers I (k x) ψ) → answers I (m ≫= k) ψ.
Proof. intros Hm Hk. eapply answers_bind; [by apply answers_any|]. intros x _. apply Hk. Qed.
(** An error answers nothing. *)
Lemma answers_Err {X E} I (e : E) (φ : X → Prop) :
  answers I (mret (Err e : result E X)) (λ r, ∀ x, r = Ok x → φ x).
Proof. by apply answers_ret. Qed.

(** What holds beside the completions, while [f] is all that was fed. *)
Class Silent (K : coordinator → Prop) := silent w l : K w → K (with_done l w).
Definition ready (K : coordinator → Prop) (f : list Z) (w : coordinator) : Prop :=
  base w ∧ fed w = f ∧ K w.
#[export] Instance ready_Stable K f `{!Stable K} : Stable (ready K f).
Proof.
  intros w w' Hq (Hb & Hf & HK). split; [exact (quiet_base _ _ Hq Hb)|]. split; [|exact (stable _ _ Hq HK)].
  by rewrite (q_fed _ _ _ Hq).
Qed.
#[export] Instance fed_Stable f : Stable (λ w, fed w = f).
Proof. intros w w' Hq Hf. by rewrite (q_fed _ _ _ Hq). Qed.
#[export] Instance term_ok_Stable : Stable term_ok.
Proof. intros w w'. apply quiet_term. Qed.
#[export] Instance live_term_Stable : Stable (λ w, live w → term_ok w).
Proof.
  intros w w' Hq Ht Hl. eapply quiet_term; [done|]. apply Ht. by eapply quiet_live.
Qed.
#[export] Instance True_Stable : Stable (λ _, True).
Proof. done. Qed.
#[export] Instance term_ok_Silent : Silent term_ok.
Proof. by intros w l. Qed.
#[export] Instance live_term_Silent : Silent (λ w, live w → term_ok w).
Proof. by intros w l. Qed.
#[export] Instance dead_Silent : Silent (λ w, ¬ live w).
Proof. by intros w l. Qed.
#[export] Instance True_Silent : Silent (λ _, True).
Proof. by intros w l. Qed.
(** The model has seen [f], which is all that was fed. *)
Abbreviation seen_all := (ready term_ok).

Lemma native_call_value {X} (work : Term → Env → Env * Term * option (result TerminalError X)) w x :
  (native_call cfg work w).2 = Ok x →
  ∃ t, nw_terminal (co_ws w) = Some t ∧ (work t (co_env w)).2 = Some (Ok x).
Proof.
  unfold native_call. unfold mbind at 1, step_bind at 1, gets.
  destruct (nw_terminal (co_ws w)) as [t|]; [|done]. unfold mbind at 1, step_bind at 1.
  destruct (work t (co_env w)) as [[e t'] [[y|er]|]] eqn:E; simpl.
  - intros [= ->]. exists t. by rewrite E.
  - done.
  - unfold mbind, step_bind. by destruct (co_fail _ _ _).
Qed.

Lemma answers_view f :
  answers (seen_all f) (native_call cfg term_view) (λ r, ∀ v, r = Ok v → shows v f).
Proof.
  intros w (Hb & Hf & Hs). split; [eapply stable; [apply quiet_term_view|done]|].
  intros v Hv. apply native_call_value in Hv as (t & Ht & Hv).
  unfold term_ok in Hs. rewrite Ht, Hf in Hs. rewrite <-Hs.
  destruct (term_view t (co_env w)) as [[e t'] r] eqn:E. simpl in Hv. subst r.
  by eapply view_shows.
Qed.
Lemma answers_term_checkpoint f d :
  answers (seen_all f) (native_call cfg (term_checkpoint d))
    (λ r, ∀ c, r = Ok c → held_stream c = f).
Proof.
  intros w (Hb & Hf & Hs). split; [eapply stable; [apply quiet_term_checkpoint|done]|].
  intros c Hc. apply native_call_value in Hc as (t & Ht & Hc).
  unfold term_ok in Hs. rewrite Ht, Hf in Hs. rewrite <-Hs.
  destruct (term_checkpoint d t (co_env w)) as [[e t'] r] eqn:E. simpl in Hc. subst r.
  by apply (checkpoint_seen _ _ _ _ _ _ E).
Qed.

(** The status names how much has been fed. *)
Lemma answers_status f :
  answers (seen_all f) (status (interfere cfg)) (λ s, rc_offset (ps_processed s) = len f).
Proof.
  intros w Hw. split; [eapply stable; [apply quiet_read_status, quiet_interfere|done]|].
  unfold status, locked, guarded, mbind, step_bind.
  assert (quiet cfg w (interfere cfg w).1) as Hq by apply quiet_interfere.
  destruct (interfere cfg w) as [w1 []]. simpl in *.
  assert (seen_all f w1) as ([Hp _ _] & Hf & _) by by eapply stable.
  unfold processed_of in Hp. by rewrite Hp, Hf.
Qed.
Lemma answers_descriptor f :
  answers (seen_all f) (descriptor cfg) (λ d, rc_offset (cd_processed d) = len f).
Proof.
  eapply answers_bind; [apply answers_status|]. intros s Hs. by apply answers_ret.
Qed.

Lemma answers_checkpoint f :
  answers (seen_all f) (take_checkpoint cfg)
    (λ r, ∀ c, r = Ok c → held_stream c = f ∧ checkpoint_exact f c).
Proof.
  unfold take_checkpoint. eapply answers_bind; [apply answers_descriptor|]. intros d Hd.
  eapply answers_bind; [apply answers_term_checkpoint|]. intros r Hr.
  apply answers_quiet; [apply _|respecting|]. intros config. apply answers_ret.
  intros c Hc. destruct r as [c0|e]; [|done]. unfold mbind, result_bind in Hc.
  case_bool_decide as Hdesc; [done|]. destruct (_ <? _); [done|]. injection Hc as ->.
  split; [by apply Hr|]. unfold checkpoint_exact.
  rewrite Hdesc, (Hr c eq_refl). by apply exact_all.
Qed.
Lemma answers_snapshot f :
  answers (seen_all f) (snapshot_result cfg)
    (λ r, ∀ c, r = Ok c → checkpoint_exact f (pk_checkpoint c)).
Proof.
  unfold snapshot_result. apply answers_quiet; [apply _|respecting|]. intros config.
  apply answers_quiet; [apply _|respecting|]. intros [lease|e]; [|apply answers_Err].
  eapply answers_bind; [apply answers_checkpoint|]. intros [c|e] Hr.
  - apply answers_ret. intros x [= <-]. by apply Hr.
  - apply answers_quiet; [apply _|respecting|]. intros _. apply answers_Err.
Qed.

Lemma answers_view_result f :
  answers (seen_all f) (view_result cfg) (λ r, ∀ v, r = Ok v → answer_exact f (Answer_view v)).
Proof.
  unfold view_result. apply answers_quiet; [apply _|respecting|]. intros config.
  apply answers_quiet; [apply _|respecting|]. intros [lease|e]; [|apply answers_Err].
  eapply answers_bind; [apply answers_view|]. intros [v|e] Hv.
  2:{ apply answers_quiet; [apply _|respecting|]. intros _. apply answers_Err. }
  apply answers_quiet; [apply _|respecting|]. intros [history|e].
  2:{ apply answers_quiet; [apply _|respecting|]. intros _. apply answers_Err. }
  eapply answers_bind; [apply answers_status|]. intros s Hs. apply answers_ret.
  intros x [= <-]. exists f. split; [by apply exact_all|by apply Hv].
Qed.

(** ** Completions *)

(** An exact answer keeps the invariant. *)
Lemma base_complete w x :
  base w → completion_exact (fed w) x → base (with_done (co_done w ++ [x]) w).
Proof.
  intros [Hp Hio Hd] Hx. split; [done| |]; simpl.
  - revert Hio. by apply io_ok_proper.
  - apply Forall_app. split; [done|by constructor].
Qed.
Section completing.
Context (K : coordinator → Prop) `{!Stable K, !Silent K} (f : list Z).

Lemma triple_complete t r :
  (∀ a, r = Ok a → answer_exact f a) →
  triple (ready K f) (complete_ticket t r) (λ _, ready K f).
Proof.
  intros Hr. unfold complete_ticket. apply triple_gone; [apply _| |].
  - apply triple_quiet; [apply _|respecting].
  - intros w (Hb & Hf & HK). split; [|split; [done|by apply silent]].
    apply base_complete; [done|]. rewrite Hf.
    unfold completion_exact. simpl. destruct r as [a|e]; [by apply Hr|done].
Qed.

(** [SnapshotRequest::complete] with a checkpoint of everything fed. *)
Lemma answers_open p c :
  checkpoint_exact f (pk_checkpoint c) →
  answers (ready K f) (open_transfer p c) (λ r, ∀ a, r = Ok a → answer_exact f a).
Proof.
  intros Hc. unfold open_transfer. apply answers_quiet; [apply _|respecting|].
  intros [[observer boundary]|e].
  2:{ unfold checkpoint_drop. do 2 (apply answers_quiet; [apply _|respecting|]; intros _).
      apply answers_Err. }
  cbv zeta. match goal with |- context [if ?b then _ else _] => destruct b eqn:Eb end.
  - unfold transfer_drop, checkpoint_drop.
    apply answers_quiet; [apply _|respecting|]. intros _. apply answers_Err.
  - apply answers_ret. intros a [= <-]. apply orb_false_iff in Eb as [E1 E2]. to_props.
    by split.
Qed.
Lemma triple_complete_request request r :
  (∀ c, r = Ok c → checkpoint_exact f (pk_checkpoint c)) →
  triple (ready K f) (complete_request request r) (λ _, ready K f).
Proof.
  intros Hr. destruct request as [t|t permit]; unfold complete_request.
  - apply triple_complete. destruct r as [c|e]; [|done]. intros a [= <-]. by apply Hr.
  - unfold cancelled_ticket. apply triple_gone; [apply _|apply triple_quiet; [apply _|respecting]|].
    eapply triple_bind.
    + instantiate (1 := λ r w, ready K f w ∧ ∀ a, r = Ok a → answer_exact f a).
      destruct r as [c|e].
      * apply answers_open. by apply Hr.
      * apply answers_quiet; [apply _|respecting|]. intros _. apply answers_Err.
    + intros a. apply triple_pure. intros Ha. by apply triple_complete.
Qed.
End completing.

(** ** Commands that observe *)

Lemma triple_apply_view f t : triple (seen_all f) (apply_view cfg t) (λ _, seen_all f).
Proof.
  unfold apply_view, cancelled_ticket. apply triple_gone_now; [apply _|].
  eapply triple_bind; [apply answers_view_result|]. intros r. apply triple_pure. intros Hr.
  apply triple_after; [apply _|respecting|]. intros now. destruct (closing_or_closed now).
  - apply triple_quiet; [apply _|respecting].
  - apply triple_complete; [apply _..|]. destruct r as [v|e]; [|done].
    intros a [= <-]. by apply Hr.
Qed.

Lemma triple_snapshot f request : triple (seen_all f) (snapshot cfg request) (λ _, seen_all f).
Proof.
  unfold snapshot, request_cancelled, cancelled_ticket.
  apply triple_gone; [apply _|apply triple_quiet; [apply _|respecting]|].
  eapply triple_bind; [apply answers_snapshot|]. intros r. apply triple_pure. intros Hr.
  apply triple_after; [apply _|respecting|]. intros now. destruct (closing_or_closed now).
  - apply triple_quiet; [apply _|respecting].
  - by apply triple_complete_request; [apply _..|].
Qed.

(** ** Feeding *)

(** The world with another model in the workspace. *)
Definition retarget (o : option Term) (w : coordinator) : coordinator :=
  with_ws (ws_terminal o (nw_resident (co_ws w)) (co_ws w)) w.

Lemma retarget_quiet o w w' : quiet cfg w w' → quiet cfg (retarget o w) (retarget o w').
Proof. intros [H1 H2 _ H4 H5 H6 H7]. split; try done. apply seen_refl. Qed.

(** A step that takes the model's stream from [s] to [s'] when it succeeds and
    is quiet otherwise; and one that fails at once without a model. *)
Definition feeds {X} (s s' : list Z) (m : step (result ProjectionError X)) : Prop :=
  ∀ w t, nw_terminal (co_ws w) = Some t → seen t = s →
  ∃ t', quiet cfg (retarget (Some t') w) (m w).1 ∧ (is_ok (m w).2 = true → seen t' = s').
Definition needs_model {X} (m : step (result ProjectionError X)) : Prop :=
  ∀ w, nw_terminal (co_ws w) = None → quiet cfg w (m w).1 ∧ is_ok (m w).2 = false.

Lemma needs_call {X} (work : Term → Env → Env * Term * option (result TerminalError X)) :
  needs_model (native_call cfg work).
Proof.
  intros w Hw. unfold native_call, mbind, step_bind, gets. simpl. rewrite Hw. by split.
Qed.
Lemma native_call_run {X} (work : Term → Env → Env * Term * option (result TerminalError X)) w t :
  nw_terminal (co_ws w) = Some t →
  native_call cfg work w =
  let '(e, t', r) := work t (co_env w) in
  let w1 := with_ws (ws_terminal (Some t') (nw_resident (co_ws w)) (co_ws w)) (with_env e w) in
  match r with
  | Some r => (w1, map_err ProjectionError_Terminal r)
  | None => ((co_fail (interfere cfg) ProjectionError_Worker w1).1, Err ProjectionError_Worker)
  end.
Proof.
  intros Ht. unfold native_call, mbind, step_bind, gets. rewrite Ht.
  destruct (work t (co_env w)) as [[e t'] [r|]]; [done|]. by destruct (co_fail _ _ _) as [w2 []].
Qed.

Lemma feeds_call s b : feeds s (s ++ b) (native_call cfg (term_feed b)).
Proof.
  intros w t Ht <-. rewrite (native_call_run _ _ t Ht).
  destruct (term_feed b t (co_env w)) as [[e t'] r] eqn:E. exists t'. cbv zeta.
  set (w1 := with_ws _ _). assert (quiet cfg (retarget (Some t') w) w1) as H1 by by apply quiet_framed.
  destruct r as [[x|er]|]; simpl.
  - split; [exact H1|]. intros _. exact (feed_seen _ _ _ _ _ _ E).
  - by split.
  - split; [|done]. etrans; [exact H1|]. apply quiet_fail, quiet_interfere.
Qed.

Lemma needs_bind {X Y} (m : step (result ProjectionError X))
    (k : result ProjectionError X → step (result ProjectionError Y)) :
  needs_model m → (∀ e w, k (Err e) w = (w, Err e)) → needs_model (m ≫= k).
Proof.
  intros Hm He w Hw. destruct (Hm w Hw) as [Hq Hr]. unfold mbind, step_bind.
  destruct (m w) as [w1 [x|e]]; [done|]. by rewrite He.
Qed.
Lemma feeds_bind {X Y} s s1 s2 (m : step (result ProjectionError X))
    (k : result ProjectionError X → step (result ProjectionError Y)) :
  feeds s s1 m → (∀ e w, k (Err e) w = (w, Err e)) →
  (∀ x, feeds s1 s2 (k (Ok x)) ∨ ∃ e, ∀ w, k (Ok x) w = (w, Err e)) →
  feeds s s2 (m ≫= k).
Proof.
  intros Hm He Hk w t Ht Hs. destruct (Hm w t Ht Hs) as (t1 & Hq & Ht1).
  unfold mbind, step_bind. destruct (m w) as [w1 [x|e]]; simpl in *.
  2:{ rewrite He. by exists t1. }
  specialize (Ht1 eq_refl). destruct (Hk x) as [Hk'|[e Hk']].
  2:{ rewrite Hk'. by exists t1. }
  pose proof (q_terminal _ _ _ Hq) as Hqt. simpl in Hqt. inversion Hqt as [? t1' Hs1 Ea Eb|]; subst.
  destruct (Hk' w1 t1') as (t' & Hq' & Ht'); [done|done|]. exists t'. split; [|done].
  etrans; [|exact Hq']. by apply (retarget_quiet (Some t')) in Hq.
Qed.
Lemma feeds_done {X} s (x : X) : feeds s s (mret (Ok x)).
Proof. intros w t Ht Hs. exists t. split; [|done]. apply quiet_framed; try done. simpl. by rewrite <-Ht; destruct w as [? ? ? []]. Qed.

Lemma slice_all start bytes : 0 <= start → slice start (len bytes) bytes = drop (Z.to_nat start) bytes.
Proof. intros Hs. unfold slice. apply take_ge. rewrite length_drop. unfold len. lia. Qed.
Lemma slice_drop start stop bytes :
  0 <= start <= stop →
  slice start stop bytes ++ drop (Z.to_nat stop) bytes = drop (Z.to_nat start) bytes.
Proof.
  intros Hs. unfold slice. rewrite <-(take_drop (Z.to_nat (stop - start)) (drop (Z.to_nat start) bytes)) at 2.
  f_equal. rewrite drop_drop. f_equal. lia.
Qed.

Lemma feeds_slice s b limit agg : feeds s (s ++ b) (feed_status_slice cfg b limit agg).
Proof.
  unfold feed_status_slice. eapply feeds_bind; [apply feeds_call|done|]. intros x. simpl.
  destruct (reply_append x limit agg) as [a|e]; [left; apply feeds_done|right; by exists e].
Qed.
Lemma needs_slice b limit agg : needs_model (feed_status_slice cfg b limit agg).
Proof. unfold feed_status_slice. apply needs_bind; [apply needs_call|done]. Qed.

(** The loop over the query endpoints feeds the rest of the chunk, once. *)
Lemma feeds_queries s bytes limit queries start agg :
  0 <= start → ordered_offsets start queries (len bytes) →
  feeds s (s ++ drop (Z.to_nat start) bytes) (feed_queries cfg bytes limit queries start agg).
Proof.
  revert s start agg. induction queries as [|stop queries IH]; intros s start agg H0 Ho; simpl.
  - destruct (Z.ltb_spec start (len bytes)) as [Hlt|Hge].
    + rewrite <-slice_all by done. apply feeds_slice.
    + rewrite drop_ge, app_nil_r by (unfold len in *; lia). apply feeds_done.
  - destruct Ho as [Hle Ho]. rewrite <-(slice_drop start stop) by lia. rewrite app_assoc.
    apply feeds_bind with (s ++ slice start stop bytes); [apply feeds_slice|done|].
    intros x. simpl. destruct (reply_append PROGRAM_STATUS_REPLY limit x) as [agg'|e].
    + left. apply IH; [lia|done].
    + right. by exists e.
Qed.

Lemma feeds_output s bytes queries limit :
  ordered_offsets 0 queries (len bytes) →
  feeds s (s ++ bytes) (feed_status_slices cfg bytes queries limit).
Proof.
  intros Ho. unfold feed_status_slices. destruct queries as [|q queries].
  - eapply feeds_bind; [apply feeds_call|done|]. intros x. simpl.
    destruct (limit <? len x); [right; by eexists|left; apply feeds_done].
  - apply (feeds_queries s bytes limit (q :: queries) 0 []); [done|done].
Qed.
Lemma needs_output bytes queries limit : needs_model (feed_status_slices cfg bytes queries limit).
Proof.
  unfold feed_status_slices. destruct queries as [|q queries]; simpl.
  - apply needs_bind; [apply needs_call|done].
  - apply needs_bind; [apply needs_slice|done].
Qed.

(** A failure ends the projection's life. *)
Lemma fail_dead e w : ¬ live (co_fail (interfere cfg) e w).1.
Proof.
  unfold co_fail, locked. rewrite guarded_bind. unfold guarded, mbind at 1, step_bind at 1.
  destruct (interfere cfg w) as [w1 []]. unfold mbind at 1, step_bind at 1.
  destruct (queue_fail e (dk_adm (co_desk w1))) as [a [rejected drain]] eqn:E.
  match goal with |- ¬ live (?m ?w2).1 => apply (quiet_dead w2);
    [enough (respects (quiet cfg) m) as Hm by apply Hm; respecting|] end.
  unfold live, live_admission, ad_residency. simpl.
  assert (ad_policy a = Policy.fail e (ad_policy (dk_adm (co_desk w1)))) as ->
    by (unfold queue_fail in E; by injection E as <-).
  unfold Policy.fail, pp_residency.
  destruct (ps_residency (pp_status (ad_policy (dk_adm (co_desk w1))))) eqn:Er; simpl;
    rewrite ?Er; by intros [=].
Qed.

(** ** Output *)

(** After a command: between runs, and the run may go on when it may. *)
Definition settled (s : WorkSchedule) (w : coordinator) : Prop :=
  authoritative w ∧ (is_immediate s = true → sound w).
#[export] Instance settled_Stable s : Stable (settled s).
Proof.
  intros w w' Hq [Ha Hs]. split; [by eapply quiet_authoritative|]. intros Hi.
  eapply quiet_sound; [done|]. by apply Hs.
Qed.
Lemma sound_settled s w : sound w → settled s w.
Proof. intros Hs. split; [by apply sound_authoritative|done]. Qed.
Lemma dead_settled s w : base w → ¬ live w → is_immediate s = false → settled s w.
Proof. intros Hb Hl Hs. split; [by split|]. by rewrite Hs. Qed.

Lemma triple_fail_dead e : triple base (co_fail (interfere cfg) e) (λ _ w, base w ∧ ¬ live w).
Proof.
  intros w Hb. split; [eapply quiet_base; [apply quiet_fail, quiet_interfere|done]|].
  apply fail_dead.
Qed.
(** Failing, whatever is released after it. *)
Lemma triple_failing {X} (I : coordinator → Prop) e (m : step X) Q :
  (∀ w, I w → base w) → triple (λ w, base w ∧ ¬ live w) m Q →
  triple I (co_fail (interfere cfg) e;; m) Q.
Proof.
  intros HI Hm. eapply triple_bind; [|intros x; exact Hm].
  intros w Hw. by apply triple_fail_dead, HI.
Qed.
Lemma triple_dead {X} s (m : step X) :
  respects (quiet cfg) m → is_immediate s = false →
  triple (λ w, base w ∧ ¬ live w) (m;; mret s) settled.
Proof.
  intros Hm Hs. apply triple_after; [apply _|done|]. intros _. apply triple_ret.
  intros w [Hb Hl]. by apply dead_settled.
Qed.

Lemma answers_prepare I `{!Stable I} bytes n :
  answers I (prepare_status cfg bytes n)
    (λ r, ∀ p, r = Ok p → ordered_offsets 0 (query_offsets (pr_plan p)) (len bytes)).
Proof.
  unfold prepare_status. apply answers_quiet; [apply _|respecting|]. intros state.
  destruct (ss_store state) as [store|]; [|apply answers_Err].
  destruct (scan_reservation_for store bytes) as [scratch|e]; [|apply answers_Err].
  cbv zeta. destruct (_ <? _); [apply answers_Err|]. unfold view_lease.
  apply answers_quiet; [apply _|respecting|]. intros [m|e]; [|apply answers_Err].
  destruct (store_scan store bytes) as [plan|e] eqn:Es.
  2:{ apply answers_quiet; [apply _|respecting|]. intros _. apply answers_Err. }
  assert (ordered_offsets 0 (query_offsets plan) (len bytes)) as Ho.
  { unfold store_scan in Es. destruct (scan_reservation _); [|done].
    unfold mbind, result_bind in Es. destruct (_ || _); [done|].
    pose proof (scan_ordered (st_scanner store) bytes) as H.
    destruct (scan (st_scanner store) bytes) as [sc e]. by injection Es as <-. }
  unfold prepare_leases, view_lease. destruct (_ <? _).
  { apply answers_quiet; [apply _|respecting|]. intros _. apply answers_Err. }
  apply answers_quiet; [apply _|respecting|]. intros [rm|e].
  2:{ apply answers_quiet; [apply _|respecting|]. intros _. apply answers_Err. }
  apply answers_quiet; [apply _|respecting|]. intros [rp|e].
  2:{ do 2 (apply answers_quiet; [apply _|respecting|]; intros _). apply answers_Err. }
  apply answers_ret. by intros p [= <-].
Qed.

Section output.
Context (f bytes : list Z).

(** Fed, not yet recorded. *)
Definition overfed (w : coordinator) : Prop :=
  base w ∧ fed w = f ∧ ∃ t, nw_terminal (co_ws w) = Some t ∧ seen t = f ++ bytes.
#[export] Instance overfed_Stable : Stable overfed.
Proof.
  intros w w' Hq (Hb & Hf & t & Ht & Hs). split; [by eapply quiet_base|].
  split; [by rewrite (q_fed _ _ _ Hq)|]. pose proof (q_terminal _ _ _ Hq) as Hqt.
  rewrite Ht in Hqt. inversion Hqt as [? t' Hs' Ea Eb|]; subst. exists t'. by rewrite Hs'.
Qed.

Lemma record_sound w p :
  overfed w → processed_of (set_policy p (dk_adm (co_desk w))) = len f + len bytes →
  sound (with_desk (note_stream [] bytes 0 (hold None
           (put_adm (set_policy p (dk_adm (co_desk w))) (co_desk w)))) w).
Proof.
  intros ([Hp Hio Hd] & Hf & t & Ht & Hs) Hpos.
  assert (f `prefix_of` f ++ bytes) as Hpre by by exists bytes.
  unfold fed in *. split; [split|]; unfold fed; simpl.
  - rewrite Hf, len_app. exact Hpos.
  - unfold io_ok, parked in *. simpl. rewrite Ht in *. unfold fed in *. simpl. rewrite Hf in *.
    destruct (nw_io (co_ws w)) as [[]|]; try done; [|naive_solver..].
    destruct Hio as [Hx Hr]. split; [by eapply exact_mono|done].
  - rewrite Hf in *. eapply Forall_impl; [exact Hd|]. intros x. by apply completion_mono.
  - unfold term_ok, fed. simpl. by rewrite Ht, Hf, Hs.
Qed.
Lemma triple_record :
  triple overfed (record_processed_held cfg bytes)
    (λ r w, match r with Ok _ => sound w | Err _ => base w end).
Proof.
  apply triple_after; [apply _|apply quiet_interfere|]. intros [] w Hw. cbv zeta.
  unfold queue_record_processed, on_policy.
  destruct (record_processed (len bytes) (ad_policy (dk_adm (co_desk w)))) as [p r] eqn:E.
  apply record_processed_cases in E. destruct r as [[]|e]; simpl.
  - destruct E as (_ & _ & Hp). apply record_sound; [done|].
    destruct Hw as ([Hpos _ _] & Hf & _). unfold processed_of, ad_status in *. simpl in *.
    by rewrite Hp, Hpos, Hf.
  - destruct E as [-> _]. destruct Hw as [Hb _]. eapply quiet_base; [|exact Hb].
    apply quiet_framed; try done. simpl. by apply beside_same.
Qed.

Lemma triple_feed queries limit :
  ordered_offsets 0 queries (len bytes) →
  triple (seen_all f) (feed_status_slices cfg bytes queries limit)
    (λ r w, match r with Ok _ => overfed w | Err _ => base w end).
Proof.
  intros Ho w (Hb & Hf & Ht). unfold term_ok in Ht.
  destruct (nw_terminal (co_ws w)) as [t|] eqn:Et.
  - destruct (feeds_output (fed w) bytes queries limit Ho w t Et Ht) as (t' & Hq & Hs).
    assert (base (retarget (Some t') w)) as Hb'.
    { destruct Hb as [Hp Hio Hd]. split; [done| |done]. revert Hio. apply io_ok_proper; try done.
      by rewrite Et. }
    destruct (feed_status_slices cfg bytes queries limit w) as [w' [x|e]]; simpl in *.
    + specialize (Hs eq_refl). assert (overfed (retarget (Some t') w)) as Hov.
      { split; [done|]. split; [done|]. exists t'. by rewrite <-Hf. }
      by eapply stable.
    + by eapply quiet_base.
  - destruct (needs_output bytes queries limit w Et) as [Hq Hr].
    destruct (feed_status_slices cfg bytes queries limit w) as [w' [x|e]]; simpl in *; [done|].
    by eapply quiet_base.
Qed.
End output.

Lemma triple_apply_output f bytes staging :
  triple (seen_all f) (apply_output cfg bytes staging) settled.
Proof.
  unfold apply_output. apply triple_read. intros config. cbv zeta.
  eapply triple_bind; [by apply answers_prepare, _|]. intros prepared. apply triple_pure. intros Ho.
  destruct prepared as [prepared|error].
  2:{ apply triple_after; [apply _|respecting|]. intros _. destruct error as [|error].
      - apply triple_ret. intros w (Hb & _ & Ht). by apply sound_settled.
      - apply triple_failing; [by intros w [Hb _]|]. apply triple_ret.
        intros w [Hb Hl]. by apply dead_settled. }
  eapply triple_bind; [by apply triple_feed, Ho|]. intros [effects|error].
  2:{ apply triple_after; [apply _|respecting|]. intros _. apply triple_failing; [done|].
      apply triple_dead; [respecting|done]. }
  apply triple_after; [apply _|respecting|]. intros committed.
  eapply triple_bind.
  { instantiate (1 := λ r w, match r with Ok _ => sound w | Err _ => base w end).
    destruct committed as [[]|e]; [apply triple_record|]. apply triple_ret. by intros w [Hb _]. }
  intros [[]|error].
  - apply triple_after; [apply _|respecting|]. intros s.
    apply triple_after; [apply _|respecting|]. intros _.
    eapply (triple_bind _ _ _ (λ _, sound)).
    { apply triple_quiet; [apply _|]. destruct (bool_decide (effects = [])); respecting.
      apply quiet_ws. by intros n. }
    intros _. do 3 (apply triple_after; [apply _|respecting|]; intros _).
    apply triple_ret. intros w. by apply sound_settled.
  - apply triple_after; [apply _|respecting|]. intros _. apply triple_failing; [done|].
    apply triple_after; [apply _|respecting|]. intros _. apply triple_dead; [respecting|done].
Qed.

(** ** Commands *)

Lemma triple_apply_command event : triple sound (apply_command cfg event) settled.
Proof.
  intros w Hw. set (f := fed w). assert (seen_all f w) as Hf by by destruct Hw.
  clearbody f. clear Hw. revert w Hf. change (triple (seen_all f) (apply_command cfg event) settled).
  assert (∀ X (m : step X) s, triple (seen_all f) m (λ _, seen_all f) →
            triple (seen_all f) (m;; mret s) settled) as Hret.
  { intros X m s Hm. eapply triple_bind; [exact Hm|]. intros x. apply triple_ret.
    intros w (Hb & _ & Ht). by apply sound_settled. }
  destruct event as [bytes staging| |size ticket staging|ticket staging|request staging];
    unfold apply_command.
  - apply triple_apply_output.
  - apply triple_after; [apply _|respecting|]. intros _. apply Hret.
    apply triple_quiet; [apply _|respecting].
  - eapply triple_weaken; [apply (triple_quiet (seen_all f)); respecting|done|].
    intros s w (Hb & _ & Ht). by apply sound_settled.
  - apply triple_after; [apply _|respecting|]. intros _.
    eapply triple_then; [apply triple_apply_view|]. apply Hret.
    apply triple_quiet; [apply _|respecting].
  - apply triple_after; [apply _|respecting|]. intros _.
    eapply triple_then; [apply triple_snapshot|]. apply Hret.
    apply triple_quiet; [apply _|respecting].
Qed.

Lemma triple_batch n batched s : triple (settled s) (batch_output cfg n batched s) settled.
Proof.
  revert batched s. induction n as [|n IH]; intros batched s; simpl; [by apply triple_ret|].
  apply triple_read. intros workspace.
  match goal with |- context [if ?b then _ else _] => destruct b eqn:E end; [|by apply triple_ret].
  apply triple_after; [apply _|respecting|]. intros [next|]; [|by apply triple_ret].
  eapply triple_bind.
  - eapply triple_weaken; [apply triple_apply_command| |done].
    intros w [_ Hs]. apply Hs. repeat (apply andb_true_iff in E as [E ?]). done.
  - intros s'. apply IH.
Qed.

(** ** Blocking I/O *)

(** The source can be given away while a model is there, or nothing reads it. *)
Lemma retire_keeps w :
  base w → nw_io (co_ws w) = None ∨ is_Some (nw_terminal (co_ws w)) →
  base (retire_current w).1.
Proof.
  intros [Hp Hio Hd] Hc. unfold retire_current, on_ws, change. simpl.
  destruct (nw_source (co_ws w)) as [s|] eqn:Es; [|by split].
  split; [done| |done]. unfold io_ok, parked in *. simpl.
  destruct Hc as [->|[t Ht]]; [done|]. rewrite Ht in *.
  destruct (nw_io (co_ws w)) as [[]|]; naive_solver.
Qed.
Lemma triple_retire :
  triple (λ w, sound w ∧ is_Some (nw_terminal (co_ws w))) retire_current (λ _, sound).
Proof.
  intros w [[Hb Ht] [t Et]]. split; [apply retire_keeps; [done|right; by rewrite Et]|].
  unfold term_ok, retire_current, on_ws, change in *. simpl.
  destruct (nw_source (co_ws w)); simpl; by rewrite Et in *.
Qed.

#[export] Instance has_model_Stable : Stable (λ w, is_Some (nw_terminal (co_ws w))).
Proof.
  intros w w' Hq [t Ht]. pose proof (q_terminal _ _ _ Hq) as Hqt. rewrite Ht in Hqt.
  inversion Hqt; subst; by eexists.
Qed.
#[export] Instance no_model_Stable : Stable (λ w, nw_terminal (co_ws w) = None).
Proof.
  intros w w' Hq Ht. pose proof (q_terminal _ _ _ Hq) as Hqt. rewrite Ht in Hqt. by inversion Hqt.
Qed.
#[export] Instance no_io_Stable : Stable (λ w, nw_io (co_ws w) = None).
Proof. intros w w' Hq Hio. pose proof (q_io _ _ _ Hq) as Hj. rewrite Hio in Hj. by apply job_ran_None in Hj. Qed.
#[export] Instance source_Stable s : Stable (λ w, nw_source (co_ws w) = s).
Proof. intros w w' Hq Hs. by rewrite (q_source _ _ _ Hq). Qed.
#[export] Instance source_ok_Stable s : Stable (λ w, source_ok w s).
Proof. intros w w' Hq. unfold source_ok. by rewrite (q_fed _ _ _ Hq). Qed.

Lemma triple_history_progress pr :
  triple (λ w, sound w ∧ is_Some (nw_terminal (co_ws w))) (history_progress cfg pr) (λ _, sound).
Proof.
  unfold history_progress. apply triple_after; [apply _|respecting|]. intros [[]|e].
  - destruct (is_finished pr); [|by apply triple_ret; intros w []].
    apply triple_after; [apply _|respecting|]. intros _. apply triple_retire.
  - eapply triple_weaken; [apply (triple_quiet sound); respecting|by intros w []|done].
Qed.

Lemma submit_ok w pending :
  base w → io_ok (with_ws (ws_io (Some pending) (co_ws w)) w) →
  base (submit pending w).1 ∧ (term_ok w → term_ok (submit pending w).1).
Proof.
  intros [Hp Hio Hd] Hnew. unfold submit, io_submit.
  destruct (is_some (nw_io (co_ws w))) eqn:Eio; simpl.
  - split; [|done]. split; [done| |done]. revert Hio. by apply io_ok_proper.
  - destruct (executor_submit (co_env w)) as [e [|]]; simpl; (split; [|done]); by split.
Qed.

(** Reading back: without a model, the source is all there is. *)
Definition detached (w : coordinator) : Prop :=
  (sound w ∧ nw_terminal (co_ws w) = None) ∧ attended w.
#[export] Instance detached_Stable : Stable detached.
Proof. apply _. Qed.
Definition detached_at (s : CommittedSource) (w : coordinator) : Prop :=
  detached w ∧ nw_source (co_ws w) = Some s.
#[export] Instance detached_at_Stable s : Stable (detached_at s).
Proof. apply _. Qed.

Lemma detached_source w : detached w → ∃ s, nw_source (co_ws w) = Some s ∧ parked w s.
Proof.
  intros [[[Hb Ht] Hn] _]. unfold term_ok in Ht. rewrite Hn in Ht.
  destruct Ht as (s & Hs & Hok). by exists s.
Qed.
Lemma detached_parked s w : detached_at s w → parked w s.
Proof.
  intros [Hd Hs]. destruct (detached_source w Hd) as (s' & Hs' & Hok).
  rewrite Hs in Hs'. by injection Hs' as <-.
Qed.
Lemma triple_submit_read s pending :
  (∀ w, parked w s → io_ok (with_ws (ws_io (Some pending) (co_ws w)) w)) →
  triple (detached_at s) (submit pending) (λ _, sound).
Proof.
  intros Hp w Hw. pose proof (detached_parked _ _ Hw) as Hpk. destruct Hw as [[[[Hb Ht] _] _] _].
  destruct (submit_ok w pending Hb (Hp w Hpk)) as [H1 H2]. split; [done|by apply H2].
Qed.

(** A run finds its collaborators and its source; nothing is read back for a
    command other than a checkpoint. *)
Lemma triple_start_read transfer :
  (∀ c, transfer = Some c → is_checkpoint c = true) →
  triple detached (start_read cfg transfer) (λ _, sound).
Proof.
  intros Hc.
  assert (∀ s X (m : step X), respects (quiet cfg) m → triple (detached_at s) m (λ _, sound)) as Hq.
  { intros s X m Hm. eapply triple_weaken; [apply (triple_quiet sound), Hm|by intros w [[[]]]|done]. }
  unfold start_read. eapply triple_bind; [apply triple_gets|]. intros [|]; cbn [negb].
  2:{ intros w [[_ Hs] Hn]. unfold attended in Hs. congruence. }
  eapply triple_bind.
  { instantiate (1 := λ o w, ∃ s, o = Some s ∧ detached_at s w). intros w [Hw _]. simpl.
    destruct (detached_source w Hw) as (s & Hs & _). by exists s. }
  intros o w (s & -> & Hw). revert w Hw.
  change (triple (detached_at s) (memory ← acquire_memory cfg;
    match memory with
    | Ok memory0 =>
        match transfer with
        | Some (Command_Checkpoint request staging) => submit_transfer request staging memory0 s
        | _ => s0 ← submit_restore cfg memory0 s; discard_transfer transfer;; mret s0
        end
    | Err error =>
        match transfer with Some event => fail_taken error event | None => mret tt end;;
        mret (After RETRY_SOON)
    end) (λ _, sound)).
  apply triple_after; [apply _|respecting|]. intros [memory|e]; [|apply Hq; respecting].
  destruct transfer as [c|].
  - specialize (Hc c eq_refl). destruct c as [b st| |z t st|t st|request staging]; try done.
    unfold submit_transfer. eapply triple_bind; [apply triple_submit_read|].
    + intros w Hw. unfold io_ok. simpl. by split.
    + intros r. apply triple_quiet; [apply _|respecting].
  - apply (triple_bind _ _ _ (λ _, sound)); [|intros s'; by apply triple_ret].
    unfold submit_restore. apply triple_read. intros config.
    apply triple_after; [apply _|respecting|]. intros [resident|e]; [|apply Hq; respecting].
    eapply triple_bind; [apply triple_submit_read|].
    + intros w Hw. unfold io_ok. simpl. by split.
    + intros r. apply triple_quiet; [apply _|respecting].
Qed.

(** ** Parking *)

Lemma answers_locked {X} I `{!Stable I} (g : Admission → Admission * X) (φ : X → Prop) :
  tame g → (∀ w, I w → φ (g (dk_adm (co_desk w))).2) → answers I (locked (interfere cfg) g) φ.
Proof.
  intros Hg Hφ w Hw. split; [eapply stable; [by apply quiet_lock|done]|].
  unfold locked, guarded, mbind, step_bind.
  assert (quiet cfg w (interfere cfg w).1) as Hq by apply quiet_interfere.
  destruct (interfere cfg w) as [w1 []]. simpl in *.
  specialize (Hφ w1 (stable _ _ Hq Hw)). by destruct (g (dk_adm (co_desk w1))).
Qed.

Lemma answers_begin_park f t :
  answers (seen_all f) (locked (interfere cfg) (queue_begin_park t))
    (λ r, ∀ a, r = Park_Ready a → rc_offset (pa_processed a) = len f).
Proof.
  apply answers_locked; [apply _|apply tame_begin_park|]. intros w ([Hp _ _] & Hf & _) a.
  unfold queue_begin_park, on_policy. destruct (queue_is_empty _); [|done].
  destruct (begin_park t (ad_policy (dk_adm (co_desk w)))) as [p [x|e]] eqn:E; simpl; [|done].
  intros [= <-]. apply begin_park_Ok in E as (_ & _ & _ & _ & _ & _ & _ & _ & Hst & ->). simpl.
  rewrite Hst. rewrite <-Hf, <-Hp. done.
Qed.
Lemma answers_prepare_park f :
  answers (seen_all f) (prepare_park cfg)
    (λ r, ∀ x, r = Ok x → held_stream x.1.1 = f).
Proof.
  unfold prepare_park. apply answers_quiet; [apply _|respecting|]. intros [m|e]; [|apply answers_Err].
  apply answers_quiet; [apply _|respecting|]. intros [d|e].
  2:{ apply answers_quiet; [apply _|respecting|]. intros _. apply answers_Err. }
  eapply answers_bind; [apply answers_checkpoint|]. intros [c|e] Hc.
  - apply answers_ret. intros x [= <-]. by apply Hc.
  - do 2 (apply answers_quiet; [apply _|respecting|]; intros _). apply answers_Err.
Qed.

Lemma triple_start_park : triple sound (start_park cfg) (λ _, sound).
Proof.
  intros w Hw. set (f := fed w). assert (seen_all f w) as Hf by by destruct Hw.
  clearbody f. clear Hw. revert w Hf. change (triple (seen_all f) (start_park cfg) (λ _, sound)).
  assert (∀ X (m : step X), respects (quiet cfg) m → triple (seen_all f) m (λ _, sound)) as Hq.
  { intros X m Hm. apply (triple_weaken _ sound _ _ (λ _, sound));
      [apply (triple_quiet sound), Hm|by intros w (Hb & _ & Ht)|done]. }
  unfold start_park. apply triple_read. intros [|]; cbn [negb]; [|apply Hq; respecting].
  apply triple_after; [apply _|respecting|]. intros time.
  eapply triple_bind; [apply answers_begin_park|]. intros [| |attempt]; apply triple_pure; intros Ha;
    [apply Hq; respecting..|]. specialize (Ha attempt eq_refl).
  eapply triple_bind; [apply answers_prepare_park|]. intros [[[c memory] disk]|e];
    apply triple_pure; intros Hc; [|apply Hq; respecting]. specialize (Hc _ eq_refl). simpl in Hc.
  eapply triple_bind.
  - instantiate (1 := λ _, sound). intros w (Hb & Hf & Ht).
    destruct (submit_ok w (Pending_Commit attempt disk memory c None) Hb) as [H1 H2].
    + unfold io_ok. simpl. split; [|done]. unfold fed in *. simpl. rewrite Hc, Hf.
      by apply exact_all.
    + split; [done|by apply H2].
  - intros r. apply triple_quiet; [apply _|respecting].
Qed.

(** ** Finished jobs *)

(** Between runs, with the slot just emptied. *)
Definition emptied (w : coordinator) : Prop := (live w → term_ok w) ∧ nw_io (co_ws w) = None.
#[export] Instance emptied_Stable : Stable emptied.
Proof. apply _. Qed.
#[export] Instance emptied_Silent : Silent emptied.
Proof. by intros w l. Qed.
Definition emptied_parked (w : coordinator) : Prop := emptied w ∧ nw_terminal (co_ws w) = None.
#[export] Instance emptied_parked_Stable : Stable emptied_parked.
Proof. apply _. Qed.
#[export] Instance emptied_parked_Silent : Silent emptied_parked.
Proof. by intros w l. Qed.
Lemma ready_authoritative f w : ready emptied f w → authoritative w.
Proof. intros (Hb & _ & Ht & _). by split. Qed.

Lemma triple_set_source f reference descriptor disk :
  stored reference = f → rc_offset (cd_processed descriptor) = len f →
  triple (ready emptied f)
    (set_terminal None None;;
     set_source {| cs_reference := reference; cs_descriptor := descriptor; cs_disk := disk |})
    (λ _, authoritative).
Proof.
  intros Hs Ho. set (mid := λ w, (base w ∧ fed w = f) ∧ nw_io (co_ws w) = None ∧ nw_terminal (co_ws w) = None).
  apply (triple_then _ mid).
  - unfold set_terminal. apply triple_read. intros old. apply (triple_then _ mid).
    + intros w ([Hp _ Hd] & Hf & _ & Hio). split; [|done]. split; [|done].
      split; [done| |done]. unfold io_ok. simpl. by rewrite Hio.
    + apply triple_quiet; [unfold mid; apply _|respecting].
  - unfold set_source. apply triple_read. intros old. apply (triple_then _ authoritative).
    + intros w (([Hp _ Hd] & Hf) & Hio & Ht). split; [split; [done| |done]|].
      * unfold io_ok. simpl. by rewrite Hio.
      * intros _. unfold term_ok. simpl. rewrite Ht. eexists. split; [done|].
        unfold source_ok, fed in *. simpl. by rewrite Hf.
    + apply triple_quiet; [apply _|respecting].
Qed.

Lemma triple_finish_commit f attempt disk r c :
  exact f (held_stream c) (pa_processed attempt) →
  (∀ reference, r = Ok (Commit_Published reference) → stored reference = held_stream c) →
  triple (ready emptied f) (finish_commit cfg attempt disk r) (λ _, authoritative).
Proof.
  intros Hx Hr.
  assert (∀ X (m : step X), respects (quiet cfg) m →
            triple (ready emptied f) m (λ _, authoritative)) as Hq.
  { intros X m Hm. apply (triple_weaken _ authoritative _ _ (λ _, authoritative));
      [apply (triple_quiet authoritative), Hm|apply ready_authoritative|done]. }
  unfold finish_commit. destruct r as [[reference|e|e]|e]; try solve [apply Hq; respecting].
  cbv zeta. eapply triple_bind.
  - apply (answers_locked _ (queue_commit_park attempt)
             (λ b, b = true → rc_offset (pa_processed attempt) = len f)); [apply tame_commit_park|].
    intros w ([Hp _ _] & Hf & _). unfold queue_commit_park.
    destruct (commit_park attempt _ (ad_policy (dk_adm (co_desk w)))) as [p b] eqn:E. simpl.
    intros ->. apply commit_park_valid in E as (_ & _ & _ & _ & _ & E & _).
    rewrite <-E, <-Hf, <-Hp. done.
  - intros release. apply triple_pure. intros Hrel. destruct release; [|apply Hq; respecting].
    specialize (Hrel eq_refl). apply triple_set_source; [|done].
    rewrite (Hr reference eq_refl). by eapply exact_whole.
Qed.

Lemma answers_restore I `{!Stable I} f r :
  (∀ c, r = Ok c → held_stream c = f) →
  answers I (restore_terminal cfg r) (λ x, ∀ t, x = Ok t → seen t = f).
Proof.
  intros Hr. unfold restore_terminal. destruct r as [c|e]; [|apply answers_Err].
  apply answers_quiet; [apply _|respecting|]. intros config.
  apply (answers_bind _ _ _ (λ x, ∀ t, x = Some (Ok t) → seen t = f)).
  - intros w Hw. split; [eapply stable; [apply quiet_on_env|done]|]. unfold on_env.
    destruct (factory_restore c config (co_env w)) as [e x] eqn:E. simpl. intros t ->.
    rewrite (restore_seen _ _ _ _ _ E). by apply Hr.
  - intros [[t|e]|] Hx.
    + apply answers_ret. intros t' [= <-]. by apply Hx.
    + apply answers_Err.
    + apply answers_quiet; [apply _|respecting|]. intros _. apply answers_Err.
Qed.
Lemma answers_progress I `{!Stable I} f t :
  seen t = f → answers I (restored_progress cfg t) (λ x, seen x.1 = f).
Proof.
  intros Hs. unfold restored_progress. apply (answers_bind _ _ _ (λ x, seen x.1 = f)).
  - intros w Hw. destruct (term_progress t (co_env w)) as [[e t'] r] eqn:E. simpl. split.
    + eapply stable; [|exact Hw]. by apply quiet_framed.
    + by rewrite (progress_seen _ _ _ _ _ E).
  - intros [t' [r|]] Hx; simpl in *.
    + by apply answers_ret.
    + apply answers_quiet; [apply _|respecting|]. intros _. by apply answers_ret.
Qed.

Lemma triple_finish_restore f resident memory r :
  (∀ c, r = Ok c → held_stream c = f) →
  triple (ready emptied f) (finish_restore cfg resident memory r) (λ _, authoritative).
Proof.
  intros Hr.
  assert (∀ X (m : step X), respects (quiet cfg) m →
            triple (ready emptied f) m (λ _, authoritative)) as Hq.
  { intros X m Hm. apply (triple_weaken _ authoritative _ _ (λ _, authoritative));
      [apply (triple_quiet authoritative), Hm|apply ready_authoritative|done]. }
  unfold finish_restore. eapply triple_bind; [by apply answers_restore, Hr; apply _|].
  intros [terminal|e]; apply triple_pure; intros Ht; [|apply Hq; respecting].
  specialize (Ht terminal eq_refl).
  eapply triple_bind; [by apply answers_progress, Ht; apply _|].
  intros [t' progress]; apply triple_pure; intros Ht'. simpl in Ht'.
  destruct progress as [progress|e]; [|apply Hq; respecting].
  set (restored := λ w, sound w ∧ is_Some (nw_terminal (co_ws w))).
  apply (triple_then _ restored).
  { unfold set_terminal. apply triple_read. intros old. apply (triple_then _ restored).
    - intros w ([Hp _ Hd] & Hf & _ & Hio). split; [|by eexists]. split.
      + split; [done| |done]. unfold io_ok. simpl. by rewrite Hio.
      + unfold term_ok. simpl. by rewrite Ht', <-Hf.
    - apply triple_quiet; [unfold restored; apply _|respecting]. }
  apply triple_after; [unfold restored; apply _|respecting|]. intros _.
  apply triple_after; [unfold restored; apply _|apply quiet_ws; by intros|]. intros _.
  apply (triple_then _ sound); [apply triple_history_progress|].
  apply (triple_weaken _ sound _ _ (λ _, sound));
    [apply triple_quiet; [apply _|respecting]|done|]. intros _ w. apply sound_authoritative.
Qed.

Lemma triple_finish_transfer f closing request memory staging s r :
  rc_offset (cd_processed (cs_descriptor s)) = len f →
  (∀ c, r = Ok c → held_stream c = f ∧ tk_descriptor c = cs_descriptor s) →
  triple (ready emptied f) (finish_transfer closing request memory staging r) (λ _, authoritative).
Proof.
  intros Ho Hr. unfold finish_transfer.
  apply (triple_then _ (ready emptied f)).
  - destruct (if closing then _ else r) as [c|e] eqn:E.
    + apply triple_complete_request; [apply _..|]. intros c' [= <-]. simpl.
      destruct closing; [done|]. subst r. destruct (Hr c eq_refl) as [Hh Hd].
      unfold checkpoint_exact. rewrite Hh, Hd. by apply exact_all.
    + apply (triple_then _ (ready emptied f)).
      * by apply triple_complete_request; [apply _..|].
      * apply triple_quiet; [apply _|respecting].
  - apply (triple_weaken _ authoritative _ _ (λ _, authoritative));
      [apply (triple_quiet authoritative); respecting|apply ready_authoritative|done].
Qed.

(** What a finished job knows. *)
Definition finished_ok (f : list Z) (x : FinishedIo) : Prop :=
  match x with
  | Finished_Commit attempt _ _ r =>
    ∃ c, exact f (held_stream c) (pa_processed attempt)
         ∧ ∀ reference, r = Ok (Commit_Published reference) → stored reference = held_stream c
  | Finished_Restore _ _ r => ∀ c, r = Ok c → held_stream c = f
  | Finished_Transfer _ _ _ r =>
    ∃ s, rc_offset (cd_processed (cs_descriptor s)) = len f
         ∧ ∀ c, r = Ok c → held_stream c = f ∧ tk_descriptor c = cs_descriptor s
  | Finished_Delete _ _ => True
  end.

Lemma take_finished_ok f w :
  authoritative w → fed w = f →
  let (io, x) := take_finished (nw_io (co_ws w)) in
  let w' := with_ws (ws_io io (co_ws w)) w in
  match x with
  | None => authoritative w'
  | Some x => ready emptied f w' ∧ finished_ok f x
  end.
Proof.
  intros [Hb Hl] Hf. pose proof Hb as [Hp Hio Hd].
  assert (∀ io, nw_io (co_ws w) = io → authoritative (with_ws (ws_io io (co_ws w)) w)) as Hsame.
  { intros io <-. split; [split; [done| |done]|exact Hl]. revert Hio. by apply io_ok_proper. }
  assert (ready emptied f (with_ws (ws_io None (co_ws w)) w)) as Hempty.
  { split; [by split|]. split; [done|]. by split. }
  revert Hio. unfold io_ok, parked, source_ok, take_finished.
  destruct (nw_io (co_ws w)) as [[attempt disk mem c [m|]|res mem s [m|]|req mem st s [m|]|att [m|]]|]
    eqn:Eio; intros Hio; try (by apply Hsame).
  - split; [done|]. exists c. rewrite <-Hf. destruct Hio as [Hx Hr]. split; [done|].
    intros reference ->. by apply Hr.
  - split; [done|]. rewrite <-Hf. destruct Hio as [_ Hr]. intros c ->. by apply Hr.
  - split; [done|]. exists s. rewrite <-Hf. destruct Hio as [(_ & _ & _ & Ho) Hr].
    split; [done|]. intros c ->. by apply Hr.
  - done.
Qed.

Lemma triple_finish_io : triple authoritative (finish_io cfg) (λ _, authoritative).
Proof.
  intros w Hw. set (f := fed w). assert (authoritative w ∧ fed w = f) as Hf by done.
  clearbody f. clear Hw. revert w Hf.
  change (triple (λ w, authoritative w ∧ fed w = f) (finish_io cfg) (λ _, authoritative)).
  unfold finish_io. apply triple_read. intros [|]; cbn [negb]; [|by apply triple_ret; intros w []].
  eapply triple_bind.
  - instantiate (1 := λ x w, match x with
      | None => authoritative w
      | Some x => ready emptied f w ∧ finished_ok f x end).
    intros w [Hw Hf]. pose proof (take_finished_ok f w Hw Hf) as H.
    by destruct (take_finished (nw_io (co_ws w))) as [io x].
  - intros [x|]; [|by apply triple_ret]. apply triple_pure. intros Hx.
    apply triple_after; [apply _|respecting|]. intros now. cbv zeta.
    assert (∀ X (m : step X), respects (quiet cfg) m →
              triple (ready emptied f) m (λ _, authoritative)) as Hq.
    { intros X m Hm. apply (triple_weaken _ authoritative _ _ (λ _, authoritative));
        [apply (triple_quiet authoritative), Hm|apply ready_authoritative|done]. }
    destruct x as [attempt disk memory r|resident memory r|request memory staging r|attempt r].
    + destruct Hx as (c & Hx & Hr).
      apply (triple_then _ authoritative); [by eapply triple_finish_commit|].
      apply triple_quiet; [apply _|respecting].
    + destruct (closing_or_closed now); [apply Hq; respecting|]. by apply triple_finish_restore.
    + destruct Hx as (s & Ho & Hr). by eapply triple_finish_transfer.
    + apply Hq. respecting.
Qed.

(** ** The worker *)

Lemma triple_of_sound {X} (m : step X) :
  respects (quiet cfg) m → triple sound m (λ _, authoritative).
Proof.
  intros Hm. apply (triple_weaken _ sound _ _ (λ _, sound)); [by apply triple_quiet, Hm; apply _|done|].
  intros _ w. apply sound_authoritative.
Qed.

(** A deletion only takes a free slot. *)
Lemma start_delete_keeps w :
  base w → base (workspace_start_delete w).1 ∧ (term_ok w → term_ok (workspace_start_delete w).1)
  ∧ (live (workspace_start_delete w).1 → live w)
  ∧ nw_terminal (co_ws (workspace_start_delete w).1) = nw_terminal (co_ws w)
  ∧ (nw_terminal (co_ws w) = None → nw_source (co_ws (workspace_start_delete w).1) = nw_source (co_ws w)).
Proof.
  intros [Hp Hio Hd]. unfold workspace_start_delete, start_delete.
  destruct (check_out _) as [rp [a|]]; simpl.
  - unfold io_submit. destruct (is_some (nw_io (co_ws w))) eqn:Eio; simpl.
    { repeat split; try done. }
    destruct (executor_submit (co_env w)) as [e [|]]; simpl; repeat split; try done.
  - repeat split; try done.
Qed.
Lemma triple_start_delete I :
  (∀ w, I w → base w) → (∀ w, I w → term_ok w ∨ ¬ live w) →
  triple I workspace_start_delete (λ _, authoritative).
Proof.
  intros Hb Hd w Hw. destruct (start_delete_keeps w (Hb w Hw)) as (H1 & H2 & H3 & _).
  split; [done|]. intros Hl. destruct (Hd w Hw) as [Ht|Hn]; [by apply H2|]. by destruct Hn; apply H3.
Qed.

Lemma triple_history_step : triple sound (history_step cfg) (λ _, authoritative).
Proof.
  unfold history_step. eapply triple_bind; [apply triple_gets|]. intros [t|]; simpl.
  2:{ apply triple_ret. intros w [Hw _]. by apply sound_authoritative. }
  set (model := λ w, sound w ∧ is_Some (nw_terminal (co_ws w))).
  apply (triple_weaken _ model _ _ (λ _, sound));
    [|intros w [Hw Ht]; split; [done|by rewrite <-Ht]|intros _ w; apply sound_authoritative].
  apply triple_after; [unfold model; apply _|respecting|]. intros r.
  apply triple_after; [unfold model; apply _|apply quiet_ws; by intros|]. intros _.
  apply (triple_then _ sound); [|by apply triple_ret]. destruct r as [progress|e].
  - apply triple_history_progress.
  - apply (triple_weaken _ sound _ _ (λ _, sound)); [apply triple_quiet; [apply _|respecting]|by intros w []|done].
Qed.
Lemma triple_restore_step : triple sound (restore_step cfg) (λ _, authoritative).
Proof.
  unfold restore_step. apply triple_read. intros n. apply triple_after; [apply _|respecting|].
  intros [command|]; [|apply triple_history_step].
  apply triple_after; [apply _|apply quiet_ws; by intros|]. intros _.
  eapply triple_weaken; [apply triple_apply_command|done|]. by intros s w [].
Qed.
(** The queue is looked at for a checkpoint. *)
Lemma answers_take_work I `{!Stable I} :
  answers I (take_checkpoint_work cfg) (λ r, ∀ c, r = Some (Some c) → is_checkpoint c = true).
Proof.
  intros w Hw. split; [eapply stable; [apply quiet_take_work|done]|].
  unfold take_checkpoint_work, guarded, mbind, step_bind.
  destruct (interfere cfg w) as [w1 []]. unfold take_checkpoint_if_any_work, take_next_if, take_next.
  destruct (queue_is_empty _); [done|]. destruct (ad_queue _) as [|c q]; [done|].
  destruct (is_checkpoint c) eqn:E; [|done]. by intros c' [= <-].
Qed.
Lemma triple_read_back :
  triple detached (read_back_source cfg) (λ _, authoritative).
Proof.
  apply (triple_weaken _ detached _ _ (λ _, sound)); [|done|intros _ w; apply sound_authoritative].
  assert (∀ s, triple detached (mret s) (λ (_ : WorkSchedule), sound)) as Hret
    by by intros s; apply triple_ret; intros w [[] _].
  unfold read_back_source. apply triple_read. intros n. destruct (io_busy _); [apply Hret|].
  eapply triple_bind; [apply answers_take_work, _|]. intros work. apply triple_pure. intros Hc.
  destruct work as [transfer|]; [|apply Hret]. apply triple_start_read. intros c ->. by apply Hc.
Qed.
Lemma triple_idle : triple sound (idle cfg) (λ _, authoritative).
Proof.
  unfold idle. apply triple_read. intros n. destruct (io_busy _).
  { apply triple_of_sound. respecting. }
  destruct (holds_sources _).
  { apply triple_start_delete; [by intros w []|]. intros w []. by left. }
  apply triple_after; [apply _|respecting|]. intros time.
  apply triple_after; [apply _|respecting|]. intros [delay|]; [|apply triple_of_sound; respecting].
  destruct (delay =? 0); [|apply triple_of_sound; respecting].
  eapply triple_weaken; [apply triple_start_park|done|]. intros s w. apply sound_authoritative.
Qed.
Lemma triple_serve : triple sound (serve cfg) (λ _, authoritative).
Proof.
  unfold serve. apply triple_read. intros n.
  apply (triple_bind _ _ _ (λ _, sound)).
  { destruct (reapable n); [|by apply triple_ret].
    apply (triple_bind _ _ _ (λ _, sound)); [|by intros s; apply triple_ret].
    intros w [Hb Ht]. destruct (start_delete_keeps w Hb) as (H1 & H2 & _). split; [done|by apply H2]. }
  intros maintenance. apply triple_after; [apply _|respecting|]. intros [command|].
  - eapply triple_bind; [apply triple_apply_command|]. intros s.
    destruct (output_bytes command) as [n0|].
    + eapply triple_weaken; [apply triple_batch|done|]. by intros s' w [].
    + apply triple_ret. by intros w [].
  - destruct maintenance as [s|]; [apply triple_of_sound; respecting|apply triple_idle].
Qed.

(** *** Closing *)

(** Applying a finished job does not revive a projection, nor does it let go of
    the collaborators. *)
Definition fading (w w' : coordinator) : Prop :=
  (live w' → live w) ∧ (attended w → attended w').
#[export] Instance fading_PreOrder : PreOrder fading.
Proof. split; [by intros w|]. intros a b c [] []. split; auto. Qed.
Lemma fading_quiet {X} (m : step X) : respects (quiet cfg) m → respects fading m.
Proof. intros Hm w. split; [exact (quiet_live cfg _ _ (Hm w))|exact (q_services _ _ _ (Hm w))]. Qed.
Lemma fading_change f :
  (∀ w, co_desk (f w) = co_desk w ∧ co_services (f w) = co_services w) → respects fading (change f).
Proof.
  intros Hf w. destruct (Hf w) as [Hd Hs]. unfold fading, live, attended, change. simpl.
  by rewrite Hd, Hs.
Qed.
Ltac fading_step :=
  repeat (respect_step || solve [apply fading_quiet; respecting]
          || (apply fading_change; intros; done) || (unfold on_ws; apply fading_change; by intros)).

Lemma fading_abandon t : respects fading (abandon_ticket t).
Proof. unfold abandon_ticket. fading_step. Qed.
Lemma fading_complete t r : respects fading (complete_ticket t r).
Proof. unfold complete_ticket. fading_step; apply fading_abandon. Qed.
Lemma fading_complete_request request r : respects fading (complete_request request r).
Proof.
  unfold complete_request. fading_step; try apply fading_complete; apply fading_abandon.
Qed.
Lemma fading_set_terminal t l : respects fading (set_terminal t l).
Proof. unfold set_terminal. fading_step. Qed.
Lemma fading_set_source s : respects fading (set_source s).
Proof. unfold set_source. fading_step. Qed.
Lemma fading_retire : respects fading retire_current.
Proof. unfold retire_current. fading_step. Qed.
Lemma fading_history pr : respects fading (history_progress cfg pr).
Proof. unfold history_progress. fading_step. Qed.
Lemma fading_finish_io : respects fading (finish_io cfg).
Proof.
  unfold finish_io. fading_step.
  - intros w. by destruct (take_finished (nw_io (co_ws w))).
  - unfold finish_commit. fading_step; [apply fading_set_terminal|apply fading_set_source].
  - unfold finish_restore. fading_step; [apply fading_set_terminal|apply fading_history].
  - unfold finish_transfer. fading_step; apply fading_complete_request.
Qed.

Definition dead (w : coordinator) : Prop := base w ∧ ¬ live w.
#[export] Instance dead_base_Stable : Stable dead.
Proof. apply _. Qed.
Lemma dead_authoritative w : dead w → authoritative w.
Proof. by intros [? ?]. Qed.
Lemma triple_of_dead {X} (m : step X) :
  respects (quiet cfg) m → triple dead m (λ _, authoritative).
Proof.
  intros Hm. apply (triple_weaken _ dead _ _ (λ _, dead)); [by apply triple_quiet, Hm; apply _|done|].
  intros _ w. apply dead_authoritative.
Qed.

Lemma triple_dead_terminal : triple dead (set_terminal None None) (λ _, dead).
Proof.
  unfold set_terminal. apply triple_read. intros old. apply (triple_then _ dead).
  - intros w [[Hp Hio Hd] Hl]. split; [|done]. split; [done| |done]. revert Hio. by apply io_ok_proper.
  - apply triple_quiet; [apply _|respecting].
Qed.
Lemma triple_dead_retire :
  triple (λ w, dead w ∧ nw_io (co_ws w) = None) retire_current (λ _, dead).
Proof.
  intros w [[Hb Hl] Hio]. split; [apply retire_keeps; [done|by left]|].
  intros Hl'. apply Hl. by apply (fading_retire w).
Qed.
Lemma triple_dead_delete : triple dead workspace_start_delete (λ _, authoritative).
Proof. apply triple_start_delete; [by intros w []|]. intros w []. by right. Qed.

(** Letting go of the collaborators is what cannot be undone. *)
Lemma triple_release : triple dead release_wiring (λ _, dead).
Proof.
  intros w [[Hp Hio Hd] Hl]. split; [|exact Hl]. split; [exact Hp| |exact Hd].
  revert Hio. by apply io_ok_proper.
Qed.
Lemma triple_finish_cleanup error : triple dead (finish_cleanup cfg error) (λ _, authoritative).
Proof.
  unfold finish_cleanup. apply triple_after; [apply _|apply quiet_finish_close|]. intros [ws er].
  do 3 (apply triple_after; [apply _|respecting|]; intros _).
  eapply triple_then; [apply triple_release|]. apply triple_ret. apply dead_authoritative.
Qed.

Lemma triple_cleanup : triple dead (cleanup cfg) (λ _, authoritative).
Proof.
  unfold cleanup. apply triple_after; [apply _|respecting|]. intros _.
  apply (triple_then _ dead); [apply triple_dead_terminal|].
  do 2 (apply triple_after; [apply _|respecting|]; intros _).
  apply triple_after; [apply _|respecting|]. intros [s|]; [apply triple_of_dead; respecting|].
  eapply triple_bind; [apply triple_gets|]. intros n. simpl.
  destruct (io_busy (nw_io n)) eqn:Eio.
  { apply triple_ret. intros w [Hw _]. by apply dead_authoritative. }
  apply (triple_then _ dead).
  { eapply triple_weaken; [apply triple_dead_retire| |done]. intros w [Hw ->]. split; [done|].
    unfold io_busy in Eio. by destruct (nw_io (co_ws w)). }
  apply triple_after; [apply _|respecting|]. intros [failed retry].
  apply (triple_then _ dead).
  { apply triple_quiet; [apply _|]. destruct retry; [apply quiet_ws; by intros|respecting]. }
  apply triple_read. intros n'. destruct (negb _); [apply triple_finish_cleanup|].
  destruct (is_some failed); [|apply triple_dead_delete].
  apply triple_after; [apply _|respecting|]. intros _. apply triple_finish_cleanup.
Qed.

(** *** A run *)

Definition seen_residency (r : Residency) (w : coordinator) : Prop :=
  (authoritative w ∧ attended w) ∧ (live w ↔ live_residency r = true).
Lemma triple_seen_residency :
  triple (λ w, authoritative w ∧ attended w) (residency (interfere cfg)) seen_residency.
Proof.
  intros w Hw. unfold residency, status, locked, guarded, mbind, step_bind.
  assert (quiet cfg w (interfere cfg w).1) as Hq by apply quiet_interfere.
  destruct (interfere cfg w) as [w1 []]. simpl in *. split; [|done].
  eapply (and_Stable authoritative attended); [|exact Hw].
  etrans; [exact Hq|]. by apply quiet_framed.
Qed.

Lemma triple_while_failed I :
  (∀ w, I w → base w) → (∀ w, I w → term_ok w ∨ ¬ live w) →
  triple I work_while_failed (λ _, authoritative).
Proof.
  intros Hb Hd. unfold work_while_failed. apply triple_read. intros n.
  destruct (reapable n); [by apply triple_start_delete|].
  apply triple_ret. intros w Hw. split; [by apply Hb|]. intros Hl. by destruct (Hd w Hw).
Qed.

Lemma triple_work : triple (λ w, authoritative w ∧ attended w) (work cfg) (λ _, authoritative).
Proof.
  unfold work. eapply triple_bind; [apply triple_seen_residency|]. intros r.
  destruct (closing_or_closed r) eqn:Hc.
  { eapply triple_weaken; [apply triple_cleanup| |done]. intros w [[[Hb Hl] _] Hr].
    split; [done|]. rewrite Hr. by destruct r. }
  case_bool_decide as Hf.
  { apply (triple_while_failed (seen_residency r)).
    - by intros w [[[Hb _] _] _].
    - intros w [_ Hr]. right. rewrite Hr. by subst. }
  apply (triple_weaken _ (λ w, sound w ∧ attended w) _ _ (λ _, authoritative)); [| |by intros].
  2:{ intros w [[[Hb Hl] Ha] Hr]. split; [|exact Ha]. split; [exact Hb|]. apply Hl, Hr.
      destruct r; cbn in Hc |- *; congruence. }
  apply triple_after; [apply _|respecting|]. intros [s|].
  { apply triple_ret. intros w [Hw _]. by apply sound_authoritative. }
  apply triple_after; [apply _|respecting|]. intros s. destruct (is_some (ps_failure s)).
  { apply (triple_while_failed (λ w, sound w ∧ attended w)); intros w [[Hb Ht] _]; [exact Hb|by left]. }
  apply triple_after; [apply _|respecting|]. intros exit.
  apply triple_after; [apply _|respecting|]. intros _.
  apply triple_after; [apply _|respecting|]. intros _.
  eapply triple_bind; [apply triple_gets|]. intros n. simpl. unfold Phase_of.
  destruct (nw_terminal n) as [t|] eqn:Et; simpl.
  - apply (triple_weaken _ sound _ _ (λ _, authoritative)); [|by intros w [[] _]|by intros].
    case_bool_decide; [apply triple_restore_step|apply triple_serve].
  - apply (triple_weaken _ detached _ _ (λ _, authoritative)); [apply triple_read_back| |by intros].
    intros w [[Hw Ha] ->]. by split.
Qed.

Lemma triple_run : triple authoritative (run cfg) (λ _, authoritative).
Proof.
  unfold run. eapply triple_bind; [apply triple_gets|]. intros [|]; cbn [negb].
  2:{ apply triple_ret. by intros w []. }
  apply (triple_then _ (λ w, authoritative w ∧ attended w)); [|apply triple_work].
  intros w [Hw Hs]. split; [by apply triple_finish_io|]. by apply (fading_finish_io w).
Qed.

Lemma triple_failed : triple authoritative (failed cfg) (λ _, authoritative).
Proof.
  unfold failed. apply triple_failing; [by intros w []|].
  apply (triple_of_dead). respecting.
Qed.

(** *** Teardown *)

Lemma triple_abandon_close :
  triple authoritative (locked (interfere cfg) abandon_close) (λ _, dead).
Proof.
  intros w Hw. unfold locked, guarded, mbind, step_bind.
  assert (quiet cfg w (interfere cfg w).1) as Hq by apply quiet_interfere.
  destruct (interfere cfg w) as [w1 []]. simpl in *.
  destruct (quiet_authoritative _ _ Hq Hw) as [Hb _]. split.
  - eapply quiet_base; [|exact Hb]. apply quiet_framed; try done. apply tame_abandon_close.
  - unfold live, live_admission, ad_residency. simpl. unfold Policy.close, pp_residency.
    case_bool_decide as Hc; simpl; [done|]. by rewrite Hc.
Qed.
Lemma triple_shutdown : triple authoritative (finish_after_shutdown cfg) (λ _, authoritative).
Proof.
  unfold finish_after_shutdown. apply triple_after; [apply _|respecting|]. intros r.
  case_bool_decide; [by apply triple_ret|].
  do 2 (apply triple_after; [apply _|respecting|]; intros _).
  eapply triple_bind; [apply triple_abandon_close|]. intros rejected.
  apply triple_after; [apply _|respecting|]. intros _.
  apply (triple_then _ dead).
  { intros w [Hb Hl]. split; [by apply triple_finish_io|]. intros Hl'.
    by apply Hl, (fading_finish_io w). }
  apply (triple_bind _ _ _ (λ _ w, dead w ∧ nw_io (co_ws w) = None)).
  { intros w [[Hp Hio Hd] Hl]. by split. }
  intros pending. apply (triple_then _ (λ w, dead w ∧ nw_io (co_ws w) = None)).
  { apply triple_quiet; [apply _|]. destruct pending as [p|]; [|respecting].
    unfold abandon_pending. respecting. }
  apply (triple_then _ dead); [apply triple_dead_retire|].
  do 2 (apply triple_after; [apply _|respecting|]; intros _).
  apply (triple_then _ dead); [apply triple_dead_terminal|].
  apply triple_after; [apply _|respecting|]. intros _.
  apply triple_after; [apply _| |].
  { apply quiet_guarded; [apply quiet_interfere|]. intros w.
    pose proof (tame_abandon_waiters (dk_adm (co_desk w))) as Ht.
    destruct (abandon_waiters _) as [a ws]. by apply quiet_framed. }
  intros waiters. do 3 (apply triple_after; [apply _|respecting|]; intros _).
  eapply triple_weaken; [apply triple_release|done|]. intros x w. apply dead_authoritative.
Qed.
End authority.
