(* ===== verification/Waits.v ===== *)
(** * Every byte and every wait is accounted for

    The books of the whole coordinator: bytes accepted from the reader are fed,
    with the worker or queued, in order; and every wait admitted is, at any
    moment, in exactly one place - with its answer, in the queue, with the
    worker, in the resize or the job in flight, or among the close waits - so
    none is answered twice and none is forgotten. *)

From S2P Require Import Prelude Identity Process Terminal Checkpoint Projection Session View.
From S2P Require Import Policy Transfer Atomic Quota Journal StatusReport StatusScanner StatusStore.
From S2P Require Import Diagnostics Budgets Queue Admission Ports Jobs Coordinator Output Native Io Worker Stepping.

(** ** Lock sections that move nothing *)

Definition closed_of (a : Admission) : bool := bool_decide (ad_residency a = Closed).

(** Nothing published, closed, queued or waited for. *)
Record still (a a' : Admission) : Prop := {
  still_published : published_of a' = published_of a;
  still_closing : closing_of a' = closing_of a;
  still_closed : closed_of a' = closed_of a;
  still_queue : ad_queue a' = ad_queue a;
  still_waiters : ad_close_waiters a' = ad_close_waiters a
}.
Definition stills {X} (f : Admission → Admission * X) : Prop := ∀ a, still a (f a).1.

Lemma apply_op_closed op p :
  op ≠ Op_mark_closed →
  pp_residency (apply_op op p) = Closed ↔ pp_residency p = Closed.
Proof.
  intros Hop. destruct op; try done; policy_cases; simpl in *; try done;
    repeat match goal with
    | H : park_delay _ _ = Some _ |- _ => apply park_delay_Some in H as (?&?&?)
    end; unfold pp_residency in *;
    destruct (ps_residency (pp_status p)) eqn:?; simplify_eq/=; try done; set_solver.
Qed.

Lemma still_same a a' :
  ad_policy a' = ad_policy a → ad_queue a' = ad_queue a →
  ad_close_waiters a' = ad_close_waiters a → still a a'.
Proof.
  intros Hp Hq Hw. split; try done; unfold published_of, closing_of, closed_of, ad_residency, ad_status;
    by rewrite Hp.
Qed.
Lemma still_op op a a' :
  positional op = false → ad_policy a' = apply_op op (ad_policy a) →
  ad_queue a' = ad_queue a → ad_close_waiters a' = ad_close_waiters a → still a a'.
Proof.
  intros Hop Hp Hq Hw. destruct (calm_of_op op a a' Hop Hp) as [H1 _ H3]. split; try done.
  unfold closed_of, ad_residency. rewrite Hp. apply bool_decide_ext, apply_op_closed. by destruct op.
Qed.
#[export] Instance still_PreOrder : PreOrder still.
Proof. split; [by split|]. intros a b c [] []. split; congruence. Qed.

Lemma stills_read {X} (g : Admission → X) : stills (λ a, (a, g a)).
Proof. intros a. by apply still_same. Qed.
Lemma stills_policy {X} (m : action ProjectionPolicy ProjectionError X) op :
  positional op = false → (∀ p, (m p).1 = apply_op op p) → stills (on_policy m).
Proof. intros Hop Hm a. rewrite on_policy_fst. apply (still_op op); [done| |done..]. apply Hm. Qed.
Lemma stills_record_drain o : stills (record_drain o).
Proof. intros a. unfold record_drain. destruct (is_none _); by apply still_same. Qed.
Lemma stills_begin_park t : stills (queue_begin_park t).
Proof.
  intros a. unfold queue_begin_park. destruct (queue_is_empty _); [|by apply still_same]. simpl.
  pose proof (stills_policy (begin_park t) (Op_begin_park t) eq_refl (λ p, eq_refl) a) as H.
  destruct (on_policy (begin_park t) a) as [a' []]; done.
Qed.
Lemma stills_commit_park x : stills (queue_commit_park x).
Proof.
  intros a. apply (still_op (Op_commit_park x (queue_is_empty a))); [done| |unfold queue_commit_park..];
    [unfold queue_commit_park; simpl| |]; by destruct (commit_park _ _ _).
Qed.
Lemma stills_park_failed e t : stills (λ a, (queue_park_failed e t a, tt)).
Proof. intros a. by apply (still_op (Op_park_failed e t)). Qed.
Lemma stills_uncertain e t : stills (λ a, (park_outcome_uncertain e t a, tt)).
Proof. intros a. by apply (still_op (Op_park_failed e t)). Qed.
Lemma stills_maintenance e : stills (λ a, (queue_maintenance_failed e a, tt)).
Proof. intros a. by apply (still_op (Op_maintenance_failed e)). Qed.
Lemma stills_begin_restore : stills queue_begin_restore.
Proof. by apply (stills_policy _ Op_begin_restore). Qed.
Lemma stills_progress pr : stills (record_restoration_progress pr).
Proof. by apply (stills_policy _ (Op_restoration_progress pr)). Qed.
Lemma stills_control g : stills (queue_record_control_applied g).
Proof. by apply (stills_policy _ (Op_record_control_applied g)). Qed.
Lemma stills_cleanup_retry : stills take_cleanup_retry.
Proof. intros a. by apply still_same. Qed.
#[export] Hint Resolve stills_read stills_record_drain stills_begin_park stills_commit_park
  stills_park_failed stills_uncertain stills_maintenance stills_begin_restore stills_progress
  stills_control stills_cleanup_retry : steps.

(** ** The books *)

(** What the worker is doing: the command it holds, the waits of the resize and
    of the job in flight, those it is answering; and whether the projection is
    closing, or closed. *)
Record books := Books {
  bk_held : option Command;
  bk_resize : list ticket_ref;
  bk_io : list ticket_ref;
  bk_local : list ticket_ref;
  bk_closing : bool;
  bk_closed : bool
}.
Definition held h b :=
  Books h (bk_resize b) (bk_io b) (bk_local b) (bk_closing b) (bk_closed b).
Definition resizing ts b :=
  Books (bk_held b) ts (bk_io b) (bk_local b) (bk_closing b) (bk_closed b).
Definition flying ts b :=
  Books (bk_held b) (bk_resize b) ts (bk_local b) (bk_closing b) (bk_closed b).
Definition carrying ts b :=
  Books (bk_held b) (bk_resize b) (bk_io b) ts (bk_closing b) (bk_closed b).
Definition ending closing closed b :=
  Books (bk_held b) (bk_resize b) (bk_io b) (bk_local b) closing closed.
(** More for the worker to answer. *)
Definition more ts b := carrying (ts ++ bk_local b) b.

Section waits.
Context `{L : Layout} `{P : Ports}.

Definition resize_tickets (n : NativeWorkspace) : list ticket_ref :=
  match nw_resize n with Some r => [rz_ticket r] | None => [] end.
Definition io_tickets (io : InFlight) : list ticket_ref :=
  match io with Some (Pending_Transfer request _ _ _ _) => [request_ticket request] | _ => [] end.
Definition finished_tickets (f : FinishedIo) : list ticket_ref :=
  match f with Finished_Transfer request _ _ _ => [request_ticket request] | _ => [] end.

Record kept (b : books) (w : coordinator) : Prop := {
  kp_held : dk_held (co_desk w) = bk_held b;
  kp_resize : resize_tickets (co_ws w) = bk_resize b;
  kp_io : io_tickets (nw_io (co_ws w)) = bk_io b;
  kp_closing : bk_closing b = true → closing_of (dk_adm (co_desk w)) = true;
  kp_closed : closed_of (dk_adm (co_desk w)) = bk_closed b;
  kp_handle : co_handle w = false → bk_closed b = true;
  kp_settled : bk_closed b = true → ad_close_waiters (dk_adm (co_desk w)) = [];
  kp_empty : closing_of (dk_adm (co_desk w)) = true → ad_queue (dk_adm (co_desk w)) = [];
  kp_published :
    published_of (dk_adm (co_desk w)) = len (dk_accepted (co_desk w));
  kp_stream : ∃ rest,
    dk_accepted (co_desk w)
    = dk_fed (co_desk w) ++ commands_bytes (owned (co_desk w)) ++ rest
    ∧ (closing_of (dk_adm (co_desk w)) = false → rest = []);
  kp_tickets :
    dk_admitted (co_desk w) ++ dk_asked (co_desk w)
    ≡ₚ (co_done w).*1 ++ commands_tickets (owned (co_desk w)) ++ bk_resize b ++ bk_io b
       ++ ad_close_waiters (dk_adm (co_desk w)) ++ bk_local b ++ calls_tickets (co_calls w)
}.

(** Whatever the books say, they still say it. *)
Definition keeping (w w' : coordinator) : Prop := ∀ b, kept b w → kept b w'.
#[export] Instance keeping_PreOrder : PreOrder keeping.
Proof. split; [by intros w b|]. intros u v w H1 H2 b H. by apply H2, H1. Qed.

Lemma keeping_framed w w' :
  still (dk_adm (co_desk w)) (dk_adm (co_desk w')) →
  dk_held (co_desk w') = dk_held (co_desk w) → dk_accepted (co_desk w') = dk_accepted (co_desk w) →
  dk_fed (co_desk w') = dk_fed (co_desk w) → dk_admitted (co_desk w') = dk_admitted (co_desk w) →
  dk_asked (co_desk w') = dk_asked (co_desk w) → (co_done w').*1 = (co_done w).*1 →
  resize_tickets (co_ws w') = resize_tickets (co_ws w) →
  io_tickets (nw_io (co_ws w')) = io_tickets (nw_io (co_ws w)) →
  (co_handle w' = false → co_handle w = false) → co_calls w' = co_calls w → keeping w w'.
Proof.
  intros [S1 S2 S3 S4 S5] Hh Ha Hf Hd Hs Hn Hr Hi Hw Hc b [].
  split; unfold owned;
    rewrite ?S1, ?S2, ?S3, ?S4, ?S5, ?Hh, ?Ha, ?Hf, ?Hd, ?Hs, ?Hn, ?Hr, ?Hi, ?Hc; auto.
Qed.
#[local] Hint Extern 0 (still ?a ?a) => reflexivity : core.

Abbreviation keeps_books := (respects keeping).
Ltac framed := intros w; by apply keeping_framed.

Lemma keep_books b {X} (m : step X) : keeps_books m → triple (kept b) m (λ _, kept b).
Proof. apply triple_respects. intros w w' H. apply H. Qed.
Lemma books_keep {X} (m : step X) : (∀ b, triple (kept b) m (λ _, kept b)) → keeps_books m.
Proof. intros H w b Hb. by apply (H b). Qed.
Lemma keep_after b {X Y} (m : step X) (k : X → step Y) Q :
  keeps_books m → (∀ x, triple (kept b) (k x) Q) → triple (kept b) (m ≫= k) Q.
Proof. intros Hm Hk. eapply triple_bind; [by apply keep_books|]. done. Qed.

Lemma keep_on_env {X} (f : Env → Env * X) : keeps_books (on_env f).
Proof. intros w. unfold on_env. destruct (f (co_env w)). by apply keeping_framed. Qed.
Lemma keep_on_quotas {X} (f : quotas → quotas * X) : keeps_books (on_quotas f).
Proof. intros w. unfold on_quotas. destruct (f _). by apply keeping_framed. Qed.
Lemma keep_drop_quotas f : keeps_books (drop_quotas f).
Proof. apply keep_on_quotas. Qed.
Lemma keep_on_journal {X} (f : Journal task → Journal task * X) : keeps_books (on_journal f).
Proof. intros w. unfold on_journal. destruct (f _). by apply keeping_framed. Qed.
Lemma keep_notify : keeps_books notify.
Proof. apply keep_on_env. Qed.
Lemma keep_wake : keeps_books wake.
Proof.
  intros w. unfold wake. destruct (co_handle w) eqn:?; [|reflexivity]. destruct (handle_wake _).
  by apply keeping_framed.
Qed.
Lemma keep_with_env f : keeps_books (change (λ w, with_env (f w) w)).
Proof. framed. Qed.
Lemma keep_reservations f : keeps_books (change (λ w, with_reservations (f w) w)).
Proof. framed. Qed.
Lemma keep_unreclaimed f : keeps_books (change (λ w, with_unreclaimed (f w) w)).
Proof. framed. Qed.
Lemma keep_status f : keeps_books (change (λ w, with_status (f w) w)).
Proof. framed. Qed.
Lemma keep_note a c : keeps_books (change (λ w, with_desk (note_tickets [] a c (co_desk w)) w)).
Proof. intros w. apply keeping_framed; simpl; by rewrite ?app_nil_r. Qed.
Lemma keep_fail_commands cs : keeps_books (change (λ w, with_desk (fail_commands cs (co_desk w)) w)).
Proof. intros w. apply keeping_framed; simpl; by rewrite ?app_nil_r. Qed.
Lemma keep_answered t : keeps_books (change (λ w, with_desk (note_waiters [] t (co_desk w)) w)).
Proof. intros w. apply keeping_framed; simpl; by rewrite ?app_nil_r. Qed.
(** The worker's own fields. *)
Lemma keep_ws f :
  (∀ n, nw_resize (f n) = nw_resize n ∧ nw_io (f n) = nw_io n) → keeps_books (on_ws f).
Proof.
  intros Hf w. destruct (Hf (co_ws w)) as [H1 H2].
  apply keeping_framed; try done; unfold resize_tickets; simpl; by rewrite ?H1, ?H2.
Qed.
#[local] Hint Resolve keep_on_env keep_on_quotas keep_drop_quotas keep_on_journal keep_notify
  keep_wake keep_with_env keep_reservations keep_unreclaimed keep_status keep_note
  keep_fail_commands keep_answered : steps.
Lemma keep_answer_drop r : keeps_books (answer_drop r).
Proof. unfold answer_drop, transfer_drop, checkpoint_drop. respecting. Qed.
Lemma keep_notify_if : keeps_books notify_if_serving.
Proof. unfold notify_if_serving. respecting. Qed.
#[local] Hint Resolve keep_answer_drop keep_notify_if : steps.

(** *** Tickets *)

Lemma carrying_proper ts ts' b w : ts ≡ₚ ts' → kept (carrying ts b) w → kept (carrying ts' b) w.
Proof. intros Ht []. split; auto. simpl in *. by rewrite <-Ht. Qed.
Lemma carry {X} ts ts' b (m : step X) Q :
  ts ≡ₚ ts' → triple (kept (carrying ts' b)) m Q → triple (kept (carrying ts b)) m Q.
Proof. intros Ht H w Hw. apply H. revert Hw. by apply carrying_proper. Qed.
Lemma carrying_self b : carrying (bk_local b) b = b.
Proof. by destruct b. Qed.
Lemma more_nil b w : kept (more [] b) w → kept b w.
Proof. by destruct b. Qed.

Lemma answer_once b t (x : coordinator → completion) :
  triple (kept (more [t] b)) (change (λ w, with_done (co_done w ++ [(t, x w)]) w)) (λ _, kept b).
Proof.
  intros w []. split; auto. simpl in *. rewrite fmap_app. simpl.
  rewrite kp_tickets0. solve_Permutation.
Qed.
Lemma kept_abandon b t : triple (kept (more [t] b)) (abandon_ticket t) (λ _, kept b).
Proof. apply answer_once. Qed.
Lemma kept_complete b t r : triple (kept (more [t] b)) (complete_ticket t r) (λ _, kept b).
Proof.
  unfold complete_ticket. apply triple_read.
  intros [|]; [|apply (answer_once b t (λ _, Answered r))].
  apply (triple_then _ (kept b)); [apply kept_abandon|]. apply keep_books. respecting.
Qed.
(** Dropping a result does not look at the completions. *)
Lemma answer_drop_done r l w :
  (answer_drop r (with_done l w)).1 = with_done l (answer_drop r w).1
  ∧ co_done (answer_drop r w).1 = co_done w.
Proof.
  by destruct r as [[r'|v|c|t|]|e].
Qed.
(** A completion answers, and keeps everything else. *)
Lemma complete_answers b t r w :
  kept b w → ∃ w1 x, kept b w1 ∧ (complete_ticket t r w).1 = with_done (co_done w1 ++ [(t, x)]) w1.
Proof.
  intros Hw. unfold complete_ticket, gets, mbind, step_bind.
  destruct (ticket_cancelled t (co_env w)) eqn:Ht; [|by exists w, (Answered r)].
  unfold abandon_ticket, change. rewrite Ht.
  destruct (answer_drop_done r (co_done w ++ [(t, Abandoned)]) w) as [-> <-].
  exists (answer_drop r w).1, Abandoned. split; [|done]. exact (keep_answer_drop r w b Hw).
Qed.
Lemma kept_each b ts (f : ticket_ref → step ()) :
  (∀ b t, triple (kept (more [t] b)) (f t) (λ _, kept b)) →
  triple (kept (more ts b)) (for_each ts f) (λ _, kept b).
Proof.
  intros Hf. revert b. induction ts as [|t ts IH]; intros b.
  - intros w H. by apply more_nil.
  - apply (triple_then _ (kept (more ts b))); [apply (Hf (more ts b) t)|apply IH].
Qed.
Lemma kept_fail_command b e c :
  triple (kept (more (command_tickets c) b)) (fail_command e c) (λ _, kept b).
Proof.
  unfold fail_command. apply (triple_then _ (kept b)); [|apply keep_books; respecting].
  apply kept_each. intros b' t. apply kept_complete.
Qed.
Lemma kept_fail_commands b e cs :
  triple (kept (more (commands_tickets cs) b)) (for_each cs (fail_command e)) (λ _, kept b).
Proof.
  revert b. induction cs as [|c cs IH]; intros b.
  - intros w H. by apply more_nil.
  - apply (triple_then _ (kept (more (commands_tickets cs) b))); [|apply IH].
    eapply carry; [|apply (kept_fail_command (more (commands_tickets cs) b))].
    unfold commands_tickets. csimpl. by rewrite app_assoc.
Qed.
Lemma kept_request b request r :
  triple (kept (more [request_ticket request] b)) (complete_request request r) (λ _, kept b).
Proof.
  destruct request as [t|t permit]; simpl; [apply kept_complete|].
  apply triple_read. intros [|].
  - apply (triple_then _ (kept b)); [apply kept_abandon|apply keep_books; respecting].
  - apply keep_after; [|intros x; apply kept_complete].
    unfold open_transfer, checkpoint_drop, transfer_drop, checkpoint_drop. respecting.
Qed.
Lemma kept_fail_request b request e :
  triple (kept (more [request_ticket request] b)) (fail_request request e) (λ _, kept b).
Proof.
  unfold fail_request, permit_drop. apply (triple_then _ (kept b)); [apply kept_complete|].
  apply keep_books. respecting.
Qed.

(** *** Lock sections *)

Section entered.
Context (enter : step ()) (Henter : keeps_books enter).

Lemma keep_guarded {X} (body : step X) : keeps_books body → keeps_books (guarded enter body).
Proof. by apply respects_guarded; [apply _|]. Qed.
Lemma keep_locked {X} (f : Admission → Admission * X) : stills f → keeps_books (locked enter f).
Proof.
  intros Hf. apply keep_guarded. intros w. specialize (Hf (dk_adm (co_desk w))).
  destruct (f (dk_adm (co_desk w))) as [a x]. by apply keeping_framed.
Qed.
(** A section of its own effect. *)
Lemma kept_locked b {X} (f : Admission → Admission * X) Q :
  triple (kept b) (λ w, let (a, x) := f (dk_adm (co_desk w)) in
                        (with_desk (put_adm a (co_desk w)) w, x)) Q →
  triple (kept b) (locked enter f) Q.
Proof. intros H. apply (triple_then _ (kept b)); [by apply keep_books|done]. Qed.
Lemma keep_read_status : keeps_books (status enter).
Proof. apply keep_locked, stills_read. Qed.
Lemma keep_residency : keeps_books (residency enter).
Proof. unfold residency. respecting. apply keep_read_status. Qed.

(** What a failing projection hands back. *)
Lemma outputs_bytes q : commands_bytes (List.filter is_output q) = commands_bytes q.
Proof. apply commands_bytes_outputs. Qed.
Lemma kept_queue_fail b e :
  triple (kept b) (locked enter (queue_fail e)) (λ x, kept (more (commands_tickets x.1) b)).
Proof.
  apply kept_locked. intros w []. simpl.
  pose proof (still_op (Op_fail e) (dk_adm (co_desk w)) (with_policy (fail e) (dk_adm (co_desk w)))
                eq_refl eq_refl eq_refl eq_refl) as [S1 S2 S3 S4 S5].
  set (a := set_queue (List.filter is_output (ad_queue (dk_adm (co_desk w))))
              (with_policy (fail e) (dk_adm (co_desk w)))).
  assert (closing_of a = closing_of (dk_adm (co_desk w))) as Hc by exact S2.
  assert (closed_of a = closed_of (dk_adm (co_desk w))) as Hcl by exact S3.
  assert (published_of a = published_of (dk_adm (co_desk w))) as Hp by exact S1.
  split; simpl; try done; try (by rewrite ?Hc, ?Hcl, ?Hp; auto).
  - rewrite Hc. intros H. by rewrite kp_empty0.
  - rewrite Hc. destruct kp_stream0 as (rest & H & Hr). exists rest. split; [|done]. rewrite H.
    unfold owned. simpl. by rewrite !commands_bytes_app, commands_bytes_outputs.
  - rewrite kp_tickets0. unfold owned. simpl. rewrite !commands_tickets_app.
    rewrite commands_tickets_outputs, commands_tickets_others. solve_Permutation.
Qed.
Lemma kept_fail b e : triple (kept b) (co_fail enter e) (λ _, kept b).
Proof.
  unfold co_fail. eapply triple_bind; [apply kept_queue_fail|]. intros [rejected drain]. simpl.
  apply keep_after; [respecting|]. intros _.
  apply (triple_then _ (kept b)); [apply kept_fail_commands|]. apply keep_books. respecting.
Qed.
Lemma keep_fail e : keeps_books (co_fail enter e).
Proof. apply books_keep. intros b. apply kept_fail. Qed.

Lemma kept_take b take :
  takes take →
  triple (kept (held None b)) (take_with enter take) (λ c, kept (held c b)).
Proof.
  intros Ht. apply (triple_then _ (kept (held None b))); [by apply keep_books|].
  intros w Hw. pose proof (kp_held _ _ Hw) as Hh. simpl in Hh. rewrite Hh. unfold worker_take.
  rewrite Hh. specialize (Ht (dk_adm (co_desk w))). destruct (take (dk_adm (co_desk w))) as [a [c|]].
  2:{ subst a. simpl. revert Hw. by apply keeping_framed. }
  destruct Ht as (q & Hq & ->). destruct Hw. simpl in *.
  split; simpl; try done; try (by auto).
  - intros H. rewrite Hq in kp_empty0. by discriminate kp_empty0.
  - revert kp_stream0. unfold owned. simpl. by rewrite Hh, Hq.
  - revert kp_tickets0. unfold owned. simpl. by rewrite Hh, Hq.
Qed.
Lemma kept_requeue b c :
  triple (kept (held (Some c) b)) (co_requeue enter c) (λ _, kept (held None b)).
Proof.
  unfold co_requeue. eapply triple_bind.
  { apply (triple_then _ (kept (held (Some c) b))); [by apply keep_books|].
    instantiate (1 := λ back, kept (more (commands_tickets (option_list back)) (held None b))).
    intros w []. unfold requeue. fold (closing_of (dk_adm (co_desk w))). simpl in *.
    destruct (closing_of (dk_adm (co_desk w))) eqn:Hc; split; simpl; try done; try (by auto).
    - destruct kp_stream0 as (rest & H & Hr). exists (command_bytes c ++ rest).
      split; [|intros Hf; by rewrite Hc in Hf].
      rewrite H. unfold owned. simpl. rewrite kp_held0, (kp_empty0 eq_refl). simpl.
      unfold commands_bytes. csimpl. by rewrite app_nil_r.
    - rewrite kp_tickets0. unfold owned. simpl. rewrite kp_held0, (kp_empty0 eq_refl).
      unfold commands_tickets. csimpl. rewrite app_nil_r. solve_Permutation.
    - intros H. by apply kp_closing0 in H.
    - intros H. change (closing_of (dk_adm (co_desk w)) = true) in H. by rewrite Hc in H.
    - change (closing_of (set_queue (c :: ad_queue (dk_adm (co_desk w))) (dk_adm (co_desk w))))
        with (closing_of (dk_adm (co_desk w))). rewrite Hc. revert kp_stream0. unfold owned. simpl. rewrite kp_held0. done.
    - revert kp_tickets0. unfold owned. simpl. rewrite kp_held0. done. }
  intros [c'|]; simpl.
  - eapply carry; [|apply (kept_fail_command (held None b))].
    unfold commands_tickets. csimpl. by rewrite app_nil_r.
  - apply triple_ret. intros w. apply more_nil.
Qed.

End entered.

(** *** Calls, section by section *)

Section calls.
Context (cfg : ProjectionConfig).

Lemma keep_at_lock {X} (f : Admission → Admission * X) : stills f → keeps_books (at_lock f).
Proof. apply keep_locked, respects_ret. apply _. Qed.
Lemma kept_at_lock b {X} (f : Admission → Admission * X) Q :
  triple (kept b) (λ w, let (a, x) := f (dk_adm (co_desk w)) in
                        (with_desk (put_adm a (co_desk w)) w, x)) Q →
  triple (kept b) (at_lock f) Q.
Proof. apply kept_locked, respects_ret. apply _. Qed.

(** A section that admits; what it queues is noted in the same section. *)
Lemma kept_admit_with b {X} (f : quotas → Admission → quotas * Admission * X) Q :
  (∀ w, kept b w → let d := co_desk w in
     let '(qs, a, x) := f (dk_quotas d) (dk_adm d) in
     Q x (with_desk (put a qs (dk_held d) (dk_working d) d) w)) →
  triple (kept b) (admit_with f) Q.
Proof.
  intros H w Hw. specialize (H w Hw). unfold admit_with. simpl in *.
  by destruct (f _ _) as [[qs a] x].
Qed.

Lemma kept_output b sq n bytes observed allocated time :
  triple (kept b)
    (admit_with (queue_admit_output
       (stage_output_closure sq n bytes observed allocated time)))
    (λ o w, kept b (match o with
                    | Outcome_Queued => with_desk (note_stream bytes [] 0 (co_desk w)) w
                    | _ => w
                    end)).
Proof.
  apply kept_admit_with. intros w Hw d. unfold queue_admit_output.
  destruct (admitting_run _ _ _) as [[qs a] o] eqn:E. apply stage_output_closure_cases in E.
  destruct o as [c| |why].
  2:{ destruct E as [-> _]. revert Hw. by apply keeping_framed. }
  2:{ destruct E as [-> _]. revert Hw. by apply keeping_framed. }
  destruct E as (lease & -> & _ & _ & _ & Hc & _ & [p ->] & Hp & _ & _ & Hc' & _). subst d.
  unfold published_of, closing_of, ad_residency, ad_status in Hp, Hc'. simpl in Hp, Hc'.
  destruct Hw. unfold closed_of, closing_of, ad_residency in *.
  assert (bk_closed b = false) as Hncl.
  { rewrite <-kp_closed0. apply bool_decide_eq_false. intros H. by rewrite H in Hc. }
  split; simpl; unfold closed_of, closing_of, published_of, ad_residency, ad_status, owned; simpl;
    rewrite ?app_nil_r; try done.
  - intros H. apply kp_closing0 in H. by rewrite H in Hc.
  - rewrite Hncl. apply bool_decide_eq_false. intros H. by rewrite H in Hc'.
  - intros H. by rewrite H in Hc'.
  - unfold published_of, ad_status in kp_published0. rewrite len_app, Hp. lia.
  - exists []. split; [|done]. destruct kp_stream0 as (rest & H & Hr). rewrite (Hr Hc), app_nil_r in H.
    unfold owned in H. rewrite H, app_nil_r, app_assoc, !commands_bytes_app. unfold commands_bytes at 4.
    csimpl. by rewrite app_nil_r, !app_assoc.
  - rewrite kp_tickets0. unfold owned. rewrite !commands_tickets_app. unfold commands_tickets at 4.
    csimpl. by rewrite app_nil_r.
Qed.

Definition builds (build : Admitting quotas (result ProjectionError Command)) (t : ticket_ref)
    : Prop :=
  ∀ qs a qs' a' r, admitting_run build qs a = (qs', a', r) →
    still a a' ∧ ∀ c, r = Ok c → command_tickets c = [t] ∧ is_output c = false.
Lemma builds_resize size t timing time : builds (resize_closure size t timing no_staging time) t.
Proof.
  intros qs a qs' a' r. unfold resize_closure. simpl.
  destruct (ad_output_drain a); simpl; [intros [= <- <- <-]; by split|].
  pose proof (stills_policy (record_activity time) (Op_record_activity time) eq_refl (λ p, eq_refl) a) as H.
  destruct (on_policy _ a) as [a1 [[]|e]]; simpl; intros [= <- <- <-]; split; try done.
  by intros c [= <-].
Qed.
Lemma builds_view t : builds (view_closure t no_staging) t.
Proof. intros qs a qs' a' r [= <- <- <-]. split; [done|]. by intros c [= <-]. Qed.
Lemma builds_checkpoint t : builds (checkpoint_closure t no_staging) t.
Proof. intros qs a qs' a' r [= <- <- <-]. split; [done|]. by intros c [= <-]. Qed.
Lemma builds_transfer t permit : builds (transfer_closure t permit no_staging) t.
Proof. intros qs a qs' a' r [= <- <- <-]. split; [done|]. by intros c [= <-]. Qed.

Lemma kept_control b build t :
  builds build t →
  triple (kept b) (admit_with (queue_admit build))
    (λ r w, kept b (match r with
                    | Ok _ => with_desk (note_tickets [t] [] [] (co_desk w)) w
                    | Err _ => w
                    end)).
Proof.
  intros Hb. apply kept_admit_with. intros w Hw d. unfold queue_admit.
  destruct (check_accepting _) as [[]|] eqn:Ec; [|revert Hw; by apply keeping_framed].
  apply check_accepting_open in Ec.
  destruct (admitting_run _ _ _) as [[qs a] [c|e]] eqn:E; apply Hb in E as [Hs Hc];
    [|revert Hw; by apply keeping_framed].
  destruct (Hc c eq_refl) as [Ht Ho]. subst d.
  assert (kept b (with_desk (put a qs (dk_held (co_desk w)) (dk_working (co_desk w)) (co_desk w)) w))
    as Hw' by (revert Hw; by apply keeping_framed).
  rewrite <-(still_closing _ _ Hs) in Ec. clear Hw Hs. destruct Hw'. simpl in *.
  split; simpl; rewrite ?app_nil_r; try done.
  - intros H. change (closing_of a = true) in H. by rewrite H in Ec.
  - exists []. split; [|done]. destruct kp_stream0 as (rest & H & Hr). rewrite (Hr Ec), app_nil_r in H.
    rewrite H. unfold owned. simpl. rewrite (app_assoc (option_list _)), !(commands_bytes_app _ [c]).
    unfold commands_bytes at 3. csimpl. by rewrite (control_bytes c Ho), !app_nil_r.
  - unfold owned. simpl. rewrite (app_assoc (option_list _)), (commands_tickets_app _ [c]).
    unfold commands_tickets at 2. csimpl. rewrite Ht, app_nil_r.
    rewrite <-(app_assoc (dk_admitted _)), (Permutation_app_comm [t]), app_assoc, kp_tickets0.
    unfold owned. simpl. solve_Permutation.
Qed.

Lemma builds_control c t time : builds (control_closure c t time) t.
Proof.
  destruct c; [apply builds_resize|apply builds_view|apply builds_checkpoint|apply builds_transfer].
Qed.
Lemma kept_noted b f : triple (λ w, kept b (f w)) (change f) (λ _, kept b).
Proof. by intros w Hw. Qed.

(** A close takes the queue, and its own wait is asked for. *)
Lemma kept_clear b w a t :
  kept b w → bk_closed b = false →
  published_of a = published_of (dk_adm (co_desk w)) → closing_of a = true → closed_of a = false →
  ad_queue a = [] → ad_close_waiters a = ad_close_waiters (dk_adm (co_desk w)) ++ option_list t →
  kept (ending true false (more (commands_tickets (ad_queue (dk_adm (co_desk w)))) b))
    (with_desk (note_waiters (option_list t) [] (put_adm a (co_desk w))) w).
Proof.
  intros [] Hb Hp Hc Hcl Hq Hw. split; simpl; rewrite ?app_nil_r; try done; auto.
  - intros H. by rewrite Hb in kp_handle0; apply kp_handle0.
  - by rewrite Hp.
  - destruct kp_stream0 as (rest & H & Hr). exists (commands_bytes (ad_queue (dk_adm (co_desk w))) ++ rest).
    rewrite H. unfold owned. simpl. rewrite Hq, Hc, !commands_bytes_app. simpl. by rewrite <-!app_assoc.
  - rewrite app_assoc, kp_tickets0. unfold owned. simpl. rewrite Hq, Hw, !commands_tickets_app. simpl.
    rewrite app_nil_r. solve_Permutation.
Qed.
Lemma ending_weaken b closed w : kept (ending true closed b) w → kept (ending (bk_closing b) closed b) w.
Proof. intros []. split; auto. Qed.
Lemma close_admission a f :
  ad_policy f = close (ad_policy a) → closed_of a = false →
  published_of f = published_of a ∧ closing_of f = true ∧ closed_of f = false.
Proof.
  intros Hf Hc. destruct (close_calm a _ eq_refl) as (Hp & _ & Hcl).
  pose proof (apply_op_closed Policy.Op_close (ad_policy a) ltac:(done)) as Hst.
  unfold closed_of, published_of, closing_of, ad_residency, ad_status in *. rewrite Hf.
  split; [exact Hp|]. split; [exact Hcl|]. apply bool_decide_eq_false in Hc.
  apply bool_decide_eq_false. intros H. by apply Hc, Hst.
Qed.
Lemma kept_close b t :
  triple (kept b) (at_lock (request_close t)) (λ r w,
    match r with
    | AlreadyClosed _ => kept b w
    | Close_Started rejected =>
      kept (more (commands_tickets rejected) b)
        (with_desk (note_waiters (option_list t) [] (co_desk w)) w)
    end).
Proof.
  apply kept_at_lock. intros w Hw. unfold request_close. case_bool_decide as Hc; simpl.
  { revert Hw. by apply keeping_framed. }
  assert (bk_closed b = false) as Hb by (rewrite <-(kp_closed _ _ Hw); by apply bool_decide_eq_false).
  pose proof (kp_closed _ _ Hw) as Hcd. rewrite Hb in Hcd.
  destruct (close_admission (dk_adm (co_desk w)) (set_queue [] (set_cleanup
    (ad_close_waiters (dk_adm (co_desk w)) ++ option_list t) (ad_unreclaimed_failure (dk_adm (co_desk w)))
    None true (with_policy close (dk_adm (co_desk w))))) eq_refl Hcd) as (Hp & Hcl & Hst).
  pose proof (kept_clear b w _ t Hw Hb Hp Hcl Hst eq_refl eq_refl) as H.
  apply ending_weaken in H. revert H. destruct b. simpl in *. by subst.
Qed.
(** The wait of a projection already closed is answered next. *)
Lemma kept_asked b t :
  triple (kept b) (change (λ w, with_desk (note_waiters t [] (co_desk w)) w)) (λ _, kept (more t b)).
Proof.
  intros w []. split; simpl; rewrite ?app_nil_r; auto.
  rewrite app_assoc, kp_tickets0. unfold owned. simpl. solve_Permutation.
Qed.
Lemma keep_exited : keeps_books notify_process_exited.
Proof.
  intros w b [].
  unfold notify_process_exited, record_process_exit. destruct (ad_process_exit_queued _); simpl;
    [|destruct (check_accepting _) as [[]|] eqn:Ec; simpl];
    split; simpl; rewrite ?app_nil_r; auto.
  - apply check_accepting_open in Ec. intros H.
    change (closing_of (dk_adm (co_desk w)) = true) in H. by rewrite H in Ec.
  - unfold owned. simpl. rewrite (app_assoc (option_list _)), commands_bytes_app.
    unfold commands_bytes at 2. csimpl. by rewrite app_nil_r.
  - unfold owned. simpl. rewrite (app_assoc (option_list _)), commands_tickets_app.
    unfold commands_tickets at 2. csimpl. by rewrite app_nil_r.
Qed.

(** The waits a list of sections has to answer. *)
Lemma sections_tickets_app l k : sections_tickets (l ++ k) = sections_tickets l ++ sections_tickets k.
Proof. apply bind_app. Qed.
Lemma sections_reject e q : sections_tickets (Sec_reject e <$> q) = commands_tickets q.
Proof. induction q as [|c q IH]; [done|]. unfold sections_tickets, commands_tickets in *. csimpl. by rewrite IH. Qed.
Lemma sections_answer o t : sections_tickets ((λ t, Sec_answer t o) <$> option_list t) = option_list t.
Proof. by destruct t. Qed.
Lemma rest_of_call b ts m w : kept (more (ts ++ []) b) w → m = ts → kept (more m b) w.
Proof. rewrite app_nil_r. by intros H ->. Qed.

Lemma ret_sections b ts l :
  sections_tickets l = ts → triple (kept (more ts b)) (mret l) (λ next, kept (more (sections_tickets next) b)).
Proof. intros <-. by apply triple_ret. Qed.
Lemma ret_none b l :
  sections_tickets l = [] → triple (kept b) (mret l) (λ next, kept (more (sections_tickets next) b)).
Proof. intros Hl. apply triple_ret. intros w Hw. rewrite Hl. by destruct b. Qed.

#[local] Hint Resolve keep_at_lock stills_read stills_record_drain : steps.
Ltac sections :=
  repeat first
    [ apply ret_none; repeat case_match; done
    | apply keep_after; [solve [respecting]|intros ?]
    | match goal with |- triple _ (match ?x with _ => _ end) _ => destruct x end ].

Lemma kept_admit_output b bytes observed allocated :
  triple (kept b) (admit_output cfg bytes observed allocated)
    (λ next, kept (more (sections_tickets next) b)).
Proof.
  unfold admit_output. apply keep_after; [respecting|]. intros time.
  eapply triple_bind; [apply kept_output|]. intros [| |why]; simpl; [|by apply ret_none..].
  eapply triple_then; [apply (kept_noted b (λ w, with_desk (note_stream bytes [] 0 (co_desk w)) w))|].
  sections.
Qed.
Lemma kept_co_admit b c t slot :
  triple (kept b) (co_admit c t slot) (λ next, kept (more (sections_tickets next) b)).
Proof.
  unfold co_admit, keep_slot. apply keep_after; [respecting|]. intros time.
  eapply triple_bind; [apply kept_control, builds_control|]. intros [[]|e]; simpl; [|by apply ret_none].
  eapply triple_then; [apply (kept_noted b (λ w, with_desk (note_tickets [t] [] [] (co_desk w)) w))|].
  sections.
Qed.
Lemma kept_call_fail b e :
  triple (kept b) (call_fail e) (λ next, kept (more (sections_tickets next) b)).
Proof.
  unfold call_fail. eapply triple_bind; [apply kept_queue_fail, respects_ret; apply _|].
  intros [rejected drain]. apply ret_sections.
  change (?x :: ?l) with ([x] ++ l). rewrite !sections_tickets_app, sections_reject. simpl.
  by rewrite app_nil_r.
Qed.
Lemma kept_close_request b t reserved :
  triple (kept b) (close_request t reserved) (λ next, kept (more (sections_tickets next) b)).
Proof.
  unfold close_request. eapply triple_bind; [apply kept_close|]. intros [outcome|rejected]; simpl.
  - eapply triple_then; [apply kept_asked|]. apply ret_sections.
    rewrite sections_tickets_app, sections_answer. by rewrite app_nil_r.
  - eapply triple_then;
      [apply (kept_noted _ (λ w, with_desk (note_waiters (option_list t) [] (co_desk w)) w))|].
    apply ret_sections. change (?x :: ?l) with ([x] ++ l).
    rewrite !sections_tickets_app, sections_reject. simpl. by rewrite app_nil_r.
Qed.

(** A section passes its waits on to the sections that follow it. *)
Lemma kept_section b s :
  triple (kept (more (section_tickets s) b)) (run_section cfg s)
    (λ next, kept (more (sections_tickets next) b)).
Proof.
  destruct s; cbn [section_tickets run_section];
    try match goal with |- triple (kept (more [] b)) _ _ => replace (more [] b) with b by by destruct b end;
    try (unfold co_stage_output, co_resize, co_begin_transfer, reserve_slot, stage_control, refuse,
           call_wake, end_journal, co_close, reserve_request_slot, keep_slot, close_journal,
           close_wake, close_check, notify_output_drained, drained_wake, drained_check; solve [sections]).
  - apply kept_admit_output.
  - apply kept_co_admit.
  - apply kept_call_fail.
  - eapply triple_then; [apply kept_fail_command|by apply ret_none].
  - apply kept_close_request.
  - unfold answer_close. eapply triple_then; [apply kept_complete|]. sections.
  - intros w Hw. pose proof (keep_exited w _ Hw) as H. revert H. unfold notify_process_exited.
    destruct (record_process_exit _) as [a [|]]; by destruct b.
  - unfold drained_check. apply keep_after; [apply keep_residency, respects_ret; apply _|]. intros r.
    sections.
  - intros w Hw. destruct b. revert Hw. by apply keeping_framed.
Qed.

Lemma delete_put {X} (i : nat) (x : X) (l : list X) : delete i (<[i:=x]> l) = delete i l.
Proof. revert i. induction l as [|y l IH]; intros [|i]; [done..|]. simpl. f_equal. apply IH. Qed.
(** A call in progress is taken up, and put back with what is left of it. *)
Lemma calls_at i l calls :
  calls !! i = Some l → calls_tickets calls ≡ₚ sections_tickets l ++ calls_tickets (delete i calls).
Proof. intros H. apply delete_Permutation in H. unfold calls_tickets. rewrite H at 1. done. Qed.
Lemma calls_put i l rest calls :
  calls !! i = Some rest →
  calls_tickets (match l with [] => delete i calls | _ => <[i := l]> calls end)
  ≡ₚ sections_tickets l ++ calls_tickets (delete i calls).
Proof.
  intros H. destruct l as [|s l]; [done|]. rewrite (calls_at i (s :: l)).
  - by rewrite delete_put.
  - apply list_lookup_insert_eq. by eapply lookup_lt_Some.
Qed.
Lemma kept_taken b i s rest w :
  co_calls w !! i = Some (s :: rest) → kept b w →
  kept (more (section_tickets s) b) (with_calls (<[i := rest]> (co_calls w)) (co_returned w) w).
Proof.
  intros Hi []. split; simpl; auto.
  assert (calls_tickets (co_calls w)
          ≡ₚ section_tickets s ++ calls_tickets (<[i := rest]> (co_calls w))) as Hc.
  { rewrite (calls_at i _ _ Hi), (calls_at i rest (<[i := rest]> (co_calls w))).
    - rewrite delete_put. unfold sections_tickets at 1. csimpl. by rewrite app_assoc.
    - apply list_lookup_insert_eq. by eapply lookup_lt_Some. }
  rewrite kp_tickets0, Hc. solve_Permutation.
Qed.
Lemma kept_put b i next rest w :
  co_calls w !! i = Some rest → kept (more (sections_tickets next) b) w →
  kept b (set_call i (next ++ rest) w).
Proof.
  intros Hi []. unfold set_call. split; simpl; auto. simpl in *.
  rewrite (calls_put i _ rest), sections_tickets_app by done.
  rewrite (calls_at i rest (co_calls w)) in kp_tickets0 by done.
  rewrite kp_tickets0. solve_Permutation.
Qed.
Lemma keep_resume i : keeps_books (resume_call cfg i).
Proof.
  intros w b Hw. unfold resume_call, gets, mbind, step_bind, change.
  destruct (co_calls w !! i) as [[|s rest]|] eqn:Hi; [|  |done].
  { apply (kept_put b i [] []); [done|by destruct b]. }
  pose proof (kept_taken b i s rest w Hi Hw) as H1. set (w1 := with_calls _ _ w) in *.
  assert (co_calls w1 !! i = Some rest) as Hi1
    by (apply list_lookup_insert_eq; by eapply lookup_lt_Some).
  pose proof (kept_section b s w1 H1) as H2. pose proof (st_calls _ _ (steady_section cfg s w1)) as Hs.
  destruct (run_section cfg s w1) as [w2 next]. simpl in *.
  apply kept_put; [by rewrite Hs|done].
Qed.
Lemma keep_begin s : section_tickets s = [] → keeps_books (begin_call s).
Proof.
  intros Hs w b []. split; simpl; auto.
  assert (calls_tickets (co_calls w ++ [[s]]) = calls_tickets (co_calls w)) as ->; [|done].
  unfold calls_tickets. rewrite bind_app. unfold sections_tickets at 3. csimpl.
  rewrite Hs. simpl. by rewrite app_nil_r.
Qed.

Lemma keep_job : keeps_books (change (λ w,
  let (io, e) := run_job (pg_compatibility cfg) (pg_protected_bytes cfg)
                   (tc_checkpoint_bytes (nw_config (co_ws w))) (nw_io (co_ws w)) (co_env w) in
  with_ws (ws_io io (co_ws w)) (with_env e w))).
Proof.
  intros w. unfold change. simpl. destruct (run_job _ _ _ _ _) as [io e] eqn:E.
  apply keeping_framed; try done. simpl. revert E. unfold run_job.
  repeat case_match; intros; simplify_eq/=; done.
Qed.
Lemma keep_call call : keeps_books (run_call cfg call).
Proof.
  destruct call; unfold run_call; try (by apply keep_begin); respecting; [apply keep_resume|apply keep_job].
Qed.
End calls.

Lemma keep_interfere cfg : keeps_books (interfere cfg).
Proof.
  intros w. unfold interfere. destruct (co_script w) as [|calls rest]; [reflexivity|].
  trans (with_script rest w); [by apply keeping_framed|].
  apply respects_for_each; [apply _|]. apply keep_call.
Qed.
End waits.

#[export] Hint Resolve keep_on_env keep_on_quotas keep_drop_quotas keep_on_journal keep_notify
  keep_wake keep_with_env keep_reservations keep_unreclaimed keep_status keep_note
  keep_fail_commands keep_answered keep_answer_drop keep_notify_if keep_interfere keep_guarded
  keep_locked keep_read_status keep_residency keep_fail : steps.

(** ** The worker *)

Section worker.
Context `{L : Layout} `{P : Ports} `{A : Allocation} (cfg : ProjectionConfig).
Abbreviation keeps_books := (respects keeping).
Abbreviation enter := (interfere cfg).

Lemma keep_lock {X} (f : Admission → Admission * X) : stills f → keeps_books (locked enter f).
Proof. apply keep_locked, keep_interfere. Qed.
Lemma keep_failed_now e : keeps_books (co_fail enter e).
Proof. apply keep_fail, keep_interfere. Qed.
Lemma keep_status_now : keeps_books (status enter).
Proof. apply keep_read_status, keep_interfere. Qed.
Lemma keep_residency_now : keeps_books (residency enter).
Proof. apply keep_residency, keep_interfere. Qed.
Lemma keep_on_ws f :
  (∀ n, nw_resize (f n) = nw_resize n ∧ nw_io (f n) = nw_io n) → keeps_books (on_ws f).
Proof. apply keep_ws. Qed.
Lemma keep_told f : stills (λ a, (f a, tt)) → keeps_books (told cfg f).
Proof. apply keep_lock. Qed.
#[local] Hint Resolve keep_lock keep_failed_now keep_status_now keep_residency_now keep_told : steps.
Ltac keeping_ws := solve [apply keep_on_ws; by intros].
Ltac working := respecting; try keeping_ws.

Lemma keep_native_call {X} (work : Term → Env → Env * Term * option (result TerminalError X)) :
  keeps_books (native_call cfg work).
Proof.
  unfold native_call. respecting. intros w. destruct (work _ _) as [[e t1] r]. by apply keeping_framed.
Qed.
#[local] Hint Resolve keep_native_call : steps.
Lemma keep_staging_drop s : keeps_books (staging_drop s).
Proof. unfold staging_drop. working. Qed.
Lemma keep_prepare_leases a b c d e p m : keeps_books (prepare_leases cfg a b c d e p m).
Proof. unfold prepare_leases, view_lease. working. Qed.
Lemma keep_prepare_status bs n : keeps_books (prepare_status cfg bs n).
Proof. unfold prepare_status, view_lease. working. apply keep_prepare_leases. Qed.
Lemma keep_prepared_drop p : keeps_books (prepared_drop p).
Proof. unfold prepared_drop. working. Qed.
Lemma keep_commit_status p m : keeps_books (commit_status p m).
Proof. unfold commit_status. working. Qed.
Lemma keep_exit_store d : keeps_books (exit_store d).
Proof. unfold exit_store. working. Qed.
#[local] Hint Resolve keep_staging_drop keep_prepare_status keep_prepared_drop keep_commit_status
  keep_exit_store : steps.
Lemma keep_program_exit : keeps_books (program_exit cfg).
Proof. unfold program_exit, apply_program_exit. working. Qed.
Lemma keep_finish_drain : keeps_books finish_program_drain.
Proof. unfold finish_program_drain. working. Qed.
Lemma keep_clear_status : keeps_books clear_program_status.
Proof. unfold clear_program_status. working. Qed.
Lemma keep_feed_slice bs n agg : keeps_books (feed_status_slice cfg bs n agg).
Proof. unfold feed_status_slice. working. Qed.
Lemma keep_feed_queries bs n qs start agg : keeps_books (feed_queries cfg bs n qs start agg).
Proof.
  revert start agg. induction qs as [|q qs IH]; intros start agg; simpl; working;
    try apply keep_feed_slice; apply IH.
Qed.
Lemma keep_feed_slices bs qs n : keeps_books (feed_status_slices cfg bs qs n).
Proof. unfold feed_status_slices. working. apply keep_feed_queries. Qed.
#[local] Hint Resolve keep_program_exit keep_finish_drain keep_clear_status keep_feed_slices : steps.

(** *** Output *)

Lemma kept_record_processed b bytes lease :
  triple (kept (held (Some (Command_Output bytes lease)) b)) (record_processed_held cfg bytes)
    (λ r, kept (held (if is_ok r then None else Some (Command_Output bytes lease)) b)).
Proof.
  apply (triple_then _ (kept (held (Some (Command_Output bytes lease)) b)));
    [apply keep_books; respecting|].
  intros w Hw. simpl. unfold queue_record_processed, on_policy.
  destruct (record_processed (len bytes) (ad_policy (dk_adm (co_desk w)))) as [p r] eqn:Ep.
  apply record_processed_cases in Ep. destruct r as [[]|e]; simpl.
  2:{ destruct Ep as [-> _]. revert Hw. apply keeping_framed; try done; by apply still_same. }
  destruct Ep as (Hr & Hp & _). destruct Hw. simpl in *.
  unfold closed_of, closing_of, published_of, ad_residency, ad_status in *.
  split; simpl; unfold closed_of, closing_of, published_of, ad_residency, ad_status, owned; simpl;
    rewrite ?Hr, ?Hp, ?app_nil_r; auto.
  - destruct kp_stream0 as (rest & H & Hrest). exists rest. split; [|done].
    rewrite H. unfold owned. rewrite kp_held0. simpl. unfold commands_bytes. csimpl.
    by rewrite !app_assoc.
  - rewrite kp_tickets0. unfold owned. rewrite kp_held0. done.
Qed.

Lemma kept_requeue_now b c :
  triple (kept (held (Some c) b)) (co_requeue enter c) (λ _, kept (held None b)).
Proof. apply kept_requeue, keep_interfere. Qed.

(** Steps that end with the worker holding nothing. *)
Lemma kept_apply_output b bytes lease :
  triple (kept (held (Some (Command_Output bytes lease)) b)) (apply_output cfg bytes lease)
    (λ _, kept (held None b)).
Proof.
  unfold apply_output. apply triple_read. intros config.
  apply keep_after; [respecting|]. intros [p|e].
  2:{ eapply triple_then; [apply kept_requeue_now|]. apply keep_books. working. }
  apply keep_after; [respecting|]. intros [effects|e].
  2:{ eapply triple_then; [apply kept_requeue_now|]. apply keep_books. working. }
  apply keep_after; [respecting|]. intros [[]|e].
  - eapply triple_bind; [apply kept_record_processed|]. intros [[]|e]; simpl.
    + apply keep_books. working.
    + eapply triple_then; [apply kept_requeue_now|]. apply keep_books. working.
  - apply (triple_then _ (kept (held None b))); [apply kept_requeue_now|]. apply keep_books. working.
Qed.

(** *** Controls *)

Lemma kept_consume b c :
  is_output c = false →
  triple (kept (held (Some c) b)) consume (λ _, kept (held None (more (command_tickets c) b))).
Proof.
  intros Hc w []. unfold consume, change. simpl in *. rewrite kp_held0.
  split; simpl; rewrite ?app_nil_r; auto.
  - destruct kp_stream0 as (rest & H & Hr). exists rest. split; [|done]. rewrite H.
    unfold owned. rewrite kp_held0. unfold commands_bytes at 1. csimpl. by rewrite control_bytes.
  - rewrite kp_tickets0. unfold owned. rewrite kp_held0. simpl. unfold commands_tickets at 1. csimpl.
    fold (commands_tickets (ad_queue (dk_adm (co_desk w)))). solve_Permutation.
Qed.

(** The answer of a resize in flight, then the slot is freed. *)
Lemma kept_resized b t r :
  bk_resize b = [t] →
  triple (kept b) (complete_ticket t r)
    (λ _ w, kept (resizing [] b) (with_ws (ws_resize None (co_ws w)) w)).
Proof.
  intros Ht w Hw. destruct (complete_answers b t r w Hw) as (w1 & x & Hw1 & ->). destruct Hw1.
  split; simpl; auto. rewrite kp_tickets0, Ht, fmap_app. simpl. solve_Permutation.
Qed.
Lemma kept_freed b f : triple (λ w, kept b (f w)) (change f) (λ _, kept b).
Proof. by intros w Hw. Qed.

(** After polling, no resize is in flight unless the worker has to wait. *)
Definition polled (b : books) (r : option WorkSchedule) : books :=
  if is_none r then resizing [] b else b.
Lemma kept_no_resize b w :
  nw_resize (co_ws w) = None → kept b w → bk_resize b = [].
Proof. intros H [_ Hr _]. by rewrite <-Hr; unfold resize_tickets; rewrite H. Qed.
Lemma resizing_same b : bk_resize b = [] → resizing [] b = b.
Proof. destruct b; simpl. by intros ->. Qed.

Lemma keep_poll_reply : keeps_books (poll_reply cfg).
Proof. unfold poll_reply, start_reply. working. Qed.
Lemma kept_poll_resizing b : triple (kept b) (poll_resizing cfg) (λ r, kept (polled b r)).
Proof.
  unfold poll_resizing. eapply triple_bind; [apply triple_gets|]. intros [resize|]; simpl.
  2:{ apply triple_ret. intros w [Hw Hn]. unfold polled. simpl.
      rewrite resizing_same; [done|]. by eapply kept_no_resize. }
  apply (triple_weaken _ (λ w, kept b w ∧ bk_resize b = [rz_ticket resize]) _ _ (λ r, kept (polled b r)));
    [|intros w [Hw Hr]; split; [done|]|done].
  2:{ rewrite <-(kp_resize _ _ Hw). unfold resize_tickets. by rewrite <-Hr. }
  apply triple_pure. intros Ht.
  apply keep_after; [respecting|]. intros [os|]; [|by apply triple_ret].
  apply keep_after; [unfold resize_model; respecting|]. intros model.
  apply keep_after; [unfold resize_record; working|]. intros _.
  eapply triple_then; [by apply kept_resized|].
  eapply triple_then; [apply (kept_freed _ (λ w, with_ws (ws_resize None (co_ws w)) w))|].
  apply keep_after; [respecting|]. intros _. by apply triple_ret.
Qed.
Lemma kept_poll b :
  bk_closed b = false →
  triple (kept b) (poll_inflight_operations cfg) (λ r, kept (polled b r)).
Proof.
  intros Hcl. unfold poll_inflight_operations. eapply triple_bind; [apply triple_gets|].
  intros [|]; simpl.
  - apply (triple_weaken _ (kept b) _ _ (λ r, kept (polled b r))); [|by intros w []|done].
    apply keep_after; [apply keep_poll_reply|]. intros [s|]; [by apply triple_ret|].
    apply kept_poll_resizing.
  - intros w [Hw Hh]. by rewrite (kp_handle _ _ Hw (eq_sym Hh)) in Hcl.
Qed.
Lemma kept_closing_resize b :
  (bk_closed b = true → bk_resize b = []) →
  triple (kept b) closing_resize (λ r, kept (polled b r)).
Proof.
  intros Hcl. unfold closing_resize. eapply triple_bind; [apply triple_gets|]. intros [resize|]; simpl.
  2:{ intros w [Hw Hn]. unfold polled. simpl.
      rewrite resizing_same; [done|]. by eapply kept_no_resize. }
  eapply (triple_bind _ _ _ (λ handle w, kept b w ∧ bk_resize b = [rz_ticket resize] ∧ handle = true)).
  { intros w [Hw Hr]. simpl. assert (bk_resize b = [rz_ticket resize]) as Ht.
    { rewrite <-(kp_resize _ _ Hw). unfold resize_tickets. by rewrite <-Hr. }
    split; [done|]. split; [done|]. destruct (co_handle w) eqn:Hh; [done|].
    rewrite (Hcl (kp_handle _ _ Hw Hh)) in Ht. done. }
  intros handle. apply triple_pure. intros [Ht ->]. simpl.
  apply keep_after; [respecting|]. intros [os|]; [|by apply triple_ret].
  eapply triple_then; [by apply kept_resized|].
  eapply triple_then; [apply (kept_freed _ (λ w, with_ws (ws_resize None (co_ws w)) w))|].
  apply keep_after; [respecting|]. intros _. by apply triple_ret.
Qed.

(** Between commands: nothing held, nothing to answer; a resize may have been
    started. *)
Definition serving (h : option Command) (z i ts : list ticket_ref) : books :=
  Books h z i ts false false.
Definition resting (i : list ticket_ref) (w : coordinator) : Prop :=
  ∃ z, kept (serving None z i []) w.
Lemma kept_resting z i w : kept (serving None z i []) w → resting i w.
Proof. by exists z. Qed.
Lemma triple_resting {X} i (I : coordinator → Prop) (m : step X) z :
  triple I m (λ _, kept (serving None z i [])) → triple I m (λ _, resting i).
Proof. intros H w Hw. exists z. by apply H. Qed.
Lemma resting_stable i w w' : keeping w w' → resting i w → resting i w'.
Proof. intros Hk [z Hz]. exists z. by apply Hk. Qed.
Lemma resting_keep i {X} (m : step X) : keeps_books m → triple (resting i) m (λ _, resting i).
Proof. apply triple_respects. apply resting_stable. Qed.

Lemma kept_start_resize i t resize :
  rz_ticket resize = t →
  triple (kept (serving None [] i [t])) (on_ws (ws_resize (Some resize)))
    (λ _, kept (serving None [t] i [])).
Proof.
  intros Ht w []. simpl in *. split; simpl; auto.
  - unfold resize_tickets. simpl. by rewrite Ht.
  - rewrite kp_tickets0. solve_Permutation.
Qed.
Lemma kept_apply_resize i size t staging :
  triple (kept (serving (Some (Command_Resize size t staging)) [] i []))
    (apply_resize cfg size t staging) (λ _, resting i).
Proof.
  unfold apply_resize. apply triple_read. intros [|]; simpl.
  2:{ apply (triple_resting _ _ _ []). eapply triple_then; [apply (kept_requeue_now (serving None [] i []))|].
      by apply triple_ret. }
  apply keep_after; [respecting|]. intros s. destruct (cg_next _) as [generation|].
  2:{ apply (triple_resting _ _ _ []).
      eapply triple_then; [by apply (kept_consume (serving None [] i []))|].
      eapply triple_then; [apply (kept_complete (serving None [] i []))|].
      apply keep_books. working. }
  apply keep_after; [respecting|]. intros r.
  eapply triple_then; [by apply (kept_consume (serving None [] i []))|]. destruct r as [operation|e].
  - apply (triple_resting _ _ _ [t]). eapply triple_then; [by apply kept_start_resize|].
    by apply triple_ret.
  - apply (triple_resting _ _ _ []). eapply triple_then; [apply (kept_complete (serving None [] i []))|].
    apply keep_books. working.
Qed.

Lemma keep_take_checkpoint : keeps_books (take_checkpoint cfg).
Proof. unfold take_checkpoint, descriptor. working. Qed.
Lemma keep_snapshot_result : keeps_books (snapshot_result cfg).
Proof. unfold snapshot_result. working; apply keep_take_checkpoint. Qed.
Lemma keep_view_result : keeps_books (view_result cfg).
Proof. unfold view_result. working. Qed.
Lemma kept_snapshot b request :
  triple (kept (more [request_ticket request] b)) (snapshot cfg request) (λ _, kept b).
Proof.
  unfold snapshot, request_cancelled, cancelled_ticket, permit_drop. apply triple_read. intros [|].
  { apply (triple_then _ (kept b)); [apply kept_abandon|apply keep_books; respecting]. }
  apply keep_after; [apply keep_snapshot_result|]. intros r.
  apply keep_after; [respecting|]. intros now. destruct (closing_or_closed now).
  - eapply triple_then; [apply kept_fail_request|]. apply keep_books. respecting.
  - apply kept_request.
Qed.
Lemma kept_apply_view b t : triple (kept (more [t] b)) (apply_view cfg t) (λ _, kept b).
Proof.
  unfold apply_view, cancelled_ticket. apply triple_read. intros [|]; [apply kept_abandon|].
  apply keep_after; [apply keep_view_result|]. intros r.
  apply keep_after; [respecting|]. intros now. destruct (closing_or_closed now); [|apply kept_complete].
  eapply triple_then; [apply kept_complete|]. apply keep_books. respecting.
Qed.

Lemma kept_apply_command i c :
  triple (kept (serving (Some c) [] i [])) (apply_command cfg c) (λ _, resting i).
Proof.
  destruct c as [bytes staging| |size t staging|t staging|request staging]; simpl.
  - apply (triple_resting _ _ _ []), (kept_apply_output (serving None [] i [])).
  - apply (triple_resting _ _ _ []). eapply triple_then; [by apply (kept_consume (serving None [] i []))|].
    apply keep_books. working.
  - apply kept_apply_resize.
  - apply (triple_resting _ _ _ []). eapply triple_then; [by apply (kept_consume (serving None [] i []))|].
    eapply triple_then; [apply (kept_apply_view (serving None [] i []))|]. apply keep_books. working.
  - apply (triple_resting _ _ _ []). eapply triple_then; [by apply (kept_consume (serving None [] i []))|].
    eapply triple_then; [apply (kept_snapshot (serving None [] i []))|]. apply keep_books. working.
Qed.

(** *** Jobs *)

(** Between runs while the projection has not closed. *)
Definition at_rest (w : coordinator) : Prop := ∃ i, resting i w.
Lemma resting_at_rest i w : resting i w → at_rest w.
Proof. by exists i. Qed.
Lemma kept_at_rest z i w : kept (serving None z i []) w → at_rest w.
Proof. by exists i, z. Qed.
Lemma triple_at_rest {X} z i (I : coordinator → Prop) (m : step X) :
  triple I m (λ _, kept (serving None z i [])) → triple I m (λ _, at_rest).
Proof. intros H w Hw. exists i, z. by apply H. Qed.
Lemma keep_at_rest {X} (m : step X) : keeps_books m → triple at_rest m (λ _, at_rest).
Proof.
  apply triple_respects. intros w w' Hk [i Hi]. exists i. by eapply resting_stable.
Qed.

(** A job that answers nobody takes a free slot. *)
Lemma keep_submit pending : io_tickets (Some pending) = [] → keeps_books (submit pending).
Proof.
  intros Hp w. unfold submit, io_submit.
  destruct (nw_io (co_ws w)) as [io|] eqn:Hio; simpl; [by apply keeping_framed; simpl; rewrite ?Hio|].
  destruct (executor_submit _) as [e [|]]; simpl; apply keeping_framed; simpl; by rewrite ?Hio.
Qed.
Lemma keep_start_delete : keeps_books workspace_start_delete.
Proof.
  intros w. unfold workspace_start_delete, start_delete.
  destruct (check_out _) as [r [attempt|]]; [|by apply keeping_framed].
  unfold io_submit. destruct (nw_io (co_ws w)) as [io|] eqn:Hio; simpl;
    [by apply keeping_framed; simpl; rewrite ?Hio|].
  destruct (executor_submit _) as [e [|]]; simpl; apply keeping_framed; simpl; by rewrite ?Hio.
Qed.
#[local] Hint Resolve keep_start_delete keep_take_checkpoint : steps.
Lemma keep_set_terminal t r : keeps_books (set_terminal t r).
Proof. unfold set_terminal. working. Qed.
Lemma keep_set_restore_memory m : keeps_books (set_restore_memory m).
Proof. unfold set_restore_memory. working. Qed.
Lemma keep_set_source s : keeps_books (set_source s).
Proof. unfold set_source. working. Qed.
Lemma keep_retire_source s : keeps_books (retire_source s).
Proof. unfold retire_source. working. Qed.
Lemma keep_retire_current : keeps_books retire_current.
Proof. unfold retire_current. apply keep_on_ws. intros n. by destruct (nw_source n). Qed.
Lemma keep_acquire_memory : keeps_books (acquire_memory cfg).
Proof. unfold acquire_memory. working. Qed.
Lemma keep_park_failed e : keeps_books (park_failed_now cfg e).
Proof. unfold park_failed_now. working. Qed.
#[local] Hint Resolve keep_set_terminal keep_set_restore_memory keep_set_source keep_retire_source
  keep_retire_current keep_acquire_memory keep_park_failed : steps.
Lemma keep_start_park : keeps_books (start_park cfg).
Proof.
  unfold start_park, prepare_park, acquire_disk. working. by apply keep_submit.
Qed.
Lemma keep_history pr : keeps_books (history_progress cfg pr).
Proof. unfold history_progress. working. Qed.
#[local] Hint Resolve keep_start_park keep_history : steps.

Lemma kept_fail_taken b e c :
  is_output c = false →
  triple (kept (held (Some c) b)) (fail_taken e c) (λ _, kept (held None b)).
Proof.
  intros Hc. unfold fail_taken. eapply triple_then; [by apply kept_consume|].
  eapply triple_then; [apply (kept_each (held None b)); intros; apply kept_complete|].
  apply keep_books. working.
Qed.
Lemma kept_discard_taken b c :
  is_output c = false →
  triple (kept (held (Some c) b)) (discard_taken c) (λ _, kept (held None b)).
Proof.
  intros Hc. unfold discard_taken. eapply triple_then; [by apply kept_consume|].
  eapply triple_then; [apply (kept_each (held None b)); intros; apply kept_abandon|].
  apply keep_books. working.
Qed.
Lemma checkpoint_control c : is_checkpoint c = true → is_output c = false.
Proof. by destruct c. Qed.
Lemma kept_discard_transfer b transfer :
  (∀ c, transfer = Some c → is_checkpoint c = true) →
  triple (kept (held transfer b)) (discard_transfer transfer) (λ _, kept (held None b)).
Proof.
  intros Hc. destruct transfer as [c|]; simpl; [|by apply triple_ret].
  apply kept_discard_taken, checkpoint_control. auto.
Qed.

(** The transfer's wait goes from the worker's hand to the job. *)
Lemma kept_submit_transfer z i request staging memory source :
  triple (kept (serving (Some (Command_Checkpoint request staging)) z i []))
    (submit_transfer request staging memory source) (λ _, at_rest).
Proof.
  set (c := Command_Checkpoint request staging). unfold submit_transfer.
  eapply (triple_bind _ _ _ (λ r w,
    match r with
    | Ok _ => kept (serving (Some c) z [] []) (with_ws (ws_io None (co_ws w)) w)
              ∧ io_tickets (nw_io (co_ws w)) = [request_ticket request]
    | Err _ => kept (serving (Some c) z i []) w
    end)).
  { intros w Hw. unfold submit, io_submit.
    destruct (nw_io (co_ws w)) as [io|] eqn:Hio; simpl.
    { revert Hw. apply keeping_framed; simpl; by rewrite ?Hio. }
    assert (i = []) as -> by (pose proof (kp_io _ _ Hw) as H; simpl in H; by rewrite Hio in H).
    destruct (executor_submit _) as [e [|]]; simpl.
    - split; [|done]. revert Hw. apply keeping_framed; simpl; by rewrite ?Hio.
    - revert Hw. apply keeping_framed; simpl; by rewrite ?Hio. }
  intros [[]|e].
  - apply (triple_at_rest z [request_ticket request]).
    apply (triple_then _ (kept (serving None z [request_ticket request] []))); [|by apply triple_ret].
    intros w [Hw Hio]. destruct Hw. unfold consume, change. simpl in *. rewrite kp_held0.
    split; simpl; rewrite ?app_nil_r; auto.
    + destruct kp_stream0 as (rest & H & Hr). exists rest. split; [|done]. rewrite H.
      unfold owned. simpl. rewrite kp_held0. done.
    + rewrite kp_tickets0. unfold owned. simpl. rewrite kp_held0. simpl.
      unfold commands_tickets at 1. csimpl. fold (commands_tickets (ad_queue (dk_adm (co_desk w)))).
      unfold command_tickets, c. simpl. destruct request; simpl; solve_Permutation.
  - apply (triple_at_rest z i). eapply triple_then; [by apply (kept_consume (serving None z i []))|].
    eapply triple_then; [|apply keep_books; working].
    apply (carry (command_tickets c ++ []) [request_ticket request] (serving None z i []));
      [by destruct request|apply (kept_fail_request (serving None z i []))].
Qed.
Lemma keep_submit_restore memory source : keeps_books (submit_restore cfg memory source).
Proof. unfold submit_restore. working. by apply keep_submit. Qed.
#[local] Hint Resolve keep_submit_restore : steps.

Lemma kept_start_read z i transfer :
  (∀ c, transfer = Some c → is_checkpoint c = true) →
  triple (kept (serving transfer z i [])) (start_read cfg transfer) (λ _, at_rest).
Proof.
  intros Hc. unfold start_read. apply triple_read. intros [|]; simpl.
  2:{ apply (triple_at_rest z i). eapply triple_then;
        [by apply (kept_discard_transfer (serving None z i []))|by apply triple_ret]. }
  apply triple_read. intros [source|].
  2:{ apply (triple_at_rest z i). apply keep_after; [working|]. intros _. eapply triple_then;
        [by apply (kept_discard_transfer (serving None z i []))|by apply triple_ret]. }
  apply keep_after; [respecting|]. intros [memory|e].
  - assert (triple (kept (serving transfer z i []))
      (s ← submit_restore cfg memory source; discard_transfer transfer;; mret s) (λ _, at_rest)) as Hr.
    { apply (triple_at_rest z i). apply keep_after; [working|]. intros s. eapply triple_then;
        [by apply (kept_discard_transfer (serving None z i []))|by apply triple_ret]. }
    destruct transfer as [[]|]; try exact Hr. apply kept_submit_transfer.
  - apply (triple_at_rest z i).
    apply (triple_then _ (kept (serving None z i []))); [|by apply triple_ret].
    destruct transfer as [c|]; [|by apply triple_ret].
    apply (kept_fail_taken (serving None z i [])), checkpoint_control. auto.
Qed.
Lemma kept_take_checkpoint_work b :
  triple (kept (held None b)) (take_checkpoint_work cfg) (λ work w,
    kept (held (work ≫= id) b) w ∧ ∀ c, work = Some (Some c) → is_checkpoint c = true).
Proof.
  apply (triple_then _ (kept (held None b))); [apply keep_books; respecting|].
  intros w Hw. unfold take_checkpoint_if_any_work, take_next_if, take_next, queue_is_empty.
  pose proof (kp_held _ _ Hw) as Hh. simpl in Hh.
  destruct (ad_queue (dk_adm (co_desk w))) as [|c q] eqn:Hq; simpl.
  { split; [|done]. revert Hw. by apply keeping_framed. }
  destruct (is_checkpoint c) eqn:Hc; simpl.
  2:{ split; [|done]. revert Hw. by apply keeping_framed. }
  split; [|by intros c' [= <-]]. destruct Hw. simpl in *. split; simpl; try done; try (by auto).
  - intros H. rewrite Hq in kp_empty0. by discriminate kp_empty0.
  - revert kp_stream0. unfold owned. simpl. by rewrite Hh, Hq.
  - revert kp_tickets0. unfold owned. simpl. by rewrite Hh, Hq.
Qed.
Lemma kept_read_back z i :
  triple (kept (serving None z i [])) (read_back_source cfg) (λ _, at_rest).
Proof.
  unfold read_back_source. apply triple_read. intros n. destruct (io_busy _).
  { apply (triple_at_rest z i). by apply triple_ret. }
  eapply triple_bind; [apply (kept_take_checkpoint_work (serving None z i []))|].
  intros [transfer|].
  - simpl. apply triple_pure. intros Hc. apply kept_start_read. intros c ->. auto.
  - apply (triple_weaken _ (kept (serving None z i [])) _ _ (λ _, at_rest)); [|by intros w []|done].
    apply (triple_at_rest z i). by apply triple_ret.
Qed.

(** *** Finished jobs *)

Lemma kept_take_finished b :
  triple (kept b)
    (λ w, let (io, f) := take_finished (nw_io (co_ws w)) in (with_ws (ws_io io (co_ws w)) w, f))
    (λ f, match f with
          | Some f => kept (flying [] (more (finished_tickets f) b))
          | None => kept b
          end).
Proof.
  intros w Hw. simpl.
  assert (∀ io f, take_finished (nw_io (co_ws w)) = (io, f) →
            match f with
            | Some f => io = None ∧ bk_io b = finished_tickets f
            | None => io = nw_io (co_ws w)
            end) as H.
  { intros io f. rewrite <-(kp_io _ _ Hw).
    destruct (nw_io (co_ws w)) as [[? ? ? ? []|? ? ? []|? ? ? ? []|? []]|]; by intros [= <- <-]. }
  destruct (take_finished _) as [io [f|]]; specialize (H _ _ eq_refl); simpl.
  - destruct H as [-> Hi]. destruct Hw. split; simpl; auto.
    rewrite kp_tickets0, Hi. solve_Permutation.
  - rewrite H. revert Hw. by apply keeping_framed.
Qed.
Lemma keep_finish_commit attempt disk r : keeps_books (finish_commit cfg attempt disk r).
Proof. unfold finish_commit, record_unreclaimed. working. Qed.
Lemma keep_finish_restore resident memory r : keeps_books (finish_restore cfg resident memory r).
Proof.
  unfold finish_restore, restore_terminal, restored_progress. working.
  intros w. destruct (term_progress _ _) as [[e t] r']. by apply keeping_framed.
Qed.
Lemma keep_finish_deletion attempt r : keeps_books (finish_deletion cfg attempt r).
Proof.
  unfold finish_deletion. working. intros w.
  destruct (finish_delete _ _ _ _) as [[reaper qs] x]. by apply keeping_framed.
Qed.
Lemma kept_finish_transfer b closing request memory staging r :
  triple (kept (more [request_ticket request] b))
    (finish_transfer closing request memory staging r) (λ _, kept b).
Proof.
  unfold finish_transfer. apply (triple_then _ (kept b)); [|apply keep_books; working].
  destruct (if closing then _ else r) as [c|e].
  - apply kept_request.
  - eapply triple_then; [apply kept_request|]. apply keep_books. respecting.
Qed.
Lemma kept_finish_io b :
  bk_local b = [] →
  triple (kept b) (finish_io cfg) (λ _ w, kept b w ∨ kept (flying [] b) w).
Proof.
  intros Hl. unfold finish_io. apply triple_read. intros [|]; simpl; [|by apply triple_ret; left].
  eapply triple_bind; [apply kept_take_finished|]. intros [f|]; [|by apply triple_ret; left].
  apply keep_after; [respecting|]. intros now.
  assert (∀ (m : step ()), keeps_books m → finished_tickets f = [] →
    triple (kept (flying [] (more (finished_tickets f) b))) m
      (λ _ w, kept b w ∨ kept (flying [] b) w)) as Hnone.
  { intros m Hm Hf w Hw. right. specialize (Hm w _ Hw). revert Hm. rewrite Hf.
    unfold more. simpl. destruct b; simpl in *. by subst. }
  destruct f as [attempt disk memory r|resident memory r|request memory staging r|attempt r].
  - apply Hnone; [|done]. working. apply keep_finish_commit.
  - apply Hnone; [|done]. working. apply keep_finish_restore.
  - intros w Hw. right. apply (kept_finish_transfer (flying [] b)). exact Hw.
  - apply Hnone; [|done]. apply keep_finish_deletion.
Qed.

(** *** A run *)

Lemma kept_take_now b take :
  takes take → triple (kept (held None b)) (take_with enter take) (λ c, kept (held c b)).
Proof. apply kept_take, keep_interfere. Qed.
Lemma kept_take_exit b :
  triple (kept (held None b)) (take_with enter (take_next_if is_exit))
    (λ c w, kept (held c b) w ∧ ∀ c', c = Some c' → is_exit c' = true).
Proof.
  intros w Hw. split; [by apply (kept_take_now b _ (take_next_if_takes is_exit))|].
  unfold take_with, guarded, mbind, step_bind.
  pose proof (keep_interfere cfg w _ Hw) as Hw1. destruct (enter w) as [w1 []]. simpl in *.
  pose proof (kp_held _ _ Hw1) as Hh. simpl in Hh. rewrite Hh. unfold worker_take. rewrite Hh.
  unfold take_next_if, take_next. destruct (ad_queue (dk_adm (co_desk w1))) as [|c q]; [done|].
  destruct (is_exit c) eqn:Hc; [|done]. simpl. by intros c' [= <-].
Qed.
Lemma kept_restore_step i :
  triple (kept (serving None [] i [])) (restore_step cfg) (λ _, at_rest).
Proof.
  unfold restore_step. apply triple_read. intros n.
  apply (triple_bind _ _ _ (λ c, kept (serving c [] i []))).
  { destruct (nw_history_step_owed n); [by apply triple_ret|].
    apply (kept_take_now (serving None [] i [])), take_next_if_takes. }
  intros [c|].
  - apply keep_after; [keeping_ws|]. intros _.
    intros w Hw. by eapply resting_at_rest, kept_apply_command.
  - apply (triple_at_rest [] i), keep_books. unfold history_step. working.
Qed.
Lemma kept_batch i n batched schedule :
  triple (resting i) (batch_output cfg n batched schedule) (λ _, resting i).
Proof.
  revert batched schedule. induction n as [|n IH]; intros batched schedule; simpl; [by apply triple_ret|].
  eapply triple_bind; [apply triple_gets|]. intros ws.
  destruct (_ && is_none (nw_resize ws)) eqn:Hz; [|by intros w []].
  apply andb_prop in Hz as [_ Hz].
  apply (triple_bind _ _ _ (λ c, kept (serving c [] i []))).
  { intros w [[z Hw] ->].
    assert (z = []) as -> by (apply (kept_no_resize _ _) in Hw; [done|]; by destruct (nw_resize (co_ws w))).
    by apply (kept_take_now (serving None [] i []) _ take_output_takes). }
  intros [c|]; [|apply (triple_resting _ _ _ []); by apply triple_ret].
  eapply triple_bind; [apply kept_apply_command|]. intros s. apply IH.
Qed.
Lemma keep_idle : keeps_books (idle cfg).
Proof. unfold idle. working. Qed.
Lemma kept_serve i : triple (kept (serving None [] i [])) (serve cfg) (λ _, at_rest).
Proof.
  unfold serve. apply triple_read. intros n.
  apply keep_after; [working|]. intros maintenance.
  apply (triple_bind _ _ _ (λ c, kept (serving c [] i []))).
  { apply (kept_take_now (serving None [] i [])), take_next_takes. }
  intros [c|].
  - eapply triple_bind; [apply kept_apply_command|]. intros s.
    destruct (output_bytes c); [|intros w Hw; by eapply resting_at_rest].
    intros w Hw. by eapply resting_at_rest, kept_batch.
  - apply (triple_at_rest [] i), keep_books. working. apply keep_idle.
Qed.

(** What reading the residency tells for good. *)
Lemma kept_residency b :
  triple (kept b) (residency enter) (λ r w,
    kept (if closing_or_closed r then ending true (bk_closed b) b else b) w
    ∧ bool_decide (r = Closed) = bk_closed b).
Proof.
  apply (triple_bind _ _ _ (λ s w, kept b w ∧ s = ad_status (dk_adm (co_desk w)))).
  { apply (triple_then _ (kept b)); [apply keep_books; respecting|]. intros w Hw. simpl. split; [|done].
    revert Hw. by apply keeping_framed. }
  intros s. intros w [Hw ->]. simpl. pose proof (kp_closed _ _ Hw) as Hc. split; [|done].
  destruct (closing_or_closed _) eqn:E; [|done]. destruct Hw. by split.
Qed.

(** Between runs: once closed, nothing is left anywhere. *)
Definition between (w : coordinator) : Prop :=
  ∃ z i closed, kept (Books None z i [] false closed) w ∧ (closed = true → z = [] ∧ i = []).
Lemma between_intro z i closing closed w :
  kept (Books None z i [] closing closed) w → (closed = true → z = [] ∧ i = []) → between w.
Proof. intros [] Hc. exists z, i, closed. split; [by split|done]. Qed.
Lemma at_rest_between w : at_rest w → between w.
Proof. intros (i & z & Hw). by exists z, i, false. Qed.
Lemma keep_between {X} (m : step X) : keeps_books m → triple between m (λ _, between).
Proof.
  apply triple_respects. intros w w' Hk (z & i & cl & Hw & Hc). exists z, i, cl.
  split; [by apply Hk|done].
Qed.

(** The close waits are answered, and the projection is closed. *)
Lemma kept_settle b w a ws :
  kept (ending true (bk_closed b) b) w → ad_close_waiters (dk_adm (co_desk w)) = ws →
  published_of a = published_of (dk_adm (co_desk w)) → closing_of a = true → closed_of a = true →
  ad_queue a = ad_queue (dk_adm (co_desk w)) → ad_close_waiters a = [] →
  kept (ending true true (more ws b)) (with_desk (note_waiters [] ws (put_adm a (co_desk w))) w).
Proof.
  intros [] Hws Hp Hc Hcl Hq Hw. simpl in *. specialize (kp_closing0 eq_refl).
  split; simpl; rewrite ?app_nil_r; auto.
  - intros _. rewrite Hq. auto.
  - by rewrite Hp.
  - destruct kp_stream0 as (rest & H & Hr). exists rest. unfold owned in *. simpl. rewrite Hq.
    split; [done|]. by rewrite Hc.
  - rewrite kp_tickets0. unfold owned. simpl. rewrite Hq, Hw, Hws. solve_Permutation.
Qed.
Lemma closed_settled (p : ProjectionPolicy) f :
  closed_of (set_policy (mark_closed p) f) = true ∧ closing_of (set_policy (mark_closed p) f) = true
  ∧ published_of (set_policy (mark_closed p) f) = rc_offset (ps_published (pp_status p)).
Proof. done. Qed.
Lemma kept_finish_close b error :
  triple (kept (ending true (bk_closed b) b)) (guarded enter (λ w,
    let '(a, (waiters, failed)) := finish_close error (dk_adm (co_desk w)) in
    (with_desk (note_waiters [] waiters (put_adm a (co_desk w))) w, (waiters, failed))))
    (λ x, kept (ending true true (more x.1 b))).
Proof.
  apply (triple_then _ (kept (ending true (bk_closed b) b))); [apply keep_books; respecting|].
  intros w Hw. unfold finish_close.
  destruct (opt_or error (ad_unreclaimed_failure (dk_adm (co_desk w)))); by apply kept_settle.
Qed.
Lemma kept_abandon_waiters b :
  triple (kept (ending true (bk_closed b) b)) (guarded enter (λ w,
    let (a, waiters) := abandon_waiters (dk_adm (co_desk w)) in
    (with_desk (note_waiters [] waiters (put_adm a (co_desk w))) w, waiters)))
    (λ ws, kept (ending true true (more ws b))).
Proof.
  apply (triple_then _ (kept (ending true (bk_closed b) b))); [apply keep_books; respecting|].
  intros w Hw. by apply kept_settle.
Qed.

Lemma keep_process f : keeps_books (change (λ w, with_wiring (co_services w) (co_handle w) (f w) w)).
Proof. intros w. by apply keeping_framed. Qed.
Lemma kept_release b :
  bk_closed b = true → triple (kept b) release_wiring (λ _, kept b).
Proof. intros Hc w []. split; auto. Qed.
#[local] Hint Resolve keep_process : steps.

Definition done_books : books := Books None [] [] [] true true.
Lemma kept_finish_cleanup closed error :
  triple (kept (Books None [] [] [] true closed)) (finish_cleanup cfg error) (λ _, kept done_books).
Proof.
  unfold finish_cleanup. eapply triple_bind;
    [apply (kept_finish_close (Books None [] [] [] true closed))|]. intros [ws failed]. simpl.
  apply keep_after; [respecting|]. intros _.
  eapply (triple_then _ (kept done_books)).
  { unfold complete_close. apply (kept_each done_books). intros. apply kept_complete. }
  apply keep_after; [respecting|]. intros _.
  eapply triple_then; [by apply kept_release|]. by apply triple_ret.
Qed.

Lemma keep_drop_reply : keeps_books drop_reply.
Proof. unfold drop_reply. working. Qed.
Lemma keep_surrender : keeps_books surrender_sources.
Proof.
  unfold surrender_sources, absorb_unreclaimed. working.
Qed.
Lemma keep_seal : keeps_books (seal_journal_if_drained cfg).
Proof. unfold seal_journal_if_drained. working. Qed.
#[local] Hint Resolve keep_drop_reply keep_surrender keep_seal : steps.

Lemma kept_cleanup z i closed :
  (closed = true → z = [] ∧ i = []) →
  triple (kept (Books None z i [] true closed)) (cleanup cfg) (λ _, between).
Proof.
  intros Hc. unfold cleanup. do 4 (apply keep_after; [respecting|]; intros _).
  eapply triple_bind; [apply kept_closing_resize; simpl; naive_solver|]. intros [s|]; simpl.
  { apply triple_ret. intros w Hw. eapply between_intro; [exact Hw|exact Hc]. }
  change (polled _ None) with (Books None [] i [] true closed).
  eapply triple_bind; [apply triple_gets|]. intros n. destruct (io_busy (nw_io n)) eqn:Hio.
  { apply triple_ret. intros w [Hw _]. eapply between_intro; [exact Hw|]. naive_solver. }
  apply (triple_weaken _ (kept (Books None [] [] [] true closed)) _ _ (λ _, between)); [| |by intros].
  2:{ intros w [Hw ->]. assert (i = []) as ->; [|exact Hw]. pose proof (kp_io _ _ Hw) as Hi. simpl in Hi.
      unfold io_busy in Hio. by destruct (nw_io (co_ws w)). }
  assert (∀ (m : step WorkSchedule), keeps_books m →
    triple (kept (Books None [] [] [] true closed)) m (λ _, between)) as Hk.
  { intros m Hm w Hw. eapply between_intro; [by apply (Hm w _ Hw)|]. naive_solver. }
  assert (∀ e, triple (kept (Books None [] [] [] true closed)) (finish_cleanup cfg e) (λ _, between)) as Hf.
  { intros e w Hw. eapply between_intro; [by eapply kept_finish_cleanup|]. naive_solver. }
  apply keep_after; [respecting|]. intros _.
  apply keep_after; [respecting|]. intros [failed retry].
  apply keep_after; [working|]. intros _. apply triple_read. intros n'.
  destruct (negb _); [apply Hf|]. destruct (is_some failed); [|by apply Hk, keep_start_delete].
  apply keep_after; [respecting|]. intros _. apply Hf.
Qed.

Lemma keep_while_failed : keeps_books work_while_failed.
Proof. unfold work_while_failed. working. Qed.
Lemma kept_work : triple between (work cfg) (λ _, between).
Proof.
  intros w (z & i & closed & Hw & Hc). revert w Hw. change (triple (kept (Books None z i [] false closed)) (work cfg) (λ _, between)).
  unfold work. eapply triple_bind; [apply kept_residency|]. intros r. simpl. apply triple_pure. intros Hr.
  destruct (closing_or_closed r) eqn:Hcl; [by apply kept_cleanup|].
  assert (closed = false) as -> by (rewrite <-Hr; apply bool_decide_eq_false; by intros ->).
  change (Books None z i [] false false) with (serving None z i []).
  assert (∀ z (m : step WorkSchedule), keeps_books m →
    triple (kept (serving None z i [])) m (λ _, between)) as Hk.
  { intros z' m Hm w Hw. eapply between_intro; [by apply (Hm w _ Hw)|]. done. }
  assert (∀ (m : step WorkSchedule), triple (kept (serving None [] i [])) m (λ _, at_rest) →
    triple (kept (serving None [] i [])) m (λ _, between)) as Hat.
  { intros m Hm w Hw. by apply at_rest_between, Hm. }
  destruct (bool_decide (r = Failed)); [apply Hk, keep_while_failed|].
  eapply triple_bind; [by apply kept_poll|]. intros [s|]; [apply Hk; respecting|].
  change (polled _ None) with (serving None [] i []).
  apply keep_after; [respecting|]. intros s. destruct (is_some _); [apply Hk, keep_while_failed|].
  eapply (triple_bind _ _ _ (λ c w, kept (serving c [] i []) w ∧ ∀ c', c = Some c' → is_exit c' = true)).
  { apply (kept_take_exit (serving None [] i [])). }
  intros exit. apply triple_pure. intros Hexit.
  apply (triple_then _ (kept (serving None [] i []))).
  { destruct exit as [c|]; [|by apply triple_ret]. specialize (Hexit c eq_refl).
    destruct c; try done. eapply triple_then; [by apply (kept_consume (serving None [] i []))|].
    apply keep_books. respecting. }
  apply keep_after; [respecting|]. intros _. apply triple_read. intros n. apply Hat.
  destruct (Phase_of r n); [apply kept_read_back|apply kept_restore_step|apply kept_serve].
Qed.

Lemma kept_run : triple between (run cfg) (λ _, between).
Proof.
  unfold run. apply triple_read. intros [|]; simpl; [|by apply triple_ret].
  apply (triple_then _ between); [|apply kept_work].
  intros w (z & i & closed & Hw & Hc).
  destruct (kept_finish_io (Books None z i [] false closed) eq_refl w Hw) as [H|H].
  - by exists z, i, closed.
  - exists z, [], closed. split; [exact H|]. naive_solver.
Qed.

(** *** Panics, teardown and the rest *)

Lemma kept_discard_operations b :
  triple (kept b) discard_operations (λ _, kept (resizing [] b)).
Proof.
  unfold discard_operations. apply keep_after; [respecting|]. intros _.
  eapply triple_bind; [apply triple_gets|]. intros [resize|].
  2:{ intros w [Hw Hn]. rewrite resizing_same; [done|]. by eapply kept_no_resize. }
  apply (triple_then _ (kept (resizing [] (more [rz_ticket resize] b)))).
  { intros w [[] Hr]. simpl in *. unfold resize_tickets in kp_resize0. rewrite <-Hr in kp_resize0.
    split; simpl; auto. rewrite kp_tickets0, <-kp_resize0. solve_Permutation. }
  eapply triple_then; [apply (kept_complete (resizing [] b))|]. apply keep_books. respecting.
Qed.
Lemma kept_failed : triple between (failed cfg) (λ _, between).
Proof.
  unfold failed. intros w (z & i & closed & Hw & Hc). revert w Hw.
  change (triple (kept (Books None z i [] false closed)) (failed cfg) (λ _, between)). unfold failed.
  apply keep_after; [respecting|]. intros _.
  eapply triple_then; [apply kept_discard_operations|].
  intros w Hw. eapply (keep_between (r ← residency enter; mret _)); [respecting|].
  eapply between_intro; [exact Hw|]. naive_solver.
Qed.

Lemma kept_abandon_close b :
  bk_closed b = false →
  triple (kept b) (locked enter abandon_close)
    (λ rejected, kept (ending true false (more (commands_tickets rejected) b))).
Proof.
  intros Hb. apply kept_locked; [apply keep_interfere|]. intros w Hw.
  pose proof (kp_closed _ _ Hw) as Hc. rewrite Hb in Hc.
  destruct (close_admission (dk_adm (co_desk w)) (abandon_close (dk_adm (co_desk w))).1 eq_refl Hc)
    as (Hp & Hcl & Hst).
  pose proof (kept_clear b w _ None Hw Hb Hp Hcl Hst eq_refl) as H.
  rewrite app_nil_r in H. specialize (H eq_refl). revert H.
  apply keeping_framed; simpl; by rewrite ?app_nil_r.
Qed.
Lemma kept_abandon_pending b pending :
  triple (kept (more (io_tickets (Some pending)) b)) (abandon_pending cfg pending) (λ _, kept b).
Proof.
  destruct pending; simpl; unfold record_unreclaimed;
    try (intros w Hw; apply more_nil; by eapply keep_books; [respecting|]).
  eapply triple_then; [apply kept_fail_request|]. apply keep_books. respecting.
Qed.
Lemma kept_teardown : triple between (finish_after_shutdown cfg) (λ _, between).
Proof.
  intros w (z & i & closed & Hw & Hc). revert w Hw.
  change (triple (kept (Books None z i [] false closed)) (finish_after_shutdown cfg) (λ _, between)).
  unfold finish_after_shutdown. eapply triple_bind; [apply kept_residency|]. intros r. simpl.
  apply triple_pure. intros Hr.
  destruct (bool_decide (r = Closed)) eqn:Hrc.
  { apply triple_ret. intros w Hw. destruct (closing_or_closed r); by eapply between_intro. }
  subst closed. apply (triple_weaken _ (kept (Books None z i [] false false)) _ _ (λ _, between)); [| |by intros].
  2:{ intros w. destruct (closing_or_closed r); [|done]. intros []. by split. }
  do 2 (apply keep_after; [respecting|]; intros _).
  eapply triple_bind; [by apply kept_abandon_close|]. intros rejected.
  eapply triple_then; [apply (kept_fail_commands (Books None z i [] true false))|].
  apply (triple_then _ (λ w, ∃ i', kept (Books None z i' [] true false) w)).
  { intros w Hw. destruct (kept_finish_io (Books None z i [] true false) eq_refl w Hw) as [H|H]; eauto. }
  apply (triple_bind _ _ _ (λ pending, kept (more (io_tickets pending) (Books None z [] [] true false)))).
  { intros w [i' Hw]. destruct Hw. simpl in *. split; simpl; auto.
    rewrite kp_tickets0, <-kp_io0. solve_Permutation. }
  intros pending. set (b := Books None z [] [] true false).
  apply (triple_then _ (kept b)).
  { destruct pending as [p|]; [apply kept_abandon_pending|].
    apply triple_ret. intros w. apply more_nil. }
  do 2 (apply keep_after; [respecting|]; intros _).
  eapply triple_then; [apply kept_discard_operations|].
  change (resizing [] b) with (Books None [] [] [] true false).
  do 2 (apply keep_after; [respecting|]; intros _).
  eapply triple_bind; [apply (kept_abandon_waiters (Books None [] [] [] true false))|]. intros ws.
  apply (triple_then _ (kept done_books)).
  { apply (kept_each done_books). intros. apply kept_complete. }
  do 2 (apply keep_after; [respecting|]; intros _).
  intros w Hw. eapply (between_intro [] [] true true); [|done]. by apply (kept_release done_books eq_refl).
Qed.

Lemma keep_bind_process : keeps_books (bind_process cfg).
Proof. unfold bind_process. working. Qed.
End worker.
