(* ===== verification/Life.v ===== *)
(** * The life of a projection

    [create] and everything that can happen to the coordinator afterwards, in
    any order: runs of the worker, a worker that panicked, the process bound,
    teardown, and calls of other threads, which begin and go on section by
    section, between runs and (by the script) inside them. *)

From S2P Require Import Prelude Identity Process Terminal Checkpoint Projection Session View.
From S2P Require Import Policy Transfer Atomic Quota Journal StatusReport StatusScanner StatusStore.
From S2P Require Import Diagnostics Budgets Queue Admission Ports Jobs Coordinator Output Native Io Worker Stepping Authority Waits.

Section life.
Context `{L : Layout} `{P : Ports} `{A : Allocation} (cfg : ProjectionConfig).

(** [Run] and [Panicked] are the work item's [run] and [failed], [Bind] is
    [bind_process], [Teardown] is [finish_after_shutdown]. *)
Inductive happening := Run | Panicked | Bind | Teardown | Call (call : caller_op).
Definition happen (h : happening) : step () :=
  match h with
  | Run => run cfg;; mret tt
  | Panicked => failed cfg;; mret tt
  | Bind => bind_process cfg;; mret tt
  | Teardown => finish_after_shutdown cfg
  | Call call => run_call cfg call
  end.
Definition drive (hs : list happening) : step () := for_each hs happen.
Definition after (hs : list happening) (w : coordinator) : coordinator := (drive hs w).1.
End life.

Section authority.
Context `{L : Layout} `{P : Ports} {EL : EngineLaws P} `{A : Allocation}.

Lemma triple_happen cfg h : triple (authoritative (P := P)) (happen cfg h) (λ _, authoritative).
Proof.
  assert (∀ (m : step ()), respects (quiet cfg) m → triple authoritative m (λ _, authoritative))
    as Hquiet by (intros m Hm w; by apply (quiet_authoritative cfg), Hm).
  destruct h; simpl.
  - apply (triple_bind _ _ _ (λ _, authoritative)); [apply triple_run|by intros s; apply triple_ret].
  - apply (triple_bind _ _ _ (λ _, authoritative)); [apply triple_failed|by intros s; apply triple_ret].
  - apply Hquiet. respecting.
  - apply triple_shutdown.
  - apply Hquiet, quiet_call.
Qed.
Lemma authoritative_after cfg hs w : authoritative w → authoritative (after cfg hs w).
Proof.
  revert w. unfold after, drive. induction hs as [|h hs IH]; intros w Hw; [done|]. simpl.
  unfold mbind, step_bind. pose proof (triple_happen cfg h w Hw) as Hh.
  destruct (happen cfg h w) as [w1 []]. by apply IH.
Qed.

Lemma quiet_register cfg : respects (quiet cfg) register.
Proof.
  unfold register. respecting.
Qed.
Lemma create_authoritative lifetime options budgets input reserved next identity script qs e qs' e' cfg w :
  create lifetime options budgets input reserved next identity script qs e = (qs', e', Ok (cfg, w)) →
  authoritative w.
Proof.
  unfold create. destruct (create_checks _ _) as [[o pb]|]; [|done].
  destruct (Lease_shared _ _ _) as [qs1 [res|]]; [|done].
  destruct factory_compatibility as [comp|]; [|done].
  destruct (factory_create _ _) as [e1 [[t|]|]] eqn:Et; [|done|done].
  apply create_seen in Et. destruct reserved; simpl; [|done].
  destruct (create_owner _ _ _ _ _ _ _ _ _ _ _ _ _) as [[c w0]|] eqn:Ew; [|done].
  pose proof (quiet_register c w0) as Hr.
  destruct (register w0) as [w1 [[]|]]; [|done]. intros [= <- <- <- <-].
  eapply quiet_authoritative; [exact Hr|]. revert Ew. unfold create_owner.
  destruct (SessionQuotas_new _ _ _ _) as [qs2 sq]. destruct (JournalQuotas_new _ _ _ _) as [qs3 jq].
  destruct (ProjectionPolicy_new _ _ _) as [p|] eqn:Ep; [|done]. cbn.
  destruct (ProgramStatusStore_new _ _) as [st|]; [|done]. cbn. intros [= <- <-].
  apply ProjectionPolicy_new_offsets in Ep as [_ Hp].
  split; [|intros _; exact Et]. split; [exact Hp|done|constructor].
Qed.
End authority.

Section books.
Context `{L : Layout} `{P : Ports} `{A : Allocation}.

Lemma between_happen cfg h : triple between (happen cfg h) (λ _, between).
Proof.
  destruct h; simpl.
  - apply (triple_then _ between); [apply kept_run|by apply triple_ret].
  - apply (triple_then _ between); [apply kept_failed|by apply triple_ret].
  - apply keep_between. respecting; apply keep_bind_process.
  - apply kept_teardown.
  - apply keep_between, keep_call.
Qed.
Lemma between_after cfg hs w : between w → between (after cfg hs w).
Proof.
  revert w. unfold after, drive. induction hs as [|h hs IH]; intros w Hw; [done|]. simpl.
  unfold mbind, step_bind. pose proof (between_happen cfg h w Hw) as Hh.
  destruct (happen cfg h w) as [w1 []]. by apply IH.
Qed.

(** Where the waits are, between runs; once closed, nothing is left with the worker. *)
Lemma between_waits w :
  between w →
  dk_admitted (co_desk w) ++ dk_asked (co_desk w)
  ≡ₚ (co_done w).*1 ++ commands_tickets (ad_queue (dk_adm (co_desk w))) ++ resize_tickets (co_ws w)
     ++ io_tickets (nw_io (co_ws w)) ++ ad_close_waiters (dk_adm (co_desk w))
     ++ calls_tickets (co_calls w).
Proof.
  intros (z & i & cl & [Hh Hz Hi _ _ _ _ _ _ _ Ht] & _). unfold owned in Ht. simpl in *.
  by rewrite Hh, <-Hz, <-Hi in Ht.
Qed.
Lemma between_closed w :
  between w → ad_residency (dk_adm (co_desk w)) = Closed →
  dk_admitted (co_desk w) ++ dk_asked (co_desk w) ≡ₚ (co_done w).*1 ++ calls_tickets (co_calls w).
Proof.
  intros Hb Hr. rewrite (between_waits w Hb).
  destruct Hb as (z & i & cl & [_ Hz Hi _ Hcl _ Hw He _ _ _] & Hsettled). simpl in *.
  assert (cl = true) as Hclt by (rewrite <-Hcl; by apply bool_decide_eq_true).
  destruct (Hsettled Hclt) as [-> ->]. rewrite Hz, Hi, (Hw Hclt), He; [done|].
  unfold closing_of. by rewrite Hr.
Qed.

Lemma create_between lifetime options budgets input reserved next identity script qs e qs' e' cfg w :
  create lifetime options budgets input reserved next identity script qs e = (qs', e', Ok (cfg, w)) →
  between w.
Proof.
  unfold create. destruct (create_checks _ _) as [[o pb]|]; [|done].
  destruct (Lease_shared _ _ _) as [qs1 [res|]]; [|done].
  destruct factory_compatibility as [comp|]; [|done].
  destruct (factory_create _ _) as [e1 [[t|]|]]; [|done|done].
  destruct reserved; simpl; [|done].
  destruct (create_owner _ _ _ _ _ _ _ _ _ _ _ _ _) as [[c w0]|] eqn:Ew; [|done].
  destruct (register w0) as [w1 [[]|]] eqn:Er; [|done]. intros [= <- <- <- <-].
  revert Ew. unfold create_owner.
  destruct (SessionQuotas_new _ _ _ _) as [qs2 sq]. destruct (JournalQuotas_new _ _ _ _) as [qs3 jq].
  destruct (ProjectionPolicy_new _ _ _) as [p|] eqn:Ep; [|done]. cbn.
  destruct (ProgramStatusStore_new _ _) as [st|]; [|done]. cbn. intros [= <- <-].
  exists [], [], (bool_decide (pp_residency p = Closed)). split; [|done].
  assert (pp_residency p = Resident ∧ rc_offset (ps_published (pp_status p)) = 0) as [Hr Hp].
  { split; [|by eapply ProjectionPolicy_new_offsets].
    revert Ep. unfold ProjectionPolicy_new, mbind, result_bind. case_match; [|done]. by intros [= <-]. }
  revert Er. unfold register, mbind, step_bind, on_env. cbn.
  destruct (scheduler_register _) as [e2 [|]]; cbn; [|done].
  unfold wake, change. cbn. destruct (handle_wake _) as [e3 [|]]; cbn; [|done]. intros [= <-].
  split; cbn; unfold closed_of, ad_residency, ad_status, published_of; cbn; rewrite ?Hr; try done.
  by exists [].
Qed.
End books.

(** ** Calls in progress

    A section is followed by sections of lower rank, so a call whose thread keeps
    getting turns ends. *)

Definition section_rank (s : section) : nat :=
  match s with
  | Sec_refuse _ _ _ | Sec_end_journal _ _ | Sec_reject _ _ | Sec_notify | Sec_answer _ _
  | Sec_close_journal | Sec_return _ => 0
  | Sec_fail _ | Sec_close_check _ _ => 1
  | Sec_wake _ | Sec_close_wake _ | Sec_drained_check => 2
  | Sec_drained_wake | Sec_admit _ _ _ | Sec_admit_output _ _ _ | Sec_exited
  | Sec_request_close _ _ => 3
  | Sec_drained _ | Sec_staging _ _ _ | Sec_stage_output _ _ _ | Sec_close _ => 4
  | Sec_slot _ _ => 5
  | Sec_resize _ _ _ | Sec_transfer _ => 6
  end%nat.
Definition lower (k : nat) (s : section) : Prop := (section_rank s < k)%nat.

Section turns.
Context `{L : Layout} `{P : Ports} `{A : Allocation} (cfg : ProjectionConfig).

(** What a step can answer. *)
Definition yields {X} (m : step X) (φ : X → Prop) : Prop := ∀ w, φ (m w).2.
Lemma yields_ret {X} (x : X) (φ : X → Prop) : φ x → yields (mret x) φ.
Proof. by intros Hx w. Qed.
Lemma yields_bind {X Y} (m : step X) (k : X → step Y) φ :
  (∀ x, yields (k x) φ) → yields (m ≫= k) φ.
Proof. intros Hk w. unfold mbind, step_bind. destruct (m w) as [w1 x]. apply Hk. Qed.
Lemma lower_reject k e q : (0 < k)%nat → Forall (lower k) (Sec_reject e <$> q).
Proof. intros Hk. induction q as [|c q IH]; csimpl; by constructor. Qed.
Lemma lower_answer k o t : (0 < k)%nat → Forall (lower k) ((λ t, Sec_answer t o) <$> option_list t).
Proof. intros Hk. destruct t; csimpl; by repeat constructor. Qed.
Ltac yielding :=
  repeat first
    [ apply yields_bind; intros ?
    | match goal with |- yields (match ?x with _ => _ end) _ => destruct x end
    | apply yields_ret; repeat case_match; csimpl;
      repeat first [ apply Forall_cons; split | apply Forall_app; split | apply Forall_nil
                   | apply lower_reject | apply lower_answer | unfold lower; simpl; lia ] ].
Lemma lower_next s : yields (run_section cfg s) (Forall (lower (section_rank s))).
Proof.
  destruct s; simpl;
    unfold co_stage_output, admit_output, co_resize, co_begin_transfer, reserve_slot, stage_control,
      co_admit, refuse, call_wake, call_fail, end_journal, co_close, close_request, answer_close,
      close_journal, close_wake, close_check, notify_output_drained, drained_wake, drained_check;
    try solve [yielding].
  intros w. unfold notify_process_exited. destruct (record_process_exit _) as [a [|]]; simpl;
    repeat constructor.
Qed.

Definition front (l : list section) (calls : list (list section)) : list (list section) :=
  match l with [] => calls | _ => l :: calls end.
(** [n] turns for the thread of the first call in progress. *)
Definition turns (n : nat) : list happening := replicate n (Call (Call_resume 0)).
Lemma after_app hs hs' w : after cfg (hs ++ hs') w = after cfg hs' (after cfg hs w).
Proof.
  revert w. unfold after, drive. induction hs as [|h hs IH]; intros w; [done|]. simpl.
  unfold mbind, step_bind. destruct (happen cfg h w) as [w1 []]. apply IH.
Qed.
Lemma turns_app n m w : after cfg (turns (n + m)) w = after cfg (turns m) (after cfg (turns n) w).
Proof. unfold turns. by rewrite replicate_add, after_app. Qed.
Lemma turns_one w : after cfg (turns 1) w = (resume_call cfg 0 w).1.
Proof.
  unfold after, drive, turns. simpl. unfold mbind, step_bind. by destruct (resume_call cfg 0 w) as [w1 []].
Qed.

Lemma turn_next s rest calls w :
  co_calls w = (s :: rest) :: calls →
  ∃ next, Forall (lower (section_rank s)) next
          ∧ co_calls (after cfg (turns 1) w) = front (next ++ rest) calls.
Proof.
  intros Hw. rewrite turns_one. unfold resume_call, gets, mbind, step_bind, change. rewrite Hw. simpl.
  set (w1 := with_calls _ _ w). pose proof (lower_next s w1) as Hn.
  pose proof (st_calls _ _ (steady_section cfg s w1)) as Hs.
  assert (co_calls w1 = rest :: calls) as Hw1 by (unfold w1; simpl; by rewrite Hw). rewrite Hw1 in Hs.
  destruct (run_section cfg s w1) as [w2 next]. simpl in *. exists next. split; [done|].
  unfold set_call. simpl. rewrite Hs. by destruct (next ++ rest).
Qed.
(** Sections at the head of the first call run to their end. *)
Lemma turns_finish k l rest calls w :
  Forall (lower k) l → co_calls w = front (l ++ rest) calls →
  ∃ n, co_calls (after cfg (turns n) w) = front rest calls.
Proof.
  revert l rest calls w. induction k as [|k IHk]; intros l; induction l as [|s l IHl];
    intros rest calls w Hl Hw; try (by exists 0%nat).
  { apply Forall_cons_1 in Hl as [Hs _]. unfold lower in Hs. lia. }
  apply Forall_cons_1 in Hl as [Hs Hl]. destruct (turn_next s (l ++ rest) calls w Hw) as (next & Hn & H1).
  assert (Forall (lower k) next) as Hk.
  { eapply Forall_impl; [exact Hn|]. unfold lower in *. intros x. lia. }
  destruct (IHk next (l ++ rest) calls _ Hk H1) as [n2 H2].
  destruct (IHl rest calls _ Hl H2) as [n3 H3].
  exists (1 + (n2 + n3))%nat. by rewrite !turns_app.
Qed.
Lemma turns_end w : ∃ n, co_calls (after cfg (turns n) w) = [].
Proof.
  remember (co_calls w) as calls eqn:Hw. symmetry in Hw. revert w Hw.
  induction calls as [|l calls IH]; intros w Hw; [by exists 0%nat|].
  assert (∃ n, co_calls (after cfg (turns n) w) = calls) as [n Hn].
  { destruct l as [|s l].
    - exists 1%nat. rewrite turns_one. unfold resume_call, gets, mbind, step_bind, change. rewrite Hw.
      unfold set_call. simpl. by rewrite Hw.
    - destruct (turns_finish 7 (s :: l) [] calls w) as [n Hn]; [|by rewrite app_nil_r|by exists n].
      apply Forall_forall. intros x _. destruct x; unfold lower; simpl; lia. }
  destruct (IH _ Hn) as [m Hm]. exists (n + m)%nat. by rewrite turns_app.
Qed.
End turns.

(** ** Properties *)

(** C1: The model is authoritative.  A projection is created, and then anything
    happens in any order: runs of the worker, panics, the process bound,
    teardown, and calls of other threads between the lock sections of a run.
    The processed position is always the length of the output fed; and as long
    as the projection has neither failed nor begun to close, it owns either a
    model that has seen exactly that output, or, while parked, a committed
    source whose stored stream is exactly that output, at that position. *)
Theorem authoritative_model `{L : Layout} `{P : Ports} {EL : EngineLaws P} `{A : Allocation}
    lifetime options budgets input reserved next identity script qs e qs' e' cfg w hs :
  create lifetime options budgets input reserved next identity script qs e = (qs', e', Ok (cfg, w)) →
  let w' := after cfg hs w in
  processed_of (dk_adm (co_desk w')) = len (fed w')
  ∧ (live w' →
     match nw_terminal (co_ws w') with
     | Some t => seen t = fed w'
     | None => ∃ s, nw_source (co_ws w') = Some s ∧ stored (cs_reference s) = fed w'
                    ∧ rc_offset (cd_processed (cs_descriptor s)) = len (fed w')
     end).
Proof.
  intros Hc w'. apply create_authoritative in Hc.
  destruct (authoritative_after cfg hs w Hc) as [[Hp _ _] Ht]. by split.
Qed.

(** C2: Answers are exact.  Whatever happened, every view, checkpoint and
    transfer that a wait received is of an exact prefix of the output fed: the
    view shows the model after the bytes its cursor counts, a checkpoint holds
    them, and the observer of a transfer opens at the cursor and control
    generation of its checkpoint. *)
Theorem answers_exact `{L : Layout} `{P : Ports} {EL : EngineLaws P} `{A : Allocation}
    lifetime options budgets input reserved next identity script qs e qs' e' cfg w hs ticket a :
  create lifetime options budgets input reserved next identity script qs e = (qs', e', Ok (cfg, w)) →
  let w' := after cfg hs w in
  (ticket, Answered (Ok a)) ∈ co_done w' → answer_exact (fed w') a.
Proof.
  intros Hc w' Hin. apply create_authoritative in Hc.
  destruct (authoritative_after cfg hs w Hc) as [[_ _ Hd] _].
  rewrite Forall_forall in Hd. exact (Hd _ Hin).
Qed.

(** C3: Output is neither lost, duplicated nor reordered.  Between any two
    happenings, the bytes fed to the model are a prefix of the bytes accepted
    from the reader, whose length is the published position; and as long as
    nobody has closed the projection, the rest is exactly what is queued, in
    order. *)
Theorem output_fed_in_order `{L : Layout} `{P : Ports} `{A : Allocation}
    lifetime options budgets input reserved next identity script qs e qs' e' cfg w hs :
  create lifetime options budgets input reserved next identity script qs e = (qs', e', Ok (cfg, w)) →
  let d := co_desk (after cfg hs w) in
  published_of (dk_adm d) = len (dk_accepted d) ∧ dk_held d = None
  ∧ dk_fed d `prefix_of` dk_accepted d
  ∧ (closing_of (dk_adm d) = false →
     dk_accepted d = dk_fed d ++ commands_bytes (ad_queue (dk_adm d))).
Proof.
  intros Hc d. apply create_between in Hc.
  destruct (between_after cfg hs w Hc) as (z & i & cl & [Hh _ _ _ _ _ _ _ Hp (rest & Hs & Hr) _] & _).
  fold d in Hh, Hp, Hs, Hr. simpl in Hh. unfold owned in Hs. rewrite Hh in Hs. simpl in Hs.
  split; [done|]. split; [done|]. split; [by eexists|].
  intros Ho. by rewrite (Hr Ho), app_nil_r in Hs.
Qed.

(** C4: Every wait is answered exactly once.  Callers and the worker run section
    by section, in any order.  Between any two happenings, every ticket of an
    admitted resize, view, checkpoint, transfer or close is in exactly one place:
    completed, in the queue, with the resize or the job in flight, among the
    close waits, or with a caller's thread that is failing the queue it took.
    What is completed got a result, or its wait had been abandoned: no ticket is
    dropped while somebody waits.  Once the projection has closed, by whatever
    route, every ticket has been completed but for those such a thread holds;
    and threads that are given turns end their calls, after which all have. *)
Theorem every_wait_answered_once `{L : Layout} `{P : Ports} {EL : EngineLaws P} `{A : Allocation}
    lifetime options budgets input reserved next identity script qs e qs' e' cfg w hs :
  create lifetime options budgets input reserved next identity script qs e = (qs', e', Ok (cfg, w)) →
  let w' := after cfg hs w in
  let waits w := dk_admitted (co_desk w) ++ dk_asked (co_desk w) in
  let closed w := ad_residency (dk_adm (co_desk w)) = Closed in
  (waits w'
    ≡ₚ (co_done w').*1 ++ commands_tickets (ad_queue (dk_adm (co_desk w'))) ++ resize_tickets (co_ws w')
       ++ io_tickets (nw_io (co_ws w')) ++ ad_close_waiters (dk_adm (co_desk w'))
       ++ calls_tickets (co_calls w'))
  ∧ (∀ ticket, (ticket, Dropped) ∉ co_done w')
  ∧ (closed w' → waits w' ≡ₚ (co_done w').*1 ++ calls_tickets (co_calls w'))
  ∧ ∃ n, let w'' := after cfg (turns n) w' in
         co_calls w'' = [] ∧ (closed w'' → waits w'' ≡ₚ (co_done w'').*1).
Proof.
  intros Hc w' waits closed.
  pose proof (between_after cfg hs w (create_between _ _ _ _ _ _ _ _ _ _ _ _ _ _ Hc)) as Hb.
  pose proof (authoritative_after cfg hs w (create_authoritative _ _ _ _ _ _ _ _ _ _ _ _ _ _ Hc))
    as [[_ _ Hd] _].
  split; [by apply between_waits|]. split; [|split; [by apply between_closed|]].
  - intros ticket Hin. rewrite Forall_forall in Hd. exact (Hd _ Hin).
  - destruct (turns_end cfg w') as [n Hn]. exists n. split; [exact Hn|]. intros Hcl.
    pose proof (between_closed _ (between_after cfg (turns n) w' Hb) Hcl) as H.
    rewrite Hn in H. unfold calls_tickets in H. simpl in H. by rewrite app_nil_r in H.
Qed.

(** *** Witnesses *)

(** One projection of the demonstration engine: output is fed and viewed; idle,
    it parks; output read meanwhile brings the model back from the source. *)
Definition demo_later : caller_op (P := demo_ports) :=
  Call_world (λ e, {| de_now := from_secs 100; de_pool := true; de_room := de_room e;
                      de_store := de_store e |}).
(** A call whose thread gets as many turns as it needs. *)
Definition demo_call (c : caller_op (P := demo_ports)) : list happening := Call c :: turns 12.
Definition demo_parked : list (happening (P := demo_ports)) :=
  Bind :: demo_call (Call_stage_output [104; 105] None true) ++ [Run]
  ++ demo_call (Call_view 1%nat) ++ [Run; Call demo_later; Run; Call Call_job; Run].
Definition demo_reread : list (happening (P := demo_ports)) :=
  demo_parked ++ demo_call (Call_stage_output [33] None true) ++ [Run; Call Call_job].
Definition demo_restored : list (happening (P := demo_ports)) :=
  demo_reread ++ [Run; Run; Run] ++ demo_call (Call_transfer 3%nat) ++ [Run].

(** A projection that is closed while a checkpoint is queued: the worker closes it
    before the closing thread has failed the checkpoint it took. *)
Definition demo_closed : list (happening (P := demo_ports)) :=
  Bind :: demo_call (Call_stage_output [104; 105] None true) ++ [Run]
  ++ demo_call (Call_view 1%nat)
  ++ demo_call (Call_resize {| ts_cols := 80; ts_rows := 24 |} 2%nat None) ++ [Run; Run]
  ++ demo_call (Call_checkpoint 3%nat) ++ Call (Call_close 4%nat) :: turns 2 ++ [Run; Run].

Ltac demo_projection :=
  destruct (demo_created []) as [[cfg w]|] eqn:Ew; [|by vm_compute in Ew];
  pose proof Ew as Ec; unfold demo_created in Ec;
  destruct (demo_create []) as [[qs e] [x|]] eqn:E; [|done]; simpl in Ec; injection Ec as ->.

Lemma authoritative_model_witness :
  match demo_created [] with
  | Some (cfg, w) =>
    let w' := after (L := demo_layout) cfg demo_parked w in
    nw_terminal (co_ws w') = None ∧ live w' ∧ fed w' = [104; 105]
    ∧ ∃ s, nw_source (co_ws w') = Some s ∧ stored (cs_reference s) = fed w'
           ∧ rc_offset (cd_processed (cs_descriptor s)) = len (fed w')
  | None => False
  end.
Proof.
  demo_projection.
  destruct (authoritative_model (P := demo_ports) (L := demo_layout) _ _ _ _ _ _ _ _ _ _ _ _ _ _ demo_parked E)
    as [_ H].
  assert (nw_terminal (co_ws (after (L := demo_layout) cfg demo_parked w)) = None
          ∧ live (after (L := demo_layout) cfg demo_parked w)
          ∧ fed (after (L := demo_layout) cfg demo_parked w) = [104; 105]) as (Hn & Hl & Hf).
  { vm_compute in Ew. injection Ew as <- <-. vm_compute. auto. }
  rewrite Hn in H. exact (conj Hn (conj Hl (conj Hf (H Hl)))).
Defined.
Lemma answers_exact_witness :
  match demo_created [] with
  | Some (cfg, w) =>
    let w' := after (L := demo_layout) cfg demo_restored w in
    (co_done w').*1 = [1; 3]%nat ∧ fed w' = [104; 105; 33]
    ∧ ∀ ticket a, (ticket, Answered (Ok a)) ∈ co_done w' → answer_exact (fed w') a
  | None => False
  end.
Proof.
  demo_projection.
  pose proof (λ ticket a, answers_exact (P := demo_ports) (L := demo_layout)
    _ _ _ _ _ _ _ _ _ _ _ _ _ _ demo_restored ticket a E) as H.
  split; [|split; [|exact H]]; vm_compute in Ew; injection Ew as <- <-; vm_compute; reflexivity.
Defined.

Lemma output_fed_in_order_witness :
  match demo_created [] with
  | Some (cfg, w) =>
    let d := co_desk (after (L := demo_layout) cfg demo_reread w) in
    dk_accepted d = [104; 105; 33] ∧ dk_fed d = [104; 105]
    ∧ dk_accepted d = dk_fed d ++ commands_bytes (ad_queue (dk_adm d))
  | None => False
  end.
Proof.
  demo_projection.
  destruct (output_fed_in_order (P := demo_ports) (L := demo_layout)
    _ _ _ _ _ _ _ _ _ _ _ _ _ _ demo_reread E) as (_ & _ & _ & H).
  split; [|split; [|apply H]]; vm_compute in Ew; injection Ew as <- <-; vm_compute; reflexivity.
Defined.
Lemma every_wait_answered_once_witness :
  match demo_created [] with
  | Some (cfg, w) =>
    let w' := after (L := demo_layout) cfg demo_closed w in
    dk_admitted (co_desk w') ++ dk_asked (co_desk w') = [1; 2; 3; 4]%nat
    ∧ (co_done w').*1 = [1; 2; 4]%nat ∧ calls_tickets (co_calls w') = [3]%nat
    ∧ ad_residency (dk_adm (co_desk w')) = Closed
    ∧ (∀ ticket, (ticket, Dropped) ∉ co_done w')
    ∧ ∃ n, co_calls (after (L := demo_layout) cfg (turns n) w') = []
  | None => False
  end.
Proof.
  demo_projection.
  destruct (every_wait_answered_once (P := demo_ports) (L := demo_layout)
    _ _ _ _ _ _ _ _ _ _ _ _ _ _ demo_closed E) as (_ & Hd & _ & n & Hn & _).
  do 4 (split; [vm_compute in Ew; injection Ew as <- <-; vm_compute; reflexivity|]).
  split; [exact Hd|]. by exists n.
Defined.
