(* ===== verification/ObjectNames.v ===== *)
(** * Names of checkpoint objects and namespaces
      (crates/infrastructure/src/checkpoint/file.rs, arena.rs, cleanup.rs)

    The store names its files by a hexadecimal sequence number and the arena
    names a namespace by 128 random bits; the cleanup pass of another process
    recognises both from the directory entry alone. *)

From S2P Require Import Prelude Utf8 Bytes.

(** ** Fixed-width hexadecimal *)

Definition hex_digit (d : Z) : Z := if d <? 10 then 48 + d else 87 + d.
(** [{:0nx}] of an integer of at most [n] digits. *)
Fixpoint hex (n : nat) (v : Z) : list Z :=
  match n with O => [] | S n => hex n (v / 16) ++ [hex_digit (v mod 16)] end.
(** [b.is_ascii_digit() || (b'a'..=b'f').contains(&b)] *)
Definition is_hex (b : Z) : bool := is_ascii_digit b || ((97 <=? b) && (b <=? 102)).
Definition hex_value (b : Z) : Z := if is_ascii_digit b then b - 48 else b - 87.
(** [from_str_radix(_, 16)] of such digits *)
Definition unhex (l : list Z) : Z := foldl (λ acc b, acc * 16 + hex_value b) 0 l.

Definition strip_suffix (suffix l : list Z) : option (list Z) :=
  let n := (length l - length suffix)%nat in
  if bool_decide (drop n l = suffix) then Some (take n l) else None.

(** ** Names *)

Definition checkpoint_suffix : list Z := bs ".checkpoint".
Definition pending_suffix : list Z := bs ".pending".
Definition checkpoint_name (sequence : Z) : list Z := hex 16 sequence ++ checkpoint_suffix.
Definition pending_name (sequence : Z) : list Z := hex 16 sequence ++ pending_suffix.
Definition owner_prefix : list Z := bs "owner-".
Definition owner_name (random : Z) : list Z := owner_prefix ++ hex 32 random.

Definition object_name (name : list Z) : bool :=
  let stem := match strip_suffix checkpoint_suffix name with
              | Some stem => Some stem | None => strip_suffix pending_suffix name end in
  match stem with
  | Some stem => (len stem =? 16) && forallb is_hex stem && negb (unhex stem =? 0)
  | None => false
  end.
Definition namespace_name (bytes : list Z) : bool :=
  (len bytes =? 38) && bool_decide (take 6 bytes = owner_prefix) && forallb is_hex (drop 6 bytes).

(** ** Lemmas *)

Lemma length_hex n v : length (hex n v) = n.
Proof. revert v. induction n as [|n IH]; intros v; simpl; [done|]. rewrite length_app, IH. simpl. lia. Qed.
Lemma hex_digit_ok d : 0 <= d < 16 → is_hex (hex_digit d) = true ∧ hex_value (hex_digit d) = d.
Proof.
  intros Hd. assert (forallb (λ d, is_hex (hex_digit d) && (hex_value (hex_digit d) =? d)) (seqZ 0 16) = true) as H
    by reflexivity.
  apply (forallb_seqZ _ 0 16 d H) in Hd. to_props. auto.
Qed.
Lemma hex_value_ok b : is_hex b = true → 0 <= hex_value b < 16 ∧ hex_digit (hex_value b) = b.
Proof.
  intros Hb. assert (forallb (λ b, negb (is_hex b)
    || ((0 <=? hex_value b) && (hex_value b <? 16) && (hex_digit (hex_value b) =? b))) (seqZ 48 55) = true) as H
    by reflexivity.
  assert (48 <= b < 48 + 55) as Hr.
  { unfold is_hex, is_ascii_digit, in_range in Hb. apply orb_true_iff in Hb as [Hb|Hb]; to_props; lia. }
  apply (forallb_seqZ _ 48 55 b H) in Hr. rewrite Hb in Hr. simpl in Hr. to_props. lia.
Qed.
Lemma unhex_snoc l b : unhex (l ++ [b]) = unhex l * 16 + hex_value b.
Proof. unfold unhex. by rewrite foldl_app. Qed.
Lemma hex_is_hex n v : forallb is_hex (hex n v) = true.
Proof.
  revert v. induction n as [|n IH]; intros v; simpl; [done|]. rewrite forallb_app, IH. simpl.
  by rewrite (proj1 (hex_digit_ok (v mod 16) (Z.mod_pos_bound v 16 eq_refl))).
Qed.
Lemma unhex_hex n v : 0 <= v < 16 ^ Z.of_nat n → unhex (hex n v) = v.
Proof.
  revert v. induction n as [|n IH]; intros v Hv; [change (16 ^ Z.of_nat 0) with 1 in Hv; simpl; change (unhex []) with 0; lia|].
  rewrite Nat2Z.inj_succ, Z.pow_succ_r in Hv by lia. cbn [hex]. rewrite unhex_snoc, IH by (Z.div_mod_to_equations; lia).
  rewrite (proj2 (hex_digit_ok (v mod 16) (Z.mod_pos_bound v 16 eq_refl))). Z.div_mod_to_equations; lia.
Qed.
Lemma hex_unhex l :
  forallb is_hex l = true → 0 <= unhex l < 16 ^ len l ∧ hex (length l) (unhex l) = l.
Proof.
  induction l as [|b l IH] using rev_ind; [done|]. rewrite forallb_app. simpl. rewrite andb_true_r.
  intros [Hl Hb]%andb_true_iff.
  destruct (IH Hl) as [Hr Hh]. destruct (hex_value_ok b Hb) as [Hv Hd].
  rewrite unhex_snoc, len_app, length_app, Nat.add_1_r. change (len [b]) with 1.
  rewrite Z.pow_add_r by (len_facts; lia). split; [lia|]. cbn [hex].
  replace ((unhex l * 16 + hex_value b) / 16) with (unhex l) by (Z.div_mod_to_equations; lia).
  replace ((unhex l * 16 + hex_value b) mod 16) with (hex_value b) by (Z.div_mod_to_equations; lia). by rewrite Hh, Hd.
Qed.
Lemma hex_inj n v w : 0 <= v < 16 ^ Z.of_nat n → 0 <= w < 16 ^ Z.of_nat n → hex n v = hex n w → v = w.
Proof. intros Hv Hw H. by rewrite <-(unhex_hex n v), H, unhex_hex. Qed.

Lemma strip_suffix_app suffix l : strip_suffix suffix (l ++ suffix) = Some l.
Proof.
  unfold strip_suffix. rewrite length_app. replace (length l + length suffix - length suffix)%nat with (length l) by lia.
  rewrite drop_app_length, take_app_length. by rewrite bool_decide_eq_true_2.
Qed.
Lemma strip_suffix_Some suffix l stem : strip_suffix suffix l = Some stem → l = stem ++ suffix.
Proof.
  unfold strip_suffix. case_bool_decide as H; [|done]. intros [= <-].
  etrans; [symmetry; apply (take_drop (length l - length suffix) l)|]. by rewrite H.
Qed.

Lemma suffixes_disjoint l k : l ++ checkpoint_suffix ≠ k ++ pending_suffix.
Proof. intros H. apply (f_equal last) in H. by rewrite !last_app in H. Qed.
Lemma name_range s : 1 <= s <= u64_max → 0 <= s < 16 ^ Z.of_nat 16.
Proof. unfold u64_max. change (16 ^ Z.of_nat 16) with 18446744073709551616. lia. Qed.
Lemma checkpoint_name_inj s t :
  1 <= s <= u64_max → 1 <= t <= u64_max → checkpoint_name s = checkpoint_name t → s = t.
Proof. intros Hs Ht [H _]%app_inj_2; [|done]. apply (hex_inj 16); [by apply name_range..|done]. Qed.
Lemma pending_name_inj s t :
  1 <= s <= u64_max → 1 <= t <= u64_max → pending_name s = pending_name t → s = t.
Proof. intros Hs Ht [H _]%app_inj_2; [|done]. apply (hex_inj 16); [by apply name_range..|done]. Qed.

(** ** Theorems *)

Lemma object_stem stem :
  (len stem =? 16) && forallb is_hex stem && negb (unhex stem =? 0) = true
  ↔ ∃ s, 1 <= s <= u64_max ∧ stem = hex 16 s.
Proof.
  split.
  - intros H. to_props. match goal with H : forallb _ _ = true |- _ => destruct (hex_unhex stem H) as [Hr Hh] end.
    assert (length stem = 16%nat) as Hl by (unfold len in *; lia). rewrite Hl in Hh.
    exists (unhex stem). split; [|done]. unfold len in Hr. rewrite Hl in Hr.
    change (16 ^ Z.of_nat 16) with 18446744073709551616 in Hr. unfold u64_max. lia.
  - intros (s & Hs & ->). rewrite hex_is_hex, unhex_hex by (by apply name_range).
    unfold len. rewrite length_hex. rewrite (proj2 (Z.eqb_neq s 0)) by lia. done.
Qed.

(** The cleanup pass takes a file for an object of a store exactly when some
    store could have written it: under the name of a committed or of a pending
    object of a sequence number that is issued. *)
Theorem object_name_exact (name : list Z) :
  object_name name = true
  ↔ ∃ s, 1 <= s <= u64_max ∧ (name = checkpoint_name s ∨ name = pending_name s).
Proof.
  unfold object_name. destruct (strip_suffix checkpoint_suffix name) as [stem|] eqn:E.
  - apply strip_suffix_Some in E as ->. rewrite object_stem. split.
    + intros (s & Hs & ->). by exists s; auto.
    + intros (s & Hs & [H|H]); exists s; (split; [done|]).
      * by apply app_inj_2 in H as [-> _].
      * by destruct (suffixes_disjoint stem (hex 16 s)).
  - destruct (strip_suffix pending_suffix name) as [stem|] eqn:E'.
    + apply strip_suffix_Some in E' as ->. rewrite object_stem. split.
      * intros (s & Hs & ->). exists s; auto.
      * intros (s & Hs & [H|H]); [unfold checkpoint_name in H; by rewrite H, strip_suffix_app in E|]. exists s. split; [done|].
        by apply app_inj_2 in H as [-> _].
    + split; [done|]. intros (s & Hs & [->| ->]);
        [unfold checkpoint_name in E; by rewrite strip_suffix_app in E
        |unfold pending_name in E'; by rewrite strip_suffix_app in E'].
Qed.
Lemma owner_name_known r : 0 <= r < 2 ^ 128 → namespace_name (owner_name r) = true.
Proof.
  intros Hr. unfold namespace_name, owner_name. rewrite len_app. unfold len at 2. rewrite length_hex.
  rewrite (take_app_length' owner_prefix), (drop_app_length' owner_prefix) by done.
  rewrite hex_is_hex. by rewrite bool_decide_eq_true_2.
Qed.
(** And a directory of the arena is a namespace exactly when its name is one the
    arena could have drawn. *)
Theorem namespace_name_exact (name : list Z) :
  namespace_name name = true ↔ ∃ r, 0 <= r < 2 ^ 128 ∧ name = owner_name r.
Proof.
  unfold namespace_name, owner_name. split.
  - intros H. to_props. match goal with H : forallb _ _ = true |- _ => destruct (hex_unhex _ H) as [Hr Hh] end.
    assert (length (drop 6 name) = 32%nat) as Hl by (rewrite length_drop; unfold len in *; lia).
    exists (unhex (drop 6 name)). unfold len in Hr. rewrite Hl in Hr, Hh.
    split; [exact Hr|]. rewrite Hh. match goal with H : take 6 _ = _ |- _ => rewrite <-H end. by rewrite take_drop.
  - intros (r & Hr & ->). by apply owner_name_known.
Qed.
