(* ===== verification/Directory.v ===== *)
(** * Files of an anchored directory
      (crates/infrastructure/src/checkpoint/filesystem.rs)

    The store works in one directory through a descriptor.  The system calls are
    the operations of a class over a state [Fs], and what POSIX documents of
    them, for a private directory nobody else writes to, is a second class of
    laws about the files in it.  A descriptor is named by the name it was opened
    with: nothing is renamed while it is still used. *)

From S2P Require Import Prelude Checkpoint.

(** [io::Error]: the two native codes and the two kinds the code tells apart. *)
Inductive io_error := Io_ENOSPC | Io_EDQUOT | Io_NotFound | Io_AlreadyExists | Io_other.
#[export] Instance io_error_eq_dec : EqDecision io_error.
Proof. solve_decision. Defined.
Definition map_io (e : io_error) : CheckpointError :=
  match e with
  | Io_ENOSPC | Io_EDQUOT => CheckpointError_CapacityExceeded
  | Io_NotFound => CheckpointError_NotFound
  | Io_AlreadyExists => CheckpointError_AlreadyExists
  | Io_other => CheckpointError_Unavailable
  end.

Record Metadata := { md_is_file : bool; md_mode : Z; md_nlink : Z; md_uid : Z; md_len : Z }.

(** ** System calls *)

Class Files := {
  Fs : Type;
  geteuid : Z;
  (** [openat] with [O_WRONLY | O_CREAT | O_EXCL], and with [O_RDONLY] *)
  sys_create : list Z → action Fs io_error ();
  sys_open : list Z → action Fs io_error ();
  (** [File::metadata], [write_all], [sync_all] *)
  sys_metadata : list Z → action Fs io_error Metadata;
  sys_write_all : list Z → list Z → action Fs io_error ();
  sys_sync_all : list Z → action Fs io_error ();
  sys_rename : list Z → list Z → action Fs io_error ();
  sys_unlink : list Z → action Fs io_error ();
  (** [read_exact] of [n] bytes from the start, and [read] of [m] bytes after
      the first [n] *)
  sys_read_exact : list Z → Z → action Fs io_error (list Z);
  sys_read_more : list Z → Z → Z → action Fs io_error (list Z)
}.

(** A write that succeeds appends all it was given, one that fails a prefix. *)
Definition writes {F : Files} (contents : Fs → gmap (list Z) (list Z))
    (write : list Z → list Z → action Fs io_error ()) : Prop :=
  ∀ name bytes fs fs' r, write name bytes fs = (fs', r) →
    ∃ n, contents fs' = alter (λ old, old ++ take n bytes) name (contents fs)
      ∧ (r = Ok tt → take n bytes = bytes).

Class FilesLaws (F : Files) := {
  contents : Fs → gmap (list Z) (list Z);
  create_law name fs fs' r : sys_create name fs = (fs', r) →
    match r with
    | Ok _ => contents fs !! name = None ∧ contents fs' = <[name := []]> (contents fs)
    | Err _ => contents fs' = contents fs
    end;
  open_law name fs fs' r : sys_open name fs = (fs', r) → contents fs' = contents fs;
  metadata_law name fs fs' r : sys_metadata name fs = (fs', r) → contents fs' = contents fs
    ∧ ∀ m bytes, r = Ok m → contents fs !! name = Some bytes → md_len m = len bytes;
  write_law : writes contents sys_write_all;
  sync_law name fs fs' r : sys_sync_all name fs = (fs', r) → contents fs' = contents fs;
  rename_law old new fs fs' r : sys_rename old new fs = (fs', r) →
    match r with
    | Ok _ => ∃ bytes, contents fs !! old = Some bytes ∧ contents fs' = <[new := bytes]> (delete old (contents fs))
    | Err _ => contents fs' = contents fs
    end;
  unlink_law name fs fs' r : sys_unlink name fs = (fs', r) →
    match r with
    | Ok _ => contents fs' = delete name (contents fs)
    | Err e => contents fs' = contents fs ∧ (e = Io_NotFound → contents fs !! name = None)
    end;
  read_exact_law name n fs fs' r : sys_read_exact name n fs = (fs', r) → contents fs' = contents fs
    ∧ ∀ bytes all, r = Ok bytes → contents fs !! name = Some all →
        len bytes = n ∧ bytes = take (Z.to_nat n) all;
  read_more_law name n m fs fs' r : sys_read_more name n m fs = (fs', r) → contents fs' = contents fs
    ∧ ∀ bytes all, r = Ok bytes → contents fs !! name = Some all → 0 <= n → 0 < m →
        (bytes = [] → len all <= n)
}.

(** ** Operations of the directory *)

Section directory.
Context `{F : Files}.

(** [.map_err(map)] *)
Definition io {A} (m : action Fs io_error A) : action Fs CheckpointError A := λ fs,
  let (fs', r) := m fs in (fs', map_err map_io r).
(** [CString::new]: no NUL inside *)
Definition c_string (name : list Z) : result CheckpointError () :=
  if existsb (Z.eqb 0) name then Err CheckpointError_InvalidConfiguration else Ok tt.
Definition trusted (m : Metadata) : bool :=
  md_is_file m && (Z.land (md_mode m) 511 =? 384) && (md_nlink m =? 1) && (md_uid m =? geteuid).
Definition open_file (name : list Z) (write : bool) : action Fs CheckpointError () :=
  _ ← lift (c_string name);
  _ ← io (if write then sys_create name else sys_open name);
  m ← io (sys_metadata name);
  if trusted m then mret tt else throw CheckpointError_Unavailable.
Definition rename (old new : list Z) : action Fs CheckpointError () :=
  _ ← lift (c_string old);
  _ ← lift (c_string new);
  io (sys_rename old new).
Definition remove (name : list Z) : action Fs CheckpointError () := λ fs,
  match c_string name with
  | Err e => (fs, Err e)
  | Ok _ =>
    match sys_unlink name fs with
    | (fs, Err e) => (fs, if bool_decide (e = Io_NotFound) then Ok tt else Err (map_io e))
    | (fs, Ok _) => (fs, Ok tt)
    end
  end.

(** ** What they do to the files *)

Context `{!FilesLaws F}.

Lemma io_inv {A} (m : action Fs io_error A) fs fs' (r : result CheckpointError A) :
  io m fs = (fs', r) → ∃ r', m fs = (fs', r') ∧ r = map_err map_io r'.
Proof. unfold io. destruct (m fs) as [fs1 r1]. intros [= <- <-]. by exists r1. Qed.
Lemma io_state {A} (m : action Fs io_error A) fs (P : Fs → Prop) :
  (∀ fs' r, m fs = (fs', r) → P fs') → P (io m fs).1.
Proof. unfold io. destruct (m fs) as [fs' r]. simpl. eauto. Qed.

Lemma open_read_contents name fs fs' r :
  open_file name false fs = (fs', r) → contents fs' = contents fs.
Proof.
  unfold open_file. run_action. destruct (c_string name); [|by intros [= <- _]].
  unfold io. destruct (sys_open name fs) as [fs1 [u|e]] eqn:E1; apply open_law in E1; simpl; [|by intros [= <- _]].
  destruct (sys_metadata name fs1) as [fs2 [m|e]] eqn:E2; apply metadata_law in E2 as [E2 _]; simpl;
    [destruct (trusted m)|]; intros [= <- _]; congruence.
Qed.
(** A file that could be opened for writing was not there before; when the call
    fails it may have been created nevertheless. *)
Lemma open_write_contents name fs fs' r :
  open_file name true fs = (fs', r) →
  contents fs !! name = None ∧ contents fs' = <[name := []]> (contents fs)
  ∨ r ≠ Ok tt ∧ contents fs' = contents fs.
Proof.
  unfold open_file. run_action. destruct (c_string name); [|intros [= <- <-]; by right].
  unfold io. destruct (sys_create name fs) as [fs1 [u|e]] eqn:E1; apply create_law in E1; simpl;
    [|intros [= <- <-]; by right].
  destruct (sys_metadata name fs1) as [fs2 [m|e]] eqn:E2; apply metadata_law in E2 as [E2 _]; simpl;
    [destruct (trusted m)|]; intros [= <- _]; left; by rewrite E2.
Qed.
Lemma rename_contents old new fs fs' r :
  rename old new fs = (fs', r) →
  match r with
  | Ok _ => ∃ bytes, contents fs !! old = Some bytes ∧ contents fs' = <[new := bytes]> (delete old (contents fs))
  | Err _ => contents fs' = contents fs
  end.
Proof.
  unfold rename. run_action. destruct (c_string old); [|by intros [= <- <-]].
  destruct (c_string new); [|by intros [= <- <-]]. unfold io.
  destruct (sys_rename old new fs) as [fs1 [u|e]] eqn:E; apply rename_law in E; simpl; by intros [= <- <-].
Qed.
Lemma remove_contents name fs fs' r :
  remove name fs = (fs', r) →
  match r with
  | Ok _ => contents fs' = delete name (contents fs)
  | Err _ => contents fs' = contents fs
  end.
Proof.
  unfold remove. destruct (c_string name); [|by intros [= <- <-]].
  destruct (sys_unlink name fs) as [fs1 [u|e]] eqn:E; apply unlink_law in E; simpl.
  - by intros [= <- <-].
  - destruct E as [E Hn]. case_bool_decide as He; intros [= <- <-]; [|done].
    rewrite delete_id by auto. done.
Qed.
Lemma io_write_contents write name bytes fs fs' r :
  writes contents write → io (write name bytes) fs = (fs', r) →
  ∃ n, contents fs' = alter (λ old, old ++ take n bytes) name (contents fs)
    ∧ (r = Ok tt → take n bytes = bytes).
Proof.
  intros Hw (r' & E & ->)%io_inv. destruct (Hw _ _ _ _ _ E) as (n & Hc & Hr). exists n. split; [done|].
  destruct r' as [[]|]; [auto|done].
Qed.
End directory.

(** ** A directory in memory, whose calls fail as a script says *)

Record memory_fs := { mf_files : gmap (list Z) (list Z); mf_faults : list (option io_error) }.
Definition mf_call {A} (name : list Z) (good : gmap (list Z) (list Z) → result io_error (A * gmap (list Z) (list Z)))
    : action memory_fs io_error A := λ fs,
  match mf_faults fs with
  | Some e :: faults => ({| mf_files := mf_files fs; mf_faults := faults |}, Err e)
  | faults =>
    match good (mf_files fs) with
    | Ok (a, files) => ({| mf_files := files; mf_faults := tail faults |}, Ok a)
    | Err e => ({| mf_files := mf_files fs; mf_faults := tail faults |}, Err e)
    end
  end.
#[export] Instance memory_files : Files := {|
  Fs := memory_fs; geteuid := 7;
  sys_create name := mf_call name (λ m,
    if is_some (m !! name) then Err Io_AlreadyExists else Ok (tt, <[name := []]> m));
  sys_open name := mf_call name (λ m, if is_some (m !! name) then Ok (tt, m) else Err Io_NotFound);
  sys_metadata name := mf_call name (λ m,
    Ok ({| md_is_file := true; md_mode := 384; md_nlink := 1; md_uid := 7; md_len := len (default [] (m !! name)) |}, m));
  sys_write_all name bytes := λ fs,
    match mf_faults fs with
    | Some e :: faults =>
      ({| mf_files := alter (λ old, old ++ take 1 bytes) name (mf_files fs); mf_faults := faults |}, Err e)
    | faults => ({| mf_files := alter (λ old, old ++ bytes) name (mf_files fs); mf_faults := tail faults |}, Ok tt)
    end;
  sys_sync_all name := mf_call name (λ m, Ok (tt, m));
  sys_rename old new := mf_call old (λ m,
    match m !! old with Some bytes => Ok (tt, <[new := bytes]> (delete old m)) | None => Err Io_NotFound end);
  sys_unlink name := λ fs,
    let (fs, r) := mf_call name (λ m, Ok (tt, delete name m)) fs in
    (fs, map_err (λ _, Io_other) r);
  sys_read_exact name n := mf_call name (λ m,
    let all := default [] (m !! name) in
    if (0 <=? n) && (n <=? len all) then Ok (take (Z.to_nat n) all, m) else Err Io_other);
  sys_read_more name n k := mf_call name (λ m,
    Ok (take (Z.to_nat k) (drop (Z.to_nat n) (default [] (m !! name))), m))
|}.
Lemma mf_call_inv {A} (name : list Z) (good : gmap (list Z) (list Z) → result io_error (A * gmap (list Z) (list Z))) (fs fs' : memory_fs) r :
  mf_call name good fs = (fs', r) →
  (∃ e, r = Err e ∧ mf_files fs' = mf_files fs)
  ∨ ∃ a files, good (mf_files fs) = Ok (a, files) ∧ r = Ok a ∧ mf_files fs' = files.
Proof.
  unfold mf_call. intros H. repeat (case_match; simplify_eq/=); eauto 10.
Qed.
#[export] Instance memory_laws : FilesLaws memory_files.
Proof.
  refine (Build_FilesLaws memory_files mf_files _ _ _ _ _ _ _ _ _); simpl.
  - intros name fs fs' r [(e & -> & ->)|([] & files & Hg & -> & ->)]%mf_call_inv; [done|].
    destruct (mf_files fs !! name); simplify_eq/=. done.
  - intros name fs fs' r [(e & -> & ->)|([] & files & Hg & -> & ->)]%mf_call_inv; [done|].
    destruct (mf_files fs !! name); by simplify_eq/=.
  - intros name fs fs' r [(e & -> & ->)|(m & files & Hg & -> & ->)]%mf_call_inv; [done|].
    simplify_eq/=. split; [done|]. by intros m bytes [= <-] ->.
  - intros name bytes fs fs' r H. destruct (mf_faults fs) as [|[e|] faults]; simplify_eq/=.
    + exists (length bytes). by rewrite firstn_all.
    + by exists 1%nat.
    + exists (length bytes). by rewrite firstn_all.
  - intros name fs fs' r [(e & -> & ->)|([] & files & Hg & -> & ->)]%mf_call_inv; by simplify_eq/=.
  - intros old new fs fs' r [(e & -> & ->)|([] & files & Hg & -> & ->)]%mf_call_inv; [done|].
    destruct (mf_files fs !! old) as [bytes|]; simplify_eq/=. by exists bytes.
  - intros name fs fs' r H. destruct (mf_call _ _ fs) as [fs1 r1] eqn:E. simplify_eq/=.
    apply mf_call_inv in E as [(e & -> & ->)|([] & files & Hg & -> & ->)]; by simplify_eq/=.
  - intros name n fs fs' r [(e & -> & ->)|(b & files & Hg & -> & ->)]%mf_call_inv; [done|].
    case_match eqn:E; simplify_eq/=. to_props. split; [done|]. intros b all [= <-] Ha. rewrite Ha in *. simpl in *.
    rewrite len_take by done. split; [lia|done].
  - intros name n k fs fs' r [(e & -> & ->)|(b & files & Hg & -> & ->)]%mf_call_inv; [done|].
    simplify_eq/=. split; [done|]. intros b all [= <-] -> H0 Hk Hn. simpl in Hn.
    apply len_zero in Hn. rewrite len_take in Hn by lia. unfold len in *. rewrite length_drop in Hn. lia.
Defined.
