(* ===== verification/FileStore.v ===== *)
(** * The checkpoint store on disk
      (crates/infrastructure/src/checkpoint/file.rs)

    Each operation of the store runs under its mutex, so a history is a list of
    operations.  A state of the store is related to the map of the checkpoints
    that were committed and not deleted, and every operation to an operation of
    that map; the files of the directory never hold more than the quota. *)

From S2P Require Import Prelude Identity Terminal Checkpoint ObjectNames Directory.

(** The sum of a measure over a map. *)
Definition msum `{Countable K} {A} (f : A → Z) (m : gmap K A) : Z := map_fold (λ _ x n, f x + n) 0 m.

(** ** State *)

Record Entry := { en_reference : CheckpointRef; en_descriptor : CheckpointDescriptor; en_name : list Z }.
Record Store := {
  st_entries : gmap CheckpointKey Entry;
  st_committed : Z;
  st_inflight : Z;
  st_abandoned : Z;
  st_sequence : Z;
  st_orphans : list (list Z)
}.
Definition Store_new : Store := {|
  st_entries := ∅; st_committed := 0; st_inflight := 0; st_abandoned := 0; st_sequence := 0; st_orphans := [] |}.
Definition set_sequence (n : Z) (s : Store) : Store := {|
  st_entries := st_entries s; st_committed := st_committed s; st_inflight := st_inflight s;
  st_abandoned := st_abandoned s; st_sequence := n; st_orphans := st_orphans s |}.
Definition set_inflight (n : Z) (s : Store) : Store := {|
  st_entries := st_entries s; st_committed := st_committed s; st_inflight := n;
  st_abandoned := st_abandoned s; st_sequence := st_sequence s; st_orphans := st_orphans s |}.
Definition abandon (bytes : Z) (name : list Z) (s : Store) : Store := {|
  st_entries := st_entries s; st_committed := st_committed s; st_inflight := st_inflight s;
  st_abandoned := st_abandoned s + bytes; st_sequence := st_sequence s; st_orphans := st_orphans s ++ [name] |}.
Definition insert_entry (e : Entry) (s : Store) : Store := {|
  st_entries := <[cr_key (en_reference e) := e]> (st_entries s);
  st_committed := st_committed s + cr_bytes (en_reference e); st_inflight := st_inflight s;
  st_abandoned := st_abandoned s; st_sequence := st_sequence s; st_orphans := st_orphans s |}.
Definition delete_entry (r : CheckpointRef) (s : Store) : Store := {|
  st_entries := delete (cr_key r) (st_entries s); st_committed := st_committed s - cr_bytes r;
  st_inflight := st_inflight s; st_abandoned := st_abandoned s; st_sequence := st_sequence s;
  st_orphans := st_orphans s |}.

Definition ciphertext_len (p : ProtectedCheckpoint) : Z := len (pc_ciphertext p).

Section store.
Context `{F : Files} (limit : Z).

(** A sequence of fallible steps joined by [?]. *)
Fixpoint run_steps (steps : list (action Fs CheckpointError ())) : action Fs CheckpointError () :=
  match steps with
  | [] => mret tt
  | step :: steps => _ ← step; run_steps steps
  end.
Definition publish_steps (write : list Z → list Z → action Fs io_error ()) (temp name ciphertext : list Z)
    : list (action Fs CheckpointError ()) :=
  [open_file temp true; io (write temp ciphertext); io (sys_sync_all temp); rename temp name].

(** [commit_with_cleanup]; [entropy] is what [getrandom] answers. *)
Definition commit_with_cleanup (p : ProtectedCheckpoint) (entropy : option (list Z))
    (write : list Z → list Z → action Fs io_error ()) (cleanup : list Z → action Fs CheckpointError ())
    : action (Store * Fs) CheckpointError CheckpointRef := λ '(s, fs),
  if is_some (st_entries s !! pc_key p) then ((s, fs), Err CheckpointError_AlreadyExists)
  else
  let bytes := ciphertext_len p in
  if bytes =? 0 then ((s, fs), Err CheckpointError_InvalidConfiguration)
  else if saturating_sub limit (st_committed s + st_abandoned s) <? bytes
  then ((s, fs), Err CheckpointError_CapacityExceeded)
  else match checked_add u64_max (st_sequence s) 1 with
  | None => ((s, fs), Err CheckpointError_CapacityExceeded)
  | Some sequence =>
    let s := set_sequence sequence s in
    match entropy with
    | None => ((s, fs), Err CheckpointError_EntropyUnavailable)
    | Some object_id =>
      let name := checkpoint_name sequence in
      let temp := pending_name sequence in
      let s := set_inflight bytes s in
      let (fs, outcome) := run_steps (publish_steps write temp name (pc_ciphertext p)) fs in
      let s := set_inflight 0 s in
      match outcome with
      | Err e =>
        let (fs, cleaned) := cleanup temp fs in
        ((if is_err cleaned then abandon bytes temp s else s, fs), Err e)
      | Ok _ =>
        let reference := {| cr_object_id := object_id; cr_key := pc_key p; cr_bytes := bytes |} in
        ((insert_entry {| en_reference := reference; en_descriptor := pc_descriptor p; en_name := name |} s, fs),
         Ok reference)
      end
    end
  end.
Definition commit_with (p : ProtectedCheckpoint) (entropy : option (list Z))
    (write : list Z → list Z → action Fs io_error ()) : action (Store * Fs) CheckpointError CheckpointRef :=
  commit_with_cleanup p entropy write remove.
Definition commit (p : ProtectedCheckpoint) (entropy : option (list Z))
    : action (Store * Fs) CheckpointError CheckpointRef := commit_with p entropy sys_write_all.

(** [read] once the entry is found. *)
Definition read_entry (r : CheckpointRef) (e : Entry) : action Fs CheckpointError ProtectedCheckpoint :=
  _ ← open_file (en_name e) false;
  m ← io (sys_metadata (en_name e));
  if negb (md_len m =? cr_bytes r) then throw CheckpointError_Unavailable else
  bytes ← io (sys_read_exact (en_name e) (cr_bytes r));
  extra ← io (sys_read_more (en_name e) (cr_bytes r) 1);
  if negb (len extra =? 0) then throw CheckpointError_Unavailable else
  mret {| pc_key := cr_key r; pc_descriptor := en_descriptor e; pc_ciphertext := bytes |}.
Definition find_entry (r : CheckpointRef) (s : Store) : option Entry :=
  match st_entries s !! cr_key r with
  | Some e => if bool_decide (en_reference e = r) then Some e else None
  | None => None
  end.
Definition read (r : CheckpointRef) (max_bytes : Z) : action (Store * Fs) CheckpointError ProtectedCheckpoint :=
  λ '(s, fs),
  if max_bytes <? cr_bytes r then ((s, fs), Err CheckpointError_CapacityExceeded)
  else match find_entry r s with
  | None => ((s, fs), Err CheckpointError_NotFound)
  | Some e => let (fs, result) := read_entry r e fs in ((s, fs), result)
  end.
Definition delete_ref (r : CheckpointRef) : action (Store * Fs) CheckpointError () := λ '(s, fs),
  match st_entries s !! cr_key r with
  | None => ((s, fs), Ok tt)
  | Some e =>
    if bool_decide (en_reference e ≠ r) then ((s, fs), Err CheckpointError_NotFound)
    else match remove (en_name e) fs with
    | (fs, Err e) => ((s, fs), Err e)
    | (fs, Ok _) => ((delete_entry r s, fs), Ok tt)
    end
  end.
Definition capacity (s : Store) : CheckpointCapacity := {|
  cc_limit_bytes := limit; cc_committed_bytes := st_committed s; cc_abandoned_bytes := st_abandoned s;
  cc_inflight_bytes := st_inflight s |}.

(** [Drop]: the files, best effort. *)
Definition drop_names (s : Store) : list (list Z) :=
  ((λ e, en_name e.2) <$> map_to_list (st_entries s)) ++ st_orphans s.
Definition drop_store (s : Store) (fs : Fs) : Fs := foldl (λ fs name, (remove name fs).1) fs (drop_names s).

(** ** Histories *)

Inductive op :=
  | Op_commit (p : ProtectedCheckpoint) (entropy : option (list Z))
  | Op_read (r : CheckpointRef) (max_bytes : Z)
  | Op_delete (r : CheckpointRef)
  | Op_capacity.
Inductive outcome :=
  | Committed (r : result CheckpointError CheckpointRef)
  | Was_read (r : result CheckpointError ProtectedCheckpoint)
  | Deleted (r : result CheckpointError ())
  | Capacity (c : CheckpointCapacity).
Definition perform (o : op) (w : Store * Fs) : (Store * Fs) * outcome :=
  match o with
  | Op_commit p entropy => let (w, r) := commit p entropy w in (w, Committed r)
  | Op_read r max_bytes => let (w, r) := read r max_bytes w in (w, Was_read r)
  | Op_delete r => let (w, r) := delete_ref r w in (w, Deleted r)
  | Op_capacity => (w, Capacity (capacity w.1))
  end.
Fixpoint performs (ops : list op) (w : Store * Fs) : (Store * Fs) * list outcome :=
  match ops with
  | [] => (w, [])
  | o :: ops =>
    let (w, r) := perform o w in
    let (w, rs) := performs ops w in (w, r :: rs)
  end.
End store.

(** ** What the store promises

    The specification keeps the checkpoints by their key, each with the
    reference it was committed under. *)

Abbreviation spec := (gmap CheckpointKey (CheckpointRef * ProtectedCheckpoint)).
Definition spec_bytes (m : spec) : Z := msum (λ x, ciphertext_len x.2) m.

Inductive spec_step (limit : Z) : op → spec → outcome → spec → Prop :=
  | Spec_committed p entropy m r :
    m !! pc_key p = None → cr_key r = pc_key p → cr_bytes r = ciphertext_len p → entropy = Some (cr_object_id r) →
    spec_bytes m + ciphertext_len p <= limit →
    spec_step limit (Op_commit p entropy) m (Committed (Ok r)) (<[pc_key p := (r, p)]> m)
  | Spec_not_committed p entropy m e :
    (is_Some (m !! pc_key p) → e = CheckpointError_AlreadyExists) →
    spec_step limit (Op_commit p entropy) m (Committed (Err e)) m
  | Spec_read r n m p :
    m !! cr_key r = Some (r, p) → cr_bytes r <= n → spec_step limit (Op_read r n) m (Was_read (Ok p)) m
  | Spec_not_read r n m e :
    (n < cr_bytes r → e = CheckpointError_CapacityExceeded) →
    (cr_bytes r <= n → (∀ p, m !! cr_key r ≠ Some (r, p)) → e = CheckpointError_NotFound) →
    spec_step limit (Op_read r n) m (Was_read (Err e)) m
  | Spec_deleted r m :
    (∀ x, m !! cr_key r = Some x → x.1 = r) →
    spec_step limit (Op_delete r) m (Deleted (Ok tt)) (delete (cr_key r) m)
  | Spec_not_deleted r m e :
    is_Some (m !! cr_key r) → (∀ x, m !! cr_key r = Some x → x.1 ≠ r → e = CheckpointError_NotFound) →
    spec_step limit (Op_delete r) m (Deleted (Err e)) m
  | Spec_capacity m c :
    cc_limit_bytes c = limit → cc_committed_bytes c = spec_bytes m → cc_inflight_bytes c = 0 →
    spec_step limit Op_capacity m (Capacity c) m.

(** ** Sums over maps *)

Section sums.
Context `{Countable K} {A : Type} (f : A → Z).
Lemma msum_empty : msum f (∅ : gmap K A) = 0.
Proof. apply map_fold_empty. Qed.
Lemma msum_insert (m : gmap K A) k x : m !! k = None → msum f (<[k := x]> m) = f x + msum f m.
Proof. intros Hk. unfold msum. rewrite map_fold_insert_L; [done|intros; lia|done]. Qed.
Lemma msum_delete (m : gmap K A) k x : m !! k = Some x → msum f (delete k m) = msum f m - f x.
Proof.
  intros Hk. rewrite <-(insert_delete_id m k x Hk) at 2. rewrite msum_insert by apply lookup_delete_eq. lia.
Qed.
Lemma msum_nonneg (m : gmap K A) : (∀ k x, m !! k = Some x → 0 <= f x) → 0 <= msum f m.
Proof.
  induction m as [|k x m Hk IH] using map_ind; intros Hf; [by rewrite msum_empty|].
  rewrite msum_insert by done. pose proof (Hf k x (lookup_insert_eq _ _ _)).
  assert (0 <= msum f m); [|lia]. apply IH. intros j y Hj. apply (Hf j y).
  rewrite lookup_insert_ne; [done|]. congruence.
Qed.
End sums.
(** A map whose entries are covered by another one's. *)
Lemma msum_le `{Countable K} {A B} (f : A → Z) (g : B → Z) (m : gmap K A) (m' : gmap K B) :
  (∀ k x, m !! k = Some x → ∃ y, m' !! k = Some y ∧ f x <= g y) → (∀ k y, m' !! k = Some y → 0 <= g y) →
  msum f m <= msum g m'.
Proof.
  revert m'. induction m as [|k x m Hk IH] using map_ind; intros m' Hm Hg.
  - rewrite msum_empty. by apply msum_nonneg.
  - rewrite msum_insert by done. destruct (Hm k x (lookup_insert_eq _ _ _)) as (y & Hy & Hle).
    assert (msum f m <= msum g (delete k m')); [|rewrite (msum_delete g m' k y Hy) in *; lia].
    apply IH.
    + intros j z Hj. assert (k ≠ j) by congruence. destruct (Hm j z) as (w & Hw & Hl); [by rewrite lookup_insert_ne|].
      exists w. by rewrite lookup_delete_ne.
    + intros j z [_ Hj]%lookup_delete_Some. by eapply Hg.
Qed.

(** ** The invariant *)

Section correct.
Context `{F : Files} `{!FilesLaws F} (limit : Z).

(** [m] is the map the store stands for, and [charge] what each file is charged:
    its length when it is committed, and all it was meant to hold when it was
    abandoned. *)
Record store_ok (m : spec) (charge : gmap (list Z) Z) (s : Store) (fs : Fs) : Prop := {
  so_sequence : 0 <= st_sequence s <= u64_max;
  so_inflight : st_inflight s = 0;
  so_absent k : st_entries s !! k = None → m !! k = None;
  so_entry k e : st_entries s !! k = Some e → ∃ p n,
    m !! k = Some (en_reference e, p) ∧ pc_key p = k ∧ cr_key (en_reference e) = k
    ∧ en_descriptor e = pc_descriptor p ∧ cr_bytes (en_reference e) = ciphertext_len p
    ∧ 1 <= n <= st_sequence s ∧ en_name e = checkpoint_name n
    ∧ contents fs !! en_name e = Some (pc_ciphertext p) ∧ charge !! en_name e = Some (ciphertext_len p);
  so_distinct k k' e e' : st_entries s !! k = Some e → st_entries s !! k' = Some e' → en_name e = en_name e' → k = k';
  so_orphan name : name ∈ st_orphans s → ∃ n, 1 <= n <= st_sequence s ∧ name = pending_name n;
  so_file name bytes : contents fs !! name = Some bytes →
    (∃ k e, st_entries s !! k = Some e ∧ name = en_name e) ∨ name ∈ st_orphans s;
  so_charge name bytes : contents fs !! name = Some bytes → ∃ c, charge !! name = Some c ∧ len bytes <= c;
  so_charged name c : charge !! name = Some c →
    0 <= c ∧ ∃ n, 1 <= n <= st_sequence s ∧ (name = checkpoint_name n ∨ name = pending_name n);
  so_sum : msum (λ c, c) charge = st_committed s + st_abandoned s;
  so_committed : st_committed s = spec_bytes m;
  so_abandoned : 0 <= st_abandoned s;
  so_limit : st_committed s + st_abandoned s <= Z.max 0 limit
}.
(** The bytes of all the files. *)
Definition file_bytes (fs : Fs) : Z := msum len (contents fs).

Lemma spec_bytes_nonneg m : 0 <= spec_bytes m.
Proof. apply msum_nonneg. intros k x _. apply len_nonneg. Qed.
Lemma file_bytes_charged m charge s fs : store_ok m charge s fs → file_bytes fs <= st_committed s + st_abandoned s.
Proof.
  intros Hs. rewrite <-(so_sum _ _ _ _ Hs). apply msum_le; [apply (so_charge _ _ _ _ Hs)|].
  intros k y Hk. by apply (so_charged _ _ _ _ Hs k y Hk).
Qed.
Lemma store_new fs : contents fs = ∅ → store_ok ∅ ∅ Store_new fs.
Proof.
  intros E. split; simpl; rewrite ?E; try done.
  - by intros name ?%elem_of_nil.
  - lia.
Qed.

(** Names of the next sequence number are not in use. *)
Lemma fresh_names m charge s fs :
  store_ok m charge s fs → st_sequence s + 1 <= u64_max →
  let n := st_sequence s + 1 in
  (∀ name, name = checkpoint_name n ∨ name = pending_name n → charge !! name = None ∧ contents fs !! name = None)
  ∧ ∀ k e, st_entries s !! k = Some e → en_name e ≠ checkpoint_name n ∧ en_name e ≠ pending_name n.
Proof.
  intros Hs Hn n. pose proof (so_sequence _ _ _ _ Hs) as Hq.
  assert (∀ name, name = checkpoint_name n ∨ name = pending_name n → charge !! name = None) as Hc.
  { intros name Hname. destruct (charge !! name) as [c|] eqn:Ec; [|done].
    destruct (so_charged _ _ _ _ Hs name c Ec) as (_ & j & Hj & Hjn). exfalso.
    assert (1 <= n <= u64_max) by (unfold n in *; lia).
    destruct Hname as [->| ->], Hjn as [Hx|Hx].
    - apply checkpoint_name_inj in Hx; unfold n in *; lia.
    - by apply suffixes_disjoint in Hx.
    - symmetry in Hx. by apply suffixes_disjoint in Hx.
    - apply pending_name_inj in Hx; unfold n in *; lia. }
  split.
  - intros name Hname. split; [by apply Hc|]. destruct (contents fs !! name) as [b|] eqn:Eb; [|done].
    destruct (so_charge _ _ _ _ Hs name b Eb) as (c & Hcc & _). by rewrite (Hc name Hname) in Hcc.
  - intros k e He. destruct (so_entry _ _ _ _ Hs k e He) as (p & j & _ & _ & _ & _ & _ & _ & _ & _ & Hch).
    split; intros Heq; rewrite Hc in Hch by auto; done.
Qed.

(** ** Publication *)

Lemma run_steps_cons step steps fs fs' r :
  run_steps (step :: steps) fs = (fs', r) →
  (∃ e, step fs = (fs', Err e) ∧ r = Err e) ∨ ∃ fs1, step fs = (fs1, Ok tt) ∧ run_steps steps fs1 = (fs', r).
Proof.
  simpl. run_action. destruct (step fs) as [fs1 [[]|e]]; [|intros [= <- <-]; left; by eexists].
  intros H. right. by exists fs1.
Qed.
(** What the first [j] steps of the publication have made of the files. *)
Definition staged (j : nat) (temp name ciphertext : list Z) (fs fs' : Fs) (r : result CheckpointError ()) : Prop :=
  contents fs' = contents fs ∧ ((4 <= j)%nat → r ≠ Ok tt)
  ∨ (∃ part, len part <= len ciphertext ∧ contents fs' = <[temp := part]> (contents fs) ∧ ((4 <= j)%nat → r ≠ Ok tt))
  ∨ contents fs' = <[name := ciphertext]> (contents fs) ∧ r = Ok tt.
Lemma publish_staged j write temp name ciphertext fs fs' r :
  writes contents write → contents fs !! temp = None → temp ≠ name →
  run_steps (take j (publish_steps write temp name ciphertext)) fs = (fs', r) → staged j temp name ciphertext fs fs' r.
Proof.
  intros Hw Ht Hne H. unfold publish_steps in H. destruct j as [|j].
  { simpl in H. injection H as <- <-. left. split; [done|lia]. }
  apply run_steps_cons in H as [(e & H & ->)|(fs1 & H1 & H)].
  { apply open_write_contents in H as [[_ H]|[_ H]]; [right; left; exists []|by left].
    split; [apply len_nonneg|done]. }
  apply open_write_contents in H1 as [[_ H1]|[? _]]; [|done].
  assert (∀ n, alter (λ old, old ++ take n ciphertext) temp (contents fs1) = <[temp := take n ciphertext]> (contents fs)) as Halter.
  { intros n. rewrite H1, alter_insert_eq. done. }
  destruct j as [|j].
  { simpl in H. injection H as <- <-. right. left. exists []. split; [apply len_nonneg|]. split; [by rewrite H1|lia]. }
  apply run_steps_cons in H as [(e & H & ->)|(fs2 & H2 & H)].
  { apply io_write_contents in H as (n & H & _); [|done]. right. left. exists (take n ciphertext).
    rewrite H, Halter. split; [|done]. unfold len. rewrite length_take. lia. }
  apply io_write_contents in H2 as (n & H2 & Hn); [|done]. rewrite Halter, (Hn eq_refl) in H2. clear n Hn Halter H1 fs1.
  destruct j as [|j].
  { simpl in H. injection H as <- <-. right. left. exists ciphertext. split; [done|]. split; [done|lia]. }
  assert (∀ fs3 r3, io (sys_sync_all temp) fs2 = (fs3, r3) → contents fs3 = contents fs2) as Hsync.
  { intros fs3 r3 (r' & E & _)%io_inv. by apply sync_law in E. }
  apply run_steps_cons in H as [(e & H & ->)|(fs3 & H3 & H)].
  { apply Hsync in H. right. left. exists ciphertext. split; [done|]. by rewrite H, H2. }
  apply Hsync in H3. rewrite H2 in H3.
  destruct j as [|j].
  { simpl in H. injection H as <- <-. right. left. exists ciphertext. split; [done|]. split; [done|lia]. }
  apply run_steps_cons in H as [(e & H & ->)|(fs4 & H4 & H)].
  { apply rename_contents in H. right. left. exists ciphertext. split; [done|]. by rewrite H, H3. }
  assert (fs4 = fs' ∧ r = Ok tt) as [<- ->] by (destruct j; by injection H as <- <-). right. right. split; [|done].
  apply rename_contents in H4 as (bytes & Hb & ->). rewrite H3 in Hb |- *.
  rewrite lookup_insert_eq in Hb. injection Hb as <-. rewrite delete_insert_eq, delete_id by done. done.
Qed.
Lemma staged_bytes j temp name ciphertext fs fs' r :
  staged j temp name ciphertext fs fs' r → contents fs !! temp = None → contents fs !! name = None →
  file_bytes fs' <= file_bytes fs + len ciphertext.
Proof.
  intros Hs Ht Hn. unfold file_bytes. pose proof (len_nonneg ciphertext).
  destruct Hs as [[-> _]|[(part & Hp & -> & _)|[-> _]]]; [lia|..]; rewrite msum_insert by done; lia.
Qed.

(** ** Steps of the invariant *)

Lemma ok_contents m charge s fs fs' : store_ok m charge s fs → contents fs' = contents fs → store_ok m charge s fs'.
Proof. intros [] E. by split; rewrite ?E. Qed.
(** A sequence number that is taken, used or not. *)
Lemma ok_skip m charge s fs n :
  store_ok m charge s fs → st_sequence s <= n <= u64_max →
  store_ok m charge (set_sequence n s) fs.
Proof.
  intros [H1 H2 H3 H4 H5 H6 H7 H8 H9 H10 H11 H12 H13] Hn. split; simpl; try done; [lia|..].
  - intros k e He. destruct (H4 k e He) as (p & j & ? & ? & ? & ? & ? & ? & ? & ? & ?). exists p, j. split_and!; try done; lia.
  - intros name Hname. destruct (H6 name Hname) as (j & ? & ?). exists j. split; [lia|done].
  - intros name c Hc. destruct (H9 name c Hc) as (? & j & ? & ?). split; [done|]. exists j. split; [lia|done].
Qed.
Lemma ok_inflight m charge s fs b : store_ok m charge s fs → store_ok m charge (set_inflight 0 (set_inflight b s)) fs.
Proof. intros []. by split. Qed.
Lemma ok_insert m charge s fs fs' p r n :
  store_ok m charge s fs → st_entries s !! pc_key p = None → 1 <= n <= st_sequence s → st_sequence s <= u64_max →
  cr_key r = pc_key p → cr_bytes r = ciphertext_len p →
  (∀ k e, st_entries s !! k = Some e → en_name e ≠ checkpoint_name n) →
  charge !! checkpoint_name n = None → st_committed s + st_abandoned s + ciphertext_len p <= limit →
  contents fs' = <[checkpoint_name n := pc_ciphertext p]> (contents fs) →
  store_ok (<[pc_key p := (r, p)]> m) (<[checkpoint_name n := ciphertext_len p]> charge)
    (insert_entry {| en_reference := r; en_descriptor := pc_descriptor p; en_name := checkpoint_name n |} s) fs'.
Proof.
  intros Hs Ha Hn Hu Hk Hb Hd Hc Hl Hf.
  pose proof (so_absent _ _ _ _ Hs _ Ha) as Hm.
  destruct Hs as [H1 H2 H3 H4 H5 H6 H7 H8 H9 H10 H11 H12 H13].
  split; simpl; rewrite ?Hk, ?Hb, ?Hf; try done.
  - intros k. rewrite !lookup_insert_None. naive_solver.
  - intros k e [[<- <-]|[Hne He]]%lookup_insert_Some; simpl.
    + exists p, n. rewrite !lookup_insert_eq. split_and!; try done; lia.
    + destruct (H4 k e He) as (p' & j & ? & ? & ? & ? & ? & ? & ? & ? & ?). exists p', j.
      pose proof (Hd k e He). rewrite !lookup_insert_ne by congruence. split_and!; try done; lia.
  - intros k k' e e' [[<- <-]|[Hne He]]%lookup_insert_Some [[<- <-]|[Hne' He']]%lookup_insert_Some; simpl; try done.
    + intros Heq. by destruct (Hd k' e' He').
    + intros Heq. by destruct (Hd k e He).
    + by apply H5.
  - intros name bytes [[<- <-]|[Hne Hb']]%lookup_insert_Some.
    + left. eexists _, _. split; [apply lookup_insert_eq|done].
    + destruct (H7 name bytes Hb') as [(k & e & He & ->)|?]; [left|by right]. exists k, e. split; [|done].
      rewrite lookup_insert_ne; [done|]. congruence.
  - intros name bytes [[<- <-]|[Hne Hb']]%lookup_insert_Some.
    + exists (ciphertext_len p). by rewrite lookup_insert_eq.
    + rewrite lookup_insert_ne by done. by apply H8.
  - intros name c [[<- <-]|[Hne Hc']]%lookup_insert_Some; [|by apply H9].
    split; [apply len_nonneg|]. exists n. auto.
  - rewrite msum_insert by done. lia.
  - unfold spec_bytes in *. rewrite msum_insert by done. simpl. lia.
  - lia.
Qed.
Lemma ok_abandon m charge s fs fs' n b part :
  store_ok m charge s fs → 1 <= n <= st_sequence s → 0 <= b → len part <= b →
  charge !! pending_name n = None → st_committed s + st_abandoned s + b <= limit →
  contents fs' = contents fs ∨ contents fs' = <[pending_name n := part]> (contents fs) →
  (∀ k e, st_entries s !! k = Some e → en_name e ≠ pending_name n) →
  store_ok m (<[pending_name n := b]> charge) (abandon b (pending_name n) s) fs'.
Proof.
  intros [H1 H2 H3 H4 H5 H6 H7 H8 H9 H10 H11 H12 H13] Hn Hb Hp Hc Hl Hf Hd.
  assert (∀ name, name ≠ pending_name n → contents fs' !! name = contents fs !! name) as Hother.
  { intros name Hne. destruct Hf as [->| ->]; [done|]. by rewrite lookup_insert_ne. }
  split; simpl; try done; try lia.
  - intros k e He. destruct (H4 k e He) as (p' & j & ? & ? & ? & ? & ? & ? & ? & ? & ?). exists p', j.
    pose proof (Hd k e He). rewrite Hother by done. rewrite lookup_insert_ne by congruence. split_and!; try done; lia.
  - intros name [Hname|Hname]%elem_of_app; [by apply H6|]. apply list_elem_of_singleton in Hname as ->. by exists n.
  - intros name bytes Hb'. destruct (decide (name = pending_name n)) as [->|Hne].
    + right. apply elem_of_app. right. by apply list_elem_of_singleton.
    + rewrite Hother in Hb' by done. destruct (H7 name bytes Hb') as [?|?]; [by left|right]. apply elem_of_app. by left.
  - intros name bytes Hb'. destruct (decide (name = pending_name n)) as [->|Hne].
    + exists b. rewrite lookup_insert_eq. split; [done|]. destruct Hf as [E|E]; rewrite E in Hb'.
      * destruct (H8 _ _ Hb') as (c & Hc' & _). congruence.
      * rewrite lookup_insert_eq in Hb'. by injection Hb' as <-.
    + rewrite Hother in Hb' by done. rewrite lookup_insert_ne by congruence. by apply H8.
  - intros name c [[<- <-]|[Hne Hc']]%lookup_insert_Some; [|by apply H9]. split; [done|]. exists n. auto.
  - rewrite msum_insert by done. lia.
Qed.
Lemma ok_delete m charge s fs fs' e r :
  store_ok m charge s fs → st_entries s !! cr_key r = Some e → en_reference e = r →
  contents fs' = delete (en_name e) (contents fs) →
  store_ok (delete (cr_key r) m) (delete (en_name e) charge) (delete_entry r s) fs'.
Proof.
  intros [H1 H2 H3 H4 H5 H6 H7 H8 H9 H10 H11 H12 H13] He Hr Hf.
  destruct (H4 _ _ He) as (p & j & Hm & _ & _ & _ & Hb & Hj & Hn & _ & Hc). rewrite Hr in *.
  split; simpl; rewrite ?Hf; try done.
  - intros k. rewrite !lookup_delete_None. naive_solver.
  - intros k e' [Hne He']%lookup_delete_Some. destruct (H4 k e' He') as (p' & j' & ? & ? & ? & ? & ? & ? & ? & ? & ?).
    exists p', j'. assert (en_name e ≠ en_name e') by (intros E; apply Hne; by eapply H5).
    rewrite !lookup_delete_ne by done. split_and!; try done; lia.
  - intros k k' e1 e2 [_ ?]%lookup_delete_Some [_ ?]%lookup_delete_Some. by apply H5.
  - intros name bytes [Hne Hb']%lookup_delete_Some. destruct (H7 name bytes Hb') as [(k & e' & He' & ->)|?]; [left|by right].
    exists k, e'. split; [|done]. rewrite lookup_delete_ne; [done|]. intros <-. congruence.
  - intros name bytes [Hne Hb']%lookup_delete_Some. rewrite lookup_delete_ne by done. by apply H8.
  - intros name c [_ Hc']%lookup_delete_Some. by apply H9.
  - rewrite (msum_delete _ _ _ _ Hc). lia.
  - unfold spec_bytes in *. rewrite (msum_delete _ _ _ _ Hm). simpl. lia.
  - pose proof (len_nonneg (pc_ciphertext p)). unfold ciphertext_len in *. lia.
Qed.

(** ** The operations *)

(** A removal that fails leaves the files alone. *)
Definition cleans (cleanup : list Z → action Fs CheckpointError ()) : Prop :=
  ∀ name fs fs' r, cleanup name fs = (fs', r) →
    match r with Ok _ => contents fs' = delete name (contents fs) | Err _ => contents fs' = contents fs end.
Lemma remove_cleans : cleans remove.
Proof. intros name fs fs' r. apply remove_contents. Qed.

(** What a commit may do, from a state that stands for [m]. *)
Definition commit_allowed (m : spec) (p : ProtectedCheckpoint) (entropy : option (list Z)) (s' : Store) (fs' : Fs)
    (r : result CheckpointError CheckpointRef) : Prop :=
  match r with
  | Ok r => m !! pc_key p = None ∧ cr_key r = pc_key p ∧ cr_bytes r = ciphertext_len p
      ∧ entropy = Some (cr_object_id r) ∧ spec_bytes m + ciphertext_len p <= limit
      ∧ ∃ charge', store_ok (<[pc_key p := (r, p)]> m) charge' s' fs'
  | Err e => (is_Some (m !! pc_key p) → e = CheckpointError_AlreadyExists) ∧ ∃ charge', store_ok m charge' s' fs'
  end.
Lemma commit_ok m charge s fs p entropy write cleanup w' r :
  store_ok m charge s fs → writes contents write → cleans cleanup →
  commit_with_cleanup limit p entropy write cleanup (s, fs) = (w', r) → commit_allowed m p entropy w'.1 w'.2 r.
Proof.
  intros Hs Hw Hcl. unfold commit_with_cleanup.
  destruct (st_entries s !! pc_key p) as [e0|] eqn:Hkey; [intros [= <- <-]; simpl; eauto|]. cbn [is_some].
  pose proof (so_absent _ _ _ _ Hs _ Hkey) as Hm.
  assert (∀ e, is_Some (m !! pc_key p) → e = CheckpointError_AlreadyExists) as Hno by (intros e [? ?]; congruence).
  destruct (_ =? 0) eqn:Hz; [intros [= <- <-]; simpl; eauto|].
  destruct (_ <? _) eqn:Hcap; [intros [= <- <-]; simpl; eauto|].
  destruct (checked_add u64_max (st_sequence s) 1) as [n|] eqn:Hn; [|intros [= <- <-]; simpl; eauto].
  apply checked_add_Some in Hn as [-> Hn]. to_props. unfold saturating_sub in Hcap.
  pose proof (so_sequence _ _ _ _ Hs) as Hq. pose proof (len_nonneg (pc_ciphertext p)) as Hlen.
  unfold ciphertext_len in Hz, Hcap. set (n := st_sequence s + 1) in *.
  destruct entropy as [object_id|].
  2:{ intros [= <- <-]. simpl. split; [by apply Hno|]. exists charge. apply ok_skip; [done|lia]. }
  destruct (fresh_names m charge s fs Hs Hn) as [Hfresh Hnames]. fold n in Hfresh, Hnames.
  destruct (Hfresh (pending_name n) (or_intror eq_refl)) as [Hpc Hpf].
  destruct (Hfresh (checkpoint_name n) (or_introl eq_refl)) as [Hcc Hcf].
  pose proof (ok_inflight _ _ _ _ (ciphertext_len p) (ok_skip m charge s fs n Hs ltac:(lia))) as Hs'.
  destruct (run_steps (publish_steps write (pending_name n) (checkpoint_name n) (pc_ciphertext p)) fs) as [fs1 r1] eqn:E.
  apply (publish_staged 4) in E; [|done..|intros Hx; symmetry in Hx; by apply suffixes_disjoint in Hx].
  destruct r1 as [[]|e1].
  - destruct E as [[_ Hx]|[(part & _ & _ & Hx)|[E _]]]; [by destruct (Hx (le_n 4))..|]. intros [= <- <-]. simpl. split_and!; try done.
    + rewrite <-(so_committed _ _ _ _ Hs). pose proof (so_abandoned _ _ _ _ Hs). unfold ciphertext_len. lia.
    + eexists. apply (ok_insert _ _ _ _ _ _ _ _ Hs'); simpl; try done; try (unfold n; lia).
      * intros k e He. by apply (Hnames k e).
      * unfold ciphertext_len. lia.
  - destruct (cleanup (pending_name n) fs1) as [fs2 r2] eqn:E2. apply Hcl in E2. intros [= <- <-]. simpl. split; [by apply Hno|].
    assert (contents fs1 = contents fs ∨ ∃ part, len part <= ciphertext_len p
              ∧ contents fs1 = <[pending_name n := part]> (contents fs)) as E1.
    { destruct E as [[? _]|[(part & ? & ? & _)|[_ ?]]]; [by left|right; by exists part|done]. }
    destruct r2 as [[]|e2]; simpl.
    + exists charge. eapply ok_contents; [done|]. rewrite E2.
      destruct E1 as [->|(part & _ & ->)]; [|rewrite delete_insert_eq]; by rewrite delete_id.
    + eexists. destruct E1 as [E1|(part & Hpart & E1)];
        [apply (ok_abandon _ _ _ _ _ n _ [] Hs')|apply (ok_abandon _ _ _ _ _ n _ part Hs')];
        simpl; try done; try (rewrite E2, E1; auto); try (unfold ciphertext_len; unfold n; lia);
        intros k e He; by apply (Hnames k e).
Qed.

Lemma entry_spec m charge s fs k :
  store_ok m charge s fs →
  match st_entries s !! k with
  | Some e => ∃ p, m !! k = Some (en_reference e, p) | None => m !! k = None end.
Proof.
  intros Hs. destruct (st_entries s !! k) as [e|] eqn:He; [|by apply (so_absent _ _ _ _ Hs)].
  destruct (so_entry _ _ _ _ Hs k e He) as (p & n & Hm & _). by exists p.
Qed.
Lemma read_entry_contents r e fs fs' result : read_entry r e fs = (fs', result) → contents fs' = contents fs.
Proof.
  unfold read_entry. run_action.
  destruct (open_file (en_name e) false fs) as [fs1 [u|er]] eqn:E1; apply open_read_contents in E1; [|by intros [= <- _]].
  destruct (io (sys_metadata (en_name e)) fs1) as [fs2 r2] eqn:E2.
  apply io_inv in E2 as (r2' & E2 & ->). apply metadata_law in E2 as [E2 _].
  destruct r2' as [md|er]; simpl; [|intros [= <- _]; congruence].
  destruct (negb _); [intros [= <- _]; congruence|].
  destruct (io (sys_read_exact (en_name e) (cr_bytes r)) fs2) as [fs3 r3] eqn:E3.
  apply io_inv in E3 as (r3' & E3 & ->). apply read_exact_law in E3 as [E3 _].
  destruct r3' as [bytes|er]; simpl; [|intros [= <- _]; congruence].
  destruct (io (sys_read_more (en_name e) (cr_bytes r) 1) fs3) as [fs4 r4] eqn:E4.
  apply io_inv in E4 as (r4' & E4 & ->). apply read_more_law in E4 as [E4 _].
  destruct r4' as [extra|er]; simpl; [|intros [= <- _]; congruence].
  destruct (negb _); intros [= <- _]; congruence.
Qed.
(** A read that succeeds has read the whole file. *)
Lemma read_entry_ok r e fs fs' p all :
  read_entry r e fs = (fs', Ok p) → contents fs !! en_name e = Some all → 0 <= cr_bytes r →
  p = {| pc_key := cr_key r; pc_descriptor := en_descriptor e; pc_ciphertext := all |}.
Proof.
  intros H Ha Hb. unfold read_entry in H.
  apply action_bind_inv in H as (fs1 & [] & E1 & H). apply open_read_contents in E1.
  apply action_bind_inv in H as (fs2 & md & E2 & H). apply io_inv in E2 as ([md'|] & E2 & Heq); simplify_eq/=.
  apply metadata_law in E2 as [E2 _].
  destruct (negb _); [done|].
  apply action_bind_inv in H as (fs3 & bytes & E3 & H). apply io_inv in E3 as ([bytes'|] & E3 & Heq); simplify_eq/=.
  apply read_exact_law in E3 as [E3 Hr]. destruct (Hr _ all eq_refl) as [Hlen Ht]; [congruence|].
  apply action_bind_inv in H as (fs4 & extra & E4 & H). apply io_inv in E4 as ([extra'|] & E4 & Heq); simplify_eq/=.
  apply read_more_law in E4 as [_ Hm].
  destruct (negb (len _ =? 0)) eqn:Hx; [done|]. to_props. apply len_zero in Hx.
  injection H as _ <-. f_equal. apply take_ge.
  assert (len all <= cr_bytes r) as Hle by (apply (Hm _ all eq_refl); [congruence|done|lia|done]).
  unfold len in Hle. lia.
Qed.
Lemma perform_ok m charge s fs o w' r :
  store_ok m charge s fs → perform limit o (s, fs) = (w', r) →
  ∃ m' charge', spec_step limit o m r m' ∧ store_ok m' charge' w'.1 w'.2.
Proof.
  intros Hs. destruct o as [p entropy|r0 n|r0|]; cbn [perform read delete_ref].
  - destruct (commit limit p entropy (s, fs)) as [w1 r1] eqn:E. intros [= <- <-].
    apply (commit_ok m charge) in E; [|done|apply write_law|apply remove_cleans]. destruct r1 as [r1|e]; simpl in E.
    + destruct E as (H1 & H2 & H3 & H4 & H5 & charge' & H6). eexists _, charge'. split; [by apply Spec_committed|done].
    + destruct E as (H1 & charge' & H2). exists m, charge'. split; [by apply Spec_not_committed|done].
  - pose proof (entry_spec m charge s fs (cr_key r0) Hs) as He. unfold read, find_entry.
    destruct (n <? cr_bytes r0) eqn:Hn; to_props.
    { intros [= <- <-]. exists m, charge. split; [|done]. apply Spec_not_read; [done|lia]. }
    destruct (st_entries s !! cr_key r0) as [e|] eqn:Hkey.
    2:{ intros [= <- <-]. exists m, charge. split; [|done]. apply Spec_not_read; [lia|done]. }
    destruct He as [p0 He]. case_bool_decide as Hr.
    2:{ intros [= <- <-]. exists m, charge. split; [|done]. by apply Spec_not_read; [lia|]. }
    destruct (read_entry r0 e fs) as [fs1 r1] eqn:E. intros [= <- <-]. exists m, charge.
    split; [|eapply ok_contents; [done|by eapply read_entry_contents]]. rewrite Hr in He.
    destruct r1 as [p|er]; [|apply Spec_not_read; [lia|intros _ Hno; by destruct (Hno p0)]].
    destruct (so_entry _ _ _ _ Hs _ e Hkey) as (p' & j & Hm & Hk1 & _ & Hd & Hb & _ & _ & Hf & _).
    rewrite Hr in *. assert (p' = p0) as -> by congruence.
    apply (read_entry_ok _ _ _ _ _ (pc_ciphertext p0)) in E; [|done|rewrite Hb; apply len_nonneg].
    assert (p = p0) as ->; [|by apply Spec_read]. rewrite E, <-Hk1, Hd. by destruct p0.
  - pose proof (entry_spec m charge s fs (cr_key r0) Hs) as He. unfold delete_ref.
    destruct (st_entries s !! cr_key r0) as [e|] eqn:Hkey.
    2:{ intros [= <- <-]. exists (delete (cr_key r0) m), charge. split; [apply Spec_deleted; congruence|].
        rewrite delete_id; done. }
    destruct He as [p0 He]. case_bool_decide as Hr.
    { intros [= <- <-]. exists m, charge. split; [|done]. apply Spec_not_deleted; [by eexists|done]. }
    destruct (remove (en_name e) fs) as [fs1 [u|er]] eqn:E; apply remove_contents in E; intros [= <- <-].
    + exists (delete (cr_key r0) m). eexists. split; [|by eapply ok_delete]. apply Spec_deleted. naive_solver.
    + exists m, charge. split; [|by eapply ok_contents]. apply Spec_not_deleted; [by eexists|naive_solver].
  - intros [= <- <-]. exists m, charge. split; [|done].
    apply Spec_capacity; simpl; [done|by apply (so_committed _ _ _ _ Hs)|by apply (so_inflight _ _ _ _ Hs)].
Qed.

Inductive spec_run : list op → spec → list outcome → spec → Prop :=
  | Spec_nil m : spec_run [] m [] m
  | Spec_cons o ops m r m' rs m'' :
    spec_step limit o m r m' → spec_run ops m' rs m'' → spec_run (o :: ops) m (r :: rs) m''.
Lemma performs_ok ops m charge w w' rs :
  store_ok m charge w.1 w.2 → performs limit ops w = (w', rs) →
  ∃ m' charge', spec_run ops m rs m' ∧ store_ok m' charge' w'.1 w'.2.
Proof.
  revert m charge w rs. induction ops as [|o ops IH]; intros m charge [s fs] rs Hs; cbn [performs].
  { intros [= <- <-]. exists m, charge. split; [constructor|done]. }
  destruct (perform limit o (s, fs)) as [w1 r1] eqn:E1. destruct (performs limit ops w1) as [w2 rs2] eqn:E2.
  intros [= <- <-]. destruct (perform_ok _ _ _ _ _ _ _ Hs E1) as (m1 & charge1 & H1 & Hs1).
  destruct (IH _ _ _ _ Hs1 E2) as (m2 & charge2 & H2 & Hs2). exists m2, charge2. split; [by econstructor|done].
Qed.
Lemma drop_names_spec m charge s fs name :
  store_ok m charge s fs → is_Some (contents fs !! name) → name ∈ drop_names s.
Proof.
  intros Hs [b Hb]. unfold drop_names. apply elem_of_app.
  destruct (so_file _ _ _ _ Hs name b Hb) as [(k & e & He & ->)|?]; [left|by right].
  apply list_elem_of_fmap. exists (k, e). split; [done|]. by apply elem_of_map_to_list.
Qed.
Lemma removals names fs name :
  is_Some (contents (foldl (λ fs name, (remove name fs).1) fs names) !! name) →
  is_Some (contents fs !! name) ∧ (name ∈ names → ∃ fs1, is_err (remove name fs1).2 = true).
Proof.
  revert fs. induction names as [|x names IH]; intros fs; simpl; [intros H; split; [done|by intros ?%elem_of_nil]|].
  intros [H Hin]%IH. destruct (remove x fs) as [fs1 r] eqn:E. simpl in *. apply remove_contents in E as Ec.
  destruct r as [[]|e]; rewrite Ec in H.
  - destruct H as [b [Hne Hb]%lookup_delete_Some]. split; [by exists b|]. intros [->|Hx]%elem_of_cons; [done|auto].
  - split; [done|]. intros [->|Hx]%elem_of_cons; [|auto]. exists fs. by rewrite E.
Qed.

(** What a key stands for at the end was there before or was committed. *)
Lemma spec_run_origin ops m rs m' k r p :
  spec_run ops m rs m' → m' !! k = Some (r, p) →
  m !! k = Some (r, p)
  ∨ ∃ i, ops !! i = Some (Op_commit p (Some (cr_object_id r))) ∧ rs !! i = Some (Committed (Ok r)).
Proof.
  induction 1 as [m|o ops m o1 m1 rs m2 Hstep _ IH]; [by left|]. intros Hk.
  destruct (IH Hk) as [H1|(i & Ho & Hr)]; [|right; by exists (S i)].
  destruct Hstep as [q entropy m r0 _ _ _ -> _| | | | | |]; try (by left).
  - apply lookup_insert_Some in H1 as [[_ [= <- <-]]|[_ H1]]; [right; by exists 0%nat|by left].
  - apply lookup_delete_Some in H1 as [_ H1]. by left.
Qed.
Lemma spec_run_split ops m rs m' j o :
  spec_run ops m rs m' → ops !! j = Some o →
  ∃ m1 out m2, spec_run (take j ops) m (take j rs) m1 ∧ rs !! j = Some out ∧ spec_step limit o m1 out m2.
Proof.
  intros H. revert j. induction H as [m|o1 ops m r1 m1 rs m2 Hstep _ IH]; intros [|j] Hj; try done; simpl in *.
  - injection Hj as <-. exists m, r1, m1. split; [constructor|done].
  - destruct (IH j Hj) as (m3 & out & m4 & H1 & H2 & H3). exists m3, out, m4. split; [by econstructor|done].
Qed.
(** With object identities that are not repeated, a reference is read as what was
    committed under it. *)
Definition fresh_identities (ops : list op) : Prop :=
  ∀ i j p q e, ops !! i = Some (Op_commit p (Some e)) → ops !! j = Some (Op_commit q (Some e)) → i = j.
Lemma read_origin ops fs w' rs i j p entropy r n p' :
  contents fs = ∅ → performs limit ops (Store_new, fs) = (w', rs) → fresh_identities ops →
  ops !! i = Some (Op_commit p entropy) → rs !! i = Some (Committed (Ok r)) →
  ops !! j = Some (Op_read r n) → rs !! j = Some (Was_read (Ok p')) → p' = p.
Proof.
  intros Hfs E Hfresh Hi Hri Hj Hrj.
  destruct (performs_ok ops ∅ ∅ (Store_new, fs) w' rs) as (m & charge & Hrun & _); [by apply store_new|done|].
  destruct (spec_run_split _ _ _ _ i _ Hrun Hi) as (m1 & out & m2 & _ & Ho & Hstep).
  rewrite Hri in Ho. injection Ho as <-. inversion Hstep; subst. clear Hstep.
  destruct (spec_run_split _ _ _ _ j _ Hrun Hj) as (m3 & out & m4 & Hrun' & Ho & Hstep).
  rewrite Hrj in Ho. injection Ho as <-. inversion Hstep; subst. clear Hstep.
  match goal with H : m4 !! cr_key r = _ |- _ => destruct (spec_run_origin _ _ _ _ _ _ _ Hrun' H) as [H0|(i' & Hi' & _)] end;
    [done|].
  apply lookup_take_Some in Hi' as [Hi' _]. assert (i = i') as <- by (by eapply Hfresh). congruence.
Qed.

(** C36: From an empty directory the store behaves as the map of the checkpoints
    committed and not deleted, whatever system calls fail: each result is one
    the map allows, a read that succeeds returns what was committed under that
    very reference, and a failed operation changes nothing. *)
Theorem store_refines (ops : list op) (fs : Fs) (w' : Store * Fs) (rs : list outcome) :
  contents fs = ∅ → performs limit ops (Store_new, fs) = (w', rs) → ∃ m, spec_run ops ∅ rs m.
Proof.
  intros Hfs E. destruct (performs_ok ops ∅ ∅ (Store_new, fs) w' rs) as (m & charge & H & _); [|done|by exists m].
  by apply store_new.
Qed.

(** C37: The quota bounds the bytes in the directory: after any history, and at every
    stage of a commit that was admitted, those of the file being written
    included.  The counters neither overflow nor go below zero. *)
Theorem store_within_quota (ops : list op) (fs fs' : Fs) (s : Store) (rs : list outcome) :
  contents fs = ∅ → performs limit ops (Store_new, fs) = ((s, fs'), rs) →
  file_bytes fs' <= st_committed s + st_abandoned s <= Z.max 0 limit
  ∧ 0 <= st_committed s ∧ 0 <= st_abandoned s
  ∧ (∀ k e, st_entries s !! k = Some e → 0 <= cr_bytes (en_reference e) <= st_committed s)
  ∧ ∀ p j, st_sequence s + 1 <= u64_max →
      ciphertext_len p <= saturating_sub limit (st_committed s + st_abandoned s) →
      let steps := publish_steps sys_write_all (pending_name (st_sequence s + 1))
                     (checkpoint_name (st_sequence s + 1)) (pc_ciphertext p) in
      file_bytes (run_steps (take j steps) fs').1 <= Z.max 0 limit.
Proof.
  intros Hfs E. destruct (performs_ok ops ∅ ∅ (Store_new, fs) (s, fs') rs) as (m & charge & _ & Hs); [|done|].
  { by apply store_new. }
  simpl in Hs. pose proof (file_bytes_charged _ _ _ _ Hs) as Hb. pose proof (so_limit _ _ _ _ Hs) as Hl.
  pose proof (so_abandoned _ _ _ _ Hs) as Ha. pose proof (spec_bytes_nonneg m) as Hm.
  split; [lia|]. split; [rewrite (so_committed _ _ _ _ Hs); done|]. split; [done|]. split.
  - intros k e He. destruct (so_entry _ _ _ _ Hs k e He) as (p & n & Hk & _ & _ & _ & -> & _).
    split; [apply len_nonneg|]. rewrite (so_committed _ _ _ _ Hs). unfold spec_bytes.
    pose proof (msum_delete (λ x : CheckpointRef * ProtectedCheckpoint, ciphertext_len x.2) m k _ Hk) as Hd. simpl in Hd.
    pose proof (spec_bytes_nonneg (delete k m)). unfold spec_bytes in *. lia.
  - intros p j Hn Hp steps. destruct (run_steps (take j steps) fs') as [fs1 r] eqn:Er.
    destruct (fresh_names _ _ _ _ Hs Hn) as [Hfresh _].
    apply publish_staged in Er; [|apply write_law|by apply Hfresh; right|intros Hx; symmetry in Hx; by apply suffixes_disjoint in Hx].
    apply staged_bytes in Er; [|by apply Hfresh; auto|by apply Hfresh; auto]. simpl.
    unfold saturating_sub, ciphertext_len in Hp. lia.
Qed.

(** A commit that fails after any partial write either leaves the directory as
    it was, or, when the partial file cannot be removed, keeps all the bytes it
    was meant to hold charged to the quota. *)
Theorem failed_commit_accounted (ops : list op) (fs fs1 fs2 : Fs) (s s' : Store) (rs : list outcome)
    (p : ProtectedCheckpoint) (object_id : list Z) (write : list Z → list Z → action Fs io_error ())
    (cleanup : list Z → action Fs CheckpointError ()) (e : CheckpointError) :
  contents fs = ∅ → performs limit ops (Store_new, fs) = ((s, fs1), rs) →
  writes contents write → cleans cleanup →
  commit_with_cleanup limit p (Some object_id) write cleanup (s, fs1) = ((s', fs2), Err e) →
  st_entries s' = st_entries s ∧ st_committed s' = st_committed s ∧ st_inflight s' = 0
  ∧ (contents fs2 = contents fs1 ∧ st_abandoned s' = st_abandoned s
     ∨ st_abandoned s' = st_abandoned s + ciphertext_len p
       ∧ ∀ name, name ∉ st_orphans s' → contents fs2 !! name = contents fs1 !! name).
Proof.
  intros Hfs Er Hw Hcl. destruct (performs_ok ops ∅ ∅ (Store_new, fs) (s, fs1) rs) as (m & charge & _ & Hs); [|done|].
  { by apply store_new. }
  simpl in Hs. pose proof (so_inflight _ _ _ _ Hs) as Hi. unfold commit_with_cleanup.
  destruct (is_some (st_entries s !! pc_key p)); [intros [= <- <- <-]; by auto 10|]. cbv zeta.
  destruct (ciphertext_len p =? 0); [intros [= <- <- <-]; by auto 10|].
  destruct (saturating_sub _ _ <? _); [intros [= <- <- <-]; by auto 10|].
  destruct (checked_add u64_max (st_sequence s) 1) as [n|] eqn:Hn; [|intros [= <- <- <-]; by auto 10].
  apply checked_add_Some in Hn as [-> Hn]. destruct (fresh_names _ _ _ _ Hs Hn) as [Hfresh _].
  destruct (Hfresh (pending_name (st_sequence s + 1)) (or_intror eq_refl)) as [_ Hpf].
  set (n := st_sequence s + 1) in *.
  destruct (run_steps (publish_steps write (pending_name n) (checkpoint_name n) (pc_ciphertext p)) fs1) as [fs3 r3] eqn:E.
  apply (publish_staged 4) in E; [|done..|intros Hx; symmetry in Hx; by apply suffixes_disjoint in Hx].
  destruct r3 as [[]|e3]; [done|]. destruct (cleanup (pending_name n) fs3) as [fs4 r4] eqn:E4. apply Hcl in E4.
  assert (∀ name, name ≠ pending_name n → contents fs3 !! name = contents fs1 !! name) as Hother.
  { intros name Hne. destruct E as [[-> _]|[(part & _ & -> & _)|[_ [=]]]]; [done|]. by rewrite lookup_insert_ne. }
  intros [= <- <- <-]. destruct r4 as [[]|e4]; simpl; split_and!; try done; [left|right]; split; try done.
  - rewrite E4. destruct E as [[-> _]|[(part & _ & -> & _)|[_ [=]]]]; [|rewrite delete_insert_eq]; by rewrite delete_id.
  - intros name Hno. rewrite E4. apply Hother. intros ->. apply Hno, elem_of_app. right. by apply list_elem_of_singleton.
Qed.

(** When the store is dropped, whatever file is left is one whose removal
    failed. *)
Theorem drop_leaves_failures (ops : list op) (fs fs' : Fs) (s : Store) (rs : list outcome) (name : list Z) :
  contents fs = ∅ → performs limit ops (Store_new, fs) = ((s, fs'), rs) →
  is_Some (contents (drop_store s fs') !! name) → ∃ fs1, is_err (remove name fs1).2 = true.
Proof.
  intros Hfs E. destruct (performs_ok ops ∅ ∅ (Store_new, fs) (s, fs') rs) as (m & charge & _ & Hs); [|done|].
  { by apply store_new. }
  unfold drop_store. intros [Hin Hf]%removals. apply Hf. by eapply drop_names_spec.
Qed.
End correct.

(** ** A run *)

Definition demo_lifetime : SessionLifetime := SessionLifetime_new 6 1.
Definition demo_checkpoint (generation : Z) (ciphertext : list Z) : ProtectedCheckpoint := {|
  pc_key := {| ck_lifetime := demo_lifetime; ck_generation := generation |};
  pc_descriptor := {|
    cd_compatibility := mk_CompatibilityId [1];
    cd_processed := {| rc_lifetime := demo_lifetime; rc_offset := 9 |};
    cd_control_generation := ControlGeneration_INITIAL |};
  pc_ciphertext := ciphertext |}.
Definition demo_ref (generation : Z) (bytes : Z) : CheckpointRef := {|
  cr_object_id := replicate 16 5; cr_key := {| ck_lifetime := demo_lifetime; ck_generation := generation |};
  cr_bytes := bytes |}.
(** The second commit fails in its write and then in its cleanup. *)
Definition faulty (faults : list (option io_error)) : @Fs memory_files := {| mf_files := ∅; mf_faults := faults |}.
Definition demo_fs : @Fs memory_files := faulty (replicate 12 None ++ [Some Io_ENOSPC; Some Io_other]).
Definition demo_ops : list op :=
  let entropy := Some (replicate 16 5) in
  [Op_commit (demo_checkpoint 1 [3; 3; 3]) entropy; Op_read (demo_ref 1 3) 8;
   Op_commit (demo_checkpoint 2 [4; 4]) entropy; Op_capacity; Op_commit (demo_checkpoint 3 [7; 7; 7; 7]) entropy;
   Op_delete (demo_ref 1 3); Op_read (demo_ref 1 3) 8].
Definition demo_run := performs 8 demo_ops (Store_new, demo_fs).

Lemma store_refines_witness :
  demo_run.2 = [Committed (Ok (demo_ref 1 3)); Was_read (Ok (demo_checkpoint 1 [3; 3; 3]));
    Committed (Err CheckpointError_CapacityExceeded);
    Capacity {| cc_limit_bytes := 8; cc_committed_bytes := 3; cc_abandoned_bytes := 2; cc_inflight_bytes := 0 |};
    Committed (Err CheckpointError_CapacityExceeded); Deleted (Ok tt); Was_read (Err CheckpointError_NotFound)]
  ∧ ∃ m, spec_run 8 demo_ops ∅ demo_run.2 m.
Proof.
  split; [vm_compute; reflexivity|].
  apply (store_refines 8 demo_ops demo_fs demo_run.1 demo_run.2); [reflexivity|].
  unfold demo_run. by destruct (performs 8 demo_ops _).
Defined.
Lemma store_within_quota_witness :
  file_bytes demo_run.1.2 = 1 ∧ st_abandoned demo_run.1.1 = 2
  ∧ file_bytes demo_run.1.2 <= st_committed demo_run.1.1 + st_abandoned demo_run.1.1 <= Z.max 0 8.
Proof.
  split; [vm_compute; reflexivity|]. split; [vm_compute; reflexivity|].
  refine (proj1 (store_within_quota 8 demo_ops demo_fs demo_run.1.2 demo_run.1.1 demo_run.2 eq_refl _)).
  unfold demo_run. by destruct (performs 8 demo_ops _) as [[? ?] ?].
Defined.
Lemma failed_commit_accounted_witness :
  let run := performs 8 (take 2 demo_ops) (Store_new, demo_fs) in
  let failed := commit_with_cleanup 8 (demo_checkpoint 2 [4; 4]) (Some []) sys_write_all remove run.1 in
  failed.2 = Err CheckpointError_CapacityExceeded ∧ st_committed failed.1.1 = st_committed run.1.1.
Proof.
  split; [vm_compute; reflexivity|].
  refine (proj1 (proj2 (failed_commit_accounted 8 (take 2 demo_ops) demo_fs
    (performs 8 (take 2 demo_ops) (Store_new, demo_fs)).1.2
    (commit_with_cleanup 8 (demo_checkpoint 2 [4; 4]) (Some []) sys_write_all remove
      (performs 8 (take 2 demo_ops) (Store_new, demo_fs)).1).1.2
    (performs 8 (take 2 demo_ops) (Store_new, demo_fs)).1.1 _
    (performs 8 (take 2 demo_ops) (Store_new, demo_fs)).2
    (demo_checkpoint 2 [4; 4]) [] sys_write_all remove CheckpointError_CapacityExceeded _ _ write_law remove_cleans _)));
    vm_compute; reflexivity.
Defined.
(** A commit that fails twice, and a drop that fails too. *)
Definition stuck_ops : list op := [Op_commit (demo_checkpoint 1 [3; 3; 3]) (Some [])].
Definition stuck_fs : @Fs memory_files :=
  faulty (replicate 2 None ++ [Some Io_ENOSPC; Some Io_other; Some Io_other]).
Definition stuck_run := performs 8 stuck_ops (Store_new, stuck_fs).
Lemma drop_leaves_failures_witness :
  contents (drop_store demo_run.1.1 demo_run.1.2) = ∅
  ∧ contents (drop_store stuck_run.1.1 stuck_run.1.2) !! pending_name 1 = Some [3]
  ∧ ∃ fs1 : @Fs memory_files, is_err (remove (pending_name 1) fs1).2 = true.
Proof.
  split; [vm_compute; reflexivity|]. split; [vm_compute; reflexivity|].
  refine (drop_leaves_failures 8 stuck_ops stuck_fs stuck_run.1.2 stuck_run.1.1 stuck_run.2 _ eq_refl _ _).
  - unfold stuck_run. by destruct (performs 8 stuck_ops _) as [[? ?] ?].
  - exists [3]. vm_compute. reflexivity.
Defined.
