(* ===== verification/Protector.v ===== *)
(** * The checkpoint protector
      (crates/infrastructure/src/checkpoint/protector.rs)

    XChaCha20-Poly1305 comes from a crate: sealing and opening are the
    operations of a class, with what the crate documents of them as laws.  The
    envelope, its associated data and its bounds are the program's. *)

From S2P Require Import Prelude Identity Terminal Checkpoint LittleEndian Directory FileStore.

(** ** The cipher *)

Class Aead := {
  Key : Type;
  (** [XChaCha20Poly1305::new] of 32 bytes *)
  new_cipher : list Z → Key;
  (** key, nonce, associated data and text; the tag is apart when sealing and at
      the end of the text when opening *)
  encrypt_in_place_detached : Key → list Z → list Z → list Z → option (list Z * list Z);
  decrypt_in_place : Key → list Z → list Z → list Z → option (list Z)
}.
(** The ciphertext is as long as the text, the tag has 16 bytes, and a text opens
    exactly when sealing its plaintext would give it: the tag is recomputed. *)
Class AeadLaws (A : Aead) := {
  seal_length k n a p c t : encrypt_in_place_detached k n a p = Some (c, t) → len c = len p ∧ len t = 16;
  open_sealed k n a p c t :
    encrypt_in_place_detached k n a p = Some (c, t) → decrypt_in_place k n a (c ++ t) = Some p;
  sealed_open k n a x p :
    decrypt_in_place k n a x = Some p → ∃ c t, encrypt_in_place_detached k n a p = Some (c, t) ∧ x = c ++ t
}.

(** ** The protector *)

Section protector.
Context `{A : Aead}.

Record CheckpointProtector := { cp_cipher : Key; cp_max_bytes : Z }.
(** [entropy] is what [getrandom] fills in. *)
Definition CheckpointProtector_new (max_bytes : Z) (entropy : option (list Z)) : result CheckpointError CheckpointProtector :=
  if (max_bytes =? 0) || (512 * 1024 * 1024 <? max_bytes) then Err CheckpointError_InvalidConfiguration
  else match entropy with
  | None => Err CheckpointError_EntropyUnavailable
  | Some key => Ok {| cp_cipher := new_cipher key; cp_max_bytes := max_bytes |}
  end.

Definition compatibility_bytes (c : CompatibilityId) : list Z := match c with mk_CompatibilityId v => v end.
Definition metadata_numbers (key : CheckpointKey) (d : CheckpointDescriptor) : list Z :=
  [lt_owner (ck_lifetime key); lt_sequence (ck_lifetime key); ck_generation key; rc_offset (cd_processed d);
   cg_get (cd_control_generation d); len (compatibility_bytes (cd_compatibility d))].
Definition metadata (key : CheckpointKey) (d : CheckpointDescriptor) : result CheckpointError (list Z) :=
  if bool_decide (ck_lifetime key ≠ rc_lifetime (cd_processed d)) then Err CheckpointError_InvalidConfiguration
  else Ok (bs "pty-checkpoint-xchacha-v1" ++ (metadata_numbers key d ≫= le_bytes 8)
           ++ compatibility_bytes (cd_compatibility d)).

Definition protected_size_limit (p : CheckpointProtector) (plaintext_bytes : Z) : result CheckpointError Z :=
  if cp_max_bytes p <? plaintext_bytes then Err CheckpointError_CapacityExceeded
  else ok_or (checked_add usize_max plaintext_bytes 40) CheckpointError_CapacityExceeded.

(** [entropy] is the nonce and [room] whether the buffer can grow by 40 bytes. *)
Definition protect (p : CheckpointProtector) (key : CheckpointKey) (checkpoint : TerminalCheckpoint)
    (entropy : option (list Z)) (room : bool) : result CheckpointError ProtectedCheckpoint :=
  let plaintext := tk_bytes checkpoint in
  if cp_max_bytes p <? len plaintext then Err CheckpointError_CapacityExceeded
  else
  aad ← metadata key (tk_descriptor checkpoint);
  nonce ← ok_or entropy CheckpointError_EntropyUnavailable;
  '(ciphertext, tag) ← ok_or (encrypt_in_place_detached (cp_cipher p) nonce aad plaintext)
                         CheckpointError_AuthenticationFailed;
  if negb room then Err CheckpointError_CapacityExceeded
  else Ok {| pc_key := key; pc_descriptor := tk_descriptor checkpoint;
             pc_ciphertext := ciphertext ++ tag ++ nonce |}.

(** The capacity of the buffer is its owner's; opening truncates in place. *)
Definition open (p : CheckpointProtector) (key : CheckpointKey) (descriptor : CheckpointDescriptor)
    (checkpoint : ProtectedCheckpoint) (capacity : Z) : result CheckpointError TerminalCheckpoint :=
  if bool_decide (pc_key checkpoint ≠ key) || bool_decide (pc_descriptor checkpoint ≠ descriptor)
  then Err CheckpointError_AuthenticationFailed
  else
  let ciphertext := pc_ciphertext checkpoint in
  if len ciphertext <? 40 then Err CheckpointError_AuthenticationFailed
  else if cp_max_bytes p <? len ciphertext - 40 then Err CheckpointError_CapacityExceeded
  else
  aad ← metadata key descriptor;
  let nonce := drop (Z.to_nat (len ciphertext - 24)) ciphertext in
  let bytes := take (Z.to_nat (len ciphertext - 24)) ciphertext in
  plaintext ← ok_or (decrypt_in_place (cp_cipher p) nonce aad bytes) CheckpointError_AuthenticationFailed;
  Ok {| tk_descriptor := descriptor; tk_bytes := plaintext; tk_capacity := capacity |}.

(** ** Associated data *)

Definition key_wf (k : CheckpointKey) : Prop := lifetime_wf (ck_lifetime k) ∧ 0 <= ck_generation k <= u64_max.
Definition descriptor_wf (d : CheckpointDescriptor) : Prop :=
  cursor_wf (cd_processed d) ∧ 0 <= cg_get (cd_control_generation d) <= u64_max
  ∧ len (compatibility_bytes (cd_compatibility d)) <= CompatibilityId_MAX_BYTES.

Lemma u64_bytes_inj v w : 0 <= v <= u64_max → 0 <= w <= u64_max → le_bytes 8 v = le_bytes 8 w → v = w.
Proof.
  intros Hv Hw H. unfold u64_max in *. rewrite <-(le_value_bytes 8 v), H, le_value_bytes; [done|..];
    change (256 ^ Z.of_nat 8) with 18446744073709551616; lia.
Qed.
Lemma u64_list_inj vs ws (l k : list Z) :
  length vs = length ws → Forall (λ v, 0 <= v <= u64_max) vs → Forall (λ v, 0 <= v <= u64_max) ws →
  (vs ≫= le_bytes 8) ++ l = (ws ≫= le_bytes 8) ++ k → vs = ws ∧ l = k.
Proof.
  intros Hl Hv. revert ws Hl. induction Hv as [|v vs Hv _ IH]; intros [|w ws] Hl Hw; try done.
  apply Forall_cons in Hw as [Hw Hws]. rewrite !bind_cons, <-!app_assoc.
  intros [Hb H]%app_inj_1; [|by rewrite !length_le_bytes]. apply u64_bytes_inj in Hb as ->; [|done..].
  destruct (IH ws) as [-> ->]; [by injection Hl|done|done|done].
Qed.

Lemma metadata_Ok k d aad :
  metadata k d = Ok aad → ck_lifetime k = rc_lifetime (cd_processed d)
  ∧ aad = bs "pty-checkpoint-xchacha-v1" ++ (metadata_numbers k d ≫= le_bytes 8)
          ++ compatibility_bytes (cd_compatibility d).
Proof. unfold metadata. case_bool_decide as H; [done|]. intros E. split; [done|congruence]. Qed.
Lemma metadata_numbers_wf k d : key_wf k → descriptor_wf d → Forall (λ v, 0 <= v <= u64_max) (metadata_numbers k d).
Proof.
  intros [[Ho Hs] Hg] ([Hl Hof] & Hcg & Hc). assert (CompatibilityId_MAX_BYTES <= u64_max) by done.
  len_facts. unfold metadata_numbers. repeat constructor; lia.
Qed.

(** The associated data determines the identity of a checkpoint and everything
    its descriptor says: no two of them authenticate alike. *)
Theorem metadata_binds (k k' : CheckpointKey) (d d' : CheckpointDescriptor) (aad : list Z) :
  key_wf k → key_wf k' → descriptor_wf d → descriptor_wf d' →
  metadata k d = Ok aad → metadata k' d' = Ok aad → k = k' ∧ d = d'.
Proof.
  intros Hk Hk' Hd Hd' [H1 ->]%metadata_Ok [H2 H]%metadata_Ok. apply app_inv_head in H.
  apply u64_list_inj in H as [Hn Hr]; [|done|by apply metadata_numbers_wf..].
  destruct k as [[] ?], k' as [[] ?], d as [[] [[] ?] []], d' as [[] [[] ?] []].
  unfold metadata_numbers in Hn. simpl in *. by simplify_eq.
Qed.

Context `{!AeadLaws A}.

Lemma open_protected (p : CheckpointProtector) (key : CheckpointKey) (c : TerminalCheckpoint) (nonce : list Z)
    (room : bool) (pc : ProtectedCheckpoint) (capacity : Z) :
  len nonce = 24 → protect p key c (Some nonce) room = Ok pc →
  open p key (tk_descriptor c) pc capacity
    = Ok {| tk_descriptor := tk_descriptor c; tk_bytes := tk_bytes c; tk_capacity := capacity |}
  ∧ len (pc_ciphertext pc) = len (tk_bytes c) + 40
  ∧ (len (tk_bytes c) + 40 <= usize_max → protected_size_limit p (len (tk_bytes c)) = Ok (len (pc_ciphertext pc))).
Proof.
  intros Hn. unfold protect, open, protected_size_limit. destruct (cp_max_bytes p <? _) eqn:Hm; [done|].
  unfold mbind, result_bind. destruct (metadata key (tk_descriptor c)) as [aad|] eqn:Ha; [|done]. simpl.
  destruct (encrypt_in_place_detached _ _ _ _) as [[ct tag]|] eqn:E; [|done]. simpl.
  destruct room; [|done]. simpl. intros [= <-]. simpl. apply seal_length in E as Hlen. destruct Hlen as [Hc Ht].
  assert (len (ct ++ tag ++ nonce) = len (tk_bytes c) + 40) as Hl by (rewrite !len_app; lia).
  rewrite Hl. rewrite !bool_decide_eq_false_2 by auto. simpl. to_props.
  pose proof (len_nonneg (tk_bytes c)).
  rewrite (proj2 (Z.ltb_ge _ _)) by lia. replace (len (tk_bytes c) + 40 - 40) with (len (tk_bytes c)) by lia.
  rewrite (proj2 (Z.ltb_ge (cp_max_bytes p) _)) by lia.
  assert (Z.to_nat (len (tk_bytes c) + 40 - 24) = length (ct ++ tag)) as ->.
  { rewrite length_app. unfold len in *. lia. }
  rewrite (app_assoc ct tag nonce), take_app_length, drop_app_length, (open_sealed _ _ _ _ _ _ E). simpl.
  split; [done|]. split; [done|]. intros Hu. unfold checked_add. by rewrite (proj2 (Z.leb_le _ _)).
Qed.

(** What was protected opens again, under the same identity and descriptor, to
    the same plaintext, and its size is within the limit that was announced. *)
Theorem protect_open (p : CheckpointProtector) (key : CheckpointKey) (c : TerminalCheckpoint) (nonce : list Z)
    (room : bool) (pc : ProtectedCheckpoint) (capacity : Z) :
  len nonce = 24 → protect p key c (Some nonce) room = Ok pc →
  open p key (tk_descriptor c) pc capacity
    = Ok {| tk_descriptor := tk_descriptor c; tk_bytes := tk_bytes c; tk_capacity := capacity |}
  ∧ len (pc_ciphertext pc) = len (tk_bytes c) + 40
  ∧ (len (tk_bytes c) + 40 <= usize_max → protected_size_limit p (len (tk_bytes c)) = Ok (len (pc_ciphertext pc))).
Proof. apply open_protected. Qed.

(** What opens was sealed: it is exactly what protecting the plaintext with the
    nonce it carries gives, under the identity and the descriptor it is opened
    for. *)
Theorem open_authentic (p : CheckpointProtector) (key : CheckpointKey) (d : CheckpointDescriptor)
    (pc : ProtectedCheckpoint) (capacity : Z) (c : TerminalCheckpoint) :
  open p key d pc capacity = Ok c →
  len (tk_bytes c) <= cp_max_bytes p ∧ tk_descriptor c = d
  ∧ ∃ nonce, len nonce = 24 ∧ protect p key c (Some nonce) true = Ok pc.
Proof.
  unfold open, protect. destruct (_ || _) eqn:Hk; [done|]. apply orb_false_iff in Hk as [Hk Hd].
  apply bool_decide_neq_false in Hk, Hd. destruct (_ <? 40) eqn:H40; [done|].
  destruct (_ <? len (pc_ciphertext pc) - 40) eqn:Hm; [done|]. to_props. unfold mbind, result_bind.
  destruct (metadata key d) as [aad|] eqn:Ha; [|done]. set (x := pc_ciphertext pc) in *.
  destruct (decrypt_in_place _ _ _ _) as [plain|] eqn:E; [|done]. simpl. intros [= <-]. simpl.
  apply sealed_open in E as (ct & tag & E & Hx). apply seal_length in E as Hlen. destruct Hlen as [Hc Ht].
  assert (len x - 24 = len plain + 16) as Hl.
  { apply (f_equal len) in Hx. rewrite len_take, len_app in Hx by lia. lia. }
  split; [lia|]. split; [done|]. exists (drop (Z.to_nat (len x - 24)) x). split; [rewrite len_drop by lia; lia|].
  rewrite (proj2 (Z.ltb_ge _ _)) by lia. rewrite Ha. simpl. rewrite E. simpl.
  rewrite app_assoc, <-Hx, take_drop. destruct pc. simpl in *. by subst.
Qed.

(** C38: Protecting, storing and reading back: whatever happens to other checkpoints
    and whatever fails in between, a checkpoint that is read from the directory
    opens to the terminal state that was parked. *)
Theorem sealed_checkpoint_returns `{F : Files} `{!FilesLaws F} (limit : Z) (ops : list op) (fs : Fs)
    (w' : Store * Fs) (rs : list outcome) (i j : nat) (p : CheckpointProtector) (key : CheckpointKey)
    (c : TerminalCheckpoint) (nonce : list Z) (room : bool) (pc pc' : ProtectedCheckpoint)
    (entropy : option (list Z)) (r : CheckpointRef) (n capacity : Z) :
  len nonce = 24 → protect p key c (Some nonce) room = Ok pc →
  contents fs = ∅ → performs limit ops (Store_new, fs) = (w', rs) → fresh_identities ops →
  ops !! i = Some (Op_commit pc entropy) → rs !! i = Some (Committed (Ok r)) →
  ops !! j = Some (Op_read r n) → rs !! j = Some (Was_read (Ok pc')) →
  open p key (tk_descriptor c) pc' capacity
    = Ok {| tk_descriptor := tk_descriptor c; tk_bytes := tk_bytes c; tk_capacity := capacity |}.
Proof.
  intros Hn Hp Hfs E Hfresh Hi Hri Hj Hrj.
  rewrite (read_origin limit ops fs w' rs i j pc entropy r n pc' Hfs E Hfresh Hi Hri Hj Hrj).
  by apply (open_protected p key c nonce room pc).
Qed.
End protector.

(** ** A cipher for concrete runs *)

(** The text in the clear, with a tag of the key, the nonce and the data. *)
Definition demo_tag (key nonce aad text : list Z) : list Z :=
  replicate 16 ((foldr Z.add 0 (key ++ nonce ++ aad ++ text)) mod 256).
#[export] Instance demo_aead : Aead := {|
  Key := list Z; new_cipher k := k;
  encrypt_in_place_detached k n a p := Some (p, demo_tag k n a p);
  decrypt_in_place k n a x :=
    let p := take (length x - 16) x in
    if bool_decide (drop (length x - 16) x = demo_tag k n a p) then Some p else None
|}.
#[export] Instance demo_aead_laws : AeadLaws demo_aead.
Proof.
  split; simpl.
  - intros k n a p c t [= <- <-]. done.
  - intros k n a p c t [= <- <-]. rewrite length_app. change (length (demo_tag k n a p)) with 16%nat.
    replace (length p + 16 - 16)%nat with (length p) by lia. rewrite take_app_length, drop_app_length.
    by rewrite bool_decide_eq_true_2.
  - intros k n a x p. case_bool_decide as H; [|done]. intros [= <-]. eexists _, _. split; [done|].
    etrans; [symmetry; apply (take_drop (length x - 16) x)|]. by rewrite H.
Defined.

Definition demo_protector : @CheckpointProtector demo_aead := {| cp_cipher := (replicate 32 9 : @Key demo_aead); cp_max_bytes := 64 |}.
Definition demo_terminal : TerminalCheckpoint := {|
  tk_descriptor := pc_descriptor (demo_checkpoint 1 []); tk_bytes := [104; 105]; tk_capacity := 2 |}.
Definition demo_key : CheckpointKey := pc_key (demo_checkpoint 1 []).
Definition demo_nonce : list Z := replicate 24 1.
Definition demo_sealed : ProtectedCheckpoint :=
  match protect demo_protector demo_key demo_terminal (Some demo_nonce) true with
  | Ok pc => pc | Err _ => demo_checkpoint 0 [] end.

Lemma metadata_binds_witness :
  is_ok (metadata demo_key (tk_descriptor demo_terminal)) = true
  ∧ demo_key = demo_key ∧ tk_descriptor demo_terminal = tk_descriptor demo_terminal.
Proof.
  split; [reflexivity|].
  refine (metadata_binds demo_key demo_key (tk_descriptor demo_terminal) (tk_descriptor demo_terminal)
    (match metadata demo_key (tk_descriptor demo_terminal) with Ok a => a | Err _ => [] end) _ _ _ _ _ _);
    (reflexivity || (vm_compute; intuition congruence)).
Defined.
Lemma protect_open_witness :
  is_ok (open demo_protector demo_key (tk_descriptor demo_terminal) demo_sealed 9) = true
  ∧ len (pc_ciphertext demo_sealed) = 42.
Proof.
  split; [vm_compute; reflexivity|].
  exact (proj1 (proj2 (protect_open demo_protector demo_key demo_terminal demo_nonce true demo_sealed 9 eq_refl eq_refl))).
Defined.
Lemma open_authentic_witness :
  ∃ nonce, len nonce = 24 ∧ protect demo_protector demo_key
    {| tk_descriptor := tk_descriptor demo_terminal; tk_bytes := tk_bytes demo_terminal; tk_capacity := 9 |}
    (Some nonce) true = Ok demo_sealed.
Proof.
  exact (proj2 (proj2 (open_authentic demo_protector demo_key (tk_descriptor demo_terminal) demo_sealed 9 _ eq_refl))).
Defined.

(** Parked, then a commit that fails, then read back. *)
Definition parked_ops : list op :=
  [Op_commit demo_sealed (Some (replicate 16 5)); Op_commit (demo_checkpoint 2 [4; 4]) (Some (replicate 16 6));
   Op_read (demo_ref 1 42) 64].
Definition parked_fs : @Fs memory_files := faulty (replicate 7 None ++ [Some Io_ENOSPC]).
Definition parked_run := performs 50 parked_ops (Store_new, parked_fs).
Lemma sealed_checkpoint_returns_witness :
  parked_run.2 = [Committed (Ok (demo_ref 1 42)); Committed (Err CheckpointError_CapacityExceeded);
                  Was_read (Ok demo_sealed)]
  ∧ open demo_protector demo_key (tk_descriptor demo_terminal) demo_sealed 9
    = Ok {| tk_descriptor := tk_descriptor demo_terminal; tk_bytes := [104; 105]; tk_capacity := 9 |}.
Proof.
  split; [vm_compute; reflexivity|].
  refine (sealed_checkpoint_returns 50 parked_ops parked_fs parked_run.1 parked_run.2 0 2 demo_protector demo_key
    demo_terminal demo_nonce true demo_sealed demo_sealed (Some (replicate 16 5)) (demo_ref 1 42) 64 9
    eq_refl eq_refl eq_refl _ _ eq_refl _ eq_refl _); try (vm_compute; reflexivity).
  intros [|[|[|i]]] [|[|[|j]]] p q e H1 H2; try done; unfold parked_ops in *; by simplify_eq/=.
Defined.
