(* ===== verification/Cleanup.v ===== *)
(** * Reclaiming abandoned namespaces
      (crates/infrastructure/src/checkpoint/cleanup.rs, arena.rs, and the
      construction and locking of filesystem.rs)

    A maintenance pass walks the arena: namespaces whose owner is alive are
    skipped, the others are emptied of the objects a store may have left and
    removed, within finite limits.  What the directories hold and what each
    system call answers is an argument; the files and directories the pass
    removes are logged. *)

From S2P Require Import Prelude Utf8 Bytes Checkpoint ObjectNames Directory.

(** ** Directories and locks (filesystem.rs) *)

(** [Directory::at]: whether the name exists afterwards, and the outcome.  The
    guard removes a directory that was created and could not be set up. *)
Definition directory_at (create existed : bool) (mkdir opened : option CheckpointError)
    (locked : result CheckpointError bool) (guard_removes : bool) : bool * result CheckpointError () :=
  match (if create then mkdir else None) with
  | Some e => (existed, Err e)
  | None =>
    let exists_now := create || existed in
    let unwound := if create then negb guard_removes else exists_now in
    match opened with
    | Some e => (unwound, Err e)
    | None =>
      if create then
        match locked with
        | Err e => (unwound, Err e)
        | Ok false => (unwound, Err CheckpointError_Unavailable)
        | Ok true => (exists_now, Ok tt)
        end
      else (exists_now, Ok tt)
    end
  end.

(** [remove_namespace]: the device and inode of the descriptor, those found under
    the name, and what [unlinkat] answers. *)
Definition remove_namespace (owned named : result CheckpointError (Z * Z)) (unlink : option CheckpointError)
    : result CheckpointError () :=
  owned ← owned;
  named ← named;
  if bool_decide (owned ≠ named) then Err CheckpointError_Unavailable
  else match unlink with Some e => Err e | None => Ok tt end.

(** [lock_bounded]: each turn tries the lock and then reads the clock.  [None]
    when the turns given are not enough to tell. *)
Fixpoint lock_bounded (deadline : Z) (turns : list (result CheckpointError bool * Z))
    : option (result CheckpointError ()) :=
  match turns with
  | [] => None
  | (Err e, _) :: _ => Some (Err e)
  | (Ok true, _) :: _ => Some (Ok tt)
  | (Ok false, now) :: turns =>
    if deadline <=? now then Some (Err CheckpointError_CapacityExceeded) else lock_bounded deadline turns
  end.

(** ** The arena (arena.rs) *)

(** [create_namespace]: the random bytes and the answer of [child] of each try. *)
Fixpoint create_namespace (tries : nat) (answers : nat → option Z * option CheckpointError) (n : nat)
    : result CheckpointError (list Z) :=
  match tries with
  | O => Err CheckpointError_AlreadyExists
  | S tries =>
    match answers n with
    | (None, _) => Err CheckpointError_EntropyUnavailable
    | (Some random, None) => Ok (owner_name random)
    | (Some random, Some CheckpointError_AlreadyExists) => create_namespace tries answers (S n)
    | (Some random, Some e) => Err e
    end
  end.

(** ** What the pass finds *)

Record Object := {
  ob_name : list Z;
  ob_open : option CheckpointError;
  ob_len : result CheckpointError Z;
  ob_remove : option CheckpointError
}.
Record Namespace := {
  ns_name : list Z;
  ns_child : option CheckpointError;
  ns_lock : result CheckpointError bool;
  (** the directory stream, an error ending it *)
  ns_entries : result CheckpointError (list (result CheckpointError Object));
  ns_remove : option CheckpointError
}.
Inductive effect := Unlinked (namespace object : list Z) (bytes : Z) | Removed (namespace : list Z).

(** ** The report *)

Record Report := {
  rp_examined_entries : Z;
  rp_examined_namespaces : Z;
  rp_live_namespaces : Z;
  rp_reclaimed_namespaces : Z;
  rp_reclaimed_objects : Z;
  rp_reclaimed_bytes : Z;
  rp_failed_namespaces : Z;
  rp_scan_complete : bool;
  rp_abandoned_incomplete : bool;
  rp_failure : option CheckpointError
}.
Definition Report_default : Report := {|
  rp_examined_entries := 0; rp_examined_namespaces := 0; rp_live_namespaces := 0; rp_reclaimed_namespaces := 0;
  rp_reclaimed_objects := 0; rp_reclaimed_bytes := 0; rp_failed_namespaces := 0; rp_scan_complete := false;
  rp_abandoned_incomplete := false; rp_failure := None |}.
Definition report_with (entries namespaces live reclaimed objects bytes failed : Z) (complete incomplete : bool)
    (failure : option CheckpointError) (r : Report) : Report := {|
  rp_examined_entries := rp_examined_entries r + entries;
  rp_examined_namespaces := rp_examined_namespaces r + namespaces;
  rp_live_namespaces := rp_live_namespaces r + live;
  rp_reclaimed_namespaces := rp_reclaimed_namespaces r + reclaimed;
  rp_reclaimed_objects := rp_reclaimed_objects r + objects;
  rp_reclaimed_bytes := rp_reclaimed_bytes r + bytes;
  rp_failed_namespaces := rp_failed_namespaces r + failed;
  rp_scan_complete := rp_scan_complete r || complete;
  rp_abandoned_incomplete := rp_abandoned_incomplete r || incomplete;
  rp_failure := match rp_failure r with Some e => Some e | None => failure end |}.
Definition examined_entry : Report → Report := report_with 1 0 0 0 0 0 0 false false None.
Definition examined_namespace : Report → Report := report_with 0 1 0 0 0 0 0 false false None.
Definition live_namespace : Report → Report := report_with 0 0 1 0 0 0 0 false false None.
Definition reclaimed_namespace : Report → Report := report_with 0 0 0 1 0 0 0 false false None.
Definition reclaimed_object (bytes : Z) : Report → Report := report_with 0 0 0 0 1 bytes 0 false false None.
Definition scan_complete : Report → Report := report_with 0 0 0 0 0 0 0 true false None.
Definition abandoned_incomplete : Report → Report := report_with 0 0 0 0 0 0 0 false true None.
Definition noted (e : CheckpointError) : Report → Report := report_with 0 0 0 0 0 0 0 false false (Some e).
Definition failed (e : CheckpointError) : Report → Report := report_with 0 0 0 0 0 0 1 false false (Some e).

(** ** The pass (cleanup.rs) *)

Section pass.
Context (limits : CheckpointCleanupLimits).

Definition entries_left (r : Report) : bool := rp_examined_entries r <? cl_entries limits.

(** [remove_objects]: [Ok true] when the namespace is empty. *)
Fixpoint remove_objects (namespace : list Z) (objects : list (result CheckpointError Object))
    : action (Report * list effect) CheckpointError bool := λ '(r, log),
  if negb (entries_left r) then ((r, log), Ok false)
  else match objects with
  | [] => ((r, log), Ok true)
  | Err e :: _ => ((r, log), Err e)
  | Ok o :: objects =>
    let r := examined_entry r in
    if is_none (utf8_decode (ob_name o)) || negb (object_name (ob_name o))
    then ((r, log), Err CheckpointError_Unavailable)
    else match ob_open o with
    | Some e => ((r, log), Err e)
    | None =>
      match ob_len o with
      | Err e => ((r, log), Err e)
      | Ok bytes =>
        if saturating_sub (cl_bytes limits) (rp_reclaimed_bytes r) <? bytes then ((r, log), Ok false)
        else match ob_remove o with
        | Some e => ((r, log), Err e)
        | None =>
          remove_objects namespace objects
            (reclaimed_object bytes r, log ++ [Unlinked namespace (ob_name o) bytes])
        end
      end
    end
  end.

(** One namespace, after its name was recognised. *)
Definition reclaim_namespace (n : Namespace) (w : Report * list effect) : Report * list effect :=
  let '(r, log) := w in
  let r := examined_namespace r in
  match ns_child n with
  | Some CheckpointError_NotFound => (r, log)
  | Some e => (failed e r, log)
  | None =>
    match ns_lock n with
    | Ok false => (live_namespace r, log)
    | Err e => (failed e r, log)
    | Ok true =>
      let '((r, log), outcome) :=
        match ns_entries n with
        | Err e => ((r, log), Err e)
        | Ok objects => remove_objects (ns_name n) objects (r, log)
        end in
      match outcome with
      | Ok true =>
        match ns_remove n with
        | None => (reclaimed_namespace r, log ++ [Removed (ns_name n)])
        | Some CheckpointError_NotFound => (r, log)
        | Some e => (failed e (abandoned_incomplete r), log)
        end
      | Ok false => (abandoned_incomplete r, log)
      | Err e => (failed e (abandoned_incomplete r), log)
      end
    end
  end.
Fixpoint reclaim_loop (found : list (result CheckpointError Namespace))
    : action (Report * list effect) CheckpointError () := λ '(r, log),
  if negb (entries_left r && (rp_examined_namespaces r <? cl_namespaces limits)) then ((r, log), Ok tt)
  else match found with
  | [] => ((scan_complete r, log), Ok tt)
  | Err e :: _ => ((r, log), Err e)
  | Ok n :: found =>
    let r := examined_entry r in
    if negb (namespace_name (ns_name n)) then reclaim_loop found (noted CheckpointError_Unavailable r, log)
    else reclaim_loop found (reclaim_namespace n (r, log))
  end.
(** [reclaim]; the arena's own directory stream may fail to open. *)
Definition reclaim (found : result CheckpointError (list (result CheckpointError Namespace)))
    : action (Report * list effect) CheckpointError () := λ w,
  match found with Err e => (w, Err e) | Ok found => reclaim_loop found w end.
End pass.

(** [temporary_with_cleanup] up to the creation of the namespace. *)
Definition temporary_with_cleanup (limit_bytes : Z) (limits : CheckpointCleanupLimits) (arena : option CheckpointError)
    (found : result CheckpointError (list (result CheckpointError Namespace)))
    (created : result CheckpointError (list Z)) : (Report * list effect) * result CheckpointError (list Z * Report) :=
  let w := (Report_default, []) in
  if limit_bytes =? 0 then (w, Err CheckpointError_InvalidConfiguration)
  else match CheckpointCleanupLimits_validate limits, arena with
  | Err e, _ => (w, Err e)
  | Ok _, Some e => (w, Err e)
  | Ok _, None =>
    match reclaim limits found w with
    | (w, Err e) => (w, Err e)
    | (w, Ok _) =>
      match rp_failure w.1 with
      | Some e => (w, Err e)
      | None =>
        if negb (rp_scan_complete w.1) || rp_abandoned_incomplete w.1 then (w, Err CheckpointError_CapacityExceeded)
        else (w, name ← created; Ok (name, w.1))
      end
    end
  end.

(** ** The invariant of a pass *)

Definition effect_bytes (e : effect) : Z := match e with Unlinked _ _ b => b | Removed _ => 0 end.
Definition log_bytes (log : list effect) : Z := foldr (λ e n, effect_bytes e + n) 0 log.
Definition log_objects (log : list effect) : Z := foldr (λ e n, (match e with Unlinked _ _ _ => 1 | _ => 0 end) + n) 0 log.
Definition log_removed (log : list effect) : Z := foldr (λ e n, (match e with Removed _ => 1 | _ => 0 end) + n) 0 log.
Lemma log_bytes_app l k : log_bytes (l ++ k) = log_bytes l + log_bytes k.
Proof. unfold log_bytes. induction l as [|e l IH]; simpl; lia. Qed.
Lemma log_objects_app l k : log_objects (l ++ k) = log_objects l + log_objects k.
Proof. unfold log_objects. induction l as [|e l IH]; simpl; lia. Qed.
Lemma log_removed_app l k : log_removed (l ++ k) = log_removed l + log_removed k.
Proof. unfold log_removed. induction l as [|e l IH]; simpl; lia. Qed.

Lemma log_bytes_cons e l : log_bytes (e :: l) = effect_bytes e + log_bytes l.
Proof. done. Qed.
Lemma log_objects_cons namespace o b l : log_objects (Unlinked namespace o b :: l) = 1 + log_objects l.
Proof. done. Qed.

Definition object_bytes (o : Object) : Z := match ob_len o with Ok b => b | Err _ => 0 end.
Definition unlinked (namespace : list Z) (o : Object) : effect := Unlinked namespace (ob_name o) (object_bytes o).
(** An effect the pass may have: on an abandoned namespace it found and locked. *)
Definition justified (found : list (result CheckpointError Namespace)) (log : list effect) (e : effect) : Prop :=
  ∃ n objects, Ok n ∈ found ∧ namespace_name (ns_name n) = true ∧ ns_child n = None ∧ ns_lock n = Ok true
    ∧ ns_entries n = Ok objects
    ∧ match e with
      | Unlinked namespace object bytes =>
        namespace = ns_name n ∧ object_name object = true ∧ ∃ o, Ok o ∈ objects ∧ e = unlinked namespace o
      | Removed namespace =>
        namespace = ns_name n ∧ ∀ o, o ∈ objects → ∃ o', o = Ok o' ∧ unlinked namespace o' ∈ log
      end.

Section pass_correct.
Context (limits : CheckpointCleanupLimits).

Record counted (r : Report) (log : list effect) : Prop := {
  ct_entries : rp_examined_entries r <= Z.max 0 (cl_entries limits);
  ct_namespaces : rp_examined_namespaces r <= Z.max 0 (cl_namespaces limits);
  ct_fewer : rp_examined_namespaces r <= rp_examined_entries r;
  ct_bytes : rp_reclaimed_bytes r = log_bytes log;
  ct_limit : rp_reclaimed_bytes r <= Z.max 0 (cl_bytes limits);
  ct_objects : rp_reclaimed_objects r = log_objects log;
  ct_removed : rp_reclaimed_namespaces r = log_removed log;
  ct_split : rp_live_namespaces r + rp_reclaimed_namespaces r + rp_failed_namespaces r <= rp_examined_namespaces r
}.
(** What emptying a namespace leaves alone. *)
Definition same_outside (r r' : Report) : Prop :=
  rp_examined_namespaces r' = rp_examined_namespaces r ∧ rp_live_namespaces r' = rp_live_namespaces r
  ∧ rp_reclaimed_namespaces r' = rp_reclaimed_namespaces r ∧ rp_failed_namespaces r' = rp_failed_namespaces r
  ∧ rp_scan_complete r' = rp_scan_complete r ∧ rp_abandoned_incomplete r' = rp_abandoned_incomplete r
  ∧ rp_failure r' = rp_failure r.

(** What emptying a namespace does: it unlinks [done], the first of its objects. *)
Record emptying (namespace : list Z) (objects : list (result CheckpointError Object)) (r : Report) (log : list effect)
    (r' : Report) (log' : list effect) (outcome : result CheckpointError bool) (done : list Object) : Prop := {
  em_prefix : ∃ rest, objects = (Ok <$> done) ++ rest ∧ (outcome = Ok true → rest = []);
  em_log : log' = log ++ (unlinked namespace <$> done);
  em_names : Forall (λ o, object_name (ob_name o) = true) done;
  em_same : same_outside r r';
  em_entries : rp_examined_entries r <= rp_examined_entries r' ∧ (rp_examined_entries r <= Z.max 0 (cl_entries limits) →
    rp_examined_entries r' <= Z.max 0 (cl_entries limits));
  em_bytes : rp_reclaimed_bytes r' = rp_reclaimed_bytes r + log_bytes (unlinked namespace <$> done);
  em_objects : rp_reclaimed_objects r' = rp_reclaimed_objects r + log_objects (unlinked namespace <$> done);
  em_limit : rp_reclaimed_bytes r <= Z.max 0 (cl_bytes limits) → rp_reclaimed_bytes r' <= Z.max 0 (cl_bytes limits)
}.
Lemma same_outside_refl r : same_outside r r.
Proof. done. Qed.
(** The pass stops in front of an object, which it may have looked at. *)
Lemma emptying_stop namespace objects r log outcome :
  outcome ≠ Ok true ∨ objects = [] → emptying namespace objects r log r log outcome [].
Proof.
  intros Ho. split; simpl; unfold log_bytes, log_objects; simpl; try done; try lia.
  - exists objects. split; [done|]. intros ->. by destruct Ho.
  - by rewrite app_nil_r.
Qed.
Lemma emptying_look namespace objects r log outcome :
  outcome ≠ Ok true → entries_left limits r = true →
  emptying namespace objects r log (examined_entry r) log outcome [].
Proof.
  unfold entries_left. intros Ho Hl. to_props. split; simpl; unfold log_bytes, log_objects; simpl; try done; try lia.
  - exists objects. by split.
  - by rewrite app_nil_r.
  - unfold same_outside. simpl. rewrite !orb_false_r, !Z.add_0_r. by destruct (rp_failure r).
Qed.
Lemma emptying_step namespace o objects r log r' log' outcome done bytes :
  entries_left limits r = true → object_name (ob_name o) = true → ob_len o = Ok bytes →
  bytes <= saturating_sub (cl_bytes limits) (rp_reclaimed_bytes r) →
  emptying namespace objects (reclaimed_object bytes (examined_entry r)) (log ++ [Unlinked namespace (ob_name o) bytes])
    r' log' outcome done →
  emptying namespace (Ok o :: objects) r log r' log' outcome (o :: done).
Proof.
  unfold entries_left, saturating_sub. intros Hl Hn Hb Hle [(rest & E1 & E2) E3 E4 E5 E6 E7 E8 E9]. to_props.
  assert (unlinked namespace o = Unlinked namespace (ob_name o) bytes) as Hu by (unfold unlinked, object_bytes; by rewrite Hb).
  simpl in E6, E7, E8, E9. split; try (by constructor); rewrite ?fmap_cons, ?Hu.
  - exists rest. split; [by rewrite E1|done].
  - by rewrite E3, <-app_assoc.
  - unfold same_outside in *. simpl in *. rewrite !orb_false_r, !Z.add_0_r in E5. by destruct (rp_failure r).
  - lia.
  - rewrite log_bytes_cons, E7. simpl. lia.
  - rewrite log_objects_cons, E8. lia.
  - lia.
Qed.
Lemma remove_objects_spec namespace objects r log r' log' outcome :
  remove_objects limits namespace objects (r, log) = ((r', log'), outcome) →
  ∃ done, emptying namespace objects r log r' log' outcome done.
Proof.
  revert r log. induction objects as [|[o|e] objects IH]; intros r log; cbn [remove_objects];
    destruct (entries_left limits r) eqn:Hl; simpl;
    try (intros [= <- <- <-]; exists []; apply emptying_stop; by auto).
  destruct (is_none _ || negb (object_name _)) eqn:Hname; [intros [= <- <- <-]; exists []; by apply emptying_look|].
  destruct (ob_open o); [intros [= <- <- <-]; exists []; by apply emptying_look|].
  destruct (ob_len o) as [bytes|] eqn:Hb; [|intros [= <- <- <-]; exists []; by apply emptying_look].
  destruct (_ <? bytes) eqn:Hle; [intros [= <- <- <-]; exists []; by apply emptying_look|].
  destruct (ob_remove o); [intros [= <- <- <-]; exists []; by apply emptying_look|].
  to_props. intros [done Hdone]%IH. exists (o :: done). eapply emptying_step; try done. unfold saturating_sub in *. simpl in *. lia.
Qed.

Lemma justified_mono found log log' e : justified found log e → (∀ x, x ∈ log → x ∈ log') → justified found log' e.
Proof.
  intros (n & objects & H1 & H2 & H3 & H4 & H5 & H6) Hin. exists n, objects. split_and!; try done.
  destruct e as [ns o b|ns]; [done|]. destruct H6 as [Hn Ho]. split; [done|]. intros o Hx.
  destruct (Ho o Hx) as (o' & -> & Hu). exists o'. auto.
Qed.
Lemma justified_app found log new :
  Forall (justified found log) log → Forall (justified found (log ++ new)) new → Forall (justified found (log ++ new)) (log ++ new).
Proof.
  intros Hl Hn. apply Forall_app. split; [|done]. eapply Forall_impl; [exact Hl|]. intros e He.
  eapply justified_mono; [done|]. intros x Hx. apply elem_of_app. by left.
Qed.
Lemma unlinked_removed namespace done : log_removed (unlinked namespace <$> done) = 0.
Proof. induction done as [|o done IH]; [done|]. exact IH. Qed.

(** A namespace the pass has dealt with: gone, live, or removed. *)
Definition settled (n : Namespace) (log : list effect) : Prop :=
  ns_child n = Some CheckpointError_NotFound
  ∨ ns_child n = None ∧ ns_lock n = Ok false
  ∨ ns_child n = None ∧ ns_lock n = Ok true
    ∧ (Removed (ns_name n) ∈ log ∨ ns_remove n = Some CheckpointError_NotFound).
(** The flags only go up. *)
Definition raised (r r' : Report) : Prop :=
  (rp_abandoned_incomplete r' = false → rp_abandoned_incomplete r = false)
  ∧ (rp_failure r' = None → rp_failure r = None) ∧ rp_scan_complete r' = rp_scan_complete r.

Record passed (found : list (result CheckpointError Namespace)) (n : Namespace) (r : Report) (log : list effect)
    (r' : Report) (log' : list effect) : Prop := {
  pa_counted : counted r log → rp_examined_namespaces r < rp_examined_entries r →
    rp_examined_namespaces r < cl_namespaces limits → counted r' log';
  pa_log : ∃ new, log' = log ++ new ∧ Forall (justified found log') new;
  pa_raised : raised r r';
  pa_settled : rp_abandoned_incomplete r' = false → rp_failure r' = None → settled n log'
}.
(** A namespace that was only looked at: live, gone or refused. *)
Lemma passed_skip found n r log r' :
  rp_examined_entries r' = rp_examined_entries r → rp_examined_namespaces r' = rp_examined_namespaces r + 1 →
  rp_reclaimed_bytes r' = rp_reclaimed_bytes r → rp_reclaimed_objects r' = rp_reclaimed_objects r →
  rp_reclaimed_namespaces r' = rp_reclaimed_namespaces r →
  rp_live_namespaces r' + rp_failed_namespaces r' <= rp_live_namespaces r + rp_failed_namespaces r + 1 →
  raised r r' → (rp_abandoned_incomplete r' = false → rp_failure r' = None → settled n log) →
  passed found n r log r' log.
Proof.
  intros E1 E2 E3 E4 E5 E6 Hr Hs. split; [|exists []; by rewrite app_nil_r|done|done].
  intros [C1 C2 C3 C4 C5 C6 C7 C8] H1 H2. split; lia.
Qed.
(** A namespace that was emptied as far as it went, and then perhaps removed. *)
Lemma passed_emptied found n r log objects r2 log2 outcome done r' new :
  emptying (ns_name n) objects (examined_namespace r) log r2 log2 outcome done →
  Forall (justified found (log2 ++ new)) (unlinked (ns_name n) <$> done) →
  Forall (justified found (log2 ++ new)) new →
  rp_examined_entries r' = rp_examined_entries r2 → rp_examined_namespaces r' = rp_examined_namespaces r2 →
  rp_reclaimed_bytes r' = rp_reclaimed_bytes r2 → rp_reclaimed_objects r' = rp_reclaimed_objects r2 →
  rp_reclaimed_namespaces r' = rp_reclaimed_namespaces r2 + log_removed new →
  log_bytes new = 0 → log_objects new = 0 → rp_live_namespaces r' = rp_live_namespaces r2 →
  rp_failed_namespaces r' + log_removed new <= rp_failed_namespaces r2 + 1 → raised r2 r' →
  (rp_abandoned_incomplete r' = false → rp_failure r' = None → settled n (log2 ++ new)) →
  passed found n r log r' (log2 ++ new).
Proof.
  intros [_ E3 E4 (S1 & S2 & S3 & S4 & S5 & S6 & S7) [E6 E6'] E7 E8 E9] Hdone Hnew R1 R2 R3 R4 R5 R6 R7 R8 R9 Hr Hs.
  simpl in *. rewrite !orb_false_r in *. split; [|exists ((unlinked (ns_name n) <$> done) ++ new)| |done].
  - intros [C1 C2 C3 C4 C5 C6 C7 C8] H1 H2.
    split; rewrite ?E3, ?log_bytes_app, ?log_objects_app, ?log_removed_app, ?unlinked_removed; lia.
  - split; [by rewrite E3, <-app_assoc|]. rewrite E3 in *. by apply Forall_app.
  - destruct Hr as (Hr1 & Hr2 & Hr3). unfold raised. rewrite Hr3, S5. split_and!; [|..|done].
    + intros H. rewrite <-S6. auto.
    + intros H%Hr2. rewrite S7 in H. by destruct (rp_failure r).
Qed.
Ltac stopped r2 :=
  match goal with |- passed _ _ _ _ _ ?log2 => rewrite <-(app_nil_r log2) end;
  eapply passed_emptied; try done; simpl; try (unfold log_removed; simpl; lia);
  [unfold raised; simpl; rewrite ?orb_false_r, ?orb_true_r; by destruct (rp_failure r2)|..];
  by rewrite ?orb_true_r.
Lemma reclaim_namespace_passed found n r log r' log' :
  Ok n ∈ found → namespace_name (ns_name n) = true → reclaim_namespace limits n (r, log) = (r', log') →
  passed found n r log r' log'.
Proof.
  intros Hin Hname. unfold reclaim_namespace.
  assert (∀ e, rp_failure (failed e (examined_namespace r)) ≠ None) as Hfail by (intros e; simpl; by destruct (rp_failure r)).
  assert (∀ e, raised r (failed e (examined_namespace r))) as Hraise.
  { intros e. unfold raised. simpl. rewrite !orb_false_r. by destruct (rp_failure r). }
  destruct (ns_child n) as [e|] eqn:Hchild.
  { destruct e; intros [= <- <-]; apply passed_skip; simpl; try lia; try apply Hraise; try (intros _ H; by destruct (Hfail _ H)).
    - unfold raised. simpl. rewrite !orb_false_r. by destruct (rp_failure r).
    - intros _ _. by left. }
  destruct (ns_lock n) as [[]|e] eqn:Hlock.
  2:{ intros [= <- <-]; apply passed_skip; simpl; try lia.
      - unfold raised. simpl. rewrite !orb_false_r. by destruct (rp_failure r).
      - intros _ _. right. by left. }
  2:{ intros [= <- <-]; apply passed_skip; simpl; try lia; try apply Hraise; try (intros _ H; by destruct (Hfail _ H)). }
  assert (∃ objects r2 log2 outcome done,
    match ns_entries n with
    | Err e => ((examined_namespace r, log), Err e)
    | Ok objects => remove_objects limits (ns_name n) objects (examined_namespace r, log)
    end = ((r2, log2), outcome)
    ∧ emptying (ns_name n) objects (examined_namespace r) log r2 log2 outcome done
    ∧ (ns_entries n = Ok objects ∨ done = [] ∧ outcome ≠ Ok true)) as (objects & r2 & log2 & outcome & done & -> & He & Hob).
  { destruct (ns_entries n) as [objects|e] eqn:Hent.
    - destruct (remove_objects limits (ns_name n) objects (examined_namespace r, log)) as [[r2 log2] outcome] eqn:E.
      apply remove_objects_spec in E as [done Hd]. exists objects, r2, log2, outcome, done. auto.
    - exists [], (examined_namespace r), log, (Err e), []. split; [done|]. split; [|by right].
      apply emptying_stop. by left. }
  assert (∀ new, Forall (justified found (log2 ++ new)) (unlinked (ns_name n) <$> done)) as Hjust.
  { intros new. apply Forall_forall. intros x [o [-> Ho]]%list_elem_of_fmap.
    destruct Hob as [Hob|[-> _]]; [|by apply elem_of_nil in Ho].
    destruct (em_prefix _ _ _ _ _ _ _ _ He) as (rest & Hrest & _). exists n, objects. split_and!; try done.
    split; [done|]. split.
    - pose proof (em_names _ _ _ _ _ _ _ _ He) as Hn. rewrite Forall_forall in Hn. by apply Hn.
    - exists o. split; [|done]. rewrite Hrest. apply elem_of_app. left. by apply list_elem_of_fmap_2. }
  destruct outcome as [[]|e].
  - assert (ns_entries n = Ok objects ∧ objects = Ok <$> done) as [Hent Hall].
    { destruct Hob as [Hob|[_ Hob]]; [|done]. split; [done|].
      destruct (em_prefix _ _ _ _ _ _ _ _ He) as (rest & Hrest & Hnil). by rewrite Hrest, (Hnil eq_refl), app_nil_r. }
    destruct (ns_remove n) as [e|] eqn:Hrm; [destruct e|]; intros [= <- <-].
    all: try by stopped r2.
    + rewrite <-(app_nil_r log2). eapply passed_emptied; try done; simpl; try (unfold log_removed; simpl; lia).
      intros _ _. right. right. auto.
    + eapply passed_emptied; try done; simpl; try (unfold log_removed; simpl; lia).
      * constructor; [|constructor]. exists n, objects. split_and!; try done.
        rewrite Hall. intros o [o' [-> Ho]]%list_elem_of_fmap. exists o'. split; [done|].
        rewrite (em_log _ _ _ _ _ _ _ _ He). rewrite !elem_of_app. left. right. apply list_elem_of_fmap. by exists o'.
      * unfold raised. simpl. rewrite !orb_false_r. by destruct (rp_failure r2).
      * intros _ _. right. right. split_and!; try done. left. apply elem_of_app. right. by apply list_elem_of_singleton.
  - intros [= <- <-]. by stopped r2.
  - intros [= <- <-]. by stopped r2.
Qed.

Lemma counted_default : counted Report_default [].
Proof. split; unfold log_bytes, log_objects, log_removed; simpl; lia. Qed.
Lemma counted_entry r log e :
  counted r log → entries_left limits r = true →
  counted (examined_entry r) log ∧ counted (noted e (examined_entry r)) log.
Proof. unfold entries_left. intros [] Hl. to_props. split; split; simpl; lia. Qed.
Lemma settled_mono n log new : settled n log → settled n (log ++ new).
Proof.
  intros [?|[?|(? & ? & [?|?])]]; unfold settled; [auto..| |auto 10].
  right. right. split_and!; try done. left. apply elem_of_app. auto.
Qed.

(** A run of the loop from some point: what it adds is justified, the report adds
    up, and if it says that the scan was complete and nothing went wrong then
    every namespace was dealt with. *)
Record looped (all found : list (result CheckpointError Namespace)) (r : Report) (log : list effect) (r' : Report)
    (log' : list effect) : Prop := {
  lo_counted : counted r log → counted r' log';
  lo_log : ∃ new, log' = log ++ new ∧ Forall (justified all log') new;
  lo_raised : (rp_abandoned_incomplete r' = false → rp_abandoned_incomplete r = false)
    ∧ (rp_failure r' = None → rp_failure r = None);
  lo_complete : rp_scan_complete r = false → rp_scan_complete r' = true → rp_abandoned_incomplete r' = false →
    rp_failure r' = None →
    Forall (λ x, ∃ n, x = Ok n ∧ namespace_name (ns_name n) = true ∧ settled n log') found
}.
Lemma looped_stop all found r log : looped all found r log r log.
Proof. split; [done|exists []; by rewrite app_nil_r|done|congruence]. Qed.
Lemma looped_end all r log : looped all [] r log (scan_complete r) log.
Proof.
  split; [|exists []; by rewrite app_nil_r| |by constructor].
  - intros []. split; simpl; lia.
  - simpl. rewrite orb_false_r. by destruct (rp_failure r).
Qed.
Lemma looped_cons all n found r log r1 log1 r' log' :
  entries_left limits r = true → rp_examined_namespaces r < cl_namespaces limits →
  passed all n (examined_entry r) log r1 log1 → namespace_name (ns_name n) = true →
  looped all found r1 log1 r' log' → looped all (Ok n :: found) r log r' log'.
Proof.
  intros Hl Hns [P1 (new1 & -> & P2) (P3 & P4 & P5) P6] Hname [L1 (new & -> & L2) [L3 L4] L5]. simpl in *.
  rewrite !orb_false_r in *. split.
  - intros Hc. apply L1, P1; [by apply (counted_entry r log CheckpointError_Unavailable)| |lia].
    pose proof (ct_fewer _ _ Hc). lia.
  - exists (new1 ++ new). split; [by rewrite app_assoc|]. apply Forall_app. split; [|done].
    eapply Forall_impl; [exact P2|]. intros e He. eapply justified_mono; [done|]. intros x Hx.
    apply elem_of_app. by left.
  - split; [auto|]. intros H. specialize (P4 (L4 H)). by destruct (rp_failure r).
  - intros Hs Hs' Hi Hf. constructor; [|by apply L5; [rewrite P5|..]].
    exists n. split; [done|]. split; [done|]. apply settled_mono, P6; auto.
Qed.
Lemma reclaim_loop_spec all found r log r' log' out :
  (∀ x, x ∈ found → x ∈ all) → reclaim_loop limits found (r, log) = ((r', log'), out) → looped all found r log r' log'.
Proof.
  revert r log. induction found as [|[n|e] found IH]; intros r log Hsub; cbn [reclaim_loop];
    destruct (entries_left limits r) eqn:Hl; cbn [negb andb]; try (intros [= <- <- _]; apply looped_stop);
    destruct (_ <? _) eqn:Hns; cbn [negb andb]; try (intros [= <- <- _]; apply looped_stop).
  - intros [= <- <- _]. apply looped_end.
  - assert (∀ x, x ∈ found → x ∈ all) as Hsub' by (intros x Hx; apply Hsub, elem_of_cons; by right). to_props.
    destruct (namespace_name (ns_name n)) eqn:Hname; cbn [negb].
    + destruct (reclaim_namespace limits n (examined_entry r, log)) as [r1 log1] eqn:E1.
      intros H. apply (looped_cons all n found r log r1 log1); try done; [|by apply IH].
      eapply reclaim_namespace_passed; try done. apply Hsub, elem_of_cons. by left.
    + intros H. apply IH in H as [L1 L2 [L3 L4] L5]; [|done]. simpl in *. rewrite !orb_false_r in *.
      assert (rp_failure r' ≠ None) as Hne by (intros Hn; apply L4 in Hn; by destruct (rp_failure r)).
      split; [|done|split; [done|intros Hf; by destruct Hne]|intros _ _ _ Hf; by destruct Hne].
      intros Hc. apply L1. by apply counted_entry.
Qed.
End pass_correct.

(** ** Theorems *)

(** A maintenance pass stays within its limits and reports exactly what it did:
    the bytes, objects and namespaces it says it reclaimed are those it removed. *)
Theorem reclaim_within_limits (limits : CheckpointCleanupLimits)
    (found : result CheckpointError (list (result CheckpointError Namespace))) (r : Report) (log : list effect)
    (out : result CheckpointError ()) :
  reclaim limits found (Report_default, []) = ((r, log), out) →
  rp_examined_entries r <= Z.max 0 (cl_entries limits) ∧ rp_examined_namespaces r <= Z.max 0 (cl_namespaces limits)
  ∧ rp_reclaimed_bytes r <= Z.max 0 (cl_bytes limits)
  ∧ rp_reclaimed_bytes r = log_bytes log ∧ rp_reclaimed_objects r = log_objects log
  ∧ rp_reclaimed_namespaces r = log_removed log
  ∧ rp_live_namespaces r + rp_reclaimed_namespaces r + rp_failed_namespaces r <= rp_examined_namespaces r.
Proof.
  intros H. assert (counted limits r log) as [].
  { destruct found as [found|e]; [|injection H as <- <- _; apply counted_default].
    apply (reclaim_loop_spec limits found) in H; [|done]. by apply (lo_counted _ _ _ _ _ _ _ H), counted_default. }
  done.
Qed.

(** C39: It removes nothing of a live owner and nothing it does not know: every file
    it unlinks has the name of a store's object and lies in a namespace of the
    arena whose lock the pass holds, and a namespace is removed only after all
    of its files were. *)
Theorem reclaim_spares_live (limits : CheckpointCleanupLimits) (found : list (result CheckpointError Namespace))
    (r : Report) (log : list effect) (out : result CheckpointError ()) :
  reclaim limits (Ok found) (Report_default, []) = ((r, log), out) → Forall (justified found log) log.
Proof.
  intros H. apply (reclaim_loop_spec limits found) in H; [|done].
  destruct (lo_log _ _ _ _ _ _ _ H) as (new & -> & Hn). exact Hn.
Qed.

(** A new store is created only when the arena was scanned to its end and every
    namespace in it is live or gone. *)
Theorem temporary_after_cleanup (limit_bytes : Z) (limits : CheckpointCleanupLimits) (arena : option CheckpointError)
    (found : result CheckpointError (list (result CheckpointError Namespace)))
    (created : result CheckpointError (list Z)) (r : Report) (log : list effect) (name : list Z) (r' : Report) :
  temporary_with_cleanup limit_bytes limits arena found created = ((r, log), Ok (name, r')) →
  limit_bytes ≠ 0 ∧ created = Ok name ∧ r' = r
  ∧ ∃ namespaces, found = Ok namespaces
    ∧ Forall (λ x, ∃ n, x = Ok n ∧ namespace_name (ns_name n) = true ∧ settled n log) namespaces.
Proof.
  unfold temporary_with_cleanup. destruct (limit_bytes =? 0) eqn:Hl; [done|].
  destruct (CheckpointCleanupLimits_validate limits); [|done]. destruct arena; [done|].
  destruct (reclaim limits found (Report_default, [])) as [[r1 log1] [u|e]] eqn:E; [|done]. simpl.
  destruct (rp_failure r1) eqn:Hf; [done|]. destruct (_ || _) eqn:Hc; [done|].
  unfold mbind, result_bind. destruct created as [name'|]; [|done]. intros [= <- <- <- <-]. to_props.
  split; [done|]. split; [done|]. split; [done|]. destruct found as [found|]; [|done]. exists found. split; [done|].
  apply (reclaim_loop_spec limits found) in E; [|done]. by apply (lo_complete _ _ _ _ _ _ _ E).
Qed.

(** The arena lock is given or refused within a bounded number of turns: a clock
    that a turn of sleep moves by a millisecond reaches the deadline. *)
Theorem lock_bounded_ends (start : Z) (turns : list (result CheckpointError bool * Z)) :
  (∀ i x, turns !! i = Some x → start + Z.of_nat i * 1000000 <= x.2) → (1001 <= length turns)%nat →
  ∃ r, lock_bounded (start + from_secs 1) turns = Some r.
Proof.
  assert (∀ n (k : Z), (∀ i x, turns !! i = Some x → start + (k + Z.of_nat i) * 1000000 <= x.2) → 0 <= k →
    Z.of_nat n + k = 1001 → (n <= length turns)%nat → (0 < n)%nat →
    ∃ r, lock_bounded (start + from_secs 1) turns = Some r) as Hgen.
  { clear. induction turns as [|[[[]|e] now] ts IH]; intros n k Hclock Hk Hn Hlen Hpos; simpl in *; [lia|by eexists..| |by eexists].
    - destruct (_ <=? now) eqn:E; [by eexists|]. to_props.
      pose proof (Hclock 0%nat _ eq_refl) as H0. simpl in H0.
      assert (k < 1000) by (unfold from_secs, nanos_per_sec in *; lia).
      apply (IH (n - 1)%nat (k + 1)); try lia. intros i x Hi. specialize (Hclock (S i) x Hi).
      replace (k + 1 + Z.of_nat i) with (k + Z.of_nat (S i)) by lia. done. }
  intros Hclock Hlen. apply (Hgen 1001%nat 0); try lia. intros i x Hi. rewrite Z.add_0_l. by apply Hclock.
Qed.

(** A directory that could not be set up does not stay behind, unless it cannot
    be removed, and the arena's own names are those the cleanup pass knows. *)
Theorem construction_unwinds (existed : bool) (mkdir opened : option CheckpointError)
    (locked : result CheckpointError bool) (guard_removes : bool) (e : CheckpointError) :
  (mkdir = None → existed = false) →
  (directory_at true existed mkdir opened locked guard_removes).2 = Err e → guard_removes = true →
  (directory_at true existed mkdir opened locked guard_removes).1 = existed.
Proof.
  unfold directory_at. intros He. destruct mkdir; [done|]. rewrite (He eq_refl).
  destruct opened; [by intros _ ->|]. destruct locked as [[]|]; [done|by intros _ ->..].
Qed.
Lemma create_namespace_known tries answers n name :
  (∀ i r, (answers i).1 = Some r → 0 <= r < 2 ^ 128) →
  create_namespace tries answers n = Ok name → namespace_name name = true.
Proof.
  intros Hr. revert n. induction tries as [|tries IH]; intros n; simpl; [done|].
  destruct (answers n) as [[random|] [e|]] eqn:E; try done.
  - destruct e; try done. apply IH.
  - intros [= <-]. apply owner_name_known. apply (Hr n). by rewrite E.
Qed.

(** ** A pass *)

(** A live namespace, an abandoned one with two objects, and limits that allow
    for both; then a foreign file in the way. *)
Definition demo_object (name : list Z) (bytes : Z) : Object := {|
  ob_name := name; ob_open := None; ob_len := Ok bytes; ob_remove := None |}.
Definition demo_namespace (random : Z) (live : bool) (objects : list Object) : Namespace := {|
  ns_name := owner_name random; ns_child := None; ns_lock := Ok (negb live);
  ns_entries := Ok (Ok <$> objects); ns_remove := None |}.
Definition demo_found : list (result CheckpointError Namespace) :=
  [Ok (demo_namespace 3 true [demo_object (checkpoint_name 1) 50]);
   Ok (demo_namespace 4 false [demo_object (checkpoint_name 7) 10; demo_object (pending_name 8) 5])].
Definition demo_limits : CheckpointCleanupLimits := {| cl_namespaces := 8; cl_entries := 16; cl_bytes := 100 |}.
Definition demo_pass := reclaim demo_limits (Ok demo_found) (Report_default, []).
Lemma demo_pass_split :
  reclaim demo_limits (Ok demo_found) (Report_default, []) = ((demo_pass.1.1, demo_pass.1.2), demo_pass.2).
Proof. unfold demo_pass. by destruct (reclaim _ _ _) as [[r log] out]. Qed.

Lemma reclaim_within_limits_witness :
  demo_pass.2 = Ok tt ∧ rp_reclaimed_bytes demo_pass.1.1 = 15 ∧ rp_live_namespaces demo_pass.1.1 = 1
  ∧ rp_reclaimed_bytes demo_pass.1.1 = log_bytes demo_pass.1.2.
Proof.
  split; [vm_compute; reflexivity|]. split; [vm_compute; reflexivity|]. split; [vm_compute; reflexivity|].
  exact (proj1 (proj2 (proj2 (proj2
    (reclaim_within_limits demo_limits (Ok demo_found) demo_pass.1.1 demo_pass.1.2 demo_pass.2 demo_pass_split))))).
Defined.
Lemma reclaim_spares_live_witness :
  demo_pass.1.2 = [Unlinked (owner_name 4) (checkpoint_name 7) 10; Unlinked (owner_name 4) (pending_name 8) 5;
                   Removed (owner_name 4)]
  ∧ Forall (justified demo_found demo_pass.1.2) demo_pass.1.2.
Proof. split; [vm_compute; reflexivity|]. exact (reclaim_spares_live demo_limits demo_found demo_pass.1.1 demo_pass.1.2 demo_pass.2 demo_pass_split). Defined.
Definition demo_temporary := temporary_with_cleanup 64 demo_limits None (Ok demo_found) (Ok (owner_name 5)).
Lemma temporary_after_cleanup_witness :
  demo_temporary.2 = Ok (owner_name 5, demo_pass.1.1)
  ∧ ∃ namespaces, Ok demo_found = @Ok CheckpointError _ namespaces
    ∧ Forall (λ x, ∃ n, x = Ok n ∧ namespace_name (ns_name n) = true ∧ settled n demo_temporary.1.2) namespaces.
Proof.
  split; [vm_compute; reflexivity|].
  refine (proj2 (proj2 (proj2 (temporary_after_cleanup 64 demo_limits None (Ok demo_found) (Ok (owner_name 5))
    demo_temporary.1.1 demo_temporary.1.2 (owner_name 5) demo_pass.1.1 _)))). vm_compute. reflexivity.
Defined.
Lemma lock_bounded_ends_witness :
  let turns := (λ i, (Ok false : result CheckpointError bool, Z.of_nat i * 1000000)) <$> seq 0 1001 in
  ∃ r, lock_bounded (0 + from_secs 1) turns = Some r.
Proof.
  refine (lock_bounded_ends 0 _ _ _); [|vm_compute; lia].
  intros i x Hi. apply list_lookup_fmap_Some in Hi as (j & -> & Hj). apply lookup_seq in Hj as [-> _]. simpl. lia.
Defined.
Lemma construction_unwinds_witness :
  (directory_at true false None None (Ok false) true).2 = Err CheckpointError_Unavailable
  ∧ (directory_at true false None None (Ok false) true).1 = false.
Proof.
  split; [reflexivity|].
  exact (construction_unwinds false None None (Ok false) true CheckpointError_Unavailable (λ _, eq_refl) eq_refl eq_refl).
Defined.
