(* ===== verification/OsErrors.v ===== *)
(** * Operating-system errors (crates/infrastructure/src/process/mod.rs)

    [std::io::Error] as the process adapter looks at it, and its two mappings
    onto the process boundary.  The numbers are those of Linux. *)

From S2P Require Import Prelude Process.

Definition EPERM : Z := 1.
Definition ENOENT : Z := 2.
Definition EINTR : Z := 4.
Definition EIO : Z := 5.
Definition EAGAIN : Z := 11.
Definition ENOMEM : Z := 12.
Definition EACCES : Z := 13.
Definition ENFILE : Z := 23.
Definition EMFILE : Z := 24.
Definition ENOSPC : Z := 28.

(** The kinds of [std::io::ErrorKind] the adapter distinguishes. *)
Inductive Io_kind := Kind_NotFound | Kind_PermissionDenied | Kind_WouldBlock | Kind_Interrupted
  | Kind_InvalidData | Kind_Other.
#[export] Instance Io_kind_eq_dec : EqDecision Io_kind.
Proof. solve_decision. Defined.

Record Io_error := { ie_raw_os_error : option Z; ie_kind : Io_kind }.

(** [std::io::Error::from_raw_os_error]: the kind is the standard library's
    classification of the number. *)
Definition decode_error_kind (code : Z) : Io_kind :=
  if code =? ENOENT then Kind_NotFound
  else if (code =? EACCES) || (code =? EPERM) then Kind_PermissionDenied
  else if code =? EAGAIN then Kind_WouldBlock
  else if code =? EINTR then Kind_Interrupted
  else Kind_Other.
Definition from_raw_os_error (code : Z) : Io_error :=
  {| ie_raw_os_error := Some code; ie_kind := decode_error_kind code |}.

Definition error (e : Io_error) : ProcessError :=
  if bool_decide (ie_raw_os_error e ∈ (Some <$> [EMFILE; ENFILE; ENOMEM; ENOSPC]))
  then ProcessError_Capacity
  else match ie_kind e with
  | Kind_NotFound => ProcessError_NotFound
  | Kind_PermissionDenied => ProcessError_PermissionDenied
  | _ => ProcessError_Io
  end.

Definition creation_error (e : Io_error) : ProcessError :=
  if bool_decide (ie_raw_os_error e = Some EAGAIN) then ProcessError_Capacity else error e.


(** No error of the operating system is reported as a closed session, a timeout
    or an internal failure. *)
Lemma error_classified e :
  error e ∈ [ProcessError_Capacity; ProcessError_NotFound; ProcessError_PermissionDenied; ProcessError_Io].
Proof. unfold error. repeat case_match; set_solver. Qed.
