(* ===== verification/Guardian.v ===== *)
(** * The owner's side of the guardian (crates/infrastructure/src/process/guardian.rs)

    [Guardian] owns the two helper channels and the direct child (the session
    sentinel) of one process.  [service] writes the control it wants, reads
    records and classifies them; [admit] grants execution once both helpers have
    said the same hello; the owner takes each fact once.  The sockets, the child
    and the clock are answers given to the operation that asks. *)

From S2P Require Import Prelude Process OsErrors GuardianProtocol.

(** ** The two sides

    Index 0 is the sentinel's channel and index 1 the guardian's. *)

Inductive side := Sentinel | Helper.
#[export] Instance side_eq_dec : EqDecision side.
Proof. solve_decision. Defined.

Record two (A : Type) := Two { on_sentinel : A; on_helper : A }.
Arguments Two {A} _ _.
Arguments on_sentinel {A} _.
Arguments on_helper {A} _.
Definition at_side {A} (i : side) (t : two A) : A :=
  match i with Sentinel => on_sentinel t | Helper => on_helper t end.
Definition put_side {A} (i : side) (a : A) (t : two A) : two A :=
  match i with Sentinel => Two a (on_helper t) | Helper => Two (on_sentinel t) a end.
Definition other (i : side) : side := match i with Sentinel => Helper | Helper => Sentinel end.
Definition both {A} (a : A) : two A := Two a a.

(** ** State *)

Record Guardian := {
  gu_sid : Z;
  gu_watch : bool;
  gu_channels : two (option Channel);
  gu_generation : Z;
  gu_hello : two (option (list Z));
  gu_started : option (list Z);
  gu_admitted : bool;
  gu_granted : bool;
  gu_start_error : option ProcessError;
  gu_control : option Kind;
  gu_sent : two (option Kind);
  gu_retiring : two bool;
  gu_reaped : bool;
  gu_observed : option Z;
  gu_pending_exit : option Z;
  gu_fault : bool;
  gu_pending_fault : bool;
  gu_term_applied : bool;
  gu_escalation_applied : bool;
  gu_escalation_reported : bool
}.

Definition with_watch (v : bool) (g : Guardian) : Guardian := {|
  gu_sid := gu_sid g; gu_watch := v; gu_channels := gu_channels g;
  gu_generation := gu_generation g; gu_hello := gu_hello g; gu_started := gu_started g;
  gu_admitted := gu_admitted g; gu_granted := gu_granted g; gu_start_error := gu_start_error g;
  gu_control := gu_control g; gu_sent := gu_sent g; gu_retiring := gu_retiring g;
  gu_reaped := gu_reaped g; gu_observed := gu_observed g; gu_pending_exit := gu_pending_exit g;
  gu_fault := gu_fault g; gu_pending_fault := gu_pending_fault g;
  gu_term_applied := gu_term_applied g; gu_escalation_applied := gu_escalation_applied g;
  gu_escalation_reported := gu_escalation_reported g |}.
Definition with_channels (v : two (option Channel)) (g : Guardian) : Guardian := {|
  gu_sid := gu_sid g; gu_watch := gu_watch g; gu_channels := v; gu_generation := gu_generation g;
  gu_hello := gu_hello g; gu_started := gu_started g; gu_admitted := gu_admitted g;
  gu_granted := gu_granted g; gu_start_error := gu_start_error g; gu_control := gu_control g;
  gu_sent := gu_sent g; gu_retiring := gu_retiring g; gu_reaped := gu_reaped g;
  gu_observed := gu_observed g; gu_pending_exit := gu_pending_exit g; gu_fault := gu_fault g;
  gu_pending_fault := gu_pending_fault g; gu_term_applied := gu_term_applied g;
  gu_escalation_applied := gu_escalation_applied g;
  gu_escalation_reported := gu_escalation_reported g |}.
Definition with_hello (v : two (option (list Z))) (g : Guardian) : Guardian := {|
  gu_sid := gu_sid g; gu_watch := gu_watch g; gu_channels := gu_channels g;
  gu_generation := gu_generation g; gu_hello := v; gu_started := gu_started g;
  gu_admitted := gu_admitted g; gu_granted := gu_granted g; gu_start_error := gu_start_error g;
  gu_control := gu_control g; gu_sent := gu_sent g; gu_retiring := gu_retiring g;
  gu_reaped := gu_reaped g; gu_observed := gu_observed g; gu_pending_exit := gu_pending_exit g;
  gu_fault := gu_fault g; gu_pending_fault := gu_pending_fault g;
  gu_term_applied := gu_term_applied g; gu_escalation_applied := gu_escalation_applied g;
  gu_escalation_reported := gu_escalation_reported g |}.
Definition with_started (v : option (list Z)) (g : Guardian) : Guardian := {|
  gu_sid := gu_sid g; gu_watch := gu_watch g; gu_channels := gu_channels g;
  gu_generation := gu_generation g; gu_hello := gu_hello g; gu_started := v;
  gu_admitted := gu_admitted g; gu_granted := gu_granted g; gu_start_error := gu_start_error g;
  gu_control := gu_control g; gu_sent := gu_sent g; gu_retiring := gu_retiring g;
  gu_reaped := gu_reaped g; gu_observed := gu_observed g; gu_pending_exit := gu_pending_exit g;
  gu_fault := gu_fault g; gu_pending_fault := gu_pending_fault g;
  gu_term_applied := gu_term_applied g; gu_escalation_applied := gu_escalation_applied g;
  gu_escalation_reported := gu_escalation_reported g |}.
Definition with_admitted (v : bool) (g : Guardian) : Guardian := {|
  gu_sid := gu_sid g; gu_watch := gu_watch g; gu_channels := gu_channels g;
  gu_generation := gu_generation g; gu_hello := gu_hello g; gu_started := gu_started g;
  gu_admitted := v; gu_granted := gu_granted g; gu_start_error := gu_start_error g;
  gu_control := gu_control g; gu_sent := gu_sent g; gu_retiring := gu_retiring g;
  gu_reaped := gu_reaped g; gu_observed := gu_observed g; gu_pending_exit := gu_pending_exit g;
  gu_fault := gu_fault g; gu_pending_fault := gu_pending_fault g;
  gu_term_applied := gu_term_applied g; gu_escalation_applied := gu_escalation_applied g;
  gu_escalation_reported := gu_escalation_reported g |}.
Definition with_granted (v : bool) (g : Guardian) : Guardian := {|
  gu_sid := gu_sid g; gu_watch := gu_watch g; gu_channels := gu_channels g;
  gu_generation := gu_generation g; gu_hello := gu_hello g; gu_started := gu_started g;
  gu_admitted := gu_admitted g; gu_granted := v; gu_start_error := gu_start_error g;
  gu_control := gu_control g; gu_sent := gu_sent g; gu_retiring := gu_retiring g;
  gu_reaped := gu_reaped g; gu_observed := gu_observed g; gu_pending_exit := gu_pending_exit g;
  gu_fault := gu_fault g; gu_pending_fault := gu_pending_fault g;
  gu_term_applied := gu_term_applied g; gu_escalation_applied := gu_escalation_applied g;
  gu_escalation_reported := gu_escalation_reported g |}.
Definition with_start_error (v : option ProcessError) (g : Guardian) : Guardian := {|
  gu_sid := gu_sid g; gu_watch := gu_watch g; gu_channels := gu_channels g;
  gu_generation := gu_generation g; gu_hello := gu_hello g; gu_started := gu_started g;
  gu_admitted := gu_admitted g; gu_granted := gu_granted g; gu_start_error := v;
  gu_control := gu_control g; gu_sent := gu_sent g; gu_retiring := gu_retiring g;
  gu_reaped := gu_reaped g; gu_observed := gu_observed g; gu_pending_exit := gu_pending_exit g;
  gu_fault := gu_fault g; gu_pending_fault := gu_pending_fault g;
  gu_term_applied := gu_term_applied g; gu_escalation_applied := gu_escalation_applied g;
  gu_escalation_reported := gu_escalation_reported g |}.
Definition with_control (v : option Kind) (g : Guardian) : Guardian := {|
  gu_sid := gu_sid g; gu_watch := gu_watch g; gu_channels := gu_channels g;
  gu_generation := gu_generation g; gu_hello := gu_hello g; gu_started := gu_started g;
  gu_admitted := gu_admitted g; gu_granted := gu_granted g; gu_start_error := gu_start_error g;
  gu_control := v; gu_sent := gu_sent g; gu_retiring := gu_retiring g; gu_reaped := gu_reaped g;
  gu_observed := gu_observed g; gu_pending_exit := gu_pending_exit g; gu_fault := gu_fault g;
  gu_pending_fault := gu_pending_fault g; gu_term_applied := gu_term_applied g;
  gu_escalation_applied := gu_escalation_applied g;
  gu_escalation_reported := gu_escalation_reported g |}.
Definition with_sent (v : two (option Kind)) (g : Guardian) : Guardian := {|
  gu_sid := gu_sid g; gu_watch := gu_watch g; gu_channels := gu_channels g;
  gu_generation := gu_generation g; gu_hello := gu_hello g; gu_started := gu_started g;
  gu_admitted := gu_admitted g; gu_granted := gu_granted g; gu_start_error := gu_start_error g;
  gu_control := gu_control g; gu_sent := v; gu_retiring := gu_retiring g; gu_reaped := gu_reaped g;
  gu_observed := gu_observed g; gu_pending_exit := gu_pending_exit g; gu_fault := gu_fault g;
  gu_pending_fault := gu_pending_fault g; gu_term_applied := gu_term_applied g;
  gu_escalation_applied := gu_escalation_applied g;
  gu_escalation_reported := gu_escalation_reported g |}.
Definition with_retiring (v : two bool) (g : Guardian) : Guardian := {|
  gu_sid := gu_sid g; gu_watch := gu_watch g; gu_channels := gu_channels g;
  gu_generation := gu_generation g; gu_hello := gu_hello g; gu_started := gu_started g;
  gu_admitted := gu_admitted g; gu_granted := gu_granted g; gu_start_error := gu_start_error g;
  gu_control := gu_control g; gu_sent := gu_sent g; gu_retiring := v; gu_reaped := gu_reaped g;
  gu_observed := gu_observed g; gu_pending_exit := gu_pending_exit g; gu_fault := gu_fault g;
  gu_pending_fault := gu_pending_fault g; gu_term_applied := gu_term_applied g;
  gu_escalation_applied := gu_escalation_applied g;
  gu_escalation_reported := gu_escalation_reported g |}.
Definition with_reaped (v : bool) (g : Guardian) : Guardian := {|
  gu_sid := gu_sid g; gu_watch := gu_watch g; gu_channels := gu_channels g;
  gu_generation := gu_generation g; gu_hello := gu_hello g; gu_started := gu_started g;
  gu_admitted := gu_admitted g; gu_granted := gu_granted g; gu_start_error := gu_start_error g;
  gu_control := gu_control g; gu_sent := gu_sent g; gu_retiring := gu_retiring g; gu_reaped := v;
  gu_observed := gu_observed g; gu_pending_exit := gu_pending_exit g; gu_fault := gu_fault g;
  gu_pending_fault := gu_pending_fault g; gu_term_applied := gu_term_applied g;
  gu_escalation_applied := gu_escalation_applied g;
  gu_escalation_reported := gu_escalation_reported g |}.
Definition with_observed (v : option Z) (g : Guardian) : Guardian := {|
  gu_sid := gu_sid g; gu_watch := gu_watch g; gu_channels := gu_channels g;
  gu_generation := gu_generation g; gu_hello := gu_hello g; gu_started := gu_started g;
  gu_admitted := gu_admitted g; gu_granted := gu_granted g; gu_start_error := gu_start_error g;
  gu_control := gu_control g; gu_sent := gu_sent g; gu_retiring := gu_retiring g;
  gu_reaped := gu_reaped g; gu_observed := v; gu_pending_exit := gu_pending_exit g;
  gu_fault := gu_fault g; gu_pending_fault := gu_pending_fault g;
  gu_term_applied := gu_term_applied g; gu_escalation_applied := gu_escalation_applied g;
  gu_escalation_reported := gu_escalation_reported g |}.
Definition with_pending_exit (v : option Z) (g : Guardian) : Guardian := {|
  gu_sid := gu_sid g; gu_watch := gu_watch g; gu_channels := gu_channels g;
  gu_generation := gu_generation g; gu_hello := gu_hello g; gu_started := gu_started g;
  gu_admitted := gu_admitted g; gu_granted := gu_granted g; gu_start_error := gu_start_error g;
  gu_control := gu_control g; gu_sent := gu_sent g; gu_retiring := gu_retiring g;
  gu_reaped := gu_reaped g; gu_observed := gu_observed g; gu_pending_exit := v;
  gu_fault := gu_fault g; gu_pending_fault := gu_pending_fault g;
  gu_term_applied := gu_term_applied g; gu_escalation_applied := gu_escalation_applied g;
  gu_escalation_reported := gu_escalation_reported g |}.
Definition with_fault (v : bool) (g : Guardian) : Guardian := {|
  gu_sid := gu_sid g; gu_watch := gu_watch g; gu_channels := gu_channels g;
  gu_generation := gu_generation g; gu_hello := gu_hello g; gu_started := gu_started g;
  gu_admitted := gu_admitted g; gu_granted := gu_granted g; gu_start_error := gu_start_error g;
  gu_control := gu_control g; gu_sent := gu_sent g; gu_retiring := gu_retiring g;
  gu_reaped := gu_reaped g; gu_observed := gu_observed g; gu_pending_exit := gu_pending_exit g;
  gu_fault := v; gu_pending_fault := gu_pending_fault g; gu_term_applied := gu_term_applied g;
  gu_escalation_applied := gu_escalation_applied g;
  gu_escalation_reported := gu_escalation_reported g |}.
Definition with_pending_fault (v : bool) (g : Guardian) : Guardian := {|
  gu_sid := gu_sid g; gu_watch := gu_watch g; gu_channels := gu_channels g;
  gu_generation := gu_generation g; gu_hello := gu_hello g; gu_started := gu_started g;
  gu_admitted := gu_admitted g; gu_granted := gu_granted g; gu_start_error := gu_start_error g;
  gu_control := gu_control g; gu_sent := gu_sent g; gu_retiring := gu_retiring g;
  gu_reaped := gu_reaped g; gu_observed := gu_observed g; gu_pending_exit := gu_pending_exit g;
  gu_fault := gu_fault g; gu_pending_fault := v; gu_term_applied := gu_term_applied g;
  gu_escalation_applied := gu_escalation_applied g;
  gu_escalation_reported := gu_escalation_reported g |}.
Definition with_term_applied (v : bool) (g : Guardian) : Guardian := {|
  gu_sid := gu_sid g; gu_watch := gu_watch g; gu_channels := gu_channels g;
  gu_generation := gu_generation g; gu_hello := gu_hello g; gu_started := gu_started g;
  gu_admitted := gu_admitted g; gu_granted := gu_granted g; gu_start_error := gu_start_error g;
  gu_control := gu_control g; gu_sent := gu_sent g; gu_retiring := gu_retiring g;
  gu_reaped := gu_reaped g; gu_observed := gu_observed g; gu_pending_exit := gu_pending_exit g;
  gu_fault := gu_fault g; gu_pending_fault := gu_pending_fault g; gu_term_applied := v;
  gu_escalation_applied := gu_escalation_applied g;
  gu_escalation_reported := gu_escalation_reported g |}.
Definition with_escalation_applied (v : bool) (g : Guardian) : Guardian := {|
  gu_sid := gu_sid g; gu_watch := gu_watch g; gu_channels := gu_channels g;
  gu_generation := gu_generation g; gu_hello := gu_hello g; gu_started := gu_started g;
  gu_admitted := gu_admitted g; gu_granted := gu_granted g; gu_start_error := gu_start_error g;
  gu_control := gu_control g; gu_sent := gu_sent g; gu_retiring := gu_retiring g;
  gu_reaped := gu_reaped g; gu_observed := gu_observed g; gu_pending_exit := gu_pending_exit g;
  gu_fault := gu_fault g; gu_pending_fault := gu_pending_fault g;
  gu_term_applied := gu_term_applied g; gu_escalation_applied := v;
  gu_escalation_reported := gu_escalation_reported g |}.
Definition with_escalation_reported (v : bool) (g : Guardian) : Guardian := {|
  gu_sid := gu_sid g; gu_watch := gu_watch g; gu_channels := gu_channels g;
  gu_generation := gu_generation g; gu_hello := gu_hello g; gu_started := gu_started g;
  gu_admitted := gu_admitted g; gu_granted := gu_granted g; gu_start_error := gu_start_error g;
  gu_control := gu_control g; gu_sent := gu_sent g; gu_retiring := gu_retiring g;
  gu_reaped := gu_reaped g; gu_observed := gu_observed g; gu_pending_exit := gu_pending_exit g;
  gu_fault := gu_fault g; gu_pending_fault := gu_pending_fault g;
  gu_term_applied := gu_term_applied g; gu_escalation_applied := gu_escalation_applied g;
  gu_escalation_reported := v |}.

(** [Guardian::new]; the exit watch may be unavailable. *)
Definition Guardian_new (sid generation : Z) (watch : bool) (channels : two Channel) : Guardian := {|
  gu_sid := sid; gu_watch := watch;
  gu_channels := Two (Some (on_sentinel channels)) (Some (on_helper channels));
  gu_generation := generation; gu_hello := both None; gu_started := None; gu_admitted := false;
  gu_granted := false; gu_start_error := None; gu_control := None; gu_sent := both None;
  gu_retiring := both false; gu_reaped := false; gu_observed := None; gu_pending_exit := None;
  gu_fault := false; gu_pending_fault := false; gu_term_applied := false;
  gu_escalation_applied := false; gu_escalation_reported := false |}.

(** ** Casts and process statuses *)

Definition as_u32 (v : Z) : Z := v mod 4294967296.
Definition as_i32 (v : Z) : Z := if v mod 4294967296 <? 2147483648 then v mod 4294967296
                                 else v mod 4294967296 - 4294967296.

Definition WIFEXITED (status : Z) : bool := Z.land status 127 =? 0.
Definition WIFSIGNALED (status : Z) : bool :=
  negb (Z.land status 127 =? 0) && negb (Z.land status 127 =? 127).
Definition SIGKILL : Z := 9.
Definition SIGTERM : Z := 15.

(** [ExitStatusExt] of [ExitStatus::from_raw(status)]. *)
Definition status_code (status : Z) : option Z :=
  if WIFEXITED status then Some (Z.land (Z.shiftr status 8) 255) else None.
Definition status_signal (status : Z) : option Z :=
  if WIFSIGNALED status then Some (Z.land status 127) else None.

(** ** Requests and facts *)

(** [id] *)
Definition workload_id (g : Guardian) : Z :=
  match gu_started g with Some values => as_u32 (nth 0 values 0) | None => 0 end.

Definition request (kind : Kind) (g : Guardian) : Guardian :=
  match gu_control g with
  | Some current => if kind_code current <? kind_code kind then with_control (Some kind) g else g
  | None => with_control (Some kind) g
  end.

Definition mark_fault (g : Guardian) : Guardian :=
  request Kind_Abort
    (if gu_fault g then g else with_pending_fault true (with_fault true g)).

Definition take_exit (g : Guardian) : Guardian * option Z := (with_pending_exit None g, gu_pending_exit g).
Definition take_escalation_applied (g : Guardian) : Guardian * bool :=
  (with_escalation_applied false g, gu_escalation_applied g).
Definition take_term_applied (g : Guardian) : Guardian * bool :=
  (with_term_applied false g, gu_term_applied g).
Definition take_fault (g : Guardian) : Guardian * bool := (with_pending_fault false g, gu_pending_fault g).

Definition complete (g : Guardian) : bool :=
  gu_reaped g && is_none (on_sentinel (gu_channels g)) && is_none (on_helper (gu_channels g)).
Definition cleanup_succeeded (g : Guardian) : bool := complete g && negb (gu_fault g).
Definition needs_poll (g : Guardian) : bool := negb (gu_reaped g) && negb (gu_watch g).

(** ** Records *)

Definition value (n : nat) (f : Frame) : Z := nth n (fr_values f) 0.
Definition differs (old : option (list Z)) (f : Frame) : bool :=
  match old with Some old => bool_decide (old ≠ fr_values f) | None => false end.

Definition receive_frame (i : side) (f : Frame) (g : Guardian) : Guardian :=
  let sid := gu_sid g in
  match fr_kind f with
  | Kind_Hello =>
    if (value 0 f =? sid) && (0 <? value 1 f) && negb (value 1 f =? sid)
       && (value 2 f =? 0) && (value 3 f =? 0)
    then
      if differs (at_side i (gu_hello g)) f || differs (at_side (other i) (gu_hello g)) f
      then mark_fault g
      else with_hello (put_side i (Some (fr_values f)) (gu_hello g)) g
    else mark_fault g
  | Kind_Started | Kind_Admitted =>
    if (0 <? value 0 f) && negb (value 0 f =? sid) && negb (value 0 f =? value 1 f)
       && (value 2 f =? sid) && (value 3 f =? sid)
       && match at_side i (gu_hello g) with Some hello => nth 1 hello 0 =? value 1 f | None => false end
    then
      if (bool_decide (fr_kind f = Kind_Started) && bool_decide (i ≠ Helper))
         || (bool_decide (fr_kind f = Kind_Admitted) && bool_decide (i ≠ Sentinel))
         || differs (gu_started g) f
      then mark_fault g
      else
        let g := with_started (Some (fr_values f)) g in
        if bool_decide (fr_kind f = Kind_Admitted) then with_admitted true g else g
    else mark_fault g
  | Kind_WorkloadExit =>
    if (value 1 f =? as_i32 (workload_id g)) && negb (workload_id g =? 0)
       && (WIFEXITED (value 0 f) || WIFSIGNALED (value 0 f))
    then
      match gu_observed g with
      | Some old => if old =? value 0 f then g else mark_fault g
      | None => with_pending_exit (Some (value 0 f)) (with_observed (Some (value 0 f)) g)
      end
    else mark_fault g
  | Kind_StartFailed =>
    if negb (gu_admitted g)
    then with_start_error (Some (creation_error (from_raw_os_error (value 0 f)))) g
    else mark_fault g
  | Kind_SignalApplied =>
    if bool_decide (i = Helper) && negb (workload_id g =? 0) && is_some (gu_control g)
       && bool_decide (fr_values f = [as_i32 (workload_id g); SIGTERM; 7; 0])
    then with_term_applied true g else mark_fault g
  | Kind_Escalated =>
    if bool_decide (i = Helper) && negb (workload_id g =? 0)
       && bool_decide (fr_values f = [as_i32 (workload_id g); SIGKILL; 0; 0])
    then if gu_escalation_reported g then g
         else with_escalation_reported true (with_escalation_applied true g)
    else mark_fault g
  | Kind_Fault => mark_fault g
  | Kind_Retiring =>
    if (0 <? value 0 f) && negb (value 0 f =? as_i32 (workload_id g))
       && (bool_decide (i = Helper) || (value 0 f =? sid))
    then with_retiring (put_side i true (gu_retiring g)) g
    else mark_fault g
  | Kind_Successor =>
    if (0 <? value 0 f) && (0 <? value 1 f) && (value 2 f =? sid) then g else mark_fault g
  | _ => mark_fault g
  end.

Definition channel_ended (i : side) (g : Guardian) : Guardian :=
  let g := with_channels (put_side i None (gu_channels g)) g in
  if negb (at_side i (gu_retiring g)) && is_none (gu_start_error g) then mark_fault g else g.

(** ** Service

    What the sockets and the child answer during one call. *)

Record answers := {
  an_writes : two (list answer);
  an_reads : two (list (result ErrorKind (list Z)));
  an_wait : result () bool
}.

(** A record of [kind] for this launch, without values. *)
Definition order (kind : Kind) (g : Guardian) : Frame :=
  {| fr_kind := kind; fr_generation := gu_generation g; fr_values := [0; 0; 0; 0] |}.

Definition put_channel (i : side) (c : Channel) (g : Guardian) : Guardian :=
  with_channels (put_side i (Some c) (gu_channels g)) g.

(** Queue the control wanted, unless it was queued before. *)
Definition send_control (i : side) (g : Guardian) : Guardian :=
  match at_side i (gu_channels g), gu_control g with
  | Some channel, Some kind =>
    if bool_decide (at_side i (gu_sent g) ≠ Some kind)
    then match enqueue (order kind g) channel with
      | (channel, Ok _) => with_sent (put_side i (Some kind) (gu_sent g)) (put_channel i channel g)
      | (channel, Err _) => put_channel i channel g
      end
    else g
  | _, _ => g
  end.

Definition flush_side (i : side) (writes : list answer) (g : Guardian) : Guardian :=
  match at_side i (gu_channels g) with
  | Some channel => let '(channel, _, _) := flush writes channel in put_channel i channel g
  | None => g
  end.

(** The reading loop, of at most eight records; a socket with nothing more to
    say answers [WouldBlock]. *)
Fixpoint receive_side (n : nat) (i : side) (reads : list (result ErrorKind (list Z))) (g : Guardian)
    : Guardian :=
  match n with
  | O => g
  | S n =>
    match at_side i (gu_channels g) with
    | None => g
    | Some channel =>
      let '(channel, message) := receive (hd (Err WouldBlock) reads) channel in
      let g := put_channel i channel g in
      match message with
      | Ok (Some frame) => receive_side n i (tl reads) (receive_frame i frame g)
      | Ok None => if ch_eof channel then channel_ended i g else g
      | Err error =>
        let g := mark_fault g in
        if bool_decide (error ≠ InvalidData) then channel_ended i g else g
      end
    end
  end.

Definition service_side (a : answers) (i : side) (g : Guardian) : Guardian :=
  receive_side 8 i (at_side i (an_reads a)) (flush_side i (at_side i (an_writes a)) (send_control i g)).

Definition reap_sentinel (wait : result () bool) (g : Guardian) : Guardian :=
  if gu_reaped g then g
  else match wait with
  | Ok true => with_watch false (with_reaped true g)
  | Ok false => g
  | Err _ =>
    let g := with_watch false (mark_fault g) in
    if is_none (on_sentinel (gu_channels g)) && is_none (on_helper (gu_channels g))
    then with_reaped true g else g
  end.

Definition service (a : answers) (g : Guardian) : Guardian :=
  reap_sentinel (an_wait a) (service_side a Helper (service_side a Sentinel g)).

(** ** Admission

    One turn of the loop of [admit]: the result, or [None] to go on. *)

Definition grant (i : side) (g : Guardian) : Guardian :=
  match at_side i (gu_channels g) with
  | Some channel =>
    match enqueue (order Kind_Execute g) channel with
    | (channel, Ok _) => put_channel i channel g
    | (channel, Err _) => with_start_error (Some ProcessError_Io) (put_channel i channel g)
    end
  | None => g
  end.

Definition admit_turn (a : answers) (late : bool) (g : Guardian)
    : Guardian * option (result ProcessError ()) :=
  let g := service a g in
  match gu_start_error g with
  | Some error => (g, Some (Err error))
  | None =>
    if gu_fault g then (g, Some (Err ProcessError_Internal))
    else if gu_admitted g then (g, Some (Ok tt))
    else if negb (gu_granted g) && is_some (on_sentinel (gu_hello g)) && is_some (on_helper (gu_hello g))
    then (with_granted true (grant Helper (grant Sentinel g)), None)
    else if late then (g, Some (Err ProcessError_Timeout))
    else (g, None)
  end.

(** [cleanup]: abort, then serve until everything has ended. *)
Fixpoint serve (turns : list answers) (g : Guardian) : Guardian :=
  if complete g then g
  else match turns with [] => g | a :: turns => serve turns (service a g) end.
Definition cleanup (turns : list answers) (g : Guardian) : Guardian := serve turns (request Kind_Abort g).

(** [admit]: on failure the guardian is cleaned up before the error is returned. *)
Fixpoint admit_workload (turns : list (answers * bool)) (cleaning : list answers) (g : Guardian)
    : Guardian * option (result ProcessError ()) :=
  match turns with
  | [] => (g, None)
  | (a, late) :: turns =>
    match admit_turn a late g with
    | (g, None) => admit_workload turns cleaning g
    | (g, Some (Ok _)) => (g, Some (Ok tt))
    | (g, Some (Err e)) => (cleanup cleaning g, Some (Err e))
    end
  end.

(** ** Histories

    The operations of the owner, with what it took. *)

Record World := {
  w_guardian : Guardian;
  w_exits : list Z;
  w_faults : nat;
  w_escalations : nat
}.

Definition World_new (g : Guardian) : World :=
  {| w_guardian := g; w_exits := []; w_faults := 0; w_escalations := 0 |}.

Inductive op :=
  | Op_request (kind : Kind)
  | Op_service (a : answers)
  | Op_admit (a : answers) (late : bool)
  | Op_take_exit | Op_take_fault | Op_take_escalation | Op_take_term.

(** The owner asks for nothing else. *)
Definition is_order (kind : Kind) : bool :=
  match kind with Kind_Terminate | Kind_Kill | Kind_Release | Kind_Abort => true | _ => false end.

Definition on_guardian (f : Guardian → Guardian) (w : World) : World :=
  {| w_guardian := f (w_guardian w); w_exits := w_exits w; w_faults := w_faults w;
     w_escalations := w_escalations w |}.

Definition perform (o : op) (w : World) : World :=
  match o with
  | Op_request kind => if is_order kind then on_guardian (request kind) w else w
  | Op_service a => on_guardian (service a) w
  | Op_admit a late => on_guardian (fst ∘ admit_turn a late) w
  | Op_take_exit =>
    let (g, e) := take_exit (w_guardian w) in
    {| w_guardian := g; w_exits := w_exits w ++ option_list e; w_faults := w_faults w;
       w_escalations := w_escalations w |}
  | Op_take_fault =>
    let (g, b) := take_fault (w_guardian w) in
    {| w_guardian := g; w_exits := w_exits w; w_faults := w_faults w + Nat.b2n b;
       w_escalations := w_escalations w |}
  | Op_take_escalation =>
    let (g, b) := take_escalation_applied (w_guardian w) in
    {| w_guardian := g; w_exits := w_exits w; w_faults := w_faults w;
       w_escalations := w_escalations w + Nat.b2n b |}
  | Op_take_term => on_guardian (fst ∘ take_term_applied) w
  end.
Definition performs (os : list op) (w : World) : World := foldl (flip perform) w os.

(** ** How a guardian evolves *)

(** The strength of a control, zero for none. *)
Definition strength (k : option Kind) : Z := match k with Some k => kind_code k | None => 0 end.

(** A fact that is set once, with the copy that waits to be taken. *)
Definition once {A} (seen pending seen' pending' : option A) : Prop :=
  seen' = seen ∧ pending' = pending ∨ seen = None ∧ is_Some seen' ∧ pending' = seen'.
Definition flagged (b : bool) : option () := if b then Some () else None.

Record evolves (g g' : Guardian) : Prop := {
  ev_sid : gu_sid g' = gu_sid g;
  ev_control : strength (gu_control g) <= strength (gu_control g');
  ev_sent : ∀ i, strength (at_side i (gu_sent g)) <= strength (at_side i (gu_sent g'));
  ev_fault : once (flagged (gu_fault g)) (flagged (gu_pending_fault g))
                  (flagged (gu_fault g')) (flagged (gu_pending_fault g'));
  ev_exit : once (gu_observed g) (gu_pending_exit g) (gu_observed g') (gu_pending_exit g');
  ev_escalation : once (flagged (gu_escalation_reported g)) (flagged (gu_escalation_applied g))
                       (flagged (gu_escalation_reported g')) (flagged (gu_escalation_applied g'));
  ev_hello : ∀ i v, at_side i (gu_hello g) = Some v → at_side i (gu_hello g') = Some v;
  ev_started : ∀ v, gu_started g = Some v → gu_started g' = Some v;
  ev_admitted : gu_admitted g = true → gu_admitted g' = true;
  ev_closed : ∀ i, at_side i (gu_channels g) = None → at_side i (gu_channels g') = None;
  ev_reaped : gu_reaped g = true → gu_reaped g' = true;
  ev_retiring : ∀ i, at_side i (gu_retiring g) = true → at_side i (gu_retiring g') = true;
  ev_start_error : is_Some (gu_start_error g) → is_Some (gu_start_error g')
}.

Lemma once_refl {A} (seen pending : option A) : once seen pending seen pending.
Proof. by left. Qed.
Lemma once_trans {A} (s p s' p' s'' p'' : option A) :
  once s p s' p' → once s' p' s'' p'' → once s p s'' p''.
Proof. unfold once. intros [[-> ->]|(-> & [x ->] & ->)] [[-> ->]|(? & [y ->] & ->)]; naive_solver. Qed.

Lemma evolves_refl g : evolves g g.
Proof. split; try done; by apply once_refl. Qed.
Lemma evolves_trans g1 g2 g3 : evolves g1 g2 → evolves g2 g3 → evolves g1 g3.
Proof.
  intros [] []. split; intros; try congruence; try (etrans; eauto; done); try (eapply once_trans; done); auto.
Qed.

(** ** The invariant *)

(** What [Started] and [Admitted] establish. *)
Definition identified (sid : Z) (said : two (option (list Z))) (v : list Z) : Prop :=
  0 < nth 0 v 0 ∧ nth 0 v 0 ≠ sid
  ∧ ∃ i hello, at_side i said = Some hello ∧ nth 1 hello 0 = nth 1 v 0.

Record ok (g : Guardian) : Prop := {
  ok_order : ∀ k, gu_control g = Some k → is_order k = true;
  ok_sent : ∀ i, strength (at_side i (gu_sent g)) <= strength (gu_control g);
  ok_fault : gu_fault g = true → gu_control g = Some Kind_Abort;
  ok_exit : ∀ s, gu_observed g = Some s →
    (WIFEXITED s || WIFSIGNALED s) = true ∧ is_Some (gu_started g);
  ok_started : ∀ v, gu_started g = Some v → identified (gu_sid g) (gu_hello g) v;
  ok_admitted : gu_admitted g = true → is_Some (gu_started g);
  ok_hello : ∀ v v', on_sentinel (gu_hello g) = Some v → on_helper (gu_hello g) = Some v' → v = v';
  ok_ended : ∀ i, at_side i (gu_channels g) = None →
    at_side i (gu_retiring g) = true ∨ is_Some (gu_start_error g) ∨ gu_fault g = true
}.

(** A step of the guardian keeps the invariant, and only moves forward. *)
Definition forward (g g' : Guardian) : Prop := ok g' ∧ evolves g g'.

Lemma forward_refl g : ok g → forward g g.
Proof. split; [done | apply evolves_refl]. Qed.
Lemma forward_then g g' g'' : forward g g' → (ok g' → forward g' g'') → forward g g''.
Proof. intros [H1 H2] H. destruct (H H1) as [H3 H4]. split; [done | by eapply evolves_trans]. Qed.

Lemma at_put {A} i j (a : A) t : at_side j (put_side i a t) = if decide (i = j) then a else at_side j t.
Proof. by destruct i, j. Qed.

(** The fields of a step that changes a few of them. *)
Ltac forward_fields :=
  split; split; cbn; intros; rewrite ?at_put in *;
  repeat case_decide; subst; auto using once_refl; try done; try lia.

Lemma request_forward kind g : is_order kind = true → ok g → forward g (request kind g).
Proof.
  intros Hk Hok. unfold request. destruct (gu_control g) as [k|] eqn:Ek; [destruct (_ <? _) eqn:El|].
  - to_props. destruct Hok. rewrite Ek in *. simpl in *. forward_fields; rewrite ?Ek; simpl; try lia; try congruence.
    + specialize (ok_sent0 i). lia.
    + specialize (ok_fault0 H). simplify_eq. by destruct kind.
  - by apply forward_refl.
  - destruct Hok. rewrite Ek in *. forward_fields; rewrite ?Ek; simpl; try congruence.
    + etrans; [apply ok_sent0|]. simpl. pose proof (kind_code_range kind). lia.
    + naive_solver.
    + pose proof (kind_code_range kind). lia.
Qed.

Lemma mark_fault_forward g : ok g → forward g (mark_fault g) ∧ gu_fault (mark_fault g) = true.
Proof.
  intros Hok. unfold mark_fault. destruct (gu_fault g) eqn:Ef.
  { pose proof Hok as []. unfold request. rewrite (ok_fault0 Ef). simpl. split; [by apply forward_refl | done]. }
  (* the flags alone would break the invariant, so the request is done first *)
  destruct (request_forward Kind_Abort g eq_refl Hok) as [[] []].
  assert (Hs : gu_control (request Kind_Abort g) = Some Kind_Abort).
  { unfold request in *. destruct (gu_control g) as [k|] eqn:Ek; [|done].
    pose proof (ok_order _ Hok k Ek). destruct k; try done. }
  assert (E : request Kind_Abort (with_pending_fault true (with_fault true g))
              = with_pending_fault true (with_fault true (request Kind_Abort g))).
  { unfold request. cbn. by repeat case_match. }
  rewrite E. split; [|done]. split; split; cbn; auto.
  right. rewrite Ef. simpl. eauto.
Qed.

(** ** Every step goes forward *)

Lemma fault_forward g : ok g → forward g (mark_fault g).
Proof. intros H. apply (mark_fault_forward g H). Qed.

Lemma close_forward i g :
  ok g → at_side i (gu_retiring g) = true ∨ is_Some (gu_start_error g) ∨ gu_fault g = true →
  forward g (with_channels (put_side i None (gu_channels g)) g).
Proof. intros [] Hw. forward_fields. Qed.

Lemma channel_ended_forward i g : ok g → forward g (channel_ended i g).
Proof.
  intros Hok. unfold channel_ended. cbn [gu_retiring gu_start_error with_channels].
  destruct (_ && _) eqn:Ew.
  - assert (E : mark_fault (with_channels (put_side i None (gu_channels g)) g)
                = with_channels (put_side i None (gu_channels (mark_fault g))) (mark_fault g)).
    { unfold mark_fault, request. destruct g as [????????? ctl ????? flt ????].
      by destruct flt, ctl as [[]|]. }
    rewrite E. destruct (mark_fault_forward g Hok) as [Hf Ht].
    eapply forward_then; [done|]. intros. apply close_forward; auto.
  - apply close_forward; [done|]. apply andb_false_iff in Ew as [Hr|He]; to_props; auto.
Qed.

Lemma put_channel_forward i c g :
  is_Some (at_side i (gu_channels g)) → ok g → forward g (put_channel i c g).
Proof. intros [c' Hc] []. unfold put_channel. forward_fields. congruence. Qed.

Lemma flush_forward i writes g : ok g → forward g (flush_side i writes g).
Proof.
  intros Hok. unfold flush_side. destruct (at_side i (gu_channels g)) eqn:Ec; [|by apply forward_refl].
  destruct (flush writes c) as [[c' r] w]. by apply put_channel_forward.
Qed.

Lemma send_forward i g : ok g → forward g (send_control i g).
Proof.
  intros Hok. unfold send_control. destruct (at_side i (gu_channels g)) as [c|] eqn:Ec; [|by apply forward_refl].
  destruct (gu_control g) as [k|] eqn:Ek; [|by apply forward_refl].
  case_bool_decide; [|by apply forward_refl]. destruct (enqueue _ c) as [c' [[]|e]]; [|by apply put_channel_forward].
  eapply forward_then; [by apply (put_channel_forward i c')|]. intros [].
  unfold put_channel in *. cbn in *. rewrite Ek in *. forward_fields; rewrite ?Ek in *; try apply ok_sent0; auto.
  - lia.
  - apply ok_ended0. rewrite at_put. by case_decide.
Qed.

Lemma hello_forward i f g :
  ok g → differs (at_side i (gu_hello g)) f = false → differs (at_side (other i) (gu_hello g)) f = false →
  forward g (with_hello (put_side i (Some (fr_values f)) (gu_hello g)) g).
Proof.
  intros [] H1 H2.
  assert (Hsame : ∀ v, at_side i (gu_hello g) = Some v → v = fr_values f)
    by (intros v Hv; rewrite Hv in H1; simpl in H1; by to_props).
  assert (Hsame' : ∀ v, at_side (other i) (gu_hello g) = Some v → v = fr_values f)
    by (intros v Hv; rewrite Hv in H2; simpl in H2; by to_props).
  forward_fields.
  - destruct (ok_started0 v H) as (? & ? & j & h & Hj & Hn). split_and!; [done..|].
    exists j, h. rewrite at_put. split; [|done]. case_decide; [|done]. subst j. by rewrite (Hsame h Hj).
  - destruct i; simpl in *; simplify_eq; [symmetry|]; auto.
  - by rewrite (Hsame v).
Qed.

Lemma started_forward i f (admitted : bool) g :
  ok g → 0 < value 0 f → value 0 f ≠ gu_sid g →
  (∃ hello, at_side i (gu_hello g) = Some hello ∧ nth 1 hello 0 = value 1 f) →
  differs (gu_started g) f = false →
  forward g (let g := with_started (Some (fr_values f)) g in if admitted then with_admitted true g else g).
Proof.
  intros [] H0 H1 (h & Hh & Hn) Hd.
  assert (Hsame : ∀ v, gu_started g = Some v → v = fr_values f)
    by (intros v Hv; rewrite Hv in Hd; simpl in Hd; by to_props).
  assert (Hid : identified (gu_sid g) (gu_hello g) (fr_values f)) by (unfold identified; eauto 6).
  destruct admitted; forward_fields; eauto; simplify_eq; try done.
  all: first [ by split; [apply (ok_exit0 s)|eauto] | by rewrite (Hsame v) | idtac ].
Qed.

Lemma exit_forward s g :
  ok g → is_Some (gu_started g) → (WIFEXITED s || WIFSIGNALED s) = true → gu_observed g = None →
  forward g (with_pending_exit (Some s) (with_observed (Some s) g)).
Proof.
  intros [] Hs Hw Hn. forward_fields; simplify_eq; auto. right. rewrite Hn. eauto.
Qed.

Lemma term_forward g : ok g → forward g (with_term_applied true g).
Proof. intros []. forward_fields. Qed.
Lemma retiring_forward i g : ok g → forward g (with_retiring (put_side i true (gu_retiring g)) g).
Proof. intros []. forward_fields. Qed.
Lemma start_error_forward e g : ok g → forward g (with_start_error (Some e) g).
Proof. intros []. forward_fields; eauto. Qed.
Lemma escalation_forward g :
  ok g → gu_escalation_reported g = false →
  forward g (with_escalation_reported true (with_escalation_applied true g)).
Proof. intros [] He. forward_fields. right. rewrite He. simpl. eauto. Qed.
Lemma reaped_forward g : ok g → forward g (with_reaped true g).
Proof. intros []. forward_fields. Qed.
Lemma watch_forward g : ok g → forward g (with_watch false g).
Proof. intros []. forward_fields. Qed.
Lemma granted_forward g : ok g → forward g (with_granted true g).
Proof. intros []. forward_fields. Qed.

Lemma workload_started g : (workload_id g =? 0) = false → is_Some (gu_started g).
Proof. unfold workload_id. destruct (gu_started g); [eauto | done]. Qed.

Lemma receive_frame_forward i f g : ok g → forward g (receive_frame i f g).
Proof.
  intros Hok. pose proof (fault_forward g Hok) as Hf. pose proof (forward_refl g Hok) as Hr.
  unfold receive_frame. destruct (fr_kind f) eqn:Ek; try exact Hf.
  - (* hello *)
    destruct (_ && _); [|done]. destruct (_ || _) eqn:Ed; [done|]. to_props. by apply hello_forward.
  - (* started *)
    destruct (_ && _) eqn:Ec; [|done]. destruct (_ || _) eqn:Ed; [done|]. to_props.
    case_match; [to_props|done]. apply (started_forward i f (bool_decide (Kind_Started = Kind_Admitted))); eauto.
  - (* admitted *)
    destruct (_ && _) eqn:Ec; [|done]. destruct (_ || _) eqn:Ed; [done|]. to_props.
    case_match; [to_props|done]. apply (started_forward i f (bool_decide (Kind_Admitted = Kind_Admitted))); eauto.
  - (* exit *)
    destruct (_ && _) eqn:Ec; [|done]. apply andb_true_iff in Ec as [Ec Hw]. to_props.
    destruct (gu_observed g) eqn:Eo; [by case_match|].
    apply exit_forward; auto. apply workload_started. by apply Z.eqb_neq.
  - destruct (negb _); [by apply start_error_forward | done].
  - destruct (_ && _); [by apply retiring_forward | done].
  - by case_match.
  - destruct (_ && _); [by apply term_forward | done].
  - destruct (_ && _); [|done]. destruct (gu_escalation_reported g) eqn:Ee; [done|]. by apply escalation_forward.
Qed.

Lemma receive_side_forward n i reads : ∀ g, ok g → forward g (receive_side n i reads g).
Proof.
  revert reads. induction n as [|n IH]; intros reads g Hok; [by apply forward_refl|]. cbn [receive_side].
  destruct (at_side i (gu_channels g)) as [c|] eqn:Ec; [|by apply forward_refl].
  destruct (receive _ c) as [c' m].
  eapply forward_then; [by apply (put_channel_forward i c')|]. intros Hok'.
  destruct m as [[f|]|e].
  - eapply forward_then; [by apply receive_frame_forward|]. auto.
  - destruct (ch_eof c'); [by apply channel_ended_forward | by apply forward_refl].
  - eapply forward_then; [by apply fault_forward|]. intros Hok''.
    case_bool_decide; [by apply channel_ended_forward | by apply forward_refl].
Qed.

Lemma service_forward a g : ok g → forward g (service a g).
Proof.
  assert (Hside : ∀ i g, ok g → forward g (service_side a i g)).
  { intros i g' Hok. unfold service_side. eapply forward_then; [by apply send_forward|]. intros H1.
    eapply forward_then; [by apply flush_forward|]. intros H2. by apply receive_side_forward. }
  intros Hok. unfold service. eapply forward_then; [by apply Hside|]. intros H1.
  eapply forward_then; [by apply Hside|]. intros H2. unfold reap_sentinel.
  destruct (gu_reaped _); [by apply forward_refl|]. destruct (an_wait a) as [[]|].
  - eapply forward_then; [by apply reaped_forward | by apply watch_forward].
  - by apply forward_refl.
  - eapply forward_then; [by apply fault_forward|]. intros H3.
    eapply forward_then; [by apply watch_forward|]. intros H4.
    case_match; [by apply reaped_forward | by apply forward_refl].
Qed.

Lemma grant_forward i g : ok g → forward g (grant i g).
Proof.
  intros Hok. unfold grant. destruct (at_side i (gu_channels g)) as [c|] eqn:Ec; [|by apply forward_refl].
  destruct (enqueue _ c) as [c' [[]|e]]; [by apply put_channel_forward|].
  eapply forward_then; [by apply (put_channel_forward i c')|]. apply start_error_forward.
Qed.

Lemma admit_turn_forward a late g : ok g → forward g (admit_turn a late g).1.
Proof.
  intros Hok. unfold admit_turn. pose proof (service_forward a g Hok) as Hf.
  repeat case_match; simplify_eq/=; try done.
  eapply forward_then; [done|]. intros ?. eapply forward_then; [by apply (grant_forward Sentinel)|]. intros ?.
  eapply forward_then; [by apply (grant_forward Helper)|]. apply granted_forward.
Qed.

Lemma Guardian_new_ok sid generation watch channels : ok (Guardian_new sid generation watch channels).
Proof. split; cbn; try done; by intros []. Qed.

(** ** Room in the channels

    Orders only escalate, so a channel ever holds the grant and at most one
    record of each of the four controls. *)

Definition rung (k : option Kind) : Z :=
  match k with
  | Some Kind_Terminate => 1 | Some Kind_Kill => 2 | Some Kind_Release => 3 | Some Kind_Abort => 4
  | _ => 0
  end.

Record roomy (extra : side → Z) (g : Guardian) : Prop := {
  ro_wire : ∀ i c, at_side i (gu_channels g) = Some c →
    ch_generation c = gu_generation g
    ∧ len (ch_outgoing c) <= extra i + (if gu_granted g then 1 else 0) + rung (at_side i (gu_sent g));
  ro_sent : ∀ i k, at_side i (gu_sent g) = Some k → is_order k = true
}.

Lemma rung_le k : rung k <= 4.
Proof. by destruct k as [[]|]. Qed.

Lemma rung_strict k k' :
  is_order k' = true → (∀ x, k = Some x → is_order x = true) → strength k <= kind_code k' → k ≠ Some k' →
  rung k + 1 <= rung (Some k').
Proof.
  intros H1 H2 H3 H4. destruct k as [x|]; [specialize (H2 x eq_refl)|]; destruct k'; try done;
    destruct x; simpl in *; try done; try lia.
Qed.

(** Steps that leave the wires alone. *)
Definition same_wires (g g' : Guardian) : Prop :=
  gu_sent g' = gu_sent g ∧ gu_granted g' = gu_granted g ∧ gu_generation g' = gu_generation g
  ∧ ∀ i, at_side i (gu_channels g') = at_side i (gu_channels g) ∨ at_side i (gu_channels g') = None.

Lemma same_roomy extra g g' : same_wires g g' → roomy extra g → roomy extra g'.
Proof.
  intros (E1 & E2 & E3 & E4) []. split; rewrite ?E1, ?E2, ?E3; [|done].
  intros i c Hc. destruct (E4 i) as [E|E]; rewrite E in Hc; [auto|done].
Qed.

Lemma same_wires_refl g : same_wires g g.
Proof. split_and!; auto. Qed.
Lemma same_wires_trans g1 g2 g3 : same_wires g1 g2 → same_wires g2 g3 → same_wires g1 g3.
Proof.
  intros (A1 & A2 & A3 & A4) (B1 & B2 & B3 & B4). split_and!; try congruence.
  intros i. destruct (B4 i) as [->|]; auto.
Qed.

Lemma request_wires k g : same_wires g (request k g).
Proof. unfold request. repeat case_match; apply same_wires_refl || (split_and!; auto). Qed.
Lemma mark_fault_wires g : same_wires g (mark_fault g).
Proof.
  unfold mark_fault. eapply same_wires_trans; [|apply request_wires].
  case_match; [apply same_wires_refl | split_and!; auto].
Qed.
Lemma receive_frame_wires i f g : same_wires g (receive_frame i f g).
Proof.
  unfold receive_frame. repeat case_match; try apply mark_fault_wires; try apply same_wires_refl;
    split_and!; cbn; auto.
Qed.
Lemma channel_ended_wires i g : same_wires g (channel_ended i g).
Proof.
  unfold channel_ended. eapply (same_wires_trans _ (with_channels (put_side i None (gu_channels g)) g));
    [|case_match; [apply mark_fault_wires | apply same_wires_refl]].
  split_and!; try done. intros j. cbn. rewrite at_put. case_decide; auto.
Qed.

Lemma put_roomy extra i c c' g :
  at_side i (gu_channels g) = Some c → ch_generation c' = ch_generation c →
  len (ch_outgoing c') <= len (ch_outgoing c) → roomy extra g → roomy extra (put_channel i c' g).
Proof.
  intros Hc Hg Hl []. split; cbn; [|done]. intros j x. rewrite at_put. case_decide.
  - intros [= <-]. subst j. destruct (ro_wire0 i c Hc). split; [congruence|lia].
  - auto.
Qed.

Lemma enqueue_grows f c c' r :
  enqueue f c = (c', r) → ch_generation c' = ch_generation c ∧ len (ch_outgoing c') <= len (ch_outgoing c) + 1.
Proof. unfold enqueue. repeat case_match; intros; simplify_eq/=; split; try done; len_lia. Qed.

Lemma enqueue_fits f c :
  fr_generation f = ch_generation c → len (ch_outgoing c) < QUEUE_RECORDS → is_ok (enqueue f c).2 = true.
Proof.
  intros Hg Hl. unfold enqueue. rewrite Hg, Z.eqb_refl. simpl.
  destruct (existsb _ _); [done|]. destruct (_ =? _) eqn:E; [to_props; lia|done].
Qed.

Lemma flush_loop_shrinks fuel : ∀ a c c' r w,
  flush_loop fuel a c = (c', r, w) →
  ch_generation c' = ch_generation c ∧ len (ch_outgoing c') <= len (ch_outgoing c).
Proof.
  induction fuel as [|fuel IH]; intros a c c' r w; cbn [flush_loop]; [intros; by simplify_eq|].
  destruct (ch_outgoing c) as [|front rest] eqn:Eo; [intros; simplify_eq; by rewrite Eo|].
  destruct (hd _ a) as [n|e].
  - destruct (n =? 0); [intros; simplify_eq; by rewrite Eo|].
    destruct (flush_loop fuel _ _) as [[c1 r1] w1] eqn:E. intros; simplify_eq. apply IH in E as [E1 E2].
    destruct (_ =? FRAME_BYTES); cbn in *; split; try done; len_lia.
  - destruct e; try (intros; simplify_eq; by rewrite Eo). intros E. apply IH in E as [E1 E2]. by rewrite Eo in E2.
Qed.

Lemma receive_wire a c c' r :
  receive a c = (c', r) → ch_generation c' = ch_generation c ∧ ch_outgoing c' = ch_outgoing c.
Proof. unfold receive, finish_receive. repeat (case_match; simplify_eq/=); intros; by simplify_eq/=. Qed.

Lemma send_roomy extra i g : ok g → roomy extra g → roomy extra (send_control i g).
Proof.
  intros Hok Hr. unfold send_control. destruct (at_side i (gu_channels g)) as [c|] eqn:Ec; [|done].
  destruct (gu_control g) as [k|] eqn:Ek; [|done]. case_bool_decide as Hne; [|done].
  destruct (enqueue _ c) as [c' r] eqn:Ee. destruct (enqueue_grows _ _ _ _ Ee) as [Hg Hl].
  assert (Hord : is_order k = true) by by apply (ok_order _ Hok).
  assert (Hstep : rung (at_side i (gu_sent g)) + 1 <= rung (Some k)).
  { apply rung_strict; [done | apply (ro_sent _ _ Hr) | | done].
    pose proof (ok_sent _ Hok i) as H. rewrite Ek in H. done. }
  destruct r as [[]|e].
  - destruct Hr. split; cbn; intros j x; rewrite !at_put; case_decide; subst; auto.
    + intros [= <-]. destruct (ro_wire0 j c Ec). split; [congruence|lia].
    + by intros [= <-].
    + apply ro_sent0.
  - apply (put_roomy extra i c); auto. revert Ee. unfold enqueue. repeat case_match; intros; simplify_eq; done || lia.
Qed.

Lemma flush_roomy extra i a g : roomy extra g → roomy extra (flush_side i a g).
Proof.
  intros Hr. unfold flush_side. destruct (at_side i (gu_channels g)) as [c|] eqn:Ec; [|done].
  destruct (flush a c) as [[c' r] w] eqn:Ef. destruct (flush_loop_shrinks _ _ _ _ _ _ Ef).
  by apply (put_roomy extra i c).
Qed.

Lemma receive_side_roomy extra n i reads : ∀ g, roomy extra g → roomy extra (receive_side n i reads g).
Proof.
  revert reads. induction n as [|n IH]; intros reads g Hr; [done|]. cbn [receive_side].
  destruct (at_side i (gu_channels g)) as [c|] eqn:Ec; [|done].
  destruct (receive _ c) as [c' m] eqn:Er. destruct (receive_wire _ _ _ _ Er) as [E1 E2].
  assert (Hp : roomy extra (put_channel i c' g)) by (apply (put_roomy extra i c); auto; rewrite E2; lia).
  destruct m as [[f|]|e].
  - apply IH. by eapply same_roomy, Hp; apply receive_frame_wires.
  - destruct (ch_eof c'); [|done]. by eapply same_roomy, Hp; apply channel_ended_wires.
  - assert (Hf : roomy extra (mark_fault (put_channel i c' g)))
      by (by eapply same_roomy, Hp; apply mark_fault_wires).
    case_bool_decide; [|done]. by eapply same_roomy, Hf; apply channel_ended_wires.
Qed.

Lemma side_roomy extra a i g : ok g → roomy extra g → roomy extra (service_side a i g).
Proof. intros Hok Hr. apply receive_side_roomy, flush_roomy. by apply send_roomy. Qed.

Lemma side_ok a i g : ok g → ok (service_side a i g).
Proof.
  intros Hok. unfold service_side. apply receive_side_forward.
  apply flush_forward. by apply send_forward.
Qed.

Lemma reap_wires wait g : same_wires g (reap_sentinel wait g).
Proof.
  assert (Hw : ∀ b g, same_wires g (with_watch b g)) by (intros; split_and!; cbn; auto).
  assert (Hr : ∀ b g, same_wires g (with_reaped b g)) by (intros; split_and!; cbn; auto).
  unfold reap_sentinel. destruct (gu_reaped g); [apply same_wires_refl|].
  destruct wait as [[]|]; [eapply same_wires_trans; [apply Hr | apply Hw] | apply same_wires_refl|].
  eapply same_wires_trans; [apply mark_fault_wires|]. eapply same_wires_trans; [apply Hw|].
  case_match; [apply Hr | apply same_wires_refl].
Qed.

Lemma service_roomy extra a g : ok g → roomy extra g → roomy extra (service a g).
Proof.
  intros Hok Hr. unfold service.
  assert (H : roomy extra (service_side a Helper (service_side a Sentinel g)))
    by (apply side_roomy; [by apply side_ok | by apply side_roomy]).
  eapply same_roomy, H. apply reap_wires.
Qed.

Lemma grant_roomy extra i g :
  roomy extra g → roomy (λ j, extra j + if decide (i = j) then 1 else 0) (grant i g).
Proof.
  intros Hr. unfold grant.
  assert (Hmore : roomy (λ j, extra j + if decide (i = j) then 1 else 0) g).
  { destruct Hr. split; [|done]. intros j c Hc. destruct (ro_wire0 j c Hc). split; [done|]. case_decide; lia. }
  destruct (at_side i (gu_channels g)) as [c|] eqn:Ec; [|done].
  destruct (enqueue _ c) as [c' r] eqn:Ee. destruct (enqueue_grows _ _ _ _ Ee) as [Hg Hl].
  assert (Hp : roomy (λ j, extra j + if decide (i = j) then 1 else 0) (put_channel i c' g)).
  { destruct Hr. split; cbn; [|done]. intros j x. rewrite at_put. case_decide.
    - intros [= <-]. subst j. destruct (ro_wire0 i c Ec). split; [congruence|lia].
    - intros Hx. destruct (ro_wire0 j x Hx). split; [done|lia]. }
  destruct r; [done|]. destruct Hp. by split.
Qed.

Lemma grants_roomy g :
  gu_granted g = false → roomy (λ _, 0) g → roomy (λ _, 0) (with_granted true (grant Helper (grant Sentinel g))).
Proof.
  intros Hn Hr. pose proof (grant_roomy _ Helper _ (grant_roomy _ Sentinel _ Hr)) as [Hw Hs].
  split; cbn; [|done]. intros i c Hc. destruct (Hw i c Hc) as [H1 H2]. split; [done|].
  assert (E : gu_granted (grant Helper (grant Sentinel g)) = false)
    by (unfold grant; repeat (case_match; simplify_eq/=; try done)).
  rewrite E in H2. destruct i; simpl in *; lia.
Qed.

Lemma admit_turn_roomy a late g : ok g → roomy (λ _, 0) g → roomy (λ _, 0) (admit_turn a late g).1.
Proof.
  intros Hok Hr. unfold admit_turn. pose proof (service_roomy _ a g Hok Hr) as Hs.
  destruct (gu_start_error _); [done|]. destruct (gu_fault _); [done|]. destruct (gu_admitted _); [done|].
  destruct (_ && _) eqn:Ec; [|by case_match]. to_props. by apply grants_roomy.
Qed.

Lemma Guardian_new_roomy sid generation watch :
  roomy (λ _, 0) (Guardian_new sid generation watch (both (Channel_new generation))).
Proof. split; cbn; [|by intros []]. intros [] c [= <-]; cbn; split; try done; rewrite len_nil; lia. Qed.

(** ** Only a fault changes what is wanted

    Serving the channels leaves the control alone unless it marks a fault. *)

Definition calm (g g' : Guardian) : Prop :=
  gu_fault g' = false → gu_fault g = false ∧ gu_control g' = gu_control g.

Lemma calm_self g : calm g g.
Proof. by intros ?. Qed.
Lemma calm_then g1 g2 g3 : calm g1 g2 → calm g2 g3 → calm g1 g3.
Proof. intros H1 H2 H. destruct (H2 H) as [H3 ->]. auto. Qed.
Lemma mark_fault_calm g : calm g (mark_fault g).
Proof.
  unfold calm, mark_fault, request. destruct g as [????????? ctl ????? flt ????]. by destruct flt, ctl as [[]|].
Qed.
Lemma put_channel_calm i c g : calm g (put_channel i c g).
Proof. by intros ?. Qed.

Lemma receive_frame_calm i f g : calm g (receive_frame i f g).
Proof. unfold receive_frame. repeat case_match; try apply mark_fault_calm; by intros ?. Qed.

Lemma channel_ended_calm i g : calm g (channel_ended i g).
Proof.
  unfold channel_ended. cbn zeta. case_match; [|by intros ?].
  eapply calm_then; [|apply mark_fault_calm]. by intros ?.
Qed.

Lemma receive_side_calm n i reads : ∀ g, calm g (receive_side n i reads g).
Proof.
  revert reads. induction n as [|n IH]; intros reads g; [apply calm_self|]. cbn [receive_side].
  destruct (at_side i (gu_channels g)) as [c|]; [|apply calm_self]. destruct (receive _ c) as [c' m].
  eapply calm_then; [apply (put_channel_calm i c')|]. destruct m as [[f|]|e].
  - eapply calm_then; [apply receive_frame_calm | apply IH].
  - destruct (ch_eof c'); [apply channel_ended_calm | apply calm_self].
  - eapply calm_then; [apply mark_fault_calm|]. case_bool_decide; [apply channel_ended_calm | apply calm_self].
Qed.

Lemma fields_calm g g' : gu_fault g' = gu_fault g → gu_control g' = gu_control g → calm g g'.
Proof. by intros E1 E2 H; rewrite <-E1. Qed.

Lemma send_calm i g : calm g (send_control i g).
Proof.
  unfold send_control. repeat case_match; try apply calm_self; apply fields_calm; reflexivity.
Qed.
Lemma flush_calm i a g : calm g (flush_side i a g).
Proof. unfold flush_side. repeat case_match; try apply calm_self; apply fields_calm; reflexivity. Qed.
Lemma reap_calm wait g : calm g (reap_sentinel wait g).
Proof.
  unfold reap_sentinel. destruct (gu_reaped _); [apply calm_self|].
  destruct wait as [[]|]; [apply fields_calm; reflexivity | apply calm_self|].
  eapply calm_then; [apply mark_fault_calm|]. case_match; apply fields_calm; reflexivity.
Qed.

Lemma service_calm a g : calm g (service a g).
Proof.
  assert (Hside : ∀ i g, calm g (service_side a i g)).
  { intros i g'. unfold service_side. eapply calm_then; [apply send_calm|].
    eapply calm_then; [apply flush_calm | apply receive_side_calm]. }
  unfold service. eapply calm_then; [apply (Hside Sentinel)|]. eapply calm_then; [apply (Hside Helper)|].
  apply reap_calm.
Qed.

(** ** Histories keep all of it *)

Record world_ok (w : World) : Prop := {
  wo_ok : ok (w_guardian w);
  wo_roomy : roomy (λ _, 0) (w_guardian w);
  wo_exits : w_exits w ++ option_list (gu_pending_exit (w_guardian w))
             = option_list (gu_observed (w_guardian w));
  wo_faults : (w_faults w + Nat.b2n (gu_pending_fault (w_guardian w)))%nat
              = Nat.b2n (gu_fault (w_guardian w));
  wo_escalations : (w_escalations w + Nat.b2n (gu_escalation_applied (w_guardian w)))%nat
              = Nat.b2n (gu_escalation_reported (w_guardian w))
}.

Lemma once_exits (l : list Z) s p s' p' :
  once s p s' p' → l ++ option_list p = option_list s → l ++ option_list p' = option_list s'.
Proof.
  intros [[-> ->]|(-> & [x ->] & ->)]; [done|]. intros H. apply app_eq_nil in H as [-> _]. done.
Qed.

Lemma once_count (n : nat) s p s' p' :
  once (flagged s) (flagged p) (flagged s') (flagged p') →
  (n + Nat.b2n p = Nat.b2n s → n + Nat.b2n p' = Nat.b2n s')%nat.
Proof.
  unfold once. intros [[H1 H2]|(H1 & [x H2] & H3)]; destruct s, p, s', p'; simpl in *; try done; lia.
Qed.

Lemma on_guardian_ok f w :
  forward (w_guardian w) (f (w_guardian w)) → roomy (λ _, 0) (f (w_guardian w)) → world_ok w →
  world_ok (on_guardian f w).
Proof.
  intros [Hok []] Hr []. split; cbn; [done..| | |].
  - by eapply once_exits.
  - by eapply once_count.
  - by eapply once_count.
Qed.

(** Taking a fact leaves everything else alone. *)
Lemma taken_ok g g' :
  gu_sid g' = gu_sid g → gu_channels g' = gu_channels g → gu_generation g' = gu_generation g →
  gu_hello g' = gu_hello g → gu_started g' = gu_started g → gu_admitted g' = gu_admitted g →
  gu_granted g' = gu_granted g → gu_start_error g' = gu_start_error g → gu_control g' = gu_control g →
  gu_sent g' = gu_sent g → gu_retiring g' = gu_retiring g → gu_observed g' = gu_observed g →
  gu_fault g' = gu_fault g → ok g → roomy (λ _, 0) g → ok g' ∧ roomy (λ _, 0) g'.
Proof.
  intros E1 E2 E3 E4 E5 E6 E7 E8 E9 E10 E11 E12 E13 [] [].
  split; split; rewrite ?E1, ?E2, ?E3, ?E4, ?E5, ?E6, ?E7, ?E8, ?E9, ?E10, ?E11, ?E12, ?E13; auto.
Qed.

Lemma perform_holds o w : world_ok w → world_ok (perform o w).
Proof.
  intros Hw. pose proof (wo_ok w Hw) as Hok. pose proof (wo_roomy w Hw) as Hr.
  destruct o; cbn [perform].
  - destruct (is_order kind) eqn:Ek; [|done].
    apply on_guardian_ok; [by apply request_forward | by eapply same_roomy, Hr; apply request_wires | done].
  - apply on_guardian_ok; [by apply service_forward | by apply service_roomy | done].
  - apply on_guardian_ok; [by apply admit_turn_forward | by apply admit_turn_roomy | done].
  - destruct (taken_ok (w_guardian w) (with_pending_exit None (w_guardian w))) as [H1 H2]; try done.
    destruct Hw. split; try done. cbn. by rewrite app_nil_r, wo_exits0.
  - destruct (taken_ok (w_guardian w) (with_pending_fault false (w_guardian w))) as [H1 H2]; try done.
    destruct Hw. split; try done. cbn. lia.
  - destruct (taken_ok (w_guardian w) (with_escalation_applied false (w_guardian w))) as [H1 H2]; try done.
    destruct Hw. split; try done. cbn. lia.
  - destruct (taken_ok (w_guardian w) (with_term_applied false (w_guardian w))) as [H1 H2]; try done.
    destruct Hw. by split.
Qed.

Lemma performs_hold os w : world_ok w → world_ok (performs os w).
Proof. revert w. induction os as [|o os IH]; intros w Hw; [done|]. apply IH. by apply perform_holds. Qed.

(** What an owner may rely on staying: [evolves] but for the facts it takes. *)
Record stays (g g' : Guardian) : Prop := {
  st_control : strength (gu_control g) <= strength (gu_control g');
  st_sent : ∀ i, strength (at_side i (gu_sent g)) <= strength (at_side i (gu_sent g'));
  st_fault : gu_fault g = true → gu_fault g' = true;
  st_observed : ∀ v, gu_observed g = Some v → gu_observed g' = Some v;
  st_started : ∀ v, gu_started g = Some v → gu_started g' = Some v;
  st_closed : ∀ i, at_side i (gu_channels g) = None → at_side i (gu_channels g') = None;
  st_reaped : gu_reaped g = true → gu_reaped g' = true
}.

Lemma evolves_stays g g' : evolves g g' → stays g g'.
Proof.
  intros []. split; auto.
  - unfold once in *. destruct (gu_fault g), (gu_fault g'); naive_solver.
  - unfold once in *. naive_solver congruence.
Qed.

Lemma stays_trans g1 g2 g3 : stays g1 g2 → stays g2 g3 → stays g1 g3.
Proof. intros [] []. split; auto; intros; etrans; eauto. Qed.

Lemma perform_stays o w : world_ok w → stays (w_guardian w) (w_guardian (perform o w)).
Proof.
  intros Hw. pose proof (wo_ok w Hw) as Hok. destruct o; cbn [perform]; try (split; cbn; auto; lia).
  - destruct (is_order kind) eqn:Ek; [|by split]. by apply evolves_stays, request_forward.
  - by apply evolves_stays, service_forward.
  - by apply evolves_stays, admit_turn_forward.
Qed.

Lemma performs_stays os w : world_ok w → stays (w_guardian w) (w_guardian (performs os w)).
Proof.
  revert w. induction os as [|o os IH]; intros w Hw; [by split|].
  eapply stays_trans; [by apply (perform_stays o) | by apply IH, perform_holds].
Qed.

Lemma launch_ok sid generation watch :
  world_ok (World_new (Guardian_new sid generation watch (both (Channel_new generation)))).
Proof. split; [apply Guardian_new_ok | apply Guardian_new_roomy | done..]. Qed.

Definition launch (sid generation : Z) (watch : bool) : World :=
  World_new (Guardian_new sid generation watch (both (Channel_new generation))).

Lemma complete_spec g :
  complete g = true ↔ gu_reaped g = true ∧ ∀ i, at_side i (gu_channels g) = None.
Proof.
  unfold complete. split.
  - intros H. to_props. split; [done|]. by intros [].
  - intros [-> H]. by rewrite (H Sentinel : on_sentinel _ = None), (H Helper : on_helper _ = None).
Qed.

Lemma perform_sid o w : world_ok w → gu_sid (w_guardian (perform o w)) = gu_sid (w_guardian w).
Proof.
  intros Hw. pose proof (wo_ok w Hw) as Hok. destruct o; cbn [perform]; try done.
  - destruct (is_order kind) eqn:Ek; [|done]. by apply (ev_sid _ _ (proj2 (request_forward kind _ Ek Hok))).
  - by apply (ev_sid _ _ (proj2 (service_forward a _ Hok))).
  - by apply (ev_sid _ _ (proj2 (admit_turn_forward a late _ Hok))).
Qed.

Lemma performs_sid os sid generation watch :
  gu_sid (w_guardian (performs os (launch sid generation watch))) = sid.
Proof.
  change sid with (gu_sid (w_guardian (launch sid generation watch))) at 2.
  pose proof (launch_ok sid generation watch) as Hw. fold (launch sid generation watch) in Hw.
  revert Hw. generalize (launch sid generation watch). induction os as [|o os IH]; intros w Hw; [done|].
  simpl. rewrite IH by by apply perform_holds. by apply perform_sid.
Qed.

(** ** Properties *)

(** C16: Orders only escalate and are never lost for want of room.  Over any history of
    requests, services and admissions the control wanted never weakens, each
    channel is given controls of strictly growing strength and none stronger than
    the one wanted, a fault wants [Abort], and as long as a channel is open the
    next service queues the control wanted on it: its eight records are enough. *)
Theorem orders_escalate (sid generation : Z) (watch : bool) (os os' : list op) :
  let g := w_guardian (performs os (launch sid generation watch)) in
  let g' := w_guardian (performs os' (performs os (launch sid generation watch))) in
  strength (gu_control g) <= strength (gu_control g')
  ∧ (∀ i, strength (at_side i (gu_sent g)) <= strength (at_side i (gu_sent g')) <= strength (gu_control g'))
  ∧ (gu_fault g = true → gu_control g' = Some Kind_Abort)
  ∧ (∀ i c, at_side i (gu_channels g) = Some c →
       len (ch_outgoing c) <= 5 ∧ (gu_control g ≠ None → at_side i (gu_sent (send_control i g)) = gu_control g)).
Proof.
  intros g g'. pose proof (performs_hold os _ (launch_ok sid generation watch)) as Hw. fold (launch sid generation watch) in Hw.
  pose proof (performs_hold os' _ Hw) as Hw'. destruct (performs_stays os' _ Hw) as [].
  destruct Hw as [Hok Hro _ _ _], Hw' as [Hok' _ _ _ _]. fold g in Hok, Hro, st_fault0, st_control0, st_sent0. fold g' in Hok'.
  split_and!; [done | | |].
  - intros i. split; [apply st_sent0 | by apply ok_sent].
  - intros Hf. apply (ok_fault _ Hok'). auto.
  - intros i c Hc. destruct Hro as [Hwire Hsent]. destruct (Hwire i c Hc) as [Hg Hl].
    pose proof (rung_le (at_side i (gu_sent g))).
    assert (Hroom : len (ch_outgoing c) <= 5) by (destruct (gu_granted g); lia).
    split; [done|]. intros Hn. unfold send_control. rewrite Hc. destruct (gu_control g) as [k|] eqn:Ek; [|done].
    case_bool_decide as Hd; [|done].
    pose proof (enqueue_fits (order k g) c) as He. unfold QUEUE_RECORDS in He.
    destruct (enqueue (order k g) c) as [c' [[]|e]]; [|discriminate He; [done|lia]].
    cbn. by rewrite at_put, decide_True.
Qed.

(** The owner hears each fact once, and only facts.  It takes at most one exit,
    which is the status the helpers reported for the workload they had identified
    and is a code or a signal; at most one fault, and one escalation; and once a
    workload is identified its identity never changes. *)
Theorem facts_once (sid generation : Z) (watch : bool) (os os' : list op) :
  let w := performs os (launch sid generation watch) in
  let g := w_guardian w in
  let g' := w_guardian (performs os' w) in
  w_exits w ++ option_list (gu_pending_exit g) = option_list (gu_observed g)
  ∧ (∀ s, s ∈ w_exits w → (is_Some (status_code s) ∨ is_Some (status_signal s)) ∧ is_Some (gu_started g))
  ∧ (w_faults w <= 1)%nat ∧ (w_escalations w <= 1)%nat
  ∧ (w_faults w = 1%nat → gu_fault g = true)
  ∧ (∀ v, gu_started g = Some v → gu_started g' = Some v ∧ identified sid (gu_hello g) v)
  ∧ (gu_admitted g = true → is_Some (gu_started g)).
Proof.
  intros w g g'. pose proof (performs_hold os _ (launch_ok sid generation watch)) as Hw. fold (launch sid generation watch) w in Hw.
  destruct (performs_stays os' w Hw) as []. destruct Hw as [[] _ He Hf Hc]. fold g in He, Hf, Hc, ok_exit0, ok_started0, ok_admitted0.
  assert (Hsid : gu_sid g = sid) by apply performs_sid. rewrite Hsid in *.
  split_and!; [done | | | | | |done].
  - intros s Hs. assert (Ho : gu_observed g = Some s).
    { destruct (gu_observed g) as [x|]; simpl in He.
      - destruct (w_exits w) as [|y l]; [by apply not_elem_of_nil in Hs|].
        apply (f_equal (take 1)) in He as He1. simpl in He. injection He as -> Hl.
        apply app_eq_nil in Hl as [-> _]. by apply list_elem_of_singleton in Hs as ->.
      - apply app_eq_nil in He as [He _]. rewrite He in Hs. by apply not_elem_of_nil in Hs. }
    destruct (ok_exit0 s Ho) as [Hw Hst]. split; [|done]. unfold status_code, status_signal.
    apply orb_true_iff in Hw as [->| ->]; eauto.
  - destruct (gu_fault g); simpl in Hf; lia.
  - destruct (gu_escalation_reported g); simpl in Hc; lia.
  - intros H1. destruct (gu_fault g); [done|]. simpl in Hf. lia.
  - intros v Hv. split; [by apply st_started0 | auto].
Qed.

(** Clean-up is final and its success is earned: a guardian that is complete stays
    so, and it counts as cleaned up only when the child was reaped, no fault was
    seen, and each helper had announced that it was retiring or had failed to start. *)
Theorem success_is_earned (sid generation : Z) (watch : bool) (os os' : list op) :
  let g := w_guardian (performs os (launch sid generation watch)) in
  let g' := w_guardian (performs os' (performs os (launch sid generation watch))) in
  (complete g = true → complete g' = true)
  ∧ (cleanup_succeeded g = true →
      gu_reaped g = true ∧ gu_fault g = false
      ∧ ∀ i, at_side i (gu_retiring g) = true ∨ is_Some (gu_start_error g)).
Proof.
  intros g g'. pose proof (performs_hold os _ (launch_ok sid generation watch)) as Hw. fold (launch sid generation watch) in Hw.
  destruct (performs_stays os' _ Hw) as []. destruct Hw as [[] _ _ _ _]. fold g in st_closed0, st_reaped0, ok_ended0.
  split.
  - rewrite !complete_spec. intros [Hr Hc]. auto.
  - unfold cleanup_succeeded. intros H. to_props. match goal with H : complete g = true |- _ => apply complete_spec in H as [Hr Hc] end.
    split_and!; [done..|]. intros i. destruct (ok_ended0 i (Hc i)) as [?|[?|Hf]]; auto. congruence.
Qed.

(** ** A launch *)

Definition says (kind : Kind) (values : list Z) : result ErrorKind (list Z) :=
  Ok (frame_encode {| fr_kind := kind; fr_generation := 9; fr_values := values |}).
Definition hears (sentinel helper : list (result ErrorKind (list Z))) (gone : bool) : answers :=
  {| an_writes := both [Ok 32]; an_reads := Two sentinel helper; an_wait := Ok gone |}.

(** Both helpers say hello, execution is granted, the workload runs, is asked to
    terminate, and is reaped. *)
Definition demo : list op := [
  Op_admit (hears [says Kind_Hello [40; 41; 0; 0]] [says Kind_Hello [40; 41; 0; 0]] false) false;
  Op_admit (hears [says Kind_Admitted [50; 41; 40; 40]] [says Kind_Started [50; 41; 40; 40]] false) false;
  Op_request Kind_Terminate;
  Op_service (hears [] [says Kind_SignalApplied [50; 15; 7; 0]; says Kind_WorkloadExit [15; 50; 0; 0]] false);
  Op_take_exit; Op_request Kind_Release;
  Op_service (hears [says Kind_Retiring [40; 0; 0; 0]; Ok []] [says Kind_Retiring [41; 0; 0; 0]; Ok []] false);
  Op_service (hears [] [] true)].

Example demo_cleans :
  let w := performs demo (launch 40 9 true) in
  w_exits w = [15] ∧ status_signal 15 = Some 15 ∧ workload_id (w_guardian w) = 50
  ∧ cleanup_succeeded (w_guardian w) = true ∧ w_faults w = 0%nat
  ∧ gu_sent (w_guardian w) = both (Some Kind_Release).
Proof. vm_compute. done. Qed.
