(* ===== verification/Inputs.v ===== *)
(** * Input, resize and cancellation of a process
      (crates/infrastructure/src/process/session.rs, io.rs)

    The queues a session's clients and the supervisor thread share, under one
    lock: [write_reserved], [resize_timed] and [request_cancel] of the client,
    [write_ready] and the resize step of the supervisor, and [finish_inputs],
    which is two steps because the closed flag is set before the lock is taken.
    A [oneshot] channel is a ticket; what happens to the PTY, to reservations
    and to tickets is appended to a log. *)

From S2P Require Import Prelude Process Terminal OsErrors.

(** ** State (session.rs) *)

Record Input := {
  in_bytes : list Z;
  in_offset : Z;
  in_deadline : Z;
  in_reply : nat;
  in_reservation : option nat
}.

Record Resize := { re_size : TerminalSize; re_reply : nat }.

Record Session := {
  se_limits : ProcessLimits;
  se_input : list Input;
  se_bytes : Z;
  se_resize : option Resize;
  se_cancel : bool;
  se_closed : bool;
  se_stop_reader : bool;
  se_workload_exited : bool;
  se_reader_done : bool;
  se_reader_failed : bool;
  (* whether the sockets of [wake] and [reader_wake] are still held, and
     whether a byte is waiting in them *)
  se_wakes : bool;
  se_woken : bool;
  se_poked : bool
}.

Definition set_queues (input : list Input) (bytes : Z) (resize : option Resize) (s : Session) : Session := {|
  se_limits := se_limits s; se_input := input; se_bytes := bytes; se_resize := resize;
  se_cancel := se_cancel s; se_closed := se_closed s; se_stop_reader := se_stop_reader s;
  se_workload_exited := se_workload_exited s; se_reader_done := se_reader_done s;
  se_reader_failed := se_reader_failed s; se_wakes := se_wakes s; se_woken := se_woken s;
  se_poked := se_poked s |}.

Definition set_flags (cancel closed stop_reader exited done failed : bool) (s : Session) : Session := {|
  se_limits := se_limits s; se_input := se_input s; se_bytes := se_bytes s; se_resize := se_resize s;
  se_cancel := cancel; se_closed := closed; se_stop_reader := stop_reader;
  se_workload_exited := exited; se_reader_done := done;
  se_reader_failed := failed; se_wakes := se_wakes s; se_woken := se_woken s;
  se_poked := se_poked s |}.

Definition set_wakes (wakes woken poked : bool) (s : Session) : Session := {|
  se_limits := se_limits s; se_input := se_input s; se_bytes := se_bytes s; se_resize := se_resize s;
  se_cancel := se_cancel s; se_closed := se_closed s; se_stop_reader := se_stop_reader s;
  se_workload_exited := se_workload_exited s; se_reader_done := se_reader_done s;
  se_reader_failed := se_reader_failed s; se_wakes := wakes; se_woken := woken;
  se_poked := poked |}.

(** The session [registration::start] builds. *)
Definition Session_new (limits : ProcessLimits) : Session := {|
  se_limits := limits; se_input := []; se_bytes := 0; se_resize := None;
  se_cancel := false; se_closed := false; se_stop_reader := false; se_workload_exited := false;
  se_reader_done := false; se_reader_failed := false;
  se_wakes := true; se_woken := false; se_poked := false |}.

(** What the rest of the program sees. *)
Inductive effect :=
  | Wrote (bytes : list Z)
  | Released (reservation : nat)
  | Answered (ticket : nat) (o : WriteOutcome)
  | Resized (size : TerminalSize)
  | Resize_answered (ticket : nat) (r : result ProcessError ()).

(** ** Wakes *)

(** A byte written to a non-blocking socket leaves it readable, also when the
    socket was already full. *)
Definition notify (s : Session) : Session :=
  if se_wakes s then set_wakes true true (se_poked s) s else s.
Definition poke_reader (s : Session) : Session :=
  if se_wakes s then set_wakes true (se_woken s) true s else s.

(** The flag is stored and the reader poked in one event: a reader that polls
    between the two in the source sees the flag already, or is woken after it. *)
Definition stop (s : Session) : Session :=
  poke_reader (set_flags (se_cancel s) (se_closed s) true (se_workload_exited s)
                 (se_reader_done s) (se_reader_failed s) s).
Definition note_workload_exit (s : Session) : Session :=
  poke_reader (set_flags (se_cancel s) (se_closed s) (se_stop_reader s) true
                 (se_reader_done s) (se_reader_failed s) s).
Definition release_wakes (s : Session) : Session := set_wakes false false false s.

(** ** Client operations

    [ticket] is the fresh channel; a refused call drops its reservation. *)

Definition released (reservation : option nat) : list effect := Released <$> option_list reservation.

Definition write_reserved (bytes : list Z) (reservation : option nat) (now : Z) (ticket : nat)
    (s : Session) : Session * list effect * result ProcessError nat :=
  if se_closed s then (s, released reservation, Err ProcessError_Closed)
  else if (pl_input_chunk (se_limits s) <? len bytes)
     || (pl_input_slots (se_limits s) <=? len (se_input s))
     || (saturating_sub (pl_input_bytes (se_limits s)) (se_bytes s) <? len bytes)
  then (s, released reservation, Err ProcessError_Capacity)
  else
    let input := {| in_bytes := bytes; in_offset := 0;
                    in_deadline := now + pl_write_timeout (se_limits s);
                    in_reply := ticket; in_reservation := reservation |} in
    (notify (set_queues (se_input s ++ [input]) (se_bytes s + len bytes) (se_resize s) s), [], Ok ticket).

Definition request_cancel (s : Session) : Session * result ProcessError () :=
  if se_closed s then (s, Err ProcessError_Closed)
  else (notify (set_flags true (se_closed s) (se_stop_reader s) (se_workload_exited s)
                  (se_reader_done s) (se_reader_failed s) s), Ok tt).

Definition resize_timed (size : TerminalSize) (ticket : nat) (s : Session)
    : Session * result ProcessError nat :=
  if se_closed s then (s, Err ProcessError_Closed)
  else if is_some (se_resize s) then (s, Err ProcessError_Capacity)
  else (notify (set_queues (se_input s) (se_bytes s) (Some {| re_size := size; re_reply := ticket |}) s),
        Ok ticket).

(** ** The supervisor's side (io.rs, lifecycle.rs) *)

Inductive write_answer := Write_count (n : Z) | Write_error (e : Io_error).

(** Dropping an input releases its reservation; the answer comes after. *)
Definition answer_input (failure : option ProcessError) (i : Input) : list effect :=
  released (in_reservation i)
  ++ [Answered (in_reply i) {| wo_written := in_offset i; wo_error := failure |}].

Definition advance (count : Z) (i : Input) : Input := {|
  in_bytes := in_bytes i; in_offset := in_offset i + count; in_deadline := in_deadline i;
  in_reply := in_reply i; in_reservation := in_reservation i |}.

Definition remaining (i : Input) : list Z := drop (Z.to_nat (in_offset i)) (in_bytes i).

(** [host.write(&input.bytes[input.offset..])] *)
Definition write_host (a : write_answer) (i : Input) : Input * list effect * option ProcessError :=
  match a with
  | Write_count n =>
    if n =? 0 then (i, [], Some ProcessError_Io)
    else (advance n i, [Wrote (take (Z.to_nat n) (remaining i))], None)
  | Write_error e =>
    match ie_kind e with
    | Kind_WouldBlock | Kind_Interrupted => (i, [], None)
    | _ => (i, [], Some (error e))
    end
  end.

Definition write_ready (now : Z) (a : write_answer) (s : Session) : Session * list effect :=
  match se_input s with
  | [] => (s, [])
  | input :: rest =>
    let '(input, wrote, failure) :=
      if in_deadline input <=? now then (input, [], Some ProcessError_Timeout)
      else if in_offset input <? len (in_bytes input) then write_host a input
      else (input, [], None) in
    if is_some failure || (in_offset input =? len (in_bytes input))
    then (set_queues rest (se_bytes s - len (in_bytes input)) (se_resize s) s,
          wrote ++ answer_input failure input)
    else (set_queues (input :: rest) (se_bytes s) (se_resize s) s, wrote)
  end.

(** The resize step of [OwnedProcess::control]; [outcome] is the ioctl's. *)
Definition apply_resize (outcome : result ProcessError ()) (s : Session) : Session * list effect :=
  match se_resize s with
  | Some r =>
    (set_queues (se_input s) (se_bytes s) None s,
     (if is_ok outcome then [Resized (re_size r)] else []) ++ [Resize_answered (re_reply r) outcome])
  | None => (s, [])
  end.

(** [finish_inputs]: the store of the flag, then the section under the lock. *)
Definition finish_close (s : Session) : Session :=
  set_flags (se_cancel s) true (se_stop_reader s) (se_workload_exited s)
    (se_reader_done s) (se_reader_failed s) s.

Definition finish_drain (reason : ProcessError) (s : Session) : Session * list effect :=
  (set_queues [] 0 None s,
   (se_input s ≫= answer_input (Some reason))
   ++ match se_resize s with Some r => [Resize_answered (re_reply r) (Err reason)] | None => [] end).

(** ** Histories

    What the client threads, the supervisor and the reader do to a session, one
    critical section at a time. *)

Record World := {
  w_session : Session;
  w_log : list effect;
  w_next : nat;
  w_admitted : list (nat * list Z);
  w_given : list nat;
  w_resizes : list nat;
  w_drained : bool
}.

Definition World_new (limits : ProcessLimits) : World := {|
  w_session := Session_new limits; w_log := []; w_next := O;
  w_admitted := []; w_given := []; w_resizes := []; w_drained := false |}.

Inductive event :=
  | Ev_write (bytes : list Z) (reservation : option nat) (now : Z)
  | Ev_resize (size : TerminalSize)
  | Ev_cancel
  | Ev_ready (now : Z) (a : write_answer)
  | Ev_apply (outcome : result ProcessError ())
  | Ev_close
  | Ev_drain (reason : ProcessError)
  | Ev_stop | Ev_exited | Ev_release_wakes
  | Ev_flags (done failed : bool).

(** [write] never reports more than it was given. *)
Definition answer_fits (a : write_answer) (s : Session) : bool :=
  match a, se_input s with
  | Write_count n, i :: _ => (0 <=? n) && (n <=? len (remaining i))
  | Write_count n, [] => 0 <=? n
  | Write_error _, _ => true
  end.

(** The events that can happen: the system's answers, and the second half of
    [finish_inputs] after its first. *)
Definition possible (e : event) (w : World) : bool :=
  match e with
  | Ev_ready _ a => answer_fits a (w_session w)
  | Ev_drain _ => se_closed (w_session w)
  | _ => true
  end.

Definition supervise (f : Session → Session * list effect) (w : World) : World :=
  let '(s, l) := f (w_session w) in
  {| w_session := s; w_log := w_log w ++ l; w_next := w_next w; w_admitted := w_admitted w;
     w_given := w_given w; w_resizes := w_resizes w; w_drained := w_drained w |}.

Definition mark_drained (w : World) : World := {|
  w_session := w_session w; w_log := w_log w; w_next := w_next w; w_admitted := w_admitted w;
  w_given := w_given w; w_resizes := w_resizes w; w_drained := true |}.

Definition happen (e : event) (w : World) : World :=
  let pure f := supervise (λ s, (f s, [])) w in
  match e with
  | Ev_write bytes reservation now =>
    let '(s, l, r) := write_reserved bytes reservation now (w_next w) (w_session w) in
    {| w_session := s; w_log := w_log w ++ l; w_next := S (w_next w);
       w_admitted := w_admitted w ++ (if is_ok r then [(w_next w, bytes)] else []);
       w_given := w_given w ++ option_list reservation;
       w_resizes := w_resizes w; w_drained := w_drained w |}
  | Ev_resize size =>
    let '(s, r) := resize_timed size (w_next w) (w_session w) in
    {| w_session := s; w_log := w_log w; w_next := S (w_next w); w_admitted := w_admitted w;
       w_given := w_given w; w_resizes := w_resizes w ++ (if is_ok r then [w_next w] else []);
       w_drained := w_drained w |}
  | Ev_cancel => pure (fst ∘ request_cancel)
  | Ev_ready now a => supervise (write_ready now a) w
  | Ev_apply outcome => supervise (apply_resize outcome) w
  | Ev_close => pure finish_close
  | Ev_drain reason => mark_drained (supervise (finish_drain reason) w)
  | Ev_stop => pure stop
  | Ev_exited => pure note_workload_exit
  | Ev_release_wakes => pure release_wakes
  | Ev_flags done failed =>
    pure (λ s, set_flags (se_cancel s) (se_closed s) (se_stop_reader s) (se_workload_exited s) done failed s)
  end.

Definition step (e : event) (w : World) : World := if possible e w then happen e w else w.
Definition steps (es : list event) (w : World) : World := foldl (flip step) w es.

(** ** What a history shows *)

(** The bytes the PTY was given. *)
Definition pty (l : list effect) : list Z :=
  l ≫= λ e, match e with Wrote b => b | _ => [] end.
(** The answers to writes, the reservations released, the resizes answered. *)
Definition answers (l : list effect) : list (nat * WriteOutcome) :=
  l ≫= λ e, match e with Answered t o => [(t, o)] | _ => [] end.
Definition releases (l : list effect) : list nat :=
  l ≫= λ e, match e with Released r => [r] | _ => [] end.
Definition resized (l : list effect) : list nat :=
  l ≫= λ e, match e with Resize_answered t _ => [t] | _ => [] end.

Arguments pty _ : simpl never.
Arguments answers _ : simpl never.
Arguments releases _ : simpl never.
Arguments resized _ : simpl never.

(** What of a call reached the PTY, as its answer tells, and as its place in the
    queue tells. *)
Definition told (call : nat * list Z) (a : nat * WriteOutcome) : list Z :=
  take (Z.to_nat (wo_written a.2)) call.2.
Definition sent (i : Input) : list Z := take (Z.to_nat (in_offset i)) (in_bytes i).
Definition call_of (i : Input) : nat * list Z := (in_reply i, in_bytes i).
Definition queued_bytes (l : list Input) : Z := foldr (λ i, Z.add (len (in_bytes i))) 0 l.

(** An answer that tells the truth about its call. *)
Definition honest (call : nat * list Z) (a : nat * WriteOutcome) : Prop :=
  a.1 = call.1 ∧ 0 <= wo_written a.2 <= len call.2
  ∧ (wo_error a.2 = None → wo_written a.2 = len call.2).

(** ** Lemmas *)

Lemma pty_app l k : pty (l ++ k) = pty l ++ pty k.
Proof. apply bind_app. Qed.
Lemma answers_app l k : answers (l ++ k) = answers l ++ answers k.
Proof. apply bind_app. Qed.
Lemma releases_app l k : releases (l ++ k) = releases l ++ releases k.
Proof. apply bind_app. Qed.
Lemma resized_app l k : resized (l ++ k) = resized l ++ resized k.
Proof. apply bind_app. Qed.

Lemma answers_released r : answers (released r) = [].
Proof. by destruct r. Qed.
Lemma pty_released r : pty (released r) = [].
Proof. by destruct r. Qed.
Lemma resized_released r : resized (released r) = [].
Proof. by destruct r. Qed.
Lemma releases_released r : releases (released r) = option_list r.
Proof. by destruct r. Qed.

Lemma queued_bytes_app l k : queued_bytes (l ++ k) = queued_bytes l + queued_bytes k.
Proof. induction l; simpl; [done | rewrite IHl; lia]. Qed.
Lemma queued_bytes_nonneg l : 0 <= queued_bytes l.
Proof. induction l; simpl; [done | len_facts; lia]. Qed.

(** What [answer_input] logs, for one input and over a whole queue. *)
Lemma answer_one failure i :
  pty (answer_input failure i) = [] ∧ resized (answer_input failure i) = []
  ∧ releases (answer_input failure i) = option_list (in_reservation i)
  ∧ answers (answer_input failure i) = [(in_reply i, {| wo_written := in_offset i; wo_error := failure |})].
Proof. unfold answer_input. by destruct (in_reservation i). Qed.

Lemma answer_all (reason : ProcessError) (l : list Input) :
  pty (l ≫= answer_input (Some reason)) = [] ∧ resized (l ≫= answer_input (Some reason)) = []
  ∧ releases (l ≫= answer_input (Some reason)) = (l ≫= option_list ∘ in_reservation)
  ∧ answers (l ≫= answer_input (Some reason))
    = (λ i, (in_reply i, {| wo_written := in_offset i; wo_error := Some reason |})) <$> l.
Proof.
  induction l as [|i l (H1 & H2 & H3 & H4)]; [done|].
  destruct (answer_one (Some reason) i) as (G1 & G2 & G3 & G4).
  rewrite !bind_cons, fmap_cons, pty_app, resized_app, releases_app, answers_app.
  rewrite G1, G2, G3, G4, H1, H2, H3, H4. done.
Qed.

(** ** The invariant *)

Definition within (i : Input) : Prop := 0 <= in_offset i <= len (in_bytes i).

(** [done] are the calls that were answered, in order. *)
Record ok (done : list (nat * list Z)) (w : World) : Prop := {
  ok_order : w_admitted w = done ++ (call_of <$> se_input (w_session w));
  ok_honest : Forall2 honest done (answers (w_log w));
  ok_pty : pty (w_log w)
           = mjoin (zip_with told done (answers (w_log w))) ++ (se_input (w_session w) ≫= sent);
  ok_within : Forall within (se_input (w_session w));
  ok_front : Forall (λ i, in_offset i = 0) (tail (se_input (w_session w)));
  ok_names : NoDup ((fst <$> w_admitted w) ++ w_resizes w);
  ok_fresh : Forall (λ n, (n < w_next w)%nat) ((fst <$> w_admitted w) ++ w_resizes w);
  ok_bytes : se_bytes (w_session w) = queued_bytes (se_input (w_session w));
  ok_limits : len (se_input (w_session w)) <= Z.max 0 (pl_input_slots (se_limits (w_session w)))
              ∧ se_bytes (w_session w) <= Z.max 0 (pl_input_bytes (se_limits (w_session w)));
  ok_held : w_given w ≡ₚ releases (w_log w)
                        ++ (se_input (w_session w) ≫= option_list ∘ in_reservation);
  ok_resizes : w_resizes w = resized (w_log w) ++ option_list (re_reply <$> se_resize (w_session w));
  ok_drained : w_drained w = true →
    se_closed (w_session w) = true ∧ se_input (w_session w) = [] ∧ se_resize (w_session w) = None
}.

Lemma no_calls_ok limits : ok [] (World_new limits).
Proof. split; cbn; try done; try (by constructor). split; [len_lia | lia]. Qed.

(** Steps that touch only flags and wakes. *)
Lemma flags_ok f done w :
  se_limits (f (w_session w)) = se_limits (w_session w) →
  se_input (f (w_session w)) = se_input (w_session w) →
  se_bytes (f (w_session w)) = se_bytes (w_session w) →
  se_resize (f (w_session w)) = se_resize (w_session w) →
  (se_closed (w_session w) = true → se_closed (f (w_session w)) = true) →
  ok done w → ok done (supervise (λ s, (f s, [])) w).
Proof.
  intros H1 H2 H3 H4 H5 []. unfold supervise.
  split; cbn; rewrite ?app_nil_r, ?H1, ?H2, ?H3, ?H4; auto. naive_solver.
Qed.

Lemma notify_fields s :
  se_limits (notify s) = se_limits s ∧ se_input (notify s) = se_input s ∧ se_bytes (notify s) = se_bytes s
  ∧ se_resize (notify s) = se_resize s ∧ se_closed (notify s) = se_closed s.
Proof. unfold notify. by case_match. Qed.
Lemma poke_fields s :
  se_limits (poke_reader s) = se_limits s ∧ se_input (poke_reader s) = se_input s
  ∧ se_bytes (poke_reader s) = se_bytes s
  ∧ se_resize (poke_reader s) = se_resize s ∧ se_closed (poke_reader s) = se_closed s.
Proof. unfold poke_reader. by case_match. Qed.

Lemma fresh_call (l k : list nat) (n : nat) (b : bool) :
  NoDup (l ++ k) → Forall (λ m, (m < n)%nat) (l ++ k) →
  (NoDup ((l ++ [n]) ++ k) ∧ Forall (λ m, (m < S n)%nat) ((l ++ [n]) ++ k))
  ∧ (NoDup (l ++ k ++ [n]) ∧ Forall (λ m, (m < S n)%nat) (l ++ k ++ [n]))
  ∧ Forall (λ m, (m < S n)%nat) (l ++ k).
Proof.
  intros HN HF.
  assert (HF' : Forall (λ m, (m < S n)%nat) (l ++ k)) by (eapply Forall_impl; [done|]; simpl; lia).
  assert (Hnot : n ∉ l ++ k) by (intros Hin; rewrite Forall_forall in HF; specialize (HF _ Hin); simpl in HF; lia).
  assert (Hp : (l ++ [n]) ++ k ≡ₚ n :: l ++ k) by (rewrite <-app_assoc; simpl; by rewrite <-Permutation_middle).
  assert (Hq : l ++ k ++ [n] ≡ₚ n :: l ++ k) by (rewrite app_assoc; by rewrite <-Permutation_cons_append).
  split_and!; [rewrite Hp; by constructor | rewrite Hp; by constructor; [lia|]
              | rewrite Hq; by constructor | rewrite Hq; by constructor; [lia|] | done].
Qed.

Lemma write_ok bytes reservation now done w : ok done w → ok done (happen (Ev_write bytes reservation now) w).
Proof.
  intros []. unfold happen, write_reserved.
  destruct (fresh_call _ _ (w_next w) true ok_names0 ok_fresh0) as ((N1 & F1) & _ & F).
  destruct (se_closed (w_session w)) eqn:Ec; [|destruct (_ || _) eqn:Et].
  1, 2: split; cbn; rewrite ?app_nil_r, ?pty_app, ?answers_app, ?resized_app, ?releases_app, ?pty_released,
    ?answers_released, ?resized_released, ?releases_released, ?app_nil_r; auto;
    first [by rewrite Ec | rewrite ok_held0, <-!app_assoc; f_equiv; apply Permutation_app_comm].
  to_props. unfold saturating_sub in *.
  set (i := Build_Input _ _ _ _ _). set (s' := set_queues _ _ _ _).
  destruct (notify_fields s') as (E1 & E2 & E3 & E4 & E5).
  split; cbn; rewrite ?E1, ?E2, ?E3, ?E4, ?E5; subst s'; cbn; rewrite ?app_nil_r; auto.
  - rewrite ok_order0, fmap_app, app_assoc. done.
  - rewrite ok_pty0, bind_app. simpl. by rewrite !app_nil_r.
  - apply Forall_app. split; [done|]. constructor; [|done]. unfold within. simpl. len_facts. lia.
  - destruct (se_input (w_session w)); [constructor|]. simpl in *. apply Forall_app. by repeat constructor.
  - by rewrite fmap_app.
  - by rewrite fmap_app.
  - rewrite queued_bytes_app. simpl. rewrite ok_bytes0. lia.
  - split; [len_lia|]. rewrite ok_bytes0 in *. pose proof (queued_bytes_nonneg (se_input (w_session w))). len_facts. lia.
  - rewrite bind_app, app_assoc, ok_held0. simpl. by rewrite app_nil_r.
  - naive_solver.
Qed.

Lemma unsent l : Forall (λ i, in_offset i = 0) l → l ≫= sent = [].
Proof.
  induction 1 as [|x l Hx _ IH]; [done|]. rewrite bind_cons, IH. unfold sent. by rewrite Hx.
Qed.

(** One call answered: it leaves the queue for [done]. *)
Lemma settled_ok failure done w i wrote rest :
  ok done w → se_input (w_session w) = i :: rest →
  ∀ i', in_bytes i' = in_bytes i → in_reply i' = in_reply i → in_reservation i' = in_reservation i →
  within i' → (failure = None → in_offset i' = len (in_bytes i)) →
  sent i' = sent i ++ pty wrote → answers wrote = [] → releases wrote = [] → resized wrote = [] →
  ok (done ++ [call_of i])
    (supervise (λ s, (set_queues rest (se_bytes s - len (in_bytes i')) (se_resize s) s,
                      wrote ++ answer_input failure i')) w).
Proof.
  intros [] Hq i' Hb Hr Hv Hw Hf Hs Ha Hl Hz. rewrite Hq in *.
  destruct (answer_one failure i') as (G1 & G2 & G3 & G4).
  inversion ok_within0; subst. simpl in ok_front0.
  split; cbn; rewrite ?pty_app, ?answers_app, ?resized_app, ?releases_app, ?G1, ?G2, ?G3, ?G4, ?Ha, ?Hl, ?Hz,
    ?app_nil_r; auto.
  - rewrite ok_order0, <-app_assoc. done.
  - apply Forall2_app; [done|]. constructor; [|constructor]. unfold honest, call_of. simpl.
    unfold within in Hw. rewrite Hr, <-Hb in *. split_and!; [done|lia..|]. intros E. rewrite Hf; congruence.
  - rewrite zip_with_app by (by eapply Forall2_length). rewrite join_app, ok_pty0, bind_cons. cbn [zip_with mjoin list_join].
    assert (E : told (call_of i) (in_reply i', {| wo_written := in_offset i'; wo_error := failure |}) = sent i')
      by (unfold told, sent, call_of; simpl; by rewrite Hb).
    cbn [app mjoin list_join]. rewrite E.
    rewrite (unsent rest ok_front0), !app_nil_r, Hs, <-!app_assoc. done.
  - destruct rest; [constructor|]. simpl. by inversion ok_front0.
  - rewrite ok_bytes0, Hb. fold (queued_bytes rest). simpl. lia.
  - rewrite Hb. split; [|len_facts; lia]. revert ok_limits0. len_lia.
  - rewrite ok_held0, bind_cons. simpl. rewrite Hv, <-app_assoc. done.
  - intros Hd. destruct (ok_drained0 Hd) as (_ & ? & _). done.
Qed.

Lemma moved_ok done w i rest i' wrote :
  ok done w → se_input (w_session w) = i :: rest →
  in_bytes i' = in_bytes i → in_reply i' = in_reply i → in_reservation i' = in_reservation i →
  within i' → sent i' = sent i ++ pty wrote → answers wrote = [] → releases wrote = [] → resized wrote = [] →
  ok done (supervise (λ s, (set_queues (i' :: rest) (se_bytes s) (se_resize s) s, wrote)) w).
Proof.
  intros [] Hq Hb Hr Hv Hw Hs Ha Hl Hz. rewrite Hq in *. inversion ok_within0; subst. simpl in ok_front0.
  split; cbn; rewrite ?pty_app, ?answers_app, ?resized_app, ?releases_app, ?Ha, ?Hl, ?Hz, ?app_nil_r; auto.
  - rewrite ok_order0. unfold call_of. simpl. by rewrite Hb, Hr.
  - rewrite ok_pty0, <-app_assoc. f_equal. rewrite bind_cons, Hs.
    by rewrite (unsent rest ok_front0), !app_nil_r.
  - rewrite ok_bytes0. simpl. by rewrite Hb.
  - by rewrite ok_held0, !bind_cons; simpl; rewrite Hv.
  - intros Hd. destruct (ok_drained0 Hd) as (_ & ? & _). done.
Qed.

Lemma sent_advance n i :
  0 <= in_offset i → 0 <= n → sent (advance n i) = sent i ++ take (Z.to_nat n) (remaining i).
Proof.
  intros H1 H2. unfold sent, advance, remaining. simpl.
  rewrite Z2Nat.inj_add by lia. rewrite take_take_drop. done.
Qed.

Lemma ready_ok now a done w :
  answer_fits a (w_session w) = true → ok done w →
  ∃ done', ok (done ++ done') (supervise (write_ready now a) w).
Proof.
  intros Hfit Hok. destruct (se_input (w_session w)) as [|i rest] eqn:Eq.
  { exists []. rewrite app_nil_r. unfold supervise, write_ready. rewrite Eq.
    replace ({| w_session := _ |}) with w; [done|]. destruct w; simpl. by rewrite app_nil_r. }
  assert (Hi : within i) by (destruct Hok as [_ _ _ H]; rewrite Eq in H; by inversion H).
  (* what the write does to the front input *)
  set (mid := if in_deadline i <=? now then (i, [], Some ProcessError_Timeout)
      else if in_offset i <? len (in_bytes i) then write_host a i else (i, [], None)).
  assert (Hmid : ∃ i' wrote failure, mid = (i', wrote, failure) ∧
    in_bytes i' = in_bytes i ∧ in_reply i' = in_reply i ∧ in_reservation i' = in_reservation i
    ∧ within i' ∧ sent i' = sent i ++ pty wrote ∧ answers wrote = [] ∧ releases wrote = [] ∧ resized wrote = []).
  { subst mid. destruct (_ <=? _); [(eexists _, _, _; split; [reflexivity|rewrite app_nil_r; by split_and!])|].
    destruct (_ <? _) eqn:El; [|(eexists _, _, _; split; [reflexivity|rewrite app_nil_r; by split_and!])].
    unfold answer_fits in Hfit. rewrite Eq in Hfit. unfold write_host.
    destruct a as [n|e]; [|destruct (ie_kind e); (eexists _, _, _; split; [reflexivity|rewrite app_nil_r; by split_and!])].
    pose proof Hi as [Hi1 Hi2]. to_props. unfold remaining in *. rewrite len_drop in * by lia.
    destruct (n =? 0) eqn:En; [(eexists _, _, _; split; [reflexivity|rewrite app_nil_r; by split_and!])|].
    eexists _, _, _. split; [done|]. simpl. split_and!; try done; unfold within; simpl; try lia.
    unfold pty. simpl. rewrite app_nil_r. apply sent_advance; lia. }
  destruct Hmid as (i' & wrote & failure & Em & Hb & Hr & Hv & Hw & Hs & Ha & Hl & Hz).
  assert (Hrun : supervise (write_ready now a) w = supervise (λ s,
    if is_some failure || (in_offset i' =? len (in_bytes i'))
    then (set_queues rest (se_bytes s - len (in_bytes i')) (se_resize s) s, wrote ++ answer_input failure i')
    else (set_queues (i' :: rest) (se_bytes s) (se_resize s) s, wrote)) w).
  { unfold supervise, write_ready. rewrite Eq. fold mid. rewrite Em. done. }
  rewrite Hrun. destruct (_ || _) eqn:Ef.
  - exists [call_of i]. eapply settled_ok; eauto. intros ->. simpl in Ef. to_props. congruence.
  - exists []. rewrite app_nil_r. eapply moved_ok; eauto.
Qed.

Lemma resize_ok size done w : ok done w → ok done (happen (Ev_resize size) w).
Proof.
  intros []. unfold happen, resize_timed.
  destruct (fresh_call _ _ (w_next w) true ok_names0 ok_fresh0) as (_ & (N2 & F2) & F).
  destruct (se_closed (w_session w)) eqn:Ec; [|destruct (is_some _) eqn:Er].
  1, 2: split; cbn; rewrite ?app_nil_r, ?Ec; auto.
  to_props. set (s' := set_queues _ _ _ _). destruct (notify_fields s') as (E1 & E2 & E3 & E4 & E5).
  split; cbn; rewrite ?E1, ?E2, ?E3, ?E4, ?E5; subst s'; cbn; rewrite ?app_nil_r; auto.
  - rewrite ok_resizes0, Er. simpl. by rewrite app_nil_r.
  - naive_solver.
Qed.

Lemma apply_ok outcome done w : ok done w → ok done (supervise (apply_resize outcome) w).
Proof.
  intros []. unfold supervise, apply_resize. destruct (se_resize (w_session w)) as [r|] eqn:Er; cbn.
  - set (l := (if is_ok outcome then _ else _) ++ _).
    assert (H : pty l = [] ∧ answers l = [] ∧ releases l = [] ∧ resized l = [re_reply r])
      by (subst l; by destruct outcome).
    destruct H as (G1 & G2 & G3 & G4).
    split; cbn; rewrite ?pty_app, ?answers_app, ?resized_app, ?releases_app, ?G1, ?G2, ?G3, ?G4, ?app_nil_r; auto.
    all: naive_solver.
  - split; cbn; rewrite ?app_nil_r, ?Er; auto.
Qed.

Lemma honest_all reason l : Forall within l →
  Forall2 honest (call_of <$> l)
    ((λ i, (in_reply i, {| wo_written := in_offset i; wo_error := Some reason |})) <$> l).
Proof.
  induction 1 as [|i l Hi _ IH]; [constructor|]. rewrite !fmap_cons. constructor; [|done].
  unfold honest, call_of. simpl. by destruct Hi.
Qed.

Lemma told_all reason l :
  mjoin (zip_with told (call_of <$> l)
    ((λ i, (in_reply i, {| wo_written := in_offset i; wo_error := Some reason |})) <$> l)) = l ≫= sent.
Proof. induction l as [|i l IH]; [done|]. rewrite !fmap_cons, bind_cons, <-IH. done. Qed.

Lemma drain_ok reason done w :
  se_closed (w_session w) = true → ok done w →
  ok (done ++ (call_of <$> se_input (w_session w))) (happen (Ev_drain reason) w).
Proof.
  intros Hc []. unfold happen, supervise, finish_drain, mark_drained.
  set (q := se_input (w_session w)) in *.
  destruct (answer_all reason q) as (G1 & G2 & G3 & G4).
  set (l := (q ≫= answer_input (Some reason)) ++ _).
  assert (H : pty l = [] ∧ answers l = answers (q ≫= answer_input (Some reason))
              ∧ releases l = (q ≫= option_list ∘ in_reservation)
              ∧ resized l = option_list (re_reply <$> se_resize (w_session w))).
  { subst l. rewrite pty_app, answers_app, releases_app, resized_app, G1, G2, G3.
    destruct (se_resize _); cbn; by rewrite ?app_nil_r. }
  destruct H as (L1 & L2 & L3 & L4). rewrite G4 in L2.
  split; cbn; rewrite ?pty_app, ?answers_app, ?resized_app, ?releases_app, ?L1, ?L2, ?L3, ?L4, ?app_nil_r; auto.
  - apply Forall2_app; [done|]. by apply honest_all.
  - rewrite zip_with_app by (by eapply Forall2_length). by rewrite join_app, ok_pty0, told_all.
  - split; [len_lia | lia].
Qed.

Lemma call_step_ok e done w : ok done w → ∃ done', ok (done ++ done') (step e w).
Proof.
  intros Hok. unfold step. destruct (possible e w) eqn:Hp; [|exists []; by rewrite app_nil_r].
  assert (Hsame : ∀ w', ok done w' → ∃ done', ok (done ++ done') w') by (intros; exists []; by rewrite app_nil_r).
  destruct e; cbn [happen possible] in *.
  - apply Hsame. by apply write_ok.
  - apply Hsame. by apply resize_ok.
  - apply Hsame. apply (flags_ok (fst ∘ request_cancel)); try done; unfold request_cancel; simpl; case_match; try done;
      unfold notify; case_match; try done; by simpl.
  - by apply ready_ok.
  - apply Hsame. by apply apply_ok.
  - apply Hsame. by apply (flags_ok finish_close).
  - eexists. by apply drain_ok.
  - apply Hsame. apply (flags_ok stop); try done; unfold stop, poke_reader; by case_match.
  - apply Hsame. apply (flags_ok note_workload_exit); try done; unfold note_workload_exit, poke_reader; by case_match.
  - apply Hsame. by apply (flags_ok release_wakes).
  - apply Hsame. by apply (flags_ok (λ s, set_flags _ _ _ _ done0 failed s)).
Qed.

Lemma calls_ok es done w : ok done w → ∃ done', ok (done ++ done') (steps es w).
Proof.
  revert done w. induction es as [|e es IH]; intros done w Hok; [exists []; by rewrite app_nil_r|].
  destruct (call_step_ok e done w Hok) as [d Hd]. destruct (IH _ _ Hd) as [d' Hd'].
  exists (d ++ d'). by rewrite app_assoc.
Qed.

(** The limits never change. *)
Lemma call_limits e w : se_limits (w_session (step e w)) = se_limits (w_session w).
Proof.
  unfold step. destruct (possible e w); [|done]. destruct e; cbn [happen].
  - unfold write_reserved. destruct (se_closed _); [done|]. destruct (_ || _); [done|]. cbn. by rewrite (proj1 (notify_fields _)).
  - unfold resize_timed. destruct (se_closed _); [done|]. destruct (is_some _); [done|]. cbn. by rewrite (proj1 (notify_fields _)).
  - cbn. unfold request_cancel. destruct (se_closed _); [done|]. cbn. by rewrite (proj1 (notify_fields _)).
  - unfold supervise, write_ready. destruct (se_input (w_session w)) as [|i l]; [done|].
    generalize (if in_deadline i <=? now then (i, [], Some ProcessError_Timeout)
      else if in_offset i <? len (in_bytes i) then write_host a i else (i, [], None)).
    intros [[j ?] ?]. by destruct (_ || _).
  - unfold supervise, apply_resize. by destruct (se_resize _).
  - done.
  - done.
  - cbn. unfold stop. by rewrite (proj1 (poke_fields _)).
  - cbn. unfold note_workload_exit. by rewrite (proj1 (poke_fields _)).
  - done.
  - done.
Qed.

Lemma calls_limits es w : se_limits (w_session (steps es w)) = se_limits (w_session w).
Proof. revert w. induction es as [|e es IH]; intros w; [done|]. etrans; [apply IH | apply call_limits]. Qed.

(** A call has a name of its own. *)
Lemma answers_named done l : Forall2 honest done l → fst <$> l = fst <$> done.
Proof. induction 1 as [|c a done l [E _] _ IH]; [done|]. by rewrite !fmap_cons, E, IH. Qed.

(** ** Properties *)

(** C14: Input reaches the terminal in order and in full.  The writes that were
    admitted are answered in the order they were admitted; each answer tells how
    much of its write reached the PTY, all of it unless it names an error; and what
    the PTY was given is exactly what the answers tell, followed by the part of the
    oldest waiting write that went out so far.  What waits stays within the
    configured number of writes and bytes, and the byte count is exact. *)
Theorem inputs_in_order (limits : ProcessLimits) (es : list event) :
  let w := steps es (World_new limits) in
  let queue := se_input (w_session w) in
  ∃ done,
    w_admitted w = done ++ (call_of <$> queue)
    ∧ Forall2 honest done (answers (w_log w))
    ∧ pty (w_log w) = mjoin (zip_with told done (answers (w_log w))) ++ (queue ≫= sent)
    ∧ Forall (λ i, in_offset i = 0) (tail queue)
    ∧ se_bytes (w_session w) = queued_bytes queue
    ∧ len queue <= Z.max 0 (pl_input_slots limits) ∧ queued_bytes queue <= Z.max 0 (pl_input_bytes limits).
Proof.
  intros w queue. destruct (calls_ok es [] _ (no_calls_ok limits)) as [done []]. exists done.
  rewrite calls_limits in ok_limits0. destruct ok_limits0. subst queue w. rewrite <-ok_bytes0. done.
Qed.

(** C15: Every call is settled exactly once.  No write or resize is answered twice,
    those not answered yet are the ones still queued, and a reservation is given
    back with the answer or the refusal of its write; once the session was drained
    everything that was ever admitted has been answered, every reservation is back,
    and nothing is admitted any more. *)
Theorem calls_settled (limits : ProcessLimits) (es : list event) :
  let w := steps es (World_new limits) in
  let s := w_session w in
  NoDup ((fst <$> answers (w_log w)) ++ resized (w_log w))
  ∧ fst <$> w_admitted w = (fst <$> answers (w_log w)) ++ (in_reply <$> se_input s)
  ∧ w_resizes w = resized (w_log w) ++ option_list (re_reply <$> se_resize s)
  ∧ w_given w ≡ₚ releases (w_log w) ++ (se_input s ≫= option_list ∘ in_reservation)
  ∧ (w_drained w = true →
       fst <$> answers (w_log w) = fst <$> w_admitted w ∧ resized (w_log w) = w_resizes w
       ∧ w_given w ≡ₚ releases (w_log w)
       ∧ ∀ bytes reservation now ticket,
           (write_reserved bytes reservation now ticket s).2 = Err ProcessError_Closed).
Proof.
  intros w s. destruct (calls_ok es [] _ (no_calls_ok limits)) as [done Hok]. cbn [app] in Hok.
  change (ok done w) in Hok. clearbody w. destruct Hok. subst s.
  assert (Ha : fst <$> w_admitted w = (fst <$> answers (w_log w)) ++ (in_reply <$> se_input (w_session w))).
  { rewrite ok_order0, fmap_app, (answers_named done) by done. f_equal. by rewrite <-list_fmap_compose. }
  split_and!; try done.
  - rewrite Ha, ok_resizes0 in ok_names0. apply NoDup_app in ok_names0 as (N1 & N2 & N3).
    apply NoDup_app in N1 as (N1 & _ & _). apply NoDup_app in N3 as (N3 & _ & _).
    apply NoDup_app. split_and!; [done| |done]. intros x Hx Hr. apply (N2 x); apply elem_of_app; by left.
  - intros Hd. destruct (ok_drained0 Hd) as (Hc & Hi & Hz). rewrite Ha, Hi, ok_resizes0, Hz in *.
    split_and!; try (by rewrite app_nil_r); [by rewrite ok_held0; simpl; rewrite app_nil_r|].
    intros. unfold write_reserved. by rewrite Hc.
Qed.

(** A short write, its rest, a resize, and the drain of what is left. *)
Definition demo : list event := [
  Ev_write [1; 2; 3] (Some 7%nat) 0; Ev_write [4] None 0; Ev_ready 0 (Write_count 2); Ev_ready 0 (Write_count 1);
  Ev_close; Ev_write [5] (Some 8%nat) 0; Ev_drain ProcessError_Closed].
Definition demo_limits : ProcessLimits := {|
  pl_input_slots := 4; pl_input_bytes := 16; pl_input_chunk := 8; pl_read_chunk := 8; pl_reader_stack_bytes := 65536;
  pl_write_timeout := 1000; pl_terminate_grace := 1000; pl_drain_timeout := 1000 |}.

Example demo_writes :
  let w := steps demo (World_new demo_limits) in
  pty (w_log w) = [1; 2; 3]
  ∧ answers (w_log w) = [(0%nat, {| wo_written := 3; wo_error := None |});
                         (1%nat, {| wo_written := 0; wo_error := Some ProcessError_Closed |})]
  ∧ releases (w_log w) = [7%nat; 8%nat].
Proof. vm_compute. auto. Qed.
