(* ===== verification/Reader.v ===== *)
(** * The PTY reader (crates/infrastructure/src/process/io.rs)

    The dedicated thread that reads one PTY and offers what it read to the
    session's events.  A program counter names the point of [reader] and
    [read_loop] the thread is at; a step runs to the next system call, call of
    the events or load of a flag another thread writes.  Around it stand the
    shared session of [Inputs] and a model of the documented behaviour of a
    PTY: bytes come out in the order they were written, and an end of file is
    only reported for good when no child endpoint is open and nothing is left. *)

From S2P Require Import Prelude Process OsErrors Queue Inputs.

(** ** The thread *)

Inductive point :=
  | At_top                        (* the outer loop: stop? *)
  | At_poll                       (* in poll *)
  | At_wake                       (* drain_wake *)
  | At_woken                      (* stop? *)
  | At_check                      (* the reading loop: stop? *)
  | At_read                       (* host.read *)
  | At_end                        (* Ok(0): retained.is_none()? workload_exited? *)
  | At_blocked                    (* WouldBlock: workload_exited? *)
  | At_offer (bytes : list Z)     (* the offering loop: stop? *)
  | At_sink (bytes : list Z)      (* events.output_observed *)
  | At_wait (bytes : list Z)      (* events.wait_for_capacity *)
  | At_return (o : DrainOutcome)  (* read_loop has returned, or panicked *)
  | At_drained (o : DrainOutcome) (* events.drained *)
  | At_done                       (* reader_done, notify *)
  | At_exit.

Record Reader := {
  rd_at : point;
  (* the retained child endpoint is still open *)
  rd_retained : bool;
  (* history: what was read, what the events accepted, what they were told *)
  rd_read : list Z;
  rd_accepted : list Z;
  rd_drained : list DrainOutcome
}.

Definition Reader_new : Reader := {|
  rd_at := At_top; rd_retained := true; rd_read := []; rd_accepted := []; rd_drained := [] |}.

Definition go (p : point) (r : Reader) : Reader := {|
  rd_at := p; rd_retained := rd_retained r; rd_read := rd_read r; rd_accepted := rd_accepted r;
  rd_drained := rd_drained r |}.
Definition release_to (p : point) (r : Reader) : Reader := {|
  rd_at := p; rd_retained := false; rd_read := rd_read r; rd_accepted := rd_accepted r;
  rd_drained := rd_drained r |}.
Definition got (bytes : list Z) (r : Reader) : Reader := {|
  rd_at := At_offer bytes; rd_retained := rd_retained r; rd_read := rd_read r ++ bytes;
  rd_accepted := rd_accepted r; rd_drained := rd_drained r |}.
Definition took (bytes : list Z) (r : Reader) : Reader := {|
  rd_at := At_check; rd_retained := rd_retained r; rd_read := rd_read r;
  rd_accepted := rd_accepted r ++ bytes; rd_drained := rd_drained r |}.
Definition told_drained (o : DrainOutcome) (r : Reader) : Reader := {|
  rd_at := At_done; rd_retained := rd_retained r; rd_read := rd_read r;
  rd_accepted := rd_accepted r; rd_drained := rd_drained r ++ [o] |}.

(** What the thread is answered at its next call. *)
Inductive answer :=
  | Ans_none
  | Ans_poll (r : result Io_error ())
  | Ans_read (r : result Io_error (list Z))
  | Ans_sink (a : OutputAcceptance)
  | Ans_panic.

Definition unless_stopped (s : Session) (p : point) (r : Reader) : Reader :=
  go (if se_stop_reader s then At_return DrainOutcome_Truncated else p) r.

(** [drain_wake]: the socket is read until it has nothing more. *)
Definition drain_wake (s : Session) : Session := set_wakes (se_wakes s) (se_woken s) false s.

(** The answer of [host.read]. *)
Definition on_read (a : result Io_error (list Z)) (r : Reader) : Reader :=
  match a with
  | Ok [] => if rd_retained r then go At_end r else go (At_return DrainOutcome_Eof) r
  | Ok bytes => got bytes r
  | Err e =>
    if bool_decide (ie_kind e = Kind_Interrupted) then go At_check r
    else if bool_decide (ie_kind e = Kind_WouldBlock) then go At_blocked r
    else if bool_decide (ie_raw_os_error e = Some EIO)
    then go (if rd_retained r then At_top else At_return DrainOutcome_Eof) r
    else go (At_return (DrainOutcome_Failed (error e))) r
  end.

Definition on_poll (a : result Io_error ()) (r : Reader) : Reader :=
  match a with
  | Ok _ => go At_wake r
  | Err e =>
    if bool_decide (ie_kind e = Kind_Interrupted) then go At_top r
    else go (At_return (DrainOutcome_Failed ProcessError_Io)) r
  end.

Definition on_sink (bytes : list Z) (a : OutputAcceptance) (r : Reader) : Reader :=
  match a with
  | Accepted => took bytes r
  | Acceptance_Closed => go (At_return DrainOutcome_Truncated) r
  | Backpressure => go (At_wait bytes) r
  end.

(** The tail of [reader], after [read_loop]: the endpoint is released whatever
    the outcome, and a failure is published before the events hear of it. *)
Definition finish_read (o : DrainOutcome) (s : Session) : Session :=
  match o with
  | DrainOutcome_Failed _ =>
    notify (set_flags (se_cancel s) (se_closed s) (se_stop_reader s) (se_workload_exited s)
              (se_reader_done s) true s)
  | _ => s
  end.

Definition finish_reader (s : Session) : Session :=
  notify (set_flags (se_cancel s) (se_closed s) (se_stop_reader s) (se_workload_exited s)
            true (se_reader_failed s) s).

(** One step of [reader].  A panic of the events is caught where it happens. *)
Definition reader_step (a : answer) (s : Session) (r : Reader) : Session * Reader :=
  match rd_at r, a with
  | At_top, _ => (s, unless_stopped s At_poll r)
  | At_poll, Ans_poll x => (s, on_poll x r)
  | At_wake, _ => (drain_wake s, go At_woken r)
  | At_woken, _ => (s, unless_stopped s At_check r)
  | At_check, _ => (s, unless_stopped s At_read r)
  | At_read, Ans_read x => (s, on_read x r)
  | At_end, _ => (s, if se_workload_exited s then release_to At_check r else go At_top r)
  | At_blocked, _ =>
    (s, if se_workload_exited s && rd_retained r then release_to At_check r else go At_top r)
  | At_offer bytes, _ => (s, unless_stopped s (At_sink bytes) r)
  | At_sink bytes, Ans_sink x => (s, on_sink bytes x r)
  | At_sink _, Ans_panic | At_wait _, Ans_panic =>
    (s, go (At_return (DrainOutcome_Failed ProcessError_Internal)) r)
  | At_wait bytes, _ => (s, go (At_offer bytes) r)
  | At_return o, _ => (finish_read o s, release_to (At_drained o) r)
  | At_drained o, _ => (s, told_drained o r)
  | At_done, _ => (finish_reader s, go At_exit r)
  | _, _ => (s, r)
  end.

(** ** The PTY and the other threads *)

Record World := {
  w_session : Session;
  w_reader : Reader;
  (* bytes the PTY holds, and all it was ever given *)
  w_pending : list Z;
  w_produced : list Z;
  (* a process other than the reader's own holds the child endpoint *)
  w_others : bool
}.

Definition World_new (limits : ProcessLimits) : World := {|
  w_session := Session_new limits; w_reader := Reader_new; w_pending := []; w_produced := [];
  w_others := true |}.

Inductive event :=
  | Ev_reader (a : answer)
  | Ev_output (bytes : list Z)  (* a process writes to its terminal *)
  | Ev_closed                   (* the last of them closes it *)
  | Ev_stop                     (* [Session::stop] *)
  | Ev_exited.                  (* [Session::note_workload_exit] *)

(** No child endpoint is open. *)
Definition hung_up (w : World) : bool := negb (w_others w) && negb (rd_retained (w_reader w)).

Definition is_prefix (l k : list Z) : bool := bool_decide (take (length l) k = l).

(** The answers of the system: [poll] sleeps until something is there; a read
    returns the next bytes, at most the scratch buffer; it may report that
    nothing is there for now at any time.  The end of the terminal is reported
    when nothing is left and either no child endpoint is open or, as macOS does,
    the workload has gone; [EIO] only in the first case. *)
Definition possible (e : event) (w : World) : bool :=
  match e with
  | Ev_reader a =>
    match rd_at (w_reader w), a with
    | At_poll, Ans_poll (Ok _) =>
      se_poked (w_session w) || negb (se_wakes (w_session w)) || negb (bool_decide (w_pending w = []))
      || negb (w_others w)
    | At_poll, Ans_poll (Err _) => true
    | At_read, Ans_read (Ok []) => bool_decide (w_pending w = []) && negb (w_others w)
    | At_read, Ans_read (Ok bytes) =>
      is_prefix bytes (w_pending w) && (len bytes <=? pl_read_chunk (se_limits (w_session w)))
    | At_read, Ans_read (Err e) =>
      negb (bool_decide (ie_raw_os_error e = Some EIO)) || (bool_decide (w_pending w = []) && hung_up w)
    | _, _ => true
    end
  | Ev_output _ => w_others w
  | _ => true
  end.

Definition put_session (s : Session) (w : World) : World := {|
  w_session := s; w_reader := w_reader w; w_pending := w_pending w; w_produced := w_produced w;
  w_others := w_others w |}.

(** Bytes that are read leave the PTY. *)
Definition taken (p : point) (a : answer) : list Z :=
  match p, a with At_read, Ans_read (Ok bytes) => bytes | _, _ => [] end.

Definition happen (e : event) (w : World) : World :=
  match e with
  | Ev_reader a =>
    let '(s, r) := reader_step a (w_session w) (w_reader w) in
    {| w_session := s; w_reader := r;
       w_pending := drop (length (taken (rd_at (w_reader w)) a)) (w_pending w);
       w_produced := w_produced w; w_others := w_others w |}
  | Ev_output bytes => {| w_session := w_session w; w_reader := w_reader w;
      w_pending := w_pending w ++ bytes; w_produced := w_produced w ++ bytes; w_others := w_others w |}
  | Ev_closed => {| w_session := w_session w; w_reader := w_reader w; w_pending := w_pending w;
      w_produced := w_produced w; w_others := false |}
  | Ev_stop => put_session (stop (w_session w)) w
  | Ev_exited => put_session (note_workload_exit (w_session w)) w
  end.

Definition step (e : event) (w : World) : World := if possible e w then happen e w else w.
Definition steps (es : list event) (w : World) : World := foldl (flip step) w es.

(** ** What holds between any two steps *)

(** What was read and is neither accepted nor dropped. *)
Definition in_hand (p : point) : list Z :=
  match p with At_offer b | At_sink b | At_wait b => b | _ => [] end.

(** How far the thread is from telling the events. *)
Definition reporting (p : point) : option DrainOutcome :=
  match p with At_return o | At_drained o => Some o | _ => None end.
Definition over (p : point) : bool := match p with At_done | At_exit => true | _ => false end.
Definition closing (p : point) : bool := over p || is_some (reporting p).
Definition is_failure (o : DrainOutcome) : bool :=
  match o with DrainOutcome_Failed _ => true | _ => false end.

Definition after_release (p : point) : bool :=
  match p with At_drained _ | At_done | At_exit => true | _ => false end.

(** The outcome that was, or is going to be, reported. *)
Definition outcome (r : Reader) : option DrainOutcome :=
  match reporting (rd_at r) with Some o => Some o | None => head (rd_drained r) end.

Record ok (w : World) : Prop := {
  ok_stream : w_produced w = rd_read (w_reader w) ++ w_pending w;
  ok_chunk : len (in_hand (rd_at (w_reader w))) <= Z.max 0 (pl_read_chunk (se_limits (w_session w)));
  ok_hand : closing (rd_at (w_reader w)) = false →
    rd_read (w_reader w) = rd_accepted (w_reader w) ++ in_hand (rd_at (w_reader w));
  ok_lost : ∃ lost, rd_read (w_reader w) = rd_accepted (w_reader w) ++ lost
    ∧ len lost <= Z.max 0 (pl_read_chunk (se_limits (w_session w)));
  ok_once : length (rd_drained (w_reader w)) = if over (rd_at (w_reader w)) then 1%nat else O;
  ok_eof : outcome (w_reader w) = Some DrainOutcome_Eof →
    rd_read (w_reader w) = rd_accepted (w_reader w) ∧ w_pending w = [] ∧ w_others w = false
    ∧ se_workload_exited (w_session w) = true;
  ok_retained : rd_retained (w_reader w) = false →
    closing (rd_at (w_reader w)) = true ∨ se_workload_exited (w_session w) = true;
  ok_released : after_release (rd_at (w_reader w)) = true → rd_retained (w_reader w) = false;
  ok_failed : ∀ o, rd_drained (w_reader w) = [o] ∨ rd_at (w_reader w) = At_drained o →
    is_failure o = true → se_reader_failed (w_session w) = true;
  ok_done : se_reader_done (w_session w) = true ↔ rd_at (w_reader w) = At_exit;
  ok_wakes : se_wakes (w_session w) = true;
  ok_asleep : rd_at (w_reader w) = At_poll → se_stop_reader (w_session w) = true →
    se_poked (w_session w) = true;
  ok_resting : rd_at (w_reader w) = At_top ∨ rd_at (w_reader w) = At_poll →
    se_workload_exited (w_session w) = true → rd_retained (w_reader w) = true → se_poked (w_session w) = true
}.

(** The fields of the session the reader looks at, and what sets them. *)
Lemma notify_wakes s :
  se_limits (notify s) = se_limits s ∧ se_stop_reader (notify s) = se_stop_reader s
  ∧ se_workload_exited (notify s) = se_workload_exited s ∧ se_reader_done (notify s) = se_reader_done s
  ∧ se_reader_failed (notify s) = se_reader_failed s ∧ se_wakes (notify s) = se_wakes s
  ∧ se_poked (notify s) = se_poked s.
Proof. unfold notify. by destruct (se_wakes s) eqn:E. Qed.

Lemma World_new_ok limits : ok (World_new limits).
Proof.
  split; cbn; try done; try (rewrite ?len_nil; lia); try naive_solver.
  exists []. split; [done|]. rewrite len_nil. lia.
Qed.

(** Events of other threads. *)
Lemma others_ok e w : (∀ a, e ≠ Ev_reader a) → possible e w = true → ok w → ok (happen e w).
Proof.
  intros Hne Hp []. destruct e as [a|bytes| | |]; [by destruct (Hne a)|..]; cbn [possible happen] in *.
  - split; cbn; auto.
    + by rewrite ok_stream0, app_assoc.
    + intros H. destruct (ok_eof0 H) as (_ & _ & ? & _). congruence.
  - split; cbn; auto. intros H. destruct (ok_eof0 H) as (? & ? & ? & ?). done.
  - unfold put_session, stop, poke_reader. cbn. rewrite ok_wakes0. split; cbn; auto.
  - unfold put_session, note_workload_exit, poke_reader. cbn. rewrite ok_wakes0. split; cbn; auto.
    intros H. destruct (ok_eof0 H) as (? & ? & ? & ?). done.
Qed.

Lemma same_ok w :
  ok w → ok {| w_session := w_session w; w_reader := w_reader w; w_pending := drop 0 (w_pending w);
               w_produced := w_produced w; w_others := w_others w |}.
Proof. destruct w. done. Qed.

Lemma not_closing p :
  closing p = false → over p = false ∧ reporting p = None ∧ after_release p = false.
Proof. by destruct p. Qed.

Lemma silent w : ok w → over (rd_at (w_reader w)) = false → rd_drained (w_reader w) = [].
Proof. intros [] H. rewrite H in ok_once0. by apply length_zero_iff_nil. Qed.

Lemma undone w : ok w → over (rd_at (w_reader w)) = false → se_reader_done (w_session w) = false.
Proof.
  intros [] H. apply not_true_iff_false. intros E. apply ok_done0 in E. by rewrite E in H.
Qed.

(** A step that reads nothing, keeps the session and stays in [read_loop] with
    the same bytes in hand. *)
Lemma move_ok p w :
  ok w → closing (rd_at (w_reader w)) = false → closing p = false →
  in_hand p = in_hand (rd_at (w_reader w)) →
  (p = At_poll → se_stop_reader (w_session w) = false) →
  (p = At_top ∨ p = At_poll → (rd_at (w_reader w) = At_top ∨ rd_at (w_reader w) = At_poll)
     ∨ (se_workload_exited (w_session w) = false ∨ rd_retained (w_reader w) = false)) →
  ok {| w_session := w_session w; w_reader := go p (w_reader w); w_pending := w_pending w;
        w_produced := w_produced w; w_others := w_others w |}.
Proof.
  intros Hok Hc Hp Hh Hs Ht. destruct (not_closing _ Hc) as (Hc1 & Hc2 & _), (not_closing _ Hp) as (Hp1 & Hp2 & Hp3).
  pose proof (silent w Hok Hc1) as Hd. pose proof (undone w Hok Hc1) as Hn. destruct Hok.
  specialize (ok_hand0 Hc).
  split; cbn; unfold outcome; cbn; rewrite ?Hd, ?Hp, ?Hp1, ?Hp2, ?Hp3, ?Hh, ?Hn; cbn; auto; try done.
  - intros Hr. destruct (ok_retained0 Hr); [congruence | auto].
  - intros o [?|?]; [done | subst p; done].
  - split; [done | by intros ->].
  - intros E. rewrite (Hs E). done.
  - intros E He Hr. destruct (Ht E) as [?|[?|?]]; [auto|congruence..].
Qed.

(** [read_loop] returns, with what it has in hand lost. *)
Lemma return_ok o w :
  ok w → closing (rd_at (w_reader w)) = false →
  (o = DrainOutcome_Eof → in_hand (rd_at (w_reader w)) = [] ∧ w_pending w = [] ∧ w_others w = false
     ∧ rd_retained (w_reader w) = false) →
  ok {| w_session := w_session w; w_reader := go (At_return o) (w_reader w); w_pending := w_pending w;
        w_produced := w_produced w; w_others := w_others w |}.
Proof.
  intros Hok Hc He. destruct (not_closing _ Hc) as (Hc1 & Hc2 & _).
  pose proof (silent w Hok Hc1) as Hd. pose proof (undone w Hok Hc1) as Hn. destruct Hok.
  specialize (ok_hand0 Hc).
  split; cbn; unfold outcome; cbn; rewrite ?Hd, ?Hn; cbn; auto; try done.
  - rewrite len_nil. lia.
  - intros [= ->]. destruct (He eq_refl) as (Hh & ? & ? & Hr). rewrite Hh, app_nil_r in ok_hand0.
    split_and!; auto. destruct (ok_retained0 Hr); congruence.
  - by intros o' [?|?].
  - naive_solver.
Qed.

(** The reader lets the endpoint go after the workload has exited. *)
Lemma release_ok w :
  ok w → rd_at (w_reader w) = At_end ∨ rd_at (w_reader w) = At_blocked →
  se_workload_exited (w_session w) = true →
  ok {| w_session := w_session w; w_reader := release_to At_check (w_reader w); w_pending := w_pending w;
        w_produced := w_produced w; w_others := w_others w |}.
Proof.
  intros [] Hp Hx.
  split; cbn; unfold outcome, closing in *; destruct Hp as [Hp|Hp]; rewrite Hp in *; cbn in *; auto; naive_solver.
Qed.

(** Bytes come out of the PTY, and are in hand. *)
Lemma got_ok bytes w :
  ok w → rd_at (w_reader w) = At_read → is_prefix bytes (w_pending w) = true →
  len bytes <= pl_read_chunk (se_limits (w_session w)) →
  ok {| w_session := w_session w; w_reader := got bytes (w_reader w);
        w_pending := drop (length bytes) (w_pending w); w_produced := w_produced w; w_others := w_others w |}.
Proof.
  intros [] Hp Hpre Hl. unfold is_prefix in Hpre. to_props.
  unfold outcome, closing in *. rewrite Hp in *. cbn in *.
  specialize (ok_hand0 eq_refl). rewrite app_nil_r in ok_hand0.
  assert (Hs : bytes ++ drop (length bytes) (w_pending w) = w_pending w)
    by (rewrite <-Hpre at 1; apply take_drop).
  split; cbn; auto; try done.
  - by rewrite <-app_assoc, Hs.
  - lia.
  - intros _. by rewrite ok_hand0.
  - exists bytes. rewrite ok_hand0. split; [done|lia].
  - destruct (rd_drained (w_reader w)); done.
  - naive_solver.
  - naive_solver.
  - naive_solver.
Qed.

(** What is left of an invariant at a known point. *)
Ltac at_point := intros; destruct_or?; simplify_eq/=; first
  [ done | by split | by eauto
  | match goal with H : se_reader_done _ = true ↔ _ |- _ => clear -H; naive_solver end ].

(** The events accept what is in hand. *)
Lemma took_ok bytes w :
  ok w → rd_at (w_reader w) = At_sink bytes →
  ok {| w_session := w_session w; w_reader := took bytes (w_reader w); w_pending := w_pending w;
        w_produced := w_produced w; w_others := w_others w |}.
Proof.
  intros Hok Hp. pose proof (silent w Hok) as Hd. pose proof (undone w Hok) as Hn. destruct Hok.
  unfold outcome, closing in *. rewrite Hp in *. cbn in *. specialize (ok_hand0 eq_refl).
  split; cbn; rewrite ?Hd, ?Hn by done; cbn; auto; try (rewrite len_nil; lia); try at_point.
  - intros _. by rewrite app_nil_r.
  - exists []. rewrite app_nil_r, len_nil. split; [done|lia].
Qed.

(** The tail of [reader]. *)
Lemma tail_ok a w :
  ok w → closing (rd_at (w_reader w)) = true → ok (happen (Ev_reader a) w).
Proof.
  intros [] Hc. unfold happen, reader_step.
  destruct (rd_at (w_reader w)) eqn:Hp; try done; cbn [taken drop length].
  - (* read_loop has returned *)
    unfold finish_read. destruct (notify_wakes (set_flags (se_cancel (w_session w)) (se_closed (w_session w))
      (se_stop_reader (w_session w)) (se_workload_exited (w_session w)) (se_reader_done (w_session w)) true
      (w_session w))) as (E1 & E2 & E3 & E4 & E5 & E6 & E7).
    unfold outcome, closing in *. rewrite ?Hp in *. cbn in *. apply length_zero_iff_nil in ok_once0.
    destruct o; split; cbn; unfold outcome, closing; cbn; rewrite ?ok_once0, ?E1, ?E2, ?E3, ?E4, ?E5, ?E6, ?E7;
      cbn; auto; at_point.
  - (* the events are told *)
    unfold outcome, closing in *. rewrite ?Hp in *. cbn in *. apply length_zero_iff_nil in ok_once0.
    split; cbn; unfold outcome, closing; cbn; rewrite ?ok_once0; cbn; auto; at_point.
  - (* the session is told *)
    unfold finish_reader. destruct (notify_wakes (set_flags (se_cancel (w_session w)) (se_closed (w_session w))
      (se_stop_reader (w_session w)) (se_workload_exited (w_session w)) true (se_reader_failed (w_session w))
      (w_session w))) as (E1 & E2 & E3 & E4 & E5 & E6 & E7).
    unfold outcome, closing in *. rewrite ?Hp in *. cbn in *.
    split; cbn; unfold outcome, closing; cbn; rewrite ?E1, ?E2, ?E3, ?E4, ?E5, ?E6, ?E7; cbn; auto; at_point.
  - destruct w. cbn in *. split; cbn; unfold outcome, closing in *; rewrite ?Hp in *; cbn in *; auto; try done.
Qed.

(** [host.read] *)
Lemma read_ok x w :
  ok w → rd_at (w_reader w) = At_read → possible (Ev_reader (Ans_read x)) w = true →
  ok (happen (Ev_reader (Ans_read x)) w).
Proof.
  intros Hok Hp. cbn [possible happen]. unfold reader_step. rewrite Hp. cbn [taken].
  assert (Hc : closing (rd_at (w_reader w)) = false) by by rewrite Hp.
  assert (Hh : in_hand (rd_at (w_reader w)) = []) by by rewrite Hp.
  destruct x as [[|b bytes]|e]; cbn [on_read length].
  - intros H. to_props. destruct (rd_retained (w_reader w)) eqn:Hr.
    + apply move_ok; auto; naive_solver.
    + apply return_ok; auto.
  - intros H. to_props. by apply (got_ok (b :: bytes)).
  - intros H. change (drop 0 (w_pending w)) with (w_pending w).
    destruct (bool_decide (ie_kind e = Kind_Interrupted)); [apply move_ok; auto; naive_solver|].
    destruct (bool_decide (ie_kind e = Kind_WouldBlock)); [apply move_ok; auto; naive_solver|].
    destruct (bool_decide (ie_raw_os_error e = Some EIO)); [|by apply return_ok].
    (* nothing is left and no endpoint is open *)
    simpl in H. unfold hung_up in H. to_props. destruct (rd_retained (w_reader w)) eqn:Hr; [done|].
    apply return_ok; auto.
Qed.

Lemma drain_wake_ok w : ok w → rd_at (w_reader w) = At_wake →
  ok {| w_session := drain_wake (w_session w); w_reader := go At_woken (w_reader w);
        w_pending := w_pending w; w_produced := w_produced w; w_others := w_others w |}.
Proof.
  intros Hok Hp. pose proof (silent w Hok) as Hd. pose proof (undone w Hok) as Hn. destruct Hok.
  unfold outcome, closing in *. rewrite Hp in *. cbn in *.
  split; cbn; rewrite ?Hd, ?Hn by done; cbn; auto; at_point.
Qed.

(** Nothing is there: the endpoint is let go if the workload has exited. *)
Lemma end_ok w : ok w → rd_at (w_reader w) = At_end →
  ok {| w_session := w_session w;
        w_reader := if se_workload_exited (w_session w) then release_to At_check (w_reader w)
                    else go At_top (w_reader w);
        w_pending := w_pending w; w_produced := w_produced w; w_others := w_others w |}.
Proof.
  intros Hok Hp. destruct (se_workload_exited (w_session w)) eqn:Hx; [apply release_ok; auto|].
  apply move_ok; rewrite ?Hp; auto; naive_solver.
Qed.

Lemma blocked_ok w : ok w → rd_at (w_reader w) = At_blocked →
  ok {| w_session := w_session w;
        w_reader := if se_workload_exited (w_session w) && rd_retained (w_reader w)
                    then release_to At_check (w_reader w) else go At_top (w_reader w);
        w_pending := w_pending w; w_produced := w_produced w; w_others := w_others w |}.
Proof.
  intros Hok Hp. destruct (_ && _) eqn:Hx; [to_props; apply release_ok; auto|]. apply andb_false_iff in Hx.
  apply move_ok; rewrite ?Hp; auto; naive_solver.
Qed.

Lemma reader_ok a w : possible (Ev_reader a) w = true → ok w → ok (happen (Ev_reader a) w).
Proof.
  intros Hpos Hok. destruct (closing (rd_at (w_reader w))) eqn:Hc; [by apply tail_ok|].
  pose proof (same_ok w Hok) as Hsame.
  assert (Hstay : ∀ p, closing p = false → in_hand p = in_hand (rd_at (w_reader w)) →
      p ≠ At_top → p ≠ At_poll → ok {| w_session := w_session w; w_reader := go p (w_reader w);
        w_pending := w_pending w; w_produced := w_produced w; w_others := w_others w |})
    by (intros; apply move_ok; auto; naive_solver).
  assert (Hstop : ∀ p, closing p = false → in_hand p = in_hand (rd_at (w_reader w)) →
      p ≠ At_top → (p = At_poll → rd_at (w_reader w) = At_top) →
      ok {| w_session := w_session w; w_reader := unless_stopped (w_session w) p (w_reader w);
        w_pending := w_pending w; w_produced := w_produced w; w_others := w_others w |}).
  { intros p ????. unfold unless_stopped. destruct (se_stop_reader (w_session w)) eqn:Hs;
      [apply return_ok; auto; done | apply move_ok; auto; naive_solver]. }
  destruct (rd_at (w_reader w)) eqn:Hp; try done; try (destruct a; (by apply read_ok) || idtac);
    unfold happen, reader_step; rewrite Hp; try exact Hsame; cbn [taken length drop];
    try (apply Hstop; done); try (apply Hstay; done); try (by apply drain_wake_ok);
    try (by apply end_ok); try (by apply blocked_ok).
  - (* poll *)
    unfold on_poll. destruct r as [|e]; [by apply Hstay|].
    case_bool_decide; [apply move_ok; rewrite ?Hp; auto; naive_solver | by apply return_ok; rewrite ?Hp].
  - (* the events answer *)
    destruct a; cbn [on_sink]; [by apply took_ok | by apply Hstay | by apply return_ok; rewrite ?Hp].
  - by apply return_ok; rewrite ?Hp.
  - by apply return_ok; rewrite ?Hp.
Qed.

Lemma step_ok e w : ok w → ok (step e w).
Proof.
  intros Hok. unfold step. destruct (possible e w) eqn:Hp; [|done].
  destruct e as [a| | | |]; [by apply reader_ok | apply others_ok; done ..].
Qed.

Lemma steps_ok es w : ok w → ok (steps es w).
Proof. revert w. induction es as [|e es IH]; intros w Hok; [done|]. apply IH. by apply step_ok. Qed.

Lemma history_ok limits es : ok (steps es (World_new limits)).
Proof. apply steps_ok, World_new_ok. Qed.

(** ** Turns of a thread that was told to stop *)

(** The answer is one of those the point waits for. *)
Definition fits (p : point) (a : answer) : bool :=
  match p, a with
  | At_poll, Ans_poll _ | At_read, Ans_read _ | At_sink _, (Ans_sink _ | Ans_panic) => true
  | (At_poll | At_read | At_sink _ | At_exit), _ => false
  | _, _ => true
  end.

Definition turn (e : event) (w : World) : bool :=
  possible e w && match e with Ev_reader a => fits (rd_at (w_reader w)) a | _ => false end.

Fixpoint turns (es : list event) (w : World) : nat :=
  match es with
  | [] => O
  | e :: es => (if turn e w then S else id) (turns es (step e w))
  end.

Definition rank (p : point) : nat :=
  match p with
  | At_exit => 0 | At_done => 1 | At_drained _ => 2 | At_return _ => 3
  | At_top | At_check | At_woken | At_offer _ => 4
  | At_wake | At_end | At_blocked | At_wait _ => 5
  | At_poll | At_read | At_sink _ => 6
  end.

Definition stopped (w : World) : bool := se_stop_reader (w_session w).

Lemma stopped_stays e w : stopped w = true → stopped (step e w) = true.
Proof.
  unfold stopped, step. destruct (possible e w); [|done]. intros Hs.
  destruct e as [a| | | |]; cbn [happen]; try done;
    unfold put_session, stop, note_workload_exit, poke_reader; cbn; try (by case_match).
  unfold reader_step, finish_read, finish_reader, drain_wake, notify.
  repeat (case_match; simplify_eq/=; try done).
Qed.

Lemma other_point e w : (∀ a, e ≠ Ev_reader a) → w_reader (step e w) = w_reader w.
Proof. intros H. unfold step. destruct (possible e w); [|done]. destruct e as [a| | | |]; [by destruct (H a)|done..]. Qed.

Lemma idle_point a w : turn (Ev_reader a) w = false → w_reader (step (Ev_reader a) w) = w_reader w.
Proof.
  unfold turn, step. destruct (possible _ w) eqn:Hp; [|done]. cbn [andb happen]. unfold reader_step.
  destruct (w_reader w) as [p ret rd acc dr]. cbn. destruct p, a; done.
Qed.

Lemma turn_rank a w :
  stopped w = true → turn (Ev_reader a) w = true →
  (rank (rd_at (w_reader (step (Ev_reader a) w))) < rank (rd_at (w_reader w)))%nat.
Proof.
  unfold turn, step, stopped. intros Hs. destruct (possible _ w) eqn:Hp; [|done]. cbn [andb happen].
  unfold reader_step, unless_stopped. rewrite Hs.
  destruct (w_reader w) as [p ret rd acc dr]. cbn. destruct p, a; try done; intros _; cbn; try lia;
    unfold on_poll, on_read, on_sink; repeat (case_match; cbn; try lia).
Qed.

Lemma turns_bounded es : ∀ w, stopped w = true →
  (turns es w + rank (rd_at (w_reader (steps es w))) <= rank (rd_at (w_reader w)))%nat.
Proof.
  induction es as [|e es IH]; intros w Hs; [simpl; lia|].
  specialize (IH _ (stopped_stays e w Hs)). cbn [turns steps foldl flip]. fold (steps es (step e w)).
  destruct (turn e w) eqn:Ht.
  - destruct e as [a| | | |]; try (by unfold turn in Ht; rewrite andb_false_r in Ht).
    pose proof (turn_rank a w Hs Ht). lia.
  - unfold id. assert (E : w_reader (step e w) = w_reader w); [|rewrite E in IH; lia].
    destruct e as [a| | | |]; [by apply idle_point | by apply other_point..].
Qed.

(** The outcome of a step that ends the reading loop. *)
Lemma truncated_step a s r s' r' :
  reporting (rd_at r) = None → reader_step a s r = (s', r') →
  reporting (rd_at r') = Some DrainOutcome_Truncated →
  se_stop_reader s = true ∨ a = Ans_sink Acceptance_Closed.
Proof.
  unfold reader_step, unless_stopped. destruct r as [p ret rd acc dr]. cbn.
  intros Hn. destruct p, a; intros; simplify_eq/=; auto;
    try (destruct (se_stop_reader s'); [by left|done]);
    unfold on_poll, on_read, on_sink in *; repeat (case_match; simplify_eq/=; auto).
Qed.

Lemma step_limits e w : se_limits (w_session (step e w)) = se_limits (w_session w).
Proof.
  unfold step. destruct (possible e w); [|done].
  destruct e as [a| | | |]; cbn [happen]; try done;
    unfold put_session, stop, note_workload_exit, poke_reader; cbn; try (by case_match).
  unfold reader_step, finish_read, finish_reader, drain_wake, notify.
  repeat (case_match; simplify_eq/=; try done).
Qed.

Lemma steps_limits limits es : se_limits (w_session (steps es (World_new limits))) = limits.
Proof.
  change limits with (se_limits (w_session (World_new limits))) at 2.
  generalize (World_new limits). induction es as [|e es IH]; intros w; [done|].
  simpl. rewrite IH. apply step_limits.
Qed.

Lemma rank_bound p : (rank p <= 6)%nat.
Proof. destruct p; simpl; lia. Qed.
Lemma rank_zero p : rank p = O → p = At_exit.
Proof. by destruct p. Qed.

(** ** Properties *)

(** C12: No output is lost silently.  What the events accepted is always the
    beginning of what was written to the terminal, short of what was read by at
    most one chunk; they are told the end exactly once, before the session is
    told that the reader is done; and when they are told [Eof] they have accepted
    every byte that was ever written, the workload has exited and nobody holds
    the terminal.  The reader keeps the child endpoint open until the workload has
    exited or the loop is over, and every failure is published to the supervisor. *)
Theorem reader_delivers (limits : ProcessLimits) (es : list event) :
  let w := steps es (World_new limits) in
  let r := w_reader w in
  (∃ lost, w_produced w = rd_accepted r ++ lost ++ w_pending w
     ∧ len lost <= Z.max 0 (pl_read_chunk limits))
  ∧ (length (rd_drained r) <= 1)%nat
  ∧ (se_reader_done (w_session w) = true → length (rd_drained r) = 1%nat ∧ rd_retained r = false)
  ∧ (rd_drained r = [DrainOutcome_Eof] →
       rd_accepted r = w_produced w ∧ w_others w = false ∧ se_workload_exited (w_session w) = true)
  ∧ (rd_retained r = false → closing (rd_at r) = true ∨ se_workload_exited (w_session w) = true)
  ∧ (∀ e, rd_drained r = [DrainOutcome_Failed e] → se_reader_failed (w_session w) = true).
Proof.
  intros w r. destruct (history_ok limits es). fold w in ok_stream0. fold r in ok_stream0.
  assert (Hl : se_limits (w_session w) = limits) by apply steps_limits.
  fold w in ok_lost0. rewrite Hl in ok_lost0. fold r in ok_lost0. destruct ok_lost0 as (lost & Hr & Hlen).
  split_and!.
  - exists lost. by rewrite ok_stream0, Hr, <-app_assoc.
  - fold w r in ok_once0. rewrite ok_once0. case_match; lia.
  - intros Hd. fold w r in ok_done0, ok_once0, ok_released0. apply ok_done0 in Hd. rewrite Hd in *. auto.
  - intros Hd. fold w r in ok_once0, ok_eof0, ok_stream0. rewrite Hd in ok_once0.
    destruct ok_eof0 as (He & Hp & Ho & Hx).
    { unfold outcome. rewrite Hd. destruct (rd_at r); done. }
    rewrite ok_stream0, He, Hp, app_nil_r. done.
  - done.
  - intros e Hd. by apply (ok_failed0 (DrainOutcome_Failed e)); [left|].
Qed.

(** C13: A reader that is told to stop does: it never sleeps through the wake, takes
    at most six more turns, and reports [Truncated] only when it was told to stop
    or the events are closed.  Nor does it sleep, while it holds the child
    endpoint, once the workload has exited. *)
Theorem reader_stops (limits : ProcessLimits) (before es : list event) :
  let w := steps before (World_new limits) in
  (rd_at (w_reader w) = At_poll →
     stopped w = true ∨ se_workload_exited (w_session w) = true ∧ rd_retained (w_reader w) = true →
     possible (Ev_reader (Ans_poll (Ok tt))) w = true)
  ∧ (stopped w = true →
       (turns es w <= 6)%nat
       ∧ (turns es w = 6%nat → se_reader_done (w_session (steps es w)) = true))
  ∧ (∀ a, reporting (rd_at (w_reader w)) = None → possible (Ev_reader a) w = true →
       reporting (rd_at (w_reader (step (Ev_reader a) w))) = Some DrainOutcome_Truncated →
       stopped w = true ∨ a = Ans_sink Acceptance_Closed).
Proof.
  intros w. split_and!.
  - intros Hp Hs. destruct (history_ok limits before). unfold possible. rewrite Hp.
    assert (Hk : se_poked (w_session w) = true) by (destruct Hs as [?|[? ?]]; auto).
    by rewrite Hk.
  - intros Hs. pose proof (turns_bounded es w Hs) as Hb. unfold w in Hb |- *.
    pose proof (rank_bound (rd_at (w_reader (steps before (World_new limits))))) as Hr.
    split; [lia|]. intros E. pose proof (history_ok limits (before ++ es)) as [].
    unfold steps in *. rewrite foldl_app in ok_done0. apply ok_done0.
    apply rank_zero. lia.
  - intros a Hr Hp Ho. unfold step in Ho. rewrite Hp in Ho. cbn [happen] in Ho.
    destruct (reader_step a (w_session w) (w_reader w)) as [s' r'] eqn:E. cbn in Ho.
    by eapply truncated_step.
Qed.

(** ** Witnesses *)

(** The workload writes, exits while a descendant still holds the terminal, the
    descendant writes and leaves. *)
Definition demo : list event :=
  let turn a := Ev_reader a in
  [turn Ans_none; Ev_output [104; 105]; turn (Ans_poll (Ok tt)); turn Ans_none; turn Ans_none; turn Ans_none;
   turn (Ans_read (Ok [104])); turn Ans_none; turn (Ans_sink Backpressure); turn Ans_none; turn Ans_none;
   turn (Ans_sink Accepted); turn Ans_none; Ev_exited;
   turn (Ans_read (Err (from_raw_os_error EAGAIN))); turn Ans_none; Ev_output [33]; Ev_closed; turn Ans_none;
   turn (Ans_read (Ok [105; 33])); turn Ans_none; turn (Ans_sink Accepted); turn Ans_none;
   turn (Ans_read (Err (from_raw_os_error EIO))); turn Ans_none; turn Ans_none; turn Ans_none].

Example demo_drains :
  let w := steps demo (World_new ProcessLimits_default) in
  rd_drained (w_reader w) = [DrainOutcome_Eof] ∧ rd_accepted (w_reader w) = [104; 105; 33]
  ∧ se_reader_done (w_session w) = true ∧ rd_at (w_reader w) = At_exit.
Proof. vm_compute. done. Qed.
