(* ===== verification/Supervision.v ===== *)
(** * The supervisor's side of one process (crates/infrastructure/src/process/lifecycle.rs)

    [OwnedProcess] joins the guardian of one process with the session its clients
    share.  The supervisor thread calls [control], [reap] and [write_ready] in
    turns; between two calls clients and the reader use the session.  What the
    process's events are told is logged with the effects of [Inputs]. *)

From S2P Require Import Prelude Process OsErrors GuardianProtocol Guardian Inputs.

(** ** State *)

Inductive notice :=
  | Told_exited (status : ExitStatus)
  | Told_failed (error : ProcessError)
  | Session_effect (e : effect).

Record OwnedProcess := {
  ow_guardian : Guardian;
  ow_session : Session;
  ow_exit_at : option Z;
  ow_cancel_at : option Z;
  ow_killed : bool;
  ow_supervision_lost : bool;
  ow_discard_at : option Z;
  ow_log : list notice
}.

Definition OwnedProcess_new (g : Guardian) (s : Session) : OwnedProcess := {|
  ow_guardian := g; ow_session := s; ow_exit_at := None; ow_cancel_at := None; ow_killed := false;
  ow_supervision_lost := false; ow_discard_at := None; ow_log := [] |}.

Definition put_guardian (g : Guardian) (o : OwnedProcess) : OwnedProcess := {|
  ow_guardian := g; ow_session := ow_session o; ow_exit_at := ow_exit_at o; ow_cancel_at := ow_cancel_at o;
  ow_killed := ow_killed o; ow_supervision_lost := ow_supervision_lost o; ow_discard_at := ow_discard_at o;
  ow_log := ow_log o |}.
Definition put_session (s : Session) (o : OwnedProcess) : OwnedProcess := {|
  ow_guardian := ow_guardian o; ow_session := s; ow_exit_at := ow_exit_at o; ow_cancel_at := ow_cancel_at o;
  ow_killed := ow_killed o; ow_supervision_lost := ow_supervision_lost o; ow_discard_at := ow_discard_at o;
  ow_log := ow_log o |}.
Definition put_times (exit_at cancel_at discard_at : option Z) (o : OwnedProcess) : OwnedProcess := {|
  ow_guardian := ow_guardian o; ow_session := ow_session o; ow_exit_at := exit_at; ow_cancel_at := cancel_at;
  ow_killed := ow_killed o; ow_supervision_lost := ow_supervision_lost o; ow_discard_at := discard_at;
  ow_log := ow_log o |}.
Definition put_flags (killed lost : bool) (o : OwnedProcess) : OwnedProcess := {|
  ow_guardian := ow_guardian o; ow_session := ow_session o; ow_exit_at := ow_exit_at o;
  ow_cancel_at := ow_cancel_at o; ow_killed := killed; ow_supervision_lost := lost;
  ow_discard_at := ow_discard_at o; ow_log := ow_log o |}.
Definition logged (l : list notice) (o : OwnedProcess) : OwnedProcess := {|
  ow_guardian := ow_guardian o; ow_session := ow_session o; ow_exit_at := ow_exit_at o;
  ow_cancel_at := ow_cancel_at o; ow_killed := ow_killed o; ow_supervision_lost := ow_supervision_lost o;
  ow_discard_at := ow_discard_at o; ow_log := ow_log o ++ l |}.

Definition ask (kind : Kind) (o : OwnedProcess) : OwnedProcess :=
  put_guardian (request kind (ow_guardian o)) o.
Definition on_session (f : Session → Session) (o : OwnedProcess) : OwnedProcess :=
  put_session (f (ow_session o)) o.
Definition with_effects (f : Session → Session * list effect) (o : OwnedProcess) : OwnedProcess :=
  let '(s, l) := f (ow_session o) in logged (Session_effect <$> l) (put_session s o).

Definition finish_inputs (reason : ProcessError) (o : OwnedProcess) : OwnedProcess :=
  with_effects (finish_drain reason) (on_session finish_close o).

(** [Instant::duration_since] *)
Definition duration_since (now start : Z) : Z := Z.max 0 (now - start).

(** ** Exit and failure *)

Definition report_failure (o : OwnedProcess) : OwnedProcess :=
  if ow_supervision_lost o then o
  else
    let o := put_flags (ow_killed o) true o in
    let o := finish_inputs ProcessError_Internal o in
    let o := on_session stop o in
    logged [Told_failed ProcessError_Internal] o.

Definition exit_status (raw : Z) : option ExitStatus :=
  match status_code raw with
  | Some code => Some (ExitStatus_Code code)
  | None => ExitStatus_Signal <$> status_signal raw
  end.

Definition record_exit (now raw : Z) (o : OwnedProcess) : OwnedProcess :=
  if is_some (ow_exit_at o) then o
  else match exit_status raw with
  | Some status =>
    let o := put_times (Some now) (ow_cancel_at o) (ow_discard_at o) o in
    let o := on_session note_workload_exit o in
    let o := finish_inputs ProcessError_Closed o in
    logged [Told_exited status] o
  | None => report_failure o
  end.

(** The exit and the fault of a guardian that was served; an acknowledged
    escalation or termination only feeds the diagnostics. *)
Definition reap_exit (now : Z) (o : OwnedProcess) : OwnedProcess :=
  let (g, exit) := take_exit (ow_guardian o) in
  let o := put_guardian g o in
  match exit with Some raw => record_exit now raw o | None => o end.
Definition reap_fault (o : OwnedProcess) : OwnedProcess :=
  let (g, fault) := take_fault (ow_guardian o) in
  let o := put_guardian g o in
  if fault then report_failure o else o.
Definition reap (a : Guardian.answers) (now : Z) (o : OwnedProcess) : OwnedProcess :=
  let g := service a (ow_guardian o) in
  let g := (take_term_applied (take_escalation_applied g).1).1 in
  reap_fault (reap_exit now (put_guardian g o)).

(** ** Control

    [resize] answers the ioctl of a pending resize; [discard_at] is the
    supervisor's clock once the terminal was drained of discarded bytes. *)

Definition force (immediate : bool) (o : OwnedProcess) : OwnedProcess :=
  if immediate || ow_supervision_lost o || se_reader_failed (ow_session o)
  then put_flags true (ow_supervision_lost o) (ask Kind_Abort o)
  else o.

Definition grace_over (now : Z) (o : OwnedProcess) : bool :=
  match ow_cancel_at o with
  | Some start => pl_terminate_grace (se_limits (ow_session o)) <=? duration_since now start
  | None => false
  end.

Definition escalate (now : Z) (shutting : bool) (o : OwnedProcess) : OwnedProcess :=
  if negb (ow_killed o) && (shutting || se_cancel (ow_session o))
  then
    let o := if is_none (ow_cancel_at o)
             then put_times (ow_exit_at o) (Some now) (ow_discard_at o) (ask Kind_Terminate o) else o in
    if grace_over now o then put_flags true (ow_supervision_lost o) (ask Kind_Kill o) else o
  else o.

Definition drain_over (now : Z) (o : OwnedProcess) : bool :=
  match ow_exit_at o with
  | Some start => pl_drain_timeout (se_limits (ow_session o)) <=? duration_since now start
  | None => false
  end.

(** Once the reader is done: release the helpers, and keep draining bytes that are
    discarded until they are gone. *)
Definition release_and_discard (now : Z) (shutting : bool) (o : OwnedProcess) : OwnedProcess :=
  if se_reader_done (ow_session o)
  then
    let o := if is_some (ow_exit_at o) || ow_supervision_lost o || shutting then ask Kind_Release o else o in
    if negb (complete (ow_guardian o))
       && match ow_discard_at o with Some deadline => deadline <=? now | None => true end
    then put_times (ow_exit_at o) (ow_cancel_at o) (Some (now + from_millis 10)) o else o
  else o.

Definition control (now : Z) (shutting immediate : bool) (resize : result ProcessError ()) (o : OwnedProcess)
    : OwnedProcess :=
  let o := force immediate o in
  let o := if is_none (ow_exit_at o) && negb (ow_supervision_lost o)
           then with_effects (apply_resize resize) (escalate now shutting o) else o in
  let o := if shutting || drain_over now o then on_session stop o else o in
  release_and_discard now shutting o.

(** The supervisor's write step of its turn (supervisor.rs). *)
Definition write_turn (now : Z) (a : write_answer) (o : OwnedProcess) : OwnedProcess :=
  if is_none (ow_exit_at o) then with_effects (write_ready now a) o else o.

(** ** Deadlines *)

Definition deadlines (now : Z) (o : OwnedProcess) : list (option Z) :=
  let limits := se_limits (ow_session o) in
  [ if ow_killed o then None else (λ start, start + pl_terminate_grace limits) <$> ow_cancel_at o;
    if se_stop_reader (ow_session o) then None else (λ start, start + pl_drain_timeout limits) <$> ow_exit_at o;
    in_deadline <$> head (se_input (ow_session o));
    ow_discard_at o;
    if needs_poll (ow_guardian o) then Some (now + from_millis 10) else None ].

(** [.into_iter().flatten().min()] *)
Definition earliest (l : list (option Z)) : option Z :=
  foldr (λ d best, match d, best with
                   | Some d, Some b => Some (Z.min d b)
                   | Some d, None => Some d
                   | None, _ => best
                   end) None l.

Definition deadline (now : Z) (o : OwnedProcess) : option Z := earliest (deadlines now o).

(** ** Drop

    The reader is joined between the two halves; [turns] serve the clean-up. *)

Definition drop_begin (o : OwnedProcess) : OwnedProcess :=
  finish_inputs ProcessError_Closed (on_session stop o).
Definition drop_end (turns : list Guardian.answers) (o : OwnedProcess) : OwnedProcess :=
  on_session release_wakes (put_guardian (cleanup turns (ow_guardian o)) o).

(** ** Histories *)

Inductive event :=
  | Ev_control (now : Z) (shutting immediate : bool) (resize : result ProcessError ())
  | Ev_reap (a : Guardian.answers) (now : Z)
  | Ev_write_turn (now : Z) (a : write_answer)
  | Ev_cancel
  | Ev_write (bytes : list Z) (reservation : option nat) (now : Z) (ticket : nat)
  | Ev_resize (size : Terminal.TerminalSize) (ticket : nat)
  | Ev_reader (done failed : bool).

(** [w_asked]: a [control] saw a shutdown or a cancellation; [w_shut]: one saw a
    shutdown; [w_forced]: one saw an immediate shutdown, lost supervision or a
    failed reader; [w_now]: the latest instant a call was given. *)
Record World := {
  w_owned : OwnedProcess; w_asked : bool; w_shut : bool; w_forced : bool; w_now : Z }.

Definition World_new (g : Guardian) (limits : ProcessLimits) (now : Z) : World := {|
  w_owned := OwnedProcess_new g (Session_new limits); w_asked := false; w_shut := false; w_forced := false; w_now := now |}.

Definition happen (e : event) (w : World) : World :=
  let o := w_owned w in
  let s := ow_session o in
  let keep o := {| w_owned := o; w_asked := w_asked w; w_shut := w_shut w; w_forced := w_forced w; w_now := w_now w |} in
  match e with
  | Ev_control now shutting immediate resize => {|
      w_owned := control now shutting immediate resize o;
      w_asked := w_asked w || shutting || se_cancel s;
      w_shut := w_shut w || shutting;
      w_forced := w_forced w || immediate || ow_supervision_lost o || se_reader_failed s;
      w_now := Z.max (w_now w) now |}
  | Ev_reap a now => keep (reap a now o)
  | Ev_write_turn now a => if answer_fits a s then keep (write_turn now a o) else w
  | Ev_cancel => keep (on_session (fst ∘ request_cancel) o)
  | Ev_write bytes reservation now ticket =>
    keep (with_effects (fst ∘ write_reserved bytes reservation now ticket) o)
  | Ev_resize size ticket => keep (on_session (fst ∘ resize_timed size ticket) o)
  | Ev_reader done failed =>
    keep (on_session (λ s, set_flags (se_cancel s) (se_closed s) (se_stop_reader s) (se_workload_exited s)
                              (se_reader_done s || done) (se_reader_failed s || failed) s) o)
  end.
Definition happens (es : list event) (w : World) : World := foldl (flip happen) w es.

(** ** What the log tells *)

Definition exits (l : list notice) : list ExitStatus :=
  l ≫= λ n, match n with Told_exited status => [status] | _ => [] end.
Definition failures (l : list notice) : list ProcessError :=
  l ≫= λ n, match n with Told_failed e => [e] | _ => [] end.
Arguments exits _ : simpl never.
Arguments failures _ : simpl never.

Lemma exits_app l k : exits (l ++ k) = exits l ++ exits k.
Proof. apply bind_app. Qed.
Lemma failures_app l k : failures (l ++ k) = failures l ++ failures k.
Proof. apply bind_app. Qed.
Lemma effects_told (l : list effect) : exits (Session_effect <$> l) = [] ∧ failures (Session_effect <$> l) = [].
Proof. by induction l. Qed.

(** ** The invariant *)

(** The guardian an admitted launch hands over. *)
Record handed_over (g : Guardian) : Prop := {
  ho_ok : Guardian.ok g;
  ho_control : gu_control g = None;
  ho_fault : gu_fault g = false;
  ho_pending : gu_pending_fault g = false;
  ho_exit : gu_pending_exit g = gu_observed g
}.

Definition finished (s : Session) : Prop :=
  se_closed s = true ∧ se_input s = [] ∧ se_resize s = None.

(** The reason there has to be for each control: a shutdown or a cancellation for
    [Terminate], a grace period that is over for [Kill], a reader that is done
    with a workload that has ended, is lost or is shut down for [Release], and a
    failure for [Abort]. *)
Definition justified (w : World) (kind : Kind) : Prop :=
  let o := w_owned w in
  match kind with
  | Kind_Terminate => w_asked w = true
  | Kind_Kill => w_asked w = true
      ∧ ∃ since, ow_cancel_at o = Some since
          ∧ since + pl_terminate_grace (se_limits (ow_session o)) <= w_now w
  | Kind_Release => se_reader_done (ow_session o) = true
      ∧ (is_Some (ow_exit_at o) ∨ ow_supervision_lost o = true ∨ w_shut w = true)
  | Kind_Abort => w_forced w = true ∨ gu_fault (ow_guardian o) = true
  | _ => False
  end.

Record inv (w : World) : Prop := {
  in_guardian : Guardian.ok (ow_guardian (w_owned w));
  in_exit : match ow_exit_at (w_owned w) with
    | Some _ => ∃ raw status, gu_observed (ow_guardian (w_owned w)) = Some raw
        ∧ gu_pending_exit (ow_guardian (w_owned w)) = None
        ∧ exit_status raw = Some status ∧ exits (ow_log (w_owned w)) = [status]
    | None => exits (ow_log (w_owned w)) = []
        ∧ gu_pending_exit (ow_guardian (w_owned w)) = gu_observed (ow_guardian (w_owned w))
    end;
  in_lost : failures (ow_log (w_owned w))
            = if ow_supervision_lost (w_owned w) then [ProcessError_Internal] else [];
  in_fault : gu_fault (ow_guardian (w_owned w))
             = ow_supervision_lost (w_owned w) || gu_pending_fault (ow_guardian (w_owned w));
  in_finished : is_Some (ow_exit_at (w_owned w)) ∨ ow_supervision_lost (w_owned w) = true →
    finished (ow_session (w_owned w));
  in_begun : ∀ start, ow_cancel_at (w_owned w) = Some start → start <= w_now w;
  in_asked : is_Some (ow_cancel_at (w_owned w)) →
    w_asked w = true ∧ is_Some (gu_control (ow_guardian (w_owned w)));
  in_control : ∀ kind, gu_control (ow_guardian (w_owned w)) = Some kind → justified w kind
}.

Definition put (o : OwnedProcess) (w : World) : World :=
  {| w_owned := o; w_asked := w_asked w; w_shut := w_shut w; w_forced := w_forced w; w_now := w_now w |}.

Lemma new_inv g limits now : handed_over g → inv (World_new g limits now).
Proof.
  intros []. split; cbn; auto; try done.
  - rewrite ho_fault0, ho_pending0. done.
  - intros [[? ?]|?]; done.
  - by rewrite ho_control0.
Qed.

(** A step of the session that keeps a finished session finished. *)
Record tame (s s' : Session) : Prop := {
  tm_limits : se_limits s' = se_limits s;
  tm_finished : finished s → finished s';
  tm_done : se_reader_done s = true → se_reader_done s' = true
}.

Lemma tame_refl s : tame s s.
Proof. by split. Qed.
Lemma tame_trans s1 s2 s3 : tame s1 s2 → tame s2 s3 → tame s1 s3.
Proof. intros [] []. split; auto. congruence. Qed.

(** A reason stays one. *)
Lemma justified_more w w' kind :
  justified w kind →
  tame (ow_session (w_owned w)) (ow_session (w_owned w')) →
  (is_Some (ow_exit_at (w_owned w)) → is_Some (ow_exit_at (w_owned w'))) →
  (ow_supervision_lost (w_owned w) = true → ow_supervision_lost (w_owned w') = true) →
  (∀ since, ow_cancel_at (w_owned w) = Some since → ow_cancel_at (w_owned w') = Some since) →
  (gu_fault (ow_guardian (w_owned w)) = true → gu_fault (ow_guardian (w_owned w')) = true) →
  (w_asked w = true → w_asked w' = true) → (w_shut w = true → w_shut w' = true) → (w_forced w = true → w_forced w' = true) →
  w_now w <= w_now w' → justified w' kind.
Proof.
  intros H [Hl _ Hd] He Hs Hc Hf Ha Hsh Hfo Hn. unfold justified in *.
  destruct kind; try (by auto); try (by destruct H).
  - destruct H as (? & since & ? & ?). split; [auto|]. exists since. rewrite Hl. split; [auto|lia].
  - destruct H as (? & [?|[?|?]]); split; auto.
  - destruct H; auto.
Qed.

Lemma ghosts_inv a sh f now w :
  inv w → inv {| w_owned := w_owned w; w_asked := w_asked w || a; w_shut := w_shut w || sh; w_forced := w_forced w || f;
                 w_now := Z.max (w_now w) now |}.
Proof.
  intros []. split; cbn; auto.
  - intros start Hs. specialize (in_begun0 start Hs). lia.
  - intros H. by destruct (in_asked0 H) as [-> ?].
  - intros kind Hk. eapply justified_more; [by apply in_control0|..]; cbn; auto using tame_refl.
    + by intros ->.
    + by intros ->.
    + by intros ->.
    + lia.
Qed.

Lemma session_inv s' l w :
  inv w → tame (ow_session (w_owned w)) s' →
  inv (put (logged (Session_effect <$> l) (put_session s' (w_owned w))) w).
Proof.
  intros [] []. destruct (effects_told l) as [E1 E2].
  split; cbn; rewrite ?exits_app, ?failures_app, ?E1, ?E2, ?app_nil_r, ?tm_limits0; auto.
  intros kind Hk. eapply justified_more; [by apply in_control0|..]; cbn; auto; [by split|lia].
Qed.

Lemma quiet_inv s' w :
  inv w → tame (ow_session (w_owned w)) s' → inv (put (put_session s' (w_owned w)) w).
Proof.
  intros Hw Ht. pose proof (session_inv s' [] w Hw Ht) as []. cbn in *. rewrite app_nil_r in *. by split.
Qed.

Lemma effects_inv f w :
  inv w → tame (ow_session (w_owned w)) (f (ow_session (w_owned w))).1 → inv (put (with_effects f (w_owned w)) w).
Proof.
  intros Hw Ht. unfold with_effects. destruct (f _) as [s' l]. by apply session_inv.
Qed.

Lemma notify_tame s : tame s (notify s).
Proof. unfold notify. destruct (se_wakes s); [|apply tame_refl]. by split. Qed.
Lemma stop_tame s : tame s (stop s).
Proof. unfold stop, poke_reader. cbn. destruct (se_wakes s); by split. Qed.
Lemma exit_tame s : tame s (note_workload_exit s).
Proof. unfold note_workload_exit, poke_reader. cbn. destruct (se_wakes s); by split. Qed.
Lemma write_ready_tame now a s : tame s (write_ready now a s).1.
Proof.
  unfold write_ready. destruct (se_input s) as [|i rest] eqn:Ei; [apply tame_refl|].
  destruct (if _ <=? _ then _ else _) as [[j wrote] failure].
  destruct (_ || _); split; try done; intros (_ & Hnil & _); congruence.
Qed.
Lemma apply_resize_tame r s : tame s (apply_resize r s).1.
Proof.
  unfold apply_resize. destruct (se_resize s) eqn:E; [|apply tame_refl]. split; try done.
  intros (? & ? & Hnil). congruence.
Qed.
Lemma cancel_tame s : tame s (request_cancel s).1.
Proof.
  unfold request_cancel. destruct (se_closed s) eqn:E; [apply tame_refl|].
  eapply tame_trans; [|apply notify_tame]. split; try done.
  intros (Hnil & _). congruence.
Qed.
Lemma write_tame bytes reservation now ticket s : tame s (write_reserved bytes reservation now ticket s).1.1.
Proof.
  unfold write_reserved. simpl. destruct (se_closed s) eqn:E; [apply tame_refl|]. case_match; [apply tame_refl|].
  eapply tame_trans; [|apply notify_tame]. split; try done.
  intros (Hnil & _). congruence.
Qed.
Lemma resize_tame size ticket s : tame s (resize_timed size ticket s).1.
Proof.
  unfold resize_timed. destruct (se_closed s) eqn:E; [apply tame_refl|]. case_match; [apply tame_refl|].
  eapply tame_trans; [|apply notify_tame]. split; try done.
  intros (Hnil & _). congruence.
Qed.

Lemma request_facts k g :
  gu_observed (request k g) = gu_observed g ∧ gu_pending_exit (request k g) = gu_pending_exit g
  ∧ gu_fault (request k g) = gu_fault g ∧ gu_pending_fault (request k g) = gu_pending_fault g
  ∧ (gu_control (request k g) = gu_control g ∨ gu_control (request k g) = Some k).
Proof. unfold request. repeat case_match; split_and!; auto. Qed.

(** Asking for a control that has a reason. *)
Lemma ask_inv kind w :
  inv w → is_order kind = true → justified w kind → inv (put (ask kind (w_owned w)) w).
Proof.
  intros [] Hk Hwhy. destruct (request_facts kind (ow_guardian (w_owned w))) as (E1 & E2 & E3 & E4 & E5).
  assert (Hstay : ∀ k, justified w k → justified (put (ask kind (w_owned w)) w) k).
  { intros k H. eapply justified_more; [exact H|..]; cbn; rewrite ?E3; auto using tame_refl; lia. }
  split; cbn; rewrite ?E1, ?E2, ?E3, ?E4; auto.
  - apply (request_forward kind _ Hk in_guardian0).
  - intros H. destruct (in_asked0 H) as [? ?]. split; [done|]. destruct E5 as [->| ->]; eauto.
  - intros k. destruct E5 as [->| ->]; [auto|]. intros [= <-]. auto.
Qed.

(** After a request some control is wanted. *)
Lemma ask_wanted kind o : is_Some (gu_control (ow_guardian (ask kind o))).
Proof. unfold ask, request. cbn. repeat case_match; cbn; eauto. Qed.

Lemma kill_flag_inv w :
  inv w → inv (put (put_flags true (ow_supervision_lost (w_owned w)) (w_owned w)) w).
Proof. intros []. split; cbn; auto. Qed.

Lemma force_inv immediate w :
  inv w →
  (immediate || ow_supervision_lost (w_owned w) || se_reader_failed (ow_session (w_owned w)) = true →
   w_forced w = true) →
  inv (put (force immediate (w_owned w)) w).
Proof.
  intros Hw Hf. unfold force. destruct (_ || _); [|by destruct w].
  apply (ask_inv Kind_Abort _ (kill_flag_inv w Hw)); [done|]. left. cbn. auto.
Qed.

Lemma times_inv cancel_at discard_at w :
  inv w →
  (∀ start, cancel_at = Some start →
     w_asked w = true ∧ start <= w_now w ∧ is_Some (gu_control (ow_guardian (w_owned w)))) →
  (is_Some (ow_cancel_at (w_owned w)) → cancel_at = ow_cancel_at (w_owned w)) →
  inv (put (put_times (ow_exit_at (w_owned w)) cancel_at discard_at (w_owned w)) w).
Proof.
  intros [] Hc Hkeep. split; cbn; auto.
  - intros start Hs. by apply Hc.
  - intros [start Hs]. by destruct (Hc start Hs) as (? & ? & ?).
  - intros kind Hk. eapply justified_more; [by apply in_control0|..]; cbn; auto using tame_refl; [|lia].
    intros since Hs. rewrite Hkeep; eauto.
Qed.

Lemma escalate_inv now shutting w :
  inv w → now <= w_now w → (shutting || se_cancel (ow_session (w_owned w)) = true → w_asked w = true) →
  inv (put (escalate now shutting (w_owned w)) w).
Proof.
  intros Hw Hn Ha. unfold escalate. destruct (_ && _) eqn:Et; [|by destruct w].
  apply andb_true_iff in Et as [Hnk Hask]. specialize (Ha Hask).
  set (o := if is_none (ow_cancel_at (w_owned w)) then _ else _).
  assert (Ho : inv (put o w)).
  { subst o. destruct (is_none _) eqn:Ec; [|by destruct w]. to_props.
    assert (H1 : inv (put (ask Kind_Terminate (w_owned w)) w)) by (apply ask_inv; auto; done).
    apply (times_inv (Some now) (ow_discard_at (w_owned w)) _ H1); cbn.
    - intros start [= <-]. split_and!; [auto|done|]. apply (ask_wanted _ (w_owned w)).
    - rewrite Ec. by intros [? ?]. }
  clearbody o. destruct (grace_over now o) eqn:Eg; [|done].
  apply (ask_inv Kind_Kill _ (kill_flag_inv (put o w) Ho)); [done|]. split; [done|]. cbn.
  unfold grace_over, duration_since in Eg. destruct (ow_cancel_at o) as [start|] eqn:Es; [|done].
  exists start. to_props. pose proof (in_begun _ Ho start Es). cbn in *. split; [done|lia].
Qed.

Lemma release_inv now shutting w :
  inv w → (shutting = true → w_shut w = true) →
  inv (put (release_and_discard now shutting (w_owned w)) w).
Proof.
  intros H3 Hsh. unfold release_and_discard. destruct (se_reader_done (ow_session (w_owned w))) eqn:Ed; [|by destruct w].
  set (why := is_some (ow_exit_at (w_owned w)) || _ || _). set (o4 := if why then _ else _).
  assert (H4 : inv (put o4 w)).
  { subst o4. destruct why eqn:Ew; [|by destruct w]. apply (ask_inv Kind_Release w H3); [done|].
    split; [done|]. subst why. apply orb_true_iff in Ew as [[Ew|Ew]%orb_true_iff|Ew]; auto.
    left. by destruct (ow_exit_at (w_owned w)). }
  clearbody o4. destruct (negb (complete (ow_guardian o4)) && _); [|done].
  apply (times_inv _ _ (put o4 w) H4); cbn; auto.
  intros start Es. destruct (in_asked _ H4) as [? ?]; [cbn; eauto|].
  split_and!; [done|by apply (in_begun _ H4)|done].
Qed.

Lemma control_inv now shutting immediate resize w :
  inv w → now <= w_now w →
  (immediate || ow_supervision_lost (w_owned w) || se_reader_failed (ow_session (w_owned w)) = true →
   w_forced w = true) →
  (shutting || se_cancel (ow_session (w_owned w)) = true → w_asked w = true) →
  (shutting = true → w_shut w = true) →
  inv (put (control now shutting immediate resize (w_owned w)) w).
Proof.
  intros Hw Hn Hf Ha Hsh. unfold control.
  pose proof (force_inv immediate w Hw Hf) as H1.
  assert (Hs : ow_session (force immediate (w_owned w)) = ow_session (w_owned w))
    by (unfold force; by case_match).
  set (o1 := force _ _) in *. clearbody o1.
  set (o2 := if is_none (ow_exit_at o1) && _ then _ else _).
  assert (H2 : inv (put o2 w)).
  { subst o2. destruct (is_none _ && _); [|done].
    assert (He : inv (put (escalate now shutting o1) w)) by (apply (escalate_inv now shutting (put o1 w)); cbn; rewrite ?Hs; auto).
    apply (effects_inv (apply_resize resize) _ He), apply_resize_tame. }
  clearbody o2. set (o3 := if shutting || drain_over now o2 then _ else _).
  assert (H3 : inv (put o3 w)).
  { subst o3. destruct (shutting || drain_over now o2); [|done]. apply (quiet_inv _ (put o2 w) H2), stop_tame. }
  clearbody o3. apply (release_inv now shutting (put o3 w)); [done|exact Hsh].
Qed.

(** ** Reaping *)

Lemma once_same {A} (s p s' p' : option A) : once s p s' p' → p = s → p' = s'.
Proof. intros [[-> ->]|(-> & _ & ->)]; congruence. Qed.

Lemma once_lost fault pending fault' pending' lost :
  once (flagged fault) (flagged pending) (flagged fault') (flagged pending') →
  fault = lost || pending → fault' = lost || pending'.
Proof.
  intros [[H1 H2]|(H1 & [x H2] & H3)] ->; destruct lost, pending, fault', pending'; done.
Qed.

Lemma once_known {A} (x : A) p s' p' : once (Some x) p s' p' → s' = Some x ∧ p' = p.
Proof. by intros [[-> ->]|(? & _)]. Qed.

(** What [service] may change of a guardian, as the owner sees it. *)
Lemma service_inv a w :
  inv w → inv (put (put_guardian (take_term_applied (take_escalation_applied
                 (service a (ow_guardian (w_owned w)))).1).1 (w_owned w)) w).
Proof.
  intros []. set (g := ow_guardian (w_owned w)) in *.
  destruct (service_forward a g in_guardian0) as [Hok []]. pose proof (service_calm a g) as Hcalm.
  set (g' := service a g) in *.
  split; cbn; auto.
  - destruct Hok. by split.
  - destruct (ow_exit_at (w_owned w)).
    + destruct in_exit0 as (raw & status & Ho & Hp & ? & ?). rewrite Ho in ev_exit.
      destruct (once_known _ _ _ _ ev_exit) as [-> ->]. eauto 8.
    + destruct in_exit0 as [? Hp]. split; [done|]. by eapply once_same.
  - by eapply once_lost.
  - intros H. destruct (in_asked0 H) as [? ?]. split; [done|].
    destruct (gu_fault g') eqn:Ef; [rewrite (ok_fault _ Hok Ef); eauto|]. by destruct (Hcalm Ef) as [_ ->].
  - intros kind Hk. destruct (gu_fault g') eqn:Ef.
    + rewrite (ok_fault _ Hok Ef) in Hk. injection Hk as <-. right. exact Ef.
    + destruct (Hcalm Ef) as [Hg Hc]. assert (Hk' : gu_control g = Some kind) by congruence.
      eapply justified_more; [by apply in_control0|..]; cbn; auto using tame_refl; [|lia].
      fold g. by rewrite Hg.
Qed.

Lemma finish_spec reason s :
  finished (finish_drain reason (finish_close s)).1 ∧ tame s (finish_drain reason (finish_close s)).1.
Proof. split; [done|]. by split. Qed.

(** The first exit is recorded and told. *)
Lemma exit_inv now w raw status :
  inv w → gu_pending_exit (ow_guardian (w_owned w)) = Some raw → exit_status raw = Some status →
  inv (put (record_exit now raw (put_guardian (with_pending_exit None (ow_guardian (w_owned w))) (w_owned w))) w).
Proof.
  intros Hw Hp Hs. destruct Hw. destruct (ow_exit_at (w_owned w)) as [at_|] eqn:Ee.
  { destruct in_exit0 as (? & ? & ? & ? & _). congruence. }
  destruct in_exit0 as [He Ho]. rewrite Hp in Ho. unfold record_exit, finish_inputs, with_effects, on_session. cbn.
  rewrite Ee, Hs. cbn.
  destruct (exit_tame (ow_session (w_owned w))) as [T1 T2 T3]. set (s := note_workload_exit _) in *.
  split; cbn; rewrite ?exits_app, ?failures_app, ?(proj1 (effects_told _)), ?(proj2 (effects_told _)), ?He, ?T1,
    ?app_nil_r; auto; try by intros _.
  - destruct in_guardian0. by split.
  - exists raw, status. by split_and!.
  - intros kind Hk. eapply justified_more; [by apply in_control0|..]; cbn; auto; [by split|lia].
Qed.

(** Supervision is lost, and reported. *)
Lemma lost_inv w :
  inv w → gu_pending_fault (ow_guardian (w_owned w)) = true →
  inv (put (report_failure (put_guardian (with_pending_fault false (ow_guardian (w_owned w))) (w_owned w))) w).
Proof.
  intros Hw Hp. destruct Hw. unfold report_failure, finish_inputs, with_effects, on_session. cbn.
  rewrite Hp, orb_true_r in in_fault0.
  destruct (ow_supervision_lost (w_owned w)) eqn:El.
  { split; cbn; rewrite ?El; auto. destruct in_guardian0; by split. }
  destruct (stop_tame (set_queues [] 0 None (finish_close (ow_session (w_owned w))))) as [U1 U2 U3].
  set (s' := stop _) in *. cbn in U1.
  split; cbn; rewrite ?exits_app, ?failures_app, ?(proj1 (effects_told _)), ?(proj2 (effects_told _)), ?in_lost0,
    ?U1, ?app_nil_r; auto; try by intros _; apply U2.
  - destruct in_guardian0. by split.
  - intros kind Hk. eapply justified_more; [by apply in_control0|..]; cbn; auto; try lia.
    split; cbn; [by rewrite U1|by intros _; apply U2|auto].
Qed.

Lemma reap_exit_inv now w : inv w → inv (put (reap_exit now (w_owned w)) w).
Proof.
  intros Hw. unfold reap_exit, take_exit. set (g := ow_guardian (w_owned w)) in *.
  destruct (gu_pending_exit g) as [raw|] eqn:Ep.
  - assert (Ho : gu_observed g = Some raw).
    { pose proof (in_exit _ Hw) as He. fold g in He. destruct (ow_exit_at (w_owned w)).
      - destruct He as (? & ? & _ & Hn & _). congruence.
      - destruct He as [_ He]. congruence. }
    destruct (ok_exit _ (in_guardian _ Hw) raw Ho) as [Hx _].
    assert (Hst : ∃ status, exit_status raw = Some status).
    { unfold exit_status, status_code, status_signal.
      destruct (WIFEXITED raw); [eauto|]. simpl in Hx. rewrite Hx. simpl. eauto. }
    destruct Hst as [status Hst]. by apply (exit_inv now w raw status).
  - assert (E : with_pending_exit None g = g) by (destruct g; cbn in *; by rewrite Ep).
    rewrite E. by destruct w as [[] ? ? ? ?].
Qed.

Lemma reap_fault_inv w : inv w → inv (put (reap_fault (w_owned w)) w).
Proof.
  intros Hw. unfold reap_fault, take_fault. set (g := ow_guardian (w_owned w)) in *.
  destruct (gu_pending_fault g) eqn:Ef; [by apply lost_inv|].
  assert (E : with_pending_fault false g = g) by (destruct g; cbn in *; by rewrite Ef).
  rewrite E. by destruct w as [[] ? ? ? ?].
Qed.

Lemma reap_inv a now w : inv w → inv (put (reap a now (w_owned w)) w).
Proof.
  intros Hw. unfold reap. pose proof (service_inv a w Hw) as H1. revert H1. cbv zeta.
  generalize (take_term_applied (take_escalation_applied (service a (ow_guardian (w_owned w)))).1).1.
  intros g H1. pose proof (reap_exit_inv now (put (put_guardian g (w_owned w)) w) H1) as H2.
  revert H2. cbn [put w_owned w_asked w_shut w_forced w_now]. generalize (reap_exit now (put_guardian g (w_owned w))).
  intros o H2. exact (reap_fault_inv (put o w) H2).
Qed.

Lemma happen_inv e w : inv w → inv (happen e w).
Proof.
  intros Hw. destruct e; cbn [happen].
  - set (a := _ || se_cancel _). set (f := _ || se_reader_failed _).
    pose proof (ghosts_inv (shutting || se_cancel (ow_session (w_owned w))) shutting
      (immediate || ow_supervision_lost (w_owned w) || se_reader_failed (ow_session (w_owned w))) now w Hw) as Hg.
    assert (Ea : a = w_asked w || (shutting || se_cancel (ow_session (w_owned w)))) by (subst a; by rewrite orb_assoc).
    assert (Ef : f = w_forced w || (immediate || ow_supervision_lost (w_owned w) || se_reader_failed (ow_session (w_owned w))))
      by (subst f; by rewrite !orb_assoc).
    rewrite Ea, Ef. apply (control_inv now shutting immediate _ _ Hg); cbn; [lia | | |];
      intros ->; by rewrite orb_true_r.
  - by apply reap_inv.
  - destruct (answer_fits _ _); [|done]. unfold write_turn. destruct (is_none _); [|by destruct w].
    apply effects_inv; [done | apply write_ready_tame].
  - apply quiet_inv; [done | apply cancel_tame].
  - apply effects_inv; [done | apply write_tame].
  - apply quiet_inv; [done | apply resize_tame].
  - apply quiet_inv; [done|]. split; try done. cbn. by intros ->.
Qed.

Lemma happens_inv es w : inv w → inv (happens es w).
Proof. revert w. induction es as [|e es IH]; intros w Hw; [done|]. apply IH. by apply happen_inv. Qed.

Lemma earliest_in l b : earliest l = Some b → Some b ∈ l.
Proof.
  revert b. induction l as [|[x|] l IH]; intros b; [done| |]; simpl.
  - destruct (earliest l) as [y|]; intros [= <-]; [|by left].
    destruct (Z.min_spec x y) as [[? ->]|[? ->]]; [by left | right; by apply IH].
  - intros H. right. by apply IH.
Qed.

Lemma grant_calm i g : calm g (grant i g).
Proof.
  unfold grant. destruct (at_side i (gu_channels g)) as [c|]; [|apply calm_self].
  destruct (enqueue _ c) as [c' [|]]; apply fields_calm; reflexivity.
Qed.

Lemma admit_turn_calm a late g : calm g (admit_turn a late g).1.
Proof.
  unfold admit_turn. generalize (service_calm a g). generalize (service a g). intros g' Hs.
  destruct (gu_start_error g'); [exact Hs|]. destruct (gu_fault g'); [exact Hs|].
  destruct (gu_admitted g'); [exact Hs|]. destruct (_ && _); [|destruct late; exact Hs].
  eapply calm_then; [exact Hs|]. eapply calm_then; [apply (grant_calm Sentinel)|].
  eapply calm_then; [apply (grant_calm Helper)|]. apply fields_calm; reflexivity.
Qed.

(** What the parts of [control] leave alone. *)
Lemma force_keeps immediate o :
  ow_session (force immediate o) = ow_session o ∧ ow_exit_at (force immediate o) = ow_exit_at o
  ∧ ow_cancel_at (force immediate o) = ow_cancel_at o
  ∧ ow_supervision_lost (force immediate o) = ow_supervision_lost o.
Proof. unfold force. by case_match. Qed.

Lemma escalate_keeps now shutting o :
  ow_session (escalate now shutting o) = ow_session o ∧ ow_exit_at (escalate now shutting o) = ow_exit_at o.
Proof. unfold escalate. repeat case_match; done. Qed.

Lemma effects_keep f o :
  ow_session (with_effects f o) = (f (ow_session o)).1 ∧ ow_exit_at (with_effects f o) = ow_exit_at o
  ∧ ow_killed (with_effects f o) = ow_killed o.
Proof. unfold with_effects. by destruct (f _). Qed.

Lemma release_keeps now shutting o :
  ow_session (release_and_discard now shutting o) = ow_session o
  ∧ ow_killed (release_and_discard now shutting o) = ow_killed o.
Proof.
  unfold release_and_discard. destruct (se_reader_done _); [|done]. set (o1 := if _ || _ then _ else _).
  assert (H : ow_session o1 = ow_session o ∧ ow_killed o1 = ow_killed o) by (subst o1; by case_match).
  clearbody o1. by destruct (negb _ && _).
Qed.

Lemma drain_over_at now o since :
  ow_exit_at o = Some since → 0 <= pl_drain_timeout (se_limits (ow_session o)) →
  since + pl_drain_timeout (se_limits (ow_session o)) <= now → drain_over now o = true.
Proof. unfold drain_over, duration_since. intros -> ??. apply Z.leb_le. lia. Qed.

Lemma control_stops now immediate r o :
  drain_over now o = true → se_stop_reader (ow_session (control now false immediate r o)) = true.
Proof.
  intros Hd. unfold control. destruct (force_keeps immediate o) as (F1 & F2 & F3 & F4).
  set (o1 := force immediate o) in *. clearbody o1. set (o2 := if is_none (ow_exit_at o1) && _ then _ else _).
  assert (H2 : drain_over now o2 = true).
  { unfold drain_over in *. rewrite <-F1, <-F2 in Hd. subst o2. destruct (is_none _ && _); [|done].
    destruct (effects_keep (apply_resize r) (escalate now false o1)) as (-> & -> & _).
    destruct (escalate_keeps now false o1) as (-> & ->).
    destruct (apply_resize_tame r (ow_session o1)) as [-> _ _]. done. }
  clearbody o2. rewrite H2. simpl orb. cbv iota.
  rewrite (proj1 (release_keeps _ _ _)).
  unfold on_session, stop, poke_reader. cbn. by destruct (se_wakes (ow_session o2)).
Qed.

Lemma control_kills now immediate r o :
  grace_over now o = true → ow_exit_at o = None → ow_supervision_lost o = false →
  se_cancel (ow_session o) = true → ow_killed (control now false immediate r o) = true.
Proof.
  intros Hg He Hl Hc. unfold control. destruct (force_keeps immediate o) as (F1 & F2 & F3 & F4).
  set (o1 := force immediate o) in *.
  assert (Hg1 : grace_over now o1 = true) by (unfold grace_over in *; by rewrite F3, F1).
  clearbody o1. rewrite F2, F4, He, Hl. simpl andb. cbv iota.
  assert (Hk : ow_killed (escalate now false o1) = true).
  { unfold escalate. destruct (ow_killed o1) eqn:Ek; [done|]. rewrite F1, Hc. simpl andb. cbv iota.
    assert (Hn : is_none (ow_cancel_at o1) = false) by (unfold grace_over in Hg1; by destruct (ow_cancel_at o1)).
    by rewrite Hn, Hg1. }
  destruct (effects_keep (apply_resize r) (escalate now false o1)) as (_ & _ & E).
  set (o2 := with_effects _ _) in *. clearbody o2. rewrite Hk in E.
  rewrite (proj2 (release_keeps _ _ _)). by case_match.
Qed.

Lemma earliest_spec l d : Some d ∈ l → ∃ d', earliest l = Some d' ∧ d' <= d ∧ Some d' ∈ l.
Proof.
  induction l as [|[x|] l IH]; intros Hd; [by apply not_elem_of_nil in Hd| |].
  - simpl. apply elem_of_cons in Hd as [[= ->]|Hd].
    + destruct (earliest l) as [b|] eqn:Eb; [|exists x; split_and!; [done|lia|by left]].
      destruct (Z.min_spec x b) as [[? ->]|[? ->]].
      * exists x. split_and!; [done|lia|by left].
      * exists b. split_and!; [done|lia|]. right. by eapply earliest_in.
    + destruct (IH Hd) as (b & -> & ? & ?). destruct (Z.min_spec x b) as [[? ->]|[? ->]].
      * exists x. split_and!; [done|lia|by left].
      * exists b. split_and!; [done|lia|by right].
  - apply elem_of_cons in Hd as [?|Hd]; [done|]. destruct (IH Hd) as (b & Hb & ? & ?).
    exists b. split_and!; [done..|by right].
Qed.

(** The limits of a session never change. *)
Lemma control_tame now shutting immediate r o :
  tame (ow_session o) (ow_session (control now shutting immediate r o)).
Proof.
  unfold control. destruct (force_keeps immediate o) as (F1 & _). rewrite <-F1.
  set (o1 := force immediate o). clearbody o1. rewrite (proj1 (release_keeps _ _ _)).
  set (o2 := if is_none (ow_exit_at o1) && _ then _ else _).
  assert (H2 : tame (ow_session o1) (ow_session o2)).
  { subst o2. destruct (is_none _ && _); [|apply tame_refl].
    rewrite (proj1 (effects_keep _ _)), (proj1 (escalate_keeps _ _ _)). apply apply_resize_tame. }
  clearbody o2. destruct (shutting || _); [|done]. eapply tame_trans; [done | apply stop_tame].
Qed.

Lemma finish_inputs_tame reason o : tame (ow_session o) (ow_session (finish_inputs reason o)).
Proof.
  unfold finish_inputs. rewrite (proj1 (effects_keep _ _)). unfold on_session. cbn [put_session ow_session].
  apply finish_spec.
Qed.

Lemma report_failure_tame o : tame (ow_session o) (ow_session (report_failure o)).
Proof.
  unfold report_failure. destruct (ow_supervision_lost o); [apply tame_refl|]. cbv zeta.
  eapply tame_trans; [apply (finish_inputs_tame ProcessError_Internal (put_flags (ow_killed o) true o))|].
  apply stop_tame.
Qed.

Lemma reap_tame a now o : tame (ow_session o) (ow_session (reap a now o)).
Proof.
  unfold reap. cbv zeta. generalize (take_term_applied (take_escalation_applied (service a (ow_guardian o))).1).1.
  intros g. change (ow_session o) with (ow_session (put_guardian g o)). generalize (put_guardian g o). clear o g. intros o.
  apply (tame_trans _ (ow_session (reap_exit now o))).
  - unfold reap_exit, take_exit. destruct (gu_pending_exit _) as [raw|]; [|apply tame_refl].
    unfold record_exit. cbn [put_guardian ow_exit_at]. destruct (is_some _); [apply tame_refl|].
    destruct (exit_status raw); [|apply (report_failure_tame (put_guardian _ o))]. cbv zeta.
    match goal with |- context [finish_inputs ?r ?x] =>
      eapply tame_trans; [|apply (finish_inputs_tame r x)] end.
    apply exit_tame.
  - generalize (reap_exit now o). clear o. intros o. unfold reap_fault, take_fault.
    destruct (gu_pending_fault _); [apply (report_failure_tame (put_guardian _ o)) | apply tame_refl].
Qed.

Lemma happen_tame e w : tame (ow_session (w_owned w)) (ow_session (w_owned (happen e w))).
Proof.
  destruct e; cbn [happen]; try (rewrite (proj1 (effects_keep _ _))).
  - apply control_tame.
  - apply reap_tame.
  - destruct (answer_fits _ _); [|apply tame_refl]. cbn [w_owned]. unfold write_turn.
    destruct (is_none _); [|apply tame_refl]. rewrite (proj1 (effects_keep _ _)). apply write_ready_tame.
  - apply cancel_tame.
  - cbn [w_owned]. rewrite (proj1 (effects_keep _ _)). apply write_tame.
  - apply resize_tame.
  - split; try done. cbn. by intros ->.
Qed.

Lemma happens_limits es limits g now :
  se_limits (ow_session (w_owned (happens es (World_new g limits now)))) = limits.
Proof.
  change limits with (se_limits (ow_session (w_owned (World_new g limits now)))) at 2.
  generalize (World_new g limits now). induction es as [|e es IH]; intros w; [done|]. simpl. rewrite IH.
  apply happen_tame.
Qed.

(** An admission that succeeded hands over such a guardian. *)
Lemma admission_hands_over sid generation watch turns :
  let os := (λ t : Guardian.answers * bool, Op_admit t.1 t.2) <$> turns in
  let g := w_guardian (performs os (launch sid generation watch)) in
  gu_fault g = false → handed_over g.
Proof.
  intros os g Hf. pose proof (performs_hold os _ (launch_ok sid generation watch)) as Hw.
  fold (launch sid generation watch) in Hw.
  assert (Hfree : w_exits (performs os (launch sid generation watch)) = []
    ∧ w_faults (performs os (launch sid generation watch)) = O
    ∧ (gu_fault g = false → gu_control g = None)).
  { subst os g. clear Hf Hw. rewrite <-(rev_involutive turns). induction (rev turns) as [|[a late] l IH]; [done|].
    cbn [rev]. rewrite fmap_app. unfold performs in *. rewrite foldl_app. cbn [fmap list_fmap foldl flip].
    destruct IH as (E1 & E2 & E3). set (w := foldl _ _ _) in *. clearbody w.
    split_and!; [exact E1 | exact E2 |]. clear -E3.
    change (gu_fault (admit_turn a late (w_guardian w)).1 = false →
            gu_control (admit_turn a late (w_guardian w)).1 = None).
    generalize (admit_turn_calm a late (w_guardian w)). generalize (admit_turn a late (w_guardian w)).1.
    intros g Hg Hn. destruct (Hg Hn) as [H1 H2]. rewrite H2. auto. }
  destruct Hfree as (E1 & E2 & E3). destruct Hw as [Hok _ He Hfa _]. fold g in Hok, He, Hfa.
  rewrite E1 in He. rewrite E2, Hf in Hfa. simpl in He, Hfa.
  split; auto.
  - by destruct (gu_pending_fault g).
  - destruct (gu_pending_exit g), (gu_observed g); simpl in He; congruence.
Qed.

(** ** Properties *)

Section properties.
Context (g : Guardian) (limits : ProcessLimits) (start : Z) (launched : handed_over g).

(** C17: The events are told the truth, once.  They hear of at most one exit, the one
    the helpers reported for the workload, and of at most one failure, only after
    the guardian had a fault; and from then on the session is closed, nothing is
    queued in it, and no call is admitted. *)
Theorem told_once (es : list event) :
  let o := w_owned (happens es (World_new g limits start)) in
  (length (exits (ow_log o)) <= 1)%nat
  ∧ (∀ status, status ∈ exits (ow_log o) →
       ∃ raw, gu_observed (ow_guardian o) = Some raw ∧ exit_status raw = Some status)
  ∧ (length (failures (ow_log o)) <= 1)%nat
  ∧ (failures (ow_log o) ≠ [] → gu_fault (ow_guardian o) = true)
  ∧ (exits (ow_log o) ≠ [] ∨ failures (ow_log o) ≠ [] → finished (ow_session o)).
Proof.
  intros o. pose proof (happens_inv es _ (new_inv g limits start launched)) as [].
  fold o in in_exit0, in_lost0, in_fault0, in_finished0.
  assert (Hx : exits (ow_log o) ≠ [] → is_Some (ow_exit_at o)).
  { destruct (ow_exit_at o); [eauto|]. by destruct in_exit0 as [-> _]. }
  split_and!.
  - destruct (ow_exit_at o); [destruct in_exit0 as (? & ? & _ & _ & _ & ->) | destruct in_exit0 as [-> _]]; simpl; lia.
  - intros status Hs. destruct (ow_exit_at o).
    + destruct in_exit0 as (raw & status' & Ho & _ & He & E). rewrite E in Hs.
      apply list_elem_of_singleton in Hs as ->. eauto.
    + destruct in_exit0 as [E _]. rewrite E in Hs. by apply not_elem_of_nil in Hs.
  - rewrite in_lost0. case_match; simpl; lia.
  - rewrite in_lost0, in_fault0. by destruct (ow_supervision_lost o).
  - intros [H|H]; apply in_finished0; [by left; apply Hx|]. right. rewrite in_lost0 in H.
    by destruct (ow_supervision_lost o).
Qed.

(** C18: Nobody is signalled without a reason, each control for its own.  The
    helpers are asked to [Terminate] the workload only after a shutdown or a
    cancellation was seen, and to [Kill] it, besides, only once the grace period
    since that request is over; whatever else happened, [Release] waits for the
    reader to be done, and is for a workload that has ended, whose supervision is
    lost, or that is being shut down; [Abort] follows an immediate
    shutdown, lost supervision, a failed reader or a fault of the helpers.  No
    other control is ever wanted, and a grace period runs only after a control
    was asked for. *)
Theorem signals_justified (es : list event) :
  let w := happens es (World_new g limits start) in
  let o := w_owned w in
  let wanted := gu_control (ow_guardian o) in
  (wanted = Some Kind_Terminate → w_asked w = true)
  ∧ (wanted = Some Kind_Kill → w_asked w = true
     ∧ ∃ since, ow_cancel_at o = Some since ∧ since + pl_terminate_grace limits <= w_now w)
  ∧ (wanted = Some Kind_Release → se_reader_done (ow_session o) = true
     ∧ (is_Some (ow_exit_at o) ∨ ow_supervision_lost o = true ∨ w_shut w = true))
  ∧ (wanted = Some Kind_Abort → w_forced w = true ∨ gu_fault (ow_guardian o) = true)
  ∧ wanted ∈ [None; Some Kind_Terminate; Some Kind_Kill; Some Kind_Release; Some Kind_Abort]
  ∧ (is_Some (ow_cancel_at o) → w_asked w = true ∧ is_Some wanted).
Proof.
  intros w o wanted. pose proof (happens_inv es _ (new_inv g limits start launched)) as [].
  assert (Hl : se_limits (ow_session (w_owned w)) = limits) by apply happens_limits.
  fold w in in_control0, in_asked0. fold o wanted in in_control0, in_asked0.
  rewrite <-Hl. split_and!; [| | | | |done].
  1-4: intros Hk; exact (in_control0 _ Hk).
  destruct wanted as [kind|]; [|by left]. specialize (in_control0 kind eq_refl).
  destruct kind; try (by destruct in_control0); set_solver.
Qed.

End properties.

(** The supervisor sleeps no longer than the earliest thing it has to do, and does
    it when it wakes: [control] stops the reader once the drain timeout has passed
    and asks for [Kill] once the grace period has, and the write step answers an
    input that has expired. *)
Theorem deadline_is_kept (o : OwnedProcess) (now now' : Z) (immediate : bool) (resize : result ProcessError ())
    (a : write_answer) :
  let grace := pl_terminate_grace (se_limits (ow_session o)) in
  let drain := pl_drain_timeout (se_limits (ow_session o)) in
  (∀ d, Some d ∈ deadlines now o → ∃ d', deadline now o = Some d' ∧ d' <= d ∧ Some d' ∈ deadlines now o)
  ∧ (∀ since, ow_exit_at o = Some since → 0 <= drain → since + drain <= now' →
       se_stop_reader (ow_session (control now' false immediate resize o)) = true)
  ∧ (∀ since, ow_cancel_at o = Some since → 0 <= grace → since + grace <= now' →
       ow_exit_at o = None → ow_supervision_lost o = false → se_cancel (ow_session o) = true →
       ow_killed (control now' false immediate resize o) = true)
  ∧ (∀ i rest, se_input (ow_session o) = i :: rest → in_deadline i <= now' → ow_exit_at o = None →
       se_input (ow_session (write_turn now' a o)) = rest).
Proof.
  intros grace drain. split_and!.
  - intros d Hd. unfold deadline. by apply earliest_spec.
  - intros since He Hz Hle. apply control_stops. by rewrite (drain_over_at now' o since).
  - intros since Hc Hz Hle He Hl Hcan. apply control_kills; auto. unfold grace_over. rewrite Hc.
    unfold duration_since. apply Z.leb_le. unfold grace in *. lia.
  - intros i rest Hi Hd He. unfold write_turn, with_effects, write_ready. rewrite He, Hi. simpl.
    destruct (in_deadline i <=? now') eqn:E; [done|]. to_props. lia.
Qed.

(** ** Witnesses *)

(** The two turns of the admission of [Guardian.demo]. *)
Definition admissions : list (Guardian.answers * bool) := [
  (hears [says Kind_Hello [40; 41; 0; 0]] [says Kind_Hello [40; 41; 0; 0]] false, false);
  (hears [says Kind_Admitted [50; 41; 40; 40]] [says Kind_Started [50; 41; 40; 40]] false, false)].
Definition admitted : Guardian :=
  w_guardian (performs ((λ t : Guardian.answers * bool, Op_admit t.1 t.2) <$> admissions) (launch 40 9 true)).

Lemma admitted_hands_over : handed_over admitted.
Proof. apply (admission_hands_over 40 9 true admissions). vm_compute. reflexivity. Qed.

(** A client cancels; the supervisor asks for [Terminate], then for [Kill], and
    reaps the workload. *)
Definition demo : list event := [
  Ev_write [104] None 0 0; Ev_control 1 false false (Ok tt); Ev_cancel; Ev_control 2 false false (Ok tt);
  Ev_control (2 + from_millis 250) false false (Ok tt);
  Ev_reap (hears [] [says Kind_WorkloadExit [9; 50; 0; 0]] false) (from_millis 300);
  Ev_reader true false; Ev_control (from_millis 310) false false (Ok tt)].

Lemma told_once_witness :
  let o := w_owned (happens demo (World_new admitted ProcessLimits_default 0)) in
  exits (ow_log o) = [ExitStatus_Signal 9] ∧ failures (ow_log o) = [] ∧ finished (ow_session o)
  ∧ gu_fault admitted = false ∧ (length (exits (ow_log o)) <= 1)%nat.
Proof.
  cbv zeta. split_and!; [vm_compute; reflexivity | vm_compute; reflexivity | split_and!; vm_compute; reflexivity
                        | vm_compute; reflexivity |].
  exact (proj1 (told_once admitted ProcessLimits_default 0 admitted_hands_over demo)).
Defined.

Lemma signals_justified_witness :
  let w := happens demo (World_new admitted ProcessLimits_default 0) in
  (gu_control (ow_guardian (w_owned w)) = Some Kind_Release ∧ ow_killed (w_owned w) = true
   ∧ w_asked w = true ∧ w_shut w = false ∧ w_forced w = false)
  ∧ se_reader_done (ow_session (w_owned w)) = true.
Proof.
  cbv zeta. split; [split_and!; vm_compute; reflexivity|].
  refine (proj1 (proj1 (proj2 (proj2 (signals_justified admitted ProcessLimits_default 0
    admitted_hands_over demo))) _)). vm_compute. reflexivity.
Defined.
