(* ===== verification/Backend.v ===== *)
(** * The process backend (crates/infrastructure/src/process/backend.rs,
      spawner.rs, supervisor.rs, registration.rs)

    [UnixProcessBackend] admits a bounded number of processes.  A caller of
    [spawn] sends its request to the spawner thread and waits for one reply; the
    spawner launches and passes the prepared child to the supervisor thread, which
    registers it, replies, and owns it until it has ended.  A request, and later its
    process, holds one admission, which is given back when it is dropped.  An event
    is one step of one thread; what launching and registering a child answer are
    arguments. *)

From S2P Require Import Prelude Process Threads.

(** ** State *)

Abbreviation request := nat.

Inductive Message := Launch (r : request) | Shutdown.

(** A caller of [spawn], at its next step; its request is named by its index. *)
Inductive caller :=
  | Checking                                  (* shutdown? *)
  | Admitting                                 (* try_update active *)
  | Sending                                   (* try_send, holding an admission *)
  | Waiting                                   (* result.recv() *)
  | Returned (r : result ProcessError ()).

(** The spawner thread (spawner.rs, run). *)
Inductive spawner :=
  | Sp_receiving
  | Sp_checking (r : request)
  | Sp_launching (r : request)
  | Sp_prepared (r : request)                 (* launched: shutdown? *)
  | Sp_passing (r : request)                  (* ready.try_send *)
  | Sp_draining
  | Sp_leaving
  | Sp_gone.
#[export] Instance spawner_eq_dec : EqDecision spawner.
Proof. solve_decision. Defined.

Record Backend := {
  bk_max : Z;
  bk_active : Z;
  bk_shutdown : bool;
  bk_immediate : bool;
  bk_spawn_stop : bool;
  bk_requests : list Message;
  bk_spawner : spawner;
  bk_ready : list request;
  (* the processes the supervisor owns, and whether it still runs *)
  bk_processes : list request;
  bk_supervising : bool;
  bk_callers : list caller;
  (* history: the replies sent, and the requests dropped without one *)
  bk_replies : list (request * result ProcessError ());
  bk_dropped : list request;
  (* history: what registering each process answered, and the processes retired *)
  bk_started : list (request * result ProcessError ());
  bk_retired : list request
}.

Definition put_flags (shutdown immediate spawn_stop : bool) (b : Backend) : Backend := {|
  bk_max := bk_max b; bk_active := bk_active b; bk_shutdown := shutdown; bk_immediate := immediate;
  bk_spawn_stop := spawn_stop; bk_requests := bk_requests b; bk_spawner := bk_spawner b; bk_ready := bk_ready b;
  bk_processes := bk_processes b; bk_supervising := bk_supervising b; bk_callers := bk_callers b;
  bk_replies := bk_replies b; bk_dropped := bk_dropped b;
  bk_started := bk_started b; bk_retired := bk_retired b |}.
Definition put_active (active : Z) (b : Backend) : Backend := {|
  bk_max := bk_max b; bk_active := active; bk_shutdown := bk_shutdown b; bk_immediate := bk_immediate b;
  bk_spawn_stop := bk_spawn_stop b; bk_requests := bk_requests b; bk_spawner := bk_spawner b;
  bk_ready := bk_ready b; bk_processes := bk_processes b; bk_supervising := bk_supervising b;
  bk_callers := bk_callers b; bk_replies := bk_replies b; bk_dropped := bk_dropped b;
  bk_started := bk_started b; bk_retired := bk_retired b |}.
Definition put_requests (l : list Message) (b : Backend) : Backend := {|
  bk_max := bk_max b; bk_active := bk_active b; bk_shutdown := bk_shutdown b; bk_immediate := bk_immediate b;
  bk_spawn_stop := bk_spawn_stop b; bk_requests := l; bk_spawner := bk_spawner b; bk_ready := bk_ready b;
  bk_processes := bk_processes b; bk_supervising := bk_supervising b; bk_callers := bk_callers b;
  bk_replies := bk_replies b; bk_dropped := bk_dropped b;
  bk_started := bk_started b; bk_retired := bk_retired b |}.
Definition put_spawner (s : spawner) (b : Backend) : Backend := {|
  bk_max := bk_max b; bk_active := bk_active b; bk_shutdown := bk_shutdown b; bk_immediate := bk_immediate b;
  bk_spawn_stop := bk_spawn_stop b; bk_requests := bk_requests b; bk_spawner := s; bk_ready := bk_ready b;
  bk_processes := bk_processes b; bk_supervising := bk_supervising b; bk_callers := bk_callers b;
  bk_replies := bk_replies b; bk_dropped := bk_dropped b;
  bk_started := bk_started b; bk_retired := bk_retired b |}.
Definition put_owned (ready processes : list request) (supervising : bool) (b : Backend) : Backend := {|
  bk_max := bk_max b; bk_active := bk_active b; bk_shutdown := bk_shutdown b; bk_immediate := bk_immediate b;
  bk_spawn_stop := bk_spawn_stop b; bk_requests := bk_requests b; bk_spawner := bk_spawner b;
  bk_ready := ready; bk_processes := processes; bk_supervising := supervising; bk_callers := bk_callers b;
  bk_replies := bk_replies b; bk_dropped := bk_dropped b;
  bk_started := bk_started b; bk_retired := bk_retired b |}.
Definition put_callers (l : list caller) (b : Backend) : Backend := {|
  bk_max := bk_max b; bk_active := bk_active b; bk_shutdown := bk_shutdown b; bk_immediate := bk_immediate b;
  bk_spawn_stop := bk_spawn_stop b; bk_requests := bk_requests b; bk_spawner := bk_spawner b;
  bk_ready := bk_ready b; bk_processes := bk_processes b; bk_supervising := bk_supervising b;
  bk_callers := l; bk_replies := bk_replies b; bk_dropped := bk_dropped b;
  bk_started := bk_started b; bk_retired := bk_retired b |}.
Definition put_history (replies : list (request * result ProcessError ())) (dropped : list request)
    (b : Backend) : Backend := {|
  bk_max := bk_max b; bk_active := bk_active b; bk_shutdown := bk_shutdown b; bk_immediate := bk_immediate b;
  bk_spawn_stop := bk_spawn_stop b; bk_requests := bk_requests b; bk_spawner := bk_spawner b;
  bk_ready := bk_ready b; bk_processes := bk_processes b; bk_supervising := bk_supervising b;
  bk_callers := bk_callers b; bk_replies := replies; bk_dropped := dropped;
  bk_started := bk_started b; bk_retired := bk_retired b |}.

Definition put_registry (started : list (request * result ProcessError ())) (retired : list request)
    (b : Backend) : Backend := {|
  bk_max := bk_max b; bk_active := bk_active b; bk_shutdown := bk_shutdown b; bk_immediate := bk_immediate b;
  bk_spawn_stop := bk_spawn_stop b; bk_requests := bk_requests b; bk_spawner := bk_spawner b;
  bk_ready := bk_ready b; bk_processes := bk_processes b; bk_supervising := bk_supervising b;
  bk_callers := bk_callers b; bk_replies := bk_replies b; bk_dropped := bk_dropped b;
  bk_started := started; bk_retired := retired |}.

Definition Backend_empty (max : Z) : Backend := {|
  bk_max := max; bk_active := 0; bk_shutdown := false; bk_immediate := false; bk_spawn_stop := false;
  bk_requests := []; bk_spawner := Sp_receiving; bk_ready := []; bk_processes := []; bk_supervising := true;
  bk_callers := []; bk_replies := []; bk_dropped := []; bk_started := []; bk_retired := [] |}.

(** [build]; the roots, the helper image and the threads are ready. *)
Definition Backend_new (max : Z) : result ProcessError Backend :=
  if (max =? 0) || (65536 <? max) then Err ProcessError_Capacity else Ok (Backend_empty max).

(** ** Requests *)

(** [Admission::drop] *)
Definition release_admission (b : Backend) : Backend := put_active (bk_active b - 1) b.

Definition send_reply (r : request) (x : result ProcessError ()) (b : Backend) : Backend :=
  put_history (bk_replies b ++ [(r, x)]) (bk_dropped b) b.

(** [reject]: the request is dropped, with its admission, before its reply. *)
Definition reject (r : request) (e : ProcessError) (b : Backend) : Backend :=
  send_reply r (Err e) (release_admission b).

(** A request dropped with the channel it was in: nobody replies. *)
Definition drop_request (r : request) (b : Backend) : Backend :=
  let b := release_admission b in put_history (bk_replies b) (bk_dropped b ++ [r]) b.

Definition launches (l : list Message) : list request :=
  l ≫= λ m, match m with Launch r => [r] | Shutdown => [] end.

(** [SyncSender::try_send] on the requests: room and a receiver. *)
Definition requests_send (m : Message) (b : Backend) : Backend * bool :=
  match bk_spawner b with
  | Sp_gone => (b, false)
  | _ => if len (bk_requests b) <? bk_max b + 1 then (put_requests (bk_requests b ++ [m]) b, true)
         else (b, false)
  end.

(** ** Spawn *)

Definition put_caller (i : nat) (c : caller) (b : Backend) : Backend :=
  put_callers (<[i := c]> (bk_callers b)) b.

Definition spawn_step (i : nat) (b : Backend) : Backend :=
  match bk_callers b !! i with
  | Some Checking =>
    put_caller i (if bk_shutdown b then Returned (Err ProcessError_Closed) else Admitting) b
  | Some Admitting =>
    if bk_active b <? bk_max b then put_caller i Sending (put_active (bk_active b + 1) b)
    else put_caller i (Returned (Err ProcessError_Capacity)) b
  | Some Sending =>
    match requests_send (Launch i) b with
    | (b, true) => put_caller i Waiting b
    | (b, false) => put_caller i (Returned (Err ProcessError_Closed)) (release_admission b)
    end
  | Some Waiting =>
    match list_find (λ x, x.1 = i) (bk_replies b) with
    | Some (_, (_, r)) => put_caller i (Returned r) b
    | None =>
      if bool_decide (i ∈ bk_dropped b)
      then put_caller i (Returned (Err (if bk_shutdown b then ProcessError_Closed else ProcessError_Internal))) b
      else b
    end
  | _ => b
  end.

(** ** The spawner thread *)

Definition spawner_step (launched : result ProcessError ()) (b : Backend) : Backend :=
  match bk_spawner b with
  | Sp_receiving =>
    match bk_requests b with
    | Launch r :: l => put_spawner (Sp_checking r) (put_requests l b)
    | Shutdown :: l => put_spawner Sp_draining (put_requests l b)
    | [] => b
    end
  | Sp_checking r =>
    if bk_shutdown b then put_spawner Sp_receiving (reject r ProcessError_Closed b)
    else put_spawner (Sp_launching r) b
  | Sp_launching r =>
    match launched with
    | Ok _ => put_spawner (Sp_prepared r) b
    | Err e => put_spawner Sp_receiving (reject r e b)
    end
  | Sp_prepared r =>
    if bk_shutdown b then put_spawner Sp_receiving (reject r ProcessError_Closed b)
    else put_spawner (Sp_passing r) b
  | Sp_passing r =>
    if bk_supervising b && (len (bk_ready b) <? bk_max b)
    then put_spawner Sp_receiving (put_owned (bk_ready b ++ [r]) (bk_processes b) (bk_supervising b) b)
    else put_spawner Sp_receiving (reject r ProcessError_Closed b)
  | Sp_draining =>
    match bk_requests b with
    | Launch r :: l => reject r ProcessError_Closed (put_requests l b)
    | Shutdown :: l => put_requests l b
    | [] => put_spawner Sp_leaving b
    end
  | Sp_leaving =>
    (* the receiver is dropped, with what was sent meanwhile *)
    put_spawner Sp_gone (put_requests [] (foldl (flip drop_request) b (launches (bk_requests b))))
  | Sp_gone => b
  end.

(** ** The supervisor thread *)

(** One request of the admission loop; [started] is what [registration::start]
    answers. *)
Definition accept_step (started : result ProcessError ()) (b : Backend) : Backend :=
  if bk_supervising b then
    match bk_ready b with
    | r :: l =>
      let b := put_owned l (bk_processes b) (bk_supervising b) b in
      if bk_shutdown b then reject r ProcessError_Closed b
      else
        let b := put_registry (bk_started b ++ [(r, started)]) (bk_retired b) b in
        match started with
        | Ok _ => put_owned (bk_ready b) (bk_processes b ++ [r]) (bk_supervising b) (send_reply r (Ok tt) b)
        | Err e => reject r e b
        end
    | [] => b
    end
  else b.

(** A process that has ended and whose reader is done is dropped. *)
Definition retire_step (k : nat) (b : Backend) : Backend :=
  match bk_processes b !! k with
  | Some r =>
    let b := put_registry (bk_started b) (bk_retired b ++ [r]) b in
    release_admission (put_owned (bk_ready b) (delete k (bk_processes b)) (bk_supervising b) b)
  | None => b
  end.

(** The end of the loop: the receiver is dropped with what it still holds. *)
Definition leave_step (b : Backend) : Backend :=
  if bk_supervising b && bk_shutdown b && bool_decide (bk_processes b = [])
  then put_owned [] [] false (foldl (flip drop_request) b (bk_ready b))
  else b.

(** ** Shutdown *)

(** [stop], up to the joins: the flags, then the message unless it was sent. *)
Definition stop_flags (immediate : bool) (b : Backend) : Backend :=
  put_flags true (bk_immediate b || immediate) (bk_spawn_stop b) b.
Definition stop_message (b : Backend) : Backend :=
  if bk_spawn_stop b then b
  else (requests_send Shutdown (put_flags (bk_shutdown b) (bk_immediate b) true b)).1.

(** ** Histories *)

Inductive event :=
  | Ev_call                                    (* a thread calls [spawn] *)
  | Ev_spawn (i : nat)
  | Ev_spawner (launched : result ProcessError ())
  | Ev_accept (started : result ProcessError ())
  | Ev_retire (k : nat)
  | Ev_leave
  | Ev_stop (immediate : bool)
  | Ev_stop_message.

Definition step (e : event) (b : Backend) : Backend :=
  match e with
  | Ev_call => put_callers (bk_callers b ++ [Checking]) b
  | Ev_spawn i => spawn_step i b
  | Ev_spawner launched => spawner_step launched b
  | Ev_accept started => accept_step started b
  | Ev_retire k => retire_step k b
  | Ev_leave => leave_step b
  | Ev_stop immediate => stop_flags immediate b
  | Ev_stop_message => if bk_shutdown b then stop_message b else b
  end.
Definition steps (es : list event) (b : Backend) : Backend := foldl (flip step) b es.

(** ** The invariant *)

Definition is_sending (c : caller) : bool := match c with Sending => true | _ => false end.
Definition issued (c : caller) : bool := match c with Waiting | Returned _ => true | _ => false end.

(** The request the spawner holds. *)
Definition held (s : spawner) : list request :=
  match s with Sp_checking r | Sp_launching r | Sp_prepared r | Sp_passing r => [r] | _ => [] end.
Definition stopping (s : spawner) : bool :=
  match s with Sp_draining | Sp_leaving | Sp_gone => true | _ => false end.
Definition is_shutdown (m : Message) : bool := match m with Shutdown => true | Launch _ => false end.

(** Requests nobody has settled yet, and those replied to or dropped. *)
Definition outstanding (b : Backend) : list request :=
  launches (bk_requests b) ++ held (bk_spawner b) ++ bk_ready b.
Definition settled (b : Backend) : list request := (fst <$> bk_replies b) ++ bk_dropped b.

Record inv (b : Backend) : Prop := {
  iv_max : 0 < bk_max b;
  iv_active : bk_active b = Z.of_nat (count is_sending (bk_callers b)) + len (outstanding b)
                            + len (bk_processes b);
  iv_bound : bk_active b <= bk_max b;
  iv_names : NoDup (outstanding b ++ settled b);
  iv_issued : ∀ r, r ∈ outstanding b ++ settled b →
    ∃ c, bk_callers b !! r = Some c ∧ issued c = true;
  iv_waiting : ∀ i, bk_callers b !! i = Some Waiting → i ∈ outstanding b ++ settled b;
  iv_message : (count is_shutdown (bk_requests b) + Nat.b2n (stopping (bk_spawner b))
                <= Nat.b2n (bk_spawn_stop b))%nat;
  iv_stop : bk_spawn_stop b = true → bk_shutdown b = true;
  iv_dropped : bk_dropped b ≠ [] → bk_shutdown b = true;
  iv_gone : bk_spawner b = Sp_gone → bk_requests b = [];
  iv_left : bk_supervising b = false →
    bk_shutdown b = true ∧ bk_ready b = [] ∧ bk_processes b = [];
  iv_owned : ∀ r, r ∈ bk_processes b → (r, Ok tt) ∈ bk_replies b
}.

Lemma launches_app l k : launches (l ++ k) = launches l ++ launches k.
Proof. apply bind_app. Qed.

Lemma count_app {A} (f : A → bool) l k : count f (l ++ k) = (count f l + count f k)%nat.
Proof. unfold count. by rewrite List.filter_app, length_app. Qed.

Lemma len_messages l : len l = len (launches l) + Z.of_nat (count is_shutdown l).
Proof.
  induction l as [|[r|] l IH]; [done| |]; rewrite len_cons, IH.
  - change (launches (Launch r :: l)) with (r :: launches l).
    change (count is_shutdown (Launch r :: l)) with (count is_shutdown l). rewrite len_cons. lia.
  - change (launches (Shutdown :: l)) with (launches l).
    change (count is_shutdown (Shutdown :: l)) with (S (count is_shutdown l)). lia.
Qed.

Lemma Backend_new_inv max b : 0 <= max → Backend_new max = Ok b → inv b ∧ bk_max b = max.
Proof.
  unfold Backend_new. destruct (_ || _) eqn:E; [done|]. intros ? [= <-]. to_props.
  split; [|done]. split; cbn; try done; try lia; try (by constructor).
  - intros r Hr. by apply not_elem_of_nil in Hr.
  - intros r Hr. by apply not_elem_of_nil in Hr.
Qed.

(** Requests [rs] leave their place for the settled ones; the others may move. *)
Lemma settle_inv rs b b' :
  inv b →
  bk_max b' = bk_max b → bk_active b' = bk_active b - len rs → bk_shutdown b' = bk_shutdown b →
  bk_spawn_stop b' = bk_spawn_stop b → bk_callers b' = bk_callers b →
  bk_processes b' = bk_processes b →
  (bk_supervising b' = false → bk_shutdown b = true ∧ bk_ready b' = [] ∧ bk_processes b = []) →
  outstanding b ≡ₚ rs ++ outstanding b' → settled b' ≡ₚ rs ++ settled b →
  (count is_shutdown (bk_requests b') + Nat.b2n (stopping (bk_spawner b'))
     <= count is_shutdown (bk_requests b) + Nat.b2n (stopping (bk_spawner b)))%nat →
  (bk_dropped b' = bk_dropped b ∨ bk_shutdown b = true) →
  (bk_spawner b' = Sp_gone → bk_requests b' = []) →
  (∀ x, x ∈ bk_replies b → x ∈ bk_replies b') →
  inv b'.
Proof.
  intros [] Em Ea Es Ess Ec Ep El Ho Hs Hm Hd Hg Hr.
  assert (Hall : outstanding b' ++ settled b' ≡ₚ outstanding b ++ settled b).
  { rewrite Ho, Hs, !app_assoc. f_equiv. apply Permutation_app_comm. }
  split; rewrite ?Em, ?Ea, ?Es, ?Ess, ?Ec, ?Ep in *; auto.
  - rewrite iv_active0. unfold len. rewrite (Permutation_length Ho), length_app. lia.
  - len_facts. lia.
  - by rewrite Hall.
  - intros x Hx. rewrite Hall in Hx. auto.
  - intros i Hi. rewrite Hall. auto.
  - lia.
  - destruct Hd as [->|?]; auto.
Qed.

(** The same, with nobody settled. *)
Lemma move_inv b b' :
  inv b →
  bk_max b' = bk_max b → bk_active b' = bk_active b → bk_shutdown b' = bk_shutdown b →
  bk_spawn_stop b' = bk_spawn_stop b → bk_callers b' = bk_callers b →
  bk_processes b' = bk_processes b → bk_supervising b' = bk_supervising b →
  (bk_supervising b = false → bk_ready b' = []) →
  outstanding b ≡ₚ outstanding b' → bk_replies b' = bk_replies b → bk_dropped b' = bk_dropped b →
  (count is_shutdown (bk_requests b') + Nat.b2n (stopping (bk_spawner b'))
     <= count is_shutdown (bk_requests b) + Nat.b2n (stopping (bk_spawner b)))%nat →
  (bk_spawner b' = Sp_gone → bk_requests b' = []) →
  inv b'.
Proof.
  intros Hb Em Ea Es Ess Ec Ep Es' El Ho Hr Hd Hm Hg.
  apply (settle_inv [] b); auto; rewrite ?Hr; auto.
  - rewrite len_nil. lia.
  - rewrite Es'. intros Hl. destruct (iv_left _ Hb Hl) as (? & _ & ?). auto.
  - unfold settled. by rewrite Hr, Hd.
Qed.

(** Dropping a whole channel. *)
Lemma drop_all l : ∀ b,
  let b' := foldl (flip drop_request) b l in
  bk_active b' = bk_active b - len l ∧ bk_dropped b' = bk_dropped b ++ l
  ∧ bk_max b' = bk_max b ∧ bk_shutdown b' = bk_shutdown b ∧ bk_immediate b' = bk_immediate b
  ∧ bk_spawn_stop b' = bk_spawn_stop b ∧ bk_requests b' = bk_requests b ∧ bk_spawner b' = bk_spawner b
  ∧ bk_ready b' = bk_ready b ∧ bk_processes b' = bk_processes b ∧ bk_supervising b' = bk_supervising b
  ∧ bk_callers b' = bk_callers b ∧ bk_replies b' = bk_replies b
  ∧ bk_started b' = bk_started b ∧ bk_retired b' = bk_retired b.
Proof.
  induction l as [|r l IH]; intros b b'; [subst b'; simpl; rewrite len_nil, app_nil_r; split_and!; auto; lia|].
  destruct (IH (drop_request r b)) as (E1 & E2 & E). subst b'. cbn [foldl flip].
  rewrite E1, E2. cbn [bk_active drop_request release_admission put_history put_active bk_dropped].
  split_and!; [rewrite len_cons; lia | by rewrite <-app_assoc | apply E..].
Qed.

Ltac backend := cbn [put_flags put_active put_requests put_spawner put_owned put_callers put_history
  put_registry bk_started bk_retired
  reject send_reply release_admission drop_request bk_max bk_active bk_shutdown bk_immediate bk_spawn_stop
  bk_requests bk_spawner bk_ready bk_processes bk_supervising bk_callers bk_replies bk_dropped
  held stopping Nat.b2n].

(** The spawner rejects the request it holds. *)
Lemma reject_inv r e next b :
  inv b → held (bk_spawner b) = [r] → held next = [] → stopping next = stopping (bk_spawner b) → next ≠ Sp_gone →
  inv (put_spawner next (reject r e b)).
Proof.
  intros Hb Hh Hn Hs Hg. apply (settle_inv [r] b); auto; unfold outstanding, settled; backend;
    rewrite ?Hh, ?Hn, ?Hs; try done; auto.
  - intros Hl. by apply iv_left.
  - simpl. by rewrite <-Permutation_middle.
  - rewrite fmap_app, <-app_assoc. simpl. by rewrite <-Permutation_middle.
  - intros x Hx. apply elem_of_app. by left.
Qed.

(** The spawner goes on with what it holds. *)
Lemma next_inv next b :
  inv b → held next = held (bk_spawner b) → stopping next = stopping (bk_spawner b) → next ≠ Sp_gone →
  inv (put_spawner next b).
Proof.
  intros Hb Hh Hs Hg. apply (move_inv b); auto; unfold outstanding; backend; rewrite ?Hh, ?Hs; try done; auto.
  intros Hl. by apply iv_left.
Qed.

Lemma receive_inv m l next b :
  inv b → bk_requests b = m :: l → held (bk_spawner b) = [] →
  held next = launches [m] → next ≠ Sp_gone →
  (Nat.b2n (stopping next) <= Nat.b2n (is_shutdown m) + Nat.b2n (stopping (bk_spawner b)))%nat →
  inv (put_spawner next (put_requests l b)).
Proof.
  intros Hb Hq Hh Hn Hg Hs. apply (move_inv b); auto; unfold outstanding; backend; rewrite ?Hh, ?Hn, ?Hq; try done.
  - intros Hl. by apply iv_left.
  - change (m :: l) with ([m] ++ l). rewrite launches_app. simpl. rewrite app_assoc. f_equiv. apply Permutation_app_comm.
  - change (m :: l) with ([m] ++ l). rewrite count_app. destruct m; simpl in *; lia.
Qed.

Lemma spawner_inv launched b : inv b → inv (spawner_step launched b).
Proof.
  intros Hb. unfold spawner_step. destruct (bk_spawner b) eqn:Es; try done.
  - destruct (bk_requests b) as [|[r|] l] eqn:Eq; [done| |];
      eapply receive_inv; eauto; rewrite ?Es; done || simpl; lia.
  - destruct (bk_shutdown b); [apply reject_inv | apply next_inv]; rewrite ?Es; done.
  - destruct launched; [apply next_inv | apply reject_inv]; rewrite ?Es; done.
  - destruct (bk_shutdown b); [apply reject_inv | apply next_inv]; rewrite ?Es; done.
  - destruct (_ && _) eqn:Er; [|apply reject_inv; rewrite ?Es; done]. to_props.
    apply (move_inv b); auto; unfold outstanding; backend; rewrite ?Es; try done.
    + congruence.
    + simpl. by rewrite <-Permutation_cons_append.
  - destruct (bk_requests b) as [|[r|] l] eqn:Eq.
    + apply next_inv; rewrite ?Es; done.
    + apply (settle_inv [r] b); auto; unfold outstanding, settled; backend; rewrite ?Es, ?Eq; try done.
      * intros Hl. by apply iv_left.
      * rewrite fmap_app, <-app_assoc. simpl. by rewrite <-Permutation_middle.
      * intros x Hx. apply elem_of_app. by left.
    + pose proof (receive_inv Shutdown l Sp_draining b Hb Eq) as H. rewrite Es in H.
      replace (put_requests l b) with (put_spawner Sp_draining (put_requests l b)); [apply H; done || simpl; lia|].
      destruct b; cbn in *; by subst.
  - (* leaving *)
    destruct (drop_all (launches (bk_requests b)) b) as (E1 & E2 & E3 & E4 & E5 & E6 & E7 & E8 & E9 & E10 & E11 & E12 & E13 & _).
    set (b1 := foldl _ _ _) in *.
    assert (Hsd : bk_shutdown b = true).
    { pose proof (iv_message _ Hb) as Hm. rewrite Es in Hm. simpl in Hm.
      apply (iv_stop _ Hb). destruct (bk_spawn_stop b); [done|simpl in Hm; lia]. }
    apply (settle_inv (launches (bk_requests b)) b); auto; unfold outstanding, settled; backend;
      rewrite ?E1, ?E2, ?E3, ?E4, ?E5, ?E6, ?E9, ?E10, ?E11, ?E12, ?E13, ?Es; try done; auto.
    + intros Hl. by apply iv_left.
    + rewrite app_assoc. apply Permutation_app_comm.
    + change (count is_shutdown []) with O. simpl. lia.
Qed.

(** A caller moves on without sending. *)
Lemma caller_inv i c c' b :
  inv b → bk_callers b !! i = Some c → (issued c = true → issued c' = true) → c' ≠ Waiting →
  let change := (if is_sending c' then 1 else 0) - (if is_sending c then 1 else 0) in
  bk_active b + change <= bk_max b →
  inv (put_caller i c' (put_active (bk_active b + change) b)).
Proof.
  intros [] Hi Hc Hw change Hle.
  pose proof (count_insert is_sending (bk_callers b) i c c' Hi) as Hn.
  split; unfold put_caller; backend; auto.
  - change (outstanding (put_callers _ _)) with (outstanding b).
    rewrite iv_active0. subst change. destruct (is_sending c), (is_sending c'); lia.
  - intros r Hr. destruct (iv_issued0 r Hr) as (x & Hx & Hxi). destruct (decide (r = i)) as [->|Hne].
    + exists c'. rewrite list_lookup_insert_eq by (by eapply lookup_lt_Some). split; [done|]. apply Hc. congruence.
    + exists x. by rewrite list_lookup_insert_ne by done.
  - intros j Hj. apply iv_waiting0. destruct (decide (j = i)) as [->|Hne].
    + rewrite list_lookup_insert_eq in Hj by (by eapply lookup_lt_Some). congruence.
    + by rewrite list_lookup_insert_ne in Hj by done.
Qed.

Lemma put_active_same b : put_active (bk_active b) b = b.
Proof. by destruct b. Qed.

Lemma caller_moves i c c' b :
  inv b → bk_callers b !! i = Some c → (issued c = true → issued c' = true) → c' ≠ Waiting →
  is_sending c' = is_sending c → inv (put_caller i c' b).
Proof.
  intros Hb Hi Hc Hw Hs. pose proof (caller_inv i c c' b Hb Hi Hc Hw) as H. cbv zeta in H.
  rewrite Hs, Z.sub_diag, Z.add_0_r, put_active_same in H. apply H, Hb.
Qed.

(** There is room for every request: an admission is held for each. *)
Lemma requests_room b :
  inv b → (0 < count is_sending (bk_callers b))%nat ∨ bk_spawn_stop b = false →
  len (bk_requests b) < bk_max b + 1.
Proof.
  intros [] H. rewrite len_messages. unfold outstanding in *. rewrite !len_app in iv_active0.
  assert (Nat.b2n (bk_spawn_stop b) <= 1)%nat by (destruct (bk_spawn_stop b); simpl; lia).
  len_facts. destruct H as [?|H]; [lia|]. rewrite H in *. simpl in *. lia.
Qed.

Lemma requests_send_spec m b :
  inv b → (0 < count is_sending (bk_callers b))%nat ∨ bk_spawn_stop b = false →
  requests_send m b = if bool_decide (bk_spawner b = Sp_gone) then (b, false)
                      else (put_requests (bk_requests b ++ [m]) b, true).
Proof.
  intros Hb Hr. pose proof (requests_room b Hb Hr). unfold requests_send.
  assert (E : (len (bk_requests b) <? bk_max b + 1) = true) by (apply Z.ltb_lt; lia). rewrite E.
  by destruct (bk_spawner b).
Qed.

Lemma sending_counted i b : bk_callers b !! i = Some Sending → (0 < count is_sending (bk_callers b))%nat.
Proof. intros H. by eapply count_pos. Qed.

(** A request is sent, and its caller waits. *)
Lemma send_inv i b :
  inv b → bk_callers b !! i = Some Sending → bk_spawner b ≠ Sp_gone →
  inv (put_caller i Waiting (put_requests (bk_requests b ++ [Launch i]) b)).
Proof.
  intros [] Hi Hg. pose proof (count_insert is_sending (bk_callers b) i Sending Waiting Hi) as Hn. simpl in Hn.
  assert (Hout : outstanding (put_caller i Waiting (put_requests (bk_requests b ++ [Launch i]) b)) ≡ₚ i :: outstanding b).
  { unfold outstanding, put_caller. backend. rewrite launches_app, <-app_assoc. simpl.
    by rewrite <-Permutation_middle. }
  assert (Hfresh : i ∉ outstanding b ++ settled b).
  { intros Hin. destruct (iv_issued0 i Hin) as (c & Hc & Hci). rewrite Hi in Hc. by simplify_eq. }
  change (settled b) with (settled (put_caller i Waiting (put_requests (bk_requests b ++ [Launch i]) b))) in *.
  set (b' := put_caller _ _ _) in *.
  assert (E : bk_active b' = bk_active b ∧ bk_max b' = bk_max b ∧ bk_shutdown b' = bk_shutdown b
    ∧ bk_spawn_stop b' = bk_spawn_stop b ∧ bk_dropped b' = bk_dropped b ∧ bk_spawner b' = bk_spawner b
    ∧ bk_supervising b' = bk_supervising b ∧ bk_ready b' = bk_ready b ∧ bk_processes b' = bk_processes b
    ∧ bk_replies b' = bk_replies b ∧ bk_callers b' = <[i := Waiting]> (bk_callers b)
    ∧ bk_requests b' = bk_requests b ++ [Launch i]) by done.
  clearbody b'. destruct E as (E1 & E2 & E3 & E4 & E5 & E6 & E7 & E8 & E9 & E10 & E11 & E12).
  split; rewrite ?E1, ?E2, ?E3, ?E4, ?E5, ?E6, ?E7, ?E8, ?E9, ?E10, ?E11, ?E12; auto.
  - rewrite iv_active0. unfold len. rewrite (Permutation_length Hout). simpl. lia.
  - rewrite Hout. simpl. by constructor.
  - intros r Hr. rewrite Hout in Hr. simpl in Hr. destruct (decide (r = i)) as [->|Hne].
    + exists Waiting. by rewrite list_lookup_insert_eq by (by eapply lookup_lt_Some).
    + apply elem_of_cons in Hr as [->|Hr]; [done|]. destruct (iv_issued0 r Hr) as (x & Hx & Hxi).
      exists x. by rewrite list_lookup_insert_ne by done.
  - intros j Hj. rewrite Hout. simpl. destruct (decide (j = i)) as [->|Hne]; [by left|].
    right. apply iv_waiting0. by rewrite list_lookup_insert_ne in Hj by done.
  - rewrite count_app. unfold count at 2. simpl. lia.
  - congruence.
Qed.

Lemma spawn_inv i b : inv b → inv (spawn_step i b).
Proof.
  intros Hb. unfold spawn_step. destruct (bk_callers b !! i) as [[| | | |]|] eqn:Hi; try done.
  - destruct (bk_shutdown b); eapply caller_moves; eauto; done.
  - destruct (bk_active b <? bk_max b) eqn:El; [|eapply caller_moves; eauto; done]. to_props.
    apply (caller_inv i Admitting Sending b Hb Hi); simpl; done || lia.
  - rewrite (requests_send_spec _ b Hb) by (left; by eapply sending_counted).
    case_bool_decide as Hg; [|by apply send_inv].
    apply (caller_inv i Sending (Returned (Err ProcessError_Closed)) b Hb Hi); simpl; try done.
    pose proof (iv_bound _ Hb). lia.
  - destruct (list_find _ _) as [[? [? ?]]|]; [eapply caller_moves; eauto; done|].
    case_bool_decide; [eapply caller_moves; eauto; done | done].
Qed.

Lemma call_inv b : inv b → inv (put_callers (bk_callers b ++ [Checking]) b).
Proof.
  intros []. split; backend; auto.
  - rewrite count_app. change (count is_sending [Checking]) with O. rewrite Nat.add_0_r. done.
  - intros r Hr. destruct (iv_issued0 r Hr) as (x & Hx & ?). exists x. split; [|done]. by apply lookup_app_l_Some.
  - intros j Hj. apply lookup_app_Some in Hj as [Hj|[_ Hj]]; [by apply iv_waiting0|].
    apply list_lookup_singleton_Some in Hj as [_ ?]. done.
Qed.

(** The history of registrations is not what the invariant is about. *)
Lemma registry_inv started retired b : inv b → inv (put_registry started retired b).
Proof. intros []. by split. Qed.

Lemma accept_inv started b : inv b → inv (accept_step started b).
Proof.
  intros Hb. unfold accept_step. destruct (bk_supervising b) eqn:Hs; [|done].
  destruct (bk_ready b) as [|r l] eqn:Hr; [done|]. cbn zeta.
  assert (Hplace : outstanding b ≡ₚ r :: outstanding (put_owned l (bk_processes b) true b)).
  { unfold outstanding. backend. rewrite Hr, !app_assoc. by rewrite <-Permutation_middle. }
  assert (Hrej : ∀ e, inv (reject r e (put_owned l (bk_processes b) true b))).
  { intros e. apply (settle_inv [r] b); auto; unfold settled; backend; try done.
    - rewrite fmap_app, <-app_assoc. simpl. by rewrite <-Permutation_middle.
    - apply Hb.
    - intros x Hx. apply elem_of_app. by left. }
  destruct (bk_shutdown (put_owned _ _ _ _)); [apply Hrej|]. destruct started as [[]|e]; [|apply (registry_inv _ _ _ (Hrej e))].
  (* registered: the reply is sent and the supervisor owns the process *)
  set (b' := put_owned _ _ _ (send_reply r (Ok tt) _)).
  assert (Hsettled : settled b' ≡ₚ r :: settled b).
  { unfold settled, b'. backend. rewrite fmap_app, <-app_assoc. simpl. by rewrite <-Permutation_middle. }
  assert (Hplace' : outstanding b ≡ₚ r :: outstanding b') by exact Hplace.
  assert (Hall : outstanding b' ++ settled b' ≡ₚ outstanding b ++ settled b)
    by (rewrite Hplace', Hsettled; simpl; by rewrite <-Permutation_middle).
  assert (E : bk_active b' = bk_active b ∧ bk_max b' = bk_max b ∧ bk_shutdown b' = bk_shutdown b
    ∧ bk_spawn_stop b' = bk_spawn_stop b ∧ bk_dropped b' = bk_dropped b ∧ bk_spawner b' = bk_spawner b
    ∧ bk_supervising b' = true ∧ bk_processes b' = bk_processes b ++ [r]
    ∧ bk_replies b' = bk_replies b ++ [(r, Ok tt)] ∧ bk_callers b' = bk_callers b
    ∧ bk_requests b' = bk_requests b) by done.
  clearbody b'. destruct E as (E1 & E2 & E3 & E4 & E5 & E6 & E7 & E8 & E9 & E10 & E11). destruct Hb.
  split; rewrite ?E1, ?E2, ?E3, ?E4, ?E5, ?E6, ?E7, ?E8, ?E9, ?E10, ?E11, ?Hall; auto; try done.
  - rewrite iv_active0, len_app. unfold len. rewrite (Permutation_length Hplace'). simpl. lia.
  - intros x Hx. rewrite Hall in Hx. auto.
  - intros i Hi. rewrite Hall. auto.
  - intros x Hx. apply elem_of_app in Hx as [Hx|Hx]; apply elem_of_app; [by left; auto|].
    right. apply list_elem_of_singleton in Hx as ->. by left.
Qed.

Lemma retire_inv k b : inv b → inv (retire_step k b).
Proof.
  intros []. unfold retire_step. destruct (bk_processes b !! k) as [r|] eqn:Hk; [|done].
  assert (Hp : bk_processes b ≡ₚ r :: delete k (bk_processes b)) by by apply delete_Permutation.
  split; unfold outstanding, settled in *; backend; auto.
  - rewrite iv_active0. unfold len. rewrite (Permutation_length Hp). simpl. lia.
  - lia.
  - intros Hl. destruct (iv_left0 Hl) as (? & ? & E). rewrite E in Hk. done.
  - intros x Hx. apply iv_owned0. rewrite Hp. by right.
Qed.

Lemma leave_inv b : inv b → inv (leave_step b).
Proof.
  intros Hb. unfold leave_step. destruct (_ && _) eqn:E; [|done].
  apply andb_true_iff in E as [E Hp]. apply andb_true_iff in E as [_ Hsd]. to_props.
  destruct (drop_all (bk_ready b) b) as (E1 & E2 & E3 & E4 & E5 & E6 & E7 & E8 & E9 & E10 & E11 & E12 & E13 & _).
  set (b1 := foldl _ _ _) in *. clearbody b1.
  apply (settle_inv (bk_ready b) b); auto; unfold outstanding, settled; backend;
    rewrite ?E1, ?E2, ?E3, ?E4, ?E6, ?E7, ?E8, ?E12, ?E13, ?Hp; auto.
  - rewrite app_nil_r, app_assoc. apply Permutation_app_comm.
  - rewrite app_assoc. apply Permutation_app_comm.
  - apply Hb.
Qed.

Lemma stop_flags_inv immediate b : inv b → inv (stop_flags immediate b).
Proof. intros []. unfold stop_flags. split; backend; auto. intros Hl. by destruct (iv_left0 Hl). Qed.

Lemma stop_message_inv b : inv b → bk_shutdown b = true → inv (stop_message b).
Proof.
  intros Hb Hsd. unfold stop_message. destruct (bk_spawn_stop b) eqn:Hst; [done|].
  set (b1 := put_flags _ _ true b).
  assert (Hroom : len (bk_requests b) < bk_max b + 1) by (apply requests_room; auto).
  assert (Hnot : stopping (bk_spawner b) = false ∧ count is_shutdown (bk_requests b) = O).
  { pose proof (iv_message _ Hb) as Hm. rewrite Hst in Hm. destruct (stopping _); simpl in Hm; lia. }
  destruct Hnot as [Hn Hc].
  assert (Hsend : requests_send Shutdown b1 = (put_requests (bk_requests b ++ [Shutdown]) b1, true)).
  { unfold requests_send. subst b1. backend. replace (len (bk_requests b) <? bk_max b + 1) with true
      by (symmetry; by apply Z.ltb_lt). by destruct (bk_spawner b). }
  rewrite Hsend. cbn [fst]. destruct Hb. subst b1.
  split; unfold outstanding, settled in *; backend; rewrite ?launches_app, ?app_nil_r; auto.
  - rewrite count_app, Hc, Hn. simpl. lia.
  - intros Hg. by rewrite Hg in Hn.
Qed.

Lemma step_inv e b : inv b → inv (step e b).
Proof.
  intros Hb. destruct e; cbn [step]; auto using call_inv, spawn_inv, spawner_inv, accept_inv, retire_inv,
    leave_inv, stop_flags_inv.
  destruct (bk_shutdown b) eqn:E; [by apply stop_message_inv | done].
Qed.

Lemma steps_inv es b : inv b → inv (steps es b).
Proof. revert b. induction es as [|e es IH]; intros b Hb; [done|]. apply IH. by apply step_inv. Qed.

(** ** Shutdown reaches the spawner *)

(** Its message is in the queue, or was received. *)
Definition told (b : Backend) : Prop :=
  bk_spawn_stop b = true → (0 < count is_shutdown (bk_requests b))%nat ∨ stopping (bk_spawner b) = true.

Lemma told_kept b b' :
  told b → bk_spawn_stop b' = bk_spawn_stop b → bk_requests b' = bk_requests b →
  bk_spawner b' = bk_spawner b → told b'.
Proof. intros H E1 E2 E3. unfold told. by rewrite E1, E2, E3. Qed.

Lemma spawn_told i b : told b → told (spawn_step i b).
Proof.
  intros H. unfold spawn_step. destruct (bk_callers b !! i) as [[| | | |]|]; try done.
  - by destruct (_ <? _).
  - unfold requests_send.
    assert (Hr : told (put_caller i (Returned (Err ProcessError_Closed)) (release_admission b)))
      by by apply (told_kept b).
    assert (Ha : told (put_caller i Waiting (put_requests (bk_requests b ++ [Launch i]) b))).
    { intros Hs. destruct (H Hs) as [Hc|Hp]; [left|by right].
      change (bk_requests (put_caller _ _ _)) with (bk_requests b ++ [Launch i]). rewrite count_app. lia. }
    destruct (bk_spawner b); try done; by destruct (_ <? _).
  - destruct (list_find _ _) as [[? [? ?]]|]; [by apply (told_kept b)|].
    case_bool_decide; [by apply (told_kept b) | done].
Qed.

Lemma spawner_told launched b : told b → told (spawner_step launched b).
Proof.
  intros H. unfold spawner_step. unfold told in *. destruct (bk_spawner b) eqn:Es; simpl in H.
  - destruct (bk_requests b) as [|[r|] l] eqn:Eq; backend; rewrite ?Es, ?Eq; auto.
  - destruct (bk_shutdown b); backend; auto.
  - destruct launched; backend; auto.
  - destruct (bk_shutdown b); backend; auto.
  - destruct (_ && _); backend; auto.
  - destruct (bk_requests b) as [|[r|] l] eqn:Eq; backend; rewrite ?Es; simpl; auto.
  - backend. auto.
  - rewrite Es. auto.
Qed.

Lemma step_told e b : inv b → told b → told (step e b).
Proof.
  intros Hb H. destruct e; cbn [step]; auto using spawn_told, spawner_told.
  - unfold accept_step. destruct (bk_supervising b); [|done]. destruct (bk_ready b); [done|]. cbv zeta.
    destruct (bk_shutdown _); [by apply (told_kept b)|]. destruct started; by apply (told_kept b).
  - unfold retire_step. destruct (_ !! _); [by apply (told_kept b) | done].
  - unfold leave_step. destruct (_ && _); [|done].
    destruct (drop_all (bk_ready b) b) as (_ & _ & _ & _ & _ & E6 & E7 & E8 & _). by apply (told_kept b).
  - destruct (bk_shutdown b) eqn:Hsd; [|done]. unfold stop_message. destruct (bk_spawn_stop b) eqn:Hst; [done|].
    pose proof (stop_message_inv b Hb Hsd) as Hi. unfold stop_message in Hi. rewrite Hst in Hi.
    assert (Hroom : len (bk_requests b) < bk_max b + 1) by (apply requests_room; auto).
    intros _. unfold requests_send. backend. replace (len (bk_requests b) <? bk_max b + 1) with true
      by (symmetry; by apply Z.ltb_lt).
    pose proof (iv_message _ Hb) as Hm. rewrite Hst in Hm.
    destruct (bk_spawner b); simpl in *; try lia; left; backend; rewrite count_app; unfold count at 2; simpl; lia.
Qed.

Lemma steps_told es b : inv b → told b → told (steps es b).
Proof.
  revert b. induction es as [|e es IH]; intros b Hb H; [done|].
  apply IH; [by apply step_inv | by apply step_told].
Qed.

(** Steps the spawner still makes once it was told to stop. *)
Definition stage (s : spawner) : nat :=
  match s with
  | Sp_checking _ => 7 | Sp_launching _ => 6 | Sp_prepared _ => 5 | Sp_passing _ => 4
  | Sp_receiving => 3 | Sp_draining => 2 | Sp_leaving => 1 | Sp_gone => 0
  end.
Definition remaining (b : Backend) : nat :=
  if decide (bk_spawner b = Sp_gone) then 0 else stage (bk_spawner b) + 5 * length (bk_requests b).

Lemma remaining_falls launched b :
  told b → bk_spawn_stop b = true → bk_spawner b ≠ Sp_gone →
  (remaining (spawner_step launched b) < remaining b)%nat.
Proof.
  intros Ht Hs Hg. specialize (Ht Hs). unfold remaining at 2. rewrite decide_False by done.
  unfold spawner_step, remaining. destruct (bk_spawner b) eqn:Es; simpl in Ht.
  - destruct (bk_requests b) as [|[r|] l]; [unfold count in Ht; simpl in Ht; lia| |]; backend; simpl; lia.
  - destruct (bk_shutdown b); backend; simpl; lia.
  - destruct launched; backend; simpl; lia.
  - destruct (bk_shutdown b); backend; simpl; lia.
  - destruct (_ && _); backend; simpl; lia.
  - destruct (bk_requests b) as [|[r|] l] eqn:Eq; backend; rewrite ?Es, ?Eq; simpl; lia.
  - backend. simpl. lia.
  - done.
Qed.

Lemma spawner_keeps launched b :
  bk_spawn_stop (spawner_step launched b) = bk_spawn_stop b
  ∧ bk_shutdown (spawner_step launched b) = bk_shutdown b
  ∧ bk_processes (spawner_step launched b) = bk_processes b
  ∧ bk_supervising (spawner_step launched b) = bk_supervising b.
Proof.
  unfold spawner_step. destruct (bk_spawner b) eqn:Es; try done.
  - by destruct (bk_requests b) as [|[r|] l].
  - by destruct (bk_shutdown b) eqn:E; backend; rewrite ?E.
  - by destruct launched.
  - by destruct (bk_shutdown b) eqn:E; backend; rewrite ?E.
  - destruct (_ && _) eqn:E; split_and!; done.
  - by destruct (bk_requests b) as [|[r|] l].
  - destruct (drop_all (launches (bk_requests b)) b) as (_ & _ & _ & E4 & _ & E6 & _ & _ & _ & E10 & E11 & _).
    backend. by rewrite E4, E6, E10, E11.
Qed.

(** The spawner ends whatever each launch answers. *)
Lemma spawner_ends answers b :
  inv b → told b → bk_spawn_stop b = true → (remaining b <= length answers)%nat →
  let b' := steps (Ev_spawner <$> answers) b in
  inv b' ∧ bk_spawner b' = Sp_gone ∧ bk_shutdown b' = true
  ∧ bk_processes b' = bk_processes b ∧ bk_supervising b' = bk_supervising b.
Proof.
  revert b. induction answers as [|x answers IH]; intros b Hb Ht Hs Hlen b'.
  - simpl in *. split_and!; try done; [|by apply iv_stop].
    unfold remaining in Hlen. destruct (decide _); [done|]. destruct (bk_spawner b); simpl in Hlen; lia || done.
  - subst b'. cbn [fmap list_fmap]. change (steps (Ev_spawner x :: ?l) b) with (steps l (spawner_step x b)).
    destruct (spawner_keeps x b) as (E1 & E2 & E3 & E4). rewrite <-E3, <-E4. apply IH.
    + by apply spawner_inv.
    + by apply spawner_told.
    + by rewrite E1.
    + destruct (decide (bk_spawner b = Sp_gone)) as [Hg|Hg].
      * unfold spawner_step. rewrite Hg. unfold remaining. rewrite decide_True by done. lia.
      * pose proof (remaining_falls x b Ht Hs Hg). simpl in Hlen. lia.
Qed.

(** Once they have ended, the processes leave one after another. *)
Lemma retire_all n b :
  inv b → length (bk_processes b) = n →
  let b' := steps (replicate n (Ev_retire 0)) b in
  inv b' ∧ bk_processes b' = [] ∧ bk_spawner b' = bk_spawner b ∧ bk_shutdown b' = bk_shutdown b.
Proof.
  revert b. induction n as [|n IH]; intros b Hb Hn b'; subst b'; simpl.
  - split_and!; try done. by apply length_zero_iff_nil.
  - change (steps (replicate (S n) (Ev_retire 0)) b) with (steps (replicate n (Ev_retire 0)) (retire_step 0 b)).
    pose proof (retire_inv 0 b Hb) as Hi. unfold retire_step in *.
    destruct (bk_processes b) as [|p l] eqn:Ep; [done|]. simpl in *.
    destruct (IH _ Hi) as (? & ? & Es & Ed); [backend; rewrite Ep; simpl in *; lia|]. by rewrite Es, Ed.
Qed.

(** With both threads gone nothing is outstanding. *)
Lemma nothing_outstanding b :
  inv b → bk_spawner b = Sp_gone → bk_supervising b = false → outstanding b = [].
Proof.
  intros Hb Hg Hl. unfold outstanding. rewrite (iv_gone _ Hb Hg), Hg.
  by destruct (iv_left _ Hb Hl) as (_ & -> & _).
Qed.

(** A caller whose request was settled returns at its next step. *)
Lemma settled_returns i b :
  bk_callers b !! i = Some Waiting → i ∈ settled b →
  ∃ r, bk_callers (spawn_step i b) !! i = Some (Returned r).
Proof.
  intros Hi Hin. unfold spawn_step. rewrite Hi.
  assert (Hput : ∀ r c, bk_callers (put_caller i (Returned r) c) = <[i := Returned r]> (bk_callers c)) by done.
  destruct (list_find _ _) as [[? [? r]]|] eqn:Ef.
  - exists r. rewrite Hput. apply list_lookup_insert_eq. by eapply lookup_lt_Some.
  - assert (Hd : i ∈ bk_dropped b).
    { unfold settled in Hin. apply elem_of_app in Hin as [Hin|?]; [|done]. exfalso.
      apply list_elem_of_fmap in Hin as ([j r] & -> & Hin). apply list_find_None in Ef.
      rewrite Forall_forall in Ef. by apply (Ef _ Hin). }
    rewrite bool_decide_true by done. eexists. rewrite Hput. apply list_lookup_insert_eq.
    by eapply lookup_lt_Some.
Qed.

(** ** What callers are told *)

(** A caller returned success only for a request that was registered, and the
    error of a dropped request only after [shutdown]. *)
Definition truthful (b : Backend) : Prop :=
  ∀ i, bk_callers b !! i = Some (Returned (Ok tt)) → (i, Ok tt) ∈ bk_replies b.

Lemma truthful_put i c b :
  truthful b → (c = Returned (Ok tt) → (i, Ok tt) ∈ bk_replies b) → truthful (put_caller i c b).
Proof.
  intros H Hc j Hj. unfold put_caller in *. cbn [put_callers bk_callers bk_replies] in *.
  destruct (decide (j = i)) as [->|Hne].
  - pose proof (lookup_lt_Some _ _ _ Hj) as Hl. rewrite length_insert in Hl.
    rewrite list_lookup_insert_eq in Hj by done. apply Hc. congruence.
  - apply H. rewrite <-Hj. symmetry. by apply list_lookup_insert_ne.
Qed.

Lemma truthful_kept b b' :
  truthful b → bk_callers b' = bk_callers b → (∀ x, x ∈ bk_replies b → x ∈ bk_replies b') → truthful b'.
Proof. intros H Ec Er i Hi. rewrite Ec in Hi. auto. Qed.

Lemma find_reply i b j r n : list_find (λ x : request * result ProcessError (), x.1 = i) (bk_replies b) = Some (n, (j, r)) → (i, r) ∈ bk_replies b.
Proof. intros H. apply list_find_Some in H as (Hl & <- & _). by apply list_elem_of_lookup_2 in Hl. Qed.

Lemma spawn_truthful i b : truthful b → truthful (spawn_step i b).
Proof.
  intros H. unfold spawn_step. destruct (bk_callers b !! i) as [[| | | |]|]; try done.
  - apply truthful_put; [done|]. by destruct (bk_shutdown b).
  - destruct (_ <? _); (apply truthful_put; [|done]); done.
  - unfold requests_send. destruct (bk_spawner b); try destruct (_ <? _); (apply truthful_put; [|done]); done.
  - destruct (list_find _ _) as [[n [j r]]|] eqn:Ef.
    + apply truthful_put; [done|]. intros [= ->]. by eapply find_reply.
    + case_bool_decide; [|done]. apply truthful_put; done.
Qed.

Lemma step_truthful e b : truthful b → truthful (step e b).
Proof.
  intros H. destruct e; cbn [step].
  - intros i Hi. backend. apply H. apply lookup_app_Some in Hi as [Hi|[_ Hi]]; [done|].
    by apply list_lookup_singleton_Some in Hi as [_ ?].
  - by apply spawn_truthful.
  - unfold spawner_step.
    assert (Hrej : ∀ r e s l, truthful (put_spawner s (reject r e (put_requests l b)))).
    { intros. apply (truthful_kept b); backend; auto. intros x Hx. apply elem_of_app. by left. }
    destruct (bk_spawner b); try done.
    + by destruct (bk_requests b) as [|[r|] l].
    + destruct (bk_shutdown b); [|done]. apply (truthful_kept b); backend; auto. set_solver.
    + destruct launched; [done|]. apply (truthful_kept b); backend; auto. set_solver.
    + destruct (bk_shutdown b); [|done]. apply (truthful_kept b); backend; auto. set_solver.
    + destruct (_ && _); [done|]. apply (truthful_kept b); backend; auto. set_solver.
    + destruct (bk_requests b) as [|[r|] l]; try done. apply (truthful_kept b); backend; auto. set_solver.
    + destruct (drop_all (launches (bk_requests b)) b) as (_ & _ & _ & _ & _ & _ & _ & _ & _ & _ & _ & E12 & E13 & _).
      apply (truthful_kept b); backend; [done..|]. by rewrite E13.
  - unfold accept_step. destruct (bk_supervising b); [|done]. destruct (bk_ready b); [done|]. cbv zeta.
    destruct (bk_shutdown _); [|destruct started as [[]|]]; (apply (truthful_kept b); backend; auto; set_solver).
  - unfold retire_step. by destruct (_ !! _).
  - unfold leave_step. destruct (_ && _); [|done].
    destruct (drop_all (bk_ready b) b) as (_ & _ & _ & _ & _ & _ & _ & _ & _ & _ & _ & E12 & E13 & _).
    apply (truthful_kept b); backend; [done..|]. by rewrite E13.
  - done.
  - destruct (bk_shutdown b); [|done]. unfold stop_message. destruct (bk_spawn_stop b); [done|].
    unfold requests_send. destruct (bk_spawner _); try done; by destruct (_ <? _).
Qed.

Lemma steps_truthful es b : truthful b → truthful (steps es b).
Proof. revert b. induction es as [|e es IH]; intros b H; [done|]. apply IH. by apply step_truthful. Qed.

(** ** What registering answered *)

Definition succeeded (l : list (request * result ProcessError ())) : list request :=
  fst <$> filter (λ x, x.2 = Ok tt) l.

(** The supervisor owns, or has retired, exactly the processes that were
    registered; what registering answered is what is replied, and nothing else is
    replied with success. *)
Record registered (b : Backend) : Prop := {
  rg_owned : bk_processes b ++ bk_retired b ≡ₚ succeeded (bk_started b);
  rg_told : ∀ x, x ∈ bk_started b → x ∈ bk_replies b;
  rg_true : ∀ r, (r, Ok tt) ∈ bk_replies b → (r, Ok tt) ∈ bk_started b
}.

Lemma elem_of_succeeded r l : r ∈ succeeded l ↔ (r, Ok tt) ∈ l.
Proof.
  unfold succeeded. rewrite list_elem_of_fmap. split.
  - intros ([r' x] & -> & [Hx Hin]%list_elem_of_filter). cbn in *. by subst x.
  - intros Hin. exists (r, Ok tt). split; [done|]. by apply list_elem_of_filter.
Qed.

Lemma registered_kept b b' l :
  registered b → bk_processes b' = bk_processes b → bk_retired b' = bk_retired b →
  bk_started b' = bk_started b → bk_replies b' = bk_replies b ++ l → (∀ r, (r, Ok tt) ∉ l) →
  registered b'.
Proof.
  intros [] Ep Et Es Er Hl. split; rewrite ?Ep, ?Et, ?Es, ?Er; [done| |].
  - intros x Hx. apply elem_of_app. auto.
  - intros r [Hr|Hr]%elem_of_app; [auto|]. by destruct (Hl r).
Qed.

(** A rejection, of whatever reaches it. *)
Lemma registered_reject r e b b' :
  registered b → bk_processes b' = bk_processes b → bk_retired b' = bk_retired b →
  bk_started b' = bk_started b → bk_replies b' = bk_replies b ++ [(r, Err e)] → registered b'.
Proof. intros. eapply registered_kept; eauto. intros r' Hr. by apply list_elem_of_singleton in Hr. Qed.

Lemma registered_same b b' :
  registered b → bk_processes b' = bk_processes b → bk_retired b' = bk_retired b →
  bk_started b' = bk_started b → bk_replies b' = bk_replies b → registered b'.
Proof.
  intros H Ep Et Es Er. apply (registered_kept b b' []); rewrite ?app_nil_r; auto.
  intros r Hr. by apply not_elem_of_nil in Hr.
Qed.

Lemma accept_registered started b : registered b → registered (accept_step started b).
Proof.
  intros H. unfold accept_step. destruct (bk_supervising b); [|done].
  destruct (bk_ready b) as [|r l]; [done|]. cbn zeta. cbn [bk_shutdown put_owned].
  destruct (bk_shutdown b); [by apply (registered_reject r ProcessError_Closed b)|]. destruct H.
  destruct started as [[]|e]; split; backend; unfold succeeded in *;
    rewrite ?filter_app, ?fmap_app; cbn.
  - rewrite <-rg_owned0, <-!app_assoc. f_equiv. apply Permutation_app_comm.
  - intros x [Hx|Hx]%elem_of_app; apply elem_of_app; auto.
  - intros r' [Hx|Hx]%elem_of_app; apply elem_of_app; auto.
  - by rewrite app_nil_r.
  - intros x [Hx|Hx]%elem_of_app; apply elem_of_app; auto.
  - intros r' [Hx|Hx]%elem_of_app; apply elem_of_app; [auto|]. by apply list_elem_of_singleton in Hx.
Qed.

Lemma step_registered e b : registered b → registered (step e b).
Proof.
  intros H. destruct e; cbn [step]; try (by apply accept_registered); try (by apply (registered_same b)).
  - unfold spawn_step. destruct (bk_callers b !! i) as [[| | | |]|]; try done; try (by apply (registered_same b)).
    + by destruct (_ <? _); apply (registered_same b).
    + unfold requests_send. destruct (bk_spawner b); try destruct (_ <? _); by apply (registered_same b).
    + destruct (list_find _ _) as [[? [? ?]]|]; [by apply (registered_same b)|].
      case_bool_decide; by apply (registered_same b).
  - unfold spawner_step. destruct (bk_spawner b); try done.
    + destruct (bk_requests b) as [|[r|] l]; by apply (registered_same b).
    + destruct (bk_shutdown b); [by eapply registered_reject|by apply (registered_same b)].
    + destruct launched; [by apply (registered_same b)|by eapply registered_reject].
    + destruct (bk_shutdown b); [by eapply registered_reject|by apply (registered_same b)].
    + destruct (_ && _); [by apply (registered_same b)|by eapply registered_reject].
    + destruct (bk_requests b) as [|[r|] l]; try (by apply (registered_same b)). by eapply registered_reject.
    + destruct (drop_all (launches (bk_requests b)) b) as (_ & _ & _ & _ & _ & _ & _ & _ & _ & E & _ & _ & E2 & E3 & E4).
      by apply (registered_same b).
  - unfold retire_step. destruct (bk_processes b !! k) as [r|] eqn:Hk; [|done]. destruct H. split; backend; auto.
    rewrite <-rg_owned0. rewrite (delete_Permutation _ _ _ Hk) at 2. simpl.
    rewrite (app_assoc _ _ [r]). by rewrite <-Permutation_cons_append.
  - unfold leave_step. destruct (_ && _) eqn:Eg; [|done]. apply andb_true_iff in Eg as [_ Hp]. to_props.
    destruct (drop_all (bk_ready b) b) as (_ & _ & _ & _ & _ & _ & _ & _ & _ & _ & _ & _ & E2 & E3 & E4).
    apply (registered_same b); auto.
  - destruct (bk_shutdown b); [|done]. unfold stop_message. destruct (bk_spawn_stop b); [done|].
    unfold requests_send. destruct (bk_spawner _); try destruct (_ <? _); by apply (registered_same b).
Qed.

Lemma steps_registered es b : registered b → registered (steps es b).
Proof. revert b. induction es as [|e es IH]; intros b H; [done|]. apply IH. by apply step_registered. Qed.

Lemma Backend_new_registered max b : Backend_new max = Ok b → registered b.
Proof. unfold Backend_new. destruct (_ || _); [done|]. intros [= <-]. split; cbn; try done. Qed.

Lemma Backend_new_truthful max b : Backend_new max = Ok b → truthful b ∧ told b.
Proof. unfold Backend_new. destruct (_ || _); [done|]. intros [= <-]. split; intros i; done. Qed.

(** ** Properties *)

Section claims.
Context (max : Z) (b0 : Backend) (es : list event).
Hypothesis Hmax : 0 <= max.
Hypothesis Hnew : Backend_new max = Ok b0.
Let b := steps es b0.

Lemma reached_inv : inv b.
Proof using Hmax Hnew. apply steps_inv. by apply (Backend_new_inv max). Qed.

Lemma reached_max : bk_max b = max.
Proof using Hmax Hnew.
  destruct (Backend_new_inv max b0 Hmax Hnew) as [_ <-]. subst b. clear Hmax Hnew.
  revert b0. induction es as [|e l IH]; intros c; [done|]. change (steps (e :: l) c) with (steps l (step e c)).
  rewrite IH. clear IH. destruct e; cbn [step]; try done.
  - unfold spawn_step, requests_send. destruct (_ !! _) as [[| | | |]|]; try done.
    + by destruct (_ <? _).
    + destruct (bk_spawner c); try done; by destruct (_ <? _).
    + destruct (list_find _ _) as [[? [? ?]]|]; [done|]. by case_bool_decide.
  - unfold spawner_step. destruct (bk_spawner c); try done.
    + by destruct (bk_requests c) as [|[r|] ?].
    + by destruct (bk_shutdown c).
    + by destruct launched.
    + by destruct (bk_shutdown c).
    + by destruct (_ && _).
    + by destruct (bk_requests c) as [|[r|] ?].
    + by destruct (drop_all (launches (bk_requests c)) c) as (_ & _ & E & _).
  - unfold accept_step. destruct (bk_supervising c); [|done]. destruct (bk_ready c); [done|]. cbv zeta.
    destruct (bk_shutdown _); [done|]. by destruct started.
  - unfold retire_step. by destruct (_ !! _).
  - unfold leave_step. destruct (_ && _); [|done]. by destruct (drop_all (bk_ready c) c) as (_ & _ & E & _).
  - destruct (bk_shutdown c); [|done]. unfold stop_message, requests_send. destruct (bk_spawn_stop c); [done|].
    destruct (bk_spawner _); try done; by destruct (_ <? _).
Qed.

(** C19: Admissions are exact and bounded: whatever the threads did, the count of
    active processes is the number of requests being sent, queued, launched or
    passed on, plus the processes the supervisor owns, and is never over the limit;
    each owned process was answered with success. *)
Theorem admissions_exact :
  bk_active b = Z.of_nat (count is_sending (bk_callers b)) + len (outstanding b) + len (bk_processes b)
  ∧ bk_active b <= max
  ∧ ∀ r, r ∈ bk_processes b → (r, Ok tt) ∈ bk_replies b.
Proof using Hmax Hnew.
  pose proof reached_inv as Hi. rewrite <-reached_max. split_and!; apply Hi.
Qed.

(** The bounded channels never refuse admitted work: a caller with an admission
    sends its request unless the spawner has ended, the spawner passes a launched
    child on unless the supervisor has left, and the shutdown message always fits. *)
Theorem channels_have_room :
  (∀ i, bk_callers b !! i = Some Sending → bk_spawner b ≠ Sp_gone →
     bk_callers (spawn_step i b) !! i = Some Waiting)
  ∧ (∀ r x, bk_spawner b = Sp_passing r → bk_supervising b = true →
       bk_ready (spawner_step x b) = bk_ready b ++ [r])
  ∧ (bk_shutdown b = true → bk_spawn_stop b = false →
       bk_requests (stop_message b) = bk_requests b ++ [Shutdown]).
Proof using Hmax Hnew.
  pose proof reached_inv as Hi. split_and!.
  - intros i Hs Hg. unfold spawn_step. rewrite Hs.
    rewrite (requests_send_spec _ b Hi) by (left; by eapply sending_counted).
    rewrite bool_decide_false by done. apply list_lookup_insert_eq. by eapply lookup_lt_Some.
  - intros r x Hp Hl. unfold spawner_step. rewrite Hp, Hl.
    assert (E : (len (bk_ready b) <? bk_max b) = true).
    { apply Z.ltb_lt. pose proof (iv_active _ Hi) as Ha. pose proof (iv_bound _ Hi).
      unfold outstanding in Ha. rewrite Hp, !len_app in Ha. simpl in Ha. rewrite len_cons, len_nil in Ha.
      len_facts. lia. }
    by rewrite E.
  - intros Hsd Hst. unfold stop_message. rewrite Hst.
    assert (Hroom : len (bk_requests b) < bk_max b + 1) by (apply requests_room; auto).
    pose proof (iv_message _ Hi) as Hm. rewrite Hst in Hm.
    unfold requests_send. backend. replace (len (bk_requests b) <? bk_max b + 1) with true
      by (symmetry; by apply Z.ltb_lt).
    destruct (bk_spawner b); simpl in *; done || lia.
Qed.

(** C20: Every request is answered once: no request is in two places or has two
    answers; a waiting caller's request is still queued, launched or passed on, was
    replied to, or was dropped, which happens only after shutdown.  What registering
    a process answered is what its caller is told, and success is told of nothing
    else: a caller returns it only when its process was registered, and the
    supervisor owns that process or has seen it end. *)
Theorem answered_once :
  NoDup (outstanding b ++ settled b)
  ∧ (∀ i, bk_callers b !! i = Some Waiting →
       i ∈ outstanding b ∨ i ∈ (fst <$> bk_replies b) ∨ i ∈ bk_dropped b ∧ bk_shutdown b = true)
  ∧ (∀ x, x ∈ bk_started b → x ∈ bk_replies b)
  ∧ (∀ i, bk_callers b !! i = Some (Returned (Ok tt)) →
       (i, Ok tt) ∈ bk_started b ∧ i ∈ bk_processes b ++ bk_retired b)
  ∧ bk_processes b ++ bk_retired b ≡ₚ succeeded (bk_started b).
Proof using Hmax Hnew.
  pose proof reached_inv as Hi.
  pose proof (steps_registered es b0 (Backend_new_registered max b0 Hnew)) as []. fold b in rg_owned0, rg_told0, rg_true0.
  split_and!; [apply Hi| |done| |done].
  - intros i Hw. pose proof (iv_waiting _ Hi i Hw) as Hin. unfold settled in Hin.
    apply elem_of_app in Hin as [?|Hin]; [by left|]. apply elem_of_app in Hin as [?|Hd]; [by auto|].
    right. right. split; [done|]. apply (iv_dropped _ Hi). intros E. rewrite E in Hd. by apply not_elem_of_nil in Hd.
  - intros i Hret. assert (Hs : (i, Ok tt) ∈ bk_started b).
    { apply rg_true0. revert i Hret. apply steps_truthful. by apply (Backend_new_truthful max). }
    split; [done|]. rewrite rg_owned0. by apply elem_of_succeeded.
Qed.

(** C21: Shutdown completes and strands nobody: once the stop message was sent, the
    spawner ends within a bounded number of steps whatever each launch answers;
    when the owned processes have ended too the supervisor leaves, every admission
    but those of callers still sending is back, and every waiting caller's next
    step returns. *)
Theorem shutdown_completes (answers : list (result ProcessError ())) :
  bk_spawn_stop b = true →
  (length answers >= 7 + 5 * length (bk_requests b))%nat →
  let b' := leave_step (steps (replicate (length (bk_processes b)) (Ev_retire 0))
                          (steps (Ev_spawner <$> answers) b)) in
  bk_spawner b' = Sp_gone ∧ bk_supervising b' = false
  ∧ bk_active b' = Z.of_nat (count is_sending (bk_callers b'))
  ∧ ∀ i, bk_callers b' !! i = Some Waiting →
      ∃ r, bk_callers (spawn_step i b') !! i = Some (Returned r).
Proof using Hmax Hnew.
  intros Hstop Hlen b'.
  assert (Htold : told b).
  { apply steps_told; [by apply (Backend_new_inv max) | by apply (Backend_new_truthful max)]. }
  assert (Hrem : (remaining b <= length answers)%nat).
  { unfold remaining. destruct (decide _); [lia|]. destruct (bk_spawner b); simpl; lia. }
  destruct (spawner_ends answers b reached_inv Htold Hstop Hrem) as (Hi1 & Hg1 & Hs1 & Hp1 & _).
  subst b'. set (b1 := steps (Ev_spawner <$> answers) b) in *. rewrite <-Hp1.
  destruct (retire_all _ b1 Hi1 eq_refl) as (Hi2 & Hp2 & Hg2 & Hs2).
  set (b2 := steps (replicate _ _) b1) in *. rewrite Hg1 in Hg2. rewrite Hs1 in Hs2. clearbody b2.
  pose proof (leave_inv b2 Hi2) as Hi3. unfold leave_step in *.
  assert (Hend : ∀ c, inv c → bk_spawner c = Sp_gone → bk_supervising c = false →
    bk_active c = Z.of_nat (count is_sending (bk_callers c))
    ∧ ∀ i, bk_callers c !! i = Some Waiting → ∃ r, bk_callers (spawn_step i c) !! i = Some (Returned r)).
  { intros c Hc Hcg Hcl. pose proof (nothing_outstanding c Hc Hcg Hcl) as Ho. split.
    - rewrite (iv_active _ Hc), Ho. destruct (iv_left _ Hc Hcl) as (_ & _ & ->). rewrite !len_nil. lia.
    - intros i Hw. apply settled_returns; [done|]. pose proof (iv_waiting _ Hc i Hw) as H. by rewrite Ho in H. }
  assert (Hfin : bk_spawner (if bk_supervising b2 && bk_shutdown b2 && bool_decide (bk_processes b2 = [])
      then put_owned [] [] false (foldl (flip drop_request) b2 (bk_ready b2)) else b2) = Sp_gone
    ∧ bk_supervising (if bk_supervising b2 && bk_shutdown b2 && bool_decide (bk_processes b2 = [])
      then put_owned [] [] false (foldl (flip drop_request) b2 (bk_ready b2)) else b2) = false).
  { destruct (bk_supervising b2) eqn:Hl2; [|done]. rewrite Hs2, Hp2. cbn [andb].
    rewrite bool_decide_true by done.
    destruct (drop_all (bk_ready b2) b2) as (_ & _ & _ & _ & _ & _ & _ & E8 & _). split; [|done].
    by rewrite <-Hg2, <-E8. }
  destruct Hfin as [Hg3 Hl3]. destruct (Hend _ Hi3 Hg3 Hl3) as [Ha3 Hw3]. by split_and!.
Qed.

End claims.

(** A limit of one process: the second caller has no capacity, the third comes
    after shutdown; the first one's process is registered and ends. *)
Definition demo : list event :=
  [Ev_call; Ev_call; Ev_spawn 0; Ev_spawn 0; Ev_spawn 1; Ev_spawn 1; Ev_spawn 0;
   Ev_spawner (Ok tt); Ev_spawner (Ok tt); Ev_spawner (Ok tt); Ev_spawner (Ok tt); Ev_spawner (Ok tt);
   Ev_accept (Ok tt); Ev_spawn 0; Ev_stop false; Ev_call; Ev_spawn 2; Ev_stop_message].
Definition demo_start : Backend := Backend_empty 1.

Example demo_serves :
  let b := steps demo demo_start in
  bk_callers b = [Returned (Ok tt); Returned (Err ProcessError_Capacity); Returned (Err ProcessError_Closed)]
  ∧ bk_processes b = [0%nat] ∧ bk_active b = 1 ∧ bk_requests b = [Shutdown].
Proof. vm_compute. auto. Qed.

Lemma admissions_exact_witness : bk_active (steps demo demo_start) <= 1.
Proof. apply (admissions_exact 1 demo_start demo); [lia | reflexivity]. Defined.

Lemma channels_have_room_witness :
  bk_requests (stop_message (steps (take 15 demo) demo_start)) = [Shutdown].
Proof. apply (channels_have_room 1 demo_start (take 15 demo)); [lia | reflexivity..]. Defined.

Lemma answered_once_witness :
  (0%nat, Ok tt) ∈ bk_started (steps demo demo_start) ∧ bk_retired (steps demo demo_start) = [].
Proof.
  split; [|vm_compute; reflexivity].
  apply (answered_once 1 demo_start demo); [lia | reflexivity..].
Defined.

Lemma shutdown_completes_witness :
  let b := steps demo demo_start in
  bk_active (leave_step (steps (replicate (length (bk_processes b)) (Ev_retire 0))
               (steps (Ev_spawner <$> replicate 12 (Ok tt)) b))) = 0.
Proof.
  refine (proj1 (proj2 (proj2 (shutdown_completes 1 demo_start demo _ _ (replicate 12 (Ok tt)) _ _))));
    [lia | reflexivity | reflexivity | vm_compute; lia].
Defined.
