(* ===== verification/Publisher.v ===== *)
(** * The event publisher (crates/infrastructure/src/event_stream/publisher.rs)

    [EventStreamPublisher] reads one event after another from an attachment and
    appends each to an external event sink, which may fail, time out, or commit
    and lose the reply.  It keeps at most one event pending and retries exactly
    that one.  [publish_next] is one call of the asynchronous method; what the
    attachment and the sink answer, or that the caller drops the wait at either
    of the two awaits, are arguments. *)

From S2P Require Import Prelude Identity Replay Process Terminal Checkpoint Projection Session Quota.
From S2P Require Import LittleEndian EventCodec ObjectNames Context.
From Stdlib Require Import Sorting.Sorted.

(** What the code uses of the external [event_stream] crate: the version of its
    cursors, its stream keys, and which identifiers it accepts. *)
Class EventStream := {
  CURSOR_VERSION : Z;
  StreamKey : Type;
  StreamKey_eq_dec :: EqDecision StreamKey;
  event_id_new : list Z → bool;
  schema_id_new : list Z → bool
}.

Section publisher.
Context `{X : EventStream}.

(** ** Data

    [NewEvent], [Cursor] and [SinkRecord] are the external crate's records, with
    the fields the code builds or reads. *)

Record NewEvent := {
  ne_id : list Z;
  ne_schema_id : list Z;
  ne_schema_version : Z;
  ne_payload : list Z
}.
#[export] Instance NewEvent_eq_dec : EqDecision NewEvent.
Proof. solve_decision. Defined.

Record Cursor := { cu_stream : StreamKey; cu_version : Z; cu_offset : Z }.
Record SinkRecord := { sr_event : NewEvent; sr_cursor : Cursor }.

Record Publication := {
  pb_event_cursor : Cursor;
  pb_byte_cursor : ReplayCursor;
  pb_complete : bool
}.

Inductive Pending :=
  | Pending_Source (from : ReplayCursor) (event : OutputEvent)
  | Pending_Prepared (event : NewEvent) (after : ReplayCursor) (complete : bool).

(** [pu_attachment] is the cursor of the attachment. *)
Record Publisher := {
  pu_attachment : ReplayCursor;
  pu_stream : StreamKey;
  pu_identity : Z;
  pu_sequence : Z;
  pu_acknowledged : ReplayCursor;
  pu_last_event_offset : Z;
  pu_pending : option Pending;
  pu_complete : bool
}.

(** [new]; [identity] is the owner identity it was given. *)
Definition Publisher_new (start : ReplayCursor) (stream : StreamKey) (identity : Z) : Publisher := {|
  pu_attachment := start; pu_stream := stream; pu_identity := identity; pu_sequence := 0;
  pu_acknowledged := start; pu_last_event_offset := 0; pu_pending := None; pu_complete := false |}.

Definition put_pending (attachment : ReplayCursor) (sequence : Z) (pending : option Pending) (p : Publisher)
    : Publisher := {|
  pu_attachment := attachment; pu_stream := pu_stream p; pu_identity := pu_identity p; pu_sequence := sequence;
  pu_acknowledged := pu_acknowledged p; pu_last_event_offset := pu_last_event_offset p; pu_pending := pending;
  pu_complete := pu_complete p |}.

Definition pending_event_id (p : Publisher) : option (list Z) :=
  match pu_pending p with Some (Pending_Prepared event _ _) => Some (ne_id event) | _ => None end.

(** ** Preparing *)

Definition dash : list Z := bs "-".
Definition event_id (from : ReplayCursor) (identity sequence : Z) : list Z :=
  bs "pty-" ++ hex 16 (lt_owner (rc_lifetime from)) ++ dash ++ hex 16 (lt_sequence (rc_lifetime from))
  ++ dash ++ hex 16 identity ++ dash ++ hex 16 sequence.

Definition schema : result PublicationError (list Z * Z) :=
  if schema_id_new SCHEMA then Ok (SCHEMA, VERSION) else Err PublicationError_InvalidRecord.

(** [reserve]: whether an allocation of that size succeeds. *)
Definition prepare (reserve : Z → bool) (p : Publisher) : Publisher * result PublicationError () :=
  match pu_pending p with
  | Some (Pending_Source from event) =>
    match checked_add u64_max (pu_sequence p) 1 with
    | None => (p, Err PublicationError_Capacity)
    | Some sequence =>
      match encode reserve from event with
      | Err e => (p, Err e)
      | Ok (payload, after, complete) =>
        let id := event_id from (pu_identity p) sequence in
        if negb (event_id_new id) then (p, Err PublicationError_Capacity)
        else match schema with
        | Err e => (p, Err e)
        | Ok (schema_id, schema_version) =>
          let event := {| ne_id := id; ne_schema_id := schema_id; ne_schema_version := schema_version;
                          ne_payload := payload |} in
          (put_pending (pu_attachment p) sequence (Some (Pending_Prepared event after complete)) p, Ok tt)
        end
      end
    end
  | _ => (p, Ok tt)
  end.

(** ** One call of [publish_next] *)

Inductive source_answer :=
  | Source_dropped                              (* the wait is dropped *)
  | Source_failed (e : RuntimeError)
  | Source_event (e : OutputEvent).

Inductive sink_answer :=
  | Sink_dropped                                (* the wait is dropped *)
  | Sink_failed (f : SinkFailure)
  | Sink_receipt (r : SinkRecord).

Inductive outcome :=
  | Dropped
  | Returned (r : result PublicationError (option Publication)).

(** What a call did: events taken from the attachment, appends asked of the sink,
    and receipts accepted. *)
Inductive note :=
  | Took (from : ReplayCursor) (event : OutputEvent)
  | Asked (event : NewEvent)
  | Acknowledged (publication : Publication).

(** Up to the source event; [None] to go on. *)
Definition observe (source : source_answer) (p : Publisher) : Publisher * list note * option outcome :=
  match pu_pending p with
  | Some _ => (p, [], None)
  | None =>
    match checked_add u64_max (pu_sequence p) 1 with
    | None => (p, [], Some (Returned (Err PublicationError_Capacity)))
    | Some _ =>
      let from := pu_attachment p in
      match source with
      | Source_dropped => (p, [], Some Dropped)
      | Source_failed e => (p, [], Some (Returned (Err (PublicationError_Source e))))
      | Source_event event =>
        (put_pending (advance event from) (pu_sequence p) (Some (Pending_Source from event)) p,
         [Took from event], None)
      end
    end
  end.

(** The receipt of a pending event. *)
Definition receipt_valid (p : Publisher) (event : NewEvent) (r : SinkRecord) : bool :=
  bool_decide (sr_event r = event) && bool_decide (cu_stream (sr_cursor r) = pu_stream p)
  && (cu_version (sr_cursor r) =? CURSOR_VERSION) && (pu_last_event_offset p <? cu_offset (sr_cursor r)).

Definition settle (event : NewEvent) (after : ReplayCursor) (complete : bool) (a : sink_answer) (p : Publisher)
    : Publisher * list note * outcome :=
  match a with
  | Sink_dropped => (p, [], Dropped)
  | Sink_failed f => (p, [], Returned (Err (PublicationError_Sink f)))
  | Sink_receipt r =>
    if receipt_valid p event r
    then
      let publication := {| pb_event_cursor := sr_cursor r; pb_byte_cursor := after; pb_complete := complete |} in
      ({| pu_attachment := pu_attachment p; pu_stream := pu_stream p; pu_identity := pu_identity p;
          pu_sequence := pu_sequence p; pu_acknowledged := after; pu_last_event_offset := cu_offset (sr_cursor r);
          pu_pending := None; pu_complete := complete |},
       [Acknowledged publication], Returned (Ok (Some publication)))
    else (p, [], Returned (Err PublicationError_InvalidRecord))
  end.

(** Up to the append: the event to append, or how the call ends. *)
Definition before_append (source : source_answer) (reserve : Z → bool) (p : Publisher)
    : Publisher * list note * (outcome + NewEvent * ReplayCursor * bool) :=
  if pu_complete p then (p, [], inl (Returned (Ok None)))
  else
    let '(p, taken, stops) := observe source p in
    match stops with
    | Some o => (p, taken, inl o)
    | None =>
      match prepare reserve p with
      | (p, Err e) => (p, taken, inl (Returned (Err e)))
      | (p, Ok _) =>
        match pu_pending p with
        | Some (Pending_Prepared event after complete) => (p, taken, inr (event, after, complete))
        | _ => (p, taken, inl (Returned (Err PublicationError_InvalidRecord)))
        end
      end
    end.

Definition publish_next (source : source_answer) (reserve : Z → bool) (a : sink_answer) (p : Publisher)
    : Publisher * list note * outcome :=
  match before_append source reserve p with
  | (p, notes, inl o) => (p, notes, o)
  | (p, notes, inr (event, after, complete)) =>
    let '(p, acknowledged, o) := settle event after complete a p in
    (p, notes ++ [Asked event] ++ acknowledged, o)
  end.

(** ** Histories *)

Record attempt := { at_source : source_answer; at_reserve : Z → bool; at_sink : sink_answer }.
Record World := { w_publisher : Publisher; w_notes : list note }.

Definition World_new (p : Publisher) : World := {| w_publisher := p; w_notes := [] |}.
Definition step (a : attempt) (w : World) : World :=
  let '(p, notes, _) := publish_next (at_source a) (at_reserve a) (at_sink a) (w_publisher w) in
  {| w_publisher := p; w_notes := w_notes w ++ notes |}.
Definition steps (l : list attempt) (w : World) : World := foldl (flip step) w l.

(** What was taken from the attachment, asked of the sink and acknowledged. *)
Definition taken (l : list note) : list (ReplayCursor * OutputEvent) :=
  l ≫= λ n, match n with Took from event => [(from, event)] | _ => [] end.
Definition asked (l : list note) : list NewEvent :=
  l ≫= λ n, match n with Asked event => [event] | _ => [] end.
Definition acknowledged (l : list note) : list Publication :=
  l ≫= λ n, match n with Acknowledged p => [p] | _ => [] end.

Arguments taken _ : simpl never.
Arguments asked _ : simpl never.
Arguments acknowledged _ : simpl never.

(** The cursor after some events, and that each was read where the last ended. *)
Fixpoint follows (start : ReplayCursor) (l : list (ReplayCursor * OutputEvent)) (stop : ReplayCursor) : Prop :=
  match l with
  | [] => stop = start
  | (from, event) :: l => from = start ∧ follows (advance event from) l stop
  end.

Definition is_complete (event : OutputEvent) : bool :=
  match event with Event_Complete _ => true | _ => false end.

(** The event that publishes the source event at [index]. *)
Definition publishes (identity : Z) (index : nat) (source : ReplayCursor * OutputEvent) (event : NewEvent) : Prop :=
  ∃ payload,
    encode (λ _, true) source.1 source.2 = Ok (payload, advance source.2 source.1, is_complete source.2)
    ∧ event = {| ne_id := event_id source.1 identity (Z.of_nat index + 1); ne_schema_id := SCHEMA;
                 ne_schema_version := VERSION; ne_payload := payload |}
    ∧ Z.of_nat index + 1 <= u64_max.

(** The publication that acknowledges it. *)
Definition confirms (source : ReplayCursor * OutputEvent) (p : Publication) : Prop :=
  pb_byte_cursor p = advance source.2 source.1 ∧ pb_complete p = is_complete source.2.

Definition offsets (l : list Publication) : list Z := (λ p, cu_offset (pb_event_cursor p)) <$> l.

(** ** The invariant *)

Lemma taken_app l k : taken (l ++ k) = taken l ++ taken k.
Proof. apply bind_app. Qed.
Lemma asked_app l k : asked (l ++ k) = asked l ++ asked k.
Proof. apply bind_app. Qed.
Lemma acknowledged_app l k : acknowledged (l ++ k) = acknowledged l ++ acknowledged k.
Proof. apply bind_app. Qed.

Lemma follows_app start l k mid stop : follows start l mid → follows mid k stop → follows start (l ++ k) stop.
Proof.
  revert start. induction l as [|[from event] l IH]; intros start; simpl; [by intros ->|].
  intros [-> H] Hk. split; [done|]. by apply IH.
Qed.

(** What is pending, against what was taken, built and acknowledged. *)
Definition pending_ok (taken : list (ReplayCursor * OutputEvent)) (built : list NewEvent) (acked : nat)
    (pending : option Pending) : Prop :=
  match pending with
  | None => length taken = acked ∧ length built = acked
  | Some (Pending_Source from event) =>
    ∃ l, taken = l ++ [(from, event)] ∧ length l = acked ∧ length built = acked
  | Some (Pending_Prepared event after complete) =>
    ∃ l b source, taken = l ++ [source] ∧ length l = acked ∧ built = b ++ [event] ∧ length b = acked
      ∧ after = advance source.2 source.1 ∧ complete = is_complete source.2
  end.

(** [built] are the events prepared so far and [tries] how often each was asked. *)
Record inv (start : ReplayCursor) (stream : StreamKey) (identity : Z) (built : list NewEvent) (tries : list nat)
    (p : Publisher) (notes : list note) : Prop := {
  iv_follows : follows start (taken notes) (pu_attachment p);
  iv_built : ∀ k event, built !! k = Some event →
    ∃ source, taken notes !! k = Some source ∧ publishes identity k source event;
  iv_asked : asked notes = concat (zip_with replicate tries built);
  iv_tries : length tries = length built;
  iv_once : Forall (λ n, (1 <= n)%nat) (take (length (acknowledged notes)) tries);
  iv_confirms : ∀ k p, acknowledged notes !! k = Some p →
    ∃ source, taken notes !! k = Some source ∧ confirms source p;
  iv_sequence : pu_sequence p = len built;
  iv_pending : pending_ok (taken notes) built (length (acknowledged notes)) (pu_pending p);
  iv_cursor : follows start (take (length (acknowledged notes)) (taken notes)) (pu_acknowledged p);
  iv_offsets : Sorted Z.lt (0 :: offsets (acknowledged notes));
  iv_last : pu_last_event_offset p = List.last (offsets (acknowledged notes)) 0;
  iv_complete : pu_complete p = true → pu_pending p = None;
  iv_identity : pu_identity p = identity ∧ pu_stream p = stream
}.

Lemma publisher_new_inv start stream identity : inv start stream identity [] [] (Publisher_new start stream identity) [].
Proof. split; cbn; try done. by repeat constructor. Qed.

Lemma observe_inv start stream identity built tries source p notes :
  inv start stream identity built tries p notes → pu_complete p = false →
  let '(p', l, _) := observe source p in
  inv start stream identity built tries p' (notes ++ l) ∧ pu_complete p' = false.
Proof.
  intros Hi Hc. assert (Hsame : inv start stream identity built tries p (notes ++ []) ∧ pu_complete p = false).
  { by rewrite app_nil_r. }
  unfold observe. destruct (pu_pending p) eqn:Ep; [done|].
  destruct (checked_add _ _ _); [|done]. destruct source as [|e|event]; [done..|]. clear Hsame.
  destruct Hi. rewrite Ep in iv_pending0. destruct iv_pending0 as [Hr Hb].
  split; [|done].
  assert (Et : taken (notes ++ [Took (pu_attachment p) event]) = taken notes ++ [(pu_attachment p, event)])
    by apply taken_app.
  assert (Eq : asked (notes ++ [Took (pu_attachment p) event]) = asked notes)
    by (rewrite asked_app; apply app_nil_r).
  assert (Ea : acknowledged (notes ++ [Took (pu_attachment p) event]) = acknowledged notes)
    by (rewrite acknowledged_app; apply app_nil_r).
  split; rewrite ?Et, ?Eq, ?Ea; cbn [put_pending pu_attachment pu_stream pu_identity pu_sequence pu_acknowledged
    pu_last_event_offset pu_pending pu_complete]; auto.
  - eapply follows_app; [done|]. simpl. done.
  - intros k ev Hk. destruct (iv_built0 k ev Hk) as (s & Hs & ?). exists s. split; [|done].
    by apply lookup_app_l_Some.
  - intros k a Hk. destruct (iv_confirms0 k a Hk) as (s & Hs & ?). exists s. split; [|done].
    by apply lookup_app_l_Some.
  - by exists (taken notes).
  - by rewrite take_app_le by lia.
  - congruence.
Qed.

(** The header of an event that encodes tells where the attachment went. *)
Lemma encode_advances reserve from event payload next done :
  encode reserve from event = Ok (payload, next, done) →
  next = advance event from ∧ done = is_complete event
  ∧ encode (λ _, true) from event = Ok (payload, next, done).
Proof.
  intros H. split_and!.
  - apply encode_Ok in H as (tag & body & content & Hh & _). apply event_header_Ok in Hh as [_ Hh].
    destruct event as [[]|]; simpl in *; by destruct_and?.
  - apply encode_Ok in H as (tag & body & content & Hh & -> & _). apply event_header_Ok in Hh as [_ Hh].
    destruct event as [[]|]; simpl in *; by destruct_and?; subst.
  - unfold encode in *. destruct (event_header from event) as [[[tag next'] body]|]; [|done].
    by destruct (negb (reserve _)).
Qed.

Lemma prepare_inv start stream identity built tries reserve p notes :
  inv start stream identity built tries p notes → pu_complete p = false →
  let '(p', _) := prepare reserve p in
  pu_complete p' = false ∧
  ∃ built' tries', inv start stream identity built' tries' p' notes ∧ prefix built built'.
Proof.
  intros Hi Hc. assert (Hsame : pu_complete p = false ∧
    ∃ built' tries', inv start stream identity built' tries' p notes ∧ prefix built built') by eauto.
  unfold prepare. destruct (pu_pending p) as [[from event|]|] eqn:Ep; [|done..].
  destruct (checked_add u64_max (pu_sequence p) 1) as [sequence|] eqn:Es; [|done].
  destruct (encode reserve from event) as [[[payload after] complete]|] eqn:Ee; [|done].
  destruct (event_id_new _); cbn [negb]; [|done]. unfold schema. destruct (schema_id_new SCHEMA); [|done].
  clear Hsame. apply encode_advances in Ee as (-> & -> & Ee). apply checked_add_Some in Es as [-> Hmax].
  destruct Hi. rewrite Ep in iv_pending0. destruct iv_pending0 as (l & Hl & Hll & Hb). destruct iv_identity0 as [<- Hst].
  set (ev := {| ne_id := _ |}). split; [done|]. exists (built ++ [ev]), (tries ++ [O]). split; [|by apply prefix_app_r].
  split; cbn [put_pending pu_attachment pu_stream pu_identity pu_sequence pu_acknowledged
    pu_last_event_offset pu_pending pu_complete]; auto.
  - intros k e Hk. apply lookup_app_Some in Hk as [Hk|[Hge Hk]]; [by apply iv_built0|].
    apply list_lookup_singleton_Some in Hk as [Hk0 <-]. assert (k = length l) as -> by lia.
    exists (from, event). split; [by rewrite Hl, list_lookup_middle|]. exists payload.
    split; [done|]. subst ev. rewrite iv_sequence0 in *. unfold len in *. rewrite <-Hb in Hll. rewrite Hll. done.
  - rewrite iv_asked0, zip_with_app by done. rewrite concat_app. simpl. by rewrite app_nil_r.
  - rewrite !length_app. simpl. lia.
  - by rewrite take_app_le by lia.
  - rewrite iv_sequence0, len_app. done.
  - exists l, built, (from, event). split_and!; done.
  - congruence.
Qed.

Lemma last_after (y d : Z) l : List.last (y :: l) d = List.last l y.
Proof.
  revert y d. induction l as [|z l IH]; intros y d; [done|].
  change (List.last (z :: l) d = List.last (z :: l) y). by rewrite !IH.
Qed.

Lemma sorted_snoc d l x : Sorted Z.lt (d :: l) → List.last l d < x → Sorted Z.lt (d :: l ++ [x]).
Proof.
  revert d. induction l as [|y l IH]; intros d Hs Hx.
  - simpl in *. by repeat constructor.
  - rewrite last_after in Hx. inversion Hs as [|? ? Hs' Hd]; subst. constructor; [by apply IH|].
    by inversion Hd; constructor.
Qed.

(** The sink is asked, and perhaps acknowledges. *)
Lemma settles_inv start stream identity built tries event after complete a p notes :
  inv start stream identity built tries p notes → pu_complete p = false →
  pu_pending p = Some (Pending_Prepared event after complete) →
  let '(p', l, _) := settle event after complete a p in
  ∃ tries', inv start stream identity built tries' p' (notes ++ [Asked event] ++ l).
Proof.
  intros [] Hc Ep. rewrite Ep in iv_pending0.
  destruct iv_pending0 as (l & b & source & Hl & Hll & Hb & Hlb & Ha & Hd). subst built.
  assert (∃ t n, tries = t ++ [n] ∧ length t = length b) as (t & n & -> & Ht).
  { rewrite length_app in iv_tries0. simpl in iv_tries0.
    destruct tries as [|n t _] using rev_ind; [simpl in *; lia|]. exists t, n. rewrite length_app in iv_tries0.
    simpl in *. split; [done|lia]. }
  rewrite take_app_le in iv_once0 by lia.
  assert (Hacc : ∀ x, asked (notes ++ [Asked event] ++ [Acknowledged x]) = asked (notes ++ [Asked event]))
    by (intros x; by rewrite !asked_app).
  assert (Hask : asked (notes ++ [Asked event]) = concat (zip_with replicate (t ++ [S n]) (b ++ [event]))).
  { rewrite asked_app, iv_asked0, !zip_with_app, !concat_app by done. simpl. rewrite !app_nil_r, <-app_assoc.
    f_equal. symmetry. apply replicate_cons_app. }
  assert (Htaken : ∀ k, taken k = [] → taken (notes ++ [Asked event] ++ k) = taken notes)
    by (intros k Hk; by rewrite !taken_app, Hk, !app_nil_r).
  (* without an acknowledgement *)
  assert (Hkept : inv start stream identity (b ++ [event]) (t ++ [S n]) p (notes ++ [Asked event] ++ [])).
  { assert (Eacc : acknowledged (notes ++ [Asked event] ++ []) = acknowledged notes)
      by (rewrite acknowledged_app; apply app_nil_r).
    split; rewrite ?(Htaken [] eq_refl), ?Eacc, ?app_nil_r; auto; try done.
    - rewrite !length_app in *. simpl in *. done.
    - by rewrite take_app_le by lia.
    - rewrite Ep. exists l, b, source. split_and!; done. }
  unfold settle. destruct a as [|f|r]; [by eexists..|].
  destruct (receipt_valid p event r) eqn:Er; [|by eexists]. clear Hkept.
  unfold receipt_valid in Er. apply andb_true_iff in Er as [Er Hoff]. to_props.
  set (pub := {| pb_event_cursor := sr_cursor r; pb_byte_cursor := after; pb_complete := complete |}).
  assert (Eacc : acknowledged (notes ++ [Asked event] ++ [Acknowledged pub]) = acknowledged notes ++ [pub])
    by apply acknowledged_app.
  exists (t ++ [S n]). split; rewrite ?(Htaken [Acknowledged pub] eq_refl), ?Eacc, ?Hacc; cbn [pu_attachment pu_stream pu_identity
    pu_sequence pu_acknowledged pu_last_event_offset pu_pending pu_complete]; auto; try done.
  - rewrite !length_app in *. simpl in *. done.
  - rewrite take_ge by (rewrite !length_app; simpl; lia).
    rewrite take_ge in iv_once0 by lia. apply Forall_app. split; [done|].
    apply Forall_singleton. lia.
  - intros k x Hk. apply lookup_app_Some in Hk as [Hk|[Hge Hk]]; [by apply iv_confirms0|].
    apply list_lookup_singleton_Some in Hk as [Hk0 <-]. exists source. rewrite Hl.
    split; [rewrite list_lookup_middle by lia; done | by subst].
  - cbn [pending_ok]. rewrite Hl, !length_app. cbn [length]. split; congruence.
  - rewrite take_ge by (rewrite Hl, !length_app; simpl; lia). rewrite Hl.
    rewrite Hl in iv_follows0. clear -iv_follows0 Ha. subst after. revert start iv_follows0.
    induction l as [|[f e] l IH]; intros start H; simpl in *.
    + destruct source as [f e]. simpl in *. by destruct H as [-> _].
    + destruct H as [-> H]. split; [done|]. by apply IH.
  - unfold offsets. rewrite fmap_app. apply sorted_snoc; [done|]. fold (offsets (acknowledged notes)).
    rewrite <-iv_last0. done.
  - unfold offsets. rewrite fmap_app. simpl. by rewrite List.last_last.
Qed.

(** A call, up to the append. *)
Lemma before_inv start stream identity built tries source reserve p notes :
  inv start stream identity built tries p notes →
  let '(p', l, r) := before_append source reserve p in
  ∃ built' tries', inv start stream identity built' tries' p' (notes ++ l) ∧ prefix built built'
    ∧ acknowledged l = []
    ∧ ∀ event after complete, r = inr (event, after, complete) →
        pu_complete p' = false ∧ pu_pending p' = Some (Pending_Prepared event after complete).
Proof.
  intros Hi. unfold before_append. destruct (pu_complete p) eqn:Hc.
  { exists built, tries. by rewrite app_nil_r. }
  pose proof (observe_inv _ _ _ _ _ source _ _ Hi Hc) as Ho.
  assert (Hl : acknowledged (observe source p).1.2 = []).
  { unfold observe. destruct (pu_pending p); [done|]. destruct (checked_add _ _ _); [|done]. by destruct source. }
  destruct (observe source p) as [[p1 l1] stops]. destruct Ho as [Hi1 Hc1]. cbn [fst snd] in Hl.
  destruct stops as [o|]; [by exists built, tries|].
  pose proof (prepare_inv _ _ _ _ _ reserve _ _ Hi1 Hc1) as Hp.
  destruct (prepare reserve p1) as [p2 r]. destruct Hp as [Hc2 (b2 & t2 & Hi2 & Hb)].
  destruct r as [|e]; [|by exists b2, t2].
  destruct (pu_pending p2) as [[|event after complete]|] eqn:Ep; exists b2, t2; split_and!; try done.
  intros ? ? ? [= <- <- <-]. done.
Qed.

(** A call, whatever it is answered. *)
Lemma publish_inv start stream identity built tries a w :
  inv start stream identity built tries (w_publisher w) (w_notes w) →
  ∃ built' tries', inv start stream identity built' tries' (w_publisher (step a w)) (w_notes (step a w)).
Proof.
  intros Hi. unfold step, publish_next.
  pose proof (before_inv _ _ _ _ _ (at_source a) (at_reserve a) _ _ Hi) as Hb.
  destruct (before_append _ _ _) as [[p l] [o|[[event after] complete]]];
    destruct Hb as (b & t & Hi' & _ & _ & Hr); [by eauto|].
  destruct (Hr _ _ _ eq_refl) as [Hc Ep].
  pose proof (settles_inv _ _ _ _ _ _ _ _ (at_sink a) _ _ Hi' Hc Ep) as Hs.
  destruct (settle _ _ _ _ _) as [[p' k] o]. destruct Hs as [t' Hs]. exists b, t'.
  cbn [w_publisher w_notes]. by rewrite <-app_assoc in Hs.
Qed.

Lemma publishes_inv start stream identity built tries l w :
  inv start stream identity built tries (w_publisher w) (w_notes w) →
  ∃ built' tries', inv start stream identity built' tries' (w_publisher (steps l w)) (w_notes (steps l w)).
Proof.
  revert built tries w. induction l as [|a l IH]; intros built tries w Hi; [by eauto|].
  destruct (publish_inv _ _ _ _ _ a w Hi) as (b & t & Hi'). by apply (IH b t).
Qed.

(** Taken, built and acknowledged keep step. *)
Lemma pending_lengths start stream identity built tries p notes :
  inv start stream identity built tries p notes →
  (length (acknowledged notes) <= length built <= length (taken notes)
   ∧ length (taken notes) <= length (acknowledged notes) + 1)%nat.
Proof.
  intros []. destruct (pu_pending p) as [[from event|event after complete]|]; cbn [pending_ok] in iv_pending0.
  - destruct iv_pending0 as (l & -> & ? & ?). rewrite length_app. simpl. lia.
  - destruct iv_pending0 as (l & b & source & -> & ? & -> & ? & _). rewrite !length_app. simpl. lia.
  - lia.
Qed.

(** ** Identities *)

Lemma event_id_sequence from from' identity identity' sequence sequence' :
  0 <= sequence <= u64_max → 0 <= sequence' <= u64_max →
  event_id from identity sequence = event_id from' identity' sequence' → sequence = sequence'.
Proof.
  intros H1 H2. unfold event_id. rewrite !app_assoc. intros [_ E]%app_inj_2; [|by rewrite !length_hex].
  apply (hex_inj 16) in E; [done| |]; unfold u64_max in *; change (16 ^ Z.of_nat 16) with 18446744073709551616; lia.
Qed.

Lemma publishes_once identity j k s s' e e' :
  publishes identity j s e → publishes identity k s' e' → ne_id e = ne_id e' → j = k.
Proof.
  intros (? & _ & -> & ?) (? & _ & -> & ?). cbn. intros E. apply event_id_sequence in E; lia.
Qed.

(** An identifier of this publisher. *)
Definition mine (identity : Z) (r : SinkRecord) : bool :=
  bool_decide (take 16 (drop 38 (ne_id (sr_event r))) = hex 16 identity).

Lemma drop_past {A} (l k : list A) n m : length l = n → (n <= m)%nat → drop m (l ++ k) = drop (m - n) k.
Proof. intros <- ?. by apply drop_app_ge. Qed.

Lemma publishes_mine identity k s r : publishes identity k s (sr_event r) → mine identity r = true.
Proof.
  intros (payload & _ & E & _). unfold mine. rewrite E. apply bool_decide_eq_true. cbn [ne_id]. unfold event_id.
  rewrite (drop_past _ _ 4), (drop_past _ _ 16), (drop_past _ _ 1), (drop_past _ _ 16), (drop_past _ _ 1)
    by (done || apply length_hex || lia).
  apply take_app_length'. by rewrite length_hex.
Qed.

(** ** Properties *)

(** One event at a time, retried unchanged.  Whatever the attachment and the
    sink answer and wherever waits are dropped, the events are taken one after
    another, each where the last one ended, and none is taken twice or skipped; at
    most one waits for its acknowledgement.  The sink is asked for the events built from
    them in that order, each as often as the caller retries, at least once before
    it is acknowledged and always with the same identity, schema and payload.  The
    receipts accepted have growing store offsets and name the source positions;
    the acknowledged cursor stands after exactly the acknowledged events; and after
    the completion nothing is asked any more. *)
Theorem retries_unchanged (start : ReplayCursor) (stream : StreamKey) (identity : Z) (l : list attempt) :
  let w := steps l (World_new (Publisher_new start stream identity)) in
  let p := w_publisher w in
  let events := taken (w_notes w) in
  let acks := acknowledged (w_notes w) in
  ∃ built tries,
    follows start events (pu_attachment p)
    ∧ (length acks <= length built <= length events ∧ length events <= length acks + 1)%nat
    ∧ (∀ k event, built !! k = Some event → ∃ source, events !! k = Some source ∧ publishes identity k source event)
    ∧ asked (w_notes w) = concat (zip_with replicate tries built)
    ∧ length tries = length built ∧ Forall (λ n, (1 <= n)%nat) (take (length acks) tries)
    ∧ (∀ k a, acks !! k = Some a → ∃ source, events !! k = Some source ∧ confirms source a)
    ∧ Sorted Z.lt (0 :: offsets acks)
    ∧ follows start (take (length acks) events) (pu_acknowledged p)
    ∧ (pu_complete p = true → ∀ source reserve a, publish_next source reserve a p = (p, [], Returned (Ok None))).
Proof.
  intros w p events acks.
  destruct (publishes_inv start stream identity [] [] l (World_new (Publisher_new start stream identity))
      (publisher_new_inv start stream identity))
    as (built & tries & Hi). change (inv start stream identity built tries p (w_notes w)) in Hi.
  pose proof (pending_lengths _ _ _ _ _ _ _ Hi). exists built, tries. clearbody w. subst p events acks. destruct Hi.
  split_and!; try done; [lia..|].
  intros Hc source reserve a. unfold publish_next, before_append. by rewrite Hc.
Qed.

(** ** A sink

    What an idempotent sink promises.  [Choice] stands for everything the sink
    decides: whether an append commits, and whether its reply arrives. *)
Class EventSink := {
  Log : Type;
  Choice : Type;
  records : Log → list SinkRecord;
  sink_append : Choice → StreamKey → NewEvent → Log → Log * sink_answer;
  sink_others : Choice → Log → Log
}.

(** Appends are idempotent by identity, and a receipt is of a stored record. *)
Class EventSinkLaws (K : EventSink) (identity : Z) := {
  append_once c s event l :
    records (sink_append c s event l).1 = records l
    ∨ ∃ cursor, records (sink_append c s event l).1 = records l ++ [{| sr_event := event; sr_cursor := cursor |}]
        ∧ cu_version cursor = CURSOR_VERSION ∧ 0 < cu_offset cursor
        ∧ ∀ r, r ∈ records l → ne_id (sr_event r) ≠ ne_id event;
  append_receipt c s event l r :
    (sink_append c s event l).2 = Sink_receipt r → r ∈ records (sink_append c s event l).1;
  others_append c l :
    ∃ rs, records (sink_others c l) = records l ++ rs ∧ Forall (λ r, mine identity r = false) rs
}.

Section sink.
Context `{K : EventSink} (start : ReplayCursor) (stream : StreamKey) (identity : Z).
Context `{!EventSinkLaws K identity}.

Inductive happening :=
  | Publish (source : source_answer) (reserve : Z → bool) (c : Choice)
  | Elsewhere (c : Choice).

Definition happen (h : happening) (s : World * Log) : World * Log :=
  let (w, log) := s in
  match h with
  | Publish source reserve c =>
    let (log, a) := match (before_append source reserve (w_publisher w)).2 with
                    | inr (event, _, _) => sink_append c (pu_stream (w_publisher w)) event log
                    | inl _ => (log, Sink_dropped)
                    end in
    (step {| at_source := source; at_reserve := reserve; at_sink := a |} w, log)
  | Elsewhere c => (w, sink_others c log)
  end.
Definition happens (l : list happening) (s : World * Log) : World * Log := foldl (flip happen) s l.

(** The publisher's records, in the order they were stored. *)
Definition ours (log : Log) : list SinkRecord := List.filter (mine identity) (records log).

Definition stored (r : SinkRecord) : Prop :=
  cu_version (sr_cursor r) = CURSOR_VERSION ∧ 0 < cu_offset (sr_cursor r).

(** The log holds the first of the events built, all acknowledged ones among them. *)
Record shared (built : list NewEvent) (notes : list note) (log : Log) : Prop := {
  sd_prefix : prefix (sr_event <$> ours log) built;
  sd_acked : (length (acknowledged notes) <= length (ours log))%nat;
  sd_stored : Forall stored (ours log)
}.

Lemma ours_elsewhere c log : ours (sink_others c log) = ours log.
Proof using EventSinkLaws0.
  destruct (others_append c log) as (rs & E & Hrs). unfold ours. rewrite E, List.filter_app.
  assert (List.filter (mine identity) rs = []) as ->; [|apply app_nil_r].
  clear E. induction Hrs as [|r rs Hr _ IH]; [done|]. simpl. by rewrite Hr, IH.
Qed.

Lemma elem_of_ours r log : r ∈ ours log ↔ mine identity r = true ∧ r ∈ records log.
Proof. unfold ours. rewrite !list_elem_of_In, List.filter_In. tauto. Qed.

(** Two events built are told apart by their identity. *)
Lemma built_distinct built tries p notes j k e e' :
  inv start stream identity built tries p notes →
  built !! j = Some e → built !! k = Some e' → ne_id e = ne_id e' → j = k.
Proof.
  intros Hi Hj Hk. destruct (iv_built _ _ _ _ _ _ _ Hi _ _ Hj) as (s & _ & Hs).
  destruct (iv_built _ _ _ _ _ _ _ Hi _ _ Hk) as (s' & _ & Hs'). by eapply publishes_once.
Qed.

(** An append of the last event built. *)
Lemma append_shared built event tries p notes c log :
  inv start stream identity (built ++ [event]) tries p notes → length built = length (acknowledged notes) →
  shared (built ++ [event]) notes log →
  shared (built ++ [event]) notes (sink_append c stream event log).1
  ∧ (∀ r, (sink_append c stream event log).2 = Sink_receipt r → sr_event r = event →
       (length (acknowledged notes) < length (ours (sink_append c stream event log).1))%nat).
Proof using EventSinkLaws0.
  intros Hi Hlen [Hp Ha Hs].
  assert (Hmine : ∀ r, sr_event r = event → mine identity r = true).
  { intros r E. destruct (iv_built _ _ _ _ _ _ _ Hi (length built) event) as (s & _ & Hpub);
      [by rewrite list_lookup_middle|]. subst event. by eapply publishes_mine. }
  assert (Hin : ∀ log', prefix (sr_event <$> ours log') (built ++ [event]) →
    ∀ r, r ∈ records log' → sr_event r = event → (length built < length (ours log'))%nat).
  { intros log' Hp' r Hr Er. assert (r ∈ ours log') as Ho by (apply elem_of_ours; auto).
    apply list_elem_of_lookup in Ho as [j Hj].
    assert ((sr_event <$> ours log') !! j = Some event) as Hj' by (by rewrite list_lookup_fmap, Hj, <-Er).
    pose proof (lookup_lt_Some _ _ _ Hj). eapply prefix_lookup_Some in Hj'; [|done].
    pose proof (built_distinct _ _ _ _ _ (length built) _ event Hi Hj') as E.
    rewrite list_lookup_middle in E by done. specialize (E eq_refl eq_refl). lia. }
  assert (Hnew : shared (built ++ [event]) notes (sink_append c stream event log).1).
  { destruct (append_once c stream event log) as [E|(cursor & E & Hv & Ho & Hfresh)].
    - assert (ours (sink_append c stream event log).1 = ours log) as Eo by (unfold ours; by rewrite E).
      by split; rewrite Eo.
    - set (new := {| sr_event := event; sr_cursor := cursor |}) in *.
      assert (ours (sink_append c stream event log).1 = ours log ++ [new]) as Eo.
      { unfold ours. rewrite E, List.filter_app. simpl. by rewrite (Hmine new eq_refl). }
      assert (length (ours log) = length built) as Hl.
      { destruct Hp as [k Hk]. assert (length (sr_event <$> ours log) <= length built)%nat as Hle.
        { destruct k as [|x k] using rev_ind.
          - exfalso. rewrite app_nil_r in Hk.
            assert (event ∈ sr_event <$> ours log) as Hin' by (rewrite <-Hk; apply elem_of_app; right; by left).
            apply list_elem_of_fmap in Hin' as (r & -> & Hr). apply elem_of_ours in Hr as [_ Hr].
            by apply (Hfresh r Hr).
          - rewrite app_assoc in Hk. apply app_inj_2 in Hk as [-> _]; [|done]. rewrite length_app. lia. }
        rewrite length_fmap in Hle. lia. }
      split; rewrite Eo.
      + rewrite fmap_app. simpl. assert (sr_event <$> ours log = built) as ->; [|done].
        destruct Hp as [k Hk]. apply app_inj_1 in Hk as [-> _]; [done|]. by rewrite length_fmap.
      + rewrite length_app. simpl. lia.
      + apply Forall_app. split; [done|]. by repeat constructor. }
  split; [done|]. intros r Hr Er. rewrite <-Hlen. eapply Hin; [apply Hnew| |done]. by apply append_receipt in Hr.
Qed.

Lemma happen_shared h w log built tries :
  inv start stream identity built tries (w_publisher w) (w_notes w) → shared built (w_notes w) log →
  let (w', log') := happen h (w, log) in
  ∃ built' tries', inv start stream identity built' tries' (w_publisher w') (w_notes w')
    ∧ shared built' (w_notes w') log'.
Proof using EventSinkLaws0.
  intros Hi Hs. destruct h as [source reserve c|c]; cbn [happen].
  - unfold step, publish_next. cbn [at_source at_reserve at_sink].
    rewrite (proj2 (iv_identity _ _ _ _ _ _ _ Hi)).
    pose proof (before_inv _ _ _ _ _ source reserve _ _ Hi) as Hb.
    destruct (before_append source reserve (w_publisher w)) as [[p l] [o|[[event after] complete]]]; cbn [snd];
      destruct Hb as (b & t & Hi' & [more Hpre] & Hl & Hr).
    + exists b, t. split; [done|]. destruct Hs as [Hp Ha Hst]. split; cbn [w_notes]; [|by rewrite acknowledged_app, Hl, app_nil_r|done].
      rewrite Hpre. by apply prefix_app_r.
    + destruct (Hr _ _ _ eq_refl) as [Hc Ep].
      assert (Hs' : shared b (w_notes w ++ l) log).
      { destruct Hs as [Hp Ha Hst]. split; [rewrite Hpre; by apply prefix_app_r| |done].
        by rewrite acknowledged_app, Hl, app_nil_r. }
      pose proof (iv_pending _ _ _ _ _ _ _ Hi') as Hpend. rewrite Ep in Hpend.
      destruct Hpend as (k & b0 & src & _ & _ & -> & Hb0 & _).
      destruct (append_shared b0 event t p (w_notes w ++ l) c log Hi' Hb0 Hs') as [Hs2 Hrec].
      destruct (sink_append c stream event log) as [log' a]. cbn [fst snd] in *.
      pose proof (settles_inv _ _ _ _ _ _ _ _ a _ _ Hi' Hc Ep) as Hset.
      assert (Hk : ∀ n, acknowledged n = [] → shared (b0 ++ [event]) ((w_notes w ++ l) ++ [Asked event] ++ n) log').
      { intros n Hn. destruct Hs2. split; [done| |done]. by rewrite acknowledged_app, (acknowledged_app [Asked event]), Hn, app_nil_r. }
      assert (Hdone : shared (b0 ++ [event])
        ((w_notes w ++ l) ++ [Asked event] ++ (settle event after complete a p).1.2) log').
      { unfold settle. destruct a as [|f|r]; [by apply Hk..|].
        destruct (receipt_valid p event r) eqn:Er; [|by apply Hk].
        unfold receipt_valid in Er. apply andb_true_iff in Er as [Er _]. to_props.
        destruct Hs2. split; [done| |done].
        rewrite acknowledged_app, length_app. specialize (Hrec r eq_refl ltac:(done)).
        match goal with |- (_ + length ?x <= _)%nat => change (length x) with 1%nat end. lia. }
      destruct (settle event after complete a p) as [[p' n] o]. destruct Hset as [t' Hset]. cbn [fst snd] in Hdone.
      exists (b0 ++ [event]), t'. cbn [w_publisher w_notes]. rewrite <-app_assoc in Hset, Hdone. done.
  - exists built, tries. split; [done|]. destruct Hs. by split; rewrite ours_elsewhere.
Qed.

Lemma happens_shared l w log built tries :
  inv start stream identity built tries (w_publisher w) (w_notes w) → shared built (w_notes w) log →
  let (w', log') := happens l (w, log) in
  ∃ built' tries', inv start stream identity built' tries' (w_publisher w') (w_notes w')
    ∧ shared built' (w_notes w') log'.
Proof using EventSinkLaws0.
  revert w log built tries. induction l as [|h l IH]; intros w log built tries Hi Hs; [by exists built, tries|].
  change (happens (h :: l) (w, log)) with (happens l (happen h (w, log))).
  pose proof (happen_shared h w log built tries Hi Hs) as H. destruct (happen h (w, log)) as [w' log'].
  destruct H as (b & t & Hi' & Hs'). by eapply IH.
Qed.

(** What a subscriber decodes. *)
Definition event_record (r : SinkRecord) : EventRecord := {|
  er_schema_id := ne_schema_id (sr_event r);
  er_schema_version := ne_schema_version (sr_event r);
  er_cursor_version := cu_version (sr_cursor r);
  er_cursor_offset := cu_offset (sr_cursor r);
  er_payload := ne_payload (sr_event r) |}.

Definition decodes (source : ReplayCursor * OutputEvent) (r : SinkRecord) : Prop :=
  decode_record CURSOR_VERSION (event_record r)
  = Ok {| do_byte_cursor := advance source.2 source.1; do_output := source.2 |}.

Lemma follows_wf from l stop :
  cursor_wf from → Forall (λ s, event_wf s.2) l → follows from l stop → Forall (λ s, cursor_wf s.1) l.
Proof.
  revert from. induction l as [|[f event] l IH]; intros from Hf Hw; [done|].
  inversion Hw as [|? ? He Hl]; subst. intros [-> Hn]. constructor; [done|]. eapply IH; [|done..].
  destruct event as [[]|]; simpl in *; tauto.
Qed.

Lemma publishes_decodes k source r :
  cursor_wf source.1 → event_wf source.2 → stored r → publishes identity k source (sr_event r) → decodes source r.
Proof.
  intros Hf Hw [Hv Ho] (payload & He & E & _). unfold decodes, event_record. rewrite E, Hv. cbn.
  eapply (event_roundtrip CURSOR_VERSION _ _ _ _ _ _ (cu_offset (sr_cursor r)) Hf Hw); [lia|done].
Qed.

(** C22: Exactly once, in order.  With a sink that stores an identity at most once,
    and whatever it refuses, loses the reply to, or stores of other writers, the
    records of this publisher in the log are, one for one, the first of the events
    taken from the attachment: all those acknowledged and at most one more.  What a
    subscriber decodes from them is exactly those events and their cursors. *)
Theorem delivered_exactly_once (l : list happening) (log : Log) :
  cursor_wf start → Forall (λ r, mine identity r = false) (records log) →
  let s := happens l (World_new (Publisher_new start stream identity), log) in
  let events := taken (w_notes s.1) in
  let acks := acknowledged (w_notes s.1) in
  Forall (λ source, event_wf source.2) events →
  ∃ n, (length acks <= n <= length acks + 1)%nat ∧ (n <= length events)%nat
    ∧ Forall2 decodes (take n events) (ours s.2).
Proof using EventSinkLaws0.
  intros Hstart Hlog s events acks Hwf.
  assert (Hempty : ours log = []).
  { unfold ours. induction Hlog as [|r rs Hr _ IH]; [done|]. simpl. by rewrite Hr, IH. }
  pose proof (happens_shared l (World_new (Publisher_new start stream identity)) log [] []
    (publisher_new_inv start stream identity)) as H.
  change (happens l (_, log)) with s in H. clearbody s. destruct s as [w log'].
  destruct H as (built & tries & Hi & [Hp Ha Hs]); [split; rewrite Hempty; cbn; done || (by constructor)|].
  cbn [fst snd] in *. pose proof (pending_lengths _ _ _ _ _ _ _ Hi) as Hlen.
  pose proof (prefix_length _ _ Hp) as Hle. rewrite length_fmap in Hle.
  exists (length (ours log')). split_and!; [exact Ha | unfold acks; lia | unfold events; lia |].
  apply Forall2_same_length_lookup. split; [rewrite length_take; unfold events; lia|].
  intros k source r Hk Hr. apply lookup_take_Some in Hk as [Hk Hlt].
  assert (Hb : (sr_event <$> ours log') !! k = Some (sr_event r)) by by rewrite list_lookup_fmap, Hr.
  eapply prefix_lookup_Some in Hb; [|done]. destruct (iv_built _ _ _ _ _ _ _ Hi _ _ Hb) as (source' & Hk' & Hpub).
  assert (source' = source) as -> by (unfold events in Hk; congruence).
  pose proof (follows_wf _ _ _ Hstart Hwf (iv_follows _ _ _ _ _ _ _ Hi)) as Hfrom.
  apply (publishes_decodes k source r); [apply (Forall_lookup_1 _ _ _ _ Hfrom Hk)
    | apply (Forall_lookup_1 _ _ _ _ Hwf Hk) | apply (Forall_lookup_1 _ _ _ _ Hs Hr) | done].
Qed.
End sink.
End publisher.

(** ** A sink in memory *)

#[export] Instance demo_stream : EventStream := {|
  CURSOR_VERSION := 1; StreamKey := Z; event_id_new := λ id, len id <=? 128; schema_id_new := λ _, true |}.

(** The choice: does the append commit, and does its reply arrive? *)
Definition memory_append (c : bool * bool) (s : Z) (event : NewEvent) (log : list SinkRecord)
    : list SinkRecord * sink_answer :=
  let known := List.find (λ r, bool_decide (ne_id (sr_event r) = ne_id event)) log in
  match known with
  | Some r => (log, if c.2 then Sink_receipt r else Sink_dropped)
  | None =>
    if c.1
    then
      let r := {| sr_event := event; sr_cursor := {| cu_stream := s; cu_version := 1; cu_offset := 1 + len log |} |} in
      (log ++ [r], if c.2 then Sink_receipt r else Sink_failed SinkFailure_CommitUnknown)
    else (log, Sink_failed SinkFailure_Capacity)
  end.

(** Another writer, with identifiers of another format. *)
Definition foreign (log : list SinkRecord) : SinkRecord := {|
  sr_event := {| ne_id := bs "other"; ne_schema_id := bs "other"; ne_schema_version := 1; ne_payload := [] |};
  sr_cursor := {| cu_stream := 0; cu_version := 1; cu_offset := 1 + len log |} |}.

#[export] Instance memory_sink : EventSink := {|
  Log := list SinkRecord; Choice := bool * bool; records := λ log, log;
  sink_append := memory_append; sink_others := λ _ log, log ++ [foreign log] |}.

#[export] Instance memory_sink_laws : EventSinkLaws memory_sink 5.
Proof.
  split.
  - intros [commit reply] s event log. cbn. unfold memory_append.
    destruct (List.find _ log) as [r|] eqn:E; [by left|]. destruct commit; cbn; [|by left]. right.
    eexists. split; [done|]. split; [done|]. cbn. split; [len_facts; lia|].
    intros r Hr Hid. apply list_elem_of_In in Hr. pose proof (List.find_none _ _ E r Hr) as Hn. cbn in Hn.
    by rewrite bool_decide_eq_true_2 in Hn.
  - intros [commit reply] s event log r. cbn. unfold memory_append.
    destruct (List.find _ log) as [r'|] eqn:E; cbn.
    + destruct reply; [|done]. intros [= ->]. apply List.find_some in E as [E _]. by apply list_elem_of_In.
    + destruct commit; cbn; [|done]. destruct reply; [|done]. intros [= <-]. apply elem_of_app. right. by left.
  - intros c log. exists [foreign log]. split; [done|]. by repeat constructor.
Qed.

(** A page whose first append is refused, whose second commits with its reply lost
    and whose third is answered from the log; then the completion. *)
Definition demo_start : ReplayCursor := {| rc_lifetime := SessionLifetime_new 7 1; rc_offset := 0 |}.
Definition demo_page : OutputEvent :=
  Event_Replay (Page_Bytes demo_start {| rc_lifetime := SessionLifetime_new 7 1; rc_offset := 3 |} [104; 105; 10]).
Definition demo_happenings : list happening := [
  Publish (Source_event demo_page) (λ _, true) (false, false);
  Elsewhere (true, true);
  Publish Source_dropped (λ _, true) (true, false);
  Publish Source_dropped (λ _, true) (true, true);
  Publish (Source_event sample_completion) (λ _, true) (true, true);
  Publish Source_dropped (λ _, true) (true, true)].
Definition demo_world : World * list SinkRecord :=
  happens demo_happenings (World_new (Publisher_new demo_start 0 5), []).

Example demo_publishes :
  length (records demo_world.2) = 3%nat ∧ length (ours 5 demo_world.2) = 2%nat
  ∧ length (asked (w_notes demo_world.1)) = 4%nat
  ∧ pu_complete (w_publisher demo_world.1) = true
  ∧ rc_offset (pu_acknowledged (w_publisher demo_world.1)) = 3.
Proof. vm_compute. auto. Qed.

Lemma demo_taken :
  taken (w_notes demo_world.1)
  = [(demo_start, demo_page); ({| rc_lifetime := SessionLifetime_new 7 1; rc_offset := 3 |}, sample_completion)].
Proof. vm_compute. reflexivity. Qed.

Lemma demo_wf : Forall (λ s, event_wf s.2) (taken (w_notes demo_world.1)).
Proof.
  rewrite demo_taken. apply Forall_cons; split; [|apply Forall_singleton].
  - cbn. unfold cursor_wf, lifetime_wf, u64_max. cbn. split_and!; try lia.
    repeat (apply Forall_cons; split; [unfold is_byte; lia|]). constructor.
  - cbn. unfold i32_wf. lia.
Qed.

Lemma delivered_exactly_once_witness :
  ∃ n, (2 <= n)%nat ∧ Forall2 decodes (take n (taken (w_notes demo_world.1))) (ours 5 demo_world.2).
Proof.
  refine (match delivered_exactly_once demo_start 0 5 demo_happenings [] _ _ _ with
          | ex_intro _ n (conj H1 (conj H2 H3)) => ex_intro _ n (conj (proj1 H1) H3) end).
  - vm_compute. repeat split; discriminate.
  - constructor.
  - exact demo_wf.
Defined.
